(* ===== verification/_CoqProject ===== *)
-Q . S2P
Prelude.v
Primes.v
Goldilocks.v
Field.v
RangeConstraints.v
EvalResult.v
AffineExpression.v
AffineSolver.v
SymbolicExpr.v
Effect.v
AffineSymbolic.v
AffineSymbolicSolver.v
Interpreter.v
JitCode.v
PaddedBitVec.v
TraceData.v
SequenceIterator.v
ExtensionField.v
ExpressionEvaluator.v
BusAccumulator.v
WriteOnceMemory.v
PanicMonad.v
FixedColumns.v
PartialEvaluator.v
Identities.v
SolverRanges.v
GlobalConstraints.v
GlobalConstraintsSound.v
GlobalConstraintsPass.v
RowEvaluation.v
IdentityConversion.v
RiscvElem.v
RiscvNames.v
RiscvTrace.v
RiscvArith.v
RiscvPoseidon.v
RiscvPil.v
RiscvExec.v
RiscvRun.v
RiscvDemo.v
RiscvModes.v
RiscvRows.v
RiscvInstr.v
RiscvAsm.v
RiscvCodeGen.v
RiscvIsa.v
RiscvCompile.v
RiscvSource.v
Batches.v
RiscvLayout.v
RiscvTranslate.v
RiscvMemory.v
DoubleSorted.v
DoubleSortedColumns.v
RiscvLogs.v
RiscvSubmachines.v
RiscvBlocks.v
RiscvMachines.v
MerkleTree.v
ProverData.v
Continuations.v
Types.v
Unifier.v
