(* ===== verification/Prelude.v ===== *)
(** * powdr: a verified model of witness generation, of RISC-V programs from code generation to the executor, and of the type unifier

    powdr compiles machines written in its assembly and constraint language to systems of
    polynomial identities, and then generates a witness: an assignment of field elements to the
    cells of a table that satisfies every identity. This development models the parts of the
    program that compute: the arithmetic of the field, the witness generator (solvers, symbolic
    solvers and their generated code, storage, memory machines, the bus), the code generator for RISC-V
    programs and their executor with the machines it fills, the chunks of long executions, and the
    unifier of the type checker.

    ** The program's parts and how they interact

    - [number/] implements the prime fields. Everything else is generic in the trait
      [FieldElement]; Goldilocks is the field with an implementation in the repository itself.
    - [executor/src/witgen/range_constraints.rs] describes what is known of the value of a cell,
      an interval (possibly wrapping around the modulus) and a bit mask.
    - [executor/src/witgen/affine_expression.rs] and [eval_result.rs]: an identity, with the known
      cells substituted, is an affine expression; the solver turns it into assignments or new
      range constraints. [sequence_iterator.rs] decides in which order a block machine tries its
      identities, and [data_structures/] stores the rows. Before that, [data_structures/identity.rs]
      turns lookups into sends and receives, and [global_constraints.rs] derives range constraints that
      hold in all rows and drops the identities that say nothing else.
    - [executor/src/witgen/jit/]: the same reasoning done once, symbolically. Symbolic expressions
      over known variables are the coefficients of affine symbolic expressions, their solver
      emits effects (assignments, assertions, range constraints, machine calls), and the effects
      are run by an interpreter or compiled to Rust and linked with the run-time code in
      [jit/includes/].
    - [executor/src/witgen/machines/] answer the calls that other machines make (lookups and
      permutations): two memory machines are modelled, which keep a log of the calls and turn it
      into columns at the end.
    - [executor/src/witgen/bus_accumulator/] computes second-stage columns from a finished witness.
    - [riscv-executor/] runs a program of the RISC-V machine ([riscv/src/riscv_gl.asm]): each
      instruction writes a row of the Main machine and sends operations to the other machines,
      which [memory.rs] and [submachines.rs] turn into columns.
    - [riscv/src/large_field/code_gen.rs] translates a RISC-V program to statements of that
      machine, [analysis/src/vm/batcher.rs] cuts the statements into batches, and the executor
      lays the batches out as the lines of its program.
    - [riscv/src/continuations.rs] and [riscv/src/continuations/] split a long execution into
      chunks that hand over the memory by a Merkle tree of pages.
    - [pil-analyzer/src/type_unifier.rs] unifies the types of [ast/src/parsed/types.rs] in the
      front end.

    ** Files

    Foundations:
    - [Prelude]: machine integers with their width, panics as [None], lists, tactics, the hint
      databases. [PanicMonad]: the state monad in which a run can panic, with its rules.
    - [Primes]: Pocklington's criterion, by which the modulus of Goldilocks is proved prime.
    - [Goldilocks]: [number/src/goldilocks.rs]. Elements are 64-bit words, the reduction of 128-bit
      products, the inversion chain, exponentiation, the conversions.
    - [Field]: the trait [FieldElement] of [number/src/traits.rs] as a class of operations and a
      class of laws; Goldilocks is an instance. All later files are proved against the class.

    Witness generation:
    - [RangeConstraints]: [range_constraints.rs]; [EvalResult]: [eval_result.rs].
    - [AffineExpression]: the expressions and the solver of [affine_expression.rs];
      [AffineSolver]: their correctness.
    - [SymbolicExpr]: [jit/symbolic_expression.rs]; [Effect]: [jit/variable.rs], [jit/effect.rs].
    - [AffineSymbolic]: [jit/affine_symbolic_expression.rs]; [AffineSymbolicSolver]: its correctness.
    - [Interpreter]: [jit/interpreter.rs], against the semantics of effects. The table, the fixed
      columns and the other machines are an interface (the class [World]).
    - [JitCode]: the field code in [jit/includes/] and the expressions and conditions that
      [jit/compiler.rs] emits, as the Rust code evaluates.
    - [PaddedBitVec], [TraceData]: [data_structures/padded_bitvec.rs] and [finalizable_data.rs],
      with the cell access of [jit/includes/interface.rs].
    - [SequenceIterator]: [sequence_iterator.rs].
    - [ExtensionField]: [bus_accumulator/fp2.rs], [fp4.rs] and [extension_field.rs];
      [ExpressionEvaluator]: [executor-utils/src/expression_evaluator.rs] over the expressions of
      [ast/src/analyzed/mod.rs]; [BusAccumulator]: [bus_accumulator/mod.rs].
    - [FixedColumns]: [executor-utils/src/lib.rs] and [data_structures/column_map.rs];
      [PartialEvaluator]: [evaluators/] and [ast/src/analyzed/contains_next_ref.rs]; [RowEvaluation]:
      its correctness for a row; [Identities]: [data_structures/identity.rs]; [IdentityConversion]:
      its correctness.
    - [GlobalConstraints]: [global_constraints.rs]; [SolverRanges]: what the solver answers for it;
      [GlobalConstraintsSound], [GlobalConstraintsPass]: its correctness, over tables.
    - [WriteOnceMemory]: [machines/write_once_memory.rs].
    - [DoubleSorted]: [machines/double_sorted_witness_machine_32.rs]; [DoubleSortedColumns]: its
      columns against [std/machines/large_field/memory.asm] and [memory_with_bootloader_write.asm].

    RISC-V executor:
    - [RiscvElem]: the values [Elem] of [riscv-executor/src/lib.rs]; [RiscvNames]: its columns and
      registers; [RiscvTrace]: the trace builder and the modes; [RiscvArith]: [arith.rs];
      [RiscvPoseidon]: [poseidon_gl.rs]; [RiscvPil]: [pil.rs]; [RiscvExec]: the instructions and
      the expressions; [RiscvRun]: the loop over the program.
    - [RiscvDemo]: a small program; [RiscvModes]: the modes agree; [RiscvRows], [RiscvInstr]: the
      rows against the constraints of [riscv/src/riscv_gl.asm].
    - [RiscvMemory]: [memory.rs] against [memory.asm]; [RiscvLogs]: the operations a run sends.
    - [RiscvSubmachines]: [submachines.rs]; [RiscvBlocks], [RiscvMachines]: its columns against
      [std/machines/large_field/binary.asm], [shift.asm] and [std/machines/split/split_gl.asm].

    RISC-V programs:
    - [RiscvAsm]: what blocks of the machine's instructions do, on integers, and the proof that the
      executor simulates it.
    - [RiscvCodeGen]: [riscv/src/large_field/code_gen.rs] (one [gen_] definition per arm of
      [process_instruction], and [translate_program_impl]), the registers of [riscv/src/code_gen.rs],
      the labels of [isa-utils/src/lib.rs] and the handler of [large_field/runtime.rs].
    - [RiscvIsa]: the reference semantics of RV32IM; [RiscvCompile]: the generated statements
      compute it, instruction by instruction; [RiscvSource]: whole programs of the reference are
      simulated on their generated code.
    - [Batches]: [analysis/src/vm/batcher.rs] and [FunctionStatements] of
      [ast/src/asm_analysis/mod.rs]; [RiscvLayout]: code generator, batcher and
      [preprocess_main_function] composed; [RiscvTranslate]: the start of a translated program, its
      data, its call and its return, and with them the run from beginning to end.

    Continuations and the front end:
    - [MerkleTree]: [riscv/src/continuations/memory_merkle_tree.rs].
    - [ProverData]: the prover data in the initial memory ([load_initial_memory] of
      [continuations.rs]) and its reader in [riscv-runtime/src/io.rs].
    - [Continuations]: [continuations/bootloader.rs] and the choice and update of the pages of a
      chunk in [continuations.rs].
    - [Types]: [ast/src/parsed/types.rs] and the symbol paths of [ast/src/parsed/asm.rs];
      [Unifier]: [pil-analyzer/src/type_unifier.rs].

    ** Conventions

    A Rust function becomes a function of the same name (with a prefix such as [rc_] or [cd_] where
    names clash); a method that changes [self] returns the new value, or is a computation of the
    panic monad. A function that can panic (an [assert!], an [unwrap], an index out of range,
    integer overflow with checks on) returns an [option] whose [None] is the panic, so that the
    theorems can state where it cannot happen. [Result] is a sum or an inductive type of outcomes.
    Integers of the code are [Z] with their width written out, or [nat] for lengths and indices.
    Ordered maps are association lists sorted by key where their order shows, with sortedness part
    of the invariant, and finite maps elsewhere; the order in which a hash set is visited is that of
    [elements], which no theorem depends on beyond its being some order.

    Bounds: the loop of [gl_pow] consumes one bit of a 64-bit exponent per round and gets 64 rounds
    of fuel, which [goldilocks_pow] shows to be enough for every exponent; the expression evaluator
    gets one unit of fuel per level of intermediate definitions (and so does the partial evaluator), and [expression_evaluation] shows
    that fuel above the rank of acyclic definitions is enough; a run of a program gets one unit per
    instruction, and C1 shows that the steps of the reference, 13 lines for each and a constant for
    start, data and return, are enough for it to return; the batcher gets one unit per statement, which
    always is enough (C9); the unifier gets one per level of recursion, and [unifier_terminates] shows that
    there is a depth from which on the result is the same. All other recursion is structural.

    The executor is modelled on a little-endian host; its caches of links and its profiler, which
    do not change results, and log messages are left out. Binary search of the standard library is
    a parameter, with its documented contract as hypothesis.

    ** What the theorems show

    - C1, C2, C8 to C10, RISC-V programs: the statements generated for each instruction exist and
      compute it; statements become batches and lines one for one, and labels stand for the positions
      of the instructions they precede; a program that returns in the reference semantics returns in
      the executor, with the reference's registers and memory.
    - C3 to C7, C33, C34, RISC-V executor: an executed instruction leaves a row that satisfies the
      constraints of the Main machine, if its operands are in the ranges that [riscv_gl.asm] states,
      and sends what its links declare, except that the bootloader's store goes out under the id of an
      ordinary one; the operations form a log of the memory, in which reads return what was last
      written; the columns of the binary, shift and split machines satisfy the constraints of these
      machines, and those of the memory machine do for degrees above the number of operations, not
      for a degree equal to it; the modes agree; 256-bit arithmetic is right, where it divides for
      moduli that are not zero.
    - C11 to C13, unifier: an accepted set of constraints is solved by the substitutions, the result
      is the most general one, and the unifier terminates.
    - C14 to C18, continuations: the inputs of a chunk pass the checks of the bootloader, its pages
      cover all accesses, the Merkle tree keeps its hashes and proves its pages, and the data of the
      prover is counted wrongly for its reader.
    - C19 to C22, memory machine: calls are answered as a memory would and logged, none panics when the
      callers keep the order of steps, and the columns satisfy the constraints (with bootloader
      writes, exactly if several addresses were accessed, or none); without bootloader writes each
      accepted call is shown to have its row, under its selector.
    - C35, write-once memory: the arguments with at most one variable of a complete lookup are found
      in a row of the finished table.
    - C23 to C25, identities: lookups and permutations become sends and receives that find each other;
      on programs without publics, the range constraints derived for all rows hold in every table that satisfies the identities,
      and those removed are implied by what is kept, except for range checks on intermediate columns;
      expressions are evaluated to affine expressions with their value.
    - C26 to C28, affine solver: the solver for one variable is exact; the solver with range
      constraints returns only consequences of the equation as long as no product of a coefficient
      and an allowed value wraps around, and two of its methods without that condition.
    - C29 to C32, symbolic solver, interpreter and generated code: the constructors simplify
      correctly (division of constants apart), the effects emitted for an equation hold in each of
      its solutions, the stack code refines the semantics of the effects, and generated code
      agrees with the interpreter.
    - C36 to C38, bus: the caching evaluator computes the meaning of expressions, the extensions
      are fields for Goldilocks and BabyBear, and matching interactions cancel.
    - C39, C40, range constraints and field: every operation over-approximates the values it
      describes; the optimised 64-bit arithmetic computes sums, differences and products in the
      field.
    Further theorems in the files are not listed as properties: the conversions and powers of
    Goldilocks, the constructors and the bisection of range constraints, the equations on which
    the solver answers wrongly when products wrap around, the validity check of the interpreter,
    the table as a matrix, finalization, the order and termination of the processing sequence and its
    cache, arithmetic of symbolic affine expressions, the generic field of generated code, the fields
    that are not extension fields, and others.

    ** What is not modelled

    Third-party implementations of fields (plonky3, arkworks) appear only through the class of
    fields. Code that does input and output, calls cargo or wraps a prover is left out.

    Of the translation of RISC-V programs: the code generator writes text which the parser, generated
    from a grammar, reads back; the model starts at the statements which that text denotes. The
    reference semantics stops at [ecall], [ebreak] and [unimp]: the statements of the single system
    calls are a parameter, and so are the lines of the bootloader. Programs with locations for
    debuggers are translated by the model, but the theorems on the layout (C1, C8) exclude them,
    since the executor counts the locations of instructions apart. The reader of ELF files and the
    code generator for small fields are not modelled, nor are the constraints of the memory of
    small fields.

    Of the witness generator: rows and processors ([rows.rs], [processor.rs]), the identity queue and
    the inference of the JIT, the extraction of machines, the sorted and
    the 16-bit memory machines. Of the front end only the unifier and the batches are modelled: the
    importer works on the file system, the PIL evaluator calls compiled functions, and the other
    passes rewrite syntax trees whose visitors are generated by macros. *)

From stdpp Require Import base list option gmap.
From Stdlib Require Import ZArith Lia Znumtheory Morphisms.

#[global] Open Scope Z_scope.

(** ** Machine integers

    A Rust [uN] is a [Z] in [[0, 2^N)]; every operation the sources use is
    written out with its width [w], so wrap-around and overflow checks are
    explicit. A panicking computation (overflow check, [assert!], [unwrap])
    returns [None]. *)

Definition in_width (w x : Z) : Prop := 0 <= x < 2 ^ w.

(** Rust: [a.overflowing_add(b)] on a [w]-bit unsigned integer. *)
Definition overflowing_add (w a b : Z) : Z * bool :=
  ((a + b) mod 2 ^ w, 2 ^ w <=? a + b).

(** Rust: [a.overflowing_sub(b)]. *)
Definition overflowing_sub (w a b : Z) : Z * bool :=
  ((a - b) mod 2 ^ w, a <? b).

(** Rust: [a.wrapping_add(b)]. *)
Definition wrapping_add (w a b : Z) : Z := (a + b) mod 2 ^ w.

(** [a + b], [a - b], [a * b] with the overflow check on: [None] is the panic. *)
Definition checked_add (w a b : Z) : option Z :=
  if a + b <? 2 ^ w then Some (a + b) else None.
Definition checked_sub (a b : Z) : option Z :=
  if b <=? a then Some (a - b) else None.
Definition checked_mul (w a b : Z) : option Z :=
  if a * b <? 2 ^ w then Some (a * b) else None.

(** Rust: [!a]. *)
Definition bitnot (w a : Z) : Z := Z.ones w - a.

(** Rust: [x as uN] for a non-negative or two's complement [x]. *)
Definition as_width (w x : Z) : Z := x mod 2 ^ w.

(** [assert!(b)] and [debug_assert!(b)]: continue, or panic. *)
Definition assert_that (b : bool) : option unit := if b then Some tt else None.

(** Rust: [N - x.leading_zeros()], the number of bits needed for [x]. *)
Definition bit_length (x : Z) : Z := if x =? 0 then 0 else Z.log2 x + 1.

(** Rust: [bool as u64]. *)
Definition b2z (b : bool) : Z := if b then 1 else 0.

(** ** Automation *)

Create HintDb powdr.

(** Turns boolean comparisons in the context and the goal into propositions. *)
Ltac b2p :=
  repeat match goal with
    | H : _ && _ = true |- _ => apply andb_prop in H; destruct H
    | H : _ && _ = false |- _ => apply andb_false_iff in H
    | H : _ || _ = true |- _ => apply orb_prop in H
    | H : _ || _ = false |- _ => apply orb_false_elim in H; destruct H
    | H : negb _ = true |- _ => apply negb_true_iff in H
    | H : negb _ = false |- _ => apply negb_false_iff in H
    | H : (_ <? _) = true |- _ => apply Z.ltb_lt in H
    | H : (_ <? _) = false |- _ => apply Z.ltb_ge in H
    | H : (_ <=? _) = true |- _ => apply Z.leb_le in H
    | H : (_ <=? _) = false |- _ => apply Z.leb_gt in H
    | H : (_ =? _) = true |- _ => apply Z.eqb_eq in H
    | H : (_ =? _) = false |- _ => apply Z.eqb_neq in H
    end.

(** Case split on the first [if] of the goal, with its condition as a fact. *)
Ltac case_if :=
  match goal with
  | |- context [if ?b then _ else _] => let E := fresh "E" in destruct b eqn:E; b2p
  end.

Ltac case_if_in H :=
  match type of H with
  | context [if ?b then _ else _] => let E := fresh "E" in destruct b eqn:E; b2p
  end.

(** ** Congruence modulo [p]

    The field arithmetic of the sources is arithmetic of canonical
    representatives; [eqm p] is the equality of residues behind it, with the
    [Proper] instances that let [rewrite] work under [+], [-] and [*]. *)

Definition eqm (p a b : Z) : Prop := (p | a - b).

Lemma eqm_iff p a b : eqm p a b <-> a mod p = b mod p.
Proof.
  unfold eqm. split; intros H.
  - destruct H as [k Hk]. replace a with (b + k * p) by lia. apply Z_mod_plus_full.
  - destruct (Z.eq_dec p 0) as [->|Hp].
    + rewrite !Z.mod_0_r in H. exists 0. lia.
    + apply Z.mod_divide; [easy|]. rewrite Zminus_mod, H, Z.sub_diag. now apply Z.mod_0_l.
Qed.

#[export] Instance eqm_equivalence p : Equivalence (eqm p).
Proof. split; intros ?; intros; rewrite !eqm_iff in *; congruence. Qed.

#[export] Instance eqm_add p : Proper (eqm p ==> eqm p ==> eqm p) Z.add.
Proof. intros a a' [k Hk] b b' [l Hl]. exists (k + l). lia. Qed.

#[export] Instance eqm_sub p : Proper (eqm p ==> eqm p ==> eqm p) Z.sub.
Proof. intros a a' [k Hk] b b' [l Hl]. exists (k - l). lia. Qed.

#[export] Instance eqm_opp p : Proper (eqm p ==> eqm p) Z.opp.
Proof. intros a a' [k Hk]. exists (- k). lia. Qed.

#[export] Instance eqm_mul p : Proper (eqm p ==> eqm p ==> eqm p) Z.mul.
Proof. intros a a' [k Hk] b b' [l Hl]. exists (k * b + a' * l). nia. Qed.

Lemma eqm_mod p a : eqm p (a mod p) a.
Proof. apply eqm_iff. now rewrite Zmod_mod. Qed.

Lemma eqm_small p a b : 0 <= a < p -> 0 <= b < p -> eqm p a b -> a = b.
Proof. intros Ha Hb H%eqm_iff. now rewrite !Z.mod_small in H by lia. Qed.

Lemma eqm_modulus p a k : eqm p (a + k * p) a.
Proof. exists k. lia. Qed.

Lemma mod_unique p a r : 0 <= r < p -> eqm p a r -> a mod p = r.
Proof. intros Hr H%eqm_iff. rewrite H. now apply Z.mod_small. Qed.

Lemma eqm_pow p a b n : 0 <= n -> eqm p a b -> eqm p (a ^ n) (b ^ n).
Proof.
  intros Hn H. pattern n. apply natlike_ind; [reflexivity| |easy].
  intros x Hx IH. rewrite !Z.pow_succ_r by easy. now rewrite IH, H.
Qed.

(** Closes a congruence whose sides are equal up to linear arithmetic. *)
Lemma eqm_of_eq p a b : a = b -> eqm p a b.
Proof. now intros ->. Qed.

Ltac eqm_lia := apply eqm_of_eq; lia.

#[export] Hint Resolve eqm_mod eqm_modulus : powdr.


(** ** The panic monad *)

(** One step of a computation that does not panic. *)
Lemma bind_eq {A B} (o : option A) (a : A) (f : A -> option B) r :
  o = Some a -> f a = r -> o ≫= f = r.
Proof. now intros -> <-. Qed.

Lemma bind_inv {A B} (o : option A) (f : A -> option B) r :
  o ≫= f = Some r -> exists a, o = Some a /\ f a = Some r.
Proof. destruct o; cbn; [eauto|discriminate]. Qed.

Lemma assert_that_true b : assert_that b = Some tt <-> b = true.
Proof. destruct b; cbn; split; congruence. Qed.

(** [a << k], [a >> k] on a [w]-bit integer: the shift amount is checked. *)
Definition checked_shl (w a k : Z) : option Z :=
  if k <? w then Some (Z.shiftl a k mod 2 ^ w) else None.
Definition checked_shr (w a k : Z) : option Z :=
  if k <? w then Some (Z.shiftr a k) else None.

(** ** Bit masks *)

(** [x & m == x]: [x] has no bit outside [m]. *)
Definition submask (x m : Z) : Prop := Z.land x m = x.

Lemma submask_testbit x m :
  submask x m <-> forall i, Z.testbit x i = true -> Z.testbit m i = true.
Proof.
  unfold submask. split.
  - intros H i Hi. rewrite <- H, Z.land_spec in Hi. now apply andb_prop in Hi.
  - intros H. apply Z.bits_inj. intros i. rewrite Z.land_spec.
    destruct (Z.testbit x i) eqn:E; [now rewrite (H i E)|easy].
Qed.

Lemma submask_refl x : submask x x.
Proof. apply Z.land_diag. Qed.

Lemma submask_trans x m n : submask x m -> submask m n -> submask x n.
Proof. rewrite !submask_testbit. auto. Qed.

Lemma submask_lor_l x m n : submask x m -> submask x (Z.lor m n).
Proof. rewrite !submask_testbit. intros H i Hi. rewrite Z.lor_spec, (H i Hi). easy. Qed.

Lemma submask_lor_r x m n : submask x n -> submask x (Z.lor m n).
Proof. rewrite Z.lor_comm. apply submask_lor_l. Qed.

Lemma submask_land x m n : submask x m -> submask x n -> submask x (Z.land m n).
Proof. unfold submask. intros Hm Hn. now rewrite Z.land_assoc, Hm. Qed.

Lemma submask_le x m : 0 <= x -> 0 <= m -> submask x m -> x <= m.
Proof.
  unfold submask. intros Hx Hm H.
  assert (Hd : m = Z.lor (Z.ldiff m x) x).
  { apply Z.bits_inj. intros i. rewrite Z.lor_spec, Z.ldiff_spec, <- H, Z.land_spec.
    destruct (Z.testbit x i), (Z.testbit m i); easy. }
  rewrite <- Z.lxor_lor in Hd by apply Z.land_ldiff.
  rewrite <- Z.add_nocarry_lxor in Hd by apply Z.land_ldiff.
  assert (0 <= Z.ldiff m x) by (apply Z.ldiff_nonneg; lia). lia.
Qed.

Lemma submask_ones x k : 0 <= k -> 0 <= x < 2 ^ k -> submask x (Z.ones k).
Proof. intros Hk Hx. unfold submask. rewrite Z.land_ones by easy. now apply Z.mod_small. Qed.

Lemma submask_shiftl x m k : 0 <= k -> submask x m -> submask (Z.shiftl x k) (Z.shiftl m k).
Proof. unfold submask. intros Hk H. now rewrite <- Z.shiftl_land, H. Qed.

Lemma submask_mod_pow2 x m i : 0 <= i -> submask x m -> submask (x mod 2 ^ i) (m mod 2 ^ i).
Proof.
  rewrite !submask_testbit. intros Hi H j. rewrite <- !Z.land_ones, !Z.land_spec by easy.
  intros Hj. apply andb_prop in Hj as [Hx Ho]. now rewrite (H j Hx), Ho.
Qed.

(** A bit of a sum: the two bits and the carry into it. *)
Lemma testbit_add a b i : 0 <= i ->
  Z.testbit (a + b) i =
  xorb (xorb (Z.testbit a i) (Z.testbit b i)) (2 ^ i <=? a mod 2 ^ i + b mod 2 ^ i).
Proof.
  intros Hi. assert (0 < 2 ^ i) by (apply Z.pow_pos_nonneg; lia).
  rewrite !Z.testbit_odd, !Z.shiftr_div_pow2 by easy.
  pose proof (Z.mod_pos_bound a (2 ^ i) ltac:(lia)).
  pose proof (Z.mod_pos_bound b (2 ^ i) ltac:(lia)).
  pose proof (Z.div_mod a (2 ^ i) ltac:(lia)). pose proof (Z.div_mod b (2 ^ i) ltac:(lia)).
  set (qa := a / 2 ^ i) in *. set (qb := b / 2 ^ i) in *.
  destruct (Z.leb_spec (2 ^ i) (a mod 2 ^ i + b mod 2 ^ i)).
  - replace ((a + b) / 2 ^ i) with (qa + qb + 1)
      by (apply (Z.div_unique_pos _ _ _ (a mod 2 ^ i + b mod 2 ^ i - 2 ^ i)); lia).
    now rewrite !Z.odd_add.
  - replace ((a + b) / 2 ^ i) with (qa + qb)
      by (apply (Z.div_unique_pos _ _ _ (a mod 2 ^ i + b mod 2 ^ i)); lia).
    now rewrite Z.odd_add, Bool.xorb_false_r.
Qed.

(** Masks of a sum: a bit outside both masks can only come from a carry, and the
    carries are monotone. *)
Lemma submask_add x y m n : 0 <= x -> 0 <= y -> 0 <= m -> 0 <= n ->
  submask x m -> submask y n -> submask (x + y) (Z.lor (Z.lor (m + n) m) n).
Proof.
  intros Hx Hy Hm Hn Hxm Hyn. apply submask_testbit. intros i Hi.
  destruct (Z.lt_ge_cases i 0) as [Hneg|Hpos]; [now rewrite Z.testbit_neg_r in Hi|].
  rewrite !Z.lor_spec.
  destruct (Z.testbit m i) eqn:Em; [now rewrite orb_true_r|].
  destruct (Z.testbit n i) eqn:En; [now rewrite !orb_true_r|].
  assert (Z.testbit x i = false) as Ex.
  { destruct (Z.testbit x i) eqn:E; [|easy]. rewrite submask_testbit in Hxm.
    rewrite (Hxm i E) in Em. discriminate. }
  assert (Z.testbit y i = false) as Ey.
  { destruct (Z.testbit y i) eqn:E; [|easy]. rewrite submask_testbit in Hyn.
    rewrite (Hyn i E) in En. discriminate. }
  rewrite testbit_add, Ex, Ey in Hi by easy. rewrite testbit_add, Em, En by easy.
  cbn [xorb orb] in *. rewrite !orb_false_r in *. destruct (2 ^ i <=? _) eqn:E in Hi; [|easy].
  assert (0 < 2 ^ i) by (apply Z.pow_pos_nonneg; lia).
  pose proof (Z.mod_pos_bound x (2 ^ i) ltac:(lia)). pose proof (Z.mod_pos_bound y (2 ^ i) ltac:(lia)).
  pose proof (Z.mod_pos_bound m (2 ^ i) ltac:(lia)). pose proof (Z.mod_pos_bound n (2 ^ i) ltac:(lia)).
  assert (x mod 2 ^ i <= m mod 2 ^ i) by (apply submask_le; try lia; now apply submask_mod_pow2).
  assert (y mod 2 ^ i <= n mod 2 ^ i) by (apply submask_le; try lia; now apply submask_mod_pow2).
  b2p. replace (2 ^ i <=? m mod 2 ^ i + n mod 2 ^ i) with true; [easy|]. symmetry. apply Z.leb_le. lia.
Qed.

Lemma bit_length_spec x : 0 <= x -> x < 2 ^ bit_length x.
Proof.
  intros Hx. unfold bit_length. case_if; [subst; reflexivity|].
  apply Z.log2_spec. lia.
Qed.

Lemma bit_length_bounds x w : 0 < w -> in_width w x -> 0 <= bit_length x <= w.
Proof.
  intros Hw [H0 H1]. unfold bit_length. case_if; [lia|].
  pose proof (Z.log2_nonneg x). assert (Z.log2 x < w) by (apply Z.log2_lt_pow2; lia). lia.
Qed.

#[export] Hint Resolve submask_refl submask_lor_l submask_lor_r submask_land : powdr.

Lemma lor_below a b w : 0 <= a < 2 ^ w -> 0 <= b < 2 ^ w -> Z.lor a b < 2 ^ w.
Proof.
  intros Ha Hb. destruct (Z.lt_ge_cases w 0) as [Hw|Hw]; [rewrite Z.pow_neg_r in *; lia|].
  assert (Hnn : 0 <= Z.lor a b) by (apply Z.lor_nonneg; lia).
  destruct (Z.eq_dec (Z.lor a b) 0) as [->|Hnz]; [lia|].
  apply Z.log2_lt_pow2; [lia|]. rewrite Z.log2_lor by lia.
  apply Z.max_lub_lt.
  - destruct (Z.eq_dec a 0) as [->|]; [|apply Z.log2_lt_pow2; lia].
    destruct (Z.eq_dec w 0) as [->|]; [|cbn; lia]. change (2 ^ 0) with 1 in *.
    assert (b = 0) as -> by lia. now rewrite Z.lor_0_r in Hnz.
  - destruct (Z.eq_dec b 0) as [->|]; [|apply Z.log2_lt_pow2; lia].
    destruct (Z.eq_dec w 0) as [->|]; [|cbn; lia]. change (2 ^ 0) with 1 in *.
    assert (a = 0) as -> by lia. now rewrite Z.lor_0_r in Hnz.
Qed.

Lemma lor_width w a b : in_width w a -> in_width w b -> in_width w (Z.lor a b).
Proof. intros Ha Hb. split; [apply Z.lor_nonneg; split; [apply Ha|apply Hb]|now apply lor_below]. Qed.

Lemma land_width w a b : 0 <= a -> in_width w b -> in_width w (Z.land a b).
Proof.
  intros Ha [Hb0 Hb]. assert (0 <= Z.land a b) by (apply Z.land_nonneg; lia).
  split; [easy|]. assert (Z.land a b <= b); [|lia].
  apply submask_le; [easy|easy|]. unfold submask. now rewrite <- Z.land_assoc, Z.land_diag.
Qed.

(** ** Disjoint masks *)

Lemma add_disjoint a b : Z.land a b = 0 -> a + b = Z.lor a b.
Proof. intros H. now rewrite <- Z.lxor_lor, Z.add_nocarry_lxor. Qed.

Lemma disjoint_submask a b m : submask a m -> Z.land m b = 0 -> Z.land a b = 0.
Proof.
  unfold submask. intros Ha Hd. now rewrite <- Ha, <- Z.land_assoc, Hd, Z.land_0_r.
Qed.

(** [x & !m] at width [w]. *)
Lemma land_bitnot w x m : 0 <= w -> in_width w x -> in_width w m ->
  Z.land x (bitnot w m) = Z.ldiff x m.
Proof.
  intros Hw Hx Hm. unfold bitnot.
  assert (Hs : submask m (Z.ones w)) by now apply submask_ones.
  assert (Hb : Z.ones w - m = Z.ldiff (Z.ones w) m).
  { apply Z.sub_nocarry_ldiff. apply Z.bits_inj. intros i.
    rewrite Z.ldiff_spec, Z.testbit_0_l. destruct (Z.testbit m i) eqn:E; [|easy].
    rewrite submask_testbit in Hs. now rewrite (Hs i E). }
  rewrite Hb. apply Z.bits_inj. intros i. rewrite Z.land_spec, !Z.ldiff_spec.
  destruct (Z.testbit x i) eqn:E; [|easy].
  assert (Hxs : submask x (Z.ones w)) by now apply submask_ones.
  rewrite submask_testbit in Hxs. now rewrite (Hxs i E).
Qed.

(** Reading and clearing one of two disjoint parts. *)
Lemma land_lor_part a b m : submask a m -> Z.land b m = 0 -> Z.land (Z.lor a b) m = a.
Proof. unfold submask. intros Ha Hb. now rewrite Z.land_lor_distr_l, Ha, Hb, Z.lor_0_r. Qed.

Lemma ldiff_lor_part a b m : submask a m -> Z.land b m = 0 -> Z.ldiff (Z.lor a b) m = b.
Proof.
  intros Ha Hb. apply Z.bits_inj. intros i. rewrite Z.ldiff_spec, Z.lor_spec.
  assert (Hbi : Z.testbit b i && Z.testbit m i = false) by now rewrite <- Z.land_spec, Hb, Z.testbit_0_l.
  rewrite submask_testbit in Ha. specialize (Ha i).
  destruct (Z.testbit a i), (Z.testbit b i), (Z.testbit m i); try easy; now specialize (Ha eq_refl).
Qed.

Lemma ldiff_le a b : 0 <= a -> 0 <= Z.ldiff a b <= a.
Proof.
  intros Ha. assert (0 <= Z.ldiff a b) by (apply Z.ldiff_nonneg; lia). split; [easy|].
  apply submask_le; [easy|easy|]. apply submask_testbit. intros i. rewrite Z.ldiff_spec.
  now intros [Hi _]%andb_prop.
Qed.
