(* ===== verification/Primes.v ===== *)
(** * Primality of the field moduli

    A one-prime Pocklington criterion, enough for the moduli whose [p - 1] has a
    large power of two, and the inverse that a prime modulus gives. *)

From stdpp Require Import base.
From Stdlib Require Import ZArith Lia Znumtheory ZmodInv.
From S2P Require Import Prelude.

(** Exponentiation modulo [p] by square and multiply, so that the certificates
    below evaluate. *)
Fixpoint pow_mod_pos (p b : Z) (n : positive) : Z :=
  match n with
  | xH => b mod p
  | xO n' => pow_mod_pos p ((b * b) mod p) n'
  | xI n' => (b * pow_mod_pos p ((b * b) mod p) n') mod p
  end.

Lemma pow_mod_pos_spec p n : forall b, eqm p (pow_mod_pos p b n) (b ^ Zpos n).
Proof.
  induction n as [n IH|n IH|]; intros b; cbn [pow_mod_pos].
  - rewrite eqm_mod, IH, (eqm_pow p _ (b * b)) by (lia || apply eqm_mod).
    replace (b ^ Z.pos n~1) with (b * (b * b) ^ Z.pos n); [reflexivity|].
    rewrite <- Z.pow_2_r, <- Z.pow_mul_r, Pos2Z.inj_xI by lia.
    now rewrite Z.add_1_r, Z.pow_succ_r by lia.
  - rewrite IH, (eqm_pow p _ (b * b)) by (lia || apply eqm_mod).
    rewrite <- Z.pow_2_r, <- Z.pow_mul_r by lia. reflexivity.
  - now rewrite eqm_mod, Z.pow_1_r.
Qed.

(** Every positive number is a power of two times an odd number. *)
Lemma odd_part n : 0 < n -> exists t m, 0 <= t /\ n = 2 ^ t * m /\ Z.odd m = true.
Proof.
  intros Hn. revert Hn. pattern n. apply (well_founded_induction (Z.lt_wf 0)).
  clear n. intros n IH Hn. destruct (Z.odd n) eqn:E.
  - exists 0, n. split; [lia|]. split; [|easy]. now rewrite Z.pow_0_r, Z.mul_1_l.
  - assert (Hev : Z.even n = true) by (rewrite <- Z.negb_odd, E; easy).
    apply Z.even_spec in Hev as [h ->].
    destruct (IH h) as (t & m & Ht & -> & Hm); [lia|lia|].
    exists (t + 1), m. split; [lia|]. split; [|easy].
    rewrite Z.pow_add_r by lia. lia.
Qed.

Lemma prime_divisor n : 1 < n -> exists q, Z.prime q /\ (q | n).
Proof.
  intros Hn. revert Hn. pattern n. apply (well_founded_induction (Z.lt_wf 0)).
  clear n. intros n IH Hn. destruct (prime_dec n) as [Hp|Hp].
  - exists n. split; [now apply prime_alt|apply Z.divide_refl].
  - destruct (not_prime_divide n Hn Hp) as (d & Hd & Hdn).
    destruct (IH d) as (q & Hq & Hqd); [lia|lia|].
    exists q. split; [easy|]. etransitivity; eassumption.
Qed.

Lemma eqm_divisor p q a b : (q | p) -> eqm p a b -> eqm q a b.
Proof. unfold eqm. intros; etransitivity; eassumption. Qed.

Lemma pow_m1_odd p m : 0 <= m -> Z.odd m = true -> eqm p ((-1) ^ m) (-1).
Proof.
  intros Hm Ho. apply Z.odd_spec in Ho as [k ->].
  rewrite Z.pow_add_r, Z.pow_mul_r by lia. change ((-1) ^ 2) with 1.
  rewrite Z.pow_1_l by lia. reflexivity.
Qed.

(** If [a] raised to half of [p - 1] is [-1] modulo a prime [q], then every power
    of two that divides [p - 1] divides [q - 1]. *)
Lemma pocklington_two q a s u :
  Z.prime q -> Z.odd q = true -> 1 <= s -> 0 < u ->
  eqm q (a ^ (2 ^ (s - 1) * u)) (-1) -> (2 ^ s | q - 1).
Proof.
  intros Hq Hodd Hs Hu Ha. pose proof (Z.prime_ge_2 q Hq) as Hq2.
  destruct (odd_part (q - 1)) as (t & m & Ht & Hqm & Hm); [lia|].
  destruct (Z.le_gt_cases s t) as [Hst|Hst].
  { rewrite Hqm. replace t with (s + (t - s)) by lia. rewrite Z.pow_add_r by lia.
    exists (2 ^ (t - s) * m). lia. }
  exfalso. assert (0 < 2 ^ t) by (apply Z.pow_pos_nonneg; lia).
  assert (0 < m) by nia.
  assert (Ha0 : a mod q <> 0).
  { intros E. assert (Hz : eqm q a 0) by (apply eqm_iff; now rewrite E, Z.mod_0_l by lia).
    rewrite (eqm_pow q _ 0) in Ha by (easy || nia).
    rewrite Z.pow_0_l in Ha by (assert (0 < 2 ^ (s - 1)) by (apply Z.pow_pos_nonneg; lia); nia).
    apply Z.divide_pos_le in Ha; lia. }
  assert (H1 : eqm q (a ^ (q - 1)) 1).
  { apply eqm_iff. rewrite Z.fermat_nz by easy. rewrite Z.mod_small; lia. }
  assert (Hm1 : eqm q ((a ^ (2 ^ (s - 1) * u)) ^ m) (-1)).
  { rewrite (eqm_pow q _ (-1)) by (lia || easy). apply pow_m1_odd; [lia|easy]. }
  rewrite <- Z.pow_mul_r in Hm1 by nia.
  replace (2 ^ (s - 1) * u * m) with ((q - 1) * (2 ^ (s - 1 - t) * u)) in Hm1.
  2: { rewrite Hqm. replace (s - 1) with (t + (s - 1 - t)) at 2 by lia.
       rewrite Z.pow_add_r by lia. ring. }
  assert (0 <= 2 ^ (s - 1 - t)) by (apply Z.pow_nonneg; lia).
  rewrite Z.pow_mul_r, (eqm_pow q _ 1), Z.pow_1_l in Hm1 by (easy || nia).
  apply Z.divide_pos_le in Hm1; [|lia]. apply Z.odd_spec in Hodd as [j Hj]. lia.
Qed.

(** Pocklington's criterion with [2 ^ s] as the known factor of [p - 1]. *)
Theorem pocklington p a s u :
  1 <= s -> 0 < u -> p = 2 ^ s * u + 1 -> p < (2 ^ s + 1) * (2 ^ s + 1) ->
  eqm p (a ^ (2 ^ (s - 1) * u)) (-1) -> Z.prime p.
Proof.
  intros Hs Hu Hp Hbig Ha.
  assert (Hpow : 2 ^ s = 2 * 2 ^ (s - 1)).
  { replace s with (1 + (s - 1)) at 1 by lia. now rewrite Z.pow_add_r by lia. }
  assert (0 < 2 ^ (s - 1)) by (apply Z.pow_pos_nonneg; lia).
  assert (Hq : forall q, Z.prime q -> (q | p) -> 2 ^ s + 1 <= q).
  { intros q Hq Hqp. assert (Z.odd q = true) as Ho.
    { destruct (Z.odd q) eqn:E; [easy|]. rewrite <- Z.negb_even in E.
      apply negb_false_iff, Z.even_spec in E as [h ->]. destruct Hqp as [k Hk]. nia. }
    assert (Hd := pocklington_two q a s u Hq Ho Hs Hu (eqm_divisor _ _ _ _ Hqp Ha)).
    apply Z.divide_pos_le in Hd; [lia|]. pose proof (Z.prime_ge_2 q Hq). lia. }
  destruct (prime_dec p) as [Hpr|Hpr]; [now apply prime_alt|exfalso].
  destruct (not_prime_divide p) as (d & Hd & [e He]); [nia|easy|].
  destruct (prime_divisor d) as (q1 & Hq1 & Hqd1); [lia|].
  assert (1 < e) by (clear - Hd He; nia).
  destruct (prime_divisor e) as (q2 & Hq2 & Hqd2); [lia|].
  pose proof (Z.divide_pos_le q1 d ltac:(lia) Hqd1).
  pose proof (Z.divide_pos_le q2 e ltac:(lia) Hqd2).
  assert (2 ^ s + 1 <= q1) by (apply Hq; [easy|]; etransitivity; [exact Hqd1|exists e; lia]).
  assert (2 ^ s + 1 <= q2) by (apply Hq; [easy|]; etransitivity; [exact Hqd2|exists d; lia]).
  assert ((2 ^ s + 1) * (2 ^ s + 1) <= q1 * q2) by (apply Z.mul_le_mono_nonneg; lia).
  assert (q1 * q2 <= d * e) by (apply Z.mul_le_mono_nonneg; lia).
  lia.
Qed.

(** The certificate form: two numbers to evaluate. *)
Lemma pocklington_cert p a s u n :
  1 <= s -> 0 < u -> p = 2 ^ s * u + 1 -> p < (2 ^ s + 1) * (2 ^ s + 1) ->
  Zpos n = 2 ^ (s - 1) * u -> pow_mod_pos p a n = p - 1 -> Z.prime p.
Proof.
  intros Hs Hu Hp Hbig Hn Hc. apply (pocklington p a s u); try easy.
  rewrite <- Hn, <- pow_mod_pos_spec, Hc. exists 1. lia.
Qed.

(** ** The moduli the sources use *)

Definition goldilocks_order : Z := 0xFFFFFFFF00000001.
Definition baby_bear_order : Z := 0x78000001.
Definition koala_bear_order : Z := 0x7f000001.
Definition mersenne31_order : Z := 0x7fffffff.

Ltac pocklington_with a s u n :=
  apply (pocklington_cert _ a s u n); [lia|lia|reflexivity|reflexivity|reflexivity|vm_compute; reflexivity].

Lemma goldilocks_order_prime : Z.prime goldilocks_order.
Proof.
  pocklington_with 7 32 0xFFFFFFFF 0x7FFFFFFF80000000%positive.
Qed.

Lemma baby_bear_order_prime : Z.prime baby_bear_order.
Proof. pocklington_with 31 27 15 0x3c000000%positive. Qed.

Lemma koala_bear_order_prime : Z.prime koala_bear_order.
Proof. pocklington_with 3 24 127 0x3f800000%positive. Qed.

(** [2 ^ 31 - 1] has no such factor: trial division up to its square root. *)
Fixpoint no_divisor_from (p d : Z) (fuel : nat) : bool :=
  match fuel with
  | O => p <? d * d
  | S fuel' => negb (p mod d =? 0) && no_divisor_from p (d + 1) fuel'
  end.

Lemma no_divisor_from_spec p fuel : forall d, 0 < d ->
  no_divisor_from p d fuel = true ->
  (forall e, d <= e < d + Z.of_nat fuel -> ~ (e | p)) /\
  p < (d + Z.of_nat fuel) * (d + Z.of_nat fuel).
Proof.
  induction fuel as [|fuel IH]; intros d Hd H; cbn [no_divisor_from] in H; b2p.
  - split; [lia|]. now rewrite Z.add_0_r.
  - destruct (IH (d + 1) ltac:(lia) H0) as [IH1 IH2].
    replace (d + Z.of_nat (S fuel)) with (d + 1 + Z.of_nat fuel) by lia.
    split; [|easy]. intros e He Hdiv. destruct (Z.eq_dec e d) as [->|].
    + apply Z.mod_divide in Hdiv; lia.
    + apply (IH1 e); [lia|easy].
Qed.

Lemma trial_division p fuel :
  1 < p -> no_divisor_from p 2 fuel = true -> Z.prime p.
Proof.
  intros Hp H. apply no_divisor_from_spec in H as [H1 H2]; [|lia].
  destruct (prime_dec p) as [Hpr|Hpr]; [now apply prime_alt|exfalso].
  destruct (not_prime_divide p) as (d & Hd & [e He]); [lia|easy|].
  set (n := 2 + Z.of_nat fuel) in *.
  destruct (Z.le_gt_cases n d); [|apply (H1 d); [lia|exists e; lia]].
  destruct (Z.le_gt_cases n e); [nia|].
  apply (H1 e); [nia|exists d; lia].
Qed.

Lemma mersenne31_order_prime : Z.prime mersenne31_order.
Proof. apply (trial_division _ (N.to_nat 46340)); [reflexivity|vm_compute; reflexivity]. Qed.
