(* ===== verification/Goldilocks.v ===== *)
(** * The Goldilocks field, [number/src/goldilocks.rs]

    [GoldilocksField(u64)] is a [Z]; the stored value is meant to be canonical,
    [0 <= x < ORDER]. Every operation is translated at its machine width, with the
    overflow checks and the [debug_assert!]s of the source as the [None] of an
    option, so that "the operation never panics" is part of each theorem. *)

From stdpp Require Import base list option.
From Stdlib Require Import ZArith Lia Znumtheory ZmodInv Ascii String.
From S2P Require Import Prelude Primes.

(** ** Constants and the representation invariant *)

Definition EPSILON : Z := Z.shiftl 1 32 - 1.
Definition ORDER : Z := goldilocks_order.

Definition gl_canonical (x : Z) : Prop := 0 <= x < ORDER.

(** ** Arithmetic *)

Definition gl_is_zero (x : Z) : bool := x =? 0.

Definition gl_wrap (x : Z) : Z := if ORDER <=? x then x - ORDER else x.

Definition gl_neg (x : Z) : option Z :=
  if gl_is_zero x then Some 0 else checked_sub ORDER x.

Definition gl_add (x y : Z) : option Z :=
  let '(sum, over) := overflowing_add 64 x y in
  let '(sum, over) := overflowing_add 64 sum (b2z over * EPSILON) in
  _ ← assert_that (negb over);
  Some (gl_wrap sum).

Definition gl_sub (x y : Z) : option Z :=
  let '(diff, under) := overflowing_sub 64 x y in
  let '(diff, under) := overflowing_sub 64 diff (b2z under * EPSILON) in
  _ ← assert_that (negb under);
  Some (gl_wrap diff).

(** The portable version. *)
Definition add_no_canonicalize_trashing_input (x y : Z) : option Z :=
  let '(res_wrapped, carry) := overflowing_add 64 x y in
  checked_add 64 res_wrapped (EPSILON * b2z carry).

(** The x86-64 version: [add] leaves the carry in CF, [sbb r, r] on the low half of
    the register of [y] then holds [y32 - y32 - CF], with the high half zeroed. The
    two [assume]s are undefined behaviour when false: a failed assertion here. *)
Definition add_no_canonicalize_trashing_input_x86_64 (x y : Z) : option Z :=
  let res_wrapped := (x + y) mod 2 ^ 64 in
  let cf := b2z (2 ^ 64 <=? x + y) in
  let y_e := y mod 2 ^ 32 in
  let adjustment := (y_e - y_e - cf) mod 2 ^ 32 in
  _ ← assert_that (negb (x =? 0) || ((res_wrapped =? y) && (adjustment =? 0)));
  _ ← assert_that (negb (y =? 0) || ((res_wrapped =? x) && (adjustment =? 0)));
  checked_add 64 res_wrapped adjustment.

Definition gl_split (x : Z) : Z * Z := (as_width 64 x, as_width 64 (Z.shiftr x 64)).

Definition reduce128 (add_nc : Z -> Z -> option Z) (x : Z) : option Z :=
  let '(x_lo, x_hi) := gl_split x in
  let x_hi_hi := Z.shiftr x_hi 32 in
  let x_hi_lo := Z.land x_hi EPSILON in
  let '(t0, borrow) := overflowing_sub 64 x_lo x_hi_hi in
  t0 ← (if borrow then checked_sub t0 EPSILON else Some t0);
  t1 ← checked_mul 64 x_hi_lo EPSILON;
  t2 ← add_nc t0 t1;
  Some (gl_wrap t2).

Definition gl_mul (x y : Z) : option Z :=
  prod ← checked_mul 128 x y;
  reduce128 add_no_canonicalize_trashing_input prod.

Definition gl_square (x : Z) : option Z := gl_mul x x.

Fixpoint exp_power_of_2 (x : Z) (power_log : nat) : option Z :=
  match power_log with
  | O => Some x
  | S n => res ← exp_power_of_2 x n; gl_square res
  end.

Definition exp_acc (N : nat) (base tail : Z) : option Z :=
  e ← exp_power_of_2 base N; gl_mul e tail.

(** Outer option: a panic; inner option: the [Option] the source returns. *)
Definition try_inverse (x : Z) : option (option Z) :=
  if gl_is_zero x then Some None else
  s ← gl_square x; t2 ← gl_mul s x;
  s ← gl_square t2; t3 ← gl_mul s x;
  t6 ← exp_acc 3 t3 t3;
  t12 ← exp_acc 6 t6 t6;
  t24 ← exp_acc 12 t12 t12;
  t30 ← exp_acc 6 t24 t6;
  s ← gl_square t30; t31 ← gl_mul s x;
  t63 ← exp_acc 32 t31 t31;
  s ← gl_square t63; r ← gl_mul s x;
  Some (Some r).

Definition gl_div (x y : Z) : option Z :=
  i ← try_inverse y;
  inv ← i;
  gl_mul x inv.

(** [while exp >= 2]: 63 iterations at most for a [u64] exponent. *)
Fixpoint gl_pow_loop (fuel : nat) (x r exp : Z) : option Z :=
  match fuel with
  | O => None
  | S fuel' =>
    if 2 <=? exp then
      r ← (if negb (Z.land exp 1 =? 0) then gl_mul r x else Some r);
      x ← gl_square x;
      gl_pow_loop fuel' x r (Z.shiftr exp 1)
    else gl_mul r x
  end.

Definition gl_pow (x exp : Z) : option Z :=
  if exp =? 0 then Some 1
  else if exp =? 1 then Some x
  else gl_pow_loop 64 x 1 exp.

(** ** Conversions *)

Definition from_canonical_u64 (n : Z) : option Z :=
  _ ← assert_that (n <? ORDER); Some n.

(** [n] is an [i64]; [n as u64] is its two's complement. *)
Definition from_noncanonical_i64 (n : Z) : option Z :=
  from_canonical_u64
    (if n <? 0 then wrapping_add 64 ORDER (as_width 64 n) else as_width 64 n).

Definition gl_from_bool (b : bool) : Z := b2z b.
Definition gl_from_i64 (n : Z) : option Z := from_noncanonical_i64 n.
Definition gl_from_i32 (n : Z) : option Z := gl_from_i64 n.
Definition gl_from_u32 (n : Z) : option Z := from_canonical_u64 n.
Definition gl_from_u64 (n : Z) : Z := gl_wrap n.

(** [u64::try_from(n).unwrap().into()] on an arbitrary-precision [n >= 0]. *)
Definition gl_from_biguint (n : Z) : option Z :=
  _ ← assert_that (n <? 2 ^ 64); Some (gl_from_u64 n).

Definition gl_from_large_int (n : Z) : Z := gl_wrap n.

Definition gl_checked_from (value : Z) : option (option Z) :=
  if value <? ORDER then
    _ ← assert_that (value <? 2 ^ 64); Some (Some (gl_from_u64 value))
  else Some None.

Definition gl_is_in_lower_half (x : Z) : bool := x <=? (ORDER - 1) / 2.

(** The default method of [FieldElement]. *)
Definition gl_to_signed_integer (x : Z) : Z :=
  if gl_is_in_lower_half x then x else x - ORDER.

(** [u64::to_le_bytes]. *)
Fixpoint le_bytes (n : nat) (x : Z) : list Z :=
  match n with
  | O => []
  | S n' => x mod 256 :: le_bytes n' (x / 256)
  end.

(** [BigUint::from_le_bytes]. *)
Fixpoint from_le_bytes (bs : list Z) : Z :=
  match bs with
  | [] => 0
  | b :: bs' => b + 256 * from_le_bytes bs'
  end.

Definition gl_to_bytes_le (x : Z) : list Z := le_bytes 8 x.

Definition gl_from_bytes_le (bytes : list Z) : option Z :=
  let n := from_le_bytes bytes in
  _ ← assert_that (n <? 2 ^ 64);
  Some (gl_from_u64 (gl_wrap n)).

(** ** Parsing *)

Inductive int_error := IntEmpty | IntInvalidDigit | IntPosOverflow.

(** [char::to_digit(radix)]. *)
Definition to_digit (radix : Z) (c : ascii) : option Z :=
  let n := Z.of_nat (nat_of_ascii c) in
  let d := if (48 <=? n) && (n <=? 57) then n - 48
           else if (97 <=? n) && (n <=? 122) then n - 87
           else if (65 <=? n) && (n <=? 90) then n - 55 else radix in
  if d <? radix then Some d else None.

Fixpoint parse_digits (w radix acc : Z) (s : list ascii) : sum Z int_error :=
  match s with
  | [] => inl acc
  | c :: s' =>
    match to_digit radix c with
    | None => inr IntInvalidDigit
    | Some d =>
      match (m ← checked_mul w acc radix; checked_add w m d) with
      | None => inr IntPosOverflow
      | Some acc' => parse_digits w radix acc' s'
      end
    end
  end.

(** [uN::from_str_radix]: an optional [+], then at least one digit. *)
Definition uint_from_str_radix (w radix : Z) (s : list ascii) : sum Z int_error :=
  match s with
  | [] => inr IntEmpty
  | c :: s' =>
    if Ascii.eqb c "+"%char
    then match s' with [] => inr IntInvalidDigit | _ => parse_digits w radix 0 s' end
    else parse_digits w radix 0 s
  end.

Definition gl_from_str_radix (s : list ascii) (radix : Z) : sum Z int_error :=
  uint_from_str_radix 64 radix s.

Inductive from_str_error := ParseFailed | TooLargeForField.

(** [BigUint::from_str] is a parameter. *)
Definition gl_from_str (biguint_from_str : list ascii -> option Z) (s : list ascii)
  : option (sum Z from_str_error) :=
  match biguint_from_str s with
  | None => Some (inr ParseFailed)
  | Some n =>
    if ORDER <=? n then Some (inr TooLargeForField)
    else v ← gl_from_biguint n; Some (inl v)
  end.

(** ** [GLLargeInt(u64)], the integer type of the field *)

Definition gli_num_bits (x : Z) : Z := bit_length x.
Definition gli_try_into_u32 (x : Z) : option Z := if x <? 2 ^ 32 then Some x else None.
Definition gli_not (x : Z) : Z := bitnot 64 x.

(** ** Lemmas: the ring operations *)

(** Unfolds the machine-integer operations down to linear arithmetic over the
    literal constants. *)
Ltac gl_unfold :=
  unfold gl_canonical, gl_add, gl_sub, gl_neg, gl_wrap, gl_is_zero,
    add_no_canonicalize_trashing_input, add_no_canonicalize_trashing_input_x86_64 in *;
  unfold overflowing_add, overflowing_sub, checked_sub, checked_add, checked_mul,
    wrapping_add, as_width, assert_that, in_width, eqm in *;
  change (2 ^ 64) with 18446744073709551616 in *;
  change (2 ^ 128) with 340282366920938463463374607431768211456 in *;
  change (2 ^ 32) with 4294967296 in *;
  change EPSILON with 4294967295 in *;
  change ORDER with 18446744069414584321 in *.

Ltac gl_lia := Z.div_mod_to_equations; lia.

Ltac gl_cases :=
  cbn [mbind option_bind negb];
  repeat (match goal with
    | |- context [b2z ?b] => destruct b eqn:?; b2p
    | |- context [if ?b then _ else _] => destruct b eqn:?; b2p
    end; cbn [mbind option_bind negb b2z] in *).

Ltac gl_solve := gl_unfold; gl_cases; first [apply f_equal; gl_lia | exfalso; gl_lia].

Lemma gl_canonical_mod x : gl_canonical (x mod ORDER).
Proof. apply Z.mod_pos_bound. reflexivity. Qed.

Lemma gl_neg_spec x : gl_canonical x -> gl_neg x = Some ((- x) mod ORDER).
Proof. intros Hx. gl_solve. Qed.

Lemma gl_add_spec x y : gl_canonical x -> gl_canonical y ->
  gl_add x y = Some ((x + y) mod ORDER).
Proof. intros Hx Hy. gl_solve. Qed.

Lemma gl_sub_spec x y : gl_canonical x -> gl_canonical y ->
  gl_sub x y = Some ((x - y) mod ORDER).
Proof. intros Hx Hy. gl_solve. Qed.

Lemma gl_wrap_spec x : in_width 64 x -> gl_wrap x = x mod ORDER.
Proof. intros Hx. gl_unfold. gl_cases; gl_lia. Qed.

(** The value the reduction's unsafe addition returns under its documented
    precondition. *)
Definition add_nc_result (x y : Z) : Z :=
  if 2 ^ 64 <=? x + y then x + y - ORDER else x + y.

Lemma add_nc_portable x y :
  in_width 64 x -> in_width 64 y -> x + y < 2 ^ 64 + ORDER ->
  add_no_canonicalize_trashing_input x y = Some (add_nc_result x y).
Proof. unfold add_nc_result. intros Hx Hy Hs. gl_solve. Qed.

Lemma add_nc_x86_64 x y :
  in_width 64 x -> in_width 64 y -> x + y < 2 ^ 64 + ORDER ->
  add_no_canonicalize_trashing_input_x86_64 x y = Some (add_nc_result x y).
Proof.
  unfold add_nc_result. intros Hx Hy Hs. gl_unfold. gl_cases.
  all: rewrite ?orb_true_iff, ?andb_true_iff in *; b2p.
  all: first [apply f_equal; gl_lia | exfalso; gl_lia].
Qed.

Lemma add_nc_result_spec x y :
  in_width 64 x -> in_width 64 y -> x + y < 2 ^ 64 + ORDER ->
  in_width 64 (add_nc_result x y) /\ eqm ORDER (add_nc_result x y) (x + y).
Proof.
  unfold add_nc_result. intros Hx Hy Hs. gl_unfold. case_if.
  - split; [lia|]. exists (-1). lia.
  - split; [lia|]. exists 0. lia.
Qed.

(** What [reduce128] needs of the addition it is compiled with. *)
Definition add_nc_ok (add_nc : Z -> Z -> option Z) : Prop :=
  forall x y, in_width 64 x -> in_width 64 y -> x + y < 2 ^ 64 + ORDER ->
    add_nc x y = Some (add_nc_result x y).

(** [x_lo - x_hi_hi] with the borrow repaid: congruent, and still a [u64]. *)
Lemma reduce128_borrow lo hh :
  in_width 64 lo -> in_width 32 hh ->
  exists t0, (let '(t0, borrow) := overflowing_sub 64 lo hh in
              if borrow then checked_sub t0 EPSILON else Some t0) = Some t0 /\
    in_width 64 t0 /\ eqm ORDER t0 (lo - hh).
Proof.
  intros Hlo Hhh. exists (if lo <? hh then lo - hh + ORDER else lo - hh).
  gl_unfold. case_if; (split; [gl_cases; first [apply f_equal; gl_lia | exfalso; gl_lia]|]).
  - split; [lia|]. exists 1. lia.
  - split; [lia|]. exists 0. lia.
Qed.

Lemma reduce128_spec add_nc x : add_nc_ok add_nc -> in_width 128 x ->
  reduce128 add_nc x = Some (x mod ORDER).
Proof.
  intros Hnc Hx. unfold reduce128, gl_split, as_width.
  set (lo := x mod 2 ^ 64). set (hi := Z.shiftr x 64 mod 2 ^ 64).
  assert (Hhi : hi = x / 2 ^ 64).
  { unfold hi. rewrite Z.shiftr_div_pow2 by lia. gl_unfold. gl_lia. }
  assert (Hlo : in_width 64 lo) by (unfold lo; gl_unfold; gl_lia).
  assert (Hhh : Z.shiftr hi 32 = hi / 2 ^ 32) by now rewrite Z.shiftr_div_pow2.
  assert (Hhl : Z.land hi EPSILON = hi mod 2 ^ 32) by now rewrite <- (Z.land_ones hi 32).
  rewrite Hhh, Hhl.
  assert (Hrhh : in_width 32 (hi / 2 ^ 32)) by (rewrite Hhi; gl_unfold; gl_lia).
  assert (Hrhl : 0 <= hi mod 2 ^ 32 < 2 ^ 32) by (apply Z.mod_pos_bound; lia).
  destruct (reduce128_borrow lo (hi / 2 ^ 32) Hlo Hrhh) as (t0 & Ht0 & Hr0 & He0).
  destruct (overflowing_sub 64 lo (hi / 2 ^ 32)) as [t borrow]. rewrite Ht0.
  cbn [mbind option_bind]. unfold checked_mul.
  set (t1 := hi mod 2 ^ 32 * EPSILON).
  assert (Hr1 : in_width 64 t1 /\ t1 <= 2 ^ 64 - 2 ^ 33 + 1).
  { unfold t1. gl_unfold. change (2 ^ 33) with 8589934592. nia. }
  replace (t1 <? 2 ^ 64) with true by (symmetry; apply Z.ltb_lt; apply Hr1).
  cbn [mbind option_bind].
  assert (Hs : t0 + t1 < 2 ^ 64 + ORDER).
  { gl_unfold. change (2 ^ 33) with 8589934592 in *. lia. }
  rewrite (Hnc t0 t1 Hr0 (proj1 Hr1) Hs). cbn [mbind option_bind].
  destruct (add_nc_result_spec t0 t1 Hr0 (proj1 Hr1) Hs) as [Hw He].
  rewrite (gl_wrap_spec _ Hw). f_equal. apply eqm_iff. rewrite He, He0. unfold t1.
  assert (Hsplit : x = lo + (hi mod 2 ^ 32 + 2 ^ 32 * (hi / 2 ^ 32)) * 2 ^ 64).
  { rewrite Hhi. unfold lo. gl_unfold. gl_lia. }
  rewrite Hsplit at 1. exists (- (hi mod 2 ^ 32 + hi / 2 ^ 32 * (2 ^ 32 + 1))).
  assert (HE : EPSILON = 2 ^ 32 - 1) by reflexivity.
  assert (HO : ORDER = 2 ^ 32 * 2 ^ 32 - 2 ^ 32 + 1) by reflexivity.
  assert (HB : 2 ^ 64 = 2 ^ 32 * 2 ^ 32) by reflexivity.
  rewrite HE, HO, HB. ring.
Qed.

Lemma add_nc_portable_ok : add_nc_ok add_no_canonicalize_trashing_input.
Proof. exact add_nc_portable. Qed.

Lemma add_nc_x86_64_ok : add_nc_ok add_no_canonicalize_trashing_input_x86_64.
Proof. exact add_nc_x86_64. Qed.

Lemma gl_mul_spec x y : gl_canonical x -> gl_canonical y ->
  gl_mul x y = Some ((x * y) mod ORDER).
Proof.
  intros Hx Hy. assert (Hp : in_width 128 (x * y)) by (gl_unfold; nia).
  unfold gl_mul, checked_mul. replace (x * y <? 2 ^ 128) with true
    by (symmetry; apply Z.ltb_lt, Hp).
  apply reduce128_spec; [exact add_nc_portable_ok|easy].
Qed.

(** ** Lemmas: powers and the inverse *)

(** [gl_power x n] is the canonical representative of [x ^ n]. *)
Definition gl_power (x n : Z) : Z := (x ^ n) mod ORDER.

Lemma gl_power_canonical x n : gl_canonical (gl_power x n).
Proof. apply gl_canonical_mod. Qed.

Lemma gl_power_1 x : gl_canonical x -> gl_power x 1 = x.
Proof. intros Hx. unfold gl_power. rewrite Z.pow_1_r. now apply Z.mod_small. Qed.

Lemma gl_mul_power x a b c : 0 <= a -> 0 <= b -> c = a + b ->
  gl_mul (gl_power x a) (gl_power x b) = Some (gl_power x c).
Proof.
  intros Ha Hb ->. rewrite gl_mul_spec by apply gl_power_canonical.
  unfold gl_power. rewrite Z.pow_add_r by easy. f_equal. apply eqm_iff. now rewrite !eqm_mod.
Qed.

Lemma exp_power_of_2_power x a n : 0 <= a ->
  exp_power_of_2 (gl_power x a) n = Some (gl_power x (a * 2 ^ Z.of_nat n)).
Proof.
  intros Ha. induction n as [|n IH]; cbn [exp_power_of_2].
  - f_equal. f_equal. lia.
  - rewrite IH. cbn [mbind option_bind]. unfold gl_square.
    apply gl_mul_power; [nia|nia|]. rewrite Nat2Z.inj_succ, Z.pow_succ_r; lia.
Qed.

Lemma exp_acc_power N x a b c : 0 <= a -> 0 <= b -> c = a * 2 ^ Z.of_nat N + b ->
  exp_acc N (gl_power x a) (gl_power x b) = Some (gl_power x c).
Proof.
  intros Ha Hb ->. unfold exp_acc. rewrite exp_power_of_2_power by easy.
  cbn [mbind option_bind]. apply gl_mul_power; [nia|easy|easy].
Qed.

Lemma gl_square_power x a b : 0 <= a -> b = a + a ->
  gl_square (gl_power x a) = Some (gl_power x b).
Proof. intros. now apply gl_mul_power. Qed.

(** The addition chain computes [x ^ (ORDER - 2)]. *)
Lemma try_inverse_chain x : gl_power x 1 <> 0 ->
  try_inverse (gl_power x 1) = Some (Some (gl_power x (ORDER - 2))).
Proof.
  intros H0. unfold try_inverse, gl_is_zero.
  destruct (Z.eqb_spec (gl_power x 1) 0); [easy|].
  eapply bind_eq; [apply (gl_square_power x 1 2); easy|].
  eapply bind_eq; [apply (gl_mul_power x 2 1 0x3); easy|].
  eapply bind_eq; [apply (gl_square_power x 0x3 0x6); easy|].
  eapply bind_eq; [apply (gl_mul_power x 0x6 1 0x7); easy|].
  eapply bind_eq; [apply (exp_acc_power 3 x 0x7 0x7 0x3f); easy|].
  eapply bind_eq; [apply (exp_acc_power 6 x 0x3f 0x3f 0xfff); easy|].
  eapply bind_eq; [apply (exp_acc_power 12 x 0xfff 0xfff 0xffffff); easy|].
  eapply bind_eq; [apply (exp_acc_power 6 x 0xffffff 0x3f 0x3fffffff); easy|].
  eapply bind_eq; [apply (gl_square_power x 0x3fffffff 0x7ffffffe); easy|].
  eapply bind_eq; [apply (gl_mul_power x 0x7ffffffe 1 0x7fffffff); easy|].
  eapply bind_eq; [apply (exp_acc_power 32 x 0x7fffffff 0x7fffffff 0x7fffffff7fffffff); easy|].
  eapply bind_eq; [apply (gl_square_power x 0x7fffffff7fffffff 0xfffffffefffffffe); easy|].
  eapply bind_eq; [apply (gl_mul_power x 0xfffffffefffffffe 1 (ORDER - 2)); easy|].
  reflexivity.
Qed.

Lemma try_inverse_power x : gl_canonical x -> x <> 0 ->
  try_inverse x = Some (Some (gl_power x (ORDER - 2))).
Proof. intros Hx H0. pose proof (try_inverse_chain x) as H. rewrite gl_power_1 in H; auto. Qed.

Lemma gl_power_inverse x : gl_canonical x -> x <> 0 ->
  eqm ORDER (x * gl_power x (ORDER - 2)) 1.
Proof.
  intros Hx H0. unfold gl_power. rewrite eqm_mod.
  rewrite <- Z.pow_succ_r by (gl_unfold; lia).
  apply eqm_iff. replace (Z.succ (ORDER - 2)) with (ORDER - 1) by lia.
  rewrite Z.fermat_nz; [reflexivity|exact goldilocks_order_prime|].
  rewrite Z.mod_small; [easy|exact Hx].
Qed.

Lemma gl_pow_loop_spec fuel : forall x r e,
  gl_canonical x -> gl_canonical r -> 1 <= e < 2 ^ Z.of_nat fuel ->
  gl_pow_loop fuel x r e = Some ((r * x ^ e) mod ORDER).
Proof.
  induction fuel as [|fuel IH]; intros x r e Hx Hr He.
  { change (2 ^ Z.of_nat 0) with 1 in He. lia. }
  rewrite Nat2Z.inj_succ, Z.pow_succ_r in He by lia.
  cbn [gl_pow_loop]. destruct (Z.leb_spec 2 e) as [H2|H2].
  2: { replace e with 1 by lia. rewrite Z.pow_1_r. now apply gl_mul_spec. }
  assert (Hsh : Z.shiftr e 1 = e / 2) by now rewrite Z.shiftr_div_pow2.
  assert (Hodd : Z.land e 1 = e mod 2) by (change 1 with (Z.ones 1); now rewrite Z.land_ones).
  assert (Hrec : forall r', gl_canonical r' ->
    gl_pow_loop fuel ((x * x) mod ORDER) r' (e / 2) = Some ((r' * (x * x) ^ (e / 2)) mod ORDER)).
  { intros r' Hr'. rewrite IH by (apply gl_canonical_mod || easy || (Z.div_mod_to_equations; lia)).
    f_equal. apply eqm_iff. rewrite (eqm_pow _ _ (x * x)); [easy| |apply eqm_mod].
    apply Z.div_pos; lia. }
  rewrite Hsh, Hodd.
  assert (Hsq : (x * x) ^ (e / 2) = x ^ (2 * (e / 2))).
  { rewrite <- Z.pow_2_r, <- Z.pow_mul_r; [easy|lia|apply Z.div_pos; lia]. }
  pose proof (Z.div_mod e 2 ltac:(lia)) as Hdm. pose proof (Z.mod_pos_bound e 2 ltac:(lia)).
  destruct (Z.eqb_spec (e mod 2) 0) as [E|E]; cbn [negb].
  - eapply bind_eq; [reflexivity|]. eapply bind_eq; [now apply gl_mul_spec|].
    rewrite Hrec by easy. rewrite Hsq. repeat f_equal. lia.
  - eapply bind_eq; [now apply gl_mul_spec|]. eapply bind_eq; [now apply gl_mul_spec|].
    rewrite Hrec by apply gl_canonical_mod. rewrite Hsq. f_equal. apply eqm_iff.
    rewrite eqm_mod. replace e with (Z.succ (2 * (e / 2))) at 2 by lia.
    rewrite Z.pow_succ_r by (apply Z.mul_nonneg_nonneg; [lia|apply Z.div_pos; lia]).
    now rewrite Z.mul_assoc.
Qed.

Lemma gl_div_value (x y : Z) : gl_canonical x -> gl_canonical y -> y <> 0 ->
  exists q, gl_div x y = Some q /\ gl_canonical q /\ (q * y) mod ORDER = x.
Proof.
  intros Hx Hy H0. exists ((x * gl_power y (ORDER - 2)) mod ORDER).
  split. { unfold gl_div. rewrite try_inverse_power by easy. apply gl_mul_spec; [easy|].
    apply gl_power_canonical. }
  split; [apply gl_canonical_mod|]. apply mod_unique; [exact Hx|].
  rewrite eqm_mod, <- Z.mul_assoc, (Z.mul_comm _ y), gl_power_inverse, Z.mul_1_r by easy.
  reflexivity.
Qed.

(** ** Lemmas: conversions *)

Lemma from_noncanonical_i64_spec n : - 2 ^ 63 <= n < 2 ^ 63 ->
  from_noncanonical_i64 n = Some (n mod ORDER).
Proof.
  intros Hn. unfold from_noncanonical_i64, from_canonical_u64.
  change (2 ^ 63) with 9223372036854775808 in *.
  gl_unfold. gl_cases; first [apply f_equal; gl_lia | exfalso; gl_lia].
Qed.

Lemma from_le_bytes_le_bytes n : forall x,
  0 <= x < 256 ^ Z.of_nat n -> from_le_bytes (le_bytes n x) = x.
Proof.
  induction n as [|n IH]; intros x Hx; cbn [le_bytes from_le_bytes].
  - change (256 ^ Z.of_nat 0) with 1 in Hx. lia.
  - rewrite Nat2Z.inj_succ, Z.pow_succ_r in Hx by lia.
    rewrite IH; [Z.div_mod_to_equations; lia|].
    split; [apply Z.div_pos; lia|apply Z.div_lt_upper_bound; lia].
Qed.

Lemma gl_wrap_canonical x : gl_canonical x -> gl_wrap x = x.
Proof. intros Hx. gl_unfold. case_if; lia. Qed.

(** ** Properties *)

(** C40: The ring operations of the Goldilocks field never panic on canonical
    operands (no overflow check, no [debug_assert!] fires) and return the canonical
    representative of the result modulo [ORDER]. *)
Theorem goldilocks_ring_ops x y :
  gl_canonical x -> gl_canonical y ->
  gl_neg x = Some ((- x) mod ORDER) /\
  gl_add x y = Some ((x + y) mod ORDER) /\
  gl_sub x y = Some ((x - y) mod ORDER) /\
  gl_mul x y = Some ((x * y) mod ORDER).
Proof. auto using gl_neg_spec, gl_add_spec, gl_sub_spec, gl_mul_spec. Qed.

Lemma goldilocks_ring_ops_witness :
  gl_mul (ORDER - 1) (ORDER - 2) = Some 2 /\
  gl_neg (ORDER - 1) = Some ((- (ORDER - 1)) mod ORDER).
Proof.
  split; [vm_compute; reflexivity|].
  apply (goldilocks_ring_ops (ORDER - 1) (ORDER - 2)); split; vm_compute; congruence.
Defined.

(** [try_inverse] returns the multiplicative inverse: [None] exactly for zero, and
    otherwise a canonical [y] with [x * y = 1] in the field; so [div] panics exactly
    on a zero divisor and otherwise returns the quotient. *)
Theorem goldilocks_inverse_div a x :
  gl_canonical a -> gl_canonical x ->
  (x = 0 -> try_inverse x = Some None /\ gl_div a x = None) /\
  (x <> 0 -> exists y, try_inverse x = Some (Some y) /\ gl_canonical y /\
     (x * y) mod ORDER = 1 /\
     exists q, gl_div a x = Some q /\ gl_canonical q /\ (q * x) mod ORDER = a).
Proof.
  intros Ha Hx. split; [now intros ->|]. intros H0.
  exists (gl_power x (ORDER - 2)). pose proof (gl_power_inverse x Hx H0) as Hi.
  split; [now apply try_inverse_power|]. split; [apply gl_power_canonical|].
  split; [apply mod_unique; [split; reflexivity || discriminate|exact Hi]|].
  now apply gl_div_value.
Qed.

Lemma goldilocks_inverse_div_witness :
  exists y, try_inverse 7 = Some (Some y) /\ (7 * y) mod ORDER = 1.
Proof.
  destruct (goldilocks_inverse_div 1 7) as [_ H];
    [split; vm_compute; congruence|split; vm_compute; congruence|].
  destruct H as (y & H1 & _ & H2 & _); [discriminate|]. exists y. split; assumption.
Defined.

Lemma gl_pow_spec x e : gl_canonical x -> in_width 64 e -> gl_pow x e = Some (x ^ e mod ORDER).
Proof.
  intros Hx He. unfold gl_pow.
  destruct (Z.eqb_spec e 0) as [->|]; [reflexivity|].
  destruct (Z.eqb_spec e 1) as [->|].
  - rewrite Z.pow_1_r, Z.mod_small by exact Hx. reflexivity.
  - rewrite gl_pow_loop_spec; [now rewrite Z.mul_1_l|easy|split; reflexivity || discriminate|].
    unfold in_width in He. change (Z.of_nat 64) with 64. lia.
Qed.

(** [pow] is exponentiation for every 64-bit exponent, and its loop terminates
    within the 64 iterations the model allows. *)
Theorem goldilocks_pow x e :
  gl_canonical x -> in_width 64 e -> gl_pow x e = Some (x ^ e mod ORDER).
Proof. apply gl_pow_spec. Qed.

Lemma goldilocks_pow_witness : gl_pow 3 5 = Some 243.
Proof.
  rewrite (goldilocks_pow 3 5); [reflexivity| |]; split; vm_compute; congruence.
Defined.

(** The 128-bit reduction is correct whichever addition it is compiled with: the
    x86-64 assembly version and the portable one agree under the documented
    precondition, the two [assume]s of the former hold, and [reduce128] returns the
    canonical residue of every [u128]. *)
Theorem reduce128_both_targets x :
  in_width 128 x ->
  reduce128 add_no_canonicalize_trashing_input x = Some (x mod ORDER) /\
  reduce128 add_no_canonicalize_trashing_input_x86_64 x = Some (x mod ORDER).
Proof.
  intros Hx. split; apply reduce128_spec; auto using add_nc_portable_ok, add_nc_x86_64_ok.
Qed.

Lemma reduce128_both_targets_witness :
  reduce128 add_no_canonicalize_trashing_input (2 ^ 128 - 1) = Some ((2 ^ 128 - 1) mod ORDER).
Proof. apply (reduce128_both_targets (2 ^ 128 - 1)). split; vm_compute; congruence. Defined.

(** Conversions: every [i64] (and so every [i32]) becomes its residue without
    tripping the canonicity assertion; small signed values and the eight
    little-endian bytes round-trip. *)
Theorem goldilocks_conversions x n :
  gl_canonical x -> - 2 ^ 63 <= n < 2 ^ 63 ->
  gl_from_i64 n = Some (n mod ORDER) /\
  (- ((ORDER - 1) / 2) <= n <= (ORDER - 1) / 2 ->
   gl_to_signed_integer (n mod ORDER) = n) /\
  gl_from_bytes_le (gl_to_bytes_le x) = Some x.
Proof.
  intros Hx Hn. split; [now apply from_noncanonical_i64_spec|]. split.
  - unfold gl_to_signed_integer, gl_is_in_lower_half. intros Hs.
    change ((ORDER - 1) / 2) with 9223372034707292160 in *. gl_unfold.
    case_if; gl_lia.
  - unfold gl_from_bytes_le, gl_to_bytes_le. rewrite from_le_bytes_le_bytes.
    + assert (Hw : (x <? 2 ^ 64) = true) by (apply Z.ltb_lt; gl_unfold; lia).
      rewrite Hw. cbn [assert_that]. eapply bind_eq; [reflexivity|].
      unfold gl_from_u64. now rewrite !gl_wrap_canonical by (rewrite ?gl_wrap_canonical; exact Hx).
    + change (256 ^ Z.of_nat 8) with 18446744073709551616. gl_unfold. lia.
Qed.

Lemma goldilocks_conversions_witness :
  gl_from_i64 (-5) = Some (ORDER - 5) /\ gl_from_bytes_le (gl_to_bytes_le 300) = Some 300.
Proof.
  destruct (goldilocks_conversions 300 (-5)) as (H1 & _ & H2);
    [split; vm_compute; congruence|split; vm_compute; congruence|].
  split; [rewrite H1; reflexivity|exact H2].
Defined.

(** [from_str_radix] does not canonicalise: unlike [from_str], which rejects
    values at or above the modulus, it accepts the modulus itself and returns a
    representation of zero that [is_zero] does not recognise and that [try_inverse]
    "inverts". *)
Theorem from_str_radix_not_canonical :
  let s := list_ascii_of_string "ffffffff00000001" in
  gl_from_str_radix s 16 = inl ORDER /\ ~ gl_canonical ORDER /\
  gl_is_zero ORDER = false /\ try_inverse ORDER = Some (Some 0) /\
  (forall parse t, parse t = Some ORDER -> gl_from_str parse t = Some (inr TooLargeForField)).
Proof.
  split; [vm_compute; reflexivity|]. split; [unfold gl_canonical; lia|].
  split; [vm_compute; reflexivity|]. split; [vm_compute; reflexivity|].
  intros parse t H. unfold gl_from_str. rewrite H. reflexivity.
Qed.
