(* ===== verification/Field.v ===== *)
(** * The field interface, [number/src/traits.rs]

    [FieldElement] is the trait the constraint solver is generic over, [FieldLaws]
    what an implementation promises to it. The solver's theorems are proved against
    the interface; [goldilocks_field] discharges it with the operations verified in
    [Goldilocks.v], and [reference_field] with plain modular arithmetic, which is what
    the other fields (third-party implementations) are documented to compute. *)

From stdpp Require Import base list option.
From Stdlib Require Import ZArith Lia Znumtheory ZmodInv Eqdep_dec.
From S2P Require Import Prelude Primes Goldilocks.

(** [modulus], [NUM_BITS] (of [Integer]) and [BITS] are integers, [to_integer] is the canonical value; a
    panicking operation returns [None]. The derived order of an element is the order
    of its integer. *)
Class FieldElement (T : Type) := {
  modulus : Z;
  NUM_BITS : Z;
  BITS : Z;
  to_integer : T -> Z;
  from_integer : Z -> T;
  from_biguint : Z -> option T;
  from_int : Z -> T;
  f_add : T -> T -> T;
  f_sub : T -> T -> T;
  f_mul : T -> T -> T;
  f_neg : T -> T;
  f_div : T -> T -> option T;
  is_in_lower_half : T -> bool
}.

Class FieldLaws (T : Type) `{FieldElement T} : Prop := {
  modulus_prime : Z.prime modulus;
  modulus_gt_2 : 2 < modulus;
  NUM_BITS_pos : 0 < NUM_BITS;
  modulus_fits : modulus < 2 ^ NUM_BITS;
  BITS_fits : 0 < BITS /\ 2 ^ (BITS - 1) <= modulus;
  to_integer_range : forall x : T, 0 <= to_integer x < modulus;
  to_integer_inj : forall x y : T, to_integer x = to_integer y -> x = y;
  from_integer_spec : forall z, in_width NUM_BITS z -> to_integer (from_integer z) = z mod modulus;
  from_biguint_spec : forall z, 0 <= z < modulus -> exists x : T, from_biguint z = Some x /\ to_integer x = z;
  from_int_spec : forall z, -1 <= z < 2 ^ 31 -> to_integer (from_int z) = z mod modulus;
  f_add_spec : forall x y : T, to_integer (f_add x y) = (to_integer x + to_integer y) mod modulus;
  f_sub_spec : forall x y : T, to_integer (f_sub x y) = (to_integer x - to_integer y) mod modulus;
  f_mul_spec : forall x y : T, to_integer (f_mul x y) = (to_integer x * to_integer y) mod modulus;
  f_neg_spec : forall x : T, to_integer (f_neg x) = (- to_integer x) mod modulus;
  f_div_zero : forall x y : T, to_integer y = 0 -> f_div x y = None;
  f_div_spec : forall x y : T, to_integer y <> 0 ->
    exists q, f_div x y = Some q /\ (to_integer q * to_integer y) mod modulus = to_integer x;
  is_in_lower_half_spec : forall x : T, is_in_lower_half x = (to_integer x <=? (modulus - 1) / 2)
}.

(** ** Derived operations of the trait *)

Section Derived.
Context {T : Type} `{FieldElement T}.

Definition f_zero : T := from_int 0.
Definition f_one : T := from_int 1.
Definition f_eqb (x y : T) : bool := to_integer x =? to_integer y.
Definition f_leb (x y : T) : bool := to_integer x <=? to_integer y.
Definition f_ltb (x y : T) : bool := to_integer x <? to_integer y.
Definition f_is_zero (x : T) : bool := to_integer x =? 0.
Definition f_is_one (x : T) : bool := to_integer x =? 1.
Definition f_min (x y : T) : T := if f_leb x y then x else y.
Definition f_max (x y : T) : T := if f_leb x y then y else x.

(** The default method [to_signed_integer]. *)
Definition to_signed_integer (x : T) : Z :=
  if is_in_lower_half x then to_integer x else to_integer x - modulus.

End Derived.

(** [log2_exact], [number/src/lib.rs]: [trailing_zeros] is [None] for zero. *)
Fixpoint pos_trailing_zeros (n : positive) : Z :=
  match n with xO n' => 1 + pos_trailing_zeros n' | _ => 0 end.

Definition log2_exact (n : Z) : option Z :=
  match n with
  | Zpos p => let zeros := pos_trailing_zeros p in
              if n =? Z.shiftl 1 zeros then Some zeros else None
  | _ => None
  end.

(** ** Canonical representatives as a type *)

Record Zp (p : Z) := mkZp {
  zp_val : Z;
  zp_ok : (0 <=? zp_val) && (zp_val <? p) = true
}.
Arguments mkZp {p}.
Arguments zp_val {p}.
Arguments zp_ok {p}.

Lemma zp_range {p} (x : Zp p) : 0 <= zp_val x < p.
Proof. destruct x as [v Hv]. cbn. b2p. lia. Qed.

Lemma zp_ext {p} (x y : Zp p) : zp_val x = zp_val y -> x = y.
Proof.
  destruct x as [v Hv], y as [w Hw]. cbn. intros ->. f_equal.
  apply UIP_dec, Bool.bool_dec.
Qed.

Lemma mod_canonical p z : 0 < p -> (0 <=? z mod p) && (z mod p <? p) = true.
Proof. intros Hp. pose proof (Z.mod_pos_bound z p Hp). apply andb_true_intro. split; [apply Z.leb_le|apply Z.ltb_lt]; lia. Qed.

(** ** The Goldilocks implementation discharges the interface *)

Definition GoldilocksField := Zp ORDER.

Lemma order_pos : 0 < ORDER.
Proof. reflexivity. Qed.

Lemma canonical_bool x : gl_canonical x -> (0 <=? x) && (x <? ORDER) = true.
Proof. unfold gl_canonical. intros [H1 H2]. apply andb_true_intro. split; [now apply Z.leb_le|now apply Z.ltb_lt]. Qed.

(** The element a verified computation returns: the value inside its [Some]. *)
Definition gl_elt (o : option Z) (H : exists z, o = Some (z mod ORDER)) : GoldilocksField.
Proof.
  destruct o as [z|]; [|exfalso; now destruct H].
  exists z. abstract (destruct H as [w Hw]; injection Hw as ->; now apply mod_canonical).
Defined.

Lemma gl_elt_val o H z : o = Some z -> zp_val (gl_elt o H) = z.
Proof. intros ->. reflexivity. Qed.

(** [from_integer] is [From<GLLargeInt>], [from_int] the [From<i64>] that literals such
    as [1.into()] and [T::from(-1)] use. *)
Lemma gl_val_canonical (x : GoldilocksField) : gl_canonical (zp_val x).
Proof. apply zp_range. Qed.

Lemma gl_add_elt (x y : GoldilocksField) : exists z, gl_add (zp_val x) (zp_val y) = Some (z mod ORDER).
Proof. eexists. apply gl_add_spec; apply zp_range. Qed.
Lemma gl_sub_elt (x y : GoldilocksField) : exists z, gl_sub (zp_val x) (zp_val y) = Some (z mod ORDER).
Proof. eexists. apply gl_sub_spec; apply zp_range. Qed.
Lemma gl_mul_elt (x y : GoldilocksField) : exists z, gl_mul (zp_val x) (zp_val y) = Some (z mod ORDER).
Proof. eexists. apply gl_mul_spec; apply zp_range. Qed.
Lemma gl_neg_elt (x : GoldilocksField) : exists z, gl_neg (zp_val x) = Some (z mod ORDER).
Proof. eexists. apply gl_neg_spec; apply zp_range. Qed.

(** A machine integer that is already canonical, or zero. *)
Definition gl_of_canonical (z : Z) : GoldilocksField :=
  match bool_dec ((0 <=? z) && (z <? ORDER)) true with
  | left H => mkZp z H
  | right _ => @mkZp ORDER 0 eq_refl
  end.

Lemma gl_of_canonical_val z : gl_canonical z -> zp_val (gl_of_canonical z) = z.
Proof.
  intros Hz%canonical_bool. unfold gl_of_canonical. destruct bool_dec; [easy|contradiction].
Qed.

Definition gl_of_option (o : option Z) : option GoldilocksField := gl_of_canonical <$> o.

#[export] Instance goldilocks_field : FieldElement GoldilocksField := {
  modulus := ORDER;
  NUM_BITS := 64;
  BITS := 64;
  to_integer := zp_val;
  from_integer z := gl_of_canonical (gl_from_large_int z);
  from_biguint z := gl_of_option (gl_from_biguint z);
  from_int z := gl_of_canonical (default 0 (gl_from_i64 z));
  f_add x y := gl_elt (gl_add (zp_val x) (zp_val y)) (gl_add_elt x y);
  f_sub x y := gl_elt (gl_sub (zp_val x) (zp_val y)) (gl_sub_elt x y);
  f_mul x y := gl_elt (gl_mul (zp_val x) (zp_val y)) (gl_mul_elt x y);
  f_neg x := gl_elt (gl_neg (zp_val x)) (gl_neg_elt x);
  f_div x y := gl_of_option (gl_div (zp_val x) (zp_val y));
  is_in_lower_half x := gl_is_in_lower_half (zp_val x)
}.

Lemma gl_wrap_mod z : in_width 64 z -> zp_val (gl_of_canonical (gl_wrap z)) = z mod ORDER.
Proof.
  intros Hz. rewrite gl_wrap_spec by easy. apply gl_of_canonical_val, gl_canonical_mod.
Qed.

(** [from_int] is used at the literals [-1], [0], [1], [2] and [11]; the conversion covers
    all of [i64] here. *)
Lemma gl_from_int_val z : - 2 ^ 63 <= z < 2 ^ 63 ->
  zp_val (gl_of_canonical (default 0 (gl_from_i64 z))) = z mod ORDER.
Proof.
  intros Hz. unfold gl_from_i64. rewrite from_noncanonical_i64_spec by easy. cbn.
  apply gl_of_canonical_val, gl_canonical_mod.
Qed.

#[export] Instance goldilocks_laws : FieldLaws GoldilocksField.
Proof.
  split; cbn [modulus NUM_BITS BITS to_integer from_integer from_biguint from_int f_add f_sub
              f_mul f_neg f_div is_in_lower_half goldilocks_field].
  - exact goldilocks_order_prime.
  - reflexivity.
  - reflexivity.
  - reflexivity.
  - now split.
  - intros x. apply zp_range.
  - intros x y. apply zp_ext.
  - intros z Hz. now apply gl_wrap_mod.
  - intros z Hz. eexists. split; [|now apply gl_of_canonical_val].
    unfold gl_from_biguint. replace (z <? 2 ^ 64) with true.
    + cbn. unfold gl_from_u64. now rewrite gl_wrap_canonical.
    + symmetry. apply Z.ltb_lt. gl_unfold. lia.
  - intros z Hz. apply gl_from_int_val. lia.
  - intros x y. apply gl_elt_val, gl_add_spec; apply zp_range.
  - intros x y. apply gl_elt_val, gl_sub_spec; apply zp_range.
  - intros x y. apply gl_elt_val, gl_mul_spec; apply zp_range.
  - intros x. apply gl_elt_val, gl_neg_spec, zp_range.
  - intros x y Hy. now rewrite Hy.
  - intros x y Hy. destruct (gl_div_value (zp_val x) (zp_val y)) as (q & -> & Hq & Hm);
      [apply zp_range|apply zp_range|easy|].
    eexists. split; [reflexivity|]. now rewrite gl_of_canonical_val.
  - reflexivity.
Qed.

(** ** The reference field: modular arithmetic *)

Section Reference.
Variables (p bits : Z).
Hypothesis p_pos : (0 <? p) = true.

Lemma p_pos_lt : 0 < p.
Proof. now apply Z.ltb_lt. Qed.

Definition zp_of (z : Z) : Zp p := mkZp (z mod p) (mod_canonical p z p_pos_lt).

Definition reference_field : FieldElement (Zp p) := {|
  modulus := p;
  NUM_BITS := bits;
  BITS := Z.log2_up p;
  to_integer := zp_val;
  from_integer z := zp_of z;
  from_biguint z := Some (zp_of z);
  from_int z := zp_of z;
  f_add x y := zp_of (zp_val x + zp_val y);
  f_sub x y := zp_of (zp_val x - zp_val y);
  f_mul x y := zp_of (zp_val x * zp_val y);
  f_neg x := zp_of (- zp_val x);
  f_div x y := if zp_val y =? 0 then None else Some (zp_of (zp_val x * Z.invmod (zp_val y) p));
  is_in_lower_half x := zp_val x <=? (p - 1) / 2
|}.

Lemma reference_laws : Z.prime p -> 2 < p -> 0 < bits -> p < 2 ^ bits ->
  @FieldLaws (Zp p) reference_field.
Proof.
  intros Hp H2 Hb Hw.
  split; cbn; try easy.
  - pose proof (Z.log2_up_pos p ltac:(lia)). pose proof (Z.log2_up_spec p ltac:(lia)) as [Hl _]. rewrite <- Z.sub_1_r in Hl. lia.
  - intros x. apply zp_range.
  - intros x y. apply zp_ext.
  - intros z Hz. eexists. split; [reflexivity|]. now apply Z.mod_small.
  - intros x y ->. reflexivity.
  - intros x y Hy. destruct (Z.eqb_spec (zp_val y) 0); [easy|].
    eexists. split; [reflexivity|]. cbn. apply mod_unique; [apply zp_range|].
    rewrite eqm_mod, <- Z.mul_assoc.
    assert (Hi : eqm p (Z.invmod (zp_val y) p * zp_val y) 1).
    { apply eqm_iff. rewrite Z.invmod_prime; [|easy|].
      - rewrite Z.mod_small; lia.
      - rewrite Z.mod_small; [easy|apply zp_range]. }
    now rewrite Hi, Z.mul_1_r.
Qed.

End Reference.

Arguments zp_of {p}.

(** ** Facts every client of the interface uses *)

Section Facts.
Context {T : Type} `{FL : FieldLaws T}.

Lemma modulus_pos : 0 < modulus.
Proof. pose proof (modulus_gt_2 (T:=T)). lia. Qed.

Lemma f_zero_int : to_integer f_zero = 0.
Proof. unfold f_zero. rewrite from_int_spec by lia. apply Z.mod_0_l. pose proof modulus_pos; lia. Qed.

Lemma f_one_int : to_integer f_one = 1.
Proof. unfold f_one. rewrite from_int_spec by lia. apply Z.mod_small. pose proof (modulus_gt_2 (T:=T)); lia. Qed.

Lemma f_neg_one_int : to_integer (f_neg f_one) = modulus - 1.
Proof.
  rewrite f_neg_spec, f_one_int. apply mod_unique.
  - pose proof (modulus_gt_2 (T:=T)); lia.
  - exists (-1). lia.
Qed.

Lemma from_int_m1 : to_integer (from_int (-1)) = modulus - 1.
Proof.
  rewrite from_int_spec by lia. apply mod_unique.
  - pose proof (modulus_gt_2 (T:=T)); lia.
  - exists (-1). lia.
Qed.

(** The operations up to [eqm], for rewriting under sums and products. *)
Lemma f_add_eqm x y : eqm modulus (to_integer (f_add x y)) (to_integer x + to_integer y).
Proof. rewrite f_add_spec. apply eqm_mod. Qed.
Lemma f_sub_eqm x y : eqm modulus (to_integer (f_sub x y)) (to_integer x - to_integer y).
Proof. rewrite f_sub_spec. apply eqm_mod. Qed.
Lemma f_mul_eqm x y : eqm modulus (to_integer (f_mul x y)) (to_integer x * to_integer y).
Proof. rewrite f_mul_spec. apply eqm_mod. Qed.
Lemma f_neg_eqm x : eqm modulus (to_integer (f_neg x)) (- to_integer x).
Proof. rewrite f_neg_spec. apply eqm_mod. Qed.

(** Two elements congruent modulo the field are equal. *)
Lemma f_eqm_eq (x y : T) : eqm modulus (to_integer x) (to_integer y) -> x = y.
Proof. intros Hm. apply to_integer_inj. eapply eqm_small; eauto using to_integer_range. Qed.

Lemma f_eqb_eq (x y : T) : f_eqb x y = true <-> x = y.
Proof.
  unfold f_eqb. rewrite Z.eqb_eq. split; [apply to_integer_inj|now intros ->].
Qed.

Lemma f_integral x y : eqm modulus (x * y) 0 -> eqm modulus x 0 \/ eqm modulus y 0.
Proof.
  unfold eqm. rewrite !Z.sub_0_r. intros Hm.
  apply Z.divide_prime_mul in Hm; [easy|apply modulus_prime].
Qed.

Lemma f_min_int (x y : T) : to_integer (f_min x y) = Z.min (to_integer x) (to_integer y).
Proof. unfold f_min, f_leb. case_if; lia. Qed.

Lemma f_max_int (x y : T) : to_integer (f_max x y) = Z.max (to_integer x) (to_integer y).
Proof. unfold f_max, f_leb. case_if; lia. Qed.

(** A non-zero integer below the modulus is a unit. *)
Lemma eqm_cancel c a b : 0 < c < modulus -> eqm modulus (c * a) (c * b) -> eqm modulus a b.
Proof.
  intros Hc Hm. unfold eqm in *. rewrite <- Z.mul_sub_distr_l in Hm.
  apply Z.divide_prime_mul in Hm as [Hm|Hm]; [|easy|apply modulus_prime].
  apply Z.divide_pos_le in Hm; lia.
Qed.

End Facts.

#[export] Hint Resolve modulus_pos to_integer_range : powdr.

(** Puts a field element's range in the context. *)
Ltac range x := pose proof (to_integer_range x).

(** Reduces a goal [eqm modulus (to_integer (...)) ...] to the integers. *)
Ltac feqm := rewrite ?f_add_eqm, ?f_sub_eqm, ?f_mul_eqm, ?f_neg_eqm, ?f_zero_int, ?f_one_int.

Lemma pos_trailing_zeros_nonneg p : 0 <= pos_trailing_zeros p.
Proof. induction p; cbn [pos_trailing_zeros]; lia. Qed.

Lemma pos_trailing_zeros_pow2 (n : nat) (p : positive) :
  Zpos p = 2 ^ Z.of_nat n -> pos_trailing_zeros p = Z.of_nat n.
Proof.
  revert p. induction n as [|n IH]; intros p Hp.
  - change (2 ^ Z.of_nat 0) with 1 in Hp. injection Hp as ->. reflexivity.
  - rewrite Nat2Z.inj_succ, Z.pow_succ_r in Hp by lia.
    destruct p as [p|p|]; [lia| |lia]. cbn [pos_trailing_zeros]. rewrite IH; lia.
Qed.

(** [log2_exact n] is [Some i] exactly when [n] is [2 ^ i]. *)
Lemma log2_exact_spec n i : 0 <= i -> log2_exact n = Some i <-> n = 2 ^ i.
Proof.
  intros Hi. pose proof (Z.pow_pos_nonneg 2 i) as Hpos. split.
  - unfold log2_exact. destruct n as [|p|p]; try discriminate. case_if; [|discriminate].
    intros [= <-]. rewrite E, Z.shiftl_mul_pow2 by apply pos_trailing_zeros_nonneg. lia.
  - intros Hn. destruct n as [|p|p]; [lia| |lia]. unfold log2_exact.
    rewrite <- (Z2Nat.id i) in Hn by lia. rewrite (pos_trailing_zeros_pow2 _ _ Hn), Z2Nat.id in * by lia.
    rewrite Z.shiftl_mul_pow2, Z.mul_1_l, Hn, Z.eqb_refl by lia. reflexivity.
Qed.

Lemma log2_exact_nonneg n i : log2_exact n = Some i -> 0 <= i.
Proof.
  unfold log2_exact. destruct n; try discriminate. case_if; [|discriminate].
  intros [= <-]. apply pos_trailing_zeros_nonneg.
Qed.
