(* ===== verification/RangeConstraints.v ===== *)
(** * Range constraints, [executor/src/witgen/range_constraints.rs]

    The abstract domain of the witness generator: a bit mask and a (possibly
    wrapping) interval of field elements. [None] is a panic: a failed [assert!], an
    overflow of the integer type, a shift by too much. *)

From stdpp Require Import base list option.
From Stdlib Require Import ZArith Lia.
From S2P Require Import Prelude Goldilocks Field.

Record RangeConstraint (T : Type) := mkRC {
  rc_mask : Z;
  rc_min : T;
  rc_max : T
}.
Arguments mkRC {T}.
Arguments rc_mask {T}.
Arguments rc_min {T}.
Arguments rc_max {T}.

Section Definitions.
Context {T : Type} `{FieldElement T}.

(** [!T::Integer::zero()]. *)
Definition int_max : Z := bitnot NUM_BITS 0.

Definition mask_from_bits (bits : Z) : option Z :=
  if bits =? 0 then Some 0
  else
    _ ← assert_that (bits <=? NUM_BITS);
    checked_shr NUM_BITS int_max (NUM_BITS - bits).

Definition rc_from_mask (mask : Z) : RangeConstraint T :=
  {| rc_mask := mask;
     rc_min := f_zero;
     rc_max := from_integer (Z.min mask (to_integer (T:=T) (from_int (-1)))) |}.

Definition rc_from_max_bit (max_bit : Z) : option (RangeConstraint T) :=
  m ← mask_from_bits (max_bit + 1); Some (rc_from_mask m).

Definition rc_from_value (value : T) : RangeConstraint T :=
  {| rc_mask := to_integer value; rc_min := value; rc_max := value |}.

Definition rc_from_range (min max : T) : option (RangeConstraint T) :=
  m ← (if f_leb min max then mask_from_bits (bit_length (to_integer max)) else Some int_max);
  Some {| rc_mask := m; rc_min := min; rc_max := max |}.

Definition rc_unconstrained : RangeConstraint T := rc_from_mask int_max.

Definition rc_range (c : RangeConstraint T) : T * T := (rc_min c, rc_max c).

Definition range_width (min max : T) : Z :=
  if f_eqb (f_add max f_one) min then modulus
  else to_integer (f_add (f_sub max min) f_one).

Definition rc_range_width (c : RangeConstraint T) : Z := range_width (rc_min c) (rc_max c).

Definition rc_allows_value (c : RangeConstraint T) (v : T) : bool :=
  let in_range :=
    if f_leb (rc_min c) (rc_max c)
    then f_leb (rc_min c) v && f_leb v (rc_max c)
    else f_leb (rc_min c) v || f_leb v (rc_max c) in
  let in_mask := Z.land (to_integer v) (rc_mask c) =? to_integer v in
  in_range && in_mask.

Definition rc_try_to_single_value (c : RangeConstraint T) : option T :=
  if f_eqb (rc_min c) (rc_max c) then Some (rc_min c) else None.

Definition rc_bisect (c : RangeConstraint T)
  : option (RangeConstraint T * RangeConstraint T) :=
  _ ← assert_that (match rc_try_to_single_value c with None => true | _ => false end);
  w ← checked_shr NUM_BITS (rc_range_width c) 1;
  let half_width := from_integer w in
  _ ← assert_that (f_ltb f_zero half_width);
  Some ({| rc_mask := rc_mask c; rc_min := rc_min c;
           rc_max := f_sub (f_add (rc_min c) half_width) f_one |},
        {| rc_mask := rc_mask c; rc_min := f_add (rc_min c) half_width;
           rc_max := rc_max c |}).

Definition rc_combine_sum (c d : RangeConstraint T) : option (RangeConstraint T) :=
  mask ← (if modulus <=? rc_mask c + rc_mask d then Some int_max
          else s ← checked_add NUM_BITS (rc_mask c) (rc_mask d);
               Some (Z.lor (Z.lor s (rc_mask c)) (rc_mask d)));
  let '(min, max) :=
    if rc_range_width c + rc_range_width d <=? modulus
    then (f_add (rc_min c) (rc_min d), f_add (rc_max c) (rc_max d))
    else (f_one, f_zero) in
  Some {| rc_mask := mask; rc_min := min; rc_max := max |}.

Definition shifted_interval (i : T * T) (shift : T) : T * T :=
  (f_add (fst i) shift, f_add (snd i) shift).

(** The two shifts the source tries, and the test it keeps a shift on. *)
Definition shift_candidate (a b : T * T) (shift : T) : option (T * ((T * T) * (T * T))) :=
  let a_shifted := shifted_interval a (f_neg shift) in
  let b_shifted := shifted_interval b (f_neg shift) in
  if f_leb (fst a_shifted) (snd a_shifted) && f_leb (fst b_shifted) (snd b_shifted)
  then Some (shift, (a_shifted, b_shifted)) else None.

Fixpoint find_map {A B} (f : A -> option B) (l : list A) : option B :=
  match l with
  | [] => None
  | x :: l' => match f x with Some y => Some y | None => find_map f l' end
  end.

Definition interval_intersection (a b : T * T) : option (T * T) :=
  match find_map (shift_candidate a b) [fst a; fst b] with
  | Some (shift, (a_shifted, b_shifted)) =>
    let intersection := (f_max (fst a_shifted) (fst b_shifted),
                         f_min (snd a_shifted) (snd b_shifted)) in
    if f_leb (fst intersection) (snd intersection)
    then Some (shifted_interval intersection shift) else None
  | None =>
    if range_width (fst a) (snd a) <=? range_width (fst b) (snd b) then Some a else Some b
  end.

Definition rc_conjunction (c d : RangeConstraint T) : option (RangeConstraint T) :=
  let mask := Z.land (rc_mask c) (rc_mask d) in
  let '(min, max) :=
    default (f_zero, f_zero)
      (interval_intersection (rc_min c, rc_max c) (rc_min d, rc_max d)) in
  let '(min, max) :=
    if mask <? modulus then
      if f_leb min max then
        (f_min (from_integer mask) min, f_min (from_integer mask) max)
      else if mask <? to_integer min then
        (f_zero, f_min (from_integer mask) max)
      else (min, max)
    else (min, max) in
  mask ← (if f_leb min max
          then r ← rc_from_range min max; Some (Z.land mask (rc_mask r))
          else Some mask);
  Some {| rc_mask := mask; rc_min := min; rc_max := max |}.

Definition rc_disjunction (c d : RangeConstraint T) : RangeConstraint T :=
  let mask := Z.lor (rc_mask c) (rc_mask d) in
  match f_leb (rc_min c) (rc_max c), f_leb (rc_min d) (rc_max d) with
  | true, true =>
    {| rc_mask := mask; rc_min := f_min (rc_min c) (rc_min d);
       rc_max := f_max (rc_max c) (rc_max d) |}
  | true, false | false, true => rc_from_mask mask
  | false, false =>
    let min := f_min (rc_min c) (rc_min d) in
    let max := f_max (rc_max c) (rc_max d) in
    if f_leb min max then rc_from_mask mask
    else {| rc_mask := mask; rc_min := min; rc_max := max |}
  end.

Definition range_multiple (min max factor : T) : T * T :=
  if range_width min max * to_integer factor <=? modulus
  then (f_mul min factor, f_mul max factor)
  else (f_one, f_zero).

(** The inner [None] is the source's [Option]: no mask from the exponent. *)
Definition multiple_mask (c : RangeConstraint T) (factor : T) : option (option Z) :=
  match log2_exact (to_integer factor) with
  | None => Some None
  | Some exponent =>
    if Z.shiftl (rc_mask c) exponent <? modulus
    then m ← checked_shl NUM_BITS (rc_mask c) exponent; Some (Some m)
    else Some None
  end.

Definition rc_multiple (c : RangeConstraint T) (factor : T) : option (RangeConstraint T) :=
  mask ← multiple_mask c factor;
  let '(min, max) :=
    if is_in_lower_half factor
    then range_multiple (rc_min c) (rc_max c) factor
    else range_multiple (f_neg (rc_max c)) (f_neg (rc_min c)) (f_neg factor) in
  mask ← match mask with
         | Some m => Some m
         | None => r ← rc_from_range min max; Some (rc_mask r)
         end;
  Some {| rc_mask := mask; rc_min := min; rc_max := max |}.

Definition rc_neg (c : RangeConstraint T) : option (RangeConstraint T) :=
  let '(min, max) := rc_range c in
  rc_from_range (f_neg max) (f_neg min).

(** [derive(PartialEq)]. *)
Definition rc_eqb (c d : RangeConstraint T) : bool :=
  (rc_mask c =? rc_mask d) && f_eqb (rc_min c) (rc_min d) && f_eqb (rc_max c) (rc_max d).

End Definitions.

(** ** Meaning of a constraint *)

Section Meaning.
Context {T : Type} `{FL : FieldLaws T}.

(** [v] is in the inclusive, possibly wrapping interval: its distance from [min] is at
    most the distance of [max] from [min]. *)
Definition in_interval (min max v : T) : Prop :=
  (to_integer v - to_integer min) mod modulus <= (to_integer max - to_integer min) mod modulus.

(** A well-formed constraint's mask fits the integer type. *)
Definition rc_wf (c : RangeConstraint T) : Prop := in_width NUM_BITS (rc_mask c).

Definition rc_allows (c : RangeConstraint T) (v : T) : Prop := rc_allows_value c v = true.

Lemma sub_mod_cases a b p : 0 <= a < p -> 0 <= b < p ->
  (a - b) mod p = if b <=? a then a - b else a - b + p.
Proof.
  intros Ha Hb. case_if; apply mod_unique; try lia; [reflexivity|exists (-1); lia].
Qed.

Lemma rc_allows_iff c v :
  rc_allows c v <-> in_interval (rc_min c) (rc_max c) v /\ submask (to_integer v) (rc_mask c).
Proof.
  unfold rc_allows, rc_allows_value, in_interval, submask, f_leb.
  rewrite andb_true_iff, Z.eqb_eq. apply and_iff_compat_r.
  range v. range (rc_min c). range (rc_max c).
  rewrite !sub_mod_cases by easy.
  repeat case_if; rewrite ?andb_true_iff, ?orb_true_iff, ?Z.leb_le; lia.
Qed.

(** Introduction and elimination of interval membership through distances. *)
Lemma in_interval_intro min max v d w :
  0 <= d <= w -> w < modulus ->
  eqm modulus (to_integer v) (to_integer min + d) ->
  eqm modulus (to_integer max) (to_integer min + w) -> in_interval min max v.
Proof.
  intros Hd Hw Hv Hm. unfold in_interval.
  rewrite (mod_unique _ _ d), (mod_unique _ (_ max - _) w); try lia.
  - rewrite Hm. now replace (to_integer min + w - to_integer min) with w by lia.
  - rewrite Hv. now replace (to_integer min + d - to_integer min) with d by lia.
Qed.

(** The width the source computes is one more than the distance. *)
Lemma range_width_dist min max :
  range_width min max = (to_integer max - to_integer min) mod modulus + 1.
Proof.
  unfold range_width, f_eqb. range max. range min. pose proof (modulus_gt_2 (T:=T)).
  case_if.
  - rewrite (mod_unique _ _ (modulus - 1)); [lia|lia|].
    rewrite f_add_spec, f_one_int in E. rewrite <- E, eqm_mod. exists (-1). lia.
  - set (w := (to_integer max - to_integer min) mod modulus).
    assert (Hw : 0 <= w < modulus) by (apply Z.mod_pos_bound; lia).
    rewrite f_add_spec, f_sub_spec, f_one_int. fold w. apply Z.mod_small.
    assert (w <> modulus - 1); [|lia]. intros Hwm. apply E.
    rewrite f_add_spec, f_one_int. apply mod_unique; [easy|].
    assert (Hw1 : eqm modulus (to_integer max - to_integer min) (modulus - 1))
      by (rewrite <- Hwm; unfold w; now rewrite eqm_mod).
    destruct Hw1 as [k Hk]. exists (k + 1). lia.
Qed.

Lemma range_width_bounds min max : 1 <= range_width min max <= modulus.
Proof.
  rewrite range_width_dist.
  pose proof (Z.mod_pos_bound (to_integer max - to_integer min) modulus modulus_pos). lia.
Qed.

Lemma max_at_width min max :
  eqm modulus (to_integer max) (to_integer min + (range_width min max - 1)).
Proof.
  rewrite range_width_dist, Z.add_simpl_r, eqm_mod.
  now replace (to_integer min + (to_integer max - to_integer min)) with (to_integer max) by lia.
Qed.

Lemma in_interval_elim min max v : in_interval min max v ->
  exists d, 0 <= d <= range_width min max - 1 /\
    eqm modulus (to_integer v) (to_integer min + d).
Proof.
  intros Hin. unfold in_interval in Hin.
  exists ((to_integer v - to_integer min) mod modulus). rewrite range_width_dist.
  pose proof (Z.mod_pos_bound (to_integer v - to_integer min) modulus modulus_pos).
  split; [lia|]. rewrite eqm_mod.
  now replace (to_integer min + (to_integer v - to_integer min)) with (to_integer v) by lia.
Qed.

(** The interval [1 .. 0] wraps around the whole field. *)
Lemma in_interval_full v : in_interval f_one f_zero v.
Proof.
  unfold in_interval. rewrite f_zero_int, f_one_int.
  rewrite (mod_unique modulus (0 - 1) (modulus - 1)).
  - pose proof (Z.mod_pos_bound (to_integer v - 1) modulus modulus_pos). lia.
  - pose proof modulus_pos. lia.
  - exists (-1). lia.
Qed.

(** Between non-wrapping bounds, membership is the integer order. *)
Lemma in_interval_le min max v : to_integer min <= to_integer max ->
  in_interval min max v <-> to_integer min <= to_integer v <= to_integer max.
Proof.
  intros Hle. unfold in_interval. range v. range min. range max.
  rewrite !sub_mod_cases by easy. repeat case_if; lia.
Qed.

Lemma in_interval_gt min max v : to_integer max < to_integer min ->
  in_interval min max v <-> to_integer min <= to_integer v \/ to_integer v <= to_integer max.
Proof.
  intros Hgt. unfold in_interval. range v. range min. range max.
  rewrite !sub_mod_cases by easy. repeat case_if; lia.
Qed.

(** ** Soundness of each operation *)

Lemma int_max_ones : int_max (T:=T) = Z.ones NUM_BITS.
Proof. unfold int_max, bitnot. lia. Qed.

Lemma int_max_width : in_width NUM_BITS (int_max (T:=T)).
Proof.
  rewrite int_max_ones, Z.ones_equiv. pose proof (NUM_BITS_pos (T:=T)).
  assert (0 < 2 ^ NUM_BITS) by (apply Z.pow_pos_nonneg; lia). unfold in_width. lia.
Qed.

Lemma to_integer_width (v : T) : in_width NUM_BITS (to_integer v).
Proof. range v. pose proof (modulus_fits (T:=T)). unfold in_width. lia. Qed.

Lemma submask_int_max (v : T) : submask (to_integer v) (int_max (T:=T)).
Proof.
  rewrite int_max_ones. apply submask_ones; [|apply to_integer_width].
  pose proof (NUM_BITS_pos (T:=T)). lia.
Qed.

Lemma mask_from_bits_spec bits : 0 <= bits <= NUM_BITS ->
  mask_from_bits (T:=T) bits = Some (Z.ones bits).
Proof.
  intros Hb. unfold mask_from_bits. case_if; [now subst|].
  replace (bits <=? NUM_BITS) with true by (symmetry; apply Z.leb_le; lia).
  cbn [assert_that mbind option_bind]. unfold checked_shr.
  replace (NUM_BITS - bits <? NUM_BITS) with true by (symmetry; apply Z.ltb_lt; lia).
  rewrite int_max_ones, Z.shiftr_div_pow2, !Z.ones_equiv by lia. f_equal.
  assert (0 < 2 ^ (NUM_BITS - bits)) by (apply Z.pow_pos_nonneg; lia).
  assert (0 < 2 ^ bits) by (apply Z.pow_pos_nonneg; lia).
  symmetry. apply (Z.div_unique_pos _ _ _ (2 ^ (NUM_BITS - bits) - 1)); [lia|].
  replace NUM_BITS with (bits + (NUM_BITS - bits)) at 1 by lia. rewrite Z.pow_add_r by lia. lia.
Qed.

(** [from_range] does not panic; its mask covers the interval. *)
Lemma rc_from_range_spec min max : exists m,
  rc_from_range min max = Some {| rc_mask := m; rc_min := min; rc_max := max |} /\
  in_width NUM_BITS m /\
  forall v, in_interval min max v -> submask (to_integer v) m.
Proof.
  unfold rc_from_range, f_leb. case_if.
  - pose proof (NUM_BITS_pos (T:=T)) as Hnb.
    pose proof (bit_length_bounds _ _ Hnb (to_integer_width max)) as Hbl.
    rewrite mask_from_bits_spec by easy. eexists. split; [reflexivity|]. split.
    + rewrite Z.ones_equiv. unfold in_width.
      assert (0 < 2 ^ bit_length (to_integer max)) by (apply Z.pow_pos_nonneg; lia).
      assert (2 ^ bit_length (to_integer max) <= 2 ^ NUM_BITS) by (apply Z.pow_le_mono_r; lia). lia.
    + intros v Hv. apply in_interval_le in Hv; [|easy]. range max. range v.
      apply submask_ones; [lia|].
      pose proof (bit_length_spec (to_integer max)). lia.
  - eexists. split; [reflexivity|]. split; [apply int_max_width|].
    intros v _. apply submask_int_max.
Qed.

Lemma rc_from_mask_max mask : in_width NUM_BITS mask ->
  to_integer (rc_max (rc_from_mask (T:=T) mask)) = Z.min mask (modulus - 1).
Proof.
  intros Hm. unfold rc_from_mask. cbn [rc_max]. rewrite from_int_m1, from_integer_spec.
  - unfold in_width in Hm. pose proof (modulus_gt_2 (T:=T)). apply Z.mod_small. lia.
  - unfold in_width in *. pose proof (modulus_gt_2 (T:=T)). lia.
Qed.

Lemma rc_from_mask_allows mask v : in_width NUM_BITS mask ->
  rc_allows (rc_from_mask mask) v <-> submask (to_integer v) mask.
Proof.
  intros Hm. rewrite rc_allows_iff. split; [tauto|]. intros Hs. split; [|exact Hs].
  pose proof (rc_from_mask_max mask Hm) as Hmax. range v. pose proof (modulus_gt_2 (T:=T)).
  assert (to_integer v <= mask) by (apply submask_le; unfold in_width in Hm; lia || easy).
  assert (Hz : to_integer (rc_min (rc_from_mask (T:=T) mask)) = 0) by apply f_zero_int.
  unfold in_width in Hm. apply in_interval_le; rewrite Hz, Hmax; lia.
Qed.

Lemma rc_unconstrained_allows v : rc_allows rc_unconstrained v.
Proof. apply rc_from_mask_allows; [apply int_max_width|apply submask_int_max]. Qed.

Lemma rc_from_value_allows (x v : T) : rc_allows (rc_from_value x) v <-> v = x.
Proof.
  rewrite rc_allows_iff. cbn. split.
  - intros [Hi _]. apply in_interval_le in Hi; [|lia]. apply to_integer_inj. lia.
  - intros ->. split; [|apply submask_refl]. unfold in_interval. lia.
Qed.

(** Interval arithmetic. *)
Lemma in_interval_add a b c d v w :
  range_width a b + range_width c d <= modulus ->
  in_interval a b v -> in_interval c d w ->
  in_interval (f_add a c) (f_add b d) (f_add v w).
Proof.
  intros Hw Hv%in_interval_elim Hu%in_interval_elim.
  destruct Hv as (dv & Hdv & Hv), Hu as (dw & Hdw & Hu).
  apply (in_interval_intro _ _ _ (dv + dw) (range_width a b - 1 + (range_width c d - 1))); [lia|lia| |].
  - feqm. rewrite Hv, Hu. now replace (to_integer a + dv + (to_integer c + dw))
      with (to_integer a + to_integer c + (dv + dw)) by lia.
  - feqm. rewrite (max_at_width a b), (max_at_width c d).
    eqm_lia.
Qed.

Lemma in_interval_neg a b v : in_interval a b v -> in_interval (f_neg b) (f_neg a) (f_neg v).
Proof.
  intros Hv%in_interval_elim. destruct Hv as (d & Hd & Hv).
  pose proof (range_width_bounds a b).
  apply (in_interval_intro _ _ _ (range_width a b - 1 - d) (range_width a b - 1)); [lia|lia| |].
  - feqm. rewrite Hv, (max_at_width a b).
    eqm_lia.
  - feqm. rewrite (max_at_width a b).
    eqm_lia.
Qed.

Lemma in_interval_mul a b f v :
  range_width a b * to_integer f <= modulus ->
  in_interval a b v -> in_interval (f_mul a f) (f_mul b f) (f_mul v f).
Proof.
  intros Hw Hv%in_interval_elim. destruct Hv as (d & Hd & Hv). range f.
  pose proof (range_width_bounds a b). pose proof (modulus_gt_2 (T:=T)).
  apply (in_interval_intro _ _ _ (d * to_integer f) ((range_width a b - 1) * to_integer f)); [nia|nia| |].
  - feqm. rewrite Hv.
    eqm_lia.
  - feqm. rewrite (max_at_width a b).
    eqm_lia.
Qed.

Lemma range_multiple_sound a b f v :
  in_interval a b v ->
  in_interval (fst (range_multiple a b f)) (snd (range_multiple a b f)) (f_mul v f).
Proof.
  intros Hv. unfold range_multiple. case_if; [now apply in_interval_mul|apply in_interval_full].
Qed.

Lemma in_interval_shift a b v s :
  in_interval (f_add a s) (f_add b s) (f_add v s) <-> in_interval a b v.
Proof.
  unfold in_interval. split; intros Hin.
  all: rewrite (proj1 (eqm_iff modulus (_ (f_add v s) - _) (to_integer v - to_integer a))) in *
    by (feqm; eqm_lia).
  all: rewrite (proj1 (eqm_iff modulus (_ (f_add b s) - _) (to_integer b - to_integer a))) in *
    by (feqm; eqm_lia).
  all: exact Hin.
Qed.

End Meaning.

Section Soundness.
Context {T : Type} `{FL : FieldLaws T}.
Implicit Types c d : RangeConstraint T.

Lemma rc_combine_sum_sound c d : rc_wf c -> rc_wf d ->
  exists e, rc_combine_sum c d = Some e /\ rc_wf e /\
    forall v w, rc_allows c v -> rc_allows d w -> rc_allows e (f_add v w).
Proof.
  intros Hc Hd. unfold rc_wf, in_width in *. unfold rc_combine_sum.
  set (mask := if modulus <=? rc_mask c + rc_mask d then int_max (T:=T)
               else Z.lor (Z.lor (rc_mask c + rc_mask d) (rc_mask c)) (rc_mask d)).
  pose proof (modulus_fits (T:=T)) as Hfits.
  assert (Hmask : forall v w : T, submask (to_integer v) (rc_mask c) -> submask (to_integer w) (rc_mask d) ->
    submask (to_integer (f_add v w)) mask).
  { intros v w Hv Hw. unfold mask. case_if; [apply submask_int_max|].
    range v. range w. rewrite f_add_spec, Z.mod_small.
    - apply submask_add; try easy; lia.
    - pose proof (submask_le _ _ (proj1 (to_integer_range v)) (proj1 Hc) Hv).
      pose proof (submask_le _ _ (proj1 (to_integer_range w)) (proj1 Hd) Hw). lia. }
  assert (Hwf : 0 <= mask < 2 ^ NUM_BITS).
  { unfold mask. case_if; [apply int_max_width|].
    apply lor_width; [apply lor_width|]; unfold in_width; lia. }
  exists {| rc_mask := mask;
    rc_min := if rc_range_width c + rc_range_width d <=? modulus then f_add (rc_min c) (rc_min d) else f_one;
    rc_max := if rc_range_width c + rc_range_width d <=? modulus then f_add (rc_max c) (rc_max d) else f_zero |}.
  split; [|split; [exact Hwf|]].
  - eapply (bind_eq _ mask).
    + unfold mask, checked_add. case_if; [reflexivity|].
      replace (rc_mask c + rc_mask d <? 2 ^ NUM_BITS) with true; [reflexivity|].
      symmetry. apply Z.ltb_lt. lia.
    + case_if; reflexivity.
  - intros v w Hv%rc_allows_iff Hw%rc_allows_iff. apply rc_allows_iff. cbn [rc_mask rc_min rc_max].
    split; [|now apply Hmask].
    case_if; [apply in_interval_add; tauto|apply in_interval_full].
Qed.

Lemma rc_neg_sound c :
  exists e, rc_neg c = Some e /\ rc_wf e /\
    forall v, rc_allows c v -> rc_allows e (f_neg v).
Proof.
  unfold rc_neg, rc_range.
  destruct (rc_from_range_spec (f_neg (rc_max c)) (f_neg (rc_min c))) as (m & -> & Hm & Hs).
  eexists. split; [reflexivity|]. split; [exact Hm|].
  intros v [Hi _]%rc_allows_iff. apply in_interval_neg in Hi.
  apply rc_allows_iff. split; [exact Hi|now apply Hs].
Qed.

Lemma f_neg_mul_neg (x y : T) : f_mul (f_neg x) (f_neg y) = f_mul x y.
Proof. apply f_eqm_eq. feqm. eqm_lia. Qed.

(** The mask of [2 ^ k * x] when shifting it does not reach the modulus. *)
Lemma multiple_mask_sound c factor : rc_wf c ->
  exists o, multiple_mask c factor = Some o /\
    forall m, o = Some m -> in_width NUM_BITS m /\
      forall v, submask (to_integer v) (rc_mask c) -> submask (to_integer (f_mul v factor)) m.
Proof.
  intros [Hm0 Hm]. unfold multiple_mask.
  destruct (log2_exact (to_integer factor)) as [k|] eqn:Ek; [|now exists None].
  pose proof (log2_exact_nonneg _ _ Ek) as Hk. apply log2_exact_spec in Ek; [|easy].
  case_if; [|now exists None].
  range factor. pose proof (modulus_fits (T:=T)). pose proof (NUM_BITS_pos (T:=T)).
  assert (Hkb : k < NUM_BITS) by (apply (Z.pow_lt_mono_r_iff 2); lia).
  unfold checked_shl. replace (k <? NUM_BITS) with true by (symmetry; apply Z.ltb_lt; lia).
  eexists. split; [reflexivity|]. intros m [= <-].
  assert (0 <= Z.shiftl (rc_mask c) k) by now apply Z.shiftl_nonneg.
  rewrite Z.mod_small by lia. split; [unfold in_width; lia|].
  intros v Hv. range v. pose proof (submask_le _ _ (proj1 (to_integer_range v)) Hm0 Hv).
  assert (Hmul : to_integer (f_mul v factor) = Z.shiftl (to_integer v) k).
  { rewrite f_mul_spec, Ek, <- Z.shiftl_mul_pow2 by lia.
    rewrite Z.shiftl_mul_pow2 in * by lia. apply Z.mod_small. nia. }
  rewrite Hmul. now apply submask_shiftl.
Qed.

Lemma rc_multiple_sound c factor : rc_wf c ->
  exists e, rc_multiple c factor = Some e /\ rc_wf e /\
    forall v, rc_allows c v -> rc_allows e (f_mul v factor).
Proof.
  intros Hc. unfold rc_multiple.
  destruct (multiple_mask_sound c factor Hc) as (o & -> & Ho). cbn [mbind option_bind].
  set (i := if is_in_lower_half factor then range_multiple (rc_min c) (rc_max c) factor
            else range_multiple (f_neg (rc_max c)) (f_neg (rc_min c)) (f_neg factor)).
  assert (Hi : forall v, in_interval (rc_min c) (rc_max c) v ->
                in_interval (fst i) (snd i) (f_mul v factor)).
  { intros v Hv. unfold i. destruct (is_in_lower_half factor); [now apply range_multiple_sound|].
    apply in_interval_neg in Hv.
    apply (range_multiple_sound _ _ (f_neg factor)) in Hv. now rewrite f_neg_mul_neg in Hv. }
  destruct i as [mn mx]. cbn [fst snd] in Hi.
  destruct (rc_from_range_spec mn mx) as (m & -> & Hm & Hs).
  destruct o as [m'|]; cbn [mbind option_bind].
  - destruct (Ho m' eq_refl) as [Hw' Hs']. eexists. split; [reflexivity|]. split; [exact Hw'|].
    intros v Hv%rc_allows_iff. apply rc_allows_iff. cbn. split; [apply Hi|apply Hs']; tauto.
  - eexists. split; [reflexivity|]. split; [exact Hm|].
    intros v Hv%rc_allows_iff. apply rc_allows_iff. cbn.
    split; [|apply Hs]; apply Hi; tauto.
Qed.

(** The interval [interval_intersection] returns contains the intersection. *)
Lemma interval_intersection_sound (a b : T * T) v :
  in_interval (fst a) (snd a) v -> in_interval (fst b) (snd b) v ->
  exists i, interval_intersection a b = Some i /\ in_interval (fst i) (snd i) v.
Proof.
  intros Ha Hb. unfold interval_intersection.
  destruct (find_map (shift_candidate a b) [fst a; fst b]) as [[s [a' b']]|] eqn:Ef.
  2: { case_if; eauto. }
  assert (Hsh : a' = shifted_interval a (f_neg s) /\ b' = shifted_interval b (f_neg s) /\
                to_integer (fst a') <= to_integer (snd a') /\ to_integer (fst b') <= to_integer (snd b')).
  { revert Ef. cbn [find_map]. unfold shift_candidate, f_leb.
    repeat (case_if; [intros [= <- <- <-]; b2p; repeat split; lia|]). discriminate. }
  destruct Hsh as (-> & -> & Hale & Hble). unfold shifted_interval in *. cbn [fst snd] in *.
  apply (in_interval_shift _ _ _ (f_neg s)), in_interval_le in Ha; [|easy].
  apply (in_interval_shift _ _ _ (f_neg s)), in_interval_le in Hb; [|easy].
  unfold f_leb. rewrite f_max_int, f_min_int. case_if; [|lia].
  eexists. split; [reflexivity|]. cbn [fst snd].
  replace v with (f_add (f_add v (f_neg s)) s) by (apply f_eqm_eq; feqm; eqm_lia).
  apply in_interval_shift, in_interval_le; rewrite f_max_int, f_min_int; lia.
Qed.

Lemma rc_conjunction_sound c d : rc_wf c -> rc_wf d ->
  exists e, rc_conjunction c d = Some e /\ rc_wf e /\
    forall v, rc_allows c v -> rc_allows d v -> rc_allows e v.
Proof.
  intros Hc Hd. unfold rc_conjunction.
  set (mask := Z.land (rc_mask c) (rc_mask d)).
  assert (Hmw : in_width NUM_BITS mask) by (apply land_width; [apply Hc|exact Hd]).
  set (i := default _ _).
  assert (Hi : forall v, rc_allows c v -> rc_allows d v -> in_interval (fst i) (snd i) v).
  { intros v [Hv _]%rc_allows_iff [Hw _]%rc_allows_iff. unfold i.
    destruct (interval_intersection_sound (rc_min c, rc_max c) (rc_min d, rc_max d) v Hv Hw)
      as (j & -> & Hj). exact Hj. }
  destruct i as [mn mx]. cbn [fst snd] in Hi.
  set (i2 := if mask <? modulus then _ else _).
  assert (Hi2 : forall v, rc_allows c v -> rc_allows d v -> in_interval (fst i2) (snd i2) v).
  { intros v Hv Hw. pose proof (Hi v Hv Hw) as Hin.
    apply rc_allows_iff in Hv as [_ Hv]. apply rc_allows_iff in Hw as [_ Hw].
    assert (Hle : to_integer v <= mask).
    { apply submask_le; [apply to_integer_range|apply Hmw|now apply submask_land]. }
    unfold i2. case_if; [|exact Hin].
    assert (Hfi : to_integer (from_integer mask) = mask).
    { rewrite from_integer_spec by easy. apply Z.mod_small. split; [apply Hmw|easy]. }
    range v. unfold f_leb in *. case_if.
    - apply in_interval_le in Hin; [|easy]. cbn [fst snd].
      apply in_interval_le; rewrite !f_min_int, !Hfi; lia.
    - apply in_interval_gt in Hin; [|easy]. case_if; cbn [fst snd].
      + apply in_interval_le; rewrite ?f_min_int, ?Hfi, ?f_zero_int; [|lia].
        pose proof (to_integer_range mx). unfold in_width in Hmw. lia.
      + now apply in_interval_gt. }
  clearbody i2. clear Hi. destruct i2 as [mn2 mx2]. cbn [fst snd] in Hi2.
  assert (Hms : forall v, rc_allows c v -> rc_allows d v -> submask (to_integer v) mask).
  { intros v [_ Hv]%rc_allows_iff [_ Hw]%rc_allows_iff. now apply submask_land. }
  destruct (rc_from_range_spec mn2 mx2) as (m & -> & Hm & Hs).
  case_if; cbn [mbind option_bind]; eexists; (split; [reflexivity|]).
  - split; [apply land_width; [apply Hmw|exact Hm]|].
    intros v Hv Hw. apply rc_allows_iff. cbn. split; [now apply Hi2|].
    apply submask_land; [now apply Hms|]. apply Hs. now apply Hi2.
  - split; [exact Hmw|]. intros v Hv Hw. apply rc_allows_iff. cbn. split; [now apply Hi2|now apply Hms].
Qed.

Lemma rc_disjunction_sound c d : rc_wf c -> rc_wf d ->
  rc_wf (rc_disjunction c d) /\
  forall v, rc_allows c v \/ rc_allows d v -> rc_allows (rc_disjunction c d) v.
Proof.
  intros Hc Hd. unfold rc_disjunction. set (mask := Z.lor (rc_mask c) (rc_mask d)).
  assert (Hmw : in_width NUM_BITS mask) by now apply lor_width.
  assert (Hms : forall v, rc_allows c v \/ rc_allows d v -> submask (to_integer v) mask).
  { intros v [[_ Hv]%rc_allows_iff|[_ Hv]%rc_allows_iff]; unfold mask; auto with powdr. }
  unfold f_leb.
  repeat case_if; (split; [exact Hmw|]); intros v Hv; pose proof (Hms v Hv) as Hs;
    try (now apply rc_from_mask_allows); apply rc_allows_iff; cbn [rc_min rc_max rc_mask];
    (split; [|exact Hs]).
  - apply in_interval_le; rewrite ?f_min_int, ?f_max_int; [lia|].
    destruct Hv as [[Hv _]%rc_allows_iff|[Hv _]%rc_allows_iff];
      apply in_interval_le in Hv; lia.
  - rewrite f_min_int, f_max_int in *.
    apply in_interval_gt; rewrite ?f_min_int, ?f_max_int; [lia|].
    destruct Hv as [[Hv _]%rc_allows_iff|[Hv _]%rc_allows_iff];
      apply in_interval_gt in Hv; lia.
Qed.
End Soundness.

(** ** Constructors and bisection *)

Section Exact.
Context {T : Type} `{FL : FieldLaws T}.

Lemma rc_from_range_allows (min max v : T) c : rc_from_range min max = Some c ->
  rc_allows c v <->
  if f_leb min max then to_integer min <= to_integer v <= to_integer max
  else to_integer min <= to_integer v \/ to_integer v <= to_integer max.
Proof.
  destruct (rc_from_range_spec min max) as (m & -> & _ & Hs). intros [= <-].
  rewrite rc_allows_iff. cbn [rc_min rc_max rc_mask].
  transitivity (in_interval min max v); [split; [tauto|auto]|].
  unfold f_leb. case_if; [now apply in_interval_le|now apply in_interval_gt].
Qed.

Lemma rc_from_max_bit_allows max_bit : 0 <= max_bit < NUM_BITS ->
  exists c, rc_from_max_bit (T:=T) max_bit = Some c /\
    forall v, rc_allows c v <-> to_integer v < 2 ^ (max_bit + 1).
Proof.
  intros Hb. unfold rc_from_max_bit. rewrite mask_from_bits_spec by lia.
  eexists. split; [reflexivity|]. intros v. range v.
  assert (0 < 2 ^ (max_bit + 1)) by (apply Z.pow_pos_nonneg; lia).
  assert (2 ^ (max_bit + 1) <= 2 ^ NUM_BITS) by (apply Z.pow_le_mono_r; lia).
  rewrite rc_from_mask_allows by (rewrite Z.ones_equiv; unfold in_width; lia). split.
  - intros Hs%submask_le; rewrite ?Z.ones_equiv in *; lia.
  - intros Hv. apply submask_ones; lia.
Qed.

(** The distance of an element from the start of an interval is unique. *)
Lemma distance_unique (min v : T) d e : 0 <= d < modulus -> 0 <= e < modulus ->
  eqm modulus (to_integer v) (to_integer min + d) ->
  eqm modulus (to_integer v) (to_integer min + e) -> d = e.
Proof.
  intros Hd He Hv1 Hv2. apply (eqm_small modulus); [easy|easy|].
  rewrite Hv1 in Hv2. destruct Hv2 as [k Hk]. exists k. lia.
Qed.

(** Membership by the distance from a given start. *)
Lemma in_interval_dist (min max v : T) s w :
  0 <= w < modulus -> eqm modulus (to_integer max) (to_integer min + w) ->
  0 <= s < modulus -> eqm modulus (to_integer v) (to_integer min + s) ->
  in_interval min max v <-> s <= w.
Proof.
  intros Hw Hmax Hs Hv. unfold in_interval.
  rewrite (mod_unique _ _ s), (mod_unique _ (_ max - _) w); try easy.
  - rewrite Hmax. eqm_lia.
  - rewrite Hv. eqm_lia.
Qed.

(** Splitting an interval [h] elements after its start. *)
Lemma interval_split (min max mid : T) h :
  1 <= h < range_width min max -> eqm modulus (to_integer mid) (to_integer min + h) ->
  range_width min (f_sub mid f_one) = h /\
  range_width mid max = range_width min max - h /\
  forall v, (in_interval min max v <->
               in_interval min (f_sub mid f_one) v \/ in_interval mid max v) /\
            ~ (in_interval min (f_sub mid f_one) v /\ in_interval mid max v).
Proof.
  intros Hh Hmid. pose proof (range_width_bounds min max). pose proof (max_at_width min max) as Hmax.
  set (W := range_width min max) in *.
  assert (Ha : eqm modulus (to_integer (f_sub mid f_one)) (to_integer min + (h - 1))).
  { feqm. rewrite Hmid. eqm_lia. }
  assert (Hb : eqm modulus (to_integer max) (to_integer mid + (W - 1 - h))).
  { rewrite Hmid, Hmax. eqm_lia. }
  split. { rewrite range_width_dist, (mod_unique _ _ (h - 1)); [lia|lia|]. rewrite Ha. eqm_lia. }
  split. { rewrite range_width_dist, (mod_unique _ _ (W - 1 - h)); [lia|lia|]. rewrite Hb. eqm_lia. }
  intros v. set (s := (to_integer v - to_integer min) mod modulus).
  assert (Hs : 0 <= s < modulus) by (apply Z.mod_pos_bound; lia).
  assert (Hv : eqm modulus (to_integer v) (to_integer min + s)) by (unfold s; rewrite eqm_mod; eqm_lia).
  rewrite (in_interval_dist min max v s (W - 1)) by (lia || easy).
  rewrite (in_interval_dist min (f_sub mid f_one) v s (h - 1)) by (lia || easy).
  destruct (Z.le_gt_cases h s).
  - rewrite (in_interval_dist mid max v (s - h) (W - 1 - h)); [lia|lia|exact Hb|lia|].
    rewrite Hv, Hmid. eqm_lia.
  - rewrite (in_interval_dist mid max v (s - h + modulus) (W - 1 - h)); [lia|lia|exact Hb|lia|].
    rewrite Hv, Hmid. exists (-1). lia.
Qed.

Lemma range_width_single (min max : T) : range_width min max = 1 -> min = max.
Proof.
  intros H1. apply f_eqm_eq. rewrite (max_at_width min max), H1. eqm_lia.
Qed.

Lemma rc_bisect_spec (c : RangeConstraint T) : rc_try_to_single_value c = None ->
  exists a b, rc_bisect c = Some (a, b) /\
    rc_range_width a < rc_range_width c /\ rc_range_width b < rc_range_width c /\
    rc_range_width a + rc_range_width b = rc_range_width c /\
    forall v, (rc_allows c v <-> rc_allows a v \/ rc_allows b v) /\
              ~ (rc_allows a v /\ rc_allows b v).
Proof.
  intros Hsingle. unfold rc_bisect. rewrite Hsingle. cbn [assert_that mbind option_bind].
  unfold rc_try_to_single_value, f_eqb in Hsingle. case_if_in Hsingle; [discriminate|].
  pose proof (range_width_bounds (rc_min c) (rc_max c)) as HW.
  pose proof (range_width_single (rc_min c) (rc_max c)) as H1.
  pose proof (modulus_fits (T:=T)). pose proof (modulus_gt_2 (T:=T)).
  assert (Hnb : 1 < NUM_BITS) by (apply (Z.pow_lt_mono_r_iff 2); pose proof (NUM_BITS_pos (T:=T)); lia).
  unfold checked_shr, rc_range_width. replace (1 <? NUM_BITS) with true by (symmetry; now apply Z.ltb_lt).
  cbn [mbind option_bind]. rewrite Z.shiftr_div_pow2 by lia. change (2 ^ 1) with 2.
  set (h := range_width (rc_min c) (rc_max c) / 2).
  assert (Hh : 1 <= h < range_width (rc_min c) (rc_max c)).
  { assert (range_width (rc_min c) (rc_max c) <> 1) by (intros E1; apply E; now rewrite (H1 E1)).
    unfold h. Z.div_mod_to_equations; lia. }
  assert (Hhalf : to_integer (from_integer h) = h).
  { rewrite from_integer_spec; [apply Z.mod_small; lia|unfold in_width; lia]. }
  unfold f_ltb. rewrite f_zero_int, Hhalf.
  replace (0 <? h) with true by (symmetry; apply Z.ltb_lt; lia). cbn [assert_that mbind option_bind].
  destruct (interval_split (rc_min c) (rc_max c) (f_add (rc_min c) (from_integer h)) h)
    as (Hwa & Hwb & Hin); [lia|feqm; now rewrite Hhalf|].
  do 2 eexists. split; [reflexivity|]. cbn [rc_min rc_max]. rewrite Hwa, Hwb.
  do 3 (split; [lia|]). intros v. rewrite !rc_allows_iff. cbn [rc_min rc_max rc_mask].
  destruct (Hin v) as [Hi1 Hi2]. tauto.
Qed.

End Exact.

(** ** Properties *)

(** Sum, integer multiple and negation are sound transfer functions over any field:
    on well-formed constraints they do not panic, return a well-formed constraint, and
    that constraint allows every result the operand constraints allow. *)
Theorem rc_arithmetic_sound {T} `{FieldLaws T} (c d : RangeConstraint T) (factor : T) :
  rc_wf c -> rc_wf d ->
  (exists e, rc_combine_sum c d = Some e /\ rc_wf e /\
     forall v w, rc_allows c v -> rc_allows d w -> rc_allows e (f_add v w)) /\
  (exists e, rc_multiple c factor = Some e /\ rc_wf e /\
     forall v, rc_allows c v -> rc_allows e (f_mul v factor)) /\
  (exists e, rc_neg c = Some e /\ rc_wf e /\
     forall v, rc_allows c v -> rc_allows e (f_neg v)).
Proof. auto using rc_combine_sum_sound, rc_multiple_sound, rc_neg_sound. Qed.

(** A literal of the Goldilocks field. *)
Definition gl (z : Z) : GoldilocksField := gl_of_canonical z.

Lemma rc_arithmetic_sound_witness :
  rc_mask <$> rc_combine_sum (rc_from_mask (T:=GoldilocksField) 0x1100) (rc_from_mask 0xff)
    = Some 0x11ff /\
  exists e, rc_combine_sum (rc_from_mask (T:=GoldilocksField) 0x1100) (rc_from_mask 0xff) = Some e /\
    rc_allows e (f_add (gl 0x1000) (gl 7)).
Proof.
  split; [vm_compute; reflexivity|].
  destruct (rc_arithmetic_sound (rc_from_mask (T:=GoldilocksField) 0x1100) (rc_from_mask 0xff) (gl 3))
    as ((e & He & _ & Hs) & _); [split; vm_compute; congruence|split; vm_compute; congruence|].
  exists e. split; [exact He|]. apply Hs; vm_compute; reflexivity.
Defined.

(** Conjunction and disjunction over-approximate intersection and union, and
    neither panics on well-formed constraints. *)
Theorem rc_lattice_sound {T} `{FieldLaws T} (c d : RangeConstraint T) :
  rc_wf c -> rc_wf d ->
  (exists e, rc_conjunction c d = Some e /\ rc_wf e /\
     forall v, rc_allows c v -> rc_allows d v -> rc_allows e v) /\
  rc_wf (rc_disjunction c d) /\
  (forall v, rc_allows c v \/ rc_allows d v -> rc_allows (rc_disjunction c d) v).
Proof.
  intros Hc Hd. split; [now apply rc_conjunction_sound|]. now apply rc_disjunction_sound.
Qed.

Lemma rc_lattice_sound_witness :
  exists e, rc_conjunction (rc_from_mask (T:=GoldilocksField) 0xff)
              {| rc_mask := int_max (T:=GoldilocksField); rc_min := gl 10; rc_max := gl 5000 |} = Some e /\
    rc_allows e (gl 100).
Proof.
  destruct (rc_lattice_sound (rc_from_mask (T:=GoldilocksField) 0xff)
              {| rc_mask := int_max (T:=GoldilocksField); rc_min := gl 10; rc_max := gl 5000 |})
    as ((e & He & _ & Hs) & _); [split; vm_compute; congruence|split; vm_compute; congruence|].
  exists e. split; [exact He|]. apply Hs; vm_compute; reflexivity.
Defined.

(** C39: The operations on range constraints are sound over any field. On well-formed constraints
    none of them panics and all return well-formed constraints; a sum, a multiple or a negation allows
    every result that the operands allow, a conjunction every value that both allow, and a
    disjunction every value that one of them allows. *)
Theorem rc_operations_sound {T} `{FieldLaws T} (c d : RangeConstraint T) (factor : T) :
  rc_wf c -> rc_wf d ->
  exists sum product negation both,
    rc_combine_sum c d = Some sum /\ rc_multiple c factor = Some product /\ rc_neg c = Some negation /\ rc_conjunction c d = Some both /\
    (rc_wf sum /\ rc_wf product /\ rc_wf negation /\ rc_wf both /\ rc_wf (rc_disjunction c d)) /\
    forall v w, rc_allows c v -> rc_allows d w ->
      rc_allows sum (f_add v w) /\ rc_allows product (f_mul v factor) /\ rc_allows negation (f_neg v) /\
      (v = w -> rc_allows both v) /\ rc_allows (rc_disjunction c d) v /\ rc_allows (rc_disjunction c d) w.
Proof.
  intros Hc Hd. destruct (rc_arithmetic_sound c d factor Hc Hd) as ((s & Hs & Hsw & Hsa) & (m & Hm & Hmw & Hma) & n & Hn & Hnw & Hna).
  destruct (rc_lattice_sound c d Hc Hd) as ((b & Hb & Hbw & Hba) & Hdw & Hda). exists s, m, n, b. do 4 (split; [assumption|]).
  split; [now do 4 (split; [assumption|])|]. intros v w Hv Hw. split; [auto|]. split; [auto|]. split; [auto|]. split; [intros <-; auto|]. auto.
Qed.

Lemma rc_operations_sound_witness :
  rc_mask <$> rc_combine_sum (rc_from_mask (T:=GoldilocksField) 0x1100) (rc_from_mask 0xff) = Some 0x11ff /\
  exists e, rc_combine_sum (rc_from_mask (T:=GoldilocksField) 0x1100) (rc_from_mask 0xff) = Some e /\ rc_allows e (f_add (gl 0x1000) (gl 7)).
Proof.
  split; [vm_compute; reflexivity|].
  destruct (rc_operations_sound (rc_from_mask (T:=GoldilocksField) 0x1100) (rc_from_mask 0xff) (gl 3))
    as (e & m & n & b & He & _ & _ & _ & _ & Ha); [split; vm_compute; congruence|split; vm_compute; congruence|].
  exists e. split; [exact He|]. apply (Ha (gl 0x1000) (gl 7)); vm_compute; reflexivity.
Defined.

(** [bisect] panics exactly on a single value; otherwise it splits the constraint
    into two strictly narrower ones that partition its values, so that repeated
    bisection terminates. *)
Theorem rc_bisect_partition {T} `{FieldLaws T} (c : RangeConstraint T) :
  (forall x, rc_try_to_single_value c = Some x -> rc_bisect c = None) /\
  (rc_try_to_single_value c = None ->
   exists a b, rc_bisect c = Some (a, b) /\
     rc_range_width a < rc_range_width c /\ rc_range_width b < rc_range_width c /\
     rc_range_width a + rc_range_width b = rc_range_width c /\
     forall v, (rc_allows c v <-> rc_allows a v \/ rc_allows b v) /\
               ~ (rc_allows a v /\ rc_allows b v)).
Proof.
  split; [|apply rc_bisect_spec].
  intros x Hx. unfold rc_bisect. now rewrite Hx.
Qed.

Lemma rc_bisect_partition_witness :
  exists a b, rc_bisect (rc_from_mask (T:=GoldilocksField) 0xff) = Some (a, b) /\
    rc_range_width a + rc_range_width b = 256.
Proof.
  destruct (rc_bisect_partition (rc_from_mask (T:=GoldilocksField) 0xff)) as [_ H].
  destruct H as (a & b & Hb & _ & _ & Hw & _); [vm_compute; reflexivity|].
  exists a, b. split; [exact Hb|]. rewrite Hw. vm_compute. reflexivity.
Defined.

(** The constructors denote exactly the sets their documentation gives. *)
Theorem rc_constructors_exact {T} `{FieldLaws T} (x min max v : T) mask max_bit :
  in_width NUM_BITS mask -> 0 <= max_bit < NUM_BITS ->
  (rc_allows (rc_from_mask mask) v <-> Z.land (to_integer v) mask = to_integer v) /\
  (rc_allows (rc_from_value x) v <-> v = x) /\
  (exists c, rc_from_range min max = Some c /\
     (rc_allows c v <->
      if f_leb min max then to_integer min <= to_integer v <= to_integer max
      else to_integer min <= to_integer v \/ to_integer v <= to_integer max)) /\
  (exists c, rc_from_max_bit max_bit = Some c /\
     (rc_allows c v <-> to_integer v < 2 ^ (max_bit + 1))) /\
  rc_allows rc_unconstrained v.
Proof.
  intros Hm Hb. split; [now apply rc_from_mask_allows|].
  split; [apply rc_from_value_allows|]. split; [|split].
  - destruct (rc_from_range_spec min max) as (m & E & _). eexists. split; [exact E|].
    now apply rc_from_range_allows.
  - destruct (rc_from_max_bit_allows max_bit Hb) as (c & E & Hc). eauto.
  - apply rc_unconstrained_allows.
Qed.

Lemma rc_constructors_exact_witness :
  rc_allows (rc_from_mask (T:=GoldilocksField) 0xf0) (gl 0x30).
Proof.
  destruct (rc_constructors_exact (gl 0) (gl 1) (gl 2) (gl 0x30) 0xf0 3) as [H _];
    [split; vm_compute; congruence|split; vm_compute; congruence|].
  apply (proj2 H). vm_compute. reflexivity.
Defined.
