(* ===== verification/EvalResult.v ===== *)
(** * Results of solving, [executor/src/witgen/eval_result.rs]

    The status, error and value types the solver returns, and how partial results are
    combined. A Rust [Result<A, E>] is [sum A E] with [inl] for [Ok]. *)

From stdpp Require Import base list option.
From Stdlib Require Import ZArith Lia String.
From S2P Require Import Prelude Field RangeConstraints.

(** ** Data *)

Inductive IncompleteCause (K : Type) :=
| UnknownLatch
| BitUnconstrained (vars : list K)
| OverlappingBitConstraints
| OverflowingBitConstraints
| MultipleLookupMatches
| MultipleLinearSolutions
| NoProgressTransferring
| QuadraticTerm
| DivisionTerm
| ExponentiationTerm
| NoQueryAnswer (query column : string)
| NonConstantQueryMatchScrutinee
| NonConstantQueryElement
| NonConstantRequiredArgument (name : string)
| NonConstantLeftSelector
| BlockMachineLookupIncomplete
| DataNotYetAvailable
| SolvingFailed
| SymbolicEvaluationOfChallenge
| NotConcrete
| MultipleCauses (causes : list (IncompleteCause K)).

Arguments UnknownLatch {K}.
Arguments BitUnconstrained {K} vars.
Arguments OverlappingBitConstraints {K}.
Arguments OverflowingBitConstraints {K}.
Arguments MultipleLookupMatches {K}.
Arguments MultipleLinearSolutions {K}.
Arguments NoProgressTransferring {K}.
Arguments QuadraticTerm {K}.
Arguments DivisionTerm {K}.
Arguments ExponentiationTerm {K}.
Arguments NoQueryAnswer {K} query column.
Arguments NonConstantQueryMatchScrutinee {K}.
Arguments NonConstantQueryElement {K}.
Arguments NonConstantRequiredArgument {K} name.
Arguments NonConstantLeftSelector {K}.
Arguments BlockMachineLookupIncomplete {K}.
Arguments DataNotYetAvailable {K}.
Arguments SolvingFailed {K}.
Arguments SymbolicEvaluationOfChallenge {K}.
Arguments NotConcrete {K}.
Arguments MultipleCauses {K} causes.

Inductive EvalStatus (K : Type) :=
| Complete
| Incomplete (cause : IncompleteCause K).
Arguments Complete {K}.
Arguments Incomplete {K} cause.

Inductive Constraint (T : Type) :=
| Assignment (value : T)
| RangeConstraintC (rc : RangeConstraint T).
Arguments Assignment {T} value.
Arguments RangeConstraintC {T} rc.

Record EvalValue (K T : Type) := mkEvalValue {
  ev_constraints : list (K * Constraint T);
  ev_status : EvalStatus K;
  ev_side_effect : bool
}.
Arguments mkEvalValue {K T}.
Arguments ev_constraints {K T}.
Arguments ev_status {K T}.
Arguments ev_side_effect {K T}.

Inductive EvalError (T : Type) :=
| RowsExhausted (machine : string)
| ConstraintUnsatisfiable (e : string)
| ConflictingRangeConstraints
| InvalidDivision
| FixedLookupFailed (query : list (string * T))
| ProverQueryError (s : string)
| RecursiveMachineCalls (s : string)
| GenericError (s : string)
| MultipleErrors (errors : list (EvalError T)).
Arguments RowsExhausted {T} machine.
Arguments ConstraintUnsatisfiable {T} e.
Arguments ConflictingRangeConstraints {T}.
Arguments InvalidDivision {T}.
Arguments FixedLookupFailed {T} query.
Arguments ProverQueryError {T} s.
Arguments RecursiveMachineCalls {T} s.
Arguments GenericError {T} s.
Arguments MultipleErrors {T} errors.

Definition EvalResult (K T : Type) : Type := sum (EvalValue K T) (EvalError T).

(** ** Operations *)

Section Operations.
Context {K T : Type}.

Definition cause_combine (self other : IncompleteCause K) : IncompleteCause K :=
  match self, other with
  | MultipleCauses l, MultipleCauses r =>
    match l with [] => MultipleCauses r | _ => MultipleCauses (l ++ r) end
  | MultipleCauses causes, other => MultipleCauses (causes ++ [other])
  | other, MultipleCauses causes => MultipleCauses (causes ++ [other])
  | l, r => MultipleCauses [l; r]
  end.

Definition status_combine (self other : EvalStatus K) : EvalStatus K :=
  match self, other with
  | Complete, Complete => Complete
  | Incomplete l, Incomplete r => Incomplete (cause_combine l r)
  | Complete, Incomplete i | Incomplete i, Complete => Incomplete i
  end.

Definition ev_is_complete (v : EvalValue K T) : bool :=
  match ev_status v with Complete => true | Incomplete _ => false end.

Definition ev_is_empty (v : EvalValue K T) : bool :=
  match ev_constraints v with [] => true | _ => false end.

Definition ev_new (constraints : list (K * Constraint T)) (status : EvalStatus K) : EvalValue K T :=
  {| ev_constraints := constraints; ev_status := status; ev_side_effect := false |}.

Definition ev_incomplete (cause : IncompleteCause K) : EvalValue K T :=
  ev_new [] (Incomplete cause).

Definition ev_incomplete_with_constraints (constraints : list (K * Constraint T))
  (cause : IncompleteCause K) : EvalValue K T :=
  ev_new constraints (Incomplete cause).

Definition ev_complete (constraints : list (K * Constraint T)) : EvalValue K T :=
  ev_new constraints Complete.

Definition ev_combine (self other : EvalValue K T) : EvalValue K T :=
  {| ev_constraints := ev_constraints self ++ ev_constraints other;
     ev_status := status_combine (ev_status self) (ev_status other);
     ev_side_effect := ev_side_effect self || ev_side_effect other |}.

Definition ev_report_side_effect (self : EvalValue K T) : EvalValue K T :=
  {| ev_constraints := ev_constraints self; ev_status := ev_status self; ev_side_effect := true |}.

(** The recursive call of the source is on two [Multiple]s: it appends. *)
Definition error_combine (self other : EvalError T) : EvalError T :=
  match self, other with
  | MultipleErrors l, MultipleErrors r => MultipleErrors (l ++ r)
  | MultipleErrors l, other => MultipleErrors (l ++ [other])
  | other, MultipleErrors l => MultipleErrors (l ++ [other])
  | l, r => MultipleErrors [l; r]
  end.

End Operations.

(** ** Meaning of a result *)

Section Meaning.
Context {K T : Type} `{FieldElement T}.

(** An assignment of field elements to the variables satisfies a constraint. *)
Definition constraint_holds (env : K -> T) (kc : K * Constraint T) : Prop :=
  match snd kc with
  | Assignment v => env (fst kc) = v
  | RangeConstraintC rc => rc_allows rc (env (fst kc))
  end.

Definition constraints_hold (env : K -> T) (l : list (K * Constraint T)) : Prop :=
  Forall (constraint_holds env) l.

Lemma ev_combine_holds env (a b : EvalValue K T) :
  constraints_hold env (ev_constraints (ev_combine a b)) <->
  constraints_hold env (ev_constraints a) /\ constraints_hold env (ev_constraints b).
Proof. apply Forall_app. Qed.

Lemma ev_combine_complete (a b : EvalValue K T) :
  ev_is_complete (ev_combine a b) = ev_is_complete a && ev_is_complete b.
Proof.
  unfold ev_is_complete, ev_combine. cbn [ev_status].
  now destruct (ev_status a), (ev_status b).
Qed.

End Meaning.
