(* ===== verification/AffineExpression.v ===== *)
(** * Affine expressions and their solver, [executor/src/witgen/affine_expression.rs]

    An affine expression over variables of an ordered type [K] with coefficients in a
    field, its arithmetic, and the solver that derives assignments and range constraints
    from the equation [expression = 0]. [None] is a panic. *)

From stdpp Require Import base list option.
From Stdlib Require Import ZArith Lia String Sorted.
From S2P Require Import Prelude Goldilocks Field RangeConstraints EvalResult.

(** ** Ordered keys and display *)

(** Rust's [Ord]: a total order given by a three-way comparison. *)
Class Ord (K : Type) := k_cmp : K -> K -> comparison.

Class OrdLaws (K : Type) `{Ord K} : Prop := {
  k_cmp_eq : forall a b : K, k_cmp a b = Eq <-> a = b;
  k_cmp_antisym : forall a b : K, k_cmp b a = CompOpp (k_cmp a b);
  k_cmp_trans : forall a b c : K, k_cmp a b = Lt -> k_cmp b c = Lt -> k_cmp a c = Lt
}.

Class Display (A : Type) := to_string : A -> string.

#[export] Instance ord_Z : Ord Z := Z.compare.
#[export] Instance ord_laws_Z : OrdLaws Z.
Proof.
  split; unfold k_cmp, ord_Z; intros.
  - apply Z.compare_eq_iff.
  - apply Z.compare_antisym.
  - rewrite Z.compare_lt_iff in *. lia.
Qed.

(** ** The expression type *)

Inductive AffineExpression (K T : Type) :=
| Constant (offset : T)
| OneVar (coeff : K * T) (offset : T)
| ManyVars (coefficients : list (K * T)) (offset : T).
Arguments Constant {K T} offset.
Arguments OneVar {K T} coeff offset.
Arguments ManyVars {K T} coefficients offset.

Section Operations.
Context {K T : Type} `{Ord K} `{FieldElement T}.
Implicit Types (e : AffineExpression K T) (l : list (K * T)).

Definition k_eqb (a b : K) : bool := match k_cmp a b with Eq => true | _ => false end.
Definition k_ltb (a b : K) : bool := match k_cmp a b with Lt => true | _ => false end.

Definition from_variable_id (var_id : K) : AffineExpression K T := OneVar (var_id, f_one) f_zero.

Definition is_constant e : bool := match e with Constant _ => true | _ => false end.
Definition constant_value e : option T := match e with Constant c => Some c | _ => None end.
Definition aff_is_zero e : bool := match e with Constant n => f_is_zero n | _ => false end.
Definition aff_is_one e : bool := match e with Constant n => f_is_one n | _ => false end.

(** [windows(2).all(...)] and the non-zero test. *)
Fixpoint keys_increasing l : bool :=
  match l with
  | (k1, _) :: (((k2, _) :: _) as l') => k_ltb k1 k2 && keys_increasing l'
  | _ => true
  end.

Definition is_proper_coefficients l : bool :=
  keys_increasing l && forallb (fun kc => negb (f_is_zero (snd kc))) l.

Definition nonzero_coefficients e : list (K * T) :=
  match e with
  | ManyVars coefficients _ => coefficients
  | OneVar coeff _ => [coeff]
  | Constant _ => []
  end.

Definition offset e : T :=
  match e with Constant o | OneVar _ o | ManyVars _ o => o end.

(** [slice::binary_search_by_key] on a slice sorted by key: the index of the key, or the
    index where it belongs. *)
Fixpoint binary_search (key : K) l : sum nat nat :=
  match l with
  | [] => inr O
  | (k, _) :: l' =>
    match k_cmp key k with
    | Eq => inl O
    | Lt => inr O
    | Gt => match binary_search key l' with inl i => inl (S i) | inr i => inr (S i) end
    end
  end.

(** [Vec::remove], [Vec::insert] and [v[i].1 += c]. *)
Fixpoint vec_remove (i : nat) l : list (K * T) :=
  match l, i with
  | _ :: l', O => l'
  | x :: l', S i' => x :: vec_remove i' l'
  | [], _ => []
  end.
Fixpoint vec_insert (i : nat) (x : K * T) l : list (K * T) :=
  match i, l with
  | O, _ => x :: l
  | S i', y :: l' => y :: vec_insert i' x l'
  | S _, [] => [x]
  end.
Fixpoint vec_add_at (i : nat) (c : T) l : list (K * T) :=
  match l, i with
  | (k, d) :: l', O => (k, f_add d c) :: l'
  | x :: l', S i' => x :: vec_add_at i' c l'
  | [], _ => []
  end.

Definition assign e (key : K) (value : T) : AffineExpression K T :=
  match e with
  | OneVar (v, c) o => if k_eqb key v then Constant (f_add o (f_mul value c)) else e
  | Constant _ => e
  | ManyVars coefficients o =>
    let '(coefficients, o) :=
      match binary_search key coefficients with
      | inl idx =>
        (vec_remove idx coefficients,
         match nth_error coefficients idx with
         | Some (_, c) => f_add o (f_mul c value)
         | None => o
         end)
      | inr _ => (coefficients, o)
      end in
    match coefficients with [] => Constant o | _ => ManyVars coefficients o end
  end.

(** The loop of [many + many]: both coefficient lists are merged in key order. *)
Fixpoint merge_coefficients (l1 : list (K * T)) : list (K * T) -> list (K * T) :=
  fix merge2 (l2 : list (K * T)) : list (K * T) :=
    match l1, l2 with
    | (k1, c1) :: l1', (k2, c2) :: l2' =>
      match k_cmp k1 k2 with
      | Lt => (k1, c1) :: merge_coefficients l1' l2
      | Eq => let c := f_add c1 c2 in
              if f_is_zero c then merge_coefficients l1' l2'
              else (k1, c) :: merge_coefficients l1' l2'
      | Gt => (k2, c2) :: merge2 l2'
      end
    | _ :: _, [] => l1
    | [], _ => l2
    end.

Definition many_or_constant l (o : T) : AffineExpression K T :=
  match l with [] => Constant o | _ => ManyVars l o end.

(** [one + many]. *)
Definition add_one_many (v : K) (c : T) l (o : T) : AffineExpression K T :=
  let l' := match binary_search v l with
            | inl idx => vec_add_at idx c l
            | inr idx => vec_insert idx (v, c) l
            end in
  many_or_constant (List.filter (fun kc => negb (f_is_zero (snd kc))) l') o.

Definition aff_add e1 e2 : AffineExpression K T :=
  match e1, e2 with
  | Constant o1, Constant o2 => Constant (f_add o1 o2)
  | OneVar coeff o1, Constant o2 | Constant o2, OneVar coeff o1 => OneVar coeff (f_add o1 o2)
  | ManyVars l o1, Constant o2 | Constant o2, ManyVars l o1 => ManyVars l (f_add o1 o2)
  | OneVar (v1, c1) o1, OneVar (v2, c2) o2 =>
    match k_cmp v1 v2 with
    | Eq => let c := f_add c1 c2 in
            if f_is_zero c then Constant (f_add o1 o2) else OneVar (v1, c) (f_add o1 o2)
    | Lt => ManyVars [(v1, c1); (v2, c2)] (f_add o1 o2)
    | Gt => ManyVars [(v2, c2); (v1, c1)] (f_add o1 o2)
    end
  | OneVar (v, c) o, ManyVars l o2 | ManyVars l o2, OneVar (v, c) o =>
    add_one_many v c l (f_add o2 o)
  | ManyVars l1 o1, ManyVars l2 o2 =>
    many_or_constant (merge_coefficients l1 l2) (f_add o1 o2)
  end.

Definition aff_neg e : AffineExpression K T :=
  match e with
  | Constant o => Constant (f_neg o)
  | OneVar (v, c) o => OneVar (v, f_neg c) (f_neg o)
  | ManyVars l o => ManyVars (map (fun kc => (fst kc, f_neg (snd kc))) l) (f_neg o)
  end.

Definition aff_sub e1 e2 : AffineExpression K T := aff_add e1 (aff_neg e2).

Definition aff_mul e (factor : T) : AffineExpression K T :=
  if f_is_zero factor then Constant factor
  else match e with
  | Constant o => Constant (f_mul o factor)
  | OneVar (v, c) o => OneVar (v, f_mul c factor) (f_mul o factor)
  | ManyVars l o =>
    ManyVars (map (fun kc => (fst kc, f_mul (snd kc) factor)) l) (f_mul o factor)
  end.

(** [PartialEq]: same offset and the same coefficients in order. *)
Fixpoint coefficients_eqb (l1 l2 : list (K * T)) : bool :=
  match l1, l2 with
  | [], [] => true
  | (k1, c1) :: l1', (k2, c2) :: l2' => k_eqb k1 k2 && f_eqb c1 c2 && coefficients_eqb l1' l2'
  | _, _ => false
  end.

Definition aff_eqb e1 e2 : bool :=
  f_eqb (offset e1) (offset e2) &&
  coefficients_eqb (nonzero_coefficients e1) (nonzero_coefficients e2).

End Operations.

(** ** Display *)

Section ShowAffine.
Context {K T : Type} `{Ord K} `{FieldElement T} `{Display K} `{Display T}.

Definition show_coefficient (kc : K * T) : string :=
  let '(i, c) := kc in
  if f_is_one c then to_string i
  else if f_eqb c (f_neg f_one) then String.append "-" (to_string i)
  else String.append (to_string c) (String.append " * " (to_string i)).

#[export] Instance affine_display : Display (AffineExpression K T) := fun e =>
  if is_constant e then to_string (offset e)
  else String.concat " + "
    (map show_coefficient (nonzero_coefficients e) ++
     (if negb (f_is_zero (offset e)) then [to_string (offset e)] else [])).

End ShowAffine.

(** ** The solver *)

Section Solver.
Context {K T : Type} `{Ord K} `{FieldElement T} `{Display K} `{Display T}.
Implicit Types (e : AffineExpression K T) (known_constraints : K -> option (RangeConstraint T)).

Definition solve_one (v : K) (c o : T) : option (EvalResult K T) :=
  value ← (if f_is_one c then Some (f_neg o)
           else if f_eqb c (f_neg f_one) then Some o
           else f_div (f_neg o) c);
  Some (inl (ev_complete [(v, Assignment value)])).

Definition solve e : option (EvalResult K T) :=
  match e with
  | Constant c =>
    if f_is_zero c then Some (inl (ev_complete []))
    else Some (inr (ConstraintUnsatisfiable (to_string e)))
  | OneVar (v, c) o => solve_one v c o
  | ManyVars [(v, c)] o => solve_one v c o
  | _ => Some (inl (ev_incomplete MultipleLinearSolutions))
  end.

(** Outer option: a panic. Inner option: the pattern does not apply. *)
Definition try_solve_division e known_constraints : option (option (EvalResult K T)) :=
  match e with
  | ManyVars [first; second] o =>
    if negb (f_is_one (snd first)) && negb (f_is_one (snd second)) then Some None
    else
      let '(dividend, divisor, quotient, remainder) :=
        if f_is_one (snd first) then (f_neg o, snd second, fst second, fst first)
        else (f_neg o, snd first, fst first, fst second) in
      match known_constraints remainder with
      | None => Some None
      | Some rem_rc =>
        let '(remainder_lower, remainder_upper) := rc_range rem_rc in
        if f_ltb remainder_upper remainder_lower || f_leb divisor remainder_upper then Some None
        else
          match known_constraints quotient with
          | None => Some None
          | Some quo_rc =>
            let '(quotient_lower, quotient_upper) := rc_range quo_rc in
            let result_upper :=
              to_integer quotient_upper * to_integer divisor + to_integer remainder_upper in
            if f_ltb quotient_upper quotient_lower || (modulus <=? result_upper) then Some None
            else
              _ ← assert_that (negb (to_integer divisor =? 0));
              quotient_value ← from_biguint (to_integer dividend / to_integer divisor);
              remainder_value ← from_biguint (to_integer dividend mod to_integer divisor);
              if f_ltb quotient_value quotient_lower || f_ltb quotient_upper quotient_value
                 || f_ltb remainder_value remainder_lower || f_ltb remainder_upper remainder_value
              then Some (Some (inr ConflictingRangeConstraints))
              else Some (Some (inl (ev_complete
                     [(quotient, Assignment quotient_value);
                      (remainder, Assignment remainder_value)])))
          end
      end
  | _ => Some None
  end.

(** [Iterator::max_by_key]: the last of the maximal elements. *)
Fixpoint max_by_key {A} (key : A -> Z) (best : A) (l : list A) : A :=
  match l with
  | [] => best
  | x :: l' => max_by_key key (if key best <=? key x then x else best) l'
  end.

Definition least_constrained known_constraints (i : K) : Z :=
  match known_constraints i with Some c => rc_range_width c | None => modulus end.

(** [collect::<Option<Vec<_>>>], with the panic of [multiple] as the outer option. *)
Fixpoint collect_summands known_constraints (l : list (K * T))
  : option (option (list (RangeConstraint T))) :=
  match l with
  | [] => Some (Some [])
  | (i, coeff) :: l' =>
    match known_constraints i with
    | None => Some None
    | Some con =>
      m ← rc_multiple con coeff;
      rest ← collect_summands known_constraints l';
      Some (option_map (cons m) rest)
    end
  end.

Fixpoint reduce_sum (acc : RangeConstraint T) (l : list (RangeConstraint T))
  : option (RangeConstraint T) :=
  match l with
  | [] => Some acc
  | c :: l' => s ← rc_combine_sum acc c; reduce_sum s l'
  end.

Definition try_transfer_constraints e known_constraints
  : option (option (K * RangeConstraint T)) :=
  match List.filter (fun kc => f_eqb (snd kc) (f_neg f_one) || f_is_one (snd kc))
          (nonzero_coefficients e) with
  | [] => Some None
  | first :: others =>
    let '(solve_for, solve_for_coefficient) :=
      max_by_key (fun kc => least_constrained known_constraints (fst kc)) first others in
    rest ← collect_summands known_constraints
             (List.filter (fun kc => negb (k_eqb (fst kc) solve_for)) (nonzero_coefficients e));
    match rest with
    | None => Some None
    | Some rest =>
      match rest ++ (if negb (f_is_zero (offset e)) then [rc_from_value (offset e)] else []) with
      | [] => Some None
      | s :: summands =>
        constraint ← reduce_sum s summands;
        constraint ← (if f_is_one solve_for_coefficient then rc_neg constraint
                      else Some constraint);
        match known_constraints solve_for with
        | Some previous =>
          c ← rc_conjunction previous constraint;
          if rc_eqb c previous then Some None
          else Some (Some (solve_for, constraint))
        | None => Some (Some (solve_for, constraint))
        end
      end
    end
  end.

(** [partition_map]: the constrained coefficients, and the unconstrained variables. *)
Fixpoint partition_constrained known_constraints (l : list (K * T))
  : list (K * T * RangeConstraint T) * list K :=
  match l with
  | [] => ([], [])
  | (i, coeff) :: l' =>
    let '(cs, us) := partition_constrained known_constraints l' in
    match known_constraints i with
    | None => (cs, i :: us)
    | Some c => ((i, coeff, c) :: cs, us)
    end
  end.

Record mask_state := mkMaskState {
  covered_bits : Z;
  assignments : EvalValue K T;
  rem_offset : Z
}.

(** The loop: [inr] is the early return for overlapping masks. *)
Fixpoint assign_masked (l : list (K * T * RangeConstraint T)) (st : mask_state)
  : option (sum mask_state (EvalResult K T)) :=
  match l with
  | [] => Some (inl st)
  | (i, coeff, constraint) :: l' =>
    m ← rc_multiple constraint coeff;
    let mask := rc_mask m in
    if negb (Z.land mask (covered_bits st) =? 0)
    then Some (inr (inl (ev_incomplete OverlappingBitConstraints)))
    else
      _ ← assert_that (negb (to_integer coeff =? 0));
      v ← from_biguint (Z.land (rem_offset st) mask / to_integer coeff);
      assign_masked l'
        {| covered_bits := Z.lor (covered_bits st) mask;
           assignments := ev_combine (assignments st) (ev_complete [(i, Assignment v)]);
           rem_offset := Z.land (rem_offset st) (bitnot NUM_BITS mask) |}
  end.

Definition try_solve_through_constraints e known_constraints : option (EvalResult K T) :=
  let '(constraints, unconstrained) :=
    partition_constrained known_constraints (nonzero_coefficients e) in
  match unconstrained with
  | _ :: _ => Some (inl (ev_incomplete (BitUnconstrained unconstrained)))
  | [] =>
    r ← assign_masked constraints
          {| covered_bits := 0; assignments := ev_complete [];
             rem_offset := to_integer (f_neg (offset e)) |};
    match r with
    | inr early => Some early
    | inl st =>
      if modulus <=? covered_bits st
      then Some (inl (ev_incomplete OverflowingBitConstraints))
      else if negb (rem_offset st =? 0) then Some (inr ConflictingRangeConstraints)
      else Some (inl (assignments st))
    end
  end.

(** The [vec] of transferred constraints, conjoined when both are for one variable. *)
Definition join_transferred (a b : option (K * RangeConstraint T))
  : option (list (K * RangeConstraint T)) :=
  match a, b with
  | None, None => Some []
  | Some pc, None | None, Some pc => Some [pc]
  | Some (p1, c1), Some (p2, c2) =>
    if k_eqb p1 p2 then c ← rc_conjunction c1 c2; Some [(p1, c)]
    else Some [(p1, c1); (p2, c2)]
  end.

Definition transfer_both e negated known_constraints : option (EvalResult K T) :=
  a ← try_transfer_constraints e known_constraints;
  b ← try_transfer_constraints negated known_constraints;
  l ← join_transferred a b;
  Some (inl
    match map (fun pc => (fst pc, RangeConstraintC (snd pc))) l with
    | [] => ev_incomplete NoProgressTransferring
    | constraints => ev_incomplete_with_constraints constraints NotConcrete
    end).

(** [Ok(non-empty)] returns, [Err] propagates, anything else falls through to [k]. *)
Definition return_unless_empty (r : EvalResult K T) (k : option (EvalResult K T))
  : option (EvalResult K T) :=
  match r with
  | inr err => Some (inr err)
  | inl v => if negb (ev_is_empty v) then Some (inl v) else k
  end.

Definition return_division (r : option (EvalResult K T)) (k : option (EvalResult K T))
  : option (EvalResult K T) :=
  match r with None => k | Some r => return_unless_empty r k end.

Definition solve_with_range_constraints e known_constraints : option (EvalResult K T) :=
  value ← solve e;
  match value with
  | inr err => Some (inr err)
  | inl value =>
    if ev_is_complete value then Some (inl value)
    else
      _ ← assert_that (ev_is_empty value);
      let negated := aff_neg e in
      d1 ← try_solve_division e known_constraints;
      return_division d1
      (d2 ← try_solve_division negated known_constraints;
       return_division d2
       (r1 ← try_solve_through_constraints e known_constraints;
        return_unless_empty r1
        (r2 ← try_solve_through_constraints negated known_constraints;
         return_unless_empty r2
         (transfer_both e negated known_constraints))))
  end.

End Solver.

(** ** Meaning and invariant *)

Section Meaning.
Context {K T : Type} `{OL : OrdLaws K} `{FL : FieldLaws T}.
Implicit Types (e : AffineExpression K T) (l : list (K * T)) (env : K -> T).

Definition aff_sum l env : Z :=
  foldr (fun kc s => to_integer (snd kc) * to_integer (env (fst kc)) + s) 0 l.

(** The integer value of the expression; the field value is its residue. *)
Definition aff_val e env : Z :=
  aff_sum (nonzero_coefficients e) env + to_integer (offset e).

(** [env] solves the equation [e = 0]. *)
Definition aff_zero e env : Prop := eqm modulus (aff_val e env) 0.

Definition key_lt (a b : K * T) : Prop := k_cmp (fst a) (fst b) = Lt.

(** "In variable order, without duplicates or zero coefficients." *)
Definition proper l : Prop :=
  StronglySorted key_lt l /\ Forall (fun kc => to_integer (snd kc) <> 0) l.

Definition aff_proper e : Prop :=
  match e with
  | Constant _ => True
  | OneVar (_, c) _ => to_integer c <> 0
  | ManyVars l _ => l <> [] /\ proper l
  end.

Lemma k_eqb_spec (a b : K) : reflect (a = b) (k_eqb a b).
Proof.
  unfold k_eqb. destruct (k_cmp a b) eqn:E; constructor.
  - now apply k_cmp_eq.
  - intros ->. rewrite (proj2 (k_cmp_eq b b) eq_refl) in E. discriminate.
  - intros ->. rewrite (proj2 (k_cmp_eq b b) eq_refl) in E. discriminate.
Qed.

Lemma k_cmp_refl (a : K) : k_cmp a a = Eq.
Proof. now apply k_cmp_eq. Qed.

Lemma k_cmp_gt (a b : K) : k_cmp a b = Gt <-> k_cmp b a = Lt.
Proof. rewrite (k_cmp_antisym a b). destruct (k_cmp a b); cbn; split; congruence. Qed.

(** The checked invariant of the source is the invariant. *)
Lemma keys_increasing_sorted l : keys_increasing l = true <-> StronglySorted key_lt l.
Proof.
  induction l as [|[k1 c1] l IH]; [split; [constructor|easy]|].
  destruct l as [|[k2 c2] l]; [split; [repeat constructor|easy]|].
  cbn [keys_increasing]. rewrite andb_true_iff, IH. unfold k_ltb. split.
  - intros [Hk Hs]. destruct (k_cmp k1 k2) eqn:E; try discriminate. constructor; [easy|].
    inversion Hs as [|? ? Hs' Hf]; subst. constructor; [easy|].
    eapply List.Forall_impl; [|exact Hf]. intros [k c] Hk2. unfold key_lt in *. cbn in *.
    eapply k_cmp_trans; eassumption.
  - intros Hs. inversion Hs as [|? ? Hs' Hf]; subst. split; [|easy].
    inversion Hf as [|? ? Hk]; subst. unfold key_lt in Hk. cbn in Hk. now rewrite Hk.
Qed.

Lemma is_proper_coefficients_spec l : is_proper_coefficients l = true <-> proper l.
Proof.
  unfold is_proper_coefficients, proper. rewrite andb_true_iff, keys_increasing_sorted.
  apply and_iff_compat_l. rewrite forallb_forall, Forall_forall.
  setoid_rewrite <- list_elem_of_In. unfold f_is_zero.
  split; intros Hf kc Hin; specialize (Hf kc Hin); rewrite negb_true_iff, Z.eqb_neq in *; easy.
Qed.

Lemma aff_sum_app l1 l2 env : aff_sum (l1 ++ l2) env = aff_sum l1 env + aff_sum l2 env.
Proof. unfold aff_sum. induction l1 as [|kc l1 IH]; cbn; lia. Qed.

(** Filtering out zero coefficients does not change the value. *)
Lemma aff_sum_filter_zero l env :
  aff_sum (List.filter (fun kc => negb (f_is_zero (snd kc))) l) env = aff_sum l env.
Proof.
  induction l as [|[k c] l IH]; [easy|]. cbn -[aff_sum]. unfold f_is_zero at 1.
  destruct (Z.eqb_spec (to_integer c) 0) as [E|E]; cbn; unfold aff_sum in *; rewrite ?E, IH; lia.
Qed.

(** Splitting a coefficient list at a variable. *)
Lemma aff_sum_filter_key l env (p : K * T -> bool) :
  aff_sum l env = aff_sum (List.filter p l) env
                  + aff_sum (List.filter (fun kc => negb (p kc)) l) env.
Proof.
  induction l as [|kc l IH]; [easy|]. cbn -[aff_sum]. destruct (p kc); cbn; unfold aff_sum in *; lia.
Qed.

(** ** Binary search *)

Lemma binary_search_found l key idx :
  binary_search key l = inl idx -> exists c, nth_error l idx = Some (key, c).
Proof.
  revert idx. induction l as [|[k c] l IH]; intros idx; cbn; [discriminate|].
  destruct (k_cmp key k) eqn:E; try discriminate.
  - intros [= <-]. apply k_cmp_eq in E as ->. eauto.
  - destruct (binary_search key l) as [i|i]; [|discriminate]. intros [= <-]. cbn. now apply IH.
Qed.

Lemma vec_remove_sum l idx k c env : nth_error l idx = Some (k, c) ->
  aff_sum l env = to_integer c * to_integer (env k) + aff_sum (vec_remove idx l) env.
Proof.
  revert idx. induction l as [|[k' c'] l IH]; intros [|idx]; cbn; try discriminate.
  - now intros [= -> ->].
  - intros Hn. unfold aff_sum in *. rewrite (IH idx Hn). lia.
Qed.

Lemma vec_remove_forall (P : K * T -> Prop) l idx : Forall P l -> Forall P (vec_remove idx l).
Proof.
  intros Hf. revert idx. induction Hf as [|kc l Hk Hf IH]; intros [|idx]; cbn; auto.
Qed.

Lemma vec_remove_proper l idx : proper l -> proper (vec_remove idx l).
Proof.
  intros [Hs Hf]. split; [|now apply vec_remove_forall].
  revert idx. induction Hs as [|kc l Hs IH Hk]; intros [|idx]; cbn; [constructor..|easy|].
  inversion Hf; subst. constructor; [now apply IH|]. now apply vec_remove_forall.
Qed.

Lemma vec_add_at_sum l idx k d c env : nth_error l idx = Some (k, d) ->
  eqm modulus (aff_sum (vec_add_at idx c l) env)
    (aff_sum l env + to_integer c * to_integer (env k)).
Proof.
  revert idx. induction l as [|[k' c'] l IH]; intros [|idx]; cbn -[aff_sum]; try discriminate.
  - intros [= -> ->]. cbn. feqm. eqm_lia.
  - intros Hn. cbn. unfold aff_sum in *. rewrite (IH idx Hn). eqm_lia.
Qed.

Lemma vec_insert_sum l idx k c env :
  aff_sum (vec_insert idx (k, c) l) env = aff_sum l env + to_integer c * to_integer (env k).
Proof.
  revert idx. induction l as [|kc l IH]; intros [|idx]; cbn; try lia.
  unfold aff_sum in *. rewrite IH. lia.
Qed.

(** A list keeps its keys when a coefficient is added in place, so it stays sorted. *)
Lemma vec_add_at_sorted l idx c :
  StronglySorted key_lt l -> StronglySorted key_lt (vec_add_at idx c l).
Proof.
  intros Hs. revert idx. induction Hs as [|[k d] l Hs IH Hk]; intros [|idx]; cbn; [constructor..| |].
  - now constructor.
  - constructor; [apply IH|]. clear - Hk. revert idx.
    induction Hk as [|[k' d'] l Hkl Hk IH]; intros [|idx]; cbn; [constructor..| |]; constructor; auto.
Qed.

Lemma vec_insert_sorted l key c idx : binary_search key l = inr idx ->
  StronglySorted key_lt l -> StronglySorted key_lt (vec_insert idx (key, c) l).
Proof.
  revert idx. induction l as [|[k d] l IH]; intros idx Hb Hs; cbn in Hb.
  - injection Hb as <-. repeat constructor.
  - inversion Hs as [|? ? Hs' Hk]; subst. destruct (k_cmp key k) eqn:E; [discriminate| |].
    + injection Hb as <-. cbn. constructor; [easy|]. constructor; [easy|].
      eapply List.Forall_impl; [|exact Hk]. intros [k2 d2] Hk2. unfold key_lt in *. cbn in *.
      eapply k_cmp_trans; eassumption.
    + destruct (binary_search key l) as [i|i] eqn:Eb; [discriminate|]. injection Hb as <-. cbn.
      constructor; [now apply IH|]. apply k_cmp_gt in E.
      clear - Hk E. revert i. induction Hk as [|kc l Hkl Hk IH]; intros [|i]; cbn; repeat constructor; auto.
Qed.

End Meaning.

(** ** Arithmetic *)

(** Unfolds the value of an expression to a sum of products. *)
Ltac aff_simpl := unfold aff_val; cbn [aff_neg nonzero_coefficients offset]; unfold aff_sum; cbn [foldr fst snd].

Section Arithmetic.
Context {K T : Type} `{OL : OrdLaws K} `{FL : FieldLaws T}.
Implicit Types (e : AffineExpression K T) (l : list (K * T)) (env : K -> T).

Lemma merge_nil_l l : merge_coefficients [] l = l.
Proof. now destruct l. Qed.

Lemma merge_nil_r l : merge_coefficients l [] = l.
Proof. now destruct l as [|[]]. Qed.

Lemma merge_cons k1 c1 l1 k2 c2 l2 :
  merge_coefficients ((k1, c1) :: l1) ((k2, c2) :: l2) =
  match k_cmp k1 k2 with
  | Lt => (k1, c1) :: merge_coefficients l1 ((k2, c2) :: l2)
  | Eq => if f_is_zero (f_add c1 c2) then merge_coefficients l1 l2
          else (k1, f_add c1 c2) :: merge_coefficients l1 l2
  | Gt => (k2, c2) :: merge_coefficients ((k1, c1) :: l1) l2
  end.
Proof. reflexivity. Qed.

Lemma merge_sum l1 env : forall l2,
  eqm modulus (aff_sum (merge_coefficients l1 l2) env) (aff_sum l1 env + aff_sum l2 env).
Proof.
  induction l1 as [|[k1 c1] l1 IH1]; intros l2; [now rewrite merge_nil_l|].
  induction l2 as [|[k2 c2] l2 IH2]; [rewrite merge_nil_r; cbn; eqm_lia|].
  rewrite merge_cons. destruct (k_cmp k1 k2) eqn:E.
  - apply k_cmp_eq in E as ->.
    assert (Hc : eqm modulus (to_integer (f_add c1 c2)) (to_integer c1 + to_integer c2)) by apply f_add_eqm.
    unfold f_is_zero. case_if; cbn.
    + rewrite E in Hc. fold (aff_sum l1 env) (aff_sum l2 env). rewrite IH1.
      transitivity ((to_integer c1 + to_integer c2) * to_integer (env k2) + (aff_sum l1 env + aff_sum l2 env));
        [rewrite <- Hc; eqm_lia|eqm_lia].
    + fold (aff_sum (merge_coefficients l1 l2) env) (aff_sum l1 env) (aff_sum l2 env).
      rewrite IH1, Hc. eqm_lia.
  - cbn [aff_sum foldr fst snd]. fold (aff_sum (merge_coefficients l1 ((k2, c2) :: l2)) env) (aff_sum l1 env).
    rewrite IH1. cbn. eqm_lia.
  - cbn [aff_sum foldr fst snd]. fold (aff_sum (merge_coefficients ((k1, c1) :: l1) l2) env) (aff_sum l2 env).
    rewrite IH2. cbn. eqm_lia.
Qed.

Lemma merge_forall (P : K * T -> Prop) l1 : forall l2,
  (forall k c c', P (k, c) -> to_integer c' <> 0 -> P (k, c')) ->
  Forall P l1 -> Forall P l2 -> Forall P (merge_coefficients l1 l2).
Proof.
  induction l1 as [|[k1 c1] l1 IH1]; intros l2 HP Hf1 Hf2; [now rewrite merge_nil_l|].
  induction l2 as [|[k2 c2] l2 IH2]; [now rewrite merge_nil_r|].
  rewrite merge_cons. inversion Hf1; subst. inversion Hf2; subst.
  destruct (k_cmp k1 k2); [|constructor; auto..].
  unfold f_is_zero. case_if; [auto|]. constructor; [eauto|auto].
Qed.

Lemma merge_sorted l1 : forall l2,
  StronglySorted key_lt l1 -> StronglySorted key_lt l2 ->
  StronglySorted key_lt (merge_coefficients l1 l2).
Proof.
  induction l1 as [|[k1 c1] l1 IH1]; intros l2 Hs1 Hs2; [now rewrite merge_nil_l|].
  induction l2 as [|[k2 c2] l2 IH2]; [now rewrite merge_nil_r|].
  rewrite merge_cons. inversion Hs1 as [|? ? Hs1' Hk1]; subst. inversion Hs2 as [|? ? Hs2' Hk2]; subst.
  assert (Htr : forall k (a : T) k' (a' : T) m, k_cmp k k' = Lt -> Forall (key_lt (k', a')) m -> Forall (key_lt (k, a)) m).
  { intros k a k' a' m Hlt Hm. eapply List.Forall_impl; [|exact Hm]. intros [k3 c3]. unfold key_lt. cbn.
    intros. eapply k_cmp_trans; eassumption. }
  destruct (k_cmp k1 k2) eqn:E.
  - apply k_cmp_eq in E as ->. case_if; [auto|]. constructor; [auto|].
    apply merge_forall; [intros k c c' Hk _; exact Hk|exact Hk1|exact Hk2].
  - constructor; [auto|]. apply merge_forall; [intros k c c' Hk _; exact Hk|exact Hk1|].
    constructor; [exact E|]. eapply Htr; eassumption.
  - apply k_cmp_gt in E. constructor; [auto|].
    apply merge_forall; [intros k c c' Hk _; exact Hk| |exact Hk2].
    constructor; [exact E|]. eapply Htr; eassumption.
Qed.

Lemma merge_proper l1 l2 : proper l1 -> proper l2 -> proper (merge_coefficients l1 l2).
Proof.
  intros [Hs1 Hf1] [Hs2 Hf2]. split; [now apply merge_sorted|].
  apply merge_forall; [easy|exact Hf1|exact Hf2].
Qed.

Lemma many_or_constant_val l o env :
  aff_val (many_or_constant l o) env = aff_sum l env + to_integer o.
Proof. now destruct l. Qed.

Lemma many_or_constant_proper l o : proper l -> aff_proper (many_or_constant l o).
Proof. now destruct l. Qed.

Lemma filter_nonzero_proper l : StronglySorted key_lt l ->
  proper (List.filter (fun kc => negb (f_is_zero (snd kc))) l).
Proof.
  intros Hs. split.
  - induction Hs as [|kc l Hs IH Hk]; [constructor|]. cbn. destruct (negb _); [|easy].
    constructor; [easy|]. rewrite List.Forall_forall in *. intros x [Hx _]%List.filter_In. auto.
  - rewrite List.Forall_forall. intros x [_ Hx]%List.filter_In.
    unfold f_is_zero in Hx. rewrite negb_true_iff, Z.eqb_neq in Hx. exact Hx.
Qed.

Lemma add_one_many_val v c l o env :
  eqm modulus (aff_val (add_one_many v c l o) env)
    (to_integer c * to_integer (env v) + aff_sum l env + to_integer o).
Proof.
  unfold add_one_many. rewrite many_or_constant_val, aff_sum_filter_zero.
  destruct (binary_search v l) as [idx|idx] eqn:Eb.
  - apply binary_search_found in Eb as [d Hd]. rewrite (vec_add_at_sum l idx v d c env Hd). eqm_lia.
  - rewrite vec_insert_sum. eqm_lia.
Qed.

Lemma add_one_many_proper v c l o : proper l -> aff_proper (add_one_many v c l o).
Proof.
  intros [Hs Hf]. apply many_or_constant_proper, filter_nonzero_proper.
  destruct (binary_search v l) eqn:Eb; [now apply vec_add_at_sorted|now apply vec_insert_sorted].
Qed.

Lemma aff_add_val e1 e2 env :
  eqm modulus (aff_val (aff_add e1 e2) env) (aff_val e1 env + aff_val e2 env).
Proof.
  destruct e1 as [o1|[v1 c1] o1|l1 o1], e2 as [o2|[v2 c2] o2|l2 o2]; unfold aff_add;
    try (rewrite add_one_many_val); try (aff_simpl; feqm; eqm_lia).
  - destruct (k_cmp v1 v2) eqn:E.
    + apply k_cmp_eq in E as ->.
      assert (Hc : eqm modulus (to_integer (f_add c1 c2)) (to_integer c1 + to_integer c2)) by apply f_add_eqm.
      unfold f_is_zero. case_if; aff_simpl; feqm.
      * rewrite E in Hc.
        transitivity ((to_integer c1 + to_integer c2) * to_integer (env v2) + (to_integer o1 + to_integer o2));
          [rewrite <- Hc; eqm_lia|eqm_lia].
      * eqm_lia.
    + aff_simpl; feqm; eqm_lia.
    + aff_simpl; feqm; eqm_lia.
  - rewrite many_or_constant_val, merge_sum. feqm. aff_simpl. eqm_lia.
Qed.

Lemma aff_add_proper e1 e2 : aff_proper e1 -> aff_proper e2 -> aff_proper (aff_add e1 e2).
Proof.
  destruct e1 as [o1|[v1 c1] o1|l1 o1], e2 as [o2|[v2 c2] o2|l2 o2]; cbn [aff_add aff_proper];
    intros H1 H2; try easy; try (apply add_one_many_proper; tauto).
  - destruct (k_cmp v1 v2) eqn:E.
    + unfold f_is_zero. case_if; easy.
    + split; [easy|]. split; repeat constructor; easy.
    + apply k_cmp_gt in E. split; [easy|]. split; repeat constructor; easy.
  - apply many_or_constant_proper, merge_proper; tauto.
Qed.

(** Scaling by a non-zero factor keeps the coefficients non-zero. *)
Lemma f_mul_nonzero (x y : T) : to_integer x <> 0 -> to_integer y <> 0 -> to_integer (f_mul x y) <> 0.
Proof.
  intros Hx Hy E. assert (Hm : eqm modulus (to_integer x * to_integer y) 0).
  { rewrite <- f_mul_eqm, E. reflexivity. }
  range x. range y. pose proof (modulus_pos (T:=T)).
  apply f_integral in Hm as [Hm|Hm]; apply eqm_small in Hm; lia.
Qed.

Lemma f_neg_nonzero (x : T) : to_integer x <> 0 -> to_integer (f_neg x) <> 0.
Proof.
  intros Hx E. apply Hx. range x. pose proof (modulus_pos (T:=T)).
  apply (eqm_small modulus); [lia|lia|].
  assert (Hm : eqm modulus (to_integer (f_neg x)) (- to_integer x)) by apply f_neg_eqm.
  rewrite E in Hm. transitivity (- - to_integer x); [eqm_lia|]. rewrite <- Hm. eqm_lia.
Qed.

Lemma map_proper l (g : T -> T) : (forall c, to_integer c <> 0 -> to_integer (g c) <> 0) ->
  proper l -> proper (map (fun kc => (fst kc, g (snd kc))) l).
Proof.
  intros Hg [Hs Hf]. split.
  - clear Hf. induction Hs as [|kc l Hs IH Hk]; [constructor|]. cbn. constructor; [easy|].
    rewrite List.Forall_map. eapply List.Forall_impl; [|exact Hk]. easy.
  - rewrite List.Forall_map. eapply List.Forall_impl; [|exact Hf]. intros kc. apply Hg.
Qed.

Lemma aff_neg_val e env : eqm modulus (aff_val (aff_neg e) env) (- aff_val e env).
Proof.
  destruct e as [o|[v c] o|l o]; aff_simpl; feqm; try eqm_lia.
  assert (Hl : eqm modulus (aff_sum (map (fun kc => (fst kc, f_neg (snd kc))) l) env) (- aff_sum l env)).
  { induction l as [|kc l IH]; [reflexivity|]. cbn. unfold aff_sum in IH. rewrite IH. feqm.
    unfold aff_sum. eqm_lia. }
  unfold aff_sum in Hl. rewrite Hl. eqm_lia.
Qed.

Lemma aff_neg_proper e : aff_proper e -> aff_proper (aff_neg e).
Proof.
  destruct e as [o|[v c] o|l o]; cbn; [easy|apply f_neg_nonzero|].
  intros [Hl Hp]. split; [now destruct l|]. apply map_proper; [apply f_neg_nonzero|exact Hp].
Qed.

Lemma aff_mul_val e factor env :
  eqm modulus (aff_val (aff_mul e factor) env) (aff_val e env * to_integer factor).
Proof.
  unfold aff_mul, f_is_zero. case_if.
  { unfold aff_val at 1. cbn. rewrite E. eqm_lia. }
  destruct e as [o|[v c] o|l o]; aff_simpl; feqm; try eqm_lia.
  assert (Hl : eqm modulus (aff_sum (map (fun kc => (fst kc, f_mul (snd kc) factor)) l) env)
                 (aff_sum l env * to_integer factor)).
  { induction l as [|kc l IH]; [reflexivity|]. cbn. unfold aff_sum in IH. rewrite IH. feqm.
    unfold aff_sum. eqm_lia. }
  unfold aff_sum in Hl. rewrite Hl. eqm_lia.
Qed.

Lemma aff_mul_proper e factor : aff_proper e -> aff_proper (aff_mul e factor).
Proof.
  intros Hp. unfold aff_mul, f_is_zero. case_if; [easy|].
  destruct e as [o|[v c] o|l o]; cbn in *; [easy|now apply f_mul_nonzero|].
  destruct Hp as [Hl Hp]. split; [now destruct l|].
  apply (map_proper l (fun c => f_mul c factor)); [|exact Hp]. intros c Hc. now apply f_mul_nonzero.
Qed.

Lemma assign_val e key value env : env key = value ->
  eqm modulus (aff_val (assign e key value) env) (aff_val e env).
Proof.
  intros Hk. destruct e as [o|[v c] o|l o]; cbn [assign]; [reflexivity| |].
  - destruct (k_eqb_spec key v) as [<-|]; [|reflexivity]. unfold aff_val. cbn. feqm. rewrite Hk. eqm_lia.
  - destruct (binary_search key l) as [idx|idx] eqn:Eb.
    + apply binary_search_found in Eb as [c Hc]. rewrite Hc.
      pose proof (vec_remove_sum l idx key c env Hc) as Hs. rewrite Hk in Hs.
      change (match vec_remove idx l with [] => Constant _ | _ => ManyVars _ _ end)
        with (many_or_constant (vec_remove idx l) (f_add o (f_mul c value))).
      rewrite many_or_constant_val. unfold aff_val. cbn [nonzero_coefficients offset].
      rewrite Hs. feqm. eqm_lia.
    + change (match l with [] => Constant o | _ => ManyVars l o end) with (many_or_constant l o).
      rewrite many_or_constant_val. reflexivity.
Qed.

Lemma assign_proper e key value : aff_proper e -> aff_proper (assign e key value).
Proof.
  destruct e as [o|[v c] o|l o]; cbn [assign]; [easy| |].
  - destruct (k_eqb key v); easy.
  - cbn. intros [Hl Hp]. destruct (binary_search key l) as [idx|idx].
    + apply (many_or_constant_proper (vec_remove idx l)), vec_remove_proper, Hp.
    + now apply (many_or_constant_proper l).
Qed.

End Arithmetic.
