(* ===== verification/AffineSolver.v ===== *)
(** * Soundness of the affine solver

    The solver of [AffineExpression.v] against the meaning of the equation it solves:
    what it returns holds in every assignment that satisfies the equation and the known
    range constraints, and an error is returned only when there is none. *)

From stdpp Require Import base list option pretty.
From Stdlib Require Import ZArith Lia String Sorted.
From S2P Require Import Prelude Goldilocks Field RangeConstraints EvalResult AffineExpression.

Section Soundness.
Context {K T : Type} `{OL : OrdLaws K} `{FL : FieldLaws T} `{DK : Display K} `{DT : Display T}.
Implicit Types (e : AffineExpression K T) (l : list (K * T)) (env : K -> T)
  (known : K -> option (RangeConstraint T)).

(** The known constraints are well-formed, and [env] satisfies them. *)
Definition known_wf known : Prop := forall k c, known k = Some c -> rc_wf c.
Definition known_hold known env : Prop := forall k c, known k = Some c -> rc_allows c (env k).

(** ** Solving for a single variable *)

Lemma solve_one_spec (v : K) (c o : T) : to_integer c <> 0 ->
  exists value, solve_one (K:=K) v c o = Some (inl (ev_complete [(v, Assignment value)])) /\
    forall x : T, eqm modulus (to_integer c * to_integer x + to_integer o) 0 <-> x = value.
Proof.
  intros Hc. range c.
  enough (exists value, (if f_is_one c then Some (f_neg o)
           else if f_eqb c (f_neg f_one) then Some o else f_div (f_neg o) c) = Some value /\
           eqm modulus (to_integer c * to_integer value) (- to_integer o)) as (value & Hv & Hm).
  { exists value. unfold solve_one. rewrite Hv. split; [reflexivity|]. intros x. split.
    - intros Hx. apply f_eqm_eq. apply (eqm_cancel (to_integer c)); [lia|]. rewrite Hm.
      destruct Hx as [k Hk]. exists k. lia.
    - intros ->. rewrite Hm. eqm_lia. }
  unfold f_is_one, f_eqb. case_if.
  - eexists. split; [reflexivity|]. feqm. rewrite E. eqm_lia.
  - case_if.
    + eexists. split; [reflexivity|]. rewrite E0, f_neg_one_int. exists (to_integer o). lia.
    + destruct (f_div_spec (f_neg o) c Hc) as (q & -> & Hq). eexists. split; [reflexivity|].
      rewrite Z.mul_comm, <- f_neg_eqm, <- Hq. symmetry. apply eqm_mod.
Qed.

(** [solve]: the assignment it returns is the unique solution, an error means that there
    is none, and an incomplete result carries no constraint. *)
Lemma solve_spec e : aff_proper e ->
  exists r, solve e = Some r /\
    match r with
    | inr _ => forall env, ~ aff_zero e env
    | inl v =>
      if ev_is_complete v
      then forall env, aff_zero e env <-> constraints_hold env (ev_constraints v)
      else v = ev_incomplete MultipleLinearSolutions
    end.
Proof.
  assert (Hone : forall v c o e', to_integer c <> 0 -> nonzero_coefficients e' = [(v, c)] -> offset e' = o ->
    exists r, solve_one v c o = Some r /\ match r with
    | inr _ => forall env, ~ aff_zero e' env
    | inl v => if ev_is_complete v
      then forall env, aff_zero e' env <-> constraints_hold env (ev_constraints v)
      else v = ev_incomplete MultipleLinearSolutions end).
  { intros v c o e' Hc Hl Ho. destruct (solve_one_spec v c o Hc) as (value & -> & Hv).
    eexists. split; [reflexivity|]. cbn. intros env. unfold aff_zero, aff_val. rewrite Hl, Ho.
    unfold aff_sum. cbn. rewrite Z.add_0_r, Hv. unfold constraints_hold.
    rewrite Forall_singleton. reflexivity. }
  intros Hp. destruct e as [c|[v c] o|l o]; cbn [solve].
  - unfold f_is_zero. case_if; (eexists; split; [reflexivity|]); cbn; unfold aff_zero, aff_val; cbn.
    + intros env. rewrite E. split; [constructor|reflexivity].
    + intros env Hz. range c. pose proof (modulus_pos (T:=T)). apply eqm_small in Hz; lia.
  - now apply Hone.
  - cbn in Hp. destruct Hp as [Hl [_ Hf]]. destruct l as [|[v c] [|kc l]]; [easy| |].
    + inversion Hf; subst. now apply Hone.
    + eexists. split; [reflexivity|]. reflexivity.
Qed.

(** ** Division with remainder *)

Lemma f_ltb_lt (x y : T) : f_ltb x y = true <-> to_integer x < to_integer y.
Proof. apply Z.ltb_lt. Qed.

(** The integers behind [remainder + divisor * quotient = dividend] in the field, when the
    right-hand side cannot reach the modulus. *)
Lemma division_unique (q r n : T) d qu ru :
  0 < d -> to_integer r <= ru -> ru < d -> to_integer q <= qu -> qu * d + ru < modulus ->
  eqm modulus (to_integer r + d * to_integer q) (to_integer n) ->
  to_integer q = to_integer n / d /\ to_integer r = to_integer n mod d.
Proof.
  intros Hd Hr Hru Hq Hb Hm. range q. range r. range n.
  assert (He : to_integer r + d * to_integer q = to_integer n) by (apply (eqm_small modulus); [nia|lia|easy]).
  split.
  - apply (Z.div_unique_pos _ _ _ (to_integer r)); lia.
  - apply (Z.mod_unique_pos _ _ (to_integer q)); lia.
Qed.

(** The shared core of the two orders in which the pattern matches. *)
Definition division_core (dividend divisor : T) (quotient remainder : K) known
  : option (option (EvalResult K T)) :=
  match known remainder with
  | None => Some None
  | Some rem_rc =>
    if f_ltb (rc_max rem_rc) (rc_min rem_rc) || f_leb divisor (rc_max rem_rc) then Some None
    else
      match known quotient with
      | None => Some None
      | Some quo_rc =>
        if f_ltb (rc_max quo_rc) (rc_min quo_rc)
           || (modulus <=? to_integer (rc_max quo_rc) * to_integer divisor + to_integer (rc_max rem_rc))
        then Some None
        else
          _ ← assert_that (negb (to_integer divisor =? 0));
          qv ← from_biguint (to_integer dividend / to_integer divisor);
          rv ← from_biguint (to_integer dividend mod to_integer divisor);
          if f_ltb qv (rc_min quo_rc) || f_ltb (rc_max quo_rc) qv
             || f_ltb rv (rc_min rem_rc) || f_ltb (rc_max rem_rc) rv
          then Some (Some (inr ConflictingRangeConstraints))
          else Some (Some (inl (ev_complete [(quotient, Assignment qv); (remainder, Assignment rv)])))
      end
  end.

Lemma division_core_spec (dividend divisor : T) quotient remainder known :
  to_integer divisor <> 0 ->
  exists o, division_core dividend divisor quotient remainder known = Some o /\
    forall r env, o = Some r -> known_hold known env ->
      eqm modulus (to_integer (env remainder) + to_integer divisor * to_integer (env quotient))
        (to_integer dividend) ->
      exists v, r = inl v /\ constraints_hold env (ev_constraints v).
Proof.
  intros Hd. unfold division_core.
  destruct (known remainder) as [rr|] eqn:Er; [|eexists; split; [reflexivity|discriminate]].
  unfold f_ltb, f_leb.
  destruct (_ || _) eqn:E1; [eexists; split; [reflexivity|discriminate]|]. b2p.
  destruct (known quotient) as [qr|] eqn:Eq; [|eexists; split; [reflexivity|discriminate]].
  destruct (_ || (modulus <=? _)) eqn:E2; [eexists; split; [reflexivity|discriminate]|]. b2p.
  replace (to_integer divisor =? 0) with false by (symmetry; now apply Z.eqb_neq). cbn [negb assert_that].
  range divisor. range dividend.
  destruct (from_biguint_spec (T:=T) (to_integer dividend / to_integer divisor)) as (qv & -> & Hqv).
  { split; [apply Z.div_pos; lia|]. apply Z.div_lt_upper_bound; nia. }
  destruct (from_biguint_spec (T:=T) (to_integer dividend mod to_integer divisor)) as (rv & -> & Hrv).
  { pose proof (Z.mod_pos_bound (to_integer dividend) (to_integer divisor)). lia. }
  cbn [mbind option_bind].
  assert (Hsol : forall env, known_hold known env ->
    eqm modulus (to_integer (env remainder) + to_integer divisor * to_integer (env quotient)) (to_integer dividend) ->
    env quotient = qv /\ env remainder = rv /\
    to_integer (rc_min qr) <= to_integer qv <= to_integer (rc_max qr) /\
    to_integer (rc_min rr) <= to_integer rv <= to_integer (rc_max rr)).
  { intros env Hk Hm.
    pose proof (Hk _ _ Er) as [Hir _]%rc_allows_iff. apply in_interval_le in Hir; [|lia].
    pose proof (Hk _ _ Eq) as [Hiq _]%rc_allows_iff. apply in_interval_le in Hiq; [|lia].
    destruct (division_unique (env quotient) (env remainder) dividend (to_integer divisor)
                (to_integer (rc_max qr)) (to_integer (rc_max rr))) as [Hq Hr]; try lia; [easy|].
    rewrite <- Hq in Hqv. rewrite <- Hr in Hrv.
    apply to_integer_inj in Hqv as ->. apply to_integer_inj in Hrv as ->. auto. }
  destruct (_ || _) eqn:E3; (eexists; split; [reflexivity|]); intros r env [= <-] Hk Hm;
    destruct (Hsol env Hk Hm) as (Hq & Hr & Hqb & Hrb).
  - rewrite !orb_true_iff, !Z.ltb_lt in E3. lia.
  - eexists. split; [reflexivity|]. cbn. unfold constraints_hold. repeat constructor; easy.
Qed.

Lemma try_solve_division_core first second o known :
  try_solve_division (ManyVars [first; second] o) known =
  if negb (f_is_one (snd first)) && negb (f_is_one (snd second)) then Some None
  else if f_is_one (snd first)
       then division_core (f_neg o) (snd second) (fst second) (fst first) known
       else division_core (f_neg o) (snd first) (fst first) (fst second) known.
Proof.
  unfold try_solve_division, division_core, rc_range.
  destruct (negb _ && negb _); [easy|]. destruct (f_is_one (snd first)); reflexivity.
Qed.

Lemma try_solve_division_spec e known : aff_proper e ->
  exists o, try_solve_division e known = Some o /\
    forall r env, o = Some r -> known_hold known env -> aff_zero e env ->
      exists v, r = inl v /\ constraints_hold env (ev_constraints v).
Proof.
  intros Hp.
  destruct e as [c|[v c] o|[|first [|second [|third l]]] o];
    try (eexists; split; [reflexivity|discriminate]).
  rewrite try_solve_division_core. destruct Hp as [_ [_ Hf]].
  inversion Hf as [|? ? Hf1 Hf']; subst. inversion Hf' as [|? ? Hf2 _]; subst.
  destruct (negb _ && negb _) eqn:E; [eexists; split; [reflexivity|discriminate]|].
  assert (Hz : forall env, aff_zero (ManyVars [first; second] o) env ->
    eqm modulus (to_integer (snd first) * to_integer (env (fst first)) +
                 to_integer (snd second) * to_integer (env (fst second))) (to_integer (f_neg o))).
  { intros env [k Hk]. feqm. exists k. unfold aff_val in Hk. cbn in Hk. lia. }
  unfold f_is_one in *. destruct (Z.eqb_spec (to_integer (snd first)) 1) as [E1|E1].
  - destruct (division_core_spec (f_neg o) (snd second) (fst second) (fst first) known Hf2) as (r & -> & Hr).
    exists r. split; [reflexivity|]. intros r' env -> Hk Hzero. apply (Hr r' env eq_refl Hk).
    rewrite <- (Hz env Hzero), E1. eqm_lia.
  - cbn in E. b2p.
    destruct (division_core_spec (f_neg o) (snd first) (fst first) (fst second) known Hf1) as (r & -> & Hr).
    exists r. split; [reflexivity|]. intros r' env -> Hk Hzero. apply (Hr r' env eq_refl Hk).
    rewrite <- (Hz env Hzero), E. eqm_lia.
Qed.

End Soundness.

(** ** Transferring range constraints *)

Section Transfer.
Context {K T : Type} `{OL : OrdLaws K} `{FL : FieldLaws T} `{DK : Display K} `{DT : Display T}.
Implicit Types (e : AffineExpression K T) (l : list (K * T)) (env : K -> T)
  (known : K -> option (RangeConstraint T)).

(** The field values of the summands. *)
Definition term_values l env : list T := map (fun kc => f_mul (env (fst kc)) (snd kc)) l.

Definition f_sum (x : T) (xs : list T) : T := fold_left f_add xs x.

Lemma f_sum_eqm xs : forall x : T,
  eqm modulus (to_integer (f_sum x xs)) (to_integer x + foldr (fun y s => to_integer y + s) 0 xs).
Proof.
  induction xs as [|y xs IH]; intros x; cbn; [eqm_lia|].
  unfold f_sum in *. rewrite IH. feqm. eqm_lia.
Qed.

Lemma term_values_sum l env :
  eqm modulus (foldr (fun y s => to_integer y + s) 0 (term_values l env)) (aff_sum l env).
Proof.
  induction l as [|kc l IH]; [reflexivity|]. cbn. rewrite IH. feqm. unfold aff_sum. eqm_lia.
Qed.

Lemma collect_summands_spec known l : known_wf known ->
  exists o, collect_summands known l = Some o /\
    forall cs, o = Some cs -> Forall rc_wf cs /\
      forall env, known_hold known env -> Forall2 rc_allows cs (term_values l env).
Proof.
  intros Hwf. induction l as [|[i c] l (o & Ho & IH)]; cbn [collect_summands].
  - eexists. split; [reflexivity|]. intros cs [= <-]. split; [constructor|]. intros; constructor.
  - destruct (known i) as [con|] eqn:Ei; [|eexists; split; [reflexivity|discriminate]].
    destruct (rc_multiple_sound con c (Hwf _ _ Ei)) as (m & -> & Hm & Hs). cbn [mbind option_bind].
    rewrite Ho. cbn [mbind option_bind]. eexists. split; [reflexivity|].
    destruct o as [cs|]; [|discriminate]. destruct (IH cs eq_refl) as [IHw IHs].
    intros ? [= <-]. split; [now constructor|]. intros env Hk. constructor; [|now apply IHs].
    apply Hs. now apply (Hk i).
Qed.

Lemma reduce_sum_spec cs : forall acc : RangeConstraint T, rc_wf acc -> Forall rc_wf cs ->
  exists r, reduce_sum acc cs = Some r /\ rc_wf r /\
    forall x xs, rc_allows acc x -> Forall2 rc_allows cs xs -> rc_allows r (f_sum x xs).
Proof.
  induction cs as [|c cs IH]; intros acc Ha Hcs; cbn [reduce_sum].
  - eexists. split; [reflexivity|]. split; [easy|]. intros x xs Hx Hxs. inversion Hxs; subst. exact Hx.
  - inversion Hcs; subst.
    destruct (rc_combine_sum_sound acc c) as (s & -> & Hs & Hss); [easy..|]. cbn [mbind option_bind].
    destruct (IH s Hs) as (r & -> & Hr & Hrr); [easy|]. eexists. split; [reflexivity|]. split; [easy|].
    intros x xs Hx Hxs. inversion Hxs; subst. cbn. apply Hrr; auto.
Qed.

Lemma max_by_key_in {A} (key : A -> Z) xs : forall best, In (max_by_key key best xs) (best :: xs).
Proof.
  induction xs as [|x xs IH]; intros best; cbn [max_by_key]; [now left|].
  case_if; [right; apply IH|]. destruct (IH best) as [Hb|Hx]; [now left|now right; right].
Qed.

(** In a proper list a variable has exactly one coefficient. *)
Lemma filter_key_unique l k c : proper l -> In (k, c) l ->
  List.filter (fun kc => k_eqb (fst kc) k) l = [(k, c)].
Proof.
  intros [Hs _]. induction Hs as [|[k' c'] l Hs IH Hk]; [easy|]. intros Hin. cbn.
  rewrite List.Forall_forall in Hk.
  destruct (k_eqb_spec k' k) as [->|Hne].
  - destruct Hin as [[= ->]|Hin].
    + f_equal. destruct (List.filter _ l) as [|[k2 c2] r] eqn:Ef; [easy|exfalso].
      assert (Hin : In (k2, c2) (List.filter (fun kc => k_eqb (fst kc) k) l)) by (rewrite Ef; now left).
      apply List.filter_In in Hin as [Hin Hk2]. cbn in Hk2.
      destruct (k_eqb_spec k2 k) as [->|]; [|discriminate].
      specialize (Hk _ Hin). unfold key_lt in Hk. cbn in Hk. rewrite k_cmp_refl in Hk. discriminate.
    + specialize (Hk _ Hin). unfold key_lt in Hk. cbn in Hk. rewrite k_cmp_refl in Hk. discriminate.
  - destruct Hin as [[= -> _]|Hin]; [easy|]. now apply IH.
Qed.

Lemma proper_coefficients e : aff_proper e -> proper (nonzero_coefficients e).
Proof.
  destruct e as [o|[v c] o|l o]; cbn; [|intros; split; repeat constructor; easy|tauto].
  intros _. split; constructor.
Qed.

(** Solving [c * X + rest = 0] for [X] when [c] is [1] or [-1]. *)
Lemma solve_for_unit (x s : T) (c : T) : f_eqb c (f_neg f_one) || f_is_one c = true ->
  eqm modulus (to_integer c * to_integer x + to_integer s) 0 ->
  x = if f_is_one c then f_neg s else s.
Proof.
  intros Hc Hm. unfold f_is_one, f_eqb in *. apply f_eqm_eq. case_if.
  - rewrite E in Hm. feqm. destruct Hm as [k Hk]. exists k. lia.
  - b2p. destruct Hc as [Hc|Hc]; b2p; [|lia]. rewrite Hc, f_neg_one_int in Hm.
    destruct Hm as [k Hk]. exists (to_integer x - k). nia.
Qed.

(** Sums of summands and an optional offset. *)
Lemma fold_values_app (xs ys : list T) :
  foldr (fun y s => to_integer y + s) 0 (xs ++ ys) =
  foldr (fun y s => to_integer y + s) 0 xs + foldr (fun y s => to_integer y + s) 0 ys.
Proof. induction xs as [|x xs IH]; cbn; lia. Qed.

Definition offset_summands e : list (RangeConstraint T) :=
  if negb (f_is_zero (offset e)) then [rc_from_value (offset e)] else [].
Definition offset_values e : list T :=
  if negb (f_is_zero (offset e)) then [offset e] else [].

Lemma offset_summands_spec e :
  Forall rc_wf (offset_summands e) /\ Forall2 rc_allows (offset_summands e) (offset_values e).
Proof.
  unfold offset_summands, offset_values. destruct (negb _); split; constructor; [|constructor| |constructor].
  - apply (to_integer_width (offset e)).
  - now apply rc_from_value_allows.
Qed.

Lemma offset_values_sum e :
  foldr (fun y s => to_integer y + s) 0 (offset_values e) = to_integer (offset e).
Proof. unfold offset_values, f_is_zero. case_if; cbn in *; b2p; lia. Qed.

(** The equation solved for a variable with a unit coefficient: the value is determined
    by the sum of the remaining summands. *)
Lemma transfer_value e env k c x xs :
  proper (nonzero_coefficients e) -> In (k, c) (nonzero_coefficients e) ->
  f_eqb c (f_neg f_one) || f_is_one c = true -> aff_zero e env ->
  term_values (List.filter (fun kc => negb (k_eqb (fst kc) k)) (nonzero_coefficients e)) env
    ++ offset_values e = x :: xs ->
  env k = if f_is_one c then f_neg (f_sum x xs) else f_sum x xs.
Proof.
  intros Hp Hin Hunit Hz Hxs. apply solve_for_unit; [exact Hunit|].
  transitivity (aff_val e env); [|exact Hz]. unfold aff_val.
  rewrite (aff_sum_filter_key _ env (fun kc => k_eqb (fst kc) k)).
  rewrite (filter_key_unique _ _ _ Hp Hin), f_sum_eqm.
  change (to_integer x + foldr (fun y s => to_integer y + s) 0 xs)
    with (foldr (fun y s => to_integer y + s) 0 (x :: xs)).
  rewrite <- Hxs, fold_values_app, term_values_sum, offset_values_sum.
  unfold aff_sum at 2. cbn [foldr fst snd]. eqm_lia.
Qed.

Lemma try_transfer_constraints_spec e known : aff_proper e -> known_wf known ->
  exists o, try_transfer_constraints e known = Some o /\
    forall k c, o = Some (k, c) -> rc_wf c /\
      forall env, known_hold known env -> aff_zero e env -> rc_allows c (env k).
Proof.
  intros Hp%proper_coefficients Hwf. unfold try_transfer_constraints.
  destruct (List.filter _ (nonzero_coefficients e)) as [|first others] eqn:Ef;
    [eexists; split; [reflexivity|discriminate]|].
  pose proof (max_by_key_in (fun kc => least_constrained known (fst kc)) others first) as Hin.
  rewrite <- Ef in Hin. destruct (max_by_key _ first others) as [sf c].
  apply List.filter_In in Hin as [Hin Hunit]. cbn [snd] in Hunit.
  destruct (collect_summands_spec known
    (List.filter (fun kc => negb (k_eqb (fst kc) sf)) (nonzero_coefficients e)) Hwf) as (o & -> & Hcs).
  cbn [mbind option_bind]. destruct o as [rest|]; [|eexists; split; [reflexivity|discriminate]].
  destruct (Hcs rest eq_refl) as [Hrw Hrs]. clear Hcs.
  set (others_l := List.filter _ _) in Hrs.
  change (if negb _ then [_] else []) with (offset_summands e).
  destruct (offset_summands_spec e) as [How Hos].
  assert (Hallw : Forall rc_wf (rest ++ offset_summands e)) by now apply Forall_app.
  assert (Hall : forall env, known_hold known env ->
            Forall2 rc_allows (rest ++ offset_summands e) (term_values others_l env ++ offset_values e)).
  { intros env Hk. apply Forall2_app; [now apply Hrs|exact Hos]. }
  destruct (rest ++ offset_summands e) as [|s0 summands] eqn:Es; [eexists; split; [reflexivity|discriminate]|].
  inversion Hallw as [|? ? Hw0 Hws]; subst.
  destruct (reduce_sum_spec summands s0 Hw0 Hws) as (con & -> & Hconw & Hcon). cbn [mbind option_bind].
  assert (Hval : forall env, known_hold known env -> aff_zero e env ->
    exists s, rc_allows con s /\ env sf = if f_is_one c then f_neg s else s).
  { intros env Hk Hz. specialize (Hall env Hk). inversion Hall as [|? x ? xs Hx Hxs Heq1 Heq2]; subst.
    exists (f_sum x xs). split; [now apply Hcon|]. now apply (transfer_value e). }
  assert (Hneg : exists con', (if f_is_one c then rc_neg con else Some con) = Some con' /\ rc_wf con' /\
    forall env, known_hold known env -> aff_zero e env -> rc_allows con' (env sf)).
  { destruct (f_is_one c).
    - destruct (rc_neg_sound con) as (con' & Hc' & Hw' & Hs'). exists con'. split; [easy|]. split; [easy|].
      intros env Hk Hz. destruct (Hval env Hk Hz) as (s & Hs & ->). now apply Hs'.
    - exists con. split; [easy|]. split; [easy|].
      intros env Hk Hz. destruct (Hval env Hk Hz) as (s & Hs & ->). exact Hs. }
  destruct Hneg as (con' & -> & Hw' & Hs'). cbn [mbind option_bind].
  assert (Hfin : forall k c0, Some (sf, con') = Some (k, c0) -> rc_wf c0 /\
    forall env, known_hold known env -> aff_zero e env -> rc_allows c0 (env k)).
  { intros k c0 [= <- <-]. auto. }
  destruct (known sf) as [prev|] eqn:Ek; [|eauto].
  destruct (rc_conjunction_sound prev con' (Hwf _ _ Ek) Hw') as (cj & -> & _). cbn [mbind option_bind].
  case_if; [eexists; split; [reflexivity|discriminate]|eauto].
Qed.

End Transfer.

(** ** Solving through bit masks *)

Section Masks.
Context {K T : Type} `{OL : OrdLaws K} `{FL : FieldLaws T} `{DK : Display K} `{DT : Display T}.
Implicit Types (e : AffineExpression K T) (l : list (K * T)) (env : K -> T)
  (known : K -> option (RangeConstraint T)).

(** Every term is harmless: no product of the coefficient and an allowed value reaches
    the modulus, or the mask of the multiple does (and then nothing is deduced). The masks
    of [multiple] describe the residue of the product, but the solver divides it as an
    integer, so this is what its deductions rely on. *)
Definition term_no_wrap (c : T) (rc : RangeConstraint T) : Prop :=
  (forall v, rc_allows rc v -> to_integer c * to_integer v < modulus) \/
  (exists m, rc_multiple rc c = Some m /\ modulus <= rc_mask m).

Definition no_wrap known e : Prop :=
  Forall (fun kc => forall rc, known (fst kc) = Some rc -> term_no_wrap (snd kc) rc)
    (nonzero_coefficients e).

(** A coefficient with its constraint, in an assignment where it does not wrap. *)
Definition term_ok env (t : K * T * RangeConstraint T) : Prop :=
  rc_allows (snd t) (env (fst (fst t))) /\
  to_integer (snd (fst t)) * to_integer (env (fst (fst t))) < modulus.

Definition terms_sum env (ts : list (K * T * RangeConstraint T)) : Z := aff_sum (map fst ts) env.

Lemma terms_sum_nonneg env ts : 0 <= terms_sum env ts.
Proof.
  unfold terms_sum, aff_sum. induction ts as [|t ts IH]; cbn; [lia|].
  range (snd (fst t)). range (env (fst (fst t))). nia.
Qed.

(** One term's product lies in its mask. *)
Lemma term_submask env i c rc m : rc_wf rc -> rc_multiple rc c = Some m ->
  term_ok env (i, c, rc) -> submask (to_integer c * to_integer (env i)) (rc_mask m).
Proof.
  intros Hw Hm [Ha Hn]. cbn in Ha, Hn.
  destruct (rc_multiple_sound rc c Hw) as (m' & Hm' & _ & Hs). rewrite Hm in Hm'. injection Hm' as <-.
  specialize (Hs _ Ha). apply rc_allows_iff in Hs as [_ Hs].
  rewrite f_mul_spec, Z.mod_small in Hs; [now rewrite Z.mul_comm|].
  range c. range (env i). nia.
Qed.

(** What one run of the loop guarantees for an assignment. *)
Definition run_ok env (ts : list (K * T * RangeConstraint T)) (st st' : mask_state (K:=K) (T:=T)) : Prop :=
  submask (terms_sum env ts) (covered_bits st') /\
  submask (covered_bits st) (covered_bits st') /\
  Z.land (terms_sum env ts) (covered_bits st) = 0 /\
  (rem_offset st = terms_sum env ts ->
   rem_offset st' = 0 /\
   (constraints_hold env (ev_constraints (assignments st)) ->
    constraints_hold env (ev_constraints (assignments st')))).

Lemma run_ok_step env i c rc (m : RangeConstraint T) v ts st st' :
  to_integer c <> 0 -> in_width NUM_BITS (rc_mask m) -> in_width NUM_BITS (rem_offset st) ->
  submask (to_integer c * to_integer (env i)) (rc_mask m) ->
  Z.land (rc_mask m) (covered_bits st) = 0 ->
  to_integer v = Z.land (rem_offset st) (rc_mask m) / to_integer c ->
  run_ok env ts
    {| covered_bits := Z.lor (covered_bits st) (rc_mask m);
       assignments := ev_combine (assignments st) (ev_complete [(i, Assignment v)]);
       rem_offset := Z.land (rem_offset st) (bitnot NUM_BITS (rc_mask m)) |} st' ->
  run_ok env ((i, c, rc) :: ts) st st'.
Proof.
  intros Hc Hmw Hrw Hsub Hdis Hv (R1 & R2 & R3 & R4). cbn [covered_bits assignments rem_offset] in *.
  unfold run_ok, terms_sum. cbn [map fst snd aff_sum foldr].
  fold (aff_sum (map fst ts) env) (terms_sum env ts).
  set (P := to_integer c * to_integer (env i)) in *. set (S := terms_sum env ts) in *.
  rewrite Z.land_lor_distr_r, Z.lor_eq_0_iff in R3. destruct R3 as [R3c R3m].
  assert (HPS : Z.land P S = 0).
  { apply (disjoint_submask _ _ (rc_mask m)); [exact Hsub|]. now rewrite Z.land_comm. }
  rewrite (add_disjoint P S HPS).
  assert (HmC : submask (rc_mask m) (covered_bits st')) by (eapply submask_trans; [|exact R2]; auto with powdr).
  split; [|split; [|split]].
  - apply submask_testbit. intros j. rewrite Z.lor_spec, orb_true_iff. intros [Hj|Hj].
    + rewrite submask_testbit in HmC, Hsub. auto.
    + rewrite submask_testbit in R1. auto.
  - eapply submask_trans; [|exact R2]; auto with powdr.
  - rewrite Z.land_lor_distr_l, R3c, Z.lor_0_r. now apply (disjoint_submask _ _ (rc_mask m)).
  - intros Hrem. pose proof (NUM_BITS_pos (T:=T)).
    rewrite land_bitnot in R4 by (lia || easy). rewrite Hrem in R4, Hv.
    rewrite (ldiff_lor_part P S) in R4 by easy. rewrite (land_lor_part P S) in Hv by easy.
    destruct (R4 eq_refl) as [R4a R4b]. split; [exact R4a|]. intros Hold. apply R4b.
    apply ev_combine_holds. split; [exact Hold|]. constructor; [|constructor]. cbn.
    apply to_integer_inj. rewrite Hv. unfold P. rewrite Z.mul_comm. symmetry. now apply Z.div_mul.
Qed.

Lemma assign_masked_spec ts : forall st : mask_state,
  Forall (fun t => rc_wf (snd t) /\ to_integer (snd (fst t)) <> 0) ts ->
  0 <= rem_offset st < modulus -> 0 <= covered_bits st ->
  exists o, assign_masked ts st = Some o /\
    match o with
    | inr r => r = inl (ev_incomplete OverlappingBitConstraints)
    | inl st' => 0 <= covered_bits st' /\ forall env, Forall (term_ok env) ts -> run_ok env ts st st'
    end.
Proof.
  induction ts as [|[[i c] rc] ts IH]; intros st Hts Hrem Hcov; cbn [assign_masked].
  - eexists. split; [reflexivity|]. split; [exact Hcov|]. intros env _. unfold run_ok, terms_sum. cbn.
    repeat split; auto with powdr.
  - inversion Hts as [|? ? [Hw Hc] Hts']; subst. cbn in Hw, Hc.
    destruct (rc_multiple_sound rc c Hw) as (m & Hm & Hmw & _). rewrite Hm. cbn [mbind option_bind].
    destruct (Z.eqb_spec (Z.land (rc_mask m) (covered_bits st)) 0) as [Hd|Hd]; cbn [negb];
      [|eexists; split; [reflexivity|reflexivity]].
    replace (to_integer c =? 0) with false by (symmetry; now apply Z.eqb_neq). cbn [negb assert_that].
    assert (Hland : 0 <= Z.land (rem_offset st) (rc_mask m) <= rem_offset st).
    { split; [apply Z.land_nonneg; lia|]. apply submask_le; [apply Z.land_nonneg; lia|lia|].
      unfold submask. now rewrite Z.land_comm, Z.land_assoc, Z.land_diag. }
    range c. destruct (from_biguint_spec (T:=T) (Z.land (rem_offset st) (rc_mask m) / to_integer c)) as (v & -> & Hv).
    { split; [apply Z.div_pos; lia|]. apply Z.div_lt_upper_bound; nia. }
    cbn [mbind option_bind]. pose proof (modulus_fits (T:=T)).
    edestruct IH as (o & -> & Ho); [exact Hts'| | |eexists; split; [reflexivity|]].
    2: { cbn [covered_bits]. apply Z.lor_nonneg. split; [easy|apply Hmw]. }
    { cbn [rem_offset]. pose proof (NUM_BITS_pos (T:=T)).
      rewrite land_bitnot by (unfold rc_wf, in_width in *; lia || easy).
      pose proof (ldiff_le (rem_offset st) (rc_mask m)). lia. }
    destruct o as [st'|r]; [|exact Ho]. destruct Ho as [Hcov' Ho]. split; [exact Hcov'|]. intros env Hok. inversion Hok; subst.
    eapply run_ok_step; try eassumption; [unfold in_width; lia| |now apply Ho].
    now apply (term_submask env i c rc m).
Qed.

(** The masks of all terms end up in the covered bits. *)
Lemma assign_masked_covers (ts : list (K * T * RangeConstraint T)) : forall st st' : mask_state (K:=K) (T:=T),
  assign_masked ts st = Some (inl st') ->
  submask (covered_bits st) (covered_bits st') /\
  forall t m, In t ts -> rc_multiple (snd t) (snd (fst t)) = Some m ->
    submask (rc_mask m) (covered_bits st').
Proof.
  induction ts as [|[[i c] rc] ts IH]; intros st st'; cbn [assign_masked].
  - intros [= <-]. split; [auto with powdr|easy].
  - intros (m & Hm & H1)%bind_inv. case_if_in H1; [discriminate|].
    apply bind_inv in H1 as (u & _ & H1). apply bind_inv in H1 as (v & _ & H1).
    apply IH in H1 as [H1 H2]. cbn [covered_bits] in H1.
    split; [eapply submask_trans; [|exact H1]; auto with powdr|].
    intros t m' [<-|Hin] Hm'; [|eauto]. cbn in Hm'. rewrite Hm in Hm'. injection Hm' as <-.
    eapply submask_trans; [|exact H1]. auto with powdr.
Qed.

Lemma partition_constrained_spec known l ts us :
  partition_constrained known l = (ts, us) -> us = [] ->
  map fst ts = l /\ Forall (fun t => known (fst (fst t)) = Some (snd t)) ts.
Proof.
  revert ts us. induction l as [|[i c] l IH]; intros ts us; cbn [partition_constrained].
  - intros [= <- <-] _. split; [easy|constructor].
  - destruct (partition_constrained known l) as [ts' us'] eqn:E.
    destruct (known i) as [rc|] eqn:Ei; intros [= <- <-]; [|discriminate]. intros ->.
    destruct (IH ts' [] eq_refl eq_refl) as [<- Hf]. split; [easy|now constructor].
Qed.

Lemma try_solve_through_constraints_spec e known : aff_proper e -> known_wf known ->
  exists r, try_solve_through_constraints e known = Some r /\
    (no_wrap known e -> forall env, known_hold known env -> aff_zero e env ->
      exists v, r = inl v /\ constraints_hold env (ev_constraints v)).
Proof.
  intros [_ Hnz]%proper_coefficients Hwf. unfold try_solve_through_constraints.
  destruct (partition_constrained known (nonzero_coefficients e)) as [ts us] eqn:Ep.
  destruct us as [|u us]; [|eexists; split; [reflexivity|]; intros; eexists; split; [reflexivity|constructor]].
  apply partition_constrained_spec in Ep as [Hmap Hkn]; [|easy].
  assert (Hts : Forall (fun t => rc_wf (snd t) /\ to_integer (snd (fst t)) <> 0) ts).
  { rewrite <- Hmap, List.Forall_map in Hnz. rewrite List.Forall_forall in *.
    intros t Ht. split; [eapply Hwf; now apply Hkn|now apply Hnz]. }
  destruct (assign_masked_spec ts
    {| covered_bits := 0; assignments := ev_complete []; rem_offset := to_integer (f_neg (offset e)) |})
    as (o & Hrun & Ho); [exact Hts|apply to_integer_range|reflexivity|].
  rewrite Hrun. cbn [mbind option_bind]. destruct o as [st|r0]; [destruct Ho as [Hcov0 Ho]|].
  2: { subst r0. eexists. split; [reflexivity|]. intros. eexists. split; [reflexivity|constructor]. }
  destruct (Z.leb_spec modulus (covered_bits st)) as [Hcov|Hcov];
    [eexists; split; [reflexivity|]; intros; eexists; split; [reflexivity|constructor]|].
  assert (Hsol : no_wrap known e -> forall env, known_hold known env -> aff_zero e env ->
    rem_offset st = 0 /\ constraints_hold env (ev_constraints (assignments st))).
  { intros Hnw env Hk Hz. assert (Hok : Forall (term_ok env) ts).
    { unfold no_wrap in Hnw. rewrite <- Hmap, List.Forall_map in Hnw.
      rewrite List.Forall_forall in *. intros t Ht. pose proof (Hk _ _ (Hkn t Ht)) as Ha.
      split; [exact Ha|]. destruct (Hnw t Ht _ (Hkn t Ht)) as [Hp|(m & Hm & Hbig)]; [now apply Hp|].
      apply assign_masked_covers in Hrun as [_ Hrun]. specialize (Hrun t m Ht Hm).
      pose proof (submask_le (rc_mask m) (covered_bits st) ltac:(pose proof (modulus_pos (T:=T)); lia) Hcov0 Hrun). lia. }
    destruct (Ho env Hok) as (R1 & R2 & _ & R4). cbn [covered_bits rem_offset assignments] in *.
    assert (Hlt : 0 <= terms_sum env ts < modulus).
    { pose proof (terms_sum_nonneg env ts). split; [easy|].
      pose proof (submask_le _ _ H1 Hcov0 R1). lia. }
    destruct R4 as [R4a R4b]; [|split; [exact R4a|apply R4b; constructor]].
    apply (eqm_small modulus); [apply to_integer_range|exact Hlt|]. feqm.
    unfold aff_zero, aff_val in Hz. rewrite <- Hmap in Hz. fold (terms_sum env ts) in Hz.
    destruct Hz as [k Hz]. exists (- k). lia. }
  case_if; (eexists; split; [reflexivity|]); intros Hnw env Hk Hz; destruct (Hsol Hnw env Hk Hz) as [Hr Hc].
  - contradiction.
  - eauto.
Qed.

End Masks.

(** ** The whole solver *)

Section WholeSolver.
Context {K T : Type} `{OL : OrdLaws K} `{FL : FieldLaws T} `{DK : Display K} `{DT : Display T}.
Implicit Types (e : AffineExpression K T) (env : K -> T)
  (known : K -> option (RangeConstraint T)) (r : EvalResult K T).

Lemma aff_zero_neg e env : aff_zero (aff_neg e) env <-> aff_zero e env.
Proof.
  unfold aff_zero. rewrite aff_neg_val. split; intros [k Hk]; exists (- k); lia.
Qed.

(** [r] holds in every solution of [e = 0] that respects the known constraints. *)
Definition entails known e r : Prop :=
  forall env, known_hold known env -> aff_zero e env ->
    exists v, r = inl v /\ constraints_hold env (ev_constraints v).

Lemma return_unless_empty_spec known e r k (P : Prop) :
  (P -> entails known e r) ->
  (exists r', k = Some r' /\ (P -> entails known e r')) ->
  exists r', return_unless_empty r k = Some r' /\ (P -> entails known e r').
Proof.
  intros Hr Hk. unfold return_unless_empty. destruct r as [v|err]; [|eauto].
  destruct (negb (ev_is_empty v)); eauto.
Qed.

Lemma return_division_spec known e o k (P : Prop) :
  (forall r env, o = Some r -> known_hold known env -> aff_zero e env ->
     exists v, r = inl v /\ constraints_hold env (ev_constraints v)) ->
  (exists r', k = Some r' /\ (P -> entails known e r')) ->
  exists r', return_division o k = Some r' /\ (P -> entails known e r').
Proof.
  intros Ho Hk. destruct o as [r|]; cbn [return_division]; [|exact Hk].
  apply return_unless_empty_spec; [|exact Hk]. intros _ env. now apply Ho.
Qed.

Lemma join_transferred_spec (a b : option (K * RangeConstraint T)) :
  (forall k c, a = Some (k, c) -> rc_wf c) -> (forall k c, b = Some (k, c) -> rc_wf c) ->
  exists l, join_transferred a b = Some l /\
    forall env : K -> T, (forall k c, a = Some (k, c) -> rc_allows c (env k)) ->
      (forall k c, b = Some (k, c) -> rc_allows c (env k)) ->
      constraints_hold env (map (fun pc => (fst pc, RangeConstraintC (snd pc))) l).
Proof.
  intros Ha Hb. destruct a as [[p1 c1]|], b as [[p2 c2]|]; cbn [join_transferred].
  - destruct (k_eqb_spec p1 p2) as [<-|Hne].
    + destruct (rc_conjunction_sound c1 c2 (Ha _ _ eq_refl) (Hb _ _ eq_refl)) as (c & -> & _ & Hs).
      eexists. split; [reflexivity|]. intros env Ha' Hb'. constructor; [|constructor].
      cbn. apply Hs; eauto.
    + eexists. split; [reflexivity|]. intros env Ha' Hb'. constructor; [cbn; eauto|].
      constructor; [cbn; eauto|constructor].
  - eexists. split; [reflexivity|]. intros env Ha' Hb'. constructor; [cbn; eauto|constructor].
  - eexists. split; [reflexivity|]. intros env Ha' Hb'. constructor; [cbn; eauto|constructor].
  - eexists. split; [reflexivity|]. constructor.
Qed.

Lemma transfer_both_spec e known : aff_proper e -> known_wf known ->
  exists r, transfer_both e (aff_neg e) known = Some r /\ entails known e r.
Proof.
  intros Hp Hwf. unfold transfer_both.
  destruct (try_transfer_constraints_spec e known Hp Hwf) as (a & -> & Ha).
  destruct (try_transfer_constraints_spec _ known (aff_neg_proper e Hp) Hwf) as (b & -> & Hb).
  cbn [mbind option_bind].
  destruct (join_transferred_spec a b) as (l & -> & Hl); [apply Ha|apply Hb|].
  eexists. split; [reflexivity|]. intros env Hk Hz. eexists. split; [reflexivity|].
  specialize (Hl env). destruct (map _ l); cbn; [constructor|]. apply Hl; intros k c E.
  - now apply (Ha k c E).
  - apply (Hb k c E); [exact Hk|]. now apply aff_zero_neg.
Qed.

Lemma solve_with_range_constraints_spec e known : aff_proper e -> known_wf known ->
  exists r, solve_with_range_constraints e known = Some r /\
    (no_wrap known e /\ no_wrap known (aff_neg e) -> entails known e r).
Proof.
  intros Hp Hwf. pose proof (aff_neg_proper e Hp) as Hn. unfold solve_with_range_constraints.
  destruct (solve_spec e Hp) as (value & -> & Hv). cbn [mbind option_bind].
  destruct value as [value|err].
  2: { eexists. split; [reflexivity|]. intros _ env _ Hz. now apply Hv in Hz. }
  destruct (ev_is_complete value) eqn:Ec.
  { eexists. split; [reflexivity|]. intros _ env _ Hz. eexists. split; [reflexivity|]. now apply Hv. }
  subst value. cbn [ev_is_empty ev_incomplete ev_new ev_constraints assert_that mbind option_bind].
  destruct (try_solve_division_spec e known Hp) as (d1 & -> & Hd1). cbn [mbind option_bind].
  apply return_division_spec; [exact Hd1|].
  destruct (try_solve_division_spec _ known Hn) as (d2 & -> & Hd2). cbn [mbind option_bind].
  apply return_division_spec.
  { intros r env Hr Hk Hz. apply (Hd2 r env Hr Hk). now apply aff_zero_neg. }
  destruct (try_solve_through_constraints_spec e known Hp Hwf) as (r1 & -> & Hr1).
  cbn [mbind option_bind]. apply return_unless_empty_spec; [intros [Hw _]; exact (Hr1 Hw)|].
  destruct (try_solve_through_constraints_spec _ known Hn Hwf) as (r2 & -> & Hr2).
  cbn [mbind option_bind]. apply return_unless_empty_spec.
  { intros [_ Hw] env Hk Hz. apply (Hr2 Hw env Hk). now apply aff_zero_neg. }
  destruct (transfer_both_spec e known Hp Hwf) as (r & -> & Hr). eauto.
Qed.

End WholeSolver.

(** ** Properties *)

(** Decimal notation of the indices and of the elements, for the examples. *)
#[local] Instance display_index : Display Z := fun z => pretty z.
#[local] Instance display_goldilocks : Display GoldilocksField := fun x => pretty (to_integer x).

(** Affine expressions stay in the form the operations rely on (coefficients sorted
    by variable, without duplicates, none of them zero), and addition, subtraction,
    negation, multiplication by a constant and assignment of a variable compute the value
    of the expression they stand for, in every assignment of the variables. *)
Theorem affine_operations_correct {K T} `{OrdLaws K} `{FieldLaws T}
  (e1 e2 : AffineExpression K T) (f : T) (key : K) :
  aff_proper e1 -> aff_proper e2 ->
  (aff_proper (aff_add e1 e2) /\ aff_proper (aff_sub e1 e2) /\ aff_proper (aff_neg e1) /\
   aff_proper (aff_mul e1 f) /\ aff_proper (assign e1 key f)) /\
  forall env : K -> T,
    eqm modulus (aff_val (aff_add e1 e2) env) (aff_val e1 env + aff_val e2 env) /\
    eqm modulus (aff_val (aff_sub e1 e2) env) (aff_val e1 env - aff_val e2 env) /\
    eqm modulus (aff_val (aff_neg e1) env) (- aff_val e1 env) /\
    eqm modulus (aff_val (aff_mul e1 f) env) (aff_val e1 env * to_integer f) /\
    (env key = f -> eqm modulus (aff_val (assign e1 key f) env) (aff_val e1 env)).
Proof.
  intros He1 He2. unfold aff_sub. split.
  - auto 6 using aff_add_proper, aff_neg_proper, aff_mul_proper, assign_proper.
  - intros env. split; [apply aff_add_val|]. split; [rewrite aff_add_val, aff_neg_val; eqm_lia|].
    split; [apply aff_neg_val|]. split; [apply aff_mul_val|]. now apply assign_val.
Qed.

Lemma affine_operations_correct_witness :
  aff_proper (aff_add (OneVar (1, gl 5) (gl 2)) (ManyVars [(1, f_neg (gl 5)); (3, gl 7)] (gl 4))).
Proof.
  destruct (affine_operations_correct (OneVar (1, gl 5) (gl 2))
    (ManyVars [(1, f_neg (gl 5)); (3, gl 7)] (gl 4)) (gl 3) 3) as [[Ha _] _];
    [ | |exact Ha].
  - vm_compute; congruence.
  - split; [discriminate|]. apply is_proper_coefficients_spec. vm_compute. reflexivity.
Defined.

(** C26: [solve] never panics on a proper expression. A complete answer is exactly the
    set of solutions, an error means that there is no solution, and otherwise it gives up
    with [MultipleLinearSolutions] and no constraint. *)
Theorem solve_exact {K T} `{OrdLaws K} `{FieldLaws T} `{Display K} `{Display T}
  (e : AffineExpression K T) : aff_proper e ->
  exists r, solve e = Some r /\
    match r with
    | inr _ => forall env, ~ aff_zero e env
    | inl v =>
      if ev_is_complete v
      then forall env, aff_zero e env <-> constraints_hold env (ev_constraints v)
      else v = ev_incomplete MultipleLinearSolutions
    end.
Proof. apply solve_spec. Qed.

Definition as_integer (kc : Z * Constraint GoldilocksField) : Z * option Z :=
  (fst kc, match snd kc with Assignment v => Some (to_integer v) | RangeConstraintC _ => None end).

(** Completeness and assignments of a result, as integers. *)
Definition outcome (r : option (EvalResult Z GoldilocksField)) : option (bool * list (Z * option Z)) :=
  match r with
  | Some (inl v) => Some (ev_is_complete v, map as_integer (ev_constraints v))
  | _ => None
  end.

Lemma solve_exact_witness :
  outcome (solve (OneVar (1, gl 3) (gl 2))) = Some (true, [(1, Some 12297829379609722880)]) /\
  exists r, solve (OneVar (1, gl 3) (gl 2)) = Some r.
Proof.
  split; [vm_compute; reflexivity|].
  destruct (solve_exact (OneVar (1, gl 3) (gl 2))) as (r & Hr & _); [vm_compute; congruence|].
  now exists r.
Defined.

(** C27: The solver with range constraints never panics on a proper expression and
    well-formed constraints. As long as no product of a coefficient and an allowed value
    reaches the modulus unnoticed, every solution that respects the known constraints
    also satisfies every assignment and range constraint that is returned, and an error
    is returned only when there is no such solution. *)
Theorem solve_with_range_constraints_sound {K T} `{OrdLaws K} `{FieldLaws T} `{Display K} `{Display T}
  (e : AffineExpression K T) (known : K -> option (RangeConstraint T)) :
  aff_proper e -> known_wf known ->
  exists r, solve_with_range_constraints e known = Some r /\
    (no_wrap known e /\ no_wrap known (aff_neg e) ->
     forall env, known_hold known env -> aff_zero e env ->
       exists v, r = inl v /\ constraints_hold env (ev_constraints v)).
Proof. apply solve_with_range_constraints_spec. Qed.

(** [256 * x1 + x2 = 0x1234] with both variables bytes. *)
Definition byte_equation : AffineExpression Z GoldilocksField :=
  ManyVars [(1, gl 256); (2, gl 1)] (f_neg (gl 0x1234)).
Definition byte_known (k : Z) : option (RangeConstraint GoldilocksField) :=
  Some (rc_from_mask 0xff).

Lemma byte_equation_proper : aff_proper byte_equation.
Proof. split; [discriminate|]. apply is_proper_coefficients_spec. vm_compute. reflexivity. Qed.

Lemma byte_known_wf : known_wf byte_known.
Proof. intros k c [= <-]. split; vm_compute; congruence. Qed.

Lemma byte_value (v : GoldilocksField) : rc_allows (rc_from_mask 0xff) v -> to_integer v <= 0xff.
Proof.
  intros [_ H]%rc_allows_iff. apply submask_le in H; [exact H| |vm_compute; congruence].
  apply (to_integer_range v).
Qed.

Lemma byte_no_wrap : no_wrap byte_known byte_equation.
Proof.
  apply List.Forall_forall. intros kc Hin rc [= <-]. left. intros v Hv%byte_value.
  destruct Hin as [<-|[<-|[]]];
    cbn [fst snd]; [change (to_integer (gl 256)) with 256|change (to_integer (gl 1)) with 1];
    change (modulus (T:=GoldilocksField)) with 18446744069414584321; lia.
Qed.

Lemma byte_negated_no_wrap : no_wrap byte_known (aff_neg byte_equation).
Proof.
  apply List.Forall_forall. intros kc Hin rc [= <-]. right.
  destruct Hin as [<-|[<-|[]]]; eexists; (split; [vm_compute; reflexivity|]);
    vm_compute; congruence.
Qed.

Lemma solve_with_range_constraints_sound_witness :
  outcome (solve_with_range_constraints byte_equation byte_known)
    = Some (true, [(1, Some 0x12); (2, Some 0x34)]) /\
  exists r, solve_with_range_constraints byte_equation byte_known = Some r /\
    exists v, r = inl v /\
      constraints_hold (fun k => if k =? 1 then gl 0x12 else gl 0x34) (ev_constraints v).
Proof.
  split; [vm_compute; reflexivity|].
  destruct (solve_with_range_constraints_sound byte_equation byte_known) as (r & Hr & Hs);
    [exact byte_equation_proper|exact byte_known_wf|].
  exists r. split; [exact Hr|]. apply Hs.
  - exact (conj byte_no_wrap byte_negated_no_wrap).
  - intros k c [= <-]. destruct (k =? 1); vm_compute; reflexivity.
  - exists 1. vm_compute. reflexivity.
Defined.

(** C28: Without any condition on wrapping: the division pattern and the transfer of
    range constraints never panic, and what they return holds in every solution that
    respects the known constraints. *)
Theorem division_and_transfer_sound {K T} `{OrdLaws K} `{FieldLaws T} `{Display K} `{Display T}
  (e : AffineExpression K T) (known : K -> option (RangeConstraint T)) :
  aff_proper e -> known_wf known ->
  (exists o, try_solve_division e known = Some o /\
     forall r env, o = Some r -> known_hold known env -> aff_zero e env ->
       exists v, r = inl v /\ constraints_hold env (ev_constraints v)) /\
  (exists o, try_transfer_constraints e known = Some o /\
     forall k c, o = Some (k, c) -> rc_wf c /\
       forall env, known_hold known env -> aff_zero e env -> rc_allows c (env k)).
Proof.
  intros He Hk. split; [now apply try_solve_division_spec|now apply try_transfer_constraints_spec].
Qed.

Lemma division_and_transfer_sound_witness :
  exists o, try_transfer_constraints byte_equation byte_known = Some o.
Proof.
  destruct (division_and_transfer_sound byte_equation byte_known byte_equation_proper byte_known_wf)
    as [_ (o & Ho & _)].
  now exists o.
Defined.

(** The bit decomposition is wrong when a product wraps: with [x1 = 6] and [x2] a
    bit, [(p + 1) / 2 * x1 + 8 * x2 = 3] has the solution [x1 = 6], [x2 = 0], but the
    solver answers, as complete, [x1 = 0] and [x2 = 0]. *)
Theorem bit_decomposition_unsound :
  exists (e : AffineExpression Z GoldilocksField) known env v,
    aff_proper e /\ known_wf known /\ known_hold known env /\ aff_zero e env /\
    solve_with_range_constraints e known = Some (inl v) /\
    ev_is_complete v = true /\ ~ constraints_hold env (ev_constraints v).
Proof.
  set (e := ManyVars [(1, gl ((ORDER + 1) / 2)); (2, gl 8)] (f_neg (gl 3))).
  set (known := fun k => if k =? 1 then Some (rc_from_value (gl 6))
                         else Some (rc_from_mask (T:=GoldilocksField) 1)).
  assert (Ho : outcome (solve_with_range_constraints e known) = Some (true, [(1, Some 0); (2, Some 0)]))
    by (vm_compute; reflexivity).
  destruct (solve_with_range_constraints e known) as [[v|]|] eqn:Es; try discriminate Ho.
  exists e, known, (fun k => if k =? 1 then gl 6 else gl 0), v.
  injection Ho as Hc Hl. split; [|split; [|split; [|split; [|split; [exact Es|split; [exact Hc|]]]]]].
  - split; [discriminate|]. apply is_proper_coefficients_spec. vm_compute. reflexivity.
  - intros k c. unfold known. case_if; intros [= <-]; split; vm_compute; congruence.
  - intros k c. unfold known. case_if; intros [= <-]; vm_compute; reflexivity.
  - exists 4. vm_compute. reflexivity.
  - destruct (ev_constraints v) as [|[k1 c1] cs]; [discriminate Hl|]. injection Hl as -> Hv _.
    intros Hh. apply Forall_inv in Hh. destruct c1 as [x|]; [|discriminate Hv].
    injection Hv as Hv. cbn in Hh. subst x. discriminate Hv.
Qed.
