(* ===== verification/SymbolicExpr.v ===== *)
(** * Symbolic expressions of the JIT, [executor/src/witgen/jit/symbolic_expression.rs]

    The expressions the JIT-compiled witness generation computes at run time, with a
    range constraint on every node, their simplifying constructors, and their value in an
    assignment of the symbols. *)

From stdpp Require Import base list option.
From Stdlib Require Import ZArith Lia.
From S2P Require Import Prelude Goldilocks Field RangeConstraints AffineExpression.

(** ** Data *)

Inductive BinaryOperator := Add | Sub | Mul | Div | IntegerDiv.
Inductive BitOperator := And.
Inductive UnaryOperator := Neg.

Inductive SymbolicExpression (T S : Type) :=
| Concrete (n : T)
| Symbol (s : S) (rc : RangeConstraint T)
| BinaryOperation (lhs : SymbolicExpression T S) (op : BinaryOperator)
    (rhs : SymbolicExpression T S) (rc : RangeConstraint T)
| UnaryOperation (op : UnaryOperator) (expr : SymbolicExpression T S) (rc : RangeConstraint T)
| BitOperation (expr : SymbolicExpression T S) (op : BitOperator) (n : Z) (rc : RangeConstraint T).
Arguments Concrete {T S} n.
Arguments Symbol {T S} s rc.
Arguments BinaryOperation {T S} lhs op rhs rc.
Arguments UnaryOperation {T S} op expr rc.
Arguments BitOperation {T S} expr op n rc.

(** ** Operations

    A panic is [None]: the sums and multiples of range constraints can overflow, and
    dividing constants by zero is asserted against. *)

Section Operations.
Context {T S : Type} `{FieldElement T}.
Implicit Types a b e : SymbolicExpression T S.

Definition sym_children e : list (SymbolicExpression T S) :=
  match e with
  | BinaryOperation lhs _ rhs _ => [lhs; rhs]
  | UnaryOperation _ expr _ | BitOperation expr _ _ _ => [expr]
  | Concrete _ | Symbol _ _ => []
  end.

(** The expression, then the descendants of each child, in order. *)
Fixpoint all_children e : list (SymbolicExpression T S) :=
  e :: match e with
       | BinaryOperation lhs _ rhs _ => all_children lhs ++ all_children rhs
       | UnaryOperation _ expr _ | BitOperation expr _ _ _ => all_children expr
       | Concrete _ | Symbol _ _ => []
       end.

Definition try_to_number e : option T :=
  match e with Concrete n => Some n | _ => None end.

Definition sym_range_constraint e : RangeConstraint T :=
  match e with
  | Concrete v => rc_from_value v
  | Symbol _ rc | BinaryOperation _ _ _ rc | UnaryOperation _ _ rc | BitOperation _ _ _ rc => rc
  end.

Definition is_known_zero e : bool :=
  match try_to_number e with Some n => f_is_zero n | None => false end.
Definition is_known_one e : bool :=
  match try_to_number e with Some n => f_is_one n | None => false end.
Definition is_known_minus_one e : bool :=
  match try_to_number e with Some n => f_eqb n (f_neg f_one) | None => false end.
Definition is_known_nonzero e : bool :=
  negb (rc_allows_value (sym_range_constraint e) f_zero).

Definition sym_add a b : option (SymbolicExpression T S) :=
  if is_known_zero a then Some b
  else if is_known_zero b then Some a
  else match a, b with
       | Concrete x, Concrete y => Some (Concrete (f_add x y))
       | _, _ =>
         rc ← rc_combine_sum (sym_range_constraint a) (sym_range_constraint b);
         Some (BinaryOperation a Add b rc)
       end.

Definition sym_neg a : option (SymbolicExpression T S) :=
  match a with
  | Concrete n => Some (Concrete (f_neg n))
  | UnaryOperation Neg expr _ => Some expr
  | _ =>
    rc ← rc_multiple (sym_range_constraint a) (f_neg f_one);
    Some (UnaryOperation Neg a rc)
  end.

Definition sym_mul a b : option (SymbolicExpression T S) :=
  match a, b with
  | Concrete x, Concrete y => Some (Concrete (f_mul x y))
  | _, _ =>
    if is_known_zero a || is_known_zero b then Some (Concrete f_zero)
    else if is_known_one a then Some b
    else if is_known_one b then Some a
    else if is_known_minus_one a then sym_neg b
    else if is_known_minus_one b then sym_neg a
    else Some (BinaryOperation a Mul b rc_unconstrained)
  end.

Definition field_div a b : option (SymbolicExpression T S) :=
  match a, b with
  | Concrete x, Concrete y =>
    _ ← assert_that (negb (f_is_zero y)); q ← f_div x y; Some (Concrete q)
  | _, _ =>
    if is_known_zero a then Some (Concrete f_zero)
    else if is_known_one b then Some a
    else if is_known_minus_one b then sym_neg a
    else Some (BinaryOperation a Div b rc_unconstrained)
  end.

(** On two constants the source divides in the field. *)
Definition integer_div a b : option (SymbolicExpression T S) :=
  match a, b with
  | Concrete x, Concrete y =>
    _ ← assert_that (negb (f_is_zero y)); q ← f_div x y; Some (Concrete q)
  | _, _ =>
    if is_known_one b then Some a
    else Some (BinaryOperation a IntegerDiv b rc_unconstrained)
  end.

Definition sym_bitand a (rhs : Z) : SymbolicExpression T S :=
  match a with
  | Concrete x => Concrete (from_integer (Z.land (to_integer x) rhs))
  | _ =>
    if is_known_zero a || (rhs =? 0) then Concrete f_zero
    else BitOperation a And rhs (rc_from_mask (Z.land (rc_mask (sym_range_constraint a)) rhs))
  end.

(** ** Value of an expression

    What the interpreter computes for each operator (see [Interpreter.v] for the translation
    to it); division by zero panics. *)

Definition binary_eval (op : BinaryOperator) (left right : T) : option T :=
  match op with
  | Add => Some (f_add left right)
  | Sub => Some (f_sub left right)
  | Mul => Some (f_mul left right)
  | Div => f_div left right
  | IntegerDiv =>
    _ ← assert_that (negb (to_integer right =? 0));
    from_biguint (to_integer left / to_integer right)
  end.

Definition unary_eval (op : UnaryOperator) (inner : T) : T :=
  match op with Neg => f_neg inner end.

Definition bit_eval (op : BitOperator) (left : T) (right : Z) : T :=
  match op with And => from_integer (Z.land (to_integer left) right) end.

Fixpoint sym_eval (env : S -> T) e : option T :=
  match e with
  | Concrete n => Some n
  | Symbol s _ => Some (env s)
  | BinaryOperation lhs op rhs _ =>
    x ← sym_eval env lhs; y ← sym_eval env rhs; binary_eval op x y
  | UnaryOperation op expr _ => x ← sym_eval env expr; Some (unary_eval op x)
  | BitOperation expr op n _ => x ← sym_eval env expr; Some (bit_eval op x n)
  end.

End Operations.

(** ** Invariants *)

Section Invariant.
Context {T S : Type} `{FL : FieldLaws T}.
Implicit Types a b e : SymbolicExpression T S.

(** What the constructors establish: range constraints are well-formed and the negation
    of a constant is a constant. *)
Fixpoint sym_form e : Prop :=
  match e with
  | Concrete _ => True
  | Symbol _ rc => rc_wf rc
  | BinaryOperation lhs _ rhs rc => sym_form lhs /\ sym_form rhs /\ rc_wf rc
  | UnaryOperation _ expr rc => sym_form expr /\ try_to_number expr = None /\ rc_wf rc
  | BitOperation expr _ n rc => sym_form expr /\ in_width NUM_BITS n /\ rc_wf rc
  end.

(** In [env], every node has a value and its range constraint allows it. *)
Fixpoint sym_ok (env : S -> T) e : Prop :=
  (exists v, sym_eval env e = Some v /\ rc_allows (sym_range_constraint e) v) /\
  match e with
  | Concrete _ | Symbol _ _ => True
  | BinaryOperation lhs _ rhs _ => sym_ok env lhs /\ sym_ok env rhs
  | UnaryOperation _ expr _ | BitOperation expr _ _ _ => sym_ok env expr
  end.

Lemma sym_ok_value env e : sym_ok env e ->
  exists v, sym_eval env e = Some v /\ rc_allows (sym_range_constraint e) v.
Proof. destruct e; cbn; tauto. Qed.

Lemma sym_range_constraint_wf e : sym_form e -> rc_wf (sym_range_constraint e).
Proof. destruct e; cbn; try tauto. intros _. apply to_integer_width. Qed.

Lemma sym_ok_concrete env (n : T) : sym_ok env (Concrete n).
Proof. split; [|exact I]. exists n. split; [reflexivity|]. now apply rc_from_value_allows. Qed.

(** [a] has the value [v], and is well-formed and valid in [env]. *)
Definition sym_is env e (v : T) : Prop := sym_ok env e /\ sym_eval env e = Some v.

Lemma sym_is_intro env e : sym_ok env e -> exists v, sym_is env e v.
Proof. intros H1. destruct (sym_ok_value env e H1) as (v & Hv & _). now exists v. Qed.

Lemma sym_is_allows env e v : sym_is env e v -> rc_allows (sym_range_constraint e) v.
Proof.
  intros [Hok Hv]. destruct (sym_ok_value env e Hok) as (w & Hw & Ha).
  rewrite Hw in Hv. now injection Hv as <-.
Qed.

Lemma sym_is_concrete env (n v : T) : sym_is env (Concrete n) v <-> v = n.
Proof.
  split; [intros [_ [= <-]]; reflexivity|]. intros ->. split; [apply sym_ok_concrete|reflexivity].
Qed.

Lemma try_to_number_is env e n v : try_to_number e = Some n -> sym_is env e v -> v = n.
Proof. destruct e; try discriminate. intros [= <-]. apply sym_is_concrete. Qed.

Lemma is_known_zero_is env e v : is_known_zero e = true -> sym_is env e v -> to_integer v = 0.
Proof.
  unfold is_known_zero, f_is_zero. destruct (try_to_number e) as [n|] eqn:E; [|discriminate].
  intros Hn Hv. rewrite (try_to_number_is env e n v E Hv). b2p. lia.
Qed.

Lemma is_known_one_is env e v : is_known_one e = true -> sym_is env e v -> to_integer v = 1.
Proof.
  unfold is_known_one, f_is_one. destruct (try_to_number e) as [n|] eqn:E; [|discriminate].
  intros Hn Hv. rewrite (try_to_number_is env e n v E Hv). b2p. lia.
Qed.

Lemma is_known_minus_one_is env e v :
  is_known_minus_one e = true -> sym_is env e v -> v = f_neg f_one.
Proof.
  unfold is_known_minus_one, f_eqb. destruct (try_to_number e) as [n|] eqn:E; [|discriminate].
  intros Hn Hv. rewrite (try_to_number_is env e n v E Hv). b2p. now apply to_integer_inj.
Qed.

Lemma is_known_nonzero_is env e v : is_known_nonzero e = true -> sym_is env e v -> to_integer v <> 0.
Proof.
  unfold is_known_nonzero. intros Hn Hv%sym_is_allows Hz.
  assert (v = f_zero) as -> by (apply to_integer_inj; now rewrite f_zero_int).
  unfold rc_allows in Hv. rewrite Hv in Hn. discriminate.
Qed.

End Invariant.

(** ** The constructors compute the value they stand for *)

Section Constructors.
Context {T S : Type} `{FL : FieldLaws T}.
Implicit Types a b e : SymbolicExpression T S.

Lemma f_zero_is (x : T) : to_integer x = 0 -> x = f_zero.
Proof. intros Hx. apply to_integer_inj. now rewrite f_zero_int. Qed.

Lemma f_one_is (x : T) : to_integer x = 1 -> x = f_one.
Proof. intros Hx. apply to_integer_inj. now rewrite f_one_int. Qed.

Lemma f_add_0_l (x : T) : f_add f_zero x = x.
Proof. apply f_eqm_eq. feqm. eqm_lia. Qed.
Lemma f_add_0_r (x : T) : f_add x f_zero = x.
Proof. apply f_eqm_eq. feqm. eqm_lia. Qed.
Lemma f_mul_0_l (x : T) : f_mul f_zero x = f_zero.
Proof. apply f_eqm_eq. feqm. eqm_lia. Qed.
Lemma f_mul_0_r (x : T) : f_mul x f_zero = f_zero.
Proof. apply f_eqm_eq. feqm. eqm_lia. Qed.
Lemma f_mul_1_l (x : T) : f_mul f_one x = x.
Proof. apply f_eqm_eq. feqm. eqm_lia. Qed.
Lemma f_mul_1_r (x : T) : f_mul x f_one = x.
Proof. apply f_eqm_eq. feqm. eqm_lia. Qed.
Lemma f_neg_neg (x : T) : f_neg (f_neg x) = x.
Proof. apply f_eqm_eq. feqm. eqm_lia. Qed.
Lemma f_mul_m1_l (x : T) : f_mul (f_neg f_one) x = f_neg x.
Proof. apply f_eqm_eq. feqm. eqm_lia. Qed.
Lemma f_mul_m1_r (x : T) : f_mul x (f_neg f_one) = f_neg x.
Proof. apply f_eqm_eq. feqm. eqm_lia. Qed.

(** [q] is the field quotient of [x] by [y]. *)
Lemma f_div_unique (x y q : T) : to_integer y <> 0 -> f_mul q y = x -> f_div x y = Some q.
Proof.
  intros Hy Hq. destruct (f_div_spec x y Hy) as (q' & -> & Hq'). f_equal.
  apply f_eqm_eq. apply (eqm_cancel (to_integer y)); [range y; lia|].
  rewrite <- Hq, f_mul_spec in Hq'. rewrite !(Z.mul_comm (to_integer y)).
  rewrite <- (eqm_mod modulus (to_integer q' * _)), Hq'. apply eqm_mod.
Qed.

(** A node whose range constraint allows its value. *)
Lemma sym_is_binary env a b op rc x y v :
  sym_is env a x -> sym_is env b y -> binary_eval op x y = Some v -> rc_allows rc v ->
  sym_is env (BinaryOperation a op b rc) v.
Proof.
  intros [Ha Hx] [Hb Hy] Hv Hrc.
  assert (He : sym_eval env (BinaryOperation a op b rc) = Some v) by (cbn; now rewrite Hx, Hy).
  split; [|exact He]. cbn [sym_ok]. split; [|easy]. now exists v.
Qed.

Lemma sym_is_unary env a op rc x :
  sym_is env a x -> rc_allows rc (unary_eval op x) ->
  sym_is env (UnaryOperation op a rc) (unary_eval op x).
Proof.
  intros [Ha Hx] Hrc.
  assert (He : sym_eval env (UnaryOperation op a rc) = Some (unary_eval op x)) by (cbn; now rewrite Hx).
  split; [|exact He]. cbn [sym_ok]. split; [|easy]. eauto.
Qed.

Lemma sym_is_bit env a op n rc x :
  sym_is env a x -> rc_allows rc (bit_eval op x n) ->
  sym_is env (BitOperation a op n rc) (bit_eval op x n).
Proof.
  intros [Ha Hx] Hrc.
  assert (He : sym_eval env (BitOperation a op n rc) = Some (bit_eval op x n)) by (cbn; now rewrite Hx).
  split; [|exact He]. cbn [sym_ok]. split; [|easy]. eauto.
Qed.

Lemma rc_unconstrained_wf : rc_wf (T:=T) rc_unconstrained.
Proof. apply int_max_width. Qed.

Lemma sym_add_spec a b : sym_form a -> sym_form b ->
  exists r, sym_add a b = Some r /\ sym_form r /\
    forall env x y, sym_is env a x -> sym_is env b y -> sym_is env r (f_add x y).
Proof.
  intros Ha Hb. unfold sym_add.
  destruct (is_known_zero a) eqn:Za.
  { eexists. split; [reflexivity|]. split; [exact Hb|]. intros env x y Hx Hy.
    rewrite (f_zero_is x), f_add_0_l; [exact Hy|]. eapply is_known_zero_is; eauto. }
  destruct (is_known_zero b) eqn:Zb.
  { eexists. split; [reflexivity|]. split; [exact Ha|]. intros env x y Hx Hy.
    rewrite (f_zero_is y), f_add_0_r; [exact Hx|]. eapply is_known_zero_is; eauto. }
  destruct (rc_combine_sum_sound _ _ (sym_range_constraint_wf a Ha) (sym_range_constraint_wf b Hb))
    as (rc & Hrc & Hw & Hs).
  assert (Hgen : exists r, (rc ← rc_combine_sum (sym_range_constraint a) (sym_range_constraint b);
      Some (BinaryOperation a Add b rc)) = Some r /\ sym_form r /\
    forall env x y, sym_is env a x -> sym_is env b y -> sym_is env r (f_add x y)).
  { rewrite Hrc. eexists. split; [reflexivity|]. split; [easy|]. intros env x y Hx Hy.
    eapply sym_is_binary; eauto. apply Hs; eapply sym_is_allows; eauto. }
  destruct a; try exact Hgen. destruct b; try exact Hgen.
  eexists. split; [reflexivity|]. split; [exact I|].
  intros env x y ->%sym_is_concrete ->%sym_is_concrete. now apply sym_is_concrete.
Qed.

Lemma sym_neg_spec a : sym_form a ->
  exists r, sym_neg a = Some r /\ sym_form r /\
    (try_to_number r = None <-> try_to_number a = None) /\
    forall env x, sym_is env a x -> sym_is env r (f_neg x).
Proof.
  intros Ha. destruct (rc_multiple_sound _ (f_neg f_one) (sym_range_constraint_wf a Ha)) as (rc & Hrc & Hw & Hs).
  assert (Hgen : try_to_number a = None ->
    exists r, (rc ← rc_multiple (sym_range_constraint a) (f_neg f_one);
      Some (UnaryOperation Neg a rc)) = Some r /\ sym_form r /\
    (try_to_number r = None <-> try_to_number a = None) /\
    forall env x, sym_is env a x -> sym_is env r (f_neg x)).
  { intros Hn. rewrite Hrc. eexists. split; [reflexivity|]. split; [easy|]. split; [easy|].
    intros env x Hx. apply (sym_is_unary env a Neg rc x Hx). cbn. rewrite <- f_mul_m1_r.
    apply Hs. eapply sym_is_allows; eauto. }
  destruct a as [n|s src|l op r brc|[] inner urc|inner op n bitrc]; try (apply Hgen; reflexivity).
  - eexists. split; [reflexivity|]. split; [exact I|]. split; [easy|].
    intros env x ->%sym_is_concrete. now apply sym_is_concrete.
  - destruct Ha as (Hf & Hn & _). eexists. split; [reflexivity|]. split; [exact Hf|].
    split; [easy|]. intros env x [[_ Hok] Hx]. destruct (sym_is_intro env inner Hok) as (v & Hv).
    cbn in Hx. rewrite (proj2 Hv) in Hx. injection Hx as <-. cbn. now rewrite f_neg_neg.
Qed.

(** The simplifications of [mul] when one of the factors is not a constant. *)
Definition mul_simplified a b : option (SymbolicExpression T S) :=
  if is_known_zero a || is_known_zero b then Some (Concrete f_zero)
  else if is_known_one a then Some b
  else if is_known_one b then Some a
  else if is_known_minus_one a then sym_neg b
  else if is_known_minus_one b then sym_neg a
  else Some (BinaryOperation a Mul b rc_unconstrained).

Lemma neg_not_zero a b (r : SymbolicExpression T S) : is_known_minus_one a = true ->
  (try_to_number r = None <-> try_to_number b = None) ->
  try_to_number a = None \/ try_to_number b = None -> is_known_zero r = false.
Proof.
  intros Ma Hn [Hna|Hnb]; [unfold is_known_minus_one in Ma; now rewrite Hna in Ma|].
  apply Hn in Hnb. unfold is_known_zero. now rewrite Hnb.
Qed.

Lemma mul_simplified_spec a b : sym_form a -> sym_form b ->
  exists r, mul_simplified a b = Some r /\ sym_form r /\
    (try_to_number a = None \/ try_to_number b = None ->
     is_known_zero a = false -> is_known_zero b = false -> is_known_zero r = false) /\
    forall env x y, sym_is env a x -> sym_is env b y -> sym_is env r (f_mul x y).
Proof.
  intros Ha Hb. unfold mul_simplified.
  destruct (is_known_zero a) eqn:Za; [|destruct (is_known_zero b) eqn:Zb]; cbn [orb].
  - eexists. split; [reflexivity|]. split; [exact I|]. split; [easy|]. intros env x y Hx Hy.
    rewrite (f_zero_is x), f_mul_0_l; [now apply sym_is_concrete|]. eapply is_known_zero_is; eauto.
  - eexists. split; [reflexivity|]. split; [exact I|]. split; [easy|]. intros env x y Hx Hy.
    rewrite (f_zero_is y), f_mul_0_r; [now apply sym_is_concrete|]. eapply is_known_zero_is; eauto.
  - destruct (is_known_one a) eqn:Oa; [|destruct (is_known_one b) eqn:Ob;
      [|destruct (is_known_minus_one a) eqn:Ma; [|destruct (is_known_minus_one b) eqn:Mb]]].
    + eexists. split; [reflexivity|]. split; [exact Hb|]. split; [easy|]. intros env x y Hx Hy.
      rewrite (f_one_is x), f_mul_1_l; [exact Hy|]. eapply is_known_one_is; eauto.
    + eexists. split; [reflexivity|]. split; [exact Ha|]. split; [easy|]. intros env x y Hx Hy.
      rewrite (f_one_is y), f_mul_1_r; [exact Hx|]. eapply is_known_one_is; eauto.
    + destruct (sym_neg_spec b Hb) as (r & -> & Hf & Hn & Hr). exists r. split; [reflexivity|].
      split; [exact Hf|]. split; [intros Hor _ _; eapply neg_not_zero; eauto|].
      intros env x y Hx Hy. rewrite (is_known_minus_one_is env a x Ma Hx), f_mul_m1_l. auto.
    + destruct (sym_neg_spec a Ha) as (r & -> & Hf & Hn & Hr). exists r. split; [reflexivity|].
      split; [exact Hf|]. split; [intros Hor _ _; apply (neg_not_zero b a); tauto|].
      intros env x y Hx Hy. rewrite (is_known_minus_one_is env b y Mb Hy), f_mul_m1_r. auto.
    + eexists. split; [reflexivity|]. split; [exact (conj Ha (conj Hb rc_unconstrained_wf))|].
      split; [easy|]. intros env x y Hx Hy.
      eapply sym_is_binary; eauto. apply rc_unconstrained_allows.
Qed.

Lemma sym_mul_spec a b : sym_form a -> sym_form b ->
  exists r, sym_mul a b = Some r /\ sym_form r /\
    (is_known_zero a = false -> is_known_zero b = false -> is_known_zero r = false) /\
    forall env x y, sym_is env a x -> sym_is env b y -> sym_is env r (f_mul x y).
Proof.
  intros Ha Hb. destruct (mul_simplified_spec a b Ha Hb) as (r & Hg & Hf & Hz & Hr).
  destruct (try_to_number a) as [x|] eqn:Ea; [destruct (try_to_number b) as [y|] eqn:Eb|].
  - destruct a; try discriminate. destruct b; try discriminate.
    eexists. split; [reflexivity|]. split; [exact I|]. split.
    + unfold is_known_zero. cbn. unfold f_is_zero. intros Hx Hy. b2p. apply Z.eqb_neq. now apply f_mul_nonzero.
    + intros env x' y' ->%sym_is_concrete ->%sym_is_concrete. now apply sym_is_concrete.
  - exists r. split; [|auto]. destruct a; try discriminate. destruct b; try exact Hg. discriminate.
  - exists r. split; [|auto]. destruct a; try exact Hg. discriminate.
Qed.

(** The divisor must not be a known zero when both operands are constants. *)
Lemma field_div_spec a b : sym_form a -> sym_form b -> is_known_zero b = false ->
  exists r, field_div a b = Some r /\ sym_form r /\
    forall env x y q, sym_is env a x -> sym_is env b y -> to_integer y <> 0 ->
      f_div x y = Some q -> sym_is env r q.
Proof.
  intros Ha Hb Hz.
  assert (Hgen : exists r, (if is_known_zero a then Some (Concrete f_zero)
    else if is_known_one b then Some a else if is_known_minus_one b then sym_neg a
    else Some (BinaryOperation a Div b rc_unconstrained)) = Some r /\ sym_form r /\
    forall env x y q, sym_is env a x -> sym_is env b y -> to_integer y <> 0 ->
      f_div x y = Some q -> sym_is env r q).
  { destruct (is_known_zero a) eqn:Za; [|destruct (is_known_one b) eqn:Ob;
      [|destruct (is_known_minus_one b) eqn:Mb]].
    - eexists. split; [reflexivity|]. split; [exact I|]. intros env x y q Hx Hy Hy0 Hq.
      rewrite (f_div_unique x y f_zero) in Hq; [injection Hq as <-; now apply sym_is_concrete|easy|].
      rewrite f_mul_0_l. symmetry. apply f_zero_is. eapply is_known_zero_is; eauto.
    - eexists. split; [reflexivity|]. split; [exact Ha|]. intros env x y q Hx Hy Hy0 Hq.
      rewrite (f_div_unique x y x) in Hq; [now injection Hq as <-|easy|].
      rewrite (f_one_is y); [apply f_mul_1_r|]. eapply is_known_one_is; eauto.
    - destruct (sym_neg_spec a Ha) as (r & -> & Hf & _ & Hr). exists r. split; [reflexivity|].
      split; [exact Hf|]. intros env x y q Hx Hy Hy0 Hq.
      rewrite (f_div_unique x y (f_neg x)) in Hq; [injection Hq as <-; auto|easy|].
      rewrite (is_known_minus_one_is env b y Mb Hy), f_mul_m1_r. apply f_neg_neg.
    - eexists. split; [reflexivity|]. split; [exact (conj Ha (conj Hb rc_unconstrained_wf))|].
      intros env x y q Hx Hy Hy0 Hq. eapply sym_is_binary; eauto. apply rc_unconstrained_allows. }
  destruct (try_to_number a) as [x|] eqn:Ea; [|destruct a; try exact Hgen; discriminate].
  destruct (try_to_number b) as [y|] eqn:Eb; [|destruct a, b; try exact Hgen; discriminate].
  destruct a; try discriminate. destruct b; try discriminate.
  injection Ea as ->. injection Eb as ->. cbn [field_div]. unfold is_known_zero in Hz. cbn in Hz.
  rewrite Hz. cbn [negb assert_that mbind option_bind]. unfold f_is_zero in Hz. b2p.
  destruct (f_div_spec x y Hz) as (q & Hq & _). rewrite Hq. eexists. split; [reflexivity|].
  split; [exact I|]. intros env x' y' q' ->%sym_is_concrete ->%sym_is_concrete _ Hq'.
  rewrite Hq in Hq'. apply sym_is_concrete. now injection Hq' as <-.
Qed.
End Constructors.

Section BitsAndIntegers.
Context {T S : Type} `{FL : FieldLaws T}.
Implicit Types a b e : SymbolicExpression T S.

Lemma bit_eval_int (x : T) n : in_width NUM_BITS n ->
  to_integer (bit_eval And x n) = Z.land (to_integer x) n.
Proof.
  intros Hn. pose proof (to_integer_width x) as Hx. range x. cbn [bit_eval].
  pose proof (submask_le (Z.land (to_integer x) n) (to_integer x)) as Hle.
  assert (0 <= Z.land (to_integer x) n) by (apply Z.land_nonneg; lia).
  rewrite from_integer_spec by (apply land_width; easy).
  apply Z.mod_small. enough (Z.land (to_integer x) n <= to_integer x) by lia. apply Hle; [lia..|].
  unfold submask. now rewrite (Z.land_comm _ n), <- Z.land_assoc, Z.land_diag.
Qed.

Lemma sym_bitand_spec a n : sym_form a -> in_width NUM_BITS n ->
  sym_form (sym_bitand a n) /\
  forall env x, sym_is env a x -> sym_is env (sym_bitand a n) (bit_eval And x n).
Proof.
  intros Ha Hn.
  assert (Hzero : forall env x, is_known_zero a || (n =? 0) = true -> sym_is env a x ->
    bit_eval And x n = f_zero).
  { intros env x Hz Hx. apply f_zero_is. rewrite bit_eval_int by easy.
    apply orb_true_iff in Hz as [Hz|Hz].
    - rewrite (is_known_zero_is env a x Hz Hx). apply Z.land_0_l.
    - b2p. subst n. apply Z.land_0_r. }
  assert (Hw : in_width NUM_BITS (Z.land (rc_mask (sym_range_constraint a)) n)).
  { apply land_width; [apply (sym_range_constraint_wf a Ha)|easy]. }
  assert (Hrc : forall env x, sym_is env a x -> rc_allows (rc_from_mask
    (Z.land (rc_mask (sym_range_constraint a)) n)) (bit_eval And x n)).
  { intros env x Hx. apply rc_from_mask_allows; [exact Hw|]. rewrite bit_eval_int by easy.
    apply sym_is_allows, rc_allows_iff in Hx as [_ Hx]. apply submask_testbit. intros i.
    rewrite !Z.land_spec, !andb_true_iff. intros [H1 H2]. split; [|exact H2].
    eapply submask_testbit; eauto. }
  destruct (try_to_number a) as [x|] eqn:Ea.
  - destruct a; try discriminate. split; [exact I|].
    intros env y ->%sym_is_concrete. now apply sym_is_concrete.
  - assert (Hd : sym_bitand a n = if is_known_zero a || (n =? 0) then Concrete f_zero
      else BitOperation a And n (rc_from_mask (Z.land (rc_mask (sym_range_constraint a)) n)))
      by (destruct a; easy || discriminate).
    rewrite Hd. case_if.
    + split; [exact I|]. intros env x Hx. apply sym_is_concrete. now apply (Hzero env).
    + split; [exact (conj Ha (conj Hn Hw))|]. intros env x Hx. apply sym_is_bit; eauto.
Qed.

(** Integer division is right when the operands are not both constants, and when the
    divisor divides the dividend. *)
Lemma integer_div_spec a b : sym_form a -> sym_form b -> is_known_zero b = false ->
  exists r, integer_div a b = Some r /\ sym_form r /\
    forall env x y q, sym_is env a x -> sym_is env b y -> to_integer y <> 0 ->
      try_to_number a = None \/ try_to_number b = None \/ (to_integer y | to_integer x) ->
      binary_eval IntegerDiv x y = Some q -> sym_is env r q.
Proof.
  intros Ha Hb Hz.
  assert (Hgen : exists r, (if is_known_one b then Some a
    else Some (BinaryOperation a IntegerDiv b rc_unconstrained)) = Some r /\ sym_form r /\
    forall env x y q, sym_is env a x -> sym_is env b y -> to_integer y <> 0 ->
      try_to_number a = None \/ try_to_number b = None \/ (to_integer y | to_integer x) ->
      binary_eval IntegerDiv x y = Some q -> sym_is env r q).
  { destruct (is_known_one b) eqn:Ob.
    - eexists. split; [reflexivity|]. split; [exact Ha|]. intros env x y q Hx Hy Hy0 _ Hq.
      cbn in Hq. rewrite (is_known_one_is env b y Ob Hy), Z.div_1_r in Hq. cbn in Hq.
      destruct (from_biguint_spec (T:=T) (to_integer x) (to_integer_range x)) as (x' & Hx' & He).
      rewrite Hx' in Hq. injection Hq as <-. apply to_integer_inj in He. now subst x'.
    - eexists. split; [reflexivity|]. split; [exact (conj Ha (conj Hb rc_unconstrained_wf))|].
      intros env x y q Hx Hy Hy0 _ Hq. eapply sym_is_binary; eauto. apply rc_unconstrained_allows. }
  destruct (try_to_number a) as [x|] eqn:Ea; [|destruct a; try exact Hgen; discriminate].
  destruct (try_to_number b) as [y|] eqn:Eb; [|destruct a, b; try exact Hgen; discriminate].
  destruct a; try discriminate. destruct b; try discriminate.
  injection Ea as ->. injection Eb as ->. cbn [integer_div]. unfold is_known_zero in Hz. cbn in Hz.
  rewrite Hz. cbn [negb assert_that mbind option_bind]. unfold f_is_zero in Hz. b2p.
  destruct (f_div_spec x y Hz) as (q & Hq & _). rewrite Hq. eexists. split; [reflexivity|].
  split; [exact I|]. intros env x' y' q' ->%sym_is_concrete ->%sym_is_concrete _ [|[|Hdiv]] Hq'; try discriminate.
  apply sym_is_concrete. cbn in Hq'. apply bind_inv in Hq' as (u & _ & Hq').
  range x. range y. destruct Hdiv as [k Hk]. rewrite Hk, Z.div_mul in Hq' by easy.
  destruct (from_biguint_spec (T:=T) k) as (x' & Hx' & He); [nia|].
  rewrite Hx' in Hq'. injection Hq' as <-.
  rewrite (f_div_unique x y x') in Hq; [now injection Hq as <-|easy|].
  apply f_eqm_eq. feqm. rewrite He, Hk. reflexivity.
Qed.

End BitsAndIntegers.

(** ** Properties *)



(** [integer_div] does what the interpreter does for the operator, unless both
    operands are constants and the division leaves a remainder: then it divides in the
    field, so that [7 // 2] is [(p + 7) / 2] and not [3]. *)
Theorem integer_div_correct_unless_constants :
  (forall T `(FL : FieldLaws T) S (a b : SymbolicExpression T S),
     sym_form a -> sym_form b -> is_known_zero b = false ->
     exists r, integer_div a b = Some r /\ sym_form r /\
       forall env x y q, sym_is env a x -> sym_is env b y -> to_integer y <> 0 ->
         try_to_number a = None \/ try_to_number b = None \/ (to_integer y | to_integer x) ->
         binary_eval IntegerDiv x y = Some q -> sym_is env r q) /\
  (forall env : Z -> GoldilocksField,
     option_map to_integer (binary_eval IntegerDiv (gl 7) (gl 2)) = Some 3 /\
     option_map (fun r => option_map to_integer (sym_eval env r)) (integer_div (Concrete (gl 7)) (Concrete (gl 2)))
       = Some (Some ((ORDER + 7) / 2))).
Proof.
  split; [intros T ? FL S a b Ha Hb; now apply integer_div_spec|].
  intros env. split; vm_compute; reflexivity.
Qed.
