(* ===== verification/Effect.v ===== *)
(** * Variables and effects of the JIT

    [executor/src/witgen/jit/variable.rs] and [executor/src/witgen/jit/effect.rs]: the
    cells and parameters the inference engine reasons about, and the instructions it
    emits. *)

From stdpp Require Import base list option strings pretty.
From Stdlib Require Import ZArith Lia.
From S2P Require Import Prelude Field RangeConstraints AffineExpression SymbolicExpr.

(** ** Variables *)

(** [column_name] is for display only: equality and order ignore it. *)
Record Cell := mkCell { column_name : string; cell_id : Z; row_offset : Z }.

Record MachineCallVariable := mkMachineCallVariable {
  identity_id : Z; call_row_offset : Z; index : Z }.

(** The source's [Variable]. *)
Inductive JitVariable :=
| WitnessCell (c : Cell)
| Param (i : nat)
| MachineCallParam (v : MachineCallVariable)
| FixedCell (c : Cell).

Inductive PolynomialType := Committed | ConstantPoly | IntermediatePoly.
Record PolyID := mkPolyID { poly_id : Z; ptype : PolynomialType }.
Record AlgebraicReference := mkAlgebraicReference {
  ref_name : string; ref_poly_id : PolyID; ref_next : bool }.

Definition compare_lex (a b : comparison) : comparison := match a with Eq => b | _ => a end.

Definition cell_eqb (a b : Cell) : bool :=
  (cell_id a =? cell_id b) && (row_offset a =? row_offset b).
Definition cell_cmp (a b : Cell) : comparison :=
  compare_lex (cell_id a ?= cell_id b) (row_offset a ?= row_offset b).
Definition cell_display (c : Cell) : string :=
  column_name c +:+ "[" +:+ pretty (row_offset c) +:+ "]".

Definition call_cmp (a b : MachineCallVariable) : comparison :=
  compare_lex (identity_id a ?= identity_id b)
    (compare_lex (call_row_offset a ?= call_row_offset b) (index a ?= index b)).

Definition variable_rank (v : JitVariable) : Z :=
  match v with WitnessCell _ => 0 | Param _ => 1 | MachineCallParam _ => 2 | FixedCell _ => 3 end.

(** The derived order: by constructor, then by the fields. *)
Definition variable_cmp (a b : JitVariable) : comparison :=
  match a, b with
  | WitnessCell c, WitnessCell d | FixedCell c, FixedCell d => cell_cmp c d
  | Param i, Param j => Nat.compare i j
  | MachineCallParam v, MachineCallParam w => call_cmp v w
  | _, _ => variable_rank a ?= variable_rank b
  end.

#[export] Instance variable_ord : Ord JitVariable := variable_cmp.

Definition variable_display (v : JitVariable) : string :=
  match v with
  | WitnessCell c | FixedCell c => cell_display c
  | Param i => "params[" +:+ pretty i +:+ "]"
  | MachineCallParam r =>
    "call_var(" +:+ pretty (identity_id r) +:+ ", " +:+ pretty (call_row_offset r) +:+ ", "
      +:+ pretty (index r) +:+ ")"
  end.

(** [i32] addition and the panic on other polynomial types are [None]. *)
Definition from_reference (r : AlgebraicReference) (offset : Z) : option JitVariable :=
  let sum := b2z (ref_next r) + offset in
  _ ← assert_that ((- 2 ^ 31 <=? sum) && (sum <? 2 ^ 31));
  let cell := {| column_name := ref_name r; cell_id := poly_id (ref_poly_id r); row_offset := sum |} in
  match ptype (ref_poly_id r) with
  | Committed => Some (WitnessCell cell)
  | ConstantPoly => Some (FixedCell cell)
  | IntermediatePoly => None
  end.

Definition try_to_poly_id (v : JitVariable) : option PolyID :=
  match v with
  | WitnessCell c => Some {| poly_id := cell_id c; ptype := Committed |}
  | FixedCell c => Some {| poly_id := cell_id c; ptype := ConstantPoly |}
  | Param _ | MachineCallParam _ => None
  end.

(** ** Effects *)

Record Assertion (T V : Type) := mkAssertion {
  lhs : SymbolicExpression T V;
  rhs : SymbolicExpression T V;
  expected_equal : bool
}.
Arguments mkAssertion {T V}.
Arguments lhs {T V}.
Arguments rhs {T V}.
Arguments expected_equal {T V}.

Record BranchCondition (T V : Type) := mkBranchCondition {
  variable : V;
  condition : RangeConstraint T
}.
Arguments mkBranchCondition {T V}.
Arguments variable {T V}.
Arguments condition {T V}.

Record ProverFunctionCall (V : Type) := mkProverFunctionCall {
  target : V;
  function_index : nat;
  prover_row_offset : Z;
  inputs : list V
}.
Arguments mkProverFunctionCall {V}.
Arguments target {V}.
Arguments function_index {V}.
Arguments prover_row_offset {V}.
Arguments inputs {V}.

(** The source's constructors, with a suffix that tells them from the types. *)
Inductive Effect (T V : Type) :=
| AssignmentE (v : V) (expr : SymbolicExpression T V)
| RangeConstraintE (v : V) (rc : RangeConstraint T)
| AssertionE (a : Assertion T V)
| MachineCallE (id : Z) (known : list bool) (args : list V)
| ProverFunctionCallE (call : ProverFunctionCall V)
| BranchE (cond : BranchCondition T V) (first second : list (Effect T V)).
Arguments AssignmentE {T V} v expr.
Arguments RangeConstraintE {T V} v rc.
Arguments AssertionE {T V} a.
Arguments MachineCallE {T V} id known args.
Arguments ProverFunctionCallE {T V} call.
Arguments BranchE {T V} cond first second.

Section Operations.
Context {T V : Type} `{FieldElement T} `{Ord V}.

Definition assert_eq (l r : SymbolicExpression T V) : Effect T V :=
  AssertionE {| lhs := l; rhs := r; expected_equal := true |}.
Definition assert_neq (l r : SymbolicExpression T V) : Effect T V :=
  AssertionE {| lhs := l; rhs := r; expected_equal := false |}.
Definition assert_is_zero (c : SymbolicExpression T V) : Effect T V := assert_eq c (Concrete f_zero).
Definition assert_is_nonzero (c : SymbolicExpression T V) : Effect T V := assert_neq c (Concrete f_zero).

(** [Itertools::unique]: the first occurrences, in order. *)
Fixpoint unique_from (seen : list V) (l : list V) : list V :=
  match l with
  | [] => []
  | x :: l' => if existsb (k_eqb x) seen then unique_from seen l'
               else x :: unique_from (x :: seen) l'
  end.
Definition unique (l : list V) : list V := unique_from [] l.

Definition symbol_of (e : SymbolicExpression T V) : list V :=
  match e with Symbol s _ => [s] | _ => [] end.

Definition referenced_symbols (e : SymbolicExpression T V) : list V :=
  unique (flat_map symbol_of (all_children e)).

Fixpoint referenced_variables (e : Effect T V) : list V :=
  unique
    match e with
    | AssignmentE v expr => v :: referenced_symbols expr
    | RangeConstraintE v _ => [v]
    | AssertionE a => referenced_symbols (lhs a) ++ referenced_symbols (rhs a)
    | MachineCallE _ _ args => args
    | ProverFunctionCallE call => target call :: inputs call
    | BranchE cond first second =>
      variable cond :: flat_map referenced_variables first ++ flat_map referenced_variables second
    end.

(** [zip_eq] panics on different lengths. *)
Fixpoint unknown_arguments (args : list V) (known : list bool) : option (list (V * bool)) :=
  match args, known with
  | [], [] => Some []
  | v :: args', k :: known' =>
    rest ← unknown_arguments args' known';
    Some (if k then rest else (v, true) :: rest)
  | _, _ => None
  end.

(** [unreachable!] on a range constraint. *)
Fixpoint written_vars (e : Effect T V) : option (list (V * bool)) :=
  match e with
  | AssignmentE v _ => Some [(v, false)]
  | RangeConstraintE _ _ => None
  | AssertionE _ => Some []
  | MachineCallE _ known args => unknown_arguments args known
  | ProverFunctionCallE call => Some [(target call, false)]
  | BranchE _ first second =>
    let fix go l := match l with
                    | [] => Some []
                    | e :: l' => w ← written_vars e; ws ← go l'; Some (w ++ ws)
                    end in
    w1 ← go first; w2 ← go second; Some (w1 ++ w2)
  end.

(** ** Meaning of the effects the equation solver emits *)

Definition assertion_holds (env : V -> T) (a : Assertion T V) : Prop :=
  exists x y, sym_eval env (lhs a) = Some x /\ sym_eval env (rhs a) = Some y /\
    f_eqb x y = expected_equal a.

(** In [env], the assignment has already happened, the range constraint is satisfied and
    the assertion passes. The solver emits no other effect. *)
Definition effect_holds (env : V -> T) (e : Effect T V) : Prop :=
  match e with
  | AssignmentE v expr => sym_eval env expr = Some (env v)
  | RangeConstraintE v rc => rc_allows rc (env v)
  | AssertionE a => assertion_holds env a
  | MachineCallE _ _ _ | ProverFunctionCallE _ | BranchE _ _ _ => False
  end.

End Operations.
