(* ===== verification/AffineSymbolic.v ===== *)
(** * Affine symbolic expressions, [executor/src/witgen/jit/affine_symbolic_expression.rs]

    Equations in unknown variables whose coefficients are run-time expressions, their
    arithmetic, and the solver that turns an equation into effects. *)

From stdpp Require Import base list option.
From Stdlib Require Import ZArith Lia Sorted.
From S2P Require Import Prelude Goldilocks Field RangeConstraints EvalResult AffineExpression.
From S2P Require Import AffineSolver SymbolicExpr Effect.

(** ** [BTreeMap]: association lists in key order *)

Section BTreeMap.
Context {K A : Type} `{Ord K}.
Implicit Types l : list (K * A).

Fixpoint bt_get (k : K) l : option A :=
  match l with
  | [] => None
  | (k', a) :: l' => if k_eqb k k' then Some a else bt_get k l'
  end.

(** [entry(k).and_modify(modify).or_insert(insert)]; [modify] may panic. *)
Fixpoint bt_entry (k : K) (modify : A -> option A) (insert : A) l : option (list (K * A)) :=
  match l with
  | [] => Some [(k, insert)]
  | (k', a) :: l' =>
    match k_cmp k k' with
    | Lt => Some ((k, insert) :: l)
    | Eq => a' ← modify a; Some ((k', a') :: l')
    | Gt => r ← bt_entry k modify insert l'; Some ((k', a) :: r)
    end
  end.

Definition bt_lt (a b : K * A) : Prop := k_cmp (fst a) (fst b) = Lt.
Definition bt_sorted l : Prop := StronglySorted bt_lt l.

End BTreeMap.

(** Mapping the values with a function that may panic. *)
Fixpoint bt_map {K A B : Type} (f : A -> option B) (l : list (K * A)) : option (list (K * B)) :=
  match l with
  | [] => Some []
  | (k, a) :: l' => b ← f a; r ← bt_map f l'; Some ((k, b) :: r)
  end.

(** ** Data *)

Record ProcessResult (T V : Type) := mkProcessResult {
  effects : list (Effect T V);
  complete : bool
}.
Arguments mkProcessResult {T V}.
Arguments effects {T V}.
Arguments complete {T V}.

Inductive SolveError := ConflictingRanges | Unsatisfiable.

Record AffineSymbolicExpression (T V : Type) := mkAffineSymbolic {
  coefficients : list (V * SymbolicExpression T V);
  sym_offset : SymbolicExpression T V;
  range_constraints : list (V * RangeConstraint T)
}.
Arguments mkAffineSymbolic {T V}.
Arguments coefficients {T V}.
Arguments sym_offset {T V}.
Arguments range_constraints {T V}.

(** ** Operations *)

Section Operations.
Context {T V : Type} `{FieldElement T} `{Ord V}.
Implicit Types (e : AffineSymbolicExpression T V).

Definition result_empty : ProcessResult T V := {| effects := []; complete := false |}.
Definition result_complete (l : list (Effect T V)) : ProcessResult T V :=
  {| effects := l; complete := true |}.

Definition from_symbolic (k : SymbolicExpression T V) : AffineSymbolicExpression T V :=
  {| coefficients := []; sym_offset := k; range_constraints := [] |}.
Definition from_known_symbol (symbol : V) (rc : RangeConstraint T) : AffineSymbolicExpression T V :=
  from_symbolic (Symbol symbol rc).
Definition from_unknown_variable (var : V) (rc : RangeConstraint T) : AffineSymbolicExpression T V :=
  {| coefficients := [(var, Concrete f_one)]; sym_offset := Concrete f_zero;
     range_constraints := [(var, rc)] |}.

Definition try_to_known e : option (SymbolicExpression T V) :=
  match coefficients e with [] => Some (sym_offset e) | _ => None end.

Definition single_unknown_variable e : option V :=
  match coefficients e with [(v, _)] => Some v | _ => None end.

(** The multiples of the range constraints, [None] inside when a coefficient is not a
    number or a variable has no range constraint. *)
Fixpoint sym_summands (rcs : list (V * RangeConstraint T)) (l : list (V * SymbolicExpression T V))
  : option (option (list (RangeConstraint T))) :=
  match l with
  | [] => Some (Some [])
  | (var, coeff) :: l' =>
    match (c ← try_to_number coeff; rc ← bt_get var rcs; Some (c, rc)) with
    | None => Some None
    | Some (c, rc) =>
      m ← rc_multiple rc c;
      rest ← sym_summands rcs l';
      Some (option_map (cons m) rest)
    end
  end.

(** [chain(once(last)).reduce(combine_sum)]. *)
Definition reduce_with_last (l : list (RangeConstraint T)) (last : RangeConstraint T)
  : option (RangeConstraint T) :=
  match l with
  | [] => Some last
  | first :: l' => reduce_sum first (l' ++ [last])
  end.

Definition expression_range_constraint e : option (RangeConstraint T) :=
  summands ← sym_summands (range_constraints e) (coefficients e);
  match summands with
  | None => Some rc_unconstrained
  | Some summands => reduce_with_last summands (sym_range_constraint (sym_offset e))
  end.

Fixpoint add_coefficients (rhs_rcs : list (V * RangeConstraint T))
  (l : list (V * SymbolicExpression T V))
  (cs : list (V * SymbolicExpression T V)) (rcs : list (V * RangeConstraint T))
  : option (list (V * SymbolicExpression T V) * list (V * RangeConstraint T)) :=
  match l with
  | [] => Some (cs, rcs)
  | (var, coeff) :: l' =>
    cs' ← bt_entry var (fun f => sym_add f coeff) coeff cs;
    rcs' ← match bt_get var rhs_rcs with
           | Some range_right => bt_entry var (fun rc => rc_conjunction rc range_right) range_right rcs
           | None => Some rcs
           end;
    add_coefficients rhs_rcs l' cs' rcs'
  end.

Definition as_add e1 e2 : option (AffineSymbolicExpression T V) :=
  r ← add_coefficients (range_constraints e2) (coefficients e2) (coefficients e1) (range_constraints e1);
  let '(cs, rcs) := r in
  o ← sym_add (sym_offset e1) (sym_offset e2);
  Some {| coefficients := List.filter (fun vc => negb (is_known_zero (snd vc))) cs;
          sym_offset := o; range_constraints := rcs |}.

Definition as_neg e : option (AffineSymbolicExpression T V) :=
  cs ← bt_map sym_neg (coefficients e);
  o ← sym_neg (sym_offset e);
  Some {| coefficients := cs; sym_offset := o; range_constraints := range_constraints e |}.

Definition as_sub e1 e2 : option (AffineSymbolicExpression T V) :=
  n ← as_neg e2; as_add e1 n.

Definition as_mul e (factor : SymbolicExpression T V) : option (AffineSymbolicExpression T V) :=
  if is_known_zero factor then Some (from_symbolic (Concrete f_zero))
  else
    cs ← bt_map (fun c => sym_mul c factor) (coefficients e);
    o ← sym_mul (sym_offset e) factor;
    Some {| coefficients := cs; sym_offset := o; range_constraints := range_constraints e |}.

(** The inner option: the product would be quadratic. *)
Definition try_mul e1 e2 : option (option (AffineSymbolicExpression T V)) :=
  match try_to_known e2 with
  | Some multiplier => Some <$> as_mul e1 multiplier
  | None =>
    match try_to_known e1 with
    | Some multiplier => Some <$> as_mul e2 multiplier
    | None => Some None
    end
  end.

(** ** Solving *)

Fixpoint constrained_coefficients (rcs : list (V * RangeConstraint T))
  (l : list (V * SymbolicExpression T V)) : option (list (V * T * RangeConstraint T)) :=
  match l with
  | [] => Some []
  | (var, coeff) :: l' =>
    c ← try_to_number coeff;
    rc ← bt_get var rcs;
    rest ← constrained_coefficients rcs l';
    Some ((var, c, rc) :: rest)
  end.

(** The loop: the covered bits and the effects so far, or [None] inside on an overlap. *)
Fixpoint decompose (offset : SymbolicExpression T V) (l : list (V * T * RangeConstraint T))
  (covered_bits : Z) (effects : list (Effect T V))
  : option (option (Z * list (Effect T V))) :=
  match l with
  | [] => Some (Some (covered_bits, effects))
  | (var, coeff, constraint) :: l' =>
    m ← rc_multiple constraint coeff;
    let mask := rc_mask m in
    if negb (Z.land mask covered_bits =? 0) then Some None
    else
      negated ← sym_neg offset;
      value ← integer_div (sym_bitand negated mask) (Concrete coeff);
      decompose offset l' (Z.lor covered_bits mask) (effects ++ [AssignmentE var value])
  end.

Definition solve_bit_decomposition e : option (sum (ProcessResult T V) SolveError) :=
  match constrained_coefficients (range_constraints e) (coefficients e) with
  | None => Some (inl result_empty)
  | Some cs =>
    r ← decompose (sym_offset e) cs 0 [];
    match r with
    | None => Some (inl result_empty)
    | Some (covered_bits, effs) =>
      if modulus <=? covered_bits then Some (inl result_empty)
      else
        match try_to_number (sym_offset e) with
        | Some o =>
          if negb (Z.land (to_integer (f_neg o)) (bitnot NUM_BITS covered_bits) =? 0)
          then Some (inr ConflictingRanges)
          else Some (inl (result_complete effs))
        | None =>
          negated ← sym_neg (sym_offset e);
          Some (inl (result_complete (effs ++
            [assert_eq (sym_bitand negated (bitnot NUM_BITS covered_bits)) (Concrete f_zero)])))
        end
    end
  end.

Definition sym_least_constrained (rcs : list (V * RangeConstraint T)) (v : V) : Z :=
  match bt_get v rcs with Some c => rc_range_width c | None => modulus end.

Definition transfer_constraints e : option (option (Effect T V)) :=
  match List.filter (fun vc => is_known_one (snd vc) || is_known_minus_one (snd vc)) (coefficients e) with
  | [] => Some None
  | first :: others =>
    let '(solve_for, solve_for_coefficient) :=
      max_by_key (fun vc => sym_least_constrained (range_constraints e) (fst vc)) first others in
    summands ← sym_summands (range_constraints e)
                 (List.filter (fun vc => negb (k_eqb (fst vc) solve_for)) (coefficients e));
    match summands with
    | None => Some None
    | Some summands =>
      constraint ← reduce_with_last summands (sym_range_constraint (sym_offset e));
      constraint ← (if is_known_one solve_for_coefficient then rc_neg constraint
                    else Some constraint);
      Some (Some (RangeConstraintE solve_for constraint))
    end
  end.

Definition solve_single (var : V) (coeff offset : SymbolicExpression T V)
  : option (sum (ProcessResult T V) SolveError) :=
  _ ← assert_that (negb (is_known_zero coeff));
  if is_known_nonzero coeff then
    negated ← sym_neg coeff;
    value ← field_div offset negated;
    Some (inl (result_complete [AssignmentE var value]))
  else if is_known_nonzero offset then
    negated ← sym_neg coeff;
    value ← field_div offset negated;
    Some (inl (result_complete [assert_is_nonzero coeff; AssignmentE var value]))
  else Some (inl result_empty).

Definition sym_solve e : option (sum (ProcessResult T V) SolveError) :=
  match coefficients e with
  | [] =>
    if is_known_nonzero (sym_offset e) then Some (inr Unsatisfiable)
    else Some (inl (result_complete []))
  | [(var, coeff)] => solve_single var coeff (sym_offset e)
  | _ =>
    r ← solve_bit_decomposition e;
    match r with
    | inr err => Some (inr err)
    | inl r =>
      if complete r then Some (inl r)
      else
        negated ← as_neg e;
        r ← solve_bit_decomposition negated;
        match r with
        | inr err => Some (inr err)
        | inl r =>
          if complete r then Some (inl r)
          else
            t1 ← transfer_constraints e;
            t2 ← transfer_constraints negated;
            Some (inl {| effects := option_list t1 ++ option_list t2; complete := false |})
        end
    end
  end.

End Operations.

(** ** Lemmas on ordered association lists *)

Section BTreeMapLemmas.
Context {K A : Type} `{OL : OrdLaws K}.
Implicit Types l : list (K * A).

Lemma bt_get_in k a l : bt_get k l = Some a -> In (k, a) l.
Proof.
  induction l as [|[k' a'] l IH]; cbn; [discriminate|].
  destruct (k_eqb_spec k k') as [->|]; [intros [= ->]; now left|right; auto].
Qed.

Lemma bt_entry_forall (P : A -> Prop) k modify insert l l' :
  bt_entry k modify insert l = Some l' -> P insert ->
  (forall x y, P x -> modify x = Some y -> P y) ->
  Forall (fun ka => P (snd ka)) l -> Forall (fun ka => P (snd ka)) l'.
Proof.
  intros He Hi Hm. revert l' He. induction l as [|[k' a] l IH]; cbn; intros l' He Hl.
  - injection He as <-. now constructor.
  - inversion Hl; subst. destruct (k_cmp k k').
    + apply bind_inv in He as (a' & Ha & [= <-]). constructor; eauto.
    + injection He as <-. now constructor.
    + apply bind_inv in He as (r & Hr & [= <-]). constructor; eauto.
Qed.

Lemma bt_entry_total (P : A -> Prop) k modify insert l :
  (forall x, P x -> exists y, modify x = Some y) ->
  Forall (fun ka => P (snd ka)) l -> exists l', bt_entry k modify insert l = Some l'.
Proof.
  intros Hm. induction l as [|[k' a] l IH]; cbn; [eauto|]. intros Hl. inversion Hl as [|? ? Ha Hl']; subst.
  destruct (k_cmp k k'); [|eauto|].
  - destruct (Hm a Ha) as (y & ->). eexists. reflexivity.
  - destruct (IH Hl') as (r & ->). eexists. reflexivity.
Qed.

Lemma bt_entry_sorted k modify insert l l' :
  bt_entry k modify insert l = Some l' -> bt_sorted l -> bt_sorted l' /\
  forall k0, k_cmp k0 k = Lt -> (forall ka, In ka l -> k_cmp k0 (fst ka) = Lt) ->
    forall ka, In ka l' -> k_cmp k0 (fst ka) = Lt.
Proof.
  revert l'. induction l as [|[k' a] l IH]; cbn; intros l' He Hs.
  - injection He as <-. split; [repeat constructor|]. intros k0 Hk _ ka [<-|[]]. exact Hk.
  - inversion Hs as [|? ? Hs' Hlt]; subst. destruct (k_cmp k k') eqn:Ec.
    + apply bind_inv in He as (a' & Ha & [= <-]). split; [now constructor|].
      intros k0 _ Hall ka [<-|Hin]; [apply (Hall (k', a)); now left|apply Hall; now right].
    + injection He as <-. split.
      * constructor; [exact Hs|]. constructor; [exact Ec|].
        eapply List.Forall_impl; [|exact Hlt]. intros ka Hka. eapply k_cmp_trans; eauto.
      * intros k0 Hk Hall ka [<-|Hin]; [exact Hk|now apply Hall].
    + apply bind_inv in He as (r & Hr & [= <-]). destruct (IH r Hr Hs') as [Hsr Hb].
      apply k_cmp_gt in Ec. split.
      * constructor; [exact Hsr|]. apply List.Forall_forall. intros ka Hin.
        apply (Hb k' Ec); [|exact Hin]. rewrite List.Forall_forall in Hlt. exact Hlt.
      * intros k0 Hk Hall ka [<-|Hin]; [apply (Hall (k', a)); now left|].
        apply (Hb k0 Hk); [|exact Hin]. intros kb Hkb. apply Hall. now right.
Qed.

(** A sum over the entries, with a weight that [modify] increases by that of [insert]. *)
Lemma bt_entry_sum (p : Z) (w : A -> Z) (env : K -> Z) k modify insert l l' :
  bt_entry k modify insert l = Some l' ->
  (forall x y, In (k, x) l -> modify x = Some y -> eqm p (w y) (w x + w insert)) ->
  eqm p (foldr (fun ka s => w (snd ka) * env (fst ka) + s) 0 l')
        (foldr (fun ka s => w (snd ka) * env (fst ka) + s) 0 l + w insert * env k).
Proof.
  revert l'. induction l as [|[k' a] l IH]; cbn; intros l' He Hm.
  - injection He as <-. cbn. eqm_lia.
  - destruct (k_cmp k k') eqn:Ec.
    + apply k_cmp_eq in Ec. subst k'. apply bind_inv in He as (a' & Ha & [= <-]).
      cbn. rewrite (Hm a a') by auto. eqm_lia.
    + injection He as <-. cbn. eqm_lia.
    + apply bind_inv in He as (r & Hr & [= <-]). cbn. rewrite (IH r Hr) by auto. eqm_lia.
Qed.

Lemma bt_map_keys {B} (f : A -> option B) l (l' : list (K * B)) : bt_map f l = Some l' -> map fst l' = map fst l.
Proof.
  revert l'. induction l as [|[k a] l IH]; cbn; intros l' He; [now injection He as <-|].
  apply bind_inv in He as (b & Hb & He). apply bind_inv in He as (r & Hr & [= <-]).
  cbn. now rewrite (IH r).
Qed.

Lemma bt_sorted_keys l : bt_sorted l <-> StronglySorted (fun a b => k_cmp a b = Lt) (map fst l).
Proof.
  unfold bt_sorted. induction l as [|[k a] l IH]; cbn; [split; constructor|].
  split; intros Hs; inversion Hs; subst; constructor; try tauto.
  - now apply List.Forall_map.
  - now apply List.Forall_map in H3.
Qed.

Lemma bt_sorted_filter (p : K * A -> bool) l : bt_sorted l -> bt_sorted (List.filter p l).
Proof.
  intros Hs. induction Hs as [|ka l Hs IH Hf]; cbn; [constructor|].
  destruct (p ka); [|exact IH]. constructor; [exact IH|].
  rewrite List.Forall_forall in *. intros kb Hin%List.filter_In. now apply Hf.
Qed.

(** A key has exactly one entry. *)
Lemma bt_filter_key l k a : bt_sorted l -> In (k, a) l ->
  List.filter (fun ka => k_eqb (fst ka) k) l = [(k, a)].
Proof.
  intros Hs. induction Hs as [|[k' a'] l Hs IH Hf]; [easy|]. rewrite List.Forall_forall in Hf.
  assert (Hno : forall b, k' = k -> ~ In (k, b) l).
  { intros b -> Hin. specialize (Hf _ Hin). unfold bt_lt in Hf. cbn in Hf.
    rewrite k_cmp_refl in Hf. discriminate. }
  cbn. intros Hin. destruct (k_eqb_spec k' k) as [->|Hne].
  - destruct Hin as [[= ->]|Hin]; [|now apply Hno in Hin]. f_equal.
    destruct (List.filter _ l) as [|[k2 a2] r] eqn:Ef; [easy|exfalso].
    assert (Hin : In (k2, a2) (List.filter (fun ka => k_eqb (fst ka) k) l)) by (rewrite Ef; now left).
    apply List.filter_In in Hin as [Hin Hk2]. cbn in Hk2.
    destruct (k_eqb_spec k2 k) as [->|]; [|discriminate]. now apply Hno in Hin.
  - destruct Hin as [[= -> _]|Hin]; [easy|]. now apply IH.
Qed.

End BTreeMapLemmas.

(** ** Meaning and invariant *)

Section Meaning.
Context {T V : Type} `{FL : FieldLaws T} `{OL : OrdLaws V}.
Implicit Types (e : AffineSymbolicExpression T V) (env : V -> T).

(** The integer value of a run-time expression. *)
Definition sym_val env (c : SymbolicExpression T V) : Z := to_integer (default f_zero (sym_eval env c)).

Definition sym_sum env (l : list (V * SymbolicExpression T V)) : Z :=
  foldr (fun vc s => sym_val env (snd vc) * to_integer (env (fst vc)) + s) 0 l.

Definition as_val env e : Z := sym_sum env (coefficients e) + sym_val env (sym_offset e).
Definition as_zero env e : Prop := eqm modulus (as_val env e) 0.

(** The form the operations keep: variables in order, no coefficient a known zero,
    well-formed expressions and range constraints. *)
Definition coefficients_form (l : list (V * SymbolicExpression T V)) : Prop :=
  Forall (fun vc => sym_form (snd vc)) l.
Definition as_form e : Prop :=
  bt_sorted (coefficients e) /\ coefficients_form (coefficients e) /\
  Forall (fun vc => is_known_zero (snd vc) = false) (coefficients e) /\
  sym_form (sym_offset e) /\ Forall (fun vr => rc_wf (snd vr)) (range_constraints e).

(** In [env], all run-time expressions have values and all range constraints hold. *)
Definition ranges_hold env (rcs : list (V * RangeConstraint T)) : Prop :=
  Forall (fun vr => rc_allows (snd vr) (env (fst vr))) rcs.
Definition as_ok env e : Prop :=
  Forall (fun vc => sym_ok env (snd vc)) (coefficients e) /\ sym_ok env (sym_offset e) /\
  ranges_hold env (range_constraints e).

Lemma sym_is_val env (c : SymbolicExpression T V) x : sym_is env c x -> sym_val env c = to_integer x.
Proof. intros [_ Hx]. unfold sym_val. now rewrite Hx. Qed.

Lemma sym_ok_is env (c : SymbolicExpression T V) :
  sym_ok env c -> exists x, sym_is env c x /\ sym_val env c = to_integer x.
Proof. intros [x Hx]%sym_is_intro. exists x. split; [exact Hx|]. now apply sym_is_val. Qed.

Lemma sym_add_val env (a b r : SymbolicExpression T V) : sym_form a -> sym_form b ->
  sym_add a b = Some r -> sym_ok env a -> sym_ok env b ->
  sym_ok env r /\ eqm modulus (sym_val env r) (sym_val env a + sym_val env b).
Proof.
  intros Ha Hb Hr (x & Hx & ->)%sym_ok_is (y & Hy & ->)%sym_ok_is.
  destruct (sym_add_spec a b Ha Hb) as (r' & Hr' & _ & Hs). rewrite Hr in Hr'. injection Hr' as <-.
  specialize (Hs env x y Hx Hy). rewrite (sym_is_val env r _ Hs). split; [apply Hs|]. feqm. reflexivity.
Qed.

Lemma sym_mul_val env (a b r : SymbolicExpression T V) : sym_form a -> sym_form b ->
  sym_mul a b = Some r -> sym_ok env a -> sym_ok env b ->
  sym_ok env r /\ eqm modulus (sym_val env r) (sym_val env a * sym_val env b).
Proof.
  intros Ha Hb Hr (x & Hx & ->)%sym_ok_is (y & Hy & ->)%sym_ok_is.
  destruct (sym_mul_spec a b Ha Hb) as (r' & Hr' & _ & _ & Hs). rewrite Hr in Hr'. injection Hr' as <-.
  specialize (Hs env x y Hx Hy). rewrite (sym_is_val env r _ Hs). split; [apply Hs|]. feqm. reflexivity.
Qed.

Lemma sym_neg_val env (a r : SymbolicExpression T V) : sym_form a ->
  sym_neg a = Some r -> sym_ok env a ->
  sym_ok env r /\ eqm modulus (sym_val env r) (- sym_val env a).
Proof.
  intros Ha Hr (x & Hx & ->)%sym_ok_is.
  destruct (sym_neg_spec a Ha) as (r' & Hr' & _ & _ & Hs). rewrite Hr in Hr'. injection Hr' as <-.
  specialize (Hs env x Hx). rewrite (sym_is_val env r _ Hs). split; [apply Hs|]. feqm. reflexivity.
Qed.

Lemma sym_neg_known_zero (a r : SymbolicExpression T V) : sym_form a ->
  sym_neg a = Some r -> is_known_zero a = false -> is_known_zero r = false.
Proof.
  intros Ha Hr Hz. destruct (try_to_number a) as [n|] eqn:En.
  - destruct a; try discriminate. injection Hr as <-. unfold is_known_zero in *. cbn in *.
    unfold f_is_zero in *. b2p. apply Z.eqb_neq. now apply f_neg_nonzero.
  - destruct (sym_neg_spec a Ha) as (r' & Hr' & _ & Hn & _). rewrite Hr in Hr'. injection Hr' as <-.
    unfold is_known_zero. now rewrite (proj2 Hn En).
Qed.

Lemma sym_sum_filter env (l : list (V * SymbolicExpression T V)) :
  Forall (fun vc => sym_ok env (snd vc)) l ->
  sym_sum env (List.filter (fun vc => negb (is_known_zero (snd vc))) l) = sym_sum env l.
Proof.
  unfold sym_sum. induction 1 as [|[v c] l Hc Hl IH]; [reflexivity|]. cbn [List.filter foldr fst snd].
  cbn [snd] in Hc. destruct (is_known_zero c) eqn:Ez; cbn [negb foldr fst snd]; rewrite IH; [|reflexivity].
  destruct (sym_ok_is env c Hc) as (x & Hx & ->). rewrite (is_known_zero_is env c x Ez Hx). lia.
Qed.

Lemma sym_sum_split env (l : list (V * SymbolicExpression T V)) (p : V * SymbolicExpression T V -> bool) :
  sym_sum env l = sym_sum env (List.filter p l) + sym_sum env (List.filter (fun vc => negb (p vc)) l).
Proof.
  induction l as [|vc l IH]; [reflexivity|]. cbn. destruct (p vc); cbn; unfold sym_sum in *; cbn; lia.
Qed.

End Meaning.

(** ** Arithmetic *)

Section Arithmetic.
Context {T V : Type} `{FL : FieldLaws T} `{OL : OrdLaws V}.
Implicit Types (e : AffineSymbolicExpression T V) (env : V -> T)
  (l cs : list (V * SymbolicExpression T V)) (rcs : list (V * RangeConstraint T)).

Lemma entry_range_spec v rr rcs : rc_wf rr -> Forall (fun vr => rc_wf (snd vr)) rcs ->
  exists rcs', bt_entry v (fun rc => rc_conjunction rc rr) rr rcs = Some rcs' /\
    Forall (fun vr => rc_wf (snd vr)) rcs' /\
    forall env, rc_allows rr (env v) -> ranges_hold env rcs -> ranges_hold env rcs'.
Proof.
  intros Hw. induction rcs as [|[v' rc] rcs IH]; cbn; intros Hr.
  - eexists. split; [reflexivity|]. split; [now constructor|]. intros env Ha _. now constructor.
  - inversion Hr as [|? ? Hrc Hrest]; subst. destruct (k_cmp v v') eqn:Ec.
    + destruct (rc_conjunction_sound rc rr Hrc Hw) as (c & -> & Hcw & Hs). cbn [mbind option_bind].
      apply k_cmp_eq in Ec. subst v'. eexists. split; [reflexivity|]. split; [now constructor|].
      intros env Ha Hh. inversion Hh; subst. constructor; [cbn; auto|easy].
    + eexists. split; [reflexivity|]. split; [now constructor|]. intros env Ha Hh. now constructor.
    + destruct (IH Hrest) as (r & -> & Hrw & Hrs). eexists. split; [reflexivity|].
      split; [now constructor|]. intros env Ha Hh. inversion Hh; subst. constructor; [easy|now apply Hrs].
Qed.

Lemma entry_coefficient_spec v c cs : sym_form c -> coefficients_form cs -> bt_sorted cs ->
  exists cs', bt_entry v (fun f => sym_add f c) c cs = Some cs' /\ coefficients_form cs' /\ bt_sorted cs' /\
    forall env, sym_ok env c -> Forall (fun vc => sym_ok env (snd vc)) cs ->
      Forall (fun vc => sym_ok env (snd vc)) cs' /\
      eqm modulus (sym_sum env cs') (sym_sum env cs + sym_val env c * to_integer (env v)).
Proof.
  intros Hc Hcs Hs.
  destruct (bt_entry_total sym_form v (fun f => sym_add f c) c cs) as (cs' & He); [|exact Hcs|].
  { intros x Hx. destruct (sym_add_spec x c Hx Hc) as (r & Hr & _). eauto. }
  exists cs'. split; [exact He|].
  assert (Hboth : forall P : SymbolicExpression T V -> Prop, P c -> Forall (fun vc => P (snd vc)) cs ->
    (forall x y, P x -> sym_add x c = Some y -> P y) -> Forall (fun vc => P (snd vc)) cs').
  { intros P HP Hall Hm. now apply (bt_entry_forall P v _ c cs cs' He). }
  split; [|split].
  - apply (Hboth sym_form); [easy..|]. intros x y Hx Hy.
    destruct (sym_add_spec x c Hx Hc) as (r & Hr & Hf & _). rewrite Hr in Hy. now injection Hy as <-.
  - now apply (bt_entry_sorted _ _ _ _ _ He).
  - intros env Hok Hall. split.
    + assert (Hand : Forall (fun vc => sym_form (snd vc) /\ sym_ok env (snd vc)) cs').
      { apply (Hboth (fun s => sym_form s /\ sym_ok env s)); [easy| |].
        - unfold coefficients_form in Hcs. rewrite List.Forall_forall in *. auto.
        - intros x y [Hx Hx'] Hy. split; [|now apply (sym_add_val env x c y)].
          destruct (sym_add_spec x c Hx Hc) as (r & Hr & Hf & _). rewrite Hr in Hy. now injection Hy as <-. }
      eapply List.Forall_impl; [|exact Hand]. intros vc Hvc. apply Hvc.
    + apply (bt_entry_sum modulus (sym_val env) (fun v => to_integer (env v)) _ _ _ _ _ He).
      intros x y Hin Hy. unfold coefficients_form in Hcs. rewrite List.Forall_forall in Hcs, Hall.
      now apply (sym_add_val env x c y (Hcs _ Hin) Hc Hy (Hall _ Hin)).
Qed.

End Arithmetic.

Section Operators.
Context {T V : Type} `{FL : FieldLaws T} `{OL : OrdLaws V}.
Implicit Types (e : AffineSymbolicExpression T V) (env : V -> T)
  (l cs : list (V * SymbolicExpression T V)) (rcs : list (V * RangeConstraint T)).

Lemma ranges_hold_get env rcs v rc : ranges_hold env rcs -> bt_get v rcs = Some rc -> rc_allows rc (env v).
Proof.
  intros Hh Hg%bt_get_in. unfold ranges_hold in Hh. rewrite List.Forall_forall in Hh. now apply Hh in Hg.
Qed.

Lemma ranges_wf_get rcs (v : V) (rc : RangeConstraint T) :
  Forall (fun vr => rc_wf (snd vr)) rcs -> bt_get v rcs = Some rc -> rc_wf rc.
Proof. intros Hh Hg%bt_get_in. rewrite List.Forall_forall in Hh. now apply Hh in Hg. Qed.

Lemma add_coefficients_spec rhs_rcs l : Forall (fun vr => rc_wf (snd vr)) rhs_rcs -> coefficients_form l ->
  forall cs rcs, coefficients_form cs -> bt_sorted cs -> Forall (fun vr => rc_wf (snd vr)) rcs ->
  exists cs' rcs', add_coefficients rhs_rcs l cs rcs = Some (cs', rcs') /\
    coefficients_form cs' /\ bt_sorted cs' /\ Forall (fun vr => rc_wf (snd vr)) rcs' /\
    forall env, ranges_hold env rhs_rcs -> ranges_hold env rcs ->
      Forall (fun vc => sym_ok env (snd vc)) l -> Forall (fun vc => sym_ok env (snd vc)) cs ->
      Forall (fun vc => sym_ok env (snd vc)) cs' /\ ranges_hold env rcs' /\
      eqm modulus (sym_sum env cs') (sym_sum env cs + sym_sum env l).
Proof.
  intros Hrw Hl. induction l as [|[v c] l IH]; intros cs rcs Hcs Hs Hw; cbn [add_coefficients].
  - exists cs, rcs. do 4 (split; [easy|]). intros env _ Hh _ Hok. repeat (split; [easy|]). cbn. eqm_lia.
  - inversion Hl as [|? ? Hc Hl']; subst. cbn in Hc.
    destruct (entry_coefficient_spec v c cs Hc Hcs Hs) as (cs1 & -> & Hf1 & Hs1 & Hv1).
    cbn [mbind option_bind].
    assert (Hr : exists rcs1, match bt_get v rhs_rcs with
        | Some rr => bt_entry v (fun rc => rc_conjunction rc rr) rr rcs
        | None => Some rcs end = Some rcs1 /\ Forall (fun vr => rc_wf (snd vr)) rcs1 /\
        forall env, ranges_hold env rhs_rcs -> ranges_hold env rcs -> ranges_hold env rcs1).
    { destruct (bt_get v rhs_rcs) as [rr|] eqn:Eg; [|eauto].
      destruct (entry_range_spec v rr rcs) as (rcs1 & He & Hw1 & Hh1); [exact (ranges_wf_get _ _ _ Hrw Eg)|exact Hw|].
      exists rcs1. split; [exact He|]. split; [exact Hw1|]. intros env Hh Hh'.
      apply Hh1; [exact (ranges_hold_get _ _ _ _ Hh Eg)|exact Hh']. }
    destruct Hr as (rcs1 & -> & Hw1 & Hh1). cbn [mbind option_bind].
    destruct (IH Hl' cs1 rcs1 Hf1 Hs1 Hw1) as (cs' & rcs' & -> & Hf' & Hs' & Hw' & Hv').
    exists cs', rcs'. do 4 (split; [easy|]). intros env Hh Hh' Hok Hok'.
    inversion Hok as [|? ? Hokc Hokl]; subst. destruct (Hv1 env Hokc Hok') as [Hok1 Hsum1].
    destruct (Hv' env Hh (Hh1 env Hh Hh') Hokl Hok1) as (Hok2 & Hh2 & Hsum2).
    repeat (split; [easy|]). rewrite Hsum2, Hsum1. unfold sym_sum. cbn. eqm_lia.
Qed.

(** The outcome of an operation: defined, in form, and valid with value [z env]. *)
Definition as_result (r : option (AffineSymbolicExpression T V)) (P : (V -> T) -> Prop)
  (z : (V -> T) -> Z) : Prop :=
  exists e, r = Some e /\ as_form e /\
    forall env, P env -> as_ok env e /\ eqm modulus (as_val env e) (z env).

Lemma as_add_spec e1 e2 : as_form e1 -> as_form e2 ->
  as_result (as_add e1 e2) (fun env => as_ok env e1 /\ as_ok env e2)
    (fun env => as_val env e1 + as_val env e2).
Proof.
  intros (Hs1 & Hf1 & _ & Ho1 & Hr1) (_ & Hf2 & _ & Ho2 & Hr2). unfold as_add.
  destruct (add_coefficients_spec _ _ Hr2 Hf2 _ _ Hf1 Hs1 Hr1) as (cs & rcs & -> & Hcf & Hcs & Hrw & Hv).
  cbn [mbind option_bind]. destruct (sym_add_spec _ _ Ho1 Ho2) as (o & Ho & Hof & _).
  rewrite Ho. cbn [mbind option_bind]. eexists. split; [reflexivity|]. split.
  - unfold as_form; cbn [coefficients sym_offset range_constraints].
    split; [now apply bt_sorted_filter|]. unfold coefficients_form in *. rewrite !List.Forall_forall in *.
    split; [intros vc [Hin _]%List.filter_In; now apply Hcf|].
    split; [intros vc [_ Hz]%List.filter_In; now destruct (is_known_zero (snd vc))|easy].
  - intros env [(Hok1 & Hoo1 & Hrr1) (Hok2 & Hoo2 & Hrr2)]. destruct (Hv env Hrr2 Hrr1 Hok2 Hok1) as (Hok & Hh & Hsum).
    destruct (sym_add_val env _ _ _ Ho1 Ho2 Ho Hoo1 Hoo2) as [Hoo Hval].
    unfold as_ok, as_val; cbn [coefficients sym_offset range_constraints]. split.
    + split; [|easy]. rewrite List.Forall_forall in *. intros vc [Hin _]%List.filter_In. now apply Hok.
    + rewrite sym_sum_filter by exact Hok. rewrite Hsum, Hval. eqm_lia.
Qed.

(** Mapping the coefficients by an operation that multiplies their values by [k]. *)
Lemma bt_map_coefficients (f : SymbolicExpression T V -> option (SymbolicExpression T V))
  (P : (V -> T) -> Prop) (k : (V -> T) -> Z) l :
  coefficients_form l -> Forall (fun vc => is_known_zero (snd vc) = false) l ->
  (forall c, sym_form c -> exists r, f c = Some r /\ sym_form r /\
     (is_known_zero c = false -> is_known_zero r = false) /\
     forall env, P env -> sym_ok env c ->
       sym_ok env r /\ eqm modulus (sym_val env r) (sym_val env c * k env)) ->
  exists l', bt_map f l = Some l' /\ coefficients_form l' /\
    Forall (fun vc => is_known_zero (snd vc) = false) l' /\ map fst l' = map fst l /\
    forall env, P env -> Forall (fun vc => sym_ok env (snd vc)) l ->
      Forall (fun vc => sym_ok env (snd vc)) l' /\ eqm modulus (sym_sum env l') (sym_sum env l * k env).
Proof.
  intros Hl Hz Hf. induction l as [|[v c] l IH]; cbn [bt_map].
  - exists []. do 3 (split; [constructor|]). split; [reflexivity|]. intros env _ _. split; [constructor|]. cbn. eqm_lia.
  - inversion Hl as [|? ? Hc Hl']; inversion Hz as [|? ? Hcz Hz']; subst.
    destruct (Hf c Hc) as (r & -> & Hr & Hrz & Hrv). cbn [mbind option_bind].
    destruct (IH Hl' Hz') as (l' & -> & Hlf & Hlz & Hk & Hlv). cbn [mbind option_bind].
    exists ((v, r) :: l'). split; [reflexivity|]. split; [now constructor|].
    split; [constructor; cbn; auto|]. split; [cbn; now rewrite Hk|]. intros env HP Hok.
    inversion Hok as [|? ? Hokc Hokl]; subst. destruct (Hrv env HP Hokc) as [Hrok Hrval].
    destruct (Hlv env HP Hokl) as [Hlok Hlval]. split; [now constructor|].
    unfold sym_sum in *. cbn [foldr fst snd]. rewrite Hrval, Hlval. eqm_lia.
Qed.

Lemma as_neg_spec e : as_form e ->
  as_result (as_neg e) (fun env => as_ok env e) (fun env => - as_val env e).
Proof.
  intros (Hs & Hf & Hz & Ho & Hr). unfold as_neg.
  destruct (bt_map_coefficients sym_neg (fun _ => True) (fun _ => -1) _ Hf Hz) as (cs & -> & Hcf & Hcz & Hk & Hcv).
  { intros c Hc. destruct (sym_neg_spec c Hc) as (r & Hr' & Hrf & _). exists r. split; [exact Hr'|].
    split; [exact Hrf|]. split; [now apply sym_neg_known_zero|]. intros env _ Hok.
    destruct (sym_neg_val env c r Hc Hr' Hok) as [Hrok Hval]. split; [exact Hrok|]. rewrite Hval. eqm_lia. }
  cbn [mbind option_bind]. destruct (sym_neg_spec _ Ho) as (o & Ho' & Hof & _). rewrite Ho'.
  cbn [mbind option_bind]. eexists. split; [reflexivity|]. split.
  - split; [cbn; apply bt_sorted_keys; rewrite Hk; now apply bt_sorted_keys|easy].
  - intros env (Hok & Hoo & Hh). destruct (Hcv env I Hok) as [Hcok Hsum].
    destruct (sym_neg_val env _ _ Ho Ho' Hoo) as [Hook Hval]. split; [easy|].
    unfold as_val. cbn [coefficients sym_offset]. rewrite Hsum, Hval. eqm_lia.
Qed.

Lemma as_mul_spec e (factor : SymbolicExpression T V) : as_form e -> sym_form factor ->
  as_result (as_mul e factor) (fun env => as_ok env e /\ sym_ok env factor)
    (fun env => as_val env e * sym_val env factor).
Proof.
  intros (Hs & Hf & Hz & Ho & Hr) Hff. unfold as_mul. destruct (is_known_zero factor) eqn:Ez.
  { eexists. split; [reflexivity|]. split; [repeat (split; [constructor|]); constructor|].
    intros env [_ (x & Hx & ->)%sym_ok_is]. rewrite (is_known_zero_is env factor x Ez Hx), Z.mul_0_r.
    split; [split; [constructor|]; split; [apply sym_ok_concrete|constructor]|].
    unfold as_val, sym_val. cbn. rewrite f_zero_int. reflexivity. }
  destruct (bt_map_coefficients (fun c => sym_mul c factor) (fun env => sym_ok env factor)
    (fun env => sym_val env factor) _ Hf Hz) as (cs & -> & Hcf & Hcz & Hk & Hcv).
  { intros c Hc. destruct (sym_mul_spec c factor Hc Hff) as (r & Hr' & Hrf & Hrz & _). exists r.
    split; [exact Hr'|]. split; [exact Hrf|]. split; [auto|]. intros env Hok Hok'.
    now apply (sym_mul_val env c factor r). }
  cbn [mbind option_bind]. destruct (sym_mul_spec _ _ Ho Hff) as (o & Ho' & Hof & _). rewrite Ho'.
  cbn [mbind option_bind]. eexists. split; [reflexivity|]. split.
  - split; [cbn; apply bt_sorted_keys; rewrite Hk; now apply bt_sorted_keys|easy].
  - intros env [(Hok & Hoo & Hh) Hfok]. destruct (Hcv env Hfok Hok) as [Hcok Hsum].
    destruct (sym_mul_val env _ _ _ Ho Hff Ho' Hoo Hfok) as [Hook Hval]. split; [easy|].
    unfold as_val. cbn [coefficients sym_offset]. rewrite Hsum, Hval. eqm_lia.
Qed.

Lemma as_sub_spec e1 e2 : as_form e1 -> as_form e2 ->
  as_result (as_sub e1 e2) (fun env => as_ok env e1 /\ as_ok env e2)
    (fun env => as_val env e1 - as_val env e2).
Proof.
  intros H1 H2. unfold as_sub. destruct (as_neg_spec e2 H2) as (n & -> & Hn & Hv). cbn [mbind option_bind].
  destruct (as_add_spec e1 n H1 Hn) as (r & Hr & Hrf & Hrv). exists r. split; [exact Hr|]. split; [exact Hrf|].
  intros env [Hok1 Hok2]. destruct (Hv env Hok2) as [Hnok Hval]. destruct (Hrv env (conj Hok1 Hnok)) as [Hrok Hval'].
  split; [exact Hrok|]. rewrite Hval', Hval. eqm_lia.
Qed.

End Operators.
