(* ===== verification/AffineSymbolicSolver.v ===== *)
(** * Soundness of the JIT equation solver

    The solver of [AffineSymbolic.v] against the meaning of its equation: the effects it
    emits hold in every assignment that solves the equation and respects the range
    constraints, and an error is reported only when there is none. *)

From stdpp Require Import base list option.
From Stdlib Require Import ZArith Lia Sorted.
From S2P Require Import Prelude Goldilocks Field RangeConstraints EvalResult AffineExpression.
From S2P Require Import AffineSolver SymbolicExpr Effect AffineSymbolic.

Section Solver.
Context {T V : Type} `{FL : FieldLaws T} `{OL : OrdLaws V}.
Implicit Types (e : AffineSymbolicExpression T V) (env : V -> T)
  (l : list (V * SymbolicExpression T V)) (rcs : list (V * RangeConstraint T)).

(** [r] holds in every valid solution of [e = 0]. *)
Definition sym_entails e (r : sum (ProcessResult T V) SolveError) : Prop :=
  forall env, as_ok env e -> as_zero env e ->
    exists p, r = inl p /\ Forall (effect_holds env) (effects p).

Lemma entails_empty e : sym_entails e (inl result_empty).
Proof. intros env _ _. eexists. split; [reflexivity|constructor]. Qed.

(** ** One unknown *)

Lemma quotient_effect env (v : V) (coeff offset negated value : SymbolicExpression T V) :
  sym_form coeff -> sym_form offset -> is_known_zero coeff = false ->
  sym_neg coeff = Some negated -> field_div offset negated = Some value ->
  sym_ok env coeff -> sym_ok env offset -> sym_val env coeff <> 0 ->
  eqm modulus (sym_val env coeff * to_integer (env v) + sym_val env offset) 0 ->
  effect_holds env (AssignmentE v value).
Proof.
  intros Hc Ho Hz Hn Hd (x & Hx & Hxv)%sym_ok_is (y & Hy & Hyv)%sym_ok_is Hx0 Hm.
  rewrite Hxv in Hx0, Hm. rewrite Hyv in Hm.
  destruct (sym_neg_spec coeff Hc) as (n' & Hn' & Hnf & _ & Hns). rewrite Hn in Hn'. injection Hn' as <-.
  destruct (field_div_spec offset negated Ho Hnf) as (v' & Hv' & _ & Hvs);
    [now apply (sym_neg_known_zero coeff)|].
  rewrite Hd in Hv'. injection Hv' as <-.
  assert (Hq : f_div y (f_neg x) = Some (env v)).
  { apply f_div_unique; [now apply f_neg_nonzero|]. apply f_eqm_eq. feqm.
    destruct Hm as [k Hk]. exists (- k). lia. }
  apply (Hvs env y (f_neg x) (env v)); auto using f_neg_nonzero.
Qed.

Lemma solve_single_spec e v coeff : as_form e -> coefficients e = [(v, coeff)] ->
  exists r, solve_single v coeff (sym_offset e) = Some r /\ sym_entails e r.
Proof.
  intros (_ & Hf & Hz & Ho & _) Hc. rewrite Hc in *.
  inversion Hf as [|? ? Hcf _]; inversion Hz as [|? ? Hcz _]; subst. cbn in Hcf, Hcz.
  unfold solve_single. rewrite Hcz. cbn [negb assert_that mbind option_bind].
  destruct (sym_neg_spec coeff Hcf) as (n & Hn & Hnf & _). rewrite Hn. cbn [mbind option_bind].
  destruct (field_div_spec (sym_offset e) n Ho Hnf) as (q & Hq & _); [now apply (sym_neg_known_zero coeff)|].
  rewrite Hq. cbn [mbind option_bind].
  assert (Heff : forall env, as_ok env e -> as_zero env e -> sym_val env coeff <> 0 ->
    effect_holds env (AssignmentE v q)).
  { intros env (Hok & Hoo & _) Hzero Hnz. rewrite Hc in Hok. inversion Hok; subst.
    apply (quotient_effect env v coeff (sym_offset e) n q); try easy.
    unfold as_zero, as_val, sym_sum in Hzero. rewrite Hc in Hzero. cbn [foldr fst snd] in Hzero.
    rewrite Z.add_0_r in Hzero. exact Hzero. }
  destruct (is_known_nonzero coeff) eqn:En; [|destruct (is_known_nonzero (sym_offset e)) eqn:Eo].
  - eexists. split; [reflexivity|]. intros env Hok Hzero. eexists. split; [reflexivity|].
    constructor; [|constructor]. apply Heff; [easy..|]. destruct Hok as (Hok & _). rewrite Hc in Hok.
    inversion Hok as [|? ? Hcok _]; subst. destruct (sym_ok_is env coeff Hcok) as (x & Hx & ->).
    eapply is_known_nonzero_is; eauto.
  - eexists. split; [reflexivity|]. intros env Hok Hzero. eexists. split; [reflexivity|].
    assert (Hnz : sym_val env coeff <> 0).
    { intros Hc0. destruct Hok as (_ & Hoo & _). destruct (sym_ok_is env _ Hoo) as (y & Hy & Hyv).
      apply (is_known_nonzero_is env _ _ Eo Hy). unfold as_zero, as_val, sym_sum in Hzero.
      rewrite Hc in Hzero. cbn [foldr fst snd] in Hzero. rewrite Hc0, Hyv in Hzero.
      range y. pose proof (modulus_pos (T:=T)). apply eqm_small in Hzero; lia. }
    constructor; [|constructor; [now apply Heff|constructor]].
    destruct Hok as (Hok & _). rewrite Hc in Hok. inversion Hok as [|? ? Hcok _]; subst.
    destruct (sym_ok_is env coeff Hcok) as (x & Hx & Hxv). exists x, f_zero.
    split; [apply Hx|]. split; [reflexivity|]. cbn. unfold f_eqb. apply Z.eqb_neq.
    rewrite f_zero_int. congruence.
  - eexists. split; [reflexivity|apply entails_empty].
Qed.

(** ** Transferring range constraints *)

(** The value of a constant coefficient. *)
Definition number_of (c : SymbolicExpression T V) : T := default f_zero (try_to_number c).

Definition sym_term_values l env : list T := map (fun vc => f_mul (env (fst vc)) (number_of (snd vc))) l.

Lemma sym_summands_spec rcs l : Forall (fun vr => rc_wf (snd vr)) rcs ->
  exists o, sym_summands rcs l = Some o /\
    forall cs, o = Some cs -> Forall rc_wf cs /\
      forall env, ranges_hold env rcs -> Forall2 rc_allows cs (sym_term_values l env) /\
        eqm modulus (foldr (fun y s => to_integer y + s) 0 (sym_term_values l env)) (sym_sum env l).
Proof.
  intros Hwf. induction l as [|[v c] l (o & Ho & IH)]; cbn [sym_summands].
  - eexists. split; [reflexivity|]. intros cs [= <-]. split; [constructor|]. intros env _. split; [constructor|reflexivity].
  - destruct (try_to_number c) as [n|] eqn:En; cbn [mbind option_bind]; [|eexists; split; [reflexivity|discriminate]].
    destruct (bt_get v rcs) as [rc|] eqn:Eg; cbn [mbind option_bind]; [|eexists; split; [reflexivity|discriminate]].
    destruct (rc_multiple_sound rc n (ranges_wf_get _ _ _ Hwf Eg)) as (m & -> & Hm & Hs). cbn [mbind option_bind].
    rewrite Ho. cbn [mbind option_bind]. eexists. split; [reflexivity|].
    destruct o as [cs|]; [|discriminate]. destruct (IH cs eq_refl) as [IHw IHs].
    intros ? [= <-]. split; [now constructor|]. intros env Hk. destruct (IHs env Hk) as [IHa IHv].
    destruct c; try discriminate. injection En as ->. split.
    + constructor; [|exact IHa]. apply Hs. exact (ranges_hold_get _ _ _ _ Hk Eg).
    + unfold sym_sum in *. cbn [foldr fst snd sym_term_values map]. fold (sym_term_values l env).
      rewrite IHv. unfold sym_val. cbn. feqm. eqm_lia.
Qed.

Lemma reduce_with_last_spec (cs : list (RangeConstraint T)) last : Forall rc_wf cs -> rc_wf last ->
  exists r, reduce_with_last cs last = Some r /\ rc_wf r /\
    forall xs y, Forall2 rc_allows cs xs -> rc_allows last y -> exists s, rc_allows r s /\
      eqm modulus (to_integer s) (foldr (fun y s => to_integer y + s) 0 xs + to_integer y).
Proof.
  intros Hcs Hl. destruct cs as [|c cs]; cbn [reduce_with_last].
  - exists last. split; [reflexivity|]. split; [exact Hl|]. intros xs y Hxs Hy. inversion Hxs; subst.
    exists y. split; [exact Hy|]. cbn. eqm_lia.
  - inversion Hcs; subst. destruct (reduce_sum_spec (cs ++ [last]) c) as (r & -> & Hr & Hs); [easy| |].
    { apply Forall_app. split; [easy|]. now constructor. }
    exists r. split; [reflexivity|]. split; [exact Hr|]. intros xs y Hxs Hy.
    inversion Hxs as [|? x ? xs' Hx Hxs']; subst. exists (f_sum x (xs' ++ [y])). split.
    + apply Hs; [exact Hx|]. apply Forall2_app; [exact Hxs'|]. now constructor.
    + rewrite f_sum_eqm, fold_values_app. cbn. eqm_lia.
Qed.

Lemma unit_coefficient (c : SymbolicExpression T V) : is_known_one c || is_known_minus_one c = true ->
  exists n, c = Concrete n /\ f_eqb n (f_neg f_one) || f_is_one n = true /\ is_known_one c = f_is_one n.
Proof.
  destruct c as [n| | | |]; try discriminate. intros Hc. exists n. split; [reflexivity|].
  split; [|reflexivity]. now rewrite orb_comm.
Qed.

Lemma transfer_constraints_spec e : as_form e ->
  exists o, transfer_constraints e = Some o /\
    forall eff env, o = Some eff -> as_ok env e -> as_zero env e -> effect_holds env eff.
Proof.
  intros (Hs & Hf & _ & Ho & Hr). unfold transfer_constraints.
  destruct (List.filter _ (coefficients e)) as [|first others] eqn:Ef;
    [eexists; split; [reflexivity|discriminate]|].
  pose proof (max_by_key_in (fun vc => sym_least_constrained (range_constraints e) (fst vc)) others first) as Hin.
  rewrite <- Ef in Hin. destruct (max_by_key _ first others) as [sf c].
  apply List.filter_In in Hin as [Hin Hunit]. apply unit_coefficient in Hunit as (n & Hc & Hunit & Hone).
  cbn [snd] in Hc, Hone. subst c.
  set (rest := List.filter (fun vc => negb (k_eqb (fst vc) sf)) (coefficients e)).
  destruct (sym_summands_spec (range_constraints e) rest Hr) as (o & -> & Hcs). cbn [mbind option_bind].
  destruct o as [cs|]; [|eexists; split; [reflexivity|discriminate]].
  destruct (Hcs cs eq_refl) as [Hcw Hcv]. clear Hcs.
  destruct (reduce_with_last_spec cs _ Hcw (sym_range_constraint_wf _ Ho)) as (con & -> & Hconw & Hcon).
  cbn [mbind option_bind].
  assert (Hval : forall env, as_ok env e -> as_zero env e ->
    exists s, rc_allows con s /\ env sf = if f_is_one n then f_neg s else s).
  { intros env (Hok & Hoo & Hh) Hz. destruct (Hcv env Hh) as [Ha Hsum].
    destruct (sym_ok_is env _ Hoo) as (y & Hy & Hyv).
    destruct (Hcon _ y Ha (sym_is_allows _ _ _ Hy)) as (s & Hsa & Hsv). exists s. split; [exact Hsa|].
    apply solve_for_unit; [exact Hunit|]. rewrite Hsv, Hsum.
    transitivity (as_val env e); [|exact Hz]. unfold as_val.
    rewrite (sym_sum_split env (coefficients e) (fun vc => k_eqb (fst vc) sf)), (bt_filter_key _ _ _ Hs Hin), Hyv.
    unfold rest, sym_sum, sym_val. cbn. eqm_lia. }
  rewrite Hone. destruct (f_is_one n).
  - destruct (rc_neg_sound con) as (con' & -> & _ & Hs'). cbn [mbind option_bind].
    eexists. split; [reflexivity|]. intros eff env [= <-] Hok Hz. destruct (Hval env Hok Hz) as (s & Hsa & Hsv).
    cbn. rewrite Hsv. now apply Hs'.
  - cbn [mbind option_bind]. eexists. split; [reflexivity|]. intros eff env [= <-] Hok Hz.
    destruct (Hval env Hok Hz) as (s & Hsa & Hsv). cbn. now rewrite Hsv.
Qed.

End Solver.

(** ** Bit decomposition *)

(** Pairwise disjoint masks, each disjoint from [c]. *)
Fixpoint masks_disjoint (c : Z) (ms : list Z) : Prop :=
  match ms with
  | [] => True
  | m :: ms' => Z.land m c = 0 /\ masks_disjoint (Z.lor c m) ms'
  end.

Definition parts_sum (ps : list (Z * Z)) : Z := foldr (fun pm s => fst pm + s) 0 ps.

Lemma masks_disjoint_all ms : forall c, masks_disjoint c ms -> Forall (fun m => Z.land m c = 0) ms.
Proof.
  induction ms as [|m ms IH]; intros c; [constructor|]. intros [Hm Hms]. constructor; [exact Hm|].
  eapply List.Forall_impl; [|exact (IH _ Hms)]. intros m' Hm'. cbn in Hm'.
  rewrite Z.land_lor_distr_r, Z.lor_eq_0_iff in Hm'. apply Hm'.
Qed.

(** A sum of numbers in disjoint masks is their union: masking it gives them back. *)
Lemma masked_parts ps : forall c, Forall (fun pm => submask (fst pm) (snd pm)) ps ->
  masks_disjoint c (map snd ps) ->
  Z.land (parts_sum ps) c = 0 /\
  submask (parts_sum ps) (fold_left Z.lor (map snd ps) c) /\
  submask c (fold_left Z.lor (map snd ps) c) /\
  Forall (fun pm => Z.land (parts_sum ps) (snd pm) = fst pm) ps.
Proof.
  induction ps as [|[p m] ps IH]; intros c Hsub Hdis; cbn [map fold_left parts_sum foldr fst snd].
  - repeat split; auto with powdr; constructor.
  - inversion Hsub as [|? ? Hp Hps]; subst. destruct Hdis as [Hm Hms]. cbn [fst snd] in *.
    destruct (IH _ Hps Hms) as (I1 & I2 & I3 & I4). fold (parts_sum ps) in *.
    rewrite Z.land_lor_distr_r, Z.lor_eq_0_iff in I1. destruct I1 as [I1c I1m].
    assert (HpS : Z.land p (parts_sum ps) = 0).
    { apply (disjoint_submask _ _ m Hp). now rewrite Z.land_comm. }
    rewrite (add_disjoint _ _ HpS). split; [|split; [|split]].
    + rewrite Z.land_lor_distr_l, I1c, Z.lor_0_r. now apply (disjoint_submask _ _ m).
    + rewrite submask_testbit in Hp, I2, I3 |- *. intros i. rewrite Z.lor_spec, orb_true_iff.
      intros [Hi|Hi]; [|now apply I2]. apply I3. rewrite Z.lor_spec, (Hp i Hi). apply orb_true_r.
    + eapply submask_trans; [|exact I3]. auto with powdr.
    + constructor; [cbn; now apply land_lor_part|].
      pose proof (masks_disjoint_all _ _ Hms) as Hall. rewrite List.Forall_map in Hall.
      rewrite List.Forall_forall in *. intros [p' m'] Hin. specialize (I4 _ Hin). specialize (Hall _ Hin).
      cbn in *. rewrite Z.land_lor_distr_l, I4. rewrite Z.land_lor_distr_r, Z.lor_eq_0_iff in Hall.
      rewrite (disjoint_submask p m' m Hp); [apply Z.lor_0_l|]. rewrite Z.land_comm. apply Hall.
Qed.

Lemma submask_ldiff a b : submask a b -> Z.ldiff a b = 0.
Proof.
  intros Hs. apply Z.bits_inj'. intros i Hi. rewrite Z.ldiff_spec, Z.bits_0.
  destruct (Z.testbit a i) eqn:E; [|reflexivity]. now rewrite (proj1 (submask_testbit a b) Hs i E).
Qed.

Section BitDecomposition.
Context {T V : Type} `{FL : FieldLaws T} `{OL : OrdLaws V}.
Implicit Types (e : AffineSymbolicExpression T V) (env : V -> T)
  (l : list (V * SymbolicExpression T V)) (rcs : list (V * RangeConstraint T))
  (offset : SymbolicExpression T V) (ts : list (V * T * RangeConstraint T)).

(** The integer whose bits are distributed: minus the offset. *)
Definition neg_offset env offset : Z := to_integer (f_neg (default f_zero (sym_eval env offset))).

Lemma masked_effect env offset negated (v : V) (c : T) m value :
  sym_form offset -> in_width NUM_BITS m -> to_integer c <> 0 ->
  sym_neg offset = Some negated ->
  integer_div (sym_bitand negated m) (Concrete c) = Some value ->
  sym_ok env offset -> Z.land (neg_offset env offset) m = to_integer c * to_integer (env v) ->
  effect_holds env (AssignmentE v value).
Proof.
  intros Ho Hm Hc Hn Hd (x & Hx & _)%sym_ok_is Hland.
  destruct (sym_neg_spec offset Ho) as (n' & Hn' & Hnf & _ & Hns). rewrite Hn in Hn'. injection Hn' as <-.
  destruct (sym_bitand_spec negated m Hnf Hm) as [Hbf Hbs].
  assert (Hcz : is_known_zero (T:=T) (S:=V) (Concrete c) = false) by now apply Z.eqb_neq.
  destruct (integer_div_spec _ (Concrete c) Hbf I Hcz) as (v' & Hv' & _ & Hvs). rewrite Hd in Hv'. injection Hv' as <-.
  unfold neg_offset in Hland. rewrite (proj2 Hx) in Hland. cbn [default from_option id] in Hland.
  rewrite <- bit_eval_int in Hland by easy.
  apply (Hvs env (bit_eval And (f_neg x) m) c (env v)); auto.
  - now apply sym_is_concrete.
  - right; right. exists (to_integer (env v)). lia.
  - cbn [binary_eval]. replace (to_integer c =? 0) with false by (symmetry; now apply Z.eqb_neq).
    cbn [negb assert_that mbind option_bind]. rewrite Hland, Z.mul_comm, Z.div_mul by easy.
    destruct (from_biguint_spec (T:=T) _ (to_integer_range (env v))) as (w & -> & Hw). f_equal.
    now apply to_integer_inj.
Qed.

(** The loop, with the masks it used. *)
Lemma decompose_spec offset ts : sym_form offset ->
  Forall (fun t => rc_wf (snd t) /\ to_integer (snd (fst t)) <> 0) ts ->
  forall c effs, 0 <= c -> exists o, decompose offset ts c effs = Some o /\
    forall c' effs', o = Some (c', effs') -> exists items news,
      map fst items = ts /\ effs' = effs ++ news /\ masks_disjoint c (map snd items) /\
      c' = fold_left Z.lor (map snd items) c /\ 0 <= c' /\
      Forall (fun tm => exists r, rc_multiple (snd (fst tm)) (snd (fst (fst tm))) = Some r /\ rc_mask r = snd tm) items /\
      forall env, sym_ok env offset ->
        Forall (fun tm => Z.land (neg_offset env offset) (snd tm) =
          to_integer (snd (fst (fst tm))) * to_integer (env (fst (fst (fst tm))))) items ->
        Forall (effect_holds env) news.
Proof.
  intros Ho Hts. induction ts as [|[[v c0] rc] ts IH]; intros c effs Hc; cbn [decompose].
  - eexists. split; [reflexivity|]. intros c' effs' [= <- <-]. exists [], []. cbn.
    rewrite app_nil_r. do 5 (split; [easy|]). split; constructor.
  - inversion Hts as [|? ? [Hw Hnz] Hts']; subst. cbn in Hw, Hnz.
    destruct (rc_multiple_sound rc c0 Hw) as (m & Hm & Hmw & _). rewrite Hm. cbn [mbind option_bind].
    destruct (Z.eqb_spec (Z.land (rc_mask m) c) 0) as [Hd|Hd]; cbn [negb];
      [|eexists; split; [reflexivity|discriminate]].
    destruct (sym_neg_spec offset Ho) as (neg & Hn & Hnf & _). rewrite Hn. cbn [mbind option_bind].
    destruct (sym_bitand_spec neg (rc_mask m) Hnf Hmw) as [Hbf _].
    destruct (integer_div_spec _ (Concrete c0) Hbf I) as (value & Hv & _); [now apply Z.eqb_neq|].
    rewrite Hv. cbn [mbind option_bind].
    destruct (IH Hts' (Z.lor c (rc_mask m)) (effs ++ [AssignmentE v value])) as (o & -> & Hres).
    { apply Z.lor_nonneg. split; [exact Hc|apply Hmw]. }
    eexists. split; [reflexivity|]. intros c' effs' ->.
    destruct (Hres c' effs' eq_refl) as (items & news & Hi & He & Hdis & Hc' & Hc0 & Hmul & Heff).
    exists ((v, c0, rc, rc_mask m) :: items), (AssignmentE v value :: news). cbn [map fst snd masks_disjoint fold_left].
    split; [now rewrite Hi|]. split; [rewrite He, <- app_assoc; reflexivity|].
    do 3 (split; [easy|]). split; [constructor; [cbn; eauto|exact Hmul]|].
    intros env Hok Hall. inversion Hall as [|? ? Hhd Htl]; subst. cbn [fst snd] in Hhd.
    constructor; [|now apply Heff]. apply (masked_effect env offset neg v c0 (rc_mask m)); auto.
Qed.

(** No product of a constant coefficient and an allowed value wraps unnoticed. *)
Definition sym_no_wrap e : Prop :=
  Forall (fun vc => forall n rc, try_to_number (snd vc) = Some n ->
    bt_get (fst vc) (range_constraints e) = Some rc -> term_no_wrap n rc) (coefficients e).

Lemma constrained_coefficients_spec rcs l ts :
  constrained_coefficients rcs l = Some ts ->
  Forall (fun t => bt_get (fst (fst t)) rcs = Some (snd t) /\ In (fst (fst t), Concrete (snd (fst t))) l) ts /\
  forall env, sym_sum env l = terms_sum env ts.
Proof.
  revert ts. induction l as [|[v c] l IH]; cbn; intros ts Hts.
  - injection Hts as <-. split; [constructor|reflexivity].
  - apply bind_inv in Hts as (n & Hn & Hts). apply bind_inv in Hts as (rc & Hrc & Hts).
    apply bind_inv in Hts as (rest & Hrest & [= <-]). destruct (IH rest Hrest) as [IHf IHs].
    destruct c; try discriminate. injection Hn as ->. split.
    + constructor; [cbn; auto|]. eapply List.Forall_impl; [|exact IHf]. cbn. tauto.
    + intros env. unfold sym_sum, terms_sum, aff_sum in *. cbn [foldr map fst snd]. rewrite IHs. reflexivity.
Qed.

End BitDecomposition.

Section WholeSolver.
Context {T V : Type} `{FL : FieldLaws T} `{OL : OrdLaws V}.
Implicit Types (e : AffineSymbolicExpression T V) (env : V -> T)
  (ts : list (V * T * RangeConstraint T)) (items : list (V * T * RangeConstraint T * Z)).

Definition item_part env (tm : V * T * RangeConstraint T * Z) : Z * Z :=
  (to_integer (snd (fst (fst tm))) * to_integer (env (fst (fst (fst tm)))), snd tm).

Lemma item_parts_sum env items : parts_sum (map (item_part env) items) = terms_sum env (map fst items).
Proof.
  unfold parts_sum, terms_sum, aff_sum.
  induction items as [|[[[v c] rc] m] items IH]; cbn [map foldr fst snd item_part]; [reflexivity|].
  now rewrite IH.
Qed.

(** When nothing wraps, the offset is the union of the parts. *)
Lemma decomposition_exact env items N : 0 <= N < modulus ->
  fold_left Z.lor (map snd items) 0 < modulus -> 0 <= fold_left Z.lor (map snd items) 0 ->
  masks_disjoint 0 (map snd items) ->
  Forall (fun tm => submask (fst (item_part env tm)) (snd tm)) items ->
  eqm modulus (terms_sum env (map fst items)) N ->
  submask N (fold_left Z.lor (map snd items) 0) /\
  Forall (fun tm => Z.land N (snd tm) = fst (item_part env tm)) items.
Proof.
  intros HN Hlt Hpos Hdis Hsub Heq.
  destruct (masked_parts (map (item_part env) items) 0) as (_ & P2 & _ & P4).
  { now apply List.Forall_map. }
  { rewrite map_map. exact Hdis. }
  rewrite map_map in P2. cbn in P2. rewrite item_parts_sum in *. rewrite List.Forall_map in P4. cbn in P4.
  assert (HS : terms_sum env (map fst items) = N).
  { apply (eqm_small modulus); [|exact HN|exact Heq]. pose proof (terms_sum_nonneg env (map fst items)) as H0'.
    pose proof (submask_le _ _ H0' Hpos P2). lia. }
  rewrite HS in P2, P4. split; [exact P2|exact P4].
Qed.

Lemma mask_in_union (ms : list Z) : forall c m, In m ms -> submask m (fold_left Z.lor ms c).
Proof.
  assert (Hc : forall ms c, submask c (fold_left Z.lor ms c)).
  { induction ms0 as [|m ms0 IH]; intros c; cbn; [auto with powdr|].
    eapply submask_trans; [|apply IH]. auto with powdr. }
  induction ms as [|m' ms IH]; intros c m; [easy|]. cbn. intros [->|Hin]; [|now apply IH].
  eapply submask_trans; [|apply Hc]. auto with powdr.
Qed.

(** The facts about a solution that the bit decomposition relies on. *)
Lemma decomposition_facts e env items : as_form e -> sym_no_wrap e ->
  constrained_coefficients (range_constraints e) (coefficients e) = Some (map fst items) ->
  masks_disjoint 0 (map snd items) ->
  0 <= fold_left Z.lor (map snd items) 0 < modulus ->
  Forall (fun tm => exists r, rc_multiple (snd (fst tm)) (snd (fst (fst tm))) = Some r /\ rc_mask r = snd tm) items ->
  as_ok env e -> as_zero env e ->
  submask (neg_offset env (sym_offset e)) (fold_left Z.lor (map snd items) 0) /\
  Forall (fun tm => Z.land (neg_offset env (sym_offset e)) (snd tm) = fst (item_part env tm)) items.
Proof.
  intros (_ & _ & _ & _ & Hr) Hnw Hcc Hdis [Hpos Hlt] Hmul (Hok & Hoo & Hh) Hz.
  apply constrained_coefficients_spec in Hcc as [Hin Hsum].
  apply decomposition_exact; [apply to_integer_range|exact Hlt|exact Hpos|exact Hdis| |].
  - rewrite List.Forall_map in Hin. unfold sym_no_wrap in Hnw. rewrite List.Forall_forall in *.
    intros [[[v c] rc] m] Htm. specialize (Hin _ Htm) as [Hg Hc]. cbn [fst snd] in Hg, Hc.
    specialize (Hmul _ Htm) as (r & Hr' & Hm). cbn [fst snd] in Hr', Hm. subst m. cbn [fst snd item_part].
    pose proof (ranges_hold_get _ _ _ _ Hh Hg) as Ha.
    assert (Hwrc : rc_wf rc) by (apply bt_get_in in Hg; exact (Hr _ Hg)).
    apply (term_submask env v c rc r Hwrc Hr'). split; [exact Ha|]. cbn [fst snd].
    destruct (Hnw _ Hc c rc eq_refl Hg) as [Hp|(r2 & Hr2 & Hbig)]; [now apply Hp|exfalso].
    rewrite Hr' in Hr2. injection Hr2 as <-.
    assert (Hs : submask (rc_mask r) (fold_left Z.lor (map snd items) 0)).
    { apply mask_in_union. apply (List.in_map snd) in Htm. exact Htm. }
    apply submask_le in Hs; [lia|pose proof (modulus_pos (T:=T)); lia|exact Hpos].
  - rewrite <- Hsum. unfold as_zero, as_val in Hz. unfold neg_offset. feqm.
    destruct Hz as [k Hk]. exists k. unfold sym_val in Hk. lia.
Qed.

Lemma solve_bit_decomposition_spec e : as_form e ->
  exists r, solve_bit_decomposition e = Some r /\ (sym_no_wrap e -> sym_entails e r).
Proof.
  intros Hform. pose proof Hform as (_ & _ & Hz & Ho & Hr). unfold solve_bit_decomposition.
  destruct (constrained_coefficients _ _) as [ts|] eqn:Ets;
    [|eexists; split; [reflexivity|intros _; apply entails_empty]].
  pose proof (constrained_coefficients_spec _ _ _ Ets) as [Hts _].
  destruct (decompose_spec (sym_offset e) ts Ho) with (c := 0) (effs := @nil (Effect T V)) as (o & -> & Hd); [|lia|].
  { rewrite List.Forall_forall in *. intros [[v c] rc] Hin. destruct (Hts _ Hin) as [Hg Hc].
    split; [apply bt_get_in in Hg; exact (Hr _ Hg)|]. specialize (Hz _ Hc). now apply Z.eqb_neq in Hz. }
  cbn [mbind option_bind]. destruct o as [[covered effs]|];
    [|eexists; split; [reflexivity|intros _; apply entails_empty]].
  destruct (Hd covered effs eq_refl) as (items & news & Hi & He & Hdis & Hc & Hc0 & Hmul & Heff).
  cbn in He. subst effs ts. destruct (Z.leb_spec modulus covered) as [Hb|Hb];
    [eexists; split; [reflexivity|intros _; apply entails_empty]|].
  assert (Hfacts : sym_no_wrap e -> forall env, as_ok env e -> as_zero env e ->
    submask (neg_offset env (sym_offset e)) covered /\ Forall (effect_holds env) news).
  { intros Hnw env Hok Hzero.
    destruct (decomposition_facts e env items Hform Hnw Ets Hdis) as [F1 F2]; [lia|exact Hmul|easy..|].
    rewrite <- Hc in F1. split; [exact F1|]. apply Heff; [apply Hok|exact F2]. }
  assert (Hres : forall x : T, submask (to_integer x) covered ->
    Z.land (to_integer x) (bitnot NUM_BITS covered) = 0).
  { intros x Hs. pose proof (NUM_BITS_pos (T:=T)). pose proof (modulus_fits (T:=T)).
    rewrite land_bitnot; [now apply submask_ldiff|lia|apply to_integer_width|unfold in_width; lia]. }
  destruct (try_to_number (sym_offset e)) as [n|] eqn:En.
  - destruct (sym_offset e) as [n'| | | |] eqn:Eo; try discriminate. injection En as ->.
    case_if; (eexists; split; [reflexivity|]); intros Hnw env Hok Hzero;
      destruct (Hfacts Hnw env Hok Hzero) as [F1 F2]; [|eauto].
    now apply (Hres (f_neg n)) in F1.
  - destruct (sym_neg_spec (sym_offset e) Ho) as (neg & Hn & Hnf & _ & Hns). rewrite Hn. cbn [mbind option_bind].
    eexists. split; [reflexivity|]. intros Hnw env Hok Hzero. eexists. split; [reflexivity|].
    destruct (Hfacts Hnw env Hok Hzero) as [F1 F2]. apply Forall_app. split; [exact F2|]. constructor; [|constructor].
    assert (Hw : in_width NUM_BITS (bitnot NUM_BITS covered)).
    { unfold bitnot, in_width. rewrite Z.ones_equiv. pose proof (modulus_fits (T:=T)). lia. }
    destruct (sym_bitand_spec neg _ Hnf Hw) as [_ Hbs]. destruct Hok as (_ & Hoo & _).
    destruct (sym_ok_is env _ Hoo) as (x & Hx & _). specialize (Hbs env _ (Hns env x Hx)).
    exists (bit_eval And (f_neg x) (bitnot NUM_BITS covered)), f_zero. split; [apply Hbs|]. split; [reflexivity|].
    cbn [expected_equal]. apply Z.eqb_eq. rewrite bit_eval_int, f_zero_int by exact Hw.
    apply Hres. unfold neg_offset in F1. now rewrite (proj2 Hx) in F1.
Qed.

End WholeSolver.

Section Main.
Context {T V : Type} `{FL : FieldLaws T} `{OL : OrdLaws V}.
Implicit Types (e : AffineSymbolicExpression T V) (env : V -> T).

(** Neither the equation nor its negation wraps unnoticed. *)
Definition solve_no_wrap e : Prop :=
  sym_no_wrap e /\ forall n, as_neg e = Some n -> sym_no_wrap n.

Lemma entails_negated e n r : as_form e -> as_neg e = Some n -> sym_entails n r -> sym_entails e r.
Proof.
  intros Hf Hn Hr env Hok Hz. destruct (as_neg_spec e Hf) as (n' & Hn' & _ & Hv).
  rewrite Hn in Hn'. injection Hn' as <-. destruct (Hv env Hok) as [Hnok Hval]. apply (Hr env Hnok).
  unfold as_zero in *. rewrite Hval, Hz. reflexivity.
Qed.

(** The last resort: range constraints from the equation and from its negation. *)
Lemma transfer_both_ways e n : as_form e -> as_neg e = Some n -> as_form n ->
  exists r, (t1 ← transfer_constraints e; t2 ← transfer_constraints n;
    Some (inl {| effects := option_list t1 ++ option_list t2; complete := false |})) = Some r /\
    sym_entails e r.
Proof.
  intros Hf Hn Hnf.
  destruct (transfer_constraints_spec e Hf) as (t1 & -> & H1). cbn [mbind option_bind].
  destruct (transfer_constraints_spec n Hnf) as (t2 & -> & H2). cbn [mbind option_bind].
  eexists. split; [reflexivity|]. intros env Hok Hz. eexists. split; [reflexivity|]. cbn [effects].
  destruct (as_neg_spec e Hf) as (n' & Hn' & _ & Hv). rewrite Hn in Hn'. injection Hn' as <-.
  destruct (Hv env Hok) as [Hnok Hval]. apply Forall_app. split.
  - destruct t1 as [eff|]; cbn; [|constructor]. constructor; [|constructor]. now apply (H1 eff env).
  - destruct t2 as [eff|]; cbn; [|constructor]. constructor; [|constructor]. apply (H2 eff env); [easy..|].
    unfold as_zero in *. rewrite Hval, Hz. reflexivity.
Qed.

Lemma sym_solve_spec e : as_form e ->
  exists r, sym_solve e = Some r /\ (solve_no_wrap e -> sym_entails e r).
Proof.
  intros Hf. unfold sym_solve. destruct (coefficients e) as [|[v c] [|vc rest]] eqn:Ec.
  - destruct (is_known_nonzero (sym_offset e)) eqn:En; (eexists; split; [reflexivity|]); intros _ env Hok Hz.
    + exfalso. destruct Hok as (_ & Hoo & _). destruct (sym_ok_is env _ Hoo) as (y & Hy & Hyv).
      apply (is_known_nonzero_is env _ _ En Hy). unfold as_zero, as_val in Hz. rewrite Ec, Hyv in Hz.
      range y. pose proof (modulus_pos (T:=T)). apply eqm_small in Hz; cbn in *; lia.
    + eexists. split; [reflexivity|constructor].
  - destruct (solve_single_spec e v c Hf Ec) as (r & -> & Hr). eauto.
  - clear Ec. destruct (solve_bit_decomposition_spec e Hf) as (r1 & -> & H1). cbn [mbind option_bind].
    destruct r1 as [p1|err]; [|eexists; split; [reflexivity|intros [Hw _]; auto]].
    destruct (complete p1); [eexists; split; [reflexivity|intros [Hw _]; auto]|].
    destruct (as_neg_spec e Hf) as (n & Hn & Hnf & _). rewrite Hn. cbn [mbind option_bind].
    destruct (solve_bit_decomposition_spec n Hnf) as (r2 & -> & H2). cbn [mbind option_bind].
    assert (Hr2 : solve_no_wrap e -> sym_entails e r2).
    { intros [_ Hw]. apply (entails_negated e n); auto. }
    destruct r2 as [p2|err]; [|eauto]. destruct (complete p2); [eauto|].
    destruct (transfer_both_ways e n Hf Hn Hnf) as (r & -> & Hr). eauto.
Qed.

End Main.

(** ** Properties *)

(** Arithmetic on affine symbolic expressions never panics on well-formed operands,
    keeps variables in order without known-zero coefficients, keeps every stored range
    constraint valid, and computes the sum, difference, negation and product. *)
Theorem affine_symbolic_arithmetic {T V} `{FieldLaws T} `{OrdLaws V}
  (e1 e2 : AffineSymbolicExpression T V) (factor : SymbolicExpression T V) :
  as_form e1 -> as_form e2 -> sym_form factor ->
  as_result (as_add e1 e2) (fun env => as_ok env e1 /\ as_ok env e2)
    (fun env => as_val env e1 + as_val env e2) /\
  as_result (as_sub e1 e2) (fun env => as_ok env e1 /\ as_ok env e2)
    (fun env => as_val env e1 - as_val env e2) /\
  as_result (as_neg e1) (fun env => as_ok env e1) (fun env => - as_val env e1) /\
  as_result (as_mul e1 factor) (fun env => as_ok env e1 /\ sym_ok env factor)
    (fun env => as_val env e1 * sym_val env factor).
Proof.
  intros He1 He2 Hf. split; [now apply as_add_spec|]. split; [now apply as_sub_spec|].
  split; [now apply as_neg_spec|now apply as_mul_spec].
Qed.

(** [256 * x1 + x2 - x3] where [x1] and [x2] are unknown bytes and [x3] is known. *)
Definition jit_equation : AffineSymbolicExpression GoldilocksField Z :=
  {| coefficients := [(1, Concrete (gl 256)); (2, Concrete (gl 1))];
     sym_offset := UnaryOperation Neg (Symbol 3 (rc_from_mask 0xffff)) rc_unconstrained;
     range_constraints := [(1, rc_from_mask 0xff); (2, rc_from_mask 0xff)] |}.

Lemma jit_equation_form : as_form jit_equation.
Proof.
  split; [apply bt_sorted_keys; repeat constructor|].
  split; [repeat constructor|]. split; [repeat constructor|].
  split; [split; [split; vm_compute; congruence|split; [reflexivity|split; vm_compute; congruence]]|].
  constructor; [split; vm_compute; congruence|].
  constructor; [split; vm_compute; congruence|constructor].
Qed.

Lemma affine_symbolic_arithmetic_witness :
  exists r, as_sub jit_equation jit_equation = Some r /\ as_form r.
Proof.
  destruct (affine_symbolic_arithmetic jit_equation jit_equation (Concrete (gl 3)))
    as (_ & (r & Hr & Hf & _) & _); [exact jit_equation_form|exact jit_equation_form|exact I|].
  exists r. split; [exact Hr|exact Hf].
Defined.

(** C29: Solving an equation never panics on a well-formed expression. As long as no
    product wraps unnoticed in the bit decomposition, every assignment, range constraint
    and assertion in the returned code holds in every valid solution of the equation
    (executing the code computes the solution), and an error is reported only if there
    is no solution. *)
Theorem jit_solve_sound {T V} `{FieldLaws T} `{OrdLaws V} (e : AffineSymbolicExpression T V) :
  as_form e ->
  exists r, sym_solve e = Some r /\
    (solve_no_wrap e -> forall env, as_ok env e -> as_zero env e ->
      exists p, r = inl p /\ Forall (effect_holds env) (effects p)).
Proof. apply sym_solve_spec. Qed.

Lemma jit_byte_no_wrap : sym_no_wrap jit_equation.
Proof.
  apply List.Forall_forall. intros vc Hin n rc Hn Hg.
  destruct Hin as [<-|[<-|[]]]; injection Hn as <-; cbn in Hg; injection Hg as <-;
    left; intros v Hv%byte_value;
    [change (to_integer (gl 256)) with 256|change (to_integer (gl 1)) with 1];
    change (modulus (T:=GoldilocksField)) with 18446744069414584321; lia.
Qed.

Lemma jit_byte_negated_no_wrap n : as_neg jit_equation = Some n -> sym_no_wrap n.
Proof.
  intros [= <-]. apply List.Forall_forall. intros vc Hin n rc Hn Hg.
  destruct Hin as [<-|[<-|[]]]; injection Hn as <-; cbn in Hg; injection Hg as <-;
    right; eexists; (split; [vm_compute; reflexivity|]); vm_compute; congruence.
Qed.

(** The assignment [x1 = 0x12], [x2 = 0x34], [x3 = 0x1234]. *)
Definition jit_env (k : Z) : GoldilocksField :=
  if k =? 1 then gl 0x12 else if k =? 2 then gl 0x34 else gl 0x1234.

Lemma jit_env_ok : as_ok jit_env jit_equation.
Proof.
  split; [constructor; [apply sym_ok_concrete|]; constructor; [apply sym_ok_concrete|constructor]|]. split.
  - split; [|split; [|exact I]].
    + eexists. split; [reflexivity|]. apply rc_unconstrained_allows.
    + eexists. split; [reflexivity|]. vm_compute. reflexivity.
  - constructor; [vm_compute; reflexivity|]. constructor; [vm_compute; reflexivity|constructor].
Qed.

Lemma jit_solve_sound_witness :
  exists r, sym_solve jit_equation = Some r /\
    exists p, r = inl p /\ Forall (effect_holds jit_env) (effects p).
Proof.
  destruct (jit_solve_sound jit_equation jit_equation_form) as (r & Hr & Hs).
  exists r. split; [exact Hr|]. apply Hs.
  - exact (conj jit_byte_no_wrap jit_byte_negated_no_wrap).
  - exact jit_env_ok.
  - exists 1. vm_compute. reflexivity.
Defined.
