(* ===== verification/Interpreter.v ===== *)
(** * The effects interpreter, [executor/src/witgen/jit/interpreter.rs]

    A compiler from effects to the instructions of a stack machine whose variables are
    numbered, and the machine itself. *)

From stdpp Require Import base list option.
From Stdlib Require Import ZArith Lia.
From S2P Require Import Prelude Goldilocks Field RangeConstraints AffineExpression SymbolicExpr Effect.

(** ** Data *)

Inductive RPNExpressionElem (T S : Type) :=
| RConcrete (n : T)
| RSymbol (s : S)
| RBinaryOperation (op : BinaryOperator)
| RUnaryOperation (op : UnaryOperator)
| RBitOperation (op : BitOperator) (n : Z).
Arguments RConcrete {T S} n.
Arguments RSymbol {T S} s.
Arguments RBinaryOperation {T S} op.
Arguments RUnaryOperation {T S} op.
Arguments RBitOperation {T S} op n.

Definition RPNExpression (T : Type) : Type := list (RPNExpressionElem T nat).

Inductive MachineCallArgumentIdx := Known (idx : nat) | Unknown (idx : nat).

Inductive InterpreterAction (T : Type) :=
| ReadCell (idx : nat) (c : Cell)
| ReadParam (idx : nat) (i : nat)
| ReadFixedColumn (idx : nat) (c : Cell)
| AssignExpression (idx : nat) (e : RPNExpression T)
| WriteCell (idx : nat) (c : Cell)
| WriteParam (idx : nat) (i : nat)
| MachineCall (id : Z) (args : list MachineCallArgumentIdx)
| AssertionA (e1 e2 : RPNExpression T) (expected : bool).
Arguments ReadCell {T} idx c.
Arguments ReadParam {T} idx i.
Arguments ReadFixedColumn {T} idx c.
Arguments AssignExpression {T} idx e.
Arguments WriteCell {T} idx c.
Arguments WriteParam {T} idx i.
Arguments MachineCall {T} id args.
Arguments AssertionA {T} e1 e2 expected.

Record VariableMapper := mkVariableMapper {
  var_idx : list (JitVariable * nat);
  var_count : nat
}.

Record EffectsInterpreter (T : Type) := mkEffectsInterpreter {
  ei_var_count : nat;
  ei_actions : list (InterpreterAction T)
}.
Arguments mkEffectsInterpreter {T}.
Arguments ei_var_count {T}.
Arguments ei_actions {T}.

Inductive LookupCell (T : Type) := Input (v : T) | Output (v : T).
Arguments Input {T} v.
Arguments Output {T} v.

(** ** Numbering the variables *)

Definition mapper_new : VariableMapper := {| var_idx := []; var_count := 0 |}.

Fixpoint var_lookup (v : JitVariable) (l : list (JitVariable * nat)) : option nat :=
  match l with
  | [] => None
  | (w, i) :: l' => if k_eqb v w then Some i else var_lookup v l'
  end.

Definition get_var (m : VariableMapper) (v : JitVariable) : option nat := var_lookup v (var_idx m).

Definition map_var (m : VariableMapper) (v : JitVariable) : nat * VariableMapper :=
  match get_var m v with
  | Some i => (i, m)
  | None => (var_count m, {| var_idx := (v, var_count m) :: var_idx m; var_count := S (var_count m) |})
  end.

Definition reserve_idx (m : VariableMapper) : nat * VariableMapper :=
  (var_count m, {| var_idx := var_idx m; var_count := S (var_count m) |}).

(** ** Translation *)

Section Translation.
Context {T : Type} `{FieldElement T}.

(** [map_from]: post-order, numbering the symbols on the way. *)
Fixpoint map_expr_to_rpn (m : VariableMapper) (e : SymbolicExpression T JitVariable)
  : RPNExpression T * VariableMapper :=
  match e with
  | Concrete n => ([RConcrete n], m)
  | Symbol s _ => let '(i, m') := map_var m s in ([RSymbol i], m')
  | BinaryOperation l op r _ =>
    let '(el, m1) := map_expr_to_rpn m l in
    let '(er, m2) := map_expr_to_rpn m1 r in
    (el ++ er ++ [RBinaryOperation op], m2)
  | UnaryOperation op e' _ =>
    let '(ee, m1) := map_expr_to_rpn m e' in (ee ++ [RUnaryOperation op], m1)
  | BitOperation e' op n _ =>
    let '(ee, m1) := map_expr_to_rpn m e' in (ee ++ [RBitOperation op n], m1)
  end.

Definition fixed_cell_of (v : JitVariable) : list JitVariable :=
  match v with FixedCell _ => [v] | _ => [] end.

Fixpoint load_fixed (m : VariableMapper) (vs : list JitVariable)
  : list (InterpreterAction T) * VariableMapper :=
  match vs with
  | [] => ([], m)
  | v :: vs' =>
    match v with
    | FixedCell c =>
      let '(i, m1) := map_var m v in
      let '(acts, m2) := load_fixed m1 vs' in (ReadFixedColumn i c :: acts, m2)
    | _ => load_fixed m vs'
    end
  end.

Definition load_fixed_column_values (m : VariableMapper) (effs : list (Effect T JitVariable))
  : list (InterpreterAction T) * VariableMapper :=
  load_fixed m (unique (flat_map fixed_cell_of (flat_map referenced_variables effs))).

Fixpoint load_known_inputs (m : VariableMapper) (known_inputs : list JitVariable)
  : option (list (InterpreterAction T) * VariableMapper) :=
  match known_inputs with
  | [] => Some ([], m)
  | v :: vs =>
    match v with
    | WitnessCell c =>
      let '(i, m1) := map_var m v in
      r ← load_known_inputs m1 vs; Some (ReadCell i c :: fst r, snd r)
    | Param p =>
      let '(i, m1) := map_var m v in
      r ← load_known_inputs m1 vs; Some (ReadParam i p :: fst r, snd r)
    | FixedCell _ | MachineCallParam _ => None
    end
  end.

(** [zip] stops at the shorter list. *)
Fixpoint map_arguments (m : VariableMapper) (known : list bool) (args : list JitVariable)
  : list MachineCallArgumentIdx * VariableMapper :=
  match known, args with
  | k :: known', v :: args' =>
    let '(i, m1) := map_var m v in
    let '(r, m2) := map_arguments m1 known' args' in
    ((if k then Known i else Unknown i) :: r, m2)
  | _, _ => ([], m)
  end.

Definition process_effect (m : VariableMapper) (e : Effect T JitVariable)
  : option (InterpreterAction T * VariableMapper) :=
  match e with
  | AssignmentE v expr =>
    let '(i, m1) := map_var m v in
    let '(rpn, m2) := map_expr_to_rpn m1 expr in
    Some (AssignExpression i rpn, m2)
  | AssertionE a =>
    let '(l, m1) := map_expr_to_rpn m (lhs a) in
    let '(r, m2) := map_expr_to_rpn m1 (rhs a) in
    Some (AssertionA l r (expected_equal a), m2)
  | MachineCallE id known args =>
    let '(l, m1) := map_arguments m known args in
    Some (MachineCall id l, m1)
  | RangeConstraintE _ _ | ProverFunctionCallE _ | BranchE _ _ _ => None
  end.

Fixpoint process_effects (m : VariableMapper) (effs : list (Effect T JitVariable))
  : option (list (InterpreterAction T) * VariableMapper) :=
  match effs with
  | [] => Some ([], m)
  | e :: effs' =>
    am ← process_effect m e;
    r ← process_effects (snd am) effs';
    Some (fst am :: fst r, snd r)
  end.

Fixpoint all_written_vars (effs : list (Effect T JitVariable)) : option (list JitVariable) :=
  match effs with
  | [] => Some []
  | e :: effs' => w ← written_vars e; ws ← all_written_vars effs'; Some (map fst w ++ ws)
  end.

Fixpoint write_vars (m : VariableMapper) (vs : list JitVariable) : option (list (InterpreterAction T)) :=
  match vs with
  | [] => Some []
  | v :: vs' =>
    match v with
    | WitnessCell c => i ← get_var m v; r ← write_vars m vs'; Some (WriteCell i c :: r)
    | Param p => i ← get_var m v; r ← write_vars m vs'; Some (WriteParam i p :: r)
    | FixedCell _ => None
    | MachineCallParam _ => write_vars m vs'
    end
  end.

Definition write_data (m : VariableMapper) (effs : list (Effect T JitVariable))
  : option (list (InterpreterAction T)) :=
  vs ← all_written_vars effs; write_vars m vs.

(** ** Validation *)

Definition rpn_symbols (e : RPNExpression T) : list nat :=
  flat_map (fun x => match x with RSymbol i => [i] | _ => [] end) e.

Definition known_arg (a : MachineCallArgumentIdx) : list nat :=
  match a with Known i => [i] | Unknown _ => [] end.
Definition unknown_arg (a : MachineCallArgumentIdx) : list nat :=
  match a with Known _ => [] | Unknown i => [i] end.

(** The sets of the source as lists. *)
Definition writes (a : InterpreterAction T) : list nat :=
  match a with
  | ReadCell i _ | ReadParam i _ | AssignExpression i _ => [i]
  | MachineCall _ args => flat_map unknown_arg args
  | _ => []
  end.

Definition reads (a : InterpreterAction T) : list nat :=
  match a with
  | WriteCell i _ | WriteParam i _ => [i]
  | AssignExpression _ e => rpn_symbols e
  | MachineCall _ args => flat_map known_arg args
  | AssertionA l r _ => rpn_symbols l ++ rpn_symbols r
  | _ => []
  end.

Definition mem (i : nat) (l : list nat) : bool := existsb (Nat.eqb i) l.
Definition disjointb (a b : list nat) : bool := forallb (fun i => negb (mem i b)) a.
Definition subsetb (a b : list nat) : bool := forallb (fun i => mem i b) a.

Fixpoint is_valid_from (prev_writes : list nat) (acts : list (InterpreterAction T)) : bool :=
  match acts with
  | [] => true
  | a :: acts' =>
    disjointb (writes a) prev_writes && subsetb (reads a) prev_writes
      && is_valid_from (prev_writes ++ writes a) acts'
  end.

Definition is_valid (ei : EffectsInterpreter T) : bool := is_valid_from [] (ei_actions ei).

(** The translation without the final assertion, and with it. *)
Definition translate (known_inputs : list JitVariable) (effs : list (Effect T JitVariable))
  : option (EffectsInterpreter T) :=
  let '(a1, m1) := load_fixed_column_values mapper_new effs in
  r2 ← load_known_inputs m1 known_inputs;
  r3 ← process_effects (snd r2) effs;
  a4 ← write_data (snd r3) effs;
  Some {| ei_var_count := var_count (snd r3); ei_actions := a1 ++ fst r2 ++ fst r3 ++ a4 |}.

Definition interpreter_new (known_inputs : list JitVariable) (effs : list (Effect T JitVariable))
  : option (EffectsInterpreter T) :=
  ret ← translate known_inputs effs;
  _ ← assert_that (is_valid ret);
  Some ret.

End Translation.

(** ** Execution *)

Section Execution.
Context {T : Type} `{FieldElement T}.

Definition rpn_step (vars : list T) (stack : option (list T)) (elem : RPNExpressionElem T nat)
  : option (list T) :=
  st ← stack;
  match elem with
  | RConcrete v => Some (v :: st)
  | RSymbol i => v ← vars !! i; Some (v :: st)
  | RBinaryOperation op =>
    match st with
    | r :: l :: st' => v ← binary_eval op l r; Some (v :: st')
    | _ => None
    end
  | RUnaryOperation op =>
    match st with inner :: st' => Some (unary_eval op inner :: st') | [] => None end
  | RBitOperation op n =>
    match st with l :: st' => Some (bit_eval op l n :: st') | [] => None end
  end.

(** The value and the stack that is left. *)
Definition evaluate (e : RPNExpression T) (stack : list T) (vars : list T) : option (T * list T) :=
  st ← fold_left (rpn_step vars) e (Some stack);
  match st with v :: st' => Some (v, st') | [] => None end.

Definition get_param (params : list (LookupCell T)) (i : nat) : option T :=
  match params !! i with Some (Input v) => Some v | _ => None end.

Definition set_param (params : list (LookupCell T)) (i : nat) (value : T) : option (list (LookupCell T)) :=
  match params !! i with Some (Output _) => Some (<[i := Output value]> params) | _ => None end.

(** The trace table ([CompactData]), the fixed columns and the other machines. *)
Class World (D M : Type) := {
  data_get : D -> Z -> Z -> option T;
  data_set : D -> Z -> Z -> T -> option D;
  fixed_value : Z -> Z -> option T;
  call_direct : M -> Z -> list (LookupCell T) -> option (M * list (LookupCell T))
}.

Context {D M : Type} `{World D M}.

Record exec_state := mkExecState {
  vars : list T;
  params : list (LookupCell T);
  data : D;
  machines : M;
  eval_stack : list T
}.

(** [(row_offset + c.row_offset as i64).try_into().unwrap()] *)
Definition cell_row (row : Z) (c : Cell) : option Z :=
  let r := row + row_offset c in
  _ ← assert_that ((0 <=? r) && (r <? 2 ^ 63)); Some r.

Definition set_var (s : exec_state) (i : nat) (v : T) : option exec_state :=
  _ ← vars s !! i;
  Some {| vars := <[i := v]> (vars s); params := params s; data := data s;
          machines := machines s; eval_stack := eval_stack s |}.

Fixpoint build_arguments (vs : list T) (args : list MachineCallArgumentIdx) : option (list (LookupCell T)) :=
  match args with
  | [] => Some []
  | a :: args' =>
    v ← match a with Known i => vs !! i | Unknown i => vs !! i end;
    r ← build_arguments vs args';
    Some (match a with Known _ => Input v | Unknown _ => Output v end :: r)
  end.

(** What the callee wrote through the output references. *)
Fixpoint store_outputs (vs : list T) (args : list MachineCallArgumentIdx) (cells : list (LookupCell T)) : list T :=
  match args, cells with
  | Unknown i :: args', Output v :: cells' => store_outputs (<[i := v]> vs) args' cells'
  | _ :: args', _ :: cells' => store_outputs vs args' cells'
  | _, _ => vs
  end.

Definition exec_action (row : Z) (s : exec_state) (a : InterpreterAction T) : option exec_state :=
  match a with
  | AssignExpression i e =>
    r ← evaluate e (eval_stack s) (vars s);
    set_var {| vars := vars s; params := params s; data := data s; machines := machines s;
               eval_stack := snd r |} i (fst r)
  | ReadCell i c => r ← cell_row row c; v ← data_get (data s) r (cell_id c); set_var s i v
  | ReadFixedColumn i c => r ← cell_row row c; v ← fixed_value (cell_id c) r; set_var s i v
  | ReadParam i p => v ← get_param (params s) p; set_var s i v
  | WriteCell i c =>
    r ← cell_row row c; v ← vars s !! i; d ← data_set (data s) r (cell_id c) v;
    Some {| vars := vars s; params := params s; data := d; machines := machines s;
            eval_stack := eval_stack s |}
  | WriteParam i p =>
    v ← vars s !! i; ps ← set_param (params s) p v;
    Some {| vars := vars s; params := ps; data := data s; machines := machines s;
            eval_stack := eval_stack s |}
  | MachineCall id args =>
    cells ← build_arguments (vars s) args;
    r ← call_direct (machines s) id cells;
    Some {| vars := store_outputs (vars s) args (snd r); params := params s; data := data s;
            machines := fst r; eval_stack := eval_stack s |}
  | AssertionA e1 e2 expected =>
    l ← evaluate e1 (eval_stack s) (vars s);
    r ← evaluate e2 (snd l) (vars s);
    _ ← assert_that (if expected then f_eqb (fst l) (fst r) else negb (f_eqb (fst l) (fst r)));
    Some {| vars := vars s; params := params s; data := data s; machines := machines s;
            eval_stack := snd r |}
  end.

Fixpoint exec_actions (row : Z) (s : exec_state) (acts : list (InterpreterAction T)) : option exec_state :=
  match acts with
  | [] => Some s
  | a :: acts' => s' ← exec_action row s a; exec_actions row s' acts'
  end.

(** The parameters, the table and the machines afterwards. *)
Definition interpreter_call (ei : EffectsInterpreter T) (row : Z) (ps : list (LookupCell T)) (d : D) (ms : M)
  : option (list (LookupCell T) * D * M) :=
  _ ← assert_that (row <? 2 ^ 63);
  s ← exec_actions row {| vars := replicate (ei_var_count ei) f_zero; params := ps; data := d;
                          machines := ms; eval_stack := [] |} (ei_actions ei);
  _ ← assert_that (match eval_stack s with [] => true | _ => false end);
  Some (params s, data s, machines s).

End Execution.

(** ** Reference semantics: effects on an assignment of the variables *)

Section Reference.
Context {T : Type} `{FieldElement T} {D M : Type} `{World (T:=T) D M}.

Record ref_state := mkRefState {
  r_env : JitVariable -> T;
  r_params : list (LookupCell T);
  r_data : D;
  r_machines : M
}.

Definition env_set (env : JitVariable -> T) (v : JitVariable) (x : T) : JitVariable -> T :=
  fun w => if k_eqb w v then x else env w.

Definition ref_set (s : ref_state) (v : JitVariable) (x : T) : ref_state :=
  {| r_env := env_set (r_env s) v x; r_params := r_params s; r_data := r_data s; r_machines := r_machines s |}.

Fixpoint ref_arguments (env : JitVariable -> T) (known : list bool) (args : list JitVariable) : list (LookupCell T) :=
  match known, args with
  | k :: known', v :: args' => (if k then Input (env v) else Output (env v)) :: ref_arguments env known' args'
  | _, _ => []
  end.

Fixpoint ref_store (env : JitVariable -> T) (known : list bool) (args : list JitVariable)
  (cells : list (LookupCell T)) : JitVariable -> T :=
  match known, args, cells with
  | false :: known', v :: args', Output x :: cells' => ref_store (env_set env v x) known' args' cells'
  | _ :: known', _ :: args', _ :: cells' => ref_store env known' args' cells'
  | _, _, _ => env
  end.

Definition ref_effect (s : ref_state) (e : Effect T JitVariable) : option ref_state :=
  match e with
  | AssignmentE v expr => x ← sym_eval (r_env s) expr; Some (ref_set s v x)
  | AssertionE a =>
    l ← sym_eval (r_env s) (lhs a); r ← sym_eval (r_env s) (rhs a);
    _ ← assert_that (if expected_equal a then f_eqb l r else negb (f_eqb l r)); Some s
  | MachineCallE id known args =>
    r ← call_direct (r_machines s) id (ref_arguments (r_env s) known args);
    Some {| r_env := ref_store (r_env s) known args (snd r); r_params := r_params s;
            r_data := r_data s; r_machines := fst r |}
  | RangeConstraintE _ _ | ProverFunctionCallE _ | BranchE _ _ _ => None
  end.

Definition ref_load (row : Z) (s : ref_state) (v : JitVariable) : option ref_state :=
  match v with
  | FixedCell c => r ← cell_row row c; x ← fixed_value (cell_id c) r; Some (ref_set s v x)
  | WitnessCell c => r ← cell_row row c; x ← data_get (r_data s) r (cell_id c); Some (ref_set s v x)
  | Param p => x ← get_param (r_params s) p; Some (ref_set s v x)
  | MachineCallParam _ => None
  end.

Definition ref_write (row : Z) (s : ref_state) (v : JitVariable) : option ref_state :=
  match v with
  | WitnessCell c =>
    r ← cell_row row c; d ← data_set (r_data s) r (cell_id c) (r_env s v);
    Some {| r_env := r_env s; r_params := r_params s; r_data := d; r_machines := r_machines s |}
  | Param p =>
    ps ← set_param (r_params s) p (r_env s v);
    Some {| r_env := r_env s; r_params := ps; r_data := r_data s; r_machines := r_machines s |}
  | FixedCell _ => None
  | MachineCallParam _ => Some s
  end.

Fixpoint ref_all {A} (step : ref_state -> A -> option ref_state) (s : ref_state) (l : list A) : option ref_state :=
  match l with
  | [] => Some s
  | a :: l' => s' ← step s a; ref_all step s' l'
  end.

(** Load the fixed cells that occur and the known inputs, run the effects, and store
    the variables that were written. *)
Definition ref_call (known_inputs : list JitVariable) (effs : list (Effect T JitVariable)) (row : Z)
  (ps : list (LookupCell T)) (d : D) (ms : M) : option (list (LookupCell T) * D * M) :=
  _ ← assert_that (row <? 2 ^ 63);
  written ← all_written_vars effs;
  s1 ← ref_all (ref_load row) {| r_env := fun _ => f_zero; r_params := ps; r_data := d; r_machines := ms |}
         (unique (flat_map fixed_cell_of (flat_map referenced_variables effs)));
  s2 ← ref_all (ref_load row) s1 known_inputs;
  s3 ← ref_all ref_effect s2 effs;
  s4 ← ref_all (ref_write row) s3 written;
  Some (r_params s4, r_data s4, r_machines s4).

End Reference.

(** ** The numbering is injective *)

(** Equality of variables ignores the column names. *)
Definition var_key (v : JitVariable) : Z * Z * Z * Z :=
  match v with
  | WitnessCell c => (0, cell_id c, row_offset c, 0)
  | Param i => (1, Z.of_nat i, 0, 0)
  | MachineCallParam w => (2, identity_id w, call_row_offset w, index w)
  | FixedCell c => (3, cell_id c, row_offset c, 0)
  end.

Lemma compare_lex_eq a b : compare_lex a b = Eq <-> a = Eq /\ b = Eq.
Proof. destruct a; cbn; intuition congruence. Qed.

Lemma variable_eqb_key v w : k_eqb v w = true <-> var_key v = var_key w.
Proof.
  unfold k_eqb. transitivity (k_cmp v w = Eq); [destruct (k_cmp v w); split; congruence|].
  unfold k_cmp, variable_ord.
  destruct v as [[n1 i1 r1]|i|[a1 b1 c1]|[n1 i1 r1]], w as [[n2 i2 r2]|j|[a2 b2 c2]|[n2 i2 r2]];
    cbn; unfold cell_cmp, call_cmp; cbn; rewrite ?compare_lex_eq, ?Z.compare_eq_iff, ?Nat.compare_eq_iff;
    try (split; discriminate); split; [intros [-> ->]; reflexivity| |intros ->; reflexivity| |
      intros [-> [-> ->]]; reflexivity| |intros [-> ->]; reflexivity|]; try (intros [= -> ->]; auto).
  - intros [= Hij]. lia.
Qed.

Lemma var_lookup_key v w l : var_key v = var_key w -> var_lookup v l = var_lookup w l.
Proof.
  intros Hk. induction l as [|[u i] l IH]; cbn; [reflexivity|]. rewrite IH.
  replace (k_eqb v u) with (k_eqb w u); [reflexivity|]. apply eq_true_iff_eq.
  rewrite !variable_eqb_key. now rewrite Hk.
Qed.

Definition mapper_wf (m : VariableMapper) : Prop :=
  (forall v i, get_var m v = Some i -> (i < var_count m)%nat) /\
  (forall v w i, get_var m v = Some i -> get_var m w = Some i -> var_key v = var_key w).

Definition mapper_ext (m m' : VariableMapper) : Prop :=
  (var_count m <= var_count m')%nat /\ forall v i, get_var m v = Some i -> get_var m' v = Some i.

Lemma mapper_ext_refl m : mapper_ext m m.
Proof. split; auto. Qed.

Lemma mapper_ext_trans a b c : mapper_ext a b -> mapper_ext b c -> mapper_ext a c.
Proof. intros [H1 H2] [H3 H4]. split; [lia|auto]. Qed.

Lemma mapper_new_wf : mapper_wf mapper_new.
Proof. split; discriminate. Qed.

Lemma map_var_spec m v i m' : mapper_wf m -> map_var m v = (i, m') ->
  mapper_wf m' /\ mapper_ext m m' /\ get_var m' v = Some i.
Proof.
  intros [Hlt Hinj]. unfold map_var. destruct (get_var m v) as [j|] eqn:Eg; intros [= <- <-].
  { repeat split; auto; easy. }
  unfold get_var in *. cbn [var_idx var_count].
  assert (Hnew : forall w k, (if k_eqb w v then Some (var_count m) else var_lookup w (var_idx m)) = Some k ->
    (var_key w = var_key v /\ k = var_count m) \/ (var_lookup w (var_idx m) = Some k /\ (k < var_count m)%nat)).
  { intros w k. destruct (k_eqb w v) eqn:E; [intros [= <-]; left; split; [now apply variable_eqb_key|easy]|].
    intros Hk. right. split; [exact Hk|now apply (Hlt w)]. }
  split; [split|split; [split|]]; unfold get_var; cbn [var_idx var_count var_lookup].
  - intros w k Hk%Hnew. lia.
  - intros w w' k Hk%Hnew Hk'%Hnew. destruct Hk as [[Hk ?]|[Hk ?]], Hk' as [[Hk' ?]|[Hk' ?]]; try lia; [congruence|].
    now apply (Hinj w w' k).
  - lia.
  - intros w k Hk. unfold get_var in Hk. destruct (k_eqb w v) eqn:E; [|exact Hk]. apply variable_eqb_key in E.
    rewrite (var_lookup_key w v) in Hk by exact E. congruence.
  - now rewrite (proj2 (variable_eqb_key v v) eq_refl).
Qed.

(** ** Simulation *)

Section Simulation.
Context {T : Type} `{FieldElement T} {D Mch : Type} `{World (T:=T) D Mch}.
Implicit Types (m : VariableMapper) (env : JitVariable -> T) (vs : list T).

(** The numbered variables hold the values of the assignment. *)
Definition vars_match m env vs : Prop := forall v i, get_var m v = Some i -> vs !! i = Some (env v).

Lemma vars_match_ext m m' env vs : mapper_ext m m' -> vars_match m' env vs -> vars_match m env vs.
Proof. intros [_ He] Hv v i Hi. auto. Qed.

Lemma vars_match_set m env vs v i x : mapper_wf m -> get_var m v = Some i ->
  vars_match m env vs -> vars_match m (env_set env v x) (<[i := x]> vs).
Proof.
  intros [_ Hinj] Hi Hm w j Hj. unfold env_set. destruct (k_eqb w v) eqn:E.
  - apply variable_eqb_key in E. unfold get_var in *. rewrite (var_lookup_key w v) in Hj by exact E.
    rewrite Hi in Hj. injection Hj as <-. apply list_lookup_insert_eq. eapply lookup_lt_Some, (Hm v). exact Hi.
  - rewrite list_lookup_insert_ne; [now apply Hm|]. intros <-.
    rewrite (proj2 (variable_eqb_key w v)) in E; [discriminate|]. now apply (Hinj w v i).
Qed.

Lemma rpn_none vs e : fold_left (rpn_step vs) e None = None.
Proof. induction e; cbn; auto. Qed.

(** The translated expression pushes the value of the expression, or panics with it. *)
Lemma map_expr_spec e : forall m rpn m', mapper_wf m -> map_expr_to_rpn m e = (rpn, m') ->
  mapper_wf m' /\ mapper_ext m m' /\
  forall env vs st, vars_match m' env vs ->
    fold_left (rpn_step vs) rpn (Some st) = (x ← sym_eval env e; Some (x :: st)).
Proof.
  induction e as [n|s rc|l IHl op r IHr rc|op e IH rc|e IH op n rc]; intros m rpn m' Hwf He; cbn in He.
  - injection He as <- <-. split; [easy|]. split; [apply mapper_ext_refl|]. reflexivity.
  - destruct (map_var m s) as [i m1] eqn:Em. injection He as <- <-.
    destruct (map_var_spec m s i m1 Hwf Em) as (Hw & Hx & Hg). split; [easy|]. split; [easy|].
    intros env vs st Hv. cbn. now rewrite (Hv s i Hg).
  - destruct (map_expr_to_rpn m l) as [el m1] eqn:El. destruct (map_expr_to_rpn m1 r) as [er m2] eqn:Er.
    injection He as <- <-. destruct (IHl m el m1 Hwf El) as (Hw1 & Hx1 & Hl).
    destruct (IHr m1 er m2 Hw1 Er) as (Hw2 & Hx2 & Hr). split; [easy|]. split; [eapply mapper_ext_trans; eauto|].
    intros env vs st Hv. rewrite !fold_left_app, (Hl env) by (eapply vars_match_ext; eauto). cbn [sym_eval].
    destruct (sym_eval env l) as [x|]; cbn [mbind option_bind]; [|now rewrite !rpn_none].
    rewrite (Hr env) by exact Hv. now destruct (sym_eval env r) as [y|].
  - destruct (map_expr_to_rpn m e) as [ee m1] eqn:Ee. injection He as <- <-.
    destruct (IH m ee m1 Hwf Ee) as (Hw & Hx & Hr). split; [easy|]. split; [easy|].
    intros env vs st Hv. rewrite fold_left_app, (Hr env) by exact Hv. cbn. now destruct (sym_eval env e).
  - destruct (map_expr_to_rpn m e) as [ee m1] eqn:Ee. injection He as <- <-.
    destruct (IH m ee m1 Hwf Ee) as (Hw & Hx & Hr). split; [easy|]. split; [easy|].
    intros env vs st Hv. rewrite fold_left_app, (Hr env) by exact Hv. cbn. now destruct (sym_eval env e).
Qed.

Lemma evaluate_spec e m rpn m' env vs st : mapper_wf m -> map_expr_to_rpn m e = (rpn, m') ->
  vars_match m' env vs -> evaluate rpn st vs = (x ← sym_eval env e; Some (x, st)).
Proof.
  intros Hwf He Hv. destruct (map_expr_spec e m rpn m' Hwf He) as (_ & _ & Hr).
  unfold evaluate. rewrite (Hr env vs st Hv). now destruct (sym_eval env e).
Qed.

(** States agree when the variables do and everything else is the same. *)
Definition state_rel m (s : exec_state (T:=T) (D:=D) (M:=Mch)) (r : ref_state) : Prop :=
  vars_match m (r_env r) (vars s) /\ params s = r_params r /\ data s = r_data r /\
  machines s = r_machines r /\ eval_stack s = [].

(** Both runs panic, or both succeed in related states. *)
Definition outcome_rel m (a : option exec_state) (b : option ref_state) : Prop :=
  option_Forall2 (state_rel m) a b.

Lemma outcome_bind m (a : option exec_state) (b : option ref_state) f g :
  outcome_rel m a b -> (forall s r, state_rel m s r -> outcome_rel m (f s) (g r)) ->
  outcome_rel m (a ≫= f) (b ≫= g).
Proof. intros Hab Hfg. destruct Hab; cbn; [auto|constructor]. Qed.

Lemma set_var_spec m s r v i x : mapper_wf m -> get_var m v = Some i -> state_rel m s r ->
  outcome_rel m (set_var s i x) (Some (ref_set r v x)).
Proof.
  intros Hwf Hi (Hv & Hrest). unfold set_var. rewrite (Hv v i Hi). cbn. constructor.
  split; [now apply vars_match_set|exact Hrest].
Qed.

Lemma map_arguments_spec known : forall args m l m', mapper_wf m -> map_arguments m known args = (l, m') ->
  mapper_wf m' /\ mapper_ext m m' /\
  forall Mf env vs, mapper_wf Mf -> mapper_ext m' Mf -> vars_match Mf env vs ->
    build_arguments vs l = Some (ref_arguments env known args) /\
    forall cells, vars_match Mf (ref_store env known args cells) (store_outputs vs l cells).
Proof.
  induction known as [|k known IH]; intros args m l m' Hwf Hl; cbn in Hl.
  { injection Hl as <- <-. split; [easy|]. split; [apply mapper_ext_refl|]. intros. split; [reflexivity|easy]. }
  destruct args as [|v args].
  { injection Hl as <- <-. split; [easy|]. split; [apply mapper_ext_refl|]. intros. split; [now destruct k|].
    intros cells. now destruct k. }
  destruct (map_var m v) as [i m1] eqn:Ev. destruct (map_arguments m1 known args) as [r m2] eqn:Er.
  injection Hl as <- <-. destruct (map_var_spec m v i m1 Hwf Ev) as (Hw1 & Hx1 & Hg).
  destruct (IH args m1 r m2 Hw1 Er) as (Hw2 & Hx2 & Hr). split; [easy|].
  split; [eapply mapper_ext_trans; eauto|]. intros Mf env vs HM HxM Hv.
  assert (HgM : get_var Mf v = Some i) by (apply HxM, Hx2, Hg).
  destruct (Hr Mf env vs HM HxM Hv) as [Hb Hs]. split.
  - cbn [build_arguments ref_arguments]. destruct k; cbn; rewrite (Hv v i HgM); cbn; now rewrite Hb.
  - intros cells. destruct k; cbn [store_outputs ref_store]; destruct cells as [|[x|x] cells]; try easy.
    apply Hr; [easy..|]. now apply vars_match_set.
Qed.

End Simulation.

Section Refinement.
Context {T : Type} `{FieldElement T} {D Mch : Type} `{World (T:=T) D Mch}.
Implicit Types (m : VariableMapper) (s : exec_state (T:=T) (D:=D) (M:=Mch)) (row : Z).

(** A translation step from [m] to [m'] whose actions do what the reference does. *)
Definition refines m m' (acts : list (InterpreterAction T))
  (ref : Z -> ref_state (D:=D) (M:=Mch) -> option ref_state) : Prop :=
  mapper_wf m' /\ mapper_ext m m' /\
  forall Mf row s r, mapper_wf Mf -> mapper_ext m' Mf -> state_rel Mf s r ->
    outcome_rel Mf (exec_actions row s acts) (ref row r).

Lemma exec_actions_app row s a b : exec_actions row s (a ++ b) = (s' ← exec_actions row s a; exec_actions row s' b).
Proof.
  revert s. induction a as [|x a IH]; intros s; [reflexivity|]. cbn.
  destruct (exec_action row s x); cbn; [apply IH|reflexivity].
Qed.

Lemma refines_app m m1 m2 a b f g : refines m m1 a f -> refines m1 m2 b g ->
  refines m m2 (a ++ b) (fun row r => r' ← f row r; g row r').
Proof.
  intros (W1 & X1 & S1) (W2 & X2 & S2). split; [easy|]. split; [eapply mapper_ext_trans; eauto|].
  intros Mf row s r HM Hx Hs. rewrite exec_actions_app. apply outcome_bind.
  - apply S1; [easy| |easy]. eapply mapper_ext_trans; eauto.
  - intros s' r' Hs'. now apply S2.
Qed.

Lemma refines_one m m' a f :
  mapper_wf m' -> mapper_ext m m' ->
  (forall Mf row s r, mapper_wf Mf -> mapper_ext m' Mf -> state_rel Mf s r ->
     outcome_rel Mf (exec_action row s a) (f row r)) ->
  refines m m' [a] f.
Proof.
  intros Hw Hx Hs. split; [easy|]. split; [easy|]. intros Mf row s r HM HxM Hr. cbn.
  specialize (Hs Mf row s r HM HxM Hr). destruct Hs; cbn; constructor; assumption.
Qed.

Lemma process_effect_refines m e a m' : mapper_wf m -> process_effect m e = Some (a, m') ->
  refines m m' [a] (fun _ r => ref_effect r e).
Proof.
  intros Hwf Hp. destruct e as [v expr|v rc|[l r eq]|id known args|call|c f1 f2]; try discriminate; cbn in Hp.
  - destruct (map_var m v) as [i m1] eqn:Ev. destruct (map_expr_to_rpn m1 expr) as [rpn m2] eqn:Ee.
    injection Hp as <- <-. destruct (map_var_spec m v i m1 Hwf Ev) as (W1 & X1 & G1).
    destruct (map_expr_spec expr m1 rpn m2 W1 Ee) as (W2 & X2 & _).
    apply refines_one; [easy|eapply mapper_ext_trans; eauto|]. intros Mf row s r HM HxM Hs.
    pose proof Hs as (Hv & Hrest & Hd & Hma & Hst). cbn.
    rewrite (evaluate_spec expr m1 rpn m2 (r_env r) (vars s) (eval_stack s) W1 Ee)
      by (eapply vars_match_ext; eauto).
    destruct (sym_eval (r_env r) expr) as [x|]; cbn [mbind option_bind fst snd]; [|constructor].
    apply set_var_spec; [easy|apply HxM, X2, G1|easy].
  - destruct (map_expr_to_rpn m l) as [el m1] eqn:El. destruct (map_expr_to_rpn m1 r) as [er m2] eqn:Er.
    injection Hp as <- <-. destruct (map_expr_spec l m el m1 Hwf El) as (W1 & X1 & _).
    destruct (map_expr_spec r m1 er m2 W1 Er) as (W2 & X2 & _).
    apply refines_one; [easy|eapply mapper_ext_trans; eauto|]. intros Mf row s r' HM HxM Hs.
    pose proof Hs as (Hv & Hrest & Hd & Hma & Hst). cbn.
    assert (Hv2 : vars_match m2 (r_env r') (vars s)) by (eapply vars_match_ext; eauto).
    rewrite (evaluate_spec l m el m1 (r_env r') (vars s) (eval_stack s) Hwf El)
      by (eapply vars_match_ext; [exact X2|exact Hv2]).
    destruct (sym_eval (r_env r') l) as [x|]; cbn [mbind option_bind fst snd]; [|constructor].
    rewrite (evaluate_spec r m1 er m2 (r_env r') (vars s) (eval_stack s) W1 Er) by exact Hv2.
    destruct (sym_eval (r_env r') r) as [y|]; cbn [mbind option_bind fst snd]; [|constructor].
    destruct (assert_that _); cbn [mbind option_bind]; constructor. now rewrite Hst.
  - destruct (map_arguments m known args) as [l m1] eqn:El. injection Hp as <- <-.
    destruct (map_arguments_spec (T:=T) known args m l m1 Hwf El) as (W1 & X1 & Hl).
    apply refines_one; [easy..|]. intros Mf row s r HM HxM (Hv & Hps & Hd & Hma & Hst). cbn.
    destruct (Hl Mf (r_env r) (vars s) HM HxM Hv) as [-> Hstore]. cbn [mbind option_bind]. rewrite Hma.
    destruct (call_direct (r_machines r) id _) as [[ms cells]|]; cbn [mbind option_bind fst snd]; constructor.
    split; [apply Hstore|easy].
Qed.

Lemma process_effects_refines effs : forall m acts m', mapper_wf m ->
  process_effects m effs = Some (acts, m') ->
  refines m m' acts (fun _ r => ref_all ref_effect r effs).
Proof.
  induction effs as [|e effs IH]; intros m acts m' Hwf Hp; cbn in Hp.
  - injection Hp as <- <-. split; [easy|]. split; [apply mapper_ext_refl|]. intros. now constructor.
  - apply bind_inv in Hp as ([a m1] & Ha & Hp). apply bind_inv in Hp as ([as_ m2] & Hr & [= <- <-]).
    apply (process_effect_refines m e a m1 Hwf) in Ha. cbn [fst snd] in *.
    apply (IH m1 as_ m2) in Hr; [|apply Ha]. exact (refines_app _ _ _ [a] as_ _ _ Ha Hr).
Qed.

(** Loading one variable by an action that reads what the reference reads. *)
Lemma load_refines m v i m1 a : mapper_wf m -> map_var m v = (i, m1) ->
  (match v with
   | FixedCell c => a = ReadFixedColumn i c
   | WitnessCell c => a = ReadCell i c
   | Param p => a = ReadParam i p
   | MachineCallParam _ => False
   end) -> refines m m1 [a] (fun row r => ref_load row r v).
Proof.
  intros Hwf Ev Ha. destruct (map_var_spec m v i m1 Hwf Ev) as (W1 & X1 & G1).
  apply refines_one; [easy..|]. intros Mf row s r HM HxM Hs. pose proof Hs as (_ & Hps & Hd & _ & _).
  assert (HG : get_var Mf v = Some i) by (apply HxM, G1).
  destruct v as [c|p|w|c]; try contradiction; subst a; cbn.
  - destruct (cell_row row c); cbn; [|constructor]. rewrite Hd. destruct (data_get _ _ _); cbn; [|constructor].
    now apply set_var_spec.
  - rewrite Hps. destruct (get_param _ p); cbn; [|constructor]. now apply set_var_spec.
  - destruct (cell_row row c); cbn; [|constructor]. destruct (fixed_value _ _); cbn; [|constructor].
    now apply set_var_spec.
Qed.

Lemma load_fixed_refines vs : forall m acts m', mapper_wf m -> Forall (fun v => fixed_cell_of v <> []) vs ->
  load_fixed m vs = (acts, m') -> refines m m' acts (fun row r => ref_all (ref_load row) r vs).
Proof.
  induction vs as [|v vs IH]; intros m acts m' Hwf Hf Hl; cbn in Hl.
  - injection Hl as <- <-. split; [easy|]. split; [apply mapper_ext_refl|]. intros. now constructor.
  - inversion Hf as [|? ? Hv Hf']; subst. destruct v as [c|p|w|c]; try (cbn in Hv; congruence).
    destruct (map_var m (FixedCell c)) as [i m1] eqn:Ev. destruct (load_fixed m1 vs) as [acts' m2] eqn:Er.
    injection Hl as <- <-. pose proof (load_refines m _ i m1 (ReadFixedColumn i c) Hwf Ev eq_refl) as H1.
    apply (IH m1 acts' m2) in Er; [|apply H1|easy]. exact (refines_app _ _ _ [_] acts' _ _ H1 Er).
Qed.

Lemma load_known_refines vs : forall m acts m', mapper_wf m ->
  load_known_inputs m vs = Some (acts, m') -> refines m m' acts (fun row r => ref_all (ref_load row) r vs).
Proof.
  induction vs as [|v vs IH]; intros m acts m' Hwf Hl; cbn in Hl.
  - injection Hl as <- <-. split; [easy|]. split; [apply mapper_ext_refl|]. intros. now constructor.
  - destruct v as [c|p|w|c]; try discriminate.
    + destruct (map_var m (WitnessCell c)) as [i m1] eqn:Ev. apply bind_inv in Hl as ([acts' m2] & Er & [= <- <-]).
      pose proof (load_refines m _ i m1 (ReadCell i c) Hwf Ev eq_refl) as H1.
      apply (IH m1 acts' m2) in Er; [|apply H1]. exact (refines_app _ _ _ [_] acts' _ _ H1 Er).
    + destruct (map_var m (Param p)) as [i m1] eqn:Ev. apply bind_inv in Hl as ([acts' m2] & Er & [= <- <-]).
      pose proof (load_refines m _ i m1 (ReadParam i p) Hwf Ev eq_refl) as H1.
      apply (IH m1 acts' m2) in Er; [|apply H1]. exact (refines_app _ _ _ [_] acts' _ _ H1 Er).
Qed.

Lemma write_vars_refines vs : forall m acts, mapper_wf m -> write_vars m vs = Some acts ->
  refines m m acts (fun row r => ref_all (ref_write row) r vs).
Proof.
  induction vs as [|v vs IH]; intros m acts Hwf Hw; cbn in Hw.
  - injection Hw as <-. split; [easy|]. split; [apply mapper_ext_refl|]. intros. now constructor.
  - destruct v as [c|p|w|c]; try discriminate.
    + apply bind_inv in Hw as (i & Hi & Hw). apply bind_inv in Hw as (acts' & Hr & [= <-]).
      apply (refines_app m m m [_] acts'); [|now apply IH]. apply refines_one; [easy|apply mapper_ext_refl|].
      intros Mf row s r HM HxM Hs. pose proof Hs as (Hv & Hps & Hd & Hma & Hst). cbn.
      destruct (cell_row row c); cbn; [|constructor]. rewrite (Hv (WitnessCell c) i) by now apply HxM.
      cbn. rewrite Hd. destruct (data_set _ _ _ _); cbn; constructor. easy.
    + apply bind_inv in Hw as (i & Hi & Hw). apply bind_inv in Hw as (acts' & Hr & [= <-]).
      apply (refines_app m m m [_] acts'); [|now apply IH]. apply refines_one; [easy|apply mapper_ext_refl|].
      intros Mf row s r HM HxM Hs. pose proof Hs as (Hv & Hps & Hd & Hma & Hst). cbn.
      rewrite (Hv (Param p) i) by now apply HxM. cbn. rewrite Hps.
      destruct (set_param _ _ _); cbn; constructor. easy.
    + destruct (IH m acts Hwf Hw) as (W & X & S). split; [easy|]. split; [easy|]. exact S.
Qed.

End Refinement.

Section Correctness.
Context {T : Type} `{FieldElement T}.

Lemma unique_from_in {V} `{Ord V} (l : list V) : forall seen x, In x (unique_from seen l) -> In x l.
Proof.
  induction l as [|y l IH]; intros seen x; cbn; [easy|]. destruct (existsb _ seen).
  - intros Hin. right. eauto.
  - intros [->|Hin]; [now left|right; eauto].
Qed.

Lemma fixed_cells_fixed (vs : list JitVariable) :
  Forall (fun v => fixed_cell_of v <> []) (unique (flat_map fixed_cell_of vs)).
Proof.
  apply List.Forall_forall. intros v Hin%unique_from_in. apply List.in_flat_map in Hin as (w & _ & Hin).
  destruct w; cbn in Hin; try easy. now destruct Hin as [<-|[]].
Qed.

Lemma translate_refines {D M} `{World (T:=T) D M} known effs ei row ps (d : D) (ms : M) :
  translate known effs = Some ei ->
  interpreter_call ei row ps d ms = ref_call known effs row ps d ms.
Proof.
  unfold translate. destruct (load_fixed_column_values mapper_new effs) as [a1 m1] eqn:E1.
  intros ([a2 m2] & E2 & Ht)%bind_inv. apply bind_inv in Ht as ([a3 m3] & E3 & Ht).
  apply bind_inv in Ht as (a4 & E4 & [= <-]). apply bind_inv in E4 as (ws & Ew & E4). cbn [fst snd] in *.
  pose proof (load_fixed_refines (D:=D) (Mch:=M) _ _ _ _ mapper_new_wf (fixed_cells_fixed _) E1) as R1.
  pose proof (load_known_refines (D:=D) (Mch:=M) _ _ _ _ (proj1 R1) E2) as R2.
  pose proof (process_effects_refines (D:=D) (Mch:=M) _ _ _ _ (proj1 R2) E3) as R3.
  pose proof (write_vars_refines (D:=D) (Mch:=M) _ _ _ (proj1 R3) E4) as R4.
  pose proof (refines_app _ _ _ _ _ _ _ R1 (refines_app _ _ _ _ _ _ _ R2 (refines_app _ _ _ _ _ _ _ R3 R4))) as R.
  unfold interpreter_call, ref_call. rewrite Ew. cbn [ei_var_count ei_actions].
  destruct (assert_that (row <? 2 ^ 63)); cbn [mbind option_bind]; [|reflexivity].
  destruct R as (W & _ & R).
  specialize (R m3 row {| vars := replicate (var_count m3) f_zero; params := ps; data := d; machines := ms; eval_stack := [] |}
    {| r_env := fun _ => f_zero; r_params := ps; r_data := d; r_machines := ms |} W (mapper_ext_refl m3)).
  assert (Hinit : state_rel m3
    {| vars := replicate (var_count m3) f_zero; params := ps; data := d; machines := ms; eval_stack := [] |}
    {| r_env := fun _ => f_zero (T:=T); r_params := ps; r_data := d; r_machines := ms |}).
  { split; [|easy]. intros v i Hi. cbn. apply lookup_replicate_2. now apply (proj1 W v). }
  specialize (R Hinit). generalize dependent (exec_actions row
    {| vars := replicate (var_count m3) f_zero; params := ps; data := d; machines := ms; eval_stack := [] |}
    (a1 ++ a2 ++ a3 ++ a4)). intros st R.
  repeat match goal with |- context [ref_all ?f ?a ?b] =>
    let o := fresh "o" in destruct (ref_all f a b) as [o|] eqn:?; cbn [mbind option_bind] in *; [|now inversion R] end.
  inversion R as [x y Hrel Hx Hy|]; subst. cbn [mbind option_bind]. destruct Hrel as (_ & -> & -> & -> & Hst). cbn. now rewrite Hst.
Qed.

(** What [is_valid] checks. *)
Lemma mem_in i l : mem i l = true <-> In i l.
Proof.
  unfold mem. rewrite List.existsb_exists. split; [intros (j & Hj & ->%Nat.eqb_eq); exact Hj|].
  intros Hi. exists i. split; [exact Hi|apply Nat.eqb_refl].
Qed.

Lemma is_valid_from_spec (acts : list (InterpreterAction T)) : forall prev,
  is_valid_from prev acts = true <->
  forall pre a post, acts = pre ++ a :: post ->
    (forall i, In i (writes a) -> ~ In i (prev ++ flat_map writes pre)) /\
    (forall i, In i (reads a) -> In i (prev ++ flat_map writes pre)).
Proof.
  induction acts as [|a acts IH]; intros prev; cbn.
  - split; [|reflexivity]. intros _ pre a post Hp. now destruct pre.
  - rewrite !andb_true_iff, IH. unfold disjointb, subsetb. rewrite !List.forallb_forall. split.
    + intros [[Hd Hs] Hrest] pre b post Hp. destruct pre as [|c pre]; injection Hp as <- Hp.
      * cbn. rewrite app_nil_r. split; intros i Hi.
        -- specialize (Hd i Hi). rewrite negb_true_iff in Hd. rewrite <- mem_in. now rewrite Hd.
        -- apply mem_in. now apply Hs.
      * subst acts. specialize (Hrest pre b post eq_refl). cbn. rewrite app_assoc. exact Hrest.
    + intros Hall. split; [destruct (Hall [] a acts eq_refl) as [Hd Hs]; cbn in Hd, Hs; rewrite app_nil_r in Hd, Hs; split|].
      * intros i Hi. apply negb_true_iff, not_true_iff_false. rewrite mem_in. now apply Hd.
      * intros i Hi. apply mem_in. now apply Hs.
      * intros pre b post ->. specialize (Hall (a :: pre) b post eq_refl). cbn in Hall.
        now rewrite app_assoc in Hall.
Qed.

End Correctness.

(** ** Properties *)

(** Translating an expression to reverse Polish notation is correct: whatever is on
    the stack, running the translation pushes exactly the value of the expression, and it
    panics exactly when evaluating the expression does (a division by zero); the
    numbering it extends stays injective and keeps the numbers already given. *)
Theorem rpn_translation_correct {T} `{FieldElement T} (e : SymbolicExpression T JitVariable) m rpn m' :
  mapper_wf m -> map_expr_to_rpn m e = (rpn, m') ->
  mapper_wf m' /\ mapper_ext m m' /\
  forall env vs st, vars_match m' env vs ->
    evaluate rpn st vs = (x ← sym_eval env e; Some (x, st)).
Proof.
  intros Hwf He. destruct (map_expr_spec e m rpn m' Hwf He) as (Hw & Hx & _).
  split; [exact Hw|]. split; [exact Hx|]. intros env vs st. now apply (evaluate_spec e m rpn m').
Qed.

(** [params[0] + 5] and a table without cells, with no other machine. *)
Definition example_sum : SymbolicExpression GoldilocksField JitVariable :=
  BinaryOperation (Symbol (Param 0) rc_unconstrained) Add (Concrete (gl 5)) rc_unconstrained.

Lemma rpn_translation_correct_witness :
  mapper_wf (snd (map_expr_to_rpn mapper_new example_sum)) /\
  option_map (fun r => to_integer (fst r)) (evaluate (fst (map_expr_to_rpn mapper_new example_sum)) [] [gl 37]) = Some 42.
Proof.
  split; [|vm_compute; reflexivity].
  destruct (rpn_translation_correct example_sum mapper_new _ _ mapper_new_wf eq_refl) as [Hw _]. exact Hw.
Defined.

(** C31: Whenever the interpreter can be built, calling it is equivalent to the reference
    semantics of the effects: load the fixed cells and known inputs, execute the
    assignments, assertions and machine calls in order on an assignment of the variables,
    and store the written cells and parameters. Both panic on the same inputs. *)
Theorem interpreter_refines_effects {T} `{FieldElement T} {D M} `{World (T:=T) D M}
  (known_inputs : list JitVariable) (effs : list (Effect T JitVariable)) ei :
  interpreter_new known_inputs effs = Some ei ->
  forall row ps (d : D) (ms : M),
    interpreter_call ei row ps d ms = ref_call known_inputs effs row ps d ms.
Proof.
  intros (ret & Ht & Hi)%bind_inv row ps d ms. apply bind_inv in Hi as (u & _ & [= <-]).
  now apply translate_refines.
Qed.

#[local] Instance empty_world : World (T:=GoldilocksField) unit unit := {
  data_get _ _ _ := None;
  data_set _ _ _ _ := None;
  fixed_value _ _ := None;
  call_direct _ _ _ := None
}.

Definition example_effects : list (Effect GoldilocksField JitVariable) :=
  [AssignmentE (Param 1) example_sum; assert_neq (Symbol (Param 1) rc_unconstrained) (Concrete (gl 0))].

Lemma interpreter_refines_effects_witness :
  exists ei, interpreter_new [Param 0] example_effects = Some ei /\
    interpreter_call ei 0 [Input (gl 37); Output (gl 0)] tt tt =
    ref_call [Param 0] example_effects 0 [Input (gl 37); Output (gl 0)] tt tt.
Proof.
  eexists. split; [vm_compute; reflexivity|].
  apply (interpreter_refines_effects [Param 0] example_effects). vm_compute. reflexivity.
Defined.

(** [is_valid] accepts exactly the programs in which no action writes a variable an
    earlier action wrote, and every action reads only variables earlier actions wrote. *)
Theorem is_valid_exact {T} `{FieldElement T} (ei : EffectsInterpreter T) :
  is_valid ei = true <->
  forall pre a post, ei_actions ei = pre ++ a :: post ->
    (forall i, In i (writes a) -> ~ In i (flat_map writes pre)) /\
    (forall i, In i (reads a) -> In i (flat_map writes pre)).
Proof. apply (is_valid_from_spec (ei_actions ei) []). Qed.

(** The interpreter cannot be built for code that reads a fixed column: [writes]
    leaves out [ReadFixedColumn], so the validity assertion fails although the code is
    well-formed and translates. *)
Theorem fixed_columns_rejected {T} `{FieldElement T} (w c : Cell) (rc : RangeConstraint T) :
  let effs := [AssignmentE (WitnessCell w) (Symbol (FixedCell c) rc)] in
  (exists ei, translate [] effs = Some ei) /\ interpreter_new [] effs = None.
Proof.
  assert (Hk : k_eqb (WitnessCell w) (FixedCell c) = false) by reflexivity.
  assert (Hk' : k_eqb (FixedCell c) (WitnessCell w) = false) by reflexivity.
  assert (Hc : k_eqb (FixedCell c) (FixedCell c) = true) by now apply variable_eqb_key.
  assert (Hw : k_eqb (WitnessCell w) (WitnessCell w) = true) by now apply variable_eqb_key.
  intros effs.
  assert (Ht : translate [] effs = Some {| ei_var_count := 2;
    ei_actions := [ReadFixedColumn 0 c; AssignExpression 1 [RSymbol 0%nat]; WriteCell 1 w] |}).
  { unfold translate, load_fixed_column_values, write_data, effs.
    cbn -[k_eqb]. rewrite Hk'. cbn -[k_eqb]. unfold map_var, get_var. cbn -[k_eqb]. rewrite Hk. cbn -[k_eqb].
    rewrite ?Hk', ?Hk, ?Hc, ?Hw. cbn -[k_eqb]. rewrite ?Hk', ?Hk, ?Hc, ?Hw. reflexivity. }
  split; [eauto|]. unfold interpreter_new. rewrite Ht. reflexivity.
Qed.
