(* ===== verification/JitCode.v ===== *)
(** * The code the JIT generates

    The field implementations that generated code is compiled against
    ([executor/src/witgen/jit/includes/field_goldilocks.rs] and
    [field_generic_up_to_64.rs]) and the expressions and branch conditions the compiler
    emits ([executor/src/witgen/jit/compiler.rs]). The arithmetic of
    [field_goldilocks.rs] other than division is the code verified in [Goldilocks.v]. *)

From stdpp Require Import base list option.
From Stdlib Require Import ZArith Lia.
From S2P Require Import Prelude Goldilocks Field RangeConstraints AffineExpression SymbolicExpr Effect.

(** ** Division with integer shortcuts *)

(** [a % b] panics for [b = 0]. *)
Definition try_integer_div_without_remainder (a b : Z) : option (option Z) :=
  _ ← assert_that (negb (b =? 0));
  Some (if a mod b =? 0 then Some (a / b) else None).

(** The cascade both implementations share, with the full division as an argument. *)
Definition div_shortcuts (MODULUS : Z) (full_field_div : Z -> Z -> option Z) (a b : Z) : option Z :=
  r ← try_integer_div_without_remainder a b;
  match r with
  | Some result => Some result
  | None =>
    nb ← checked_sub MODULUS b;
    r ← try_integer_div_without_remainder a nb;
    match r with
    | Some result => checked_sub MODULUS result
    | None =>
      na ← checked_sub MODULUS a;
      r ← try_integer_div_without_remainder na b;
      match r with
      | Some result => checked_sub MODULUS result
      | None =>
        r ← try_integer_div_without_remainder na nb;
        match r with
        | Some result => Some result
        | None => full_field_div a b
        end
      end
    end
  end.

Definition full_field_div (a b : Z) : option Z :=
  i ← try_inverse b; inv ← i; gl_mul a inv.

Definition jit_div (a b : Z) : option Z :=
  if b =? 0 then None
  else if a =? 0 then Some a
  else div_shortcuts ORDER full_field_div a b.

Definition jit_integer_div (a b : Z) : option Z :=
  _ ← assert_that (negb (b =? 0)); Some (a / b).
Definition jit_bitand (a b : Z) : Z := Z.land a b.
Definition jit_bitor (a b : Z) : Z := Z.lor a b.
Definition jit_from (n : Z) : Z := gl_wrap n.

(** ** The generic field: [IntType] has [w] bits, [DoubleIntType] twice as many *)

Section Generic.
Variables (w MODULUS : Z).

(** [IntType::try_from(..).unwrap()] *)
Definition int_try_from (x : Z) : option Z :=
  _ ← assert_that ((0 <=? x) && (x <? 2 ^ w)); Some x.

Definition generic_add (a b : Z) : option Z :=
  s ← checked_add (2 * w) a b; int_try_from (s mod MODULUS).
Definition generic_sub (a b : Z) : option Z :=
  s ← checked_add (2 * w) a MODULUS; d ← checked_sub s b; int_try_from (d mod MODULUS).
Definition generic_neg (a : Z) : option Z :=
  if a =? 0 then Some a else checked_sub MODULUS a.
Definition generic_mul (a b : Z) : option Z :=
  p ← checked_mul (2 * w) a b; int_try_from (p mod MODULUS).
(** The full division is [todo!()]. *)
Definition generic_div (a b : Z) : option Z :=
  if b =? 0 then None else div_shortcuts MODULUS (fun _ _ => None) a b.

End Generic.

(** ** Expressions as the compiler emits them *)

(** [format_expression]: the value of the emitted Rust expression, where a variable is a
    local holding the integer of a field element. *)
Fixpoint compiled_eval {S} (env : S -> Z) (e : SymbolicExpression GoldilocksField S) : option Z :=
  match e with
  | Concrete v => Some (jit_from (to_integer v))
  | Symbol s _ => Some (env s)
  | BinaryOperation l op r _ =>
    a ← compiled_eval env l; b ← compiled_eval env r;
    match op with
    | Add => gl_add a b
    | Sub => gl_sub a b
    | Mul => gl_mul a b
    | Div => jit_div a b
    | IntegerDiv => jit_integer_div a b
    end
  | UnaryOperation Neg e' _ => a ← compiled_eval env e'; gl_neg a
  | BitOperation e' And n _ => a ← compiled_eval env e'; Some (jit_bitand a n)
  end.

(** [format_condition]: the three comparisons it writes. *)
Inductive ConditionCode :=
| VarEq (min : Z)                    (** [var == min] *)
| VarBetween (min max : Z)           (** [min <= var && var <= max] *)
| VarLeOrGe (min max : Z).           (** [var <= min || var >= max] *)

Definition format_condition {T V} `{FieldElement T} (c : BranchCondition T V) : ConditionCode :=
  let '(min, max) := rc_range (condition c) in
  match to_integer min ?= to_integer max with
  | Eq => VarEq (to_integer min)
  | Lt => VarBetween (to_integer min) (to_integer max)
  | Gt => VarLeOrGe (to_integer min) (to_integer max)
  end.

Definition condition_eval (c : ConditionCode) (v : Z) : bool :=
  match c with
  | VarEq min => v =? min
  | VarBetween min max => (min <=? v) && (v <=? max)
  | VarLeOrGe min max => (v <=? min) || (max <=? v)
  end.

(** ** Division is exact *)

(** [q] is the quotient of [a] by [b] modulo [p]. *)
Definition is_quotient (p a b q : Z) : Prop := 0 <= q < p /\ eqm p (q * b) a.

Lemma try_integer_div_spec a b : b <> 0 ->
  try_integer_div_without_remainder a b = Some (if a mod b =? 0 then Some (a / b) else None).
Proof.
  intros Hb. unfold try_integer_div_without_remainder.
  replace (b =? 0) with false by (symmetry; now apply Z.eqb_neq). reflexivity.
Qed.

Lemma exact_div a b : 0 < b -> a mod b = 0 -> a = a / b * b.
Proof. intros Hb H0. pose proof (Z.div_mod a b). lia. Qed.

Lemma div_bounds a b p : 0 <= a < p -> 0 < b -> 0 <= a / b < p.
Proof. intros Ha Hb. split; [apply Z.div_pos; lia|]. apply Z.div_lt_upper_bound; nia. Qed.

(** Each shortcut, when it applies, is exact. *)
Lemma div_shortcuts_spec p full a b : 0 <= a < p -> 0 < b < p ->
  div_shortcuts p full a b = full a b \/
  exists q, div_shortcuts p full a b = Some q /\ is_quotient p a b q.
Proof.
  intros Ha Hb. unfold div_shortcuts, is_quotient.
  rewrite (try_integer_div_spec a b) by lia. cbn [mbind option_bind].
  destruct (Z.eqb_spec (a mod b) 0) as [E1|E1].
  { right. eexists. split; [reflexivity|]. split; [apply div_bounds; lia|].
    rewrite <- (exact_div a b) by lia. reflexivity. }
  assert (Ha0 : a <> 0) by (intros ->; apply E1; apply Z.mod_0_l; lia).
  unfold checked_sub. replace (b <=? p) with true by (symmetry; apply Z.leb_le; lia).
  cbn [mbind option_bind]. rewrite (try_integer_div_spec a (p - b)) by lia. cbn [mbind option_bind].
  destruct (Z.eqb_spec (a mod (p - b)) 0) as [E2|E2].
  { right. pose proof (div_bounds a (p - b) p ltac:(lia) ltac:(lia)) as Hd.
  pose proof (exact_div a (p - b) ltac:(lia) ltac:(assumption)) as He.
  set (d := a / (p - b)) in *.
    replace (_ <=? p) with true by (symmetry; apply Z.leb_le; lia). eexists. split; [reflexivity|]. split; [nia|].
    exists (b - d). lia. }
  replace (a <=? p) with true by (symmetry; apply Z.leb_le; lia). cbn [mbind option_bind].
  rewrite (try_integer_div_spec (p - a) b) by lia. cbn [mbind option_bind].
  destruct (Z.eqb_spec ((p - a) mod b) 0) as [E3|E3].
  { right. pose proof (div_bounds (p - a) b p ltac:(lia) ltac:(lia)) as Hd.
  pose proof (exact_div (p - a) b ltac:(lia) ltac:(assumption)) as He.
  set (d := (p - a) / b) in *.
    replace (_ <=? p) with true by (symmetry; apply Z.leb_le; lia). eexists. split; [reflexivity|]. split; [nia|].
    exists (b - 1). lia. }
  rewrite (try_integer_div_spec (p - a) (p - b)) by lia. cbn [mbind option_bind].
  destruct (Z.eqb_spec ((p - a) mod (p - b)) 0) as [E4|E4]; [|now left].
  right. pose proof (div_bounds (p - a) (p - b) p ltac:(lia) ltac:(lia)) as Hd.
  pose proof (exact_div (p - a) (p - b) ltac:(lia) ltac:(assumption)) as He.
  set (d := (p - a) / (p - b)) in *.
  eexists. split; [reflexivity|]. split; [lia|]. exists (d - 1). lia.
Qed.

Lemma quotient_unique x y q q' : gl_canonical y -> y <> 0 ->
  is_quotient ORDER x y q -> is_quotient ORDER x y q' -> q = q'.
Proof.
  intros Hy H0 [Hq E] [Hq' E']. apply (eqm_small ORDER); [easy..|].
  destruct (f_integral (T:=GoldilocksField) (q - q') y) as [Hd|Hd].
  - change (modulus (T:=GoldilocksField)) with ORDER. transitivity (q * y - q' * y); [eqm_lia|].
    rewrite E, E'. eqm_lia.
  - destruct Hd as [k Hk]. exists k. change (modulus (T:=GoldilocksField)) with ORDER in Hk. lia.
  - apply eqm_small in Hd; change (modulus (T:=GoldilocksField)) with ORDER; unfold gl_canonical in *; lia.
Qed.

Lemma jit_div_is_gl_div a b : gl_canonical a -> gl_canonical b -> b <> 0 -> jit_div a b = gl_div a b.
Proof.
  intros Ha Hb H0. destruct (gl_div_value a b Ha Hb H0) as (q & Hq & Hqc & Hqm).
  assert (HQ : is_quotient ORDER a b q).
  { split; [exact Hqc|]. rewrite <- Hqm. symmetry. apply eqm_mod. }
  assert (Hfull : full_field_div a b = Some q) by exact Hq.
  unfold jit_div. replace (b =? 0) with false by (symmetry; now apply Z.eqb_neq).
  rewrite Hq. destruct (Z.eqb_spec a 0) as [->|Ha0].
  - f_equal. apply (quotient_unique 0 b 0 q Hb H0); [|exact HQ]. split; [gl_unfold; lia|reflexivity].
  - destruct (div_shortcuts_spec ORDER full_field_div a b) as [->|(q' & -> & HQ')].
    + exact Ha.
    + unfold gl_canonical in Hb. lia.
    + exact Hfull.
    + f_equal. now apply (quotient_unique a b).
Qed.

(** The division of the generated code, with its four integer shortcuts, is the
    field division of the library on canonical elements: it panics exactly on a zero
    divisor and otherwise returns the canonical quotient. *)
Theorem jit_division_correct a b : gl_canonical a -> gl_canonical b ->
  jit_div a b = gl_div a b /\
  (b = 0 -> jit_div a b = None) /\
  (b <> 0 -> exists q, jit_div a b = Some q /\ gl_canonical q /\ (q * b) mod ORDER = a).
Proof.
  intros Ha Hb. destruct (Z.eq_dec b 0) as [->|H0].
  - split; [reflexivity|]. split; [reflexivity|]. intros H. now destruct H.
  - rewrite jit_div_is_gl_div by easy. split; [reflexivity|]. split; [easy|].
    intros _. now apply gl_div_value.
Qed.

Lemma jit_division_correct_witness :
  jit_div 10 (ORDER - 5) = Some (ORDER - 2) /\ jit_div 10 (ORDER - 5) = gl_div 10 (ORDER - 5).
Proof.
  split; [vm_compute; reflexivity|].
  destruct (jit_division_correct 10 (ORDER - 5)) as [H _]; [split; vm_compute; congruence..|exact H].
Defined.

Lemma int_try_from_mod w p x : 0 < p <= 2 ^ w -> int_try_from w (x mod p) = Some (x mod p).
Proof.
  intros Hp. pose proof (Z.mod_pos_bound x p). unfold int_try_from.
  replace (_ && _) with true; [reflexivity|]. symmetry. apply andb_true_iff.
  rewrite Z.leb_le, Z.ltb_lt. lia.
Qed.

(** The generic field for moduli below [2 ^ w]: addition, subtraction, negation and
    multiplication never overflow or panic and return the residue. Division panics on
    zero, and whenever it returns, it returns the quotient; it returns whenever one of
    the operands or their negations divides the other exactly. *)
Theorem generic_field_correct w p a b : 0 < w -> 1 < p <= 2 ^ w -> 0 <= a < p -> 0 <= b < p ->
  generic_add w p a b = Some ((a + b) mod p) /\
  generic_sub w p a b = Some ((a - b) mod p) /\
  generic_neg p a = Some ((- a) mod p) /\
  generic_mul w p a b = Some ((a * b) mod p) /\
  generic_div p a 0 = None /\
  (forall q, generic_div p a b = Some q -> is_quotient p a b q) /\
  (b <> 0 -> a mod b = 0 -> generic_div p a b = Some (a / b)).
Proof.
  intros Hw Hp Ha Hb.
  assert (Hdbl : 2 ^ (2 * w) = 2 ^ w * 2 ^ w) by (rewrite <- Z.pow_add_r by lia; f_equal; lia).
  split; [|split; [|split; [|split; [|split; [|split]]]]].
  - unfold generic_add, checked_add. replace (a + b <? 2 ^ (2 * w)) with true by (symmetry; apply Z.ltb_lt; nia).
    apply int_try_from_mod. lia.
  - unfold generic_sub, checked_add, checked_sub.
    replace (a + p <? 2 ^ (2 * w)) with true by (symmetry; apply Z.ltb_lt; nia). cbn [mbind option_bind].
    replace (b <=? a + p) with true by (symmetry; apply Z.leb_le; lia). cbn [mbind option_bind].
    rewrite int_try_from_mod by lia. f_equal. apply eqm_iff. exists 1. lia.
  - unfold generic_neg, checked_sub. case_if; [subst; reflexivity|].
    replace (a <=? p) with true by (symmetry; apply Z.leb_le; lia). f_equal.
    symmetry. apply mod_unique; [lia|]. exists (-1). lia.
  - unfold generic_mul, checked_mul. replace (a * b <? 2 ^ (2 * w)) with true by (symmetry; apply Z.ltb_lt; nia).
    apply int_try_from_mod. lia.
  - reflexivity.
  - intros q. unfold generic_div. case_if; [discriminate|].
    destruct (div_shortcuts_spec p (fun _ _ => None) a b Ha) as [->|(q' & -> & HQ)]; [lia|discriminate|].
    now intros [= <-].
  - intros H0 Hm. unfold generic_div, div_shortcuts. replace (b =? 0) with false by (symmetry; now apply Z.eqb_neq).
    rewrite try_integer_div_spec by easy. cbn [mbind option_bind]. now rewrite Hm.
Qed.

Lemma generic_field_correct_witness :
  generic_sub 32 2013265921 3 5 = Some 2013265919 /\
  generic_div 2013265921 10 2013265916 = Some 2013265919.
Proof.
  destruct (generic_field_correct 32 2013265921 3 5) as (_ & Hs & _); [lia..|].
  split; [rewrite Hs; reflexivity|vm_compute; reflexivity].
Defined.

Section Compiled.
Implicit Types x y : GoldilocksField.

Lemma gl_elem_canonical x : gl_canonical (to_integer x).
Proof. exact (to_integer_range x). Qed.

Lemma compiled_binary op x y :
  match op with
  | Add => gl_add (to_integer x) (to_integer y)
  | Sub => gl_sub (to_integer x) (to_integer y)
  | Mul => gl_mul (to_integer x) (to_integer y)
  | Div => jit_div (to_integer x) (to_integer y)
  | IntegerDiv => jit_integer_div (to_integer x) (to_integer y)
  end = option_map to_integer (binary_eval op x y).
Proof.
  pose proof (gl_elem_canonical x) as Hx. pose proof (gl_elem_canonical y) as Hy.
  destruct op; cbn [binary_eval option_map].
  - rewrite gl_add_spec by easy. now rewrite f_add_spec.
  - rewrite gl_sub_spec by easy. now rewrite f_sub_spec.
  - rewrite gl_mul_spec by easy. now rewrite f_mul_spec.
  - destruct (Z.eq_dec (to_integer y) 0) as [H0|H0].
    + rewrite (f_div_zero x y H0). rewrite H0. reflexivity.
    + destruct (f_div_spec x y H0) as (q & -> & Hq). cbn [option_map].
      rewrite jit_div_is_gl_div by easy. destruct (gl_div_value _ _ Hx Hy H0) as (q' & -> & Hc & Hm). f_equal.
      apply (quotient_unique (to_integer x) (to_integer y)); [easy..| |]; (split; [easy || apply gl_elem_canonical|]).
      * rewrite <- Hm. symmetry. apply eqm_mod.
      * change (modulus (T:=GoldilocksField)) with ORDER in Hq. rewrite <- Hq. symmetry. apply eqm_mod.
  - unfold jit_integer_div. destruct (assert_that _); cbn [mbind option_bind]; [|reflexivity].
    destruct (Z.eq_dec (to_integer y) 0) as [H0|H0].
    + rewrite H0, Zdiv_0_r. destruct (from_biguint_spec (T:=GoldilocksField) 0) as (z & -> & Hz); [vm_compute; intuition congruence|].
      cbn [option_map]. now rewrite Hz.
    + destruct (from_biguint_spec (T:=GoldilocksField) (to_integer x / to_integer y)) as (z & -> & Hz).
      * apply div_bounds; [exact Hx|unfold gl_canonical in Hy; lia].
      * cbn [option_map]. now rewrite Hz.
Qed.

Lemma compiled_eval_spec {S} (env : S -> GoldilocksField) e : sym_form e ->
  compiled_eval (fun s => to_integer (env s)) e = option_map to_integer (sym_eval env e).
Proof.
  induction e as [n|s rc|l IHl op r IHr rc|[] e IH rc|e IH [] n rc]; cbn [compiled_eval sym_eval sym_form]; intros Hf.
  - cbn. f_equal. apply gl_wrap_canonical, gl_elem_canonical.
  - reflexivity.
  - destruct Hf as (Hl & Hr & _). rewrite IHl, IHr by easy.
    destruct (sym_eval env l) as [x|]; cbn [option_map mbind option_bind]; [|reflexivity].
    destruct (sym_eval env r) as [y|]; cbn [option_map mbind option_bind]; [|reflexivity].
    apply compiled_binary.
  - destruct Hf as (Hf & _). rewrite IH by easy.
    destruct (sym_eval env e) as [x|]; cbn [option_map mbind option_bind]; [|reflexivity].
    rewrite gl_neg_spec by apply gl_elem_canonical. cbn [unary_eval]. now rewrite f_neg_spec.
  - destruct Hf as (Hf & Hn & _). rewrite IH by easy.
    destruct (sym_eval env e) as [x|]; cbn [option_map mbind option_bind]; [|reflexivity].
    f_equal. symmetry. now apply (bit_eval_int x n).
Qed.

End Compiled.



(** A generated branch takes the first alternative exactly when the value is in the
    range of the condition, provided the range does not wrap around. For a range that
    does wrap, the emitted test is true for every value. *)
Theorem branch_condition_code {T V} `{FieldLaws T} (c : BranchCondition T V) (v : T) :
  (to_integer (rc_min (condition c)) <= to_integer (rc_max (condition c)) ->
   condition_eval (format_condition c) (to_integer v) = true <->
   in_interval (rc_min (condition c)) (rc_max (condition c)) v) /\
  (to_integer (rc_max (condition c)) < to_integer (rc_min (condition c)) ->
   condition_eval (format_condition c) (to_integer v) = true).
Proof.
  unfold format_condition, rc_range. split.
  - intros Hle. rewrite in_interval_le by exact Hle.
    destruct (Z.compare_spec (to_integer (rc_min (condition c))) (to_integer (rc_max (condition c)))); cbn; b2p;
      rewrite ?andb_true_iff, ?Z.leb_le, ?Z.eqb_eq; lia.
  - intros Hgt. rewrite (proj2 (Z.compare_gt_iff _ _)) by exact Hgt. cbn.
    apply orb_true_iff. rewrite !Z.leb_le. lia.
Qed.

Lemma branch_condition_code_witness :
  condition_eval (format_condition (mkBranchCondition 1 (mkRC (T:=GoldilocksField) int_max (gl 3) (gl 7)))) 5 = true.
Proof.
  change 5 with (to_integer (gl 5)).
  destruct (branch_condition_code (mkBranchCondition 1 (mkRC (T:=GoldilocksField) int_max (gl 3) (gl 7))) (gl 5))
    as [Hle _].
  apply Hle; vm_compute; congruence.
Defined.
