(* ===== verification/PaddedBitVec.v ===== *)
(** * Bit matrix with padded rows, [executor/src/witgen/data_structures/padded_bitvec.rs]

    Flags for the cells of a trace table. Each row starts at a new 32-bit word. *)

From stdpp Require Import base list option.
From Stdlib Require Import ZArith Lia ZifyNat.
From S2P Require Import Prelude.

#[local] Open Scope nat_scope.
#[local] Ltac Zify.zify_post_hook ::= Z.to_euclidean_division_equations.

(** Words are [Z] below [2 ^ 32]; sizes and indices are [nat]. *)
Record PaddedBitVec := mkPaddedBitVec {
  pbv_data : list Z;
  bits_per_row : nat;
  words_per_row : nat;
  rows : nat;
  bits_in_last_row : nat
}.

(** ** Operations *)

Definition pbv_new (bits_per_row : nat) : PaddedBitVec :=
  {| pbv_data := []; bits_per_row := bits_per_row; words_per_row := (bits_per_row + 31) / 32;
     rows := 0; bits_in_last_row := bits_per_row |}.

Definition truncate_to_rows (b : PaddedBitVec) (len : nat) : option PaddedBitVec :=
  _ ← assert_that (len <=? rows b);
  Some (if len <? rows b
        then {| pbv_data := take (len * words_per_row b) (pbv_data b); bits_per_row := bits_per_row b;
                words_per_row := words_per_row b; rows := len; bits_in_last_row := bits_per_row b |}
        else b).

Definition pbv_clear (b : PaddedBitVec) : PaddedBitVec :=
  {| pbv_data := []; bits_per_row := bits_per_row b; words_per_row := words_per_row b;
     rows := 0; bits_in_last_row := bits_per_row b |}.

(** [*data.last_mut().unwrap() |= 1 << bit] *)
Definition set_last_bit (data : list Z) (bit : nat) : option (list Z) :=
  w ← data !! pred (length data);
  Some (<[pred (length data) := Z.lor w (Z.shiftl 1 (Z.of_nat bit))]> data).

Definition pbv_push (b : PaddedBitVec) (value : bool) : option PaddedBitVec :=
  if bits_in_last_row b =? bits_per_row b then
    Some {| pbv_data := pbv_data b ++ [b2z value]; bits_per_row := bits_per_row b;
            words_per_row := words_per_row b; rows := rows b + 1; bits_in_last_row := 1 |}
  else
    data ← (if bits_in_last_row b mod 32 =? 0 then Some (pbv_data b ++ [b2z value])
            else if value then set_last_bit (pbv_data b) (bits_in_last_row b mod 32)
            else Some (pbv_data b));
    Some {| pbv_data := data; bits_per_row := bits_per_row b; words_per_row := words_per_row b;
            rows := rows b; bits_in_last_row := bits_in_last_row b + 1 |}.

Definition append_empty_rows (b : PaddedBitVec) (count : nat) : option PaddedBitVec :=
  _ ← assert_that (bits_in_last_row b =? bits_per_row b);
  Some {| pbv_data := pbv_data b ++ replicate (count * words_per_row b) 0%Z;
          bits_per_row := bits_per_row b; words_per_row := words_per_row b;
          rows := rows b + count; bits_in_last_row := bits_in_last_row b |}.

(** The word index and the bit in it, or the out-of-bounds panic. *)
Definition to_word_and_bit_mask (b : PaddedBitVec) (row col : nat) : option (nat * nat) :=
  if (rows b <=? row) || ((row + 1 =? rows b) && (bits_in_last_row b <=? col)) then None
  else Some (row * words_per_row b + col / 32, col mod 32).

Definition pbv_get (b : PaddedBitVec) (row col : nat) : option bool :=
  wm ← to_word_and_bit_mask b row col;
  w ← pbv_data b !! fst wm;
  Some (negb (Z.land w (Z.shiftl 1 (Z.of_nat (snd wm))) =? 0)%Z).

Definition pbv_set (b : PaddedBitVec) (row col : nat) (value : bool) : option PaddedBitVec :=
  wm ← to_word_and_bit_mask b row col;
  w ← pbv_data b !! fst wm;
  let mask := Z.shiftl 1 (Z.of_nat (snd wm)) in
  let w' := if value then Z.lor w mask else Z.land w (bitnot 32 mask) in
  Some {| pbv_data := <[fst wm := w']> (pbv_data b); bits_per_row := bits_per_row b;
          words_per_row := words_per_row b; rows := rows b; bits_in_last_row := bits_in_last_row b |}.

(** ** Invariant and abstraction *)

Definition pbv_bit (b : PaddedBitVec) (row col : nat) : bool :=
  Z.testbit (nth (row * words_per_row b + col / 32) (pbv_data b) 0%Z) (Z.of_nat (col mod 32)).

Definition in_bounds (b : PaddedBitVec) (row col : nat) : Prop :=
  row < rows b /\ col < bits_per_row b /\ (row + 1 = rows b -> col < bits_in_last_row b).

(** The last row may be incomplete; what follows its last bit in its last word is clear. *)
Record pbv_wf (b : PaddedBitVec) : Prop := {
  wf_words : words_per_row b = (bits_per_row b + 31) / 32;
  wf_row : 0 < bits_per_row b;
  wf_width : Forall (in_width 32) (pbv_data b);
  wf_last : 0 < bits_in_last_row b <= bits_per_row b;
  wf_empty : rows b = 0 -> bits_in_last_row b = bits_per_row b;
  wf_length : length (pbv_data b) + words_per_row b = rows b * words_per_row b + (bits_in_last_row b + 31) / 32;
  wf_padding : forall col, rows b <> 0 -> bits_in_last_row b <= col < bits_per_row b ->
    col / 32 < (bits_in_last_row b + 31) / 32 -> pbv_bit b (rows b - 1) col = false
}.

Lemma word_index_bound b row col : pbv_wf b -> in_bounds b row col ->
  row * words_per_row b + col / 32 < length (pbv_data b).
Proof.
  intros [Hw Hr _ Hl _ Hlen _] (Hrow & Hcol & Hlast).
  assert (Hc : col / 32 < words_per_row b) by lia.
  destruct (Nat.eq_dec (row + 1) (rows b)) as [E|E].
  - specialize (Hlast E). assert (Hc2 : col / 32 < (bits_in_last_row b + 31) / 32) by lia. nia.
  - assert (row + 2 <= rows b) by lia. nia.
Qed.

Lemma bit_set_iff w i : (negb (Z.land w (Z.shiftl 1 (Z.of_nat i)) =? 0)%Z) = Z.testbit w (Z.of_nat i).
Proof.
  rewrite Z.shiftl_1_l. destruct (Z.testbit w (Z.of_nat i)) eqn:E.
  - apply negb_true_iff, Z.eqb_neq. intros H0. apply (f_equal (fun z => Z.testbit z (Z.of_nat i))) in H0.
    rewrite Z.land_spec, E, Z.pow2_bits_true, Z.bits_0 in H0 by lia. discriminate.
  - apply negb_false_iff, Z.eqb_eq. apply Z.bits_inj'. intros j Hj. rewrite Z.land_spec, Z.bits_0.
    destruct (Z.eq_dec (Z.of_nat i) j) as [<-|Hne]; [now rewrite E|].
    rewrite Z.pow2_bits_false by lia. apply andb_false_r.
Qed.

(** Writing a bit of a word. *)
Definition write_bit (w : Z) (i : nat) (v : bool) : Z :=
  let mask := Z.shiftl 1 (Z.of_nat i) in if v then Z.lor w mask else Z.land w (bitnot 32 mask).

Lemma write_bit_spec w i v j : i < 32 -> j < 32 -> in_width 32 w ->
  in_width 32 (write_bit w i v) /\
  Z.testbit (write_bit w i v) (Z.of_nat j) = if j =? i then v else Z.testbit w (Z.of_nat j).
Proof.
  intros Hi Hj Hw. unfold write_bit. rewrite Z.shiftl_1_l.
  assert (Hm : in_width 32 (2 ^ Z.of_nat i)).
  { split; [apply Z.pow_nonneg; lia|]. apply Z.pow_lt_mono_r; lia. }
  destruct v.
  - split; [now apply lor_width|]. rewrite Z.lor_spec. destruct (Nat.eqb_spec j i) as [->|Hne].
    + rewrite Z.pow2_bits_true by lia. apply orb_true_r.
    + rewrite Z.pow2_bits_false by lia. apply orb_false_r.
  - rewrite land_bitnot by (easy || lia). split.
    + pose proof (ldiff_le w (2 ^ Z.of_nat i) ltac:(destruct Hw; lia)).
      unfold in_width in *. split; [apply Z.ldiff_nonneg; lia|lia].
    + rewrite Z.ldiff_spec. destruct (Nat.eqb_spec j i) as [->|Hne].
      * rewrite Z.pow2_bits_true by lia. apply andb_false_r.
      * rewrite Z.pow2_bits_false by lia. apply andb_true_r.
Qed.

Lemma index_inj w r c r' c' : c < w -> c' < w -> r * w + c = r' * w + c' -> r = r' /\ c = c'.
Proof.
  intros Hc Hc' He. assert (r = r') as ->; [|lia].
  destruct (Nat.lt_trichotomy r r') as [Hlt|[->|Hlt]]; [|reflexivity|]; exfalso.
  - assert ((r + 1) * w <= r' * w) by (apply Nat.mul_le_mono_r; lia). lia.
  - assert ((r' + 1) * w <= r * w) by (apply Nat.mul_le_mono_r; lia). lia.
Qed.

Lemma to_word_in_bounds b row col : in_bounds b row col ->
  to_word_and_bit_mask b row col = Some (row * words_per_row b + col / 32, col mod 32).
Proof.
  intros (Hr & _ & Hl). unfold to_word_and_bit_mask.
  replace (rows b <=? row) with false by (symmetry; apply Nat.leb_gt; lia). cbn [orb].
  destruct (Nat.eqb_spec (row + 1) (rows b)) as [E|E]; cbn [andb]; [|reflexivity].
  replace (bits_in_last_row b <=? col) with false by (symmetry; apply Nat.leb_gt; auto). reflexivity.
Qed.

Lemma pbv_get_spec b row col : pbv_wf b -> in_bounds b row col -> pbv_get b row col = Some (pbv_bit b row col).
Proof.
  intros Hwf Hb. pose proof (word_index_bound b row col Hwf Hb) as Hlt. unfold pbv_get.
  rewrite to_word_in_bounds by easy. cbn [mbind option_bind fst snd].
  destruct (lookup_lt_is_Some_2 _ _ Hlt) as (w & Hw). rewrite Hw. cbn [mbind option_bind].
  rewrite bit_set_iff. unfold pbv_bit. now rewrite (nth_lookup_Some _ _ _ _ Hw).
Qed.

(** Two cells are the same, or in different words, or at different bits. *)
Lemma same_word b row col row' col' : pbv_wf b -> col < bits_per_row b -> col' < bits_per_row b ->
  row * words_per_row b + col / 32 = row' * words_per_row b + col' / 32 ->
  (col' mod 32 =? col mod 32) = (row' =? row) && (col' =? col).
Proof.
  intros [Hw _ _ _ _ _ _] Hc Hc' He.
  apply index_inj in He as [-> He]; [|lia..]. rewrite Nat.eqb_refl. cbn [andb].
  destruct (Nat.eqb_spec col' col) as [->|Hne]; [apply Nat.eqb_refl|]. apply Nat.eqb_neq. lia.
Qed.

(** Replacing one word by one with a bit written. *)
Lemma bit_after_write b data' row col v row' col' : pbv_wf b -> col < bits_per_row b -> col' < bits_per_row b ->
  row * words_per_row b + col / 32 < length (pbv_data b) ->
  data' = <[row * words_per_row b + col / 32 :=
            write_bit (nth (row * words_per_row b + col / 32) (pbv_data b) 0%Z) (col mod 32) v]> (pbv_data b) ->
  Z.testbit (nth (row' * words_per_row b + col' / 32) data' 0%Z) (Z.of_nat (col' mod 32)) =
  if (row' =? row) && (col' =? col) then v else pbv_bit b row' col'.
Proof.
  intros Hwf Hc Hc' Hlt ->. set (i := row * words_per_row b + col / 32) in *.
  assert (Hww : in_width 32 (nth i (pbv_data b) 0%Z)).
  { destruct Hwf as [_ _ Hall _ _ _ _]. rewrite List.Forall_forall in Hall. apply Hall. now apply nth_In. }
  destruct (Nat.eq_dec i (row' * words_per_row b + col' / 32)) as [E|E].
  - pose proof (same_word b row col row' col' Hwf Hc Hc' E) as Hsame. rewrite <- Hsame.
    rewrite <- E, (nth_lookup_Some _ _ _ _ (list_lookup_insert_eq _ _ _ Hlt)).
    destruct (write_bit_spec (nth i (pbv_data b) 0%Z) (col mod 32) v (col' mod 32)) as [_ ->]; [lia|lia|easy|].
    unfold pbv_bit. now rewrite <- E.
  - replace ((row' =? row) && (col' =? col)) with false.
    + unfold pbv_bit. rewrite !nth_lookup, list_lookup_insert_ne by exact E. reflexivity.
    + symmetry. apply andb_false_iff. destruct (Nat.eqb_spec row' row) as [->|]; [|now left].
      destruct (Nat.eqb_spec col' col) as [->|]; [|now right]. now destruct E.
Qed.

Lemma width_after_write (data : list Z) i k v : Forall (in_width 32) data -> k < 32 -> i < length data ->
  Forall (in_width 32) (<[i := write_bit (nth i data 0%Z) k v]> data).
Proof.
  intros Hall Hk Hi. apply Forall_insert; [exact Hall|].
  apply (write_bit_spec _ k v 0); [exact Hk|lia|]. rewrite List.Forall_forall in Hall. apply Hall. now apply nth_In.
Qed.

Lemma pbv_set_spec b row col v : pbv_wf b -> in_bounds b row col ->
  exists b', pbv_set b row col v = Some b' /\ pbv_wf b' /\
    (forall r c, in_bounds b' r c <-> in_bounds b r c) /\
    forall r c, in_bounds b r c -> pbv_bit b' r c = if (r =? row) && (c =? col) then v else pbv_bit b r c.
Proof.
  intros Hwf Hb. pose proof (word_index_bound b row col Hwf Hb) as Hlt. pose proof Hb as (_ & Hcol & _).
  unfold pbv_set. rewrite to_word_in_bounds by easy. cbn [mbind option_bind fst snd].
  destruct (lookup_lt_is_Some_2 _ _ Hlt) as (w & Hw). rewrite Hw. cbn [mbind option_bind].
  rewrite <- (nth_lookup_Some _ _ 0%Z _ Hw). fold (write_bit (nth (row * words_per_row b + col / 32) (pbv_data b) 0%Z) (col mod 32) v).
  eexists. split; [reflexivity|].
  assert (Hbit : forall r c, c < bits_per_row b -> pbv_bit
    {| pbv_data := <[row * words_per_row b + col / 32 := write_bit (nth (row * words_per_row b + col / 32) (pbv_data b) 0%Z) (col mod 32) v]> (pbv_data b);
       bits_per_row := bits_per_row b; words_per_row := words_per_row b; rows := rows b;
       bits_in_last_row := bits_in_last_row b |} r c = if (r =? row) && (c =? col) then v else pbv_bit b r c).
  { intros r c Hc. now apply (bit_after_write b). }
  split; [|split; [reflexivity|]].
  - destruct Hwf as [H1 H2 H3 H4 H5 H6 H7]. split; cbn [pbv_data bits_per_row words_per_row rows bits_in_last_row]; auto.
    + apply width_after_write; [easy|lia|easy].
    + now rewrite length_insert.
    + intros c Hr Hc1 Hc2. rewrite Hbit by lia.
      replace ((rows b - 1 =? row) && (c =? col)) with false; [now apply H7|].
      symmetry. apply andb_false_iff. destruct (Nat.eqb_spec (rows b - 1) row) as [E|]; [|now left].
      right. apply Nat.eqb_neq. destruct Hb as (_ & _ & Hlast). specialize (Hlast ltac:(lia)). lia.
  - intros r c (_ & Hc & _). now apply Hbit.
Qed.

(** Where the next bit goes. *)
Definition push_position (b : PaddedBitVec) : nat * nat :=
  if bits_in_last_row b =? bits_per_row b then (rows b, 0) else (rows b - 1, bits_in_last_row b).

(** [b'] is [b] with the bit [v] appended. *)
Definition pushed (b b' : PaddedBitVec) (v : bool) : Prop :=
  pbv_wf b' /\
  (forall r c, in_bounds b' r c <-> in_bounds b r c \/ (r, c) = push_position b) /\
  forall r c, in_bounds b' r c ->
    pbv_bit b' r c = if (r =? fst (push_position b)) && (c =? snd (push_position b)) then v else pbv_bit b r c.

Lemma testbit_b2z v i : Z.testbit (b2z v) (Z.of_nat i) = (i =? 0) && v.
Proof.
  destruct v, i as [|i]; cbn [b2z Nat.eqb andb]; reflexivity.
Qed.

(** A new word at the end. *)
Lemma nth_new_word (data : list Z) w i :
  nth i (data ++ [w]) 0%Z = if i =? length data then w else nth i data 0%Z.
Proof.
  destruct (Nat.eqb_spec i (length data)) as [->|Hne]; [apply nth_middle|].
  destruct (Nat.lt_ge_cases i (length data)) as [Hlt|Hge]; [now apply app_nth1|].
  rewrite !nth_overflow; [easy|lia|rewrite length_app; cbn; lia].
Qed.

Lemma width_new_word (data : list Z) v : Forall (in_width 32) data -> Forall (in_width 32) (data ++ [b2z v]).
Proof. intros Hd. apply Forall_app. split; [exact Hd|]. constructor; [destruct v; split; cbn; lia|constructor]. Qed.

Lemma push_new_row b v : pbv_wf b -> bits_in_last_row b = bits_per_row b ->
  pushed b {| pbv_data := pbv_data b ++ [b2z v]; bits_per_row := bits_per_row b;
              words_per_row := words_per_row b; rows := rows b + 1; bits_in_last_row := 1 |} v.
Proof.
  intros [H1 H2 H3 H4 H5 H6 H7] E. unfold pushed, push_position. rewrite E, Nat.eqb_refl. cbn [fst snd].
  assert (Hlen : length (pbv_data b) = rows b * words_per_row b) by (rewrite E, <- H1 in H6; lia).
  assert (Hbit : forall r c, r <= rows b -> c < bits_per_row b -> (r = rows b -> c < 32) -> pbv_bit
    {| pbv_data := pbv_data b ++ [b2z v]; bits_per_row := bits_per_row b;
       words_per_row := words_per_row b; rows := rows b + 1; bits_in_last_row := 1 |} r c =
    if r =? rows b then (c =? 0) && v else pbv_bit b r c).
  { intros r c Hr Hc H32. unfold pbv_bit; cbn [pbv_data words_per_row]. rewrite nth_new_word, Hlen.
    destruct (Nat.eqb_spec r (rows b)) as [->|Hne].
    - replace (c / 32) with 0 by lia. rewrite Nat.add_0_r, Nat.eqb_refl, testbit_b2z. replace (c mod 32) with c by lia. reflexivity.
    - replace (_ =? _) with false; [reflexivity|]. symmetry. apply Nat.eqb_neq. intros Hi.
      replace (rows b * words_per_row b) with (rows b * words_per_row b + 0) in Hi by lia.
      apply index_inj in Hi; lia. }
  split; [|split].
  - split; cbn [pbv_data bits_per_row words_per_row rows bits_in_last_row]; auto; try lia.
    + now apply width_new_word.
    + rewrite length_app, Hlen. cbn [length]. replace ((1 + 31) / 32) with 1 by reflexivity. lia.
    + intros c _ Hc Hc32. rewrite Hbit by lia. replace (rows b + 1 - 1 =? rows b) with true by (symmetry; apply Nat.eqb_eq; lia).
      replace (c =? 0) with false by (symmetry; apply Nat.eqb_neq; lia). reflexivity.
  - intros r c. unfold in_bounds; cbn [bits_per_row rows bits_in_last_row]. split.
    + intros (Hr & Hc & Hl). destruct (Nat.eq_dec r (rows b)) as [->|]; [right; f_equal; lia|left; lia].
    + intros [(Hr & Hc & Hl)|[= -> ->]]; lia.
  - intros r c (Hr & Hc & Hl). cbn [bits_per_row rows bits_in_last_row] in *. rewrite Hbit by lia.
    destruct (Nat.eqb_spec r (rows b)) as [->|]; cbn [andb]; [|reflexivity].
    replace c with 0 by lia. reflexivity.
Qed.

(** The last row grows by a column. *)
Lemma pushed_same_row b data v : pbv_wf b -> bits_in_last_row b < bits_per_row b -> Forall (in_width 32) data ->
  length data + words_per_row b = rows b * words_per_row b + (bits_in_last_row b + 1 + 31) / 32 ->
  (forall r c, r < rows b -> c < bits_per_row b -> (r = rows b - 1 -> c / 32 <= bits_in_last_row b / 32) ->
    Z.testbit (nth (r * words_per_row b + c / 32) data 0%Z) (Z.of_nat (c mod 32)) =
    if (r =? rows b - 1) && (c =? bits_in_last_row b) then v
    else if (r =? rows b - 1) && (bits_in_last_row b <? c) then false else pbv_bit b r c) ->
  pushed b {| pbv_data := data; bits_per_row := bits_per_row b; words_per_row := words_per_row b;
              rows := rows b; bits_in_last_row := bits_in_last_row b + 1 |} v.
Proof.
  intros [H1 H2 H3 H4 H5 H6 H7] Hlt Hw Hlen Hbit. unfold pushed, push_position.
  replace (bits_in_last_row b =? bits_per_row b) with false by (symmetry; apply Nat.eqb_neq; lia). cbn [fst snd].
  assert (Hrows : rows b <> 0) by (intros E; apply H5 in E; lia).
  split; [|split].
  - split; cbn [pbv_data bits_per_row words_per_row rows bits_in_last_row]; auto; try lia.
    intros c _ Hc Hc32. unfold pbv_bit; cbn [pbv_data words_per_row]. rewrite Hbit by lia.
    rewrite Nat.eqb_refl. cbn [andb]. replace (c =? bits_in_last_row b) with false by (symmetry; apply Nat.eqb_neq; lia).
    replace (bits_in_last_row b <? c) with true by (symmetry; apply Nat.ltb_lt; lia). reflexivity.
  - intros r c. unfold in_bounds; cbn [bits_per_row rows bits_in_last_row]. split.
    + intros (Hr & Hc & Hl). destruct (Nat.eq_dec r (rows b - 1)) as [->|]; [|left; lia].
      destruct (Nat.eq_dec c (bits_in_last_row b)) as [->|]; [now right|left; lia].
    + intros [(Hr & Hc & Hl)|[= -> ->]]; lia.
  - intros r c (Hr & Hc & Hl). cbn [bits_per_row rows bits_in_last_row] in *. unfold pbv_bit at 1; cbn [pbv_data words_per_row].
    rewrite Hbit; [|lia..]. destruct ((r =? rows b - 1) && (c =? bits_in_last_row b)) eqn:E; [reflexivity|].
    replace ((r =? rows b - 1) && (bits_in_last_row b <? c)) with false; [reflexivity|]. symmetry.
    apply andb_false_iff. destruct (Nat.eqb_spec r (rows b - 1)) as [->|]; [right; apply Nat.ltb_ge; lia|now left].
Qed.

Lemma pbv_push_spec b v : pbv_wf b -> exists b', pbv_push b v = Some b' /\ pushed b b' v.
Proof.
  intros Hwf. unfold pbv_push. destruct (Nat.eqb_spec (bits_in_last_row b) (bits_per_row b)) as [E|E].
  { eexists. split; [reflexivity|]. now apply push_new_row. }
  pose proof Hwf as [H1 H2 H3 H4 H5 H6 H7]. assert (Hrows : rows b <> 0) by (intros E0; apply H5 in E0; lia).
  assert (Hr1 : rows b * words_per_row b = (rows b - 1) * words_per_row b + words_per_row b).
  { replace (rows b) with (rows b - 1 + 1) at 1 by lia. lia. }
  assert (Hl : length (pbv_data b) = (rows b - 1) * words_per_row b + (bits_in_last_row b + 31) / 32) by lia.
  destruct (Nat.eqb_spec (bits_in_last_row b mod 32) 0) as [E32|E32]; [|destruct v].
  - cbn [mbind option_bind]. eexists. split; [reflexivity|]. apply pushed_same_row; [easy|lia|now apply width_new_word| |].
    { rewrite length_app. cbn [length]. lia. }
    intros r c Hr Hc Hc32. rewrite nth_new_word. assert (Hlen : length (pbv_data b) = (rows b - 1) * words_per_row b + bits_in_last_row b / 32) by lia.
    rewrite Hlen. destruct (Nat.eqb_spec (r * words_per_row b + c / 32) ((rows b - 1) * words_per_row b + bits_in_last_row b / 32)) as [Ei|Ei].
    + apply index_inj in Ei as [-> Ei]; [|lia..]. rewrite Nat.eqb_refl, testbit_b2z. cbn [andb].
      destruct (Nat.eqb_spec c (bits_in_last_row b)) as [->|]; [now rewrite E32|].
      replace (bits_in_last_row b <? c) with true by (symmetry; apply Nat.ltb_lt; lia).
      replace (c mod 32 =? 0) with false by (symmetry; apply Nat.eqb_neq; lia). reflexivity.
    + destruct (Nat.eqb_spec r (rows b - 1)) as [->|]; cbn [andb]; [|reflexivity].
      replace (c =? bits_in_last_row b) with false by (symmetry; apply Nat.eqb_neq; intros ->; now apply Ei).
      replace (bits_in_last_row b <? c) with false; [reflexivity|]. symmetry. apply Nat.ltb_ge.
      specialize (Hc32 eq_refl). assert (c / 32 <> bits_in_last_row b / 32) by (intros Eq; apply Ei; now rewrite Eq). lia.
  - assert (Hlen : pred (length (pbv_data b)) = (rows b - 1) * words_per_row b + bits_in_last_row b / 32)
      by (rewrite Hl; generalize ((rows b - 1) * words_per_row b); lia).
    assert (Hlt : (rows b - 1) * words_per_row b + bits_in_last_row b / 32 < length (pbv_data b))
      by (rewrite Hl; generalize ((rows b - 1) * words_per_row b); lia).
    unfold set_last_bit. rewrite Hlen. destruct (lookup_lt_is_Some_2 _ _ Hlt) as (w & Hw). rewrite Hw. cbn [mbind option_bind].
    eexists. split; [reflexivity|]. rewrite <- (nth_lookup_Some _ _ 0%Z _ Hw).
    apply pushed_same_row; [easy|lia| | |].
    + apply (width_after_write (pbv_data b) _ (bits_in_last_row b mod 32) true); [easy|lia|easy].
    + rewrite length_insert. lia.
    + intros r c Hr Hc Hc32. rewrite (bit_after_write b _ (rows b - 1) (bits_in_last_row b) true r c Hwf); [|lia|lia|exact Hlt|reflexivity].
      destruct ((r =? rows b - 1) && (c =? bits_in_last_row b)); [reflexivity|].
      destruct ((r =? rows b - 1) && (bits_in_last_row b <? c)) eqn:Eb; [|reflexivity].
      apply andb_true_iff in Eb as [->%Nat.eqb_eq Hlb%Nat.ltb_lt]. apply H7; lia.
  - cbn [mbind option_bind]. eexists. split; [reflexivity|]. apply pushed_same_row; [easy|lia|easy|lia|].
    intros r c Hr Hc Hc32. fold (pbv_bit b r c). destruct (Nat.eqb_spec r (rows b - 1)) as [->|]; cbn [andb]; [|reflexivity].
    destruct (Nat.eqb_spec c (bits_in_last_row b)) as [->|]; [apply H7; lia|].
    destruct (Nat.ltb_spec (bits_in_last_row b) c); [apply H7; lia|reflexivity].
Qed.

Lemma append_empty_rows_spec b count : pbv_wf b -> bits_in_last_row b = bits_per_row b ->
  exists b', append_empty_rows b count = Some b' /\ pbv_wf b' /\
    (forall r c, in_bounds b' r c <-> r < rows b + count /\ c < bits_per_row b) /\
    forall r c, in_bounds b' r c -> pbv_bit b' r c = if r <? rows b then pbv_bit b r c else false.
Proof.
  intros [H1 H2 H3 H4 H5 H6 H7] E. unfold append_empty_rows. rewrite E, Nat.eqb_refl. cbn [assert_that mbind option_bind].
  assert (Hlen : length (pbv_data b) = rows b * words_per_row b) by (rewrite E, <- H1 in H6; lia).
  eexists. split; [reflexivity|]. split; [|split].
  - split; cbn [pbv_data bits_per_row words_per_row rows bits_in_last_row]; auto; try lia.
    + apply Forall_app. split; [easy|]. apply Forall_replicate. split; lia.
    + rewrite length_app, length_replicate, Hlen, <- H1. lia.
  - intros r c. unfold in_bounds; cbn [bits_per_row rows bits_in_last_row]. lia.
  - intros r c (Hr & Hc & _). cbn [bits_per_row rows] in *. unfold pbv_bit; cbn [pbv_data words_per_row].
    destruct (Nat.ltb_spec r (rows b)) as [Hlt|Hge].
    + rewrite app_nth1; [reflexivity|]. assert ((r + 1) * words_per_row b <= rows b * words_per_row b) by (apply Nat.mul_le_mono_r; lia). lia.
    + rewrite app_nth2 by (assert (rows b * words_per_row b <= r * words_per_row b) by (apply Nat.mul_le_mono_r; lia); lia).
      rewrite nth_lookup. destruct (replicate _ _ !! _) as [w|] eqn:Ew; [|apply Z.testbit_0_l].
      apply lookup_replicate in Ew as [-> _]. apply Z.testbit_0_l.
Qed.

Lemma truncate_spec b len : pbv_wf b -> len <= rows b ->
  exists b', truncate_to_rows b len = Some b' /\ pbv_wf b' /\
    (forall r c, in_bounds b' r c <-> in_bounds b r c /\ r < len) /\
    forall r c, in_bounds b' r c -> pbv_bit b' r c = pbv_bit b r c.
Proof.
  intros Hwf Hle. pose proof Hwf as [H1 H2 H3 H4 H5 H6 H7]. unfold truncate_to_rows.
  rewrite (proj2 (Nat.leb_le _ _) Hle). cbn [assert_that mbind option_bind]. eexists. split; [reflexivity|].
  destruct (Nat.ltb_spec len (rows b)) as [Hlt|Hge].
  - assert (Hm : (len + 1) * words_per_row b <= rows b * words_per_row b) by (apply Nat.mul_le_mono_r; lia).
    split; [|split].
    + split; cbn [pbv_data bits_per_row words_per_row rows bits_in_last_row]; auto; try lia.
      * now apply Forall_take.
      * rewrite length_take. lia.
    + intros r c. unfold in_bounds; cbn [bits_per_row rows bits_in_last_row]. lia.
    + intros r c (Hr & Hc & _). cbn [bits_per_row rows] in *. unfold pbv_bit; cbn [pbv_data words_per_row].
      rewrite !nth_lookup, lookup_take_lt; [reflexivity|].
      assert ((r + 1) * words_per_row b <= len * words_per_row b) by (apply Nat.mul_le_mono_r; lia). lia.
  - split; [easy|]. split; [|easy]. intros r c. split; [|tauto]. intros Hb. split; [exact Hb|]. destruct Hb. lia.
Qed.

Lemma pbv_new_wf n : 0 < n -> pbv_wf (pbv_new n).
Proof. intros Hn. split; cbn; auto; try lia. Qed.

Lemma pbv_clear_wf b : pbv_wf b -> pbv_wf (pbv_clear b).
Proof. intros [H1 H2 H3 H4 H5 H6 H7]. split; cbn; auto; try lia. Qed.

(** ** Properties *)

(** The padded bit vector is a growing bit matrix. On a well-formed vector, reading a
    cell never panics and returns its bit; writing a cell changes exactly that cell;
    pushing appends one bit after the last one, starting a new row when the last one is
    full; appending empty rows and truncating keep the remaining cells; and all of them
    keep the vector well-formed, so that no operation sees the padding. *)
Theorem padded_bitvec_is_a_matrix (b : PaddedBitVec) (row col n : nat) (v : bool) : pbv_wf b ->
  (in_bounds b row col -> pbv_get b row col = Some (pbv_bit b row col)) /\
  (in_bounds b row col -> exists b', pbv_set b row col v = Some b' /\ pbv_wf b' /\
     (forall r c, in_bounds b' r c <-> in_bounds b r c) /\
     forall r c, in_bounds b r c -> pbv_bit b' r c = if (r =? row) && (c =? col) then v else pbv_bit b r c) /\
  (exists b', pbv_push b v = Some b' /\ pushed b b' v) /\
  (bits_in_last_row b = bits_per_row b -> exists b', append_empty_rows b n = Some b' /\ pbv_wf b' /\
     (forall r c, in_bounds b' r c <-> r < rows b + n /\ c < bits_per_row b) /\
     forall r c, in_bounds b' r c -> pbv_bit b' r c = if r <? rows b then pbv_bit b r c else false) /\
  (n <= rows b -> exists b', truncate_to_rows b n = Some b' /\ pbv_wf b' /\
     (forall r c, in_bounds b' r c <-> in_bounds b r c /\ r < n) /\
     forall r c, in_bounds b' r c -> pbv_bit b' r c = pbv_bit b r c).
Proof.
  intros Hwf. split; [now apply pbv_get_spec|]. split; [now apply pbv_set_spec|].
  split; [now apply pbv_push_spec|]. split; [now apply append_empty_rows_spec|now apply truncate_spec].
Qed.

Lemma padded_bitvec_is_a_matrix_witness :
  exists b, append_empty_rows (pbv_new 38) 2 = Some b /\
    (b' ← pbv_set b 1 37 true; pbv_get b' 1 37) = Some true /\ in_bounds b 1 37.
Proof.
  destruct (padded_bitvec_is_a_matrix (pbv_new 38) 0 0 2 true) as (_ & _ & _ & Ha & _); [apply pbv_new_wf; lia|].
  destruct Ha as (b & Hb & _ & Hin & _); [reflexivity|]. exists b. split; [exact Hb|]. split.
  - injection Hb as <-. vm_compute. reflexivity.
  - apply Hin. cbn. lia.
Defined.
