(* ===== verification/TraceData.v ===== *)
(** * The trace table

    [executor/src/witgen/data_structures/finalizable_data.rs]: rows of field elements in
    compact form with flags for the known cells, and the sequence of finalized and
    in-progress rows; [executor/src/witgen/jit/includes/interface.rs]: how generated code
    accesses the table. *)

From stdpp Require Import base list option.
From Stdlib Require Import ZArith Lia ZifyNat.
From S2P Require Import Prelude Goldilocks Field RangeConstraints PaddedBitVec.

#[local] Open Scope nat_scope.

(** ** Column layout *)

Record ColumnLayout := mkColumnLayout { first_column_id : nat; column_count : nat }.

Fixpoint list_min (x : nat) (l : list nat) : nat :=
  match l with [] => x | y :: l' => list_min (Nat.min x y) l' end.
Fixpoint list_max_from (x : nat) (l : list nat) : nat :=
  match l with [] => x | y :: l' => list_max_from (Nat.max x y) l' end.

(** Panics without columns. *)
Definition from_id_list (ids : list nat) : option ColumnLayout :=
  match ids with
  | [] => None
  | x :: l =>
    Some {| first_column_id := list_min x l;
            column_count := list_max_from x l - list_min x l + 1 |}
  end.

(** [u64] subtraction panics below zero. *)
Definition to_relative_col (l : ColumnLayout) (col : nat) : option nat :=
  _ ← assert_that (first_column_id l <=? col); Some (col - first_column_id l).
Definition to_absolute_col (l : ColumnLayout) (col : nat) : nat := col + first_column_id l.
Definition layout_index (l : ColumnLayout) (row col : nat) : option nat :=
  rel ← to_relative_col l col; Some (row * column_count l + rel).
Definition column_ids (l : ColumnLayout) : list nat := seq (first_column_id l) (column_count l).

(** ** Compact data *)

Section CompactData.
Context {T : Type} `{FieldElement T}.

(** A row in progress, as far as the table looks at it: the known values by column. *)
Definition Row : Type := nat -> option T.

Record CompactData := mkCompactData {
  layout : ColumnLayout;
  cells : list T;
  known_cells : PaddedBitVec
}.

Definition cd_new (ids : list nat) : option CompactData :=
  l ← from_id_list ids;
  Some {| layout := l; cells := []; known_cells := pbv_new (column_count l) |}.

Definition cd_is_empty (d : CompactData) : bool := match cells d with [] => true | _ => false end.
Definition cd_len (d : CompactData) : nat := length (cells d) / column_count (layout d).

Definition cd_truncate (d : CompactData) (len : nat) : option CompactData :=
  k ← truncate_to_rows (known_cells d) len;
  Some {| layout := layout d; cells := take (len * column_count (layout d)) (cells d); known_cells := k |}.

Definition cd_clear (d : CompactData) : CompactData :=
  {| layout := layout d; cells := []; known_cells := pbv_clear (known_cells d) |}.

Definition cell_value (row : Row) (col : nat) : T := default f_zero (row col).
Definition cell_known (row : Row) (col : nat) : bool := match row col with Some _ => true | None => false end.

Fixpoint push_cells (row : Row) (cols : list nat) (data : list T) (k : PaddedBitVec)
  : option (list T * PaddedBitVec) :=
  match cols with
  | [] => Some (data, k)
  | col :: cols' =>
    k' ← pbv_push k (cell_known row col);
    push_cells row cols' (data ++ [cell_value row col]) k'
  end.

Definition cd_push (d : CompactData) (row : Row) : option CompactData :=
  r ← push_cells row (column_ids (layout d)) (cells d) (known_cells d);
  Some {| layout := layout d; cells := fst r; known_cells := snd r |}.

(** Unknown cells keep their old value and become unknown. *)
Fixpoint set_cells (row : Row) (cols : list nat) (r idx i : nat) (data : list T) (k : PaddedBitVec)
  : option (list T * PaddedBitVec) :=
  match cols with
  | [] => Some (data, k)
  | col :: cols' =>
    match row col with
    | Some v =>
      _ ← data !! (idx + i);
      k' ← pbv_set k r i true;
      set_cells row cols' r idx (i + 1) (<[idx + i := v]> data) k'
    | None =>
      k' ← pbv_set k r i false;
      set_cells row cols' r idx (i + 1) data k'
    end
  end.

Definition cd_set_row (d : CompactData) (r : nat) (row : Row) : option CompactData :=
  res ← set_cells row (column_ids (layout d)) r (r * column_count (layout d)) 0 (cells d) (known_cells d);
  Some {| layout := layout d; cells := fst res; known_cells := snd res |}.

Definition cd_append_new_rows (d : CompactData) (count : nat) : option CompactData :=
  k ← append_empty_rows (known_cells d) count;
  Some {| layout := layout d;
          cells := cells d ++ replicate (count * column_count (layout d)) f_zero; known_cells := k |}.

Definition cd_set (d : CompactData) (row col : nat) (value : T) : option CompactData :=
  idx ← layout_index (layout d) row col;
  _ ← cells d !! idx;
  rel ← to_relative_col (layout d) col;
  k ← pbv_set (known_cells d) row rel true;
  Some {| layout := layout d; cells := <[idx := value]> (cells d); known_cells := k |}.

Definition cd_get (d : CompactData) (row col : nat) : option (T * bool) :=
  idx ← layout_index (layout d) row col;
  rel ← to_relative_col (layout d) col;
  v ← cells d !! idx;
  k ← pbv_get (known_cells d) row rel;
  Some (v, k).

(** ** Invariant: full rows, as many flags as cells *)

Record cd_wf (d : CompactData) : Prop := {
  cdwf_known : pbv_wf (known_cells d);
  cdwf_columns : bits_per_row (known_cells d) = column_count (layout d);
  cdwf_full : bits_in_last_row (known_cells d) = bits_per_row (known_cells d);
  cdwf_cells : length (cells d) = rows (known_cells d) * column_count (layout d)
}.

(** Number of rows, and the value and flag of a cell. *)
Definition cd_rows (d : CompactData) : nat := rows (known_cells d).
Definition cd_cell (d : CompactData) (row rel : nat) : T * bool :=
  (nth (row * column_count (layout d) + rel) (cells d) f_zero, pbv_bit (known_cells d) row rel).
Definition cd_in (d : CompactData) (row rel : nat) : Prop := row < cd_rows d /\ rel < column_count (layout d).

Lemma cd_columns_pos d : cd_wf d -> 0 < column_count (layout d).
Proof. intros [Hk Hc _ _]. rewrite <- Hc. apply Hk. Qed.

Lemma cd_bounds d row rel : cd_wf d -> in_bounds (known_cells d) row rel <-> cd_in d row rel.
Proof. intros [_ Hc Hf _]. unfold in_bounds, cd_in, cd_rows. rewrite Hf, Hc. lia. Qed.

Lemma cd_index_bound d row rel : cd_wf d -> cd_in d row rel ->
  row * column_count (layout d) + rel < length (cells d).
Proof.
  intros [_ _ _ Hl] [Hr Hc]. rewrite Hl. unfold cd_rows in Hr.
  assert ((row + 1) * column_count (layout d) <= rows (known_cells d) * column_count (layout d))
    by (apply Nat.mul_le_mono_r; lia). lia.
Qed.

Lemma cd_len_rows d : cd_wf d -> cd_len d = cd_rows d.
Proof.
  intros Hwf. unfold cd_len. rewrite (cdwf_cells d Hwf). apply Nat.div_mul.
  pose proof (cd_columns_pos d Hwf). lia.
Qed.

Lemma relative_absolute l rel : to_relative_col l (to_absolute_col l rel) = Some rel.
Proof.
  unfold to_relative_col, to_absolute_col. rewrite (proj2 (Nat.leb_le _ _)) by lia.
  cbn. f_equal. lia.
Qed.

Lemma cd_get_spec d row rel : cd_wf d -> cd_in d row rel ->
  cd_get d row (to_absolute_col (layout d) rel) = Some (cd_cell d row rel).
Proof.
  intros Hwf Hin. unfold cd_get, layout_index. rewrite relative_absolute. cbn [mbind option_bind].
  destruct (lookup_lt_is_Some_2 _ _ (cd_index_bound d row rel Hwf Hin)) as (v & Hv). rewrite Hv. cbn [mbind option_bind].
  rewrite pbv_get_spec; [|apply Hwf|now apply cd_bounds]. cbn. unfold cd_cell.
  now rewrite (nth_lookup_Some _ _ _ _ Hv).
Qed.

Lemma nth_insert_if (l : list T) i j x : i < length l ->
  nth j (<[i := x]> l) f_zero = if j =? i then x else nth j l f_zero.
Proof.
  intros Hi. rewrite !nth_lookup. destruct (Nat.eqb_spec j i) as [->|Hne].
  - now rewrite list_lookup_insert_eq.
  - now rewrite list_lookup_insert_ne by lia.
Qed.

Lemma cell_index_eqb w r c r' c' : c < w -> c' < w ->
  (r' * w + c' =? r * w + c) = (r' =? r) && (c' =? c).
Proof.
  intros Hc Hc'. destruct (Nat.eqb_spec (r' * w + c') (r * w + c)) as [E|E].
  - apply index_inj in E as [-> ->]; [|easy..]. now rewrite !Nat.eqb_refl.
  - symmetry. apply andb_false_iff. destruct (Nat.eqb_spec r' r) as [->|]; [|now left].
    right. apply Nat.eqb_neq. intros ->. now destruct E.
Qed.

(** The table [d] with one cell replaced. *)
Definition cell_written (d d' : CompactData) (row rel : nat) (vk : T * bool) : Prop :=
  cd_wf d' /\ layout d' = layout d /\ cd_rows d' = cd_rows d /\
  forall r c, cd_in d r c -> cd_cell d' r c = if (r =? row) && (c =? rel) then vk else cd_cell d r c.

Lemma write_cell_spec d row rel x k : cd_wf d -> cd_in d row rel ->
  exists b, pbv_set (known_cells d) row rel k = Some b /\
    cell_written d {| layout := layout d; cells := <[row * column_count (layout d) + rel := x]> (cells d);
                      known_cells := b |} row rel (x, k).
Proof.
  intros Hwf Hin. pose proof (cd_index_bound d row rel Hwf Hin) as Hlt. pose proof Hwf as [W1 W2 W3 W4].
  destruct (pbv_set_spec (known_cells d) row rel k W1) as (b & Hb & Hbw & Hbb & Hbit); [now apply cd_bounds|].
  exists b. split; [exact Hb|]. unfold pbv_set in Hb. apply bind_inv in Hb as (wm & _ & Hb).
  apply bind_inv in Hb as (w & _ & [= <-]). split; [|split; [|split]]; try reflexivity.
  - split; cbn [layout cells known_cells bits_per_row bits_in_last_row rows] in *; auto. now rewrite length_insert.
  - intros r c Hrc. pose proof Hrc as [_ Hc]. pose proof Hin as [_ Hrel]. unfold cd_cell at 1; cbn [layout cells known_cells].
    rewrite nth_insert_if, cell_index_eqb by easy. rewrite Hbit by now apply cd_bounds.
    unfold cd_cell. now destruct ((r =? row) && (c =? rel)).
Qed.

Lemma cd_set_spec d row rel x : cd_wf d -> cd_in d row rel ->
  exists d', cd_set d row (to_absolute_col (layout d) rel) x = Some d' /\ cell_written d d' row rel (x, true).
Proof.
  intros Hwf Hin. unfold cd_set, layout_index. rewrite relative_absolute. cbn [mbind option_bind].
  destruct (lookup_lt_is_Some_2 _ _ (cd_index_bound d row rel Hwf Hin)) as (v & Hv). rewrite Hv. cbn [mbind option_bind].
  destruct (write_cell_spec d row rel x true Hwf Hin) as (b & -> & Hw). cbn [mbind option_bind]. eauto.
Qed.

End CompactData.

(** ** Whole rows *)

Section Rows.
Context {T : Type} `{FieldElement T}.
Implicit Types (d : CompactData (T:=T)) (row : Row (T:=T)).

Lemma pbv_push_fields b v b' : pbv_push b v = Some b' ->
  bits_per_row b' = bits_per_row b /\
  if bits_in_last_row b =? bits_per_row b then rows b' = rows b + 1 /\ bits_in_last_row b' = 1
  else rows b' = rows b /\ bits_in_last_row b' = bits_in_last_row b + 1.
Proof.
  unfold pbv_push. destruct (bits_in_last_row b =? bits_per_row b); [intros [= <-]; easy|].
  intros (data & _ & [= <-])%bind_inv. easy.
Qed.

(** [k] is [d]'s flags with the first [j] flags of [row] after them. *)
Definition partial_flags d row (j : nat) (k : PaddedBitVec) : Prop :=
  pbv_wf k /\ bits_per_row k = column_count (layout d) /\
  (if j =? 0 then k = known_cells d else rows k = cd_rows d + 1 /\ bits_in_last_row k = j) /\
  (forall r c, r < cd_rows d -> c < column_count (layout d) -> pbv_bit k r c = pbv_bit (known_cells d) r c) /\
  (forall c, c < j -> pbv_bit k (cd_rows d) c = cell_known row (first_column_id (layout d) + c)).

Lemma partial_flags_step d row j k v : cd_wf d -> j < column_count (layout d) -> partial_flags d row j k ->
  v = cell_known row (first_column_id (layout d) + j) ->
  exists k', pbv_push k v = Some k' /\ partial_flags d row (j + 1) k'.
Proof.
  intros Hwf Hj (Hk & Hb & Hpos & Hold & Hnew) Hv. pose proof Hwf as [W1 W2 W3 W4].
  destruct (pbv_push_spec k v Hk) as (k' & Hp & Hkw & Hin & Hbit). exists k'. split; [exact Hp|].
  pose proof (pbv_push_fields k v k' Hp) as [Hb' Hf].
  assert (Hposn : push_position k = (cd_rows d, j) /\ rows k' = cd_rows d + 1 /\ bits_in_last_row k' = j + 1).
  { unfold push_position. destruct (Nat.eqb_spec j 0) as [->|Hj0].
    - subst k. rewrite W3, Nat.eqb_refl in *. split; [reflexivity|exact Hf].
    - destruct Hpos as [Hr Hl]. rewrite Hl, Hb in *.
      replace (j =? column_count (layout d)) with false in * by (symmetry; apply Nat.eqb_neq; lia).
      split; [f_equal; lia|lia]. }
  destruct Hposn as (Hpp & Hrows & Hlast). rewrite Hpp in Hbit, Hin. cbn [fst snd] in Hbit.
  split; [exact Hkw|]. split; [lia|]. split; [|split].
  - replace (j + 1 =? 0) with false by (symmetry; apply Nat.eqb_neq; lia). auto.
  - intros r c Hr Hc. rewrite Hbit by (unfold in_bounds; lia).
    replace (r =? cd_rows d) with false by (symmetry; apply Nat.eqb_neq; lia). now apply Hold.
  - intros c Hc. rewrite Hbit by (unfold in_bounds; lia). rewrite Nat.eqb_refl. cbn [andb].
    destruct (Nat.eqb_spec c j) as [->|]; [exact Hv|]. apply Hnew. lia.
Qed.

Lemma push_cells_spec d row : cd_wf d -> forall n j data k, j + n = column_count (layout d) ->
  partial_flags d row j k ->
  exists k', push_cells row (seq (first_column_id (layout d) + j) n) data k =
      Some (data ++ map (cell_value row) (seq (first_column_id (layout d) + j) n), k') /\
    partial_flags d row (column_count (layout d)) k'.
Proof.
  intros Hwf. induction n as [|n IH]; intros j data k Hj Hp; cbn [seq push_cells map].
  - exists k. rewrite app_nil_r. replace (column_count (layout d)) with j by lia. easy.
  - destruct (partial_flags_step d row j k _ Hwf ltac:(lia) Hp eq_refl) as (k1 & -> & Hp1). cbn [mbind option_bind].
    replace (S (first_column_id (layout d) + j)) with (first_column_id (layout d) + (j + 1)) by lia.
    destruct (IH (j + 1) (data ++ [cell_value row (first_column_id (layout d) + j)]) k1 ltac:(lia) Hp1) as (k' & -> & Hk').
    exists k'. rewrite <- app_assoc. easy.
Qed.

(** The table [d] with [row] after its last row. *)
Definition row_pushed d d' row : Prop :=
  cd_wf d' /\ layout d' = layout d /\ cd_rows d' = cd_rows d + 1 /\
  (forall r c, cd_in d r c -> cd_cell d' r c = cd_cell d r c) /\
  forall c, c < column_count (layout d) ->
    cd_cell d' (cd_rows d) c =
      (cell_value row (to_absolute_col (layout d) c), cell_known row (to_absolute_col (layout d) c)).

Lemma cd_push_spec d row : cd_wf d -> exists d', cd_push d row = Some d' /\ row_pushed d d' row.
Proof.
  intros Hwf. pose proof Hwf as [W1 W2 W3 W4]. pose proof (cd_columns_pos d Hwf) as Hpos.
  unfold cd_push, column_ids. rewrite <- (Nat.add_0_r (first_column_id (layout d))).
  destruct (push_cells_spec d row Hwf (column_count (layout d)) 0 (cells d) (known_cells d)) as (k & -> & Hk); [lia| |].
  { split; [easy|]. split; [easy|]. split; [reflexivity|]. split; [easy|]. intros c Hc. lia. }
  cbn [mbind option_bind fst snd]. eexists. split; [reflexivity|].
  destruct Hk as (Kw & Kb & Kp & Kold & Knew).
  replace (column_count (layout d) =? 0) with false in Kp by (symmetry; apply Nat.eqb_neq; lia). destruct Kp as [Kr Kl].
  split; [|split; [|split; [|split]]].
  - split; cbn [layout cells known_cells]; auto; [lia|]. rewrite length_app, length_map, length_seq, W4, Kr.
    unfold cd_rows. lia.
  - reflexivity.
  - exact Kr.
  - intros r c Hin. pose proof (cd_index_bound d r c Hwf Hin). destruct Hin as [Hr Hc]. unfold cd_cell; cbn [layout cells known_cells].
    rewrite app_nth1, Kold by easy. reflexivity.
  - intros c Hc. unfold cd_cell; cbn [layout cells known_cells]. unfold to_absolute_col.
    rewrite app_nth2 by (rewrite W4; unfold cd_rows; lia). rewrite Knew by exact Hc. rewrite (Nat.add_comm c). f_equal.
    rewrite W4. replace (cd_rows d * column_count (layout d) + c - rows (known_cells d) * column_count (layout d)) with c
      by (unfold cd_rows; lia).
    rewrite (nth_indep _ _ (cell_value row 0)) by now rewrite length_map, length_seq.
    rewrite map_nth, seq_nth by exact Hc. f_equal. lia.
Qed.

Lemma cd_append_spec d n : cd_wf d -> exists d', cd_append_new_rows d n = Some d' /\
  cd_wf d' /\ layout d' = layout d /\ cd_rows d' = cd_rows d + n /\
  forall r c, cd_in d' r c -> cd_cell d' r c = if r <? cd_rows d then cd_cell d r c else (f_zero, false).
Proof.
  intros Hwf. pose proof Hwf as [W1 W2 W3 W4]. unfold cd_append_new_rows.
  destruct (append_empty_rows_spec (known_cells d) n W1 W3) as (k & Hk & Kw & Kin & Kbit). pose proof Hk as Hk0.
  rewrite Hk. cbn [mbind option_bind]. eexists. split; [reflexivity|].
  unfold append_empty_rows in Hk0. apply bind_inv in Hk0 as (u & _ & [= <-]).
  cbn [bits_per_row] in *. split; [|split; [reflexivity|split; [reflexivity|]]].
  - split; cbn [layout cells known_cells bits_per_row bits_in_last_row rows]; auto.
    rewrite length_app, length_replicate, W4. lia.
  - intros r c [Hr Hc]. unfold cd_rows in Hr; cbn [known_cells rows layout] in Hr, Hc.
    unfold cd_cell; cbn [layout cells known_cells]. rewrite Kbit by (apply Kin; lia).
    unfold cd_rows. destruct (Nat.ltb_spec r (rows (known_cells d))) as [Hlt|Hge].
    + rewrite app_nth1; [reflexivity|]. now apply cd_index_bound.
    + f_equal. assert (rows (known_cells d) * column_count (layout d) <= r * column_count (layout d)) by (apply Nat.mul_le_mono_r; lia).
      rewrite app_nth2 by lia. rewrite nth_lookup. destruct (replicate _ _ !! _) as [w|] eqn:Ew; [|reflexivity].
      now apply lookup_replicate in Ew as [-> _].
Qed.

Lemma cd_truncate_spec d n : cd_wf d -> n <= cd_rows d -> exists d', cd_truncate d n = Some d' /\
  cd_wf d' /\ layout d' = layout d /\ cd_rows d' = n /\
  forall r c, cd_in d' r c -> cd_cell d' r c = cd_cell d r c.
Proof.
  intros Hwf Hn. pose proof Hwf as [W1 W2 W3 W4]. unfold cd_truncate, cd_rows in *.
  destruct (truncate_spec (known_cells d) n W1 Hn) as (k & Hk & Kw & Kin & Kbit). rewrite Hk. cbn [mbind option_bind].
  eexists. split; [reflexivity|]. unfold truncate_to_rows in Hk. apply bind_inv in Hk as (u & _ & [= Hk]).
  assert (Kf : bits_per_row k = bits_per_row (known_cells d) /\ rows k = n /\ bits_in_last_row k = bits_per_row k).
  { destruct (Nat.ltb_spec n (rows (known_cells d))); subst k; cbn; [easy|]. split; [easy|]. split; [lia|easy]. }
  destruct Kf as (K1 & K2 & K3). split; [|split; [reflexivity|split; [exact K2|]]].
  - split; cbn [layout cells known_cells]; auto; [congruence|]. rewrite length_take, W4, K2.
    assert (n * column_count (layout d) <= rows (known_cells d) * column_count (layout d)) by (apply Nat.mul_le_mono_r; lia). lia.
  - intros r c [Hr Hc]. unfold cd_rows in Hr; cbn [known_cells layout] in Hr, Hc. rewrite K2 in Hr.
    unfold cd_cell; cbn [layout cells known_cells]. rewrite Kbit.
    + f_equal. rewrite !nth_lookup, lookup_take_lt; [reflexivity|].
      assert ((r + 1) * column_count (layout d) <= n * column_count (layout d)) by (apply Nat.mul_le_mono_r; lia). lia.
    + unfold in_bounds. rewrite K1, K2, K3, K1, W2. lia.
Qed.

End Rows.

(** ** Finalizable data *)

Section FinalizableData.
Context {T : Type} `{FieldElement T}.

Record FinalizableData := mkFinalizableData {
  finalized_data : CompactData (T:=T);
  post_finalized_data : list (Row (T:=T));
  fd_column_ids : list nat
}.

Inductive Location := Finalized (local : nat) | PostFinalized (local : nat).

(** [column_ids] is sorted; the layout comes from it. *)
Definition with_initial_rows_in_progress (ids : list nat) (initial : list (Row (T:=T))) : option FinalizableData :=
  d ← cd_new ids;
  Some {| finalized_data := d; post_finalized_data := initial; fd_column_ids := ids |}.

Definition fd_len (f : FinalizableData) : nat := cd_len (finalized_data f) + length (post_finalized_data f).

Definition fd_is_empty (f : FinalizableData) : bool :=
  cd_is_empty (finalized_data f) && match post_finalized_data f with [] => true | _ => false end.

Definition location_of_row (f : FinalizableData) (row : nat) : Location :=
  if row <? cd_len (finalized_data f) then Finalized row else PostFinalized (row - cd_len (finalized_data f)).

Definition location_of_last_row (f : FinalizableData) : option Location :=
  if fd_is_empty f then None else Some (location_of_row f (fd_len f - 1)).

Definition with_post (f : FinalizableData) (p : list (Row (T:=T))) : FinalizableData :=
  {| finalized_data := finalized_data f; post_finalized_data := p; fd_column_ids := fd_column_ids f |}.
Definition with_finalized (f : FinalizableData) (d : CompactData) : FinalizableData :=
  {| finalized_data := d; post_finalized_data := post_finalized_data f; fd_column_ids := fd_column_ids f |}.

Definition fd_push (f : FinalizableData) (row : Row) : FinalizableData :=
  with_post f (post_finalized_data f ++ [row]).

(** The outer option is the panic on finalized rows. *)
Definition fd_pop (f : FinalizableData) : option (option Row * FinalizableData) :=
  match location_of_last_row f with
  | None => Some (None, f)
  | Some (Finalized _) => None
  | Some (PostFinalized _) =>
    Some (list.last (post_finalized_data f),
          with_post f (take (pred (length (post_finalized_data f))) (post_finalized_data f)))
  end.

Definition fd_extend (f other : FinalizableData) : option FinalizableData :=
  _ ← assert_that (cd_is_empty (finalized_data other));
  Some (with_post f (post_finalized_data f ++ post_finalized_data other)).

Definition fd_clear (f : FinalizableData) : FinalizableData :=
  {| finalized_data := cd_clear (finalized_data f); post_finalized_data := []; fd_column_ids := fd_column_ids f |}.

Definition fd_truncate (f : FinalizableData) (len : nat) : option FinalizableData :=
  if len =? 0 then Some (fd_clear f)
  else
    match location_of_row f (len - 1) with
    | Finalized local =>
      d ← cd_truncate (finalized_data f) (local + 1);
      Some {| finalized_data := d; post_finalized_data := []; fd_column_ids := fd_column_ids f |}
    | PostFinalized local => Some (with_post f (take (local + 1) (post_finalized_data f)))
    end.

(** [Index]: panics on finalized rows and out of range. *)
Definition fd_index (f : FinalizableData) (i : nat) : option Row :=
  if i <? cd_len (finalized_data f) then None
  else post_finalized_data f !! (i - cd_len (finalized_data f)).

Definition fd_set (f : FinalizableData) (i : nat) (row : Row) : option FinalizableData :=
  match location_of_row f i with
  | Finalized local => d ← cd_set_row (finalized_data f) local row; Some (with_finalized f d)
  | PostFinalized local =>
    _ ← post_finalized_data f !! local; Some (with_post f (<[local := row]> (post_finalized_data f)))
  end.

Fixpoint push_rows (d : CompactData) (l : list Row) : option CompactData :=
  match l with
  | [] => Some d
  | row :: l' => d' ← cd_push d row; push_rows d' l'
  end.

Definition finalize_until (f : FinalizableData) (end_ : nat) : option (nat * FinalizableData) :=
  if end_ <? cd_len (finalized_data f) then Some (0, f)
  else
    _ ← assert_that (end_ <=? cd_len (finalized_data f) + length (post_finalized_data f));
    let n := end_ - cd_len (finalized_data f) in
    d ← push_rows (finalized_data f) (take n (post_finalized_data f));
    Some (n, {| finalized_data := d; post_finalized_data := drop n (post_finalized_data f);
                fd_column_ids := fd_column_ids f |}).

Definition finalize_all (f : FinalizableData) : option (nat * FinalizableData) := finalize_until f (fd_len f).

(** Also returns the row that is "row zero" of the reference. *)
Definition append_new_finalized_rows (f : FinalizableData) (count : nat) : option (nat * FinalizableData) :=
  _ ← assert_that (match post_finalized_data f with [] => true | _ => false end);
  d ← cd_append_new_rows (finalized_data f) count;
  Some (cd_len (finalized_data f), with_finalized f d).

Fixpoint get_column (d : CompactData) (col : nat) (rws : list nat) : option (list T * list bool) :=
  match rws with
  | [] => Some ([], [])
  | r :: rws' => vk ← cd_get d r col; rest ← get_column d col rws'; Some (fst vk :: fst rest, snd vk :: snd rest)
  end.

Fixpoint get_columns (d : CompactData) (cols : list nat) : option (list (nat * (list T * list bool))) :=
  match cols with
  | [] => Some []
  | c :: cols' => l ← get_column d c (seq 0 (cd_len d)); rest ← get_columns d cols'; Some ((c, l) :: rest)
  end.

Definition take_transposed (f : FinalizableData) : option (list (nat * (list T * list bool))) :=
  nf ← finalize_all f;
  _ ← assert_that (match post_finalized_data (snd nf) with [] => true | _ => false end);
  get_columns (finalized_data (snd nf)) (fd_column_ids (snd nf)).

(** ** What the rows contain *)

(** The value and flag of a cell, by relative column, wherever the row is stored. *)
Definition fd_cell (f : FinalizableData) (r c : nat) : T * bool :=
  if r <? cd_len (finalized_data f) then cd_cell (finalized_data f) r c
  else match post_finalized_data f !! (r - cd_len (finalized_data f)) with
       | Some row => (cell_value row (to_absolute_col (layout (finalized_data f)) c),
                      cell_known row (to_absolute_col (layout (finalized_data f)) c))
       | None => (f_zero, false)
       end.

Definition fd_wf (f : FinalizableData) : Prop :=
  cd_wf (finalized_data f) /\
  Forall (fun id => exists c, c < column_count (layout (finalized_data f)) /\
    id = to_absolute_col (layout (finalized_data f)) c) (fd_column_ids f).

(** [f'] stores the same rows as [f]. *)
Definition same_rows (f f' : FinalizableData) : Prop :=
  fd_wf f' /\ layout (finalized_data f') = layout (finalized_data f) /\
  fd_column_ids f' = fd_column_ids f /\ fd_len f' = fd_len f /\
  forall r c, r < fd_len f -> c < column_count (layout (finalized_data f)) -> fd_cell f' r c = fd_cell f r c.

Lemma push_rows_spec l : forall d, cd_wf d -> exists d', push_rows d l = Some d' /\ cd_wf d' /\
  layout d' = layout d /\ cd_rows d' = cd_rows d + length l /\
  (forall r c, cd_in d r c -> cd_cell d' r c = cd_cell d r c) /\
  (forall i row c, l !! i = Some row -> c < column_count (layout d) ->
    cd_cell d' (cd_rows d + i) c = (cell_value row (to_absolute_col (layout d) c), cell_known row (to_absolute_col (layout d) c))).
Proof.
  induction l as [|row l IH]; intros d Hwf; cbn [push_rows length].
  - exists d. repeat (split; [easy || lia|]). discriminate.
  - destruct (cd_push_spec d row Hwf) as (d1 & -> & W1 & L1 & R1 & Old1 & New1). cbn [mbind option_bind].
    destruct (IH d1 W1) as (d' & -> & W' & L' & R' & Old' & New'). exists d'. split; [reflexivity|]. split; [easy|].
    split; [congruence|]. split; [lia|]. split.
    + intros r c Hin. rewrite Old', Old1; [easy|easy|]. destruct Hin as [Hr Hc]. unfold cd_in. rewrite L1. lia.
    + intros [|i] row' c Hi Hc; cbn in Hi.
      * injection Hi as <-. rewrite Nat.add_0_r, Old'; [now apply New1|]. unfold cd_in. rewrite L1. lia.
      * replace (cd_rows d + S i) with (cd_rows d1 + i) by lia. rewrite (New' i row' c Hi); [|now rewrite L1]. now rewrite L1.
Qed.

Lemma finalize_until_spec f n : fd_wf f -> n <= fd_len f ->
  exists k f', finalize_until f n = Some (k, f') /\ same_rows f f' /\
    cd_len (finalized_data f') = Nat.max n (cd_len (finalized_data f)).
Proof.
  intros [Hwf Hids] Hn. unfold finalize_until. destruct (Nat.ltb_spec n (cd_len (finalized_data f))) as [Hlt|Hge].
  { exists 0, f. split; [reflexivity|]. split; [|lia]. split; [now split|]. easy. }
  unfold fd_len in Hn. rewrite (proj2 (Nat.leb_le _ _) Hn). cbn [assert_that mbind option_bind].
  set (m := n - cd_len (finalized_data f)).
  destruct (push_rows_spec (take m (post_finalized_data f)) _ Hwf) as (d & -> & W & L & R & Old & New).
  cbn [mbind option_bind]. eexists _, _. split; [reflexivity|].
  pose proof (cd_len_rows _ Hwf) as HL. pose proof (cd_len_rows _ W) as HL'.
  rewrite length_take in R. split; [|cbn [finalized_data]; lia].
  split; [split; [exact W|cbn [finalized_data fd_column_ids]; now rewrite L]|].
  split; [exact L|]. split; [reflexivity|]. split.
  { unfold fd_len; cbn [finalized_data post_finalized_data]. rewrite length_drop. lia. }
  intros r c Hr Hc. unfold fd_len in Hr. unfold fd_cell; cbn [finalized_data post_finalized_data].
  rewrite HL', L. destruct (Nat.ltb_spec r (cd_len (finalized_data f))) as [H1|H1].
  - replace (r <? cd_rows d) with true by (symmetry; apply Nat.ltb_lt; lia). apply Old. split; [lia|exact Hc].
  - destruct (Nat.ltb_spec r (cd_rows d)) as [H2|H2].
    + destruct (lookup_lt_is_Some_2 (post_finalized_data f) (r - cd_len (finalized_data f))) as (row & Hrow); [lia|].
      rewrite Hrow. replace r with (cd_rows (finalized_data f) + (r - cd_len (finalized_data f))) at 1 by lia.
      apply New; [|exact Hc]. rewrite lookup_take_lt by lia. exact Hrow.
    + rewrite lookup_drop. replace (m + (r - cd_rows d)) with (r - cd_len (finalized_data f)) by lia. reflexivity.
Qed.

Lemma get_column_spec d c rws : cd_wf d -> c < column_count (layout d) -> Forall (fun r => r < cd_rows d) rws ->
  get_column d (to_absolute_col (layout d) c) rws =
  Some (map (fun r => fst (cd_cell d r c)) rws, map (fun r => snd (cd_cell d r c)) rws).
Proof.
  intros Hwf Hc. induction 1 as [|r rws Hr Hrs IH]; cbn [get_column map]; [reflexivity|].
  rewrite cd_get_spec by easy. cbn [mbind option_bind]. now rewrite IH.
Qed.

Lemma take_transposed_spec f : fd_wf f -> exists cols, take_transposed f = Some cols /\
  map fst cols = fd_column_ids f /\
  forall col vs ks c, In (col, (vs, ks)) cols -> col = to_absolute_col (layout (finalized_data f)) c ->
    vs = map (fun r => fst (fd_cell f r c)) (seq 0 (fd_len f)) /\
    ks = map (fun r => snd (fd_cell f r c)) (seq 0 (fd_len f)).
Proof.
  intros Hwf. unfold take_transposed, finalize_all.
  destruct (finalize_until_spec f (fd_len f) Hwf ltac:(lia)) as (k & f' & -> & ([W Hids] & L & I & Ln & Hcell) & Hmax).
  cbn [mbind option_bind snd]. assert (Hpost : post_finalized_data f' = []).
  { unfold fd_len in Ln, Hmax. destruct (post_finalized_data f') as [|r p]; [reflexivity|]. cbn [length] in Ln. lia. }
  rewrite Hpost. cbn [assert_that mbind option_bind].
  assert (Hlen : cd_len (finalized_data f') = fd_len f) by (unfold fd_len in *; rewrite Hpost in Ln; cbn in Ln; lia).
  rewrite <- I. clear I. induction (fd_column_ids f') as [|id ids IH]; cbn [get_columns].
  - eexists. split; [reflexivity|]. split; [reflexivity|]. intros ? ? ? ? [].
  - inversion Hids as [|? ? (c & Hc & Hid) Hids']; subst. destruct (IH Hids') as (cols & Hcols & Hm & Hin).
    rewrite get_column_spec; [|exact W|exact Hc|].
    2: { apply List.Forall_forall. intros r Hr%in_seq. rewrite <- (cd_len_rows _ W). lia. }
    cbn [mbind option_bind]. rewrite Hcols. eexists. split; [reflexivity|]. split; [cbn; now rewrite Hm|].
    intros col vs ks c' [[= <- <- <-]|Hin'] Hcol; [|now apply (Hin col)].
    unfold to_absolute_col in Hcol. rewrite L in Hcol. assert (c' = c) as -> by lia. rewrite Hlen.
    split; apply map_ext_in; intros r Hr%in_seq; rewrite <- Hcell by (rewrite <- ?L; lia);
      unfold fd_cell; rewrite (proj2 (Nat.ltb_lt _ _)) by lia; reflexivity.
Qed.

End FinalizableData.

(** ** Setting a whole row *)

Section SetRow.
Context {T : Type} `{FieldElement T}.
Implicit Types (d : CompactData (T:=T)) (row : Row (T:=T)).

(** What the cell of a row becomes. *)
Definition updated_cell row (col : nat) (old : T * bool) : T * bool :=
  match row col with Some v => (v, true) | None => (fst old, false) end.

Lemma set_cells_spec row r : forall n i d, cd_wf d -> r < cd_rows d -> i + n = column_count (layout d) ->
  exists data k, set_cells row (seq (first_column_id (layout d) + i) n) r (r * column_count (layout d)) i
      (cells d) (known_cells d) = Some (data, k) /\
    let d' := {| layout := layout d; cells := data; known_cells := k |} in
    cd_wf d' /\ cd_rows d' = cd_rows d /\
    forall r' c, cd_in d r' c -> cd_cell d' r' c =
      if (r' =? r) && (i <=? c) then updated_cell row (first_column_id (layout d) + c) (cd_cell d r' c) else cd_cell d r' c.
Proof.
  induction n as [|n IH]; intros i d Hwf Hr Hi; cbn [seq set_cells].
  - eexists _, _. split; [reflexivity|]. cbn zeta. split; [now destruct d|]. split; [reflexivity|]. intros r' c [_ Hc].
    replace (i <=? c) with false by (symmetry; apply Nat.leb_gt; lia). rewrite andb_false_r. now destruct d.
  - assert (Hin : cd_in d r i) by (split; [exact Hr|lia]).
    pose proof (cd_index_bound d r i Hwf Hin) as Hlt. destruct (lookup_lt_is_Some_2 _ _ Hlt) as (old & Hold).
    assert (Hstep : forall x b k1, pbv_set (known_cells d) r i b = Some k1 ->
      updated_cell row (first_column_id (layout d) + i) (cd_cell d r i) = (x, b) ->
      cell_written d {| layout := layout d; cells := <[r * column_count (layout d) + i := x]> (cells d); known_cells := k1 |} r i (x, b) ->
      exists data k, set_cells row (seq (S (first_column_id (layout d) + i)) n) r (r * column_count (layout d)) (i + 1)
          (<[r * column_count (layout d) + i := x]> (cells d)) k1 = Some (data, k) /\
        let d' := {| layout := layout d; cells := data; known_cells := k |} in
        cd_wf d' /\ cd_rows d' = cd_rows d /\
        forall r' c, cd_in d r' c -> cd_cell d' r' c =
          if (r' =? r) && (i <=? c) then updated_cell row (first_column_id (layout d) + c) (cd_cell d r' c) else cd_cell d r' c).
    { intros x b k1 _ Hup (W1 & _ & R1 & C1).
      set (d1 := {| layout := layout d; cells := <[r * column_count (layout d) + i := x]> (cells d); known_cells := k1 |}) in *.
      destruct (IH (i + 1) d1 W1) as (data & k & Hset & W2 & R2 & C2); [now rewrite R1|cbn; lia|].
      exists data, k. split; [|split; [exact W2|split; [exact (eq_trans R2 R1)|]]].
      - rewrite <- Hset. cbn [layout cells known_cells d1]. f_equal. f_equal. lia.
      - intros r' c Hrc. rewrite C2 by (destruct Hrc as [Hrr Hcc]; split; [now rewrite R1|exact Hcc]). cbn [layout d1].
        rewrite C1 by exact Hrc. destruct (Nat.eqb_spec r' r) as [->|]; cbn [andb]; [|reflexivity].
        destruct (Nat.eqb_spec c i) as [->|Hne].
        + rewrite Nat.leb_refl. replace (i + 1 <=? i) with false by (symmetry; apply Nat.leb_gt; lia). now rewrite Hup.
        + replace (i + 1 <=? c) with (i <=? c); [reflexivity|]. apply eq_true_iff_eq. rewrite !Nat.leb_le. lia. }
    assert (Hval : cd_cell d r i = (old, snd (cd_cell d r i))) by (unfold cd_cell; cbn [snd]; now rewrite (nth_lookup_Some _ _ _ _ Hold)).
    unfold updated_cell in Hstep at 1. destruct (row (first_column_id (layout d) + i)) as [v|] eqn:Ev.
    + rewrite Hold. cbn [mbind option_bind]. destruct (write_cell_spec d r i v true Hwf Hin) as (k1 & Hk1 & Hw).
      rewrite Hk1. cbn [mbind option_bind]. now apply (Hstep v true k1).
    + destruct (write_cell_spec d r i old false Hwf Hin) as (k1 & Hk1 & Hw). rewrite Hk1. cbn [mbind option_bind].
      assert (Hup : (fst (cd_cell d r i), false) = (old, false)) by (rewrite Hval; reflexivity).
      pose proof (Hstep old false k1 Hk1 Hup Hw) as Hres. rewrite (list_insert_id _ _ _ Hold) in Hres. exact Hres.
Qed.

Lemma cd_set_row_spec d r row : cd_wf d -> r < cd_rows d ->
  exists d', cd_set_row d r row = Some d' /\ cd_wf d' /\ layout d' = layout d /\ cd_rows d' = cd_rows d /\
    forall r' c, cd_in d r' c -> cd_cell d' r' c =
      if r' =? r then updated_cell row (to_absolute_col (layout d) c) (cd_cell d r' c) else cd_cell d r' c.
Proof.
  intros Hwf Hr. unfold cd_set_row, column_ids.
  destruct (set_cells_spec row r (column_count (layout d)) 0 d Hwf Hr ltac:(lia)) as (data & k & Hset & W & R & C).
  rewrite Nat.add_0_r in Hset. rewrite Hset. cbn [mbind option_bind fst snd]. eexists. split; [reflexivity|].
  split; [exact W|]. split; [reflexivity|]. split; [exact R|]. intros r' c Hin. rewrite C by exact Hin.
  cbn [Nat.leb]. rewrite andb_true_r. unfold to_absolute_col. now rewrite (Nat.add_comm c).
Qed.

End SetRow.

(** ** Access from generated code *)

Section JitInterface.
Context {T : Type} `{FieldElement T}.

(** [(global_offset as i64 + local_offset as i64) as u64] for a row that exists. *)
Definition jit_row (global_offset : nat) (local_offset : Z) : option nat :=
  let r := (Z.of_nat global_offset + local_offset)%Z in
  _ ← assert_that (0 <=? r)%Z; Some (Z.to_nat r).

Definition jit_index (l : ColumnLayout) (global_offset : nat) (local_offset : Z) (column : nat) : option nat :=
  rel ← to_relative_col l column;
  row ← jit_row global_offset local_offset;
  Some (row * column_count l + rel).

Definition jit_index_known (l : ColumnLayout) (global_offset : nat) (local_offset : Z) (column : nat) : option (nat * nat) :=
  rel ← to_relative_col l column;
  row ← jit_row global_offset local_offset;
  Some (row * ((column_count l + 31) / 32) + rel / 32, rel mod 32).

Definition jit_get (l : ColumnLayout) (data : list T) (global_offset : nat) (local_offset : Z) (column : nat) : option T :=
  i ← jit_index l global_offset local_offset column; data !! i.

Definition jit_set (l : ColumnLayout) (data : list T) (global_offset : nat) (local_offset : Z) (column : nat) (value : T)
  : option (list T) :=
  i ← jit_index l global_offset local_offset column; _ ← data !! i; Some (<[i := value]> data).

Definition jit_set_known (l : ColumnLayout) (known : list Z) (global_offset : nat) (local_offset : Z) (column : nat)
  : option (list Z) :=
  ib ← jit_index_known l global_offset local_offset column;
  w ← known !! fst ib;
  Some (<[fst ib := Z.lor w (Z.shiftl 1 (Z.of_nat (snd ib)))]> known).

Lemma jit_access_spec (d : CompactData (T:=T)) row rel global local x : cd_wf d -> cd_in d row rel ->
  (Z.of_nat global + local = Z.of_nat row)%Z ->
  jit_get (layout d) (cells d) global local (to_absolute_col (layout d) rel) = Some (fst (cd_cell d row rel)) /\
  exists d', cd_set d row (to_absolute_col (layout d) rel) x = Some d' /\
    jit_set (layout d) (cells d) global local (to_absolute_col (layout d) rel) x = Some (cells d') /\
    jit_set_known (layout d) (pbv_data (known_cells d)) global local (to_absolute_col (layout d) rel)
      = Some (pbv_data (known_cells d')).
Proof.
  intros Hwf Hin Hrow. pose proof (cd_index_bound d row rel Hwf Hin) as Hlt.
  assert (Hjr : jit_row global local = Some row).
  { unfold jit_row. rewrite Hrow, (proj2 (Z.leb_le _ _)) by lia. cbn. now rewrite Nat2Z.id. }
  destruct (lookup_lt_is_Some_2 _ _ Hlt) as (v & Hv).
  unfold jit_get, jit_set, jit_set_known, jit_index, jit_index_known. rewrite relative_absolute, Hjr. cbn [mbind option_bind].
  split; [rewrite Hv; unfold cd_cell; cbn [fst]; now rewrite (nth_lookup_Some _ _ _ _ Hv)|].
  unfold cd_set, layout_index. rewrite relative_absolute. cbn [mbind option_bind]. rewrite Hv. cbn [mbind option_bind].
  pose proof Hwf as [W1 W2 _ _]. pose proof (proj2 (cd_bounds d row rel Hwf) Hin) as Hb.
  unfold pbv_set. rewrite to_word_in_bounds by exact Hb. cbn [mbind option_bind fst snd].
  destruct (lookup_lt_is_Some_2 _ _ (word_index_bound _ row rel W1 Hb)) as (w & Hw). rewrite Hw. cbn [mbind option_bind].
  eexists. split; [reflexivity|]. split; [reflexivity|]. cbn [known_cells pbv_data].
  rewrite <- W2, <- (wf_words _ W1), Hw. reflexivity.
Qed.

End JitInterface.

(** ** Properties *)

(** Compact data is a table of cells with a value and a "known" flag each. On a
    well-formed table: reading an existing cell never panics; setting a cell makes exactly
    that cell known with the value; pushing a row appends its known values (unknown cells
    read as zero); overwriting a row updates exactly its cells, and unknown cells keep
    their value but lose the flag; appended rows are unknown zeros; truncating keeps the
    remaining rows. *)
Theorem compact_data_correct {T} `{FieldElement T} (d : CompactData (T:=T)) (row : Row (T:=T)) r c n (x : T) :
  cd_wf d -> cd_in d r c ->
  cd_get d r (to_absolute_col (layout d) c) = Some (cd_cell d r c) /\
  (exists d', cd_set d r (to_absolute_col (layout d) c) x = Some d' /\ cell_written d d' r c (x, true)) /\
  (exists d', cd_push d row = Some d' /\ row_pushed d d' row) /\
  (exists d', cd_set_row d r row = Some d' /\ cd_wf d' /\ layout d' = layout d /\ cd_rows d' = cd_rows d /\
     forall r' c', cd_in d r' c' -> cd_cell d' r' c' =
       if r' =? r then updated_cell row (to_absolute_col (layout d) c') (cd_cell d r' c') else cd_cell d r' c') /\
  (exists d', cd_append_new_rows d n = Some d' /\ cd_wf d' /\ layout d' = layout d /\ cd_rows d' = cd_rows d + n /\
     forall r' c', cd_in d' r' c' -> cd_cell d' r' c' = if r' <? cd_rows d then cd_cell d r' c' else (f_zero, false)) /\
  (n <= cd_rows d -> exists d', cd_truncate d n = Some d' /\ cd_wf d' /\ layout d' = layout d /\ cd_rows d' = n /\
     forall r' c', cd_in d' r' c' -> cd_cell d' r' c' = cd_cell d r' c').
Proof.
  intros Hwf Hin. split; [now apply cd_get_spec|]. split; [now apply cd_set_spec|].
  split; [now apply cd_push_spec|]. split; [apply cd_set_row_spec; [easy|apply Hin]|].
  split; [now apply cd_append_spec|now apply cd_truncate_spec].
Qed.

(** A table of two rows with columns 7 to 9. *)
Definition example_table : CompactData (T:=GoldilocksField) :=
  {| layout := {| first_column_id := 7; column_count := 3 |};
     cells := replicate 6 (gl 0);
     known_cells := {| pbv_data := [0; 0]%Z; bits_per_row := 3; words_per_row := 1; rows := 2; bits_in_last_row := 3 |} |}.

Lemma example_table_wf : cd_wf example_table.
Proof.
  split; try reflexivity. split; cbn; try lia. repeat constructor; lia.
Qed.

Lemma compact_data_correct_witness :
  exists d', cd_set example_table 1 8 (gl 5) = Some d' /\ cell_written example_table d' 1 1 (gl 5, true).
Proof.
  destruct (compact_data_correct example_table (fun _ => None) 1 1 0 (gl 5)) as (_ & Hset & _);
    [exact example_table_wf|split; cbn; lia|exact Hset].
Defined.

(** Finalizing rows is invisible: it moves rows into the compact part without
    changing the number of rows or the value and flag of any cell, and the transposed
    columns contain exactly the cells of the rows, wherever they were stored. *)
Theorem finalization_preserves_rows {T} `{FieldElement T} (f : FinalizableData (T:=T)) n :
  fd_wf f -> n <= fd_len f ->
  (exists k f', finalize_until f n = Some (k, f') /\ same_rows f f' /\
     cd_len (finalized_data f') = Nat.max n (cd_len (finalized_data f))) /\
  (exists cols, take_transposed f = Some cols /\ map fst cols = fd_column_ids f /\
     forall col vs ks c, In (col, (vs, ks)) cols -> col = to_absolute_col (layout (finalized_data f)) c ->
       vs = map (fun r => fst (fd_cell f r c)) (seq 0 (fd_len f)) /\
       ks = map (fun r => snd (fd_cell f r c)) (seq 0 (fd_len f))).
Proof. intros Hwf Hn. split; [now apply finalize_until_spec|now apply take_transposed_spec]. Qed.

Definition example_rows : FinalizableData (T:=GoldilocksField) :=
  {| finalized_data := example_table;
     post_finalized_data := [fun c => if c =? 8 then Some (gl 4) else None];
     fd_column_ids := [7; 8; 9] |}.

Lemma finalization_preserves_rows_witness :
  exists k f', finalize_until example_rows 3 = Some (k, f') /\ same_rows example_rows f' /\ fd_len f' = 3.
Proof.
  destruct (finalization_preserves_rows example_rows 3) as [(k & f' & Hf & Hs & _) _].
  - split; [exact example_table_wf|]. constructor; [exists 0; cbn; lia|].
    constructor; [exists 1; cbn; lia|]. constructor; [exists 2; cbn; lia|constructor].
  - cbn. lia.
  - exists k, f'. split; [exact Hf|]. split; [exact Hs|]. destruct Hs as (_ & _ & _ & Hl & _). exact Hl.
Defined.

(** Generated code and the table agree on where a cell is: reading through the raw
    slices gives the value of the cell, and writing the value and then the flag leaves
    the slices exactly as [CompactData::set] does. *)
Theorem jit_access_agrees {T} `{FieldElement T} (d : CompactData (T:=T)) row rel global local (x : T) :
  cd_wf d -> cd_in d row rel -> (Z.of_nat global + local = Z.of_nat row)%Z ->
  jit_get (layout d) (cells d) global local (to_absolute_col (layout d) rel) = Some (fst (cd_cell d row rel)) /\
  exists d', cd_set d row (to_absolute_col (layout d) rel) x = Some d' /\
    jit_set (layout d) (cells d) global local (to_absolute_col (layout d) rel) x = Some (cells d') /\
    jit_set_known (layout d) (pbv_data (known_cells d)) global local (to_absolute_col (layout d) rel)
      = Some (pbv_data (known_cells d')).
Proof. apply jit_access_spec. Qed.

Lemma jit_access_agrees_witness :
  jit_get (layout example_table) (cells example_table) 0 1 8 = Some (gl 0).
Proof.
  destruct (jit_access_agrees example_table 1 1 0 1 (gl 5)) as [Hg _];
    [exact example_table_wf|split; cbn; lia|lia|exact Hg].
Defined.
