(* ===== verification/SequenceIterator.v ===== *)
(** * Order of processing in block machines, [executor/src/witgen/sequence_iterator.rs]

    The iterator that decides which identity or query the block processor tries next, as
    a state machine driven by progress reports, and the cache of successful sequences. *)

From stdpp Require Import base list option.
From Stdlib Require Import ZArith Lia.
From S2P Require Import Prelude Field AffineExpression.

(** ** The default iterator

    [cur_action_index] is an [i32] in the code; it stays between -1 and the number of
    identities plus 1 (see [dsi_inv]), so it is an unbounded [Z] here. *)

Inductive Action := OuterQuery | ProverQueries | InternalIdentity (i : nat).

Record SequenceStep := mkSequenceStep { row_delta : Z; action : Action }.

Record DefaultSequenceIterator := mkDefaultSequenceIterator {
  identities_count : nat;
  row_deltas : list Z;
  outer_query_row : option Z;
  progress_in_current_round : bool;
  cur_row_delta_index : nat;
  cur_action_index : Z;
  progress_steps : list SequenceStep
}.

(** [a..=b] and [(a..b).rev()]. *)
Definition range_incl (a b : Z) : list Z :=
  map (fun i => a + Z.of_nat i) (seq 0 (Z.to_nat (b - a + 1))).
Definition range_rev (a b : Z) : list Z :=
  rev (map (fun i => a + Z.of_nat i) (seq 0 (Z.to_nat (b - a)))).

Definition default_row_deltas (block_size : nat) : list Z :=
  let max_row := Z.of_nat block_size - 1 in
  range_incl (-1) max_row ++ range_rev (-1) max_row ++ range_incl 0 max_row ++ range_rev (-1) max_row.

Definition dsi_new (block_size n : nat) (outer : option Z) : DefaultSequenceIterator :=
  {| identities_count := n; row_deltas := default_row_deltas block_size; outer_query_row := outer;
     progress_in_current_round := false; cur_row_delta_index := 0; cur_action_index := -1;
     progress_steps := [] |}.

Definition is_done (s : DefaultSequenceIterator) : bool :=
  Nat.eqb (cur_row_delta_index s) (length (row_deltas s)).

Definition is_outer_row (s : DefaultSequenceIterator) (row : Z) : bool :=
  match outer_query_row s with Some r => r =? row | None => false end.

(** Indexing past the end panics. *)
Definition has_more_actions (s : DefaultSequenceIterator) : option bool :=
  row ← row_deltas s !! cur_row_delta_index s;
  let last_action_index :=
    if is_outer_row s row then Z.of_nat (identities_count s) + 1 else Z.of_nat (identities_count s) in
  Some (cur_action_index s <? last_action_index).

Definition start_next_round (s : DefaultSequenceIterator) : DefaultSequenceIterator :=
  {| identities_count := identities_count s; row_deltas := row_deltas s; outer_query_row := outer_query_row s;
     progress_in_current_round := false;
     cur_row_delta_index :=
       if negb (progress_in_current_round s) then S (cur_row_delta_index s) else cur_row_delta_index s;
     cur_action_index := -1; progress_steps := progress_steps s |}.

Definition next_action (s : DefaultSequenceIterator) : DefaultSequenceIterator :=
  {| identities_count := identities_count s; row_deltas := row_deltas s; outer_query_row := outer_query_row s;
     progress_in_current_round := progress_in_current_round s; cur_row_delta_index := cur_row_delta_index s;
     cur_action_index := cur_action_index s + 1; progress_steps := progress_steps s |}.

Definition update_state (s : DefaultSequenceIterator) : option DefaultSequenceIterator :=
  if is_done s then Some (next_action s)
  else
    more ← has_more_actions s;
    Some (next_action (if negb more || progress_in_current_round s then start_next_round s else s)).

Definition current_step (s : DefaultSequenceIterator) : option SequenceStep :=
  _ ← assert_that (negb (cur_action_index s =? -1));
  row ← row_deltas s !! cur_row_delta_index s;
  let i := if is_outer_row s row then Z.to_nat (cur_action_index s) else S (Z.to_nat (cur_action_index s)) in
  Some {| row_delta := row;
          action := match i with O => OuterQuery | S O => ProverQueries | S (S j) => InternalIdentity j end |}.

Definition report_progress (s : DefaultSequenceIterator) (progress : bool) : option DefaultSequenceIterator :=
  _ ← assert_that (negb (cur_action_index s =? -1));
  steps ← (if progress then st ← current_step s; Some (progress_steps s ++ [st]) else Some (progress_steps s));
  Some {| identities_count := identities_count s; row_deltas := row_deltas s; outer_query_row := outer_query_row s;
          progress_in_current_round := progress_in_current_round s || progress;
          cur_row_delta_index := cur_row_delta_index s; cur_action_index := cur_action_index s;
          progress_steps := steps |}.

(** The outer option is a panic, the inner one the end of the iteration. *)
Definition dsi_next (s : DefaultSequenceIterator) : option (option SequenceStep * DefaultSequenceIterator) :=
  s' ← update_state s;
  if is_done s' then Some (None, s')
  else st ← current_step s'; Some (Some st, s').

(** Driving the iterator with the answers of the processor, until it ends or the answers
    run out: the steps taken, whether it ended, and the final state. *)
Fixpoint drive (answers : list bool) (s : DefaultSequenceIterator)
  : option (list SequenceStep * bool * DefaultSequenceIterator) :=
  match answers with
  | [] => Some ([], false, s)
  | a :: answers' =>
    r ← dsi_next s;
    match r with
    | (None, s') => Some ([], true, s')
    | (Some st, s') =>
      s'' ← report_progress s' a;
      rest ← drive answers' s'';
      let '(sts, e, s3) := rest in Some (st :: sts, e, s3)
    end
  end.

(** ** Cached sequences *)

Record CachedSequenceIterator := mkCachedSequenceIterator {
  cached_iterator : list SequenceStep;
  cached_iterator_exhausted : bool;
  default_iterator : DefaultSequenceIterator
}.

Inductive ProcessingSequenceIterator :=
| DefaultIt (it : DefaultSequenceIterator)
| CachedIt (it : CachedSequenceIterator)
| IncompleteIt.

Inductive CacheEntry := CompleteEntry (l : list SequenceStep) | IncompleteEntry.

(** Keyed by which of the expressions on the left are constant. *)
Record ProcessingSequenceCache := mkProcessingSequenceCache {
  psc_block_size : nat;
  psc_outer_query_row : nat;
  psc_identities_count : nat;
  psc_cache : list (list bool * CacheEntry)
}.

Definition sequence_cache_key {K T} (left : list (AffineExpression K T)) : list bool := map is_constant left.

Definition psi_report_progress (it : ProcessingSequenceIterator) (p : bool) : option ProcessingSequenceIterator :=
  match it with
  | DefaultIt d => d' ← report_progress d p; Some (DefaultIt d')
  | CachedIt c =>
    if cached_iterator_exhausted c then
      d ← report_progress (default_iterator c) p;
      Some (CachedIt {| cached_iterator := cached_iterator c; cached_iterator_exhausted := true; default_iterator := d |})
    else Some (CachedIt c)
  | IncompleteIt => None
  end.

Definition has_steps (it : ProcessingSequenceIterator) : bool :=
  match it with DefaultIt _ | CachedIt _ => true | IncompleteIt => false end.

Definition psi_next (it : ProcessingSequenceIterator) : option (option SequenceStep * ProcessingSequenceIterator) :=
  match it with
  | DefaultIt d => r ← dsi_next d; Some (fst r, DefaultIt (snd r))
  | CachedIt c =>
    match cached_iterator c with
    | st :: rest =>
      Some (Some st, CachedIt {| cached_iterator := rest; cached_iterator_exhausted := false;
                                 default_iterator := default_iterator c |})
    | [] =>
      r ← dsi_next (default_iterator c);
      Some (fst r, CachedIt {| cached_iterator := []; cached_iterator_exhausted := true; default_iterator := snd r |})
    end
  | IncompleteIt => None
  end.

Definition key_eqb (a b : list bool) : bool := bool_decide (a = b).

Fixpoint cache_get (k : list bool) (l : list (list bool * CacheEntry)) : option CacheEntry :=
  match l with
  | [] => None
  | (k', e) :: l' => if key_eqb k k' then Some e else cache_get k l'
  end.

Definition psc_default (c : ProcessingSequenceCache) : DefaultSequenceIterator :=
  dsi_new (psc_block_size c) (psc_identities_count c) (Some (Z.of_nat (psc_outer_query_row c))).

Definition get_processing_sequence {K T} (c : ProcessingSequenceCache) (left : list (AffineExpression K T))
  : ProcessingSequenceIterator :=
  match cache_get (sequence_cache_key left) (psc_cache c) with
  | Some (CompleteEntry l) =>
    CachedIt {| cached_iterator := l; cached_iterator_exhausted := false; default_iterator := psc_default c |}
  | Some IncompleteEntry => IncompleteIt
  | None => DefaultIt (psc_default c)
  end.

(** [assert!(insert(..).is_none())] *)
Definition cache_insert (c : ProcessingSequenceCache) (k : list bool) (e : CacheEntry) : option ProcessingSequenceCache :=
  _ ← assert_that (match cache_get k (psc_cache c) with None => true | _ => false end);
  Some {| psc_block_size := psc_block_size c; psc_outer_query_row := psc_outer_query_row c;
          psc_identities_count := psc_identities_count c; psc_cache := (k, e) :: psc_cache c |}.

Definition report_incomplete {K T} (c : ProcessingSequenceCache) (left : list (AffineExpression K T))
  : option ProcessingSequenceCache := cache_insert c (sequence_cache_key left) IncompleteEntry.

Definition report_processing_sequence {K T} (c : ProcessingSequenceCache) (left : list (AffineExpression K T))
  (it : ProcessingSequenceIterator) : option ProcessingSequenceCache :=
  match it with
  | DefaultIt d => cache_insert c (sequence_cache_key left) (CompleteEntry (progress_steps d))
  | IncompleteIt => None
  | CachedIt _ => Some c
  end.

(** ** Invariant *)

(** The last action of a row. *)
Definition last_action (s : DefaultSequenceIterator) (row : Z) : Z :=
  if is_outer_row s row then Z.of_nat (identities_count s) + 1 else Z.of_nat (identities_count s).

Definition action_at (outer : bool) (j : Z) : Action :=
  match (if outer then Z.to_nat j else S (Z.to_nat j)) with
  | O => OuterQuery | S O => ProverQueries | S (S i) => InternalIdentity i
  end.

Record dsi_inv (s : DefaultSequenceIterator) : Prop := {
  inv_row : (cur_row_delta_index s <= length (row_deltas s))%nat;
  inv_action : -1 <= cur_action_index s;
  inv_last : forall row, row_deltas s !! cur_row_delta_index s = Some row -> cur_action_index s <= last_action s row;
  inv_end : is_done s = true -> progress_in_current_round s = false
}.

(** The fields the iterator never changes. *)
Definition same_config (s s' : DefaultSequenceIterator) : Prop :=
  identities_count s' = identities_count s /\ row_deltas s' = row_deltas s /\ outer_query_row s' = outer_query_row s.

(** How many more steps there can be without progress. *)
Definition potential (s : DefaultSequenceIterator) : Z :=
  (Z.of_nat (length (row_deltas s)) - Z.of_nat (cur_row_delta_index s)) * (Z.of_nat (identities_count s) + 2)
  - (cur_action_index s + 1).

Lemma last_action_bounds s row : 0 <= last_action s row <= Z.of_nat (identities_count s) + 1.
Proof. unfold last_action. destruct (is_outer_row s row); lia. Qed.

Lemma not_done_row s : dsi_inv s -> is_done s = false -> exists row, row_deltas s !! cur_row_delta_index s = Some row.
Proof.
  intros [Hr _ _ _] Hd. unfold is_done in Hd. apply Nat.eqb_neq in Hd. apply lookup_lt_is_Some_2. lia.
Qed.

(** The state after [update_state], by cases. *)
Lemma update_state_spec s : dsi_inv s -> is_done s = false ->
  exists s', update_state s = Some s' /\ same_config s s' /\ progress_in_current_round s' = false /\
    progress_steps s' = progress_steps s /\
    ((cur_row_delta_index s' = cur_row_delta_index s /\ progress_in_current_round s = false /\
      cur_action_index s' = cur_action_index s + 1 /\
      exists row, row_deltas s !! cur_row_delta_index s = Some row /\ cur_action_index s < last_action s row) \/
     (cur_row_delta_index s' = cur_row_delta_index s /\ progress_in_current_round s = true /\ cur_action_index s' = 0) \/
     (cur_row_delta_index s' = S (cur_row_delta_index s) /\ progress_in_current_round s = false /\ cur_action_index s' = 0 /\
      exists row, row_deltas s !! cur_row_delta_index s = Some row /\ last_action s row <= cur_action_index s)).
Proof.
  intros Hinv Hd. destruct (not_done_row s Hinv Hd) as (row & Hrow). unfold update_state. rewrite Hd.
  unfold has_more_actions. rewrite Hrow. cbn [mbind option_bind]. fold (last_action s row).
  destruct (progress_in_current_round s) eqn:Ep; [|destruct (Z.ltb_spec (cur_action_index s) (last_action s row)) as [Hlt|Hge]];
    rewrite ?orb_true_r; cbn [negb orb]; (eexists; split; [reflexivity|]); (split; [easy|]).
  - split; [reflexivity|]. split; [reflexivity|]. right; left. cbn. now rewrite Ep.
  - split; [exact Ep|]. split; [reflexivity|]. left. eauto 6.
  - split; [reflexivity|]. split; [reflexivity|]. right; right. cbn. rewrite Ep. eauto 6.
Qed.

Lemma current_step_spec s row : row_deltas s !! cur_row_delta_index s = Some row -> 0 <= cur_action_index s ->
  current_step s = Some {| row_delta := row; action := action_at (is_outer_row s row) (cur_action_index s) |}.
Proof.
  intros Hrow Ha. unfold current_step. replace (cur_action_index s =? -1) with false by (symmetry; apply Z.eqb_neq; lia).
  cbn [negb assert_that mbind option_bind]. now rewrite Hrow.
Qed.

(** One step: it ends, or yields the step of the new state and uses up potential, which a
    report of progress renews. *)
Lemma dsi_next_spec s : dsi_inv s -> is_done s = false ->
  exists r s', dsi_next s = Some (r, s') /\ dsi_inv s' /\ same_config s s' /\ progress_in_current_round s' = false /\
    match r with
    | None => is_done s' = true
    | Some st =>
      is_done s' = false /\ 0 <= cur_action_index s' /\ 0 <= potential s' /\
      potential s' + 1 <= potential s + (if progress_in_current_round s then Z.of_nat (identities_count s) + 2 else 0) /\
      exists row, row_deltas s !! cur_row_delta_index s' = Some row /\ cur_action_index s' <= last_action s row /\
        st = {| row_delta := row; action := action_at (is_outer_row s row) (cur_action_index s') |}
    end.
Proof.
  intros Hinv Hd. destruct (update_state_spec s Hinv Hd) as (s' & Hu & Hc & Hp & _ & Hcases). pose proof Hc as (C1 & C2 & C3).
  assert (Hlast : forall row, last_action s' row = last_action s row) by (intros row; unfold last_action, is_outer_row; now rewrite C1, C3).
  pose proof Hinv as [Hr Ha Hl _].
  assert (Hlt : (cur_row_delta_index s < length (row_deltas s))%nat) by (unfold is_done in Hd; apply Nat.eqb_neq in Hd; lia).
  assert (Hinv' : dsi_inv s').
  { split; rewrite ?C2; try easy; [lia|lia|]. intros row Hrow. rewrite Hlast. pose proof (last_action_bounds s row).
    destruct Hcases as [(E & _ & -> & row' & Hrow' & Hlt')|[(E & _ & ->)|(E & _ & -> & _)]]; [|lia..].
    rewrite E in Hrow. rewrite Hrow in Hrow'. injection Hrow' as <-. lia. }
  unfold dsi_next. rewrite Hu. cbn [mbind option_bind]. destruct (is_done s') eqn:Ed.
  { exists None, s'. auto 6. }
  destruct (not_done_row s' Hinv' Ed) as (row & Hrow). pose proof Hinv' as [Hr' Ha' Hl' _].
  assert (Ha0 : 0 <= cur_action_index s') by lia.
  rewrite (current_step_spec s' row Hrow Ha0). cbn [mbind option_bind]. eexists _, s'. split; [reflexivity|].
  specialize (Hl' row Hrow). rewrite Hlast in Hl'. pose proof (last_action_bounds s row).
  assert (Hlt' : (cur_row_delta_index s' < length (row_deltas s'))%nat) by (unfold is_done in Ed; apply Nat.eqb_neq in Ed; lia).
  repeat (split; [easy|]). unfold potential. rewrite C1, C2 in *. split; [nia|]. split.
  - destruct Hcases as [(-> & -> & -> & _)|[(-> & -> & ->)|(-> & -> & -> & row' & Hrow' & Hge)]]; [lia| |].
    + destruct (lookup_lt_is_Some_2 _ _ Hlt) as (row0 & Hrow0). pose proof (last_action_bounds s row0).
      specialize (Hl row0 Hrow0). nia.
    + specialize (Hl row' Hrow'). pose proof (last_action_bounds s row'). nia.
  - exists row. split; [exact Hrow|]. split; [exact Hl'|]. unfold is_outer_row. now rewrite C3.
Qed.

Lemma report_progress_spec s p row : row_deltas s !! cur_row_delta_index s = Some row -> 0 <= cur_action_index s ->
  exists s', report_progress s p = Some s' /\ same_config s s' /\
    cur_row_delta_index s' = cur_row_delta_index s /\ cur_action_index s' = cur_action_index s /\
    progress_in_current_round s' = progress_in_current_round s || p /\
    progress_steps s' = progress_steps s ++ (if p then
      [{| row_delta := row; action := action_at (is_outer_row s row) (cur_action_index s) |}] else []).
Proof.
  intros Hrow Ha. unfold report_progress. replace (cur_action_index s =? -1) with false by (symmetry; apply Z.eqb_neq; lia).
  cbn [negb assert_that mbind option_bind]. destruct p.
  - rewrite (current_step_spec s row Hrow Ha). cbn [mbind option_bind]. eexists. split; [reflexivity|]. easy.
  - cbn [mbind option_bind]. eexists. split; [reflexivity|]. rewrite app_nil_r. easy.
Qed.

(** ** Runs *)

Definition trues (l : list bool) : Z := foldr (fun b n => b2z b + n) 0 l.

Lemma trues_nonneg l : 0 <= trues l.
Proof. induction l as [|b l IH]; [easy|]. cbn [trues foldr]. fold (trues l). destruct b; cbn [b2z]; lia. Qed.

(** A step the processor may be asked to take. *)
Definition step_valid (s : DefaultSequenceIterator) (st : SequenceStep) : Prop :=
  In (row_delta st) (row_deltas s) /\
  match action st with
  | OuterQuery => outer_query_row s = Some (row_delta st)
  | ProverQueries => True
  | InternalIdentity i => (i < identities_count s)%nat
  end.

Lemma step_at_valid s row j : In row (row_deltas s) -> 0 <= j <= last_action s row ->
  step_valid s {| row_delta := row; action := action_at (is_outer_row s row) j |}.
Proof.
  intros Hin Hj. split; [exact Hin|]. unfold last_action, action_at, is_outer_row in *. cbn [action row_delta].
  destruct (outer_query_row s) as [o|] eqn:Eo; [destruct (Z.eqb_spec o row) as [->|Hne]|].
  - destruct (Z.to_nat j) as [|[|i]] eqn:Ej; [reflexivity|exact I|lia].
  - destruct (Z.to_nat j) as [|i] eqn:Ej; [exact I|lia].
  - destruct (Z.to_nat j) as [|i] eqn:Ej; [exact I|lia].
Qed.

Lemma step_valid_config s s' st : same_config s s' -> step_valid s' st -> step_valid s st.
Proof. intros (C1 & C2 & C3). unfold step_valid. now rewrite C1, C2, C3. Qed.

(** After a step and its report the invariant holds again. *)
Lemma after_report s s' p row : dsi_inv s -> is_done s = false -> row_deltas s !! cur_row_delta_index s = Some row ->
  same_config s s' -> cur_row_delta_index s' = cur_row_delta_index s -> cur_action_index s' = cur_action_index s ->
  progress_in_current_round s' = p -> dsi_inv s' /\ is_done s' = false /\ potential s' = potential s.
Proof.
  intros [I1 I2 I3 I4] Hd Hrow (C1 & C2 & C3) Er Ea Ep. assert (Hd' : is_done s' = false) by (unfold is_done; now rewrite Er, C2).
  split; [|split; [exact Hd'|unfold potential; now rewrite C1, C2, Er, Ea]].
  split; rewrite ?Er, ?Ea, ?C2; auto; [|congruence]. intros r Hr. unfold last_action, is_outer_row. rewrite C1, C3. now apply I3.
Qed.

Lemma drive_spec answers : forall s, dsi_inv s -> is_done s = false -> 0 <= potential s ->
  exists steps e s', drive answers s = Some (steps, e, s') /\ Forall (step_valid s) steps /\
    Z.of_nat (length steps) <= potential s +
      (Z.of_nat (identities_count s) + 2) * (b2z (progress_in_current_round s) + trues answers) /\
    (e = false -> length steps = length answers).
Proof.
  induction answers as [|a answers IH]; intros s Hinv Hd Hpot; cbn [drive].
  - exists [], false, s. split; [reflexivity|]. split; [constructor|]. split; [|easy]. cbn.
    destruct (progress_in_current_round s); cbn; lia.
  - destruct (dsi_next_spec s Hinv Hd) as (r & s1 & -> & I1 & C1 & P1 & Hr). cbn [mbind option_bind].
    pose proof (trues_nonneg answers) as Htr.
    destruct r as [st|].
    + destruct Hr as (D1 & A1 & Pot1 & Dec & row & Hrow & Hla & ->). pose proof C1 as (E1 & E2 & E3).
      rewrite <- E2 in Hrow. destruct (report_progress_spec s1 a row Hrow A1) as (s2 & -> & C2 & R2 & A2 & P2 & _). cbn [mbind option_bind].
      destruct (after_report s1 s2 _ row I1 D1 Hrow C2 R2 A2 eq_refl) as (I2 & D2 & Pot2).
      destruct (IH s2 I2 D2 ltac:(lia)) as (steps & e & s3 & -> & V & B & L). cbn [mbind option_bind].
      eexists _, e, s3. split; [reflexivity|]. split; [|split; [|intros He; cbn; now rewrite L]].
      * constructor.
        -- apply step_at_valid; [|lia]. rewrite <- E2. apply list_elem_of_In. eapply list_elem_of_lookup_2; eauto.
        -- eapply List.Forall_impl; [|exact V]. intros st Hst. apply (step_valid_config s s1 st C1).
           now apply (step_valid_config s1 s2 st C2).
      * cbn [length]. pose proof C2 as (F1 & _ & _). rewrite F1, E1 in B. rewrite P2, P1 in B. cbn [orb] in B.
        cbn [trues foldr]. fold (trues answers). destruct (progress_in_current_round s); cbn [b2z] in *; nia.
    + exists [], true, s1. split; [reflexivity|]. split; [constructor|]. split; [|easy]. cbn [length trues foldr]. fold (trues answers).
      destruct (progress_in_current_round s), a; cbn [b2z]; nia.
Qed.

(** ** The order of the steps *)

(** What the doc comment of the iterator promises: the actions of a row are tried in order,
    from the start again after each one that makes progress, and the next row begins when a
    whole pass makes none. *)
Definition row_actions (n : nat) (outer : option Z) (row : Z) : list Action :=
  (if match outer with Some r => r =? row | None => false end then [OuterQuery] else []) ++
  ProverQueries :: map InternalIdentity (seq 0 n).

(** The next action, given the rows from the current one on and what is left of the pass. *)
Definition advance (acts : Z -> list Action) (rows : list Z) (todo : list Action)
  : option (SequenceStep * list Z * list Action) :=
  match todo with
  | act :: todo' => match rows with row :: _ => Some (mkSequenceStep row act, rows, todo') | [] => None end
  | [] =>
    match tail rows with
    | (row :: _) as rows' =>
      match acts row with act :: todo' => Some (mkSequenceStep row act, rows', todo') | [] => None end
    | [] => None
    end
  end.

Fixpoint process_rows (acts : Z -> list Action) (answers : list bool) (rows : list Z) (todo : list Action)
  : list SequenceStep * bool :=
  match answers with
  | [] => ([], false)
  | a :: answers' =>
    match advance acts rows todo with
    | None => ([], true)
    | Some (st, rows', todo') =>
      let '(sts, e) := process_rows acts answers' rows' (if a then acts (row_delta st) else todo') in (st :: sts, e)
    end
  end.

Definition progress_of (steps : list SequenceStep) (answers : list bool) : list SequenceStep :=
  map fst (List.filter snd (combine steps answers)).

Definition acts_of (s : DefaultSequenceIterator) : Z -> list Action := row_actions (identities_count s) (outer_query_row s).

Definition pass_left (s : DefaultSequenceIterator) (row : Z) : list Action :=
  if progress_in_current_round s then acts_of s row else drop (Z.to_nat (cur_action_index s + 1)) (acts_of s row).

Lemma acts_length s row : Z.of_nat (length (acts_of s row)) = last_action s row + 1.
Proof.
  unfold acts_of, row_actions, last_action, is_outer_row. rewrite length_app. cbn [length]. rewrite length_map, length_seq.
  destruct (outer_query_row s) as [o|]; [destruct (o =? row)|]; cbn [length]; lia.
Qed.

Lemma identities_drop n k : (k < n)%nat ->
  drop k (map InternalIdentity (seq 0 n)) = InternalIdentity k :: drop (S k) (map InternalIdentity (seq 0 n)).
Proof. intros Hk. apply drop_S. rewrite list_lookup_fmap, lookup_seq_lt by exact Hk. reflexivity. Qed.

(** The actions from one index on. *)
Lemma acts_drop s row j : 0 <= j <= last_action s row ->
  drop (Z.to_nat j) (acts_of s row) = action_at (is_outer_row s row) j :: drop (Z.to_nat (j + 1)) (acts_of s row).
Proof.
  intros Hj. rewrite Z2Nat.inj_add by lia. change (Z.to_nat 1) with 1%nat. rewrite Nat.add_1_r.
  unfold acts_of, row_actions, action_at, last_action, is_outer_row in *.
  destruct (outer_query_row s) as [o|]; [destruct (o =? row)|]; cbn [app].
  - destruct (Z.to_nat j) as [|[|i]] eqn:Ej; [reflexivity|reflexivity|]. cbn [drop]. apply identities_drop. lia.
  - destruct (Z.to_nat j) as [|i] eqn:Ej; [reflexivity|]. cbn [drop]. apply identities_drop. lia.
  - destruct (Z.to_nat j) as [|i] eqn:Ej; [reflexivity|]. cbn [drop]. apply identities_drop. lia.
Qed.

(** One call of [next] is one [advance]. *)
Lemma dsi_next_advance s row : dsi_inv s -> is_done s = false -> row_deltas s !! cur_row_delta_index s = Some row ->
  exists s', same_config s s' /\ progress_steps s' = progress_steps s /\
    match advance (acts_of s) (drop (cur_row_delta_index s) (row_deltas s)) (pass_left s row) with
    | None => dsi_next s = Some (None, s')
    | Some (st, rows', todo') =>
      dsi_next s = Some (Some st, s') /\ dsi_inv s' /\ is_done s' = false /\ progress_in_current_round s' = false /\
      0 <= cur_action_index s' /\ row_deltas s !! cur_row_delta_index s' = Some (row_delta st) /\
      rows' = drop (cur_row_delta_index s') (row_deltas s) /\
      todo' = drop (Z.to_nat (cur_action_index s' + 1)) (acts_of s (row_delta st)) /\
      st = {| row_delta := row_delta st; action := action_at (is_outer_row s (row_delta st)) (cur_action_index s') |}
    end.
Proof.
  intros Hinv Hd Hrow. destruct (update_state_spec s Hinv Hd) as (s0 & Hu & Hc0 & Hp0 & Hs0 & Hcases).
  destruct (dsi_next_spec s Hinv Hd) as (r & s' & Hn & I' & C' & P' & Hr).
  assert (s' = s0) as -> by (unfold dsi_next in Hn; rewrite Hu in Hn; cbn in Hn; destruct (is_done s0); [congruence|];
    destruct (current_step s0); cbn in Hn; congruence).
  exists s0. split; [exact Hc0|]. split; [exact Hs0|]. pose proof (last_action_bounds s row) as Hla. pose proof C' as (C1 & C2 & C3).
  rewrite (drop_S _ _ _ Hrow). unfold pass_left.
  destruct Hcases as [(Er & -> & Ea & row' & Hrow' & Hlt)|[(Er & -> & Ea)|(Er & -> & Ea & row' & Hrow' & Hge)]].
  - rewrite Hrow in Hrow'. injection Hrow' as <-. destruct Hinv as [_ Ha _ _].
    rewrite acts_drop by lia. cbn [advance tail]. destruct r as [st|]; [|unfold is_done in *; rewrite C2, Er in Hr; congruence].
    destruct Hr as (D & A & _ & _ & row2 & Hrow2 & _ & ->). rewrite Er, Hrow in Hrow2. injection Hrow2 as <-.
    rewrite Ea in *. cbn [row_delta]. rewrite <- (drop_S _ _ _ Hrow), Er. repeat (split; [easy|]). reflexivity.
  - pose proof (acts_drop s row 0 ltac:(lia)) as E. cbn [Z.to_nat drop] in E. rewrite drop_0 in E. rewrite E. cbn [advance tail].
    destruct r as [st|]; [|unfold is_done in *; rewrite C2, Er in Hr; congruence].
    destruct Hr as (D & A & _ & _ & row2 & Hrow2 & _ & ->). rewrite Er, Hrow in Hrow2. injection Hrow2 as <-.
    rewrite Ea in *. cbn [row_delta]. rewrite <- (drop_S _ _ _ Hrow), Er. repeat (split; [easy|]). reflexivity.
  - rewrite Hrow in Hrow'. injection Hrow' as <-. pose proof (acts_length s row) as Hlen.
    rewrite (drop_ge (acts_of s row)) by lia. destruct r as [st|].
    + destruct Hr as (D & A & _ & _ & row2 & Hrow2 & _ & ->). pose proof Hrow2 as Hrow3. rewrite Er in Hrow3.
      rewrite (drop_S _ _ _ Hrow3). cbn [advance tail]. pose proof (last_action_bounds s row2).
      pose proof (acts_drop s row2 0 ltac:(lia)) as E. cbn [Z.to_nat] in E. rewrite drop_0 in E. rewrite E.
      rewrite Ea in *. cbn [row_delta]. rewrite ?Er, (drop_S _ _ _ Hrow3). repeat (split; [easy|]). reflexivity.
    + unfold is_done in Hr. apply Nat.eqb_eq in Hr. rewrite C2, Er in Hr. rewrite drop_ge by lia. cbn [advance tail]. exact Hn.
Qed.

(** A run is the reference order, and collects the steps that made progress. *)
Lemma drive_process_rows answers : forall s row, dsi_inv s -> is_done s = false ->
  row_deltas s !! cur_row_delta_index s = Some row ->
  let '(steps, e) := process_rows (acts_of s) answers (drop (cur_row_delta_index s) (row_deltas s)) (pass_left s row) in
  exists s', drive answers s = Some (steps, e, s') /\ progress_steps s' = progress_steps s ++ progress_of steps answers.
Proof.
  induction answers as [|a answers IH]; intros s row Hinv Hd Hrow; cbn [process_rows drive].
  { exists s. now rewrite app_nil_r. }
  destruct (dsi_next_advance s row Hinv Hd Hrow) as (s1 & C1 & S1 & Hadv). destruct (advance _ _ _) as [[[st rows'] todo']|].
  - destruct Hadv as (-> & I1 & D1 & P1 & A1 & Hrow1 & -> & -> & Est). cbn [mbind option_bind]. pose proof C1 as (E1 & E2 & E3).
    rewrite <- E2 in Hrow1. destruct (report_progress_spec s1 a (row_delta st) Hrow1 A1) as (s2 & -> & C2 & R2 & A2 & P2 & S2).
    cbn [mbind option_bind]. destruct (after_report s1 s2 _ _ I1 D1 Hrow1 C2 R2 A2 eq_refl) as (I2 & D2 & _). pose proof C2 as (F1 & F2 & F3).
    assert (Hrow2 : row_deltas s2 !! cur_row_delta_index s2 = Some (row_delta st)) by now rewrite F2, R2.
    specialize (IH s2 (row_delta st) I2 D2 Hrow2).
    assert (Hacts : acts_of s2 = acts_of s) by (unfold acts_of; now rewrite F1, F3, E1, E3).
    unfold pass_left in IH. rewrite Hacts, P2, P1, A2, R2, F2, E2 in IH. cbn [orb] in IH.
    destruct (process_rows _ answers _ _) as [steps e]. destruct IH as (s3 & -> & S3). exists s3. split; [reflexivity|].
    rewrite S3, S2, S1, <- app_assoc. f_equal. unfold is_outer_row in *. rewrite E3, <- Est. unfold progress_of. cbn [combine List.filter snd].
    destruct a; reflexivity.
  - rewrite Hadv. cbn [mbind option_bind]. exists s1. split; [reflexivity|]. now rewrite S1, app_nil_r.
Qed.

Lemma default_row_deltas_length b : (1 <= b)%nat -> length (default_row_deltas b) = (4 * b + 1)%nat.
Proof.
  intros Hb. unfold default_row_deltas, range_incl, range_rev. rewrite !length_app, !length_rev, !length_map, !length_seq. lia.
Qed.

Lemma dsi_new_facts b n outer : (1 <= b)%nat ->
  dsi_inv (dsi_new b n outer) /\ is_done (dsi_new b n outer) = false /\ potential (dsi_new b n outer) = (4 * Z.of_nat b + 1) * (Z.of_nat n + 2).
Proof.
  intros Hb. pose proof (default_row_deltas_length b Hb) as Hl.
  assert (Hd : is_done (dsi_new b n outer) = false) by (unfold is_done; cbn [dsi_new cur_row_delta_index row_deltas]; rewrite Hl; apply Nat.eqb_neq; lia).
  split; [|split; [exact Hd|]].
  - split; [cbn; lia|cbn; lia| |congruence]. intros row _. pose proof (last_action_bounds (dsi_new b n outer) row). cbn [cur_action_index dsi_new]. lia.
  - unfold potential. cbn [dsi_new cur_row_delta_index row_deltas identities_count cur_action_index]. rewrite Hl. lia.
Qed.

(** A row of the block or the one before it. *)
Lemma default_row_deltas_range b row : (1 <= b)%nat -> In row (default_row_deltas b) <-> -1 <= row < Z.of_nat b.
Proof.
  intros Hb. unfold default_row_deltas, range_incl, range_rev. rewrite !in_app_iff, <- !in_rev, !in_map_iff. split.
  - intros [(i & <- & Hi)|[(i & <- & Hi)|[(i & <- & Hi)|(i & <- & Hi)]]]; apply in_seq in Hi; lia.
  - intros H. left. exists (Z.to_nat (row + 1)). rewrite in_seq. lia.
Qed.

(** ** Properties *)

(** The processing loop of a block terminates without panicking, however the processor
    answers. From a fresh iterator for a block of at least one row, every step names a row of
    the block or the one before it and an existing identity (or the outer query, on its row
    only); there are at most [(4 * block_size + 1 + p) * (identities + 2)] steps, [p] being the
    number of steps that made progress; and when more answers than that are available, the
    iteration has ended. *)
Theorem sequence_terminates (b n : nat) (outer : option Z) (answers : list bool) :
  (1 <= b)%nat ->
  exists steps e s', drive answers (dsi_new b n outer) = Some (steps, e, s') /\
    Forall (fun st => -1 <= row_delta st < Z.of_nat b /\
      match action st with
      | OuterQuery => outer = Some (row_delta st) | ProverQueries => True | InternalIdentity i => (i < n)%nat
      end) steps /\
    Z.of_nat (length steps) <= (4 * Z.of_nat b + 1 + trues answers) * (Z.of_nat n + 2) /\
    ((4 * Z.of_nat b + 1 + trues answers) * (Z.of_nat n + 2) < Z.of_nat (length answers) -> e = true).
Proof.
  intros Hb. destruct (dsi_new_facts b n outer Hb) as (Hinv & Hd & Hp).
  destruct (drive_spec answers _ Hinv Hd) as (steps & e & s' & Hdr & V & B & L); [rewrite Hp; nia|].
  rewrite Hp in B. cbn [dsi_new progress_in_current_round b2z identities_count] in B.
  exists steps, e, s'. split; [exact Hdr|]. split; [|split; [nia|]].
  - eapply List.Forall_impl; [|exact V]. intros st [Hin Hact]. apply default_row_deltas_range in Hin; [|exact Hb]. split; [exact Hin|].
    destruct (action st); cbn in Hact; auto.
  - intros Hlen. destruct e; [reflexivity|]. rewrite L in B by reflexivity. nia.
Qed.

Lemma sequence_terminates_witness :
  exists steps e s', drive (repeat false 100) (dsi_new 2 3 (Some 1)) = Some (steps, e, s') /\
    Forall (fun st => -1 <= row_delta st < 2 /\
      match action st with
      | OuterQuery => Some 1 = Some (row_delta st) | ProverQueries => True | InternalIdentity i => (i < 3)%nat
      end) steps /\ Z.of_nat (length steps) <= 45 /\ (45 < 100 -> e = true).
Proof. exact (sequence_terminates 2 3 (Some 1) (repeat false 100) ltac:(lia)). Defined.

(** The order of the steps. A run of the iterator is the reference order: rows are visited
    as [-1 .. max, max-1 .. -1, 0 .. max, max-1 .. -1]; in a row the outer query comes first
    (only on its row), then the prover queries, then the identities in source order; after a step
    that makes progress the same row starts over, and the next row begins only after a whole
    pass without progress. The steps collected for the cache are those that made progress. *)
Theorem sequence_order (b n : nat) (outer : option Z) (answers : list bool) :
  (1 <= b)%nat ->
  let '(steps, e) := process_rows (row_actions n outer) answers (default_row_deltas b) (row_actions n outer (-1)) in
  exists s', drive answers (dsi_new b n outer) = Some (steps, e, s') /\ progress_steps s' = progress_of steps answers.
Proof.
  intros Hb. destruct (dsi_new_facts b n outer Hb) as (Hinv & Hd & _).
  assert (Hrow : row_deltas (dsi_new b n outer) !! 0%nat = Some (-1)).
  { cbn [dsi_new row_deltas]. unfold default_row_deltas, range_incl at 1. replace (Z.to_nat (Z.of_nat b - 1 - -1 + 1)) with (S b) by lia. reflexivity. }
  exact (drive_process_rows answers _ (-1) Hinv Hd Hrow).
Qed.

Lemma sequence_order_witness :
  let '(steps, e) := process_rows (row_actions 2 (Some 0)) (repeat false 10 ++ [true; false]) (default_row_deltas 1) (row_actions 2 (Some 0) (-1)) in
  exists s', drive (repeat false 10 ++ [true; false]) (dsi_new 1 2 (Some 0)) = Some (steps, e, s') /\
    progress_steps s' = progress_of steps (repeat false 10 ++ [true; false]).
Proof. exact (sequence_order 1 2 (Some 0) (repeat false 10 ++ [true; false]) ltac:(lia)). Defined.

(** ** The cache *)

(** The loop of the block processor over any kind of iterator. *)
Fixpoint psi_drive (answers : list bool) (it : ProcessingSequenceIterator)
  : option (list SequenceStep * bool * ProcessingSequenceIterator) :=
  match answers with
  | [] => Some ([], false, it)
  | a :: answers' =>
    r ← psi_next it;
    match r with
    | (None, it') => Some ([], true, it')
    | (Some st, it') =>
      it'' ← psi_report_progress it' a;
      rest ← psi_drive answers' it'';
      let '(sts, e, it3) := rest in Some (st :: sts, e, it3)
    end
  end.

Lemma psi_drive_default answers : forall d,
  psi_drive answers (DefaultIt d) = r ← drive answers d; let '(sts, e, d') := r in Some (sts, e, DefaultIt d').
Proof.
  induction answers as [|a answers IH]; intros d; [reflexivity|]. cbn [psi_drive drive psi_next].
  destruct (dsi_next d) as [[[st|] d1]|]; cbn [mbind option_bind fst snd psi_report_progress]; [|reflexivity..].
  destruct (report_progress d1 a) as [d2|]; cbn [mbind option_bind]; [|reflexivity]. rewrite IH.
  destruct (drive answers d2) as [[[sts e] d3]|]; reflexivity.
Qed.

(** Once the cached steps are used up, the default iterator runs. *)
Lemma psi_drive_exhausted answers : forall d ex, exists fin,
  psi_drive answers (CachedIt {| cached_iterator := []; cached_iterator_exhausted := ex; default_iterator := d |}) =
  (r ← drive answers d; Some (fst r, fin)).
Proof.
  induction answers as [|a answers IH]; intros d ex; [eexists; reflexivity|]. cbn [psi_drive drive psi_next cached_iterator default_iterator].
  destruct (dsi_next d) as [[[st|] d1]|]; cbn [mbind option_bind fst snd psi_report_progress cached_iterator_exhausted default_iterator cached_iterator];
    [|eexists; reflexivity|exists IncompleteIt; reflexivity].
  destruct (report_progress d1 a) as [d2|]; cbn [mbind option_bind]; [|exists IncompleteIt; reflexivity].
  destruct (IH d2 true) as (fin & ->). destruct (drive answers d2) as [[[sts e] d3]|]; cbn; exists fin; reflexivity.
Qed.

Lemma psi_drive_cached l : forall answers d, (length l <= length answers)%nat -> exists fin,
  psi_drive answers (CachedIt {| cached_iterator := l; cached_iterator_exhausted := false; default_iterator := d |}) =
  (r ← drive (drop (length l) answers) d; Some (l ++ fst (fst r), snd (fst r), fin)).
Proof.
  induction l as [|st l IH]; intros answers d Hl.
  - destruct (psi_drive_exhausted answers d false) as (fin & ->). exists fin. cbn [length]. rewrite drop_0.
    destruct (drive answers d) as [[[sts e] d3]|]; reflexivity.
  - destruct answers as [|a answers]; [cbn in Hl; lia|]. cbn [psi_drive psi_next cached_iterator mbind option_bind psi_report_progress cached_iterator_exhausted default_iterator].
    destruct (IH answers d ltac:(cbn in Hl; lia)) as (fin & ->). exists fin. cbn [length drop].
    destruct (drive (drop (length l) answers) d) as [[[sts e] d3]|]; reflexivity.
Qed.

Lemma cache_get_cons k e l k' : cache_get k' ((k, e) :: l) = if key_eqb k' k then Some e else cache_get k' l.
Proof. reflexivity. Qed.

Lemma key_eqb_refl k : key_eqb k k = true.
Proof. unfold key_eqb. now rewrite bool_decide_true. Qed.

Section Cache.
Context {K T : Type}.
Notation aff := (AffineExpression K T).

(** The cache of processing sequences. Let a lookup whose known columns are those of [left]
    have no entry yet. It is processed with the default iterator. When that run is reported, a later
    lookup with the same known columns first replays exactly the steps that made progress, in their
    order, and then the default sequence from its start, for whatever answers; lookups with other known
    columns are not affected; and reporting a second time panics. When the run is reported as incomplete
    instead, later lookups of that kind get no steps. *)
Theorem sequence_cache_roundtrip (c : ProcessingSequenceCache) (left left' other : list aff)
  (d : DefaultSequenceIterator) (answers : list bool) :
  cache_get (sequence_cache_key left) (psc_cache c) = None ->
  sequence_cache_key left' = sequence_cache_key left ->
  sequence_cache_key other <> sequence_cache_key left ->
  (length (progress_steps d) <= length answers)%nat ->
  get_processing_sequence c left = DefaultIt (psc_default c) /\
  (exists c1, report_processing_sequence c left (DefaultIt d) = Some c1 /\
    get_processing_sequence c1 other = get_processing_sequence c other /\
    (exists fin, psi_drive answers (get_processing_sequence c1 left') =
      (r ← drive (drop (length (progress_steps d)) answers) (psc_default c);
       Some (progress_steps d ++ fst (fst r), snd (fst r), fin))) /\
    (forall d2, report_processing_sequence c1 left' (DefaultIt d2) = None) /\ report_incomplete c1 left' = None) /\
  (exists c2, report_incomplete c left = Some c2 /\
    get_processing_sequence c2 other = get_processing_sequence c other /\
    has_steps (get_processing_sequence c2 left') = false).
Proof.
  intros Hnone Hleft Hother Hlen.
  assert (Ho : key_eqb (sequence_cache_key other) (sequence_cache_key left) = false) by (unfold key_eqb; now rewrite bool_decide_false).
  unfold get_processing_sequence, report_processing_sequence, report_incomplete, cache_insert.
  rewrite Hleft, Hnone. cbn [assert_that mbind option_bind]. split; [reflexivity|]. split; (eexists; split; [reflexivity|]);
    cbn [psc_cache]; rewrite !cache_get_cons, Ho, !key_eqb_refl; (split; [reflexivity|]); [|reflexivity].
  split; [|split; [|reflexivity]; intros; reflexivity]. now apply psi_drive_cached.
Qed.

End Cache.

Lemma sequence_cache_roundtrip_witness :
  let c := mkProcessingSequenceCache 1 0 2 [] in
  let d := mkDefaultSequenceIterator 2 (default_row_deltas 1) (Some 0) false 5 3 [mkSequenceStep 0 OuterQuery; mkSequenceStep 0 (InternalIdentity 1)] in
  let left := [Constant 3] : list (AffineExpression nat Z) in
  let other := [] : list (AffineExpression nat Z) in
  exists c1, report_processing_sequence c left (DefaultIt d) = Some c1 /\
    get_processing_sequence c1 other = get_processing_sequence c other /\
    exists fin, psi_drive [false; false; true] (get_processing_sequence c1 left) =
      (r ← drive [true] (psc_default c); Some (progress_steps d ++ fst (fst r), snd (fst r), fin)).
Proof.
  intros c d left other.
  destruct (sequence_cache_roundtrip c left left other d [false; false; true] eq_refl eq_refl ltac:(easy) ltac:(cbn; lia))
    as (_ & (c1 & H1 & H2 & H3 & _) & _).
  exists c1. auto.
Defined.
