(* ===== verification/ExtensionField.v ===== *)
(** * Extension fields of the bus, [executor/src/witgen/bus_accumulator/]

    [fp2.rs], [fp4.rs] and the trait [ExtensionField] of [extension_field.rs]: elements
    are polynomials modulo [X^2 - 11] and [X^4 - 11]. Whether these are fields depends on
    the base field, which is what the theorems at the end settle for each of the fields
    the bus accumulator is used with. *)

From stdpp Require Import base list option.
From Stdlib Require Import ZArith Lia Ring Znumtheory ZmodInv.
From S2P Require Import Prelude Primes Goldilocks Field.

(** ** The trait

    [ext_inverse] divides in the base field and panics where that does. The inner map is
    the challenges by their number, whose absence panics. *)
Class ExtensionField (T Ext : Type) := {
  ext_zero : Ext;
  ext_is_zero : Ext -> bool;
  ext_one : Ext;
  ext_add : Ext -> Ext -> Ext;
  ext_sub : Ext -> Ext -> Ext;
  ext_mul : Ext -> Ext -> Ext;
  ext_scale : Ext -> T -> Ext;
  ext_inverse : Ext -> option Ext;
  get_challenge : (Z -> option T) -> Z -> option Ext;
  ext_size : nat;
  to_vec : Ext -> list T
}.

(** ** Fp2 *)

Section Extensions.
Context {T : Type} `{FieldElement T}.

Record Fp2 := mkFp2 { fp2_0 : T; fp2_1 : T }.

Definition fp2_zero : Fp2 := mkFp2 f_zero f_zero.
Definition fp2_is_zero (x : Fp2) : bool := f_is_zero (fp2_0 x) && f_is_zero (fp2_1 x).
Definition fp2_one : Fp2 := mkFp2 f_one f_zero.
Definition fp2_is_one (x : Fp2) : bool := f_is_one (fp2_0 x) && f_is_zero (fp2_1 x).
Definition fp2_from (a : T) : Fp2 := mkFp2 a f_zero.
Definition fp2_add (x y : Fp2) : Fp2 := mkFp2 (f_add (fp2_0 x) (fp2_0 y)) (f_add (fp2_1 x) (fp2_1 y)).
Definition fp2_sub (x y : Fp2) : Fp2 := mkFp2 (f_sub (fp2_0 x) (fp2_0 y)) (f_sub (fp2_1 x) (fp2_1 y)).
Definition fp2_mul (x y : Fp2) : Fp2 :=
  mkFp2 (f_add (f_mul (fp2_0 x) (fp2_0 y)) (f_mul (f_mul (fp2_1 x) (fp2_1 y)) (from_int 11)))
        (f_add (f_mul (fp2_1 x) (fp2_0 y)) (f_mul (fp2_0 x) (fp2_1 y))).
Definition fp2_scale (x : Fp2) (a : T) : Fp2 := mkFp2 (f_mul (fp2_0 x) a) (f_mul (fp2_1 x) a).
Definition fp2_inverse (x : Fp2) : option Fp2 :=
  inv ← f_div (from_int 1)
    (f_sub (f_mul (fp2_0 x) (fp2_0 x)) (f_mul (f_mul (fp2_1 x) (fp2_1 x)) (from_int 11)));
  Some (mkFp2 (f_mul (fp2_0 x) inv) (f_mul (f_neg (fp2_1 x)) inv)).
Definition fp2_div (x y : Fp2) : option Fp2 := i ← fp2_inverse y; Some (fp2_mul x i).
Definition fp2_challenge (ch : Z -> option T) (index : Z) : option Fp2 :=
  a ← ch (index * 2 + 1); b ← ch (index * 2 + 2); Some (mkFp2 a b).

#[export] Instance fp2_extension : ExtensionField T Fp2 := {
  ext_zero := fp2_zero; ext_is_zero := fp2_is_zero; ext_one := fp2_one; ext_add := fp2_add;
  ext_sub := fp2_sub; ext_mul := fp2_mul; ext_scale := fp2_scale; ext_inverse := fp2_inverse;
  get_challenge := fp2_challenge; ext_size := 2; to_vec x := [fp2_0 x; fp2_1 x]
}.

(** ** Fp4 *)

Record Fp4 := mkFp4 { fp4_0 : T; fp4_1 : T; fp4_2 : T; fp4_3 : T }.

Definition fp4_zero : Fp4 := mkFp4 f_zero f_zero f_zero f_zero.
Definition fp4_is_zero (x : Fp4) : bool :=
  f_is_zero (fp4_0 x) && f_is_zero (fp4_1 x) && f_is_zero (fp4_2 x) && f_is_zero (fp4_3 x).
Definition fp4_one : Fp4 := mkFp4 f_one f_zero f_zero f_zero.
Definition fp4_is_one (x : Fp4) : bool :=
  f_is_one (fp4_0 x) && f_is_zero (fp4_1 x) && f_is_zero (fp4_2 x) && f_is_zero (fp4_3 x).
Definition fp4_from (a : T) : Fp4 := mkFp4 a f_zero f_zero f_zero.
Definition fp4_add (x y : Fp4) : Fp4 :=
  mkFp4 (f_add (fp4_0 x) (fp4_0 y)) (f_add (fp4_1 x) (fp4_1 y))
        (f_add (fp4_2 x) (fp4_2 y)) (f_add (fp4_3 x) (fp4_3 y)).
Definition fp4_sub (x y : Fp4) : Fp4 :=
  mkFp4 (f_sub (fp4_0 x) (fp4_0 y)) (f_sub (fp4_1 x) (fp4_1 y))
        (f_sub (fp4_2 x) (fp4_2 y)) (f_sub (fp4_3 x) (fp4_3 y)).
Definition fp4_mul (x y : Fp4) : Fp4 :=
  mkFp4
    (f_add (f_mul (fp4_0 x) (fp4_0 y))
      (f_mul (from_int 11)
        (f_add (f_add (f_mul (fp4_1 x) (fp4_3 y)) (f_mul (fp4_2 x) (fp4_2 y))) (f_mul (fp4_3 x) (fp4_1 y)))))
    (f_add (f_add (f_mul (fp4_0 x) (fp4_1 y)) (f_mul (fp4_1 x) (fp4_0 y)))
      (f_mul (from_int 11) (f_add (f_mul (fp4_2 x) (fp4_3 y)) (f_mul (fp4_3 x) (fp4_2 y)))))
    (f_add (f_add (f_add (f_mul (fp4_0 x) (fp4_2 y)) (f_mul (fp4_1 x) (fp4_1 y))) (f_mul (fp4_2 x) (fp4_0 y)))
      (f_mul (f_mul (from_int 11) (fp4_3 x)) (fp4_3 y)))
    (f_add (f_add (f_add (f_mul (fp4_0 x) (fp4_3 y)) (f_mul (fp4_1 x) (fp4_2 y))) (f_mul (fp4_2 x) (fp4_1 y)))
      (f_mul (fp4_3 x) (fp4_0 y))).
Definition fp4_scale (x : Fp4) (a : T) : Fp4 :=
  mkFp4 (f_mul (fp4_0 x) a) (f_mul (fp4_1 x) a) (f_mul (fp4_2 x) a) (f_mul (fp4_3 x) a).

(** The two intermediate values of [inverse]. *)
Definition fp4_b0 (x : Fp4) : T :=
  f_sub (f_mul (fp4_0 x) (fp4_0 x))
    (f_mul (from_int 11) (f_sub (f_mul (f_mul (fp4_1 x) (from_int 2)) (fp4_3 x)) (f_mul (fp4_2 x) (fp4_2 x)))).
Definition fp4_b2 (x : Fp4) : T :=
  f_sub (f_sub (f_mul (f_mul (from_int 2) (fp4_0 x)) (fp4_2 x)) (f_mul (fp4_1 x) (fp4_1 x)))
    (f_mul (f_mul (from_int 11) (fp4_3 x)) (fp4_3 x)).
Definition fp4_inverse (x : Fp4) : option Fp4 :=
  let b0 := fp4_b0 x in
  let b2 := fp4_b2 x in
  let c := f_sub (f_mul b0 b0) (f_mul (f_mul (from_int 11) b2) b2) in
  ic ← f_div (from_int 1) c;
  let b0_ic := f_mul b0 ic in
  let b2_ic := f_mul b2 ic in
  Some (mkFp4
    (f_sub (f_mul (fp4_0 x) b0_ic) (f_mul (f_mul (from_int 11) (fp4_2 x)) b2_ic))
    (f_add (f_mul (f_neg (fp4_1 x)) b0_ic) (f_mul (f_mul (from_int 11) (fp4_3 x)) b2_ic))
    (f_add (f_mul (f_neg (fp4_0 x)) b2_ic) (f_mul (fp4_2 x) b0_ic))
    (f_sub (f_mul (fp4_1 x) b2_ic) (f_mul (fp4_3 x) b0_ic))).
Definition fp4_div (x y : Fp4) : option Fp4 := i ← fp4_inverse y; Some (fp4_mul x i).
Definition fp4_challenge (ch : Z -> option T) (index : Z) : option Fp4 :=
  a ← ch (index * 4 + 1); b ← ch (index * 4 + 2); c ← ch (index * 4 + 3); d ← ch (index * 4 + 4);
  Some (mkFp4 a b c d).

#[export] Instance fp4_extension : ExtensionField T Fp4 := {
  ext_zero := fp4_zero; ext_is_zero := fp4_is_zero; ext_one := fp4_one; ext_add := fp4_add;
  ext_sub := fp4_sub; ext_mul := fp4_mul; ext_scale := fp4_scale; ext_inverse := fp4_inverse;
  get_challenge := fp4_challenge; ext_size := 4; to_vec x := [fp4_0 x; fp4_1 x; fp4_2 x; fp4_3 x]
}.

(** [Sum::sum], for both. *)
Definition ext_sum {Ext} `{ExtensionField T Ext} (l : list Ext) : Ext := fold_left ext_add l ext_zero.

End Extensions.

Arguments Fp2 : clear implicits.
Arguments Fp4 : clear implicits.

(** ** The base field as a ring *)

Section Ring.
Context {T : Type} `{FL : FieldLaws T}.

Ltac by_residues := intros; apply f_eqm_eq; repeat (progress feqm); match goal with |- eqm _ ?a ?b => replace a with b by ring end; reflexivity.

Lemma f_ring : ring_theory (f_zero (T:=T)) f_one f_add f_mul f_sub f_neg eq.
Proof. split; by_residues. Qed.

Add Ring f_ring_inst : f_ring.

Lemma from_int_2 : from_int (T:=T) 2 = f_add f_one f_one.
Proof. apply to_integer_inj. rewrite f_add_spec, f_one_int. now apply from_int_spec. Qed.

Lemma f_mul_zero (a b : T) : f_mul a b = f_zero -> a = f_zero \/ b = f_zero.
Proof.
  intros E. assert (Hm : eqm modulus (to_integer a * to_integer b) 0) by (rewrite <- f_mul_eqm, E, f_zero_int; reflexivity).
  destruct (f_integral _ _ Hm) as [Ha|Hb]; [left|right]; apply f_eqm_eq; now rewrite f_zero_int.
Qed.

Lemma f_sub_zero (a b : T) : f_sub a b = f_zero -> a = b.
Proof. intros E. replace a with (f_add (f_sub a b) b) by ring. rewrite E. ring. Qed.

Lemma f_is_zero_eq (a : T) : f_is_zero a = true <-> a = f_zero.
Proof.
  unfold f_is_zero. rewrite Z.eqb_eq, <- f_zero_int. split; [apply to_integer_inj|now intros ->].
Qed.

(** Division is exact, and panics at zero only. *)
Lemma f_div_one (a : T) :
  match f_div (from_int 1) a with
  | Some i => a <> f_zero /\ f_mul a i = f_one
  | None => a = f_zero
  end.
Proof.
  destruct (Z.eq_dec (to_integer a) 0) as [E|E].
  - rewrite f_div_zero by exact E. apply to_integer_inj. now rewrite f_zero_int.
  - destruct (f_div_spec (from_int 1) a E) as (i & -> & Hi). split; [intros ->; now rewrite f_zero_int in E|].
    apply to_integer_inj. rewrite f_mul_spec, Z.mul_comm, Hi. reflexivity.
Qed.

Lemma f_invertible (a : T) : a <> f_zero -> exists i, f_mul a i = f_one.
Proof. intros Ha. pose proof (f_div_one a) as Hd. destruct (f_div (from_int 1) a) as [i|]; [exists i; apply Hd|contradiction]. Qed.

(** A quotient that satisfies a quadratic equation. *)
Lemma f_square_quotient (a b c : T) : b <> f_zero -> f_mul a a = f_mul c (f_mul b b) -> exists q, f_mul q q = c.
Proof.
  intros Hb E. destruct (f_invertible b Hb) as (i & Hi). exists (f_mul a i).
  transitivity (f_mul (f_mul a a) (f_mul i i)); [ring|]. rewrite E.
  transitivity (f_mul c (f_mul (f_mul b i) (f_mul b i))); [ring|]. rewrite Hi. ring.
Qed.

End Ring.

(** Euler's criterion, the direction that shows a number is not a square. *)
Lemma euler_nonresidue p a n : Z.prime p -> 2 < p -> Zpos n * 2 = p - 1 -> pow_mod_pos p a n = p - 1 ->
  forall x, ~ eqm p (x * x) a.
Proof.
  intros Hp H2 Hn Hc x Hx.
  assert (Hpow : eqm p (x ^ (p - 1)) (-1)).
  { rewrite <- Hn, Z.mul_comm, Z.pow_mul_r, Z.pow_2_r, (eqm_pow p _ _ (Zpos n) ltac:(lia) Hx), <- pow_mod_pos_spec, Hc by lia.
    exists 1. lia. }
  destruct (Z.eq_dec (x mod p) 0) as [E|E].
  - assert (E0 : eqm p x 0) by (apply eqm_iff; now rewrite E, Z.mod_0_l by lia).
    rewrite (eqm_pow p _ _ (p - 1) ltac:(lia) E0), Z.pow_0_l in Hpow by lia.
    destruct Hpow as [k Hk]. assert (k = 0 \/ k >= 1 \/ k <= -1) by lia. nia.
  - assert (Hf : eqm p (x ^ (p - 1)) 1) by (apply eqm_iff; rewrite Z.fermat_nz by easy; symmetry; apply Z.mod_small; lia).
    rewrite Hf in Hpow. destruct Hpow as [k Hk]. assert (k = 0 \/ k >= 1 \/ k <= -1) by lia. nia.
Qed.

(** ** What an implementation of the trait promises

    [ExtensionLaws] holds over every base field: a commutative ring in which [ext_inverse]
    returns only inverses. [ExtensionTotal] says that it is a field. *)
Class ExtensionLaws (T Ext : Type) `{FieldElement T, ExtensionField T Ext} : Prop := {
  ext_ring : ring_theory (ext_zero (Ext:=Ext)) ext_one ext_add ext_mul ext_sub (fun x => ext_sub ext_zero x) eq;
  ext_is_zero_eq : forall x : Ext, ext_is_zero x = true <-> x = ext_zero;
  ext_scale_mul : forall (x : Ext) (a : T), ext_scale x a = ext_mul x (ext_scale ext_one a);
  ext_scale_add : forall a b : T, ext_scale (Ext:=Ext) ext_one (f_add a b) = ext_add (ext_scale ext_one a) (ext_scale ext_one b);
  ext_scale_zero : ext_scale (Ext:=Ext) ext_one (f_zero (T:=T)) = ext_zero;
  ext_inverse_mul : forall x y : Ext, ext_inverse x = Some y -> ext_mul x y = ext_one;
  ext_inverse_zero : ext_inverse (ext_zero (Ext:=Ext)) = None;
  to_vec_length : forall x : Ext, length (to_vec x) = ext_size (Ext:=Ext);
  to_vec_inj : forall x y : Ext, to_vec x = to_vec y -> x = y
}.

Class ExtensionTotal (T Ext : Type) `{ExtensionField T Ext} : Prop :=
  ext_inverse_total : forall x : Ext, x <> ext_zero -> exists y, ext_inverse x = Some y.

Section Laws.
Context {T : Type} `{FL : FieldLaws T}.

Add Ring f_ring_laws : (f_ring (T:=T)).

Lemma fp2_ext (x y : Fp2 T) : fp2_0 x = fp2_0 y -> fp2_1 x = fp2_1 y -> x = y.
Proof. destruct x, y. cbn. now intros -> ->. Qed.

Lemma fp4_ext (x y : Fp4 T) :
  fp4_0 x = fp4_0 y -> fp4_1 x = fp4_1 y -> fp4_2 x = fp4_2 y -> fp4_3 x = fp4_3 y -> x = y.
Proof. destruct x, y. cbn. now intros -> -> -> ->. Qed.

(** The norm to the base field, the denominator of [fp2_inverse]. *)
Definition fp2_norm (x : Fp2 T) : T :=
  f_sub (f_mul (fp2_0 x) (fp2_0 x)) (f_mul (f_mul (fp2_1 x) (fp2_1 x)) (from_int 11)).
Definition fp4_norm (x : Fp4 T) : T :=
  f_sub (f_mul (fp4_b0 x) (fp4_b0 x)) (f_mul (f_mul (from_int 11) (fp4_b2 x)) (fp4_b2 x)).

Lemma fp2_inverse_cases (x : Fp2 T) :
  match fp2_inverse x with
  | Some y => fp2_norm x <> f_zero /\ fp2_mul x y = fp2_one
  | None => fp2_norm x = f_zero
  end.
Proof.
  unfold fp2_inverse. fold (fp2_norm x). pose proof (f_div_one (fp2_norm x)) as Hd.
  destruct (f_div (from_int 1) (fp2_norm x)) as [i|]; cbn [mbind option_bind]; [|exact Hd].
  destruct Hd as [Hn Hi]. split; [exact Hn|]. apply fp2_ext; cbn [fp2_0 fp2_1 fp2_mul fp2_one]; [rewrite <- Hi; unfold fp2_norm|]; ring.
Qed.

Lemma fp4_inverse_cases (x : Fp4 T) :
  match fp4_inverse x with
  | Some y => fp4_norm x <> f_zero /\ fp4_mul x y = fp4_one
  | None => fp4_norm x = f_zero
  end.
Proof.
  unfold fp4_inverse. cbv zeta. fold (fp4_norm x). pose proof (f_div_one (fp4_norm x)) as Hd.
  destruct (f_div (from_int 1) (fp4_norm x)) as [i|]; cbn [mbind option_bind]; [|exact Hd].
  destruct Hd as [Hn Hi]. split; [exact Hn|]. apply fp4_ext; cbn [fp4_0 fp4_1 fp4_2 fp4_3 fp4_mul fp4_one];
    [rewrite <- Hi; unfold fp4_norm|..]; unfold fp4_b0, fp4_b2; rewrite from_int_2; ring.
Qed.

#[export] Instance fp2_laws : ExtensionLaws T (Fp2 T).
Proof.
  split; cbn.
  - split; intros; apply fp2_ext; cbn; ring.
  - intros x. unfold fp2_is_zero. rewrite andb_true_iff, !f_is_zero_eq. split; [intros []; now apply fp2_ext|intros ->; easy].
  - intros x a. apply fp2_ext; cbn; ring.
  - intros a b. apply fp2_ext; cbn; ring.
  - apply fp2_ext; cbn; ring.
  - intros x y E. pose proof (fp2_inverse_cases x) as Hc. rewrite E in Hc. apply Hc.
  - pose proof (fp2_inverse_cases fp2_zero) as Hc. destruct (fp2_inverse fp2_zero); [|easy].
    destruct Hc as [Hc _]. contradiction Hc. unfold fp2_norm. cbn. ring.
  - reflexivity.
  - intros x y [= E1 E2]. now apply fp2_ext.
Qed.

#[export] Instance fp4_laws : ExtensionLaws T (Fp4 T).
Proof.
  split; cbn.
  - split; intros; apply fp4_ext; cbn; ring.
  - intros x. unfold fp4_is_zero. rewrite !andb_true_iff, !f_is_zero_eq. split; [intros [[[] ] ]; now apply fp4_ext|intros ->; easy].
  - intros x a. apply fp4_ext; cbn; ring.
  - intros a b. apply fp4_ext; cbn; ring.
  - apply fp4_ext; cbn; ring.
  - intros x y E. pose proof (fp4_inverse_cases x) as Hc. rewrite E in Hc. apply Hc.
  - pose proof (fp4_inverse_cases fp4_zero) as Hc. destruct (fp4_inverse fp4_zero); [|easy].
    destruct Hc as [Hc _]. contradiction Hc. unfold fp4_norm, fp4_b0, fp4_b2. cbn. ring.
  - reflexivity.
  - intros x y [= E1 E2 E3 E4]. now apply fp4_ext.
Qed.

(** *** When the extensions are fields *)

(** 11 is not a square. *)
Definition eleven_nonresidue : Prop := forall a : T, f_mul a a <> from_int 11.

Lemma fp2_norm_zero (x : Fp2 T) : eleven_nonresidue -> fp2_norm x = f_zero -> x = fp2_zero.
Proof.
  intros Hres Hn. apply f_sub_zero in Hn. destruct (decide (to_integer (fp2_1 x) = 0)) as [E|E].
  - assert (E1 : fp2_1 x = f_zero) by (apply to_integer_inj; now rewrite f_zero_int). rewrite E1 in Hn.
    replace (f_mul (f_mul f_zero f_zero) (from_int 11)) with (f_zero (T:=T)) in Hn by ring.
    apply f_mul_zero in Hn. apply fp2_ext; [now destruct Hn|exact E1].
  - destruct (f_square_quotient (fp2_0 x) (fp2_1 x) (from_int 11)) as (q & Hq); [intros E1; rewrite E1, f_zero_int in E; easy|rewrite Hn; ring|].
    now apply Hres in Hq.
Qed.

(** With [-1] a square, [X^4 - 11] has no factor either: taking norms of [u^2 = Y v^2] in
    the quadratic extension gives [-11] as a square. *)
Lemma fp4_norm_zero (x : Fp4 T) (i : T) : eleven_nonresidue -> f_mul i i = f_neg f_one -> fp4_norm x = f_zero -> x = fp4_zero.
Proof.
  intros Hres Hi Hn.
  assert (Hb : mkFp2 (fp4_b0 x) (fp4_b2 x) = fp2_zero).
  { apply fp2_norm_zero; [exact Hres|]. rewrite <- Hn. unfold fp2_norm, fp4_norm. cbn [fp2_0 fp2_1]. ring. }
  injection Hb as Hb0 Hb2. set (u := mkFp2 (fp4_0 x) (fp4_2 x)). set (v := mkFp2 (fp4_1 x) (fp4_3 x)).
  assert (Huv : f_mul (fp2_norm u) (fp2_norm u) = f_neg (f_mul (from_int 11) (f_mul (fp2_norm v) (fp2_norm v)))).
  { apply f_sub_zero. transitivity (f_add (f_mul (fp4_b0 x) (f_add (fp4_b0 x) (f_mul (f_mul (from_int 2) (from_int 2)) (f_mul (from_int 11) (f_mul (fp4_1 x) (fp4_3 x))))))
      (f_neg (f_mul (from_int 11) (f_mul (fp4_b2 x) (f_add (fp4_b2 x) (f_mul (from_int 2) (f_add (f_mul (fp4_1 x) (fp4_1 x)) (f_mul (from_int 11) (f_mul (fp4_3 x) (fp4_3 x)))))))))).
    - unfold fp2_norm, fp4_b0, fp4_b2, u, v. cbn [fp2_0 fp2_1]. rewrite from_int_2. ring.
    - rewrite Hb0, Hb2. ring. }
  assert (Hv : v = fp2_zero).
  { destruct (decide (to_integer (fp2_norm v) = 0)) as [E|E]; [apply fp2_norm_zero; [exact Hres|apply to_integer_inj; now rewrite f_zero_int]|].
    destruct (f_square_quotient (f_mul i (fp2_norm u)) (fp2_norm v) (from_int 11)) as (q & Hq).
    - intros E1. now rewrite E1, f_zero_int in E.
    - transitivity (f_mul (f_mul i i) (f_mul (fp2_norm u) (fp2_norm u))); [ring|]. rewrite Hi, Huv. ring.
    - now apply Hres in Hq. }
  assert (Hu : u = fp2_zero).
  { apply fp2_norm_zero; [exact Hres|]. rewrite Hv in Huv.
    replace (f_neg (f_mul (from_int 11) (f_mul (fp2_norm fp2_zero) (fp2_norm fp2_zero)))) with (f_zero (T:=T)) in Huv by (unfold fp2_norm; cbn; ring).
    apply f_mul_zero in Huv. now destruct Huv. }
  injection Hu as Hu0 Hu2. injection Hv as Hv0 Hv2. now apply fp4_ext.
Qed.

Lemma fp2_total : eleven_nonresidue -> ExtensionTotal T (Fp2 T).
Proof.
  intros Hres x Hx. cbn. pose proof (fp2_inverse_cases x) as Hc. destruct (fp2_inverse x) as [y|]; [now exists y|].
  now apply fp2_norm_zero in Hc.
Qed.

Lemma fp4_total i : eleven_nonresidue -> f_mul i i = f_neg f_one -> ExtensionTotal T (Fp4 T).
Proof.
  intros Hres Hi x Hx. cbn. pose proof (fp4_inverse_cases x) as Hc. destruct (fp4_inverse x) as [y|]; [now exists y|].
  now apply (fp4_norm_zero x i) in Hc.
Qed.

(** The two facts about 11 and -1, from computations with the modulus. *)
Lemma eleven_nonresidue_cert n : Zpos n * 2 = modulus - 1 -> pow_mod_pos modulus 11 n = modulus - 1 -> eleven_nonresidue.
Proof.
  intros Hn Hc a Ha. apply (euler_nonresidue modulus 11 n modulus_prime modulus_gt_2 Hn Hc (to_integer a)).
  rewrite <- f_mul_eqm, Ha, from_int_spec by lia. apply eqm_mod.
Qed.

Lemma root_of_minus_one r : 0 <= r < modulus -> (r * r) mod modulus = modulus - 1 -> exists i : T, f_mul i i = f_neg f_one.
Proof.
  intros Hr Hc. destruct (from_biguint_spec (T:=T) r Hr) as (i & _ & Hi). exists i.
  apply to_integer_inj. now rewrite f_mul_spec, Hi, f_neg_one_int.
Qed.

End Laws.

(** ** Polynomials modulo [X^n - 11], the reference *)

Section Reference.
Context {T : Type} `{FieldElement T}.

Fixpoint poly_add (a b : list T) : list T :=
  match a, b with
  | [], _ => b
  | _, [] => a
  | x :: a', y :: b' => f_add x y :: poly_add a' b'
  end.

Fixpoint poly_mul (a b : list T) : list T :=
  match a with
  | [] => []
  | x :: a' => poly_add (map (f_mul x) b) (f_zero :: poly_mul a' b)
  end.

(** [X^n] is 11. *)
Definition poly_reduce (n : nat) (a : list T) : list T := poly_add (take n a) (map (f_mul (from_int 11)) (drop n a)).

End Reference.

Section Claims.
Context {T : Type} `{FL : FieldLaws T}.

Add Ring f_ring_claims : (f_ring (T:=T)).

Lemma fp2_mul_poly (x y : Fp2 T) : to_vec (fp2_mul x y) = poly_reduce 2 (poly_mul (to_vec x) (to_vec y)).
Proof. cbn. repeat (apply f_equal2; [ring|]). reflexivity. Qed.

Lemma fp4_mul_poly (x y : Fp4 T) : to_vec (fp4_mul x y) = poly_reduce 4 (poly_mul (to_vec x) (to_vec y)).
Proof. cbn. repeat (apply f_equal2; [ring|]). reflexivity. Qed.

(** The inverse is exact in a field. *)
Lemma inverse_exact {Ext} `{EL : ExtensionLaws T Ext} (Htot : ExtensionTotal T Ext) (x : Ext) :
  match ext_inverse x with
  | Some y => x <> ext_zero /\ ext_mul x y = ext_one
  | None => x = ext_zero
  end.
Proof.
  destruct (ext_inverse x) as [y|] eqn:E.
  - split; [intros ->; rewrite ext_inverse_zero in E; discriminate|now apply ext_inverse_mul].
  - destruct (ext_is_zero x) eqn:Ez; [now apply ext_is_zero_eq|].
    destruct (Htot x) as (y & Hy); [|congruence]. intros ->. assert (ext_is_zero (Ext:=Ext) ext_zero = true) by now apply ext_is_zero_eq. congruence.
Qed.

Lemma from_canonical (r : Z) : 0 <= r < modulus -> exists x : T, to_integer x = r.
Proof. intros Hr. destruct (from_biguint_spec (T:=T) r Hr) as (x & _ & Hx). now exists x. Qed.

(** A zero divisor has no inverse: [inverse] panics on it. *)
Lemma zero_divisor_panics (x y : Fp4 T) : fp4_mul x y = fp4_zero -> y <> fp4_zero -> fp4_inverse x = None.
Proof.
  intros Hxy Hy. destruct (fp4_inverse x) as [z|] eqn:E; [|reflexivity]. contradiction Hy.
  pose proof (ext_inverse_mul x z E) as Hz. pose proof (ext_ring (T:=T) (Ext:=Fp4 T)) as R. destruct R. cbn in *.
  transitivity (fp4_mul (fp4_mul x z) y); [rewrite Hz; now rewrite Rmul_1_l|].
  rewrite (Rmul_comm x z), <- Rmul_assoc, Hxy. apply fp4_ext; cbn; ring.
Qed.

End Claims.

(** ** Properties *)

Section Properties.
Context {T : Type} `{FL : FieldLaws T}.

(** C38: the extension fields of the bus. Over every base field, multiplication in [Fp2] and [Fp4]
    is multiplication of polynomials modulo [X^2 - 11] and [X^4 - 11]. Over Goldilocks [Fp2] is a field,
    and so is [Fp4] over BabyBear: [inverse] panics at zero only and otherwise returns the inverse. *)
Theorem bus_extension_fields :
  (forall x y : Fp2 T, to_vec (fp2_mul x y) = poly_reduce 2 (poly_mul (to_vec x) (to_vec y))) /\
  (forall x y : Fp4 T, to_vec (fp4_mul x y) = poly_reduce 4 (poly_mul (to_vec x) (to_vec y))) /\
  (modulus (T:=T) = goldilocks_order -> forall x : Fp2 T,
    match fp2_inverse x with
    | Some y => x <> fp2_zero /\ fp2_mul x y = fp2_one
    | None => x = fp2_zero
    end) /\
  (modulus (T:=T) = baby_bear_order -> forall x : Fp4 T,
    match fp4_inverse x with
    | Some y => x <> fp4_zero /\ fp4_mul x y = fp4_one
    | None => x = fp4_zero
    end).
Proof.
  split; [apply fp2_mul_poly|]. split; [apply fp4_mul_poly|]. split.
  - intros Hm x. assert (Hres : eleven_nonresidue (T:=T))
      by (apply (eleven_nonresidue_cert 0x7fffffff80000000%positive); rewrite Hm; vm_compute; reflexivity).
    exact (inverse_exact (fp2_total Hres) x).
  - intros Hm x. assert (Hres : eleven_nonresidue (T:=T))
      by (apply (eleven_nonresidue_cert 1006632960%positive); rewrite Hm; vm_compute; reflexivity).
    destruct (root_of_minus_one (T:=T) 1728404513) as (i & Hi); [rewrite Hm; vm_compute; easy|rewrite Hm; vm_compute; reflexivity|].
    exact (inverse_exact (fp4_total i Hres Hi) x).
Qed.

(** [Fp4] is not a field over KoalaBear and Mersenne31, which the bus accumulator uses it for:
    [X^4 - 11] factors there, so there are non-zero elements with product zero, and [inverse] panics
    on a non-zero element. *)
Theorem fp4_not_a_field :
  modulus (T:=T) = koala_bear_order \/ modulus (T:=T) = mersenne31_order ->
  exists x y : Fp4 T, x <> fp4_zero /\ y <> fp4_zero /\ fp4_mul x y = fp4_zero /\ fp4_inverse x = None.
Proof.
  intros Hm. assert (Hone : forall a b c : T, mkFp4 a b f_one c <> fp4_zero).
  { intros a b c [= _ _ E _]. apply (f_equal to_integer) in E. rewrite f_one_int, f_zero_int in E. discriminate. }
  assert (Hex : exists a b : T, fp4_mul (mkFp4 a b f_one f_zero) (mkFp4 (if Z.eqb modulus koala_bear_order then f_neg a else a) (f_neg b) f_one f_zero) = fp4_zero).
  { destruct Hm as [Hm|Hm].
    - destruct (from_canonical (T:=T) 1989159842) as (a & Ha); [rewrite Hm; vm_compute; easy|]. exists a, f_zero.
      apply fp4_ext; apply to_integer_inj; cbn [fp4_0 fp4_1 fp4_2 fp4_3 fp4_mul fp4_zero]; rewrite Hm, Z.eqb_refl;
        rewrite ?f_add_spec, ?f_mul_spec, ?f_add_spec, ?f_mul_spec, ?f_neg_spec, ?f_one_int, ?f_zero_int, ?from_int_spec, ?Ha, Hm by lia; vm_compute; reflexivity.
    - destruct (from_canonical (T:=T) 1709854473) as (a & Ha); [rewrite Hm; vm_compute; easy|].
      destruct (from_canonical (T:=T) 932504298) as (b & Hb); [rewrite Hm; vm_compute; easy|]. exists a, b.
      apply fp4_ext; apply to_integer_inj; cbn [fp4_0 fp4_1 fp4_2 fp4_3 fp4_mul fp4_zero]; rewrite Hm; change (mersenne31_order =? koala_bear_order) with false; cbv iota;
        rewrite ?f_add_spec, ?f_mul_spec, ?f_add_spec, ?f_mul_spec, ?f_neg_spec, ?f_one_int, ?f_zero_int, ?from_int_spec, ?Ha, ?Hb, Hm by lia; vm_compute; reflexivity. }
  destruct Hex as (a & b & Hxy). eexists _, _. split; [apply Hone|]. split; [|split; [exact Hxy|]].
  - apply Hone.
  - apply (zero_divisor_panics _ _ Hxy). apply Hone.
Qed.

End Properties.

(** Concrete base fields: plain modular arithmetic, which is what the third-party
    implementations compute. *)
Definition baby_bear_field : FieldElement (Zp baby_bear_order) := reference_field baby_bear_order 32 eq_refl.
Definition koala_bear_field : FieldElement (Zp koala_bear_order) := reference_field koala_bear_order 32 eq_refl.
Definition mersenne31_field : FieldElement (Zp mersenne31_order) := reference_field mersenne31_order 32 eq_refl.

Lemma baby_bear_laws : @FieldLaws _ baby_bear_field.
Proof. now apply reference_laws; [exact baby_bear_order_prime|..]. Qed.
Lemma koala_bear_laws : @FieldLaws _ koala_bear_field.
Proof. now apply reference_laws; [exact koala_bear_order_prime|..]. Qed.
Lemma mersenne31_laws : @FieldLaws _ mersenne31_field.
Proof. now apply reference_laws; [exact mersenne31_order_prime|..]. Qed.

Lemma bus_extension_fields_witness :
  (let x := mkFp2 (from_int 123) (from_int 1234) : Fp2 GoldilocksField in
   match fp2_inverse x with
   | Some y => x <> fp2_zero /\ fp2_mul x y = fp2_one
   | None => x = fp2_zero
   end) /\
  (let H := baby_bear_field in
   let x := mkFp4 (from_int 1) (from_int 2) (from_int 3) (from_int 4) : Fp4 (Zp baby_bear_order) in
   match fp4_inverse x with
   | Some y => x <> fp4_zero /\ fp4_mul x y = fp4_one
   | None => x = fp4_zero
   end).
Proof.
  split.
  - intros x. exact (proj1 (proj2 (proj2 (bus_extension_fields (T:=GoldilocksField)))) eq_refl x).
  - intros H x. exact (proj2 (proj2 (proj2 (@bus_extension_fields _ baby_bear_field baby_bear_laws))) eq_refl x).
Defined.

Lemma fp4_not_a_field_witness :
  (exists x y : Fp4 (Zp koala_bear_order), x <> @fp4_zero _ koala_bear_field /\ y <> @fp4_zero _ koala_bear_field /\
    @fp4_mul _ koala_bear_field x y = @fp4_zero _ koala_bear_field /\ @fp4_inverse _ koala_bear_field x = None) /\
  (exists x y : Fp4 (Zp mersenne31_order), x <> @fp4_zero _ mersenne31_field /\ y <> @fp4_zero _ mersenne31_field /\
    @fp4_mul _ mersenne31_field x y = @fp4_zero _ mersenne31_field /\ @fp4_inverse _ mersenne31_field x = None).
Proof.
  split.
  - exact (@fp4_not_a_field _ koala_bear_field koala_bear_laws (or_introl eq_refl)).
  - exact (@fp4_not_a_field _ mersenne31_field mersenne31_laws (or_intror eq_refl)).
Defined.
