(* ===== verification/ExpressionEvaluator.v ===== *)
(** * Evaluation of algebraic expressions

    [executor-utils/src/expression_evaluator.rs] over the expressions of
    [ast/src/analyzed/mod.rs]: the accessor for terminal symbols, the container of trace
    values, and the evaluator with its cache of intermediate columns. *)

From stdpp Require Import base list option gmap strings countable.
From Stdlib Require Import ZArith Lia.
From S2P Require Import Prelude Field SymbolicExpr Effect.

(** ** Expressions *)

Record AlgebraicReferenceThin := mkThin { thin_poly_id : PolyID; thin_next : bool }.

Definition to_thin (r : AlgebraicReference) : AlgebraicReferenceThin :=
  {| thin_poly_id := ref_poly_id r; thin_next := ref_next r |}.

Record Challenge := mkChallenge { challenge_id : Z; challenge_stage : Z }.

Inductive AlgebraicBinaryOperator := AAdd | ASub | AMul | APow.
Inductive AlgebraicUnaryOperator := AMinus.

Inductive AlgebraicExpression (T : Type) :=
| AReference (r : AlgebraicReference)
| APublicReference (name : string)
| AChallenge (c : Challenge)
| ANumber (n : T)
| ABinaryOperation (left : AlgebraicExpression T) (op : AlgebraicBinaryOperator) (right : AlgebraicExpression T)
| AUnaryOperation (op : AlgebraicUnaryOperator) (expr : AlgebraicExpression T).
Arguments AReference {T}.
Arguments APublicReference {T}.
Arguments AChallenge {T}.
Arguments ANumber {T}.
Arguments ABinaryOperation {T}.
Arguments AUnaryOperation {T}.

(** Keys of the maps. *)
#[export] Instance polynomial_type_eq_dec : EqDecision PolynomialType.
Proof. solve_decision. Defined.
#[export] Instance poly_id_eq_dec : EqDecision PolyID.
Proof. solve_decision. Defined.
#[export] Instance thin_eq_dec : EqDecision AlgebraicReferenceThin.
Proof. solve_decision. Defined.

#[export] Instance polynomial_type_countable : Countable PolynomialType.
Proof.
  apply (inj_countable' (fun t => match t with Committed => 0%nat | ConstantPoly => 1%nat | IntermediatePoly => 2%nat end)
    (fun n => match n with 0%nat => Committed | 1%nat => ConstantPoly | _ => IntermediatePoly end)).
  now intros [].
Defined.
#[export] Instance poly_id_countable : Countable PolyID.
Proof. apply (inj_countable' (fun p => (poly_id p, ptype p)) (fun q => mkPolyID (fst q) (snd q))). now intros []. Defined.
#[export] Instance thin_countable : Countable AlgebraicReferenceThin.
Proof. apply (inj_countable' (fun r => (thin_poly_id r, thin_next r)) (fun q => mkThin (fst q) (snd q))). now intros []. Defined.

(** [try_to_simple_poly], [executor/src/witgen/util.rs]. *)
Definition try_to_simple_poly {T} (expr : AlgebraicExpression T) : option AlgebraicReference :=
  match expr with AReference p => if ref_next p then None else Some p | _ => None end.

(** ** Terminals *)

(** The default methods are [unimplemented!()]: [None]. *)
Record TerminalAccess (A : Type) := mkTerminalAccess {
  ta_get : AlgebraicReference -> option A;
  ta_get_public : string -> option A;
  ta_get_challenge : Challenge -> option A
}.
Arguments mkTerminalAccess {A}.
Arguments ta_get {A}.
Arguments ta_get_public {A}.
Arguments ta_get_challenge {A}.

Record OwnedTerminalValues (F : Type) := mkOwnedTerminalValues {
  trace : gmap PolyID (list F);
  public_values : gmap string F;
  challenge_values : gmap Z F
}.
Arguments mkOwnedTerminalValues {F}.
Arguments trace {F}.
Arguments public_values {F}.
Arguments challenge_values {F}.

Section Values.
Context {F : Type}.

Definition with_publics (v : OwnedTerminalValues F) (publics : list (string * F)) : OwnedTerminalValues F :=
  {| trace := trace v; public_values := list_to_map (rev publics); challenge_values := challenge_values v |}.

Definition with_challenges (v : OwnedTerminalValues F) (c : gmap Z F) : OwnedTerminalValues F :=
  {| trace := trace v; public_values := public_values v; challenge_values := c |}.

(** [unique().exactly_one().unwrap()] *)
Definition height (v : OwnedTerminalValues F) : option nat :=
  match remove_dups (map (fun kv => length (snd kv)) (map_to_list (trace v))) with
  | [n] => Some n
  | _ => None
  end.

Definition column_length (v : OwnedTerminalValues F) (p : PolyID) : option nat := length <$> trace v !! p.

(** [row(i)]: a view of one row. The remainder by zero and the missing entries panic;
    intermediate columns are [unreachable!]. *)
Definition row_access (v : OwnedTerminalValues F) (row : nat) : TerminalAccess F := {|
  ta_get column :=
    match ptype (ref_poly_id column) with
    | Committed | ConstantPoly =>
      column_values ← trace v !! ref_poly_id column;
      _ ← assert_that (negb (Nat.eqb (length column_values) 0));
      column_values !! ((row + (if ref_next column then 1 else 0)) mod length column_values)%nat
    | IntermediatePoly => None
    end;
  ta_get_public name := public_values v !! name;
  ta_get_challenge c := challenge_values v !! challenge_id c
|}.

End Values.

(** ** The evaluator *)

(** The arithmetic of the target type. *)
Class ExprOps (A : Type) := {
  e_add : A -> A -> A;
  e_sub : A -> A -> A;
  e_mul : A -> A -> A;
  e_neg : A -> A
}.

#[export] Instance field_expr_ops {T} `{FieldElement T} : ExprOps T := {
  e_add := f_add; e_sub := f_sub; e_mul := f_mul; e_neg := f_neg }.

Section Evaluator.
Context {T A : Type} `{FieldElement T} `{ExprOps A}.
Variable terminal_access : TerminalAccess A.
Variable intermediate_definitions : gmap AlgebraicReferenceThin (AlgebraicExpression T).
Variable to_expr : T -> A.

Notation cache := (gmap AlgebraicReferenceThin A).

(** [try_into_u32().unwrap()] and the fold. *)
Definition eval_pow (base : A) (n : T) : option A :=
  _ ← assert_that (to_integer n <? 2 ^ 32);
  Some (N.iter (Z.to_N (to_integer n)) (fun acc => e_mul acc base) (to_expr f_one)).

(** The evaluator threads its cache of intermediate values. The recursion is structural
    except where it enters a definition, which uses up one unit of fuel. *)
Fixpoint eval_expr (fuel : nat) : cache -> AlgebraicExpression T -> option (A * cache) :=
  fix go (c : cache) (expr : AlgebraicExpression T) {struct expr} : option (A * cache) :=
    match expr with
    | AReference reference =>
      match ptype (ref_poly_id reference) with
      | Committed | ConstantPoly => v ← ta_get terminal_access reference; Some (v, c)
      | IntermediatePoly =>
        let reference := to_thin reference in
        match c !! reference with
        | Some v => Some (v, c)
        | None =>
          match fuel with
          | O => None
          | S fuel' =>
            definition ← intermediate_definitions !! reference;
            r ← eval_expr fuel' c definition;
            let '(result, c') := r in
            Some (result, <[reference := result]> c')
          end
        end
      end
    | APublicReference public => v ← ta_get_public terminal_access public; Some (v, c)
    | ANumber n => Some (to_expr n, c)
    | ABinaryOperation e1 APow e2 =>
      match e2 with
      | ANumber n =>
        l ← go c e1;
        let '(l, c1) := l in
        v ← eval_pow l n; Some (v, c1)
      | _ => None
      end
    | ABinaryOperation e1 op e2 =>
      l ← go c e1;
      let '(l, c1) := l in
      r ← go c1 e2;
      let '(r, c2) := r in
      Some (match op with AAdd => e_add l r | ASub => e_sub l r | _ => e_mul l r end, c2)
    | AUnaryOperation AMinus e => r ← go c e; let '(v, c1) := r in Some (e_neg v, c1)
    | AChallenge challenge => v ← ta_get_challenge terminal_access challenge; Some (v, c)
    end.

End Evaluator.

(** Several expressions with one evaluator, in order. *)
Section Sequence.
Context {T A : Type} `{FieldElement T} `{ExprOps A}.

Fixpoint eval_exprs (ta : TerminalAccess A) (defs : gmap AlgebraicReferenceThin (AlgebraicExpression T)) (to_expr : T -> A)
  (fuel : nat) (c : gmap AlgebraicReferenceThin A) (es : list (AlgebraicExpression T))
  : option (list A * gmap AlgebraicReferenceThin A) :=
  match es with
  | [] => Some ([], c)
  | e :: es' =>
    r ← eval_expr ta defs to_expr fuel c e;
    rs ← eval_exprs ta defs to_expr fuel (snd r) es';
    Some (fst r :: fst rs, snd rs)
  end.

End Sequence.

(** ** Meaning of expressions *)

Section Meaning.
Context {T A : Type} `{FieldElement T} `{ExprOps A}.
Variable terminal_access : TerminalAccess A.
Variable intermediate_definitions : gmap AlgebraicReferenceThin (AlgebraicExpression T).
Variable to_expr : T -> A.

(** The value of an expression, given the values of the intermediate columns. *)
Fixpoint meaning (rho : AlgebraicReferenceThin -> option A) (e : AlgebraicExpression T) : option A :=
  match e with
  | AReference r =>
    match ptype (ref_poly_id r) with
    | IntermediatePoly => rho (to_thin r)
    | _ => ta_get terminal_access r
    end
  | APublicReference p => ta_get_public terminal_access p
  | AChallenge ch => ta_get_challenge terminal_access ch
  | ANumber n => Some (to_expr n)
  | ABinaryOperation e1 APow e2 =>
    match e2 with ANumber n => v ← meaning rho e1; eval_pow to_expr v n | _ => None end
  | ABinaryOperation e1 op e2 =>
    v1 ← meaning rho e1; v2 ← meaning rho e2;
    Some (match op with AAdd => e_add v1 v2 | ASub => e_sub v1 v2 | _ => e_mul v1 v2 end)
  | AUnaryOperation AMinus e1 => v ← meaning rho e1; Some (e_neg v)
  end.

(** The values of the intermediate columns, by expanding definitions [n] levels deep. *)
Fixpoint resolve (n : nat) (r : AlgebraicReferenceThin) : option A :=
  match n with
  | O => None
  | S n' => d ← intermediate_definitions !! r; meaning (resolve n') d
  end.

Fixpoint intermediates (e : AlgebraicExpression T) : list AlgebraicReferenceThin :=
  match e with
  | AReference r => match ptype (ref_poly_id r) with IntermediatePoly => [to_thin r] | _ => [] end
  | ABinaryOperation e1 _ e2 => intermediates e1 ++ intermediates e2
  | AUnaryOperation _ e1 => intermediates e1
  | _ => []
  end.

(** No definition depends on itself: definitions only mention columns of lower rank. *)
Definition acyclic (rank : AlgebraicReferenceThin -> nat) : Prop :=
  forall r d r', intermediate_definitions !! r = Some d -> In r' (intermediates d) -> (rank r' < rank r)%nat.

Lemma meaning_ext rho rho' e : (forall r, In r (intermediates e) -> rho r = rho' r) -> meaning rho e = meaning rho' e.
Proof.
  induction e as [r|p|ch|n|e1 IH1 op e2 IH2|op e1 IH1]; cbn [meaning intermediates]; intros Hr; try reflexivity.
  - destruct (ptype (ref_poly_id r)); [reflexivity..|]. apply Hr. now left.
  - rewrite IH1, IH2 by (intros r Hin; apply Hr, in_or_app; auto). destruct op; reflexivity.
  - now rewrite IH1.
Qed.

Variable rank : AlgebraicReferenceThin -> nat.
Hypothesis Hacyclic : acyclic rank.

Lemma resolve_stable n : forall r m, (rank r < n)%nat -> (rank r < m)%nat -> resolve n r = resolve m r.
Proof.
  induction n as [|n IH]; intros r m Hn Hm; [lia|]. destruct m as [|m]; [lia|]. cbn [resolve].
  destruct (intermediate_definitions !! r) as [d|] eqn:E; [|reflexivity]. cbn [mbind option_bind].
  apply meaning_ext. intros r' Hin. pose proof (Hacyclic r d r' E Hin). apply IH; lia.
Qed.

(** The values of all intermediate columns. *)
Definition intermediate_value (r : AlgebraicReferenceThin) : option A := resolve (S (rank r)) r.

(** They satisfy their definitions. *)
Lemma intermediate_value_def r :
  intermediate_value r = (d ← intermediate_definitions !! r; meaning intermediate_value d).
Proof.
  unfold intermediate_value at 1. cbn [resolve]. destruct (intermediate_definitions !! r) as [d|] eqn:E; [|reflexivity].
  cbn [mbind option_bind]. apply meaning_ext. intros r' Hin. pose proof (Hacyclic r d r' E Hin).
  unfold intermediate_value. apply resolve_stable; lia.
Qed.

Definition cache_valid (c : gmap AlgebraicReferenceThin A) : Prop :=
  forall r v, c !! r = Some v -> intermediate_value r = Some v.

(** Agreement of a run of the evaluator with the meaning: the value, and a valid cache. *)
Definition agrees (v : option A) (r : option (A * gmap AlgebraicReferenceThin A)) : Prop :=
  match v with
  | Some v => exists c', r = Some (v, c') /\ cache_valid c'
  | None => r = None
  end.

Notation eval := (eval_expr terminal_access intermediate_definitions to_expr).

(** Entering a definition. *)
Lemma eval_definition fuel c r : cache_valid c -> (rank r < S fuel)%nat ->
  (forall c d, cache_valid c -> (forall r', In r' (intermediates d) -> (rank r' < fuel)%nat) ->
    agrees (meaning intermediate_value d) (eval fuel c d)) ->
  agrees (intermediate_value r)
    (definition ← intermediate_definitions !! r; p ← eval fuel c definition;
     let '(result, c') := p in Some (result, <[r := result]> c')).
Proof.
  intros Hc Hr IH. pose proof (intermediate_value_def r) as Hdef. rewrite Hdef.
  destruct (intermediate_definitions !! r) as [d|] eqn:E; [|reflexivity]. cbn [mbind option_bind] in *.
  specialize (IH c d Hc ltac:(intros r' Hin; pose proof (Hacyclic r d r' E Hin); lia)).
  destruct (meaning intermediate_value d) as [v|]; cbn [agrees] in *; [|now rewrite IH].
  destruct IH as (c' & -> & Hc'). eexists. split; [reflexivity|]. intros r' v'. destruct (decide (r' = r)) as [->|Hne].
  - rewrite lookup_insert_eq. intros [= <-]. exact Hdef.
  - rewrite lookup_insert_ne by congruence. apply Hc'.
Qed.

Lemma eval_expr_correct fuel : forall e c, cache_valid c ->
  (forall r, In r (intermediates e) -> (rank r < fuel)%nat) -> agrees (meaning intermediate_value e) (eval fuel c e).
Proof.
  induction fuel as [|fuel IHf]; intros e; induction e as [r|p|ch|n|e1 IH1 op e2 IH2|op e1 IH1]; intros c Hc Hr;
    cbn [meaning eval_expr intermediates] in *.
  all: try (destruct (ta_get_public terminal_access p); cbn; eauto; fail).
  all: try (destruct (ta_get_challenge terminal_access ch); cbn; eauto; fail).
  all: try (cbn; eauto; fail).
  all: try (destruct op; specialize (IH1 c Hc Hr); destruct (meaning intermediate_value e1) as [v|]; cbn [agrees mbind option_bind] in *;
    [destruct IH1 as (c' & -> & Hc'); cbn; eauto|now rewrite IH1]; fail).
  all: try (specialize (IH1 c Hc ltac:(intros r Hin; apply Hr, in_or_app; auto));
    destruct op; [..|destruct e2; try reflexivity;
      destruct (meaning intermediate_value e1) as [v|]; cbn [agrees mbind option_bind] in *; [|now rewrite IH1];
      destruct IH1 as (c' & -> & Hc'); cbn [mbind option_bind]; destruct (eval_pow to_expr v n); cbn; eauto];
    (destruct (meaning intermediate_value e1) as [v|]; cbn [agrees mbind option_bind] in *; [|now rewrite IH1];
      destruct IH1 as (c' & -> & Hc'); cbn [mbind option_bind]; specialize (IH2 c' Hc' ltac:(intros r Hin; apply Hr, in_or_app; auto));
      destruct (meaning intermediate_value e2) as [v2|]; cbn [agrees mbind option_bind] in *; [|now rewrite IH2];
      destruct IH2 as (c'' & -> & Hc''); cbn; eauto)).
  all: destruct (ptype (ref_poly_id r)); [destruct (ta_get terminal_access r); cbn; eauto; fail..|].
  all: specialize (Hr (to_thin r) (or_introl eq_refl)); destruct (c !! to_thin r) as [v|] eqn:E;
    [rewrite (Hc _ _ E); cbn; eauto|].
  - lia.
  - apply eval_definition; auto.
Qed.

End Meaning.

Section Properties.
Context {T A : Type} `{FieldElement T} `{ExprOps A}.
Variable ta : TerminalAccess A.
Variable defs : gmap AlgebraicReferenceThin (AlgebraicExpression T).
Variable to_expr : T -> A.
Variable rank : AlgebraicReferenceThin -> nat.
Hypothesis Hacyclic : acyclic defs rank.

Lemma eval_exprs_correct fuel es : forall c, cache_valid ta defs to_expr rank c ->
  (forall e r, In e es -> In r (intermediates e) -> (rank r < fuel)%nat) ->
  match mapM (meaning ta to_expr (intermediate_value ta defs to_expr rank)) es with
  | Some vs => exists c', eval_exprs ta defs to_expr fuel c es = Some (vs, c') /\ cache_valid ta defs to_expr rank c'
  | None => eval_exprs ta defs to_expr fuel c es = None
  end.
Proof.
  induction es as [|e es IH]; intros c Hc Hr; cbn [mapM eval_exprs]; [exists c; now split|].
  pose proof (eval_expr_correct ta defs to_expr rank Hacyclic fuel e c Hc ltac:(intros r; apply Hr; now left)) as He.
  destruct (meaning _ _ _ e) as [v|]; cbn [agrees mbind option_bind] in *; [|now rewrite He].
  destruct He as (c1 & -> & Hc1). cbn [mbind option_bind snd fst].
  specialize (IH c1 Hc1 ltac:(intros e' r Hin; apply Hr; now right)).
  destruct (mapM _ es) as [vs|]; cbn [mbind option_bind]; [|now rewrite IH].
  destruct IH as (c2 & -> & Hc2). exists c2. now split.
Qed.

(** C37: the evaluator with its cache computes the meaning of expressions. When no intermediate column is
    defined in terms of itself, the values of the intermediate columns satisfy their definitions, and a
    fresh evaluator, used on any sequence of expressions (so that later ones hit the cache), returns their
    values in that reading, and panics exactly when one of them has none (a missing column, public or
    challenge, an undefined intermediate column, a non-constant or too large exponent). Fuel above the
    ranks of the columns in the expressions is enough. *)
Theorem expression_evaluation (fuel : nat) (es : list (AlgebraicExpression T)) :
  (forall e r, In e es -> In r (intermediates e) -> (rank r < fuel)%nat) ->
  let rho := intermediate_value ta defs to_expr rank in
  (forall r, rho r = (d ← defs !! r; meaning ta to_expr rho d)) /\
  match mapM (meaning ta to_expr rho) es with
  | Some vs => exists c, eval_exprs ta defs to_expr fuel ∅ es = Some (vs, c)
  | None => eval_exprs ta defs to_expr fuel ∅ es = None
  end.
Proof.
  intros Hr rho. split; [intros r; now apply intermediate_value_def|].
  pose proof (eval_exprs_correct fuel es ∅ ltac:(intros r v; rewrite lookup_empty; discriminate) Hr) as He. fold rho in He.
  destruct (mapM (meaning ta to_expr rho) es) as [vs|]; [|exact He]. destruct He as (c & Hc & _). now exists c.
Qed.

End Properties.

(** Two intermediate columns, [s = w * w'] and [t = s + s]. *)
Definition example_reference (i : Z) (t : PolynomialType) (next : bool) : AlgebraicReference :=
  mkAlgebraicReference "x" (mkPolyID i t) next.
Definition example_definitions : gmap AlgebraicReferenceThin (AlgebraicExpression GoldilocksField) :=
  <[mkThin (mkPolyID 0 IntermediatePoly) false :=
      ABinaryOperation (AReference (example_reference 0 Committed false)) AMul (AReference (example_reference 0 Committed true))]>
  (<[mkThin (mkPolyID 1 IntermediatePoly) false :=
      ABinaryOperation (AReference (example_reference 0 IntermediatePoly false)) AAdd (AReference (example_reference 0 IntermediatePoly false))]> ∅).
Definition example_values : OwnedTerminalValues GoldilocksField :=
  mkOwnedTerminalValues {[ mkPolyID 0 Committed := [from_int 2; from_int 3; from_int 5] ]} ∅ ∅.
Definition example_rank (r : AlgebraicReferenceThin) : nat := Z.to_nat (poly_id (thin_poly_id r)).
Definition example_expressions : list (AlgebraicExpression GoldilocksField) :=
  [AReference (example_reference 1 IntermediatePoly false); AReference (example_reference 0 IntermediatePoly false)].

Lemma example_acyclic : acyclic example_definitions example_rank.
Proof.
  intros r d r' Hd. unfold example_definitions in Hd. rewrite lookup_insert_Some in Hd.
  destruct Hd as [[<- <-]|[_ Hd]]; [now intros []|]. rewrite lookup_insert_Some in Hd.
  destruct Hd as [[<- <-]|[_ Hd]]; [|now rewrite lookup_empty in Hd]. cbn. intros [<-|[<-|[]]]; apply Nat.ltb_lt; reflexivity.
Qed.

Lemma expression_evaluation_witness :
  let ta := row_access example_values 2 in
  let rho := intermediate_value ta example_definitions id example_rank in
  match mapM (meaning ta id rho) example_expressions with
  | Some vs => exists c, eval_exprs ta example_definitions id 2 ∅ example_expressions = Some (vs, c)
  | None => eval_exprs ta example_definitions id 2 ∅ example_expressions = None
  end /\ fmap (map to_integer) (mapM (meaning ta id rho) example_expressions) = Some [20; 10].
Proof.
  intros ta rho. split; [|vm_compute; reflexivity].
  apply (expression_evaluation ta example_definitions id example_rank example_acyclic 2 example_expressions).
  intros e r [<-|[<-|[]]]; cbn; intros [<-|[]]; apply Nat.ltb_lt; reflexivity.
Defined.
