(* ===== verification/BusAccumulator.v ===== *)
(** * The bus accumulator, [executor/src/witgen/bus_accumulator/mod.rs]

    For each bus interaction, the columns with the folded tuples and with the running sum
    of multiplicity over folded tuple, in the extension field. *)

From stdpp Require Import base list option gmap strings.
From Stdlib Require Import ZArith Lia Ring.
From S2P Require Import Prelude Field Effect ExtensionField ExpressionEvaluator.

(** [PhantomBusInteractionIdentity], without the source reference. *)
Record PhantomBusInteractionIdentity (T : Type) := mkPhantomBusInteraction {
  interaction_id : Z;
  multiplicity : AlgebraicExpression T;
  bus_id : AlgebraicExpression T;
  payload : list (AlgebraicExpression T);
  latch : AlgebraicExpression T;
  accumulator_columns : list AlgebraicReference
}.
Arguments mkPhantomBusInteraction {T}.
Arguments interaction_id {T}.
Arguments multiplicity {T}.
Arguments bus_id {T}.
Arguments payload {T}.
Arguments latch {T}.
Arguments accumulator_columns {T}.

Inductive KnownField := BabyBearField | KoalaBearField | Mersenne31Field | GoldilocksKnownField | Bn254Field.

Section Accumulator.
Context {T Ext : Type} `{FieldElement T} `{ExtensionField T Ext}.

(** [pil] is only read for its intermediate definitions and the names of its columns. *)
Record BusAccumulatorGenerator := mkBusAccumulatorGenerator {
  intermediate_definitions : gmap AlgebraicReferenceThin (AlgebraicExpression T);
  bus_interactions : list (PhantomBusInteractionIdentity T);
  values : OwnedTerminalValues T;
  powers_of_alpha : list Ext;
  beta : Ext
}.

(** The [scan]: the state is the next power. *)
Fixpoint powers_from (state alpha : Ext) (n : nat) : list Ext :=
  match n with O => [] | S n' => state :: powers_from (ext_mul state alpha) alpha n' end.

Definition compute_powers_of_alpha (alpha : Ext) (n : nat) : list Ext := powers_from ext_one alpha n.

(** [max().unwrap()] panics without interactions, the challenges when they are missing. *)
Definition max_tuple_size (interactions : list (PhantomBusInteractionIdentity T)) : option nat :=
  match map (fun i => S (length (payload i))) interactions with
  | [] => None
  | n :: l => Some (fold_left Nat.max l n)
  end.

(** [new], from the values of the columns on. *)
Definition bag_new (defs : gmap AlgebraicReferenceThin (AlgebraicExpression T))
  (interactions : list (PhantomBusInteractionIdentity T)) (vals : OwnedTerminalValues T) (challenges : gmap Z T)
  : option BusAccumulatorGenerator :=
  n ← max_tuple_size interactions;
  alpha ← get_challenge (Ext:=Ext) (fun k => challenges !! k) 0;
  b ← get_challenge (Ext:=Ext) (fun k => challenges !! k) 1;
  Some {| intermediate_definitions := defs; bus_interactions := interactions;
          values := with_challenges vals challenges; powers_of_alpha := compute_powers_of_alpha alpha n; beta := b |}.

(** [zip_eq] panics when the lengths differ. *)
Definition zip_eq {A B} (a : list A) (b : list B) : option (list (A * B)) :=
  _ ← assert_that (Nat.eqb (length a) (length b)); Some (combine a b).

Definition fingerprint (powers : list Ext) (tuple : list T) : option Ext :=
  l ← zip_eq tuple (take (length tuple) powers);
  Some (ext_sum (T:=T) (map (fun ab => ext_scale (snd ab) (fst ab)) l)).

(** The body of the loop over the rows, from the values of the expressions on: the folded
    tuple and the new accumulator. *)
Definition accumulate_row (powers : list Ext) (beta current_acc : Ext) (m : T) (tuple : list T) : option (Ext * Ext) :=
  fp ← fingerprint powers tuple;
  let folded := ext_sub beta fp in
  new_acc ← (if f_is_zero m then Some current_acc
             else inv ← ext_inverse folded; Some (ext_add current_acc (ext_scale inv m)));
  Some (folded, new_acc).

(** A fresh evaluator for each row. *)
Definition row_values (fuel : nat) (g : BusAccumulatorGenerator) (b : PhantomBusInteractionIdentity T) (i : nat)
  : option (T * list T) :=
  r ← eval_exprs (row_access (values g) i) (intermediate_definitions g) id fuel ∅
        (multiplicity b :: bus_id b :: payload b);
  match fst r with m :: tuple => Some (m, tuple) | [] => None end.

Fixpoint accumulate_rows (fuel : nat) (g : BusAccumulatorGenerator) (b : PhantomBusInteractionIdentity T)
  (current_acc : Ext) (rows : list nat) : option (list (Ext * Ext)) :=
  match rows with
  | [] => Some []
  | i :: rows' =>
    mt ← row_values fuel g b i;
    fa ← accumulate_row (powers_of_alpha g) (beta g) current_acc (fst mt) (snd mt);
    rest ← accumulate_rows fuel g b (snd fa) rows';
    Some (fa :: rest)
  end.

(** The transposition pushes each value to its column, which must exist. *)
Fixpoint push_row (cols : list (list T)) (xs : list T) : option (list (list T)) :=
  match xs, cols with
  | [], _ => Some cols
  | x :: xs', c :: cols' => rest ← push_row cols' xs'; Some ((c ++ [x]) :: rest)
  | _ :: _, [] => None
  end.

Fixpoint push_all_rows (cols : list (list T)) (rows : list (Ext * Ext)) : option (list (list T)) :=
  match rows with
  | [] => Some cols
  | (folded, acc) :: rows' => cols' ← push_row cols (to_vec folded ++ to_vec acc); push_all_rows cols' rows'
  end.

Definition interaction_columns (fuel : nat) (g : BusAccumulatorGenerator) (b : PhantomBusInteractionIdentity T)
  : option (list (list T)) :=
  size ← height (values g);
  rows ← accumulate_rows fuel g b ext_zero (seq 0 size);
  push_all_rows (repeat [] (ext_size (Ext:=Ext) * 2)) rows.

(** [names] are the array elements of the second-stage columns, in source order. *)
Definition bag_generate (fuel : nat) (g : BusAccumulatorGenerator) (names : list string)
  : option (list (string * list T)) :=
  accumulators ← mapM (interaction_columns fuel g) (bus_interactions g);
  zip_eq names (concat accumulators).

End Accumulator.

Arguments BusAccumulatorGenerator : clear implicits.

(** [generate_bus_accumulator_columns]: the extension by the base field. *)
Definition generate_bus_accumulator_columns {T} `{FieldElement T} (known_field : option KnownField) (fuel : nat)
  (defs : gmap AlgebraicReferenceThin (AlgebraicExpression T)) (interactions : list (PhantomBusInteractionIdentity T))
  (vals : OwnedTerminalValues T) (challenges : gmap Z T) (names : list string) : option (list (string * list T)) :=
  k ← known_field;
  match k with
  | GoldilocksKnownField => g ← bag_new (Ext:=Fp2 T) defs interactions vals challenges; bag_generate fuel g names
  | BabyBearField | KoalaBearField | Mersenne31Field =>
    g ← bag_new (Ext:=Fp4 T) defs interactions vals challenges; bag_generate fuel g names
  | Bn254Field => None
  end.

(** ** Sums and fingerprints *)

Section Sums.
Context {T Ext : Type} `{EL : ExtensionLaws T Ext}.

Lemma ext_ring_theory : ring_theory (ext_zero (Ext:=Ext)) ext_one ext_add ext_mul ext_sub (fun x => ext_sub ext_zero x) eq.
Proof. exact ext_ring. Qed.

Add Ring ext_ring_sums : ext_ring_theory.

(** The embedding of the base field. *)
Definition embed (a : T) : Ext := ext_scale ext_one a.

(** The tuple as a polynomial in [alpha], by Horner's rule. *)
Fixpoint horner (alpha : Ext) (tuple : list T) : Ext :=
  match tuple with [] => ext_zero | a :: l => ext_add (embed a) (ext_mul alpha (horner alpha l)) end.

Lemma fold_left_add (l : list Ext) : forall a, fold_left ext_add l a = ext_add a (ext_sum (T:=T) l).
Proof.
  unfold ext_sum. induction l as [|x l IH]; intros a; cbn [fold_left]; [ring|]. rewrite IH, (IH (ext_add ext_zero x)). ring.
Qed.

Lemma ext_sum_cons (x : Ext) l : ext_sum (T:=T) (x :: l) = ext_add x (ext_sum (T:=T) l).
Proof. unfold ext_sum at 1. cbn [fold_left]. rewrite fold_left_add. ring. Qed.

Lemma powers_from_length alpha n : forall s : Ext, length (powers_from (T:=T) s alpha n) = n.
Proof. induction n as [|n IH]; intros s; cbn; [reflexivity|]. now rewrite IH. Qed.

Lemma powers_horner alpha tuple : forall n (s : Ext), (length tuple <= n)%nat ->
  ext_sum (T:=T) (map (fun ab => ext_scale (snd ab) (fst ab)) (combine tuple (take (length tuple) (powers_from (T:=T) s alpha n)))) =
  ext_mul s (horner alpha tuple).
Proof.
  induction tuple as [|a l IH]; intros n s Hn; cbn [length combine map horner]; [cbn; ring|].
  destruct n as [|n]; [cbn in Hn; lia|]. cbn [powers_from take combine map fst snd]. rewrite ext_sum_cons.
  rewrite IH by (cbn in Hn; lia). rewrite ext_scale_mul. fold (embed a). ring.
Qed.

Lemma fingerprint_horner alpha n tuple : (length tuple <= n)%nat ->
  fingerprint (compute_powers_of_alpha alpha n) tuple = Some (horner alpha tuple).
Proof.
  intros Hn. unfold fingerprint, zip_eq, compute_powers_of_alpha. rewrite length_take, powers_from_length.
  replace (Nat.eqb (length tuple) (Nat.min (length tuple) n)) with true by (symmetry; apply Nat.eqb_eq; lia).
  cbn [assert_that mbind option_bind]. rewrite powers_horner by exact Hn. f_equal. ring.
Qed.

(** *** One row and many *)

(** What a row adds to the accumulator, and what the denominator must allow. *)
Definition row_ok (alpha b : Ext) (mt : T * list T) : Prop :=
  f_is_zero (fst mt) = false -> exists inv, ext_inverse (ext_sub b (horner alpha (snd mt))) = Some inv.
Definition contribution (alpha b : Ext) (mt : T * list T) : Ext :=
  if f_is_zero (fst mt) then ext_zero
  else match ext_inverse (ext_sub b (horner alpha (snd mt))) with Some inv => ext_scale inv (fst mt) | None => ext_zero end.

Lemma accumulate_row_spec alpha n b acc m tuple : (length tuple <= n)%nat -> row_ok alpha b (m, tuple) ->
  accumulate_row (compute_powers_of_alpha alpha n) b acc m tuple =
  Some (ext_sub b (horner alpha tuple), ext_add acc (contribution alpha b (m, tuple))).
Proof.
  intros Hn Hok. unfold accumulate_row, contribution. rewrite fingerprint_horner by exact Hn. cbn [mbind option_bind fst snd].
  destruct (f_is_zero m) eqn:Em; cbn [mbind option_bind]; [f_equal; f_equal; ring|].
  destruct (Hok Em) as (inv & Hinv). cbn [snd] in Hinv. rewrite Hinv. reflexivity.
Qed.

(** The rows of folded tuples and running sums. *)
Fixpoint running (alpha b acc : Ext) (data : list (T * list T)) : list (Ext * Ext) :=
  match data with
  | [] => []
  | mt :: data' =>
    let acc' := ext_add acc (contribution alpha b mt) in
    (ext_sub b (horner alpha (snd mt)), acc') :: running alpha b acc' data'
  end.

Definition total (alpha b : Ext) (data : list (T * list T)) : Ext := ext_sum (T:=T) (map (contribution alpha b) data).

Lemma running_length alpha b data : forall acc, length (running alpha b acc data) = length data.
Proof. induction data as [|mt data IH]; intros acc; cbn; [reflexivity|]. now rewrite IH. Qed.

(** The accumulator after the last row. *)
Definition final_acc (acc : Ext) (rows : list (Ext * Ext)) : Ext := fold_left (fun _ fa => snd fa) rows acc.

Lemma running_final alpha b data : forall acc, final_acc acc (running alpha b acc data) = ext_add acc (total alpha b data).
Proof.
  unfold total, final_acc. induction data as [|mt data IH]; intros acc; [cbn; ring|]. cbn [running map fold_left snd].
  rewrite ext_sum_cons, IH. ring.
Qed.

(** Each row satisfies the constraint of the bus: the increment times the folded tuple is the
    multiplicity. *)
Lemma contribution_constraint alpha b m tuple : FieldLaws T -> row_ok alpha b (m, tuple) ->
  ext_mul (ext_sub b (horner alpha tuple)) (contribution alpha b (m, tuple)) = embed m.
Proof.
  intros FL Hok. unfold contribution. cbn [fst snd]. destruct (f_is_zero m) eqn:Em.
  - apply f_is_zero_eq in Em as ->. unfold embed. rewrite ext_scale_zero. ring.
  - destruct (Hok Em) as (inv & Hinv). cbn [snd] in Hinv. rewrite Hinv. apply ext_inverse_mul in Hinv.
    rewrite ext_scale_mul. fold (embed m). transitivity (ext_mul (ext_mul (ext_sub b (horner alpha tuple)) inv) (embed m)); [ring|].
    rewrite Hinv. ring.
Qed.

Definition previous (rows : list (Ext * Ext)) (acc : Ext) (i : nat) : Ext :=
  match i with O => acc | S j => match rows !! j with Some fa => snd fa | None => acc end end.

Lemma running_lookup alpha b data : forall acc i mt, data !! i = Some mt ->
  exists a, running alpha b acc data !! i = Some (ext_sub b (horner alpha (snd mt)), a) /\
    a = ext_add (previous (running alpha b acc data) acc i) (contribution alpha b mt).
Proof.
  induction data as [|mt0 data IH]; intros acc [|i] mt; cbn [lookup list_lookup]; try discriminate.
  - intros [= ->]. eexists. split; reflexivity.
  - intros Hi. destruct (IH (ext_add acc (contribution alpha b mt0)) i mt Hi) as (a & Ha & Hd). exists a. split; [exact Ha|].
    rewrite Hd. destruct i as [|i]; [reflexivity|]. cbn [previous running lookup list_lookup].
    destruct (running alpha b (ext_add acc (contribution alpha b mt0)) data !! i) eqn:E; [reflexivity|].
    apply lookup_ge_None in E. rewrite running_length in E. apply lookup_lt_Some in Hi. lia.
Qed.

End Sums.

(** ** From the code to the running sums *)

Section Columns.
Context {T Ext : Type} `{EL : ExtensionLaws T Ext}.

Add Ring ext_ring_columns : (ext_ring_theory (T:=T) (Ext:=Ext)).

(** The values of the interaction's expressions in a row, by their meaning. *)
Definition row_meaning (g : BusAccumulatorGenerator T Ext) (rank : AlgebraicReferenceThin -> nat)
  (b : PhantomBusInteractionIdentity T) (i : nat) : option (T * list T) :=
  let ta := row_access (values g) i in
  vs ← mapM (meaning ta id (intermediate_value ta (intermediate_definitions g) id rank)) (multiplicity b :: bus_id b :: payload b);
  match vs with m :: tuple => Some (m, tuple) | [] => None end.

Definition fuel_enough (rank : AlgebraicReferenceThin -> nat) (fuel : nat) (b : PhantomBusInteractionIdentity T) : Prop :=
  forall e r, In e (multiplicity b :: bus_id b :: payload b) -> In r (intermediates e) -> (rank r < fuel)%nat.

Lemma row_values_meaning fuel g rank b i : acyclic (intermediate_definitions g) rank -> fuel_enough rank fuel b ->
  row_values fuel g b i = row_meaning g rank b i.
Proof.
  intros Hac Hf. unfold row_values, row_meaning. set (ta := row_access (values g) i).
  pose proof (eval_exprs_correct ta (intermediate_definitions g) id rank Hac fuel _ ∅
    ltac:(intros r v; rewrite lookup_empty; discriminate) Hf) as He.
  destruct (mapM _ _) as [vs|]; [|now rewrite He]. destruct He as (c & -> & _). reflexivity.
Qed.

Lemma row_meaning_length g rank b i m tuple : row_meaning g rank b i = Some (m, tuple) -> length tuple = S (length (payload b)).
Proof.
  unfold row_meaning. intros (vs & Hvs & Hm)%bind_inv. apply length_mapM in Hvs. destruct vs as [|m' tuple']; [discriminate|].
  injection Hm as -> ->. cbn in Hvs. lia.
Qed.

Lemma accumulate_rows_running alpha n fuel g b data : forall acc rows,
  powers_of_alpha g = compute_powers_of_alpha alpha n ->
  Forall2 (fun i mt => row_values fuel g b i = Some mt /\ (length (snd mt) <= n)%nat /\ row_ok alpha (beta g) mt) rows data ->
  accumulate_rows fuel g b acc rows = Some (running alpha (beta g) acc data).
Proof.
  induction data as [|[m tuple] data IH]; intros acc rows Hp Hall; inversion Hall as [|i mt rows' data' (Hv & Hl & Hok) Hrest]; subst; [reflexivity|].
  cbn [accumulate_rows]. rewrite Hv. cbn [mbind option_bind fst snd] in *. rewrite Hp, (accumulate_row_spec alpha n _ _ _ _ Hl Hok).
  cbn [mbind option_bind snd]. rewrite (IH _ _ Hp Hrest). reflexivity.
Qed.

(** *** Transposition *)

Lemma push_row_spec (cols : list (list T)) : forall xs, length xs = length cols ->
  push_row cols xs = Some (zip_with (fun c x => c ++ [x]) cols xs).
Proof.
  induction cols as [|c cols IH]; intros [|x xs] Hl; try discriminate; [reflexivity|]. cbn [push_row zip_with].
  rewrite IH by (cbn in Hl; lia). reflexivity.
Qed.

Definition row_vector (fa : Ext * Ext) : list T := to_vec (fst fa) ++ to_vec (snd fa).

Lemma row_vector_length fa : length (row_vector fa) = (ext_size (T:=T) (Ext:=Ext) * 2)%nat.
Proof. unfold row_vector. rewrite length_app, !to_vec_length. lia. Qed.

(** Every column gets one value per row. *)
Lemma push_all_rows_spec rows : forall cols k, length cols = (ext_size (T:=T) (Ext:=Ext) * 2)%nat -> Forall (fun c => length c = k) cols ->
  exists cols', push_all_rows cols rows = Some cols' /\ length cols' = length cols /\
    Forall (fun c => length c = (k + length rows)%nat) cols' /\
    (forall j c, cols !! j = Some c -> exists c', cols' !! j = Some (c ++ c') /\
      forall i fa, rows !! i = Some fa -> c' !! i = row_vector fa !! j).
Proof.
  induction rows as [|[f a] rows IH]; intros cols k Hl Hk; cbn [push_all_rows].
  - exists cols. split; [reflexivity|]. split; [reflexivity|]. split; [now rewrite Nat.add_0_r|]. intros j c Hj. exists [].
    rewrite app_nil_r. split; [exact Hj|]. intros i fa Hi. now rewrite lookup_nil in Hi.
  - change (to_vec f ++ to_vec a) with (row_vector (f, a)). pose proof (row_vector_length (f, a)) as Hrl. rewrite push_row_spec by congruence. cbn [mbind option_bind].
    destruct (IH (zip_with (fun c x => c ++ [x]) cols (row_vector (f, a))) (S k)) as (cols' & -> & Hl' & Hk' & Hc').
    + rewrite length_zip_with_l_eq; congruence.
    + apply Forall_zip_with_fst with (P := fun c => length c = k); [exact Hk|].
      apply Forall_true. intros x c Hc. rewrite length_app. cbn. lia.
    + exists cols'. split; [reflexivity|]. split; [rewrite Hl'; apply length_zip_with_l_eq; congruence|]. split; [cbn [length]; now rewrite <- Nat.add_succ_comm|].
      intros j c Hj. destruct (row_vector (f, a) !! j) as [x|] eqn:Ex.
      * destruct (Hc' j (c ++ [x])) as (c'' & Hc'' & Hi''); [now apply lookup_zip_with_Some; exists c, x|].
        exists (x :: c''). split; [now rewrite Hc'', <- app_assoc|]. intros [|i] fa; cbn; [intros [= <-]; now rewrite Ex|apply Hi''].
      * apply lookup_ge_None in Ex. apply lookup_lt_Some in Hj. rewrite Hrl in Ex. lia.
Qed.

End Columns.

(** ** Properties *)

Section Properties.
Context {T Ext : Type} `{EL : ExtensionLaws T Ext} {FL : FieldLaws T}.

Add Ring ext_ring_properties : (ext_ring_theory (T:=T) (Ext:=Ext)).
Add Ring f_ring_properties : (f_ring (T:=T)).

Lemma fold_max_ge l : forall n, (n <= fold_left Nat.max l n)%nat /\ (forall k, In k l -> (k <= fold_left Nat.max l n)%nat).
Proof.
  induction l as [|x l IH]; intros n; cbn; [split; [lia|now intros k]|]. destruct (IH (Nat.max n x)) as [H1 H2]. split; [lia|].
  intros k [<-|Hk]; [lia|now apply H2].
Qed.

Lemma max_tuple_size_ge (l : list (PhantomBusInteractionIdentity T)) n b : max_tuple_size l = Some n -> In b l -> (S (length (payload b)) <= n)%nat.
Proof.
  unfold max_tuple_size. intros Hm Hb. apply (in_map (fun i => S (length (payload i)))) in Hb.
  destruct (map _ l) as [|k ks]; [discriminate|]. injection Hm as <-. destruct (fold_max_ge ks k) as [H1 H2].
  destruct Hb as [<-|Hb]; [exact H1|now apply H2].
Qed.

Definition negate (mt : T * list T) : T * list T := (f_neg (fst mt), snd mt).

Lemma contribution_negate alpha (b : Ext) mt : contribution alpha b (negate mt) = ext_sub ext_zero (contribution alpha b mt).
Proof.
  unfold contribution, negate. cbn [fst snd].
  assert (Hz : f_is_zero (f_neg (fst mt)) = f_is_zero (fst mt)).
  { apply eq_true_iff_eq. rewrite !f_is_zero_eq. split; intros E; [replace (fst mt) with (f_neg (f_neg (fst mt))) by ring|]; rewrite E; ring. }
  rewrite Hz. destruct (f_is_zero (fst mt)); [ring|]. destruct (ext_inverse _) as [inv|]; [|ring].
  rewrite (ext_scale_mul inv (f_neg (fst mt))), (ext_scale_mul inv (fst mt)).
  assert (E : ext_add (embed (Ext:=Ext) (fst mt)) (embed (f_neg (fst mt))) = ext_zero).
  { unfold embed. rewrite <- ext_scale_add. replace (f_add (fst mt) (f_neg (fst mt))) with (f_zero (T:=T)) by ring. apply ext_scale_zero. }
  fold (embed (Ext:=Ext) (f_neg (fst mt))) (embed (Ext:=Ext) (fst mt)).
  transitivity (ext_sub (ext_mul inv (ext_add (embed (fst mt)) (embed (f_neg (fst mt))))) (ext_mul inv (embed (fst mt)))); [ring|].
  rewrite E. ring.
Qed.

Lemma total_negate alpha (b : Ext) data : total alpha b (map negate data) = ext_sub ext_zero (total alpha b data).
Proof.
  unfold total. induction data as [|mt data IH]; [cbn; ring|]. cbn [map]. rewrite !ext_sum_cons, IH, contribution_negate. ring.
Qed.

Lemma total_permutation alpha (b : Ext) data data' : data ≡ₚ data' -> total alpha b data = total alpha b data'.
Proof.
  unfold total. induction 1 as [|mt l l' _ IH|mt1 mt2 l|l1 l2 l3 _ IH1 _ IH2]; cbn [map]; rewrite ?ext_sum_cons; [reflexivity|now rewrite IH|ring|congruence].
Qed.

(** What the generator and the rows of an interaction are. *)
Variables (defs : gmap AlgebraicReferenceThin (AlgebraicExpression T)) (interactions : list (PhantomBusInteractionIdentity T))
  (vals : OwnedTerminalValues T) (challenges : gmap Z T) (g : BusAccumulatorGenerator T Ext) (alpha : Ext)
  (rank : AlgebraicReferenceThin -> nat) (fuel h : nat).
Hypothesis Hnew : bag_new defs interactions vals challenges = Some g.
Hypothesis Halpha : get_challenge (fun k => challenges !! k) 0 = Some alpha.
Hypothesis Hacyclic : acyclic defs rank.
Hypothesis Hheight : height vals = Some h.

(** [data] are the multiplicities and tuples of the interaction [b] in all rows. *)
Definition interaction_data (b : PhantomBusInteractionIdentity T) (data : list (T * list T)) : Prop :=
  In b interactions /\ fuel_enough rank fuel b /\ length data = h /\
  forall i mt, data !! i = Some mt -> row_meaning g rank b i = Some mt.

Lemma bag_new_inv : exists n, max_tuple_size interactions = Some n /\ intermediate_definitions g = defs /\
  values g = with_challenges vals challenges /\ powers_of_alpha g = compute_powers_of_alpha alpha n.
Proof.
  unfold bag_new in Hnew. destruct (max_tuple_size interactions) as [n|]; [|discriminate]. cbn [mbind option_bind] in Hnew.
  rewrite Halpha in Hnew. cbn [mbind option_bind] in Hnew. destruct (get_challenge _ 1); [|discriminate]. injection Hnew as <-. eauto.
Qed.

Lemma interaction_running b data : interaction_data b data -> Forall (row_ok alpha (beta g)) data ->
  accumulate_rows fuel g b ext_zero (seq 0 h) = Some (running alpha (beta g) ext_zero data).
Proof.
  intros (Hin & Hf & Hl & Hd) Hok. destruct bag_new_inv as (n & Hn & Hdefs & _ & Hp). apply (accumulate_rows_running alpha n); [exact Hp|].
  apply Forall2_same_length_lookup_2; [now rewrite length_seq|]. intros i r mt Hr Hmt. apply lookup_seq in Hr as [-> _]. cbn [Nat.add].
  specialize (Hd i mt Hmt). split; [|split].
  - rewrite (row_values_meaning fuel g rank b i); [exact Hd|now rewrite Hdefs|exact Hf].
  - destruct mt as [m t]. apply row_meaning_length in Hd. cbn [snd]. rewrite Hd. now apply (max_tuple_size_ge interactions).
  - rewrite Forall_lookup in Hok. now apply (Hok i).
Qed.

(** The columns of a bus interaction satisfy the constraints of the bus. Where no denominator that is
    needed vanishes, [interaction_columns] returns twice the degree of the extension many columns, as long as
    the trace; read row by row they are the folded tuple, [beta] minus the tuple as a polynomial in [alpha],
    and the accumulator, whose increment (from zero before the first row) times the folded tuple is the
    multiplicity. *)
Theorem bus_accumulator_columns (b : PhantomBusInteractionIdentity T) (data : list (T * list T)) :
  interaction_data b data -> Forall (row_ok alpha (beta g)) data ->
  exists cols rows, interaction_columns fuel g b = Some cols /\
    length cols = (ext_size (T:=T) (Ext:=Ext) * 2)%nat /\ Forall (fun c => length c = h) cols /\ length rows = h /\
    (forall i j fa, rows !! i = Some fa -> (c ← cols !! j; c !! i) = (to_vec (fst fa) ++ to_vec (snd fa)) !! j) /\
    (forall i m tuple, data !! i = Some (m, tuple) ->
      exists a, rows !! i = Some (ext_sub (beta g) (horner alpha tuple), a) /\
        ext_mul (ext_sub (beta g) (horner alpha tuple)) (ext_sub a (previous rows ext_zero i)) = embed m).
Proof.
  intros Hdata Hok. pose proof (interaction_running b data Hdata Hok) as Hrun. destruct Hdata as (_ & _ & Hl & _).
  destruct bag_new_inv as (_ & _ & _ & Hvals & _). set (rows := running alpha (beta g) ext_zero data) in *.
  assert (Hrl : length rows = h) by (unfold rows; now rewrite running_length).
  destruct (push_all_rows_spec rows (repeat [] (ext_size (T:=T) (Ext:=Ext) * 2)) 0) as (cols & Hc & Hcl & Hk & Hcol).
  { apply repeat_length. } { apply List.Forall_forall. now intros c ->%repeat_spec. }
  rewrite repeat_length in Hcl. exists cols, rows. split.
  { unfold interaction_columns. rewrite Hvals. unfold height in *. cbn [with_challenges trace]. rewrite Hheight. cbn [mbind option_bind].
    rewrite Hrun. exact Hc. }
  split; [exact Hcl|]. split; [now rewrite Hrl in Hk|]. split; [exact Hrl|]. split.
  - intros i j fa Hi. destruct (cols !! j) as [c|] eqn:Ec.
    + assert (Hj : repeat (A:=list T) [] (ext_size (T:=T) (Ext:=Ext) * 2) !! j = Some []).
      { apply lookup_lt_Some in Ec. rewrite Hcl in Ec. destruct (lookup_lt_is_Some_2 (repeat (A:=list T) [] (ext_size (T:=T) (Ext:=Ext) * 2)) j) as (c0 & Hc0);
          [now rewrite repeat_length|]. rewrite Hc0. f_equal. apply list_elem_of_lookup_2, list_elem_of_In, repeat_spec in Hc0. exact Hc0. }
      destruct (Hcol j [] Hj) as (c' & Hc' & Hi'). rewrite Ec in Hc'. injection Hc' as ->. exact (Hi' i fa Hi).
    + symmetry. apply lookup_ge_None. apply lookup_ge_None in Ec. fold (row_vector (T:=T) fa). rewrite row_vector_length. lia.
  - intros i m tuple Hi. destruct (running_lookup alpha (beta g) data ext_zero i _ Hi) as (a & Ha & Hprev). exists a. split; [exact Ha|].
    rewrite Forall_lookup in Hok. rewrite <- (contribution_constraint alpha (beta g) m tuple FL (Hok i _ Hi)).
    fold rows in Hprev. rewrite Hprev. ring.
Qed.

(** C36: the bus balances. When one interaction receives, in any order of rows, the tuples that another one
    sends (the same multiset of tuples with negated multiplicities), neither run panics and the final
    accumulators of the two add up to zero. *)
Theorem bus_balances (send receive : PhantomBusInteractionIdentity T) (sent received : list (T * list T)) :
  interaction_data send sent -> interaction_data receive received ->
  received ≡ₚ map negate sent -> Forall (row_ok alpha (beta g)) sent ->
  exists rows1 rows2,
    accumulate_rows fuel g send ext_zero (seq 0 h) = Some rows1 /\
    accumulate_rows fuel g receive ext_zero (seq 0 h) = Some rows2 /\
    ext_add (final_acc ext_zero rows1) (final_acc ext_zero rows2) = ext_zero.
Proof.
  intros Hs Hr Hperm Hok.
  assert (Hok2 : Forall (row_ok alpha (beta g)) received).
  { rewrite Hperm. apply Forall_map. eapply Forall_impl; [exact Hok|]. intros mt Hmt Hz. apply Hmt. cbn [negate fst] in Hz.
    destruct (f_is_zero (fst mt)) eqn:E; [|reflexivity]. apply f_is_zero_eq in E. rewrite E in Hz.
    replace (f_neg f_zero) with (f_zero (T:=T)) in Hz by ring. assert (f_is_zero (T:=T) f_zero = true) by now apply f_is_zero_eq. congruence. }
  exists (running alpha (beta g) ext_zero sent), (running alpha (beta g) ext_zero received).
  split; [now apply interaction_running|]. split; [now apply interaction_running|].
  rewrite !running_final, (total_permutation _ _ _ _ Hperm), total_negate. ring.
Qed.

End Properties.

(** ** A concrete bus: one column sends, its reversal receives *)

Definition column_ref (i : Z) : AlgebraicExpression GoldilocksField :=
  AReference (mkAlgebraicReference "x" (mkPolyID i Committed) false).
Definition example_interaction (m : Z) (i : Z) : PhantomBusInteractionIdentity GoldilocksField :=
  mkPhantomBusInteraction i (ANumber (from_int m)) (ANumber (from_int 5)) [column_ref i] (ANumber (from_int 1)) [].
Definition example_trace : OwnedTerminalValues GoldilocksField :=
  mkOwnedTerminalValues (<[mkPolyID 0 Committed := [from_int 2; from_int 3]]> {[mkPolyID 1 Committed := [from_int 3; from_int 2]]}) ∅ ∅.
Definition example_challenges : gmap Z GoldilocksField :=
  <[1 := from_int 100]> (<[2 := from_int 200]> (<[3 := from_int 300]> {[4 := from_int 400]})).
Definition example_interactions := [example_interaction 1 0; mkPhantomBusInteraction 1 (ANumber (f_neg (from_int 1))) (ANumber (from_int 5)) [column_ref 1] (ANumber (from_int 1)) []].
Definition example_alpha : Fp2 GoldilocksField := mkFp2 (from_int 100) (from_int 200).
Definition example_generator : BusAccumulatorGenerator GoldilocksField (Fp2 GoldilocksField) :=
  {| intermediate_definitions := ∅; bus_interactions := example_interactions; values := with_challenges example_trace example_challenges;
     powers_of_alpha := compute_powers_of_alpha example_alpha 2; beta := mkFp2 (from_int 300) (from_int 400) |}.
Definition example_sent : list (GoldilocksField * list GoldilocksField) :=
  [(from_int 1, [from_int 5; from_int 2]); (from_int 1, [from_int 5; from_int 3])].
Definition example_received : list (GoldilocksField * list GoldilocksField) :=
  [(f_neg (from_int 1), [from_int 5; from_int 3]); (f_neg (from_int 1), [from_int 5; from_int 2])].

Lemma example_new : bag_new ∅ example_interactions example_trace example_challenges = Some example_generator.
Proof. reflexivity. Qed.

Lemma example_bus_acyclic : acyclic (T:=GoldilocksField) ∅ (fun _ => 0%nat).
Proof. intros r d r'. now rewrite lookup_empty. Qed.

Lemma example_height : height example_trace = Some 2%nat.
Proof. vm_compute. reflexivity. Qed.

Lemma row_ok_computed alpha b (mt : GoldilocksField * list GoldilocksField) :
  match ext_inverse (Ext:=Fp2 GoldilocksField) (ext_sub b (horner alpha (snd mt))) with Some _ => true | None => false end = true -> row_ok alpha b mt.
Proof. intros Hc _. destruct (ext_inverse _) as [inv|]; [now exists inv|discriminate]. Qed.

Lemma example_data : let d := interaction_data example_interactions example_generator (fun _ => 0%nat) 1 2 in
  d (example_interaction 1 0) example_sent /\
  d (mkPhantomBusInteraction 1 (ANumber (f_neg (from_int 1))) (ANumber (from_int 5)) [column_ref 1] (ANumber (from_int 1)) []) example_received.
Proof.
  split; (split; [cbn; auto|]; split; [intros e r [<-|[<-|[<-|[]]]]; now intros []|]; split; [reflexivity|]);
    intros [|[|i]] mt; cbn; try discriminate; intros [= <-]; reflexivity.
Qed.

Lemma example_sent_ok : Forall (row_ok example_alpha (beta example_generator)) example_sent.
Proof. repeat constructor; apply row_ok_computed; vm_compute; reflexivity. Qed.

Lemma bus_accumulator_columns_witness :
  exists cols, interaction_columns 1 example_generator (example_interaction 1 0) = Some cols /\ length cols = 4%nat.
Proof.
  destruct (bus_accumulator_columns (Ext:=Fp2 GoldilocksField) ∅ example_interactions example_trace example_challenges example_generator example_alpha
    (fun _ => 0%nat) 1 2 example_new eq_refl example_bus_acyclic example_height (example_interaction 1 0) example_sent
    (proj1 example_data) example_sent_ok) as (cols & rows & Hc & Hl & _).
  exists cols. now split.
Defined.

Lemma bus_balances_witness :
  exists rows1 rows2, accumulate_rows 1 example_generator (example_interaction 1 0) ext_zero (seq 0 2) = Some rows1 /\
    accumulate_rows 1 example_generator
      (mkPhantomBusInteraction 1 (ANumber (f_neg (from_int 1))) (ANumber (from_int 5)) [column_ref 1] (ANumber (from_int 1)) [])
      ext_zero (seq 0 2) = Some rows2 /\
    ext_add (final_acc ext_zero rows1) (final_acc ext_zero rows2) = ext_zero.
Proof.
  exact (bus_balances (Ext:=Fp2 GoldilocksField) ∅ example_interactions example_trace example_challenges example_generator example_alpha
    (fun _ => 0%nat) 1 2 example_new eq_refl example_bus_acyclic _ _ example_sent example_received
    (proj1 example_data) (proj2 example_data) (Permutation.perm_swap _ _ _) example_sent_ok).
Defined.
