(* ===== verification/WriteOnceMemory.v ===== *)
(** * The write-once memory, [executor/src/witgen/machines/write_once_memory.rs]

    A machine without identities, whose connections all look up the same columns: fixed
    columns with the keys and witness columns with the values. Looking up a key with a
    known value writes it, with an unknown value reads it. *)

From stdpp Require Import base list option gmap strings pretty.
From Stdlib Require Import ZArith Lia.
From S2P Require Import Prelude Field RangeConstraints EvalResult AffineExpression AffineSolver.
From S2P Require Import SymbolicExpr Effect ExpressionEvaluator Goldilocks.

(** ** Connections, [machines/mod.rs] and [ast/src/analyzed/mod.rs] *)

Record SelectedExpressions (T : Type) := mkSelectedExpressions {
  selector : AlgebraicExpression T;
  expressions : list (AlgebraicExpression T)
}.
Arguments mkSelectedExpressions {T}.
Arguments selector {T}.
Arguments expressions {T}.

Inductive ConnectionKind := Lookup | Permutation.

Record Connection (T : Type) := mkConnection {
  connection_id : Z;
  left : SelectedExpressions T;
  right : SelectedExpressions T;
  kind : ConnectionKind;
  multiplicity_column : option PolyID
}.
Arguments mkConnection {T}.
Arguments connection_id {T}.
Arguments left {T}.
Arguments right {T}.
Arguments kind {T}.
Arguments multiplicity_column {T}.

Definition is_lookup {T} (c : Connection T) : bool := match kind c with Lookup => true | Permutation => false end.

(** [num_traits::One::is_one]: equality with [Number(1)]. *)
Definition expr_is_one {T} `{FieldElement T} (e : AlgebraicExpression T) : bool :=
  match e with ANumber n => f_is_one n | _ => false end.

(** [util.rs] *)
Definition try_to_simple_poly {T} (e : AlgebraicExpression T) : option AlgebraicReference :=
  match e with AReference r => if ref_next r then None else Some r | _ => None end.

(** The derived equality of expressions; references compare by their polynomial. *)
Fixpoint expr_eqb {T} `{FieldElement T} (a b : AlgebraicExpression T) : bool :=
  match a, b with
  | AReference r, AReference s => bool_decide (to_thin r = to_thin s)
  | APublicReference p, APublicReference q => bool_decide (p = q)
  | AChallenge c, AChallenge d => (challenge_id c =? challenge_id d) && (challenge_stage c =? challenge_stage d)
  | ANumber n, ANumber m => f_eqb n m
  | ABinaryOperation a1 op a2, ABinaryOperation b1 op' b2 =>
    expr_eqb a1 b1 && match op, op' with AAdd, AAdd | ASub, ASub | AMul, AMul | APow, APow => true | _, _ => false end && expr_eqb a2 b2
  | AUnaryOperation _ a1, AUnaryOperation _ b1 => expr_eqb a1 b1
  | _, _ => false
  end.

Fixpoint exprs_eqb {T} `{FieldElement T} (a b : list (AlgebraicExpression T)) : bool :=
  match a, b with
  | [], [] => true
  | x :: a', y :: b' => expr_eqb x y && exprs_eqb a' b'
  | _, _ => false
  end.

(** ** State *)

(** The parts of the fixed data the machine reads. *)
Record FixedData (T : Type) := mkFixedData {
  fixed_values : PolyID -> Z -> option (list T);
  external_values : gmap PolyID (option (list T))
}.
Arguments mkFixedData {T}.
Arguments fixed_values {T}.
Arguments external_values {T}.

Record MachineParts (T : Type) := mkMachineParts {
  connections : gmap Z (Connection T);
  identities_empty : bool;
  degree_max : Z
}.
Arguments mkMachineParts {T}.
Arguments connections {T}.
Arguments identities_empty {T}.
Arguments degree_max {T}.

Record WriteOnceMemory (T : Type) := mkWriteOnceMemory {
  degree : Z;
  wom_connections : gmap Z (Connection T);
  value_polys : list PolyID;
  key_to_index : list (list T * Z);
  wom_data : gmap Z (list (option T))
}.
Arguments mkWriteOnceMemory {T}.
Arguments degree {T}.
Arguments wom_connections {T}.
Arguments value_polys {T}.
Arguments key_to_index {T}.
Arguments wom_data {T}.

Section Machine.
Context {K T : Type} `{Ord K} `{FieldElement T} `{Display K} `{Display T}.

(** [BTreeMap<Vec<T>, _>], by its keys. *)
Fixpoint keys_eqb (a b : list T) : bool :=
  match a, b with
  | [], [] => true
  | x :: a', y :: b' => f_eqb x y && keys_eqb a' b'
  | _, _ => false
  end.

Fixpoint key_get (key : list T) (l : list (list T * Z)) : option Z :=
  match l with
  | [] => None
  | (k, i) :: l' => if keys_eqb key k then Some i else key_get key l'
  end.

(** *** Construction *)

(** The value of the key columns in a row; missing columns and rows panic. *)
Definition row_key (fd : FixedData T) (key_polys : list PolyID) (deg row : Z) : option (list T) :=
  mapM (fun k => c ← fixed_values fd k deg; c !! Z.to_nat row) key_polys.

(** The loop over the rows. The inner option: a duplicate key. *)
Fixpoint index_keys (fd : FixedData T) (key_polys : list PolyID) (deg : Z) (rows : list nat) (acc : list (list T * Z))
  : option (option (list (list T * Z))) :=
  match rows with
  | [] => Some (Some acc)
  | row :: rows' =>
    key ← row_key fd key_polys deg (Z.of_nat row);
    match key_get key acc with
    | Some _ => Some None
    | None => index_keys fd key_polys deg rows' ((key, Z.of_nat row) :: acc)
    end
  end.

Definition is_constant_poly (p : PolyID) : bool := match ptype p with ConstantPoly => true | _ => false end.

(** The outer option is a panic, the inner one the machine's refusal. *)
Definition try_new (fd : FixedData T) (parts : MachineParts T) : option (option (WriteOnceMemory T)) :=
  let conns := map snd (map_to_list (connections parts)) in
  if negb (identities_empty parts) then Some None
  else match conns with
  | [] => Some None
  | first :: _ =>
    if negb (forallb is_lookup conns) then Some None
    else if existsb (fun i => negb (expr_is_one (selector (right i)))) conns then Some None
    else if negb (forallb (fun i => exprs_eqb (expressions (right first)) (expressions (right i))) conns) then Some None
    else match mapM try_to_simple_poly (expressions (right first)) with
    | None => Some None
    | Some rhs_polys =>
      _ ← assert_that (forallb (fun p => negb (ref_next p)) rhs_polys);
      let ids := map ref_poly_id rhs_polys in
      let key_polys := List.filter is_constant_poly ids in
      r ← index_keys fd key_polys (degree_max parts) (seq 0 (Z.to_nat (degree_max parts))) [];
      match r with
      | None => Some None
      | Some keys =>
        Some (Some {| degree := degree_max parts; wom_connections := connections parts;
                      value_polys := List.filter (fun p => negb (is_constant_poly p)) ids;
                      key_to_index := keys; wom_data := ∅ |})
      end
    end
  end.

(** *** Lookups *)

(** [FixedData::external_witness], [witgen/mod.rs]: the row is taken modulo the length. *)
Definition external_witness (fd : FixedData T) (row : Z) (column : PolyID) : option (option T) :=
  ev ← external_values fd !! column;
  match ev with
  | None => Some None
  | Some v =>
    _ ← assert_that (negb (Nat.eqb (length v) 0));
    Some (v !! Z.to_nat (row mod Z.of_nat (length v)))
  end.

(** [args.iter().zip(right).partition(..)]: keys and values. *)
Fixpoint partition_args (args : list (AffineExpression K T)) (rhs : list (AlgebraicExpression T))
  : option (list (AffineExpression K T) * list (AffineExpression K T)) :=
  match args, rhs with
  | a :: args', r :: rhs' =>
    p ← try_to_simple_poly r;
    kv ← partition_args args' rhs';
    Some (if is_constant_poly (ref_poly_id p) then (a :: fst kv, snd kv) else (fst kv, a :: snd kv))
  | _, _ => Some ([], [])
  end.

(** The closure over value expressions and stored values, up to the first error. The outer
    option is a panic of [solve]. *)
Fixpoint process_values (l : list (AffineExpression K T * option T))
  : option (sum (list (option T) * list (K * Constraint T)) (EvalError T)) :=
  match l with
  | [] => Some (inl ([], []))
  | (lhs, stored) :: l' =>
    match stored with
    | Some r =>
      res ← solve (aff_sub lhs (Constant r));
      match res with
      | inr e => Some (inr e)
      | inl v =>
        rest ← process_values l';
        Some (match rest with
              | inl (vals, ups) => inl (Some r :: vals, ev_constraints v ++ ups)
              | inr e => inr e
              end)
      end
    | None =>
      rest ← process_values l';
      Some (match rest with
            | inl (vals, ups) => inl (constant_value lhs :: vals, ups)
            | inr e => inr e
            end)
    end
  end.

Definition is_none {A} (o : option A) : bool := match o with None => true | Some _ => false end.

Definition with_data (m : WriteOnceMemory T) (d : gmap Z (list (option T))) : WriteOnceMemory T :=
  {| degree := degree m; wom_connections := wom_connections m; value_polys := value_polys m;
     key_to_index := key_to_index m; wom_data := d |}.

(** What is stored at an index, an external value having precedence. *)
Definition stored_value (m : WriteOnceMemory T) (external : list (option T)) (index : Z) : list (option T) :=
  match wom_data m !! index with
  | Some vals => zip_with (fun stored ext => match ext with Some _ => ext | None => stored end) vals external
  | None => external
  end.

Variable show_key : list T -> string.

(** [evaluate] is [RowPair::evaluate] on the caller's rows, unwrapped. *)
Definition process_plookup_internal (fd : FixedData T) (evaluate : AlgebraicExpression T -> option (AffineExpression K T))
  (m : WriteOnceMemory T) (identity_id : Z) : option (EvalResult K T * WriteOnceMemory T) :=
  identity ← wom_connections m !! identity_id;
  args ← mapM evaluate (expressions (left identity));
  kv ← partition_args args (expressions (right identity));
  let '(key_expressions, value_expressions) := kv in
  match mapM constant_value key_expressions with
  | None => Some (inl (ev_incomplete (NonConstantRequiredArgument "key")), m)
  | Some key =>
    match key_get key (key_to_index m) with
    | None => Some (inr (GenericError ("Key " +:+ show_key key +:+ " not found in write-once memory")), m)
    | Some index =>
      external ← mapM (external_witness fd index) (value_polys m);
      r ← process_values (combine value_expressions (stored_value m external index));
      match r with
      | inr e => Some (inr e, m)
      | inl (vals, updates) =>
        let is_complete := negb (existsb is_none vals) in
        let side_effect := is_none (wom_data m !! index) in
        let m' := with_data m (<[index := vals]> (wom_data m)) in
        Some (inl (if is_complete
                   then (if side_effect then ev_report_side_effect (ev_complete updates) else ev_complete updates)
                   else ev_incomplete_with_constraints updates (NonConstantRequiredArgument "value")), m')
      end
    end
  end.

(** *** The finished columns *)

Definition resize (l : list T) (n : nat) : list T := take n l ++ repeat f_zero (n - length l).

(** [column[row] = values[value_index].unwrap_or_default()] for all stored rows. *)
Fixpoint fill_column (value_index : nat) (entries : list (Z * list (option T))) (column : list T) : option (list T) :=
  match entries with
  | [] => Some column
  | (row, vals) :: entries' =>
    v ← vals !! value_index;
    _ ← assert_that (Z.to_nat row <? length column)%nat;
    fill_column value_index entries' (<[Z.to_nat row := default f_zero v]> column)
  end.

Definition witness_column (fd : FixedData T) (m : WriteOnceMemory T) (value_index : nat) (poly : PolyID) : option (list T) :=
  ev ← external_values fd !! poly;
  match ev with
  | Some v => Some (resize v (Z.to_nat (degree m)))
  | None => fill_column value_index (map_to_list (wom_data m)) (repeat f_zero (Z.to_nat (degree m)))
  end.

(** By polynomial; the code names the columns. *)
Definition take_witness_col_values (fd : FixedData T) (m : WriteOnceMemory T) : option (list (PolyID * list T)) :=
  mapM (fun ip => c ← witness_column fd m (fst ip) (snd ip); Some (snd ip, c)) (combine (seq 0 (length (value_polys m))) (value_polys m)).

End Machine.

(** ** Processing the values of a lookup *)

Section Values.
Context {K T : Type} `{OL : OrdLaws K} `{FL : FieldLaws T} `{Display K} `{Display T}.

(** An expression with at most one variable. *)
Definition determined (e : AffineExpression K T) : Prop := (length (nonzero_coefficients e) <= 1)%nat.

Lemma determined_sub e (r : T) : determined e -> determined (aff_sub e (Constant r)).
Proof.
  unfold determined, aff_sub. destruct e as [o|[v c] o|l o]; cbn; auto.
Qed.

Lemma solve_determined e v : aff_proper e -> determined e -> solve e = Some (inl v) -> ev_is_complete v = true.
Proof.
  assert (Hone : forall k c o, solve_one k c o = Some (inl v) -> ev_is_complete v = true).
  { intros k c o. unfold solve_one. destruct (if f_is_one c then _ else _); [|discriminate]. now intros [= <-]. }
  destruct e as [o|[k c] o|[|[k c] [|kc l]] o]; cbn [solve]; unfold determined; cbn; intros Hp Hd.
  - destruct (f_is_zero o); [now intros [= <-]|discriminate].
  - apply Hone.
  - now destruct Hp.
  - apply Hone.
  - lia.
Qed.

Lemma aff_sub_constant e (r : T) : aff_proper e -> aff_proper (aff_sub e (Constant r)) /\
  forall env, aff_zero (aff_sub e (Constant r)) env -> eqm modulus (aff_val e env) (to_integer r).
Proof.
  intros Hp. split; [unfold aff_sub; apply aff_add_proper; [exact Hp|now apply aff_neg_proper]|].
  intros env Hz. unfold aff_zero, aff_sub in Hz. rewrite aff_add_val, aff_neg_val in Hz.
  change (aff_val (Constant r) env) with (0 + to_integer r) in Hz.
  replace (aff_val e env) with (aff_val e env + - (0 + to_integer r) + to_integer r) by lia. rewrite Hz. eqm_lia.
Qed.

(** What a processed value says about its expression. *)
Definition value_ok (ups : list (K * Constraint T)) (lst : AffineExpression K T * option T) (v : option T) : Prop :=
  (forall r, snd lst = Some r -> v = Some r) /\
  (forall w, v = Some w -> determined (fst lst) -> forall env, constraints_hold env ups -> eqm modulus (aff_val (fst lst) env) (to_integer w)).

Lemma value_ok_app ups ups' lst v : value_ok ups' lst v -> value_ok (ups ++ ups') lst v.
Proof.
  intros [Hs Hv]. split; [exact Hs|]. intros w Hw Hd env Henv. apply Forall_app in Henv as [_ Henv]. now apply (Hv w).
Qed.

(** [process_values] never panics on proper expressions; it keeps stored values, and its updates
    make every determined expression equal to the value now stored. *)
Lemma process_values_spec l : Forall (fun lst => aff_proper (fst lst)) l ->
  exists r, process_values l = Some r /\
    match r with inl (vals, ups) => Forall2 (value_ok ups) l vals | inr _ => True end.
Proof.
  induction 1 as [|[lhs stored] l Hp _ (r & Hr & IH)]; cbn [process_values]; [eexists; split; [reflexivity|constructor]|].
  cbn [fst] in Hp. destruct stored as [s|]; rewrite Hr; cbn [mbind option_bind].
  - destruct (aff_sub_constant lhs s Hp) as [Hps Hzero]. destruct (solve_spec _ Hps) as (res & Hs & Hres). rewrite Hs.
    cbn [mbind option_bind]. destruct res as [v|e]; [|eexists; split; [reflexivity|exact I]].
    destruct r as [[vals ups]|e]; cbn [mbind option_bind]; (eexists; split; [reflexivity|]); [|exact I].
    constructor.
    + split; [cbn; intros r [= <-]; reflexivity|]. cbn [fst]. intros w [= <-] Hd env Henv. apply Hzero.
      rewrite (solve_determined _ v Hps (determined_sub lhs s Hd) Hs) in Hres. apply Hres. now apply Forall_app in Henv.
    + eapply Forall2_impl; [exact IH|]. intros. now apply value_ok_app.
  - destruct r as [[vals ups]|e]; (eexists; split; [reflexivity|]); [|exact I]. constructor; [|exact IH].
    split; [discriminate|]. cbn [fst]. intros w Hw _ env _. destruct lhs; try discriminate. injection Hw as ->. reflexivity.
Qed.

End Values.

(** ** The memory *)

Section Memory.
Context {K T : Type} `{OL : OrdLaws K} `{FL : FieldLaws T} `{Display K} `{Display T}.
Variable fd : FixedData T.
Variable show_key : list T -> string.

(** External values, where given, cover all rows. *)
Definition externals_full (deg : Z) (polys : list PolyID) : Prop :=
  Forall (fun p => exists ev, external_values fd !! p = Some ev /\
    match ev with Some v => Z.of_nat (length v) = deg | None => True end) polys.

Definition external_at (i : Z) (p : PolyID) : option T :=
  match external_values fd !! p with Some (Some v) => v !! Z.to_nat i | _ => None end.

(** The values a lookup at an index sees. *)
Definition visible (m : WriteOnceMemory T) (i : Z) : list (option T) :=
  stored_value m (map (external_at i) (value_polys m)) i.

Lemma external_witness_at deg i p : 0 <= i < deg -> externals_full deg [p] -> external_witness fd i p = Some (external_at i p).
Proof.
  intros Hi Hf. apply Forall_singleton in Hf as (ev & Hev & Hl). unfold external_witness, external_at. rewrite Hev. cbn [mbind option_bind].
  destruct ev as [v|]; [|reflexivity]. rewrite Hl, Z.mod_small by lia.
  replace (Nat.eqb (length v) 0) with false by (symmetry; apply Nat.eqb_neq; lia). reflexivity.
Qed.

Lemma external_witnesses deg i polys : 0 <= i < deg -> externals_full deg polys ->
  mapM (external_witness fd i) polys = Some (map (external_at i) polys).
Proof.
  intros Hi. induction polys as [|p polys IH]; intros Hf; [reflexivity|]. inversion Hf; subst. cbn [mapM map].
  assert (Hp1 : externals_full deg [p]) by (constructor; [assumption|constructor]).
  rewrite (external_witness_at deg i p Hi Hp1). cbn [mbind option_bind]. rewrite IH by assumption. reflexivity.
Qed.

(** The invariant. *)
Record wom_wf (m : WriteOnceMemory T) : Prop := {
  wf_external : externals_full (degree m) (value_polys m);
  wf_rows : forall i vals, wom_data m !! i = Some vals -> length vals = length (value_polys m) /\ 0 <= i < degree m;
  wf_keys : forall key i, key_get key (key_to_index m) = Some i -> 0 <= i < degree m;
  wf_connections : forall id c, wom_connections m !! id = Some c ->
    length (expressions (left c)) = length (expressions (right c)) /\
    exists refs, mapM try_to_simple_poly (expressions (right c)) = Some refs /\
      value_polys m = List.filter (fun q => negb (is_constant_poly q)) (map ref_poly_id refs)
}.

Lemma visible_length m i : wom_wf m -> length (visible m i) = length (value_polys m).
Proof.
  intros Hwf. unfold visible, stored_value. destruct (wom_data m !! i) as [vals|] eqn:E; [|apply length_map].
  apply (wf_rows m Hwf) in E as [El _]. rewrite length_zip_with_l_eq; [exact El|]. now rewrite length_map.
Qed.

(** Storing values that respect what was visible makes them visible. *)
Lemma visible_insert m i vals : length vals = length (value_polys m) ->
  (forall j r, visible m i !! j = Some (Some r) -> vals !! j = Some (Some r)) -> wom_wf m ->
  visible (with_data m (<[i := vals]> (wom_data m))) i = vals.
Proof.
  intros Hl Hkeep Hwf. unfold visible at 1, stored_value. cbn [with_data wom_data value_polys]. rewrite lookup_insert_eq.
  apply list_eq. intros j. rewrite lookup_zip_with. destruct (vals !! j) as [v|] eqn:Ev; [|reflexivity]. cbn [mbind option_bind].
  assert (Hj : (j < length (value_polys m))%nat) by (apply lookup_lt_Some in Ev; lia).
  destruct (lookup_lt_is_Some_2 _ _ Hj) as (p & Hp).
  assert (Hx : map (external_at i) (value_polys m) !! j = Some (external_at i p)) by (rewrite list_lookup_fmap, Hp; reflexivity).
  rewrite Hx. cbn [mbind option_bind]. destruct (external_at i p) as [e|] eqn:Ee; [|reflexivity].
  assert (Hvis : visible m i !! j = Some (Some e)).
  { unfold visible, stored_value. destruct (wom_data m !! i) as [old|] eqn:Eo; [|exact Hx].
    apply (wf_rows m Hwf) in Eo as [El _]. rewrite lookup_zip_with, Hx.
    destruct (lookup_lt_is_Some_2 old j) as (o & Ho); [lia|]. rewrite Ho. reflexivity. }
  apply Hkeep in Hvis. congruence.
Qed.

Lemma visible_insert_ne m i i' vals : i' <> i -> visible (with_data m (<[i := vals]> (wom_data m))) i' = visible m i'.
Proof. intros Hne. unfold visible, stored_value. cbn [with_data wom_data value_polys]. now rewrite lookup_insert_ne by congruence. Qed.

(** *** A lookup *)

(** The relation between a memory and a later one: same shape, and no value is ever changed. *)
Definition extends (m m' : WriteOnceMemory T) : Prop :=
  degree m' = degree m /\ wom_connections m' = wom_connections m /\ value_polys m' = value_polys m /\ key_to_index m' = key_to_index m /\
  forall i j v, visible m i !! j = Some (Some v) -> visible m' i !! j = Some (Some v).

Lemma extends_refl m : extends m m.
Proof. repeat split; auto. Qed.

Lemma extends_trans m1 m2 m3 : extends m1 m2 -> extends m2 m3 -> extends m1 m3.
Proof.
  intros (A1 & A2 & A3 & A4 & A5) (B1 & B2 & B3 & B4 & B5). unfold extends. rewrite B1, B2, B3, B4. repeat (split; [assumption|]). auto.
Qed.

Notation process := (process_plookup_internal (K:=K) show_key fd).

(** The arguments of a lookup are proper expressions. *)
Definition call_ok (evaluate : AlgebraicExpression T -> option (AffineExpression K T)) : Prop :=
  forall e a, evaluate e = Some a -> aff_proper a.

(** Keys and values are the arguments for the fixed and for the other columns, in order. *)
Lemma partition_args_filter args : forall rhs refs ks vs,
  length args = length rhs -> mapM try_to_simple_poly rhs = Some refs -> partition_args (K:=K) (T:=T) args rhs = Some (ks, vs) ->
  length ks = length (List.filter is_constant_poly (map ref_poly_id refs)) /\
  length vs = length (List.filter (fun q => negb (is_constant_poly q)) (map ref_poly_id refs)) /\
  forall P : AffineExpression K T -> PolyID -> Prop,
    Forall2 P ks (List.filter is_constant_poly (map ref_poly_id refs)) ->
    Forall2 P vs (List.filter (fun q => negb (is_constant_poly q)) (map ref_poly_id refs)) ->
    Forall2 P args (map ref_poly_id refs).
Proof.
  induction args as [|a args IH]; intros [|r rhs] refs ks vs Hl; try discriminate; cbn [mapM partition_args].
  - intros [= <-] [= <- <-]. split; [reflexivity|]. split; [reflexivity|]. constructor.
  - intros (p & Hp & (refs' & Hrefs & [= <-])%bind_inv)%bind_inv. rewrite Hp. cbn [mbind option_bind].
    intros ([ks' vs'] & Hrec & Hres)%bind_inv. cbn [fst snd] in Hres.
    destruct (IH rhs refs' ks' vs' ltac:(cbn in Hl; lia) Hrefs Hrec) as (Hk & Hv & HP). cbn [map List.filter].
    destruct (is_constant_poly (ref_poly_id p)); injection Hres as <- <-; cbn [negb length]; (split; [lia|]; split; [lia|]).
    + intros P HF1 HF2. inversion HF1; subst. constructor; auto.
    + intros P HF1 HF2. inversion HF2; subst. constructor; auto.
Qed.

Lemma partition_args_forall (P : AffineExpression K T -> Prop) args rhs ks vs :
  partition_args args rhs = Some (ks, vs) -> Forall P args -> Forall P ks /\ Forall P vs.
Proof.
  revert rhs ks vs. induction args as [|a args IH]; intros [|r rhs] ks vs; cbn [partition_args]; try (intros [= <- <-] _; split; constructor).
  intros (p & Hp & ([ks' vs'] & Hrec & Hres)%bind_inv)%bind_inv Hall. inversion Hall; subst. destruct (IH _ _ _ Hrec) as [Hk Hv]; [assumption|].
  cbn [fst snd] in Hres. destruct (is_constant_poly (ref_poly_id p)); injection Hres as <- <-; split; auto using Forall_cons_2.
Qed.

(** What a lookup with a known key does. *)
Lemma process_spec m evaluate id r m' : wom_wf m -> call_ok evaluate -> process evaluate m id = Some (r, m') ->
  wom_wf m' /\ extends m m' /\
  match r with
  | inr _ => m' = m
  | inl v => ev_is_complete v = true ->
    exists c args ks vs key index, wom_connections m !! id = Some c /\ mapM evaluate (expressions (left c)) = Some args /\
      partition_args args (expressions (right c)) = Some (ks, vs) /\ mapM constant_value ks = Some key /\
      key_get key (key_to_index m) = Some index /\
      Forall2 (fun a v' => exists w, v' = Some w /\ (determined a -> forall env, constraints_hold env (ev_constraints v) ->
        eqm modulus (aff_val a env) (to_integer w))) vs (visible m' index)
  end.
Proof.
  intros Hwf Hproper. unfold process_plookup_internal. intros (c & Hc & (args & Hargs & ([ks vs] & Hpart & Hrest)%bind_inv)%bind_inv)%bind_inv.
  destruct (mapM constant_value ks) as [key|] eqn:Ek; [|injection Hrest as <- <-; auto using extends_refl; split; [easy|]; split; [apply extends_refl|discriminate]].
  destruct (key_get key (key_to_index m)) as [index|] eqn:Ei; [|injection Hrest as <- <-; auto using extends_refl].
  pose proof (wf_keys m Hwf key index Ei) as Hindex. rewrite (external_witnesses (degree m)) in Hrest by (easy || apply Hwf).
  cbn [mbind option_bind] in Hrest. fold (visible m index) in Hrest.
  assert (Hlen : length vs = length (value_polys m)).
  { destruct (wf_connections m Hwf id c Hc) as (Hlr & refs & Hrefs & ->). apply length_mapM in Hargs as Hla.
    now destruct (partition_args_filter args (expressions (right c)) refs ks vs ltac:(congruence) Hrefs Hpart) as (_ & Hlv & _). }
  assert (Hp : Forall aff_proper vs).
  { apply (partition_args_forall _ args _ ks vs Hpart). apply mapM_Some in Hargs. apply Forall_lookup. intros j a Ha.
    destruct (Forall2_lookup_r _ _ _ _ _ Hargs Ha) as (e & _ & He). eauto. }
  pose proof (visible_length m index Hwf) as Hvl.
  destruct (process_values_spec (combine vs (visible m index))) as (res & Hres & Hspec).
  { apply Forall_lookup. intros j [a st] Hj. apply lookup_zip_with_Some in Hj as (a' & st' & [= -> ->] & Ha & _). rewrite Forall_lookup in Hp. eauto. }
  rewrite Hres in Hrest. cbn [mbind option_bind] in Hrest. destruct res as [[vals ups]|e]; [|injection Hrest as <- <-; auto using extends_refl].
  injection Hrest as Hr <-. pose proof (Forall2_length _ _ _ Hspec) as Hl. rewrite length_combine, Hlen, Hvl, Nat.min_id in Hl.
  assert (Hkeep : forall j w, visible m index !! j = Some (Some w) -> vals !! j = Some (Some w)).
  { intros j w Hj. destruct (lookup_lt_is_Some_2 vs j) as (a & Ha); [apply lookup_lt_Some in Hj; lia|].
    assert (Hcj : combine vs (visible m index) !! j = Some (a, Some w)) by (apply lookup_zip_with_Some; eauto).
    destruct (Forall2_lookup_l _ _ _ _ _ Hspec Hcj) as (v & Hv & [Hs _]). rewrite Hv. f_equal. now apply Hs. }
  pose proof (visible_insert m index vals (eq_sym Hl) Hkeep Hwf) as Hvis. split; [|split].
  - destruct Hwf as [W1 W2 W3 W4]. split; [exact W1| |exact W3|exact W4]. cbn [with_data wom_data value_polys degree]. intros i vals'.
    rewrite lookup_insert_Some. intros [[<- <-]|[_ Hi]]; [now split|now apply W2].
  - repeat (split; [reflexivity|]). intros i j v Hj. destruct (Z.eq_dec i index) as [->|Hne]; [rewrite Hvis; now apply Hkeep|].
    now rewrite visible_insert_ne.
  - subst r. intros Hcomplete. exists c, args, ks, vs, key, index. repeat (split; [assumption|]). rewrite Hvis.
    assert (Hnone : existsb is_none vals = false) by (destruct (existsb is_none vals); [discriminate|reflexivity]).
    rewrite Hnone. cbn [negb]. apply Forall2_same_length_lookup_2; [congruence|]. intros j a v Ha Hv.
    destruct (lookup_lt_is_Some_2 (visible m index) j) as (st & Hst); [apply lookup_lt_Some in Ha; lia|].
    assert (Hcj : combine vs (visible m index) !! j = Some (a, st)) by (apply lookup_zip_with_Some; eauto).
    destruct (Forall2_lookup_l _ _ _ _ _ Hspec Hcj) as (v' & Hv' & [_ Hval]). rewrite Hv in Hv'. injection Hv' as <-.
    destruct v as [w|].
    + exists w. split; [reflexivity|]. intros Hd env Henv. apply (Hval w eq_refl Hd env). destruct (is_none (wom_data m !! index)); exact Henv.
    + exfalso. apply not_true_iff_false in Hnone. apply Hnone. apply existsb_exists. exists None. split; [|reflexivity].
      apply list_elem_of_In. eapply list_elem_of_lookup_2; eauto.
Qed.

(** Any number of further lookups. *)
Inductive lookups : WriteOnceMemory T -> WriteOnceMemory T -> Prop :=
| lookups_none m : lookups m m
| lookups_one m evaluate id r m' m'' : call_ok evaluate -> process evaluate m id = Some (r, m') -> lookups m' m'' -> lookups m m''.

Lemma lookups_extend m m' : lookups m m' -> wom_wf m -> wom_wf m' /\ extends m m'.
Proof.
  induction 1 as [m|m evaluate id r m' m'' Hcall Hp _ IH]; intros Hwf; [split; [exact Hwf|apply extends_refl]|].
  destruct (process_spec m evaluate id r m' Hwf Hcall Hp) as (Hwf' & Hext & _). destruct (IH Hwf') as [Hwf'' Hext'].
  split; [exact Hwf''|]. now apply (extends_trans m m').
Qed.

(** *** The columns *)

Lemma fill_column_spec j entries : forall column,
  NoDup (map fst entries) ->
  Forall (fun e => 0 <= fst e /\ (Z.to_nat (fst e) < length column)%nat /\ exists v, snd e !! j = Some v) entries ->
  exists column', fill_column (T:=T) j entries column = Some column' /\
    (forall i vals v, In (i, vals) entries -> vals !! j = Some v -> column' !! Z.to_nat i = Some (default f_zero v)) /\
    (forall i, 0 <= i -> ~ In i (map fst entries) -> column' !! Z.to_nat i = column !! Z.to_nat i).
Proof.
  induction entries as [|[row vals] entries IH]; intros column Hnd Hall; cbn [fill_column].
  - exists column. split; [reflexivity|]. split; [now intros i vals v|reflexivity].
  - inversion Hall as [|? ? (Hrow & Hlt & v & Hv) Hall']; subst. cbn [fst snd map] in *. apply NoDup_cons in Hnd as [Hnin Hnd]. rewrite Hv.
    cbn [mbind option_bind]. rewrite (proj2 (Nat.ltb_lt _ _) Hlt). cbn [assert_that mbind option_bind].
    destruct (IH (<[Z.to_nat row := default f_zero v]> column)) as (column' & Hf & Hin & Hout); [exact Hnd|now rewrite length_insert|].
    exists column'. split; [exact Hf|]. split.
    + intros i vals' v' [[= <- <-]|Hi] Hv'; [|now apply (Hin i vals')]. rewrite Hout; [|exact Hrow|now rewrite <- list_elem_of_In].
      rewrite list_lookup_insert_eq by exact Hlt. congruence.
    + intros i Hi Hni. rewrite Hout; [|exact Hi|intros Hin0; apply Hni; now right]. apply list_lookup_insert_ne. intros E. apply Hni. left. lia.
Qed.

(** The finished column has every visible value in its row. *)
Lemma witness_column_spec m j p : wom_wf m -> value_polys m !! j = Some p ->
  exists col, witness_column fd m j p = Some col /\
    forall i w, 0 <= i < degree m -> visible m i !! j = Some (Some w) -> col !! Z.to_nat i = Some w.
Proof.
  intros Hwf Hp. pose proof (wf_external m Hwf) as Hext. unfold externals_full in Hext. rewrite Forall_lookup in Hext.
  destruct (Hext j p Hp) as (ev & Hev & Hlen). unfold witness_column. rewrite Hev. cbn [mbind option_bind].
  assert (Hx : forall i, map (external_at i) (value_polys m) !! j = Some (external_at i p)) by (intros i; rewrite list_lookup_fmap, Hp; reflexivity).
  assert (Hvis : forall i w, visible m i !! j = Some (Some w) -> external_at i p = Some w \/
    (external_at i p = None /\ exists vals, wom_data m !! i = Some vals /\ vals !! j = Some (Some w))).
  { intros i w. unfold visible, stored_value. destruct (wom_data m !! i) as [vals|].
    - rewrite lookup_zip_with, Hx. destruct (vals !! j) as [o|] eqn:Eo; [|discriminate]. cbn [mbind option_bind].
      destruct (external_at i p); intros [= ->]; [now left|right; eauto].
    - rewrite Hx. intros [= ->]. now left. }
  destruct ev as [v|].
  - eexists. split; [reflexivity|]. intros i w Hi Hw. destruct (Hvis i w Hw) as [He|[He _]]; unfold external_at in He; rewrite Hev in He.
    + unfold resize. rewrite take_ge by lia. now apply lookup_app_l_Some.
    + apply lookup_ge_None in He. lia.
  - destruct (fill_column_spec j (map_to_list (wom_data m)) (repeat f_zero (Z.to_nat (degree m)))) as (col & Hcol & Hin & _).
    + apply NoDup_fst_map_to_list.
    + apply Forall_lookup. intros k [i vals] Hk. apply list_elem_of_lookup_2, elem_of_map_to_list in Hk. cbn [fst snd].
      destruct (wf_rows m Hwf i vals Hk) as [Hl Hi]. rewrite repeat_length. split; [lia|]. split; [lia|].
      apply lookup_lt_is_Some_2. rewrite Hl. now apply lookup_lt_Some in Hp.
    + exists col. split; [exact Hcol|]. intros i w Hi Hw. destruct (Hvis i w Hw) as [He|(_ & vals & Hd & Hj)].
      * unfold external_at in He. rewrite Hev in He. discriminate.
      * apply (Hin i vals (Some w)); [|exact Hj]. apply list_elem_of_In, elem_of_map_to_list. exact Hd.
Qed.

End Memory.

(** ** Construction *)

Section Construction.
Context {T : Type} `{FL : FieldLaws T}.
Variable fd : FixedData T.

Lemma keys_eqb_eq (a : list T) : forall b, keys_eqb a b = true -> a = b.
Proof.
  induction a as [|x a IH]; intros [|y b]; cbn; try discriminate; [easy|]. intros [Hx Hab]%andb_prop.
  apply f_eqb_eq in Hx as ->. now rewrite (IH b Hab).
Qed.

(** An indexed key is the content of the key columns in its row. *)
Lemma index_keys_spec key_polys deg rows : forall acc keys, index_keys fd key_polys deg rows acc = Some (Some keys) ->
  forall key i, key_get key keys = Some i -> key_get key acc = Some i \/
    exists row, In row rows /\ i = Z.of_nat row /\ row_key fd key_polys deg i = Some key.
Proof.
  induction rows as [|row rows IH]; intros acc keys; cbn [index_keys]; [intros [= <-]; auto|].
  intros (key0 & Hkey & Hrest)%bind_inv key i Hi. destruct (key_get key0 acc); [discriminate|].
  destruct (IH _ _ Hrest key i Hi) as [Hacc|(row' & Hin & -> & Hr)]; [|right; exists row'; split; [now right|easy]].
  cbn [key_get] in Hacc. destruct (keys_eqb key key0) eqn:E; [|now left]. right. exists row. split; [now left|].
  apply keys_eqb_eq in E as ->. now injection Hacc as <-.
Qed.

(** Equal right-hand sides name the same columns. *)
Lemma exprs_eqb_simple (a : list (AlgebraicExpression T)) : forall b refs, exprs_eqb a b = true -> mapM try_to_simple_poly a = Some refs ->
  exists refs', mapM try_to_simple_poly b = Some refs' /\ map ref_poly_id refs' = map ref_poly_id refs.
Proof.
  induction a as [|x a IH]; intros [|y b] refs; cbn [exprs_eqb mapM]; try discriminate; [intros _ [= <-]; now exists []|].
  intros [Hxy Hab]%andb_prop (p & Hp & (refs0 & Hrefs & [= <-])%bind_inv)%bind_inv. destruct (IH b refs0 Hab Hrefs) as (refs' & -> & Hm).
  destruct x as [r|?|?|?|?|?]; try discriminate. cbn [try_to_simple_poly] in Hp. destruct (ref_next r) eqn:En; [discriminate|]. injection Hp as <-.
  destruct y as [s|?|?|?|?|?]; try discriminate. cbn [expr_eqb] in Hxy. apply bool_decide_eq_true in Hxy. injection Hxy as Hid Hnext.
  cbn [try_to_simple_poly]. rewrite <- Hnext, En. exists (s :: refs'). split; [reflexivity|]. cbn. now rewrite Hm, Hid.
Qed.

Definition key_polys_of (refs : list AlgebraicReference) : list PolyID := List.filter is_constant_poly (map ref_poly_id refs).

(** What [try_new] accepts and builds. *)
Lemma try_new_spec parts m : try_new fd parts = Some (Some m) ->
  degree m = degree_max parts /\ wom_connections m = connections parts /\ wom_data m = ∅ /\
  (forall id c, connections parts !! id = Some c -> exists refs, mapM try_to_simple_poly (expressions (right c)) = Some refs /\
    value_polys m = List.filter (fun q => negb (is_constant_poly q)) (map ref_poly_id refs) /\
    forall key i, key_get key (key_to_index m) = Some i -> 0 <= i < degree m /\ row_key fd (key_polys_of refs) (degree m) i = Some key).
Proof.
  unfold try_new. destruct (identities_empty parts); [|discriminate]. cbn [negb].
  destruct (map snd (map_to_list (connections parts))) as [|first conns] eqn:Ec; [discriminate|].
  destruct (negb (forallb is_lookup _)); [discriminate|]. destruct (existsb _ _); [discriminate|].
  destruct (forallb (fun i => exprs_eqb _ _) (first :: conns)) eqn:Eall; [|discriminate]. cbn [negb].
  destruct (mapM try_to_simple_poly (expressions (right first))) as [refs|] eqn:Erefs; [|discriminate].
  destruct (assert_that _); [|discriminate]. cbn [mbind option_bind]. intros (r & Hr & Hm)%bind_inv. destruct r as [keys|]; [|discriminate].
  injection Hm as <-. cbn [degree wom_connections wom_data value_polys key_to_index]. repeat (split; [reflexivity|]). intros id c Hc.
  assert (Hin : In c (first :: conns)).
  { rewrite <- Ec. apply in_map_iff. exists (id, c). split; [reflexivity|]. now apply list_elem_of_In, elem_of_map_to_list. }
  rewrite forallb_forall in Eall. destruct (exprs_eqb_simple _ _ _ (Eall c Hin) Erefs) as (refs' & Hrefs' & Hids).
  exists refs'. unfold key_polys_of. rewrite Hids. split; [exact Hrefs'|]. split; [reflexivity|]. intros key i Hi.
  destruct (index_keys_spec _ _ _ _ _ Hr key i Hi) as [Hacc|(row & Hrow & -> & Hk)]; [discriminate|]. apply in_seq in Hrow. split; [lia|exact Hk].
Qed.

Lemma try_new_wf parts m : try_new fd parts = Some (Some m) ->
  (forall id c, connections parts !! id = Some c -> length (expressions (left c)) = length (expressions (right c))) ->
  externals_full fd (degree_max parts) (value_polys m) -> wom_wf fd m.
Proof.
  intros Hnew Hlen Hext. destruct (try_new_spec parts m Hnew) as (Hdeg & Hconn & Hdata & Hspec). split.
  - now rewrite Hdeg.
  - intros i vals. rewrite Hdata, lookup_empty. discriminate.
  - intros key i Hi. unfold try_new in Hnew. destruct (map_to_list (connections parts)) as [|[id c] l] eqn:El;
      [destruct (negb (identities_empty parts)); discriminate|].
    assert (Hc : connections parts !! id = Some c) by (apply elem_of_map_to_list; rewrite El; left).
    destruct (Hspec id c Hc) as (refs & _ & _ & Hk). now apply (Hk key).
  - rewrite Hconn. intros id c Hc. split; [now apply (Hlen id)|]. destruct (Hspec id c Hc) as (refs & Hrefs & Hv & _). now exists refs.
Qed.

End Construction.

(** ** Properties *)

(** The cell of a right-hand column in a row of the finished table. *)
Definition table_cell {T} (fd : FixedData T) (cols : list (PolyID * list T)) (deg : Z) (p : PolyID) (row : Z) : option T :=
  if is_constant_poly p then c ← fixed_values fd p deg; c !! Z.to_nat row
  else c ← snd <$> List.find (fun pc => bool_decide (fst pc = p)) cols; c !! Z.to_nat row.

Section Properties.
Context {K T : Type} `{OL : OrdLaws K} `{FL : FieldLaws T} `{Display K} `{Display T}.
Variable fd : FixedData T.
Variable show_key : list T -> string.

(** All columns, by their polynomials. *)
Lemma take_witness_spec (m : WriteOnceMemory T) : wom_wf fd m -> NoDup (value_polys m) ->
  exists cols, take_witness_col_values fd m = Some cols /\
    forall i j p w, 0 <= i < degree m -> value_polys m !! j = Some p -> is_constant_poly p = false ->
      visible fd m i !! j = Some (Some w) -> table_cell fd cols (degree m) p i = Some w.
Proof.
  intros Hwf Hnd. unfold take_witness_col_values. set (body := fun ip : nat * PolyID => c ← witness_column fd m (fst ip) (snd ip); Some (snd ip, c)).
  assert (Hgen : forall polys k, (forall j p, polys !! j = Some p -> value_polys m !! (k + j)%nat = Some p) -> NoDup polys ->
    exists cols, mapM body (combine (seq k (length polys)) polys) = Some cols /\
      forall j p, polys !! j = Some p -> exists col, witness_column fd m (k + j) p = Some col /\
        List.find (fun pc => bool_decide (fst pc = p)) cols = Some (p, col)).
  { induction polys as [|p polys IH]; intros k Hp Hndp; [exists []; split; [reflexivity|]; intros j p; now rewrite lookup_nil|].
    apply NoDup_cons in Hndp as [Hnin Hndp]. destruct (witness_column_spec fd m k p Hwf) as (col & Hcol & _).
    { rewrite <- (Nat.add_0_r k). now apply Hp. }
    destruct (IH (S k)) as (cols & Hcols & Hfind); [intros j q Hq; rewrite Nat.add_succ_comm; now apply Hp|exact Hndp|].
    exists ((p, col) :: cols). split.
    - assert (Hb : body (k, p) = Some (p, col)) by (unfold body; cbn [fst snd]; rewrite Hcol; reflexivity).
      cbn [length seq combine mapM]. rewrite Hb. cbn [mbind option_bind]. rewrite Hcols. reflexivity.
    - intros [|j] q; cbn [lookup list_lookup]; intros Hq.
      + injection Hq as <-. exists col. rewrite Nat.add_0_r. split; [exact Hcol|]. cbn [List.find fst]. now rewrite bool_decide_true.
      + destruct (Hfind j q Hq) as (col' & Hc' & Hf'). exists col'. rewrite <- Nat.add_succ_comm. split; [exact Hc'|].
        cbn [List.find fst]. rewrite bool_decide_false; [exact Hf'|]. intros ->. apply Hnin. now apply (list_elem_of_lookup_2 _ j). }
  destruct (Hgen (value_polys m) 0%nat) as (cols & Hcols & Hfind); [easy|exact Hnd|]. exists cols. split; [exact Hcols|].
  intros i j p w Hi Hp Hconst Hvis. destruct (Hfind j p Hp) as (col & Hcol & Hf). unfold table_cell. rewrite Hconst, Hf. cbn [fmap option_fmap option_map mbind option_bind snd].
  destruct (witness_column_spec fd m j p Hwf Hp) as (col' & Hcol' & Hcell). cbn [Nat.add] in Hcol. rewrite Hcol in Hcol'. injection Hcol' as <-.
  now apply Hcell.
Qed.

End Properties.

Section Soundness.
Context {K T : Type} `{OL : OrdLaws K} `{FL : FieldLaws T} `{Display K} `{Display T}.
Variable fd : FixedData T.
Variable show_key : list T -> string.

(** The key arguments are the content of the key columns. *)
Lemma key_cells (ks : list (AffineExpression K T)) : forall key polys deg i cols env,
  mapM constant_value ks = Some key -> row_key fd polys deg i = Some key -> Forall (fun p => is_constant_poly p = true) polys ->
  Forall2 (fun a p => exists w, table_cell fd cols deg p i = Some w /\ eqm modulus (aff_val a env) (to_integer w)) ks polys.
Proof.
  induction ks as [|a ks IH]; intros key polys deg i cols env; cbn [mapM].
  - intros [= <-]. destruct polys as [|p polys]; [constructor|]. unfold row_key. cbn [mapM].
    intros (w & _ & (ws & _ & Hw)%bind_inv)%bind_inv. discriminate.
  - intros (v & Hv & (vs & Hvs & [= <-])%bind_inv)%bind_inv. destruct polys as [|p polys]; [discriminate|]. unfold row_key. cbn [mapM].
    intros (w & Hw & (ws & Hws & [= <- <-])%bind_inv)%bind_inv Hall. inversion Hall as [|? ? Hpc Hall']; subst. constructor; [|now apply (IH ws)].
    exists w. unfold table_cell. rewrite Hpc. split; [exact Hw|]. destruct a; try discriminate. injection Hv as ->. reflexivity.
Qed.

(** C35: lookups in the write-once memory hold in the finished table. Take a memory that [try_new] accepts,
    with lookups that have as many arguments as columns and no column twice, and with external values either
    absent or given for every row. After any sequence of lookups, let one more return a complete result, and
    let any lookups follow. Then the finished columns, taken at the end, have a row in which every argument
    with at most one variable has the value of its column, in every assignment that satisfies the constraints
    the lookup returned: no later lookup changed a value. *)
Theorem write_once_memory_sound (parts : MachineParts T) (m0 m m' m'' : WriteOnceMemory T)
  (evaluate : AlgebraicExpression T -> option (AffineExpression K T)) (id : Z) (v : EvalValue K T) :
  try_new fd parts = Some (Some m0) ->
  (forall id c, connections parts !! id = Some c -> length (expressions (left c)) = length (expressions (right c))) ->
  externals_full fd (degree_max parts) (value_polys m0) -> NoDup (value_polys m0) ->
  lookups (K:=K) fd show_key m0 m -> call_ok evaluate ->
  process_plookup_internal show_key fd evaluate m id = Some (inl v, m') -> ev_is_complete v = true ->
  lookups (K:=K) fd show_key m' m'' ->
  exists c args refs row cols,
    connections parts !! id = Some c /\ mapM evaluate (expressions (left c)) = Some args /\
    mapM try_to_simple_poly (expressions (right c)) = Some refs /\
    0 <= row < degree_max parts /\ take_witness_col_values fd m'' = Some cols /\
    Forall2 (fun a p => determined a -> forall env, constraints_hold env (ev_constraints v) ->
      exists w, table_cell fd cols (degree_max parts) p row = Some w /\ eqm modulus (aff_val a env) (to_integer w))
      args (map ref_poly_id refs).
Proof.
  intros Hnew Hlen Hext Hnd Hl0 Hcall Hp Hcomplete Hl1. destruct (try_new_spec fd parts m0 Hnew) as (Hdeg & Hconn & _ & Hspec).
  pose proof (try_new_wf fd parts m0 Hnew Hlen Hext) as Hwf0.
  destruct (lookups_extend fd show_key m0 m Hl0 Hwf0) as [Hwf (D1 & N1 & V1 & K1 & _)].
  destruct (process_spec fd show_key m evaluate id (inl v) m' Hwf Hcall Hp) as (Hwf' & (D2 & N2 & V2 & K2 & _) & Hres).
  destruct (lookups_extend fd show_key m' m'' Hl1 Hwf') as [Hwf'' (D3 & N3 & V3 & K3 & Hkeep)].
  destruct (Hres Hcomplete) as (c & args & ks & vs & key & index & Hc & Hargs & Hpart & Hkey & Hindex & Hvals).
  rewrite N1, Hconn in Hc. rewrite K1 in Hindex. destruct (Hspec id c Hc) as (refs & Hrefs & Hvp & Hkeys). destruct (Hkeys key index Hindex) as [Hi Hrow].
  destruct (take_witness_spec fd m'' Hwf'') as (cols & Hcols & Hcell); [now rewrite V3, V2, V1|]. rewrite D3, D2, D1 in Hcell. rewrite V3, V2, V1 in Hcell.
  exists c, args, refs, index, cols. rewrite <- Hdeg. repeat (split; [easy|]).
  apply length_mapM in Hargs as Hla. destruct (partition_args_filter args (expressions (right c)) refs ks vs) as (_ & _ & Hfilter);
    [rewrite <- Hla; now apply (Hlen id)|exact Hrefs|exact Hpart|]. apply Hfilter.
  - apply Forall2_same_length_lookup_2; [apply (Forall2_length _ _ _ (key_cells ks key _ _ _ cols (fun _ => f_zero) Hkey Hrow ltac:(apply List.Forall_forall; intros p Hp'; now apply filter_In in Hp')))|].
    intros j a p Ha Hp' _ env _.
    pose proof (key_cells ks key _ _ _ cols env Hkey Hrow ltac:(apply List.Forall_forall; intros q Hq; now apply filter_In in Hq)) as Hk.
    exact (Forall2_lookup_lr _ _ _ _ _ _ Hk Ha Hp').
  - rewrite <- Hvp. apply Forall2_same_length_lookup_2; [rewrite (Forall2_length _ _ _ Hvals), visible_length by exact Hwf'; now rewrite V2, V1|].
    intros j a p Ha Hpj Hd env Henv. destruct (Forall2_lookup_l _ _ _ _ _ Hvals Ha) as (o & Ho & w & -> & Hval). exists w.
    split; [|now apply Hval]. apply (Hcell index j p w); [exact Hi|exact Hpj| |now apply Hkeep].
    apply list_elem_of_lookup_2, list_elem_of_In in Hpj. rewrite Hvp in Hpj. apply filter_In in Hpj as [_ Hnc]. now apply negb_true_iff.
Qed.

End Soundness.

(** ** A memory with two rows *)

Module Demo.

#[local] Instance display_key : Display Z := fun z => pretty z.
#[local] Instance display_value : Display GoldilocksField := fun x => pretty (to_integer x).
Notation GL := GoldilocksField.

Definition key_column : PolyID := mkPolyID 0 ConstantPoly.
Definition value_column : PolyID := mkPolyID 1 Committed.
Definition ref (p : PolyID) : AlgebraicExpression GL := AReference (mkAlgebraicReference "" p false).
Definition fd : FixedData GL :=
  {| fixed_values := fun p deg => if bool_decide (p = key_column) then Some [gl 10; gl 20] else None;
     external_values := {[ value_column := None ]} |}.
Definition lookup (id : Z) (key value : AlgebraicExpression GL) : Connection GL :=
  mkConnection id (mkSelectedExpressions (ANumber (gl 1)) [key; value])
    (mkSelectedExpressions (ANumber (gl 1)) [ref key_column; ref value_column]) Lookup None.
Definition parts : MachineParts GL :=
  {| connections := {[ 0 := lookup 0 (ANumber (gl 20)) (ANumber (gl 7)); 1 := lookup 1 (ANumber (gl 20)) (ref (mkPolyID 5 Committed));
                       2 := lookup 2 (ANumber (gl 20)) (ref (mkPolyID 6 Committed)) ]};
     identities_empty := true; degree_max := 2 |}.
Definition memory : WriteOnceMemory GL :=
  match try_new fd parts with Some (Some m) => m | _ => mkWriteOnceMemory 0 ∅ [] [] ∅ end.
Definition show (key : list GL) : string := "".

(** The caller's rows: column 5 is the variable 1, column 6 the sum of the variables 1 and 2. *)
Definition evaluate (e : AlgebraicExpression GL) : option (AffineExpression Z GL) :=
  match e with
  | ANumber n => Some (Constant n)
  | AReference r => Some (if poly_id (ref_poly_id r) =? 5 then OneVar (1, gl 1) (gl 0) else ManyVars [(1, gl 1); (2, gl 1)] (gl 0))
  | _ => None
  end.

Lemma evaluate_ok : call_ok evaluate.
Proof.
  intros e a. destruct e as [r| | |n| |]; try discriminate; cbn [evaluate].
  - intros [= <-]. destruct (_ =? 5); [vm_compute; congruence|]. split; [discriminate|]. apply is_proper_coefficients_spec. vm_compute. reflexivity.
  - now intros [= <-].
Qed.

Definition after (m : WriteOnceMemory GL) (id : Z) : WriteOnceMemory GL :=
  match process_plookup_internal (K:=Z) show fd evaluate m id with Some (_, m') => m' | None => m end.
Definition answer (m : WriteOnceMemory GL) (id : Z) : option (bool * list (Z * option Z)) :=
  match process_plookup_internal (K:=Z) show fd evaluate m id with
  | Some (inl v, _) => Some (ev_is_complete v, map as_integer (ev_constraints v))
  | _ => None
  end.

(** A value is written and read back. *)
Example write_then_read : answer memory 0 = Some (true, []) /\ answer (after memory 0) 1 = Some (true, [(1, Some 7)]).
Proof. split; vm_compute; reflexivity. Qed.

(** A stored value and an argument with two unknowns: the lookup is reported as complete,
    with no constraint on the unknowns. *)
Example undetermined_argument_is_complete : answer (after memory 0) 2 = Some (true, []).
Proof. vm_compute. reflexivity. Qed.

(** External values that do not cover the degree: a lookup in row 1 sees the value of row 0
    again, the finished column has a zero there. *)
Example short_external_values :
  let fd' := {| fixed_values := fixed_values fd; external_values := {[ value_column := Some [gl 7] ]} |} in
  external_witness fd' 1 value_column = Some (Some (gl 7)) /\
  witness_column fd' memory 0 value_column = Some [gl 7; gl 0].
Proof. split; vm_compute; reflexivity. Qed.

Lemma write_once_memory_sound_witness :
  exists v cols row w, process_plookup_internal (K:=Z) show fd evaluate (after memory 0) 1 = Some (inl v, after (after memory 0) 1) /\
    take_witness_col_values fd (after (after memory 0) 1) = Some cols /\
    table_cell fd cols 2 value_column row = Some w.
Proof.
  destruct (process_plookup_internal (K:=Z) show fd evaluate (after memory 0) 1) as [[[v|e] m']|] eqn:Hp; [|vm_compute in Hp; discriminate..].
  assert (Hm : m' = after (after memory 0) 1) by (unfold after at 1; now rewrite Hp).
  assert (Hc : ev_is_complete v = true /\ constraints_hold (fun _ => gl 7) (ev_constraints v)).
  { vm_compute in Hp. injection Hp as <- _. split; [reflexivity|]. repeat constructor. now apply zp_ext. }
  destruct (write_once_memory_sound fd show parts memory (after memory 0) m' m' evaluate 1 v) as (c & args & refs & row & cols & Hc' & Ha & Hr & _ & Ht & Hall).
  - vm_compute. reflexivity.
  - intros id c Hc'. unfold parts, connections in Hc'.
    repeat (apply lookup_insert_Some in Hc' as [[_ <-]|[_ Hc']]; [reflexivity|]). now apply lookup_singleton_Some in Hc' as [_ <-].
  - repeat constructor. exists None. split; [reflexivity|exact I].
  - vm_compute. repeat constructor; set_solver.
  - assert (Hw : exists r, process_plookup_internal (K:=Z) show fd evaluate memory 0 = Some (r, after memory 0)).
    { unfold after. destruct (process_plookup_internal _ _ _ memory 0) as [[r m1]|] eqn:Hp0; [now exists r|vm_compute in Hp0; discriminate]. }
    destruct Hw as [r Hw]. exact (lookups_one fd show _ _ _ _ _ _ evaluate_ok Hw (lookups_none _ _ _)).
  - exact evaluate_ok.
  - exact Hp.
  - apply Hc.
  - constructor.
  - assert (He : connections parts !! 1 = Some (lookup 1 (ANumber (gl 20)) (ref (mkPolyID 5 Committed)))) by reflexivity.
    rewrite He in Hc'. injection Hc' as <-. cbn in Ha, Hr.
    injection Ha as <-. injection Hr as <-. inversion Hall as [|? ? ? ? _ Hall1]; subst. inversion Hall1 as [|? ? ? ? Hv _]; subst.
    destruct (Hv ltac:(vm_compute; lia) (fun _ => gl 7) (proj2 Hc)) as (w & Hcell & _).
    exists v, cols, row, w. split; [reflexivity|]. now split.
Defined.

End Demo.
