(* ===== verification/PanicMonad.v ===== *)
(** * State with panics

    Code that updates a mutable object and may panic: a function from the state to the
    result and the new state, or nothing when the code panics. The bind notation is
    stdpp's. Two logics for it: [wp] reasons about the runs that return, [sim] relates two
    programs that run on related states. *)

From stdpp Require Import base list option sets.
From Stdlib Require Import ZArith Lia.
From S2P Require Import Prelude.

Definition M (S A : Type) : Type := S -> option (A * S).

#[export] Instance M_ret S : MRet (M S) := fun A a s => Some (a, s).
#[export] Instance M_bind S : MBind (M S) := fun A B k m s =>
  match m s with Some (a, s') => k a s' | None => None end.

Section Operations.
Context {S : Type}.

Definition panic {A} : M S A := fun _ => None.
Definition lift {A} (o : option A) : M S A := fun s => match o with Some a => Some (a, s) | None => None end.
Definition gets {A} (f : S -> A) : M S A := fun s => Some (f s, s).
Definition modify (f : S -> S) : M S unit := fun s => Some (tt, f s).
Definition assertM (b : bool) : M S unit := lift (assert_that b).
Definition whenM (b : bool) (m : M S unit) : M S unit := if b then m else mret tt.

(** A loop over the elements of an iterator. *)
Section ForEach.
Context {A : Type}.
Variable f : A -> M S unit.

Fixpoint for_each (l : list A) : M S unit :=
  match l with
  | [] => mret tt
  | x :: l' => f x;; for_each l'
  end.

End ForEach.

(** [iter().map(f).collect()], [f] with effects. *)
Section MapCollect.
Context {A B : Type}.
Variable f : A -> M S B.

Fixpoint map_collect (l : list A) : M S (list B) :=
  match l with
  | [] => mret []
  | x :: l' => y ← f x; ys ← map_collect l'; mret (y :: ys)
  end.

End MapCollect.

End Operations.

(** A program on a part of the state. *)
Definition on_part {S P A} (get : S -> P) (put : P -> S -> S) (m : M P A) : M S A := fun s =>
  match m (get s) with Some (a, p) => Some (a, put p s) | None => None end.

(** ** Runs, step by step *)

Lemma bind_run {S A B} (m : M S A) (k : A -> M S B) s a s' r : m s = Some (a, s') -> k a s' = r -> (m ≫= k) s = r.
Proof. intros Hm <-. unfold mbind, M_bind. now rewrite Hm. Qed.

Lemma lift_run {S A B} (o : option A) (k : A -> M S B) s a r : o = Some a -> k a s = r -> (lift o ≫= k) s = r.
Proof. intros -> <-. reflexivity. Qed.

Lemma lift_some {S A} (o : option A) a (s : S) : o = Some a -> lift o s = Some (a, s).
Proof. now intros ->. Qed.

(** ** Runs that return *)

Definition wp {S A} (m : M S A) (Q : A -> S -> Prop) (s : S) : Prop :=
  forall a s', m s = Some (a, s') -> Q a s'.

Section Wp.
Context {S : Type}.

Lemma wp_ret {A} (a : A) Q (s : S) : Q a s -> wp (mret a) Q s.
Proof. now intros HQ a' s' [= <- <-]. Qed.

Lemma wp_bind {A B} (m : M S A) (k : A -> M S B) Q s : wp m (fun a => wp (k a) Q) s -> wp (m ≫= k) Q s.
Proof.
  intros Hm b s'. unfold mbind, M_bind. destruct (m s) as [[a s1]|] eqn:Ha; [|discriminate]. now apply (Hm a s1).
Qed.

Lemma wp_conseq {A} (m : M S A) (Q Q' : A -> S -> Prop) s : wp m Q s -> (forall a s', Q a s' -> Q' a s') -> wp m Q' s.
Proof. intros Hm HQ a s' Ha. apply HQ. now apply Hm. Qed.

Lemma wp_panic {A} Q (s : S) : wp (panic (A:=A)) Q s.
Proof. discriminate. Qed.

Lemma wp_lift {A} (o : option A) Q (s : S) : (forall a, o = Some a -> Q a s) -> wp (lift o) Q s.
Proof. intros HQ a s'. unfold lift. destruct o; [|discriminate]. intros [= <- <-]. now apply HQ. Qed.

Lemma wp_gets {A} (f : S -> A) Q s : Q (f s) s -> wp (gets f) Q s.
Proof. now intros HQ a s' [= <- <-]. Qed.

Lemma wp_modify (f : S -> S) Q s : Q tt (f s) -> wp (modify f) Q s.
Proof. now intros HQ a s' [= <- <-]. Qed.

Lemma wp_assert b Q (s : S) : (b = true -> Q tt s) -> wp (assertM b) Q s.
Proof. intros HQ. apply wp_lift. intros [] Hb. apply HQ. now apply assert_that_true. Qed.

Lemma wp_when b m Q (s : S) : (b = true -> wp m Q s) -> (b = false -> Q tt s) -> wp (whenM b m) Q s.
Proof. destruct b; cbn; intros H1 H2; [now apply H1|apply wp_ret; now apply H2]. Qed.

(** An invariant of the loop body is one of the loop. *)
Lemma wp_for_each {A} (I : S -> Prop) (f : A -> M S unit) l s :
  I s -> (forall x s, x ∈ l -> I s -> wp (f x) (fun _ => I) s) -> wp (for_each f l) (fun _ => I) s.
Proof.
  intros HI Hf. revert s HI. induction l as [|x l IH]; intros s HI; cbn.
  - now apply wp_ret.
  - apply wp_bind. eapply wp_conseq; [apply Hf; [set_solver|exact HI]|]. intros [] s' HI'. apply IH; [|exact HI'].
    intros y t Hy. apply Hf. set_solver.
Qed.

Lemma wp_map_collect {A B} (I : S -> Prop) (f : A -> M S B) l s :
  I s -> (forall x s, x ∈ l -> I s -> wp (f x) (fun _ => I) s) -> wp (map_collect f l) (fun _ => I) s.
Proof.
  intros HI Hf. revert s HI. induction l as [|x l IH]; intros s HI; cbn.
  - now apply wp_ret.
  - apply wp_bind. eapply wp_conseq; [apply Hf; [set_solver|exact HI]|]. intros y s' HI'. apply wp_bind.
    eapply wp_conseq; [apply IH; [intros z t Hz; apply Hf; set_solver|exact HI']|]. intros ys s'' HI''. now apply wp_ret.
Qed.

End Wp.

Lemma wp_on_part {S P A} (get : S -> P) put (m : M P A) Q s :
  wp m (fun a p => Q a (put p s)) (get s) -> wp (on_part get put m) Q s.
Proof.
  intros Hm a s'. unfold on_part. destruct (m (get s)) as [[a' p]|] eqn:Hr; [|discriminate]. intros [= <- <-]. now apply Hm.
Qed.

(** ** Two programs on related states *)

Section Sim.
Context {S1 S2 : Type}.
Variable R : S1 -> S2 -> Prop.

(** Where the first program returns, the second does too, with related results. *)
Definition sim {A B} (RA : A -> B -> Prop) (m1 : M S1 A) (m2 : M S2 B) : Prop :=
  forall s t, R s t -> forall a s', m1 s = Some (a, s') -> exists b t', m2 t = Some (b, t') /\ RA a b /\ R s' t'.

Lemma sim_ret {A B} (RA : A -> B -> Prop) a b : RA a b -> sim RA (mret a) (mret b).
Proof. intros Hab s t HR a' s' [= <- <-]. exists b, t. auto. Qed.

Lemma sim_bind {A B C D} (RA : A -> B -> Prop) (RC : C -> D -> Prop) m1 m2 k1 k2 :
  sim RA m1 m2 -> (forall a b, RA a b -> sim RC (k1 a) (k2 b)) -> sim RC (m1 ≫= k1) (m2 ≫= k2).
Proof.
  intros Hm Hk s t HR c s'. unfold mbind, M_bind. destruct (m1 s) as [[a s1]|] eqn:H1; [|discriminate].
  destruct (Hm s t HR a s1 H1) as (b & t1 & -> & Hab & HR1). intros Hc. exact (Hk a b Hab s1 t1 HR1 c s' Hc).
Qed.

Lemma sim_panic {A B} (RA : A -> B -> Prop) m2 : sim RA (panic (A:=A)) m2.
Proof. intros s t _ a s'. discriminate. Qed.

Lemma sim_lift {A} (o : option A) : sim eq (lift o) (lift o).
Proof. intros s t HR a s'. unfold lift. destruct o; [|discriminate]. intros [= <- <-]. eexists _, t. auto. Qed.

Lemma sim_assert b : sim eq (assertM b) (assertM b).
Proof. apply sim_lift. Qed.

Lemma sim_gets {A B} (RA : A -> B -> Prop) (f : S1 -> A) (g : S2 -> B) : (forall s t, R s t -> RA (f s) (g t)) -> sim RA (gets f) (gets g).
Proof. intros Hf s t HR a s' [= <- <-]. exists (g t), t. auto. Qed.

Lemma sim_modify f g : (forall s t, R s t -> R (f s) (g t)) -> sim eq (modify f) (modify g).
Proof. intros Hf s t HR a s' [= <- <-]. exists tt, (g t). auto. Qed.

Lemma sim_conseq {A B} (RA RB : A -> B -> Prop) m1 m2 : sim RA m1 m2 -> (forall a b, RA a b -> RB a b) -> sim RB m1 m2.
Proof. intros Hm Hi s t HR a s' Ha. destruct (Hm s t HR a s' Ha) as (b & t' & ? & ? & ?). exists b, t'. auto. Qed.

Lemma sim_for_each {A B} (RA : A -> B -> Prop) f g l1 l2 : Forall2 RA l1 l2 ->
  (forall a b, RA a b -> sim eq (f a) (g b)) -> sim eq (for_each f l1) (for_each g l2).
Proof.
  intros Hl Hf. induction Hl as [|a b l1 l2 Hab Hl IH]; cbn; [now apply sim_ret|].
  eapply sim_bind; [now apply Hf|]. intros [] [] _. exact IH.
Qed.

Lemma sim_map_collect {A C} f g (l : list A) : (forall a, a ∈ l -> sim (@eq C) (f a) (g a)) -> sim eq (map_collect f l) (map_collect g l).
Proof.
  intros Hf. induction l as [|a l IH]; cbn; [now apply sim_ret|].
  eapply sim_bind; [apply Hf; set_solver|]. intros c ? <-. eapply sim_bind; [apply IH; intros; apply Hf; set_solver|].
  intros cs ? <-. now apply sim_ret.
Qed.

End Sim.
