(* ===== verification/FixedColumns.v ===== *)
(** * Columns of several sizes, [executor-utils/src/lib.rs] and [data_structures/column_map.rs]

    A fixed column has one vector of values for each size its machine may have; maps from columns
    of one kind are vectors indexed by the number of the column. *)

From stdpp Require Import base list option gmap.
From Stdlib Require Import ZArith Lia.
From S2P Require Import Prelude Effect ExpressionEvaluator.

(** ** Variably sized columns *)

Record VariablySizedColumn (F : Type) := mkVariablySizedColumn {
  column_by_size : gmap Z (list F);
  column_constant_inner_value : option F
}.
Arguments mkVariablySizedColumn {F}.
Arguments column_by_size {F}.
Arguments column_constant_inner_value {F}.

Section Columns.
Context {F : Type} `{EqDecision F}.

(** [all_equal_value().ok()]: nothing for an empty iterator. *)
Definition all_equal_value (l : list F) : option F :=
  match l with
  | [] => None
  | x :: l' => if forallb (fun y => bool_decide (x = y)) l' then Some x else None
  end.

(** [column[1..column.len() - 1]] panics below two rows. *)
Definition constant_inner_value (column : list F) : option (option F) :=
  _ ← assert_that (2 <=? Z.of_nat (length column));
  Some (all_equal_value (firstn (length column - 2) (tl column))).

(** [From<Vec<F>>] *)
Definition column_from (column : list F) : option (VariablySizedColumn F) :=
  inner ← constant_inner_value column;
  Some (mkVariablySizedColumn {[ Z.of_nat (length column) := column ]} inner).

(** [collect::<Option<Vec<_>>>] is lazy: it stops at the first column without a common value. *)
Fixpoint constant_inner_values (columns : list (list F)) : option (option (list F)) :=
  match columns with
  | [] => Some (Some [])
  | c :: columns' =>
    v ← constant_inner_value c;
    match v with
    | None => Some None
    | Some x => rest ← constant_inner_values columns'; Some (option_map (cons x) rest)
    end
  end.

(** [From<Vec<Vec<F>>>]: of two columns of one size, the last stays. *)
Definition columns_from (columns : list (list F)) : option (VariablySizedColumn F) :=
  inner ← constant_inner_values columns;
  Some (mkVariablySizedColumn
    (list_to_map (rev (map (fun c => (Z.of_nat (length c), c)) columns)))
    (inner ≫= all_equal_value)).

Definition get_uniquely_sized (c : VariablySizedColumn F) : option (list F) :=
  match map_to_list (column_by_size c) with [(_, column)] => Some column | _ => None end.

Definition available_sizes (c : VariablySizedColumn F) : list Z := fst <$> map_to_list (column_by_size c).
Definition get_by_size (c : VariablySizedColumn F) (size : Z) : option (list F) := column_by_size c !! size.
Definition has_constant_inner_value (c : VariablySizedColumn F) : option F := column_constant_inner_value c.

(** [FixedColumn::values] panics for a size it does not have; [values_max_size] without any. *)
Definition values_max_size (c : VariablySizedColumn F) : option (list F) :=
  match available_sizes c with
  | [] => None
  | size :: sizes => get_by_size c (foldl Z.max size sizes)
  end.

Lemma foldl_max_in l : forall a, foldl Z.max a l ∈ a :: l.
Proof.
  induction l as [|x l IH]; intros a; cbn; [set_solver|]. specialize (IH (Z.max a x)).
  destruct (Z.max_spec a x) as [[_ E]|[_ E]]; rewrite E in *; set_solver.
Qed.

(** The values of the largest size are among those the column has. *)
Lemma values_max_size_some c l : values_max_size c = Some l -> exists size, column_by_size c !! size = Some l.
Proof. unfold values_max_size. destruct (available_sizes c); [discriminate|]. unfold get_by_size. eauto. Qed.

Lemma values_max_size_returns c : column_by_size c <> ∅ -> is_Some (values_max_size c).
Proof.
  intros Hne. unfold values_max_size. destruct (available_sizes c) as [|size sizes] eqn:E.
  - exfalso. apply Hne, map_to_list_empty_iff. unfold available_sizes in E. now destruct (map_to_list (column_by_size c)).
  - pose proof (foldl_max_in sizes size) as Hin. rewrite <- E in Hin. unfold available_sizes in Hin.
    apply list_elem_of_fmap in Hin as ([s l] & -> & Hin). apply elem_of_map_to_list in Hin. cbn. now exists l.
Qed.

Lemma all_equal_value_spec l x : all_equal_value l = Some x -> Forall (eq x) l.
Proof.
  destruct l as [|y l]; [discriminate|]. cbn. destruct (forallb _ l) eqn:E; [|discriminate]. intros [= <-]. constructor; [reflexivity|].
  rewrite forallb_forall in E. apply List.Forall_forall. intros z Hz. specialize (E z Hz). now apply bool_decide_eq_true in E.
Qed.

(** All rows except the first and the last. *)
Lemma constant_inner_value_spec column x i y : constant_inner_value column = Some (Some x) ->
  (0 < i < length column - 1)%nat -> column !! i = Some y -> y = x.
Proof.
  unfold constant_inner_value. destruct (2 <=? _) eqn:E2; [|discriminate]. cbn. intros [= E] Hi Hy. apply all_equal_value_spec in E.
  destruct column as [|z column]; [discriminate|]. cbn [tl length] in *. destruct i as [|i]; [lia|]. cbn in Hy.
  rewrite List.Forall_forall in E. symmetry. apply E. apply list_elem_of_In, list_elem_of_lookup. exists i.
  rewrite lookup_take. destruct (decide (i < S (length column) - 2)%nat) as [_|Hge]; [exact Hy|]. lia.
Qed.

Lemma constant_inner_values_spec columns : forall l, constant_inner_values columns = Some (Some l) ->
  Forall2 (fun c x => constant_inner_value c = Some (Some x)) columns l.
Proof.
  induction columns as [|c columns IH]; intros l; cbn; [intros [= <-]; constructor|].
  destruct (constant_inner_value c) as [[x|]|] eqn:E; cbn; try discriminate.
  destruct (constant_inner_values columns) as [[rest|]|]; cbn; try discriminate. intros [= <-]. constructor; [exact E|now apply IH].
Qed.

(** The promise of the field: in every size, every row but the first and the last has this value. *)
Lemma columns_from_inner columns c x size column i y :
  columns_from columns = Some c -> has_constant_inner_value c = Some x -> get_by_size c size = Some column ->
  (0 < i < length column - 1)%nat -> column !! i = Some y -> y = x.
Proof.
  unfold columns_from. destruct (constant_inner_values columns) as [inner|] eqn:Ei; [|discriminate]. intros [= <-]. cbn.
  destruct inner as [l|]; [|discriminate]. intros Hx Hs Hi Hy. apply constant_inner_values_spec in Ei.
  unfold get_by_size in Hs. cbn in Hs. apply elem_of_list_to_map_2 in Hs. apply list_elem_of_In, in_rev, in_map_iff in Hs as (c' & [= _ ->] & Hin).
  apply list_elem_of_In, list_elem_of_lookup in Hin as [k Hk]. destruct (Forall2_lookup_l _ _ _ _ _ Ei Hk) as (z & Hz & Hc).
  cbn in Hx. apply all_equal_value_spec in Hx. rewrite List.Forall_forall in Hx. rewrite (Hx z) by (apply list_elem_of_In, list_elem_of_lookup; eauto).
  now apply (constant_inner_value_spec column z i).
Qed.

End Columns.

(** ** Maps by column, [column_map.rs] *)

(** The kind of the columns is the marker type of the source; the [debug_assert!] on it is checked. *)
Record ColumnMap (V : Type) := mkColumnMap { cm_values : list V; cm_ptype : PolynomialType }.
Arguments mkColumnMap {V}.
Arguments cm_values {V}.
Arguments cm_ptype {V}.

Section Maps.
Context {V : Type}.

Definition cm_new (t : PolynomialType) (initial_value : V) (size : nat) : ColumnMap V := mkColumnMap (replicate size initial_value) t.
Definition cm_from (t : PolynomialType) (values : list V) : ColumnMap V := mkColumnMap values t.
Definition cm_keys (m : ColumnMap V) : list PolyID := map (fun i => mkPolyID (Z.of_nat i) (cm_ptype m)) (seq 0 (length (cm_values m))).
Definition cm_iter (m : ColumnMap V) : list (PolyID * V) := zip (cm_keys m) (cm_values m).
Definition cm_len (m : ColumnMap V) : nat := length (cm_values m).

Definition cm_index (m : ColumnMap V) (p : PolyID) : option V :=
  _ ← assert_that (bool_decide (ptype p = cm_ptype m)); cm_values m !! Z.to_nat (poly_id p).
Definition cm_set (p : PolyID) (v : V) (m : ColumnMap V) : option (ColumnMap V) :=
  _ ← assert_that (bool_decide (ptype p = cm_ptype m));
  _ ← assert_that (Z.to_nat (poly_id p) <? length (cm_values m))%nat;
  Some (mkColumnMap (<[Z.to_nat (poly_id p) := v]> (cm_values m)) (cm_ptype m)).

(** [from_indexed] *)
Fixpoint cm_set_all (items : list (PolyID * V)) (m : ColumnMap V) : option (ColumnMap V) :=
  match items with
  | [] => Some m
  | (p, v) :: items' => m' ← cm_set p v m; cm_set_all items' m'
  end.
Definition cm_from_indexed (t : PolynomialType) (default_ : V) (items : list (PolyID * V)) (len : nat) : option (ColumnMap V) :=
  cm_set_all items (cm_new t default_ len).

Lemma cm_set_spec p v m : ptype p = cm_ptype m -> (Z.to_nat (poly_id p) < cm_len m)%nat ->
  exists m', cm_set p v m = Some m' /\ cm_ptype m' = cm_ptype m /\ cm_len m' = cm_len m /\
    forall i, cm_values m' !! i = if decide (i = Z.to_nat (poly_id p)) then Some v else cm_values m !! i.
Proof.
  intros Ht Hl. unfold cm_set, cm_len in *. rewrite bool_decide_eq_true_2 by exact Ht. rewrite (proj2 (Nat.ltb_lt _ _) Hl). cbn.
  eexists. split; [reflexivity|]. cbn. split; [reflexivity|]. split; [apply length_insert|]. intros i.
  destruct (decide (i = Z.to_nat (poly_id p))) as [->|Hne]; [now apply list_lookup_insert_eq|now apply list_lookup_insert_ne].
Qed.

End Maps.
