(* ===== verification/PartialEvaluator.v ===== *)
(** * Partial evaluation of algebraic expressions, [executor/src/witgen/evaluators/]

    The evaluator that turns an expression into an affine expression in its unknown variables,
    with the three kinds of access to columns it is used with: purely symbolic, with fixed
    columns known, and fixed columns only. *)

From stdpp Require Import base list option gmap strings countable.
From Stdlib Require Import ZArith Lia Ascii.
From S2P Require Import Prelude Field EvalResult AffineExpression AffineSolver PanicMonad SymbolicExpr Effect ExpressionEvaluator.

(** ** Variables, [affine_expression.rs] *)

(** References are compared without their names, which are for display only. *)
Inductive AlgebraicVariable :=
| ColumnVar (r : AlgebraicReferenceThin)
| PublicVar (name : string).

Definition ptype_rank (t : PolynomialType) : Z :=
  match t with Committed => 0 | ConstantPoly => 1 | IntermediatePoly => 2 end.
Definition poly_id_cmp (a b : PolyID) : comparison :=
  compare_lex (poly_id a ?= poly_id b) (ptype_rank (ptype a) ?= ptype_rank (ptype b)).
Definition thin_cmp (a b : AlgebraicReferenceThin) : comparison :=
  compare_lex (poly_id_cmp (thin_poly_id a) (thin_poly_id b)) (b2z (thin_next a) ?= b2z (thin_next b)).
(** The derived order: columns before publics. *)
Definition algebraic_variable_cmp (a b : AlgebraicVariable) : comparison :=
  match a, b with
  | ColumnVar r, ColumnVar s => thin_cmp r s
  | PublicVar p, PublicVar q => String.compare p q
  | ColumnVar _, PublicVar _ => Lt
  | PublicVar _, ColumnVar _ => Gt
  end.

#[export] Instance algebraic_variable_ord : Ord AlgebraicVariable := algebraic_variable_cmp.

(** A three-way comparison by integers, the first difference deciding. *)
Fixpoint lex_cmp (a b : list Z) : comparison :=
  match a, b with
  | x :: a', y :: b' => compare_lex (x ?= y) (lex_cmp a' b')
  | [], [] => Eq
  | [], _ :: _ => Lt
  | _ :: _, [] => Gt
  end.

Lemma lex_cmp_eq a : forall b, lex_cmp a b = Eq <-> a = b.
Proof.
  induction a as [|x a IH]; intros [|y b]; cbn; try easy. unfold compare_lex. specialize (IH b).
  destruct (x ?= y) eqn:E; [apply Z.compare_eq_iff in E; rewrite IH; split; congruence|..];
    (split; [discriminate|intros [= -> _]; rewrite Z.compare_refl in E; discriminate]).
Qed.

Lemma lex_cmp_antisym a : forall b, lex_cmp b a = CompOpp (lex_cmp a b).
Proof.
  induction a as [|x a IH]; intros [|y b]; cbn; try easy. rewrite (Z.compare_antisym x y), IH.
  now destruct (x ?= y).
Qed.

Lemma lex_cmp_trans a : forall b c, lex_cmp a b = Lt -> lex_cmp b c = Lt -> lex_cmp a c = Lt.
Proof.
  induction a as [|x a IH]; intros [|y b] [|z c]; cbn; try easy. unfold compare_lex.
  destruct (Z.compare_spec x y), (Z.compare_spec y z), (Z.compare_spec x z); subst; try easy; try lia. apply IH.
Qed.

Definition thin_key (r : AlgebraicReferenceThin) : list Z :=
  [poly_id (thin_poly_id r); ptype_rank (ptype (thin_poly_id r)); b2z (thin_next r)].

Lemma thin_cmp_key a b : thin_cmp a b = lex_cmp (thin_key a) (thin_key b).
Proof.
  unfold thin_cmp, poly_id_cmp, thin_key. cbn [lex_cmp]. unfold compare_lex.
  destruct (poly_id _ ?= poly_id _); [|reflexivity..]. destruct (ptype_rank _ ?= ptype_rank _); [|reflexivity..].
  now destruct (b2z _ ?= b2z _).
Qed.

Lemma thin_key_inj a b : thin_key a = thin_key b -> a = b.
Proof.
  destruct a as [[i t] n], b as [[j u] m]. unfold thin_key. cbn. intros [= -> Ht Hn].
  f_equal; [f_equal|]; [now destruct t, u|now destruct n, m].
Qed.

(** Strings are compared byte by byte. *)
Fixpoint string_key (s : string) : list Z :=
  match s with EmptyString => [] | String a s' => Z.of_N (Ascii.N_of_ascii a) :: string_key s' end.

Lemma string_cmp_key p : forall q, String.compare p q = lex_cmp (string_key p) (string_key q).
Proof.
  induction p as [|a p IH]; intros [|b q]; cbn [String.compare string_key lex_cmp]; try reflexivity.
  unfold Ascii.compare. rewrite N2Z.inj_compare, IH. now destruct (N_of_ascii a ?= N_of_ascii b)%N.
Qed.

Lemma string_key_inj p : forall q, string_key p = string_key q -> p = q.
Proof.
  induction p as [|a p IH]; intros [|b q]; cbn; try easy. intros [= Ha%N2Z.inj Hp%IH].
  apply (f_equal Ascii.ascii_of_N) in Ha. rewrite !Ascii.ascii_N_embedding in Ha. congruence.
Qed.

#[export] Instance algebraic_variable_ord_laws : OrdLaws AlgebraicVariable.
Proof.
  split; unfold k_cmp, algebraic_variable_ord.
  - intros [r|p] [s|q]; cbn; try easy; rewrite ?thin_cmp_key, ?string_cmp_key, lex_cmp_eq.
    + split; [intros <-%thin_key_inj; reflexivity|congruence].
    + split; [intros <-%string_key_inj; reflexivity|congruence].
  - intros [r|p] [s|q]; cbn; try easy; rewrite ?thin_cmp_key, ?string_cmp_key; apply lex_cmp_antisym.
  - intros [r|p] [s|q] [t|u]; cbn; try easy; rewrite ?thin_cmp_key, ?string_cmp_key; apply lex_cmp_trans.
Qed.

(** ** The evaluator, [partial_expression_evaluator.rs] *)

Notation AffineResult T := (sum (AffineExpression AlgebraicVariable T) (IncompleteCause AlgebraicVariable)).

(** The trait [SymbolicVariables]; [None] is a panic. *)
Record SymbolicVariables (T : Type) := mkSymbolicVariables {
  sv_value : AlgebraicVariable -> option (AffineResult T);
  sv_challenge : Challenge -> option (AffineResult T)
}.
Arguments mkSymbolicVariables {T}.
Arguments sv_value {T}.
Arguments sv_challenge {T}.

(** [FieldElement::pow]: the power by repeated multiplication, which is what the implementation of
    Goldilocks computes by squaring. *)
Definition f_pow {T} `{FieldElement T} (x : T) (n : Z) : T := N.iter (Z.to_N n) (fun acc => f_mul acc x) f_one.

Section PartialEvaluator.
Context {T : Type} `{FieldElement T}.
Variable variables : SymbolicVariables T.
Variable intermediate_definitions : gmap AlgebraicReferenceThin (AlgebraicExpression T).

Notation cache := (gmap AlgebraicReferenceThin (AffineResult T)).
Notation computation := (M cache (AffineResult T)).

(** The [?] operator. *)
Definition try_ (m : computation) (k : AffineExpression AlgebraicVariable T -> computation) : computation :=
  r ← m;
  match r with
  | inl e => k e
  | inr cause => mret (inr cause)
  end.

(** The product of two affine expressions, the left one neither zero nor one. *)
Definition affine_product (left_expr right_expr : AffineExpression AlgebraicVariable T) : AffineResult T :=
  match constant_value left_expr with
  | Some n => inl (aff_mul right_expr n)
  | None =>
    match constant_value right_expr with
    | Some r => if f_is_zero r then inl right_expr else if f_is_one r then inl left_expr else inl (aff_mul left_expr r)
    | None => inr QuadraticTerm
    end
  end.

(** When the left factor has failed, the right one may still be zero. *)
Definition after_error (left_err : IncompleteCause AlgebraicVariable) (right_res : AffineResult T) : AffineResult T :=
  match right_res with
  | inl right_expr =>
    match constant_value right_expr with
    | Some n => if f_is_zero n then inl right_expr else inr left_err
    | None => inr left_err
    end
  | inr right_err => inr (cause_combine left_err right_err)
  end.

(** The operands are computations: they are run only where the source evaluates them. *)
Definition evaluate_binary_operation (op : AlgebraicBinaryOperator) (left right : computation) : computation :=
  match op with
  | AAdd =>
    try_ left (fun left_expr =>
      if aff_is_zero left_expr then right
      else try_ right (fun right_expr =>
        if aff_is_zero right_expr then mret (inl left_expr)
        else mret (inl (aff_add left_expr right_expr))))
  | ASub =>
    try_ left (fun left_expr => try_ right (fun right_expr => mret (inl (aff_sub left_expr right_expr))))
  | AMul =>
    left_res ← left;
    match left_res with
    | inl left_expr =>
      if aff_is_zero left_expr then mret (inl left_expr)
      else if aff_is_one left_expr then right
      else try_ right (fun right_expr => mret (affine_product left_expr right_expr))
    | inr left_err => right_res ← right; mret (after_error left_err right_res)
    end
  | APow =>
    try_ left (fun left_expr => try_ right (fun right_expr =>
      r ← lift (constant_value right_expr);
      mret (match constant_value left_expr with
            | Some l => inl (Constant (f_pow l (to_integer r)))
            | None => inr ExponentiationTerm
            end)))
  end.

Definition evaluate_unary_operation (op : AlgebraicUnaryOperator) (expr : computation) : computation :=
  try_ expr (fun v => mret (inl (match op with AMinus => aff_neg v end))).

(** Entering a definition uses up one unit of fuel. *)
Fixpoint evaluate (fuel : nat) : AlgebraicExpression T -> computation :=
  fix go (expr : AlgebraicExpression T) {struct expr} : computation :=
    match expr with
    | AReference poly =>
      match ptype (ref_poly_id poly) with
      | Committed | ConstantPoly => lift (sv_value variables (ColumnVar (to_thin poly)))
      | IntermediatePoly =>
        let reference := to_thin poly in
        value ← gets (fun c : cache => c !! reference);
        match value with
        | Some v => mret v
        | None =>
          match fuel with
          | O => panic
          | S fuel' =>
            definition ← lift (intermediate_definitions !! reference);
            result ← evaluate fuel' definition;
            modify (fun c : cache => <[reference := result]> c);;
            mret result
          end
        end
      end
    | APublicReference public => lift (sv_value variables (PublicVar public))
    | ANumber n => mret (inl (Constant n))
    | ABinaryOperation l op r => evaluate_binary_operation op (go l) (go r)
    | AUnaryOperation op e => evaluate_unary_operation op (go e)
    | AChallenge challenge => lift (sv_challenge variables challenge)
    end.

(** A fresh evaluator. *)
Definition evaluate_fresh (fuel : nat) (expr : AlgebraicExpression T) : option (AffineResult T) := fst <$> evaluate fuel expr ∅.

End PartialEvaluator.

(** ** Access to variables *)

Section Access.
Context {T : Type} `{FieldElement T}.

(** [symbolic_evaluator.rs] *)
Definition SymbolicEvaluator : SymbolicVariables T := {|
  sv_value var :=
    _ ← match var with
        | ColumnVar poly => assert_that (match ptype (thin_poly_id poly) with IntermediatePoly => false | _ => true end)
        | PublicVar _ => Some tt
        end;
    Some (inl (from_variable_id var));
  sv_challenge _ := Some (inr SymbolicEvaluationOfChallenge)
|}.

(** The values of a fixed column for the size of the machine. *)
Variable fixed_values : PolyID -> option (list T).

(** A fixed column in a row, or in the next one. *)
Definition fixed_value (poly : AlgebraicReferenceThin) (row : Z) : option T :=
  values ← fixed_values (thin_poly_id poly);
  row' ← (if thin_next poly then checked_add 64 row 1 else Some row);
  _ ← assert_that (negb (Nat.eqb (length values) 0));
  values !! Z.to_nat (row' mod Z.of_nat (length values)).

(** [symbolic_witness_evaluator.rs]: fixed columns are known, witness columns and publics are asked
    for. [fixed_data.challenges] is the map. *)
Definition SymbolicWitnessEvaluator (challenges : gmap Z T) (row : Z)
  (witness_access : AlgebraicVariable -> option (AffineResult T)) : SymbolicVariables T := {|
  sv_value var :=
    match var with
    | ColumnVar poly =>
      match ptype (thin_poly_id poly) with
      | Committed => witness_access var
      | ConstantPoly => v ← fixed_value poly row; Some (inl (Constant v))
      | IntermediatePoly => None
      end
    | PublicVar _ => witness_access var
    end;
  sv_challenge challenge := v ← challenges !! challenge_id challenge; Some (inl (Constant v))
|}.

(** [fixed_evaluator.rs]: only the next row wraps around, the row itself may be out of range. *)
Definition FixedEvaluator (row : nat) : SymbolicVariables T := {|
  sv_value var :=
    match var with
    | ColumnVar poly =>
      match ptype (thin_poly_id poly) with
      | ConstantPoly =>
        col_data ← fixed_values (thin_poly_id poly);
        _ ← assert_that (negb (thin_next poly && Nat.eqb (length col_data) 0));
        v ← col_data !! (if thin_next poly then (row + 1) mod length col_data else row)%nat;
        Some (inl (Constant v))
      | _ => None
      end
    | PublicVar _ => None
    end;
  sv_challenge _ := None
|}.

End Access.

(** ** Variables of affine expressions *)

Section Keys.
Context {K T : Type} `{OL : OrdLaws K} `{FL : FieldLaws T}.
Variable P : K -> Prop.

Definition keys (a : AffineExpression K T) : Prop := Forall (fun kc => P (fst kc)) (nonzero_coefficients a).

Lemma vec_add_at_keys i (c : T) : forall l : list (K * T), Forall (fun kc => P (fst kc)) l -> Forall (fun kc => P (fst kc)) (vec_add_at i c l).
Proof. induction i as [|i IH]; intros [|[k d] l] Hl; cbn; inversion Hl; subst; auto. Qed.

Lemma vec_insert_keys i (x : K * T) : P (fst x) -> forall l : list (K * T), Forall (fun kc => P (fst kc)) l -> Forall (fun kc => P (fst kc)) (vec_insert i x l).
Proof. intros Hx. induction i as [|i IH]; intros [|y l] Hl; cbn; inversion Hl; subst; auto. Qed.

Lemma many_or_constant_keys (l : list (K * T)) o : Forall (fun kc => P (fst kc)) l -> keys (many_or_constant l o).
Proof. now destruct l. Qed.

Lemma add_one_many_keys v (c : T) l o : P v -> Forall (fun kc => P (fst kc)) l -> keys (add_one_many v c l o).
Proof.
  intros Hv Hl. apply many_or_constant_keys. apply List.Forall_forall. intros kc [Hin _]%List.filter_In. revert kc Hin. apply List.Forall_forall.
  destruct (binary_search v l); [now apply vec_add_at_keys|now apply vec_insert_keys].
Qed.

Lemma aff_add_keys (a b : AffineExpression K T) : keys a -> keys b -> keys (aff_add a b).
Proof.
  unfold keys. destruct a as [o1|[v1 c1] o1|l1 o1], b as [o2|[v2 c2] o2|l2 o2]; cbn [aff_add nonzero_coefficients]; intros Ha Hb; auto.
  - inversion Ha; inversion Hb; subst. destruct (k_cmp v1 v2); [destruct (f_is_zero _)|..]; cbn; auto.
  - inversion Ha; subst. now apply add_one_many_keys.
  - inversion Hb; subst. now apply add_one_many_keys.
  - apply many_or_constant_keys, merge_forall; auto.
Qed.

Lemma map_keys (g : T -> T) (l : list (K * T)) : Forall (fun kc => P (fst kc)) l -> Forall (fun kc => P (fst kc)) (map (fun kc => (fst kc, g (snd kc))) l).
Proof. intros Hl. rewrite List.Forall_map. exact Hl. Qed.

Lemma aff_neg_keys (a : AffineExpression K T) : keys a -> keys (aff_neg a).
Proof.
  unfold keys. destruct a as [o|[v c] o|l o]; cbn; [auto| |apply map_keys]. intros Ha. inversion Ha; subst. auto.
Qed.

Lemma aff_mul_keys (a : AffineExpression K T) (factor : T) : keys a -> keys (aff_mul a factor).
Proof.
  unfold keys, aff_mul. destruct (f_is_zero factor); [constructor|]. destruct a as [o|[v c] o|l o]; cbn; [auto| |].
  - intros Ha. inversion Ha; subst. auto.
  - apply (map_keys (fun c => f_mul c factor)).
Qed.

End Keys.

(** ** Correctness *)

(** The variables of an expression, intermediate columns included. *)
Fixpoint variables_of {T} (e : AlgebraicExpression T) : list AlgebraicVariable :=
  match e with
  | AReference r => [ColumnVar (to_thin r)]
  | APublicReference p => [PublicVar p]
  | ABinaryOperation e1 _ e2 => variables_of e1 ++ variables_of e2
  | AUnaryOperation _ e1 => variables_of e1
  | _ => []
  end.

Section Soundness.
Context {T : Type} `{FL : FieldLaws T}.
Variable variables : SymbolicVariables T.
Variable defs : gmap AlgebraicReferenceThin (AlgebraicExpression T).
(** Values of the terminals, of the variables of affine expressions, and of intermediate columns. *)
Variable ta : TerminalAccess T.
Variable env : AlgebraicVariable -> T.
Variable rho : AlgebraicReferenceThin -> option T.
(** A set of variables that is closed under definitions. *)
Variable L : AlgebraicVariable -> Prop.
(** A property of the variables that access returns. *)
Variable Q : AlgebraicVariable -> Prop.

Notation value_of := (meaning ta (fun x : T => x) rho).

(** A result that may stand for a value. *)
Definition result_ok (r : AffineResult T) (x : option T) : Prop :=
  match r with
  | inl a => aff_proper a /\ keys Q a /\ forall v, x = Some v -> eqm modulus (aff_val a env) (to_integer v)
  | inr _ => True
  end.

Definition covered (e : AlgebraicExpression T) : Prop := Forall L (variables_of e).

Record AccessOk : Prop := {
  access_column : forall r res, ptype (ref_poly_id r) <> IntermediatePoly -> L (ColumnVar (to_thin r)) ->
    sv_value variables (ColumnVar (to_thin r)) = Some res -> result_ok res (ta_get ta r);
  access_public : forall p res, L (PublicVar p) -> sv_value variables (PublicVar p) = Some res -> result_ok res (ta_get_public ta p);
  access_challenge : forall ch res, sv_challenge variables ch = Some res -> result_ok res (ta_get_challenge ta ch);
  access_intermediate : forall r, rho r = (d ← defs !! r; value_of d);
  access_closed : forall r d, ptype (thin_poly_id r) = IntermediatePoly -> L (ColumnVar r) -> defs !! r = Some d -> covered d
}.
Hypothesis Haccess : AccessOk.

Definition cache_ok (c : gmap AlgebraicReferenceThin (AffineResult T)) : Prop := forall r res, c !! r = Some res -> result_ok res (rho r).

(** A computation that keeps the cache right and whose result may stand for [x]. *)
Definition computes (m : M (gmap AlgebraicReferenceThin (AffineResult T)) (AffineResult T)) (x : option T) : Prop :=
  forall c, cache_ok c -> wp m (fun res c' => result_ok res x /\ cache_ok c') c.

Lemma computes_ret res x : result_ok res x -> computes (mret res) x.
Proof. intros Hr c Hc. now apply wp_ret. Qed.

Lemma computes_lift o x : (forall res, o = Some res -> result_ok res x) -> computes (lift o) x.
Proof. intros Ho c Hc. apply wp_lift. intros res E. auto. Qed.

Lemma computes_bind m x k y : computes m x -> (forall res, result_ok res x -> computes (k res) y) -> computes (m ≫= k) y.
Proof.
  intros Hm Hk c Hc. apply wp_bind. eapply wp_conseq; [exact (Hm c Hc)|]. intros res c' [Hres Hc']. now apply Hk.
Qed.

Lemma computes_try m x k y : computes m x -> (forall a, result_ok (inl a) x -> computes (k a) y) -> computes (try_ m k) y.
Proof.
  intros Hm Hk. apply (computes_bind m x); [exact Hm|]. intros [a|cause] Hr; [now apply Hk|]. now apply computes_ret.
Qed.

Lemma result_constant n : result_ok (inl (Constant n)) (Some n).
Proof. split; [exact I|]. split; [constructor|]. intros v [= <-]. unfold aff_val. cbn. eqm_lia. Qed.

(** A constant result is the value. *)
Lemma constant_result a x n v : result_ok (inl a) x -> constant_value a = Some n -> x = Some v -> v = n.
Proof.
  intros (_ & _ & Hv) Hc Hx. destruct a; try discriminate. injection Hc as <-. specialize (Hv v Hx). unfold aff_val in Hv. cbn in Hv.
  symmetry. apply f_eqm_eq. rewrite <- Hv. eqm_lia.
Qed.

Lemma aff_is_zero_constant (a : AffineExpression AlgebraicVariable T) : aff_is_zero a = true -> constant_value a = Some f_zero.
Proof.
  destruct a; cbn; try discriminate. unfold f_is_zero. intros Hz%Z.eqb_eq. f_equal. apply to_integer_inj. now rewrite f_zero_int.
Qed.

Lemma aff_is_one_constant (a : AffineExpression AlgebraicVariable T) : aff_is_one a = true -> constant_value a = Some f_one.
Proof.
  destruct a; cbn; try discriminate. unfold f_is_one. intros Hz%Z.eqb_eq. f_equal. apply to_integer_inj. now rewrite f_one_int.
Qed.

(** Values of field operations, as integers up to the modulus. *)
Lemma result_add a b x y z : result_ok (inl a) x -> result_ok (inl b) y ->
  (forall v, z = Some v -> exists v1 v2, x = Some v1 /\ y = Some v2 /\ v = f_add v1 v2) -> result_ok (inl (aff_add a b)) z.
Proof.
  intros (Hp1 & Hk1 & Hv1) (Hp2 & Hk2 & Hv2) Hz. split; [now apply aff_add_proper|]. split; [now apply aff_add_keys|].
  intros v E. destruct (Hz v E) as (v1 & v2 & -> & -> & ->). rewrite aff_add_val, f_add_eqm, (Hv1 v1), (Hv2 v2); reflexivity.
Qed.

Lemma result_neg a x z : result_ok (inl a) x -> (forall v, z = Some v -> exists v1, x = Some v1 /\ v = f_neg v1) -> result_ok (inl (aff_neg a)) z.
Proof.
  intros (Hp & Hk & Hv) Hz. split; [now apply aff_neg_proper|]. split; [now apply aff_neg_keys|].
  intros v E. destruct (Hz v E) as (v1 & -> & ->). rewrite aff_neg_val, f_neg_eqm, (Hv v1); reflexivity.
Qed.

Lemma result_mul a x n z : result_ok (inl a) x -> (forall v, z = Some v -> exists v1, x = Some v1 /\ v = f_mul v1 n) -> result_ok (inl (aff_mul a n)) z.
Proof.
  intros (Hp & Hk & Hv) Hz. split; [now apply aff_mul_proper|]. split; [now apply aff_mul_keys|].
  intros v E. destruct (Hz v E) as (v1 & -> & ->). rewrite aff_mul_val, f_mul_eqm, (Hv v1); reflexivity.
Qed.

(** A result for a value that is the same modulo the field. *)
Lemma result_change a x z : result_ok (inl a) x -> (forall v, z = Some v -> exists v1, x = Some v1 /\ eqm modulus (to_integer v1) (to_integer v)) ->
  result_ok (inl a) z.
Proof.
  intros (Hp & Hk & Hv) Hz. split; [exact Hp|]. split; [exact Hk|]. intros v E. destruct (Hz v E) as (v1 & -> & Hm). rewrite (Hv v1); [exact Hm|reflexivity].
Qed.

(** The value of an operation from the values of its operands. *)
Definition binary_value (op : AlgebraicBinaryOperator) (x y : option T) : option T :=
  match op with
  | APow => v ← x; n ← y; eval_pow (fun v : T => v) v n
  | _ => v1 ← x; v2 ← y; Some (match op with AAdd => f_add v1 v2 | ASub => f_sub v1 v2 | _ => f_mul v1 v2 end)
  end.

Lemma binary_value_some op x y z : binary_value op x y = Some z -> exists v1 v2, x = Some v1 /\ y = Some v2.
Proof. destruct op; cbn; destruct x; try discriminate; cbn; destruct y; try discriminate; eauto. Qed.

Lemma result_product a b x y : result_ok (inl a) x -> result_ok (inl b) y -> result_ok (affine_product a b) (binary_value AMul x y).
Proof.
  intros Ha Hb. unfold affine_product. assert (Hv : forall v, binary_value AMul x y = Some v -> exists v1 v2, x = Some v1 /\ y = Some v2 /\ v = f_mul v1 v2).
  { intros v E. destruct (binary_value_some _ _ _ _ E) as (v1 & v2 & -> & ->). injection E as <-. eauto. }
  destruct (constant_value a) as [n|] eqn:En.
  { apply (result_mul b y); [exact Hb|]. intros v E. destruct (Hv v E) as (v1 & v2 & Hx & Hy & ->). exists v2. split; [exact Hy|].
    rewrite (constant_result _ _ _ _ Ha En Hx). apply f_eqm_eq. feqm. eqm_lia. }
  destruct (constant_value b) as [r|] eqn:Er; [|exact I].
  destruct (f_is_zero r) eqn:Hz; [|destruct (f_is_one r) eqn:Ho].
  - apply (result_change b y); [exact Hb|]. intros v E. destruct (Hv v E) as (v1 & v2 & Hx & Hy & ->). exists v2. split; [exact Hy|].
    rewrite (constant_result _ _ _ _ Hb Er Hy). unfold f_is_zero in Hz. feqm. apply Z.eqb_eq in Hz. rewrite Hz. eqm_lia.
  - apply (result_change a x); [exact Ha|]. intros v E. destruct (Hv v E) as (v1 & v2 & Hx & Hy & ->). exists v1. split; [exact Hx|].
    rewrite (constant_result _ _ _ _ Hb Er Hy). unfold f_is_one in Ho. feqm. apply Z.eqb_eq in Ho. rewrite Ho. eqm_lia.
  - apply (result_mul a x); [exact Ha|]. intros v E. destruct (Hv v E) as (v1 & v2 & Hx & Hy & ->). exists v1. split; [exact Hx|].
    now rewrite (constant_result _ _ _ _ Hb Er Hy).
Qed.

(** A zero factor decides, whatever became of the other. *)
Lemma result_zero_factor a n (x y z : option T) : result_ok (inl a) x -> constant_value a = Some n -> f_is_zero n = true ->
  (forall v, z = Some v -> exists v1 v2, x = Some v1 /\ (v = f_mul v1 v2 \/ v = f_mul v2 v1)) -> result_ok (inl a) z.
Proof.
  intros Ha En Hz Hv. apply (result_change a x); [exact Ha|]. intros v E. destruct (Hv v E) as (v1 & v2 & Hx & Hp). exists v1. split; [exact Hx|].
  pose proof (constant_result _ _ _ _ Ha En Hx) as ->. unfold f_is_zero in Hz. apply Z.eqb_eq in Hz. destruct Hp as [->| ->]; feqm; rewrite Hz; eqm_lia.
Qed.

Lemma result_after_error err r x y : result_ok r y -> result_ok (after_error err r) (binary_value AMul x y).
Proof.
  intros Hr. destruct r as [b|err']; [|exact I]. cbn [after_error]. destruct (constant_value b) as [n|] eqn:En; [|exact I].
  destruct (f_is_zero n) eqn:Hz; [|exact I]. apply (result_zero_factor b n y x); [exact Hr|exact En|exact Hz|]. intros v E.
  destruct (binary_value_some _ _ _ _ E) as (v1 & v2 & -> & ->). injection E as <-. eauto.
Qed.

Lemma computes_change m x z : computes m x ->
  (forall a, result_ok (inl a) x -> result_ok (inl a) z) -> computes m z.
Proof.
  intros Hm Hxz c Hc. eapply wp_conseq; [exact (Hm c Hc)|]. intros [a|cause] c' [Hr Hc']; (split; [|exact Hc']); [now apply Hxz|exact I].
Qed.

Lemma computes_add left right x y : computes left x -> computes right y -> computes (evaluate_binary_operation AAdd left right) (binary_value AAdd x y).
Proof.
  intros Hl Hr. apply (computes_try _ x); [exact Hl|]. intros a Ha. destruct (aff_is_zero a) eqn:Hz.
  - apply (computes_change _ y); [exact Hr|]. intros b Hb. apply (result_change b y); [exact Hb|]. intros v E.
    destruct (binary_value_some _ _ _ _ E) as (v1 & v2 & -> & ->). exists v2. split; [reflexivity|]. injection E as <-.
    apply aff_is_zero_constant in Hz. rewrite (constant_result _ _ _ v1 Ha Hz eq_refl). feqm. rewrite ?f_zero_int. eqm_lia.
  - apply (computes_try _ y); [exact Hr|]. intros b Hb. destruct (aff_is_zero b) eqn:Hz'; apply computes_ret.
    + apply (result_change a x); [exact Ha|]. intros v E. destruct (binary_value_some _ _ _ _ E) as (v1 & v2 & -> & ->). exists v1. split; [reflexivity|].
      injection E as <-. apply aff_is_zero_constant in Hz'. rewrite (constant_result _ _ _ v2 Hb Hz' eq_refl). feqm. rewrite ?f_zero_int. eqm_lia.
    + apply (result_add a b x y); [exact Ha|exact Hb|]. intros v E. destruct (binary_value_some _ _ _ _ E) as (v1 & v2 & -> & ->). injection E as <-. eauto.
Qed.

Lemma computes_sub left right x y : computes left x -> computes right y -> computes (evaluate_binary_operation ASub left right) (binary_value ASub x y).
Proof.
  intros Hl Hr. apply (computes_try _ x); [exact Hl|]. intros a Ha. apply (computes_try _ y); [exact Hr|]. intros b Hb. apply computes_ret.
  apply (result_add a (aff_neg b) x (f_neg <$> y)); [exact Ha| |].
  - apply (result_neg b y); [exact Hb|]. intros v. destruct y; [|discriminate]. intros [= <-]. eauto.
  - intros v E. destruct (binary_value_some _ _ _ _ E) as (v1 & v2 & -> & ->). injection E as <-. exists v1, (f_neg v2). repeat split.
    apply f_eqm_eq. feqm. eqm_lia.
Qed.

Lemma computes_mul left right x y : computes left x -> computes right y -> computes (evaluate_binary_operation AMul left right) (binary_value AMul x y).
Proof.
  intros Hl Hr. apply (computes_bind _ x); [exact Hl|]. intros [a|err] Ha.
  - destruct (aff_is_zero a) eqn:Hz; [|destruct (aff_is_one a) eqn:Ho].
    + apply computes_ret, (result_zero_factor a f_zero x y); [exact Ha|now apply aff_is_zero_constant|unfold f_is_zero; now rewrite f_zero_int|].
      intros v E. destruct (binary_value_some _ _ _ _ E) as (v1 & v2 & -> & ->). injection E as <-. eauto.
    + apply (computes_change _ y); [exact Hr|]. intros b Hb. apply (result_change b y); [exact Hb|]. intros v E.
      destruct (binary_value_some _ _ _ _ E) as (v1 & v2 & -> & ->). exists v2. split; [reflexivity|]. injection E as <-.
      apply aff_is_one_constant in Ho. rewrite (constant_result _ _ _ v1 Ha Ho eq_refl). feqm. rewrite ?f_one_int. eqm_lia.
    + apply (computes_try _ y); [exact Hr|]. intros b Hb. apply computes_ret. now apply result_product.
  - apply (computes_bind _ y); [exact Hr|]. intros r Hres. apply computes_ret. now apply result_after_error.
Qed.

Lemma eval_pow_value (v n z : T) : eval_pow (fun v : T => v) v n = Some z -> z = f_pow v (to_integer n).
Proof. unfold eval_pow, f_pow. destruct (assert_that _); [|discriminate]. now intros [= <-]. Qed.

Lemma computes_pow left right x y : computes left x -> computes right y -> computes (evaluate_binary_operation APow left right) (binary_value APow x y).
Proof.
  intros Hl Hr. apply (computes_try _ x); [exact Hl|]. intros a Ha. apply (computes_try _ y); [exact Hr|]. intros b Hb.
  intros c Hc. apply wp_bind, wp_lift. intros r Er. apply wp_ret. split; [|exact Hc]. destruct (constant_value a) as [l|] eqn:El; [|exact I].
  apply (result_change _ (Some (f_pow l (to_integer r)))); [apply result_constant|]. intros v E.
  destruct (binary_value_some _ _ _ _ E) as (v1 & v2 & -> & ->). eexists. split; [reflexivity|]. apply eval_pow_value in E as ->.
  now rewrite (constant_result _ _ _ v1 Ha El eq_refl), (constant_result _ _ _ v2 Hb Er eq_refl).
Qed.

Lemma computes_binary op left right x y : computes left x -> computes right y ->
  computes (evaluate_binary_operation op left right) (binary_value op x y).
Proof. destruct op; [apply computes_add|apply computes_sub|apply computes_mul|apply computes_pow]. Qed.

(** [meaning] allows literal exponents only. *)
Lemma meaning_binary e1 op e2 z : value_of (ABinaryOperation e1 op e2) = Some z -> binary_value op (value_of e1) (value_of e2) = Some z.
Proof. destruct op; cbn [meaning binary_value]; auto. destruct e2; try discriminate. auto. Qed.

(** Whatever the evaluator returns stands for the value of the expression. *)
Lemma evaluate_sound fuel : forall e, covered e -> computes (evaluate variables defs fuel e) (value_of e).
Proof.
  induction fuel as [|fuel IHf]; intros e; induction e as [r|p|ch|n|e1 IH1 op e2 IH2|op e1 IH1]; intros Hcov; cbn [evaluate].
  all: try (apply computes_lift; intros res E; inversion Hcov; subst; now apply (access_public Haccess)).
  all: try (apply computes_lift; intros res E; now apply (access_challenge Haccess)).
  all: try (apply computes_ret, result_constant).
  all: try (unfold covered in *; cbn [variables_of] in *; rewrite Forall_app in Hcov; destruct Hcov as [Hcov1 Hcov2];
    apply (computes_change _ (binary_value op (value_of e1) (value_of e2))); [apply computes_binary; auto|];
    intros a Ha; apply (result_change a _ _ Ha); intros v E; exists v; split; [now apply meaning_binary|reflexivity]).
  all: try (apply (computes_try _ (value_of e1)); [now apply IH1|]; intros a Ha; apply computes_ret; destruct op;
    apply (result_neg a (value_of e1)); [exact Ha|]; cbn [meaning]; intros v; destruct (value_of e1); [|discriminate]; intros [= <-]; eauto).
  all: assert (Hr : L (ColumnVar (to_thin r))) by now inversion Hcov.
  all: cbn [meaning]; destruct (ptype (ref_poly_id r)) eqn:Ept;
    [apply computes_lift; intros res E; apply (access_column Haccess); [now rewrite Ept|exact Hr|exact E]..|].
  all: intros c Hc; apply wp_bind, wp_gets; destruct (c !! to_thin r) as [res|] eqn:Ec; [apply wp_ret; eauto|].
  { apply wp_panic. }
  apply wp_bind, wp_lift. intros d Ed. apply wp_bind. eapply wp_conseq; [apply (IHf d); [exact (access_closed Haccess (to_thin r) d Ept Hr Ed)|exact Hc]|].
  intros res c' [Hres Hc']. apply wp_bind, wp_modify, wp_ret. pose proof (access_intermediate Haccess (to_thin r)) as Hrho. rewrite Ed in Hrho. cbn in Hrho.
  rewrite <- Hrho in Hres. split; [exact Hres|]. intros r' res'. destruct (decide (r' = to_thin r)) as [->|Hne].
  - rewrite lookup_insert_eq. now intros [= <-].
  - rewrite lookup_insert_ne by congruence. apply Hc'.
Qed.

End Soundness.

(** ** Termination *)

(** What the parser and the analyzer guarantee: exponents are numbers, columns have definitions. *)
Fixpoint well_defined {T} (defs : gmap AlgebraicReferenceThin (AlgebraicExpression T)) (e : AlgebraicExpression T) : bool :=
  match e with
  | AReference r => match ptype (ref_poly_id r) with IntermediatePoly => bool_decide (is_Some (defs !! to_thin r)) | _ => true end
  | ABinaryOperation e1 op e2 =>
    well_defined defs e1 && well_defined defs e2 && match op with APow => match e2 with ANumber _ => true | _ => false end | _ => true end
  | AUnaryOperation _ e1 => well_defined defs e1
  | _ => true
  end.

Section Termination.
Context {T : Type} `{FieldElement T}.
Variable variables : SymbolicVariables T.
Variable defs : gmap AlgebraicReferenceThin (AlgebraicExpression T).
Variable rank : AlgebraicReferenceThin -> nat.
Hypothesis Hacyclic : acyclic defs rank.
Hypothesis Hdefs : forall r d, defs !! r = Some d -> well_defined defs d = true.

(** No access to the columns, publics and challenges of the expression panics. *)
Fixpoint answered (e : AlgebraicExpression T) : Prop :=
  match e with
  | AReference r => ptype (ref_poly_id r) <> IntermediatePoly -> is_Some (sv_value variables (ColumnVar (to_thin r)))
  | APublicReference p => is_Some (sv_value variables (PublicVar p))
  | AChallenge ch => is_Some (sv_challenge variables ch)
  | ANumber _ => True
  | ABinaryOperation e1 _ e2 => answered e1 /\ answered e2
  | AUnaryOperation _ e1 => answered e1
  end.
Hypothesis Hanswered : forall r d, defs !! r = Some d -> answered d.

Definition returns {S A} (m : M S A) : Prop := forall s, is_Some (m s).

Lemma returns_ret {S A} (a : A) : returns (mret a : M S A).
Proof. intros s. now eexists. Qed.

Lemma returns_bind {S A B} (m : M S A) (k : A -> M S B) : returns m -> (forall a, returns (k a)) -> returns (m ≫= k).
Proof. intros Hm Hk s. unfold mbind, M_bind. destruct (Hm s) as [[a s'] ->]. apply Hk. Qed.

Lemma returns_try m (k : AffineExpression AlgebraicVariable T -> M (gmap AlgebraicReferenceThin (AffineResult T)) (AffineResult T)) :
  returns m -> (forall a, returns (k a)) -> returns (try_ m k).
Proof. intros Hm Hk. apply returns_bind; [exact Hm|]. intros [a|cause]; [apply Hk|apply returns_ret]. Qed.

Lemma returns_lift {S A} (o : option A) : is_Some o -> returns (lift o : M S A).
Proof. intros [a ->] s. now eexists. Qed.

Lemma returns_binary op left right : op <> APow -> returns left -> returns right -> returns (evaluate_binary_operation (T:=T) op left right).
Proof.
  intros Hop Hl Hr. destruct op; cbn [evaluate_binary_operation]; [| | |easy].
  - apply returns_try; [exact Hl|]. intros a. destruct (aff_is_zero a); [exact Hr|]. apply returns_try; [exact Hr|]. intros b.
    destruct (aff_is_zero b); apply returns_ret.
  - apply returns_try; [exact Hl|]. intros a. apply returns_try; [exact Hr|]. intros b. apply returns_ret.
  - apply returns_bind; [exact Hl|]. intros [a|err].
    + destruct (aff_is_zero a); [apply returns_ret|]. destruct (aff_is_one a); [exact Hr|]. apply returns_try; [exact Hr|]. intros b. apply returns_ret.
    + apply returns_bind; [exact Hr|]. intros b. apply returns_ret.
Qed.

Lemma returns_pow left n : returns left -> returns (evaluate_binary_operation (T:=T) APow left (mret (inl (Constant n)))).
Proof. intros Hl. apply returns_try; [exact Hl|]. intros a s. now eexists. Qed.

Lemma evaluate_returns fuel : forall e, well_defined defs e = true -> answered e -> (forall r, In r (intermediates e) -> (rank r < fuel)%nat) ->
  returns (evaluate variables defs fuel e).
Proof.
  induction fuel as [|fuel IHf]; intros e; induction e as [r|p|ch|n|e1 IH1 op e2 IH2|op e1 IH1]; intros Hwd Ha Hr; cbn [evaluate].
  all: try apply returns_ret.
  all: try (apply returns_lift; exact Ha).
  all: try (cbn [well_defined] in Hwd; apply andb_prop in Hwd as [Hwd Hop]; apply andb_prop in Hwd as [Hw1 Hw2]; destruct Ha as [Ha1 Ha2];
    cbn [intermediates] in Hr; destruct op; try (apply returns_binary; [discriminate|apply IH1|apply IH2]; auto using in_or_app; fail);
    destruct e2; try discriminate; apply returns_pow, IH1; auto using in_or_app; fail).
  all: try (apply returns_try; [now apply IH1|]; intros a; apply returns_ret).
  all: cbn [well_defined intermediates answered] in Hwd, Hr, Ha; destruct (ptype (ref_poly_id r)) eqn:Ept;
    [apply returns_lift, Ha; discriminate..|].
  all: apply returns_bind; [intros s; now eexists|]; intros [res|]; [apply returns_ret|].
  all: specialize (Hr _ (or_introl eq_refl)); try lia.
  apply bool_decide_eq_true in Hwd as [d Ed]. rewrite Ed. intros s. cbn.
  apply (returns_bind (evaluate variables defs fuel d)); [|intros res' s'; now eexists].
  apply IHf; [exact (Hdefs _ _ Ed)|exact (Hanswered _ _ Ed)|]. intros r' Hin. pose proof (Hacyclic _ _ _ Ed Hin). lia.
Qed.

End Termination.

(** The symbolic evaluator never panics. *)
Lemma symbolic_answered {T} `{FieldElement T} (e : AlgebraicExpression T) : answered SymbolicEvaluator e.
Proof.
  induction e as [r|p|ch|n|e1 IH1 op e2 IH2|op e1 IH1]; cbn; auto; try now eexists. destruct (ptype (ref_poly_id r)); try easy; now eexists.
Qed.

(** ** References to the next row, [ast/src/analyzed/contains_next_ref.rs] *)

Section NextReferences.
Context {T : Type}.
Variable intermediate_definitions : gmap AlgebraicReferenceThin (AlgebraicExpression T).

(** [any] on an iterator stops at the first that holds. *)
Definition any_of (first others : M (gmap AlgebraicReferenceThin bool) bool) : M (gmap AlgebraicReferenceThin bool) bool :=
  b ← first; (if b : bool then mret true else others).

Fixpoint contains_next_ref_with_intermediates (fuel : nat) : AlgebraicExpression T -> M (gmap AlgebraicReferenceThin bool) bool :=
  fix go (e : AlgebraicExpression T) {struct e} : M (gmap AlgebraicReferenceThin bool) bool :=
    match e with
    | AReference reference =>
      if ref_next reference then mret true
      else
        match ptype (ref_poly_id reference) with
        | IntermediatePoly =>
          let reference := to_thin reference in
          cached ← gets (fun c : gmap AlgebraicReferenceThin bool => c !! reference);
          match cached with
          | Some b => mret b
          | None =>
            match fuel with
            | O => panic
            | S fuel' =>
              definition ← lift (intermediate_definitions !! reference);
              result ← contains_next_ref_with_intermediates fuel' definition;
              modify (fun c : gmap AlgebraicReferenceThin bool => <[reference := result]> c);;
              mret result
            end
          end
        | _ => mret false
        end
    | ABinaryOperation e1 _ e2 => any_of (go e1) (go e2)
    | AUnaryOperation _ e1 => go e1
    | _ => mret false
    end.

Definition contains_next_ref (fuel : nat) (e : AlgebraicExpression T) : option bool :=
  fst <$> contains_next_ref_with_intermediates fuel e ∅.

(** All variables that the expression depends on, through definitions too, satisfy [leaf]. *)
Inductive within (leaf : AlgebraicVariable -> Prop) : AlgebraicExpression T -> Prop :=
| within_column r : leaf (ColumnVar (to_thin r)) -> ptype (ref_poly_id r) <> IntermediatePoly -> within leaf (AReference r)
| within_intermediate r d : leaf (ColumnVar (to_thin r)) -> ptype (ref_poly_id r) = IntermediatePoly ->
    intermediate_definitions !! to_thin r = Some d -> within leaf d -> within leaf (AReference r)
| within_public p : leaf (PublicVar p) -> within leaf (APublicReference p)
| within_challenge ch : within leaf (AChallenge ch)
| within_number n : within leaf (ANumber n)
| within_binary e1 op e2 : within leaf e1 -> within leaf e2 -> within leaf (ABinaryOperation e1 op e2)
| within_unary op e1 : within leaf e1 -> within leaf (AUnaryOperation op e1).

(** The set of variables that belongs to it: closed under definitions. *)
Definition closure (leaf : AlgebraicVariable -> Prop) (v : AlgebraicVariable) : Prop :=
  leaf v /\ forall r d, v = ColumnVar r -> intermediate_definitions !! r = Some d -> ptype (thin_poly_id r) = IntermediatePoly -> within leaf d.

Lemma within_covered leaf e : within leaf e -> Forall (closure leaf) (variables_of e).
Proof.
  induction 1; cbn [variables_of]; try (constructor; [|constructor]); try constructor; try (apply Forall_app; split; assumption); try assumption; try discriminate.
  - intros r' d [= <-] _ Hp. contradiction.
  - intros r' d' [= <-] Hd _. congruence.
Qed.

Definition not_next (v : AlgebraicVariable) : Prop := match v with ColumnVar r => thin_next r = false | PublicVar _ => True end.

Lemma contains_next_ref_false fuel : forall e c,
  (forall r, c !! r = Some false -> exists d, intermediate_definitions !! r = Some d /\ within not_next d) ->
  wp (contains_next_ref_with_intermediates fuel e)
    (fun b c' => (b = false -> within not_next e) /\ forall r, c' !! r = Some false -> exists d, intermediate_definitions !! r = Some d /\ within not_next d) c.
Proof.
  induction fuel as [|fuel IHf]; intros e; induction e as [r|p|ch|n|e1 IH1 op e2 IH2|op e1 IH1]; intros c Hc; cbn [contains_next_ref_with_intermediates].
  all: try (apply wp_ret; split; [intros _; constructor; exact I|exact Hc]).
  all: try (apply wp_ret; split; [intros _; constructor|exact Hc]).
  all: try (apply wp_bind; eapply wp_conseq; [exact (IH1 c Hc)|]; intros [] c' [H1 Hc']; [apply wp_ret; split; [discriminate|exact Hc']|];
    eapply wp_conseq; [exact (IH2 c' Hc')|]; intros b c'' [H2 Hc'']; split; [|exact Hc'']; intros E; constructor; auto).
  all: try (eapply wp_conseq; [exact (IH1 c Hc)|]; intros b c' [H1 Hc']; split; [|exact Hc']; intros E; constructor; auto).
  all: destruct (ref_next r) eqn:En; [apply wp_ret; split; [discriminate|exact Hc]|].
  all: destruct (ptype (ref_poly_id r)) eqn:Ept; [apply wp_ret; split; [intros _; constructor; [exact En|congruence]|exact Hc]..|].
  all: apply wp_bind, wp_gets; destruct (c !! to_thin r) as [b|] eqn:Ec;
    [apply wp_ret; split; [intros ->; destruct (Hc _ Ec) as (d & Hd & Hw); now apply (within_intermediate _ r d)|exact Hc]|].
  { apply wp_panic. }
  apply wp_bind, wp_lift. intros d Ed. apply wp_bind. eapply wp_conseq; [exact (IHf d c Hc)|]. intros b c' [Hb Hc'].
  apply wp_bind, wp_modify, wp_ret. split; [intros ->; apply (within_intermediate _ r d); auto|]. intros r'. destruct (decide (r' = to_thin r)) as [->|Hne].
  - rewrite lookup_insert_eq. intros [= ->]. eauto.
  - rewrite lookup_insert_ne by congruence. apply Hc'.
Qed.

Lemma contains_next_ref_spec fuel e : contains_next_ref fuel e = Some false -> within not_next e.
Proof.
  unfold contains_next_ref. destruct (contains_next_ref_with_intermediates fuel e ∅) as [[b c]|] eqn:E; [|discriminate]. cbn. intros [= ->].
  refine (proj1 (contains_next_ref_false fuel e ∅ _ _ _ E) eq_refl). intros r. now rewrite lookup_empty.
Qed.

Lemma contains_next_ref_returns rank fuel : acyclic intermediate_definitions rank ->
  (forall r d, intermediate_definitions !! r = Some d -> well_defined intermediate_definitions d = true) ->
  forall e, well_defined intermediate_definitions e = true -> (forall r, In r (intermediates e) -> (rank r < fuel)%nat) ->
  returns (contains_next_ref_with_intermediates fuel e).
Proof.
  intros Hacyclic Hdefs. induction fuel as [|fuel IHf]; intros e; induction e as [r|p|ch|n|e1 IH1 op e2 IH2|op e1 IH1]; intros Hwd Hr;
    cbn [contains_next_ref_with_intermediates].
  all: try apply returns_ret.
  all: try (cbn [well_defined intermediates] in Hwd, Hr; apply andb_prop in Hwd as [Hwd _]; apply andb_prop in Hwd as [Hw1 Hw2];
    apply returns_bind; [apply IH1; auto using in_or_app|]; intros []; [apply returns_ret|]; apply IH2; auto using in_or_app; fail).
  all: try now apply IH1.
  all: cbn [well_defined intermediates] in Hwd, Hr; destruct (ref_next r); [apply returns_ret|]; destruct (ptype (ref_poly_id r)); try apply returns_ret.
  all: apply returns_bind; [intros s; now eexists|]; intros [b|]; [apply returns_ret|]; specialize (Hr _ (or_introl eq_refl)); try lia.
  apply bool_decide_eq_true in Hwd as [d Ed]. rewrite Ed. intros s. cbn.
  apply (returns_bind (contains_next_ref_with_intermediates fuel d)); [|intros res' s'; now eexists].
  apply IHf; [exact (Hdefs _ _ Ed)|]. intros r' Hin. pose proof (Hacyclic _ _ _ Ed Hin). lia.
Qed.

End NextReferences.
