(* ===== verification/Identities.v ===== *)
(** * Identities of witness generation, [executor/src/witgen/data_structures/identity.rs]

    Lookups, permutations and bus interactions of the analyzed program become sends and
    receives, matched by the number of their bus. *)

From stdpp Require Import base list option gmap strings.
From Stdlib Require Import ZArith Lia.
From S2P Require Import Prelude Field PanicMonad SymbolicExpr Effect ExpressionEvaluator WriteOnceMemory BusAccumulator.

(** ** Equality of expressions *)

Definition reference_eqb (a b : AlgebraicReference) : bool := bool_decide (to_thin a = to_thin b).
Definition challenge_eqb (a b : Challenge) : bool := (challenge_id a =? challenge_id b) && (challenge_stage a =? challenge_stage b).
Definition operator_eqb (a b : AlgebraicBinaryOperator) : bool :=
  match a, b with AAdd, AAdd | ASub, ASub | AMul, AMul | APow, APow => true | _, _ => false end.

(** The derived equality; references are compared without their names. *)
Fixpoint expression_eqb {T} `{FieldElement T} (a b : AlgebraicExpression T) : bool :=
  match a, b with
  | AReference r, AReference s => reference_eqb r s
  | APublicReference p, APublicReference q => String.eqb p q
  | AChallenge c, AChallenge d => challenge_eqb c d
  | ANumber n, ANumber m => f_eqb n m
  | ABinaryOperation a1 o a2, ABinaryOperation b1 o' b2 => expression_eqb a1 b1 && operator_eqb o o' && expression_eqb a2 b2
  | AUnaryOperation AMinus a1, AUnaryOperation AMinus b1 => expression_eqb a1 b1
  | _, _ => false
  end.

(** [num_traits::One] *)
Definition expression_is_one {T} `{FieldElement T} (e : AlgebraicExpression T) : bool := expression_eqb e (ANumber f_one).

(** ** Analyzed identities, [ast/src/analyzed/mod.rs] *)

(** Without the source references. *)
Inductive AnalyzedIdentity (T : Type) :=
| AnPolynomial (id : Z) (expression : AlgebraicExpression T)
| AnLookup (id : Z) (left right : SelectedExpressions T)
| AnPhantomLookup (id : Z) (left right : SelectedExpressions T) (multiplicity : AlgebraicExpression T)
| AnPermutation (id : Z) (left right : SelectedExpressions T)
| AnPhantomPermutation (id : Z) (left right : SelectedExpressions T)
| AnConnect (id : Z) (left right : list (AlgebraicExpression T))
| AnPhantomBusInteraction (interaction : PhantomBusInteractionIdentity T).
Arguments AnPolynomial {T}.
Arguments AnLookup {T}.
Arguments AnPhantomLookup {T}.
Arguments AnPermutation {T}.
Arguments AnPhantomPermutation {T}.
Arguments AnConnect {T}.
Arguments AnPhantomBusInteraction {T}.

(** ** Sends and receives *)

Record BusSend (T : Type) := mkBusSend {
  send_identity_id : Z;
  send_bus_id : AlgebraicExpression T;
  send_payload : SelectedExpressions T
}.
Arguments mkBusSend {T}.
Arguments send_identity_id {T}.
Arguments send_bus_id {T}.
Arguments send_payload {T}.

Record BusReceive (T : Type) := mkBusReceive {
  receive_bus_id : T;
  receive_payload : SelectedExpressions T;
  receive_multiplicity : option (AlgebraicExpression T)
}.
Arguments mkBusReceive {T}.
Arguments receive_bus_id {T}.
Arguments receive_payload {T}.
Arguments receive_multiplicity {T}.

Inductive Identity (T : Type) :=
| IdPolynomial (id : Z) (expression : AlgebraicExpression T)
| IdConnect (id : Z) (left right : list (AlgebraicExpression T))
| IdBusSend (send : BusSend T).
Arguments IdPolynomial {T}.
Arguments IdConnect {T}.
Arguments IdBusSend {T}.

Definition identity_id {T} (i : Identity T) : Z :=
  match i with IdPolynomial id _ => id | IdConnect id _ _ => id | IdBusSend send => send_identity_id send end.

(** [children]: the expressions of an identity. *)
Definition payload_children {T} (s : SelectedExpressions T) : list (AlgebraicExpression T) := selector s :: expressions s.
Definition identity_children {T} (i : Identity T) : list (AlgebraicExpression T) :=
  match i with
  | IdPolynomial _ e => [e]
  | IdConnect _ l r => l ++ r
  | IdBusSend send => payload_children (send_payload send)
  end.
Definition receive_children {T} (r : BusReceive T) : list (AlgebraicExpression T) :=
  payload_children (receive_payload r) ++ match receive_multiplicity r with Some m => [m] | None => [] end.

Section Buses.
Context {T : Type} `{FieldElement T}.

(** Receives by the number of their bus: a [BTreeMap] with field elements as keys. *)
Definition bus_id_of (send : BusSend T) : option T := match send_bus_id send with ANumber id => Some id | _ => None end.

(** The outer option is the panic. *)
Definition try_match_static (receives : gmap Z (BusReceive T)) (send : BusSend T) : option (option (BusReceive T)) :=
  match bus_id_of send with
  | None => Some None
  | Some bus_id => receive ← receives !! to_integer bus_id; Some (Some receive)
  end.

Definition has_arbitrary_multiplicity (r : BusReceive T) : bool :=
  match receive_multiplicity r with
  | Some m => negb (expression_eqb m (selector (receive_payload r)))
  | None => true
  end.

(** ** Conversion *)

Inductive IdentityOrReceive :=
| AnIdentity (i : Identity T)
| AReceive (r : BusReceive T).

(** [to_degree] panics on elements that do not fit. *)
Definition to_degree (x : T) : option Z := _ ← assert_that (to_integer x <? 2 ^ 64); Some (to_integer x).

(** [From<u64>], used below the modulus, where it agrees with the conversion of integers. *)
Definition from_u64 (z : Z) : T := from_integer z.

Definition static_bus_id (i : AnalyzedIdentity T) : option T :=
  match i with
  | AnPhantomBusInteraction b => match bus_id b with ANumber id => Some id | _ => None end
  | _ => None
  end.

Fixpoint filter_map {A B} (f : A -> option B) (l : list A) : list B :=
  match l with
  | [] => []
  | x :: l' => match f x with Some y => y :: filter_map f l' | None => filter_map f l' end
  end.

(** The first number of the range of new bus numbers. *)
Definition bus_id_counter (identities : list (AnalyzedIdentity T)) : option Z :=
  let max_bus_id := foldl f_max f_zero (filter_map static_bus_id identities) in
  d ← to_degree max_bus_id; checked_add 64 d 1.

(** [next] of the range. *)
Definition next_bus_id : M Z Z :=
  n ← gets (fun n : Z => n); n' ← lift (checked_add 64 n 1); modify (fun _ => n');; mret n.

Definition bus_interaction_pair (id : Z) (left right : SelectedExpressions T) (rhs_multiplicity : option (AlgebraicExpression T)) : M Z (list IdentityOrReceive) :=
  n ← next_bus_id;
  let bus_id := from_u64 n in
  mret [AnIdentity (IdBusSend (mkBusSend id (ANumber bus_id) left)); AReceive (mkBusReceive bus_id right rhs_multiplicity)].

(** Receives have a minus sign in their multiplicity. *)
Definition convert_phantom_bus_interaction (b : PhantomBusInteractionIdentity T) : option IdentityOrReceive :=
  let '(is_receive, m) := match multiplicity b with AUnaryOperation AMinus e => (true, e) | e => (false, e) end in
  match bus_id b with
  | ANumber id =>
    let selected_payload := mkSelectedExpressions (latch b) (payload b) in
    if is_receive : bool then Some (AReceive (mkBusReceive id selected_payload (Some m)))
    else
      _ ← assert_that (expression_eqb m (latch b));
      Some (AnIdentity (IdBusSend (mkBusSend (interaction_id b) (ANumber id) selected_payload)))
  | _ => None
  end.

Definition convert_identity (i : AnalyzedIdentity T) : M Z (list IdentityOrReceive) :=
  match i with
  | AnPolynomial id e => mret [AnIdentity (IdPolynomial id e)]
  | AnConnect id l r => mret [AnIdentity (IdConnect id l r)]
  | AnPhantomBusInteraction b => c ← lift (convert_phantom_bus_interaction b); mret [c]
  | AnPermutation id l r | AnPhantomPermutation id l r => bus_interaction_pair id l r (Some (selector r))
  | AnLookup id l r => bus_interaction_pair id l r None
  | AnPhantomLookup id l r m => bus_interaction_pair id l r (Some m)
  end.

Definition identities_of (l : list IdentityOrReceive) : list (Identity T) := filter_map (fun x => match x with AnIdentity i => Some i | _ => None end) l.
Definition receives_of (l : list IdentityOrReceive) : list (BusReceive T) := filter_map (fun x => match x with AReceive r => Some r | _ => None end) l.

(** The numbers of the receives must differ. *)
Definition convert_identities (identities : list (AnalyzedIdentity T)) : option (list (Identity T) * gmap Z (BusReceive T)) :=
  start ← bus_id_counter identities;
  r ← map_collect convert_identity identities start;
  let converted := concat (fst r) in
  let receives := receives_of converted in
  _ ← assert_that (bool_decide (NoDup (map (fun r => to_integer (receive_bus_id r)) receives)));
  Some (identities_of converted, list_to_map (map (fun r => (to_integer (receive_bus_id r), r)) receives)).

End Buses.
