(* ===== verification/SolverRanges.v ===== *)
(** * Range constraints and variables in the answers of the affine solver

    Every variable the solver answers about occurs in the expression, and the range constraints
    it returns, as opposed to assignments, hold without any condition on wrapping: they come from
    the transfer of constraints alone. *)

From stdpp Require Import base list option.
From Stdlib Require Import ZArith Lia.
From S2P Require Import Prelude Field RangeConstraints EvalResult AffineExpression AffineSolver PartialEvaluator.

Section Answers.
Context {K T : Type} `{OL : OrdLaws K} `{FL : FieldLaws T} `{DK : Display K} `{DT : Display T}.
Implicit Types (e : AffineExpression K T) (known : K -> option (RangeConstraint T)).
Variable Q : K -> Prop.

(** What a result says about variables with [Q], by assignments only. *)
Definition assigns_only (l : list (K * Constraint T)) : Prop :=
  Forall (fun kc => Q (fst kc) /\ exists v, snd kc = Assignment v) l.

Definition result_of (P : list (K * Constraint T) -> Prop) (r : EvalResult K T) : Prop :=
  match r with inl v => P (ev_constraints v) | inr _ => True end.

Lemma solve_one_answers v c o r : Q v -> solve_one v c o = Some r -> result_of assigns_only r.
Proof.
  intros Hv. unfold solve_one. destruct (if f_is_one c then _ else _) as [x|]; [|discriminate]. intros [= <-]. cbn.
  constructor; [|constructor]. cbn. eauto.
Qed.

Lemma solve_answers e r : keys Q e -> solve e = Some r -> result_of assigns_only r.
Proof.
  unfold keys. intros Hk. destruct e as [o|[v c] o|[|[v c] [|]] o]; cbn [solve nonzero_coefficients] in *.
  - destruct (f_is_zero o); intros [= <-]; constructor.
  - intros Hs. inversion Hk; subst. now apply (solve_one_answers v c o).
  - intros [= <-]. constructor.
  - intros Hs. inversion Hk; subst. now apply (solve_one_answers v c o).
  - intros [= <-]. constructor.
Qed.

Lemma division_answers e known r : keys Q e -> try_solve_division e known = Some (Some r) -> result_of assigns_only r.
Proof.
  unfold keys. destruct e as [|[]|[|[k1 c1] [|[k2 c2] [|]]] o]; cbn [try_solve_division nonzero_coefficients]; try discriminate.
  intros Hk. inversion Hk as [|? ? H1 Hk']; subst. inversion Hk' as [|? ? H2 _]; subst. cbn [fst snd] in *.
  destruct (negb (f_is_one c1) && negb (f_is_one c2)); [discriminate|].
  destruct (if f_is_one c1 then (f_neg o, c2, k2, k1) else (f_neg o, c1, k1, k2)) as [[[dividend divisor] quotient] remainder] eqn:E.
  assert (Q quotient /\ Q remainder) as [Hq Hr] by (revert E; destruct (f_is_one c1); intros [= <- <- <- <-]; auto). clear E.
  destruct (known remainder) as [rem_rc|]; [|discriminate]. destruct (rc_range rem_rc) as [rl ru]. destruct (f_ltb ru rl || f_leb divisor ru); [discriminate|].
  destruct (known quotient) as [quo_rc|]; [|discriminate]. destruct (rc_range quo_rc) as [ql qu]. cbv zeta.
  destruct (f_ltb qu ql || _); [discriminate|]. destruct (assert_that _); [|discriminate]. cbn [mbind option_bind].
  destruct (from_biguint (T:=T) (_ / _)) as [qv|]; [|discriminate]. cbn [mbind option_bind].
  destruct (from_biguint (T:=T) (_ mod _)) as [rv|]; [|discriminate]. cbn [mbind option_bind].
  match goal with |- context [if ?b then _ else _] => destruct b end; intros [= <-]; [exact I|]. cbn. repeat constructor; cbn; eauto.
Qed.

Lemma assign_masked_answers ts : forall st o, Forall (fun t => Q (fst (fst t))) ts -> assigns_only (ev_constraints (assignments st)) ->
  assign_masked ts st = Some o ->
  match o with inl st' => assigns_only (ev_constraints (assignments st')) | inr r => result_of assigns_only r end.
Proof.
  induction ts as [|[[i c] rc] ts IH]; intros st o Ht Hst; cbn [assign_masked]; [now intros [= <-]|].
  destruct (rc_multiple rc c) as [m|]; [|discriminate]. cbn [mbind option_bind]. destruct (negb _); [intros [= <-]; constructor|].
  destruct (assert_that _); [|discriminate]. cbn [mbind option_bind]. destruct (from_biguint (T:=T) _) as [v|]; [|discriminate]. cbn [mbind option_bind].
  inversion Ht; subst. intros Ho. eapply IH; [eassumption| |exact Ho]. cbn. apply Forall_app. split; [exact Hst|]. repeat constructor; cbn; eauto.
Qed.

Lemma partition_constrained_keys known (l : list (K * T)) : Forall (fun kc => Q (fst kc)) l ->
  Forall (fun t => Q (fst (fst t))) (fst (partition_constrained known l)).
Proof.
  induction l as [|[i c] l IH]; cbn; [constructor|]. intros Hl. inversion Hl; subst. specialize (IH ltac:(assumption)).
  destruct (partition_constrained known l) as [cs us]. destruct (known i); cbn; auto.
Qed.

Lemma through_constraints_answers e known r : keys Q e -> try_solve_through_constraints e known = Some r -> result_of assigns_only r.
Proof.
  intros Hk. unfold try_solve_through_constraints. pose proof (partition_constrained_keys known _ Hk) as Hp.
  destruct (partition_constrained known (nonzero_coefficients e)) as [cs [|u us]]; [|intros [= <-]; constructor]. cbn [fst] in Hp.
  destruct (assign_masked cs _) as [o|] eqn:E; [|discriminate]. cbn [mbind option_bind].
  apply assign_masked_answers in E; [|exact Hp|constructor]. destruct o as [st|r0]; [|intros [= <-]; exact E].
  destruct (modulus <=? _); [intros [= <-]; constructor|]. destruct (negb _); intros [= <-]; [exact I|exact E].
Qed.

Lemma transfer_key e known k c : keys Q e -> try_transfer_constraints e known = Some (Some (k, c)) -> Q k.
Proof.
  unfold keys. intros Hk. unfold try_transfer_constraints. destruct (List.filter _ (nonzero_coefficients e)) as [|first others] eqn:Ef; [discriminate|].
  pose proof (max_by_key_in (fun kc => least_constrained known (fst kc)) others first) as Hin. rewrite <- Ef in Hin.
  destruct (max_by_key _ first others) as [sf coeff]. apply List.filter_In in Hin as [Hin _].
  rewrite List.Forall_forall in Hk. specialize (Hk _ Hin). cbn in Hk.
  destruct (collect_summands _ _) as [[rest|]|]; cbn [mbind option_bind]; try discriminate.
  destruct (rest ++ _) as [|s summands]; [discriminate|]. destruct (reduce_sum s summands) as [con|]; [|discriminate]. cbn [mbind option_bind].
  destruct (if f_is_one coeff then _ else _) as [con'|]; [|discriminate]. cbn [mbind option_bind].
  destruct (known sf) as [prev|]; [|now intros [= <- _]]. destruct (rc_conjunction prev con'); [|discriminate]. cbn [mbind option_bind].
  destruct (rc_eqb _ _); [discriminate|now intros [= <- _]].
Qed.

(** A range constraint that holds in every solution. *)
Definition range_entailed known e (kc : K * Constraint T) : Prop :=
  Q (fst kc) /\ exists c, snd kc = RangeConstraintC c /\ rc_wf c /\
    forall env, known_hold known env -> aff_zero e env -> rc_allows c (env (fst kc)).

Lemma range_entailed_intro known e k c : Q k -> rc_wf c -> (forall env, known_hold known env -> aff_zero e env -> rc_allows c (env k)) ->
  range_entailed known e (k, RangeConstraintC c).
Proof. intros Hq Hw Hs. split; [exact Hq|]. exists c. auto. Qed.

Lemma transfer_both_answers e known : aff_proper e -> keys Q e -> known_wf known ->
  exists v, transfer_both e (aff_neg e) known = Some (inl v) /\ Forall (range_entailed known e) (ev_constraints v).
Proof.
  intros Hp Hk Hwf. unfold transfer_both. pose proof (aff_neg_keys Q e Hk) as Hkn.
  destruct (try_transfer_constraints_spec e known Hp Hwf) as (a & Ha & Ha'). rewrite Ha.
  destruct (try_transfer_constraints_spec _ known (aff_neg_proper e Hp) Hwf) as (b & Hb & Hb'). rewrite Hb. cbn [mbind option_bind].
  assert (Hka : forall k c, a = Some (k, c) -> Q k) by (intros k c ->; now apply (transfer_key e known k c)).
  assert (Hkb : forall k c, b = Some (k, c) -> Q k) by (intros k c ->; now apply (transfer_key (aff_neg e) known k c)).
  assert (Hbn : forall k c, b = Some (k, c) -> rc_wf c /\ forall env, known_hold known env -> aff_zero e env -> rc_allows c (env k)).
  { intros k c Hbc. destruct (Hb' k c Hbc) as [Hw Hs]. split; [exact Hw|]. intros env Hkn' Hz. apply Hs; [exact Hkn'|]. now apply aff_zero_neg. }
  clear Ha Hb Hb'.
  assert (Hj : exists l, join_transferred a b = Some l /\ Forall (fun pc => range_entailed known e (fst pc, RangeConstraintC (snd pc))) l).
  { destruct a as [[p1 c1]|], b as [[p2 c2]|]; cbn [join_transferred].
    - destruct (Ha' _ _ eq_refl) as [Hw1 Hs1], (Hbn _ _ eq_refl) as [Hw2 Hs2]. pose proof (Hka _ _ eq_refl). pose proof (Hkb _ _ eq_refl).
      destruct (k_eqb_spec p1 p2) as [<-|Hne].
      + destruct (rc_conjunction_sound c1 c2 Hw1 Hw2) as (c & -> & Hw & Hs). eexists. split; [reflexivity|]. constructor; [|constructor].
        apply range_entailed_intro; auto.
      + eexists. split; [reflexivity|]. auto using range_entailed_intro.
    - destruct (Ha' _ _ eq_refl) as [Hw1 Hs1]. pose proof (Hka _ _ eq_refl). eexists. split; [reflexivity|]. auto using range_entailed_intro.
    - destruct (Hbn _ _ eq_refl) as [Hw2 Hs2]. pose proof (Hkb _ _ eq_refl). eexists. split; [reflexivity|]. auto using range_entailed_intro.
    - eexists. split; [reflexivity|]. constructor. }
  destruct Hj as (l & -> & Hl). eexists. split; [reflexivity|]. rewrite <- List.Forall_map in Hl. destruct (map _ l); [constructor|exact Hl].
Qed.

(** An answer: an assignment or a range constraint that is entailed. *)
Definition answer_ok known e (kc : K * Constraint T) : Prop :=
  Q (fst kc) /\ forall c, snd kc = RangeConstraintC c ->
    rc_wf c /\ forall env, known_hold known env -> aff_zero e env -> rc_allows c (env (fst kc)).

Lemma assigns_only_ok known e l : assigns_only l -> Forall (answer_ok known e) l.
Proof. apply List.Forall_impl. intros [k c] [Hq [v Hv]]. split; [exact Hq|]. cbn in *. subst. discriminate. Qed.

Lemma return_unless_empty_answers known e r k : result_of assigns_only r ->
  (exists r', k = Some r' /\ result_of (Forall (answer_ok known e)) r') ->
  exists r', return_unless_empty r k = Some r' /\ result_of (Forall (answer_ok known e)) r'.
Proof.
  intros Hr Hk. destruct r as [v|err]; cbn [return_unless_empty]; [|eexists; split; [reflexivity|exact I]].
  destruct (negb _); [|exact Hk]. eexists. split; [reflexivity|]. now apply assigns_only_ok.
Qed.

Lemma return_division_answers known e o k : (forall r, o = Some r -> result_of assigns_only r) ->
  (exists r', k = Some r' /\ result_of (Forall (answer_ok known e)) r') ->
  exists r', return_division o k = Some r' /\ result_of (Forall (answer_ok known e)) r'.
Proof. destruct o as [r|]; cbn [return_division]; [|auto]. intros Ho. apply return_unless_empty_answers. now apply Ho. Qed.

Lemma solver_answers e known : aff_proper e -> keys Q e -> known_wf known ->
  exists r, solve_with_range_constraints e known = Some r /\ result_of (Forall (answer_ok known e)) r.
Proof.
  intros Hp Hk Hwf. pose proof (aff_neg_proper e Hp) as Hpn. pose proof (aff_neg_keys Q e Hk) as Hkn. unfold solve_with_range_constraints.
  destruct (solve_spec e Hp) as (value & Hs & Hv). rewrite Hs. cbn [mbind option_bind]. apply solve_answers in Hs; [|exact Hk].
  destruct value as [value|err]; [|eexists; split; [reflexivity|exact I]].
  destruct (ev_is_complete value); [eexists; split; [reflexivity|now apply assigns_only_ok]|]. subst value.
  cbn [ev_is_empty ev_incomplete ev_new ev_constraints assert_that mbind option_bind].
  destruct (try_solve_division_spec e known Hp) as (d1 & Hd1 & _). rewrite Hd1. cbn [mbind option_bind].
  apply return_division_answers; [intros r ->; now apply (division_answers e known)|].
  destruct (try_solve_division_spec _ known Hpn) as (d2 & Hd2 & _). rewrite Hd2. cbn [mbind option_bind].
  apply return_division_answers; [intros r ->; now apply (division_answers (aff_neg e) known)|].
  destruct (try_solve_through_constraints_spec e known Hp Hwf) as (r1 & Hr1 & _). rewrite Hr1. cbn [mbind option_bind].
  apply return_unless_empty_answers; [now apply (through_constraints_answers e known)|].
  destruct (try_solve_through_constraints_spec _ known Hpn Hwf) as (r2 & Hr2 & _). rewrite Hr2. cbn [mbind option_bind].
  apply return_unless_empty_answers; [now apply (through_constraints_answers (aff_neg e) known)|].
  destruct (transfer_both_answers e known Hp Hk Hwf) as (v & -> & Hv'). eexists. split; [reflexivity|]. cbn.
  eapply List.Forall_impl; [|exact Hv']. intros [k c] [Hq (c' & Hc & Hw & He)]. split; [exact Hq|]. cbn in *. subst. intros ? [= <-]. auto.
Qed.

End Answers.
