(* ===== verification/GlobalConstraints.v ===== *)
(** * Global range constraints, [executor/src/witgen/global_constraints.rs]

    Before witness generation, range constraints that hold in all rows are derived from the fixed
    columns and the identities, and the identities that say nothing else are removed. *)

From stdpp Require Import base list option gmap strings.
From Stdlib Require Import ZArith Lia.
From S2P Require Import Prelude Field RangeConstraints EvalResult AffineExpression AffineSolver PanicMonad SymbolicExpr Effect ExpressionEvaluator WriteOnceMemory FixedColumns Identities PartialEvaluator.

Section Model.
Context {T : Type} `{FieldElement T} `{Display AlgebraicVariable} `{Display T}.

Notation constraints := (gmap PolyID (RangeConstraint T)).

(** ** Fixed columns *)

(** [(1..max_bits).find(...)]: the numbers of bits are tried in order. *)
Definition smallest_period_candidate (fixed : list T) : option Z :=
  match fixed with
  | [] => None
  | first :: _ =>
    if negb (f_eqb first f_zero) then None
    else
      let max_bits := Z.min BITS 64 in
      List.find (fun bit => f_eqb (List.last fixed first) (from_u64 (2 ^ bit - 1))) (map Z.of_nat (seq 1 (Z.to_nat (max_bits - 1))))
  end.

(** [iter().enumerate().all(...)] *)
Definition counts_with_mask (mask : Z) (fixed : list T) : bool :=
  forallb (fun iv => to_integer (snd iv) =? Z.land (Z.of_nat (fst iv)) mask) (zip (seq 0 (length fixed)) fixed).

Definition union_of_bits (fixed : list T) : Z := foldl (fun mask v => Z.lor mask (to_integer v)) 0 fixed.

(** The constraint, and whether every value it allows occurs. *)
Definition process_fixed_column (fixed : list T) : option (RangeConstraint T * bool) :=
  match smallest_period_candidate fixed with
  | Some bit =>
    let mask := 2 ^ bit - 1 in
    if counts_with_mask mask fixed then Some (rc_from_mask mask, true)
    else Some (rc_from_mask (union_of_bits fixed), false)
  | None => Some (rc_from_mask (union_of_bits fixed), false)
  end.

(** ** Propagation *)

Definition add_constraint (known_constraints : constraints) (p : PolyID) (constraint : RangeConstraint T) : option constraints :=
  match known_constraints !! p with
  | Some existing => c ← rc_conjunction existing constraint; Some (<[p := c]> known_constraints)
  | None => Some (<[p := constraint]> known_constraints)
  end.

Fixpoint add_constraints (l : list (PolyID * RangeConstraint T)) (known_constraints : constraints) : option constraints :=
  match l with
  | [] => Some known_constraints
  | (p, c) :: l' => known' ← add_constraint known_constraints p c; add_constraints l' known'
  end.

(** [SimpleRangeConstraintSet] asserts that the reference is not to the next row. The set is only
    asked for variables of an expression without such references ([no_next_variables]). *)
Definition simple_range_constraint (known_constraints : constraints) (v : AlgebraicVariable) : option (RangeConstraint T) :=
  match v with
  | ColumnVar r => if thin_next r then None else known_constraints !! thin_poly_id r
  | PublicVar _ => None
  end.

Variable intermediate_definitions : gmap AlgebraicReferenceThin (AlgebraicExpression T).

Definition symbolic (fuel : nat) (e : AlgebraicExpression T) : option (sum (AffineExpression AlgebraicVariable T) (IncompleteCause AlgebraicVariable)) :=
  evaluate_fresh SymbolicEvaluator intermediate_definitions fuel e.

(** The two factors are evaluated with one evaluator, and solved for zero. *)
Definition roots (fuel : nat) (l r : AlgebraicExpression T) : option (option (EvalValue AlgebraicVariable T * EvalValue AlgebraicVariable T)) :=
  left_result ← evaluate SymbolicEvaluator intermediate_definitions fuel l ∅;
  match fst left_result with
  | inr _ => Some None
  | inl l_aff =>
    left_root ← solve l_aff;
    match left_root with
    | inr _ => Some None
    | inl left_root =>
      right_result ← evaluate SymbolicEvaluator intermediate_definitions fuel r (snd left_result);
      match fst right_result with
      | inr _ => Some None
      | inl r_aff =>
        right_root ← solve r_aff;
        match right_root with inr _ => Some None | inl right_root => Some (Some (left_root, right_root)) end
      end
    end
  end.

(** "X * (1 - X) = 0", up to the order and the form of the factors, and a subtraction of zero. *)
Fixpoint is_binary_constraint (fuel : nat) (expr : AlgebraicExpression T) : option (option PolyID) :=
  match expr with
  | ABinaryOperation l ASub (ANumber n) => if f_is_zero n then is_binary_constraint fuel l else Some None
  | ABinaryOperation l AMul r =>
    rs ← roots fuel l r;
    match rs with
    | Some (left_root, right_root) =>
      match ev_constraints left_root, ev_constraints right_root with
      | [(ColumnVar id1, Assignment value1)], [(ColumnVar id2, Assignment value2)] =>
        if negb (bool_decide (id1 = id2)) || negb (bool_decide (ptype (thin_poly_id id2) = Committed)) then Some None
        else if (f_is_zero value1 && f_is_one value2) || (f_is_one value1 && f_is_zero value2)
        then Some (Some (thin_poly_id id1))
        else Some None
      | _, _ => Some None
      end
    | None => Some None
    end
  | _ => Some None
  end.

(** The constraints found by the solver: only range constraints count, a public panics. *)
Fixpoint column_constraints (l : list (AlgebraicVariable * Constraint T)) : option (list (PolyID * RangeConstraint T)) :=
  match l with
  | [] => Some []
  | (PublicVar _, _) :: _ => None
  | (ColumnVar r, RangeConstraintC c) :: l' =>
    _ ← assert_that (negb (thin_next r)); rest ← column_constraints l'; Some ((thin_poly_id r, c) :: rest)
  | (ColumnVar _, Assignment _) :: l' => column_constraints l'
  end.

Definition gc_try_transfer_constraints (fuel : nat) (expr : AlgebraicExpression T) (known_constraints : constraints)
  : option (list (PolyID * RangeConstraint T)) :=
  next ← contains_next_ref intermediate_definitions fuel expr;
  if next : bool then Some []
  else
    aff_expr ← symbolic fuel expr;
    match aff_expr with
    | inr _ => Some []
    | inl aff_expr =>
      result ← solve_with_range_constraints aff_expr (simple_range_constraint known_constraints);
      match result with
      | inr _ => Some []
      | inl result => column_constraints (ev_constraints result)
      end
    end.

(** From the right to the left, for pairs of columns. *)
Fixpoint transfer_payload (l : list (AlgebraicExpression T * AlgebraicExpression T)) (known_constraints : constraints) : option constraints :=
  match l with
  | [] => Some known_constraints
  | (left_, right_) :: l' =>
    match try_to_simple_poly left_, try_to_simple_poly right_ with
    | Some lp, Some rp =>
      match known_constraints !! ref_poly_id rp with
      | Some constraint => known' ← add_constraint known_constraints (ref_poly_id lp) constraint; transfer_payload l' known'
      | None => transfer_payload l' known_constraints
      end
    | _, _ => transfer_payload l' known_constraints
    end
  end.

(** [ x ] in [ RANGE ]; [expressions[0]] of an empty payload panics. *)
Definition is_range_check (full_span : gset PolyID) (send_exprs : list (AlgebraicExpression T)) (receive : BusReceive T) : option bool :=
  match expressions (receive_payload receive) with
  | [right_] =>
    if has_arbitrary_multiplicity receive && expression_is_one (selector (receive_payload receive)) then
      left_ ← head send_exprs;
      match try_to_simple_poly left_, try_to_simple_poly right_ with
      | Some _, Some right_ref => Some (bool_decide (ref_poly_id right_ref ∈ full_span))
      | _, _ => Some false
      end
    else Some false
  | _ => Some false
  end.

(** The new constraints, and whether the identity can be removed. *)
Definition propagate_constraints (fuel : nat) (known_constraints : constraints) (identity : Identity T) (full_span : gset PolyID)
  (bus_receives : gmap Z (BusReceive T)) : option (constraints * bool) :=
  match identity with
  | IdPolynomial _ e =>
    p ← is_binary_constraint fuel e;
    match p with
    | Some p =>
      bit ← rc_from_max_bit 0;
      known' ← add_constraint known_constraints p bit; Some (known', true)
    | None =>
      l ← gc_try_transfer_constraints fuel e known_constraints;
      known' ← add_constraints l known_constraints; Some (known', false)
    end
  | IdBusSend send =>
    matched ← try_match_static bus_receives send;
    receive ← matched;
    if negb (expression_is_one (selector (send_payload send))) then Some (known_constraints, false)
    else
      known' ← transfer_payload (zip (expressions (send_payload send)) (expressions (receive_payload receive))) known_constraints;
      remove ← is_range_check full_span (expressions (send_payload send)) receive;
      Some (known', remove)
  | IdConnect _ _ _ => Some (known_constraints, false)
  end.

Fixpoint propagate_all (fuel : nat) (known_constraints : constraints) (identities : list (Identity T)) (full_span : gset PolyID)
  (bus_receives : gmap Z (BusReceive T)) : option (constraints * list (Identity T)) :=
  match identities with
  | [] => Some (known_constraints, [])
  | identity :: identities' =>
    r ← propagate_constraints fuel known_constraints identity full_span bus_receives;
    rest ← propagate_all fuel (fst r) identities' full_span bus_receives;
    Some (fst rest, if snd r : bool then snd rest else identity :: snd rest)
  end.

End Model.

(** ** The whole pass *)

Record GlobalConstraints (T : Type) := mkGlobalConstraints {
  witness_constraints : ColumnMap (option (RangeConstraint T));
  fixed_constraints : ColumnMap (option (RangeConstraint T))
}.
Arguments mkGlobalConstraints {T}.
Arguments witness_constraints {T}.
Arguments fixed_constraints {T}.

(** The fields of [FixedData] that the pass reads and writes; of the witness columns, their number. *)
Record FixedData (T : Type) := mkFixedData {
  fd_identities : list (Identity T);
  fd_bus_receives : gmap Z (BusReceive T);
  fd_fixed_cols : ColumnMap (VariablySizedColumn T);
  fd_witness_cols : nat;
  fd_intermediate_definitions : gmap AlgebraicReferenceThin (AlgebraicExpression T);
  fd_global_range_constraints : GlobalConstraints T
}.
Arguments mkFixedData {T}.
Arguments fd_identities {T}.
Arguments fd_bus_receives {T}.
Arguments fd_fixed_cols {T}.
Arguments fd_witness_cols {T}.
Arguments fd_intermediate_definitions {T}.
Arguments fd_global_range_constraints {T}.

Section Pass.
Context {T : Type} `{FieldElement T} `{Display AlgebraicVariable} `{Display T}.

(** The value of [RangeConstraintSet::range_constraint] on the result. *)
Definition global_range_constraint (g : GlobalConstraints T) (id : AlgebraicReference) : option (option (RangeConstraint T)) :=
  _ ← assert_that (negb (ref_next id));
  match ptype (ref_poly_id id) with
  | ConstantPoly => cm_index (fixed_constraints g) (ref_poly_id id)
  | Committed => cm_index (witness_constraints g) (ref_poly_id id)
  | IntermediatePoly => Some None
  end.

(** The constraints of two sets, [CombinedRangeConstraintSet]. *)
Definition combined_range_constraint (c1 c2 : option (RangeConstraint T)) : option (option (RangeConstraint T)) :=
  match c1, c2 with
  | Some c1, Some c2 => c ← rc_conjunction c1 c2; Some (Some c)
  | Some c, None | None, Some c => Some (Some c)
  | None, None => Some None
  end.

Definition with_global_range_constraints (g : GlobalConstraints T) (fd : FixedData T) : option (FixedData T) :=
  _ ← assert_that (forallb (fun c => match c with None => true | Some _ => false end)
    (cm_values (witness_constraints (fd_global_range_constraints fd)) ++ cm_values (fixed_constraints (fd_global_range_constraints fd))));
  Some (mkFixedData (fd_identities fd) (fd_bus_receives fd) (fd_fixed_cols fd) (fd_witness_cols fd) (fd_intermediate_definitions fd) g).

Definition filter_identities (f : Identity T -> bool) (fd : FixedData T) : FixedData T :=
  mkFixedData (List.filter f (fd_identities fd)) (fd_bus_receives fd) (fd_fixed_cols fd) (fd_witness_cols fd) (fd_intermediate_definitions fd)
    (fd_global_range_constraints fd).

(** Constraints of the fixed columns, and the columns that span their range. *)
Fixpoint process_fixed_columns (cols : list (PolyID * VariablySizedColumn T)) : option (list (PolyID * RangeConstraint T) * gset PolyID) :=
  match cols with
  | [] => Some ([], ∅)
  | (p, col) :: cols' =>
    values ← values_max_size col;
    rest ← process_fixed_columns cols';
    match process_fixed_column values with
    | Some (cons_, full) => Some ((p, cons_) :: fst rest, if full : bool then {[p]} ∪ snd rest else snd rest)
    | None => Some rest
    end
  end.

(** The keys of a map differ, so that no column has two constraints. *)
Definition committed_constraints (known : gmap PolyID (RangeConstraint T)) : list (PolyID * option (RangeConstraint T)) :=
  map (fun pc => (fst pc, Some (snd pc))) (List.filter (fun pc => bool_decide (ptype (fst pc) = Committed)) (map_to_list known)).

Definition set_global_constraints (fuel : nat) (fd : FixedData T) : option (FixedData T) :=
  fixed ← process_fixed_columns (cm_iter (fd_fixed_cols fd));
  let '(fixed_known, full_span) := fixed in
  fixed_constraints ← cm_from_indexed ConstantPoly None (map (fun pc => (fst pc, Some (snd pc))) fixed_known) (cm_len (fd_fixed_cols fd));
  r ← propagate_all (fd_intermediate_definitions fd) fuel (list_to_map fixed_known) (fd_identities fd) full_span (fd_bus_receives fd);
  let '(known, retained) := r in
  witness_constraints ← cm_set_all (committed_constraints known) (cm_new Committed None (fd_witness_cols fd));
  let retained_ids := map identity_id retained in
  fd' ← with_global_range_constraints (mkGlobalConstraints witness_constraints fixed_constraints) fd;
  Some (filter_identities (fun i => bool_decide (identity_id i ∈ retained_ids)) fd').

End Pass.
