(* ===== verification/GlobalConstraintsSound.v ===== *)
(** * Correctness of the global range constraints

    Tables that satisfy identities, and what one step of the propagation does to the constraints:
    they hold in all these tables, and an identity that is removed follows from them. *)

From stdpp Require Import base list option gmap strings.
From Stdlib Require Import ZArith Lia.
From S2P Require Import Prelude Field RangeConstraints EvalResult AffineExpression AffineSolver PanicMonad SymbolicExpr Effect ExpressionEvaluator WriteOnceMemory FixedColumns Identities PartialEvaluator SolverRanges GlobalConstraints.

(** ** Tables *)

(** The value of each column in each row; rows are counted on both sides, columns are periodic. *)
Record Table (T : Type) := mkTable { cells : PolyID -> Z -> T; table_publics : string -> T; table_challenges : Z -> T }.
Arguments mkTable {T}.
Arguments cells {T}.
Arguments table_publics {T}.
Arguments table_challenges {T}.

Definition column (p : PolyID) : AlgebraicReference := mkAlgebraicReference EmptyString p false.

Section Tables.
Context {T : Type} `{FL : FieldLaws T} `{DV : Display AlgebraicVariable} `{DT : Display T}.
Variable defs : gmap AlgebraicReferenceThin (AlgebraicExpression T).
Variable rank : AlgebraicReferenceThin -> nat.
Variable t : Table T.

Definition row_terminals (row : Z) : TerminalAccess T := {|
  ta_get r := Some (cells t (ref_poly_id r) (row + b2z (ref_next r)));
  ta_get_public p := Some (table_publics t p);
  ta_get_challenge c := Some (table_challenges t (challenge_id c))
|}.

Definition row_intermediate (row : Z) : AlgebraicReferenceThin -> option T :=
  intermediate_value (row_terminals row) defs (fun x : T => x) rank.

(** The value of an expression in a row. *)
Definition value (row : Z) (e : AlgebraicExpression T) : option T := meaning (row_terminals row) (fun x : T => x) (row_intermediate row) e.

Definition row_env (row : Z) (v : AlgebraicVariable) : T :=
  match v with
  | ColumnVar r => default f_zero (value row (AReference (mkAlgebraicReference EmptyString (thin_poly_id r) (thin_next r))))
  | PublicVar p => table_publics t p
  end.

Lemma value_reference row r s : to_thin r = to_thin s -> value row (AReference r) = value row (AReference s).
Proof.
  destruct r as [n p x], s as [m q y]. unfold to_thin, value. cbn. intros [= -> ->]. reflexivity.
Qed.

Lemma value_column row p : ptype p <> IntermediatePoly -> value row (AReference (column p)) = Some (cells t p row).
Proof. intros Hp. unfold value. cbn. destruct (ptype p); [now rewrite Z.add_0_r..|contradiction]. Qed.

Lemma row_env_terminal row r : ptype (thin_poly_id r) <> IntermediatePoly ->
  row_env row (ColumnVar r) = cells t (thin_poly_id r) (row + b2z (thin_next r)).
Proof. intros Hp. unfold row_env, value. cbn. now destruct (ptype (thin_poly_id r)). Qed.

(** ** The symbolic evaluator *)

Definition terminal (v : AlgebraicVariable) : Prop := match v with ColumnVar r => ptype (thin_poly_id r) <> IntermediatePoly | PublicVar _ => True end.

Lemma variable_result row L v x : terminal v -> L v -> x = Some (row_env row v) ->
  result_ok (row_env row) (fun v => terminal v /\ L v) (inl (from_variable_id v)) x.
Proof.
  intros Ht Hv ->. unfold from_variable_id. cbn. split; [rewrite f_one_int; lia|]. split; [constructor; [now split|constructor]|].
  intros y [= <-]. unfold aff_val. cbn. rewrite f_one_int, f_zero_int. eqm_lia.
Qed.

Hypothesis Hacyclic : acyclic defs rank.

Lemma symbolic_access row L : (forall r d, ptype (thin_poly_id r) = IntermediatePoly -> L (ColumnVar r) -> defs !! r = Some d -> covered L d) ->
  AccessOk SymbolicEvaluator defs (row_terminals row) (row_env row) (row_intermediate row) L (fun v => terminal v /\ L v).
Proof.
  intros HL. split.
  - intros r res Hp Hr. cbn. destruct (ptype (ref_poly_id r)) eqn:E; [| |contradiction]; cbn; intros [= <-];
      (apply variable_result; [cbn; now rewrite E|exact Hr|]); rewrite row_env_terminal by (cbn; now rewrite E); reflexivity.
  - intros p res Hp. cbn. intros [= <-]. now apply variable_result.
  - intros ch res. cbn. intros [= <-]. exact I.
  - intros r. apply intermediate_value_def, Hacyclic.
  - exact HL.
Qed.

Lemma closure_access leaf row :
  AccessOk SymbolicEvaluator defs (row_terminals row) (row_env row) (row_intermediate row) (closure defs leaf) (fun v => terminal v /\ closure defs leaf v).
Proof. apply symbolic_access. intros r d Hp [_ Hc] Hd. apply within_covered. now apply (Hc r d). Qed.

(** What a symbolic evaluation says, for all rows. *)
Definition stands_for (leaf : AlgebraicVariable -> Prop) (a : AffineExpression AlgebraicVariable T) (e : AlgebraicExpression T) : Prop :=
  aff_proper a /\ keys (fun v => terminal v /\ leaf v) a /\
  forall row v, value row e = Some v -> eqm modulus (aff_val a (row_env row)) (to_integer v).

Definition cache_all (leaf : AlgebraicVariable -> Prop) c : Prop :=
  forall row, cache_ok (row_env row) (row_intermediate row) (fun v => terminal v /\ closure defs leaf v) c.

Lemma cache_all_empty leaf : cache_all leaf ∅.
Proof. intros row r res. now rewrite lookup_empty. Qed.

Lemma evaluate_stands_for leaf fuel e c a c' : within defs leaf e -> cache_all leaf c ->
  evaluate SymbolicEvaluator defs fuel e c = Some (inl a, c') -> stands_for leaf a e /\ cache_all leaf c'.
Proof.
  intros Hw Hc He. pose proof (within_covered defs leaf e Hw) as Hcov.
  assert (Hrow : forall row, result_ok (row_env row) (fun v => terminal v /\ closure defs leaf v) (inl a) (value row e) /\
    cache_ok (row_env row) (row_intermediate row) (fun v => terminal v /\ closure defs leaf v) c').
  { intros row. exact (evaluate_sound _ _ _ _ _ _ _ (closure_access leaf row) fuel e Hcov c (Hc row) _ _ He). }
  split; [|intros row; apply Hrow]. destruct (Hrow 0) as [(Hp & Hk & _) _]. split; [exact Hp|]. split.
  - eapply List.Forall_impl; [|exact Hk]. intros kc [Ht [Hl _]]. now split.
  - intros row v. destruct (Hrow row) as [(_ & _ & Hv) _]. apply Hv.
Qed.

(** ** Binary constraints *)

Lemma single_root (a : AffineExpression AlgebraicVariable T) v k x : aff_proper a -> solve a = Some (inl v) -> ev_constraints v = [(k, Assignment x)] ->
  forall env, aff_zero a env <-> env k = x.
Proof.
  intros Hp Hs Hv env. destruct (solve_spec a Hp) as (r & Hr & Hspec). rewrite Hs in Hr. injection Hr as <-.
  destruct (ev_is_complete v); [|subst v; discriminate]. rewrite (Hspec env), Hv. unfold constraints_hold. rewrite List.Forall_cons_iff. cbn.
  split; [easy|]. intros E. split; [exact E|constructor].
Qed.

(** The value of a factor is zero exactly when its variable has the value of the root. *)
Lemma factor_root leaf a e v r x row y : stands_for leaf a e -> solve a = Some (inl v) -> ev_constraints v = [(ColumnVar r, Assignment x)] ->
  value row e = Some y -> (y = f_zero <-> row_env row (ColumnVar r) = x).
Proof.
  intros (Hp & _ & Hv) Hs Hc Hy. rewrite <- (single_root a v (ColumnVar r) x Hp Hs Hc (row_env row)). unfold aff_zero. rewrite (Hv row y Hy).
  split; [intros ->; now rewrite f_zero_int|]. intros Hz. apply f_eqm_eq. now rewrite f_zero_int.
Qed.

Lemma root_leaf leaf a e v r x : stands_for leaf a e -> solve a = Some (inl v) -> ev_constraints v = [(ColumnVar r, Assignment x)] -> leaf (ColumnVar r).
Proof.
  intros (_ & Hk & _) Hs Hc. pose proof (solve_answers _ a _ Hk Hs) as Ha. cbn in Ha. rewrite Hc in Ha. inversion Ha as [|? ? [[_ Hl] _] _]; subst. exact Hl.
Qed.

Lemma roots_spec leaf fuel l r v1 v2 : within defs leaf l -> within defs leaf r -> roots defs fuel l r = Some (Some (v1, v2)) ->
  exists a1 a2, stands_for leaf a1 l /\ stands_for leaf a2 r /\ solve a1 = Some (inl v1) /\ solve a2 = Some (inl v2).
Proof.
  intros Hl Hr. unfold roots. destruct (evaluate SymbolicEvaluator defs fuel l ∅) as [[res1 c1]|] eqn:E1; [|discriminate]. cbn [mbind option_bind fst snd].
  destruct res1 as [a1|]; [|discriminate]. destruct (evaluate_stands_for leaf fuel l ∅ a1 c1 Hl (cache_all_empty leaf) E1) as [Hs1 Hc1].
  destruct (solve a1) as [[w1|]|] eqn:Es1; cbn [mbind option_bind]; try discriminate.
  destruct (evaluate SymbolicEvaluator defs fuel r c1) as [[res2 c2]|] eqn:E2; [|discriminate]. cbn [mbind option_bind fst snd].
  destruct res2 as [a2|]; [|discriminate]. destruct (evaluate_stands_for leaf fuel r c1 a2 c2 Hr Hc1 E2) as [Hs2 _].
  destruct (solve a2) as [[w2|]|] eqn:Es2; cbn [mbind option_bind]; try discriminate. intros [= <- <-]. exists a1, a2. auto.
Qed.

Definition is_bit (x : T) : Prop := x = f_zero \/ x = f_one.

Lemma is_zero_value (x : T) : f_is_zero x = true -> x = f_zero.
Proof. unfold f_is_zero. intros E%Z.eqb_eq. apply to_integer_inj. now rewrite f_zero_int. Qed.
Lemma is_one_value (x : T) : f_is_one x = true -> x = f_one.
Proof. unfold f_is_one. intros E%Z.eqb_eq. apply to_integer_inj. now rewrite f_one_int. Qed.

Lemma product_is_zero (x y : T) : f_mul x y = f_zero <-> x = f_zero \/ y = f_zero.
Proof.
  split.
  - intros E. assert (Hm : eqm modulus (to_integer x * to_integer y) 0) by (rewrite <- f_mul_eqm, E, f_zero_int; reflexivity).
    destruct (f_integral _ _ Hm) as [Hz|Hz]; [left|right]; apply f_eqm_eq; rewrite f_zero_int; exact Hz.
  - intros [->| ->]; apply f_eqm_eq; feqm; rewrite ?f_zero_int; eqm_lia.
Qed.

(** [X * (1 - X) = 0], where [X] is a witness column, in the row or the next one. *)
Definition bit_constraint (leaf : AlgebraicVariable -> Prop) (p : PolyID) (e : AlgebraicExpression T) : Prop :=
  ptype p = Committed /\ exists next, leaf (ColumnVar (mkThin p next)) /\
    forall row v, value row e = Some v -> (v = f_zero <-> is_bit (cells t p (row + b2z next))).

Lemma product_bit leaf l r a1 a2 v1 v2 id x1 x2 : stands_for leaf a1 l -> stands_for leaf a2 r -> solve a1 = Some (inl v1) -> solve a2 = Some (inl v2) ->
  ev_constraints v1 = [(ColumnVar id, Assignment x1)] -> ev_constraints v2 = [(ColumnVar id, Assignment x2)] ->
  ptype (thin_poly_id id) = Committed -> (f_is_zero x1 && f_is_one x2) || (f_is_one x1 && f_is_zero x2) = true ->
  bit_constraint leaf (thin_poly_id id) (ABinaryOperation l AMul r).
Proof.
  intros Hs1 Hs2 Hv1 Hv2 Hc1 Hc2 Hp Hx. split; [exact Hp|]. exists (thin_next id). split.
  { replace (mkThin (thin_poly_id id) (thin_next id)) with id by now destruct id. exact (root_leaf leaf a1 l v1 id x1 Hs1 Hv1 Hc1). }
  intros row v Hv. destruct (binary_value_some AMul (value row l) (value row r) v) as (y1 & y2 & Hy1 & Hy2); [exact Hv|].
  assert (v = f_mul y1 y2) as ->. { unfold value in *. cbn in Hv. rewrite Hy1, Hy2 in Hv. now injection Hv as <-. }
  rewrite product_is_zero, (factor_root leaf a1 l v1 id x1 row y1 Hs1 Hv1 Hc1 Hy1), (factor_root leaf a2 r v2 id x2 row y2 Hs2 Hv2 Hc2 Hy2).
  rewrite row_env_terminal by (rewrite Hp; discriminate). unfold is_bit. apply orb_true_iff in Hx as [[E1 E2]%andb_true_iff|[E1 E2]%andb_true_iff].
  - apply is_zero_value in E1 as ->. apply is_one_value in E2 as ->. reflexivity.
  - apply is_one_value in E1 as ->. apply is_zero_value in E2 as ->. tauto.
Qed.

Lemma is_binary_constraint_spec leaf fuel e p : within defs leaf e -> is_binary_constraint defs fuel e = Some (Some p) -> bit_constraint leaf p e.
Proof.
  induction e as [r|q|ch|n|e1 IH1 op e2 IH2|op e1 IH1]; intros Hw; cbn [is_binary_constraint]; try discriminate.
  inversion Hw as [| | | | |? ? ? Hw1 Hw2|]; subst. destruct op; try discriminate.
  - destruct e2; try discriminate. destruct (f_is_zero n) eqn:Hz; [|discriminate]. intros Hb. destruct (IH1 Hw1 Hb) as (Hp & next & Hl & Hv).
    split; [exact Hp|]. exists next. split; [exact Hl|]. intros row v E. unfold value in E. cbn in E.
    destruct (meaning (row_terminals row) (fun x : T => x) (row_intermediate row) e1) as [y|] eqn:Ey; [|discriminate]. injection E as <-.
    rewrite <- (Hv row y Ey). apply is_zero_value in Hz as ->. replace (f_sub y f_zero) with y; [reflexivity|].
    apply f_eqm_eq. feqm. rewrite ?f_zero_int. eqm_lia.
  - destruct (roots defs fuel e1 e2) as [[[v1 v2]|]|] eqn:Er; cbn [mbind option_bind]; try discriminate.
    destruct (roots_spec leaf fuel e1 e2 v1 v2 Hw1 Hw2 Er) as (a1 & a2 & Hs1 & Hs2 & Hv1 & Hv2).
    destruct (ev_constraints v1) as [|[[id1|] [x1|]] []] eqn:Hc1; try discriminate. destruct (ev_constraints v2) as [|[[id2|] [x2|]] []] eqn:Hc2; try discriminate.
    destruct (bool_decide (id1 = id2)) eqn:Eid; [|discriminate]. destruct (bool_decide (ptype (thin_poly_id id2) = Committed)) eqn:Ep; [|discriminate]. cbn [negb orb].
    destruct (_ || _) eqn:Ex; [|discriminate]. intros [= <-]. apply bool_decide_eq_true in Eid as <-. apply bool_decide_eq_true in Ep.
    now apply (product_bit leaf e1 e2 a1 a2 v1 v2 id1 x1 x2).
Qed.

(** ** Transfer through a linear identity *)

Notation constraints := (gmap PolyID (RangeConstraint T)).

Definition known_fit (known : constraints) : Prop := forall p c, known !! p = Some c -> rc_wf c.

(** Every row of a column with a constraint has a value, and the constraint allows it. *)
Definition known_ok (known : constraints) : Prop :=
  forall p c, known !! p = Some c -> forall row, exists x, value row (AReference (column p)) = Some x /\ rc_allows c x.

Lemma known_fit_wf known : known_fit known -> known_wf (simple_range_constraint known).
Proof. intros Hk [r|p] c; cbn; [|discriminate]. destruct (thin_next r); [discriminate|apply Hk]. Qed.

Lemma known_ok_hold known row : known_ok known -> known_hold (simple_range_constraint known) (row_env row).
Proof.
  intros Hk [r|p] c; cbn [simple_range_constraint]; [|discriminate]. destruct (thin_next r) eqn:En; [discriminate|]. intros Hc.
  destruct (Hk _ _ Hc row) as (x & Hx & Ha). cbn [row_env]. rewrite En. fold (column (thin_poly_id r)). now rewrite Hx.
Qed.

Definition here (v : AlgebraicVariable) : Prop := match v with ColumnVar r => thin_next r = false | PublicVar _ => False end.

(** Both kinds of constraints of a result, as facts about columns in the row itself. *)
Lemma column_constraints_spec leaf known a l :
  Forall (answer_ok (fun v => terminal v /\ here v /\ leaf v) known a) l ->
  exists cs, column_constraints l = Some cs /\ Forall (fun pc => ptype (fst pc) <> IntermediatePoly /\ leaf (ColumnVar (mkThin (fst pc) false)) /\ rc_wf (snd pc) /\
    forall row, known_hold known (row_env row) -> aff_zero a (row_env row) -> rc_allows (snd pc) (cells t (fst pc) row)) cs.
Proof.
  induction l as [|[[r|p] [x|c]] l IH]; intros Hl; cbn [column_constraints].
  - exists []. split; [reflexivity|constructor].
  - apply IH. now inversion Hl.
  - inversion Hl as [|? ? [(Ht & Hh & Hf) Hc] Hl']; subst. destruct (IH Hl') as (cs & -> & Hcs). cbn [fst snd] in *. cbn in Hh.
    destruct (Hc c eq_refl) as [Hw Ha]. rewrite Hh. cbn. eexists. split; [reflexivity|]. constructor; [|exact Hcs]. cbn.
    replace (mkThin (thin_poly_id r) false) with r by (destruct r; cbn in *; congruence). split; [exact Ht|]. split; [exact Hf|]. split; [exact Hw|].
    intros row Hk Hz. specialize (Ha _ Hk Hz). rewrite row_env_terminal in Ha by exact Ht. now rewrite Hh, Z.add_0_r in Ha.
  - exfalso. inversion Hl as [|? ? [(_ & Hh & _) _] _]; subst. exact Hh.
  - exfalso. inversion Hl as [|? ? [(_ & Hh & _) _] _]; subst. exact Hh.
Qed.

(** What is known of a column by a constraint. *)
Definition allowed_everywhere (pc : PolyID * RangeConstraint T) : Prop := forall row, rc_allows (snd pc) (cells t (fst pc) row).

Lemma within_and leaf1 leaf2 e : within defs leaf1 e -> within defs leaf2 e -> within defs (fun v => leaf1 v /\ leaf2 v) e.
Proof.
  induction 1; intros Hw; inversion Hw; subst; try (constructor; auto; fail).
  all: try contradiction.
  eapply within_intermediate; [now split|eassumption..|]. match goal with H1 : defs !! _ = Some ?d1, H2 : defs !! _ = Some ?d2 |- _ => assert (d1 = d2) as -> by congruence end. auto.
Qed.

Lemma within_impl (leaf1 leaf2 : AlgebraicVariable -> Prop) e : (forall v, leaf1 v -> leaf2 v) -> within defs leaf1 e -> within defs leaf2 e.
Proof. intros Hi. induction 1; try (constructor; auto; fail). eapply within_intermediate; eauto. Qed.

(** A column of the program, no public. *)
Definition column_leaf (cols : PolyID -> Prop) (v : AlgebraicVariable) : Prop := match v with ColumnVar r => cols (thin_poly_id r) | PublicVar _ => False end.

Lemma column_transfer_spec cols fuel e known : within defs (column_leaf cols) e -> known_fit known ->
  is_Some (contains_next_ref defs fuel e) -> is_Some (symbolic defs fuel e) ->
  exists l, gc_try_transfer_constraints defs fuel e known = Some l /\
    Forall (fun pc => ptype (fst pc) <> IntermediatePoly /\ cols (fst pc) /\ rc_wf (snd pc)) l /\
    (known_ok known -> (forall row, value row e = Some f_zero) -> Forall allowed_everywhere l).
Proof.
  intros Hw Hfit [next Hnext] [res Hres]. unfold gc_try_transfer_constraints. rewrite Hnext, Hres. cbn [mbind option_bind].
  destruct next; [exists []; repeat split; constructor|]. destruct res as [a|cause]; [|exists []; repeat split; constructor].
  pose proof (within_and _ _ e (contains_next_ref_spec defs fuel e Hnext) Hw) as Hleaf.
  unfold symbolic, evaluate_fresh in Hres. destruct (evaluate SymbolicEvaluator defs fuel e ∅) as [[res c]|] eqn:Ee; [|discriminate]. injection Hres as ->.
  destruct (evaluate_stands_for _ fuel e ∅ a c Hleaf (cache_all_empty _) Ee) as [(Hp & Hk & Hv) _].
  assert (Hk' : keys (fun v => terminal v /\ here v /\ column_leaf cols v) a).
  { eapply List.Forall_impl; [|exact Hk]. intros [v x]. cbn. destruct v; cbn; tauto. }
  destruct (solver_answers _ a (simple_range_constraint known) Hp Hk' (known_fit_wf known Hfit)) as (r & -> & Hr). cbn [mbind option_bind].
  destruct r as [v|err]; [|exists []; repeat split; constructor]. destruct (column_constraints_spec _ _ a _ Hr) as (cs & -> & Hcs).
  exists cs. split; [reflexivity|]. split.
  - eapply List.Forall_impl; [|exact Hcs]. cbn. tauto.
  - intros Hok Hzero. eapply List.Forall_impl; [|exact Hcs]. intros [p c0] (_ & _ & _ & Ha) row. apply Ha; [now apply known_ok_hold|].
    unfold aff_zero. rewrite (Hv row f_zero (Hzero row)). now rewrite f_zero_int.
Qed.

(** ** Adding constraints *)

(** No constraint is lost; masks only shrink. *)
Definition tightens (known known' : constraints) : Prop :=
  forall p c, known !! p = Some c -> exists c', known' !! p = Some c' /\ submask (rc_mask c') (rc_mask c).

(** What every step of the propagation keeps; [cols] are the columns of the program. *)
Definition refined (cols : PolyID -> Prop) (known known' : constraints) : Prop :=
  known_fit known' /\ tightens known known' /\ forall p, is_Some (known' !! p) -> is_Some (known !! p) \/ cols p.

Lemma refined_refl cols known : known_fit known -> refined cols known known.
Proof. intros Hf. split; [exact Hf|]. split; [intros p c Hc; exists c; split; [exact Hc|apply submask_refl]|]. auto. Qed.

Lemma refined_trans cols k1 k2 k3 : refined cols k1 k2 -> refined cols k2 k3 -> refined cols k1 k3.
Proof.
  intros (_ & Ht & Hd) (Hf & Ht' & Hd'). split; [exact Hf|]. split.
  - intros p c Hc. destruct (Ht p c Hc) as (c' & Hc' & Hs). destruct (Ht' p c' Hc') as (c'' & Hc'' & Hs'). exists c''. split; [exact Hc''|].
    now apply (submask_trans _ (rc_mask c')).
  - intros p Hp. destruct (Hd' p Hp); auto.
Qed.

Lemma rc_conjunction_mask (c d e : RangeConstraint T) : rc_conjunction c d = Some e -> submask (rc_mask e) (rc_mask c) /\ submask (rc_mask e) (rc_mask d).
Proof.
  unfold rc_conjunction. cbv zeta. destruct (default _ _) as [mn mx]. match goal with |- context [let '(_, _) := ?x in _] => destruct x as [mn2 mx2] end.
  assert (Hm : forall z, submask (Z.land (Z.land (rc_mask c) (rc_mask d)) z) (rc_mask c) /\ submask (Z.land (Z.land (rc_mask c) (rc_mask d)) z) (rc_mask d)).
  { intros z. unfold submask. split; apply Z.bits_inj'; intros n _; rewrite !Z.land_spec; destruct (Z.testbit (rc_mask c) n), (Z.testbit (rc_mask d) n), (Z.testbit z n); reflexivity. }
  destruct (f_leb mn2 mx2).
  - destruct (rc_from_range mn2 mx2) as [r|]; [|discriminate]. intros [= <-]. apply Hm.
  - intros [= <-]. specialize (Hm (-1)). now rewrite Z.land_m1_r in Hm.
Qed.

Lemma refined_insert cols known p c : known_fit known -> cols p -> rc_wf c ->
  (forall c0, known !! p = Some c0 -> submask (rc_mask c) (rc_mask c0)) -> refined cols known (<[p := c]> known).
Proof.
  intros Hf Hp Hw Hs. split; [|split].
  - intros q d. destruct (decide (p = q)) as [<-|Hne]; [rewrite lookup_insert_eq; now intros [= <-]|rewrite lookup_insert_ne by exact Hne; apply Hf].
  - intros q d Hd. destruct (decide (p = q)) as [<-|Hne]; [exists c; split; [apply lookup_insert_eq|now apply Hs]|].
    exists d. split; [now rewrite lookup_insert_ne|apply submask_refl].
  - intros q. destruct (decide (p = q)) as [<-|Hne]; [now right|]. rewrite lookup_insert_ne by exact Hne. now left.
Qed.

Definition allowed_in (known : constraints) (p : PolyID) (c : RangeConstraint T) : Prop :=
  forall row, exists x, value row (AReference (column p)) = Some x /\ rc_allows c x.

Lemma known_ok_insert known p c : known_ok known -> allowed_in known p c -> known_ok (<[p := c]> known).
Proof.
  intros Hk Ha q d. destruct (decide (p = q)) as [<-|Hne]; [rewrite lookup_insert_eq; intros [= <-]; exact Ha|]. rewrite lookup_insert_ne by exact Hne. apply Hk.
Qed.

Lemma add_constraint_spec cols known p c : known_fit known -> cols p -> rc_wf c ->
  exists known', add_constraint known p c = Some known' /\ refined cols known known' /\
    (exists c', known' !! p = Some c' /\ submask (rc_mask c') (rc_mask c)) /\
    (known_ok known -> allowed_in known p c -> known_ok known').
Proof.
  intros Hf Hp Hw. unfold add_constraint. destruct (known !! p) as [c0|] eqn:E0.
  - destruct (rc_conjunction_sound c0 c (Hf _ _ E0) Hw) as (c1 & Hc & Hw1 & Hs). rewrite Hc. destruct (rc_conjunction_mask _ _ _ Hc) as [Hm0 Hm1].
    eexists. split; [reflexivity|]. split; [apply refined_insert; auto; intros c2 Hc2; assert (c2 = c0) as -> by congruence; exact Hm0|]. split; [exists c1; split; [apply lookup_insert_eq|exact Hm1]|].
    intros Hk Ha. apply known_ok_insert; [exact Hk|]. intros row. destruct (Hk _ _ E0 row) as (x & Hx & H0), (Ha row) as (y & Hy & H1).
    rewrite Hx in Hy. injection Hy as <-. exists x. auto.
  - eexists. split; [reflexivity|]. split; [apply refined_insert; auto; intros c2 Hc2; congruence|]. split; [exists c; split; [apply lookup_insert_eq|apply submask_refl]|].
    apply known_ok_insert.
Qed.

Lemma add_constraints_spec cols l : forall known, known_fit known -> Forall (fun pc => ptype (fst pc) <> IntermediatePoly /\ cols (fst pc) /\ rc_wf (snd pc)) l ->
  exists known', add_constraints l known = Some known' /\ refined cols known known' /\
    (known_ok known -> Forall allowed_everywhere l -> known_ok known').
Proof.
  induction l as [|[p c] l IH]; intros known Hf Hl; cbn [add_constraints].
  - exists known. split; [reflexivity|]. split; [now apply refined_refl|auto].
  - inversion Hl as [|? ? (Ht & Hp & Hw) Hl']; subst. cbn in *. destruct (add_constraint_spec cols known p c Hf Hp Hw) as (k1 & -> & Hr & _ & Hok). cbn [mbind option_bind].
    destruct (IH k1 (proj1 Hr) Hl') as (k2 & -> & Hr2 & Hok2). exists k2. split; [reflexivity|]. split; [now apply (refined_trans cols _ k1)|].
    intros Hk Ha. inversion Ha as [|? ? Ha1 Ha2]; subst. apply Hok2; [|exact Ha2]. apply Hok; [exact Hk|]. intros row. exists (cells t p row).
    split; [now apply value_column|apply (Ha1 row)].
Qed.

(** ** Lookups *)

(** Every row of the left sides has the values of some row of the right sides. *)
Definition payload_matched (l : list (AlgebraicExpression T * AlgebraicExpression T)) : Prop :=
  forall row, exists row', Forall (fun lr => exists x, value row (fst lr) = Some x /\ value row' (snd lr) = Some x) l.

Lemma simple_poly_value e p row : try_to_simple_poly e = Some p -> value row e = value row (AReference (column (ref_poly_id p))).
Proof.
  destruct e as [r| | | | |]; try discriminate. cbn [try_to_simple_poly]. destruct (ref_next r) eqn:En; [discriminate|]. intros [= <-]. apply value_reference. unfold to_thin, column. cbn. now rewrite En.
Qed.

Lemma transfer_payload_spec cols l : forall known, known_fit known ->
  (forall e r p, In (e, r) l -> try_to_simple_poly e = Some p -> cols (ref_poly_id p)) ->
  exists known', transfer_payload l known = Some known' /\ refined cols known known' /\
    (known_ok known -> payload_matched l -> known_ok known').
Proof.
  induction l as [|[e r] l IH]; intros known Hf Hl; cbn [transfer_payload].
  - exists known. split; [reflexivity|]. split; [now apply refined_refl|auto].
  - assert (Hl' : forall e r p, In (e, r) l -> try_to_simple_poly e = Some p -> cols (ref_poly_id p)) by (intros e' r' p Hin; apply (Hl e' r' p); now right).
    assert (Htl : payload_matched ((e, r) :: l) -> payload_matched l) by (intros Hm row; destruct (Hm row) as [row' Hr]; exists row'; now inversion Hr).
    assert (Hskip : exists known', transfer_payload l known = Some known' /\ refined cols known known' /\ (known_ok known -> payload_matched ((e, r) :: l) -> known_ok known')).
    { destruct (IH known Hf Hl') as (k & -> & Hr & Hok). exists k. auto. }
    destruct (try_to_simple_poly e) as [lp|] eqn:El; [|exact Hskip]. destruct (try_to_simple_poly r) as [rp|] eqn:Er; [|exact Hskip].
    destruct (known !! ref_poly_id rp) as [c|] eqn:Ec; [|exact Hskip].
    destruct (add_constraint_spec cols known (ref_poly_id lp) c Hf (Hl e r lp (or_introl eq_refl) El) (Hf _ _ Ec)) as (k1 & -> & Hr1 & _ & Hok1). cbn [mbind option_bind].
    destruct (IH k1 (proj1 Hr1) Hl') as (k2 & -> & Hr2 & Hok2). exists k2. split; [reflexivity|]. split; [now apply (refined_trans cols _ k1)|].
    intros Hk Hm. apply Hok2; [|now apply Htl]. apply Hok1; [exact Hk|]. intros row. destruct (Hm row) as [row' Hv]. inversion Hv as [|? ? (x & Hx & Hx') _]; subst. cbn [fst snd] in *.
    rewrite (simple_poly_value _ _ _ El) in Hx. rewrite (simple_poly_value _ _ _ Er) in Hx'. destruct (Hk _ _ Ec row') as (y & Hy & Ha).
    rewrite Hx' in Hy. injection Hy as <-. exists x. auto.
Qed.

(** ** Identities *)

(** Connections are not used for constraints: any meaning will do. *)
Variable connect_holds : list (AlgebraicExpression T) -> list (AlgebraicExpression T) -> Prop.
Variable receives : gmap Z (BusReceive T).

(** A row that the sender selects has the payload of a row that the receiver selects. *)
Definition payload_holds (send : SelectedExpressions T) (receive : SelectedExpressions T) : Prop :=
  forall row, value row (selector send) = Some f_one ->
    exists row' vs, value row' (selector receive) = Some f_one /\
      mapM (value row) (expressions send) = Some vs /\ mapM (value row') (expressions receive) = Some vs.

Definition identity_holds (i : Identity T) : Prop :=
  match i with
  | IdPolynomial _ e => forall row, value row e = Some f_zero
  | IdConnect _ l r => connect_holds l r
  | IdBusSend send => exists bus r, bus_id_of send = Some bus /\ receives !! to_integer bus = Some r /\ payload_holds (send_payload send) (receive_payload r)
  end.

(** What the conversion of a checked program guarantees. *)
Definition identity_wf (cols : PolyID -> Prop) (i : Identity T) : Prop :=
  match i with
  | IdPolynomial _ e => within defs (column_leaf cols) e /\ well_defined defs e = true
  | IdConnect _ _ _ => True
  | IdBusSend send => exists bus r, bus_id_of send = Some bus /\ receives !! to_integer bus = Some r /\
      length (expressions (send_payload send)) = length (expressions (receive_payload r)) /\
      forall p, In (AReference p) (expressions (send_payload send)) -> ref_next p = false -> cols (ref_poly_id p)
  end.

Lemma mapM_zip (f g : AlgebraicExpression T -> option T) l1 : forall l2 vs, mapM f l1 = Some vs -> mapM g l2 = Some vs ->
  Forall (fun lr => exists x, f (fst lr) = Some x /\ g (snd lr) = Some x) (zip l1 l2).
Proof.
  intros l2 vs H1%mapM_Some_1 H2%mapM_Some_1. revert l2 H2. induction H1 as [|e x l1 vs Hx _ IH]; intros l2 H2; cbn; [constructor|].
  inversion H2; subst. constructor; [eauto|auto].
Qed.

Lemma expression_is_one_eq e : expression_is_one e = true -> e = ANumber f_one.
Proof. unfold expression_is_one. destruct e as [| | | | |op e]; cbn; try discriminate; [|destruct op; discriminate]. intros Hn%f_eqb_eq. now subst. Qed.

Lemma payload_holds_matched send receive : selector send = ANumber f_one -> payload_holds send receive -> payload_matched (zip (expressions send) (expressions receive)).
Proof.
  intros Hs Hp row. destruct (Hp row) as (row' & vs & _ & Hl & Hr); [now rewrite Hs|]. exists row'. now apply (mapM_zip _ _ _ _ vs).
Qed.

(** The columns that take every value their constraint allows. *)
Definition spans (full_span : gset PolyID) (known : constraints) : Prop :=
  forall p, p ∈ full_span -> exists c, known !! p = Some c /\
    forall x : T, submask (to_integer x) (rc_mask c) -> exists row, value row (AReference (column p)) = Some x.

Lemma spans_tightens full_span known known' : tightens known known' -> spans full_span known -> spans full_span known'.
Proof.
  intros Ht Hs p Hp. destruct (Hs p Hp) as (c & Hc & Hv). destruct (Ht p c Hc) as (c' & Hc' & Hm). exists c'. split; [exact Hc'|].
  intros x Hx. apply Hv. now apply (submask_trans _ (rc_mask c')).
Qed.

(** The constraints of witness columns hold in the table. *)
Definition witness_ok (known : constraints) : Prop := forall p c, known !! p = Some c -> ptype p = Committed -> forall row, rc_allows c (cells t p row).

(** What removing an identity relies on: its values exist, and a range check is on a witness column. *)
Definition removable (i : Identity T) : Prop :=
  match i with
  | IdPolynomial _ e => forall row, is_Some (value row e)
  | IdConnect _ _ _ => True
  | IdBusSend send => forall p, expressions (send_payload send) = [AReference p] -> ref_next p = false -> ptype (ref_poly_id p) = Committed
  end.

(** ** One identity *)

Lemma bit_constraint_allows : exists bit, rc_from_max_bit 0 = Some bit /\ rc_wf bit /\ forall x : T, (rc_allows bit x <-> is_bit x) /\ (submask (to_integer x) (rc_mask bit) -> is_bit x).
Proof.
  pose proof (NUM_BITS_pos (T:=T)) as Hpos. destruct (rc_from_max_bit_allows (T:=T) 0 (conj (Z.le_refl 0) Hpos)) as (bit & Hb & Ha). exists bit. split; [exact Hb|].
  unfold rc_from_max_bit in Hb. rewrite mask_from_bits_spec in Hb by lia. injection Hb as <-. change (Z.ones (0 + 1)) with 1 in *.
  assert (Hw : in_width (NUM_BITS (T:=T)) 1) by (split; [lia|apply Z.pow_gt_1; lia]).
  assert (Hbit : forall x : T, to_integer x < 2 <-> is_bit x).
  { intros x. range x. split.
    - intros Hx. assert (to_integer x = 0 \/ to_integer x = 1) as [E|E] by lia; [left|right]; apply to_integer_inj; now rewrite E, ?f_zero_int, ?f_one_int.
    - intros [->| ->]; rewrite ?f_zero_int, ?f_one_int; lia. }
  split; [exact Hw|]. intros x. rewrite (Ha x), <- Hbit. split; [reflexivity|]. intros Hs. change (submask (to_integer x) 1) in Hs. range x. apply submask_le in Hs; lia.
Qed.

Section Propagation.
Variable fuel : nat.
Hypothesis Hdefs : forall r d, defs !! r = Some d -> well_defined defs d = true.
Hypothesis Hfuel : forall r, (rank r < fuel)%nat.

Lemma symbolic_returns e : well_defined defs e = true -> forall c, is_Some (evaluate SymbolicEvaluator defs fuel e c).
Proof.
  intros Hwd. apply (evaluate_returns SymbolicEvaluator defs rank Hacyclic Hdefs); auto using symbolic_answered.
Qed.

Lemma solve_returns leaf a e : stands_for leaf a e -> is_Some (solve a).
Proof. intros (Hp & _). destruct (solve_spec a Hp) as (r & -> & _). now eexists. Qed.

Lemma roots_returns leaf l r : within defs leaf l -> within defs leaf r -> well_defined defs l = true -> well_defined defs r = true -> is_Some (roots defs fuel l r).
Proof.
  intros Hl Hr Wl Wr. unfold roots. destruct (symbolic_returns l Wl ∅) as [[[a1|] c1] E1]; rewrite E1; cbn; [|now eexists].
  destruct (evaluate_stands_for leaf fuel l ∅ a1 c1 Hl (cache_all_empty leaf) E1) as [Hs1 Hc1]. destruct (solve_returns leaf a1 l Hs1) as [[v1|] ->]; cbn; [|now eexists].
  destruct (symbolic_returns r Wr c1) as [[[a2|] c2] E2]; rewrite E2; cbn; [|now eexists].
  destruct (evaluate_stands_for leaf fuel r c1 a2 c2 Hr Hc1 E2) as [Hs2 _]. destruct (solve_returns leaf a2 r Hs2) as [[v2|] ->]; now eexists.
Qed.

Lemma is_binary_constraint_returns leaf e : within defs leaf e -> well_defined defs e = true -> is_Some (is_binary_constraint defs fuel e).
Proof.
  induction e as [r|q|ch|n|e1 IH1 op e2 IH2|op e1 IH1]; intros Hw Hwd; cbn [is_binary_constraint]; try now eexists.
  inversion Hw as [| | | | |? ? ? Hw1 Hw2|]; subst. cbn [well_defined] in Hwd. apply andb_prop in Hwd as [Hwd _]. apply andb_prop in Hwd as [W1 W2].
  destruct op; try now eexists.
  - destruct e2; try now eexists. destruct (f_is_zero n); [now apply IH1|now eexists].
  - destruct (roots_returns leaf e1 e2 Hw1 Hw2 W1 W2) as [[[v1 v2]|] ->]; cbn; [|now eexists].
    repeat (match goal with |- context [match ?x with _ => _ end] => destruct x end); now eexists.
Qed.

Lemma polynomial_spec cols known id e full_span : known_fit known -> identity_wf cols (IdPolynomial id e) ->
  exists known' remove, propagate_constraints defs fuel known (IdPolynomial id e) full_span receives = Some (known', remove) /\ refined cols known known' /\
    (known_ok known -> identity_holds (IdPolynomial id e) -> known_ok known') /\
    (remove = true -> removable (IdPolynomial id e) -> forall final, tightens known' final -> witness_ok final -> identity_holds (IdPolynomial id e)).
Proof.
  intros Hf [Hw Hwd]. cbn [propagate_constraints]. destruct (is_binary_constraint_returns _ e Hw Hwd) as [[p|] Hb]; rewrite Hb; cbn [mbind option_bind].
  - destruct (is_binary_constraint_spec _ fuel e p Hw Hb) as (Hp & next & Hl & Hv). destruct bit_constraint_allows as (bit & -> & Hbw & Hbit). cbn [mbind option_bind].
    destruct (add_constraint_spec cols known p bit Hf Hl Hbw) as (k & -> & Hr & (c & Hc & Hm) & Hok). cbn [mbind option_bind].
    exists k, true. split; [reflexivity|]. split; [exact Hr|]. split.
    + intros Hk Hi. apply Hok; [exact Hk|]. intros row. exists (cells t p row). split; [apply value_column; congruence|]. apply Hbit.
      specialize (Hi (row - b2z next)). pose proof (proj1 (Hv _ _ Hi) eq_refl) as Hx. now rewrite Z.sub_add in Hx.
    + intros _ Hd final Ht Hwit row. destruct (Hd row) as [v Ev]. rewrite Ev. f_equal. apply (Hv row v Ev). apply Hbit.
      destruct (Ht p c Hc) as (c' & Hc' & Hm'). apply (submask_trans _ (rc_mask c)); [|exact Hm]. apply (submask_trans _ (rc_mask c')); [|exact Hm'].
      apply rc_allows_iff. now apply (Hwit p c' Hc').
  - assert (Hnext : is_Some (contains_next_ref defs fuel e)).
    { unfold contains_next_ref. destruct (contains_next_ref_returns defs rank fuel Hacyclic Hdefs e Hwd (fun r _ => Hfuel r) ∅) as [[b c] ->]. now eexists. }
    assert (Hsym : is_Some (symbolic defs fuel e)).
    { unfold symbolic, evaluate_fresh. destruct (symbolic_returns e Hwd ∅) as [[b c] ->]. now eexists. }
    destruct (column_transfer_spec cols fuel e known Hw Hf Hnext Hsym) as (l & -> & Hl & Ha). cbn [mbind option_bind].
    destruct (add_constraints_spec cols l known Hf Hl) as (k & -> & Hr & Hok). cbn [mbind option_bind].
    exists k, false. split; [reflexivity|]. split; [exact Hr|]. split; [|discriminate]. intros Hk Hi. auto.
Qed.

Lemma singleton_transfer (cols : PolyID -> Prop) known e r lp rp c : known_fit known -> try_to_simple_poly e = Some lp -> try_to_simple_poly r = Some rp -> known !! ref_poly_id rp = Some c ->
  cols (ref_poly_id lp) ->
  forall known', transfer_payload [(e, r)] known = Some known' -> exists c', known' !! ref_poly_id lp = Some c' /\ submask (rc_mask c') (rc_mask c).
Proof.
  intros Hf El Er Ec Hl known'. cbn [transfer_payload]. rewrite El, Er, Ec. destruct (add_constraint_spec cols known (ref_poly_id lp) c Hf Hl (Hf _ _ Ec)) as (k & -> & _ & Hm & _).
  cbn. now intros [= <-].
Qed.

(** A range check that is removed is a check on one column, and the range is spanned. *)
Lemma range_check_spec full_span es receive : is_range_check full_span es receive = Some true ->
  exists e lp r rp, head es = Some e /\ expressions (receive_payload receive) = [r] /\ try_to_simple_poly e = Some lp /\ try_to_simple_poly r = Some rp /\
    ref_poly_id rp ∈ full_span /\ selector (receive_payload receive) = ANumber f_one.
Proof.
  unfold is_range_check. destruct (expressions (receive_payload receive)) as [|r []] eqn:Er; try discriminate.
  destruct (has_arbitrary_multiplicity receive && _) eqn:Eb; [|discriminate]. apply andb_prop in Eb as [_ Hs%expression_is_one_eq].
  destruct (head es) as [e|]; [|discriminate]. cbn. destruct (try_to_simple_poly e) as [lp|] eqn:El; [|discriminate]. destruct (try_to_simple_poly r) as [rp|] eqn:Erp; [|discriminate].
  intros [= Hd]. apply bool_decide_eq_true in Hd. eauto 10.
Qed.

Lemma range_check_returns full_span es receive : length es = length (expressions (receive_payload receive)) -> is_Some (is_range_check full_span es receive).
Proof.
  unfold is_range_check. destruct (expressions (receive_payload receive)) as [|r []]; intros Hl; try now eexists. destruct (_ && _); [|now eexists].
  destruct es as [|e es]; [discriminate|]. cbn. destruct (try_to_simple_poly e); [|now eexists]. destruct (try_to_simple_poly r); now eexists.
Qed.

Lemma bus_send_spec cols known send full_span : known_fit known -> identity_wf cols (IdBusSend send) ->
  exists known' remove, propagate_constraints defs fuel known (IdBusSend send) full_span receives = Some (known', remove) /\ refined cols known known' /\
    (known_ok known -> identity_holds (IdBusSend send) -> known_ok known') /\
    (remove = true -> spans full_span known -> removable (IdBusSend send) -> forall final, tightens known' final -> witness_ok final -> identity_holds (IdBusSend send)).
Proof.
  intros Hf (bus & r & Hbus & Hr & Hlen & Hcols). cbn [propagate_constraints]. unfold try_match_static. rewrite Hbus, Hr. cbn [mbind option_bind].
  destruct (expression_is_one (selector (send_payload send))) eqn:Hsel; cbn [negb]; [|exists known, false; split; [reflexivity|]; split; [now apply refined_refl|]; split; [auto|discriminate]].
  apply expression_is_one_eq in Hsel. set (es := expressions (send_payload send)) in *. set (rs := expressions (receive_payload r)) in *.
  assert (Hzip : forall e e' p, In (e, e') (zip es rs) -> try_to_simple_poly e = Some p -> cols (ref_poly_id p)).
  { intros e e' p Hin%in_combine_l He. destruct e as [q| | | | |]; try discriminate. cbn in He. destruct (ref_next q) eqn:En; [discriminate|]. injection He as <-. now apply Hcols. }
  destruct (transfer_payload_spec cols (zip es rs) known Hf Hzip) as (k & Hk & Href & Hok). rewrite Hk. cbn [mbind option_bind].
  destruct (range_check_returns full_span es r Hlen) as [remove Hrem]. rewrite Hrem. cbn [mbind option_bind]. exists k, remove. split; [reflexivity|]. split; [exact Href|]. split.
  { intros Hkn (bus' & r' & Hbus' & Hr' & Hp). assert (r' = r) as -> by congruence. apply Hok; [exact Hkn|]. now apply payload_holds_matched. }
  intros -> Hspan Hwit final Ht Hfin. destruct (range_check_spec _ _ _ Hrem) as (e & lp & re & rp & He & Hre & El & Er & Hin & Hrs).
  exists bus, r. split; [exact Hbus|]. split; [exact Hr|]. intros row _. fold es rs. fold rs in Hre. rewrite Hre in *.
  destruct es as [|e0 [|]] eqn:Ees; try discriminate. injection He as ->. destruct (Hspan _ Hin) as (c & Hc & Hv).
  assert (Hlp : exists q, e = AReference q /\ ref_next q = false /\ lp = q).
  { destruct e as [q| | | | |]; try discriminate. cbn in El. destruct (ref_next q) eqn:En; [discriminate|]. injection El as <-. eauto. }
  destruct Hlp as (q & -> & Hnext & ->). pose proof (Hwit q Ees Hnext) as Hcom.
  destruct (singleton_transfer cols known (AReference q) re q rp c Hf El Er Hc (Hzip (AReference q) re q (or_introl eq_refl) El) k Hk) as (c1 & Hc1 & Hm1).
  destruct (Ht _ _ Hc1) as (c2 & Hc2 & Hm2). pose proof (Hfin _ _ Hc2 Hcom row) as Ha.
  destruct (Hv (cells t (ref_poly_id q) row)) as [row' Hrow'].
  { apply (submask_trans _ (rc_mask c1)); [|exact Hm1]. apply (submask_trans _ (rc_mask c2)); [|exact Hm2]. now apply rc_allows_iff. }
  exists row', [cells t (ref_poly_id q) row]. split; [now rewrite Hrs|]. cbn [mapM]. rewrite (simple_poly_value _ _ row El), (simple_poly_value _ _ row' Er), Hrow'.
  rewrite value_column by congruence. now split.
Qed.

(** What one step of the propagation does, for any identity. *)
Lemma propagate_spec cols known i full_span : known_fit known -> identity_wf cols i ->
  exists known' remove, propagate_constraints defs fuel known i full_span receives = Some (known', remove) /\ refined cols known known' /\
    (known_ok known -> identity_holds i -> known_ok known') /\
    (remove = true -> spans full_span known -> removable i -> forall final, tightens known' final -> witness_ok final -> identity_holds i).
Proof.
  intros Hf Hw. destruct i as [id e|id l r|send].
  - destruct (polynomial_spec cols known id e full_span Hf Hw) as (k & b & Hp & Hr & Hok & Hrem). exists k, b.
    split; [exact Hp|]. split; [exact Hr|]. split; [exact Hok|]. intros E _. exact (Hrem E).
  - exists known, false. cbn. split; [reflexivity|]. split; [now apply refined_refl|]. split; [auto|discriminate].
  - now apply bus_send_spec.
Qed.

Lemma propagate_all_spec cols full_span ids : forall known, known_fit known -> Forall (identity_wf cols) ids ->
  exists final retained, propagate_all defs fuel known ids full_span receives = Some (final, retained) /\ refined cols known final /\
    (known_ok known -> Forall identity_holds ids -> known_ok final) /\
    (forall i, In i retained -> In i ids) /\
    (spans full_span known -> Forall removable ids -> witness_ok final -> forall i, In i ids -> In i retained \/ identity_holds i).
Proof.
  induction ids as [|i ids IH]; intros known Hf Hw; cbn [propagate_all].
  - exists known, []. split; [reflexivity|]. split; [now apply refined_refl|]. split; [auto|]. split; [auto|]. contradiction.
  - inversion Hw as [|? ? Hi Hw']; subst. destruct (propagate_spec cols known i full_span Hf Hi) as (k & b & -> & Hr & Hok & Hrem). cbn [mbind option_bind fst snd].
    destruct (IH k (proj1 Hr) Hw') as (final & retained & -> & Hr2 & Hok2 & Hin & Hex). cbn [mbind option_bind fst snd].
    exists final, (if b then retained else i :: retained). split; [reflexivity|]. split; [now apply (refined_trans cols _ k)|]. split; [|split].
    + intros Hk Hall. inversion Hall; subst. auto.
    + intros j. destruct b; cbn; [intros; right; auto|intros [->|Hj]; auto].
    + intros Hs Hrm Hwit j [<-|Hj].
      * destruct b; [|left; now left]. right. inversion Hrm; subst. apply (Hrem eq_refl Hs ltac:(assumption) final); [apply Hr2|exact Hwit].
      * inversion Hrm; subst. destruct (Hex (spans_tightens _ _ _ (proj1 (proj2 Hr)) Hs) ltac:(assumption) Hwit j Hj) as [Hl|Hh]; [left; destruct b; [exact Hl|now right]|now right].
Qed.

End Propagation.

End Tables.
