(* ===== verification/GlobalConstraintsPass.v ===== *)
(** * The pass that sets the global range constraints, from the fixed columns to the result

    The constraints of fixed columns, the maps by column, and the theorem on
    [set_global_constraints]: it returns, its constraints hold, and the identities it removes are
    implied. Examples, among them the range check that is lost. *)

From stdpp Require Import base list option gmap strings pretty.
From Stdlib Require Import ZArith Lia.
From S2P Require Import Prelude Goldilocks Field RangeConstraints EvalResult AffineExpression AffineSolver PanicMonad SymbolicExpr Effect ExpressionEvaluator WriteOnceMemory FixedColumns Identities PartialEvaluator SolverRanges GlobalConstraints GlobalConstraintsSound.

(** ** Fixed columns *)

Section FixedRanges.
Context {T : Type} `{FL : FieldLaws T}.

Lemma union_from (l : list T) : forall m, in_width NUM_BITS m ->
  let u := foldl (fun mask v => Z.lor mask (to_integer v)) m l in
  in_width NUM_BITS u /\ submask m u /\ Forall (fun v => submask (to_integer v) u) l.
Proof.
  induction l as [|v l IH]; intros m Hm; cbn [foldl]; [split; [exact Hm|]; split; [apply submask_refl|constructor]|].
  destruct (IH (Z.lor m (to_integer v))) as (Hw & Hs & Hl); [apply lor_width; [exact Hm|apply to_integer_width]|].
  split; [exact Hw|]. split; [apply (submask_trans _ (Z.lor m (to_integer v))); [apply submask_lor_l, submask_refl|exact Hs]|].
  constructor; [apply (submask_trans _ (Z.lor m (to_integer v))); [apply submask_lor_r, submask_refl|exact Hs]|exact Hl].
Qed.

Lemma union_of_bits_spec (l : list T) : in_width NUM_BITS (union_of_bits l) /\ Forall (fun v => submask (to_integer v) (union_of_bits l)) l.
Proof.
  destruct (union_from l 0) as (Hw & _ & Hl); [|now split]. split; [lia|apply Z.pow_pos_nonneg; pose proof (NUM_BITS_pos (T:=T)); lia].
Qed.

Lemma counts_with_mask_spec mask (l : list T) i v : counts_with_mask mask l = true -> l !! i = Some v -> to_integer v = Z.land (Z.of_nat i) mask.
Proof.
  unfold counts_with_mask. rewrite forallb_forall. intros Hall Hi. specialize (Hall (i, v)). cbn in Hall. apply Z.eqb_eq, Hall.
  apply list_elem_of_In, list_elem_of_lookup. exists i. apply lookup_zip_with_Some. exists i, v. split; [reflexivity|]. split; [|exact Hi].
  apply lookup_seq. apply lookup_lt_Some in Hi. lia.
Qed.

Lemma last_lookup {A} (d : A) l : forall x, (x :: l) !! length l = Some (List.last (x :: l) d).
Proof. induction l as [|y l IH]; intros x; [reflexivity|]. exact (IH y). Qed.

Lemma period_candidate_spec (l : list T) bit : smallest_period_candidate l = Some bit ->
  0 < bit < BITS (T:=T) /\ exists v, l !! (length l - 1)%nat = Some v /\ to_integer v = 2 ^ bit - 1 /\ in_width NUM_BITS (2 ^ bit - 1).
Proof.
  unfold smallest_period_candidate. destruct l as [|first l]; [discriminate|]. destruct (negb _); [discriminate|]. intros [Hin Hlast]%List.find_some.
  apply in_map_iff in Hin as (n & <- & Hn%in_seq). destruct (BITS_fits (T:=T)) as [HB _]. assert (Hb : 0 < Z.of_nat n < BITS (T:=T)) by lia. split; [exact Hb|].
  assert (Hlt : 2 ^ Z.of_nat n - 1 < modulus (T:=T)).
  { destruct (BITS_fits (T:=T)) as [_ Hm]. assert (2 ^ Z.of_nat n <= 2 ^ (BITS (T:=T) - 1)) by (apply Z.pow_le_mono_r; lia). lia. }
  assert (Hw : in_width (NUM_BITS (T:=T)) (2 ^ Z.of_nat n - 1)).
  { pose proof (modulus_fits (T:=T)). pose proof (Z.pow_pos_nonneg 2 (Z.of_nat n) ltac:(lia) ltac:(lia)). split; lia. }
  exists (List.last (first :: l) first). split; [|split; [|exact Hw]].
  - replace (length (first :: l) - 1)%nat with (length l) by (cbn; lia). apply last_lookup.
  - apply f_eqb_eq in Hlast. rewrite Hlast. unfold from_u64. rewrite from_integer_spec by exact Hw. apply Z.mod_small. destruct Hw. lia.
Qed.

Lemma process_fixed_column_spec (l : list T) c full : process_fixed_column l = Some (c, full) ->
  rc_wf c /\ Forall (rc_allows c) l /\ (full = true -> forall x : T, submask (to_integer x) (rc_mask c) -> x ∈ l).
Proof.
  assert (Hunion : forall c full, Some (rc_from_mask (union_of_bits l), false) = Some (c, full) ->
    rc_wf c /\ Forall (rc_allows c) l /\ (full = true -> forall x : T, submask (to_integer x) (rc_mask c) -> x ∈ l)).
  { intros c0 full0 [= <- <-]. destruct (union_of_bits_spec l) as [Hw Hl]. split; [exact Hw|]. split; [|discriminate].
    eapply List.Forall_impl; [|exact Hl]. intros v Hv. now apply rc_from_mask_allows. }
  unfold process_fixed_column. destruct (smallest_period_candidate l) as [bit|] eqn:Ebit; [|apply Hunion].
  destruct (counts_with_mask (2 ^ bit - 1) l) eqn:Ecount; [|apply Hunion]. intros [= <- <-].
  destruct (period_candidate_spec l bit Ebit) as (Hb & last & Hlast & Hv & Hw). split; [exact Hw|]. split.
  - apply List.Forall_forall. intros v Hin%list_elem_of_In%list_elem_of_lookup. destruct Hin as [i Hi]. apply rc_from_mask_allows; [exact Hw|].
    rewrite (counts_with_mask_spec _ _ _ _ Ecount Hi). unfold submask. now rewrite <- Z.land_assoc, Z.land_diag.
  - intros _ x Hx. cbn in Hx. range x. assert (Hle : to_integer x <= 2 ^ bit - 1) by (apply submask_le; [lia|apply Hw|exact Hx]).
    assert (Hlen : 2 ^ bit - 1 <= Z.of_nat (length l - 1)).
    { rewrite <- Hv, (counts_with_mask_spec _ _ _ _ Ecount Hlast). apply submask_le; [apply Z.land_nonneg; lia|lia|]. unfold submask.
      rewrite Z.land_comm, Z.land_assoc, Z.land_diag. reflexivity. }
    assert (Hlt : (Z.to_nat (to_integer x) < length l)%nat) by (apply lookup_lt_Some in Hlast; lia).
    destruct (lookup_lt_is_Some_2 l _ Hlt) as [v Hi]. apply list_elem_of_lookup. exists (Z.to_nat (to_integer x)). rewrite Hi. f_equal. apply to_integer_inj.
    rewrite (counts_with_mask_spec _ _ _ _ Ecount Hi), Z2Nat.id by lia. exact Hx.
Qed.

Lemma process_fixed_column_returns (l : list T) : is_Some (process_fixed_column l).
Proof. unfold process_fixed_column. destruct (smallest_period_candidate l); [destruct (counts_with_mask _ _)|]; now eexists. Qed.

End FixedRanges.

(** ** Maps by column *)

Section ColumnMaps.
Context {V : Type}.

Definition slot (p : PolyID) : nat := Z.to_nat (poly_id p).

Lemma cm_set_all_spec (items : list (PolyID * V)) : forall m,
  Forall (fun pv => ptype (fst pv) = cm_ptype m /\ (slot (fst pv) < cm_len m)%nat) items -> NoDup (map (fun pv => slot (fst pv)) items) ->
  exists m', cm_set_all items m = Some m' /\ cm_ptype m' = cm_ptype m /\ cm_len m' = cm_len m /\
    (forall p v, In (p, v) items -> cm_values m' !! slot p = Some v) /\
    (forall i, ~ In i (map (fun pv => slot (fst pv)) items) -> cm_values m' !! i = cm_values m !! i).
Proof.
  induction items as [|[p v] items IH]; intros m Hall Hnd; cbn [cm_set_all].
  - exists m. repeat split; easy.
  - inversion Hall as [|? ? [Ht Hl] Hall']; subst. cbn in Ht, Hl. apply NoDup_cons in Hnd as [Hnin Hnd].
    destruct (cm_set_spec p v m Ht Hl) as (m1 & -> & Ht1 & Hl1 & Hv1). cbn [mbind option_bind].
    destruct (IH m1) as (m2 & -> & Ht2 & Hl2 & Hin & Hout); [now rewrite Ht1, Hl1|exact Hnd|].
    exists m2. split; [reflexivity|]. split; [congruence|]. split; [congruence|]. split.
    + intros q w [[= -> ->]|Hq]; [|now apply Hin]. rewrite Hout; [|intros Hi; apply Hnin; now apply list_elem_of_In]. rewrite Hv1. unfold slot. now rewrite decide_True.
    + intros i Hi. rewrite Hout; [|intros Hx; apply Hi; now right]. rewrite Hv1. rewrite decide_False; [reflexivity|]. intros ->. apply Hi. now left.
Qed.

End ColumnMaps.

(** ** The whole pass *)

Section Pass.
Context {T : Type} `{FL : FieldLaws T} `{DV : Display AlgebraicVariable} `{DT : Display T}.

(** The columns of the program. *)
Definition program_column (fd : FixedData T) (p : PolyID) : Prop := ptype p = Committed -> 0 <= poly_id p < Z.of_nat (fd_witness_cols fd).

(** What checked and converted programs satisfy. *)
Record WellFormed (fd : FixedData T) (rank : AlgebraicReferenceThin -> nat) (fuel : nat) : Prop := {
  wf_acyclic : acyclic (fd_intermediate_definitions fd) rank;
  wf_definitions : forall r d, fd_intermediate_definitions fd !! r = Some d -> well_defined (fd_intermediate_definitions fd) d = true;
  wf_fuel : forall r, (rank r < fuel)%nat;
  wf_identities : Forall (identity_wf (fd_intermediate_definitions fd) (fd_bus_receives fd) (program_column fd)) (fd_identities fd);
  wf_fixed : cm_ptype (fd_fixed_cols fd) = ConstantPoly;
  wf_columns : Forall (fun col => exists l, values_max_size col = Some l /\ l <> []) (cm_values (fd_fixed_cols fd));
  wf_unset : Forall (eq None) (cm_values (witness_constraints (fd_global_range_constraints fd)) ++ cm_values (fixed_constraints (fd_global_range_constraints fd)))
}.

(** The fixed columns of the table are those of the program, at their largest size, repeated. *)
Definition fits (fd : FixedData T) (t : Table T) : Prop :=
  forall i col l, cm_values (fd_fixed_cols fd) !! i = Some col -> values_max_size col = Some l ->
    forall row, l !! Z.to_nat (row mod Z.of_nat (length l)) = Some (cells t (mkPolyID (Z.of_nat i) ConstantPoly) row).

Definition all_hold (fd : FixedData T) rank (t : Table T) connect_holds : Prop :=
  Forall (identity_holds (fd_intermediate_definitions fd) rank t connect_holds (fd_bus_receives fd)) (fd_identities fd).

(** The range constraints of the columns hold in all rows. *)
Definition ranges_hold (fd : FixedData T) (t : Table T) : Prop :=
  (forall i c row, cm_values (witness_constraints (fd_global_range_constraints fd)) !! i = Some (Some c) -> rc_allows c (cells t (mkPolyID (Z.of_nat i) Committed) row)) /\
  (forall i c row, cm_values (fixed_constraints (fd_global_range_constraints fd)) !! i = Some (Some c) -> rc_allows c (cells t (mkPolyID (Z.of_nat i) ConstantPoly) row)).

Lemma process_fixed_columns_spec (cols : list (PolyID * VariablySizedColumn T)) : Forall (fun pc => exists l, values_max_size (snd pc) = Some l /\ l <> []) cols ->
  exists known full_span, process_fixed_columns cols = Some (known, full_span) /\ map fst known = map fst cols /\
    (forall p c, In (p, c) known -> rc_wf c /\ exists col l, In (p, col) cols /\ values_max_size col = Some l /\ l <> [] /\ Forall (rc_allows c) l) /\
    (forall p, p ∈ full_span -> exists c col l, In (p, c) known /\ In (p, col) cols /\ values_max_size col = Some l /\ l <> [] /\
      forall x : T, submask (to_integer x) (rc_mask c) -> x ∈ l).
Proof.
  induction cols as [|[p col] cols IH]; intros Hall; cbn [process_fixed_columns].
  - exists [], ∅. split; [reflexivity|]. split; [reflexivity|]. split; [contradiction|]. intros p. set_solver.
  - inversion Hall as [|? ? (l & Hl & Hne) Hall']; subst. cbn in Hl. rewrite Hl. cbn [mbind option_bind].
    destruct (IH Hall') as (known & span & -> & Hk & Hin & Hsp). cbn [mbind option_bind fst snd].
    destruct (process_fixed_column_returns l) as [[c full] Hp]. rewrite Hp. destruct (process_fixed_column_spec l c full Hp) as (Hw & Ha & Hf).
    exists ((p, c) :: known), (if full then {[p]} ∪ span else span). split; [reflexivity|]. split; [cbn; now rewrite Hk|]. split.
    + intros q d [[= <- <-]|Hq].
      * split; [exact Hw|]. exists col, l. split; [now left|]. auto.
      * destruct (Hin q d Hq) as (Hw' & col' & l' & Hc' & Hrest). split; [exact Hw'|]. exists col', l'. split; [now right|exact Hrest].
    + intros q Hq. assert (Hcase : q = p /\ full = true \/ q ∈ span) by (destruct full; [apply elem_of_union in Hq as [Hq%elem_of_singleton|Hq]; auto|auto]).
      destruct Hcase as [[-> ->]|Hq'].
      * exists c, col, l. split; [now left|]. split; [now left|]. auto.
      * destruct (Hsp q Hq') as (c' & col' & l' & Hc' & Hcol' & Hrest). exists c', col', l'. split; [now right|]. split; [now right|exact Hrest].
Qed.

Lemma cm_iter_lookup {V} (m : ColumnMap V) p v : In (p, v) (cm_iter m) <-> p = mkPolyID (Z.of_nat (slot p)) (cm_ptype m) /\ cm_values m !! slot p = Some v.
Proof.
  unfold cm_iter, cm_keys. rewrite <- list_elem_of_In, list_elem_of_lookup. split.
  - intros [i Hi]. apply lookup_zip_with_Some in Hi as (x & y & [= -> ->] & Hx & Hy). rewrite list_lookup_fmap in Hx.
    destruct (seq 0 (length (cm_values m)) !! i) as [j|] eqn:Ej; [|discriminate]. apply lookup_seq in Ej as [-> _]. injection Hx as <-.
    unfold slot. cbn. rewrite Nat2Z.id. auto.
  - intros [Hp Hv]. exists (slot p). apply lookup_zip_with_Some. exists p, v. split; [reflexivity|]. split; [|exact Hv].
    rewrite list_lookup_fmap. rewrite (proj2 (lookup_seq 0 (length (cm_values m)) (slot p) (slot p))); [cbn; now rewrite <- Hp|]. apply lookup_lt_Some in Hv. lia.
Qed.

Lemma cm_iter_keys {V} (m : ColumnMap V) : map fst (cm_iter m) = cm_keys m.
Proof. unfold cm_iter. apply fst_zip. unfold cm_keys. rewrite length_map, length_seq. lia. Qed.

Lemma cm_keys_nodup {V} (m : ColumnMap V) : NoDup (cm_keys m).
Proof. unfold cm_keys. apply NoDup_fmap_2_strong; [|apply NoDup_seq]. intros i j _ _ [= Hij]. now apply Nat2Z.inj. Qed.

Lemma cm_keys_in {V} (m : ColumnMap V) p : In p (cm_keys m) -> ptype p = cm_ptype m /\ (slot p < cm_len m)%nat.
Proof.
  unfold cm_keys. intros (i & <- & Hi%in_seq)%in_map_iff. unfold slot, cm_len. cbn. rewrite Nat2Z.id. split; [reflexivity|lia].
Qed.

(** ** From the fixed columns to the constraints of the program *)

Section Run.
Variable fd : FixedData T.
Variable rank : AlgebraicReferenceThin -> nat.
Variable fuel : nat.
Hypothesis Hwf : WellFormed fd rank fuel.

Notation defs := (fd_intermediate_definitions fd).

Variable fixed_known : list (PolyID * RangeConstraint T).
Variable full_span : gset PolyID.
Hypothesis Hkeys : map fst fixed_known = cm_keys (fd_fixed_cols fd).
Hypothesis Hknown : forall p c, In (p, c) fixed_known -> rc_wf c /\ exists col l, In (p, col) (cm_iter (fd_fixed_cols fd)) /\ values_max_size col = Some l /\ l <> [] /\ Forall (rc_allows c) l.
Hypothesis Hspan : forall p, p ∈ full_span -> exists c col l, In (p, c) fixed_known /\ In (p, col) (cm_iter (fd_fixed_cols fd)) /\ values_max_size col = Some l /\ l <> [] /\
      forall x : T, submask (to_integer x) (rc_mask c) -> x ∈ l.

Definition known0 : gmap PolyID (RangeConstraint T) := list_to_map fixed_known.

Lemma fixed_nodup : NoDup (map fst fixed_known).
Proof. rewrite Hkeys. apply cm_keys_nodup. Qed.

Lemma known0_lookup p c : known0 !! p = Some c <-> In (p, c) fixed_known.
Proof. unfold known0. rewrite <- list_elem_of_In. symmetry. apply elem_of_list_to_map, fixed_nodup. Qed.

Lemma known0_fit : known_fit known0.
Proof. intros p c Hc%known0_lookup. now apply Hknown in Hc. Qed.

Lemma known0_constant p : is_Some (known0 !! p) -> ptype p = ConstantPoly.
Proof. intros [c Hc%known0_lookup]. apply (in_map fst) in Hc. rewrite Hkeys in Hc. cbn [fst] in Hc. apply cm_keys_in in Hc as [-> _]. apply (wf_fixed _ _ _ Hwf). Qed.

(** The cells of a fixed column are its values. *)
Lemma fixed_cells t p col l row : fits fd t -> In (p, col) (cm_iter (fd_fixed_cols fd)) -> values_max_size col = Some l ->
  l !! Z.to_nat (row mod Z.of_nat (length l)) = Some (cells t p row) /\ value defs rank t row (AReference (column p)) = Some (cells t p row).
Proof.
  intros Hf [Hp Hc]%cm_iter_lookup Hl. rewrite (wf_fixed _ _ _ Hwf) in Hp. split; [|apply value_column; rewrite Hp; discriminate].
  rewrite Hp. exact (Hf (slot p) col l Hc Hl row).
Qed.

Lemma known0_ok t : fits fd t -> known_ok defs rank t known0.
Proof.
  intros Hf p c Hc%known0_lookup row. destruct (Hknown p c Hc) as (_ & col & l & Hcol & Hl & _ & Ha). destruct (fixed_cells t p col l row Hf Hcol Hl) as [Hi Hv].
  exists (cells t p row). split; [exact Hv|]. rewrite List.Forall_forall in Ha. apply Ha, list_elem_of_In, list_elem_of_lookup. eauto.
Qed.

Lemma known0_spans t : fits fd t -> spans defs rank t full_span known0.
Proof.
  intros Hf p Hp. destruct (Hspan p Hp) as (c & col & l & Hc & Hcol & Hl & Hne & Hx). exists c. split; [now apply known0_lookup|]. intros x Hm.
  pose proof (Hx x Hm) as [i Hi]%list_elem_of_lookup. exists (Z.of_nat i). destruct (fixed_cells t p col l (Z.of_nat i) Hf Hcol Hl) as [Hi' ->].
  pose proof (lookup_lt_Some _ _ _ Hi) as Hlt. rewrite Z.mod_small, Nat2Z.id in Hi' by lia. congruence.
Qed.

Variable final : gmap PolyID (RangeConstraint T).
Hypothesis Hrefined : refined (program_column fd) known0 final.

Lemma committed_in p c : In (p, c) (committed_constraints final) <-> exists c0, c = Some c0 /\ final !! p = Some c0 /\ ptype p = Committed.
Proof.
  unfold committed_constraints. rewrite in_map_iff. split.
  - intros ([q d] & [= <- <-] & [Hin Hp]%List.filter_In). apply bool_decide_eq_true in Hp. apply list_elem_of_In, elem_of_map_to_list in Hin. eauto.
  - intros (c0 & -> & Hc & Hp). exists (p, c0). split; [reflexivity|]. apply List.filter_In. split; [now apply list_elem_of_In, elem_of_map_to_list|]. cbn. now apply bool_decide_eq_true.
Qed.

Lemma committed_range p c0 : final !! p = Some c0 -> ptype p = Committed -> 0 <= poly_id p < Z.of_nat (fd_witness_cols fd).
Proof.
  intros Hc Hp. destruct Hrefined as (_ & _ & Hd). destruct (Hd p (ex_intro _ c0 Hc)) as [H0|Hcol]; [apply known0_constant in H0; congruence|now apply Hcol].
Qed.

Lemma committed_slot p c0 : final !! p = Some c0 -> ptype p = Committed -> p = mkPolyID (Z.of_nat (slot p)) Committed /\ (slot p < fd_witness_cols fd)%nat.
Proof.
  intros Hc Hp. pose proof (committed_range p c0 Hc Hp) as Hr. unfold slot. split; [|lia]. rewrite Z2Nat.id by lia. destruct p. cbn in *. congruence.
Qed.

Lemma committed_nodup : NoDup (map (fun pv => slot (fst pv)) (committed_constraints final)).
Proof.
  assert (Hslots : forall p c, In (p, c) (committed_constraints final) -> p = mkPolyID (Z.of_nat (slot p)) Committed).
  { intros p c (c0 & _ & Hc & Hp)%committed_in. now apply (committed_slot p c0). }
  assert (Hnd : NoDup (map fst (committed_constraints final))).
  { unfold committed_constraints. rewrite map_map. cbn. pose proof (NoDup_fst_map_to_list final) as Hnd. revert Hnd. generalize (map_to_list final). intros l.
    induction l as [|[p c] l IH]; cbn; [constructor|]. intros [Hn Hl]%NoDup_cons. destruct (bool_decide _); [|auto]. cbn. apply NoDup_cons. split; [|auto].
    intros Hin. apply Hn. apply list_elem_of_In, in_map_iff in Hin as (q & <- & [Hq _]%List.filter_In). apply list_elem_of_fmap. exists q. split; [reflexivity|now apply list_elem_of_In]. }
  rewrite <- (map_map fst slot). apply NoDup_fmap_2_strong; [|exact Hnd]. intros p q Hp%list_elem_of_In Hq%list_elem_of_In E.
  apply in_map_iff in Hp as ([p' c] & <- & Hp), Hq as ([q' d] & <- & Hq). cbn in *. rewrite (Hslots _ _ Hp), (Hslots _ _ Hq). now rewrite E.
Qed.

(** The constraints of the witness columns are those of the final map. *)
Lemma witness_map : exists m, cm_set_all (committed_constraints final) (cm_new Committed None (fd_witness_cols fd)) = Some m /\
  forall i c, cm_values m !! i = Some (Some c) <-> final !! mkPolyID (Z.of_nat i) Committed = Some c.
Proof.
  destruct (cm_set_all_spec (committed_constraints final) (cm_new Committed None (fd_witness_cols fd))) as (m & Hm & _ & Hlen & Hin & Hout).
  - apply List.Forall_forall. intros [p c] (c0 & _ & Hc & Hp)%committed_in. cbn. split; [exact Hp|]. unfold cm_len, cm_new. cbn. rewrite length_replicate. now apply (committed_slot p c0).
  - exact committed_nodup.
  - exists m. split; [exact Hm|]. intros i c. split.
    + intros Hc. destruct (in_dec Nat.eq_dec i (map (fun pv => slot (fst pv)) (committed_constraints final))) as [Hi|Hi].
      * apply in_map_iff in Hi as ([p v] & <- & Hp). cbn [fst] in *. rewrite (Hin p v Hp) in Hc. injection Hc as ->. apply committed_in in Hp as (c0 & [= <-] & Hf & Ht).
        destruct (committed_slot p c Hf Ht) as [<- _]. exact Hf.
      * rewrite (Hout i Hi) in Hc. unfold cm_new in Hc. cbn in Hc. apply lookup_replicate in Hc as [? _]. discriminate.
    + intros Hc. assert (Hp : In (mkPolyID (Z.of_nat i) Committed, Some c) (committed_constraints final)) by (apply committed_in; eauto).
      rewrite <- (Hin _ _ Hp). unfold slot. cbn. now rewrite Nat2Z.id.
Qed.

End Run.

(** The constraints of the fixed columns, as a map by column. *)
Lemma fixed_map (fd : FixedData T) (fixed_known : list (PolyID * RangeConstraint T)) : cm_ptype (fd_fixed_cols fd) = ConstantPoly -> map fst fixed_known = cm_keys (fd_fixed_cols fd) ->
  exists m, cm_from_indexed ConstantPoly None (map (fun pc => (fst pc, Some (snd pc))) fixed_known) (cm_len (fd_fixed_cols fd)) = Some m /\
    forall i c, cm_values m !! i = Some (Some c) -> In (mkPolyID (Z.of_nat i) ConstantPoly, c) fixed_known.
Proof.
  intros Ht Hkeys. unfold cm_from_indexed.
  assert (Hslots : map (fun pv : PolyID * option (RangeConstraint T) => slot (fst pv)) (map (fun pc => (fst pc, Some (snd pc))) fixed_known) = seq 0 (cm_len (fd_fixed_cols fd))).
  { rewrite map_map. cbn. rewrite <- (map_map fst slot), Hkeys. unfold cm_keys. rewrite map_map. unfold slot. cbn. erewrite map_ext; [apply map_id|]. intros i. cbn. apply Nat2Z.id. }
  destruct (cm_set_all_spec (map (fun pc => (fst pc, Some (snd pc))) fixed_known) (cm_new ConstantPoly None (cm_len (fd_fixed_cols fd)))) as (m & Hm & _ & Hlen & Hin & Hout).
  - apply List.Forall_forall. intros [p c] ([q d] & [= <- <-] & Hq)%in_map_iff. cbn. apply (in_map fst) in Hq. rewrite Hkeys in Hq. cbn in Hq. apply cm_keys_in in Hq as [Hp Hl].
    split; [congruence|]. unfold cm_len, cm_new. cbn. now rewrite length_replicate.
  - rewrite Hslots. apply NoDup_seq.
  - exists m. split; [exact Hm|]. intros i c Hc. assert (Hi : In i (seq 0 (cm_len (fd_fixed_cols fd)))).
    { apply in_seq. apply lookup_lt_Some in Hc. unfold cm_len in Hlen at 1. rewrite Hlen in Hc. unfold cm_len, cm_new in Hc. cbn in Hc. rewrite length_replicate in Hc. unfold cm_len. lia. }
    rewrite <- Hslots in Hi. apply in_map_iff in Hi as ([p v] & <- & Hp). cbn [fst] in *. rewrite (Hin p v Hp) in Hc. injection Hc as ->.
    apply in_map_iff in Hp as ([q d] & [= <- <-] & Hq). cbn in *. pose proof Hq as Hq'. apply (in_map fst) in Hq'. rewrite Hkeys in Hq'. cbn in Hq'.
    unfold cm_keys in Hq'. apply in_map_iff in Hq' as (k & <- & _). unfold slot. cbn. rewrite Nat2Z.id, <- Ht. exact Hq.
Qed.

Lemma unset_assertion (l : list (option (RangeConstraint T))) : Forall (eq None) l -> forallb (fun c => match c with None => true | Some _ => false end) l = true.
Proof. induction 1 as [|c l <- _ IH]; [reflexivity|exact IH]. Qed.

(** Constraints of fixed columns hold in tables that have these columns. *)
Lemma fixed_ranges (fd : FixedData T) rank fuel fixed_known t p c row : WellFormed fd rank fuel -> map fst fixed_known = cm_keys (fd_fixed_cols fd) ->
  known_ok (fd_intermediate_definitions fd) rank t (known0 fixed_known) -> In (p, c) fixed_known -> rc_allows c (cells t p row).
Proof.
  intros Hwf Hkeys Hok Hin. apply (known0_lookup fd fixed_known Hkeys) in Hin. destruct (Hok p c Hin row) as (x & Hx & Ha).
  pose proof (known0_constant fd rank fuel Hwf fixed_known Hkeys p (ex_intro _ c Hin)) as Hp.
  rewrite value_column in Hx by congruence. now injection Hx as <-.
Qed.

(** C24: On a well-formed program the pass over the fixed columns and the identities returns: the
    identities have no publics (a constraint transferred to one panics, see [public_transfer_panics]),
    intermediate definitions are well defined and acyclic, bus sends find receives of their length,
    fixed columns are not empty, and no constraints were set before. The constraints it
    computes hold in every row of every table that has the fixed columns of the program and
    satisfies its identities, whether or not products wrap around, and it keeps a part of the
    identities. The removed ones are implied by the rest and the constraints, provided that range
    checks are on witness columns. *)
Theorem global_constraints_correct (fd : FixedData T) rank fuel : WellFormed fd rank fuel ->
  exists fd', set_global_constraints fuel fd = Some fd' /\ (forall i, In i (fd_identities fd') -> In i (fd_identities fd)) /\
    forall t connect_holds, fits fd t ->
      (all_hold fd rank t connect_holds -> all_hold fd' rank t connect_holds /\ ranges_hold fd' t) /\
      (Forall (removable (fd_intermediate_definitions fd) rank t) (fd_identities fd) ->
       all_hold fd' rank t connect_holds /\ ranges_hold fd' t -> all_hold fd rank t connect_holds).
Proof.
  intros Hwf. unfold set_global_constraints.
  destruct (process_fixed_columns_spec (cm_iter (fd_fixed_cols fd))) as (fixed_known & full_span & -> & Hkeys & Hknown & Hspan).
  { apply List.Forall_forall. intros [p col] [_ Hc]%cm_iter_lookup. cbn. pose proof (wf_columns _ _ _ Hwf) as Hcols. rewrite List.Forall_forall in Hcols.
    apply Hcols, list_elem_of_In, list_elem_of_lookup. eauto. }
  rewrite cm_iter_keys in Hkeys. cbn [mbind option_bind].
  destruct (fixed_map fd fixed_known (wf_fixed _ _ _ Hwf) Hkeys) as (fm & -> & Hfm). cbn [mbind option_bind].
  change (list_to_map fixed_known) with (known0 fixed_known).
  destruct (propagate_all_spec (fd_intermediate_definitions fd) rank (mkTable (fun _ _ => f_zero) (fun _ => f_zero) (fun _ => f_zero)) (wf_acyclic _ _ _ Hwf) (fun _ _ => True)
    (fd_bus_receives fd) fuel (wf_definitions _ _ _ Hwf) (wf_fuel _ _ _ Hwf) (program_column fd) full_span (fd_identities fd) (known0 fixed_known)
    (known0_fit fd fixed_known Hkeys Hknown) (wf_identities _ _ _ Hwf)) as (final & retained & Hrun & Href & _ & Hin & _). rewrite Hrun. cbn [mbind option_bind].
  destruct (witness_map fd rank fuel Hwf fixed_known Hkeys final Href) as (wm & -> & Hwm). cbn [mbind option_bind].
  unfold with_global_range_constraints. rewrite (unset_assertion _ (wf_unset _ _ _ Hwf)). cbn [mbind option_bind assert_that].
  eexists. split; [reflexivity|]. split; [intros i [Hi _]%List.filter_In; exact Hi|]. intros t connect_holds Hfits.
  pose proof (known0_ok fd rank fuel Hwf fixed_known Hkeys Hknown t Hfits) as Hok0.
  destruct (propagate_all_spec (fd_intermediate_definitions fd) rank t (wf_acyclic _ _ _ Hwf) connect_holds (fd_bus_receives fd) fuel (wf_definitions _ _ _ Hwf)
    (wf_fuel _ _ _ Hwf) (program_column fd) full_span (fd_identities fd) (known0 fixed_known) (known0_fit fd fixed_known Hkeys Hknown) (wf_identities _ _ _ Hwf))
    as (final' & retained' & Hrun' & _ & Hok & _ & Hex). rewrite Hrun in Hrun'. injection Hrun' as <- <-. unfold all_hold, ranges_hold. cbn.
  split; [intros Hall; split; [|split]|].
  - apply List.Forall_forall. intros i [Hi _]%List.filter_In. rewrite List.Forall_forall in Hall. now apply Hall.
  - intros i c row Hc%Hwm. destruct (Hok Hok0 Hall _ _ Hc row) as (x & Hx & Ha). rewrite value_column in Hx by discriminate. now injection Hx as <-.
  - intros i c row Hc%Hfm. now apply (fixed_ranges fd rank fuel fixed_known).
  - intros Hrem (Hkept & Hwit & _). apply List.Forall_forall. intros i Hi.
    assert (Hfinal : witness_ok t final).
    { intros p c Hc Hp row. destruct (committed_slot fd rank fuel Hwf fixed_known Hkeys final Href p c Hc Hp) as [Ep _]. rewrite Ep. apply (Hwit (slot p)). apply Hwm. now rewrite <- Ep. }
    destruct (Hex (known0_spans fd rank fuel Hwf fixed_known full_span Hkeys Hspan t Hfits) Hrem Hfinal i Hi) as [Hret|Hh]; [|exact Hh].
    rewrite List.Forall_forall in Hkept. apply Hkept, List.filter_In. split; [exact Hi|]. apply bool_decide_eq_true, list_elem_of_In. now apply in_map.
Qed.

End Pass.

(** ** Examples *)

Module GlobalDemo.

Notation GF := GoldilocksField.
#[local] Instance display_variable : Display AlgebraicVariable := fun v =>
  match v with ColumnVar r => pretty (poly_id (thin_poly_id r)) | PublicVar p => p end.
#[local] Instance display_element : Display GF := fun x => pretty (to_integer x).

Definition num (z : Z) : AlgebraicExpression GF := ANumber (from_int z).
Definition witness_ref (i : Z) : AlgebraicExpression GF := AReference (column (mkPolyID i Committed)).
Definition fixed_ref (i : Z) : AlgebraicExpression GF := AReference (column (mkPolyID i ConstantPoly)).
Definition intermediate_ref (i : Z) : AlgebraicExpression GF := AReference (column (mkPolyID i IntermediatePoly)).
Definition fixed_column (l : list Z) : VariablySizedColumn GF := mkVariablySizedColumn {[ Z.of_nat (length l) := map from_int l ]} None.
Notation "a +' b" := (ABinaryOperation a AAdd b) (at level 50, left associativity).
Notation "a -' b" := (ABinaryOperation a ASub b) (at level 50, left associativity).
Notation "a *' b" := (ABinaryOperation a AMul b) (at level 40, left associativity).

(** A lookup of one column in another, on a bus of its own. *)
Definition range_check (id : Z) (e : AlgebraicExpression GF) : Identity GF := IdBusSend (mkBusSend id (num id) (mkSelectedExpressions (num 1) [e])).
Definition receive (id : Z) (e : AlgebraicExpression GF) : Z * BusReceive GF := (id, mkBusReceive (from_int id) (mkSelectedExpressions (num 1) [e]) None).

(** Columns [RANGE], [SHIFTED] and witnesses [A], [B], [C], [D]. *)
Definition demo_identities : list (Identity GF) :=
  [IdPolynomial 1 ((num 1 -' witness_ref 0 +' num 0) *' (witness_ref 0 +' num 1 -' num 1));
   range_check 2 (witness_ref 1);
   IdPolynomial 3 (witness_ref 2 -' (witness_ref 0 *' num 4 +' witness_ref 1));
   range_check 4 (witness_ref 3);
   range_check 5 (witness_ref 3)].
Definition no_constraints (w f : nat) : GlobalConstraints GF := mkGlobalConstraints (cm_new Committed None w) (cm_new ConstantPoly None f).
Definition demo : FixedData GF := mkFixedData demo_identities
  (list_to_map [receive 2 (fixed_ref 0); receive 4 (fixed_ref 0); receive 5 (fixed_ref 1)])
  (cm_from ConstantPoly [fixed_column [0; 1; 2; 3]; fixed_column [0; 2; 0; 2]]) 4 ∅ (no_constraints 4 2).

Definition masks (fd : FixedData GF) : list (option Z) := map (option_map rc_mask) (cm_values (witness_constraints (fd_global_range_constraints fd))).

Example demo_constraints : (fun fd => (masks fd, map identity_id (fd_identities fd))) <$> set_global_constraints 1 demo =
  Some ([Some 1; Some 3; Some 7; Some 2], [3; 5]).
Proof. vm_compute. reflexivity. Qed.

Lemma demo_leaf (fd : FixedData GF) i : 0 <= i < Z.of_nat (fd_witness_cols fd) -> within (T:=GF) ∅ (column_leaf (program_column fd)) (witness_ref i).
Proof. intros Hi. constructor; [|discriminate]. intros _. exact Hi. Qed.

Lemma demo_wf : WellFormed demo (fun _ => 0%nat) 1.
Proof.
  split; try (intros; lia).
  - intros r d r'. cbn. now rewrite lookup_empty.
  - intros r d. cbn. now rewrite lookup_empty.
  - unfold demo, demo_identities. cbn [fd_identities]. repeat (apply Forall_cons; split); [..|apply Forall_nil; exact I].
    1, 3: split; [repeat (constructor; try (apply demo_leaf; cbn; lia)); apply demo_leaf; cbn; lia|reflexivity].
    all: eexists _, _; (split; [reflexivity|]); (split; [vm_compute; reflexivity|]); (split; [reflexivity|]);
      intros p [E|[]]; injection E as <-; intros _ _; cbn; lia.
  - reflexivity.
  - repeat (apply Forall_cons; split); [..|apply Forall_nil; exact I]; eexists; (split; [vm_compute; reflexivity|discriminate]).
  - repeat (apply Forall_cons; split; [reflexivity|]). apply Forall_nil. exact I.
Qed.

Lemma global_constraints_correct_witness : WellFormed demo (fun _ => 0%nat) 1 /\
  exists fd', set_global_constraints 1 demo = Some fd' /\ masks fd' = [Some 1; Some 3; Some 7; Some 2] /\
    forall t, fits demo t -> all_hold demo (fun _ => 0%nat) t (fun _ _ => True) -> ranges_hold fd' t.
Proof.
  split; [exact demo_wf|]. destruct (global_constraints_correct demo (fun _ => 0%nat) 1 demo_wf) as (fd' & Hrun & _ & Ht).
  exists fd'. split; [exact Hrun|]. split.
  - pose proof demo_constraints as Hd. rewrite Hrun in Hd. now injection Hd.
  - intros t Hf Hall. now apply (Ht t (fun _ _ => True) Hf).
Defined.

(** ** A range check on an intermediate column is lost *)

(** [I = 4 * X] and the lookup of [I] in [RANGE]. *)
Definition lost : FixedData GF := mkFixedData [range_check 1 (intermediate_ref 0)]
  (list_to_map [receive 1 (fixed_ref 0)]) (cm_from ConstantPoly [fixed_column [0; 1; 2; 3]]) 1
  {[ mkThin (mkPolyID 0 IntermediatePoly) false := num 4 *' witness_ref 0 ]} (no_constraints 1 1).

(** [X] is one in every row, so that [I] is four. *)
Definition lost_table : Table GF :=
  mkTable (fun p row => match ptype p with ConstantPoly => from_int (row mod 4) | _ => f_one end) (fun _ => f_zero) (fun _ => f_zero).

Lemma lost_fits : fits lost lost_table.
Proof.
  intros i col l Hi Hl row. destruct i as [|i]; [|destruct i; discriminate]. injection Hi as <-. vm_compute in Hl. injection Hl as <-.
  cbn [length]. change (Z.of_nat 4) with 4. cbn. pose proof (Z.mod_pos_bound row 4 ltac:(lia)) as Hm. set (m := row mod 4) in *.
  assert (m = 0 \/ m = 1 \/ m = 2 \/ m = 3) as [->|[->|[->| ->]]] by lia; vm_compute; f_equal; now apply to_integer_inj.
Qed.

(** The lookup is removed although nothing is left of it: a table that violates it satisfies what remains. *)
Theorem intermediate_range_check_lost : exists fd', set_global_constraints 1 lost = Some fd' /\ fd_identities fd' = [] /\ masks fd' = [None] /\
  fits lost lost_table /\ forall connect_holds, ~ all_hold lost (fun _ => 0%nat) lost_table connect_holds.
Proof.
  assert (Hrun : (fun fd => (fd_identities fd, masks fd)) <$> set_global_constraints 1 lost = Some ([], [None])) by (vm_compute; reflexivity).
  destruct (set_global_constraints 1 lost) as [fd'|]; [|discriminate]. injection Hrun as Hids Hmasks. exists fd'. split; [reflexivity|].
  split; [exact Hids|]. split; [exact Hmasks|]. split; [exact lost_fits|]. intros connect_holds Hall. inversion Hall as [|i l Hi _]; subst. destruct Hi as (bus & r & Hbus & Hr & Hp).
  injection Hbus as <-. vm_compute in Hr. injection Hr as <-. destruct (Hp 0) as (row' & vs & _ & Hl & Hr); [reflexivity|].
  apply (f_equal (option_map (map to_integer))) in Hl. match type of Hl with ?x = _ => replace x with (Some [4]) in Hl by (vm_compute; reflexivity) end.
  cbn in Hr. rewrite Z.add_0_r in Hr. injection Hr as <-. injection Hl as Hl. pose proof (Z.mod_pos_bound row' 4 ltac:(lia)) as Hm. set (m := row' mod 4) in *.
  assert (m = 0 \/ m = 1 \/ m = 2 \/ m = 3) as [E|[E|[E|E]]] by lia; rewrite E in Hl; vm_compute in Hl; discriminate.
Qed.

(** ** Publics *)

(** A bit that equals a public: the constraint of the bit would be transferred to the public. *)
Definition public_identities : list (Identity GF) :=
  [IdPolynomial 1 (witness_ref 0 *' (witness_ref 0 -' num 1)); IdPolynomial 2 (witness_ref 0 -' APublicReference "out"%string)].

Example public_transfer_panics : set_global_constraints 1 (mkFixedData public_identities ∅ (cm_from ConstantPoly []) 1 ∅ (no_constraints 1 0)) = None.
Proof. vm_compute. reflexivity. Qed.

End GlobalDemo.
