(* ===== verification/RowEvaluation.v ===== *)
(** * Evaluation of expressions in one row of the witness generator

    The partial evaluator with the access of [symbolic_witness_evaluator.rs]: it always answers,
    its answer stands for the value of the expression in the row, and it is a constant when the
    cells of the row are known. *)

From stdpp Require Import base list option gmap strings.
From Stdlib Require Import ZArith Lia.
From S2P Require Import Prelude Field Goldilocks EvalResult AffineExpression AffineSolver PanicMonad SymbolicExpr Effect ExpressionEvaluator PartialEvaluator.

(** ** Known operands *)

Section Known.
Context {T : Type} `{FieldElement T}.
Variable variables : SymbolicVariables T.
Variable defs : gmap AlgebraicReferenceThin (AlgebraicExpression T).
Variable rank : AlgebraicReferenceThin -> nat.
Hypothesis Hacyclic : acyclic defs rank.

Definition constant_result_of (r : AffineResult T) : Prop := exists v, r = inl (Constant v).

(** All columns, publics and challenges of the expression are answered with constants. *)
Fixpoint known (e : AlgebraicExpression T) : Prop :=
  match e with
  | AReference r => ptype (ref_poly_id r) <> IntermediatePoly -> exists v, sv_value variables (ColumnVar (to_thin r)) = Some (inl (Constant v))
  | APublicReference p => exists v, sv_value variables (PublicVar p) = Some (inl (Constant v))
  | AChallenge ch => exists v, sv_challenge variables ch = Some (inl (Constant v))
  | ANumber _ => True
  | ABinaryOperation e1 _ e2 => known e1 /\ known e2
  | AUnaryOperation _ e1 => known e1
  end.
Hypothesis Hdefs : forall r d, defs !! r = Some d -> well_defined defs d = true /\ known d.

Notation cache := (gmap AlgebraicReferenceThin (AffineResult T)).
Definition known_cache (c : cache) : Prop := forall r res, c !! r = Some res -> constant_result_of res.

(** The computation returns a constant, and caches constants only. *)
Definition yields (m : M cache (AffineResult T)) : Prop :=
  forall c, known_cache c -> exists v c', m c = Some (inl (Constant v), c') /\ known_cache c'.

Lemma yields_ret v : yields (mret (inl (Constant v))).
Proof. intros c Hc. exists v, c. now split. Qed.

Lemma yields_bind m (k : AffineResult T -> M cache (AffineResult T)) : yields m -> (forall v, yields (k (inl (Constant v)))) -> yields (m ≫= k).
Proof. intros Hm Hk c Hc. unfold mbind, M_bind. destruct (Hm c Hc) as (v & c' & -> & Hc'). now apply Hk. Qed.

Lemma yields_try m k : yields m -> (forall v, yields (k (Constant v))) -> yields (try_ m k).
Proof. intros Hm Hk. apply yields_bind; auto. Qed.

Lemma yields_lift (o : option (AffineResult T)) : (exists v, o = Some (inl (Constant v))) -> yields (lift o).
Proof. intros [v ->]. exact (yields_ret v). Qed.

Lemma yields_binary op l r : op <> APow -> yields l -> yields r -> yields (evaluate_binary_operation op l r).
Proof.
  intros Hop Hl Hr. destruct op; cbn [evaluate_binary_operation]; [| | |easy].
  - apply yields_try; [exact Hl|]. intros v. destruct (aff_is_zero _); [exact Hr|]. apply yields_try; [exact Hr|]. intros w.
    destruct (aff_is_zero _); apply yields_ret.
  - apply yields_try; [exact Hl|]. intros v. apply yields_try; [exact Hr|]. intros w. apply yields_ret.
  - apply yields_bind; [exact Hl|]. intros v. cbn. destruct (f_is_zero v); [apply yields_ret|]. destruct (f_is_one v); [exact Hr|].
    apply yields_try; [exact Hr|]. intros w. unfold affine_product, aff_mul. cbn. destruct (f_is_zero v); apply yields_ret.
Qed.

Lemma yields_pow l n : yields l -> yields (evaluate_binary_operation APow l (mret (inl (Constant n)))).
Proof.
  intros Hl. apply yields_try; [exact Hl|]. intros v c Hc. exists (f_pow v (to_integer n)), c. split; [reflexivity|exact Hc].
Qed.

Lemma yields_cache r v : yields (modify (fun c : cache => <[r := inl (Constant v)]> c);; mret (inl (Constant v))).
Proof.
  intros c Hc. exists v, (<[r := inl (Constant v)]> c). split; [reflexivity|]. intros r' res. destruct (decide (r' = r)) as [->|Hne].
  - rewrite lookup_insert_eq. intros [= <-]. now eexists.
  - rewrite lookup_insert_ne by congruence. apply Hc.
Qed.

Lemma evaluate_known fuel : forall e, well_defined defs e = true -> known e -> (forall r, In r (intermediates e) -> (rank r < fuel)%nat) ->
  yields (evaluate variables defs fuel e).
Proof.
  induction fuel as [|fuel IHf]; intros e; induction e as [r|p|ch|n|e1 IH1 op e2 IH2|op e1 IH1]; intros Hwd Hk Hr; cbn [evaluate].
  all: try apply yields_ret.
  all: try (apply yields_lift; exact Hk).
  all: try (cbn [well_defined] in Hwd; apply andb_prop in Hwd as [Hwd Hop]; apply andb_prop in Hwd as [Hw1 Hw2]; destruct Hk as [Hk1 Hk2];
    cbn [intermediates] in Hr; destruct op; try (apply yields_binary; [discriminate|apply IH1|apply IH2]; auto using in_or_app; fail);
    destruct e2; try discriminate; apply yields_pow, IH1; auto using in_or_app; fail).
  all: try (apply yields_try; [now apply IH1|]; intros v; destruct op; apply yields_ret).
  all: cbn [well_defined intermediates known] in Hwd, Hr, Hk; destruct (ptype (ref_poly_id r)) eqn:Ept; [apply yields_lift, Hk; discriminate..|].
  all: specialize (Hr _ (or_introl eq_refl)); try lia.
  apply bool_decide_eq_true in Hwd as [d Ed]. rewrite Ed. destruct (Hdefs _ _ Ed) as [Hwd' Hk'].
  assert (Hr' : forall r', In r' (intermediates d) -> (rank r' < fuel)%nat) by (intros r' Hin; pose proof (Hacyclic _ _ _ Ed Hin); lia).
  intros c Hc. destruct (c !! to_thin r) as [res|] eqn:Ec.
  - destruct (Hc _ _ Ec) as [v ->]. exists v, c. unfold mbind, M_bind, gets. rewrite Ec. now split.
  - unfold mbind at 1, M_bind at 1, gets. rewrite Ec. refine (yields_bind _ _ (IHf d Hwd' Hk' Hr') _ c Hc). intros v. now apply yields_cache.
Qed.

End Known.

(** ** A row *)

Section Row.
Context {T : Type} `{FL : FieldLaws T}.
(** Fixed columns at the size of the machine, challenges, the row, and the access to witness cells. *)
Variable fixed_values : PolyID -> option (list T).
Variable challenges : gmap Z T.
Variable row : Z.
Variable witness_access : AlgebraicVariable -> option (AffineResult T).
Variable defs : gmap AlgebraicReferenceThin (AlgebraicExpression T).
Variable rank : AlgebraicReferenceThin -> nat.

Notation evaluator := (SymbolicWitnessEvaluator fixed_values challenges row witness_access).

(** The values of the row, with the witness cells and publics of [env]. *)
Definition row_access (env : AlgebraicVariable -> T) : TerminalAccess T := {|
  ta_get r :=
    match ptype (ref_poly_id r) with
    | Committed => Some (env (ColumnVar (to_thin r)))
    | ConstantPoly => fixed_value fixed_values (to_thin r) row
    | IntermediatePoly => None
    end;
  ta_get_public p := Some (env (PublicVar p));
  ta_get_challenge ch := challenges !! challenge_id ch
|}.

Definition row_value (env : AlgebraicVariable -> T) (e : AlgebraicExpression T) : option T :=
  meaning (row_access env) (fun x : T => x) (intermediate_value (row_access env) defs (fun x : T => x) rank) e.

(** What the caller of the evaluator knows of the cells is true of [env]. *)
Definition access_true (env : AlgebraicVariable -> T) : Prop :=
  forall v a, witness_access v = Some (inl a) -> aff_proper a /\ eqm modulus (aff_val a env) (to_integer (env v)).

Lemma witness_result env v res : access_true env -> witness_access v = Some res -> result_ok env (fun _ => True) res (Some (env v)).
Proof.
  intros Hok Hv. destruct res as [a|cause]; [|exact I]. destruct (Hok v a Hv) as [Hp Ha]. split; [exact Hp|]. split; [now apply List.Forall_forall|].
  now intros w [= <-].
Qed.

Lemma fixed_result env x : result_ok env (fun _ => True) (inl (Constant x)) (Some x).
Proof. split; [exact I|]. split; [constructor|]. intros v [= <-]. unfold aff_val. cbn. eqm_lia. Qed.

Lemma row_access_ok env : acyclic defs rank -> access_true env ->
  AccessOk evaluator defs (row_access env) env (intermediate_value (row_access env) defs (fun x : T => x) rank) (fun _ => True) (fun _ => True).
Proof.
  intros Hacyclic Hok. split.
  - intros r res Hp _. cbn. destruct (ptype (ref_poly_id r)); [now apply witness_result| |contradiction].
    destruct (fixed_value fixed_values (to_thin r) row) as [x|]; [|discriminate]. intros [= <-]. apply fixed_result.
  - intros p res _. cbn. now apply witness_result.
  - intros ch res. cbn. destruct (challenges !! challenge_id ch) as [x|]; [|discriminate]. intros [= <-]. apply fixed_result.
  - intros r. apply intermediate_value_def, Hacyclic.
  - intros r d _ _ _. now apply List.Forall_forall.
Qed.

(** C25: The partial evaluator, used for a row, answers every expression whose cells it may ask for.
    An affine answer has the value of the expression for all values of the cells that agree with
    what is known of them, with intermediate columns expanded; when the cells are known, the
    answer is the value itself. *)
Theorem row_evaluation fuel e : acyclic defs rank -> (forall r, (rank r < fuel)%nat) ->
  (forall r d, defs !! r = Some d -> well_defined defs d = true /\ answered evaluator d) ->
  well_defined defs e = true -> answered evaluator e ->
  exists res, evaluate_fresh evaluator defs fuel e = Some res /\
    (forall env a v, access_true env -> res = inl a -> row_value env e = Some v -> aff_proper a /\ eqm modulus (aff_val a env) (to_integer v)) /\
    (known evaluator e -> (forall r d, defs !! r = Some d -> known evaluator d) ->
     exists v, res = inl (Constant v) /\ forall env w, access_true env -> row_value env e = Some w -> w = v).
Proof.
  intros Hacyclic Hfuel Hdefs Hwd Ha.
  destruct (evaluate_returns evaluator defs rank Hacyclic (fun r d E => proj1 (Hdefs r d E)) (fun r d E => proj2 (Hdefs r d E)) fuel e Hwd Ha (fun r _ => Hfuel r) ∅) as [[res c] E].
  unfold evaluate_fresh. rewrite E. cbn. exists res. split; [reflexivity|].
  assert (Hsound : forall env, access_true env -> result_ok env (fun _ => True) res (row_value env e)).
  { intros env Hok. refine (proj1 (evaluate_sound _ _ _ _ _ _ _ (row_access_ok env Hacyclic Hok) fuel e _ ∅ _ _ _ E)); [now apply List.Forall_forall|].
    intros r x. now rewrite lookup_empty. }
  split.
  - intros env a v Hok -> Hv. destruct (Hsound env Hok) as (Hp & _ & Hval). auto.
  - intros Hk Hkd. destruct (evaluate_known evaluator defs rank Hacyclic (fun r d Ed => conj (proj1 (Hdefs r d Ed)) (Hkd r d Ed)) fuel e Hwd Hk (fun r _ => Hfuel r) ∅) as (v & c' & E' & _).
    { intros r x. now rewrite lookup_empty. }
    rewrite E in E'. injection E' as -> _. exists v. split; [reflexivity|]. intros env w Hok Hw.
    exact (constant_result _ _ _ _ _ _ (Hsound env Hok) eq_refl Hw).
Qed.

End Row.

(** ** Example *)

Module RowDemo.

Notation GF := GoldilocksField.
Definition num (z : Z) : GF := from_int z.
Definition cell (i : Z) (t : PolynomialType) (next : bool) : AlgebraicExpression GF := AReference (mkAlgebraicReference EmptyString (mkPolyID i t) next).

(** [F = [5, 6]], [I = F' * X + c] with challenge [c = 3], the expression [I - 4 * Y]. *)
Definition fixed_values (p : PolyID) : option (list GF) := Some [num 5; num 6].
Definition challenges : gmap Z GF := {[ 1 := num 3 ]}.
Definition definition : AlgebraicExpression GF :=
  ABinaryOperation (ABinaryOperation (cell 0 ConstantPoly true) AMul (cell 0 Committed false)) AAdd (AChallenge (mkChallenge 1 0)).
Definition definitions : gmap AlgebraicReferenceThin (AlgebraicExpression GF) := {[ mkThin (mkPolyID 0 IntermediatePoly) false := definition ]}.
Definition expr : AlgebraicExpression GF :=
  ABinaryOperation (cell 0 IntermediatePoly false) ASub (ABinaryOperation (ANumber (num 4)) AMul (cell 1 Committed false)).
(** [Y] is known to be two, [X] is not known. *)
Definition access (v : AlgebraicVariable) : option (AffineResult GF) :=
  match v with
  | ColumnVar r => if poly_id (thin_poly_id r) =? 1 then Some (inl (Constant (num 2))) else Some (inl (from_variable_id v))
  | PublicVar _ => None
  end.
Definition demo_rank (r : AlgebraicReferenceThin) : nat := 0.

Lemma definitions_lookup r d : definitions !! r = Some d -> d = definition.
Proof. unfold definitions. now intros [_ <-]%lookup_singleton_Some. Qed.

Lemma row_evaluation_witness : (forall r d, definitions !! r = Some d ->
    well_defined definitions d = true /\ answered (SymbolicWitnessEvaluator fixed_values challenges 1 access) d) /\
  exists a, evaluate_fresh (SymbolicWitnessEvaluator fixed_values challenges 1 access) definitions 1 expr = Some (inl a) /\
    forall env v, access_true access env -> row_value fixed_values challenges 1 definitions demo_rank env expr = Some v ->
      eqm modulus (aff_val a env) (to_integer v).
Proof.
  assert (Hd : forall r d, definitions !! r = Some d -> well_defined definitions d = true /\ answered (SymbolicWitnessEvaluator fixed_values challenges 1 access) d).
  { intros r d ->%definitions_lookup. split; [vm_compute; reflexivity|]. repeat split; try (intros _); eexists; vm_compute; reflexivity. }
  split; [exact Hd|].
  destruct (row_evaluation fixed_values challenges 1 access definitions demo_rank 1 expr) as (res & Hres & Hval & _).
  - intros r d r' ->%definitions_lookup. cbn. tauto.
  - unfold demo_rank. lia.
  - exact Hd.
  - vm_compute. reflexivity.
  - repeat split; try (intros E; now contradiction E); try (intros _; eexists; vm_compute; reflexivity).
  - destruct res as [a|]; [|vm_compute in Hres; discriminate]. exists a. split; [exact Hres|]. intros env v Hok Hv. now apply (Hval env a v).
Defined.

(** [5 * X + 3 - 8]: the next row wraps around. *)
Example row_evaluation_value :
  (r ← evaluate_fresh (SymbolicWitnessEvaluator fixed_values challenges 1 access) definitions 1 expr;
   match r with inl (OneVar (v, a) b) => Some (v, to_integer a, to_signed_integer b) | _ => None end) =
  Some (ColumnVar (mkThin (mkPolyID 0 Committed) false), 5, -5).
Proof. vm_compute. reflexivity. Qed.

End RowDemo.
