(* ===== verification/IdentityConversion.v ===== *)
(** * Correctness of the conversion of identities

    The conversion of [data_structures/identity.rs] returns on the identities of checked programs:
    every lookup and permutation becomes a send and a receive on a bus of their own, and the
    interactions with buses keep theirs. *)

From stdpp Require Import base list option gmap strings.
From Stdlib Require Import ZArith Lia.
From S2P Require Import Prelude Field Goldilocks PanicMonad SymbolicExpr Effect ExpressionEvaluator WriteOnceMemory BusAccumulator Identities.

Section Conversion.
Context {T : Type} `{FL : FieldLaws T}.

(** The two sides of a lookup or a permutation, and the multiplicity of the right one. *)
Definition pair_of (i : AnalyzedIdentity T) : option (Z * SelectedExpressions T * SelectedExpressions T * option (AlgebraicExpression T)) :=
  match i with
  | AnLookup id l r => Some (id, l, r, None)
  | AnPhantomLookup id l r m => Some (id, l, r, Some m)
  | AnPermutation id l r | AnPhantomPermutation id l r => Some (id, l, r, Some (selector r))
  | _ => None
  end.
Definition is_pair (i : AnalyzedIdentity T) : bool := match pair_of i with Some _ => true | None => false end.

(** Interactions that receive have a negated multiplicity. *)
Definition received (b : PhantomBusInteractionIdentity T) : option (AlgebraicExpression T) :=
  match multiplicity b with AUnaryOperation AMinus m => Some m | _ => None end.

(** What the analyzer guarantees of an interaction: a literal bus, and a sender whose
    multiplicity is its latch. *)
Definition interaction_wf (i : AnalyzedIdentity T) : Prop :=
  match i with
  | AnPhantomBusInteraction b => (exists id, bus_id b = ANumber id) /\ (received b = None -> multiplicity b = latch b)
  | _ => True
  end.

Definition receiving_bus (i : AnalyzedIdentity T) : option Z :=
  match i with
  | AnPhantomBusInteraction b => match received b, bus_id b with Some _, ANumber id => Some (to_integer id) | _, _ => None end
  | _ => None
  end.

(** ** Equality of expressions is an equality *)

Lemma expression_eqb_refl (e : AlgebraicExpression T) : expression_eqb e e = true.
Proof.
  induction e as [r|p|ch|n|e1 IH1 op e2 IH2|op e1 IH1]; cbn.
  - unfold reference_eqb. now apply bool_decide_eq_true.
  - apply String.eqb_refl.
  - unfold challenge_eqb. now rewrite !Z.eqb_refl.
  - unfold f_eqb. apply Z.eqb_refl.
  - rewrite IH1, IH2. now destruct op.
  - now destruct op.
Qed.

Lemma multiplicity_of_permutation bus (r : SelectedExpressions T) : has_arbitrary_multiplicity (mkBusReceive bus r (Some (selector r))) = false.
Proof. unfold has_arbitrary_multiplicity. cbn. now rewrite expression_eqb_refl. Qed.

(** ** One identity *)

Lemma convert_interaction b id : bus_id b = ANumber id -> (received b = None -> multiplicity b = latch b) ->
  convert_phantom_bus_interaction b = Some
    match received b with
    | Some m => AReceive (mkBusReceive id (mkSelectedExpressions (latch b) (payload b)) (Some m))
    | None => AnIdentity (IdBusSend (mkBusSend (interaction_id b) (ANumber id) (mkSelectedExpressions (latch b) (payload b))))
    end.
Proof.
  intros Hid Hm. unfold convert_phantom_bus_interaction, received in *. rewrite Hid.
  destruct (multiplicity b) as [r|p|ch|n|e1 op e2|[] e1]; cbn -[expression_eqb] in *; try reflexivity; rewrite <- Hm by reflexivity; now rewrite expression_eqb_refl.
Qed.

(** The result for an identity when the next free bus is [n]. *)
Definition converted_one (n : Z) (i : AnalyzedIdentity T) : list (@IdentityOrReceive T) :=
  match i with
  | AnPolynomial id e => [AnIdentity (IdPolynomial id e)]
  | AnConnect id l r => [AnIdentity (IdConnect id l r)]
  | AnPhantomBusInteraction b => match convert_phantom_bus_interaction b with Some c => [c] | None => [] end
  | _ =>
    match pair_of i with
    | Some (id, l, r, m) => [AnIdentity (IdBusSend (mkBusSend id (ANumber (from_u64 n)) l)); AReceive (mkBusReceive (from_u64 n) r m)]
    | None => []
    end
  end.
Definition next_bus (n : Z) (i : AnalyzedIdentity T) : Z := if is_pair i then n + 1 else n.

Fixpoint converted (n : Z) (l : list (AnalyzedIdentity T)) : list (list (@IdentityOrReceive T)) :=
  match l with
  | [] => []
  | i :: l' => converted_one n i :: converted (next_bus n i) l'
  end.

Fixpoint pairs (l : list (AnalyzedIdentity T)) : Z := match l with [] => 0 | i :: l' => b2z (is_pair i) + pairs l' end.

Lemma pairs_nonneg l : 0 <= pairs l.
Proof. induction l as [|i l IH]; cbn; [lia|]. destruct (is_pair i); cbn; lia. Qed.

Lemma convert_one_run n i : interaction_wf i -> n + b2z (is_pair i) < 2 ^ 64 -> convert_identity i n = Some (converted_one n i, next_bus n i).
Proof.
  intros Hwf Hn. destruct i as [id e|id l r|id l r m|id l r|id l r|id l r|b]; cbn in *; try reflexivity.
  5: { destruct Hwf as [[id Hid] Hm]. unfold convert_identity. now rewrite (convert_interaction b id Hid Hm). }
  all: unfold bus_interaction_pair, next_bus_id, mbind, M_bind, gets, lift, modify, checked_add; cbn; now rewrite (proj2 (Z.ltb_lt _ _)) by lia.
Qed.

Lemma convert_run l : forall n, Forall interaction_wf l -> n + pairs l < 2 ^ 64 ->
  map_collect convert_identity l n = Some (converted n l, n + pairs l).
Proof.
  induction l as [|i l IH]; intros n Hwf Hn; cbn [map_collect converted pairs]; [now rewrite Z.add_0_r|].
  inversion Hwf as [|? ? Hi Hl]; subst. cbn [pairs] in Hn. pose proof (pairs_nonneg l) as Hp.
  apply (bind_run _ _ _ _ _ _ (convert_one_run n i Hi ltac:(lia))).
  assert (Hnext : next_bus n i + pairs l = n + (b2z (is_pair i) + pairs l)) by (unfold next_bus; destruct (is_pair i); cbn; lia).
  apply (bind_run _ _ _ _ _ _ (IH (next_bus n i) Hl ltac:(lia))). now rewrite Hnext.
Qed.

(** ** The numbers of the buses *)

Lemma in_filter_map {A B} (f : A -> option B) l y : In y (filter_map f l) <-> exists x, In x l /\ f x = Some y.
Proof.
  induction l as [|x l IH]; cbn [filter_map In].
  - split; [contradiction|]. now intros (x & [] & _).
  - destruct (f x) as [z|] eqn:E; cbn [In]; rewrite IH; split.
    + intros [<-|(w & Hw & Hf)]; eauto.
    + intros (w & [<-|Hw] & Hf); [left; congruence|eauto].
    + intros (w & Hw & Hf). eauto.
    + intros (w & [<-|Hw] & Hf); [congruence|eauto].
Qed.

Lemma filter_map_app {A B} (f : A -> option B) l1 l2 : filter_map f (l1 ++ l2) = filter_map f l1 ++ filter_map f l2.
Proof. induction l1 as [|x l1 IH]; cbn; [reflexivity|]. destruct (f x); cbn; now rewrite IH. Qed.

Definition bus_of (r : BusReceive T) : Z := to_integer (receive_bus_id r).
Definition buses (l : list (@IdentityOrReceive T)) : list Z := map bus_of (receives_of l).

Lemma buses_app l1 l2 : buses (l1 ++ l2) = buses l1 ++ buses l2.
Proof. unfold buses, receives_of. now rewrite filter_map_app, map_app. Qed.

Lemma from_u64_int n : 0 <= n < modulus -> to_integer (from_u64 n : T) = n.
Proof.
  intros Hn. unfold from_u64. rewrite from_integer_spec; [now apply Z.mod_small|].
  unfold in_width. pose proof (modulus_fits (T:=T)). lia.
Qed.

Lemma converted_one_buses n i : interaction_wf i -> (is_pair i = true -> 0 <= n < modulus) ->
  buses (converted_one n i) = match receiving_bus i with Some b => [b] | None => if is_pair i then [n] else [] end.
Proof.
  intros Hwf Hn. destruct i as [id e|id l r|id l r m|id l r|id l r|id l r|b]; cbn in *; try reflexivity.
  5: { destruct Hwf as [[id Hid] Hm]. rewrite (convert_interaction b id Hid Hm), Hid. now destruct (received b). }
  all: unfold buses, bus_of; cbn; rewrite from_u64_int; auto.
Qed.

Lemma receiving_not_pair i b : receiving_bus i = Some b -> is_pair i = false.
Proof. now destruct i. Qed.

Lemma converted_buses l : forall n, Forall interaction_wf l -> 0 <= n -> n + pairs l <= modulus ->
  (forall b, In b (buses (concat (converted n l))) -> In b (filter_map receiving_bus l) \/ n <= b < n + pairs l) /\
  (NoDup (filter_map receiving_bus l) -> Forall (fun b => b < n) (filter_map receiving_bus l) -> NoDup (buses (concat (converted n l)))).
Proof.
  induction l as [|i l IH]; intros n Hwf Hn Hm; cbn [converted concat]; [split; [contradiction|constructor]|].
  inversion Hwf as [|? ? Hi Hl]; subst. cbn [pairs] in *. pose proof (pairs_nonneg l) as Hp.
  assert (Hnext : next_bus n i = n + b2z (is_pair i)) by (unfold next_bus; destruct (is_pair i); cbn; lia).
  destruct (IH (next_bus n i) Hl ltac:(rewrite Hnext; destruct (is_pair i); cbn; lia) ltac:(lia)) as [Hin Hnd]. rewrite buses_app.
  assert (Hone := converted_one_buses n i Hi ltac:(intros E; rewrite E in Hm; cbn in Hm; lia)).
  rewrite Hone. cbn [filter_map]. split.
  - intros b [Hb|Hb]%in_app_or.
    + destruct (receiving_bus i); [destruct Hb as [<-|[]]; left; now left|]. destruct (is_pair i) eqn:Ep; [|contradiction]. destruct Hb as [<-|[]]. cbn. right. lia.
    + destruct (Hin b Hb) as [Hr|Hr]; [left; destruct (receiving_bus i); cbn; auto|right; rewrite Hnext in Hr; destruct (is_pair i); cbn in *; lia].
  - destruct (receiving_bus i) as [b|] eqn:Er.
    + rewrite (receiving_not_pair i b Er) in *. cbn in Hnext. rewrite Z.add_0_r in Hnext. rewrite Hnext in *. intros [Hnotin Hnd']%NoDup_cons [Hb Hlt]%Forall_cons.
      apply NoDup_app. split; [apply NoDup_singleton|]. split; [|now apply Hnd]. intros x ->%list_elem_of_singleton Hx%list_elem_of_In.
      destruct (Hin b Hx) as [Hr|Hr]; [|lia]. now apply Hnotin, list_elem_of_In.
    + intros Hnd' Hlt. assert (Hlt' : Forall (fun b => b < next_bus n i) (filter_map receiving_bus l)).
      { eapply Forall_impl; [exact Hlt|]. cbn. rewrite Hnext. intros x Hx. destruct (is_pair i); cbn; lia. }
      destruct (is_pair i); [|now apply Hnd]. apply NoDup_app. split; [apply NoDup_singleton|]. split; [|now apply Hnd].
      intros x ->%list_elem_of_singleton Hx%list_elem_of_In. cbn in Hnext. destruct (Hin n Hx) as [Hr|Hr]; [|lia].
      rewrite Forall_forall in Hlt. specialize (Hlt n ltac:(now apply list_elem_of_In)). lia.
Qed.

(** The first free number is above all literal numbers. *)
Lemma foldl_f_max (l : list T) : forall a, to_integer a <= to_integer (foldl f_max a l) /\
  Forall (fun x => to_integer x <= to_integer (foldl f_max a l)) l /\ (foldl f_max a l = a \/ In (foldl f_max a l) l).
Proof.
  induction l as [|x l IH]; intros a; cbn [foldl]; [split; [lia|]; split; [constructor|now left]|].
  destruct (IH (f_max a x)) as (H1 & H2 & H3). assert (Hmax : to_integer a <= to_integer (f_max a x) /\ to_integer x <= to_integer (f_max a x) /\ (f_max a x = a \/ f_max a x = x)).
  { unfold f_max, f_leb. destruct (Z.leb_spec (to_integer a) (to_integer x)); repeat split; try lia; auto. }
  split; [lia|]. split; [constructor; [lia|exact H2]|]. cbn. destruct H3 as [->|H3]; [|auto]. destruct Hmax as (_ & _ & [->| ->]); auto.
Qed.

Lemma bus_id_counter_spec (l : list (AnalyzedIdentity T)) M : 0 <= M -> M + 1 < 2 ^ 64 -> (forall i x, In i l -> static_bus_id i = Some x -> to_integer x <= M) ->
  exists n, bus_id_counter l = Some n /\ 0 < n <= M + 1 /\ forall i x, In i l -> static_bus_id i = Some x -> to_integer x < n.
Proof.
  intros HM HM64 Hall. unfold bus_id_counter. destruct (foldl_f_max (filter_map static_bus_id l) f_zero) as (H0 & Hle & Hin). set (m := foldl _ _ _) in *.
  rewrite f_zero_int in H0.
  assert (Hm : to_integer m <= M).
  { destruct Hin as [->|(i & Hi & Hx)%in_filter_map]; [rewrite f_zero_int; lia|]. now apply (Hall i). }
  unfold to_degree, checked_add. rewrite (proj2 (Z.ltb_lt (to_integer m) _)) by lia. cbn. rewrite (proj2 (Z.ltb_lt _ _)) by lia.
  eexists. split; [reflexivity|]. split; [lia|]. intros i x Hi Hx. rewrite Forall_forall in Hle. specialize (Hle x).
  assert (Hx' : x ∈ filter_map static_bus_id l) by (apply list_elem_of_In, in_filter_map; eauto). specialize (Hle Hx'). lia.
Qed.

(** ** All identities *)

(** The number of the identity, unless it only receives. *)
Definition sent_id (i : AnalyzedIdentity T) : option Z :=
  match i with
  | AnPolynomial id _ | AnLookup id _ _ | AnPhantomLookup id _ _ _ | AnPermutation id _ _ | AnPhantomPermutation id _ _ | AnConnect id _ _ => Some id
  | AnPhantomBusInteraction b => match received b with Some _ => None | None => Some (interaction_id b) end
  end.

Lemma converted_ids l : forall n, Forall interaction_wf l -> map identity_id (identities_of (concat (converted n l))) = filter_map sent_id l.
Proof.
  induction l as [|i l IH]; intros n Hwf; [reflexivity|]. inversion Hwf as [|? ? Hi Hl]; subst. cbn [converted concat filter_map].
  unfold identities_of. rewrite filter_map_app, map_app. change (filter_map _ (concat _)) with (identities_of (concat (converted (next_bus n i) l))). rewrite IH by exact Hl.
  destruct i as [id e|id l1 r|id l1 r m|id l1 r|id l1 r|id l1 r|b]; try reflexivity. cbn in Hi |- *. destruct Hi as [[id Hid] Hm].
  rewrite (convert_interaction b id Hid Hm). now destruct (received b).
Qed.

(** Where an identity is converted. *)
Lemma converted_in l : forall n i, In i l -> exists k, n <= k /\ k + b2z (is_pair i) <= n + pairs l /\
  forall c, In c (converted_one k i) -> In c (concat (converted n l)).
Proof.
  induction l as [|j l IH]; intros n i; [contradiction|]. cbn [converted concat pairs]. pose proof (pairs_nonneg l) as Hp. intros [->|Hin].
  - exists n. split; [lia|]. split; [lia|]. intros c Hc. apply in_or_app. now left.
  - destruct (IH (next_bus n j) i Hin) as (k & Hk & Hk' & Hc). exists k. unfold next_bus in *. destruct (is_pair j); cbn in *;
      (split; [lia|]; split; [lia|]; intros c Hcin; apply in_or_app; right; now apply Hc).
Qed.

Lemma in_identities l i : In i (@identities_of T l) <-> In (AnIdentity i) l.
Proof. unfold identities_of. rewrite in_filter_map. split; [intros ([j|r] & Hx & E); [congruence|discriminate]|]. intros Hi. now exists (AnIdentity i). Qed.

Lemma in_receives l r : In r (@receives_of T l) <-> In (AReceive r) l.
Proof. unfold receives_of. rewrite in_filter_map. split; [intros ([j|q] & Hx & E); [discriminate|congruence]|]. intros Hr. now exists (AReceive r). Qed.

(** The bus of a send: a literal of the program, or one of the new numbers. *)
Definition own_bus (n hi : Z) (s : BusSend T) : Prop := exists k, send_bus_id s = ANumber (from_u64 k) /\ n <= k < hi.
Definition static_bus (l : list (AnalyzedIdentity T)) (s : BusSend T) : Prop := exists i x, In i l /\ static_bus_id i = Some x /\ send_bus_id s = ANumber x.

Lemma converted_one_send n i s : interaction_wf i -> In (AnIdentity (IdBusSend s)) (converted_one n i) ->
  (is_pair i = true /\ send_bus_id s = ANumber (from_u64 n) /\ forall s', In (AnIdentity (IdBusSend s')) (converted_one n i) -> s' = s) \/ static_bus [i] s.
Proof.
  intros Hwf. destruct i as [id e|id l r|id l r m|id l r|id l r|id l r|b]; cbn; try (now intros [E|[]]).
  5: { cbn in Hwf. destruct Hwf as [[id Hid] Hm]. rewrite (convert_interaction b id Hid Hm). destruct (received b); [now intros [E|[]]|].
    intros [[= <-]|[]]. right. exists (AnPhantomBusInteraction b), id. split; [now left|]. cbn. now rewrite Hid. }
  all: intros [[= <-]|[E|[]]]; [|discriminate]; left; split; [reflexivity|]; split; [reflexivity|]; now intros s' [[= <-]|[E|[]]].
Qed.

Lemma converted_send l : forall n s, Forall interaction_wf l -> In (AnIdentity (IdBusSend s)) (concat (converted n l)) ->
  own_bus n (n + pairs l) s \/ static_bus l s.
Proof.
  induction l as [|i l IH]; intros n s Hwf; [contradiction|]. inversion Hwf as [|? ? Hi Hl]; subst. cbn [converted concat pairs].
  pose proof (pairs_nonneg l) as Hp. intros [Hin|Hin]%in_app_or.
  - destruct (converted_one_send n i s Hi Hin) as [(Hpair & Hb & _)|(j & x & [<-|[]] & Hx & Hb)].
    + left. exists n. rewrite Hpair. cbn. split; [exact Hb|lia].
    + right. exists i, x. split; [now left|auto].
  - destruct (IH _ s Hl Hin) as [(k & Hb & Hk)|(j & x & Hj & Hx & Hb)].
    + left. exists k. split; [exact Hb|]. unfold next_bus in Hk. destruct (is_pair i); cbn in *; lia.
    + right. exists j, x. split; [now right|auto].
Qed.

Lemma own_bus_int n hi s x : 0 <= n -> hi <= modulus -> own_bus n hi s -> send_bus_id s = ANumber x -> n <= to_integer x < hi.
Proof. intros Hn Hhi (k & -> & Hk) [= <-]. rewrite from_u64_int; lia. Qed.

(** No two sends use the bus of a pair. *)
Lemma converted_send_unique l : forall n s s' x, Forall interaction_wf l -> 0 <= n -> n + pairs l <= modulus ->
  (forall i y, In i l -> static_bus_id i = Some y -> to_integer y < n) -> n <= to_integer x -> send_bus_id s = ANumber x -> send_bus_id s' = ANumber x ->
  In (AnIdentity (IdBusSend s)) (concat (converted n l)) -> In (AnIdentity (IdBusSend s')) (concat (converted n l)) -> s = s'.
Proof.
  induction l as [|i l IH]; intros n s s' x Hwf Hn Hm Hst Hx Hs Hs'; [contradiction|]. inversion Hwf as [|? ? Hi Hl]; subst. cbn [converted concat pairs] in *.
  assert (Hstatic : forall L u, (forall j, In j L -> In j (i :: l)) -> send_bus_id u = ANumber x -> ~ static_bus L u).
  { intros L u HL Hu (j & y & Hj & Hy & E). rewrite Hu in E. injection E as <-. specialize (Hst j x (HL j Hj) Hy). lia. }
  assert (Hnext : next_bus n i = n + b2z (is_pair i)) by (unfold next_bus; destruct (is_pair i); cbn; lia).
  assert (Hlater : forall u, send_bus_id u = ANumber x -> In (AnIdentity (IdBusSend u)) (concat (converted (next_bus n i) l)) -> next_bus n i <= to_integer x).
  { intros u Hu Hin. destruct (converted_send l _ u Hl Hin) as [Ho|Ho]; [|now apply Hstatic in Ho; [|intros j; now right|]].
    apply (own_bus_int _ _ u x) in Ho; [lia|rewrite Hnext; destruct (is_pair i); cbn; lia|lia|exact Hu]. }
  assert (Hhere : forall u, send_bus_id u = ANumber x -> In (AnIdentity (IdBusSend u)) (converted_one n i) ->
    is_pair i = true /\ to_integer x = n /\ forall u', In (AnIdentity (IdBusSend u')) (converted_one n i) -> u' = u).
  { intros u Hu Hin. destruct (converted_one_send n i u Hi Hin) as [(Hp & Hb & Huniq)|Ho]; [|now apply Hstatic in Ho; [|intros j [<-|[]]; now left|]].
    split; [exact Hp|]. split; [|exact Huniq]. rewrite Hu in Hb. injection Hb as ->. apply from_u64_int. rewrite Hp in Hm. cbn in Hm. pose proof (pairs_nonneg l). lia. }
  intros [Hin|Hin]%in_app_or [Hin'|Hin']%in_app_or.
  - destruct (Hhere s Hs Hin) as (_ & _ & Hu). symmetry. now apply Hu.
  - destruct (Hhere s Hs Hin) as (Hp & Hx' & _). specialize (Hlater s' Hs' Hin'). rewrite Hnext, Hp in Hlater. cbn in Hlater. lia.
  - destruct (Hhere s' Hs' Hin') as (Hp & Hx' & _). specialize (Hlater s Hs Hin). rewrite Hnext, Hp in Hlater. cbn in Hlater. lia.
  - apply (IH (next_bus n i) s s' x); auto.
    + rewrite Hnext. destruct (is_pair i); cbn; lia.
    + lia.
    + intros j y Hj Hy. rewrite Hnext. specialize (Hst j y (or_intror Hj) Hy). destruct (is_pair i); cbn; lia.
    + now apply (Hlater s).
Qed.

(** ** The result *)

Notation receive_map := (gmap Z (BusReceive T)).

(** The two sides are found on one bus, which no other send uses. *)
Definition matched (out : list (Identity T)) (receives : receive_map) (id : Z) (l r : SelectedExpressions T) (m : option (AlgebraicExpression T)) : Prop :=
  exists send, In (IdBusSend send) out /\ send_identity_id send = id /\ send_payload send = l /\
    (exists receive, try_match_static receives send = Some (Some receive) /\ receive_payload receive = r /\ receive_multiplicity receive = m) /\
    forall s, In (IdBusSend s) out -> send_bus_id s = send_bus_id send -> s = send.

Definition interaction_payload (b : PhantomBusInteractionIdentity T) : SelectedExpressions T := mkSelectedExpressions (latch b) (payload b).

Definition represented (out : list (Identity T)) (receives : receive_map) (i : AnalyzedIdentity T) : Prop :=
  match i with
  | AnPolynomial id e => In (IdPolynomial id e) out
  | AnConnect id l r => In (IdConnect id l r) out
  | AnLookup id l r => matched out receives id l r None
  | AnPhantomLookup id l r m => matched out receives id l r (Some m)
  | AnPermutation id l r | AnPhantomPermutation id l r => matched out receives id l r (Some (selector r))
  | AnPhantomBusInteraction b =>
    match received b with
    | Some m => exists x, bus_id b = ANumber x /\ receives !! to_integer x = Some (mkBusReceive x (interaction_payload b) (Some m))
    | None => In (IdBusSend (mkBusSend (interaction_id b) (bus_id b) (interaction_payload b))) out
    end
  end.

Lemma pair_represented out receives i id l r m : pair_of i = Some (id, l, r, m) -> matched out receives id l r m -> represented out receives i.
Proof. now destruct i; intros [= <- <- <- <-]. Qed.

Lemma converted_one_pair n i id l r m : pair_of i = Some (id, l, r, m) ->
  converted_one n i = [AnIdentity (IdBusSend (mkBusSend id (ANumber (from_u64 n)) l)); AReceive (mkBusReceive (from_u64 n) r m)].
Proof. now destruct i; intros [= <- <- <- <-]. Qed.

(** The map of receives holds every receive of the list. *)
Lemma receive_lookup (c : list (@IdentityOrReceive T)) r : NoDup (buses c) -> In (AReceive r) c ->
  (list_to_map (map (fun r => (to_integer (receive_bus_id r), r)) (receives_of c)) : receive_map) !! bus_of r = Some r.
Proof.
  intros Hnd Hin. apply elem_of_list_to_map_1.
  - rewrite <- list_fmap_compose. exact Hnd.
  - apply list_elem_of_In, in_map_iff. exists r. split; [reflexivity|]. now apply in_receives.
Qed.


End Conversion.

(** ** Example *)

Module ConversionDemo.

Notation GF := GoldilocksField.
Definition num (z : Z) : AlgebraicExpression GF := ANumber (from_int z).
Definition side (z : Z) : SelectedExpressions GF := mkSelectedExpressions (num 1) [num z].

(** An interaction on bus 7, a lookup, a permutation and a polynomial identity. *)
Definition identities : list (AnalyzedIdentity GF) :=
  [AnLookup 1 (side 10) (side 11);
   AnPhantomBusInteraction (mkPhantomBusInteraction 2 (num 1) (num 7) [num 3] (num 1) []);
   AnPermutation 3 (side 20) (side 21);
   AnPhantomBusInteraction (mkPhantomBusInteraction 4 (AUnaryOperation AMinus (num 5)) (num 7) [num 3] (num 1) []);
   AnPolynomial 5 (num 0)].


(** Two receives on one bus are refused. *)
Example two_receives : convert_identities (identities ++ [AnPhantomBusInteraction (mkPhantomBusInteraction 6 (AUnaryOperation AMinus (num 5)) (num 7) [] (num 1) [])]) = None.
Proof. vm_compute. reflexivity. Qed.

End ConversionDemo.
