(* ===== verification/RiscvElem.v ===== *)
(** * Values of the RISC-V executor, [riscv-executor/src/lib.rs]

    A register of the machine holds a field element that most instructions treat as a
    signed integer. [Elem] keeps the integer as long as the operations allow. *)

From stdpp Require Import base list option.
From Stdlib Require Import ZArith Lia Znumtheory.
From S2P Require Import Prelude Primes Goldilocks Field.

(** ** The conversions of [FieldElement] the executor uses

    [F::from(i64)] and [F::from(i32)] are [from_int]. The executor supports fields that fit
    the product of two words: Goldilocks and BN254. *)
Class LargeField (T : Type) `{FieldElement T} := {
  from_u32 : Z -> T;
  from_u64 : Z -> T;
  f_pow : T -> Z -> T;
  f_to_bytes_le : T -> list Z;
  f_from_bytes_le : list Z -> option T
}.

Class LargeFieldLaws (T : Type) `{LargeField T} : Prop := {
  large_laws :: FieldLaws T;
  modulus_large : 2 ^ 63 + 2 ^ 34 < modulus;
  from_i64_spec : forall z, - 2 ^ 63 <= z < 2 ^ 63 -> to_integer (from_int z) = z mod modulus;
  from_u32_spec : forall z, in_width 32 z -> to_integer (from_u32 z) = z;
  from_u64_spec : forall z, in_width 64 z -> to_integer (from_u64 z) = z mod modulus;
  f_pow_spec : forall x e, in_width 32 e -> to_integer (f_pow x e) = (to_integer x ^ e) mod modulus;
  to_bytes_le_spec : forall x, f_to_bytes_le x = le_bytes (length (f_to_bytes_le x)) (to_integer x);
  to_bytes_le_length : forall x, (8 <= length (f_to_bytes_le x))%nat;
  from_bytes_le_spec : forall bs, from_le_bytes bs < modulus -> Forall (in_width 8) bs ->
    exists x, f_from_bytes_le bs = Some x /\ to_integer x = from_le_bytes bs
}.

(** [to_integer().try_into_u32()] and [try_into_u64()] of [LargeInt]. *)
Definition try_into_u32 {T} `{FieldElement T} (x : T) : option Z := if to_integer x <? 2 ^ 32 then Some (to_integer x) else None.
Definition try_into_u64 {T} `{FieldElement T} (x : T) : option Z := if to_integer x <? 2 ^ 64 then Some (to_integer x) else None.

(** ** Signed 64-bit arithmetic; overflow panics *)

Definition in_i64 (z : Z) : bool := (- 2 ^ 63 <=? z) && (z <? 2 ^ 63).
Definition i64_checked (z : Z) : option Z := if in_i64 z then Some z else None.
Definition as_i64 (z : Z) : Z := (z + 2 ^ 63) mod 2 ^ 64 - 2 ^ 63.
Definition as_i32 (z : Z) : Z := (z + 2 ^ 31) mod 2 ^ 32 - 2 ^ 31.
Definition i64_div (a b : Z) : option Z := if b =? 0 then None else i64_checked (Z.quot a b).
Definition i64_rem (a b : Z) : option Z := if (b =? 0) || negb (in_i64 (Z.quot a b)) then None else Some (Z.rem a b).
Definition u32_try_from (z : Z) : option Z := if (0 <=? z) && (z <? 2 ^ 32) then Some z else None.
Definition i32_try_from (z : Z) : option Z := if (- 2 ^ 31 <=? z) && (z <? 2 ^ 31) then Some z else None.

(** ** [Elem] *)

Inductive Elem (T : Type) := Binary (b : Z) | Field (f : T).
Arguments Binary {T}.
Arguments Field {T}.

Section Elem.
Context {T : Type} `{LargeField T}.

Definition try_from_fe_as_bin (value : T) : option (Elem T) :=
  let integer := to_signed_integer value in
  match u32_try_from integer with
  | Some v => Some (Binary v)
  | None => Binary <$> i32_try_from integer
  end.

Definition from_u32_as_fe (value : Z) : Elem T := Field (from_u32 value).
Definition from_i32_as_fe (value : Z) : Elem T := Field (from_int value).
Definition from_bool_as_fe (value : bool) : Elem T := if value then Field f_one else Field f_zero.

Definition into_fe (e : Elem T) : T := match e with Field f => f | Binary b => from_int b end.

Definition as_i64_from_lower_bytes (e : Elem T) : Z :=
  match e with
  | Binary b => b
  | Field f => as_i64 (from_le_bytes (take 8 (f_to_bytes_le f)))
  end.

Definition elem_bin (e : Elem T) : option Z := match e with Binary b => Some b | Field _ => None end.
Definition elem_u (e : Elem T) : option Z := b ← elem_bin e; u32_try_from b.
Definition elem_s (e : Elem T) : option Z := b ← elem_bin e; i32_try_from b.
Definition elem_is_zero (e : Elem T) : bool := match e with Binary b => b =? 0 | Field f => f_is_zero f end.

Definition elem_add (x y : Elem T) : option (Elem T) :=
  match x, y with
  | Binary a, Binary b => Binary <$> i64_checked (a + b)
  | Field a, Field b => Some (Field (f_add a b))
  | Binary a, Field b => Some (Field (f_add (from_int a) b))
  | Field a, Binary b => Some (Field (f_add a (from_int b)))
  end.

Definition elem_sub (x y : Elem T) : option (Elem T) :=
  match x, y with
  | Binary a, Binary b => Binary <$> i64_checked (a - b)
  | Field a, Field b => Some (Field (f_sub a b))
  | Binary a, Field b => Some (Field (f_sub (from_int a) b))
  | Field a, Binary b => Some (Field (f_sub a (from_int b)))
  end.

Definition elem_mul (x y : Elem T) : Elem T :=
  match x, y with
  | Binary a, Binary b =>
    match i64_checked (a * b) with
    | Some v => Binary v
    | None => Field (f_mul (from_int a) (from_int b))
    end
  | Field a, Field b => Field (f_mul a b)
  | Binary a, Field b => Field (f_mul (from_int a) b)
  | Field a, Binary b => Field (f_mul a (from_int b))
  end.

Definition elem_div (x y : Elem T) : option (Elem T) :=
  match x, y with
  | Binary a, Binary b => Binary <$> i64_div a b
  | Field a, Field b => Field <$> f_div a b
  | Binary a, Field b => Field <$> f_div (from_int a) b
  | Field a, Binary b => Field <$> f_div a (from_int b)
  end.

(** The derived equality. *)
Definition elem_eqb (x y : Elem T) : bool :=
  match x, y with
  | Binary a, Binary b => a =? b
  | Field a, Field b => f_eqb a b
  | _, _ => false
  end.

End Elem.

(** The four lower bytes and the bit 31. *)
Definition decompose_lower32 (x : Z) : Z * Z * Z * Z * Z :=
  (Z.land x 0xff, Z.land (Z.shiftr x 8) 0xff, Z.land (Z.shiftr x 16) 0xff, Z.land (Z.shiftr x 24) 0xff,
   Z.land (Z.shiftr x 31) 1).

(** ** Goldilocks is large enough *)

Definition gl_pow_elt (x : GoldilocksField) (e : Z) : GoldilocksField := gl_of_canonical (default 0 (gl_pow (zp_val x) e)).

#[export] Instance goldilocks_large : LargeField GoldilocksField := {
  from_u32 z := gl_of_canonical (default 0 (gl_from_u32 z));
  from_u64 z := gl_of_canonical (gl_from_u64 z);
  f_pow := gl_pow_elt;
  f_to_bytes_le x := gl_to_bytes_le (zp_val x);
  f_from_bytes_le bs := gl_of_option (gl_from_bytes_le bs)
}.

#[export] Instance goldilocks_large_laws : LargeFieldLaws GoldilocksField.
Proof.
  split; cbn [modulus to_integer from_int goldilocks_field from_u32 from_u64 f_pow f_to_bytes_le f_from_bytes_le goldilocks_large].
  - exact goldilocks_laws.
  - reflexivity.
  - exact gl_from_int_val.
  - intros z Hz. assert (Hc : gl_canonical z) by (unfold in_width, gl_canonical in *; gl_unfold; lia).
    unfold gl_from_u32, from_canonical_u64. replace (z <? ORDER) with true by (symmetry; apply Z.ltb_lt; apply Hc).
    cbn. now apply gl_of_canonical_val.
  - intros z Hz. now apply gl_wrap_mod.
  - intros x e He. unfold gl_pow_elt. rewrite gl_pow_spec; [|apply zp_range|unfold in_width in *; lia].
    cbn. apply gl_of_canonical_val, gl_canonical_mod.
  - intros x. reflexivity.
  - intros x. cbn. lia.
  - intros bs Hb Hw. assert (Hn : 0 <= from_le_bytes bs).
    { clear Hb. induction Hw as [|b bs Hb Hw IH]; cbn; unfold in_width in *; lia. }
    exists (gl_of_canonical (from_le_bytes bs)). split; [|now apply gl_of_canonical_val].
    unfold gl_from_bytes_le. replace (from_le_bytes bs <? 2 ^ 64) with true by (symmetry; apply Z.ltb_lt; gl_unfold; lia).
    cbn. unfold gl_from_u64. now rewrite !gl_wrap_canonical by (rewrite ?gl_wrap_canonical; now split).
Qed.

(** ** Meaning *)

Lemma land_ones_mod x k : 0 <= k -> Z.land x (2 ^ k - 1) = x mod 2 ^ k.
Proof. intros Hk. rewrite <- Z.land_ones by exact Hk. now rewrite Z.ones_equiv, Z.sub_1_r. Qed.

Lemma decompose_byte x : Z.land x 0xff = x mod 256.
Proof. apply (land_ones_mod x 8). lia. Qed.

(** The bytes are bytes and make up the lower word. *)
Lemma decompose_lower32_spec x : exists b1 b2 b3 b4 sign, decompose_lower32 x = (b1, b2, b3, b4, sign) /\
  0 <= b1 < 256 /\ 0 <= b2 < 256 /\ 0 <= b3 < 256 /\ 0 <= b4 < 256 /\
  b1 + b2 * 0x100 + b3 * 0x10000 + b4 * 0x1000000 = x mod 2 ^ 32 /\ sign = x / 2 ^ 31 mod 2.
Proof.
  unfold decompose_lower32. eexists _, _, _, _, _. split; [reflexivity|]. rewrite !decompose_byte, !Z.shiftr_div_pow2 by lia.
  change (2 ^ 8) with 256. change (2 ^ 16) with 65536. change (2 ^ 24) with 16777216. change (2 ^ 31) with 2147483648. change (2 ^ 32) with 4294967296.
  do 4 (split; [apply Z.mod_pos_bound; lia|]). split; [|change 1 with (2 ^ 1 - 1); rewrite land_ones_mod by lia; reflexivity].
  change (x mod 4294967296) with (x mod (256 * (256 * (256 * 256)))).
  rewrite (Z.rem_mul_r x 256 (256 * (256 * 256))), (Z.rem_mul_r (x / 256) 256 (256 * 256)), (Z.rem_mul_r (x / 256 / 256) 256 256), !Z.div_div by lia. change (256 * 256) with 65536. change (65536 * 256) with 16777216. change (256 * 65536) with 16777216. lia.
Qed.

Lemma i64_checked_Some z v : i64_checked z = Some v <-> v = z /\ - 2 ^ 63 <= z < 2 ^ 63.
Proof.
  unfold i64_checked, in_i64. destruct (_ && _) eqn:E; b2p; split; intros Hz; try discriminate.
  - injection Hz as <-. lia.
  - destruct Hz as [-> _]. reflexivity.
  - lia.
Qed.

Lemma u32_try_from_Some z v : u32_try_from z = Some v <-> v = z /\ 0 <= z < 2 ^ 32.
Proof.
  unfold u32_try_from. destruct (_ && _) eqn:E; b2p; split; intros Hz; try discriminate.
  - injection Hz as <-. lia.
  - destruct Hz as [-> _]. reflexivity.
  - lia.
Qed.

Lemma as_i64_small z : - 2 ^ 63 <= z < 2 ^ 63 -> as_i64 z = z.
Proof. intros Hz. unfold as_i64. rewrite Z.mod_small; lia. Qed.

Lemma le_bytes_take n : forall m x, (n <= m)%nat -> take n (le_bytes m x) = le_bytes n x.
Proof.
  induction n as [|n IH]; intros [|m] x Hn; try reflexivity; [lia|]. cbn. f_equal. apply IH. lia.
Qed.

Lemma from_le_bytes_mod n : forall x, from_le_bytes (le_bytes n x) = x mod 256 ^ Z.of_nat n.
Proof.
  induction n as [|n IH]; intros x; cbn [le_bytes from_le_bytes].
  - now rewrite Z.mod_1_r.
  - rewrite IH, Nat2Z.inj_succ, Z.pow_succ_r by lia. rewrite Z.rem_mul_r; lia.
Qed.

Section Meaning.
Context {T : Type} `{LL : LargeFieldLaws T}.

(** The integer an element stands for, up to the modulus, and the range of [i64]. *)
Definition elem_int (e : Elem T) : Z := match e with Binary b => b | Field f => to_integer f end.
Definition elem_ok (e : Elem T) : Prop := match e with Binary b => - 2 ^ 63 <= b < 2 ^ 63 | Field _ => True end.

Lemma into_fe_int e : elem_ok e -> to_integer (into_fe e) = elem_int e mod modulus.
Proof.
  destruct e as [b|f]; cbn; intros He; [now apply from_i64_spec|]. symmetry. apply Z.mod_small, to_integer_range.
Qed.

Lemma into_fe_eqm e : elem_ok e -> eqm modulus (to_integer (into_fe e)) (elem_int e).
Proof. intros He. rewrite into_fe_int by exact He. apply eqm_mod. Qed.

Lemma elem_bin_Some (e : Elem T) b : elem_bin e = Some b <-> e = Binary b.
Proof. destruct e; cbn; split; congruence. Qed.

Lemma elem_u_Some (e : Elem T) v : elem_u e = Some v <-> e = Binary v /\ 0 <= v < 2 ^ 32.
Proof.
  unfold elem_u. destruct e as [b|f]; cbn; [rewrite u32_try_from_Some|now split; [discriminate|intros [? _]]].
  split; [intros [-> Hb]; auto|]. intros [[= ->] Hb]. auto.
Qed.

Lemma elem_add_spec x y r : elem_ok x -> elem_ok y -> elem_add x y = Some r ->
  elem_ok r /\ eqm modulus (elem_int r) (elem_int x + elem_int y).
Proof.
  destruct x as [a|a], y as [b|b]; cbn; intros Hx Hy; [|intros [= <-]; cbn; split; [exact I|]..].
  - destruct (i64_checked _) eqn:E; [|discriminate]. apply i64_checked_Some in E as [-> E]. intros [= <-]. split; [exact E|]. reflexivity.
  - rewrite f_add_eqm, from_i64_spec, eqm_mod by exact Hx. reflexivity.
  - rewrite f_add_eqm, from_i64_spec, eqm_mod by exact Hy. reflexivity.
  - apply f_add_eqm.
Qed.

Lemma elem_sub_spec x y r : elem_ok x -> elem_ok y -> elem_sub x y = Some r ->
  elem_ok r /\ eqm modulus (elem_int r) (elem_int x - elem_int y).
Proof.
  destruct x as [a|a], y as [b|b]; cbn; intros Hx Hy; [|intros [= <-]; cbn; split; [exact I|]..].
  - destruct (i64_checked _) eqn:E; [|discriminate]. apply i64_checked_Some in E as [-> E]. intros [= <-]. split; [exact E|]. reflexivity.
  - rewrite f_sub_eqm, from_i64_spec, eqm_mod by exact Hx. reflexivity.
  - rewrite f_sub_eqm, from_i64_spec, eqm_mod by exact Hy. reflexivity.
  - apply f_sub_eqm.
Qed.

Lemma elem_mul_spec x y : elem_ok x -> elem_ok y ->
  elem_ok (elem_mul x y) /\ eqm modulus (elem_int (elem_mul x y)) (elem_int x * elem_int y).
Proof.
  destruct x as [a|a], y as [b|b]; cbn; intros Hx Hy.
  - destruct (i64_checked _) eqn:E; cbn; [apply i64_checked_Some in E as [-> E]; split; [exact E|reflexivity]|].
    split; [exact I|]. rewrite f_mul_eqm, !from_i64_spec, !eqm_mod by assumption. reflexivity.
  - split; [exact I|]. rewrite f_mul_eqm, from_i64_spec, eqm_mod by exact Hx. reflexivity.
  - split; [exact I|]. rewrite f_mul_eqm, from_i64_spec, eqm_mod by exact Hy. reflexivity.
  - split; [exact I|apply f_mul_eqm].
Qed.

Lemma from_u32_elem v : in_width 32 v -> to_integer (into_fe (from_u32_as_fe (T:=T) v)) = v.
Proof. apply from_u32_spec. Qed.

Lemma from_bool_elem b : to_integer (into_fe (from_bool_as_fe (T:=T) b)) = b2z b.
Proof. destruct b; cbn; [apply f_one_int|apply f_zero_int]. Qed.

Lemma elem_is_zero_spec e : elem_ok e -> - modulus < elem_int e < modulus -> elem_is_zero e = true <-> to_integer (into_fe e) = 0.
Proof.
  intros He Hr. rewrite into_fe_int by exact He. assert (Hz : elem_is_zero e = true <-> elem_int e = 0) by (destruct e; cbn; [lia|unfold f_is_zero; lia]).
  rewrite Hz. pose proof (modulus_pos (T:=T)). split; [intros ->; apply Z.mod_0_l; lia|]. intros Hm. apply Z.mod_divide in Hm as [k Hk]; [|lia]. assert (-1 < k) by nia. assert (k < 1) by nia. assert (k = 0) as -> by lia. lia.
Qed.

(** The low bytes of a small field element are its value. *)
Lemma lower_bytes_small (f : T) : to_integer f < 2 ^ 63 -> as_i64_from_lower_bytes (Field f) = to_integer f.
Proof.
  intros Hf. cbn. rewrite to_bytes_le_spec, le_bytes_take by apply to_bytes_le_length. rewrite from_le_bytes_mod.
  change (256 ^ Z.of_nat 8) with (2 ^ 64). range f. rewrite Z.mod_small by lia. apply as_i64_small. lia.
Qed.

(** An integer that came from the field and fits a word is the one its element stands for. *)
Lemma try_from_fe_as_bin_spec (f : T) e : try_from_fe_as_bin f = Some e -> elem_ok e /\ into_fe e = f.
Proof.
  unfold try_from_fe_as_bin, u32_try_from, i32_try_from, to_signed_integer. intros He.
  assert (Hb : exists b, e = Binary b /\ - 2 ^ 31 <= b < 2 ^ 32 /\ eqm modulus b (to_integer f)).
  { assert (Hs : eqm modulus (if is_in_lower_half f then to_integer f else to_integer f - modulus) (to_integer f)).
    { destruct (is_in_lower_half f); [reflexivity|]. unfold eqm. exists (-1). lia. }
    destruct ((0 <=? _) && _) eqn:E1; [injection He as <-|destruct ((- 2 ^ 31 <=? _) && _) eqn:E2; [injection He as <-|discriminate]];
      b2p; eexists; (split; [reflexivity|]); split; try exact Hs; lia. }
  destruct Hb as (b & -> & Hb & Hm). cbn. split; [lia|]. apply f_eqm_eq. rewrite from_i64_spec, eqm_mod by lia. exact Hm.
Qed.

End Meaning.
