(* ===== verification/RiscvNames.v ===== *)
(** * Names of the RISC-V executor: instructions, columns, machines

    The enums that the macros at the top of [riscv-executor/src/lib.rs] generate, in their
    order; an index is the position in the enum. *)

From stdpp Require Import base list option strings.
From Stdlib Require Import ZArith Lia.
From S2P Require Import Prelude.

(** ** Instructions *)

(** The instructions of the main machine. *)
Inductive Instruction :=
  | I_set_reg | I_get_reg | I_affine | I_mstore | I_mstore_bootloader | I_mload
  | I_load_bootloader_input | I_assert_bootloader_input | I_load_label | I_jump | I_jump_dyn
  | I_jump_to_bootloader_input | I_branch_if_diff_nonzero | I_branch_if_diff_equal
  | I_skip_if_equal | I_branch_if_diff_greater_than | I_is_diff_greater_than | I_is_equal_zero
  | I_is_not_equal | I_add_wrap | I_wrap16 | I_sub_wrap_with_offset | I_sign_extend_byte
  | I_sign_extend_16_bits | I_to_signed | I_divremu | I_mul | I_and | I_or | I_xor | I_shl | I_shr
  | I_invert_gl | I_split_gl | I_poseidon_gl | I_poseidon2_gl | I_affine_256 | I_mod_256 | I_ec_add
  | I_ec_double | I_commit_public | I_fail | I_keccakf.

#[export] Instance Instruction_eq_dec : EqDecision Instruction.
Proof. solve_decision. Defined.

Definition instr_name (x : Instruction) : string :=
  match x with
  | I_set_reg => "set_reg" | I_get_reg => "get_reg" | I_affine => "affine" | I_mstore => "mstore"
  | I_mstore_bootloader => "mstore_bootloader" | I_mload => "mload"
  | I_load_bootloader_input => "load_bootloader_input"
  | I_assert_bootloader_input => "assert_bootloader_input" | I_load_label => "load_label"
  | I_jump => "jump" | I_jump_dyn => "jump_dyn"
  | I_jump_to_bootloader_input => "jump_to_bootloader_input"
  | I_branch_if_diff_nonzero => "branch_if_diff_nonzero"
  | I_branch_if_diff_equal => "branch_if_diff_equal" | I_skip_if_equal => "skip_if_equal"
  | I_branch_if_diff_greater_than => "branch_if_diff_greater_than"
  | I_is_diff_greater_than => "is_diff_greater_than" | I_is_equal_zero => "is_equal_zero"
  | I_is_not_equal => "is_not_equal" | I_add_wrap => "add_wrap" | I_wrap16 => "wrap16"
  | I_sub_wrap_with_offset => "sub_wrap_with_offset" | I_sign_extend_byte => "sign_extend_byte"
  | I_sign_extend_16_bits => "sign_extend_16_bits" | I_to_signed => "to_signed"
  | I_divremu => "divremu" | I_mul => "mul" | I_and => "and" | I_or => "or" | I_xor => "xor"
  | I_shl => "shl" | I_shr => "shr" | I_invert_gl => "invert_gl" | I_split_gl => "split_gl"
  | I_poseidon_gl => "poseidon_gl" | I_poseidon2_gl => "poseidon2_gl"
  | I_affine_256 => "affine_256" | I_mod_256 => "mod_256" | I_ec_add => "ec_add"
  | I_ec_double => "ec_double" | I_commit_public => "commit_public" | I_fail => "fail"
  | I_keccakf => "keccakf"
  end.

Definition all_instructions : list Instruction :=
  [I_set_reg; I_get_reg; I_affine; I_mstore; I_mstore_bootloader; I_mload; I_load_bootloader_input;
   I_assert_bootloader_input; I_load_label; I_jump; I_jump_dyn; I_jump_to_bootloader_input;
   I_branch_if_diff_nonzero; I_branch_if_diff_equal; I_skip_if_equal;
   I_branch_if_diff_greater_than; I_is_diff_greater_than; I_is_equal_zero; I_is_not_equal;
   I_add_wrap; I_wrap16; I_sub_wrap_with_offset; I_sign_extend_byte; I_sign_extend_16_bits;
   I_to_signed; I_divremu; I_mul; I_and; I_or; I_xor; I_shl; I_shr; I_invert_gl; I_split_gl;
   I_poseidon_gl; I_poseidon2_gl; I_affine_256; I_mod_256; I_ec_add; I_ec_double; I_commit_public;
   I_fail; I_keccakf].

(** The first arm that matches. *)
Definition from_name (s : string) : option Instruction :=
  List.find (fun i => bool_decide (instr_name i = s)) all_instructions.

Definition flag (i : Instruction) : string := ("main::instr_" +:+ instr_name i)%string.

(** ** Columns *)

(** Columns of the main machine the executor sets. *)
Inductive KnownWitnessCol :=
  | col_operation_id | col_pc_update | col_X | col_Y | col_Z | col_W | col_Y_free_value
  | col_X_free_value | col_tmp1_col | col_tmp2_col | col_tmp3_col | col_tmp4_col | col_X_b1
  | col_X_b2 | col_X_b3 | col_X_b4 | col_XX | col_XXIsZero | col_XX_inv | col_Y_b5 | col_Y_b6
  | col_Y_b7 | col_Y_b8 | col_Y_7bit | col_Y_15bit | col_REM_b1 | col_REM_b2 | col_REM_b3
  | col_REM_b4 | col_wrap_bit | col_instr_load_label_param_l | col_instr_jump_param_l
  | col_instr_branch_if_diff_nonzero_param_l | col_instr_branch_if_diff_equal_param_l
  | col_instr_branch_if_diff_greater_than_param_l | col_jump_to_shutdown_routine
  | col_instr_set_reg | col_instr_get_reg | col_instr_affine | col_instr_mstore
  | col_instr_mstore_bootloader | col_instr_mload | col_instr_load_bootloader_input
  | col_instr_assert_bootloader_input | col_instr_load_label | col_instr_jump | col_instr_jump_dyn
  | col_instr_jump_to_bootloader_input | col_instr_branch_if_diff_nonzero
  | col_instr_branch_if_diff_equal | col_instr_skip_if_equal
  | col_instr_branch_if_diff_greater_than | col_instr_is_diff_greater_than
  | col_instr_is_equal_zero | col_instr_is_not_equal | col_instr_add_wrap | col_instr_wrap16
  | col_instr_sub_wrap_with_offset | col_instr_sign_extend_byte | col_instr_sign_extend_16_bits
  | col_instr_to_signed | col_instr_divremu | col_instr_mul | col_instr_and | col_instr_or
  | col_instr_xor | col_instr_shl | col_instr_shr | col_instr_invert_gl | col_instr_split_gl
  | col_instr_poseidon_gl | col_instr_poseidon2_gl | col_instr_affine_256 | col_instr_mod_256
  | col_instr_ec_add | col_instr_ec_double | col_instr_commit_public | col_instr_fail.

Definition col_idx (x : KnownWitnessCol) : nat :=
  match x with
  | col_operation_id => 0 | col_pc_update => 1 | col_X => 2 | col_Y => 3 | col_Z => 4 | col_W => 5
  | col_Y_free_value => 6 | col_X_free_value => 7 | col_tmp1_col => 8 | col_tmp2_col => 9
  | col_tmp3_col => 10 | col_tmp4_col => 11 | col_X_b1 => 12 | col_X_b2 => 13 | col_X_b3 => 14
  | col_X_b4 => 15 | col_XX => 16 | col_XXIsZero => 17 | col_XX_inv => 18 | col_Y_b5 => 19
  | col_Y_b6 => 20 | col_Y_b7 => 21 | col_Y_b8 => 22 | col_Y_7bit => 23 | col_Y_15bit => 24
  | col_REM_b1 => 25 | col_REM_b2 => 26 | col_REM_b3 => 27 | col_REM_b4 => 28 | col_wrap_bit => 29
  | col_instr_load_label_param_l => 30 | col_instr_jump_param_l => 31
  | col_instr_branch_if_diff_nonzero_param_l => 32 | col_instr_branch_if_diff_equal_param_l => 33
  | col_instr_branch_if_diff_greater_than_param_l => 34 | col_jump_to_shutdown_routine => 35
  | col_instr_set_reg => 36 | col_instr_get_reg => 37 | col_instr_affine => 38
  | col_instr_mstore => 39 | col_instr_mstore_bootloader => 40 | col_instr_mload => 41
  | col_instr_load_bootloader_input => 42 | col_instr_assert_bootloader_input => 43
  | col_instr_load_label => 44 | col_instr_jump => 45 | col_instr_jump_dyn => 46
  | col_instr_jump_to_bootloader_input => 47 | col_instr_branch_if_diff_nonzero => 48
  | col_instr_branch_if_diff_equal => 49 | col_instr_skip_if_equal => 50
  | col_instr_branch_if_diff_greater_than => 51 | col_instr_is_diff_greater_than => 52
  | col_instr_is_equal_zero => 53 | col_instr_is_not_equal => 54 | col_instr_add_wrap => 55
  | col_instr_wrap16 => 56 | col_instr_sub_wrap_with_offset => 57
  | col_instr_sign_extend_byte => 58 | col_instr_sign_extend_16_bits => 59
  | col_instr_to_signed => 60 | col_instr_divremu => 61 | col_instr_mul => 62 | col_instr_and => 63
  | col_instr_or => 64 | col_instr_xor => 65 | col_instr_shl => 66 | col_instr_shr => 67
  | col_instr_invert_gl => 68 | col_instr_split_gl => 69 | col_instr_poseidon_gl => 70
  | col_instr_poseidon2_gl => 71 | col_instr_affine_256 => 72 | col_instr_mod_256 => 73
  | col_instr_ec_add => 74 | col_instr_ec_double => 75 | col_instr_commit_public => 76
  | col_instr_fail => 77
  end%nat.

Definition col_count : nat := 78.

Definition col_name (x : KnownWitnessCol) : string :=
  match x with
  | col_operation_id => "main::_operation_id" | col_pc_update => "main::pc_update"
  | col_X => "main::X" | col_Y => "main::Y" | col_Z => "main::Z" | col_W => "main::W"
  | col_Y_free_value => "main::Y_free_value" | col_X_free_value => "main::X_free_value"
  | col_tmp1_col => "main::tmp1_col" | col_tmp2_col => "main::tmp2_col"
  | col_tmp3_col => "main::tmp3_col" | col_tmp4_col => "main::tmp4_col" | col_X_b1 => "main::X_b1"
  | col_X_b2 => "main::X_b2" | col_X_b3 => "main::X_b3" | col_X_b4 => "main::X_b4"
  | col_XX => "main::XX" | col_XXIsZero => "main::XXIsZero" | col_XX_inv => "main::XX_inv"
  | col_Y_b5 => "main::Y_b5" | col_Y_b6 => "main::Y_b6" | col_Y_b7 => "main::Y_b7"
  | col_Y_b8 => "main::Y_b8" | col_Y_7bit => "main::Y_7bit" | col_Y_15bit => "main::Y_15bit"
  | col_REM_b1 => "main::REM_b1" | col_REM_b2 => "main::REM_b2" | col_REM_b3 => "main::REM_b3"
  | col_REM_b4 => "main::REM_b4" | col_wrap_bit => "main::wrap_bit"
  | col_instr_load_label_param_l => "main::instr_load_label_param_l"
  | col_instr_jump_param_l => "main::instr_jump_param_l"
  | col_instr_branch_if_diff_nonzero_param_l => "main::instr_branch_if_diff_nonzero_param_l"
  | col_instr_branch_if_diff_equal_param_l => "main::instr_branch_if_diff_equal_param_l"
  | col_instr_branch_if_diff_greater_than_param_l => "main::instr_branch_if_diff_greater_than_param_l"
  | col_jump_to_shutdown_routine => "main::jump_to_shutdown_routine"
  | col_instr_set_reg => "main::instr_set_reg" | col_instr_get_reg => "main::instr_get_reg"
  | col_instr_affine => "main::instr_affine" | col_instr_mstore => "main::instr_mstore"
  | col_instr_mstore_bootloader => "main::instr_mstore_bootloader"
  | col_instr_mload => "main::instr_mload"
  | col_instr_load_bootloader_input => "main::instr_load_bootloader_input"
  | col_instr_assert_bootloader_input => "main::instr_assert_bootloader_input"
  | col_instr_load_label => "main::instr_load_label" | col_instr_jump => "main::instr_jump"
  | col_instr_jump_dyn => "main::instr_jump_dyn"
  | col_instr_jump_to_bootloader_input => "main::instr_jump_to_bootloader_input"
  | col_instr_branch_if_diff_nonzero => "main::instr_branch_if_diff_nonzero"
  | col_instr_branch_if_diff_equal => "main::instr_branch_if_diff_equal"
  | col_instr_skip_if_equal => "main::instr_skip_if_equal"
  | col_instr_branch_if_diff_greater_than => "main::instr_branch_if_diff_greater_than"
  | col_instr_is_diff_greater_than => "main::instr_is_diff_greater_than"
  | col_instr_is_equal_zero => "main::instr_is_equal_zero"
  | col_instr_is_not_equal => "main::instr_is_not_equal"
  | col_instr_add_wrap => "main::instr_add_wrap" | col_instr_wrap16 => "main::instr_wrap16"
  | col_instr_sub_wrap_with_offset => "main::instr_sub_wrap_with_offset"
  | col_instr_sign_extend_byte => "main::instr_sign_extend_byte"
  | col_instr_sign_extend_16_bits => "main::instr_sign_extend_16_bits"
  | col_instr_to_signed => "main::instr_to_signed" | col_instr_divremu => "main::instr_divremu"
  | col_instr_mul => "main::instr_mul" | col_instr_and => "main::instr_and"
  | col_instr_or => "main::instr_or" | col_instr_xor => "main::instr_xor"
  | col_instr_shl => "main::instr_shl" | col_instr_shr => "main::instr_shr"
  | col_instr_invert_gl => "main::instr_invert_gl" | col_instr_split_gl => "main::instr_split_gl"
  | col_instr_poseidon_gl => "main::instr_poseidon_gl"
  | col_instr_poseidon2_gl => "main::instr_poseidon2_gl"
  | col_instr_affine_256 => "main::instr_affine_256" | col_instr_mod_256 => "main::instr_mod_256"
  | col_instr_ec_add => "main::instr_ec_add" | col_instr_ec_double => "main::instr_ec_double"
  | col_instr_commit_public => "main::instr_commit_public" | col_instr_fail => "main::instr_fail"
  end.

Definition all_cols_known : list KnownWitnessCol :=
  [col_operation_id; col_pc_update; col_X; col_Y; col_Z; col_W; col_Y_free_value; col_X_free_value;
   col_tmp1_col; col_tmp2_col; col_tmp3_col; col_tmp4_col; col_X_b1; col_X_b2; col_X_b3; col_X_b4;
   col_XX; col_XXIsZero; col_XX_inv; col_Y_b5; col_Y_b6; col_Y_b7; col_Y_b8; col_Y_7bit;
   col_Y_15bit; col_REM_b1; col_REM_b2; col_REM_b3; col_REM_b4; col_wrap_bit;
   col_instr_load_label_param_l; col_instr_jump_param_l; col_instr_branch_if_diff_nonzero_param_l;
   col_instr_branch_if_diff_equal_param_l; col_instr_branch_if_diff_greater_than_param_l;
   col_jump_to_shutdown_routine; col_instr_set_reg; col_instr_get_reg; col_instr_affine;
   col_instr_mstore; col_instr_mstore_bootloader; col_instr_mload; col_instr_load_bootloader_input;
   col_instr_assert_bootloader_input; col_instr_load_label; col_instr_jump; col_instr_jump_dyn;
   col_instr_jump_to_bootloader_input; col_instr_branch_if_diff_nonzero;
   col_instr_branch_if_diff_equal; col_instr_skip_if_equal; col_instr_branch_if_diff_greater_than;
   col_instr_is_diff_greater_than; col_instr_is_equal_zero; col_instr_is_not_equal;
   col_instr_add_wrap; col_instr_wrap16; col_instr_sub_wrap_with_offset;
   col_instr_sign_extend_byte; col_instr_sign_extend_16_bits; col_instr_to_signed;
   col_instr_divremu; col_instr_mul; col_instr_and; col_instr_or; col_instr_xor; col_instr_shl;
   col_instr_shr; col_instr_invert_gl; col_instr_split_gl; col_instr_poseidon_gl;
   col_instr_poseidon2_gl; col_instr_affine_256; col_instr_mod_256; col_instr_ec_add;
   col_instr_ec_double; col_instr_commit_public; col_instr_fail].

(** ** Submachines *)

(** Submachines the executor fills. *)
Inductive MachineInstance :=
  | M_memory | M_regs | M_publics | M_binary | M_shift | M_split_gl | M_poseidon_gl.

#[export] Instance MachineInstance_eq_dec : EqDecision MachineInstance.
Proof. solve_decision. Defined.

Definition machine_idx (x : MachineInstance) : nat :=
  match x with
  | M_memory => 0 | M_regs => 1 | M_publics => 2 | M_binary => 3 | M_shift => 4 | M_split_gl => 5
  | M_poseidon_gl => 6
  end%nat.

Definition machine_count : nat := 7.

Definition namespace (x : MachineInstance) : string :=
  match x with
  | M_memory => "main_memory" | M_regs => "main_regs" | M_publics => "main_publics"
  | M_binary => "main_binary" | M_shift => "main_shift" | M_split_gl => "main_split_gl"
  | M_poseidon_gl => "main_poseidon_gl"
  end.

Definition all_machines : list MachineInstance :=
  [M_memory; M_regs; M_publics; M_binary; M_shift; M_split_gl; M_poseidon_gl].

(** ** Fixed columns *)

(** Columns of the program table the executor reads. *)
Inductive KnownFixedCol :=
  | F_X_const | F_Y_const | F_Z_const | F_W_const | F_Y_read_free | F_X_read_free.

#[export] Instance KnownFixedCol_eq_dec : EqDecision KnownFixedCol.
Proof. solve_decision. Defined.

Definition fixed_name (x : KnownFixedCol) : string :=
  match x with
  | F_X_const => "main__rom::p_X_const" | F_Y_const => "main__rom::p_Y_const"
  | F_Z_const => "main__rom::p_Z_const" | F_W_const => "main__rom::p_W_const"
  | F_Y_read_free => "main__rom::p_Y_read_free" | F_X_read_free => "main__rom::p_X_read_free"
  end.

(** ** Facts *)

Lemma from_name_instr_name i : from_name (instr_name i) = Some i.
Proof. now destruct i. Qed.

Definition col_of_idx (n : nat) : option KnownWitnessCol := all_cols_known !! n.

Lemma col_of_col_idx c : col_of_idx (col_idx c) = Some c.
Proof. now destruct c. Qed.

Lemma col_idx_inj c d : col_idx c = col_idx d -> c = d.
Proof. intros Hcd. pose proof (col_of_col_idx c) as Hc. rewrite Hcd, col_of_col_idx in Hc. congruence. Qed.

Lemma col_idx_lt c : (col_idx c < col_count)%nat.
Proof. unfold col_count. destruct c; cbn; lia. Qed.

Definition col_eqb (c d : KnownWitnessCol) : bool := Nat.eqb (col_idx c) (col_idx d).

Lemma col_eqb_spec c d : reflect (c = d) (col_eqb c d).
Proof. unfold col_eqb. destruct (Nat.eqb_spec (col_idx c) (col_idx d)) as [E|E]; constructor; [now apply col_idx_inj|congruence]. Qed.

Definition machine_eqb (m n : MachineInstance) : bool := Nat.eqb (machine_idx m) (machine_idx n).

Lemma machine_idx_inj m n : machine_idx m = machine_idx n -> m = n.
Proof. now destruct m, n. Qed.

Lemma machine_eqb_spec m n : reflect (m = n) (machine_eqb m n).
Proof. unfold machine_eqb. destruct (Nat.eqb_spec (machine_idx m) (machine_idx n)) as [E|E]; constructor; [now apply machine_idx_inj|congruence]. Qed.

Lemma machine_idx_lt m : (machine_idx m < machine_count)%nat.
Proof. unfold machine_count. destruct m; cbn; lia. Qed.
