(* ===== verification/RiscvTrace.v ===== *)
(** * The trace builder of the RISC-V executor, [riscv-executor/src/lib.rs], [mod builder]

    Registers, memories, program counter and the trace that is recorded while the program
    runs. How much is recorded depends on the execution mode. *)

From stdpp Require Import base list option gmap strings.
From Stdlib Require Import ZArith Lia.
From S2P Require Import Prelude Goldilocks Field PanicMonad RiscvElem RiscvNames.

Definition PC_INITIAL_VAL : Z := 2.

Inductive ExecMode := Fast | Trace | Witness.

(** [ExecMode::Trace | ExecMode::Witness] and [ExecMode::Witness]. *)
Definition tracing (m : ExecMode) : bool := match m with Fast => false | Trace | Witness => true end.
Definition witnessing (m : ExecMode) : bool := match m with Witness => true | _ => false end.

Record SubmachineOp (T : Type) := mkOp { identity_id : Z; lookup_args : list T; extra : list T }.
Arguments mkOp {T}.
Arguments identity_id {T}.
Arguments lookup_args {T}.
Arguments extra {T}.

Inductive MemOperationKind := Read | Write.
Record MemOperation := mkMemOperation { mop_row : Z; mop_kind : MemOperationKind; mop_address : Z }.

(** What does not change once the builder exists. *)
Record Config := mkConfig {
  mode : ExecMode;
  max_rows : Z;
  reg_map : gmap string nat;
  pc_idx : nat;
  batch_to_line_map : list Z;
  all_cols : list string
}.

(** The fields of [ExecutionTrace] and [TraceBuilder] that change. *)
Record TraceBuilder (T : Type) := mkBuilder {
  trace_len : Z;
  mem_ops : list MemOperation;
  pc_trace : list Z;
  reg_trace : list (list T);
  reg_writes : list (option T);
  submachine_ops : list (list (SubmachineOp T));
  known_cols : list T;
  curr_pc : Elem T;
  next_statement_line : Z;
  regs : list (Elem T);
  mem : gmap Z Z;
  reg_last : gmap Z (Elem T);
  reg_second_last : gmap Z (Elem T)
}.
Arguments mkBuilder {T}.
Arguments trace_len {T}.
Arguments mem_ops {T}.
Arguments pc_trace {T}.
Arguments reg_trace {T}.
Arguments reg_writes {T}.
Arguments submachine_ops {T}.
Arguments known_cols {T}.
Arguments curr_pc {T}.
Arguments next_statement_line {T}.
Arguments regs {T}.
Arguments mem {T}.
Arguments reg_last {T}.
Arguments reg_second_last {T}.

(** [register_names(main)] with their positions. *)
Definition register_map (names : list string) : gmap string nat :=
  foldl (fun m ni => <[snd ni := fst ni]> m) ∅ (combine (seq 0 (length names)) names).

Definition config_new (md : ExecMode) (rows : Z) (names : list string) (batches : list Z) (cols : list string) : option Config :=
  let rm := register_map names in
  pc ← rm !! "pc"%string;
  Some {| mode := md; max_rows := rows; reg_map := rm; pc_idx := pc; batch_to_line_map := batches; all_cols := cols |}.

Section Builder.
Context {T : Type} `{LargeField T}.
Notation B := (TraceBuilder T).

(** *** Field updates *)

Definition set_trace_len n (b : B) : B :=
  mkBuilder n (mem_ops b) (pc_trace b) (reg_trace b) (reg_writes b) (submachine_ops b) (known_cols b) (curr_pc b) (next_statement_line b) (regs b) (mem b) (reg_last b) (reg_second_last b).
Definition set_mem_ops l (b : B) : B :=
  mkBuilder (trace_len b) l (pc_trace b) (reg_trace b) (reg_writes b) (submachine_ops b) (known_cols b) (curr_pc b) (next_statement_line b) (regs b) (mem b) (reg_last b) (reg_second_last b).
Definition set_reg_writes w (b : B) : B :=
  mkBuilder (trace_len b) (mem_ops b) (pc_trace b) (reg_trace b) w (submachine_ops b) (known_cols b) (curr_pc b) (next_statement_line b) (regs b) (mem b) (reg_last b) (reg_second_last b).
Definition set_pc_trace pcs tr w (b : B) : B :=
  mkBuilder (trace_len b) (mem_ops b) pcs tr w (submachine_ops b) (known_cols b) (curr_pc b) (next_statement_line b) (regs b) (mem b) (reg_last b) (reg_second_last b).
Definition set_submachine_ops o (b : B) : B :=
  mkBuilder (trace_len b) (mem_ops b) (pc_trace b) (reg_trace b) (reg_writes b) o (known_cols b) (curr_pc b) (next_statement_line b) (regs b) (mem b) (reg_last b) (reg_second_last b).
Definition set_known_cols c (b : B) : B :=
  mkBuilder (trace_len b) (mem_ops b) (pc_trace b) (reg_trace b) (reg_writes b) (submachine_ops b) c (curr_pc b) (next_statement_line b) (regs b) (mem b) (reg_last b) (reg_second_last b).
Definition set_curr_pc p (b : B) : B :=
  mkBuilder (trace_len b) (mem_ops b) (pc_trace b) (reg_trace b) (reg_writes b) (submachine_ops b) (known_cols b) p (next_statement_line b) (regs b) (mem b) (reg_last b) (reg_second_last b).
Definition set_next_line n (b : B) : B :=
  mkBuilder (trace_len b) (mem_ops b) (pc_trace b) (reg_trace b) (reg_writes b) (submachine_ops b) (known_cols b) (curr_pc b) n (regs b) (mem b) (reg_last b) (reg_second_last b).
Definition set_regs r (b : B) : B :=
  mkBuilder (trace_len b) (mem_ops b) (pc_trace b) (reg_trace b) (reg_writes b) (submachine_ops b) (known_cols b) (curr_pc b) (next_statement_line b) r (mem b) (reg_last b) (reg_second_last b).
Definition set_memory m (b : B) : B :=
  mkBuilder (trace_len b) (mem_ops b) (pc_trace b) (reg_trace b) (reg_writes b) (submachine_ops b) (known_cols b) (curr_pc b) (next_statement_line b) (regs b) m (reg_last b) (reg_second_last b).
Definition set_reg_last l (b : B) : B :=
  mkBuilder (trace_len b) (mem_ops b) (pc_trace b) (reg_trace b) (reg_writes b) (submachine_ops b) (known_cols b) (curr_pc b) (next_statement_line b) (regs b) (mem b) l (reg_second_last b).
Definition set_reg_second_last l (b : B) : B :=
  mkBuilder (trace_len b) (mem_ops b) (pc_trace b) (reg_trace b) (reg_writes b) (submachine_ops b) (known_cols b) (curr_pc b) (next_statement_line b) (regs b) (mem b) (reg_last b) l.

(** *** Vectors *)

(** [v[i] = x]: out of range panics. *)
Definition list_set {A} (i : nat) (x : A) (l : list A) : option (list A) :=
  if (i <? length l)%nat then Some (<[i := x]> l) else None.

Variable cfg : Config.

(** *** Submachine operations *)

Definition submachine_op (m : MachineInstance) (id : Z) (args ext : list T) : M B unit :=
  whenM (witnessing (mode cfg))
    (assertM (Nat.eqb (length args) 4);;
     ops ← gets submachine_ops;
     old ← lift (ops !! machine_idx m);
     ops' ← lift (list_set (machine_idx m) (old ++ [mkOp id args ext]) ops);
     modify (set_submachine_ops ops')).

(** *** Registers *)

Definition get_pc : M B (Elem T) := gets curr_pc.
Definition get_next_pc : M B (Elem T) := r ← gets regs; lift (r !! pc_idx cfg).

Definition get_reg_idx (idx : nat) : M B (Elem T) :=
  if Nat.eqb idx (pc_idx cfg) then get_pc else r ← gets regs; lift (r !! idx).

Definition get_reg (name : string) : M B (Elem T) :=
  idx ← lift (reg_map cfg !! name); get_reg_idx idx.

Definition set_reg_idx (idx : nat) (value : Elem T) : M B unit :=
  whenM (tracing (mode cfg) && negb (Nat.eqb idx (pc_idx cfg)))
    (w ← gets reg_writes; w' ← lift (list_set idx (Some (into_fe value)) w); modify (set_reg_writes w'));;
  r ← gets regs; r' ← lift (list_set idx value r); modify (set_regs r').

Definition set_pc (value : Elem T) : M B unit :=
  v ← lift (elem_u value);
  line ← lift (batch_to_line_map cfg !! Z.to_nat v);
  modify (set_next_line line);;
  set_reg_idx (pc_idx cfg) value.

Definition set_reg (name : string) (value : Elem T) : M B unit :=
  idx ← lift (reg_map cfg !! name);
  assertM (negb (Nat.eqb idx (pc_idx cfg)));;
  set_reg_idx idx value.

(** *** Columns *)

Definition set_col_idx (col : KnownWitnessCol) (idx : nat) (value : Elem T) : M B unit :=
  whenM (witnessing (mode cfg))
    (c ← gets known_cols; c' ← lift (list_set (col_count * idx + col_idx col) (into_fe value) c); modify (set_known_cols c')).

(** In the last row; the subtraction of the row length may underflow. *)
Definition set_col (col : KnownWitnessCol) (value : Elem T) : M B unit :=
  whenM (witnessing (mode cfg))
    (c ← gets known_cols;
     assertM (col_count <=? length c)%nat;;
     c' ← lift (list_set (length c - col_count + col_idx col) (into_fe value) c);
     modify (set_known_cols c')).

(** Successive calls of [set_col]. *)
Definition set_cols (l : list (KnownWitnessCol * Elem T)) : M B unit := for_each (fun cv => set_col (fst cv) (snd cv)) l.

Definition col_is_defined (name : string) : bool :=
  tracing (mode cfg) && bool_decide (name ∈ all_cols cfg).

(** *** Rows *)

(** The next value of a register column: the recorded write, or the last value. *)
Fixpoint push_reg_values (writes : list (option T)) (cols : list (list T)) : option (list (list T)) :=
  match cols, writes with
  | [], _ => Some []
  | v :: cols', w :: writes' =>
    rest ← push_reg_values writes' cols';
    Some ((v ++ [match w with Some x => x | None => default f_zero (last v) end]) :: rest)
  | _ :: _, [] => None
  end.

(** The writes of the registers that have a column are taken. *)
Definition take_writes (n : nat) (writes : list (option T)) : list (option T) :=
  repeat None (Nat.min n (length writes)) ++ drop n writes.

Definition push_row (pc : Z) : M B unit :=
  whenM (tracing (mode cfg))
    (w ← gets reg_writes; tr ← gets reg_trace; pcs ← gets pc_trace;
     tr' ← lift (push_reg_values w tr);
     modify (set_pc_trace (pcs ++ [pc]) tr' (take_writes (length tr) w)));;
  whenM (witnessing (mode cfg))
    (c ← gets known_cols; modify (set_known_cols (c ++ repeat f_zero col_count))).

Definition has_enough_rows : M B bool := n ← gets trace_len; mret (max_rows cfg <=? n).

(** [None]: the end of the program. *)
Definition set_next_pc : M B (option unit) :=
  cpc ← gets curr_pc;
  pc ← lift (elem_u cpc);
  match batch_to_line_map cfg !! Z.to_nat (pc + 1) with
  | None => mret None
  | Some line_of_next_batch =>
    nl ← gets next_statement_line;
    match nl ?= line_of_next_batch with
    | Lt => mret (Some tt)
    | Eq =>
      next ← lift (checked_add 32 pc 1);
      r ← gets regs; r' ← lift (list_set (pc_idx cfg) (Binary next) r); modify (set_regs r');;
      mret (Some tt)
    | Gt => if pc <? 2 then mret None else panic
    end
  end.

(** The row change of [advance]; [true] when the limit of rows stops the execution. *)
Definition next_row : M B bool :=
  next_pc ← get_next_pc;
  cpc ← gets curr_pc;
  if elem_eqb cpc next_pc then mret false
  else
    full ← has_enough_rows;
    if (full : bool) then mret true
    else
      n ← gets trace_len; modify (set_trace_len (n + 1));;
      set_col col_pc_update next_pc;;
      u ← lift (elem_u next_pc); push_row u;;
      modify (set_curr_pc next_pc);;
      mret false.

Definition advance : M B (option Z) :=
  stop ← next_row;
  if (stop : bool) then mret None
  else
    st_line ← gets next_statement_line;
    nl ← lift (checked_add 32 st_line 1);
    modify (set_next_line nl);;
    r ← set_next_pc;
    mret (match r with Some _ => Some st_line | None => None end).

(** *** Memory *)

Definition record_mem_op (kind : MemOperationKind) (addr : Z) : M B unit :=
  whenM (tracing (mode cfg))
    (l ← gets mem_ops; n ← gets trace_len; modify (set_mem_ops (l ++ [mkMemOperation n kind addr]))).

Definition set_mem (addr val step : Z) (id : Z) : M B unit :=
  submachine_op M_memory id [from_int 1; from_u32 addr; from_u32 step; from_u32 val] [];;
  record_mem_op Write addr;;
  m ← gets mem; modify (set_memory (<[addr := val]> m)).

Definition get_mem (addr step : Z) (id : Z) : M B Z :=
  m ← gets mem;
  let val := default 0 (m !! addr) in
  submachine_op M_memory id [from_int 0; from_u32 addr; from_u32 step; from_u32 val] [];;
  record_mem_op Read addr;;
  mret val.

Definition set_reg_mem (addr : Z) (val : Elem T) : M B unit :=
  if addr =? 0 then mret tt
  else l ← gets reg_last; modify (set_reg_last (<[addr := val]> l)).

Definition reg_value (l : gmap Z (Elem T)) (addr : Z) : Elem T :=
  if addr =? 0 then Binary 0 else default (Binary 0) (l !! addr).

Definition get_reg_mem (addr : Z) : M B (Elem T) := l ← gets reg_last; mret (reg_value l addr).

Definition backup_reg_mem : M B unit := l ← gets reg_last; modify (set_reg_second_last l).

(** [RegisterMemory::for_bootloader]. *)
Definition for_bootloader (b : B) : gmap Z T := into_fe <$> reg_second_last b.

(** *** Construction *)

(** The builder before the first [set_next_pc]; [num_regs] registers. *)
Definition initial_builder (num_regs : nat) (memory : gmap Z Z) : B :=
  {| trace_len := PC_INITIAL_VAL + 1; mem_ops := []; pc_trace := []; reg_trace := repeat [] num_regs;
     reg_writes := repeat None num_regs; submachine_ops := repeat [] machine_count; known_cols := [];
     curr_pc := Binary PC_INITIAL_VAL; next_statement_line := 1;
     regs := <[pc_idx cfg := Binary PC_INITIAL_VAL]> (repeat (Binary 0) num_regs);
     mem := memory; reg_last := ∅; reg_second_last := ∅ |}.

(** [inr]: the final, empty execution. *)
Definition builder_new (memory : gmap Z Z) : option (sum B B) :=
  let num_regs := size (reg_map cfg) in
  _ ← assert_that (Z.of_nat num_regs <? 2 ^ 16);
  _ ← assert_that (pc_idx cfg <? num_regs)%nat;
  let b := initial_builder num_regs memory in
  if max_rows cfg <=? trace_len b then Some (inr b)
  else
    r ← set_next_pc b;
    Some (match fst r with None => inr (snd r) | Some _ => inl (snd r) end).

End Builder.
