(* ===== verification/RiscvArith.v ===== *)
(** * 256-bit arithmetic of the RISC-V executor, [riscv-executor/src/arith.rs]

    Values are eight 32-bit words, least significant first, each in a field element. *)

From stdpp Require Import base list option.
From Stdlib Require Import ZArith Lia.
From S2P Require Import Prelude Goldilocks Field RiscvElem.

Section Arith.
Context {T : Type} `{LargeField T}.

(** [iter().enumerate().map(|(i, fe)| fe << (i * 32)).reduce(+)]; the sum of the words from [i] on. *)
Fixpoint biguint_of (i : Z) (x : list T) : Z :=
  match x with
  | [] => 0
  | fe :: x' => Z.shiftl (to_integer fe) (i * 32) + biguint_of (i + 1) x'
  end.

(** [F::from((res >> (i * 32)) & 0xffffffff)]. *)
Definition word_of (res : Z) (i : nat) : option T :=
  from_biguint (Z.land (Z.shiftr res (Z.of_nat i * 32)) 0xffffffff).

Definition words_of (res : Z) : option (list T) := mapM (word_of res) (seq 0 8).

Definition affine_256 (a b c : list T) : option (list T * list T) :=
  _ ← assert_that (Nat.eqb (length a) 8);
  _ ← assert_that (Nat.eqb (length b) 8);
  _ ← assert_that (Nat.eqb (length c) 8);
  let res := biguint_of 0 a * biguint_of 0 b + biguint_of 0 c in
  let res_hi := Z.shiftr res 256 in
  let res_lo := Z.land res (Z.shiftl 1 256 - 1) in
  hi ← words_of res_hi;
  lo ← words_of res_lo;
  Some (hi, lo).

(** The remainder by zero panics. *)
Definition mod_256 (a b c : list T) : option (list T) :=
  _ ← assert_that (Nat.eqb (length a) 8);
  _ ← assert_that (Nat.eqb (length b) 8);
  _ ← assert_that (Nat.eqb (length c) 8);
  let c := biguint_of 0 c in
  _ ← assert_that (negb (c =? 0));
  words_of ((Z.shiftl (biguint_of 0 a) 256 + biguint_of 0 b) mod c).

(** *** Coordinates of the elliptic curve: 32 bytes, most significant first *)

Definition fe_slice_to_u8_array (x : list T) : option (list Z) :=
  _ ← assert_that (Nat.eqb (length x) 8);
  Some (concat (map (fun fe => reverse (take 4 (f_to_bytes_le fe))) (reverse x))).

(** [chunks(4)] of 32 bytes. *)
Definition chunk (bytes : list Z) (i : nat) : list Z := take 4 (drop (4 * i) bytes).

Definition u8_array_to_fe_array (bytes : list Z) : option (list T) :=
  _ ← assert_that (Nat.eqb (length bytes) 32);
  mapM (fun i => f_from_bytes_le (reverse (chunk bytes i) ++ [0; 0; 0; 0])) (reverse (seq 0 8)).

(** The points of [k256]: [None] when the coordinates are not on the curve or the result has none. *)
Variable k256_double : list Z * list Z -> option (list Z * list Z).
Variable k256_add : list Z * list Z -> list Z * list Z -> option (list Z * list Z).

Definition ec_double (x y : list T) : option (list T * list T) :=
  xb ← fe_slice_to_u8_array x;
  yb ← fe_slice_to_u8_array y;
  r ← k256_double (xb, yb);
  x_res ← u8_array_to_fe_array (fst r);
  y_res ← u8_array_to_fe_array (snd r);
  Some (x_res, y_res).

Definition ec_add (x1 y1 x2 y2 : list T) : option (list T * list T) :=
  x1b ← fe_slice_to_u8_array x1;
  y1b ← fe_slice_to_u8_array y1;
  x2b ← fe_slice_to_u8_array x2;
  y2b ← fe_slice_to_u8_array y2;
  r ← k256_add (x1b, y1b) (x2b, y2b);
  x_res ← u8_array_to_fe_array (fst r);
  y_res ← u8_array_to_fe_array (snd r);
  Some (x_res, y_res).

End Arith.

(** ** Correctness *)

Section Correct.
Context {T : Type} `{LL : LargeFieldLaws T}.

Definition is_word (fe : T) : Prop := to_integer fe < 2 ^ 32.

(** The value of a list of words. *)
Fixpoint words_value (x : list T) : Z :=
  match x with [] => 0 | fe :: x' => to_integer fe + 2 ^ 32 * words_value x' end.

Lemma words_value_range x : Forall is_word x -> 0 <= words_value x < 2 ^ (32 * Z.of_nat (length x)).
Proof.
  induction 1 as [|fe x Hf Hx IH]; cbn [words_value length]; [cbn; lia|]. unfold is_word in Hf. range fe.
  rewrite Nat2Z.inj_succ, Z.mul_succ_r, Z.pow_add_r by lia. lia.
Qed.

Lemma biguint_of_value x : forall i, 0 <= i -> biguint_of i x = 2 ^ (32 * i) * words_value x.
Proof.
  induction x as [|fe x IH]; intros i Hi; cbn [biguint_of words_value]; [lia|].
  rewrite IH, Z.shiftl_mul_pow2, (Z.mul_comm i 32), Z.mul_add_distr_l, Z.pow_add_r by lia. lia.
Qed.

Lemma word_of_spec res i : exists fe : T, word_of res i = Some fe /\ to_integer fe = res / 2 ^ (32 * Z.of_nat i) mod 2 ^ 32.
Proof.
  unfold word_of. change 0xffffffff with (2 ^ 32 - 1). rewrite land_ones_mod, Z.shiftr_div_pow2, (Z.mul_comm _ 32) by lia.
  apply from_biguint_spec. pose proof (modulus_large (T:=T)). pose proof (Z.mod_pos_bound (res / 2 ^ (32 * Z.of_nat i)) (2 ^ 32)). lia.
Qed.

Lemma words_from res n : forall i, 0 <= res < 2 ^ (32 * Z.of_nat (i + n)) ->
  exists ws : list T, mapM (word_of res) (seq i n) = Some ws /\ length ws = n /\ Forall is_word ws /\ words_value ws = res / 2 ^ (32 * Z.of_nat i).
Proof.
  induction n as [|n IH]; intros i Hr; cbn [seq mapM].
  - exists []. split; [reflexivity|]. split; [reflexivity|]. split; [constructor|]. cbn [words_value]. symmetry. apply Z.div_small. now rewrite Nat.add_0_r in Hr.
  - destruct (word_of_spec res i) as (fe & -> & Hf). destruct (IH (S i)) as (ws & -> & Hl & Hw & Hv); [now rewrite Nat.add_succ_r in Hr|].
    exists (fe :: ws). split; [reflexivity|]. split; [cbn; now rewrite Hl|].
    assert (Hm := Z.mod_pos_bound (res / 2 ^ (32 * Z.of_nat i)) (2 ^ 32)). split; [constructor; [unfold is_word; lia|exact Hw]|].
    cbn [words_value]. rewrite Hf, Hv, Nat2Z.inj_succ, Z.mul_succ_r, Z.pow_add_r, <- Z.div_div by lia.
    rewrite Z.add_comm, <- Z.div_mod by lia. reflexivity.
Qed.

Lemma words_of_spec res : 0 <= res < 2 ^ 256 ->
  exists ws : list T, words_of res = Some ws /\ length ws = 8%nat /\ Forall is_word ws /\ words_value ws = res.
Proof.
  intros Hr. destruct (words_from res 8 0 Hr) as (ws & Hws & Hl & Hw & Hv). exists ws. rewrite Z.div_1_r in Hv. auto.
Qed.

Lemma biguint_of_words (x : list T) : length x = 8%nat -> Forall is_word x -> biguint_of 0 x = words_value x /\ 0 <= words_value x < 2 ^ 256.
Proof. intros Hl Hx. split; [rewrite biguint_of_value by lia; apply Z.mul_1_l|]. apply words_value_range in Hx. now rewrite Hl in Hx. Qed.

Lemma le_bytes_length n : forall x, length (le_bytes n x) = n.
Proof. induction n as [|n IH]; intros x; cbn; [reflexivity|now rewrite IH]. Qed.

Lemma le_bytes_bytes n : forall x, Forall (in_width 8) (le_bytes n x).
Proof. induction n as [|n IH]; intros x; cbn; constructor; [apply Z.mod_pos_bound; lia|apply IH]. Qed.

Lemma from_le_bytes_app l1 l2 : from_le_bytes (l1 ++ l2) = from_le_bytes l1 + 256 ^ Z.of_nat (length l1) * from_le_bytes l2.
Proof.
  induction l1 as [|b l1 IH]; cbn [app from_le_bytes length]; [cbn; lia|]. rewrite IH, Nat2Z.inj_succ, Z.pow_succ_r by lia. lia.
Qed.

(** A word and its four bytes. *)
Lemma word_bytes fe : is_word fe -> length (reverse (take 4 (f_to_bytes_le fe))) = 4%nat /\
  f_from_bytes_le (reverse (reverse (take 4 (f_to_bytes_le fe))) ++ [0; 0; 0; 0]) = Some fe.
Proof.
  intros Hf. unfold is_word in Hf. range fe. pose proof (to_bytes_le_length fe). rewrite to_bytes_le_spec, le_bytes_take by lia. rewrite reverse_involutive.
  split; [now rewrite length_reverse, le_bytes_length|].
  destruct (from_bytes_le_spec (T:=T) (le_bytes 4 (to_integer fe) ++ [0; 0; 0; 0])) as (x & -> & Hx).
  - rewrite from_le_bytes_app, from_le_bytes_mod. change (256 ^ Z.of_nat 4) with (2 ^ 32). cbn [from_le_bytes]. rewrite Z.mod_small by lia. lia.
  - apply Forall_app. split; [apply le_bytes_bytes|]. repeat constructor; lia.
  - f_equal. apply to_integer_inj. rewrite Hx, from_le_bytes_app, from_le_bytes_mod. change (256 ^ Z.of_nat 4) with (2 ^ 32). cbn [from_le_bytes]. rewrite Z.mod_small; lia.
Qed.

Lemma take_drop_concat {A} (ls : list (list A)) n : Forall (fun l => length l = n) ls -> forall i l, ls !! i = Some l -> take n (drop (n * i) (concat ls)) = l.
Proof.
  induction 1 as [|l0 ls Hl0 Hls IH]; intros i l Hi; [now rewrite lookup_nil in Hi|]. cbn [concat]. destruct i as [|i].
  - injection Hi as <-. rewrite Nat.mul_0_r. cbn [drop]. now apply take_app_length'.
  - cbn in Hi. replace (n * S i)%nat with (length l0 + n * i)%nat by lia. rewrite <- drop_drop, drop_app_length. now apply IH.
Qed.

Lemma mapM_pointwise {A B} (f : A -> option B) l : forall r, Forall2 (fun a b => f a = Some b) l r -> mapM f l = Some r.
Proof. induction l as [|a l IH]; intros r Hr; inversion Hr as [|? b ? r' Hab Hl]; subst; cbn; [reflexivity|]. rewrite Hab, (IH r' Hl). reflexivity. Qed.

(** Coordinates survive the conversion to bytes and back. *)
Lemma u8_array_roundtrip (x : list T) : length x = 8%nat -> Forall is_word x -> exists bs, fe_slice_to_u8_array x = Some bs /\ length bs = 32%nat /\ u8_array_to_fe_array bs = Some x.
Proof.
  intros Hl Hx. unfold fe_slice_to_u8_array. rewrite Hl. cbn [Nat.eqb assert_that].
  set (ls := map (fun fe : T => reverse (take 4 (f_to_bytes_le fe))) (reverse x)).
  assert (Hls : Forall (fun l => length l = 4%nat) ls).
  { apply Forall_map, Forall_reverse. eapply Forall_impl; [|exact Hx]. intros fe Hf. now apply word_bytes. }
  assert (Hlen : length ls = 8%nat) by (unfold ls; now rewrite length_map, length_reverse).
  exists (concat ls). split; [reflexivity|]. assert (Hc : length (concat ls) = 32%nat).
  { clear -Hls Hlen. destruct ls as [|l1 [|l2 [|l3 [|l4 [|l5 [|l6 [|l7 [|l8 [|]]]]]]]]]; try discriminate Hlen. repeat match goal with Hf : Forall _ (_ :: _) |- _ => inversion Hf; clear Hf; subst end. cbn [concat]. rewrite !length_app. cbn [length]. lia. }
  split; [exact Hc|]. unfold u8_array_to_fe_array. rewrite Hc. cbn [Nat.eqb assert_that]. eapply bind_eq; [reflexivity|]. apply mapM_pointwise.
  apply Forall2_same_length_lookup_2; [now rewrite length_reverse, length_seq, Hl|]. intros j i fe Hj Hfe.
  assert (Hj8 : (j < 8)%nat) by (apply lookup_lt_Some in Hfe; lia).
  assert (Hi : i = (7 - j)%nat). { rewrite reverse_lookup in Hj by (rewrite length_seq; lia). rewrite length_seq in Hj. apply lookup_seq in Hj. lia. }
  assert (Hlk : ls !! i = Some (reverse (take 4 (f_to_bytes_le fe)))).
  { unfold ls. rewrite list_lookup_fmap, reverse_lookup by lia. rewrite Hl, Hi. replace (8 - S (7 - j))%nat with j by lia. now rewrite Hfe. }
  unfold chunk. rewrite (take_drop_concat ls 4 Hls i _ Hlk). apply word_bytes. now apply (proj1 (Forall_lookup _ _) Hx j).
Qed.

End Correct.

(** C34: the 256-bit arithmetic is right. For operands of eight words, [affine_256] returns
    the high and the low half of [a * b + c], [mod_256] returns [(2 ^ 256 * a + b) mod c] and
    panics exactly when [c] is zero, all results are words again, and the conversion of a
    coordinate to the big-endian bytes of the curve library loses nothing. *)
Theorem arith_256_correct {T} `{LL : LargeFieldLaws T} (a b c : list T) :
  length a = 8%nat -> length b = 8%nat -> length c = 8%nat ->
  Forall is_word a -> Forall is_word b -> Forall is_word c ->
  (exists hi lo, affine_256 a b c = Some (hi, lo) /\ length hi = 8%nat /\ length lo = 8%nat /\ Forall is_word hi /\ Forall is_word lo /\
     words_value hi * 2 ^ 256 + words_value lo = words_value a * words_value b + words_value c) /\
  (if words_value c =? 0 then mod_256 a b c = None
   else exists r, mod_256 a b c = Some r /\ length r = 8%nat /\ Forall is_word r /\
     words_value r = (2 ^ 256 * words_value a + words_value b) mod words_value c) /\
  (exists bs, fe_slice_to_u8_array a = Some bs /\ length bs = 32%nat /\ u8_array_to_fe_array bs = Some a).
Proof.
  intros La Lb Lc Ha Hb Hc. destruct (biguint_of_words a La Ha) as [Va Ra], (biguint_of_words b Lb Hb) as [Vb Rb], (biguint_of_words c Lc Hc) as [Vc Rc].
  split; [|split; [|now apply u8_array_roundtrip]].
  - unfold affine_256. rewrite La, Lb, Lc, Va, Vb, Vc. cbn [Nat.eqb assert_that mbind option_bind].
    set (res := words_value a * words_value b + words_value c). assert (Hres : 0 <= res < 2 ^ 512) by (unfold res; nia).
    rewrite Z.shiftl_mul_pow2, Z.mul_1_l, land_ones_mod, Z.shiftr_div_pow2 by lia.
    destruct (words_of_spec (T:=T) (res / 2 ^ 256)) as (hi & -> & Lh & Wh & Vh); [split; [apply Z.div_pos; lia|apply Z.div_lt_upper_bound; lia]|].
    destruct (words_of_spec (T:=T) (res mod 2 ^ 256)) as (lo & -> & Ll & Wl & Vl); [apply Z.mod_pos_bound; lia|].
    exists hi, lo. rewrite Vh, Vl, (Z.mul_comm _ (2 ^ 256)), <- Z.div_mod by lia. auto 8.
  - unfold mod_256. rewrite La, Lb, Lc, Va, Vb, Vc. cbn [Nat.eqb assert_that mbind option_bind]. destruct (Z.eqb_spec (words_value c) 0) as [|Hnz]; [reflexivity|].
    cbn [negb assert_that mbind option_bind]. rewrite Z.shiftl_mul_pow2, (Z.mul_comm (words_value a)) by lia.
    set (r := (2 ^ 256 * words_value a + words_value b) mod words_value c).
    assert (Hr : 0 <= r < words_value c) by (apply Z.mod_pos_bound; lia).
    destruct (words_of_spec (T:=T) r) as (ws & -> & Lw & Ww & Vw); [lia|]. exists ws. auto.
Qed.

Lemma arith_256_correct_witness :
  let word z := gl_of_canonical z in
  let a := map word [5; 0; 0; 0; 0; 0; 0; 4294967295] in
  exists hi lo, affine_256 a a a = Some (hi, lo) /\ words_value hi * 2 ^ 256 + words_value lo = words_value a * words_value a + words_value a.
Proof.
  cbv zeta. set (a := map _ _). assert (Hw : Forall is_word a) by (unfold a; repeat (apply List.Forall_cons; [vm_compute; reflexivity|]); apply List.Forall_nil).
  destruct (arith_256_correct a a a eq_refl eq_refl eq_refl Hw Hw Hw) as [(hi & lo & Hd & _ & _ & _ & _ & Hv) _]. exists hi, lo. exact (conj Hd Hv).
Defined.
