(* ===== verification/RiscvPil.v ===== *)
(** * Links of the main machine, [riscv-executor/src/pil.rs]

    The executor finds the identity that connects an instruction to a submachine by the
    names of the columns in the identity's selectors. *)

From stdpp Require Import base list option strings.
From Stdlib Require Import ZArith Lia.
From S2P Require Import Prelude Field Effect ExpressionEvaluator WriteOnceMemory.

Section Pil.
Context {T : Type}.

(** The identities of the optimized PIL; only permutations and lookups are links. *)
Inductive Identity :=
| PermutationIdentity (id : Z) (lhs rhs : SelectedExpressions T)
| LookupIdentity (id : Z) (lhs rhs : SelectedExpressions T)
| OtherIdentity (id : Z).

Definition ident_id (i : Identity) : Z :=
  match i with PermutationIdentity id _ _ | LookupIdentity id _ _ | OtherIdentity id => id end.

(** [str::contains]. *)
Fixpoint str_contains (pat s : string) : bool :=
  String.prefix pat s || match s with EmptyString => false | String _ s' => str_contains pat s' end.

(** [expr_any] of the visitor: does any node satisfy the predicate? *)
Fixpoint expr_any (f : AlgebraicExpression T -> bool) (e : AlgebraicExpression T) : bool :=
  f e || match e with
         | ABinaryOperation e1 _ e2 => expr_any f e1 || expr_any f e2
         | AUnaryOperation _ e1 => expr_any f e1
         | _ => false
         end.

(** The nodes before their children, the first one for which [f] gives a value. *)
Fixpoint pre_visit {R} (f : AlgebraicExpression T -> option R) (e : AlgebraicExpression T) : option R :=
  match f e with
  | Some r => Some r
  | None =>
    match e with
    | ABinaryOperation e1 _ e2 => match pre_visit f e1 with Some r => Some r | None => pre_visit f e2 end
    | AUnaryOperation _ e1 => pre_visit f e1
    | _ => None
    end
  end.

Definition refers (p : string -> bool) (e : AlgebraicExpression T) : bool :=
  match e with AReference r => p (ref_name r) | _ => false end.

Definition selected_any (f : AlgebraicExpression T -> bool) (s : SelectedExpressions T) : bool :=
  expr_any f (selector s) || existsb (expr_any f) (expressions s).

Definition links_from_pil (identities : list Identity) : list Identity :=
  List.filter (fun i => match i with OtherIdentity _ => false | _ => true end) identities.

(** The name of the selector of a permutation: the first reference into an array [sel]. *)
Definition extract_selector (i : Identity) : option string :=
  match i with
  | PermutationIdentity _ _ rhs =>
    pre_visit (fun e => match e with
                        | AReference r => if str_contains "::sel" (ref_name r) && str_contains "[" (ref_name r) then Some (ref_name r) else None
                        | _ => None
                        end) (selector rhs)
  | _ => None
  end.

(** Links with a name on the left that satisfies [from] and one on the right that contains [to]. *)
Definition is_link (from : string -> bool) (to : string) (i : Identity) : bool :=
  match i with
  | PermutationIdentity _ lhs rhs => expr_any (refers from) (selector lhs) && expr_any (refers (str_contains to)) (selector rhs)
  | LookupIdentity _ lhs rhs => expr_any (refers from) (selector lhs) && selected_any (refers (str_contains to)) rhs
  | OtherIdentity _ => false
  end.

Definition find_links (links : list Identity) (from to : string) : list Identity :=
  List.filter (is_link (str_contains from) to) links.

Definition find_instruction_links (links : list Identity) (instruction_flag to : string) : list Identity :=
  List.filter (is_link (fun n => bool_decide (n = instruction_flag)) to) links.

End Pil.
Arguments Identity : clear implicits.
