(* ===== verification/RiscvExec.v ===== *)
(** * The instructions of the RISC-V executor, [Executor] of [riscv-executor/src/lib.rs]

    One definition per instruction: what it does to the registers, the memory and the
    program counter, the columns of the main machine it sets in the current row, and the
    operations it sends to the submachines. Integer overflow panics, as in the profiles with
    overflow checks. *)

From stdpp Require Import base list option gmap strings pretty.
From Stdlib Require Import ZArith Lia.
From S2P Require Import Prelude Goldilocks Field AffineExpression PanicMonad RiscvElem RiscvNames RiscvTrace.
From S2P Require Import RiscvArith RiscvPoseidon RiscvPil.

(** ** The executor *)

(** External code: the hash and curve functions, and the prover's query callback with its
    state [W]; an error of the callback is [None]. *)
Record Externals (T W : Type) := mkExternals {
  inputs : W -> string -> option (option T * W);
  poseidon2_gl : list Z -> list Z;
  keccakf : list Z -> list Z;
  k256_double : list Z * list Z -> option (list Z * list Z);
  k256_add : list Z * list Z -> list Z * list Z -> option (list Z * list Z)
}.
Arguments inputs {T W}.
Arguments poseidon2_gl {T W}.
Arguments keccakf {T W}.
Arguments k256_double {T W}.
Arguments k256_add {T W}.

(** What does not change during the execution. A fixed column is [None] when it is not
    uniquely sized. *)
Record Env (T W : Type) := mkEnv {
  config : Config;
  externals : Externals T W;
  label_map : gmap string (Elem T);
  bootloader_inputs : list (Elem T);
  fixed : list (string * option (list T));
  pil_links : list (Identity T)
}.
Arguments config {T W}.
Arguments externals {T W}.
Arguments label_map {T W}.
Arguments bootloader_inputs {T W}.
Arguments fixed {T W}.
Arguments pil_links {T W}.

Record Executor (T W : Type) := mkExecutor { proc : TraceBuilder T; step : Z; world : W }.
Arguments mkExecutor {T W}.
Arguments proc {T W}.
Arguments step {T W}.
Arguments world {T W}.

Definition is_multiple_of_4 (n : Z) : bool := n mod 4 =? 0.

Section Executor.
Context {T W : Type} `{LargeField T} `{Display T}.
Variable env : Env T W.
Notation X := (M (Executor T W)).

Definition put_proc (p : TraceBuilder T) (e : Executor T W) : Executor T W := mkExecutor p (step e) (world e).
Definition put_step (s : Z) (e : Executor T W) : Executor T W := mkExecutor (proc e) s (world e).
Definition put_world (w : W) (e : Executor T W) : Executor T W := mkExecutor (proc e) (step e) w.

(** A method of the trace builder. *)
Definition on_proc {A} (m : M (TraceBuilder T) A) : X A := on_part proc put_proc m.

(** *** Fixed columns and links *)

Definition get_fixed (name : string) : X (option (list T)) :=
  match List.find (fun nv => bool_decide (fst nv = name)) (fixed env) with
  | None => mret None
  | Some (_, v) => c ← lift v; mret (Some c)
  end.

(** [get_known_fixed]: the columns are cached only in witness mode. *)
Definition get_known_fixed (col : KnownFixedCol) (row : nat) : X T :=
  if witnessing (mode (config env)) then
    c ← get_fixed (fixed_name col); c ← lift c; lift (c !! row)
  else mret f_zero.

(** The macro [get_fixed!]. *)
Definition get_fixed_here (col : KnownFixedCol) : X (Elem T) :=
  if witnessing (mode (config env)) then
    pc ← on_proc get_pc; u ← lift (elem_u pc); v ← get_known_fixed col (Z.to_nat u); mret (Field v)
  else mret (Field f_zero).

Definition set_col (c : KnownWitnessCol) (v : Elem T) : X unit := on_proc (RiscvTrace.set_col (config env) c v).
Definition set_cols (l : list (KnownWitnessCol * Elem T)) : X unit := on_proc (RiscvTrace.set_cols (config env) l).
Definition submachine_op (m : MachineInstance) (id : Z) (args ext : list T) : X unit :=
  on_proc (RiscvTrace.submachine_op (config env) m id args ext).
Definition get_mem (addr st id : Z) : X Z := on_proc (RiscvTrace.get_mem (config env) addr st id).
Definition set_mem (addr val st id : Z) : X unit := on_proc (RiscvTrace.set_mem (config env) addr val st id).
Definition set_pc (v : Elem T) : X unit := on_proc (RiscvTrace.set_pc (config env) v).

Definition step_plus (offset : Z) : X Z := s ← gets step; lift (checked_add 32 s offset).

(** The link of an instruction to a submachine, by its position. *)
Definition instr_link_id (instr : Instruction) (target : MachineInstance) (idx : nat) : X Z :=
  if witnessing (mode (config env)) then
    i ← lift (find_instruction_links (pil_links env) (flag instr) (namespace target) !! idx); mret (ident_id i)
  else mret 0.

Definition link_id (from target : string) (idx : nat) : X Z :=
  if witnessing (mode (config env)) then
    i ← lift (find_links (pil_links env) from target !! idx); mret (ident_id i)
  else mret 0.

(** *** Registers *)

Definition reg_read (step_offset reg id : Z) : X (Elem T) :=
  val ← on_proc (get_reg_mem reg);
  st ← step_plus step_offset;
  submachine_op M_regs id [from_int 0; from_u32 reg; from_u32 st; into_fe val] [];;
  mret val.

Definition reg_write (step_offset reg : Z) (val : Elem T) (id : Z) : X unit :=
  st ← step_plus step_offset;
  submachine_op M_regs id [from_int 1; from_u32 reg; from_u32 st; into_fe val] [];;
  on_proc (set_reg_mem reg val).

(** A read and a write through the link of the instruction at a position. *)
Definition link_read (instr : Instruction) (idx : nat) (step_offset reg : Z) : X (Elem T) :=
  lid ← instr_link_id instr M_regs idx; reg_read step_offset reg lid.
Definition link_write (instr : Instruction) (idx : nat) (step_offset reg : Z) (val : Elem T) : X unit :=
  lid ← instr_link_id instr M_regs idx; reg_write step_offset reg val lid.

(** *** Arguments and columns *)

Definition arg (args : list (Elem T)) (i : nat) : X (Elem T) := lift (args !! i).
Definition arg_u (args : list (Elem T)) (i : nat) : X Z := a ← arg args i; lift (elem_u a).
Definition arg_bin (args : list (Elem T)) (i : nat) : X Z := a ← arg args i; lift (elem_bin a).

Definition byte_cols (c1 c2 c3 c4 : KnownWitnessCol) (v : Z) : list (KnownWitnessCol * Elem T) :=
  let '(b1, b2, b3, b4, _) := decompose_lower32 v in
  [(c1, from_u32_as_fe b1); (c2, from_u32_as_fe b2); (c3, from_u32_as_fe b3); (c4, from_u32_as_fe b4)].
Definition X_bytes : Z -> list (KnownWitnessCol * Elem T) := byte_cols col_X_b1 col_X_b2 col_X_b3 col_X_b4.
Definition Y_bytes : Z -> list (KnownWitnessCol * Elem T) := byte_cols col_Y_b5 col_Y_b6 col_Y_b7 col_Y_b8.
Definition REM_bytes : Z -> list (KnownWitnessCol * Elem T) := byte_cols col_REM_b1 col_REM_b2 col_REM_b3 col_REM_b4.
Definition field_bit (b : bool) : Elem T := if b then Field f_one else Field f_zero.

(** [XX], [XXIsZero] and, for a non-zero value, [XX_inv]. *)
Definition set_is_zero_cols (val : Elem T) : X unit :=
  set_cols [(col_XX, val); (col_XXIsZero, from_bool_as_fe (elem_is_zero val))];;
  if elem_is_zero val then mret tt
  else inv ← lift (f_div f_one (into_fe val)); set_col col_XX_inv (Field inv).

(** ** Instructions *)

Definition exec_set_reg (args : list (Elem T)) : X (option (Elem T)) :=
  addr ← arg_u args 0;
  val ← arg args 1;
  link_write I_set_reg 0 0 addr val;;
  set_col col_Y val;;
  free ← get_fixed_here F_Y_read_free;
  (if elem_is_zero free then mret tt else set_col col_Y_free_value val);;
  mret None.

Definition exec_get_reg (args : list (Elem T)) : X (option (Elem T)) :=
  set_col col_instr_get_reg (Binary 1);;
  addr ← arg_u args 0;
  val ← link_read I_get_reg 0 0 addr;
  mret (Some val).

Definition exec_affine (args : list (Elem T)) : X (option (Elem T)) :=
  read_reg ← arg_u args 0;
  val1 ← link_read I_affine 0 0 read_reg;
  write_reg ← arg_u args 1;
  factor ← arg args 2;
  offset ← arg args 3;
  res ← lift (elem_add (elem_mul val1 factor) offset);
  link_write I_affine 1 1 write_reg res;;
  set_col col_tmp1_col val1;;
  mret None.

(** [mstore] and [mstore_bootloader]. *)
Definition exec_mstore (instr : Instruction) (args : list (Elem T)) : X (option (Elem T)) :=
  read_reg1 ← arg_u args 0;
  read_reg2 ← arg_u args 1;
  addr1 ← link_read instr 0 0 read_reg1;
  addr2 ← link_read instr 1 1 read_reg2;
  offset ← arg_bin args 2;
  read_reg3 ← arg_u args 3;
  value ← link_read instr 2 2 read_reg3;
  a1 ← lift (elem_bin addr1);
  a2 ← lift (elem_bin addr2);
  d ← lift (i64_checked (a1 - a2));
  addr ← lift (i64_checked (d + offset));
  assertM (0 <=? addr);;
  assertM (Z.rem addr 4 =? 0);;
  set_col col_wrap_bit (field_bit (2 ^ 32 - 1 <? addr));;
  let addr := as_width 32 addr in
  lid ← instr_link_id instr M_memory 0;
  v ← lift (elem_u value);
  st ← step_plus 3;
  set_mem addr v st lid;;
  set_cols ([(col_tmp1_col, addr1); (col_tmp2_col, addr2); (col_tmp3_col, value)] ++ X_bytes addr);;
  mret None.

Definition exec_mload (args : list (Elem T)) : X (option (Elem T)) :=
  read_reg ← arg_u args 0;
  addr1 ← link_read I_mload 0 0 read_reg;
  offset ← arg_bin args 1;
  write_addr1 ← arg_u args 2;
  write_addr2 ← arg_u args 3;
  a1 ← lift (elem_bin addr1);
  addr ← lift (i64_checked (a1 + offset));
  lid ← instr_link_id I_mload M_memory 0;
  st ← step_plus 1;
  val ← get_mem (Z.land (as_width 32 addr) 0xfffffffc) st lid;
  let rem := Z.rem addr 4 in
  link_write I_mload 1 2 write_addr1 (Binary val);;
  link_write I_mload 2 3 write_addr2 (Binary rem);;
  set_cols [(col_tmp1_col, addr1); (col_tmp3_col, from_u32_as_fe val); (col_tmp4_col, from_u32_as_fe (as_width 32 rem))];;
  off ← arg args 1;
  sum ← lift (elem_add addr1 off);
  let v := as_i64_from_lower_bytes sum in
  let '(b1, b2, b3, b4, _) := decompose_lower32 v in
  set_cols [(col_X_b1, from_u32_as_fe (b1 / 4)); (col_X_b2, from_u32_as_fe b2); (col_X_b3, from_u32_as_fe b3); (col_X_b4, from_u32_as_fe b4);
            (col_wrap_bit, from_u32_as_fe (Z.land (Z.shiftr (as_width 64 v) 32) 1))];;
  mret None.

Definition bootloader_input (addr : Z) : X (Elem T) := lift (bootloader_inputs env !! Z.to_nat (as_width 64 addr)).

Definition exec_load_bootloader_input (args : list (Elem T)) : X (option (Elem T)) :=
  r ← arg_u args 0;
  addr ← link_read I_load_bootloader_input 0 0 r;
  write_addr ← arg_u args 1;
  factor ← arg_bin args 2;
  offset ← arg_bin args 3;
  a ← lift (elem_bin addr);
  p ← lift (i64_checked (a * factor));
  addr ← lift (i64_checked (p + offset));
  val ← bootloader_input addr;
  link_write I_load_bootloader_input 1 2 write_addr val;;
  mret None.

Definition exec_assert_bootloader_input (args : list (Elem T)) : X (option (Elem T)) :=
  r ← arg_u args 0;
  addr ← link_read I_assert_bootloader_input 0 0 r;
  r' ← arg_u args 1;
  val ← link_read I_assert_bootloader_input 1 1 r';
  factor ← arg_bin args 2;
  offset ← arg_bin args 3;
  a ← lift (elem_bin addr);
  p ← lift (i64_checked (a * factor));
  addr ← lift (i64_checked (p + offset));
  actual_val ← bootloader_input addr;
  assertM (elem_eqb val actual_val);;
  mret None.

(** *** Control flow *)

Definition exec_load_label (args : list (Elem T)) : X (option (Elem T)) :=
  write_reg ← arg_u args 0;
  label ← arg args 1;
  link_write I_load_label 0 0 write_reg label;;
  set_cols [(col_tmp1_col, label); (col_instr_load_label_param_l, label)];;
  mret None.

Definition pc_plus_one : X Z := pc ← on_proc get_pc; u ← lift (elem_u pc); lift (checked_add 32 u 1).

Definition exec_jump (args : list (Elem T)) : X (option (Elem T)) :=
  label ← arg args 0;
  next_pc ← pc_plus_one;
  write_reg ← arg_u args 1;
  link_write I_jump 0 0 write_reg (Binary next_pc);;
  set_pc label;;
  set_col col_instr_jump_param_l label;;
  mret None.

Definition exec_jump_dyn (args : list (Elem T)) : X (option (Elem T)) :=
  read_reg ← arg_u args 0;
  addr ← link_read I_jump_dyn 0 0 read_reg;
  next_pc ← pc_plus_one;
  write_reg ← arg_u args 1;
  link_write I_jump_dyn 1 0 write_reg (Binary next_pc);;
  set_pc addr;;
  set_col col_tmp1_col addr;;
  mret None.

Definition exec_jump_to_bootloader_input (args : list (Elem T)) : X (option (Elem T)) :=
  idx ← arg_bin args 0;
  addr ← bootloader_input idx;
  set_pc addr;;
  mret None.

Definition exec_branch_if_diff_nonzero (args : list (Elem T)) : X (option (Elem T)) :=
  read_reg1 ← arg_u args 0;
  read_reg2 ← arg_u args 1;
  val1 ← link_read I_branch_if_diff_nonzero 0 0 read_reg1;
  val2 ← link_read I_branch_if_diff_nonzero 1 1 read_reg2;
  val ← lift (elem_sub val1 val2);
  label ← arg args 2;
  whenM (negb (elem_is_zero val)) (set_pc label);;
  set_cols [(col_tmp1_col, val1); (col_tmp2_col, val2)];;
  set_is_zero_cols val;;
  set_col col_instr_branch_if_diff_nonzero_param_l label;;
  mret None.

Definition exec_branch_if_diff_equal (args : list (Elem T)) : X (option (Elem T)) :=
  read_reg1 ← arg_u args 0;
  read_reg2 ← arg_u args 1;
  val1 ← link_read I_branch_if_diff_equal 0 0 read_reg1;
  val2 ← link_read I_branch_if_diff_equal 1 1 read_reg2;
  offset ← arg args 2;
  d ← lift (elem_sub val1 val2);
  val ← lift (elem_sub d offset);
  label ← arg args 3;
  whenM (elem_is_zero val) (set_pc label);;
  set_cols [(col_tmp1_col, val1); (col_tmp2_col, val2)];;
  set_is_zero_cols val;;
  set_col col_instr_branch_if_diff_equal_param_l label;;
  mret None.

(** [pc + cond.s() + 1] in [i32]. *)
Definition skip_target (cond : Elem T) : X Z :=
  cpc ← on_proc get_pc;
  pc ← lift (elem_s cpc);
  c ← lift (elem_s cond);
  s ← lift (i32_try_from (pc + c));
  lift (i32_try_from (s + 1)).

Definition exec_skip_if_equal (args : list (Elem T)) : X (option (Elem T)) :=
  read_reg1 ← arg_u args 0;
  read_reg2 ← arg_u args 1;
  val1 ← link_read I_skip_if_equal 0 0 read_reg1;
  val2 ← link_read I_skip_if_equal 1 1 read_reg2;
  offset ← arg args 2;
  cond ← arg args 3;
  d ← lift (elem_sub val1 val2);
  val ← lift (elem_add d offset);
  whenM (elem_is_zero val) (t ← skip_target cond; set_pc (Binary t));;
  set_cols [(col_tmp1_col, val1); (col_tmp2_col, val2)];;
  set_is_zero_cols val;;
  mret None.

Definition exec_branch_if_diff_greater_than (args : list (Elem T)) : X (option (Elem T)) :=
  read_reg1 ← arg_u args 0;
  read_reg2 ← arg_u args 1;
  val1 ← link_read I_branch_if_diff_greater_than 0 0 read_reg1;
  val2 ← link_read I_branch_if_diff_greater_than 1 1 read_reg2;
  offset ← arg args 2;
  d ← lift (elem_sub val1 val2);
  val ← lift (elem_sub d offset);
  label ← arg args 3;
  b ← lift (elem_bin val);
  whenM (0 <? b) (set_pc label);;
  set_cols [(col_tmp1_col, val1); (col_tmp2_col, val2); (col_instr_branch_if_diff_greater_than_param_l, label)];;
  val_p ← lift (elem_add val (from_u32_as_fe (2 ^ 32 - 1)));
  set_cols (X_bytes (as_i64_from_lower_bytes val_p) ++ [(col_wrap_bit, field_bit (0 <? b))]);;
  mret None.

(** *** Comparisons *)

Definition exec_is_diff_greater_than (args : list (Elem T)) : X (option (Elem T)) :=
  read_reg1 ← arg_u args 0;
  read_reg2 ← arg_u args 1;
  val1 ← link_read I_is_diff_greater_than 0 0 read_reg1;
  val2 ← link_read I_is_diff_greater_than 1 1 read_reg2;
  offset ← arg args 2;
  write_reg ← arg_u args 3;
  d ← lift (elem_sub val1 val2);
  val ← lift (elem_sub d offset);
  b ← lift (elem_bin val);
  let r := b2z (0 <? b) in
  link_write I_is_diff_greater_than 2 2 write_reg (Binary r);;
  set_cols [(col_tmp1_col, val1); (col_tmp2_col, val2)];;
  val_p ← lift (elem_add val (from_u32_as_fe (2 ^ 32 - 1)));
  set_cols (X_bytes (as_i64_from_lower_bytes val_p) ++ [(col_wrap_bit, from_u32_as_fe r)]);;
  mret None.

Definition exec_is_equal_zero (args : list (Elem T)) : X (option (Elem T)) :=
  read_reg ← arg_u args 0;
  val ← link_read I_is_equal_zero 0 0 read_reg;
  write_reg ← arg_u args 1;
  let r := b2z (elem_is_zero val) in
  link_write I_is_equal_zero 1 2 write_reg (Binary r);;
  set_col col_tmp1_col val;;
  set_is_zero_cols val;;
  mret None.

Definition exec_is_not_equal (args : list (Elem T)) : X (option (Elem T)) :=
  read_reg1 ← arg_u args 0;
  read_reg2 ← arg_u args 1;
  val1 ← link_read I_is_not_equal 0 0 read_reg1;
  val2 ← link_read I_is_not_equal 1 1 read_reg2;
  write_reg ← arg_u args 2;
  a ← lift (elem_bin val1);
  b ← lift (elem_bin val2);
  d ← lift (i64_checked (a - b));
  let r := b2z (negb (d =? 0)) in
  link_write I_is_not_equal 2 2 write_reg (Binary r);;
  set_cols [(col_tmp1_col, val1); (col_tmp2_col, val2); (col_tmp3_col, from_u32_as_fe r)];;
  set_is_zero_cols (Binary d);;
  mret None.

(** *** Wrapping arithmetic *)

Definition exec_add_wrap (args : list (Elem T)) : X (option (Elem T)) :=
  read_reg1 ← arg_u args 0;
  read_reg2 ← arg_u args 1;
  val1 ← link_read I_add_wrap 0 0 read_reg1;
  val2 ← link_read I_add_wrap 1 1 read_reg2;
  set_cols [(col_tmp1_col, val1); (col_tmp2_col, val2)];;
  offset ← arg args 2;
  write_reg ← arg_u args 3;
  s ← lift (elem_add val1 val2);
  val ← lift (elem_add s offset);
  b ← lift (elem_bin val);
  assertM (b <? Z.shiftl 2 33);;
  assertM (0 <=? b);;
  let r := as_width 32 b in
  link_write I_add_wrap 2 2 write_reg (Binary r);;
  let v := as_i64_from_lower_bytes val in
  set_cols ((col_tmp3_col, from_u32_as_fe r) :: X_bytes v ++ [(col_wrap_bit, field_bit (0xffffffff <? v))]);;
  mret None.

Definition exec_wrap16 (args : list (Elem T)) : X (option (Elem T)) :=
  read_reg ← arg_u args 0;
  val ← link_read I_wrap16 0 0 read_reg;
  factor ← arg_bin args 1;
  write_reg ← arg_u args 2;
  b ← lift (elem_bin val);
  val_offset ← lift (i64_checked (b * factor));
  let r := as_width 32 val_offset in
  link_write I_wrap16 1 3 write_reg (Binary r);;
  let tmp3_val : Elem T := from_u32_as_fe r in
  let '(b5, b6, _, _, _) := decompose_lower32 (Z.shiftr val_offset 32) in
  set_cols ([(col_tmp1_col, val); (col_tmp3_col, tmp3_val)] ++ X_bytes (as_i64_from_lower_bytes tmp3_val) ++
            [(col_Y_b5, from_u32_as_fe b5); (col_Y_b6, from_u32_as_fe b6)]);;
  mret None.

Definition exec_sub_wrap_with_offset (args : list (Elem T)) : X (option (Elem T)) :=
  read_reg1 ← arg_u args 0;
  read_reg2 ← arg_u args 1;
  val1 ← link_read I_sub_wrap_with_offset 0 0 read_reg1;
  val2 ← link_read I_sub_wrap_with_offset 1 1 read_reg2;
  offset ← arg args 2;
  write_reg ← arg_u args 3;
  d ← lift (elem_sub val1 val2);
  val ← lift (elem_add d offset);
  b ← lift (elem_bin val);
  r_i64 ← lift (i64_checked (b + 0x100000000));
  let r := as_width 32 r_i64 in
  link_write I_sub_wrap_with_offset 2 2 write_reg (Binary r);;
  set_cols ([(col_tmp1_col, val1); (col_tmp2_col, val2); (col_tmp3_col, from_u32_as_fe r)] ++ X_bytes r_i64 ++
            [(col_wrap_bit, field_bit (0xffffffff <? r_i64))]);;
  mret None.

(** *** Signs *)

(** [(v as u8) as i8]. *)
Definition as_i8 (v : Z) : Z := (v + 128) mod 256 - 128.

Definition exec_sign_extend_byte (args : list (Elem T)) : X (option (Elem T)) :=
  read_reg ← arg_u args 0;
  val ← link_read I_sign_extend_byte 0 0 read_reg;
  write_reg ← arg_u args 1;
  u ← lift (elem_u val);
  let byte_val := as_i8 u in
  let extended_val := as_width 32 byte_val in
  link_write I_sign_extend_byte 1 3 write_reg (Binary extended_val);;
  let '(b1, b2, b3, b4, _) := decompose_lower32 (as_i64_from_lower_bytes val) in
  set_cols [(col_tmp1_col, val); (col_tmp3_col, from_u32_as_fe extended_val); (col_Y_7bit, from_u32_as_fe (Z.land b1 0x7f));
            (col_X_b2, from_u32_as_fe b2); (col_X_b3, from_u32_as_fe b3); (col_X_b4, from_u32_as_fe b4);
            (col_wrap_bit, field_bit (byte_val <? 0))];;
  mret None.

Definition exec_sign_extend_16_bits (args : list (Elem T)) : X (option (Elem T)) :=
  read_reg ← arg_u args 0;
  val ← link_read I_sign_extend_16_bits 0 0 read_reg;
  write_reg ← arg_u args 1;
  u ← lift (elem_u val);
  let sign_bit := negb (Z.land u 0x8000 =? 0) in
  let extended_val := if sign_bit then Z.lor u 0xFFFF0000 else Z.land u 0x0000FFFF in
  link_write I_sign_extend_16_bits 1 3 write_reg (Binary extended_val);;
  let '(b1, b2, b3, b4, _) := decompose_lower32 (as_i64_from_lower_bytes val) in
  set_cols [(col_tmp1_col, val); (col_tmp3_col, from_u32_as_fe extended_val); (col_X_b1, from_u32_as_fe b1);
            (col_X_b3, from_u32_as_fe b3); (col_X_b4, from_u32_as_fe b4); (col_Y_7bit, from_u32_as_fe (Z.land b2 0x7f));
            (col_Y_15bit, from_u32_as_fe (Z.land u 0x7fff)); (col_wrap_bit, field_bit sign_bit)];;
  mret None.

Definition exec_to_signed (args : list (Elem T)) : X (option (Elem T)) :=
  read_reg ← arg_u args 0;
  val ← link_read I_to_signed 0 0 read_reg;
  write_reg ← arg_u args 1;
  u ← lift (elem_u val);
  let r := as_i32 u in
  link_write I_to_signed 1 1 write_reg (Binary r);;
  let '(b1, b2, b3, b4, _) := decompose_lower32 u in
  set_cols [(col_tmp1_col, val); (col_tmp3_col, from_i32_as_fe r); (col_X_b1, from_u32_as_fe b1); (col_X_b2, from_u32_as_fe b2);
            (col_X_b3, from_u32_as_fe b3); (col_wrap_bit, field_bit (negb (Z.land b4 0x80 =? 0)));
            (col_Y_7bit, from_u32_as_fe (Z.land b4 0x7f))];;
  mret None.

Definition exec_fail : X (option (Elem T)) := panic.

(** *** Multiplication, division and bits *)

Definition exec_divremu (args : list (Elem T)) : X (option (Elem T)) :=
  read_reg1 ← arg_u args 0;
  read_reg2 ← arg_u args 1;
  val1 ← link_read I_divremu 0 0 read_reg1;
  val2 ← link_read I_divremu 1 1 read_reg2;
  write_reg1 ← arg_u args 2;
  write_reg2 ← arg_u args 3;
  y ← lift (elem_u val1);
  x ← lift (elem_u val2);
  let div := if x =? 0 then 0xffffffff else y / x in
  let rem := if x =? 0 then y else y mod x in
  link_write I_divremu 2 2 write_reg1 (Binary div);;
  link_write I_divremu 3 3 write_reg2 (Binary rem);;
  let tmp3_val : Elem T := from_u32_as_fe div in
  set_cols [(col_tmp1_col, val1); (col_tmp2_col, val2); (col_tmp3_col, tmp3_val); (col_tmp4_col, from_u32_as_fe rem)];;
  set_is_zero_cols val2;;
  set_cols (X_bytes (as_i64_from_lower_bytes tmp3_val) ++ REM_bytes rem);;
  (if 0 <? x then
     d ← lift (checked_sub x rem);
     diff ← lift (checked_sub d 1);
     set_cols (Y_bytes diff)
   else mret tt);;
  mret None.

Definition exec_mul (args : list (Elem T)) : X (option (Elem T)) :=
  read_reg1 ← arg_u args 0;
  read_reg2 ← arg_u args 1;
  val1 ← link_read I_mul 0 0 read_reg1;
  val2 ← link_read I_mul 1 1 read_reg2;
  write_reg1 ← arg_u args 2;
  write_reg2 ← arg_u args 3;
  a ← lift (elem_u val1);
  b ← lift (elem_u val2);
  r ← lift (checked_mul 64 a b);
  let lo := as_width 32 r in
  let hi := as_width 32 (Z.shiftr r 32) in
  link_write I_mul 2 2 write_reg1 (Binary lo);;
  link_write I_mul 3 3 write_reg2 (Binary hi);;
  set_cols [(col_tmp1_col, val1); (col_tmp2_col, val2); (col_tmp3_col, from_u32_as_fe lo); (col_tmp4_col, from_u32_as_fe hi)];;
  lid ← instr_link_id I_mul M_split_gl 0;
  submachine_op M_split_gl lid [from_u64 r; from_u32 lo; from_u32 hi; from_int 0] [];;
  mret None.

(** The result and the operation id of [and], [or] and [xor]. *)
Definition binary_result (instr : Instruction) (a b : Z) : option (Z * Z) :=
  match instr with
  | I_and => Some (Z.land a b, 0)
  | I_or => Some (Z.lor a b, 1)
  | I_xor => Some (Z.lxor a b, 2)
  | _ => None
  end.

Definition exec_binary (instr : Instruction) (args : list (Elem T)) : X (option (Elem T)) :=
  read_reg1 ← arg_u args 0;
  read_reg2 ← arg_u args 1;
  val1 ← link_read instr 0 0 read_reg1;
  val2 ← link_read instr 1 1 read_reg2;
  offset ← arg_bin args 2;
  write_reg ← arg_u args 3;
  b2 ← lift (elem_bin val2);
  val2_offset ← lift (i64_checked (b2 + offset));
  set_cols [(col_tmp1_col, val1); (col_tmp2_col, val2)];;
  u1 ← lift (elem_u val1);
  u2 ← lift (u32_try_from val2_offset);
  rop ← lift (binary_result instr u1 u2);
  let '(r, op_id) := rop in
  lid ← instr_link_id instr M_binary 0;
  submachine_op M_binary lid [from_int op_id; into_fe val1; into_fe (Binary val2_offset); from_u32 r] [];;
  link_write instr 2 3 write_reg (Binary r);;
  set_col col_tmp3_col (from_u32_as_fe r);;
  mret None.

Definition shift_result (instr : Instruction) (a b : Z) : option (Z * Z) :=
  match instr with
  | I_shl => r ← checked_shl 32 a b; Some (r, 0)
  | I_shr => r ← checked_shr 32 a b; Some (r, 1)
  | _ => None
  end.

Definition exec_shift (instr : Instruction) (args : list (Elem T)) : X (option (Elem T)) :=
  read_reg1 ← arg_u args 0;
  read_reg2 ← arg_u args 1;
  val1 ← link_read instr 0 0 read_reg1;
  val2 ← link_read instr 1 1 read_reg2;
  offset ← arg_bin args 2;
  write_reg ← arg_u args 3;
  b2 ← lift (elem_bin val2);
  val2_offset ← lift (i64_checked (b2 + offset));
  u1 ← lift (elem_u val1);
  u2 ← lift (u32_try_from val2_offset);
  rop ← lift (shift_result instr u1 u2);
  let '(r, op_id) := rop in
  lid ← instr_link_id instr M_shift 0;
  submachine_op M_shift lid [from_int op_id; into_fe val1; into_fe (Binary val2_offset); from_u32 r] [];;
  link_write instr 2 3 write_reg (Binary r);;
  set_cols [(col_tmp1_col, val1); (col_tmp2_col, val2); (col_tmp3_col, from_u32_as_fe r)];;
  mret None.

(** *** Goldilocks values in two words *)

Definition exec_invert_gl (args : list (Elem T)) : X (option (Elem T)) :=
  low_addr ← arg_u args 0;
  high_addr ← arg_u args 1;
  low ← link_read I_invert_gl 0 0 low_addr;
  high ← link_read I_invert_gl 1 1 high_addr;
  h ← lift (elem_u high);
  l ← lift (elem_u low);
  inv ← lift (f_div f_one (from_u64 (Z.lor (Z.shiftl h 32) l)));
  inv_u64 ← lift (try_into_u64 inv);
  let low_inv := as_width 32 inv_u64 in
  let high_inv := as_width 32 (Z.shiftr inv_u64 32) in
  link_write I_invert_gl 2 2 low_addr (Binary low_inv);;
  link_write I_invert_gl 3 3 high_addr (Binary high_inv);;
  set_cols [(col_tmp1_col, low); (col_tmp2_col, high); (col_tmp3_col, from_u32_as_fe low_inv);
            (col_tmp4_col, from_u32_as_fe high_inv); (col_XX_inv, Field inv)];;
  lid ← instr_link_id I_invert_gl M_split_gl 0;
  submachine_op M_split_gl lid [inv; from_u32 low_inv; from_u32 high_inv; from_int 0] [];;
  mret None.

Definition exec_split_gl (args : list (Elem T)) : X (option (Elem T)) :=
  read_reg ← arg_u args 0;
  val1 ← link_read I_split_gl 0 0 read_reg;
  write_reg1 ← arg_u args 1;
  write_reg2 ← arg_u args 2;
  value ← lift (try_into_u64 (into_fe val1));
  let lo := Z.land value 0xffffffff in
  let hi := as_width 32 (Z.shiftr value 32) in
  link_write I_split_gl 1 2 write_reg1 (Binary lo);;
  link_write I_split_gl 2 3 write_reg2 (Binary hi);;
  set_cols [(col_tmp1_col, val1); (col_tmp3_col, from_u32_as_fe lo); (col_tmp4_col, from_u32_as_fe hi)];;
  lid ← instr_link_id I_split_gl M_split_gl 0;
  submachine_op M_split_gl lid [from_u64 value; from_u32 lo; from_u32 hi; from_int 0] [];;
  mret None.

(** *** Hashes *)

(** [ptr + off] in [u32]. *)
Definition ptr_plus (ptr off : Z) : X Z := lift (checked_add 32 ptr off).

(** A 64-bit value of the memory: two reads in the given order of offsets. *)
Definition poseidon_read (input_ptr : Z) (i : nat) : X T :=
  lid ← link_id "main_poseidon_gl" "main_memory" 0;
  a ← ptr_plus input_ptr (8 * Z.of_nat i);
  st ← gets step;
  lo ← get_mem a st lid;
  lid ← link_id "main_poseidon_gl" "main_memory" 1;
  a' ← ptr_plus a 4;
  hi ← get_mem a' st lid;
  mret (from_u64 (Z.lor (Z.shiftl hi 32) lo)).

Definition poseidon_write (output_ptr : Z) (iv : nat * T) : X unit :=
  val ← lift (try_into_u64 (snd iv));
  let hi := as_width 32 (Z.shiftr val 32) in
  let lo := Z.land val 0xffffffff in
  lid ← link_id "main_poseidon_gl" "main_memory" 2;
  a ← ptr_plus output_ptr (8 * Z.of_nat (fst iv));
  st ← step_plus 1;
  set_mem a lo st lid;;
  lid ← link_id "main_poseidon_gl" "main_memory" 3;
  a' ← ptr_plus a 4;
  set_mem a' hi st lid;;
  lid ← link_id "main_poseidon_gl" "main_split_gl" 0;
  submachine_op M_split_gl lid [snd iv; from_u32 lo; from_u32 hi; from_int 0] [].

Definition exec_poseidon_gl (args : list (Elem T)) : X (option (Elem T)) :=
  reg1 ← arg_u args 0;
  reg2 ← arg_u args 1;
  input_ptr ← link_read I_poseidon_gl 0 0 reg1;
  ip ← lift (elem_u input_ptr);
  assertM (is_multiple_of_4 ip);;
  output_ptr ← link_read I_poseidon_gl 1 1 reg2;
  op ← lift (elem_u output_ptr);
  assertM (is_multiple_of_4 op);;
  set_cols ([(col_tmp1_col, input_ptr); (col_tmp2_col, output_ptr); (col_tmp3_col, Binary (Z.shiftr ip 2));
             (col_tmp4_col, Binary (Z.shiftr op 2))] ++ X_bytes (Z.shiftr ip 2) ++ Y_bytes (Z.shiftr op 2));;
  ins ← map_collect (poseidon_read ip) (seq 0 12);
  outs ← lift (poseidon_gl ins);
  for_each (poseidon_write op) (reverse (combine (seq 0 (length outs)) outs));;
  lid ← instr_link_id I_poseidon_gl M_poseidon_gl 0;
  st ← gets step;
  submachine_op M_poseidon_gl lid [into_fe input_ptr; into_fe output_ptr; from_u32 st; from_int 0] (ins ++ outs);;
  mret None.

(** The value of a register that must be an aligned pointer. *)
Definition aligned_ptr (args : list (Elem T)) (i : nat) : X Z :=
  r ← arg_u args i;
  v ← on_proc (get_reg_mem r);
  p ← lift (elem_u v);
  assertM (is_multiple_of_4 p);;
  mret p.

Definition read_words (ptr : Z) (range : list nat) : X (list Z) :=
  map_collect (fun i => a ← ptr_plus ptr (Z.of_nat i * 4); get_mem a 0 0) range.

(** Words written from [ptr + 4 * offset] on. *)
Definition write_words (ptr st id : Z) (offset : Z) (words : list Z) : X unit :=
  for_each (fun iw => a ← ptr_plus ptr (4 * (offset + Z.of_nat (fst iw))); set_mem a (snd iw) st id) (combine (seq 0 (length words)) words).

(** [chunks(2)], low word first. *)
Fixpoint pair_words (ws : list Z) : list Z :=
  match ws with
  | lo :: hi :: ws' => Z.lor (Z.shiftl hi 32) lo :: pair_words ws'
  | _ => []
  end.

Definition split_words (vs : list Z) : list Z := concat (map (fun v => [Z.land v 0xffffffff; as_width 32 (Z.shiftr v 32)]) vs).

Definition exec_poseidon2_gl (args : list (Elem T)) : X (option (Elem T)) :=
  input_ptr ← aligned_ptr args 0;
  ws ← read_words input_ptr (seq 0 16);
  let result := split_words (poseidon2_gl (externals env) (pair_words ws)) in
  output_ptr ← aligned_ptr args 1;
  write_words output_ptr 0 0 0 result;;
  mret None.

(** *** 256-bit arithmetic and the curve *)

Definition read_fes (ptr : Z) (range : list nat) : X (list T) := ws ← read_words ptr range; mret (map from_u32 ws).

Definition write_fes (ptr offset : Z) (fes : list T) : X unit :=
  for_each (fun iv => a ← ptr_plus ptr (4 * (offset + Z.of_nat (fst iv))); w ← lift (try_into_u32 (snd iv)); set_mem a w 1 1)
    (combine (seq 0 (length fes)) fes).

Definition exec_affine_256 (args : list (Elem T)) : X (option (Elem T)) :=
  input_ptr_a ← aligned_ptr args 0;
  input_ptr_b ← aligned_ptr args 1;
  input_ptr_c ← aligned_ptr args 2;
  output_ptr_d ← aligned_ptr args 3;
  a ← read_fes input_ptr_a (seq 0 8);
  b ← read_fes input_ptr_b (seq 0 8);
  c ← read_fes input_ptr_c (seq 0 8);
  result ← lift (affine_256 a b c);
  write_fes output_ptr_d 0 (fst result);;
  write_fes output_ptr_d (Z.of_nat (length (fst result))) (snd result);;
  mret None.

Definition exec_mod_256 (args : list (Elem T)) : X (option (Elem T)) :=
  input_ptr_a ← aligned_ptr args 0;
  input_ptr_b ← aligned_ptr args 1;
  output_ptr_c ← aligned_ptr args 2;
  ah ← read_fes input_ptr_a (seq 0 8);
  al ← read_fes input_ptr_a (seq 8 8);
  b ← read_fes input_ptr_b (seq 0 8);
  result ← lift (mod_256 ah al b);
  write_fes output_ptr_c 0 result;;
  mret None.

Definition exec_ec_add (args : list (Elem T)) : X (option (Elem T)) :=
  input_ptr_a ← aligned_ptr args 0;
  input_ptr_b ← aligned_ptr args 1;
  output_ptr_c ← aligned_ptr args 2;
  ax ← read_fes input_ptr_a (seq 0 8);
  ay ← read_fes input_ptr_a (seq 8 8);
  bx ← read_fes input_ptr_b (seq 0 8);
  by_ ← read_fes input_ptr_b (seq 8 8);
  result ← lift (ec_add (k256_add (externals env)) ax ay bx by_);
  write_fes output_ptr_c 0 (fst result);;
  write_fes output_ptr_c (Z.of_nat (length (fst result))) (snd result);;
  mret None.

Definition exec_ec_double (args : list (Elem T)) : X (option (Elem T)) :=
  input_ptr_a ← aligned_ptr args 0;
  output_ptr_b ← aligned_ptr args 1;
  ax ← read_fes input_ptr_a (seq 0 8);
  ay ← read_fes input_ptr_a (seq 8 8);
  result ← lift (ec_double (k256_double (externals env)) ax ay);
  write_fes output_ptr_b 0 (fst result);;
  write_fes output_ptr_b (Z.of_nat (length (fst result))) (snd result);;
  mret None.

(** *** Publics and Keccak *)

Definition exec_commit_public (args : list (Elem T)) : X (option (Elem T)) :=
  r0 ← arg_u args 0;
  idx ← link_read I_commit_public 0 0 r0;
  r1 ← arg_u args 1;
  limb ← link_read I_commit_public 1 0 r1;
  set_cols [(col_tmp1_col, idx); (col_tmp2_col, limb)];;
  lid ← instr_link_id I_commit_public M_publics 0;
  submachine_op M_publics lid [into_fe idx; into_fe limb; from_int 0; from_int 0] [];;
  mret None.

Definition exec_keccakf (args : list (Elem T)) : X (option (Elem T)) :=
  reg1 ← arg_u args 0;
  reg2 ← arg_u args 1;
  input_ptr ← link_read I_keccakf 0 0 reg1;
  lid ← instr_link_id I_keccakf M_regs 1;
  output_ptr ← reg_read 1 reg2 lid;
  set_cols [(col_tmp1_col, input_ptr); (col_tmp2_col, output_ptr)];;
  ip ← lift (elem_u input_ptr);
  state ← map_collect (fun i =>
    st ← gets step;
    a ← ptr_plus ip (8 * Z.of_nat i);
    a4 ← ptr_plus a 4;
    hi ← get_mem a4 st lid;
    lo ← get_mem a st lid;
    mret (Z.lor (Z.shiftl hi 32) lo)) (seq 0 25);
  let state := keccakf (externals env) state in
  op ← lift (elem_u output_ptr);
  for_each (fun iv =>
    let lo := as_width 32 (snd iv) in
    let hi := as_width 32 (Z.shiftr (snd iv) 32) in
    st ← step_plus 1;
    a ← ptr_plus op (Z.of_nat (fst iv) * 8);
    set_mem a lo st lid;;
    a4 ← ptr_plus a 4;
    set_mem a4 hi st lid) (combine (seq 0 (length state)) state);;
  mret None.

(** ** Dispatch *)

Definition set_const_cols : X unit :=
  for_each (fun p => let '(name, col, fc) := p in
      if col_is_defined (config env) name then v ← get_fixed_here fc; set_col col v else mret tt)
    [("main::X_const", col_X, F_X_const); ("main::Y_const", col_Y, F_Y_const);
     ("main::Z_const", col_Z, F_Z_const); ("main::W_const", col_W, F_W_const)]%string.

Definition exec_body (instr : Instruction) (args : list (Elem T)) : X (option (Elem T)) :=
  match instr with
  | I_set_reg => exec_set_reg args
  | I_get_reg => exec_get_reg args
  | I_affine => exec_affine args
  | I_mstore | I_mstore_bootloader => exec_mstore instr args
  | I_mload => exec_mload args
  | I_load_bootloader_input => exec_load_bootloader_input args
  | I_assert_bootloader_input => exec_assert_bootloader_input args
  | I_load_label => exec_load_label args
  | I_jump => exec_jump args
  | I_jump_dyn => exec_jump_dyn args
  | I_jump_to_bootloader_input => exec_jump_to_bootloader_input args
  | I_branch_if_diff_nonzero => exec_branch_if_diff_nonzero args
  | I_branch_if_diff_equal => exec_branch_if_diff_equal args
  | I_skip_if_equal => exec_skip_if_equal args
  | I_branch_if_diff_greater_than => exec_branch_if_diff_greater_than args
  | I_is_diff_greater_than => exec_is_diff_greater_than args
  | I_is_equal_zero => exec_is_equal_zero args
  | I_is_not_equal => exec_is_not_equal args
  | I_add_wrap => exec_add_wrap args
  | I_wrap16 => exec_wrap16 args
  | I_sub_wrap_with_offset => exec_sub_wrap_with_offset args
  | I_sign_extend_byte => exec_sign_extend_byte args
  | I_sign_extend_16_bits => exec_sign_extend_16_bits args
  | I_to_signed => exec_to_signed args
  | I_fail => exec_fail
  | I_divremu => exec_divremu args
  | I_mul => exec_mul args
  | I_and | I_or | I_xor => exec_binary instr args
  | I_shl | I_shr => exec_shift instr args
  | I_invert_gl => exec_invert_gl args
  | I_split_gl => exec_split_gl args
  | I_poseidon_gl => exec_poseidon_gl args
  | I_poseidon2_gl => exec_poseidon2_gl args
  | I_affine_256 => exec_affine_256 args
  | I_mod_256 => exec_mod_256 args
  | I_ec_add => exec_ec_add args
  | I_ec_double => exec_ec_double args
  | I_commit_public => exec_commit_public args
  | I_keccakf => exec_keccakf args
  end.

(** [exec_instruction] once its arguments are evaluated. *)
Definition run_instruction (name : string) (args : list (Elem T)) : X (option (Elem T)) :=
  on_proc backup_reg_mem;;
  set_const_cols;;
  instr ← lift (from_name name);
  exec_body instr args.

End Executor.

(** ** Expressions *)

Inductive BinaryOperator := OpAdd | OpSub | OpMul | OpDiv | OpMod | OpPow | OpOther.
Inductive UnaryOperator := OpMinus | OpLogicalNot | OpNext.

(** The expressions of [ast/src/parsed/mod.rs] that occur in assembly statements; a
    reference is a path without type arguments, [EUnsupported] any other variant. *)
Inductive Expression :=
| EReference (path : list string)
| ENumber (n : Z)
| EBinaryOperation (l : Expression) (op : BinaryOperator) (r : Expression)
| EUnaryOperation (op : UnaryOperator) (e : Expression)
| EFunctionCall (f : Expression) (args : list Expression)
| EFreeInput (e : Expression)
| EUnsupported.

Definition try_to_identifier (path : list string) : option string := match path with [n] => Some n | _ => None end.

Fixpoint join (sep : string) (l : list string) : string :=
  match l with
  | [] => ""
  | [s] => s
  | s :: l' => s +:+ sep +:+ join sep l'
  end%string.

Definition path_to_string (path : list string) : string := join "::" path.

(** [str::strip_prefix]. *)
Fixpoint strip_prefix (p s : string) : option string :=
  match p, s with
  | EmptyString, _ => Some s
  | String a p', String b s' => if Ascii.eqb a b then strip_prefix p' s' else None
  | String _ _, EmptyString => None
  end.

Section Eval.
Context {T W : Type} `{LargeField T} `{Display T}.
Variable env : Env T W.
Notation X := (M (Executor T W)).

Definition elem_display (e : Elem T) : string := match e with Binary b => pretty b | Field f => to_string f end.

Definition eval_binary (l : Elem T) (op : BinaryOperator) (r : Elem T) : option (Elem T) :=
  match l, r with
  | Binary a, Binary b =>
    match op with
    | OpAdd => Binary <$> i64_checked (a + b)
    | OpSub => Binary <$> i64_checked (a - b)
    | OpMul => Some (match i64_checked (a * b) with Some v => Binary v | None => Field (f_mul (from_int a) (from_int b)) end)
    | OpDiv => Binary <$> i64_div a b
    | OpMod => Binary <$> i64_rem a b
    | OpPow => e ← u32_try_from b; Binary <$> i64_checked (a ^ e)
    | OpOther => None
    end
  | Field a, Field b => match op with OpSub => Some (Field (f_sub a b)) | _ => None end
  | Binary a, Field b => match op with OpAdd => Some (Field (f_add (from_int a) b)) | _ => None end
  | Field _, Binary _ => None
  end.

(** The query callback, its error unwrapped. *)
Definition query (q : string) : X (option T) :=
  w ← gets world;
  r ← lift (inputs (externals env) w q);
  modify (put_world (snd r));;
  mret (fst r).

Definition free_input (path : list string) (values : list (Elem T)) : X (option (Elem T)) :=
  variant ← lift (strip_prefix "std::prelude::Query::" (path_to_string path));
  r ← query (variant +:+ "(" +:+ join "," (map elem_display values) +:+ ")");
  v ← lift r;
  e ← lift (try_from_fe_as_bin v);
  mret (Some e).

Fixpoint eval_expression (e : Expression) : X (option (Elem T)) :=
  match e with
  | EReference path =>
    name ← lift (try_to_identifier path);
    match label_map env !! name with
    | Some l => mret (Some l)
    | None => v ← on_proc (get_reg (config env) name); mret (Some v)
    end
  | ENumber n => u ← lift (u32_try_from n); mret (Some (Binary u))
  | EBinaryOperation l op r =>
    lo ← eval_expression l; lv ← lift lo;
    ro ← eval_expression r; rv ← lift ro;
    v ← lift (eval_binary lv op rv);
    mret (Some v)
  | EUnaryOperation op a =>
    ao ← eval_expression a; av ← lift ao;
    b ← lift (elem_bin av);
    match op with
    | OpMinus => v ← lift (i64_checked (- b)); mret (Some (Binary v))
    | _ => panic
    end
  | EFunctionCall f args =>
    match f with
    | EReference path =>
      if bool_decide (path_to_string path = "std::prover::eval"%string) || bool_decide (path_to_string path = "std::convert::int"%string)
      then match args with a :: _ => eval_expression a | [] => panic end
      else
        name ← lift (try_to_identifier path);
        vals ← map_collect (fun a => o ← eval_expression a; lift o) args;
        run_instruction env name vals
    | _ => panic
    end
  | EFreeInput a =>
    match a with
    | EFunctionCall (EReference path) args =>
      vals ← map_collect (fun a => o ← eval_expression a; lift o) args;
      free_input path vals
    | _ => panic
    end
  | EUnsupported => panic
  end.

Definition exec_instruction (name : string) (args : list Expression) : X (option (Elem T)) :=
  vals ← map_collect (fun a => o ← eval_expression a; lift o) args;
  run_instruction env name vals.

End Eval.
