(* ===== verification/RiscvRun.v ===== *)
(** * Running a program, [execute_inner] of [riscv-executor/src/lib.rs]

    The statements of the main function in batches, the loop that executes them, the rows
    that end the trace, and the execution that is returned. *)

From stdpp Require Import base list option gmap strings pretty.
From Stdlib Require Import ZArith Lia.
From S2P Require Import Prelude Goldilocks Field AffineExpression PanicMonad RiscvElem RiscvNames RiscvTrace.
From S2P Require Import RiscvPil RiscvExec.

(** ** The program *)

Inductive DebugDirective :=
| DFile (idx : Z) (dir file : string)
| DLoc (file line column : Z)
| DOriginalInstruction (insn : string).

Inductive AssignmentRegister := Register (name : string) | Wildcard.

Inductive FunctionStatement :=
| SAssignment (lhs_with_reg : list (string * AssignmentRegister)) (rhs : Expression)
| SInstruction (instruction : string) (inputs : list Expression)
| SReturn
| SDebugDirective (d : DebugDirective)
| SLabel (name : string).

(** [PreprocessedMain], without the maps only the profiler uses. *)
Record PreprocessedMain (T : Type) := mkPreprocessed {
  statements : list FunctionStatement;
  pre_label_map : gmap string (Elem T);
  pre_batch_to_line_map : list Z;
  debug_files : list (string * string)
}.
Arguments mkPreprocessed {T}.
Arguments statements {T}.
Arguments pre_label_map {T}.
Arguments pre_batch_to_line_map {T}.
Arguments debug_files {T}.

Section Preprocess.
Context {T : Type}.

(** One statement of the batch; [seen] is [statement_seen]. *)
Definition preprocess_statement (batch_idx : Z) (acc : PreprocessedMain T * bool) (s : FunctionStatement) : option (PreprocessedMain T * bool) :=
  let '(p, seen) := acc in
  let push := mkPreprocessed (statements p ++ [s]) (pre_label_map p) (pre_batch_to_line_map p) (debug_files p) in
  match s with
  | SAssignment _ _ | SInstruction _ _ | SReturn => Some (push, true)
  | SDebugDirective (DFile idx dir file) =>
    _ ← assert_that (idx =? Z.of_nat (length (debug_files p)) + 1);
    Some (mkPreprocessed (statements p) (pre_label_map p) (pre_batch_to_line_map p) (debug_files p ++ [(dir, file)]), seen)
  | SDebugDirective _ => Some (push, seen)
  | SLabel name =>
    _ ← assert_that (negb seen);
    Some (mkPreprocessed (statements p) (<[name := Binary (batch_idx + PC_INITIAL_VAL)]> (pre_label_map p)) (pre_batch_to_line_map p) (debug_files p), seen)
  end.

Fixpoint preprocess_batch (batch_idx : Z) (acc : PreprocessedMain T * bool) (batch : list FunctionStatement) : option (PreprocessedMain T * bool) :=
  match batch with
  | [] => Some acc
  | s :: batch' => acc' ← preprocess_statement batch_idx acc s; preprocess_batch batch_idx acc' batch'
  end.

Definition start_batch (p : PreprocessedMain T) : PreprocessedMain T :=
  mkPreprocessed (statements p) (pre_label_map p) (pre_batch_to_line_map p ++ [Z.of_nat (length (statements p))]) (debug_files p).

Fixpoint preprocess_batches (batch_idx : Z) (p : PreprocessedMain T) (batches : list (list FunctionStatement)) : option (PreprocessedMain T) :=
  match batches with
  | [] => Some p
  | b :: batches' =>
    acc ← preprocess_batch batch_idx (start_batch p, false) b;
    preprocess_batches (batch_idx + 1) (fst acc) batches'
  end.

(** The final element of the map is pushed last. *)
Definition preprocess_main_function (batches : list (list FunctionStatement)) : option (PreprocessedMain T) :=
  p ← preprocess_batches 0 (mkPreprocessed [] ∅ (repeat 0 (Z.to_nat PC_INITIAL_VAL)) []) batches;
  _ ← assert_that (Z.of_nat (length (statements p)) <? 2 ^ 32);
  Some (start_batch p).

End Preprocess.

(** ** The loop *)

Section Run.
Context {T W : Type} `{LargeField T} `{Display T}.
Variable env : Env T W.
Variable program : PreprocessedMain T.
Notation X := (M (Executor T W)).
Notation cfg := (config env).

Definition all_fixed : list KnownFixedCol := [F_X_const; F_Y_const; F_Z_const; F_W_const; F_Y_read_free; F_X_read_free].

(** [Executor::init]: in witness mode all known fixed columns must exist. *)
Definition init : X unit :=
  modify (put_step 4);;
  (if witnessing (mode cfg) then for_each (fun c => o ← get_fixed env (fixed_name c); _ ← lift o; mret tt) all_fixed else mret tt);;
  for_each (fun i =>
    on_proc (push_row cfg i);;
    on_proc (set_col_idx cfg col_operation_id (Z.to_nat i) (Binary 2));;
    on_proc (set_col_idx cfg col_pc_update (Z.to_nat i) (Binary (i + 1)))) [0; 1].

(** The columns of an assignment. *)
Definition assignment_cols (pc : Z) (rhs : Expression) (results : option (Elem T)) : X unit :=
  x_const ← get_known_fixed env F_X_const (Z.to_nat pc);
  x ← lift results;
  match rhs with
  | EFreeInput _ =>
    assertM (f_is_zero x_const);;
    set_col env col_X x;;
    set_col env col_X_free_value x
  | _ =>
    set_col env col_X x;;
    x_read_free ← get_known_fixed env F_X_read_free (Z.to_nat pc);
    x_free_value ← (if f_is_zero x_read_free then mret (Field f_zero)
                    else d ← lift (elem_sub x (Field x_const)); lift (elem_div d (Field x_read_free)));
    set_col env col_X_free_value x_free_value
  end.

(** One statement; [true] for a return. *)
Definition exec_statement (stm : FunctionStatement) : X bool :=
  match stm with
  | SAssignment lhs rhs =>
    cpc ← on_proc get_pc; pc ← lift (elem_u cpc);
    set_col env col_operation_id (Binary 2);;
    results ← eval_expression env rhs;
    match lhs with
    | [(dest, Register x)] =>
      assertM (bool_decide (x = "X"%string));;
      assignment_cols pc rhs results;;
      match results with
      | Some v => on_proc (set_reg cfg dest v)
      | None => mret tt
      end;;
      mret false
    | _ => panic
    end
  | SInstruction name ins =>
    set_col env col_operation_id (Binary 2);;
    if bool_decide (name = "jump"%string) || bool_decide (name = "jump_dyn"%string) then
      cpc ← on_proc get_pc; _ ← lift (elem_u cpc);
      _ ← exec_instruction env name ins;
      next ← on_proc (get_next_pc cfg); _ ← lift (elem_u next);
      target ← lift (ins !! 1%nat);
      t ← eval_expression env target; tv ← lift t; _ ← lift (elem_u tv);
      mret false
    else
      _ ← exec_instruction env name ins;
      mret false
  | SReturn => set_col env col_operation_id (Binary 2);; mret true
  | SDebugDirective d =>
    s ← gets step; s' ← lift (checked_sub s 4); modify (put_step s');;
    match d with
    | DLoc file _ _ => i ← lift (checked_sub file 1); _ ← lift (debug_files program !! Z.to_nat i); mret false
    | DOriginalInstruction _ => mret false
    | DFile _ _ _ => panic
    end
  | SLabel _ => panic
  end.

(** One iteration: the line to continue with, or [None] at the end. *)
Definition exec_line (curr_pc : Z) : X (option Z) :=
  stm ← lift (statements program !! Z.to_nat curr_pc);
  s ← step_plus 4; modify (put_step s);;
  ret ← exec_statement stm;
  if (ret : bool) then mret None else on_proc (advance cfg).

(** The loop, for at most [fuel] statements; [false] when it is not finished. *)
Fixpoint exec_loop (fuel : nat) (curr_pc : Z) : X bool :=
  match fuel with
  | O => mret false
  | S fuel' =>
    next ← exec_line curr_pc;
    match next with
    | Some pc => exec_loop fuel' pc
    | None => mret true
    end
  end.

(** ** The end of the trace *)

(** The position of the one in the column of the loop instruction. *)
Definition sink_id : X Z :=
  o ← get_fixed env "main__rom::p_instr__loop";
  c ← lift o;
  i ← lift (list_find (fun v => f_is_one v = true) c);
  mret (Z.of_nat (fst i)).

Definition end_row (pc : Z) : X unit :=
  set_col env col_pc_update (Binary pc);;
  set_pc env (Binary pc).

Definition advance_to_end : X unit := r ← on_proc (advance cfg); assertM (match r with None => true | Some _ => false end).

(** Reset, jump to the operation, loop. *)
Definition end_trace : X unit :=
  sink ← sink_id;
  end_row 0;;
  advance_to_end;;
  set_col env col_operation_id (Binary sink);;
  end_row 1;;
  on_proc (set_reg cfg "query_arg_1" (Binary 0));;
  on_proc (set_reg cfg "query_arg_2" (Binary 0));;
  advance_to_end;;
  set_col env col_operation_id (Binary sink);;
  end_row sink;;
  advance_to_end;;
  set_col env col_pc_update (Binary sink);;
  set_col env col_operation_id (Binary sink).

(** [execute_inner] from the built executor to [finish]. *)
Definition run_program (fuel : nat) : X bool :=
  init;;
  on_proc (push_row cfg PC_INITIAL_VAL);;
  done ← exec_loop fuel 0;
  if (done : bool) then
    (if tracing (mode cfg) then end_trace else mret tt);;
    mret true
  else mret false.

(** [generate_program_columns]: the program columns along the trace of the program counter. *)
Definition generate_program_columns (program_cols : list (string * string)) : X (list (string * list T)) :=
  pcs ← on_proc (gets pc_trace);
  map_collect (fun fp =>
    o ← get_fixed env (fst fp);
    c ← lift o;
    values ← lift (mapM (fun pc => c !! Z.to_nat pc) pcs);
    mret (snd fp, values)) program_cols.

End Run.
