(* ===== verification/RiscvDemo.v ===== *)
(** * A small program for the RISC-V executor

    A configuration with the links of the main machine, used to evaluate the executor on
    concrete inputs. *)

From stdpp Require Import base list option gmap strings pretty.
From Stdlib Require Import ZArith Lia.
From S2P Require Import Prelude Goldilocks Field Effect AffineExpression ExpressionEvaluator WriteOnceMemory.
From S2P Require Import PanicMonad RiscvElem RiscvNames RiscvTrace RiscvPil RiscvExec RiscvRun.

Module Demo.

#[global] Instance display_element : Display GoldilocksField := fun x => pretty (to_integer x).
Notation GL := GoldilocksField.

Definition ref (name : string) : AlgebraicExpression GL := AReference (mkAlgebraicReference name (mkPolyID 0 Committed) false).
Definition selected (name : string) : SelectedExpressions GL := mkSelectedExpressions (ref name) [].

(** Four links to the registers and one to every other submachine, for every instruction. *)
Definition targets : list MachineInstance := [M_regs; M_regs; M_regs; M_regs; M_memory; M_binary; M_shift; M_split_gl; M_publics].
Definition links_of (i : Instruction) : list (Identity GL) :=
  map (fun m => PermutationIdentity 7 (selected (flag i)) (selected (namespace m +:+ "::sel[0]"))) targets.
Definition instructions : list Instruction := [I_set_reg; I_add_wrap; I_mstore; I_mload; I_divremu; I_branch_if_diff_nonzero; I_affine].
Definition links : list (Identity GL) := flat_map links_of instructions.

(** Two registers hold the operands; the program counter is the first machine register. *)
Definition register_names : list string := ["pc"; "query_arg_1"; "query_arg_2"]%string.
Definition zeros : list GL := repeat f_zero 16.
Definition fixed_columns : list (string * option (list GL)) :=
  map (fun c => (fixed_name c, Some zeros)) all_fixed ++ [("main__rom::p_instr__loop"%string, Some (repeat f_zero 9 ++ [f_one]))].

Definition number (n : Z) : Expression := ENumber n.
Definition instruction (name : string) (args : list Z) : list FunctionStatement := [SInstruction name (map number args)].

(** [x5 := 2^32 - 1; x6 := 3; x7 := x5 + x6; mem[x7 + 2] := x5; (x8, x9) := mem[x7 + 3]; x10, x11 := x5 / x6, x5 % x6]. *)
Definition source : list (list FunctionStatement) :=
  [instruction "set_reg" [5; 0xffffffff]; instruction "set_reg" [6; 3]; instruction "add_wrap" [5; 6; 0; 7]; instruction "mstore" [7; 0; 2; 5];
   instruction "mload" [7; 3; 8; 9]; instruction "divremu" [5; 6; 10; 11]; [SReturn]].

Definition program : PreprocessedMain GL := default (mkPreprocessed [] ∅ [] []) (preprocess_main_function source).
Definition cfg (md : ExecMode) : Config :=
  {| mode := md; max_rows := 100; reg_map := register_map register_names; pc_idx := 0; batch_to_line_map := pre_batch_to_line_map program; all_cols := [] |}.
Definition externals : Externals GL unit := mkExternals _ _ (fun w _ => Some (None, w)) (fun x => x) (fun x => x) (fun _ => None) (fun _ _ => None).
Definition env (md : ExecMode) : Env GL unit := mkEnv _ _ (cfg md) externals (pre_label_map program) [] fixed_columns links.

Definition start (md : ExecMode) : Executor GL unit :=
  match builder_new (cfg md) ∅ with
  | Some (inl b) => mkExecutor b 0 tt
  | _ => mkExecutor (initial_builder (cfg md) 0 ∅) 0 tt
  end.

Definition final (md : ExecMode) : option (bool * Executor GL unit) := run_program (env md) program 20 (start md).
Definition registers (md : ExecMode) : option (list (Elem GL)) :=
  (fun r => map (fun i => reg_value (reg_last (proc (snd r))) i) [5; 6; 7; 8; 9; 10; 11]) <$> final md.

(** The modes agree on the registers. *)
Definition results : list (option Z) := map Some [0xffffffff; 3; 2; 0xffffffff; 1; 0x55555555; 0].

Example run_fast : map elem_bin <$> registers Fast = Some results.
Proof. vm_compute. reflexivity. Qed.
Example run_trace : map elem_bin <$> registers Trace = Some results.
Proof. vm_compute. reflexivity. Qed.
Example run_witness : map elem_bin <$> registers Witness = Some results.
Proof. vm_compute. reflexivity. Qed.

(** A state at the beginning of a row, with operands in two registers. *)
Definition operands : gmap Z (Elem GL) := {[5 := Binary 0xffffffff; 6 := Binary 3]}.
Definition row_state (md : ExecMode) : Executor GL unit :=
  mkExecutor (set_reg_last operands (set_known_cols (repeat f_zero col_count) (proc (start md)))) 4 tt.

Lemma row_state_regs md r : reg_value (reg_last (proc (row_state md))) r = Binary 0xffffffff \/
  reg_value (reg_last (proc (row_state md))) r = Binary 3 \/ reg_value (reg_last (proc (row_state md))) r = Binary 0.
Proof.
  unfold reg_value, row_state, operands. cbn. destruct (r =? 0); [auto|]. destruct (decide (r = 5)) as [->|]; [auto|].
  rewrite lookup_insert_ne by congruence. destruct (decide (r = 6)) as [->|]; [auto|]. rewrite lookup_singleton_ne by congruence. auto.
Qed.

End Demo.
