(* ===== verification/RiscvModes.v ===== *)
(** * The execution modes of the RISC-V executor agree

    The modes [Trace] and [Witness] record more than [Fast]; they do not change what the
    program does. *)

From stdpp Require Import base list option gmap strings pretty.
From Stdlib Require Import ZArith Lia.
From S2P Require Import Prelude Goldilocks Field AffineExpression PanicMonad RiscvElem RiscvNames RiscvTrace.
From S2P Require Import RiscvArith RiscvPoseidon RiscvPil.

(** The same configuration in fast mode. *)
Definition fast_config (c : Config) : Config :=
  {| mode := Fast; max_rows := max_rows c; reg_map := reg_map c; pc_idx := pc_idx c; batch_to_line_map := batch_to_line_map c; all_cols := all_cols c |}.

(** ** The builder *)

Section Builder.
Context {T : Type} `{LargeField T}.
Variable cfg : Config.
Notation B := (TraceBuilder T).

(** What the program depends on: everything but the recorded trace. *)
Definition observed (b : B) : Z * Elem T * Z * list (Elem T) * gmap Z Z * gmap Z (Elem T) * gmap Z (Elem T) :=
  (trace_len b, curr_pc b, next_statement_line b, regs b, mem b, reg_last b, reg_second_last b).
Definition agree (b1 b2 : B) : Prop := observed b1 = observed b2.

(** A program that only records. *)
Definition records {A} (m : M B A) : Prop := forall b, wp m (fun _ b' => observed b' = observed b) b.

Lemma records_bind {A C} (m : M B A) (k : A -> M B C) : records m -> (forall a, records (k a)) -> records (m ≫= k).
Proof. intros Hm Hk b. apply wp_bind. eapply wp_conseq; [apply Hm|]. cbn. intros a b' <-. apply Hk. Qed.
Lemma records_lift {A} (o : option A) : records (lift o).
Proof. intros b. now apply wp_lift. Qed.
Lemma records_gets {A} (f : B -> A) : records (gets f).
Proof. intros b. now apply wp_gets. Qed.
Lemma records_modify (f : B -> B) : (forall b, observed (f b) = observed b) -> records (modify f).
Proof. intros Hf b. apply wp_modify, Hf. Qed.
Lemma records_ret {A} (a : A) : records (mret a).
Proof. intros b. now apply wp_ret. Qed.
Lemma records_when c m : records m -> records (whenM c m).
Proof. destruct c; [auto|intros _; apply records_ret]. Qed.

Lemma sim_records m : records m -> sim agree eq m (mret tt).
Proof. intros Hm s t HR [] s' Hs. exists tt, t. split; [reflexivity|]. split; [reflexivity|]. unfold agree in *. now rewrite (Hm s tt s' Hs). Qed.

Ltac recs := repeat first [apply records_bind; [|intros ?] | apply records_when | apply records_lift | apply records_gets | apply records_modify; reflexivity | apply records_ret].

Lemma sim_submachine_op m id1 id2 args1 args2 ext1 ext2 :
  sim agree eq (submachine_op cfg m id1 args1 ext1) (submachine_op (fast_config cfg) m id2 args2 ext2).
Proof. apply sim_records. unfold submachine_op. recs. Qed.

Lemma sim_set_col c v1 v2 : sim agree eq (set_col cfg c v1) (set_col (fast_config cfg) c v2).
Proof. apply sim_records. unfold set_col. recs. Qed.

Lemma sim_set_col_skip c v : sim agree eq (set_col cfg c v) (mret tt).
Proof. apply sim_records. unfold set_col. recs. Qed.

Lemma sim_set_col_idx c i v1 v2 : sim agree eq (set_col_idx cfg c i v1) (set_col_idx (fast_config cfg) c i v2).
Proof. apply sim_records. unfold set_col_idx. recs. Qed.

Lemma records_set_cols l : records (set_cols cfg l).
Proof. induction l as [|cv l IH]; cbn; [apply records_ret|]. apply records_bind; [unfold set_col; recs|intros _; exact IH]. Qed.

Lemma fast_set_cols l : forall s, set_cols (fast_config cfg) l s = Some (tt, s).
Proof. induction l as [|cv l IH]; intros s; cbn; [reflexivity|]. apply IH. Qed.

Lemma sim_set_cols l1 l2 : sim agree eq (set_cols cfg l1) (set_cols (fast_config cfg) l2).
Proof. intros s t HR a s' Ha. rewrite fast_set_cols. exact (sim_records _ (records_set_cols l1) s t HR a s' Ha). Qed.

Lemma sim_push_row pc1 pc2 : sim agree eq (push_row cfg pc1) (push_row (fast_config cfg) pc2).
Proof. apply sim_records. unfold push_row. recs. Qed.

Lemma sim_record_mem_op k a : sim agree eq (record_mem_op cfg k a) (record_mem_op (fast_config cfg) k a).
Proof. apply sim_records. unfold record_mem_op. recs. Qed.

(** Reading and updating an observed part. *)
Ltac obs := let s := fresh in let u := fresh in intros s u; destruct s, u; unfold agree, observed; cbn; congruence.
Ltac sims :=
  repeat match goal with
  | |- sim _ _ (mbind _ _) (mbind _ _) => apply (sim_bind agree eq); [|intros ?a ? <-]
  | |- sim _ _ (gets _) (gets _) => apply (sim_gets agree eq); obs
  | |- sim _ _ (modify _) (modify _) => apply (sim_modify agree); obs
  | |- sim _ _ (lift _) (lift _) => apply (sim_lift agree)
  | |- sim _ _ (assertM _) (assertM _) => apply (sim_assert agree)
  | |- sim _ _ (mret _) (mret _) => apply (sim_ret agree); reflexivity
  | |- sim _ _ panic _ => apply (sim_panic agree)
  end.

Lemma sim_get_pc : sim agree eq get_pc get_pc.
Proof. unfold get_pc. sims. Qed.
Lemma sim_get_next_pc : sim agree eq (get_next_pc cfg) (get_next_pc (fast_config cfg)).
Proof. unfold get_next_pc. sims. Qed.
Lemma sim_get_reg name : sim agree eq (get_reg cfg name) (get_reg (fast_config cfg) name).
Proof. unfold get_reg, get_reg_idx. sims. cbn [pc_idx fast_config]. destruct (_ =? _)%nat; [apply sim_get_pc|sims]. Qed.

Lemma sim_set_reg_idx i v : sim agree eq (set_reg_idx cfg i v) (set_reg_idx (fast_config cfg) i v).
Proof. unfold set_reg_idx. eapply sim_bind; [apply sim_records; recs|intros _ _ _]. sims. Qed.

Lemma sim_set_pc v : sim agree eq (set_pc cfg v) (set_pc (fast_config cfg) v).
Proof. unfold set_pc. sims. apply sim_set_reg_idx. Qed.
Lemma sim_set_reg name v : sim agree eq (set_reg cfg name v) (set_reg (fast_config cfg) name v).
Proof. unfold set_reg. sims. apply sim_set_reg_idx. Qed.

Lemma sim_set_next_pc : sim agree eq (set_next_pc cfg) (set_next_pc (fast_config cfg)).
Proof.
  unfold set_next_pc. sims. cbn [batch_to_line_map fast_config]. destruct (_ !! _); sims. destruct (_ ?= _); sims. destruct (_ <? 2); sims.
Qed.

Lemma sim_next_row : sim agree eq (next_row cfg) (next_row (fast_config cfg)).
Proof.
  unfold next_row, has_enough_rows. eapply sim_bind; [apply sim_get_next_pc|intros v ? <-]. sims. destruct (elem_eqb _ _); sims.
  destruct a0; sims; [apply sim_set_col|apply sim_push_row].
Qed.

Lemma sim_advance : sim agree eq (advance cfg) (advance (fast_config cfg)).
Proof.
  unfold advance. eapply sim_bind; [apply sim_next_row|intros v ? <-]. destruct v; sims. apply sim_set_next_pc.
Qed.

Lemma sim_set_mem a v st1 st2 id1 id2 : sim agree eq (set_mem cfg a v st1 id1) (set_mem (fast_config cfg) a v st2 id2).
Proof. unfold set_mem. sims; [apply sim_submachine_op|apply sim_record_mem_op]. Qed.
Lemma sim_get_mem a st1 st2 id1 id2 : sim agree eq (get_mem cfg a st1 id1) (get_mem (fast_config cfg) a st2 id2).
Proof. unfold get_mem. sims; [apply sim_submachine_op|apply sim_record_mem_op]. Qed.
Lemma sim_set_reg_mem a v : sim agree eq (set_reg_mem a v) (set_reg_mem a v).
Proof. unfold set_reg_mem. destruct (a =? 0); sims. Qed.
Lemma sim_get_reg_mem a : sim agree eq (get_reg_mem a) (get_reg_mem a).
Proof. unfold get_reg_mem. sims. Qed.
Lemma sim_backup : sim agree eq backup_reg_mem backup_reg_mem.
Proof. unfold backup_reg_mem. sims. Qed.

End Builder.

From S2P Require Import RiscvExec RiscvRun RiscvDemo.

Definition fast_env {T W} (e : Env T W) : Env T W :=
  mkEnv T W (fast_config (config e)) (externals e) (label_map e) (bootloader_inputs e) (fixed e) (pil_links e).

(** ** The executor *)

Section Executor.
Context {T W : Type} `{LargeField T} `{Display T}.
Variable env : Env T W.
Notation E := (Executor T W).
Notation fast := (fast_env env).

Definition agrees (e1 e2 : E) : Prop := agree (proc e1) (proc e2) /\ step e1 = step e2 /\ world e1 = world e2.
Notation simE := (sim agrees eq).

Lemma sim_on_proc {A C} RA (m1 : M (TraceBuilder T) A) (m2 : M (TraceBuilder T) C) :
  sim agree RA m1 m2 -> sim agrees RA (on_proc (W:=W) m1) (on_proc m2).
Proof.
  intros Hm [p1 s1 w1] [p2 s2 w2] (Hp & Hs & Hww) a e'. unfold on_proc, on_part. cbn in *. destruct (m1 p1) as [[a' p1']|] eqn:E1; [|discriminate].
  intros [= <- <-]. destruct (Hm p1 p2 Hp a' p1' E1) as (b & p2' & -> & Hab & Hp'). exists b. eexists. split; [reflexivity|]. split; [exact Hab|]. now repeat split.
Qed.

Definition any {A C : Type} (_ : A) (_ : C) : Prop := True.

Lemma sim_lift_any {A C} (o : option A) (c : C) : sim agrees any (lift o) (mret c).
Proof. intros s t HR a s'. unfold lift. destruct o; [|discriminate]. intros [= <- <-]. exists c, t. split; [reflexivity|split; [exact I|exact HR]]. Qed.

(** Programs that change nothing. *)
Definition pure {A} (m : M E A) : Prop := forall s a s', m s = Some (a, s') -> s' = s.
Lemma sim_pure {A C} (m : M E A) (c : C) : pure m -> sim agrees any m (mret c).
Proof. intros Hm s t HR a s' Ha. rewrite (Hm s a s' Ha). exists c, t. split; [reflexivity|split; [exact I|exact HR]]. Qed.

Lemma pure_bind {A C} (m : M E A) (k : A -> M E C) : pure m -> (forall a, pure (k a)) -> pure (m ≫= k).
Proof. intros Hm Hk s c s'. unfold mbind, M_bind. destruct (m s) as [[a s1]|] eqn:E1; [|discriminate]. intros Hc. rewrite <- (Hm s a s1 E1). now apply (Hk a) with c. Qed.
Lemma pure_lift {A} (o : option A) : pure (lift o).
Proof. intros s a s'. unfold lift. destruct o; [|discriminate]. now intros [= <- <-]. Qed.
Lemma pure_ret {A} (a : A) : pure (mret a).
Proof. now intros s b s' [= <- <-]. Qed.

Lemma pure_get_fixed e name : pure (get_fixed (W:=W) e name).
Proof. unfold get_fixed. destruct (List.find _ _) as [[n v]|]; [apply pure_bind; [apply pure_lift|intros]; apply pure_ret|apply pure_ret]. Qed.

Lemma sim_instr_link_id i m k : sim agrees any (instr_link_id env i m k) (instr_link_id fast i m k).
Proof. apply sim_pure. unfold instr_link_id. destruct (witnessing _); [apply pure_bind; [apply pure_lift|intros]; apply pure_ret|apply pure_ret]. Qed.

Lemma sim_link_id f t k : sim agrees any (link_id env f t k) (link_id fast f t k).
Proof. apply sim_pure. unfold link_id. destruct (witnessing _); [apply pure_bind; [apply pure_lift|intros]; apply pure_ret|apply pure_ret]. Qed.

Lemma pure_get_known_fixed e c r : pure (get_known_fixed (W:=W) e c r).
Proof. unfold get_known_fixed. destruct (witnessing _); [|apply pure_ret]. apply pure_bind; [apply pure_get_fixed|intros]. apply pure_bind; [apply pure_lift|intros]. apply pure_lift. Qed.

Lemma pure_on_proc {A} (m : M (TraceBuilder T) A) : (forall b a b', m b = Some (a, b') -> b' = b) -> pure (on_proc (W:=W) m).
Proof. intros Hm [p s w] a e'. unfold on_proc, on_part. cbn. destruct (m p) as [[x p']|] eqn:E1; [|discriminate]. intros [= <- <-]. now rewrite (Hm p x p' E1). Qed.

(** In fast mode the fixed columns read as zero. *)
Lemma sim_get_fixed_here c : sim agrees (fun _ v => v = Field f_zero) (get_fixed_here env c) (get_fixed_here fast c).
Proof.
  intros s t HR a s' Ha. exists (Field f_zero), t. split; [reflexivity|]. split; [reflexivity|]. enough (s' = s) as -> by exact HR. revert Ha.
  unfold get_fixed_here. assert (Hp : forall m : M E (Elem T), pure m -> m s = Some (a, s') -> s' = s) by (intros m Hm; apply Hm). apply Hp.
  destruct (witnessing _); [|apply pure_ret]. apply pure_bind; [apply pure_on_proc; now intros b x b' [= <- <-]|intros].
  apply pure_bind; [apply pure_lift|intros]. apply pure_bind; [apply pure_get_known_fixed|intros]. apply pure_ret.
Qed.

Lemma sim_set_colE c v1 v2 : simE (set_col env c v1) (set_col fast c v2).
Proof. apply sim_on_proc, sim_set_col. Qed.
Lemma sim_set_colsE l1 l2 : simE (set_cols env l1) (set_cols fast l2).
Proof. apply sim_on_proc, sim_set_cols. Qed.
Lemma sim_submachine_opE m id1 id2 a1 a2 x1 x2 : simE (submachine_op env m id1 a1 x1) (submachine_op fast m id2 a2 x2).
Proof. apply sim_on_proc, sim_submachine_op. Qed.
Lemma sim_get_memE a st1 st2 id1 id2 : simE (get_mem env a st1 id1) (get_mem fast a st2 id2).
Proof. apply sim_on_proc, sim_get_mem. Qed.
Lemma sim_set_memE a v st1 st2 id1 id2 : simE (set_mem env a v st1 id1) (set_mem fast a v st2 id2).
Proof. apply sim_on_proc, sim_set_mem. Qed.
Lemma sim_set_pcE v : simE (set_pc env v) (set_pc fast v).
Proof. apply sim_on_proc, sim_set_pc. Qed.

Lemma sim_step_plus k : simE (step_plus k) (step_plus k).
Proof.
  unfold step_plus. apply (sim_bind agrees eq); [apply (sim_gets agrees eq); now intros s t (? & ? & ?)|]. intros a b <-. apply sim_lift.
Qed.

End Executor.

(** One step of two parallel programs. *)
Ltac simstep :=
  lazymatch goal with
  | |- sim _ _ (mbind _ (instr_link_id _ _ _ _)) _ => apply (sim_bind agrees any); [apply sim_instr_link_id|intros ? ? _]
  | |- sim _ _ (mbind _ (link_id _ _ _ _)) _ => apply (sim_bind agrees any); [apply sim_link_id|intros ? ? _]
  | |- sim _ _ (mbind _ (get_fixed_here _ _)) _ => apply (sim_bind agrees (fun _ v => v = Field f_zero)); [apply sim_get_fixed_here|intros ?v ? ->]
  | |- sim _ _ (mbind _ _) (mbind _ _) => apply (sim_bind agrees eq); [|intros ?a ? <-]
  | |- sim _ _ (lift _) (lift _) => apply (sim_lift agrees)
  | |- sim _ _ (assertM _) (assertM _) => apply (sim_assert agrees)
  | |- sim _ _ (mret _) (mret _) => apply (sim_ret agrees); reflexivity
  | |- sim _ _ panic _ => apply (sim_panic agrees)
  | |- sim _ _ (set_col _ _ _) _ => apply sim_set_colE
  | |- sim _ _ (set_cols _ _) _ => apply sim_set_colsE
  | |- sim _ _ (submachine_op _ _ _ _ _) _ => apply sim_submachine_opE
  | |- sim _ _ (get_mem _ _ _ _) _ => apply sim_get_memE
  | |- sim _ _ (set_mem _ _ _ _ _) _ => apply sim_set_memE
  | |- sim _ _ (set_pc _ _) _ => apply sim_set_pcE
  | |- sim _ _ (step_plus _) _ => apply sim_step_plus
  | |- sim _ _ (on_proc get_pc) _ => apply sim_on_proc, sim_get_pc
  | |- sim _ _ (on_proc (get_reg_mem _)) _ => apply sim_on_proc, sim_get_reg_mem
  | |- sim _ _ (on_proc (set_reg_mem _ _)) _ => apply sim_on_proc, sim_set_reg_mem
  | |- sim _ _ (gets step) _ => apply (sim_gets agrees eq); intros ? ? (? & ? & ?); assumption
  | |- sim _ _ (arg _ _) _ => apply (sim_lift agrees)
  | |- sim _ _ (whenM ?b _) _ => destruct b; cbn [whenM]
  | |- sim _ _ (if ?b then _ else _) _ => destruct b
  | |- sim _ _ (let '_ := ?x in _) _ => destruct x
  end.
Ltac simrun := repeat simstep.

Section Instructions.
Context {T W : Type} `{LargeField T} `{Display T}.
Variable env : Env T W.
Notation fast := (fast_env env).
Notation simE := (sim agrees eq).

Lemma sim_arg_u (args : list (Elem T)) i : simE (arg_u (W:=W) args i) (arg_u args i).
Proof. unfold arg_u. simrun. Qed.
Lemma sim_arg_bin (args : list (Elem T)) i : simE (arg_bin (W:=W) args i) (arg_bin args i).
Proof. unfold arg_bin. simrun. Qed.
Lemma sim_reg_read k r id1 id2 : simE (reg_read env k r id1) (reg_read fast k r id2).
Proof. unfold reg_read. simrun. Qed.
Lemma sim_reg_write k r v id1 id2 : simE (reg_write env k r v id1) (reg_write fast k r v id2).
Proof. unfold reg_write. simrun. Qed.
Lemma sim_link_read i k o r : simE (link_read env i k o r) (link_read fast i k o r).
Proof. unfold link_read. simstep. apply sim_reg_read. Qed.
Lemma sim_link_write i k o r v : simE (link_write env i k o r v) (link_write fast i k o r v).
Proof. unfold link_write. simstep. apply sim_reg_write. Qed.
Lemma sim_pc_plus_one : simE (pc_plus_one (T:=T) (W:=W)) pc_plus_one.
Proof. unfold pc_plus_one. simrun. Qed.
Lemma sim_skip_target c : simE (skip_target (T:=T) (W:=W) c) (skip_target c).
Proof. unfold skip_target. simrun. Qed.
Lemma sim_set_is_zero_cols v : simE (set_is_zero_cols env v) (set_is_zero_cols fast v).
Proof. unfold set_is_zero_cols. simrun. Qed.
Lemma sim_ptr_plus p o : simE (ptr_plus (T:=T) (W:=W) p o) (ptr_plus p o).
Proof. unfold ptr_plus. simrun. Qed.

Ltac instr := repeat first
  [ simstep
  | apply sim_arg_u | apply sim_arg_bin | apply sim_link_read | apply sim_link_write | apply sim_reg_read | apply sim_pc_plus_one
  | apply sim_skip_target | apply sim_set_is_zero_cols | apply sim_ptr_plus
  | apply sim_map_collect; intros ? _
  | apply (sim_for_each agrees eq); [apply Forall2_same_length_lookup_2; [reflexivity|intros; congruence]|intros ? ? <-] ].

Lemma sim_poseidon_read p i : simE (poseidon_read env p i) (poseidon_read fast p i).
Proof. unfold poseidon_read. instr. Qed.
Lemma sim_poseidon_write p iv : simE (poseidon_write env p iv) (poseidon_write fast p iv).
Proof. unfold poseidon_write. instr. Qed.
Lemma sim_aligned_ptr args i : simE (aligned_ptr (T:=T) (W:=W) args i) (aligned_ptr args i).
Proof. unfold aligned_ptr. instr. Qed.
Lemma sim_read_words p r : simE (read_words env p r) (read_words fast p r).
Proof. unfold read_words. instr. Qed.
Lemma sim_write_words p st id o ws : simE (write_words env p st id o ws) (write_words fast p st id o ws).
Proof. unfold write_words. instr. Qed.
Lemma sim_read_fes p r : simE (read_fes env p r) (read_fes fast p r).
Proof. unfold read_fes. instr; apply sim_read_words. Qed.
Lemma sim_write_fes p o l : simE (write_fes env p o l) (write_fes fast p o l).
Proof. unfold write_fes. instr. Qed.

Lemma fast_set_col c v (s : Executor T W) : set_col fast c v s = Some (tt, s).
Proof. destruct s. reflexivity. Qed.

(** A column that may or may not be set. *)
Lemma sim_set_col_if (b1 b2 : bool) c v1 v2 :
  simE (if b1 then mret tt else set_col env c v1) (if b2 then mret tt else set_col fast c v2).
Proof.
  intros s t HR [] s' Hs. exists tt, t. split; [destruct b2; [reflexivity|apply fast_set_col]|]. split; [reflexivity|].
  destruct b1; [injection Hs as <-; exact HR|]. destruct (sim_set_colE env c v1 v2 s t HR tt s' Hs) as (? & t' & Ht & _ & HR'). rewrite fast_set_col in Ht. now injection Ht as _ <-.
Qed.

Lemma sim_exec_set_reg args : simE (exec_set_reg env args) (exec_set_reg fast args).
Proof.
  unfold exec_set_reg. do 4 (simstep; [instr|]). simstep. simstep; [apply sim_set_col_if|simstep].
Qed.
Lemma sim_set_const_cols : simE (set_const_cols env) (set_const_cols fast).
Proof.
  unfold set_const_cols. apply (sim_for_each agrees eq); [apply Forall2_same_length_lookup_2; [reflexivity|intros; congruence]|]. intros [[name col] fc] ? <-.
  cbn [config fast_env]. destruct (col_is_defined (config env) name), (col_is_defined (fast_config (config env)) name) eqn:Hd; try discriminate.
  - intros s t HR a s' Ha. exists tt, t. split; [reflexivity|]. split; [now destruct a|].
    unfold mbind, M_bind in Ha. destruct (get_fixed_here env fc s) as [[v s1]|] eqn:Hf; [|discriminate].
    destruct (sim_get_fixed_here env fc s t HR v s1 Hf) as (? & t1 & Hf' & _ & HR1). injection Hf' as _ <-.
    destruct (sim_set_colE env col v v s1 t HR1 a s' Ha) as (? & t2 & Ht & _ & HR2). rewrite fast_set_col in Ht. now injection Ht as _ <-.
  - simrun.
Qed.

Lemma sim_exec_body i args : simE (exec_body env i args) (exec_body fast i args).
Proof.
  destruct i; cbn [exec_body]; try apply sim_exec_set_reg.
  all: unfold exec_get_reg, exec_affine, exec_mstore, exec_mload, exec_load_bootloader_input, exec_assert_bootloader_input, bootloader_input, exec_load_label, exec_jump,
    exec_jump_dyn, exec_jump_to_bootloader_input, exec_branch_if_diff_nonzero, exec_branch_if_diff_equal, exec_skip_if_equal,
    exec_branch_if_diff_greater_than, exec_is_diff_greater_than, exec_is_equal_zero, exec_is_not_equal, exec_add_wrap, exec_wrap16,
    exec_sub_wrap_with_offset, exec_sign_extend_byte, exec_sign_extend_16_bits, exec_to_signed, exec_fail, exec_divremu, exec_mul, exec_binary,
    exec_shift, exec_invert_gl, exec_split_gl, exec_poseidon_gl, exec_poseidon2_gl, exec_affine_256, exec_mod_256, exec_ec_add, exec_ec_double,
    exec_commit_public, exec_keccakf; cbn [externals fast_env].
  all: instr; first [apply (sim_lift agrees)|apply sim_poseidon_read|apply sim_poseidon_write|apply sim_aligned_ptr|apply sim_read_words|apply sim_write_words|apply sim_read_fes|apply sim_write_fes].
Qed.

Lemma sim_run_instruction name args : simE (run_instruction env name args) (run_instruction fast name args).
Proof.
  unfold run_instruction. simrun; [apply sim_on_proc, sim_backup|apply sim_set_const_cols|apply sim_exec_body].
Qed.

Lemma sim_query q : simE (query env q) (query fast q).
Proof.
  unfold query. apply (sim_bind agrees eq); [apply (sim_gets agrees eq); now intros s t (? & ? & ?)|intros w ? <-]. simrun.
  apply (sim_modify agrees). now intros s t (? & ? & ?).
Qed.

End Instructions.

(** ** Programs *)

(** Induction over expressions and the lists of arguments in them. *)
Lemma expression_induction (P : Expression -> Prop) :
  (forall path, P (EReference path)) -> (forall n, P (ENumber n)) ->
  (forall l op r, P l -> P r -> P (EBinaryOperation l op r)) -> (forall op e, P e -> P (EUnaryOperation op e)) ->
  (forall f args, P f -> Forall P args -> P (EFunctionCall f args)) -> (forall e, P e -> P (EFreeInput e)) -> P EUnsupported ->
  forall e, P e.
Proof.
  intros Href Hnum Hbin Hun Hcall Hfree Huns. fix IH 1. intros [path|n|l op r|op e|f args|e|];
    [apply Href|apply Hnum|apply Hbin; apply IH|apply Hun, IH| |apply Hfree, IH|exact Huns].
  apply Hcall; [apply IH|]. induction args as [|a args IHargs]; [apply List.Forall_nil|apply List.Forall_cons; [apply IH|exact IHargs]].
Qed.

Section Programs.
Context {T W : Type} `{LargeField T} `{Display T}.
Variable env : Env T W.
Notation fast := (fast_env env).
Notation simE := (sim agrees eq).

Lemma sim_eval_args args : Forall (fun e => simE (eval_expression env e) (eval_expression fast e)) args ->
  simE (map_collect (fun a => o ← eval_expression env a; lift o) args) (map_collect (fun a => o ← eval_expression fast a; lift o) args).
Proof.
  intros Ha. apply sim_map_collect. intros a Hin. simstep; [|simrun]. rewrite List.Forall_forall in Ha. apply Ha. now apply list_elem_of_In.
Qed.

Lemma sim_eval_expression e : simE (eval_expression env e) (eval_expression fast e) /\
  match e with EFunctionCall (EReference _) args => Forall (fun e => simE (eval_expression env e) (eval_expression fast e)) args | _ => True end.
Proof.
  induction e as [path|n|l op r [IHl _] [IHr _]|op e [IHe _]|f args _ IHargs|e [_ IHe]|] using expression_induction; cbn [eval_expression]; (split; [|try exact I]).
  - simstep; [simrun|]. cbn [label_map fast_env]. destruct (label_map env !! a); simrun. apply sim_on_proc, sim_get_reg.
  - simrun.
  - simstep; [exact IHl|]. simstep; [simrun|]. simstep; [exact IHr|]. simrun.
  - simstep; [exact IHe|]. simrun.
  - assert (Hargs : Forall (fun e => simE (eval_expression env e) (eval_expression fast e)) args) by (eapply List.Forall_impl; [|exact IHargs]; intros a [Ha _]; exact Ha).
    destruct f; try apply sim_panic. simstep.
    + destruct args as [|a args]; [apply sim_panic|]. now apply List.Forall_inv in Hargs.
    + simstep; [simrun|]. simstep; [now apply sim_eval_args|apply sim_run_instruction].
  - destruct f; try exact I. eapply List.Forall_impl; [|exact IHargs]; intros a [Ha _]; exact Ha.
  - destruct e; try apply sim_panic. destruct e; try apply sim_panic. simstep; [now apply sim_eval_args|].
    unfold free_input. simstep; [simrun|]. simstep; [apply sim_query|]. simrun.
  - apply sim_panic.
Qed.

Lemma sim_exec_instruction name args : simE (exec_instruction env name args) (exec_instruction fast name args).
Proof.
  unfold exec_instruction. simstep; [|apply sim_run_instruction]. apply sim_eval_args. apply List.Forall_forall. intros e _. apply sim_eval_expression.
Qed.

Lemma sim_get_known_fixed c r : sim agrees (fun _ v => v = f_zero) (get_known_fixed env c r) (get_known_fixed fast c r).
Proof. intros s t HR a s' Ha. exists f_zero, t. split; [reflexivity|]. split; [reflexivity|]. now rewrite (pure_get_known_fixed env c r s a s' Ha). Qed.

End Programs.

Section Statements.
Context {T W : Type} `{LL : LargeFieldLaws T} `{Display T}.
Variable env : Env T W.
Variable program : PreprocessedMain T.
Notation fast := (fast_env env).
Notation simE := (sim agrees eq).

Lemma f_is_zero_zero : f_is_zero (f_zero (T:=T)) = true.
Proof. unfold f_is_zero. now rewrite f_zero_int. Qed.

Lemma sim_assignment_cols pc rhs r : simE (assignment_cols env pc rhs r) (assignment_cols fast pc rhs r).
Proof.
  unfold assignment_cols. apply (sim_bind agrees (fun _ v => v = f_zero)); [apply sim_get_known_fixed|]. intros v ? ->. simstep; [simrun|].
  assert (Hc : simE (set_col env col_X a;; x_read_free ← get_known_fixed env F_X_read_free (Z.to_nat pc);
      x_free_value ← (if f_is_zero x_read_free then mret (Field f_zero) else d ← lift (elem_sub a (Field v)); lift (elem_div d (Field x_read_free)));
      set_col env col_X_free_value x_free_value)
    (set_col fast col_X a;; x_read_free ← get_known_fixed fast F_X_read_free (Z.to_nat pc);
      x_free_value ← (if f_is_zero x_read_free then mret (Field f_zero) else d ← lift (elem_sub a (Field f_zero)); lift (elem_div d (Field x_read_free)));
      set_col fast col_X_free_value x_free_value)).
  { simstep; [simrun|]. apply (sim_bind agrees (fun _ v => v = f_zero)); [apply sim_get_known_fixed|]. intros w ? ->. rewrite f_is_zero_zero.
    apply (sim_bind agrees any); [|intros; simrun]. apply sim_pure. destruct (f_is_zero w); [apply pure_ret|]. apply pure_bind; [apply pure_lift|intros; apply pure_lift]. }
  destruct rhs; try exact Hc. simstep; [|simrun]. rewrite f_is_zero_zero. destruct (f_is_zero v); [simrun|]. intros s t _ x s'. discriminate.
Qed.

Lemma sim_exec_statement stm : simE (exec_statement env program stm) (exec_statement fast program stm).
Proof.
  destruct stm as [lhs rhs|name ins| |d|name]; cbn [exec_statement].
  - do 3 (simstep; [simrun|]). simstep; [apply sim_eval_expression|]. destruct lhs as [|[dest [x|]] [|]]; try apply sim_panic.
    simstep; [simrun|]. simstep; [apply sim_assignment_cols|]. destruct a1; simrun. apply sim_on_proc, sim_set_reg.
  - simstep; [simrun|]. simstep; simrun; try apply sim_exec_instruction; [apply sim_on_proc, sim_get_next_pc|apply sim_eval_expression].
  - simrun.
  - simrun; apply (sim_modify agrees); now intros s t (? & ? & ?).
  - apply sim_panic.
Qed.

Lemma sim_exec_line pc : simE (exec_line env program pc) (exec_line fast program pc).
Proof.
  unfold exec_line. simstep; [simrun|]. simstep; [simrun|]. simstep; [apply (sim_modify agrees); now intros s t (? & ? & ?)|].
  simstep; [apply sim_exec_statement|]. simrun. apply sim_on_proc, sim_advance.
Qed.

Lemma sim_exec_loop fuel : forall pc, simE (exec_loop env program fuel pc) (exec_loop fast program fuel pc).
Proof.
  induction fuel as [|fuel IH]; intros pc; cbn [exec_loop]; [simrun|]. simstep; [apply sim_exec_line|]. destruct a; [apply IH|simrun].
Qed.

Lemma sim_init : simE (init env) (init fast).
Proof.
  unfold init. simstep; [apply (sim_modify agrees); now intros s t (? & ? & ?)|]. simstep.
  - cbn [config fast_env mode fast_config witnessing].
    assert (Hp : pure (if witnessing (mode (config env)) then for_each (fun c => o ← get_fixed env (fixed_name c); _ ← lift o; mret tt) all_fixed else mret (M:=M (Executor T W)) tt)).
    { destruct (witnessing _); [|apply pure_ret]. induction all_fixed as [|c l IH]; cbn; [apply pure_ret|]. apply pure_bind; [|intros _; exact IH].
      apply pure_bind; [apply pure_get_fixed|intros]. apply pure_bind; [apply pure_lift|intros; apply pure_ret]. }
    intros s t HR [] s' Hs. exists tt, t. split; [reflexivity|]. split; [reflexivity|]. now rewrite (Hp s tt s' Hs).
  - apply (sim_for_each agrees eq); [apply Forall2_same_length_lookup_2; [reflexivity|intros; congruence]|intros i ? <-].
    simrun; apply sim_on_proc; [apply sim_push_row|apply sim_set_col_idx|apply sim_set_col_idx].
Qed.

End Statements.

(** ** The end of the trace *)

Section Result.
Context {T W : Type} `{LL : LargeFieldLaws T} `{Display T}.
Variable env : Env T W.
Variable program : PreprocessedMain T.
Notation fast := (fast_env env).

(** The result of the program: the memory, the registers, the steps and the prover's state. *)
Definition result (e : Executor T W) : gmap Z Z * gmap Z (Elem T) * Z * W := (mem (proc e), reg_last (proc e), step e, world e).

(** Programs that keep it. *)
Definition keeps_part {A} (m : M (TraceBuilder T) A) : Prop := forall b, wp m (fun _ b' => mem b' = mem b /\ reg_last b' = reg_last b) b.
Definition keeps {A} (m : M (Executor T W) A) : Prop := forall e, wp m (fun _ e' => result e' = result e) e.

Lemma keeps_part_bind {A C} (m : M (TraceBuilder T) A) (k : A -> M _ C) : keeps_part m -> (forall a, keeps_part (k a)) -> keeps_part (m ≫= k).
Proof. intros Hm Hk b. apply wp_bind. eapply wp_conseq; [apply Hm|]. cbn. intros a b' [<- <-]. apply Hk. Qed.
Lemma keeps_part_lift {A} (o : option A) : keeps_part (lift o).
Proof. intros b. now apply wp_lift. Qed.
Lemma keeps_part_gets {A} (f : TraceBuilder T -> A) : keeps_part (gets f).
Proof. intros b. now apply wp_gets. Qed.
Lemma keeps_part_ret {A} (a : A) : keeps_part (mret a).
Proof. intros b. now apply wp_ret. Qed.
Lemma keeps_part_modify (f : TraceBuilder T -> TraceBuilder T) : (forall b, mem (f b) = mem b /\ reg_last (f b) = reg_last b) -> keeps_part (modify f).
Proof. intros Hf b. apply wp_modify, Hf. Qed.
Lemma keeps_part_when c m : keeps_part m -> keeps_part (whenM c m).
Proof. destruct c; [auto|intros _; apply keeps_part_ret]. Qed.

Ltac keep := repeat first [apply keeps_part_bind; [|intros ?] | apply keeps_part_when | apply keeps_part_lift | apply keeps_part_gets
  | apply keeps_part_modify; intros ?; split; reflexivity | apply keeps_part_ret | (intros ?; apply wp_panic)].

Lemma keeps_set_pc v : keeps_part (RiscvTrace.set_pc (config env) v).
Proof. unfold RiscvTrace.set_pc. keep. Qed.
Lemma keeps_set_reg n v : keeps_part (set_reg (config env) n v).
Proof. unfold set_reg. keep. Qed.
Lemma keeps_set_col c v : keeps_part (RiscvTrace.set_col (config env) c v).
Proof. unfold RiscvTrace.set_col. keep. Qed.
Lemma keeps_advance : keeps_part (advance (config env)).
Proof.
  unfold advance, next_row, set_next_pc, get_next_pc, has_enough_rows. keep.
  all: repeat (case_match; keep); try apply keeps_set_col.
Qed.

Lemma keeps_bind {A C} (m : M (Executor T W) A) (k : A -> M _ C) : keeps m -> (forall a, keeps (k a)) -> keeps (m ≫= k).
Proof. intros Hm Hk b. apply wp_bind. eapply wp_conseq; [apply Hm|]. cbn. intros a b' <-. apply Hk. Qed.
Lemma keeps_on_proc {A} (m : M (TraceBuilder T) A) : keeps_part m -> keeps (on_proc m).
Proof. intros Hm e. apply wp_on_part. eapply wp_conseq; [apply Hm|]. intros a b [Hm1 Hm2]. unfold result. cbn. now rewrite Hm1, Hm2. Qed.
Lemma keeps_pure {A} (m : M (Executor T W) A) : pure m -> keeps m.
Proof. intros Hm e a e' Ha. now rewrite (Hm e a e' Ha). Qed.

Lemma keeps_end_trace : keeps (end_trace env).
Proof.
  assert (Hrow : forall pc, keeps (end_row env pc)).
  { intros pc. unfold end_row. apply keeps_bind; [apply keeps_on_proc, keeps_set_col|intros _]. apply keeps_on_proc, keeps_set_pc. }
  assert (Hadv : keeps (advance_to_end env)).
  { unfold advance_to_end. apply keeps_bind; [apply keeps_on_proc, keeps_advance|intros]. apply keeps_pure, pure_lift. }
  unfold end_trace. apply keeps_bind.
  { apply keeps_pure. unfold sink_id. apply pure_bind; [apply pure_get_fixed|intros]. apply pure_bind; [apply pure_lift|intros]. apply pure_bind; [apply pure_lift|intros; apply pure_ret]. }
  intros sink. repeat (apply keeps_bind; [first [apply Hrow|apply Hadv|apply keeps_on_proc, keeps_set_col|apply keeps_on_proc, keeps_set_reg]|intros _]).
  apply keeps_on_proc, keeps_set_col.
Qed.

(** The run up to the end of the loop. *)
Definition run_loop (e : Env T W) (fuel : nat) : M (Executor T W) bool :=
  init e;; on_proc (push_row (config e) PC_INITIAL_VAL);; exec_loop e program fuel 0.

Lemma run_program_split (e : Env T W) fuel s : run_program e program fuel s =
  match run_loop e fuel s with
  | Some (true, s') => ((if tracing (mode (config e)) then end_trace e else mret tt);; mret true) s'
  | Some (false, s') => Some (false, s')
  | None => None
  end.
Proof.
  unfold run_program, run_loop, mbind, M_bind. destruct (init e s) as [[[] s1]|]; [|reflexivity].
  destruct (on_proc _ s1) as [[[] s2]|]; [|reflexivity]. now destruct (exec_loop e program fuel 0 s2) as [[[] s3]|].
Qed.

Lemma sim_run_loop fuel : sim agrees eq (run_loop env fuel) (run_loop fast fuel).
Proof. unfold run_loop. simstep; [apply sim_init|]. simstep; [apply sim_on_proc, sim_push_row|]. apply sim_exec_loop. Qed.

Lemma agrees_result (s t : Executor T W) : agrees s t -> result t = result s.
Proof. intros (Hp & Hs & Hww). unfold agree, observed, result in *. congruence. Qed.

Lemma bind_ret_inv (m : M (Executor T W) unit) (b d : bool) s s' : (m;; mret b) s = Some (d, s') -> b = d.
Proof. unfold mbind, M_bind. destruct (m s) as [[[] s1]|]; [|discriminate]. now intros [= <- _]. Qed.

Lemma fast_run fuel (s t : Executor T W) done s' : agrees s t ->
  run_program env program fuel s = Some (done, s') ->
  exists t', run_program fast program fuel t = Some (done, t') /\ result t' = result s'.
Proof.
  intros HR. rewrite !run_program_split. destruct (run_loop env fuel s) as [[b s1]|] eqn:Hl; [|discriminate].
  destruct (sim_run_loop fuel s t HR b s1 Hl) as (b' & t1 & -> & <- & HR1). destruct b.
  - intros Hrun. exists t1. cbn [config fast_env mode fast_config tracing].
    assert (Hk : keeps ((if tracing (mode (config env)) then end_trace env else mret tt);; mret true)).
    { apply keeps_bind; [destruct (tracing _); [apply keeps_end_trace|apply keeps_pure, pure_ret]|intros; apply keeps_pure, pure_ret]. }
    pose proof (Hk s1 done s' Hrun) as Hres. rewrite (agrees_result s1 t1 HR1). apply bind_ret_inv in Hrun as <-. split; [reflexivity|now symmetry].
  - intros [= <- <-]. exists t1. split; [reflexivity|]. now apply agrees_result.
Qed.

(** C6: The modes agree. A run that records a trace, with or without the witness, is matched by a run in fast
    mode from the same state: it ends in the same way, with the same memory, registers, step and state of
    the inputs. Recording is therefore invisible to the program, and what the bootloader computes in fast
    mode (the registers and memory it hands over) is what the proof will contain. *)
Theorem fast_mode_refines fuel (s t : Executor T W) done s' : agrees s t ->
  run_program env program fuel s = Some (done, s') ->
  exists t', run_program fast program fuel t = Some (done, t') /\ result t' = result s'.
Proof. apply fast_run. Qed.

End Result.

(** A run that ended does not depend on the fuel. *)
Lemma exec_loop_more {T W} `{LargeField T} `{Display T} (env : Env T W) program fuel : forall l e e' k,
  exec_loop env program fuel l e = Some (true, e') -> exec_loop env program (fuel + k) l e = Some (true, e').
Proof.
  induction fuel as [|fuel IH]; intros l e e' k He; [discriminate|]. cbn [Nat.add exec_loop] in *. unfold mbind, M_bind in *.
  destruct (exec_line env program l e) as [[[l'|] e1]|]; [now apply IH|exact He|discriminate].
Qed.

Lemma run_program_unique {T W} `{LargeField T} `{Display T} (env : Env T W) program fuel1 fuel2 s s1 s2 :
  run_program env program fuel1 s = Some (true, s1) -> run_program env program fuel2 s = Some (true, s2) -> s1 = s2.
Proof.
  assert (Hmore : forall fuel k s1, run_program env program fuel s = Some (true, s1) -> run_program env program (fuel + k) s = Some (true, s1)).
  { intros fuel k s' Hr. unfold run_program, mbind, M_bind in *. destruct (init env s) as [[[] e1]|]; [|discriminate]. destruct (on_proc _ e1) as [[[] e2]|]; [|discriminate].
    destruct (exec_loop env program fuel 0 e2) as [[b e3]|] eqn:Hl; [|discriminate]. destruct b; [|discriminate Hr]. now rewrite (exec_loop_more env program fuel 0 e2 e3 k Hl). }
  intros H1' H2'. apply (Hmore _ fuel2) in H1'. apply (Hmore _ fuel1) in H2'. rewrite Nat.add_comm in H2'. congruence.
Qed.

(** Both modes start from the same builder. *)
Lemma builder_new_mode {T} `{LargeField T} cfg (memory : gmap Z Z) : builder_new (T:=T) (fast_config cfg) memory = builder_new cfg memory.
Proof. reflexivity. Qed.

Lemma fast_mode_refines_witness : exists done s' t',
  run_program (Demo.env Witness) Demo.program 20 (Demo.start Witness) = Some (done, s') /\
  run_program (fast_env (Demo.env Witness)) Demo.program 20 (Demo.start Fast) = Some (done, t') /\ result t' = result s'.
Proof.
  destruct (run_program (Demo.env Witness) Demo.program 20 (Demo.start Witness)) as [[done s']|] eqn:Hrun.
  - assert (Ha : agrees (Demo.start Witness) (Demo.start Fast)) by (split; [vm_compute; reflexivity|split; vm_compute; reflexivity]).
    destruct (fast_mode_refines (Demo.env Witness) Demo.program 20 _ _ done s' Ha Hrun) as (t' & Ht & Hr).
    exists done, s', t'. split; [reflexivity|]. split; [exact Ht|exact Hr].
  - exfalso. assert (Hs : match run_program (Demo.env Witness) Demo.program 20 (Demo.start Witness) with Some _ => true | None => false end = true)
      by (vm_compute; reflexivity). rewrite Hrun in Hs. discriminate.
Defined.
