(* ===== verification/RiscvRows.v ===== *)
(** * The rows of the main machine

    In witness mode every instruction leaves a row that satisfies the constraints that
    [riscv/src/riscv_gl.asm], [riscv/src/large_field/runtime.rs] and
    [riscv/src/large_field/code_gen.rs] state for it, and sends the submachines the operations of
    its links; the store of the bootloader alone goes out under another operation id. *)

From stdpp Require Import base list option gmap strings.
From Stdlib Require Import ZArith Lia.
From S2P Require Import Prelude Goldilocks Field AffineExpression PanicMonad RiscvElem RiscvNames RiscvTrace.
From S2P Require Import RiscvPil RiscvExec.

(** ** Updates of the current row and of the operations *)

Section Lists.
Context {T : Type} `{LargeField T}.

Definition row_col (c : KnownWitnessCol) (l : list T) : option T := l !! (length l - col_count + col_idx c)%nat.
Definition set_row (c : KnownWitnessCol) (v : Elem T) (l : list T) : list T := <[(length l - col_count + col_idx c)%nat := into_fe v]> l.
Definition set_rows (cvs : list (KnownWitnessCol * Elem T)) (l : list T) : list T := foldl (fun l cv => set_row (fst cv) (snd cv) l) l cvs.

(** The last value a list of updates gives to a column. *)
Fixpoint last_update (c : KnownWitnessCol) (cvs : list (KnownWitnessCol * Elem T)) : option (Elem T) :=
  match cvs with
  | [] => None
  | (d, v) :: cvs' => match last_update c cvs' with Some w => Some w | None => if col_eqb d c then Some v else None end
  end.

Definition ops_of (m : MachineInstance) (ops : list (list (SubmachineOp T))) : list (SubmachineOp T) := default [] (ops !! machine_idx m).
Definition add_op (m : MachineInstance) (op : SubmachineOp T) (ops : list (list (SubmachineOp T))) : list (list (SubmachineOp T)) :=
  <[machine_idx m := ops_of m ops ++ [op]]> ops.

Lemma set_row_length c v l : length (set_row c v l) = length l.
Proof. apply length_insert. Qed.

Lemma set_rows_length cvs : forall l, length (set_rows cvs l) = length l.
Proof. induction cvs as [|cv cvs IH]; intros l; cbn; [reflexivity|]. unfold set_rows in IH. rewrite IH. apply set_row_length. Qed.

Lemma row_col_set_row c d v l : (col_count <= length l)%nat ->
  row_col c (set_row d v l) = if col_eqb d c then Some (into_fe v) else row_col c l.
Proof.
  intros Hl. unfold row_col, set_row. rewrite length_insert. pose proof (col_idx_lt c). destruct (col_eqb_spec d c) as [->|Hn].
  - apply list_lookup_insert_eq. lia.
  - apply list_lookup_insert_ne. intros Hi. apply Hn, col_idx_inj. lia.
Qed.

Lemma row_col_set_rows c cvs : forall l, (col_count <= length l)%nat ->
  row_col c (set_rows cvs l) = match last_update c cvs with Some v => Some (into_fe v) | None => row_col c l end.
Proof.
  induction cvs as [|[d v] cvs IH]; intros l Hl; cbn [set_rows foldl last_update]; [reflexivity|].
  unfold set_rows in IH. rewrite IH by (now rewrite set_row_length). destruct (last_update c cvs); [reflexivity|].
  cbn [fst snd]. rewrite row_col_set_row by exact Hl. now destruct (col_eqb d c).
Qed.

Lemma ops_of_add_op m n op ops : length ops = machine_count ->
  ops_of m (add_op n op ops) = if machine_eqb n m then ops_of m ops ++ [op] else ops_of m ops.
Proof.
  intros Hl. unfold ops_of at 1, add_op. pose proof (machine_idx_lt n). destruct (machine_eqb_spec n m) as [->|Hn].
  - now rewrite list_lookup_insert_eq by lia.
  - rewrite list_lookup_insert_ne; [reflexivity|]. intros Hi. now apply Hn, machine_idx_inj.
Qed.

Lemma add_op_length m op ops : length (add_op m op ops) = length ops.
Proof. apply length_insert. Qed.

End Lists.

(** ** Steps of a run that returns *)

Section Steps.
Context {T W : Type} `{LargeField T} `{Display T}.
Variable env : Env T W.
Hypothesis witness : mode (config env) = Witness.
Notation E := (Executor T W).

Definition upd_cols (f : list T -> list T) (e : E) : E := put_proc (set_known_cols (f (known_cols (proc e))) (proc e)) e.
Definition upd_ops (m : MachineInstance) (op : SubmachineOp T) (e : E) : E :=
  put_proc (set_submachine_ops (add_op m op (submachine_ops (proc e))) (proc e)) e.
Definition upd_reg (r : Z) (v : Elem T) (e : E) : E :=
  if r =? 0 then e else put_proc (set_reg_last (<[r := v]> (reg_last (proc e))) (proc e)) e.
Definition upd_pc (line : Z) (v : Elem T) (e : E) : E :=
  put_proc (set_regs (<[pc_idx (config env) := v]> (regs (proc e))) (set_next_line line (proc e))) e.
Definition upd_mem (k : MemOperationKind) (a : Z) (f : gmap Z Z -> gmap Z Z) (e : E) : E :=
  put_proc (set_memory (f (mem (proc e))) (set_mem_ops (mem_ops (proc e) ++ [mkMemOperation (trace_len (proc e)) k a]) (proc e))) e.

Lemma wp_set_col c v (Q : unit -> E -> Prop) e :
  Q tt (upd_cols (set_row c v) e) -> wp (set_col env c v) Q e.
Proof.
  intros HQ. unfold set_col. apply wp_on_part. unfold RiscvTrace.set_col. rewrite witness. cbn [witnessing whenM].
  apply wp_bind, wp_gets, wp_bind, wp_assert. intros _. apply wp_bind, wp_lift. intros l'. unfold list_set. destruct (_ <? _)%nat; [|discriminate].
  intros [= <-]. apply wp_modify. exact HQ.
Qed.

Lemma upd_cols_id e : upd_cols (fun l => l) e = e.
Proof. destruct e as [[] ? ?]. reflexivity. Qed.

Lemma wp_set_cols l (Q : unit -> E -> Prop) e : Q tt (upd_cols (set_rows l) e) -> wp (set_cols env l) Q e.
Proof.
  revert e. unfold set_cols, RiscvTrace.set_cols. induction l as [|[c v] l IH]; intros e HQ; cbn [for_each].
  - apply wp_on_part, wp_ret. destruct e as [[] ? ?]. exact HQ.
  - apply wp_on_part, wp_bind. assert (Hc := wp_set_col c v (fun _ => wp (on_proc (for_each (fun cv => RiscvTrace.set_col (config env) (fst cv) (snd cv)) l)) Q) e).
    unfold set_col in Hc. intros a b Hb s p Hp. apply (Hc (IH (upd_cols (set_row c v) e) HQ) a (put_proc b e)).
    + unfold on_proc, on_part. cbn [fst snd] in Hb. now rewrite Hb.
    + unfold on_proc, on_part. cbn [proc put_proc]. rewrite Hp. reflexivity.
Qed.

Lemma wp_submachine_op m id args ext (Q : unit -> E -> Prop) e :
  Q tt (upd_ops m (mkOp id args ext) e) -> wp (submachine_op env m id args ext) Q e.
Proof.
  intros HQ. unfold submachine_op. apply wp_on_part. unfold RiscvTrace.submachine_op. rewrite witness. cbn [witnessing whenM].
  apply wp_bind, wp_assert. intros _. apply wp_bind, wp_gets, wp_bind, wp_lift. intros old Hold. apply wp_bind, wp_lift. intros l'.
  unfold list_set. destruct (_ <? _)%nat; [|discriminate]. intros [= <-]. apply wp_modify.
  unfold upd_ops, add_op, ops_of in HQ. now rewrite Hold in HQ.
Qed.

Lemma wp_reg_read off r id Q (e : E) :
  (let val := reg_value (reg_last (proc e)) r in
   step e + off < 2 ^ 32 ->
   Q val (upd_ops M_regs (mkOp id [from_int 0; from_u32 r; from_u32 (step e + off); into_fe val] []) e)) ->
  wp (reg_read env off r id) Q e.
Proof.
  intros HQ. unfold reg_read. apply wp_bind, wp_on_part. apply wp_bind, wp_gets, wp_ret. cbn [put_proc]. apply wp_bind. unfold step_plus.
  apply wp_bind, wp_gets, wp_lift. intros st. unfold checked_add. case_if; [|discriminate]. intros [= <-]. apply wp_bind, wp_submachine_op, wp_ret.
  destruct e as [p s w]. cbn in *. now apply HQ.
Qed.

Lemma wp_reg_write off r v id (Q : unit -> E -> Prop) e :
  (step e + off < 2 ^ 32 -> Q tt (upd_reg r v (upd_ops M_regs (mkOp id [from_int 1; from_u32 r; from_u32 (step e + off); into_fe v] []) e))) ->
  wp (reg_write env off r v id) Q e.
Proof.
  intros HQ. unfold reg_write. apply wp_bind. unfold step_plus. apply wp_bind, wp_gets, wp_lift. intros st. unfold checked_add. case_if; [|discriminate].
  intros [= <-]. apply wp_bind, wp_submachine_op, wp_on_part. unfold set_reg_mem. unfold upd_reg in HQ.
  destruct (r =? 0); [apply wp_ret; now apply HQ|]. apply wp_bind, wp_gets, wp_modify. now apply HQ.
Qed.

Lemma wp_instr_link_id i m k (Q : Z -> E -> Prop) e : (forall id, Q id e) -> wp (instr_link_id env i m k) Q e.
Proof. intros HQ. unfold instr_link_id. rewrite witness. cbn [witnessing]. apply wp_bind, wp_lift. intros idt _. apply wp_ret, HQ. Qed.

Lemma wp_link_read i k off r Q (e : E) :
  (forall id val, val = reg_value (reg_last (proc e)) r -> step e + off < 2 ^ 32 ->
   Q val (upd_ops M_regs (mkOp id [from_int 0; from_u32 r; from_u32 (step e + off); into_fe val] []) e)) ->
  wp (link_read env i k off r) Q e.
Proof. intros HQ. unfold link_read. apply wp_bind, wp_instr_link_id. intros id. apply wp_reg_read. now apply HQ. Qed.

Lemma wp_link_write i k off r v (Q : unit -> E -> Prop) e :
  (forall id, step e + off < 2 ^ 32 ->
   Q tt (upd_reg r v (upd_ops M_regs (mkOp id [from_int 1; from_u32 r; from_u32 (step e + off); into_fe v] []) e))) ->
  wp (link_write env i k off r v) Q e.
Proof. intros HQ. unfold link_write. apply wp_bind, wp_instr_link_id. intros id. apply wp_reg_write. apply HQ. Qed.

Lemma wp_arg args i Q (e : E) : (forall a, args !! i = Some a -> Q a e) -> wp (arg (T:=T) args i) Q e.
Proof. apply wp_lift. Qed.

Lemma wp_arg_u args i Q (e : E) : (forall v, args !! i = Some (Binary v) -> 0 <= v < 2 ^ 32 -> Q v e) -> wp (arg_u (T:=T) args i) Q e.
Proof. intros HQ. apply wp_bind, wp_arg. intros a Ha. apply wp_lift. intros v [-> Hv]%elem_u_Some. now apply HQ. Qed.

Lemma wp_arg_bin args i Q (e : E) : (forall b, args !! i = Some (Binary b) -> Q b e) -> wp (arg_bin (T:=T) args i) Q e.
Proof. intros HQ. apply wp_bind, wp_arg. intros a Ha. apply wp_lift. intros v ->%elem_bin_Some. now apply HQ. Qed.

Lemma wp_lift_u x Q (e : E) : (forall v, x = Binary v -> 0 <= v < 2 ^ 32 -> Q v e) -> wp (lift (elem_u (T:=T) x)) Q e.
Proof. intros HQ. apply wp_lift. intros v [Hx Hv]%elem_u_Some. now apply HQ. Qed.

Lemma wp_lift_bin x Q (e : E) : (forall b, x = Binary b -> Q b e) -> wp (lift (elem_bin (T:=T) x)) Q e.
Proof. intros HQ. apply wp_lift. intros v Hx%elem_bin_Some. now apply HQ. Qed.

Lemma wp_lift_i64 z Q (e : E) : (- 2 ^ 63 <= z < 2 ^ 63 -> Q z e) -> wp (lift (i64_checked z)) Q e.
Proof. intros HQ. apply wp_lift. intros v [-> Hv]%i64_checked_Some. now apply HQ. Qed.

Lemma wp_step_plus off Q (e : E) : (step e + off < 2 ^ 32 -> Q (step e + off) e) -> wp (step_plus off) Q e.
Proof. intros HQ. apply wp_bind, wp_gets, wp_lift. intros v. unfold checked_add. case_if; [|discriminate]. intros [= <-]. now apply HQ. Qed.

Lemma wp_set_pc v (Q : unit -> E -> Prop) e :
  (forall u line, v = Binary u -> 0 <= u < 2 ^ 32 -> batch_to_line_map (config env) !! Z.to_nat u = Some line ->
     (pc_idx (config env) < length (regs (proc e)))%nat -> Q tt (upd_pc line v e)) -> wp (set_pc env v) Q e.
Proof.
  intros HQ. unfold set_pc. apply wp_on_part. apply wp_bind, wp_lift. intros u [Hu Hr]%elem_u_Some. apply wp_bind, wp_lift. intros line Hl.
  apply wp_bind, wp_modify. unfold set_reg_idx. rewrite Nat.eqb_refl, andb_false_r. cbn [whenM]. apply wp_bind, wp_ret, wp_bind, wp_gets, wp_bind, wp_lift.
  intros r. unfold list_set. destruct (Nat.ltb_spec (pc_idx (config env)) (length (regs (set_next_line line (proc e))))); [|discriminate]. intros [= <-]. apply wp_modify. now apply (HQ u line).
Qed.

Lemma wp_pc_plus_one Q (e : E) : (forall u, curr_pc (proc e) = Binary u -> 0 <= u < 2 ^ 32 -> u + 1 < 2 ^ 32 -> Q (u + 1) e) -> wp pc_plus_one Q e.
Proof.
  intros HQ. apply wp_bind, wp_on_part, wp_gets. destruct e as [p s w]. apply wp_bind, wp_lift_u. intros u Hu Hr. apply wp_lift. intros v.
  unfold checked_add. case_if; [|discriminate]. intros [= <-]. now apply HQ.
Qed.

Lemma wp_set_mem a v st id (Q : unit -> E -> Prop) e :
  Q tt (upd_mem Write a (fun m => <[a := v]> m) (upd_ops M_memory (mkOp id [from_int 1; from_u32 a; from_u32 st; from_u32 v] []) e)) ->
  wp (set_mem env a v st id) Q e.
Proof.
  intros HQ. unfold set_mem, RiscvTrace.set_mem. apply wp_on_part, wp_bind.
  assert (Hs := wp_submachine_op M_memory id [from_int 1; from_u32 a; from_u32 st; from_u32 v] []). unfold submachine_op in Hs.
  intros [] b Hb. specialize (Hs (fun _ e' => e' = upd_ops M_memory (mkOp id [from_int 1; from_u32 a; from_u32 st; from_u32 v] []) e) e eq_refl tt (put_proc b e)).
  unfold on_proc, on_part in Hs. rewrite Hb in Hs. specialize (Hs eq_refl). apply (f_equal proc) in Hs. cbn [proc put_proc upd_ops] in Hs. subst b.
  apply wp_bind. unfold record_mem_op. rewrite witness. cbn [tracing whenM]. apply wp_bind, wp_gets, wp_bind, wp_gets, wp_modify, wp_bind, wp_gets, wp_modify. exact HQ.
Qed.

Lemma wp_get_mem a st id (Q : Z -> E -> Prop) e :
  (forall val, val = default 0 (mem (proc e) !! a) ->
   Q val (upd_mem Read a (fun m => m) (upd_ops M_memory (mkOp id [from_int 0; from_u32 a; from_u32 st; from_u32 val] []) e))) ->
  wp (get_mem env a st id) Q e.
Proof.
  intros HQ. unfold get_mem, RiscvTrace.get_mem. apply wp_on_part, wp_bind, wp_gets, wp_bind. specialize (HQ _ eq_refl). set (val := default 0 _) in *.
  assert (Hs := wp_submachine_op M_memory id [from_int 0; from_u32 a; from_u32 st; from_u32 val] []). unfold submachine_op in Hs.
  intros [] b Hb. specialize (Hs (fun _ e' => e' = upd_ops M_memory (mkOp id [from_int 0; from_u32 a; from_u32 st; from_u32 val] []) e) e eq_refl tt (put_proc b e)).
  unfold on_proc, on_part in Hs. rewrite Hb in Hs. specialize (Hs eq_refl). apply (f_equal proc) in Hs. cbn [proc put_proc upd_ops] in Hs. subst b.
  apply wp_bind. unfold record_mem_op. rewrite witness. cbn [tracing whenM]. apply wp_bind, wp_gets, wp_bind, wp_gets, wp_modify, wp_ret.
  destruct e as [[] ? ?]. exact HQ.
Qed.

(** The columns of the zero test. *)
Lemma wp_set_is_zero_cols v (Q : unit -> E -> Prop) e :
  (elem_is_zero v = true -> Q tt (upd_cols (set_rows [(col_XX, v); (col_XXIsZero, Field f_one)]) e)) ->
  (forall inv, elem_is_zero v = false -> f_div f_one (into_fe v) = Some inv ->
     Q tt (upd_cols (set_rows [(col_XX, v); (col_XXIsZero, Field f_zero); (col_XX_inv, Field inv)]) e)) ->
  wp (set_is_zero_cols env v) Q e.
Proof.
  intros Hone Hinv. apply wp_bind, wp_set_cols. destruct (elem_is_zero v) eqn:Hz; cbn [from_bool_as_fe].
  - apply wp_ret. now apply Hone.
  - apply wp_bind, wp_lift. intros inv Hi. apply wp_set_col. now apply Hinv.
Qed.

End Steps.

(** ** The constraints *)

Section Constraints.
Context {T W : Type} `{LargeField T} `{Display T}.
Notation E := (Executor T W).

(** The cells of the current row, as integers. *)
Definition cell (e : E) (c : KnownWitnessCol) : Z := match row_col c (known_cols (proc e)) with Some v => to_integer v | None => 0 end.
Definition ops (e : E) (m : MachineInstance) : list (SubmachineOp T) := ops_of m (submachine_ops (proc e)).
Definition next_pc (pc_idx : nat) (e : E) : option (Elem T) := regs (proc e) !! pc_idx.
Definition reg (e : E) (r : Z) : Elem T := reg_value (reg_last (proc e)) r.
Definition argz (args : list (Elem T)) (i : nat) : Z := match args !! i with Some a => elem_int a | None => 0 end.

Notation "a ≡ b" := (eqm modulus a b) (at level 70, no associativity).

Definition bytes4 (b1 b2 b3 b4 : Z) : Z := b1 + b2 * 0x100 + b3 * 0x10000 + b4 * 0x1000000.

(** The constraints of all rows: byte checks, the booleans and the zero test. *)
Definition byte_columns : list KnownWitnessCol :=
  [col_X_b1; col_X_b2; col_X_b3; col_X_b4; col_Y_b5; col_Y_b6; col_Y_b7; col_Y_b8; col_REM_b1; col_REM_b2; col_REM_b3; col_REM_b4].

Definition row_constraints (c : KnownWitnessCol -> Z) : Prop :=
  Forall (fun b => 0 <= c b < 256) byte_columns /\ 0 <= c col_Y_7bit < 128 /\
  (c col_wrap_bit = 0 \/ c col_wrap_bit = 1) /\ (c col_XXIsZero = 0 \/ c col_XXIsZero = 1) /\ c col_XXIsZero * c col_XX ≡ 0.

(** The address of a store and the wrap bit of its sum. *)
Definition store_constraint (args : list (Elem T)) (c : KnownWitnessCol -> Z) : Prop :=
  c col_tmp1_col - c col_tmp2_col + argz args 2 ≡
  bytes4 (c col_X_b1) (c col_X_b2) (c col_X_b3) (c col_X_b4) + c col_wrap_bit * 2 ^ 32.

(** The body of an instruction that [riscv_gl.asm] declares; [X], [Y], [Z], [W] are its literal
    arguments, [pc'] the next program counter. *)
Definition instr_constraints (instr : Instruction) (args : list (Elem T)) (c : KnownWitnessCol -> Z) (pc pc' : Z) : Prop :=
  let a := argz args in
  let tmp1 := c col_tmp1_col in let tmp2 := c col_tmp2_col in let tmp3 := c col_tmp3_col in let tmp4 := c col_tmp4_col in
  let wrap_bit := c col_wrap_bit in let XX := c col_XX in let XX_inv := c col_XX_inv in let XXIsZero := c col_XXIsZero in
  let X_bs := bytes4 (c col_X_b1) (c col_X_b2) (c col_X_b3) (c col_X_b4) in
  let Y_bs := bytes4 (c col_Y_b5) (c col_Y_b6) (c col_Y_b7) (c col_Y_b8) in
  let next := pc' ≡ pc + 1 in
  match instr with
  | I_mload =>
    tmp1 + a 1%nat ≡ wrap_bit * 2 ^ 32 + c col_X_b4 * 0x1000000 + c col_X_b3 * 0x10000 + c col_X_b2 * 0x100 + c col_X_b1 * 4 + tmp4 /\
    0 <= tmp4 < 4 /\ 0 <= c col_X_b1 < 64 /\ next
  | I_mstore => store_constraint args c /\ next
  | I_load_label => tmp1 ≡ a 1%nat /\ next
  | I_jump => pc' ≡ a 0%nat
  | I_jump_dyn => pc' ≡ tmp1
  | I_branch_if_diff_nonzero =>
    XXIsZero ≡ 1 - XX * XX_inv /\ XX ≡ tmp1 - tmp2 /\ pc' ≡ (1 - XXIsZero) * a 2%nat + XXIsZero * (pc + 1)
  | I_branch_if_diff_equal =>
    XXIsZero ≡ 1 - XX * XX_inv /\ XX ≡ tmp1 - tmp2 - a 2%nat /\ pc' ≡ XXIsZero * a 3%nat + (1 - XXIsZero) * (pc + 1)
  | I_skip_if_equal =>
    XXIsZero ≡ 1 - XX * XX_inv /\ XX ≡ tmp1 - tmp2 + a 2%nat /\ pc' ≡ pc + 1 + XXIsZero * a 3%nat
  | I_branch_if_diff_greater_than =>
    (tmp1 - tmp2 - a 2%nat) + 2 ^ 32 - 1 ≡ X_bs + wrap_bit * 2 ^ 32 /\ pc' ≡ wrap_bit * a 3%nat + (1 - wrap_bit) * (pc + 1)
  | I_is_diff_greater_than => (tmp1 - tmp2 - a 2%nat) + 2 ^ 32 - 1 ≡ X_bs + wrap_bit * 2 ^ 32 /\ next
  | I_is_equal_zero => XXIsZero ≡ 1 - XX * XX_inv /\ XX ≡ tmp1 /\ next
  | I_is_not_equal => XXIsZero ≡ 1 - XX * XX_inv /\ XX ≡ tmp1 - tmp2 /\ tmp3 ≡ 1 - XXIsZero /\ next
  | I_add_wrap => tmp1 + tmp2 + a 2%nat ≡ tmp3 + wrap_bit * 2 ^ 32 /\ tmp3 ≡ X_bs /\ next
  | I_sub_wrap_with_offset => (tmp1 - tmp2 + a 2%nat) + 2 ^ 32 ≡ tmp3 + wrap_bit * 2 ^ 32 /\ tmp3 ≡ X_bs /\ next
  | I_sign_extend_byte =>
    tmp1 ≡ c col_Y_7bit + wrap_bit * 0x80 + c col_X_b2 * 0x100 + c col_X_b3 * 0x10000 + c col_X_b4 * 0x1000000 /\
    tmp3 ≡ c col_Y_7bit + wrap_bit * 0xffffff80 /\ next
  | I_sign_extend_16_bits =>
    c col_Y_15bit ≡ c col_X_b1 + c col_Y_7bit * 0x100 /\
    tmp1 ≡ c col_Y_15bit + wrap_bit * 0x8000 + c col_X_b3 * 0x10000 + c col_X_b4 * 0x1000000 /\
    tmp3 ≡ c col_Y_15bit + wrap_bit * 0xffff8000 /\ next
  | I_to_signed =>
    tmp1 ≡ c col_X_b1 + c col_X_b2 * 0x100 + c col_X_b3 * 0x10000 + c col_Y_7bit * 0x1000000 + wrap_bit * 0x80000000 /\
    tmp3 ≡ tmp1 - wrap_bit * 0x100000000 /\ next
  | I_wrap16 => tmp1 * a 1%nat ≡ c col_Y_b5 * 2 ^ 32 + c col_Y_b6 * 2 ^ 40 + tmp3 /\ tmp3 ≡ X_bs /\ next
  | I_divremu =>
    XXIsZero ≡ 1 - XX * XX_inv /\ XX ≡ tmp2 /\ tmp2 * tmp3 + tmp4 ≡ tmp1 /\
    tmp4 ≡ bytes4 (c col_REM_b1) (c col_REM_b2) (c col_REM_b3) (c col_REM_b4) /\
    (1 - XXIsZero) * (tmp2 - tmp4 - 1 - Y_bs) ≡ 0 /\ XXIsZero * (tmp3 - 0xffffffff) ≡ 0 /\ tmp3 ≡ X_bs /\ next
  | _ => next
  end.

(** The bodies that [code_gen.rs] writes itself: the bootloader's store and, for the Goldilocks
    field, the inversion. *)
Definition mstore_bootloader_constraint (args : list (Elem T)) (c : KnownWitnessCol -> Z) : Prop := store_constraint args c.
Definition invert_gl_instruction_body (c : KnownWitnessCol -> Z) : Prop := c col_XX_inv * (c col_tmp1_col + c col_tmp2_col * 2 ^ 32) ≡ 1.

Definition declared_constraints (instr : Instruction) (args : list (Elem T)) (c : KnownWitnessCol -> Z) (pc pc' : Z) : Prop :=
  match instr with
  | I_mstore_bootloader => mstore_bootloader_constraint args c /\ pc' ≡ pc + 1
  | I_invert_gl => invert_gl_instruction_body c /\ pc' ≡ pc + 1
  | _ => instr_constraints instr args c pc pc'
  end.

(** The links of an instruction: the operations of a submachine, each the operation's id, if the
    submachine has several, and its arguments. [regs] and [memory] load with id 0 and store with id 1. *)
Definition link_load (addr step value : Z) : list Z := [0; addr; step; value].
Definition link_store (addr step value : Z) : list Z := [1; addr; step; value].

(** The declarations in [riscv_gl.asm]. *)
Definition instr_links (instr : Instruction) (args : list (Elem T)) (c : KnownWitnessCol -> Z) (pc st : Z) (m : MachineInstance) : list (list Z) :=
  let a := argz args in
  let tmp1 := c col_tmp1_col in let tmp2 := c col_tmp2_col in let tmp3 := c col_tmp3_col in let tmp4 := c col_tmp4_col in
  let X_bs := bytes4 (c col_X_b1) (c col_X_b2) (c col_X_b3) (c col_X_b4) in
  match instr, m with
  | I_set_reg, M_regs => [link_store (a 0%nat) st (a 1%nat)]
  | I_affine, M_regs => [link_load (a 0%nat) st tmp1; link_store (a 1%nat) (st + 1) (tmp1 * a 2%nat + a 3%nat)]
  | I_mload, M_regs => [link_load (a 0%nat) st tmp1; link_store (a 2%nat) (st + 2) tmp3; link_store (a 3%nat) (st + 3) tmp4]
  | I_mload, M_memory => [link_load (c col_X_b4 * 0x1000000 + c col_X_b3 * 0x10000 + c col_X_b2 * 0x100 + c col_X_b1 * 4) (st + 1) tmp3]
  | I_mstore, M_regs => [link_load (a 0%nat) st tmp1; link_load (a 1%nat) (st + 1) tmp2; link_load (a 3%nat) (st + 2) tmp3]
  | I_mstore, M_memory => [link_store X_bs (st + 3) tmp3]
  | I_load_label, M_regs => [link_store (a 0%nat) st tmp1]
  | I_jump, M_regs => [link_store (a 1%nat) st (pc + 1)]
  | I_jump_dyn, M_regs => [link_load (a 0%nat) st tmp1; link_store (a 1%nat) st (pc + 1)]
  | (I_branch_if_diff_nonzero | I_branch_if_diff_equal | I_skip_if_equal | I_branch_if_diff_greater_than), M_regs =>
    [link_load (a 0%nat) st tmp1; link_load (a 1%nat) (st + 1) tmp2]
  | I_is_diff_greater_than, M_regs => [link_load (a 0%nat) st tmp1; link_load (a 1%nat) (st + 1) tmp2; link_store (a 3%nat) (st + 2) (c col_wrap_bit)]
  | I_is_equal_zero, M_regs => [link_load (a 0%nat) st tmp1; link_store (a 1%nat) (st + 2) (c col_XXIsZero)]
  | I_is_not_equal, M_regs => [link_load (a 0%nat) st tmp1; link_load (a 1%nat) (st + 1) tmp2; link_store (a 2%nat) (st + 2) tmp3]
  | (I_add_wrap | I_sub_wrap_with_offset), M_regs => [link_load (a 0%nat) st tmp1; link_load (a 1%nat) (st + 1) tmp2; link_store (a 3%nat) (st + 2) tmp3]
  | (I_sign_extend_byte | I_sign_extend_16_bits), M_regs => [link_load (a 0%nat) st tmp1; link_store (a 1%nat) (st + 3) tmp3]
  | I_to_signed, M_regs => [link_load (a 0%nat) st tmp1; link_store (a 1%nat) (st + 1) tmp3]
  | I_wrap16, M_regs => [link_load (a 0%nat) st tmp1; link_store (a 2%nat) (st + 3) tmp3]
  | I_divremu, M_regs => [link_load (a 0%nat) st tmp1; link_load (a 1%nat) (st + 1) tmp2; link_store (a 2%nat) (st + 2) tmp3; link_store (a 3%nat) (st + 3) tmp4]
  | I_invert_gl, M_regs => [link_load (a 0%nat) st tmp1; link_load (a 1%nat) (st + 1) tmp2; link_store (a 0%nat) (st + 2) tmp3; link_store (a 1%nat) (st + 3) tmp4]
  | I_invert_gl, M_split_gl => [[c col_XX_inv; tmp3; tmp4]]
  | I_commit_public, M_regs => [link_load (a 0%nat) st tmp1; link_load (a 1%nat) st tmp2]
  | I_commit_public, M_publics => [[tmp1; tmp2]]
  | _, _ => []
  end.

(** The declarations that [large_field/runtime.rs] adds for the base submachines. *)
Definition runtime_links (instr : Instruction) (args : list (Elem T)) (c : KnownWitnessCol -> Z) (st : Z) (m : MachineInstance) : list (list Z) :=
  let a := argz args in
  let tmp1 := c col_tmp1_col in let tmp2 := c col_tmp2_col in let tmp3 := c col_tmp3_col in let tmp4 := c col_tmp4_col in
  match instr, m with
  | (I_and | I_or | I_xor | I_shl | I_shr), M_regs => [link_load (a 0%nat) st tmp1; link_load (a 1%nat) (st + 1) tmp2; link_store (a 3%nat) (st + 3) tmp3]
  | I_and, M_binary => [[0; tmp1; tmp2 + a 2%nat; tmp3]]
  | I_or, M_binary => [[1; tmp1; tmp2 + a 2%nat; tmp3]]
  | I_xor, M_binary => [[2; tmp1; tmp2 + a 2%nat; tmp3]]
  | I_shl, M_shift => [[0; tmp1; tmp2 + a 2%nat; tmp3]]
  | I_shr, M_shift => [[1; tmp1; tmp2 + a 2%nat; tmp3]]
  | I_split_gl, M_regs => [link_load (a 0%nat) st tmp1; link_store (a 1%nat) (st + 2) tmp3; link_store (a 2%nat) (st + 3) tmp4]
  | I_split_gl, M_split_gl => [[tmp1; tmp3; tmp4]]
  | _, _ => []
  end.

(** The declarations that [code_gen.rs] writes: the multiplication for the Goldilocks field, and the
    bootloader's store, which is operation 2 of its memory machine. *)
Definition mul_instruction (args : list (Elem T)) (c : KnownWitnessCol -> Z) (st : Z) (m : MachineInstance) : list (list Z) :=
  let a := argz args in
  let tmp1 := c col_tmp1_col in let tmp2 := c col_tmp2_col in let tmp3 := c col_tmp3_col in let tmp4 := c col_tmp4_col in
  match m with
  | M_regs => [link_load (a 0%nat) st tmp1; link_load (a 1%nat) (st + 1) tmp2; link_store (a 2%nat) (st + 2) tmp3; link_store (a 3%nat) (st + 3) tmp4]
  | M_split_gl => [[tmp1 * tmp2; tmp3; tmp4]]
  | _ => []
  end.

Definition mstore_bootloader_links (args : list (Elem T)) (c : KnownWitnessCol -> Z) (st : Z) (m : MachineInstance) : list (list Z) :=
  let a := argz args in
  let tmp1 := c col_tmp1_col in let tmp2 := c col_tmp2_col in let tmp3 := c col_tmp3_col in
  match m with
  | M_regs => [link_load (a 0%nat) st tmp1; link_load (a 1%nat) (st + 1) tmp2; link_load (a 3%nat) (st + 2) tmp3]
  | M_memory => [[2; bytes4 (c col_X_b1) (c col_X_b2) (c col_X_b3) (c col_X_b4); st + 3; tmp3]]
  | _ => []
  end.

Definition declared_links (instr : Instruction) (args : list (Elem T)) (c : KnownWitnessCol -> Z) (pc st : Z) (m : MachineInstance) : list (list Z) :=
  match instr with
  | I_mstore_bootloader => mstore_bootloader_links args c st m
  | I_mul => mul_instruction args c st m
  | I_and | I_or | I_xor | I_shl | I_shr | I_split_gl => runtime_links instr args c st m
  | _ => instr_links instr args c pc st m
  end.

(** What the executor sends for them: [set_mem] logs every store with operation id 1, the one of the
    bootloader included. *)
Definition with_id (id : Z) (l : list Z) : list Z := match l with _ :: l' => id :: l' | [] => [] end.
Definition sent_links (instr : Instruction) (args : list (Elem T)) (c : KnownWitnessCol -> Z) (pc st : Z) (m : MachineInstance) : list (list Z) :=
  match instr, m with
  | I_mstore_bootloader, M_memory => map (with_id 1) (declared_links instr args c pc st m)
  | _, _ => declared_links instr args c pc st m
  end.

(** The instructions whose witness the executor generates; the others work on memory only, or
    belong to the bootloader. [get_reg] is the right-hand side of an assignment. *)
Definition has_witness (instr : Instruction) : bool :=
  match instr with
  | I_get_reg | I_load_bootloader_input | I_assert_bootloader_input | I_jump_to_bootloader_input | I_fail
  | I_poseidon_gl | I_poseidon2_gl | I_affine_256 | I_mod_256 | I_ec_add | I_ec_double | I_keccakf => false
  | _ => true
  end.

(** What the comments of [riscv_gl.asm] require of the operands. *)
Definition requires (instr : Instruction) (args : list (Elem T)) (val : nat -> Z) : Prop :=
  let a := argz args in
  match instr with
  | I_mload => 0 <= val 0%nat + a 1%nat < 2 ^ 33
  | I_mstore | I_mstore_bootloader => 0 <= val 0%nat - val 1%nat + a 2%nat < 2 ^ 33
  | I_branch_if_diff_greater_than | I_is_diff_greater_than => - 2 ^ 32 < val 0%nat - val 1%nat - a 2%nat < 2 ^ 32
  | I_add_wrap => 0 <= val 0%nat + val 1%nat + a 2%nat < 2 ^ 33
  | I_sub_wrap_with_offset => - 2 ^ 32 <= val 0%nat - val 1%nat + a 2%nat < 2 ^ 32
  | I_wrap16 => 0 <= val 0%nat * a 1%nat < 2 ^ 48
  | _ => True
  end.

(** The executor passes four arguments, the missing ones zero. *)
Definition pad (l : list Z) : list Z := l ++ repeat 0 (4 - length l).
Definition op_matches (op : SubmachineOp T) (l : list Z) : Prop := Forall2 (fun f z => to_integer f ≡ z) (lookup_args op) (pad l).

(** Exactly the expected operations are added. *)
Definition sends (e e' : E) (expected : MachineInstance -> list (list Z)) : Prop :=
  forall m, exists new, ops e' m = ops e m ++ new /\ Forall2 op_matches new (expected m).

End Constraints.

(** ** Instructions satisfy their constraints *)

Section Proofs.
Context {T W : Type} `{LL : LargeFieldLaws T} `{Display T}.
Variable env : Env T W.
Notation E := (Executor T W).
Notation "a ≡ b" := (eqm modulus a b) (at level 70, no associativity).

(** A row whose working columns are still zero, with well-formed registers and memory. *)
Definition has_row (e : E) : Prop := (col_count <= length (known_cols (proc e)))%nat /\ length (submachine_ops (proc e)) = machine_count.
Definition scratch (c : KnownWitnessCol) : bool :=
  match c with col_operation_id | col_pc_update | col_X | col_Y | col_Z | col_W => false | _ => true end.
Record ready (e : E) (pc : Z) : Prop := {
  ready_row : has_row e;
  ready_fresh : forall c, scratch c = true -> cell e c = 0;
  ready_regs : forall r, elem_ok (reg e r);
  ready_mem : forall a, in_width 32 (default 0 (mem (proc e) !! a));
  ready_step : 0 <= step e;
  ready_pc : curr_pc (proc e) = Binary pc;
  ready_next : next_pc (pc_idx (config env)) e = Some (Binary (pc + 1))
}.

Lemma cell_upd_rows l c (e : E) : has_row e ->
  cell (upd_cols (set_rows l) e) c = match last_update c l with Some v => to_integer (into_fe v) | None => cell e c end.
Proof. intros [Hr _]. unfold cell, upd_cols. cbn. rewrite row_col_set_rows by exact Hr. now destruct (last_update c l). Qed.

Lemma cell_upd_row d v c (e : E) : has_row e ->
  cell (upd_cols (set_row d v) e) c = if col_eqb d c then to_integer (into_fe v) else cell e c.
Proof. intros [Hr _]. unfold cell, upd_cols. cbn. rewrite row_col_set_row by exact Hr. now destruct (col_eqb d c). Qed.

Lemma ops_upd_ops n op m (e : E) : has_row e -> ops (upd_ops n op e) m = ops e m ++ (if machine_eqb n m then [op] else []).
Proof. intros [_ Hr]. unfold ops. cbn. rewrite ops_of_add_op by exact Hr. destruct (machine_eqb n m); [reflexivity|now rewrite app_nil_r]. Qed.

Lemma has_row_rows l (e : E) : has_row e -> has_row (upd_cols (set_rows l) e).
Proof. intros [Hr Ho]. split; cbn; [now rewrite set_rows_length|exact Ho]. Qed.
Lemma has_row_row c v (e : E) : has_row e -> has_row (upd_cols (set_row c v) e).
Proof. intros [Hr Ho]. split; cbn; [now rewrite set_row_length|exact Ho]. Qed.
Lemma has_row_ops m op (e : E) : has_row e -> has_row (upd_ops m op e).
Proof. intros [Hr Ho]. split; cbn; [exact Hr|now rewrite add_op_length]. Qed.
Lemma has_row_reg r v (e : E) : has_row e -> has_row (upd_reg r v e).
Proof. unfold upd_reg. now destruct (r =? 0). Qed.
Lemma has_row_pc l v (e : E) : has_row e -> has_row (upd_pc env l v e).
Proof. intros Hr. exact Hr. Qed.
Lemma has_row_mem k a f (e : E) : has_row e -> has_row (upd_mem k a f e).
Proof. intros Hr. exact Hr. Qed.

Lemma cell_upd_ops m op c (e : E) : cell (upd_ops m op e) c = cell e c.
Proof. reflexivity. Qed.
Lemma cell_upd_reg r v c (e : E) : cell (upd_reg r v e) c = cell e c.
Proof. unfold upd_reg. now destruct (r =? 0). Qed.
Lemma cell_upd_pc l v c (e : E) : cell (upd_pc env l v e) c = cell e c.
Proof. reflexivity. Qed.
Lemma cell_upd_mem k a f c (e : E) : cell (upd_mem k a f e) c = cell e c.
Proof. reflexivity. Qed.
Lemma ops_upd_cols f m (e : E) : ops (upd_cols f e) m = ops e m.
Proof. reflexivity. Qed.
Lemma ops_upd_reg r v m (e : E) : ops (upd_reg r v e) m = ops e m.
Proof. unfold upd_reg. now destruct (r =? 0). Qed.
Lemma ops_upd_pc l v m (e : E) : ops (upd_pc env l v e) m = ops e m.
Proof. reflexivity. Qed.
Lemma ops_upd_mem k a f m (e : E) : ops (upd_mem k a f e) m = ops e m.
Proof. reflexivity. Qed.
Lemma next_upd_cols i f (e : E) : next_pc i (upd_cols f e) = next_pc i e.
Proof. reflexivity. Qed.
Lemma next_upd_ops i m op (e : E) : next_pc i (upd_ops m op e) = next_pc i e.
Proof. reflexivity. Qed.
Lemma next_upd_reg i r v (e : E) : next_pc i (upd_reg r v e) = next_pc i e.
Proof. unfold upd_reg. now destruct (r =? 0). Qed.
Lemma next_upd_mem i k a f (e : E) : next_pc i (upd_mem k a f e) = next_pc i e.
Proof. reflexivity. Qed.
Lemma next_upd_pc l v (e : E) : (pc_idx (config env) < length (regs (proc e)))%nat -> next_pc (pc_idx (config env)) (upd_pc env l v e) = Some v.
Proof. intros Hl. unfold next_pc, upd_pc. cbn. now apply list_lookup_insert_eq. Qed.
Lemma step_upd_cols f (e : E) : step (upd_cols f e) = step e.
Proof. reflexivity. Qed.
Lemma step_upd_ops m op (e : E) : step (upd_ops m op e) = step e.
Proof. reflexivity. Qed.
Lemma step_upd_mem k a f (e : E) : step (upd_mem k a f e) = step e.
Proof. reflexivity. Qed.
Lemma step_upd_pc l v (e : E) : step (upd_pc env l v e) = step e.
Proof. reflexivity. Qed.
Lemma reg_last_upd_ops m op (e : E) : reg_last (proc (upd_ops m op e)) = reg_last (proc e).
Proof. reflexivity. Qed.
Lemma reg_last_upd_cols f (e : E) : reg_last (proc (upd_cols f e)) = reg_last (proc e).
Proof. reflexivity. Qed.
Lemma mem_upd_ops m op (e : E) : mem (proc (upd_ops m op e)) = mem (proc e).
Proof. reflexivity. Qed.
Lemma mem_upd_cols f (e : E) : mem (proc (upd_cols f e)) = mem (proc e).
Proof. reflexivity. Qed.
Lemma curr_upd_ops m op (e : E) : curr_pc (proc (upd_ops m op e)) = curr_pc (proc e).
Proof. reflexivity. Qed.
Lemma curr_upd_cols f (e : E) : curr_pc (proc (upd_cols f e)) = curr_pc (proc e).
Proof. reflexivity. Qed.
Lemma regs_upd_ops m op (e : E) : regs (proc (upd_ops m op e)) = regs (proc e).
Proof. reflexivity. Qed.
Lemma regs_upd_cols f (e : E) : regs (proc (upd_cols f e)) = regs (proc e).
Proof. reflexivity. Qed.
Lemma regs_upd_mem k a f (e : E) : regs (proc (upd_mem k a f e)) = regs (proc e).
Proof. reflexivity. Qed.
Lemma step_upd_reg r v (e : E) : step (upd_reg r v e) = step e.
Proof. unfold upd_reg. now destruct (r =? 0). Qed.
Lemma curr_upd_reg r v (e : E) : curr_pc (proc (upd_reg r v e)) = curr_pc (proc e).
Proof. unfold upd_reg. now destruct (r =? 0). Qed.
Lemma regs_upd_reg r v (e : E) : regs (proc (upd_reg r v e)) = regs (proc e).
Proof. unfold upd_reg. now destruct (r =? 0). Qed.
Lemma mem_upd_reg r v (e : E) : mem (proc (upd_reg r v e)) = mem (proc e).
Proof. unfold upd_reg. now destruct (r =? 0). Qed.

Lemma argz_Some (args : list (Elem T)) i a : args !! i = Some a -> argz args i = elem_int a.
Proof. unfold argz. now intros ->. Qed.

End Proofs.

Create HintDb rows.
#[export] Hint Resolve has_row_rows has_row_row has_row_ops has_row_reg has_row_pc has_row_mem ready_row : rows.
#[export] Hint Rewrite @cell_upd_ops @cell_upd_reg @cell_upd_pc @cell_upd_mem @ops_upd_cols @ops_upd_reg @ops_upd_pc @ops_upd_mem
  @next_upd_cols @next_upd_ops @next_upd_reg @next_upd_mem @step_upd_cols @step_upd_ops @step_upd_mem @step_upd_pc
  @reg_last_upd_ops @reg_last_upd_cols @mem_upd_ops @mem_upd_cols @curr_upd_ops @curr_upd_cols @regs_upd_ops @regs_upd_cols @regs_upd_mem
  @step_upd_reg @curr_upd_reg @regs_upd_reg @mem_upd_reg : rows.
#[export] Hint Rewrite @cell_upd_rows @cell_upd_row @ops_upd_ops using (eauto 20 with rows) : rows.
