(* ===== verification/RiscvInstr.v ===== *)
(** * Instructions satisfy their constraints

    Each instruction of the executor whose witness is generated fills the row as its declaration
    asks, and sends the operations of its links. The bootloader's store is the exception: it goes
    out as an ordinary store. *)

From stdpp Require Import base list option gmap strings.
From Stdlib Require Import ZArith Lia.
From S2P Require Import Prelude Goldilocks Field AffineExpression PanicMonad RiscvElem RiscvNames RiscvTrace.
From S2P Require Import RiscvPil RiscvExec RiscvDemo RiscvRows.

(** One step of the symbolic execution of an instruction. *)
Ltac xstep Hw :=
  lazymatch goal with
  | |- wp (mbind _ _) _ _ => apply wp_bind
  | |- wp (arg_u _ _) _ _ => apply wp_arg_u; intros ?a ?Ha ?Hr
  | |- wp (arg_bin _ _) _ _ => apply wp_arg_bin; intros ?a ?Ha
  | |- wp (arg _ _) _ _ => apply wp_arg; intros ?a ?Ha
  | |- wp (link_read _ _ _ _ _) _ _ => apply (wp_link_read _ Hw); intros ?id ?val ?Hval ?Hs
  | |- wp (link_write _ _ _ _ _ _) _ _ => apply (wp_link_write _ Hw); intros ?id ?Hs
  | |- wp (set_cols _ _) _ _ => apply (wp_set_cols _ Hw)
  | |- wp (set_col _ _ _) _ _ => apply (wp_set_col _ Hw)
  | |- wp (submachine_op _ _ _ _ _) _ _ => apply (wp_submachine_op _ Hw)
  | |- wp (instr_link_id _ _ _ _) _ _ => apply (wp_instr_link_id _ Hw); intros ?id
  | |- wp (set_mem _ _ _ _ _) _ _ => apply (wp_set_mem _ Hw)
  | |- wp (get_mem _ _ _ _) _ _ => apply (wp_get_mem _ Hw); intros ?mval ?Hmval
  | |- wp (step_plus _) _ _ => apply wp_step_plus; intros ?Hs
  | |- wp (pc_plus_one) _ _ => apply wp_pc_plus_one; intros ?u ?Hpc ?Hr ?Hr
  | |- wp (set_pc _ _) _ _ => apply wp_set_pc; intros ?u ?line ?Hu ?Hr ?Hline ?Hidx
  | |- wp (lift (elem_u _)) _ _ => apply wp_lift_u; intros ?u ?Hu ?Hr
  | |- wp (lift (elem_bin _)) _ _ => apply wp_lift_bin; intros ?b ?Hb
  | |- wp (lift (i64_checked _)) _ _ => apply wp_lift_i64; intros ?Hi
  | |- wp (lift _) _ _ => apply wp_lift; intros ?x ?Hx
  | |- wp (assertM _) _ _ => apply wp_assert; intros ?Has
  | |- wp (mret _) _ _ => apply wp_ret
  end.

Section Instructions.
Context {T W : Type} `{LL : LargeFieldLaws T} `{Display T}.
Variable env : Env T W.
Hypothesis Hw : mode (config env) = Witness.
Notation E := (Executor T W).
Notation "a ≡ b" := (eqm modulus a b) (at level 70, no associativity).

Definition row_ok (instr : Instruction) (args : list (Elem T)) (e : E) (pc : Z) (e' : E) : Prop :=
  exists pc', next_pc (pc_idx (config env)) e' = Some (Binary pc') /\ row_constraints (cell e') /\
    declared_constraints instr args (cell e') pc pc' /\ sends e e' (sent_links instr args (cell e') pc (step e)).

Variable args : list (Elem T).
Hypothesis Hargs : Forall elem_ok args.


(** Values of cells that an instruction sets. *)
Lemma u32_cell v : 0 <= v < 2 ^ 32 -> to_integer (into_fe (from_u32_as_fe (T:=T) v)) = v.
Proof. apply from_u32_elem. Qed.
Lemma into_fe_field (f : T) : into_fe (Field f) = f.
Proof. reflexivity. Qed.
Lemma bit_cell b : to_integer (into_fe (field_bit (T:=T) b)) = b2z b.
Proof. destruct b; cbn; [apply f_one_int|apply f_zero_int]. Qed.

Lemma wrap_split b : 0 <= b < 2 ^ 33 -> b mod 2 ^ 32 + b2z (0xffffffff <? b) * 2 ^ 32 = b.
Proof. intros Hb. unfold b2z. change (2 ^ 33) with 8589934592 in *. change (2 ^ 32) with 4294967296. destruct (Z.ltb_spec 4294967295 b); Z.div_mod_to_equations; lia. Qed.

Lemma b2z_bit b : b2z b = 0 \/ b2z b = 1.
Proof. destruct b; auto. Qed.

(** The expected operations of a link, argument by argument. *)
Lemma arg_int z : - 2 ^ 63 <= z < 2 ^ 63 -> to_integer (from_int (T:=T) z) ≡ z.
Proof. intros Hz. rewrite from_i64_spec by exact Hz. apply eqm_mod. Qed.
Lemma arg_u32 z : 0 <= z < 2 ^ 32 -> to_integer (from_u32 (T:=T) z) ≡ z.
Proof. intros Hz. rewrite from_u32_spec by exact Hz. reflexivity. Qed.

(** Names the cells and the operations of the final state. *)
Ltac xfinal :=
  lazymatch goal with
  | |- row_constraints (cell ?S) /\ _ =>
    let f := fresh "f" in let g := fresh "g" in let Hc := fresh "Hc" in let Hops := fresh "Hops" in let s := fresh "s" in
    evar (f : KnownWitnessCol -> Z); evar (g : MachineInstance -> list (SubmachineOp T));
    assert (Hc : forall c, cell S c = f c) by (intros ?; autorewrite with rows; unfold f; reflexivity);
    assert (Hops : forall m, ops S m = g m) by (intros ?; autorewrite with rows; unfold g; reflexivity);
    unfold f in Hc; unfold g in Hops; clear f g; set (s := S) in *; clearbody s
  end.


Lemma eqm_close a b : - 2 ^ 63 <= a < 2 ^ 63 -> - 2 ^ 34 <= b < 2 ^ 34 -> b ≡ a -> b = a.
Proof.
  intros Ha Hb [k Hk]. pose proof (modulus_large (T:=T)). assert (- 1 < k) by nia. assert (k < 1) by nia. assert (k = 0) as -> by lia. lia.
Qed.

Lemma elem_zero_iff v : elem_ok v -> elem_is_zero v = true <-> to_integer (into_fe v) = 0.
Proof.
  intros Hv. apply elem_is_zero_spec; [exact Hv|]. pose proof (modulus_large (T:=T)). destruct v as [b|f]; cbn in *; [lia|]. range f. lia.
Qed.

Lemma elem_nonzero_inv v inv : elem_ok v -> elem_is_zero v = false -> f_div f_one (into_fe v) = Some inv -> to_integer (into_fe v) * to_integer inv ≡ 1.
Proof.
  intros Hv Hz Hi. assert (Hn : to_integer (into_fe v) <> 0) by (intros Hn; apply elem_zero_iff in Hn; [congruence|exact Hv]).
  destruct (f_div_spec f_one (into_fe v) Hn) as (q & Hq & Hm). rewrite Hi in Hq. injection Hq as <-. rewrite f_one_int in Hm. rewrite Z.mul_comm, <- Hm. symmetry. apply eqm_mod.
Qed.

(** The operands are well formed. *)
Ltac oks He :=
  repeat match goal with
  | Hv : ?v = reg_value (reg_last (proc _)) _ |- _ => lazymatch goal with _ : elem_ok v |- _ => fail | _ => assert (elem_ok v) by (rewrite Hv; apply (ready_regs _ _ _ He)) end
  | Ha : args !! _ = Some ?a |- _ => lazymatch goal with _ : elem_ok a |- _ => fail | _ => assert (elem_ok a) by (exact (proj1 (Forall_lookup _ _) Hargs _ _ Ha)) end
  | Hx : elem_add ?x ?y = Some ?r, _ : elem_ok ?x, _ : elem_ok ?y |- _ =>
    lazymatch goal with _ : elem_ok r |- _ => fail | _ => destruct (elem_add_spec x y r ltac:(assumption) ltac:(assumption) Hx) as [?Hok ?Heq] end
  | Hx : elem_sub ?x ?y = Some ?r, _ : elem_ok ?x, _ : elem_ok ?y |- _ =>
    lazymatch goal with _ : elem_ok r |- _ => fail | _ => destruct (elem_sub_spec x y r ltac:(assumption) ltac:(assumption) Hx) as [?Hok ?Heq] end
  end.

Ltac req Hreq :=
  unfold requires in Hreq; repeat (erewrite argz_Some in Hreq by eassumption); unfold reg in Hreq; cbn [elem_int] in Hreq;
  repeat match goal with Hv : ?v = reg_value (reg_last (proc _)) _ |- _ => progress rewrite <- Hv in Hreq end; cbn [elem_int] in Hreq.

(** Runs the instruction and collects what is known of its operands. *)
Ltac bins :=
  repeat match goal with Hb : ?v = Binary _, Hv : ?v = reg_value _ _ |- _ => is_var v; revert Hv; subst v; intros Hv end.
Ltac xrun He := repeat xstep Hw; autorewrite with rows in *; pose proof (ready_step _ _ _ He); bins; oks He; cbn [elem_int elem_ok] in *.
Ltac rng := first [lia | match goal with |- context [b2z ?b] => destruct (b2z_bit b); lia end | unfold as_width; apply Z.mod_pos_bound; lia | unfold as_width; match goal with |- context [?x mod ?m] => pose proof (Z.mod_pos_bound x m); lia end].

Ltac bytes v :=
  let Hd := fresh "Hd" in
  destruct (decompose_lower32_spec v) as (?b1 & ?b2 & ?b3 & ?b4 & ?sg & Hd & ?R1 & ?R2 & ?R3 & ?R4 & ?Hsum & ?Hsg);
  unfold X_bytes, Y_bytes, REM_bytes, byte_cols; rewrite ?Hd; cbn [app].

Ltac cells He :=
  repeat match goal with Hc : forall c, cell ?s c = _ |- context [cell ?s ?c] => rewrite (Hc c) end;
  cbn [last_update col_eqb col_idx Nat.eqb fst snd];
  rewrite ?(ready_fresh _ _ _ He) by reflexivity;
  rewrite ?u32_cell by rng;
  rewrite ?bit_cell;
  rewrite ?into_fe_field, ?f_one_int, ?f_zero_int;
  repeat (erewrite argz_Some by eassumption); cbn [elem_int].

(** The constraints of all rows. *)
Ltac xbit He := cells He; first [apply b2z_bit | lia].
Ltac xrow He :=
  unfold row_constraints, byte_columns;
  split; [repeat (apply List.Forall_cons; [cells He; lia|]); apply List.Forall_nil
         |split; [cells He; lia|split; [xbit He|split; [xbit He|cells He; try reflexivity]]]].

(** The operations, argument by argument. *)
Ltac xarg He :=
  cells He; rewrite ?Z.add_0_r;
  lazymatch goal with
  | |- to_integer (from_int _) ≡ _ => rewrite arg_int by (unfold as_width; rng)
  | |- to_integer (from_u32 _) ≡ _ => rewrite arg_u32 by rng
  | |- _ => idtac
  end; try reflexivity;
  repeat match goal with |- context [to_integer (into_fe (Binary ?z))] => rewrite (into_fe_eqm (Binary z)) by (cbn [elem_ok]; unfold as_width; rng); cbn [elem_int] end;
  try reflexivity.

Ltac xsends He :=
  let m := fresh "m" in intros m; destruct m; cbn [sent_links declared_links instr_links runtime_links mul_instruction mstore_bootloader_links map with_id];
  (eexists; split;
   [match goal with Hops : forall m, ops ?s m = _ |- ops ?s ?c = _ => rewrite (Hops c) end;
    cbn [machine_eqb machine_idx Nat.eqb]; rewrite <- ?app_assoc; cbn [app]; reflexivity|]);
  repeat (apply List.Forall2_cons; [unfold op_matches, pad, link_load, link_store; cbn [lookup_args app length Nat.sub repeat]; repeat (apply List.Forall2_cons; [|]); [..|apply List.Forall2_nil]; xarg He|]);
  try apply List.Forall2_nil.

(** The body of the instruction: integers for the operands, then arithmetic. *)
Ltac xcon He := cbn [declared_constraints]; unfold instr_constraints, mstore_bootloader_constraint, invert_gl_instruction_body, store_constraint, bytes4; repeat lazymatch goal with |- _ /\ _ => split end; cells He; rewrite ?into_fe_eqm by assumption; cbn [elem_int]; try reflexivity.

Ltac xnext He := eexists; split; [autorewrite with rows; apply (ready_next _ _ _ He)|]; xfinal; (split; [xrow He|split; [xcon He|xsends He]]).

Lemma row_add_wrap e pc : ready env e pc -> requires I_add_wrap args (fun i => elem_int (reg e (argz args i))) ->
  wp (exec_add_wrap env args) (fun _ e' => row_ok I_add_wrap args e pc e') e.
Proof.
  intros He Hreq. unfold exec_add_wrap. xrun He. req Hreq. subst x0. cbn [elem_int as_i64_from_lower_bytes] in *. b2p. bytes b.
  assert (Hb : elem_int val + elem_int val0 + elem_int a1 = b).
  { change (2 ≪ 33) with (2 ^ 34) in *. pose proof (modulus_large (T:=T)). apply (eqm_small modulus); [lia|lia|]. now rewrite Heq0, Heq. }
  rewrite Hb in Hreq. xnext He; unfold as_width; rewrite ?Hsum, ?Hb, ?wrap_split by exact Hreq; reflexivity.
Qed.

Lemma row_sub_wrap e pc : ready env e pc -> requires I_sub_wrap_with_offset args (fun i => elem_int (reg e (argz args i))) ->
  wp (exec_sub_wrap_with_offset env args) (fun _ e' => row_ok I_sub_wrap_with_offset args e pc e') e.
Proof.
  intros He Hreq. unfold exec_sub_wrap_with_offset. xrun He. req Hreq. subst x0. cbn [elem_int] in *. bytes (b + 0x100000000).
  assert (Hb : elem_int val - elem_int val0 + elem_int a1 = b).
  { cbn [elem_ok] in *. apply eqm_close; [lia|lia|]. now rewrite Heq0, Heq. }
  rewrite Hb in Hreq. xnext He; unfold as_width; rewrite ?Hsum, ?Hb, ?wrap_split by lia; reflexivity.
Qed.

Lemma row_affine e pc : ready env e pc -> wp (exec_affine env args) (fun _ e' => row_ok I_affine args e pc e') e.
Proof.
  intros He. unfold exec_affine. xrun He. destruct (elem_mul_spec val a1) as [Hm1 Hm2]; [assumption..|]. oks He.
  xnext He. now rewrite !into_fe_eqm, Heq, Hm2 by assumption.
Qed.

Lemma row_load_label e pc : ready env e pc -> wp (exec_load_label env args) (fun _ e' => row_ok I_load_label args e pc e') e.
Proof. intros He. unfold exec_load_label. xrun He. xnext He. Qed.

Lemma row_mstore instr e pc : instr = I_mstore \/ instr = I_mstore_bootloader ->
  ready env e pc -> requires instr args (fun i => elem_int (reg e (argz args i))) ->
  wp (exec_mstore env instr args) (fun _ e' => row_ok instr args e pc e') e.
Proof.
  intros Hin He Hreq. unfold exec_mstore. xrun He. set (addr := b - b0 + a1) in *. bytes (as_width 32 addr). b2p.
  assert (Hadd : as_width 32 addr mod 2 ^ 32 = addr mod 2 ^ 32) by (unfold as_width; apply Z.mod_mod; lia). rewrite Hadd in Hsum.
  destruct Hin as [-> | ->]; req Hreq; fold addr in Hreq; xnext He; fold addr; unfold bytes4; cells He; rewrite ?Hsum; change (2 ^ 32 - 1) with 0xffffffff; rewrite ?wrap_split by exact Hreq; reflexivity.
Qed.


Lemma land_one x : Z.land x 1 = x mod 2.
Proof. apply (land_ones_mod x 1). lia. Qed.

(** The high bits of a word, and a single bit. *)
Lemma land_high u k : 0 <= k <= 32 -> 0 <= u < 2 ^ 32 -> Z.land u (2 ^ 32 - 2 ^ k) = u / 2 ^ k * 2 ^ k.
Proof.
  intros Hk Hu. assert (Hm : 2 ^ 32 - 2 ^ k = Z.ldiff (Z.ones 32) (Z.ones k)).
  { rewrite Z.ldiff_ones_r, Z.shiftl_mul_pow2, Z.shiftr_div_pow2, Z.ones_div_pow2, !Z.ones_equiv, <- !Z.sub_1_r, Z.mul_sub_distr_r, <- Z.pow_add_r, Z.sub_add by lia. lia. }
  transitivity (Z.ldiff u (Z.ones k)).
  - rewrite <- (Z.mod_small u (2 ^ 32)) at 2 by exact Hu. rewrite <- Z.land_ones by lia. apply Z.bits_inj'. intros n Hn.
    rewrite Hm, Z.ldiff_spec, !Z.land_spec, <- andb_assoc. f_equal. apply Z.ldiff_spec.
  - rewrite Z.ldiff_ones_r, Z.shiftl_mul_pow2, Z.shiftr_div_pow2 by lia. reflexivity.
Qed.

Lemma land_pow2 x k : 0 <= k -> Z.land x (2 ^ k) = x / 2 ^ k mod 2 * 2 ^ k.
Proof.
  intros Hk. rewrite <- land_one, <- Z.shiftr_div_pow2, <- Z.shiftl_mul_pow2, Z.shiftl_land, Z.shiftl_1_l by exact Hk.
  apply Z.bits_inj'. intros n Hn. rewrite !Z.land_spec, Z.pow2_bits_eqb by exact Hk. destruct (Z.eqb_spec k n) as [->|]; [|now rewrite !andb_false_r].
  now rewrite !andb_true_r, Z.shiftl_spec, Z.sub_diag, Z.shiftr_spec by lia.
Qed.

(** An aligned address from its bytes. *)
Lemma aligned_bytes addr b1 b2 b3 b4 : 0 <= addr < 2 ^ 33 -> 0 <= b1 < 256 -> b1 + b2 * 0x100 + b3 * 0x10000 + b4 * 0x1000000 = addr mod 2 ^ 32 ->
  Z.land (addr mod 2 ^ 32) 0xfffffffc = b4 * 0x1000000 + b3 * 0x10000 + b2 * 0x100 + b1 / 4 * 4 /\
  addr = Z.land (Z.shiftr (as_width 64 addr) 32) 1 * 2 ^ 32 + b4 * 0x1000000 + b3 * 0x10000 + b2 * 0x100 + b1 / 4 * 4 + Z.rem addr 4 /\
  0 <= Z.land (Z.shiftr (as_width 64 addr) 32) 1 < 2.
Proof.
  intros Ha Hb1 Hs. change 0xfffffffc with (2 ^ 32 - 2 ^ 2). rewrite land_high by (try lia; apply Z.mod_pos_bound; lia). change (2 ^ 2) with 4. unfold as_width. rewrite (Z.mod_small addr (2 ^ 64)) by lia.
  rewrite land_one, Z.shiftr_div_pow2, Z.rem_mod_nonneg by lia. change (2 ^ 32) with 4294967296 in *. change (2 ^ 33) with 8589934592 in *.
  split; [|split]; Z.div_mod_to_equations; lia.
Qed.

Lemma row_mload e pc : ready env e pc -> requires I_mload args (fun i => elem_int (reg e (argz args i))) ->
  wp (exec_mload env args) (fun _ e' => row_ok I_mload args e pc e') e.
Proof.
  intros He Hreq. unfold exec_mload. xrun He. bytes (as_i64_from_lower_bytes x). repeat xstep Hw. req Hreq.
  rewrite Ha0 in Ha3. injection Ha3 as <-. cbn [elem_add] in Hx. rewrite (proj2 (i64_checked_Some _ _) (conj eq_refl Hi)) in Hx. injection Hx as <-.
  cbn [as_i64_from_lower_bytes] in *. set (addr := b + a0) in *. change (0 <= addr < 2 ^ 33) in Hreq. destruct (aligned_bytes addr b1 b2 b3 b4 Hreq R1 Hsum) as (Hal & Hsplit & Hbit).
  assert (Hrem : 0 <= Z.rem addr 4 < 4) by (rewrite Z.rem_mod_nonneg by lia; apply Z.mod_pos_bound; lia).
  assert (0 <= b1 / 4 < 64) by (split; [apply Z.div_pos; lia|apply Z.div_lt_upper_bound; lia]).
  pose proof (ready_mem _ _ _ He (Z.land (as_width 32 addr) 4294967292)) as Hmem. rewrite <- Hmval in Hmem.
  assert (Hadr : 0 <= Z.land (addr mod 2 ^ 32) 4294967292 < 2 ^ 32) by (rewrite Hal; lia).
  unfold as_width, in_width in *. rewrite Hal in Hadr |- *. rewrite (Z.mod_small (Z.rem addr 4) (2 ^ 32)) by lia.
  xnext He; fold addr; try lia. rewrite Hsplit at 1. reflexivity.
Qed.

(** The program counter of the row, and a target that was set. *)
Ltac xpc He := repeat match goal with Hp : curr_pc (proc _) = Binary ?u |- _ => rewrite (ready_pc _ _ _ He) in Hp; injection Hp as <- end.
Ltac xjump He :=
  repeat match goal with Hu : ?v = Binary _ |- _ => is_var v; subst v end; eexists; split; [autorewrite with rows; rewrite next_upd_pc by (autorewrite with rows; assumption); reflexivity|]; xfinal; (split; [xrow He|split; [xcon He|xsends He]]).

Lemma wp_get_fixed_here col (Q : Elem T -> E -> Prop) e : (forall v, Q (Field v) e) -> wp (get_fixed_here env col) Q e.
Proof.
  intros HQ. unfold get_fixed_here. rewrite Hw. cbn [witnessing]. apply wp_bind, wp_on_part, wp_gets. destruct e as [p s w].
  apply wp_bind, wp_lift. intros u _. apply wp_bind. unfold get_known_fixed. rewrite Hw. cbn [witnessing]. apply wp_bind.
  unfold get_fixed. destruct (List.find _ _) as [[n [c|]]|]; cbn.
  - apply wp_bind, wp_lift. intros ? [= <-]. apply wp_ret, wp_bind, wp_lift. intros ? [= <-]. apply wp_lift. intros v _. apply wp_ret, HQ.
  - apply wp_bind, wp_lift. discriminate.
  - apply wp_ret, wp_bind, wp_lift. discriminate.
Qed.

Lemma row_set_reg e pc : ready env e pc -> wp (exec_set_reg env args) (fun _ e' => row_ok I_set_reg args e pc e') e.
Proof.
  intros He. unfold exec_set_reg. repeat xstep Hw. apply wp_get_fixed_here. intros v. apply wp_bind.
  destruct (elem_is_zero (Field v)); xrun He; xnext He; now apply into_fe_eqm.
Qed.

Lemma row_jump e pc : ready env e pc -> wp (exec_jump env args) (fun _ e' => row_ok I_jump args e pc e') e.
Proof. intros He. unfold exec_jump. xrun He. xpc He. xjump He. Qed.

Lemma row_jump_dyn e pc : ready env e pc -> wp (exec_jump_dyn env args) (fun _ e' => row_ok I_jump_dyn args e pc e') e.
Proof. intros He. unfold exec_jump_dyn. xrun He. xpc He. xjump He. Qed.



Lemma elem_int_inv v inv : elem_ok v -> elem_is_zero v = false -> f_div f_one (into_fe v) = Some inv -> 1 - elem_int v * to_integer inv ≡ 0.
Proof. intros Hv Hz Hi. rewrite <- (into_fe_eqm v Hv). rewrite (elem_nonzero_inv v inv Hv Hz Hi). reflexivity. Qed.

(** What the zero test leaves to prove. *)
Ltac xzero :=
  match goal with
  | |- 1 * to_integer (into_fe ?x) ≡ 0 => rewrite (proj1 (elem_zero_iff x ltac:(assumption)) ltac:(assumption)); reflexivity
  | |- 0 ≡ 1 - elem_int _ * to_integer _ => symmetry; apply elem_int_inv; assumption
  | Heq : ?a ≡ ?x + _ |- ?a ≡ _ => rewrite Heq; match goal with Heq' : x ≡ _ |- _ => rewrite Heq' end; reflexivity
  | Heq : ?a ≡ ?x - _ |- ?a ≡ _ => rewrite Heq; match goal with Heq' : x ≡ _ |- _ => rewrite Heq' end; reflexivity
  | |- _ => assumption
  | |- ?a ≡ ?b => replace b with a by lia; reflexivity
  end.

(** The continuation of a zero test for the two outcomes. *)
Ltac xz := apply (wp_set_is_zero_cols _ Hw); [intros _|congruence].
Ltac xnz := apply (wp_set_is_zero_cols _ Hw); [congruence|intros ?inv _ ?Hinv].

Lemma row_branch_nonzero e pc : ready env e pc ->
  wp (exec_branch_if_diff_nonzero env args) (fun _ e' => row_ok I_branch_if_diff_nonzero args e pc e') e.
Proof.
  intros He. unfold exec_branch_if_diff_nonzero. repeat xstep Hw. destruct (elem_is_zero x) eqn:Hz; cbn [negb whenM]; repeat xstep Hw.
  - xz. xrun He. xnext He; xzero.
  - xnz. xrun He. xjump He; xzero.
Qed.

Lemma row_branch_equal e pc : ready env e pc ->
  wp (exec_branch_if_diff_equal env args) (fun _ e' => row_ok I_branch_if_diff_equal args e pc e') e.
Proof.
  intros He. unfold exec_branch_if_diff_equal. repeat xstep Hw. destruct (elem_is_zero x0) eqn:Hz; cbn [negb whenM]; repeat xstep Hw.
  - xz. xrun He. xjump He; xzero.
  - xnz. xrun He. xnext He; xzero.
Qed.

Lemma wp_skip_target cond (Q : Z -> E -> Prop) e :
  (forall u c, curr_pc (proc e) = Binary u -> cond = Binary c -> Q (u + c + 1) e) -> wp (skip_target cond) Q e.
Proof.
  intros HQ. unfold skip_target. apply wp_bind, wp_on_part, wp_gets. destruct e as [p s w]. cbn [put_proc proc step world] in *.
  apply wp_bind, wp_lift. intros u Hu. apply wp_bind, wp_lift. intros c Hc. apply wp_bind, wp_lift. intros x Hx. apply wp_lift. intros y Hy.
  unfold i32_try_from in *. destruct (_ && _) in Hx; [|discriminate]. destruct (_ && _) in Hy; [|discriminate]. injection Hx as <-. injection Hy as <-.
  unfold elem_s, i32_try_from in *. destruct (curr_pc p) as [b|] eqn:Hp; [|discriminate]. destruct cond as [b'|]; [|discriminate]. cbn in Hu, Hc.
  destruct (_ && _) in Hu; [|discriminate]. destruct (_ && _) in Hc; [|discriminate]. injection Hu as <-. injection Hc as <-. now apply HQ.
Qed.

Lemma row_skip_if_equal e pc : ready env e pc ->
  wp (exec_skip_if_equal env args) (fun _ e' => row_ok I_skip_if_equal args e pc e') e.
Proof.
  intros He. unfold exec_skip_if_equal. repeat xstep Hw. destruct (elem_is_zero x0) eqn:Hz; cbn [negb whenM]; repeat xstep Hw.
  - apply wp_skip_target. intros t c Ht ->. repeat xstep Hw. xz. xrun He. xpc He. injection Hu as <-. xjump He; xzero.
  - xnz. xrun He. xnext He; xzero.
Qed.


(** The comparison value, shifted to be non-negative. *)
Lemma shifted_value b x : - 2 ^ 32 < b < 2 ^ 32 -> elem_add (T:=T) (Binary b) (from_u32_as_fe (2 ^ 32 - 1)) = Some x ->
  as_i64_from_lower_bytes x = b + (2 ^ 32 - 1).
Proof.
  intros Hb Hx. cbn [elem_add from_u32_as_fe] in Hx. injection Hx as <-. pose proof (modulus_large (T:=T)).
  assert (Hi : to_integer (f_add (from_int b) (from_u32 (T:=T) (2 ^ 32 - 1))) = b + (2 ^ 32 - 1)).
  { apply (eqm_small modulus); [apply to_integer_range|lia|]. rewrite f_add_eqm, arg_int, arg_u32 by lia. reflexivity. }
  rewrite lower_bytes_small by lia. exact Hi.
Qed.

Lemma shifted_split b : - 2 ^ 32 < b < 2 ^ 32 -> (b + (2 ^ 32 - 1)) mod 2 ^ 32 + b2z (0 <? b) * 2 ^ 32 = b + 2 ^ 32 - 1.
Proof.
  intros Hb. replace (b + 2 ^ 32 - 1) with (b + (2 ^ 32 - 1)) by lia. rewrite <- (wrap_split (b + (2 ^ 32 - 1))) at 2 by lia. do 2 f_equal. destruct (Z.ltb_spec 0 b), (Z.ltb_spec 0xffffffff (b + (2 ^ 32 - 1))); try reflexivity; lia.
Qed.

Lemma row_is_diff_greater_than e pc : ready env e pc -> requires I_is_diff_greater_than args (fun i => elem_int (reg e (argz args i))) ->
  wp (exec_is_diff_greater_than env args) (fun _ e' => row_ok I_is_diff_greater_than args e pc e') e.
Proof.
  intros He Hreq. unfold exec_is_diff_greater_than. xrun He. req Hreq. subst x0. cbn [elem_int elem_ok] in *.
  assert (Hb : elem_int val - elem_int val0 - elem_int a1 = b) by (cbn [elem_ok] in *; apply eqm_close; [lia|lia|]; now rewrite Heq0, Heq).
  rewrite Hb in Hreq. rewrite (shifted_value b _ Hreq Hx1). bytes (b + (2 ^ 32 - 1)).
  xnext He. rewrite Hsum, shifted_split, Hb by exact Hreq. reflexivity.
Qed.

Lemma row_branch_greater_than e pc : ready env e pc -> requires I_branch_if_diff_greater_than args (fun i => elem_int (reg e (argz args i))) ->
  wp (exec_branch_if_diff_greater_than env args) (fun _ e' => row_ok I_branch_if_diff_greater_than args e pc e') e.
Proof.
  intros He Hreq. unfold exec_branch_if_diff_greater_than. repeat xstep Hw. destruct (0 <? b) eqn:Hlt; cbn [whenM]; xrun He; req Hreq; subst x0; cbn [elem_int elem_ok] in *;
    (assert (Hb : elem_int val - elem_int val0 - elem_int a1 = b) by (cbn [elem_ok] in *; apply eqm_close; [lia|lia|]; now rewrite Heq0, Heq));
    rewrite Hb in Hreq; rewrite (shifted_value b _ Hreq Hx1); bytes (b + (2 ^ 32 - 1)).
  all: pose proof (shifted_split b Hreq) as Hsp; rewrite Hlt in Hsp.
  - xjump He; [rewrite Hsum, Hb, <- Hsp|]; cbn [b2z]; xzero.
  - xnext He; [rewrite Hsum, Hb, <- Hsp|]; cbn [b2z]; xzero.
Qed.

Lemma row_is_equal_zero e pc : ready env e pc -> wp (exec_is_equal_zero env args) (fun _ e' => row_ok I_is_equal_zero args e pc e') e.
Proof.
  intros He. unfold exec_is_equal_zero. repeat xstep Hw. destruct (elem_is_zero val) eqn:Hz; [xz|xnz]; xrun He; xnext He; xzero.
Qed.

Lemma row_is_not_equal e pc : ready env e pc -> wp (exec_is_not_equal env args) (fun _ e' => row_ok I_is_not_equal args e pc e') e.
Proof.
  intros He. unfold exec_is_not_equal. repeat xstep Hw. destruct (b - b0 =? 0) eqn:Hz.
  - apply (wp_set_is_zero_cols _ Hw); cbn [elem_is_zero]; [intros _|congruence]. xrun He; xnext He; [|xzero].
    rewrite into_fe_eqm by exact Hi. cbn [elem_int]. b2p. rewrite Hz. reflexivity.
  - apply (wp_set_is_zero_cols _ Hw); cbn [elem_is_zero]; [congruence|intros inv _ Hinv]. xrun He; xnext He.
    symmetry. now apply (elem_int_inv (Binary (b - b0)) inv Hi).
Qed.

Lemma lower_bytes_u32 v : 0 <= v < 2 ^ 32 -> as_i64_from_lower_bytes (from_u32_as_fe (T:=T) v) = v.
Proof. intros Hv. unfold from_u32_as_fe. rewrite lower_bytes_small; rewrite from_u32_spec by exact Hv; lia. Qed.

Lemma row_wrap16 e pc : ready env e pc -> requires I_wrap16 args (fun i => elem_int (reg e (argz args i))) ->
  wp (exec_wrap16 env args) (fun _ e' => row_ok I_wrap16 args e pc e') e.
Proof.
  intros He Hreq. unfold exec_wrap16. xrun He. req Hreq. set (v := b * a0) in *. 
  assert (Hw32 : 0 <= as_width 32 v < 2 ^ 32) by (apply Z.mod_pos_bound; lia).
  destruct (decompose_lower32_spec (Z.shiftr v 32)) as (c1 & c2 & c3 & c4 & sg' & Hd' & Q1 & Q2 & Q3 & Q4 & Hsum' & _). rewrite Hd'.
  repeat xstep Hw. rewrite lower_bytes_u32 by exact Hw32. bytes (as_width 32 v).
  rewrite Z.shiftr_div_pow2 in Hsum' by lia. unfold as_width in *. rewrite Z.mod_mod in Hsum by lia.
  change (2 ^ 48) with 281474976710656 in *. change (2 ^ 40) with 1099511627776 in *. change (2 ^ 32) with 4294967296 in *.
  assert (Hv : v = c1 * 4294967296 + c2 * 1099511627776 + v mod 4294967296) by (clear - Hreq Hsum' Q1 Q2 Q3 Q4; Z.div_mod_to_equations; lia).
  xnext He; fold v; [rewrite Hv at 1|rewrite Hsum]; reflexivity.
Qed.


Lemma land_7bit x : Z.land x 0x7f = x mod 128.
Proof. apply (land_ones_mod x 7). lia. Qed.

(** The sign of a byte and the extension. *)
Lemma sign_byte b : 0 <= b < 256 -> b mod 128 + b2z (as_i8 b <? 0) * 128 = b /\ as_width 32 (as_i8 b) = b mod 128 + b2z (as_i8 b <? 0) * 0xffffff80.
Proof. intros Hb. unfold as_i8, as_width, b2z. change (2 ^ 32) with 4294967296. destruct (Z.ltb_spec ((b + 128) mod 256 - 128) 0); Z.div_mod_to_equations; lia. Qed.

Lemma as_i8_mod u : as_i8 u = as_i8 (u mod 256).
Proof. unfold as_i8. rewrite Z.add_mod_idemp_l by lia. reflexivity. Qed.

Lemma row_sign_extend_byte e pc : ready env e pc -> wp (exec_sign_extend_byte env args) (fun _ e' => row_ok I_sign_extend_byte args e pc e') e.
Proof.
  intros He. unfold exec_sign_extend_byte. repeat xstep Hw. bins. cbn [as_i64_from_lower_bytes]. bytes u. repeat xstep Hw. xrun He.
  assert (Hub : u = b1 + b2 * 0x100 + b3 * 0x10000 + b4 * 0x1000000) by (rewrite Hsum, Z.mod_small; lia).
  rewrite land_7bit, as_i8_mod. replace (u mod 256) with b1 by (Z.div_mod_to_equations; lia). destruct (sign_byte b1 R1) as [Hb1 Hext].
  assert (0 <= b1 mod 128 < 128) by (apply Z.mod_pos_bound; lia).
  assert (Hl : elem_ok (Binary (T:=T) u)) by (cbn; lia).
  xnext He; [rewrite Hub, <- Hb1 at 1|rewrite Hext]; xzero.
Qed.

(** The sign of a half word, its extension, and the sign of a word. *)
Definition sign_half (u : Z) : bool := negb (Z.land u 0x8000 =? 0).
Lemma sign_half_spec u : 0 <= u < 2 ^ 32 ->
  u mod 2 ^ 15 + b2z (sign_half u) * 2 ^ 15 = u mod 2 ^ 16 /\ (if sign_half u then Z.lor u 0xffff0000 else Z.land u 0xffff) = u mod 2 ^ 15 + b2z (sign_half u) * 0xffff8000.
Proof.
  intros Hu. unfold sign_half. pose proof (Z.add_lor_land u 0xffff0000) as Hor. change 0xffff0000 with (2 ^ 32 - 2 ^ 16) in *. rewrite land_high in Hor by lia.
  change 0x8000 with (2 ^ 15). rewrite land_pow2 by lia. change 0xffff with (2 ^ 16 - 1). rewrite land_ones_mod by lia.
  change (2 ^ 15) with 32768. change (2 ^ 16) with 65536 in *. change (2 ^ 32) with 4294967296 in *.
  destruct (Z.eqb_spec (u / 32768 mod 2 * 32768) 0); cbn [negb b2z]; Z.div_mod_to_equations; lia.
Qed.

Lemma row_sign_extend_16_bits e pc : ready env e pc -> wp (exec_sign_extend_16_bits env args) (fun _ e' => row_ok I_sign_extend_16_bits args e pc e') e.
Proof.
  intros He. unfold exec_sign_extend_16_bits. repeat xstep Hw. bins. cbn [as_i64_from_lower_bytes]. bytes u. repeat xstep Hw. xrun He.
  assert (Hub : u = b1 + b2 * 0x100 + b3 * 0x10000 + b4 * 0x1000000) by (rewrite Hsum, Z.mod_small; lia). fold (sign_half u).
  destruct (sign_half_spec u ltac:(lia)) as [Hb Hext]. rewrite Hext, land_7bit. change 0x7fff with (2 ^ 15 - 1). rewrite land_ones_mod by lia.
  change (2 ^ 15) with 32768 in *. change (2 ^ 16) with 65536 in *.
  assert (Hy : u mod 32768 = b1 + b2 mod 128 * 0x100) by (Z.div_mod_to_equations; lia).
  assert (0 <= b2 mod 128 < 128) by (apply Z.mod_pos_bound; lia).
  assert (0 <= u mod 32768 < 32768) by (apply Z.mod_pos_bound; lia).
  assert (Hu16 : u mod 65536 = b1 + b2 * 0x100) by (Z.div_mod_to_equations; lia). clear Hext.
  xnext He; xzero.
Qed.

Lemma sign_bit_byte b : 0 <= b < 256 -> b mod 128 + b2z (negb (Z.land b 0x80 =? 0)) * 128 = b.
Proof. intros Hb. change 0x80 with (2 ^ 7). rewrite land_pow2 by lia. change (2 ^ 7) with 128. destruct (Z.eqb_spec (b / 128 mod 2 * 128) 0); cbn [negb b2z]; Z.div_mod_to_equations; lia. Qed.

Lemma row_to_signed e pc : ready env e pc -> wp (exec_to_signed env args) (fun _ e' => row_ok I_to_signed args e pc e') e.
Proof.
  intros He. unfold exec_to_signed. repeat xstep Hw. bins. bytes u. repeat xstep Hw. xrun He.
  assert (Hub : u = b1 + b2 * 0x100 + b3 * 0x10000 + b4 * 0x1000000) by (rewrite Hsum, Z.mod_small; lia).
  pose proof (sign_bit_byte b4 R4) as Hb4. rewrite land_7bit. set (sb := negb (Z.land b4 0x80 =? 0)) in *. clearbody sb.
  assert (0 <= b4 mod 128 < 128) by (apply Z.mod_pos_bound; lia). unfold as_i32. change (2 ^ 31) with 2147483648. change (2 ^ 32) with 4294967296 in *.
  set (r := (u + 2147483648) mod 4294967296 - 2147483648).
  assert (Hrr : r = u - b2z sb * 4294967296) by (subst r; destruct sb; cbn [b2z] in *; Z.div_mod_to_equations; lia).
  assert (- 2147483648 <= r < 2147483648) by (subst r; Z.div_mod_to_equations; lia). clearbody r.
  xnext He; [xzero|]. unfold from_i32_as_fe. rewrite into_fe_field, (into_fe_eqm (Binary u)), arg_int by (cbn [elem_ok]; lia). cbn [elem_int]. xzero.
Qed.

Lemma arg_u64 z : 0 <= z < 2 ^ 64 -> to_integer (from_u64 (T:=T) z) ≡ z.
Proof. intros Hz. rewrite from_u64_spec by exact Hz. apply eqm_mod. Qed.

Lemma row_mul e pc : ready env e pc -> wp (exec_mul env args) (fun _ e' => row_ok I_mul args e pc e') e.
Proof.
  intros He. unfold exec_mul. xrun He. unfold checked_mul in Hx. destruct (Z.ltb_spec (u * u0) (2 ^ 64)) as [Hlt|]; [|discriminate]. injection Hx as <-.
  xnext He. apply arg_u64. nia.
Qed.

Lemma row_split_gl e pc : ready env e pc -> wp (exec_split_gl env args) (fun _ e' => row_ok I_split_gl args e pc e') e.
Proof.
  intros He. unfold exec_split_gl. xrun He. unfold try_into_u64 in Hx. destruct (Z.ltb_spec (to_integer (into_fe val)) (2 ^ 64)) as [Hlt|]; [|discriminate]. injection Hx as <-.
  change 0xffffffff with (2 ^ 32 - 1). rewrite land_ones_mod by lia. pose proof (to_integer_range (into_fe val)).
  xnext He. all: apply arg_u64; lia.
Qed.

Lemma row_commit_public e pc : ready env e pc -> wp (exec_commit_public env args) (fun _ e' => row_ok I_commit_public args e pc e') e.
Proof. intros He. unfold exec_commit_public. xrun He. xnext He. Qed.

(** Two words side by side. *)
Lemma lor_words h l : 0 <= l < 2 ^ 32 -> Z.lor (Z.shiftl h 32) l = l + h * 2 ^ 32.
Proof.
  intros Hl. assert (Hd : Z.land (Z.shiftl h 32) l = 0).
  { rewrite <- (Z.mod_small l (2 ^ 32)) by exact Hl. rewrite <- Z.land_ones by lia. apply Z.bits_inj'. intros n Hn. rewrite !Z.land_spec, Z.shiftl_spec, Z.testbit_0_l by exact Hn.
    destruct (Z.lt_ge_cases n 32); [rewrite Z.testbit_neg_r by lia; reflexivity|]. rewrite Z.ones_spec_high by lia. now rewrite !andb_false_r. }
  rewrite <- add_disjoint by exact Hd. rewrite Z.shiftl_mul_pow2 by lia. lia.
Qed.

Lemma row_invert_gl e pc : ready env e pc -> wp (exec_invert_gl env args) (fun _ e' => row_ok I_invert_gl args e pc e') e.
Proof.
  intros He. unfold exec_invert_gl. xrun He. rewrite lor_words in Hx by lia.
  set (v := u0 + u * 2 ^ 32) in *. assert (Hv : 0 <= v < 2 ^ 64) by (subst v; lia).
  xnext He. fold v. rewrite <- (arg_u64 v Hv). destruct (Z.eq_dec (to_integer (from_u64 (T:=T) v)) 0) as [Hz|Hz]; [now rewrite (f_div_zero f_one _ Hz) in Hx|].
  destruct (f_div_spec f_one _ Hz) as (q & Hq & Hm). rewrite Hx in Hq. injection Hq as <-. rewrite f_one_int in Hm. rewrite <- Hm. symmetry. apply eqm_mod.
Qed.

Lemma bits_width a b : 0 <= a < 2 ^ 32 -> 0 <= b < 2 ^ 32 -> 0 <= Z.land a b < 2 ^ 32 /\ 0 <= Z.lor a b < 2 ^ 32 /\ 0 <= Z.lxor a b < 2 ^ 32.
Proof.
  intros Ha Hb. pose proof (lor_width 32 a b Ha Hb) as Ho. pose proof (land_width 32 a b (proj1 Ha) Hb) as Hl. unfold in_width in *.
  pose proof (Z.add_lor_land a b). pose proof (Z.sub_lor_land a b). assert (0 <= Z.lxor a b) by (apply Z.lxor_nonneg; lia). lia.
Qed.

Lemma row_binary instr e pc : instr = I_and \/ instr = I_or \/ instr = I_xor ->
  ready env e pc -> wp (exec_binary env instr args) (fun _ e' => row_ok instr args e pc e') e.
Proof.
  intros Hin He. unfold exec_binary. xrun He. destruct x0 as [r op_id]. xrun He. apply u32_try_from_Some in Hx as [-> Hx].
  destruct (bits_width u (b + a1) Hr2 Hx) as (? & ? & ?).
  destruct Hin as [->|[->| ->]]; cbn in Hx0; injection Hx0 as <- <-; xnext He.
Qed.

Lemma row_shift instr e pc : instr = I_shl \/ instr = I_shr ->
  ready env e pc -> wp (exec_shift env instr args) (fun _ e' => row_ok instr args e pc e') e.
Proof.
  intros Hin He. unfold exec_shift. xrun He. destruct x0 as [r op_id]. xrun He. apply u32_try_from_Some in Hx as [-> Hx].
  assert (Hr3 : 0 <= r < 2 ^ 32).
  { destruct Hin as [->| ->]; cbn in Hx0; unfold checked_shl, checked_shr in Hx0; destruct (_ <? 32); cbn in Hx0; try discriminate; injection Hx0 as <- <-.
    - apply Z.mod_pos_bound. lia.
    - rewrite Z.shiftr_div_pow2 by lia. assert (0 < 2 ^ (b + a1)) by (apply Z.pow_pos_nonneg; lia). split; [apply Z.div_pos; lia|]. apply Z.div_lt_upper_bound; [lia|]. nia. }
  assert (Hop : op_id = match instr with I_shl => 0 | _ => 1 end).
  { destruct Hin as [->| ->]; cbn in Hx0; unfold checked_shl, checked_shr in Hx0; destruct (_ <? 32); cbn in Hx0; try discriminate; now injection Hx0 as _ <-. }
  subst op_id. destruct Hin as [->| ->]; xnext He.
Qed.

Lemma row_divremu e pc : ready env e pc -> wp (exec_divremu env args) (fun _ e' => row_ok I_divremu args e pc e') e.
Proof.
  intros He. unfold exec_divremu. repeat xstep Hw. bins. destruct (Z.eqb_spec u0 0) as [Hz|Hz].
  - subst u0. apply (wp_set_is_zero_cols _ Hw); [intros _|discriminate]. repeat xstep Hw. cbn [Z.ltb Z.compare]. xrun He. rewrite lower_bytes_u32 by lia.
    bytes 4294967295. rename b1 into c1, b2 into c2, b3 into c3, b4 into c4, Hsum into Hsum', Hd into Hd'. bytes u. rewrite Z.mod_small in Hsum by lia.
    xnext He; [rewrite (into_fe_eqm (Binary 0)) by exact H4|rewrite Hsum|rewrite Hsum']; reflexivity.
  - apply (wp_set_is_zero_cols _ Hw); cbn [elem_is_zero]; [lia|intros inv Hnz Hinv]. repeat xstep Hw. replace (0 <? u0) with true by lia. xrun He.
    assert (Hdiv : u = u0 * (u / u0) + u mod u0) by (apply Z.div_mod; exact Hz). pose proof (Z.mod_pos_bound u u0 ltac:(lia)) as Hrem.
    assert (Hq : 0 <= u / u0 < 2 ^ 32) by (split; [apply Z.div_pos|apply Z.div_lt_upper_bound]; nia).
    set (q := u / u0) in *. set (r := u mod u0) in *. clearbody q r. unfold checked_sub in *. case_if_in Hx; [|discriminate]. case_if_in Hx0; [|discriminate].
    injection Hx as <-. injection Hx0 as <-. rewrite lower_bytes_u32 by exact Hq.
    bytes q. rename b1 into c1, b2 into c2, b3 into c3, b4 into c4, Hsum into Hsum', Hd into Hd'.
    bytes r. rename b1 into d1, b2 into d2, b3 into d3, b4 into d4, Hsum into Hsum'', Hd into Hd''. bytes (u0 - r - 1). rewrite Z.mod_small in Hsum, Hsum', Hsum'' by lia.
    xnext He; rewrite ?Hsum, ?Hsum', ?Hsum''; try xzero.
    + symmetry. apply (elem_int_inv (Binary u0) inv); [cbn [elem_ok]; lia|cbn [elem_is_zero]; lia|exact Hinv].
    + rewrite Z.sub_diag, Z.mul_0_r. reflexivity.
Qed.


End Instructions.

(** ** The rows of the main machine are correct *)

Section Row.
Context {T W : Type} `{LL : LargeFieldLaws T} `{Display T}.
Variable env : Env T W.

Lemma sent_links_declared instr args c pc st m : instr <> I_mstore_bootloader ->
  sent_links (T:=T) instr args c pc st m = declared_links instr args c pc st m.
Proof. intros Hn. destruct instr; try reflexivity. now destruct Hn. Qed.

Lemma row_ok_sends instr args e pc e' : row_ok env instr args e pc e' -> instr <> I_mstore_bootloader ->
  sends e e' (declared_links instr args (cell e') pc (step e)).
Proof. intros (pc' & _ & _ & _ & Hs) Hn m. rewrite <- sent_links_declared by exact Hn. apply Hs. Qed.

(** The bootloader's store never sends what its declaration asks for. *)
Lemma row_ok_bootloader_store args e pc e' : row_ok env I_mstore_bootloader args e pc e' ->
  ~ sends e e' (declared_links I_mstore_bootloader args (cell e') pc (step e)).
Proof.
  intros (pc' & _ & _ & _ & Hs) Hd. destruct (Hs M_memory) as (new & Hn & Hf), (Hd M_memory) as (new' & Hn' & Hf'). rewrite Hn in Hn'. apply app_inv_head in Hn'. subst new'.
  apply Forall2_cons_inv_r in Hf as (op & rest & Hop & _ & ->). apply Forall2_cons_inv_r in Hf' as (op' & rest' & Hop' & _ & Heq). injection Heq as <- _.
  apply Forall2_cons_inv_r in Hop as (x & l & Hx & _ & Ha). apply Forall2_cons_inv_r in Hop' as (x' & l' & Hx' & _ & Ha'). rewrite Ha in Ha'. injection Ha' as <- _.
  assert (Hk : eqm modulus 1 2) by (rewrite <- Hx; exact Hx'). pose proof (modulus_large (T:=T)). apply eqm_close in Hk; lia.
Qed.


End Row.

(** The hypotheses hold for an addition that wraps. *)
Definition add_args : list (Elem GoldilocksField) := [Binary 5; Binary 6; Binary 0; Binary 7].

Lemma demo_ready : ready (Demo.env Witness) (Demo.row_state Witness) 2.
Proof.
  split.
  - split; vm_compute; [lia|reflexivity].
  - intros c _. destruct c; vm_compute; reflexivity.
  - intros r. unfold reg. destruct (Demo.row_state_regs Witness r) as [Hr|[Hr|Hr]]; rewrite Hr; cbn; lia.
  - intros a. change (in_width 32 (default 0 ((∅ : gmap Z Z) !! a))). rewrite lookup_empty. cbn. unfold in_width. lia.
  - cbn. lia.
  - reflexivity.
  - reflexivity.
Qed.

