(* ===== verification/RiscvAsm.v ===== *)
(** * The instructions of the RISC-V machine on integers

    What the instructions that generated code uses do to the registers, the memory and the
    program counter, as a machine on integers; the executor of [riscv-executor/src/lib.rs]
    simulates it, one instruction and one block of code at a time. *)

From stdpp Require Import base list option gmap strings pretty.
From Stdlib Require Import ZArith Lia.
From S2P Require Import Prelude Goldilocks Field AffineExpression PanicMonad RiscvElem RiscvNames RiscvTrace RiscvExec RiscvRun RiscvModes.

(** ** The machine *)

Record AsmState := mkAsm { asm_regs : Z -> Z; asm_mem : gmap Z Z }.

(** Register 0 is always zero. *)
Definition get (σ : AsmState) (r : Z) : Z := if r =? 0 then 0 else asm_regs σ r.
Definition put (r v : Z) (σ : AsmState) : AsmState :=
  if r =? 0 then σ else mkAsm (fun x => if x =? r then v else asm_regs σ x) (asm_mem σ).
Definition load (σ : AsmState) (addr : Z) : Z := default 0 (asm_mem σ !! addr).
Definition store (addr v : Z) (σ : AsmState) : AsmState := mkAsm (asm_regs σ) (<[addr := v]> (asm_mem σ)).

(** Where execution goes on: the next instruction, some instructions further, a label. *)
Inductive Control := Next | Skip (n : nat) | Goto (t : Z).

Definition are_u32 (l : list Z) : option unit := assert_that (forallb (fun z => (0 <=? z) && (z <? 2 ^ 32)) l).

(** An instruction at position [pc] with its evaluated arguments; [None]: a panic, or a value that is not an integer. *)
Definition asm_exec (pc : Z) (i : Instruction) (args : list Z) (σ : AsmState) : option (AsmState * Control) :=
  match i, args with
  | I_set_reg, [r; v] => _ ← are_u32 [r]; Some (put r v σ, Next)
  | I_affine, [x; w; a; b] =>
    _ ← are_u32 [x; w]; p ← i64_checked (get σ x * a); v ← i64_checked (p + b); Some (put w v σ, Next)
  | I_mstore, [x; y; o; w] =>
    _ ← are_u32 [x; y; w]; d ← i64_checked (get σ x - get σ y); addr ← i64_checked (d + o);
    _ ← assert_that (0 <=? addr); _ ← assert_that (Z.rem addr 4 =? 0); v ← u32_try_from (get σ w);
    Some (store (as_width 32 addr) v σ, Next)
  | I_mload, [x; o; w1; w2] =>
    _ ← are_u32 [x; w1; w2]; addr ← i64_checked (get σ x + o);
    Some (put w2 (Z.rem addr 4) (put w1 (load σ (Z.land (as_width 32 addr) 0xfffffffc)) σ), Next)
  | I_load_label, [w; l] => _ ← are_u32 [w]; Some (put w l σ, Next)
  | I_jump, [l; w] => _ ← are_u32 [l; w]; _ ← are_u32 [pc + 1]; Some (put w (pc + 1) σ, Goto l)
  | I_jump_dyn, [x; w] => _ ← are_u32 [x; w]; _ ← are_u32 [get σ x]; _ ← are_u32 [pc + 1]; Some (put w (pc + 1) σ, Goto (get σ x))
  | I_branch_if_diff_nonzero, [x; y; l] =>
    _ ← are_u32 [x; y]; d ← i64_checked (get σ x - get σ y); _ ← assert_that (Z.abs d <? 2 ^ 40);
    Some (σ, if d =? 0 then Next else Goto l)
  | I_branch_if_diff_equal, [x; y; o; l] =>
    _ ← are_u32 [x; y]; d ← i64_checked (get σ x - get σ y); v ← i64_checked (d - o); _ ← assert_that (Z.abs v <? 2 ^ 40);
    Some (σ, if v =? 0 then Goto l else Next)
  | I_skip_if_equal, [x; y; o; n] =>
    _ ← are_u32 [x; y; n]; d ← i64_checked (get σ x - get σ y); v ← i64_checked (d + o); _ ← assert_that (Z.abs v <? 2 ^ 40);
    Some (σ, if v =? 0 then Skip (Z.to_nat n) else Next)
  | I_branch_if_diff_greater_than, [x; y; o; l] =>
    _ ← are_u32 [x; y]; d ← i64_checked (get σ x - get σ y); v ← i64_checked (d - o);
    Some (σ, if 0 <? v then Goto l else Next)
  | I_is_diff_greater_than, [x; y; o; w] =>
    _ ← are_u32 [x; y; w]; d ← i64_checked (get σ x - get σ y); v ← i64_checked (d - o);
    Some (put w (b2z (0 <? v)) σ, Next)
  | I_is_equal_zero, [x; w] => _ ← are_u32 [x; w]; _ ← assert_that (Z.abs (get σ x) <? 2 ^ 40); Some (put w (b2z (get σ x =? 0)) σ, Next)
  | I_is_not_equal, [x; y; w] =>
    _ ← are_u32 [x; y; w]; d ← i64_checked (get σ x - get σ y); _ ← assert_that (Z.abs d <? 2 ^ 40); Some (put w (b2z (negb (d =? 0))) σ, Next)
  | I_add_wrap, [x; y; o; w] =>
    _ ← are_u32 [x; y; w]; s ← i64_checked (get σ x + get σ y); v ← i64_checked (s + o);
    _ ← assert_that (v <? Z.shiftl 2 33); _ ← assert_that (0 <=? v); Some (put w (as_width 32 v) σ, Next)
  | I_wrap16, [x; f; w] => _ ← are_u32 [x; w]; v ← i64_checked (get σ x * f); Some (put w (as_width 32 v) σ, Next)
  | I_sub_wrap_with_offset, [x; y; o; w] =>
    _ ← are_u32 [x; y; w]; d ← i64_checked (get σ x - get σ y); v ← i64_checked (d + o); r ← i64_checked (v + 0x100000000);
    Some (put w (as_width 32 r) σ, Next)
  | I_sign_extend_byte, [x; w] => _ ← are_u32 [x; w]; u ← u32_try_from (get σ x); Some (put w (as_width 32 (as_i8 u)) σ, Next)
  | I_sign_extend_16_bits, [x; w] =>
    _ ← are_u32 [x; w]; u ← u32_try_from (get σ x);
    Some (put w (if negb (Z.land u 0x8000 =? 0) then Z.lor u 0xFFFF0000 else Z.land u 0x0000FFFF) σ, Next)
  | I_to_signed, [x; w] => _ ← are_u32 [x; w]; u ← u32_try_from (get σ x); Some (put w (as_i32 u) σ, Next)
  | I_divremu, [x; y; w1; w2] =>
    _ ← are_u32 [x; y; w1; w2]; a ← u32_try_from (get σ x); b ← u32_try_from (get σ y);
    Some (put w2 (if b =? 0 then a else a mod b) (put w1 (if b =? 0 then 0xffffffff else a / b) σ), Next)
  | I_mul, [x; y; w1; w2] =>
    _ ← are_u32 [x; y; w1; w2]; a ← u32_try_from (get σ x); b ← u32_try_from (get σ y);
    Some (put w2 (as_width 32 (Z.shiftr (a * b) 32)) (put w1 (as_width 32 (a * b)) σ), Next)
  | (I_and | I_or | I_xor), [x; y; o; w] =>
    _ ← are_u32 [x; y; w]; s ← i64_checked (get σ y + o); a ← u32_try_from (get σ x); b ← u32_try_from s;
    r ← binary_result i a b; Some (put w (fst r) σ, Next)
  | (I_shl | I_shr), [x; y; o; w] =>
    _ ← are_u32 [x; y; w]; s ← i64_checked (get σ y + o); a ← u32_try_from (get σ x); b ← u32_try_from s;
    r ← shift_result i a b; Some (put w (fst r) σ, Next)
  | _, _ => None
  end.

(** Literals and labels. *)
Fixpoint eval_literal (labels : string -> option Z) (e : Expression) : option Z :=
  match e with
  | EReference [name] => labels name
  | ENumber n => u32_try_from n
  | EBinaryOperation a OpSub b => x ← eval_literal labels a; y ← eval_literal labels b; i64_checked (x - y)
  | EBinaryOperation a OpPow b => x ← eval_literal labels a; y ← eval_literal labels b; e ← u32_try_from y; i64_checked (x ^ e)
  | EUnaryOperation OpMinus a => x ← eval_literal labels a; i64_checked (- x)
  | _ => None
  end.

Definition asm_step (labels : string -> option Z) (pc : Z) (s : FunctionStatement) (σ : AsmState) : option (AsmState * Control) :=
  match s with
  | SInstruction name ins => i ← from_name name; zs ← mapM (eval_literal labels) ins; asm_exec pc i zs σ
  | _ => None
  end.

(** How a block of code is left: at its end, or by a jump. *)
Inductive Exit := Fall | Jump (t : Z).

(** A block, one statement per position from [pc] on; [skip] of them are not executed. *)
Fixpoint run_block (labels : string -> option Z) (pc : Z) (skip : nat) (code : list FunctionStatement) (σ : AsmState) : option (AsmState * Exit) :=
  match code with
  | [] => match skip with O => Some (σ, Fall) | S _ => None end
  | s :: code' =>
    match skip with
    | S skip' => run_block labels (pc + 1) skip' code' σ
    | O =>
      '(σ', c) ← asm_step labels pc s σ;
      match c with
      | Next => run_block labels (pc + 1) 0 code' σ'
      | Skip n => run_block labels (pc + 1) n code' σ'
      | Goto t => Some (σ', Jump t)
      end
    end
  end.

(** *** Registers *)

Lemma get_0 σ : get σ 0 = 0.
Proof. reflexivity. Qed.

Lemma get_put σ r v x : get (put r v σ) x = if (x =? r) && negb (r =? 0) then v else get σ x.
Proof.
  unfold get, put. destruct (Z.eqb_spec r 0) as [->|Hr]; cbn [negb]; [now rewrite andb_false_r|]. rewrite andb_true_r. cbn [asm_regs].
  destruct (Z.eqb_spec x 0) as [->|Hx]; [|reflexivity]. now rewrite (proj2 (Z.eqb_neq 0 r)) by lia.
Qed.

Lemma get_put_eq σ r v : r <> 0 -> get (put r v σ) r = v.
Proof. intros Hr. rewrite get_put, Z.eqb_refl. now destruct (Z.eqb_spec r 0). Qed.

Lemma get_put_ne σ r v x : x <> r -> get (put r v σ) x = get σ x.
Proof. intros Hx. rewrite get_put. now destruct (Z.eqb_spec x r). Qed.

Lemma get_store σ a v x : get (store a v σ) x = get σ x.
Proof. reflexivity. Qed.
Lemma load_put σ r v a : load (put r v σ) a = load σ a.
Proof. unfold load, put. now destruct (r =? 0). Qed.
Lemma mem_put σ r v : asm_mem (put r v σ) = asm_mem σ.
Proof. unfold put. now destruct (r =? 0). Qed.
Lemma mem_store σ a v : asm_mem (store a v σ) = <[a := v]> (asm_mem σ).
Proof. reflexivity. Qed.

(** ** The executor simulates the machine *)

(** A run that returns, with a result that satisfies [Q]. *)
Definition tot {S A} (m : M S A) (Q : A -> S -> Prop) (s : S) : Prop := exists a s', m s = Some (a, s') /\ Q a s'.

Lemma tot_bind {S A B} (m : M S A) (k : A -> M S B) Q s : tot m (fun a => tot (k a) Q) s -> tot (m ≫= k) Q s.
Proof. intros (a & s1 & Hm & b & s2 & Hk & HQ). exists b, s2. split; [|exact HQ]. eapply bind_run; [exact Hm|exact Hk]. Qed.
Lemma tot_ret {S A} (a : A) Q (s : S) : Q a s -> tot (mret a) Q s.
Proof. intros HQ. exists a, s. now split. Qed.
Lemma tot_lift {S A} (o : option A) a Q (s : S) : o = Some a -> Q a s -> tot (lift o) Q s.
Proof. intros -> HQ. exists a, s. now split. Qed.
Lemma tot_assert {S} b Q (s : S) : b = true -> Q tt s -> tot (assertM b) Q s.
Proof. intros -> HQ. exists tt, s. now split. Qed.
Lemma tot_gets {S A} (f : S -> A) Q s : Q (f s) s -> tot (gets f) Q s.
Proof. intros HQ. exists (f s), s. now split. Qed.
Lemma tot_modify {S} (f : S -> S) Q s : Q tt (f s) -> tot (modify f) Q s.
Proof. intros HQ. exists tt, (f s). now split. Qed.
Lemma tot_conseq {S A} (m : M S A) (Q Q' : A -> S -> Prop) s : tot m Q s -> (forall a s', Q a s' -> Q' a s') -> tot m Q' s.
Proof. intros (a & s' & Hm & HQ) Hi. exists a, s'. split; [exact Hm|now apply Hi]. Qed.
Lemma tot_on_part {S P A} (getp : S -> P) putp (m : M P A) Q s : tot m (fun a p => Q a (putp p s)) (getp s) -> tot (on_part getp putp m) Q s.
Proof. intros (a & p & Hm & HQ). exists a, (putp p s). split; [|exact HQ]. unfold on_part. now rewrite Hm. Qed.

Section Simulation.
Context {T W : Type} `{LL : LargeFieldLaws T} `{Display T}.
Variable env : Env T W.
Variable program : PreprocessedMain T.
Hypothesis Hmode : mode (config env) = Fast.
Notation E := (Executor T W).
Notation map_at p := (batch_to_line_map (config env) !! Z.to_nat p).

(** Where the executor is: the program counter and the next one, the next line, steps and rows. *)
Record Frame := mkFrame { fr_pc : Z; fr_next : Z; fr_line : Z; fr_step : Z; fr_rows : Z }.

Record Rel (f : Frame) (σ : AsmState) (e : E) : Prop := {
  rel_pc : curr_pc (proc e) = Binary (fr_pc f);
  rel_next : regs (proc e) !! pc_idx (config env) = Some (Binary (fr_next f));
  rel_line : next_statement_line (proc e) = fr_line f;
  rel_step : step e = fr_step f;
  rel_rows : trace_len (proc e) = fr_rows f;
  rel_regs : forall r, reg_value (reg_last (proc e)) r = Binary (get σ r);
  rel_mem : mem (proc e) = asm_mem σ
}.

Definition to_next (t : Z) (line : Z) (f : Frame) : Frame := mkFrame (fr_pc f) t line (fr_step f) (fr_rows f).

(** *** What is recorded only in the other modes *)

Lemma tot_submachine_op m id args ext Q e : Q tt e -> tot (submachine_op env m id args ext) Q e.
Proof. intros HQ. apply tot_on_part. unfold RiscvTrace.submachine_op. rewrite Hmode. cbn [witnessing whenM]. apply tot_ret. destruct e. exact HQ. Qed.

Lemma tot_set_col c v Q e : Q tt e -> tot (set_col env c v) Q e.
Proof. intros HQ. apply tot_on_part. unfold RiscvTrace.set_col. rewrite Hmode. cbn [witnessing whenM]. apply tot_ret. destruct e. exact HQ. Qed.

Lemma tot_set_cols l Q e : Q tt e -> tot (set_cols env l) Q e.
Proof.
  intros HQ. apply tot_on_part. enough (Hl : forall b, RiscvTrace.set_cols (config env) l b = Some (tt, b)) by (exists tt, (proc e); split; [apply Hl|destruct e; exact HQ]).
  unfold RiscvTrace.set_cols. induction l as [|c l IH]; intros b; [reflexivity|]. cbn [for_each]. eapply bind_run; [|exact (IH b)].
  unfold RiscvTrace.set_col. rewrite Hmode. reflexivity.
Qed.

Lemma tot_link_id i m k Q e : Q 0 e -> tot (instr_link_id env i m k) Q e.
Proof. intros HQ. unfold instr_link_id. rewrite Hmode. cbn [witnessing]. now apply tot_ret. Qed.

Lemma tot_step_plus k Q (e : E) : step e + k < 2 ^ 32 -> (forall s, Q s e) -> tot (step_plus k) Q e.
Proof. intros Hk HQ. unfold step_plus. apply tot_bind, tot_gets. eapply tot_lift; [|apply HQ]. unfold checked_add. now rewrite (proj2 (Z.ltb_lt _ _) Hk). Qed.

(** *** Registers and memory *)

Section Parts.
Context (f : Frame) (σ : AsmState).
Hypothesis Hstep : fr_step f + 3 < 2 ^ 32.

Lemma tot_link_read i k o r Q e : 0 <= o <= 3 -> Rel f σ e -> Q (Binary (get σ r)) e -> tot (link_read env i k o r) Q e.
Proof.
  intros Ho HR HQ. unfold link_read. apply tot_bind, tot_link_id. unfold reg_read. apply tot_bind, tot_on_part, tot_bind, tot_gets, tot_ret.
  replace (put_proc (proc e) e) with e by now destruct e. apply tot_bind, tot_step_plus; [rewrite (rel_step _ _ _ HR); lia|]. intros s.
  apply tot_bind, tot_submachine_op, tot_ret. now rewrite (rel_regs _ _ _ HR).
Qed.

Lemma rel_put r v e : Rel f σ e -> Rel f (put r v σ) (put_proc (if r =? 0 then proc e else set_reg_last (<[r := Binary v]> (reg_last (proc e))) (proc e)) e).
Proof.
  intros [R1 R2 R3 R4 R5 R6 R7]. destruct (Z.eqb_spec r 0) as [->|Hr].
  - split; try assumption.
  - split; try assumption; cbn [proc put_proc set_reg_last reg_last mem]; [|now rewrite mem_put].
    intros x. rewrite get_put. destruct (Z.eqb_spec x r) as [->|Hx]; cbn [andb].
    + destruct (Z.eqb_spec r 0) as [|_]; [easy|]. cbn [negb]. unfold reg_value. rewrite (proj2 (Z.eqb_neq r 0)) by exact Hr. now rewrite lookup_insert_eq.
    + rewrite <- R6. unfold reg_value. destruct (x =? 0); [reflexivity|]. now rewrite lookup_insert_ne.
Qed.

Lemma tot_link_write i k o r v Q e : 0 <= o <= 3 -> Rel f σ e -> (forall e', Rel f (put r v σ) e' -> Q tt e') -> tot (link_write env i k o r (Binary v)) Q e.
Proof.
  intros Ho HR HQ. unfold link_write. apply tot_bind, tot_link_id. unfold reg_write. apply tot_bind, tot_step_plus; [rewrite (rel_step _ _ _ HR); lia|]. intros s.
  apply tot_bind, tot_submachine_op, tot_on_part. unfold set_reg_mem. pose proof (HQ _ (rel_put r v e HR)) as HQ'. destruct (r =? 0).
  - apply tot_ret. exact HQ'.
  - apply tot_bind, tot_gets, tot_modify. exact HQ'.
Qed.

Lemma tot_get_mem a st id Q e : Rel f σ e -> Q (load σ a) e -> tot (get_mem env a st id) Q e.
Proof.
  intros HR HQ. apply tot_on_part. unfold RiscvTrace.get_mem, RiscvTrace.submachine_op, record_mem_op. rewrite Hmode. cbn [witnessing tracing whenM].
  apply tot_bind, tot_gets, tot_bind, tot_ret, tot_bind, tot_ret, tot_ret. rewrite (rel_mem _ _ _ HR). destruct e. exact HQ.
Qed.

Lemma tot_set_mem a v st id Q e : Rel f σ e -> (forall e', Rel f (store a v σ) e' -> Q tt e') -> tot (set_mem env a v st id) Q e.
Proof.
  intros HR HQ. apply tot_on_part. unfold RiscvTrace.set_mem, RiscvTrace.submachine_op, record_mem_op. rewrite Hmode. cbn [witnessing tracing whenM].
  apply tot_bind, tot_ret, tot_bind, tot_ret, tot_bind, tot_gets, tot_modify. apply HQ. destruct HR as [R1 R2 R3 R4 R5 R6 R7].
  split; try assumption. cbn. now rewrite R7.
Qed.

Lemma tot_set_pc t line Q e : 0 <= t < 2 ^ 32 -> map_at t = Some line -> Rel f σ e ->
  (forall e', Rel (to_next t line f) σ e' -> Q tt e') -> tot (set_pc env (Binary t)) Q e.
Proof.
  intros Ht Hline HR HQ. apply tot_on_part. unfold RiscvTrace.set_pc, set_reg_idx. rewrite Hmode. cbn [tracing andb whenM].
  apply tot_bind. eapply tot_lift. { apply elem_u_Some. split; [reflexivity|exact Ht]. }
  apply tot_bind. eapply tot_lift; [exact Hline|]. apply tot_bind, tot_modify, tot_bind, tot_ret, tot_bind, tot_gets. cbn [set_next_line regs].
  destruct HR as [R1 R2 R3 R4 R5 R6 R7]. pose proof (lookup_lt_Some _ _ _ R2) as Hlt. apply tot_bind. eapply tot_lift. { unfold list_set. rewrite (proj2 (Nat.ltb_lt _ _) Hlt). reflexivity. }
  apply tot_modify. apply HQ. split; try assumption; [|reflexivity]. cbn. now rewrite list_lookup_insert_eq.
Qed.

End Parts.

(** *** One instruction *)

Lemma are_u32_spec l u : are_u32 l = Some u -> Forall (fun z => 0 <= z < 2 ^ 32) l.
Proof.
  unfold are_u32, assert_that. destruct (forallb _ l) eqn:Hl; [|discriminate]. intros _. apply List.Forall_forall. intros z Hz.
  rewrite forallb_forall in Hl. specialize (Hl z Hz). b2p. lia.
Qed.

Lemma tot_arg (args : list (Elem T)) i v Q (e : E) : args !! i = Some v -> Q v e -> tot (arg args i) Q e.
Proof. intros Hi HQ. eapply tot_lift; [exact Hi|exact HQ]. Qed.
Lemma tot_arg_bin (args : list (Elem T)) i z Q (e : E) : args !! i = Some (Binary z) -> Q z e -> tot (arg_bin args i) Q e.
Proof. intros Hi HQ. apply tot_bind. eapply tot_arg; [exact Hi|]. eapply tot_lift; [reflexivity|exact HQ]. Qed.
Lemma tot_arg_u (args : list (Elem T)) i z Q (e : E) : args !! i = Some (Binary z) -> 0 <= z < 2 ^ 32 -> Q z e -> tot (arg_u args i) Q e.
Proof. intros Hi Hz HQ. apply tot_bind. eapply tot_arg; [exact Hi|]. eapply tot_lift; [|exact HQ]. now apply elem_u_Some. Qed.
Lemma tot_elem_u z v Q (e : E) : u32_try_from z = Some v -> Q v e -> tot (lift (elem_u (T:=T) (Binary z))) Q e.
Proof. intros Hz HQ. eapply tot_lift; [exact Hz|exact HQ]. Qed.
Lemma tot_elem_sub a b v Q (e : E) : i64_checked (a - b) = Some v -> Q (Binary v) e -> tot (lift (elem_sub (T:=T) (Binary a) (Binary b))) Q e.
Proof. intros Hz HQ. eapply tot_lift; [|exact HQ]. cbn. now rewrite Hz. Qed.
Lemma tot_elem_add a b v Q (e : E) : i64_checked (a + b) = Some v -> Q (Binary v) e -> tot (lift (elem_add (T:=T) (Binary a) (Binary b))) Q e.
Proof. intros Hz HQ. eapply tot_lift; [|exact HQ]. cbn. now rewrite Hz. Qed.
Lemma tot_elem_bin z Q (e : E) : Q z e -> tot (lift (elem_bin (T:=T) (Binary z))) Q e.
Proof. intros HQ. eapply tot_lift; [reflexivity|exact HQ]. Qed.

Lemma f_div_total (x : T) : to_integer x <> 0 -> exists y, f_div f_one x = Some y.
Proof. intros Hx. destruct (f_div_spec f_one x Hx) as (y & Hy & _). now exists y. Qed.

Lemma tot_is_zero_cols v Q e : Z.abs v < 2 ^ 40 -> Q tt e -> tot (set_is_zero_cols env (Binary v)) Q e.
Proof.
  intros Hv HQ. unfold set_is_zero_cols. apply tot_bind, tot_set_cols. destruct (elem_is_zero (T:=T) (Binary v)) eqn:Hz; [now apply tot_ret|].
  destruct (f_div_total (into_fe (T:=T) (Binary v))) as (y & Hy).
  - intros Hm0. pose proof modulus_large. apply (elem_is_zero_spec (Binary v)) in Hm0; [congruence|cbn; lia|cbn; lia].
  - apply tot_bind. eapply tot_lift; [exact Hy|]. now apply tot_set_col.
Qed.


(** Where the control goes. *)
Definition target (pc : Z) (c : Control) : option Z := match c with Next => None | Skip n => Some (pc + Z.of_nat n + 1) | Goto t => Some t end.
Definition after (c : Control) (f : Frame) : Frame :=
  match target (fr_pc f) c with None => f | Some t => to_next t (default 0 (map_at t)) f end.
Definition lands (pc : Z) (c : Control) : Prop := forall t, target pc c = Some t -> 0 <= t < 2 ^ 31 /\ exists line, map_at t = Some line.

Definition simulates (f : Frame) (i : Instruction) : Prop := forall zs σ σ' c e,
  fr_step f + 3 < 2 ^ 32 -> 0 <= fr_pc f < 2 ^ 31 -> Rel f σ e -> asm_exec (fr_pc f) i zs σ = Some (σ', c) -> lands (fr_pc f) c ->
  tot (exec_body env i (Binary <$> zs)) (fun _ e' => Rel (after c f) σ' e') e.

(** Inverts the machine's instruction. *)
Ltac inv_exec :=
  let zs := fresh "zs" in let Hx := fresh "Hx" in
  intros zs σ σ' c e Hst Hpc HR Hx Hl; cbn in Hx;
  repeat (destruct zs as [|?z zs]; try discriminate Hx); cbn in Hx;
  repeat match type of Hx with
  | (_ ≫= _) = Some _ => let a := fresh "a" in let Ha := fresh "Ha" in apply bind_Some in Hx as (a & Ha & Hx); cbn beta in Hx
  end;
  repeat match goal with
  | Ha : are_u32 _ = Some _ |- _ => apply are_u32_spec in Ha; rewrite ?Forall_cons, ?Forall_nil in Ha; destruct_and? Ha
  | Ha : assert_that _ = Some ?u |- _ => destruct u; apply assert_that_true in Ha
  end;
  injection Hx as <- <-; cbn [fmap list_fmap].

(** One step of the executor. *)
Ltac step1 := cbn beta;
  lazymatch goal with
  | |- tot (mret _) _ _ => apply tot_ret
  | |- tot (arg_u _ _ ≫= _) _ _ => apply tot_bind; eapply tot_arg_u; [reflexivity|lia|]
  | |- tot (arg_bin _ _ ≫= _) _ _ => apply tot_bind; eapply tot_arg_bin; [reflexivity|]
  | |- tot (arg _ _ ≫= _) _ _ => apply tot_bind; eapply tot_arg; [reflexivity|]
  | HR : Rel ?f ?σ ?e |- tot (link_read _ _ _ _ _ ≫= _) _ ?e => apply tot_bind; eapply (tot_link_read f σ); [assumption|lia|exact HR|]
  | HR : Rel ?f ?σ ?e |- tot (link_write _ _ _ _ _ _ ≫= _) _ ?e =>
    apply tot_bind; eapply (tot_link_write f σ); [assumption|lia|exact HR|]; clear e HR; intros e HR
  | |- tot (set_cols _ _ ≫= _) _ _ => apply tot_bind, tot_set_cols
  | |- tot (set_col _ _ _ ≫= _) _ _ => apply tot_bind, tot_set_col
  | |- tot (submachine_op _ _ _ _ _ ≫= _) _ _ => apply tot_bind, tot_submachine_op
  | |- tot (instr_link_id _ _ _ _ ≫= _) _ _ => apply tot_bind, tot_link_id
  | |- tot (lift (elem_sub _ _) ≫= _) _ _ => apply tot_bind; eapply tot_elem_sub; [eassumption|]
  | |- tot (lift (elem_add _ (from_u32_as_fe _)) ≫= _) _ _ => apply tot_bind; eapply tot_lift; [reflexivity|]
  | |- tot (lift (elem_add _ _) ≫= _) _ _ => apply tot_bind; eapply tot_elem_add; [eassumption|]
  | |- tot (lift (elem_bin _) ≫= _) _ _ => apply tot_bind, tot_elem_bin
  | |- tot (lift (elem_u _) ≫= _) _ _ => apply tot_bind; eapply tot_elem_u; [eassumption|]
  | |- tot (lift _ ≫= _) _ _ => apply tot_bind; eapply tot_lift; [eassumption|]
  | |- tot (assertM _ ≫= _) _ _ => apply tot_bind, tot_assert; [assumption|]
  | |- tot (match decompose_lower32 ?x with _ => _ end) _ _ => destruct (decompose_lower32 x) as [[[[? ?] ?] ?] ?]
  | |- tot (set_is_zero_cols _ _ ≫= _) _ _ => apply tot_bind, tot_is_zero_cols; [lia|]
  | HR : Rel ?f ?σ ?e |- tot (set_mem _ _ _ _ _ ≫= _) _ ?e =>
    apply tot_bind; eapply (tot_set_mem f σ); [exact HR|]; clear e HR; intros e HR
  | HR : Rel ?f ?σ ?e |- tot (get_mem _ _ _ _ ≫= _) _ ?e => apply tot_bind; eapply (tot_get_mem f σ); [exact HR|]
  | HR : Rel ?f ?σ ?e |- tot (step_plus _ ≫= _) _ ?e => apply tot_bind; apply tot_step_plus; [rewrite (rel_step _ _ _ HR); lia|intros ?]
  end.
Ltac steps := repeat step1; try assumption.


Lemma tot_goto f σ t c Q e : lands (fr_pc f) c -> target (fr_pc f) c = Some t -> Rel f σ e ->
  (forall e', Rel (after c f) σ e' -> Q tt e') -> tot (set_pc env (Binary t)) Q e.
Proof.
  intros Hl Ht HR HQ. destruct (Hl t Ht) as (Hr & line & Hline). apply (tot_set_pc f σ t line); [lia|exact Hline|exact HR|].
  intros e' HR'. apply HQ. unfold after. rewrite Ht, Hline. exact HR'.
Qed.

Lemma tot_pc_plus_one f σ Q e : 0 <= fr_pc f < 2 ^ 31 -> Rel f σ e -> Q (fr_pc f + 1) e -> tot pc_plus_one Q e.
Proof.
  intros Hpc HR HQ. unfold pc_plus_one. apply tot_bind, tot_on_part, tot_gets. replace (put_proc (proc e) e) with e by now destruct e. rewrite (rel_pc _ _ _ HR).
  apply tot_bind. eapply tot_lift; [apply elem_u_Some; split; [reflexivity|lia]|]. eapply tot_lift; [|exact HQ]. unfold checked_add. now rewrite (proj2 (Z.ltb_lt _ _)) by lia.
Qed.

Lemma tot_skip_target f σ n Q e : 0 <= fr_pc f < 2 ^ 31 -> 0 <= n -> fr_pc f + n + 1 < 2 ^ 31 -> Rel f σ e -> Q (fr_pc f + n + 1) e -> tot (skip_target (Binary n)) Q e.
Proof.
  intros Hpc Hn Ht HR HQ. unfold skip_target. apply tot_bind, tot_on_part, tot_gets. replace (put_proc (proc e) e) with e by now destruct e. rewrite (rel_pc _ _ _ HR).
  assert (Hi : forall z, 0 <= z < 2 ^ 31 -> i32_try_from z = Some z).
  { intros z Hz. unfold i32_try_from. rewrite (proj2 (Z.leb_le _ _)), (proj2 (Z.ltb_lt _ _)) by lia. reflexivity. }
  apply tot_bind. eapply tot_lift; [cbn; apply Hi; lia|]. apply tot_bind. eapply tot_lift; [cbn; apply Hi; lia|].
  apply tot_bind. eapply tot_lift; [apply Hi; lia|]. eapply tot_lift; [apply Hi; lia|]. exact HQ.
Qed.

Lemma tot_when c (m : M E unit) Q e : (c = true -> tot m Q e) -> (c = false -> Q tt e) -> tot (whenM c m) Q e.
Proof. destruct c; cbn; intros Ht Hf; [now apply Ht|apply tot_ret; now apply Hf]. Qed.

Lemma sim_mload f : simulates f I_mload.
Proof. inv_exec. unfold exec_body, exec_mload. steps. Qed.
Lemma sim_load_label f : simulates f I_load_label.
Proof. inv_exec. unfold exec_body, exec_load_label. steps. Qed.
Lemma sim_is_diff_greater_than f : simulates f I_is_diff_greater_than.
Proof. inv_exec. unfold exec_body, exec_is_diff_greater_than. steps. Qed.
Lemma sim_is_equal_zero f : simulates f I_is_equal_zero.
Proof. inv_exec. unfold exec_body, exec_is_equal_zero. steps. Qed.
Lemma sim_is_not_equal f : simulates f I_is_not_equal.
Proof. inv_exec. unfold exec_body, exec_is_not_equal. steps. Qed.
Lemma sim_add_wrap f : simulates f I_add_wrap.
Proof. inv_exec. unfold exec_body, exec_add_wrap. steps. Qed.
Lemma sim_wrap16 f : simulates f I_wrap16.
Proof. inv_exec. unfold exec_body, exec_wrap16. steps. Qed.
Lemma sim_sub_wrap_with_offset f : simulates f I_sub_wrap_with_offset.
Proof. inv_exec. unfold exec_body, exec_sub_wrap_with_offset. steps. Qed.
Lemma sim_sign_extend_byte f : simulates f I_sign_extend_byte.
Proof. inv_exec. unfold exec_body, exec_sign_extend_byte. steps. Qed.
Lemma sim_sign_extend_16_bits f : simulates f I_sign_extend_16_bits.
Proof. inv_exec. unfold exec_body, exec_sign_extend_16_bits. steps. Qed.
Lemma sim_to_signed f : simulates f I_to_signed.
Proof. inv_exec. unfold exec_body, exec_to_signed. steps. Qed.
Lemma sim_mstore f : simulates f I_mstore.
Proof. inv_exec. unfold exec_body, exec_mstore. steps. Qed.
Lemma sim_asm_set_reg f : simulates f I_set_reg.
Proof.
  inv_exec. unfold exec_body, exec_set_reg. steps. unfold get_fixed_here. rewrite Hmode. cbn [witnessing]. apply tot_bind, tot_ret, tot_bind.
  cbn [elem_is_zero]. rewrite f_is_zero_zero. steps.
Qed.
Lemma sim_affine f : simulates f I_affine.
Proof. inv_exec. unfold exec_body, exec_affine. steps. cbn [elem_mul]. rewrite Ha0. steps. Qed.
Lemma sim_mul f : simulates f I_mul.
Proof.
  inv_exec. unfold exec_body, exec_mul. steps. apply u32_try_from_Some in Ha0 as [-> Hb0], Ha1 as [-> Hb1].
  apply tot_bind. apply (tot_lift _ (get σ z * get σ z0)); [unfold checked_mul; rewrite (proj2 (Z.ltb_lt _ _)) by nia; reflexivity|]. steps.
Qed.
Lemma sim_divremu f : simulates f I_divremu.
Proof.
  inv_exec. unfold exec_body, exec_divremu. steps. pose proof Ha1 as Hg. apply u32_try_from_Some in Ha0 as [-> Hb0], Ha1 as [-> Hb1]. steps.
  apply tot_bind. destruct (Z.ltb_spec 0 (get σ z0)) as [Hp|Hp]; [|steps]. rewrite (proj2 (Z.eqb_neq (get σ z0) 0)) by lia. pose proof (Z.mod_pos_bound (get σ z) (get σ z0) ltac:(lia)) as Hm.
  apply tot_bind. eapply tot_lift; [unfold checked_sub; rewrite (proj2 (Z.leb_le _ _)) by lia; reflexivity|].
  apply tot_bind. eapply tot_lift; [unfold checked_sub; rewrite (proj2 (Z.leb_le _ _)) by lia; reflexivity|].
  apply tot_set_cols, tot_ret. rewrite (proj2 (Z.eqb_neq (get σ z0) 0)) in HR by lia. exact HR.
Qed.
Lemma sim_binary i f : i = I_and \/ i = I_or \/ i = I_xor -> simulates f i.
Proof. intros [->|[->| ->]]; inv_exec; unfold exec_body, exec_binary; steps; apply tot_bind; (eapply tot_lift; [reflexivity|]); cbn beta iota; steps. Qed.
Lemma sim_shift i f : i = I_shl \/ i = I_shr -> simulates f i.
Proof. intros [->| ->]; inv_exec; unfold exec_body, exec_shift; steps; destruct a3 as [r op_id]; steps. Qed.

Lemma sim_jump f : simulates f I_jump.
Proof.
  inv_exec. unfold exec_body, exec_jump. steps. apply tot_bind. eapply tot_pc_plus_one; [exact Hpc|exact HR|]. steps.
  apply tot_bind. eapply (tot_goto f); [exact Hl|reflexivity|exact HR|]. intros e' HR'. steps.
Qed.
Lemma sim_jump_dyn f : simulates f I_jump_dyn.
Proof.
  inv_exec. unfold exec_body, exec_jump_dyn. steps. apply tot_bind. eapply tot_pc_plus_one; [exact Hpc|exact HR|]. steps.
  apply tot_bind. eapply (tot_goto f); [exact Hl|reflexivity|exact HR|]. intros e' HR'. steps.
Qed.

Ltac branch f HR Hl cond :=
  apply tot_bind, tot_when; cbn [elem_is_zero]; intros Hc; destruct cond; try discriminate Hc;
  [eapply (tot_goto f); [exact Hl|reflexivity|exact HR|]; let e' := fresh "e" in let HR' := fresh "HR" in intros e' HR'; steps|steps].

Lemma sim_branch_if_diff_nonzero f : simulates f I_branch_if_diff_nonzero.
Proof. inv_exec. unfold exec_body, exec_branch_if_diff_nonzero. steps. branch f HR Hl (a0 =? 0). Qed.
Lemma sim_branch_if_diff_equal f : simulates f I_branch_if_diff_equal.
Proof. inv_exec. unfold exec_body, exec_branch_if_diff_equal. steps. branch f HR Hl (a1 =? 0). Qed.
Lemma sim_branch_if_diff_greater_than f : simulates f I_branch_if_diff_greater_than.
Proof. inv_exec. unfold exec_body, exec_branch_if_diff_greater_than. steps. branch f HR Hl (0 <? a1). Qed.
Lemma sim_skip_if_equal f : simulates f I_skip_if_equal.
Proof.
  inv_exec. unfold exec_body, exec_skip_if_equal. steps. apply tot_bind, tot_when; cbn [elem_is_zero]; intros Hc; destruct (a1 =? 0); try discriminate Hc; [|steps].
  destruct (Hl (fr_pc f + z2 + 1)) as (Ht & _); [cbn; f_equal; lia|]. apply tot_bind. eapply tot_skip_target; [exact Hpc|lia|lia|exact HR|].
  eapply (tot_goto f); [exact Hl|cbn; f_equal; lia|exact HR|]. intros e' HR'. steps.
Qed.

(** Every instruction of the machine. *)
Lemma sim_instruction f i : simulates f i.
Proof.
  destruct i; try (intros zs σ σ' c e _ _ _ Hx; cbn in Hx; discriminate Hx).
  all: first [apply sim_asm_set_reg|apply sim_affine|apply sim_mstore|apply sim_mload|apply sim_load_label|apply sim_jump|apply sim_jump_dyn
    |apply sim_branch_if_diff_nonzero|apply sim_branch_if_diff_equal|apply sim_skip_if_equal|apply sim_branch_if_diff_greater_than|apply sim_is_diff_greater_than
    |apply sim_is_equal_zero|apply sim_is_not_equal|apply sim_add_wrap|apply sim_wrap16|apply sim_sub_wrap_with_offset|apply sim_sign_extend_byte
    |apply sim_sign_extend_16_bits|apply sim_to_signed|apply sim_divremu|apply sim_mul|apply sim_binary; tauto|apply sim_shift; tauto].
Qed.

(** *** One line *)

(** The labels of the executor, where they are integers. *)
Definition labels : string -> option Z := fun name => l ← label_map env !! name; elem_bin l.

Lemma tot_eval e : forall z Q s, eval_literal labels e = Some z -> Q (Some (Binary z)) s -> tot (eval_expression env e) Q s.
Proof.
  induction e as [path|n|l IHl op r IHr|op a IHa|g IHg args|a IHa|]; intros z Q s He HQ; try discriminate He.
  - destruct path as [|name [|]]; try discriminate He. cbn in He. cbn [eval_expression]. apply tot_bind. eapply tot_lift; [reflexivity|].
    unfold labels in He. apply bind_Some in He as (v & Hv & He). apply elem_bin_Some in He as ->. rewrite Hv. now apply tot_ret.
  - cbn in He. cbn [eval_expression]. apply tot_bind. eapply tot_lift; [exact He|]. apply u32_try_from_Some in He as [-> _]. now apply tot_ret.
  - cbn in He. destruct op; try discriminate He; apply bind_Some in He as (x & Hx & He); apply bind_Some in He as (y & Hy & He); cbn [eval_expression];
      apply tot_bind; (eapply IHl; [exact Hx|]); apply tot_bind; (eapply tot_lift; [reflexivity|]); apply tot_bind; (eapply IHr; [exact Hy|]); apply tot_bind; (eapply tot_lift; [reflexivity|]); apply tot_bind.
    + eapply tot_lift; [cbn; rewrite He; reflexivity|]. now apply tot_ret.
    + apply bind_Some in He as (k & Hk & He). eapply tot_lift; [cbn [eval_binary]; rewrite Hk; cbn; rewrite He; reflexivity|]. now apply tot_ret.
  - cbn in He. destruct op; try discriminate He. apply bind_Some in He as (x & Hx & He). cbn [eval_expression].
    apply tot_bind. eapply IHa; [exact Hx|]. apply tot_bind. eapply tot_lift; [reflexivity|]. apply tot_bind. eapply tot_lift; [reflexivity|].
    apply tot_bind. eapply tot_lift; [exact He|]. now apply tot_ret.
Qed.

Lemma tot_eval_all ins : forall zs Q s, mapM (eval_literal labels) ins = Some zs -> Q (Binary <$> zs) s ->
  tot (map_collect (fun a => o ← eval_expression env a; lift o) ins) Q s.
Proof.
  induction ins as [|a ins IH]; intros zs Q s Hz HQ.
  - injection Hz as <-. now apply tot_ret.
  - cbn in Hz. apply bind_Some in Hz as (z & Ha & Hz). apply bind_Some in Hz as (zs' & Hzs & [= <-]). cbn [map_collect].
    apply tot_bind, tot_bind. eapply tot_eval; [exact Ha|]. eapply tot_lift; [reflexivity|]. apply tot_bind. eapply IH; [exact Hzs|]. now apply tot_ret.
Qed.

Lemma tot_set_const_cols Q e : Q tt e -> tot (set_const_cols env) Q e.
Proof.
  intros HQ. unfold set_const_cols. cbn [for_each]. unfold col_is_defined. rewrite Hmode. cbn [tracing andb].
  do 4 (apply tot_bind, tot_ret). now apply tot_ret.
Qed.

Lemma tot_backup f σ Q e : Rel f σ e -> (forall e', Rel f σ e' -> Q tt e') -> tot (on_proc backup_reg_mem) Q e.
Proof. intros [R1 R2 R3 R4 R5 R6 R7] HQ. apply tot_on_part, tot_bind, tot_gets, tot_modify. apply HQ. split; assumption. Qed.

Lemma tot_run_instruction f name i zs σ σ' c Q e : from_name name = Some i -> fr_step f + 3 < 2 ^ 32 -> 0 <= fr_pc f < 2 ^ 31 ->
  Rel f σ e -> asm_exec (fr_pc f) i zs σ = Some (σ', c) -> lands (fr_pc f) c ->
  (forall r e', Rel (after c f) σ' e' -> Q r e') -> tot (run_instruction env name (Binary <$> zs)) Q e.
Proof.
  intros Hn Hst Hpc HR Hx Hl HQ. unfold run_instruction. apply tot_bind. eapply tot_backup; [exact HR|]. intros e1 HR1.
  apply tot_bind, tot_set_const_cols, tot_bind. eapply tot_lift; [exact Hn|].
  eapply tot_conseq; [apply (sim_instruction f i zs σ σ' c e1 Hst Hpc HR1 Hx Hl)|]. intros r e'. apply HQ.
Qed.

(** The executor is at the beginning of the statement on line [l] of the batch [p]. *)
Record Ready (p l : Z) (f : Frame) : Prop := {
  ready_pc : fr_pc f = p;
  ready_line : fr_line f = l + 1;
  ready_next : map_at (p + 1) = Some (l + 1) -> fr_next f = p + 1
}.

(** The batch [p] starts at line [l] and is not the last entry. *)
Record BatchAt (p l : Z) : Prop := {
  batch_pc : 0 <= p < 2 ^ 31 - 1;
  batch_line : map_at p = Some l;
  batch_next : exists m, map_at (p + 1) = Some m /\ l + 1 <= m
}.

Lemma tot_advance f σ t l e (Q : option Z -> E -> Prop) : Rel f σ e -> 0 <= fr_pc f -> fr_next f = t -> fr_line f = l -> BatchAt t l ->
  -1 <= l < 2 ^ 32 - 1 -> 0 <= fr_rows f < max_rows (config env) ->
  (forall f' e', Rel f' σ e' -> Ready t l f' -> fr_step f' = fr_step f -> fr_rows f <= fr_rows f' <= fr_rows f + 1 -> Q (Some l) e') ->
  tot (on_proc (advance (config env))) Q e.
Proof.
  intros HR Hpc Hnext Hline [Ht Hl (m & Hm & Hlm)] Hl32 Hrows HQ. apply tot_on_part. unfold advance. apply tot_bind. unfold next_row.
  assert (Htail : forall b n, curr_pc b = Binary t -> regs b !! pc_idx (config env) = Some (Binary t) -> next_statement_line b = l -> step e = fr_step f -> trace_len b = n ->
    (forall r, reg_value (reg_last b) r = Binary (get σ r)) -> mem b = asm_mem σ -> fr_rows f <= n <= fr_rows f + 1 ->
    tot (st_line ← gets next_statement_line; nl ← lift (checked_add 32 st_line 1); modify (set_next_line nl);; r ← set_next_pc (config env);
         mret (match r with Some _ => Some st_line | None => None end)) (fun a p => Q a (put_proc p e)) b).
  { intros b n C1 C2 C3 C4 C5 C6 C7 Hn. apply tot_bind, tot_gets. rewrite C3. apply tot_bind.
    eapply tot_lift; [unfold checked_add; rewrite (proj2 (Z.ltb_lt _ _)) by lia; reflexivity|]. apply tot_bind, tot_modify. unfold set_next_pc. apply tot_bind, tot_bind, tot_gets.
    cbn [curr_pc set_next_line]. rewrite C1. apply tot_bind. eapply tot_lift; [apply elem_u_Some; split; [reflexivity|lia]|]. rewrite Hm. apply tot_bind, tot_gets. cbn [next_statement_line set_next_line].
    destruct (Z.compare_spec (l + 1) m) as [He|Hlt|Hgt]; [| |lia].
    - apply tot_bind. eapply tot_lift; [unfold checked_add; rewrite (proj2 (Z.ltb_lt _ _)) by lia; reflexivity|]. apply tot_bind, tot_gets. cbn [regs set_next_line].
      pose proof (lookup_lt_Some _ _ _ C2) as Hlt. apply tot_bind. eapply tot_lift; [unfold list_set; rewrite (proj2 (Nat.ltb_lt _ _) Hlt); reflexivity|].
      apply tot_bind, tot_modify, tot_ret, tot_ret. apply (HQ (mkFrame t (t + 1) (l + 1) (fr_step f) n)); [|split; reflexivity|reflexivity|exact Hn].
      split; try assumption; try reflexivity. cbn. now rewrite list_lookup_insert_eq.
    - apply tot_ret, tot_ret. apply (HQ (mkFrame t t (l + 1) (fr_step f) n)); [|split; try reflexivity; cbn; intros He; rewrite Hm in He; injection He; lia|reflexivity|exact Hn].
      split; try assumption; reflexivity. }
  destruct HR as [R1 R2 R3 R4 R5 R6 R7]. unfold get_next_pc. apply tot_bind, tot_bind, tot_gets. eapply tot_lift; [exact R2|]. apply tot_bind, tot_gets. rewrite R1, Hnext. cbn [elem_eqb].
  destruct (Z.eqb_spec (fr_pc f) t) as [He|He].
  - apply tot_ret. apply (Htail (proc e) (fr_rows f)); try assumption; [now rewrite R1, He|now rewrite R2, Hnext|now rewrite R3|lia].
  - unfold has_enough_rows. apply tot_bind, tot_bind, tot_gets, tot_ret. rewrite R5, (proj2 (Z.leb_gt _ _)) by lia. apply tot_bind, tot_gets, tot_bind, tot_modify.
    apply tot_bind. unfold RiscvTrace.set_col. rewrite Hmode. cbn [witnessing whenM]. apply tot_ret. apply tot_bind. eapply tot_lift; [apply elem_u_Some; split; [reflexivity|lia]|].
    apply tot_bind. unfold push_row. rewrite Hmode. cbn [tracing witnessing whenM]. apply tot_bind, tot_ret, tot_ret. apply tot_bind, tot_modify, tot_ret.
    apply (Htail _ (fr_rows f + 1)); cbn; try assumption; try reflexivity; [now rewrite R2, Hnext|now rewrite R3|now rewrite R5|lia].
Qed.

Definition room (n : Z) (f : Frame) : Prop :=
  fr_step f + 4 * n + 4 < 2 ^ 32 /\ 0 <= fr_rows f /\ fr_rows f + n <= max_rows (config env).

(** The state after the step counter has been increased. *)
Definition stepped (f : Frame) : Frame := mkFrame (fr_pc f) (fr_next f) (fr_line f) (fr_step f + 4) (fr_rows f).

Lemma tot_step {A} f σ n (k : M E A) Q e : 0 < n -> room n f -> Rel f σ e -> (forall e', Rel (stepped f) σ e' -> tot k Q e') ->
  tot (s ← step_plus 4; modify (put_step s);; k) Q e.
Proof.
  intros Hn (Hs & _) [R1 R2 R3 R4 R5 R6 R7] HQ. unfold step_plus. apply tot_bind, tot_bind, tot_gets. eapply tot_lift.
  { unfold checked_add. rewrite R4, (proj2 (Z.ltb_lt _ _)) by lia. reflexivity. }
  apply tot_bind, tot_modify, HQ. split; assumption || reflexivity.
Qed.

(** Where the next instruction is. *)
Definition goes_to (p : Z) (c : Control) : Z := default (p + 1) (target p c).

Lemma jump_arguments name i zs σ σ' p c : from_name name = Some i -> name = "jump"%string \/ name = "jump_dyn"%string -> asm_exec p i zs σ = Some (σ', c) ->
  exists w t, zs !! 1%nat = Some w /\ 0 <= w < 2 ^ 32 /\ c = Goto t /\ 0 <= t < 2 ^ 32.
Proof.
  intros Hn [->| ->] Hx; (assert (Hi : from_name _ = Some i) by exact Hn); vm_compute in Hi; injection Hi as <-; cbn in Hx;
    (destruct zs as [|x [|w [|]]]; try discriminate Hx); apply bind_Some in Hx as (u & Hu & Hx); apply are_u32_spec in Hu; rewrite !Forall_cons in Hu; destruct_and? Hu.
  - apply bind_Some in Hx as (? & _ & [= _ <-]). exists w, x. repeat split; try reflexivity; lia.
  - apply bind_Some in Hx as (? & Ht & Hx). apply bind_Some in Hx as (? & _ & [= _ <-]). apply are_u32_spec in Ht. rewrite !Forall_cons in Ht. exists w, (get σ x). repeat split; try reflexivity; lia.
Qed.

(** A line with an instruction of the machine. *)
Lemma line_step p l lt name ins σ σ' c f e n (Q : option Z -> E -> Prop) :
  Ready p l f -> Rel f σ e -> 0 < n -> room n f -> 0 <= p < 2 ^ 31 -> 0 <= l ->
  statements program !! Z.to_nat l = Some (SInstruction name ins) ->
  asm_step labels p (SInstruction name ins) σ = Some (σ', c) ->
  (c = Next -> map_at (p + 1) = Some (l + 1)) -> BatchAt (goes_to p c) lt -> 0 <= lt < 2 ^ 32 - 1 ->
  (forall f' e', Rel f' σ' e' -> Ready (goes_to p c) lt f' -> room (n - 1) f' -> Q (Some lt) e') ->
  tot (exec_line env program l) Q e.
Proof.
  intros [Hpc Hline Hnx] HR Hn Hroom Hp Hl Hstm Hstep Hseq Hbatch Hlt HQ.
  unfold asm_step in Hstep. apply bind_Some in Hstep as (i & Hi & Hstep). apply bind_Some in Hstep as (zs & Hzs & Hx).
  pose proof Hroom as (Hs & Hr0 & Hrows).
  assert (Hlands : lands p c).
  { intros t Ht. destruct Hbatch as [Hb1 Hb2 _]. unfold goes_to in *. rewrite Ht in Hb1, Hb2. cbn in Hb1, Hb2. split; [lia|now exists lt]. }
  assert (Hrun : forall (Q' : option (Elem T) -> E -> Prop) e', Rel (stepped f) σ e' -> (forall r e'', Rel (after c (stepped f)) σ' e'' -> Q' r e'') ->
    tot (exec_instruction env name ins) Q' e').
  { intros Q' e' HR' HQ'. unfold exec_instruction. apply tot_bind. eapply tot_eval_all; [exact Hzs|].
    eapply (tot_run_instruction (stepped f)); [exact Hi|cbn; lia|cbn; lia|exact HR'|cbn; rewrite Hpc; exact Hx|cbn; rewrite Hpc; exact Hlands|exact HQ']. }
  assert (Hadv : forall e', Rel (after c (stepped f)) σ' e' -> tot (on_proc (advance (config env))) Q e').
  { intros e' HR'. assert (Hfr : fr_next (after c (stepped f)) = goes_to p c /\ fr_line (after c (stepped f)) = lt /\ fr_step (after c (stepped f)) = fr_step f + 4 /\ fr_rows (after c (stepped f)) = fr_rows f /\ fr_pc (after c (stepped f)) = p).
    { unfold after, goes_to in *. cbn [stepped fr_pc]. rewrite Hpc. destruct (target p c) as [t|] eqn:Ht; cbn in Hbatch |- *.
      - destruct Hbatch as [_ Hb _]. rewrite Hb. repeat split. exact Hpc.
      - destruct c; try discriminate Ht. specialize (Hseq eq_refl). destruct Hbatch as [_ Hb _]. rewrite Hseq in Hb. injection Hb as <-. repeat split; [exact (Hnx Hseq)|exact Hline|exact Hpc]. }
    destruct Hfr as (F1 & F2 & F3 & F4 & F5). eapply (tot_advance _ σ'); [exact HR'|lia|exact F1|exact F2|exact Hbatch|lia|lia|].
    intros f' e'' HR'' HRd Hs' Hr'. apply (HQ f' e''); [exact HR''|exact HRd|]. unfold room. lia. }
  unfold exec_line. apply tot_bind. eapply tot_lift; [exact Hstm|].
  apply (tot_step f σ n); [exact Hn|exact Hroom|exact HR|]. intros e1 HR1. apply tot_bind. cbn [exec_statement]. apply tot_bind, tot_set_col.
  destruct (bool_decide (name = "jump"%string) || bool_decide (name = "jump_dyn"%string)) eqn:Hj.
  - assert (Hname : name = "jump"%string \/ name = "jump_dyn"%string).
    { apply orb_true_iff in Hj as [Hj|Hj]; apply bool_decide_eq_true in Hj; auto. }
    destruct (jump_arguments name i zs σ σ' p c Hi Hname Hx) as (w & t & Hw & Hw32 & -> & Ht32).
    apply tot_bind, tot_on_part, tot_gets. replace (put_proc (proc e1) e1) with e1 by now destruct e1. rewrite (rel_pc _ _ _ HR1).
    apply tot_bind. eapply tot_lift; [apply elem_u_Some; split; [reflexivity|cbn; lia]|]. apply tot_bind. eapply Hrun; [exact HR1|]. intros r e2 HR2.
    apply tot_bind, tot_on_part, tot_bind, tot_gets. eapply tot_lift; [exact (rel_next _ _ _ HR2)|]. replace (put_proc (proc e2) e2) with e2 by now destruct e2.
    apply tot_bind. eapply tot_lift. { apply elem_u_Some. split; [reflexivity|]. unfold after. cbn. lia. }
    apply mapM_Some in Hzs. destruct (Forall2_lookup_r _ _ _ _ _ Hzs Hw) as (a & Ha & Haw).
    apply tot_bind. eapply tot_lift; [exact Ha|]. apply tot_bind. eapply tot_eval; [exact Haw|]. apply tot_bind. eapply tot_lift; [reflexivity|].
    apply tot_bind. eapply tot_lift; [apply elem_u_Some; split; [reflexivity|exact Hw32]|]. apply tot_ret. now apply Hadv.
  - apply tot_bind. eapply Hrun; [exact HR1|]. intros r e2 HR2. apply tot_ret. now apply Hadv.
Qed.

(** *** A block of code *)

(** A block of code at the batch [p] and the line [l], one statement per batch. *)
Record CodeAt (p l : Z) (code : list FunctionStatement) : Prop := {
  code_pc : 0 <= p; code_line : 0 <= l;
  code_statement : forall i s, code !! i = Some s -> statements program !! Z.to_nat (l + Z.of_nat i) = Some s;
  code_batch : forall i, (i < length code)%nat -> map_at (p + Z.of_nat i) = Some (l + Z.of_nat i) /\ map_at (p + Z.of_nat i + 1) = Some (l + Z.of_nat i + 1);
  code_end : BatchAt (p + Z.of_nat (length code)) (l + Z.of_nat (length code));
  code_end_line : l + Z.of_nat (length code) < 2 ^ 32 - 1
}.

Lemma code_at_tail p l s code : CodeAt p l (s :: code) -> CodeAt (p + 1) (l + 1) code.
Proof.
  intros [H1' H2' H3 H4 H5 H6]. cbn [length] in H5, H6. rewrite Nat2Z.inj_succ in H5, H6. split; try lia.
  - intros i x Hx. replace (l + 1 + Z.of_nat i) with (l + Z.of_nat (S i)) by lia. now apply H3.
  - intros i Hi. replace (p + 1 + Z.of_nat i) with (p + Z.of_nat (S i)) by lia. replace (l + 1 + Z.of_nat i) with (l + Z.of_nat (S i)) by lia. apply H4. cbn. lia.
  - replace (p + 1 + Z.of_nat (length code)) with (p + Z.succ (Z.of_nat (length code))) by lia. now replace (l + 1 + Z.of_nat (length code)) with (l + Z.succ (Z.of_nat (length code))) by lia.
Qed.

Lemma code_at_batch p l code i : CodeAt p l code -> (i <= length code)%nat -> BatchAt (p + Z.of_nat i) (l + Z.of_nat i).
Proof.
  intros HC Hi. destruct (decide (i = length code)) as [->|Hne]; [apply (code_end _ _ _ HC)|]. destruct (code_batch _ _ _ HC i) as [Hm Hm']; [lia|].
  pose proof (batch_pc _ _ (code_end _ _ _ HC)). pose proof (code_pc _ _ _ HC). split; [lia|exact Hm|]. exists (l + Z.of_nat i + 1). split; [exact Hm'|lia].
Qed.

Lemma run_block_skip lb code : forall p k σ r, run_block lb p k code σ = Some r -> (k <= length code)%nat.
Proof. induction code as [|s code IH]; intros p [|k] σ r Hr; cbn in *; try lia; try discriminate. apply IH in Hr. lia. Qed.

(** Lines executed one after the other. *)
Fixpoint exec_lines (n : nat) (l : Z) : M E (option Z) :=
  match n with
  | O => mret (Some l)
  | S n' => r ← exec_line env program l; match r with Some l' => exec_lines n' l' | None => mret None end
  end.

Lemma exec_lines_loop n : forall l l' e e' fuel, exec_lines n l e = Some (Some l', e') -> exec_loop env program (n + fuel) l e = exec_loop env program fuel l' e'.
Proof.
  induction n as [|n IH]; intros l l' e e' fuel He; cbn in He; [now injection He as <- <-|]. cbn [exec_lines Nat.add exec_loop].
  unfold mbind, M_bind in He |- *. destruct (exec_line env program l e) as [[[l1|] e1]|]; [|discriminate|discriminate]. now apply IH.
Qed.

(** Where a block that ends at [p] and [l] is left. *)
Definition exit_pos (p : Z) (ex : Exit) : Z := match ex with Fall => p | Jump t => t end.
Definition exit_line (tl l : Z) (ex : Exit) : Z := match ex with Fall => l | Jump _ => tl end.

(** A block runs with [n] rows to spare, to its end or to the line [tl] of the batch it jumps to. *)
Lemma block_sim code : forall m tl p l k σ σ' ex f e, run_block labels p k code σ = Some (σ', ex) -> CodeAt p l code ->
  Ready (p + Z.of_nat k) (l + Z.of_nat k) f -> Rel f σ e -> 0 <= m -> room (Z.of_nat (length code) + m) f ->
  (forall t, ex = Jump t -> BatchAt t tl /\ 0 <= tl < 2 ^ 32 - 1) ->
  exists n f' e', exec_lines n (l + Z.of_nat k) e = Some (Some (exit_line tl (l + Z.of_nat (length code)) ex), e') /\ Rel f' σ' e' /\ room m f' /\
    Ready (exit_pos (p + Z.of_nat (length code)) ex) (exit_line tl (l + Z.of_nat (length code)) ex) f'.
Proof.
  induction code as [|s code IH]; intros m tl p l k σ σ' ex f e Hrun HC HRd HR Hm Hroom Hex.
  - destruct k; [|discriminate]. injection Hrun as <- <-. exists O, f, e. split; [reflexivity|]. split; [exact HR|]. split; [|exact HRd].
    now rewrite Z.add_0_l in Hroom.
  - pose proof (code_at_tail _ _ _ _ HC) as HC'. cbn [length] in *. rewrite Nat2Z.inj_succ in *.
    replace (p + Z.succ (Z.of_nat (length code))) with (p + 1 + Z.of_nat (length code)) by lia. replace (l + Z.succ (Z.of_nat (length code))) with (l + 1 + Z.of_nat (length code)) by lia.
    destruct k as [|k].
    + cbn [run_block] in Hrun. apply bind_Some in Hrun as ([σ1 c] & Hstep & Hrun). destruct s as [|name ins| | |]; try discriminate Hstep.
      change (Z.of_nat 0) with 0 in *. rewrite !Z.add_0_r in HRd. rewrite Z.add_0_r. pose proof (code_statement _ _ _ HC 0 _ eq_refl) as Hstm. rewrite Z.add_0_r in Hstm.
      destruct (code_batch _ _ _ HC 0) as [_ Hm1]; [cbn; lia|]. rewrite !Z.add_0_r in Hm1. pose proof (code_pc _ _ _ HC). pose proof (code_line _ _ _ HC). pose proof (code_end_line _ _ _ HC) as Hend. cbn [length] in Hend.
      pose proof (batch_pc _ _ (code_end _ _ _ HC)) as Hpe. cbn [length] in Hpe.
      assert (Hgo : forall lt, (c = Next -> map_at (p + 1) = Some (l + 1)) -> BatchAt (goes_to p c) lt -> 0 <= lt < 2 ^ 32 - 1 ->
        exists f1 e1, exec_line env program l e = Some (Some lt, e1) /\ Rel f1 σ1 e1 /\ Ready (goes_to p c) lt f1 /\ room (Z.of_nat (length code) + m) f1).
      { intros lt Hseq Hb Hlt.
        destruct (line_step p l lt name ins σ σ1 c f e (Z.succ (Z.of_nat (length code)) + m)
          (fun r e1 => r = Some lt /\ exists f1, Rel f1 σ1 e1 /\ Ready (goes_to p c) lt f1 /\ room (Z.of_nat (length code) + m) f1))
          as (r & e1 & He1 & -> & f1 & Hf1); try assumption; try lia; [|now exists f1, e1].
        intros f' e' HR' HRd' Hroom'. split; [reflexivity|]. exists f'. split; [exact HR'|]. split; [exact HRd'|].
        now replace (Z.of_nat (length code) + m) with (Z.succ (Z.of_nat (length code)) + m - 1) by lia. }
      assert (Hskip : forall j, goes_to p c = p + 1 + Z.of_nat j -> run_block labels (p + 1) j code σ1 = Some (σ', ex) ->
        exists n f' e', exec_lines n l e = Some (Some (exit_line tl (l + 1 + Z.of_nat (length code)) ex), e') /\ Rel f' σ' e' /\ room m f' /\
          Ready (exit_pos (p + 1 + Z.of_nat (length code)) ex) (exit_line tl (l + 1 + Z.of_nat (length code)) ex) f').
      { intros j Hgoes Hrun'. pose proof (run_block_skip _ _ _ _ _ _ Hrun') as Hjl. pose proof (code_at_batch _ _ _ j HC' Hjl) as Hb.
        destruct (Hgo (l + 1 + Z.of_nat j)) as (f1 & e1 & He1 & HR1 & HRd1 & Hroom1); [intros _; exact Hm1|now rewrite Hgoes|lia|].
        rewrite Hgoes in HRd1. destruct (IH m tl (p + 1) (l + 1) j σ1 σ' ex f1 e1 Hrun' HC' HRd1 HR1 Hm Hroom1 Hex) as (n & f' & e' & Hn & Hrest). exists (S n), f', e'. split; [|exact Hrest].
        cbn [exec_lines]. eapply bind_run; [exact He1|]. exact Hn. }
      destruct c as [|j|t].
      * apply (Hskip O); [unfold goes_to; cbn; lia|exact Hrun].
      * apply (Hskip j); [unfold goes_to; cbn; lia|exact Hrun].
      * injection Hrun as <- <-. destruct (Hex t eq_refl) as (Hb & Hlt). destruct (Hgo tl) as (f1 & e1 & He1 & HR1 & HRd1 & Hr1 & Hr2 & Hr3); [discriminate|exact Hb|exact Hlt|].
        exists 1%nat, f1, e1. split; [cbn [exec_lines]; eapply bind_run; [exact He1|reflexivity]|]. split; [exact HR1|]. split; [unfold room; lia|exact HRd1].
    + cbn [run_block] in Hrun. rewrite ?Nat2Z.inj_succ in HRd |- *.
      destruct (IH m tl (p + 1) (l + 1) k σ σ' ex f e Hrun HC') as (n & f' & e' & Hn & Hrest); [now replace (p + 1 + Z.of_nat k) with (p + Z.succ (Z.of_nat k)) by lia; replace (l + 1 + Z.of_nat k) with (l + Z.succ (Z.of_nat k)) by lia|exact HR|exact Hm|unfold room in *; lia|exact Hex|].
      exists n, f', e'. split; [|exact Hrest]. now replace (l + Z.succ (Z.of_nat k)) with (l + 1 + Z.of_nat k) by lia.
Qed.

End Simulation.
