(* ===== verification/RiscvCodeGen.v ===== *)
(** * The code generator for RISC-V programs, [riscv/src/large_field/code_gen.rs]

    A RISC-V instruction becomes a list of statements of powdr assembly. The source writes them
    as text; here they are the statements that the text denotes, so that a hexadecimal literal and
    a decimal one are the same number, and comments disappear. *)

From stdpp Require Import base list option gmap strings pretty.
From Stdlib Require Import ZArith Lia Ascii.
From S2P Require Import Prelude RiscvElem RiscvExec RiscvRun.

(** ** Registers, [riscv/src/code_gen.rs] *)

(** A register is a [u8]. *)
Definition Register := Z.
Definition is_zero (r : Register) : bool := r =? 0.
Definition addr (r : Register) : Z := r.

(** [str::parse::<u8>]. *)
Definition digit_of (c : ascii) : option Z :=
  let n := Z.of_N (N_of_ascii c) in if (48 <=? n) && (n <=? 57) then Some (n - 48) else None.
Fixpoint parse_digits (acc : Z) (s : string) : option Z :=
  match s with
  | EmptyString => Some acc
  | String c s' => d ← digit_of c; let v := 10 * acc + d in if v <? 256 then parse_digits v s' else None
  end.
Definition parse_u8 (s : string) : option Z :=
  match s with
  | EmptyString => None
  | String "+" EmptyString => None
  | String "+" s' => parse_digits 0 s'
  | _ => parse_digits 0 s
  end.

Definition register_from (s : string) : option Register :=
  match strip_prefix "xtra" s with
  | Some p => value ← parse_u8 p; _ ← assert_that (value + 37 <? 256); Some (value + 37)
  | None =>
    match strip_prefix "x" s with
    | Some p => value ← parse_u8 p; _ ← assert_that (value <? 32); Some value
    | None =>
      match strip_prefix "tmp" s with
      | Some p => value ← parse_u8 p; _ ← assert_that (1 <=? value); _ ← assert_that (value <=? 4); Some (value - 1 + 32)
      | None => if bool_decide (s = "lr_sc_reservation"%string) then Some 36 else None
      end
    end
  end.

Definition register_display (r : Register) : string :=
  if r <? 32 then "x" +:+ pretty r
  else if r <? 36 then "tmp" +:+ pretty (r - 31 + 1)
  else if r =? 36 then "lr_sc_reservation"
  else "xtra" +:+ pretty (r - 37).

Definition tmp1 : Register := 32.
Definition tmp2 : Register := 33.
Definition tmp3 : Register := 34.
Definition tmp4 : Register := 35.
Definition lr_sc_reservation : Register := 36.

Example registers_by_name : map register_from ["tmp1"; "tmp2"; "tmp3"; "tmp4"; "lr_sc_reservation"; "x31"; "x32"; "xtra1"]%string =
  [Some tmp1; Some tmp2; Some tmp3; Some tmp4; Some lr_sc_reservation; Some 31; None; Some 38].
Proof. reflexivity. Qed.

(** The displayed number of a temporary register is one more than the number it is read with,
    and the name displayed for the last one is not a name of a register. *)
Lemma temporary_display :
  map register_display [tmp1; tmp2; tmp3; tmp4] = ["tmp2"; "tmp3"; "tmp4"; "tmp5"]%string
  /\ map (register_from ∘ register_display) [tmp1; tmp2; tmp3; tmp4] = [Some tmp2; Some tmp3; Some tmp4; None].
Proof. split; reflexivity. Qed.

(** ** Labels, [isa-utils/src/lib.rs] *)

(** [str::replace], for a pattern that is not empty. *)
Fixpoint replace_from (fuel : nat) (pattern by_ s : string) : string :=
  match fuel with
  | O => s
  | S fuel' =>
    match strip_prefix pattern s with
    | Some rest => by_ +:+ replace_from fuel' pattern by_ rest
    | None => match s with EmptyString => EmptyString | String c s' => String c (replace_from fuel' pattern by_ s') end
    end
  end.
Definition replace (pattern by_ s : string) : string := replace_from (String.length s) pattern by_ s.

Definition escape_label (l : string) : string :=
  foldl (fun s p => replace (fst p) (snd p) s) l
    [("."%string, "_dot_"); ("/", "_slash_"); ("[]", "_slice_"); (",", "_comma_"); ("(", "_left_parens_"); (")", "_right_parens_");
     ("[", "_left_square_"); ("]", "_right_square_"); ("{", "_left_brace_"); ("}", "_right_brace_"); (" ", "_space_"); ("'", "_quote_"); ("*", "_deref_")]%string.

Example escape_example : escape_label "core::fmt.[u8;4][]" = "core::fmt_dot__left_square_u8;4_right_square__slice_"%string.
Proof. reflexivity. Qed.

(** ** Arguments, [riscv/src/code_gen.rs] *)

(** The trait [InstructionArgs]; [None] is an error. *)
Record InstructionArgs := mkArgs {
  arg_l : option string;
  arg_r : option Register;
  arg_rri : option (Register * Register * Z);
  arg_rrr : option (Register * Register * Register);
  arg_rrr2 : option (Register * Register * Register);
  arg_ri : option (Register * Z);
  arg_rr : option (Register * Register);
  arg_rrl : option (Register * Register * string);
  arg_rl : option (Register * string);
  arg_rro : option (Register * Register * Z);
  arg_empty : option unit
}.

Inductive Statement :=
| StDebugLoc (file line col : Z)
| StLabel (l : string)
| StInstruction (op : string) (args : InstructionArgs).

Inductive SingleDataValue := Value (v : Z) | LabelReference (sym : string) | Offset (a b : string).
Record MemEntry := mkMemEntry { entry_label : option string; entry_addr : Z; entry_value : SingleDataValue }.

(** ** The runtime, as far as the generated statements depend on it *)

(** [SyscallImpl]: its name, its number and its statements. *)
Record SyscallImpl := mkSyscall { sys_name : string; sys_number : Z; sys_statements : list FunctionStatement }.
(** The system calls in the order of the map, that is, by name. *)
Definition Runtime := list SyscallImpl.

Definition get_syscall_impl (runtime : Runtime) (name : string) : option SyscallImpl :=
  List.find (fun s => bool_decide (sys_name s = name)) runtime.

(** ** Statements *)

Definition instr (name : string) (args : list Expression) : FunctionStatement := SInstruction name args.
Definition reg (r : Register) : Expression := ENumber (addr r).
Definition num (n : Z) : Expression := ENumber n.
Definition neg (e : Expression) : Expression := EUnaryOperation OpMinus e.
(** A signed number as it is printed. *)
Definition signed (n : Z) : Expression := if n <? 0 then neg (num (- n)) else num n.
Definition label_ref (l : string) : Expression := EReference [l].

Definition only_if_no_write_to_zero_vec (r : Register) (statements : list FunctionStatement) : list FunctionStatement :=
  if is_zero r then [] else statements.
Definition only_if_no_write_to_zero (r : Register) (statement : FunctionStatement) : list FunctionStatement :=
  only_if_no_write_to_zero_vec r [statement].

Definition starts_with (p s : string) : bool := match strip_prefix p s with Some _ => true | None => false end.

Definition push_register (name : string) : option (list FunctionStatement) :=
  _ ← assert_that (starts_with "x" name);
  r ← register_from name;
  Some [instr "add_wrap" [num 2; num 0; neg (num 4); num 2];
        instr "mstore" [num 2; num 0; num 0; reg r]].

Definition pop_register (name : string) : option (list FunctionStatement) :=
  _ ← assert_that (starts_with "x" name);
  r ← register_from name;
  Some [instr "mload" [num 2; num 0; reg r; reg tmp1];
        instr "add_wrap" [num 2; num 0; num 4; num 2]].

(** ** Instructions

    One definition per arm of [process_instruction]; [None] is a panic or an error of the
    arguments, on which the caller panics. *)

Section Arms.
Variable args : InstructionArgs.
Notation code := (option (list FunctionStatement)).

(** *** Load and store of registers *)

Definition gen_li : code :=
  match arg_rl args with
  | Some (rd, label) => Some (only_if_no_write_to_zero rd (instr "load_label" [reg rd; label_ref (escape_label label)]))
  | None => '(rd, imm) ← arg_ri args; Some (only_if_no_write_to_zero rd (instr "set_reg" [reg rd; num imm]))
  end.
Definition gen_lui : code :=
  '(rd, imm) ← arg_ri args; Some (only_if_no_write_to_zero rd (instr "set_reg" [reg rd; num (as_width 32 (Z.shiftl imm 12))])).
Definition gen_mv : code :=
  '(rd, rs) ← arg_rr args; Some (only_if_no_write_to_zero rd (instr "affine" [reg rs; reg rd; num 1; num 0])).

(** *** Arithmetic *)

Definition gen_add : code :=
  '(rd, r1, r2) ← arg_rrr args; Some (only_if_no_write_to_zero rd (instr "add_wrap" [reg r1; reg r2; num 0; reg rd])).
Definition gen_addi : code :=
  '(rd, rs, imm) ← arg_rri args; Some (only_if_no_write_to_zero rd (instr "add_wrap" [reg rs; num 0; num imm; reg rd])).
Definition gen_sub : code :=
  '(rd, r1, r2) ← arg_rrr args; Some (only_if_no_write_to_zero rd (instr "sub_wrap_with_offset" [reg r1; reg r2; num 0; reg rd])).
Definition gen_neg : code :=
  '(rd, r1) ← arg_rr args; Some (only_if_no_write_to_zero rd (instr "sub_wrap_with_offset" [num 0; reg r1; num 0; reg rd])).
Definition gen_mul : code :=
  '(rd, r1, r2) ← arg_rrr args; Some (only_if_no_write_to_zero rd (instr "mul" [reg r1; reg r2; reg rd; reg tmp1])).
Definition gen_mulhu : code :=
  '(rd, r1, r2) ← arg_rrr args; Some (only_if_no_write_to_zero rd (instr "mul" [reg r1; reg r2; reg tmp1; reg rd])).
Definition gen_mulh : code :=
  '(rd, r1, r2) ← arg_rrr args;
  Some (only_if_no_write_to_zero_vec rd [
    instr "to_signed" [reg r1; reg tmp1];
    instr "to_signed" [reg r2; reg tmp2];
    instr "is_diff_greater_than" [reg tmp1; num 0; neg (num 1); reg tmp3];
    instr "is_diff_greater_than" [reg tmp2; num 0; neg (num 1); reg tmp4];
    instr "skip_if_equal" [num 0; reg tmp3; num 1; num 1];
    instr "affine" [reg tmp1; reg tmp1; neg (num 1); num 0];
    instr "skip_if_equal" [num 0; reg tmp4; num 1; num 1];
    instr "affine" [reg tmp2; reg tmp2; neg (num 1); num 0];
    instr "mul" [reg tmp1; reg tmp2; reg tmp1; reg rd];
    instr "is_not_equal" [reg tmp3; reg tmp4; reg tmp3];
    instr "skip_if_equal" [reg tmp3; num 0; num 0; num 2];
    instr "is_equal_zero" [reg tmp1; reg tmp1];
    instr "sub_wrap_with_offset" [reg tmp1; reg rd; neg (num 1); reg rd]]).
Definition gen_mulhsu : code :=
  '(rd, r1, r2) ← arg_rrr args;
  Some (only_if_no_write_to_zero_vec rd [
    instr "to_signed" [reg r1; reg tmp1];
    instr "is_diff_greater_than" [reg tmp1; num 0; neg (num 1); reg tmp2];
    instr "skip_if_equal" [num 0; reg tmp2; num 1; num 1];
    instr "affine" [reg tmp1; reg tmp1; neg (num 1); num 0];
    instr "mul" [reg tmp1; reg r2; reg tmp1; reg rd];
    instr "skip_if_equal" [num 0; reg tmp2; num 1; num 2];
    instr "is_equal_zero" [reg tmp1; reg tmp1];
    instr "sub_wrap_with_offset" [reg tmp1; reg rd; neg (num 1); reg rd]]).
Definition gen_divu : code :=
  '(rd, r1, r2) ← arg_rrr args; Some (only_if_no_write_to_zero rd (instr "divremu" [reg r1; reg r2; reg rd; reg tmp1])).
Definition gen_remu : code :=
  '(rd, r1, r2) ← arg_rrr args; Some (only_if_no_write_to_zero rd (instr "divremu" [reg r1; reg r2; reg tmp1; reg rd])).

(** *** Bitwise operations *)

Definition gen_xor : code := '(rd, r1, r2) ← arg_rrr args; Some (only_if_no_write_to_zero rd (instr "xor" [reg r1; reg r2; num 0; reg rd])).
Definition gen_xori : code := '(rd, r1, imm) ← arg_rri args; Some (only_if_no_write_to_zero rd (instr "xor" [reg r1; num 0; num imm; reg rd])).
Definition gen_and : code := '(rd, r1, r2) ← arg_rrr args; Some (only_if_no_write_to_zero rd (instr "and" [reg r1; reg r2; num 0; reg rd])).
Definition gen_andi : code := '(rd, r1, imm) ← arg_rri args; Some (only_if_no_write_to_zero rd (instr "and" [reg r1; num 0; num imm; reg rd])).
Definition gen_or : code := '(rd, r1, r2) ← arg_rrr args; Some (only_if_no_write_to_zero rd (instr "or" [reg r1; reg r2; num 0; reg rd])).
Definition gen_ori : code := '(rd, r1, imm) ← arg_rri args; Some (only_if_no_write_to_zero rd (instr "or" [reg r1; num 0; num imm; reg rd])).
Definition gen_not : code := '(rd, rs) ← arg_rr args; Some (only_if_no_write_to_zero rd (instr "sub_wrap_with_offset" [num 0; reg rs; neg (num 1); reg rd])).

(** *** Shifts *)

Definition gen_slli : code :=
  '(rd, rs, amount) ← arg_rri args;
  _ ← assert_that (amount <=? 31);
  Some (only_if_no_write_to_zero_vec rd
    (if amount <=? 16 then [instr "wrap16" [reg rs; num (Z.shiftl 1 amount); reg rd]]
     else [instr "wrap16" [reg rs; num (Z.shiftl 1 16); reg tmp1];
           instr "wrap16" [reg tmp1; num (Z.shiftl 1 (amount - 16)); reg rd]])).
Definition gen_sll : code :=
  '(rd, r1, r2) ← arg_rrr args;
  Some (only_if_no_write_to_zero_vec rd [
    instr "and" [reg r2; num 0; num 0x1f; reg tmp1];
    instr "shl" [reg r1; reg tmp1; num 0; reg rd]]).
Definition gen_srli : code :=
  '(rd, rs, amount) ← arg_rri args;
  _ ← assert_that (amount <=? 31);
  Some (only_if_no_write_to_zero rd (instr "shr" [reg rs; num 0; num amount; reg rd])).
Definition gen_srl : code :=
  '(rd, r1, r2) ← arg_rrr args;
  Some (only_if_no_write_to_zero_vec rd [
    instr "and" [reg r2; num 0; num 0x1f; reg tmp1];
    instr "shr" [reg r1; reg tmp1; num 0; reg rd]]).
Definition gen_srai : code :=
  '(rd, rs, amount) ← arg_rri args;
  _ ← assert_that (amount <=? 31);
  Some (only_if_no_write_to_zero_vec rd [
    instr "to_signed" [reg rs; reg tmp1];
    instr "is_diff_greater_than" [num 0; reg tmp1; num 0; reg tmp1];
    instr "affine" [reg tmp1; reg tmp1; num 0xffffffff; num 0];
    instr "xor" [reg tmp1; reg rs; num 0; reg rd];
    instr "shr" [reg rd; num 0; num amount; reg rd];
    instr "xor" [reg tmp1; reg rd; num 0; reg rd]]).
Definition gen_sra : code :=
  '(rd, rs1, rs2) ← arg_rrr args;
  Some (only_if_no_write_to_zero_vec rd [
    instr "to_signed" [reg rs1; reg tmp1];
    instr "is_diff_greater_than" [num 0; reg tmp1; num 0; reg tmp1];
    instr "affine" [reg tmp1; reg tmp1; num 0xffffffff; num 0];
    instr "xor" [reg tmp1; reg rs1; num 0; reg tmp2];
    instr "and" [reg rs2; num 0; num 0x1f; reg tmp3];
    instr "shr" [reg tmp2; reg tmp3; num 0; reg rd];
    instr "xor" [reg tmp1; reg rd; num 0; reg rd]]).

(** *** Comparisons *)

Definition gen_seqz : code := '(rd, rs) ← arg_rr args; Some (only_if_no_write_to_zero rd (instr "is_equal_zero" [reg rs; reg rd])).
Definition gen_snez : code := '(rd, rs) ← arg_rr args; Some (only_if_no_write_to_zero rd (instr "is_not_equal" [reg rs; num 0; reg rd])).
Definition gen_slti : code :=
  '(rd, rs, imm) ← arg_rri args;
  Some (only_if_no_write_to_zero_vec rd [
    instr "to_signed" [reg rs; reg tmp1];
    instr "is_diff_greater_than" [num 0; reg tmp1; neg (signed (as_i32 imm)); reg rd]]).
Definition gen_slt : code :=
  '(rd, r1, r2) ← arg_rrr args;
  Some (only_if_no_write_to_zero_vec rd [
    instr "to_signed" [reg r1; reg tmp1];
    instr "to_signed" [reg r2; reg tmp2];
    instr "is_diff_greater_than" [reg tmp2; reg tmp1; num 0; reg rd]]).
Definition gen_sltiu : code :=
  '(rd, rs, imm) ← arg_rri args; Some (only_if_no_write_to_zero rd (instr "is_diff_greater_than" [num 0; reg rs; neg (num imm); reg rd])).
Definition gen_sltu : code :=
  '(rd, r1, r2) ← arg_rrr args; Some (only_if_no_write_to_zero rd (instr "is_diff_greater_than" [reg r2; reg r1; num 0; reg rd])).
Definition gen_sgtz : code :=
  '(rd, rs) ← arg_rr args;
  Some (only_if_no_write_to_zero_vec rd [
    instr "to_signed" [reg rs; reg tmp1];
    instr "is_diff_greater_than" [reg tmp1; num 0; num 0; reg rd]]).

(** *** Branches *)

Definition gen_beq : code :=
  '(r1, r2, label) ← arg_rrl args; Some [instr "branch_if_diff_equal" [reg r1; reg r2; num 0; label_ref (escape_label label)]].
Definition gen_beqz : code :=
  '(r1, label) ← arg_rl args; Some [instr "branch_if_diff_equal" [reg r1; num 0; num 0; label_ref (escape_label label)]].
Definition gen_bgeu : code :=
  '(r1, r2, label) ← arg_rrl args; Some [instr "branch_if_diff_greater_than" [reg r1; reg r2; neg (num 1); label_ref (escape_label label)]].
Definition gen_bgez : code :=
  '(r1, label) ← arg_rl args;
  Some [instr "to_signed" [reg r1; reg tmp1];
        instr "branch_if_diff_greater_than" [reg tmp1; num 0; neg (num 1); label_ref (escape_label label)]].
Definition gen_bltu : code :=
  '(r1, r2, label) ← arg_rrl args; Some [instr "branch_if_diff_greater_than" [reg r2; reg r1; num 0; label_ref (escape_label label)]].
Definition gen_blt : code :=
  '(r1, r2, label) ← arg_rrl args;
  Some [instr "to_signed" [reg r1; reg tmp1];
        instr "to_signed" [reg r2; reg tmp2];
        instr "branch_if_diff_greater_than" [reg tmp2; reg tmp1; num 0; label_ref (escape_label label)]].
Definition gen_bge : code :=
  '(r1, r2, label) ← arg_rrl args;
  Some [instr "to_signed" [reg r1; reg tmp1];
        instr "to_signed" [reg r2; reg tmp2];
        instr "branch_if_diff_greater_than" [reg tmp1; reg tmp2; neg (num 1); label_ref (escape_label label)]].
Definition gen_bltz : code :=
  '(r1, label) ← arg_rl args;
  Some [instr "branch_if_diff_greater_than"
    [reg r1; num 0; EBinaryOperation (EBinaryOperation (num 2) OpPow (num 31)) OpSub (num 1); label_ref (escape_label label)]].
Definition gen_blez : code :=
  '(r1, label) ← arg_rl args;
  Some [instr "to_signed" [reg r1; reg tmp1];
        instr "branch_if_diff_greater_than" [num 0; reg tmp1; neg (num 1); label_ref (escape_label label)]].
Definition gen_bgtz : code :=
  '(r1, label) ← arg_rl args;
  Some [instr "to_signed" [reg r1; reg tmp1];
        instr "branch_if_diff_greater_than" [reg tmp1; num 0; num 0; label_ref (escape_label label)]].
Definition gen_bne : code :=
  '(r1, r2, label) ← arg_rrl args; Some [instr "branch_if_diff_nonzero" [reg r1; reg r2; label_ref (escape_label label)]].
Definition gen_bnez : code :=
  '(r1, label) ← arg_rl args; Some [instr "branch_if_diff_nonzero" [reg r1; num 0; label_ref (escape_label label)]].

(** *** Jumps and calls *)

Definition gen_j : code := label ← arg_l args; Some [instr "jump" [label_ref (escape_label label); reg tmp1]].
Definition gen_jr : code := rs ← arg_r args; Some [instr "jump_dyn" [reg rs; reg tmp1]].
Definition gen_jal : code :=
  match arg_l args with
  | Some label => Some [instr "jump" [label_ref (escape_label label); num 1]]
  | None =>
    '(rd, label) ← arg_rl args;
    if is_zero rd then Some [instr "jump" [label_ref (escape_label label); reg tmp1]]
    else Some [instr "jump" [label_ref (escape_label label); reg rd]]
  end.
Definition gen_jalr : code :=
  match arg_r args with
  | Some rs => Some [instr "jump_dyn" [reg rs; num 1]]
  | None =>
    '(rd, rs, off) ← arg_rro args;
    _ ← assert_that (off =? 0);
    if is_zero rd then Some [instr "jump_dyn" [reg rs; reg tmp1]]
    else Some [instr "jump_dyn" [reg rs; reg rd]]
  end.
Definition gen_call : code := label ← arg_l args; Some [instr "jump" [label_ref (escape_label label); num 1]].
Definition gen_ecall : code :=
  _ ← arg_empty args;
  push ← push_register "x1"; pop ← pop_register "x1";
  Some (push ++ [instr "jump" [label_ref "__ecall_handler"; num 1]] ++ pop).
Definition gen_ebreak : code := _ ← arg_empty args; Some [].
Definition gen_ret : code := _ ← arg_empty args; Some [instr "jump_dyn" [num 1; reg tmp1]].

(** *** Memory *)

Definition gen_lw : code :=
  '(rd, rs, off) ← arg_rro args; Some (only_if_no_write_to_zero rd (instr "mload" [reg rs; num off; reg rd; reg tmp1])).

(** The part that the loads of bytes and half words share: the word shifted right by the offset in bits. *)
Definition load_shifted (rs : Register) (off : Z) (last : FunctionStatement) : list FunctionStatement :=
  [instr "mload" [reg rs; num off; reg tmp1; reg tmp2];
   instr "affine" [reg tmp2; reg tmp2; num 8; num 0];
   instr "shr" [reg tmp1; reg tmp2; num 0; reg tmp1];
   last].
Definition gen_lb : code :=
  '(rd, rs, off) ← arg_rro args; Some (only_if_no_write_to_zero_vec rd (load_shifted rs off (instr "sign_extend_byte" [reg tmp1; reg rd]))).
Definition gen_lbu : code :=
  '(rd, rs, off) ← arg_rro args; Some (only_if_no_write_to_zero_vec rd (load_shifted rs off (instr "and" [reg tmp1; num 0; num 0xff; reg rd]))).
Definition gen_lh : code :=
  '(rd, rs, off) ← arg_rro args; Some (only_if_no_write_to_zero_vec rd (load_shifted rs off (instr "sign_extend_16_bits" [reg tmp1; reg rd]))).
Definition gen_lhu : code :=
  '(rd, rs, off) ← arg_rro args; Some (only_if_no_write_to_zero_vec rd (load_shifted rs off (instr "and" [reg tmp1; num 0; num 0xffff; reg rd]))).

Definition gen_sw : code := '(r2, r1, off) ← arg_rro args; Some [instr "mstore" [reg r1; num 0; num off; reg r2]].

(** The stores of a byte and a half word differ in the mask. *)
Definition store_masked (mask : Z) (r2 r1 : Register) (off : Z) : list FunctionStatement :=
  [instr "mload" [reg r1; num off; reg tmp1; reg tmp2];
   instr "set_reg" [reg tmp3; num mask];
   instr "affine" [reg tmp2; reg tmp4; num 8; num 0];
   instr "shl" [reg tmp3; reg tmp4; num 0; reg tmp3];
   instr "xor" [reg tmp3; num 0; num 0xffffffff; reg tmp3];
   instr "and" [reg tmp1; reg tmp3; num 0; reg tmp1];
   instr "and" [reg r2; num 0; num mask; reg tmp3];
   instr "shl" [reg tmp3; reg tmp4; num 0; reg tmp3];
   instr "or" [reg tmp1; reg tmp3; num 0; reg tmp1];
   instr "mstore" [reg r1; reg tmp2; num off; reg tmp1]].
Definition gen_sh : code := '(r2, r1, off) ← arg_rro args; Some (store_masked 0xffff r2 r1 off).
Definition gen_sb : code := '(r2, r1, off) ← arg_rro args; Some (store_masked 0xff r2 r1 off).

Definition gen_fence : code := Some [].
Definition gen_unimp : code := Some [instr "fail" []].

(** *** Atomic instructions *)

Definition gen_amoadd_w : code :=
  '(rd, rs2, rs1) ← arg_rrr2 args;
  Some ([instr "mload" [reg rs1; num 0; reg tmp1; reg tmp2];
         instr "add_wrap" [reg tmp1; reg rs2; num 0; reg tmp2];
         instr "mstore" [reg rs1; num 0; num 0; reg tmp2]] ++
        only_if_no_write_to_zero rd (instr "affine" [reg tmp1; reg rd; num 1; num 0])).
Definition gen_lr_w : code :=
  '(rd, rs) ← arg_rr args;
  Some (only_if_no_write_to_zero_vec rd [instr "mload" [reg rs; num 0; reg rd; reg tmp1]] ++
        [instr "set_reg" [reg lr_sc_reservation; num 1]]).
Definition gen_sc_w : code :=
  '(rd, rs2, rs1) ← arg_rrr2 args;
  Some ([instr "skip_if_equal" [reg lr_sc_reservation; num 0; num 0; num 1];
         instr "mstore" [reg rs1; num 0; num 0; reg rs2]] ++
        only_if_no_write_to_zero_vec rd [instr "affine" [reg lr_sc_reservation; reg rd; neg (num 1); num 1]] ++
        [instr "set_reg" [reg lr_sc_reservation; num 0]]).

End Arms.

(** The literal patterns of the match, with their arms. *)
Definition arms : list (string * (InstructionArgs -> option (list FunctionStatement))) :=
  [("li", gen_li); ("la", gen_li); ("lui", gen_lui); ("mv", gen_mv);
   ("add", gen_add); ("addi", gen_addi); ("sub", gen_sub); ("neg", gen_neg); ("mul", gen_mul); ("mulhu", gen_mulhu); ("mulh", gen_mulh);
   ("mulhsu", gen_mulhsu); ("divu", gen_divu); ("remu", gen_remu);
   ("xor", gen_xor); ("xori", gen_xori); ("and", gen_and); ("andi", gen_andi); ("or", gen_or); ("ori", gen_ori); ("not", gen_not);
   ("slli", gen_slli); ("sll", gen_sll); ("srli", gen_srli); ("srl", gen_srl); ("srai", gen_srai); ("sra", gen_sra);
   ("seqz", gen_seqz); ("snez", gen_snez); ("slti", gen_slti); ("slt", gen_slt); ("sltiu", gen_sltiu); ("sltu", gen_sltu); ("sgtz", gen_sgtz);
   ("beq", gen_beq); ("beqz", gen_beqz); ("bgeu", gen_bgeu); ("bgez", gen_bgez); ("bltu", gen_bltu); ("blt", gen_blt); ("bge", gen_bge);
   ("bltz", gen_bltz); ("blez", gen_blez); ("bgtz", gen_bgtz); ("bne", gen_bne); ("bnez", gen_bnez);
   ("j", gen_j); ("tail", gen_j); ("jr", gen_jr); ("jal", gen_jal); ("jalr", gen_jalr); ("call", gen_call); ("ecall", gen_ecall);
   ("ebreak", gen_ebreak); ("ret", gen_ret);
   ("lw", gen_lw); ("lb", gen_lb); ("lbu", gen_lbu); ("lh", gen_lh); ("lhu", gen_lhu); ("sw", gen_sw); ("sh", gen_sh); ("sb", gen_sb);
   ("fence", fun _ => gen_fence); ("nop", fun _ => gen_fence); ("unimp", fun _ => gen_unimp)]%string.

Definition process_instruction (op : string) (args : InstructionArgs) (runtime : Runtime) : option (list FunctionStatement) :=
  match List.find (fun a => bool_decide (fst a = op)) arms with
  | Some (_, gen) => gen args
  | None =>
    if starts_with "amoadd.w" op then gen_amoadd_w args
    else if starts_with "lr.w" op then gen_lr_w args
    else if starts_with "sc.w" op then gen_sc_w args
    else syscall_impl ← get_syscall_impl runtime op; Some (sys_statements syscall_impl)
  end.

(** ** Programs *)

(** The handler of system calls: a table of branches on register 5, then the handlers. *)
Definition ecall_handler (runtime : Runtime) : list FunctionStatement :=
  [SLabel "__ecall_handler"] ++
  map (fun s => instr "branch_if_diff_equal" [num 5; num 0; num (sys_number s); label_ref ("__ecall_handler_" +:+ sys_name s)]) runtime ++
  [SLabel "__invalid_syscall"; instr "fail" []] ++
  flat_map (fun s => SLabel ("__ecall_handler_" +:+ sys_name s) :: sys_statements s ++ [instr "jump_dyn" [num 1; reg tmp1]]) runtime.

(** One entry of the memory: the words of the snapshot, and the code that stores the others. *)
Definition initial_mem_entry (continuations : bool) (e : MemEntry) : option (list (Z * Z) * list FunctionStatement) :=
  match entry_value e with
  | Value v =>
    if continuations then Some ([(entry_addr e, v)], [])
    else Some ([], [instr "set_reg" [reg tmp2; num v]; instr "set_reg" [reg tmp1; num (entry_addr e)];
                    instr "mstore" [reg tmp1; num 0; num 0; reg tmp2]])
  | LabelReference sym =>
    Some ([], [instr "load_label" [reg tmp2; label_ref (escape_label sym)]; instr "set_reg" [reg tmp1; num (entry_addr e)];
               instr "mstore" [reg tmp1; num 0; num 0; reg tmp2]])
  | Offset _ _ => None
  end.

(** An executable statement. *)
Definition translate_statement (runtime : Runtime) (s : Statement) : option (list FunctionStatement) :=
  match s with
  | StDebugLoc file line col => Some [SDebugDirective (DLoc file line col)]
  | StLabel l => Some [SLabel (escape_label l)]
  | StInstruction op args => process_instruction op args runtime
  end.

(** Source files, memory, start function and statements of a program, with the bootloader's lines if there are
    continuations; the result is the memory snapshot and the program. Comments are not statements: code for the data
    exists when some line was pushed to it, a comment included. *)
Definition translate_program_impl (files : list (Z * string * string)) (initial : list MemEntry) (start_function : string)
    (executable : list Statement) (bootloader : list FunctionStatement) (runtime : Runtime) (continuations : bool)
  : option (list (Z * Z) * list FunctionStatement) :=
  entries ← mapM (initial_mem_entry continuations) initial;
  let initial_mem := concat (map fst entries) in
  let data_code := concat (map snd entries) in
  let has_data_code := existsb (fun e => match entry_value e with Value _ => negb continuations | _ => true end) initial in
  instructions ← mapM (translate_statement runtime) executable;
  Some (initial_mem,
    map (fun f => let '(id, dir, file) := f in SDebugDirective (DFile id dir file)) files ++
    (if continuations then bootloader else []) ++
    (if has_data_code then [instr "jump" [label_ref "__data_init"; num 1]] else []) ++
    [instr "set_reg" [num 0; num 0]; instr "jump" [label_ref (escape_label start_function); num 1]; SReturn] ++
    concat instructions ++
    (if has_data_code then SLabel "__data_init" :: data_code ++ [instr "jump_dyn" [num 1; reg tmp1]] else []) ++
    ecall_handler runtime).
