(* ===== verification/RiscvIsa.v ===== *)
(** * A reference semantics of RISC-V instructions

    The instructions of RV32IM that the code generator accepts, as steps on registers, memory,
    reservation and position, with the relation of states that the generated code keeps and the
    lemmas on words that its correctness needs. *)

From stdpp Require Import base list option gmap strings pretty.
From Stdlib Require Import ZArith Lia.
From S2P Require Import Prelude RiscvElem RiscvExec RiscvInstr RiscvAsm RiscvCodeGen.

(** ** The reference *)

Definition word (v : Z) : Z := v mod 2 ^ 32.
Definition sgn (v : Z) : Z := if v <? 2 ^ 31 then v else v - 2 ^ 32.
Definition shift_amount (b : Z) : Z := b mod 32.

(** The parts of the word at an address of a byte. *)
Definition base (a : Z) : Z := a - a mod 4.
Definition bit_offset (a : Z) : Z := 8 * (a mod 4).
Definition part (width a v : Z) : Z := v / 2 ^ bit_offset a mod 2 ^ width.
Definition set_part (width a x v : Z) : Z := v - part width a v * 2 ^ bit_offset a + x mod 2 ^ width * 2 ^ bit_offset a.
Definition extend (width v : Z) : Z := word (if v <? 2 ^ (width - 1) then v else v - 2 ^ width).

Section Reference.
(** The positions of the labels and the position after the code of the instruction. *)
Variable labels : string -> option Z.
Variable next : Z.
Variable σ : AsmState.
Variable args : InstructionArgs.
Notation step := (option (AsmState * Exit)).

Definition alu (f : Z -> Z -> Z) : step := '(rd, r1, r2) ← arg_rrr args; Some (put rd (f (get σ r1) (get σ r2)) σ, Fall).
Definition alu_imm (f : Z -> Z -> Z) : step := '(rd, r1, imm) ← arg_rri args; Some (put rd (f (get σ r1) imm) σ, Fall).
Definition alu_one (f : Z -> Z) : step := '(rd, r1) ← arg_rr args; Some (put rd (f (get σ r1)) σ, Fall).
Definition shift_imm (f : Z -> Z -> Z) : step :=
  '(rd, r1, amount) ← arg_rri args; _ ← assert_that (amount <? 32); Some (put rd (f (get σ r1) amount) σ, Fall).

Definition jump_if (taken : bool) (label : string) : step := t ← labels (escape_label label); Some (σ, if taken then Jump t else Fall).
Definition branch2 (f : Z -> Z -> bool) : step := '(r1, r2, label) ← arg_rrl args; jump_if (f (get σ r1) (get σ r2)) label.
Definition branch1 (f : Z -> bool) : step := '(r1, label) ← arg_rl args; jump_if (f (get σ r1)) label.

(** A jump stores the position after it. *)
Definition link_jump (rd : Register) (label : string) : step := t ← labels (escape_label label); Some (put rd next σ, Jump t).
Definition link_jump_reg (rd rs : Register) : step := Some (put rd next σ, Jump (get σ rs)).

(** Loads and stores must be aligned. *)
Definition aligned_address (size r off : Z) : option Z := let a := word (get σ r + off) in _ ← assert_that (a mod size =? 0); Some a.
Definition load_part (size : Z) (value : Z -> Z) : step :=
  '(rd, rs, off) ← arg_rro args; a ← aligned_address size rs off; Some (put rd (value (part (8 * size) a (load σ (base a)))) σ, Fall).
Definition store_part (size : Z) : step :=
  '(r2, r1, off) ← arg_rro args; a ← aligned_address size r1 off;
  Some (store (base a) (set_part (8 * size) a (get σ r2) (load σ (base a))) σ, Fall).
Definition load_word : step :=
  '(rd, rs, off) ← arg_rro args; a ← aligned_address 4 rs off; Some (put rd (load σ a) σ, Fall).
Definition store_word : step :=
  '(r2, r1, off) ← arg_rro args; a ← aligned_address 4 r1 off; Some (store a (get σ r2) σ, Fall).

Definition isa_li : step :=
  match arg_rl args with
  | Some (rd, label) => t ← labels (escape_label label); Some (put rd t σ, Fall)
  | None => '(rd, imm) ← arg_ri args; Some (put rd imm σ, Fall)
  end.
Definition isa_lui : step := '(rd, imm) ← arg_ri args; Some (put rd (word (imm * 2 ^ 12)) σ, Fall).
Definition isa_jal : step :=
  match arg_l args with Some label => link_jump 1 label | None => '(rd, label) ← arg_rl args; link_jump rd label end.
Definition isa_jalr : step :=
  match arg_r args with
  | Some rs => link_jump_reg 1 rs
  | None => '(rd, rs, off) ← arg_rro args; _ ← assert_that (off =? 0); link_jump_reg rd rs
  end.

(** One reservation, that a conditional store ends; it is kept in register 36. *)
Definition isa_lr : step :=
  '(rd, rs) ← arg_rr args; _ ← assert_that (get σ rs mod 4 =? 0); Some (put lr_sc_reservation 1 (put rd (load σ (get σ rs)) σ), Fall).
Definition isa_sc : step :=
  '(rd, rs2, rs1) ← arg_rrr2 args; _ ← assert_that (get σ rs1 mod 4 =? 0);
  let ok := negb (get σ lr_sc_reservation =? 0) in
  Some (put lr_sc_reservation 0 (put rd (b2z (negb ok)) (if ok then store (get σ rs1) (get σ rs2) σ else σ)), Fall).
Definition isa_amoadd : step :=
  '(rd, rs2, rs1) ← arg_rrr2 args; _ ← assert_that (get σ rs1 mod 4 =? 0);
  let old := load σ (get σ rs1) in
  Some (put rd old (store (get σ rs1) (word (old + get σ rs2)) σ), Fall).

(** By name; a system call and a failure are not described. *)
Definition isa : list (string * step) :=
  [("li", isa_li); ("la", isa_li); ("lui", isa_lui); ("mv", alu_one (fun a => a)%Z);
   ("add", alu (fun a b => word (a + b))%Z); ("addi", alu_imm (fun a b => word (a + b))%Z); ("sub", alu (fun a b => word (a - b))%Z); ("neg", alu_one (fun a => word (- a))%Z); ("mul", alu (fun a b => word (a * b))%Z);
   ("mulhu", alu (fun a b => a * b / 2 ^ 32)%Z); ("mulh", alu (fun a b => word (sgn a * sgn b / 2 ^ 32))%Z);
   ("mulhsu", alu (fun a b => word (sgn a * b / 2 ^ 32))%Z); ("divu", alu (fun a b => if b =? 0 then 2 ^ 32 - 1 else a / b)%Z);
   ("remu", alu (fun a b => if b =? 0 then a else a mod b)%Z); ("xor", alu Z.lxor); ("xori", alu_imm Z.lxor); ("and", alu Z.land); ("andi", alu_imm Z.land); ("or", alu Z.lor); ("ori", alu_imm Z.lor);
   ("not", alu_one (fun a => 2 ^ 32 - 1 - a)%Z); ("slli", shift_imm (fun a k => word (a * 2 ^ k))%Z);
   ("sll", alu (fun a b => word (a * 2 ^ shift_amount b))%Z); ("srli", shift_imm (fun a k => a / 2 ^ k)%Z);
   ("srl", alu (fun a b => a / 2 ^ shift_amount b)%Z); ("srai", shift_imm (fun a k => word (sgn a / 2 ^ k))%Z);
   ("sra", alu (fun a b => word (sgn a / 2 ^ shift_amount b))%Z);
   ("seqz", alu_one (fun a => b2z (a =? 0))%Z); ("snez", alu_one (fun a => b2z (negb (a =? 0)))%Z);
   ("slti", alu_imm (fun a b => b2z (sgn a <? sgn b))%Z); ("slt", alu (fun a b => b2z (sgn a <? sgn b))%Z);
   ("sltiu", alu_imm (fun a b => b2z (a <? b))%Z); ("sltu", alu (fun a b => b2z (a <? b))%Z); ("sgtz", alu_one (fun a => b2z (0 <? sgn a))%Z);
   ("beq", branch2 Z.eqb); ("beqz", branch1 (fun a => a =? 0)%Z); ("bgeu", branch2 (fun a b => b <=? a)%Z); ("bgez", branch1 (fun a => 0 <=? sgn a)%Z);
   ("bltu", branch2 Z.ltb); ("blt", branch2 (fun a b => sgn a <? sgn b)%Z); ("bge", branch2 (fun a b => sgn b <=? sgn a)%Z);
   ("bltz", branch1 (fun a => sgn a <? 0)%Z); ("blez", branch1 (fun a => sgn a <=? 0)%Z); ("bgtz", branch1 (fun a => 0 <? sgn a)%Z);
   ("bne", branch2 (fun a b => negb (a =? b))%Z); ("bnez", branch1 (fun a => negb (a =? 0))%Z);
   ("j", label ← arg_l args; link_jump 0 label); ("tail", label ← arg_l args; link_jump 0 label);
   ("jr", rs ← arg_r args; link_jump_reg 0 rs); ("jal", isa_jal); ("jalr", isa_jalr);
   ("call", label ← arg_l args; link_jump 1 label); ("ecall", None);
   ("ebreak", _ ← arg_empty args; Some (σ, Fall)); ("ret", _ ← arg_empty args; link_jump_reg 0 1);
   ("lw", load_word); ("lb", load_part 1 (extend 8)); ("lbu", load_part 1 (fun v => v)%Z);
   ("lh", load_part 2 (extend 16)); ("lhu", load_part 2 (fun v => v)%Z); ("sw", store_word); ("sh", store_part 2); ("sb", store_part 1);
   ("fence", Some (σ, Fall)); ("nop", Some (σ, Fall)); ("unimp", None)]%string.

(** The atomic instructions may carry a suffix for the ordering. *)
Definition isa_step (op : string) : step :=
  match List.find (fun p => bool_decide (fst p = op)) isa with
  | Some (_, r) => r
  | None =>
    if starts_with "amoadd.w" op then isa_amoadd
    else if starts_with "lr.w" op then isa_lr
    else if starts_with "sc.w" op then isa_sc
    else None
  end.

End Reference.

(** ** States that correspond to a RISC-V machine *)

Record Words (σ : AsmState) : Prop := {
  words_regs : forall r, 0 <= r < 32 -> 0 <= get σ r < 2 ^ 32;
  words_reservation : get σ lr_sc_reservation = 0 \/ get σ lr_sc_reservation = 1;
  words_mem : map_Forall (fun _ v => 0 <= v < 2 ^ 32) (asm_mem σ)
}.

(** The registers of the RISC-V machine and the memory agree; the temporary ones may differ. *)
Definition visible (r : Z) : Prop := 0 <= r < 32 \/ r = lr_sc_reservation.
Definition same_state (σ σ' : AsmState) : Prop := (forall r, visible r -> get σ r = get σ' r) /\ asm_mem σ = asm_mem σ'.

Definition ok_reg (r : Z) : Prop := 0 <= r < 32.
Definition ok_word (v : Z) : Prop := 0 <= v < 2 ^ 32.

(** The arguments of an instruction are registers of the machine and words. *)
Record ArgsOk (args : InstructionArgs) : Prop := {
  ok_r : forall r, arg_r args = Some r -> ok_reg r;
  ok_rri : forall r1 r2 i, arg_rri args = Some (r1, r2, i) -> ok_reg r1 /\ ok_reg r2 /\ ok_word i;
  ok_rrr : forall r1 r2 r3, arg_rrr args = Some (r1, r2, r3) -> ok_reg r1 /\ ok_reg r2 /\ ok_reg r3;
  ok_rrr2 : forall r1 r2 r3, arg_rrr2 args = Some (r1, r2, r3) -> ok_reg r1 /\ ok_reg r2 /\ ok_reg r3;
  ok_ri : forall r i, arg_ri args = Some (r, i) -> ok_reg r /\ ok_word i;
  ok_rr : forall r1 r2, arg_rr args = Some (r1, r2) -> ok_reg r1 /\ ok_reg r2;
  ok_rrl : forall r1 r2 l, arg_rrl args = Some (r1, r2, l) -> ok_reg r1 /\ ok_reg r2;
  ok_rl : forall r l, arg_rl args = Some (r, l) -> ok_reg r;
  ok_rro : forall r1 r2 i, arg_rro args = Some (r1, r2, i) -> ok_reg r1 /\ ok_reg r2 /\ ok_word i
}.

(** ** Arithmetic of words *)

Lemma sgn_as_i32 v : 0 <= v < 2 ^ 32 -> as_i32 v = sgn v.
Proof.
  intros Hv. unfold as_i32, sgn. change (2 ^ 31) with 2147483648. change (2 ^ 32) with 4294967296 in *.
  destruct (Z.ltb_spec v 2147483648); Z.div_mod_to_equations; lia.
Qed.

Lemma sgn_range v : 0 <= v < 2 ^ 32 -> - 2 ^ 31 <= sgn v < 2 ^ 31.
Proof. intros Hv. unfold sgn. destruct (Z.ltb_spec v (2 ^ 31)); lia. Qed.

Lemma word_range v : 0 <= word v < 2 ^ 32.
Proof. apply Z.mod_pos_bound. lia. Qed.

Lemma word_small v : 0 <= v < 2 ^ 32 -> word v = v.
Proof. apply Z.mod_small. Qed.

(** The complement of a word. *)
Lemma lxor_ones v : 0 <= v < 2 ^ 32 -> Z.lxor 0xffffffff v = 2 ^ 32 - 1 - v.
Proof.
  intros Hv. pose proof (Z.add_lor_land 0xffffffff v) as Ha. pose proof (Z.sub_lor_land 0xffffffff v) as Hs.
  rewrite (Z.land_comm 0xffffffff) in *. change 0xffffffff with (2 ^ 32 - 1) in *. rewrite land_ones_mod, Z.mod_small in * by lia. lia.
Qed.

(** Dividing the complement is dividing the number that it stands for. *)
Lemma complement_div v d : 0 < d -> 2 ^ 32 - 1 - (2 ^ 32 - 1 - v) / d = (v - 2 ^ 32) / d + 2 ^ 32.
Proof.
  intros Hd. enough (He : (v - 2 ^ 32) / d = - 1 - (2 ^ 32 - 1 - v) / d) by lia.
  symmetry. apply (Z.div_unique_pos _ d _ (d - 1 - (2 ^ 32 - 1 - v) mod d)); [pose proof (Z.mod_pos_bound (2 ^ 32 - 1 - v) d Hd); lia|].
  pose proof (Z.div_mod (2 ^ 32 - 1 - v) d ltac:(lia)). lia.
Qed.

(** The arithmetic shift right by means of the logical one. *)
Definition sra_word (v k : Z) : Z := let m := if sgn v <? 0 then 0xffffffff else 0 in Z.lxor m (Z.shiftr (Z.lxor m v) k).
Lemma sra_word_spec v k : 0 <= v < 2 ^ 32 -> 0 <= k -> sra_word v k = word (sgn v / 2 ^ k).
Proof.
  intros Hv Hk. unfold sra_word. pose proof (Z.pow_pos_nonneg 2 k ltac:(lia) Hk) as Hp. rewrite Z.shiftr_div_pow2 by exact Hk.
  destruct (Z.ltb_spec (sgn v) 0) as [Hn|Hn]; unfold sgn in *; destruct (Z.ltb_spec v (2 ^ 31)) as [Hs|Hs]; try lia.
  - rewrite (lxor_ones v Hv). set (x := 2 ^ 32 - 1 - v) in *.
    assert (Hd : 0 <= x / 2 ^ k <= x) by (split; [apply Z.div_pos; lia|apply Z.div_le_upper_bound; nia]).
    rewrite lxor_ones by lia. subst x. rewrite complement_div in * by exact Hp. unfold word. apply (Z.mod_unique_pos _ _ (-1)); [|lia].
    pose proof (complement_div v (2 ^ k) Hp). lia.
  - rewrite !Z.lxor_0_l. symmetry. apply word_small. split; [apply Z.div_pos; lia|]. apply Z.div_lt_upper_bound; nia.
Qed.

(** The high word of a product with a negative sign. *)
Lemma negative_high p : 0 <= p < 2 ^ 64 ->
  word (- p / 2 ^ 32) = as_width 32 (b2z (as_width 32 p =? 0) - as_width 32 (Z.shiftr p 32) - 1 + 2 ^ 32).
Proof.
  intros Hp. rewrite Z.shiftr_div_pow2 by lia. unfold word, as_width, b2z. change (2 ^ 32) with 4294967296. change (2 ^ 64) with 18446744073709551616 in Hp.
  destruct (Z.eqb_spec (p mod 4294967296) 0); Z.div_mod_to_equations; lia.
Qed.

Lemma product_high p : 0 <= p < 2 ^ 64 -> as_width 32 (Z.shiftr p 32) = p / 2 ^ 32.
Proof. intros Hp. rewrite Z.shiftr_div_pow2 by lia. apply Z.mod_small. split; [apply Z.div_pos; lia|]. apply Z.div_lt_upper_bound; lia. Qed.

(** *** Bytes and half words *)

Lemma base_land a : 0 <= a < 2 ^ 32 -> Z.land a 0xfffffffc = base a.
Proof. intros Ha. change 0xfffffffc with (2 ^ 32 - 2 ^ 2). rewrite land_high by lia. unfold base. change (2 ^ 2) with 4. Z.div_mod_to_equations. lia. Qed.

Lemma extend_byte v : as_width 32 (as_i8 v) = extend 8 (v mod 2 ^ 8).
Proof.
  unfold extend, word, as_width, as_i8. change (2 ^ (8 - 1)) with 128. change (2 ^ 8) with 256. change (2 ^ 32) with 4294967296.
  destruct (Z.ltb_spec (v mod 256) 128); Z.div_mod_to_equations; lia.
Qed.

Lemma extend_half v : 0 <= v < 2 ^ 32 -> (if negb (Z.land v 0x8000 =? 0) then Z.lor v 0xFFFF0000 else Z.land v 0x0000FFFF) = extend 16 (v mod 2 ^ 16).
Proof.
  intros Hv. fold (sign_half v). destruct (sign_half_spec v Hv) as [Hm ->]. unfold extend, word. change (2 ^ (16 - 1)) with 32768. change (2 ^ 15) with 32768 in *. change (2 ^ 16) with 65536 in *. change (2 ^ 32) with 4294967296 in *.
  destruct (sign_half v); cbn [b2z] in *; destruct (Z.ltb_spec (v mod 65536) 32768); Z.div_mod_to_equations; lia.
Qed.

(** Replaces [w] bits at position [k]. *)
Definition insert_bits (w k v x : Z) : Z :=
  let mask := 2 ^ w - 1 in
  Z.lor (Z.land v (Z.lxor (as_width 32 (Z.shiftl mask k)) 0xffffffff)) (as_width 32 (Z.shiftl (Z.land x mask) k)).

Lemma land_complement v m : 0 <= v < 2 ^ 32 -> 0 <= m < 2 ^ 32 -> Z.land v (Z.lxor m 0xffffffff) = v - Z.land v m.
Proof.
  intros Hv Hm. rewrite Z.sub_nocarry_ldiff.
  - apply Z.bits_inj'. intros n Hn. rewrite Z.land_spec, Z.lxor_spec, Z.ldiff_spec, Z.land_spec, negb_andb.
    change 0xffffffff with (Z.ones 32). destruct (Z.lt_ge_cases n 32) as [Hlt|Hge].
    + rewrite Z.ones_spec_low by lia. destruct (Z.testbit v n), (Z.testbit m n); reflexivity.
    + rewrite Z.ones_spec_high by lia. rewrite <- (Z.mod_small v (2 ^ 32)), Z.mod_pow2_bits_high by lia. reflexivity.
  - apply Z.bits_inj'. intros n Hn. rewrite Z.ldiff_spec, Z.land_spec, Z.bits_0. destruct (Z.testbit v n), (Z.testbit m n); reflexivity.
Qed.

Lemma insert_bits_spec w k v x : 0 <= w -> 0 <= k -> k + w <= 32 -> 0 <= v < 2 ^ 32 ->
  insert_bits w k v x = v - v / 2 ^ k mod 2 ^ w * 2 ^ k + x mod 2 ^ w * 2 ^ k.
Proof.
  intros Hw Hk Hwk Hv. unfold insert_bits. cbn zeta.
  pose proof (Z.pow_pos_nonneg 2 k ltac:(lia) Hk) as Hpk. pose proof (Z.pow_pos_nonneg 2 w ltac:(lia) Hw) as Hpw.
  assert (Hle : 2 ^ w * 2 ^ k <= 2 ^ 32) by (rewrite <- Z.pow_add_r by lia; apply Z.pow_le_mono_r; lia).
  rewrite land_ones_mod by exact Hw. pose proof (Z.mod_pos_bound x (2 ^ w) Hpw) as Hx. rewrite !Z.shiftl_mul_pow2 by exact Hk.
  unfold as_width. rewrite !Z.mod_small by nia. rewrite land_complement by nia.
  assert (Hvm : Z.land v ((2 ^ w - 1) * 2 ^ k) = v / 2 ^ k mod 2 ^ w * 2 ^ k).
  { rewrite <- land_ones_mod, <- Z.shiftr_div_pow2, <- !Z.shiftl_mul_pow2, Z.shiftl_land by lia. apply Z.bits_inj'. intros n Hn.
    rewrite !Z.land_spec. destruct (Z.lt_ge_cases n k); [now rewrite (Z.shiftl_spec_low (2 ^ w - 1)), !andb_false_r by lia|]. f_equal. now rewrite Z.shiftl_spec, Z.shiftr_spec, Z.sub_add by lia. }
  rewrite <- add_disjoint; [now rewrite Hvm|].
  apply Z.bits_inj'. intros n Hn. rewrite Z.land_spec, Z.bits_0. rewrite <- (Z.shiftl_mul_pow2 (x mod _)), Z.shiftl_spec by lia.
  destruct (Z.lt_ge_cases n k) as [Hl|Hl]; [rewrite (Z.testbit_neg_r (x mod _)) by lia; now rewrite andb_false_r|].
  destruct (Z.lt_ge_cases (n - k) w) as [Hn2|Hn2]; [|rewrite Z.mod_pow2_bits_high by lia; now rewrite andb_false_r].
  apply andb_false_iff. left. rewrite <- land_complement by nia. rewrite Z.land_spec, Z.lxor_spec.
  rewrite <- Z.shiftl_mul_pow2, Z.shiftl_spec by lia.  change 0xffffffff with (Z.ones 32). rewrite (Z.ones_spec_low 32 n) by lia.
  replace (2 ^ w - 1) with (Z.ones w) by (rewrite Z.ones_equiv; lia). rewrite Z.ones_spec_low by lia. now rewrite andb_false_r.
Qed.
