(* ===== verification/RiscvCompile.v ===== *)
(** * Generated code computes the instructions of the reference

    Runs of the statements that [process_instruction] returns, on the machine of [RiscvAsm]:
    one lemma per instruction of that machine, one lemma per RISC-V instruction, and the theorem
    for all of them. *)

From stdpp Require Import base list option gmap strings pretty.
From Stdlib Require Import ZArith Lia.
From S2P Require Import Prelude RiscvElem RiscvNames RiscvExec RiscvInstr RiscvRun RiscvAsm RiscvCodeGen RiscvIsa.

Notation u32 z := (0 <= z < 2 ^ 32).
#[local] Opaque escape_label.

(** ** Blocks of statements *)

Section Blocks.
Variable labels : string -> option Z.

Definition blk (p : Z) (k : nat) (code : list FunctionStatement) (σ : AsmState) (Q : AsmState -> Exit -> Prop) : Prop :=
  exists σ' ex, run_block labels p k code σ = Some (σ', ex) /\ Q σ' ex.

Lemma blk_nil p σ (Q : AsmState -> Exit -> Prop) : Q σ Fall -> blk p 0 [] σ Q.
Proof. intros HQ. exists σ, Fall. now split. Qed.

Lemma blk_skip p k s code σ Q : blk (p + 1) k code σ Q -> blk p (S k) (s :: code) σ Q.
Proof. easy. Qed.

Lemma blk_instr p name ins i zs code σ σ' c (Q : AsmState -> Exit -> Prop) :
  from_name name = Some i -> mapM (eval_literal labels) ins = Some zs -> asm_exec p i zs σ = Some (σ', c) ->
  match c with Next => blk (p + 1) 0 code σ' Q | Skip n => blk (p + 1) n code σ' Q | Goto t => Q σ' (Jump t) end ->
  blk p 0 (instr name ins :: code) σ Q.
Proof.
  intros Hn Hz Hx HQ. unfold blk, instr. cbn [run_block]. unfold asm_step. rewrite Hn. cbn [mbind option_bind]. rewrite Hz. cbn [mbind option_bind]. rewrite Hx. cbn [mbind option_bind].
  destruct c; [exact HQ|exact HQ|]. eexists _, _. split; [reflexivity|exact HQ].
Qed.

(** An instruction that writes one register. *)
Lemma blk_put p name ins i zs code σ w v Q :
  from_name name = Some i -> mapM (eval_literal labels) ins = Some zs -> asm_exec p i zs σ = Some (put w v σ, Next) ->
  (forall v', v' = v -> blk (p + 1) 0 code (put w v' σ) Q) -> blk p 0 (instr name ins :: code) σ Q.
Proof. intros Hn Hz Hx HQ. eapply blk_instr; [exact Hn|exact Hz|exact Hx|]. now apply HQ. Qed.

Lemma blk_unless_zero p rd code σ Q : (rd <> 0 -> blk p 0 code σ Q) -> (rd = 0 -> Q σ Fall) -> blk p 0 (only_if_no_write_to_zero_vec rd code) σ Q.
Proof. intros H1 H2. unfold only_if_no_write_to_zero_vec, is_zero. destruct (Z.eqb_spec rd 0) as [He|He]; [apply blk_nil|]; auto. Qed.

(** *** Literals *)

Lemma args_nil : mapM (eval_literal labels) [] = Some [].
Proof. reflexivity. Qed.
Lemma args_cons e z l zs : eval_literal labels e = Some z -> mapM (eval_literal labels) l = Some zs -> mapM (eval_literal labels) (e :: l) = Some (z :: zs).
Proof. intros He Hl. cbn [mapM]. rewrite He. cbn. now rewrite Hl. Qed.

Lemma u32_ok z : u32 z -> u32_try_from z = Some z.
Proof. intros Hz. unfold u32_try_from. rewrite (proj2 (Z.leb_le _ _)), (proj2 (Z.ltb_lt _ _)) by lia. reflexivity. Qed.
Lemma i64_ok z : - 2 ^ 63 <= z < 2 ^ 63 -> i64_checked z = Some z.
Proof. intros Hz. unfold i64_checked, in_i64. rewrite (proj2 (Z.leb_le _ _)), (proj2 (Z.ltb_lt _ _)) by lia. reflexivity. Qed.

Lemma lit_num n : u32 n -> eval_literal labels (num n) = Some n.
Proof. exact (u32_ok n). Qed.
Lemma lit_reg r : u32 r -> eval_literal labels (reg r) = Some r.
Proof. exact (u32_ok r). Qed.
Lemma lit_neg e z : eval_literal labels e = Some z -> - 2 ^ 62 <= z < 2 ^ 62 -> eval_literal labels (neg e) = Some (- z).
Proof. intros He Hz. cbn [eval_literal neg]. rewrite He. cbn [mbind option_bind]. apply i64_ok. lia. Qed.
Lemma lit_signed z : - 2 ^ 31 <= z < 2 ^ 31 -> eval_literal labels (signed z) = Some z.
Proof.
  intros Hz. unfold signed. destruct (Z.ltb_spec z 0); [|now apply lit_num; lia].
  rewrite (lit_neg _ (- z)); [f_equal; lia|apply lit_num; lia|lia].
Qed.
Lemma lit_label l t : labels l = Some t -> eval_literal labels (label_ref l) = Some t.
Proof. easy. Qed.
Lemma lit_sign_bit : eval_literal labels (EBinaryOperation (EBinaryOperation (num 2) OpPow (num 31)) OpSub (num 1)) = Some (2 ^ 31 - 1).
Proof. reflexivity. Qed.

(** *** Registers and literals as tactics *)

Ltac regs := unfold tmp1, tmp2, tmp3, tmp4, lr_sc_reservation in *;
  repeat first [rewrite get_0 | rewrite get_store | rewrite get_put_eq by lia | rewrite get_put_ne by lia
    | match goal with
      | Hg : get ?s ?r = _ |- context [get ?s ?r] => rewrite Hg
      | Hk : forall r, r <> _ -> get ?s r = get _ r |- context [get ?s ?x] => rewrite (Hk x) by lia
      end].
Lemma b2z_range c : 0 <= b2z c <= 1.
Proof. destruct c; cbn; lia. Qed.
Ltac side := first [lia | apply word_range | match goal with Hz : ?z = b2z ?c |- _ => pose proof (b2z_range c); lia end | unfold tmp1, tmp2, tmp3, tmp4, lr_sc_reservation in *; lia].
Ltac literal := lazymatch goal with
  | |- eval_literal _ (neg _) = _ => eapply lit_neg; [literal|side]
  | |- eval_literal _ (signed _) = _ => apply lit_signed; side
  | |- eval_literal _ (label_ref _) = _ => apply lit_label; eassumption
  | |- eval_literal _ (reg _) = _ => apply lit_reg; side
  | |- eval_literal _ (num _) = _ => apply lit_num; side
  | |- eval_literal _ (EBinaryOperation _ _ _) = _ => apply lit_sign_bit
  end.
Ltac literals := repeat (eapply args_cons; [literal|]); apply args_nil.

(** *** The instructions of the machine *)

Lemma are_u32_ok l : Forall (fun z => u32 z) l -> are_u32 l = Some tt.
Proof.
  intros Hl. unfold are_u32, assert_that. replace (forallb _ l) with true; [reflexivity|]. symmetry. apply forallb_forall. intros z Hz.
  rewrite List.Forall_forall in Hl. specialize (Hl z Hz). cbn beta in Hl. rewrite (proj2 (Z.leb_le _ _)), (proj2 (Z.ltb_lt _ _)) by lia. reflexivity.
Qed.

Lemma assert_ok b : b = true -> assert_that b = Some tt.
Proof. now intros ->. Qed.

(** Runs an instruction whose checks pass. *)
Ltac check1 :=
  match goal with
  | |- context [are_u32 ?l] => rewrite (are_u32_ok l) by (repeat (apply Forall_cons; split; [lia|]); apply Forall_nil; exact I)
  | |- context [i64_checked ?z] => rewrite (i64_ok z) by first [lia|nia]
  | |- context [u32_try_from ?z] => rewrite (u32_ok z) by lia
  | |- context [assert_that ?b] => rewrite (assert_ok b) by (b2p; lia)
  end; cbn [mbind option_bind].
Ltac checks := cbn [asm_exec]; change (Z.shiftl 2 33) with (2 ^ 34); repeat match goal with Hg : get _ _ = _ |- _ => rewrite !Hg; clear Hg end; cbn [mbind option_bind]; repeat check1; try reflexivity.

Section Instructions.
Variable p : Z.
Variable σ : AsmState.
Implicit Types x y w o a b : Z.

Lemma asm_set_reg r v : u32 r -> asm_exec p I_set_reg [r; v] σ = Some (put r v σ, Next).
Proof. intros. checks. Qed.
Lemma asm_load_label w l : u32 w -> asm_exec p I_load_label [w; l] σ = Some (put w l σ, Next).
Proof. intros. checks. Qed.
Lemma asm_affine x w f o a : get σ x = a -> u32 x -> u32 w -> - 2 ^ 62 <= a * f < 2 ^ 62 -> - 2 ^ 62 <= o < 2 ^ 62 ->
  asm_exec p I_affine [x; w; f; o] σ = Some (put w (a * f + o) σ, Next).
Proof. intros. checks. Qed.

Lemma asm_add_wrap x y o w a b : get σ x = a -> get σ y = b -> u32 x -> u32 y -> u32 w -> u32 a -> u32 b -> u32 o ->
  asm_exec p I_add_wrap [x; y; o; w] σ = Some (put w (word (a + b + o)) σ, Next).
Proof. intros. checks. Qed.
Lemma asm_sub_wrap x y o w a b : get σ x = a -> get σ y = b -> u32 x -> u32 y -> u32 w -> u32 a -> u32 b -> - 2 ^ 32 < o <= 0 ->
  asm_exec p I_sub_wrap_with_offset [x; y; o; w] σ = Some (put w (word (a - b + o + 2 ^ 32)) σ, Next).
Proof. intros. checks. Qed.
Lemma asm_wrap16 x f w a : get σ x = a -> u32 x -> u32 w -> u32 a -> 0 <= f <= 2 ^ 16 ->
  asm_exec p I_wrap16 [x; f; w] σ = Some (put w (word (a * f)) σ, Next).
Proof. intros. checks. Qed.

Lemma asm_mul x y w1 w2 a b : get σ x = a -> get σ y = b -> u32 x -> u32 y -> u32 w1 -> u32 w2 -> u32 a -> u32 b ->
  asm_exec p I_mul [x; y; w1; w2] σ = Some (put w2 (a * b / 2 ^ 32) (put w1 (word (a * b)) σ), Next).
Proof. intros. checks. rewrite product_high by nia. reflexivity. Qed.
Lemma asm_divremu x y w1 w2 a b : get σ x = a -> get σ y = b -> u32 x -> u32 y -> u32 w1 -> u32 w2 -> u32 a -> u32 b ->
  asm_exec p I_divremu [x; y; w1; w2] σ = Some (put w2 (if b =? 0 then a else a mod b) (put w1 (if b =? 0 then 2 ^ 32 - 1 else a / b) σ), Next).
Proof. intros. checks. Qed.

Lemma asm_and x y o w a b : get σ x = a -> get σ y = b -> u32 x -> u32 y -> u32 w -> u32 a -> u32 b -> u32 (b + o) -> -2 ^ 32 < o < 2 ^ 32 ->
  asm_exec p I_and [x; y; o; w] σ = Some (put w (Z.land a (b + o)) σ, Next).
Proof. intros. checks. Qed.
Lemma asm_or x y o w a b : get σ x = a -> get σ y = b -> u32 x -> u32 y -> u32 w -> u32 a -> u32 b -> u32 (b + o) -> -2 ^ 32 < o < 2 ^ 32 ->
  asm_exec p I_or [x; y; o; w] σ = Some (put w (Z.lor a (b + o)) σ, Next).
Proof. intros. checks. Qed.
Lemma asm_xor x y o w a b : get σ x = a -> get σ y = b -> u32 x -> u32 y -> u32 w -> u32 a -> u32 b -> u32 (b + o) -> -2 ^ 32 < o < 2 ^ 32 ->
  asm_exec p I_xor [x; y; o; w] σ = Some (put w (Z.lxor a (b + o)) σ, Next).
Proof. intros. checks. Qed.
Lemma asm_shl x y o w a b : get σ x = a -> get σ y = b -> u32 x -> u32 y -> u32 w -> u32 a -> u32 b -> 0 <= b + o < 32 -> -2 ^ 32 < o < 2 ^ 32 ->
  asm_exec p I_shl [x; y; o; w] σ = Some (put w (word (a * 2 ^ (b + o))) σ, Next).
Proof. intros. checks. cbn [shift_result]. unfold checked_shl. rewrite (proj2 (Z.ltb_lt _ _)), Z.shiftl_mul_pow2 by lia. reflexivity. Qed.
Lemma asm_shr x y o w a b : get σ x = a -> get σ y = b -> u32 x -> u32 y -> u32 w -> u32 a -> u32 b -> 0 <= b + o < 32 -> -2 ^ 32 < o < 2 ^ 32 ->
  asm_exec p I_shr [x; y; o; w] σ = Some (put w (a / 2 ^ (b + o)) σ, Next).
Proof. intros. checks. cbn [shift_result]. unfold checked_shr. rewrite (proj2 (Z.ltb_lt _ _)), Z.shiftr_div_pow2 by lia. reflexivity. Qed.

Lemma asm_to_signed x w a : get σ x = a -> u32 x -> u32 w -> u32 a -> asm_exec p I_to_signed [x; w] σ = Some (put w (sgn a) σ, Next).
Proof. intros. checks. now rewrite sgn_as_i32 by assumption. Qed.
Lemma asm_sign_extend_byte x w a : get σ x = a -> u32 x -> u32 w -> u32 a -> asm_exec p I_sign_extend_byte [x; w] σ = Some (put w (extend 8 (a mod 2 ^ 8)) σ, Next).
Proof. intros. checks. now rewrite extend_byte. Qed.
Lemma asm_sign_extend_16_bits x w a : get σ x = a -> u32 x -> u32 w -> u32 a -> asm_exec p I_sign_extend_16_bits [x; w] σ = Some (put w (extend 16 (a mod 2 ^ 16)) σ, Next).
Proof. intros. checks. now rewrite extend_half by assumption. Qed.

(** Differences of words and signed words. *)
Notation small z := (- 2 ^ 33 < z < 2 ^ 33).
Lemma asm_is_diff_greater_than x y o w a b : get σ x = a -> get σ y = b -> u32 x -> u32 y -> u32 w -> small a -> small b -> small o ->
  asm_exec p I_is_diff_greater_than [x; y; o; w] σ = Some (put w (b2z (0 <? a - b - o)) σ, Next).
Proof. intros. checks. Qed.
Lemma asm_is_equal_zero x w a : get σ x = a -> u32 x -> u32 w -> small a -> asm_exec p I_is_equal_zero [x; w] σ = Some (put w (b2z (a =? 0)) σ, Next).
Proof. intros. checks. Qed.
Lemma asm_is_not_equal x y w a b : get σ x = a -> get σ y = b -> u32 x -> u32 y -> u32 w -> small a -> small b ->
  asm_exec p I_is_not_equal [x; y; w] σ = Some (put w (b2z (negb (a - b =? 0))) σ, Next).
Proof. intros. checks. Qed.

Lemma asm_skip_if_equal x y o n a b : get σ x = a -> get σ y = b -> u32 x -> u32 y -> u32 n -> small a -> small b -> small o ->
  asm_exec p I_skip_if_equal [x; y; o; n] σ = Some (σ, if a - b + o =? 0 then Skip (Z.to_nat n) else Next).
Proof. intros. checks. Qed.
Lemma asm_branch_if_diff_equal x y o l a b : get σ x = a -> get σ y = b -> u32 x -> u32 y -> small a -> small b -> small o ->
  asm_exec p I_branch_if_diff_equal [x; y; o; l] σ = Some (σ, if a - b - o =? 0 then Goto l else Next).
Proof. intros. checks. Qed.
Lemma asm_branch_if_diff_nonzero x y l a b : get σ x = a -> get σ y = b -> u32 x -> u32 y -> small a -> small b ->
  asm_exec p I_branch_if_diff_nonzero [x; y; l] σ = Some (σ, if a - b =? 0 then Next else Goto l).
Proof. intros. checks. Qed.
Lemma asm_branch_if_diff_greater_than x y o l a b : get σ x = a -> get σ y = b -> u32 x -> u32 y -> small a -> small b -> small o ->
  asm_exec p I_branch_if_diff_greater_than [x; y; o; l] σ = Some (σ, if 0 <? a - b - o then Goto l else Next).
Proof. intros. checks. Qed.

Lemma asm_jump l w : u32 l -> u32 w -> u32 (p + 1) -> asm_exec p I_jump [l; w] σ = Some (put w (p + 1) σ, Goto l).
Proof. intros. checks. Qed.
Lemma asm_jump_dyn x w a : get σ x = a -> u32 x -> u32 w -> u32 a -> u32 (p + 1) -> asm_exec p I_jump_dyn [x; w] σ = Some (put w (p + 1) σ, Goto a).
Proof. intros. checks. Qed.

Lemma asm_mload x o w1 w2 a : get σ x = a -> u32 x -> u32 w1 -> u32 w2 -> u32 a -> u32 o ->
  asm_exec p I_mload [x; o; w1; w2] σ = Some (put w2 (word (a + o) mod 4) (put w1 (load σ (base (word (a + o)))) σ), Next).
Proof.
  intros. checks. rewrite base_land by apply word_range. rewrite Z.rem_mod_nonneg by lia. do 3 f_equal. unfold word.
  change (2 ^ 32) with 4294967296 in *. Z.div_mod_to_equations. lia.
Qed.
Lemma asm_mstore x y o w a b v : get σ x = a -> get σ y = b -> get σ w = v -> u32 x -> u32 y -> u32 w -> u32 a -> u32 b -> u32 o -> u32 v ->
  0 <= a - b + o -> (a - b + o) mod 4 = 0 -> asm_exec p I_mstore [x; y; o; w] σ = Some (store (word (a - b + o)) v σ, Next).
Proof. intros. cbn [asm_exec]. pose proof (Z.rem_mod_nonneg (a - b + o) 4 ltac:(lia) ltac:(lia)). checks. Qed.

End Instructions.

(** ** Instructions of the reference *)

Section Correct.
Variable p next : Z.
Variable σ : AsmState.
Variable args : InstructionArgs.
Hypothesis Hp : 0 <= p < 2 ^ 31.
Hypothesis Hlabels : forall l t, labels l = Some t -> u32 t.
Hypothesis HW : Words σ.
Hypothesis Hargs : ArgsOk args.

(** The code does what the reference does, up to temporary registers. *)
Definition correct (gen : option (list FunctionStatement)) (step : option (AsmState * Exit)) : Prop :=
  forall code σr ex, gen = Some code -> step = Some (σr, ex) -> p + Z.of_nat (length code) = next ->
  blk p 0 code σ (fun σ' ex' => ex' = ex /\ same_state σ' σr).

Lemma same_refl σ1 : same_state σ1 σ1.
Proof. now split. Qed.
Lemma same_put rd v v' σ1 σ2 : v = v' -> (forall r, visible r -> r <> rd -> get σ1 r = get σ2 r) -> asm_mem σ1 = asm_mem σ2 ->
  same_state (put rd v σ1) (put rd v' σ2).
Proof.
  intros -> Hr Hm. split; [|now rewrite !mem_put]. intros r Hv. rewrite !get_put. destruct (Z.eqb_spec r rd) as [He|He]; cbn [andb]; [|now apply Hr].
  destruct (Z.eqb_spec rd 0) as [H0|H0]; cbn [negb]; [|reflexivity]. now rewrite He, H0, !get_0.
Qed.
Lemma same_put_tmp t v σ1 σ2 : ~ visible t -> same_state σ1 σ2 -> same_state (put t v σ1) σ2.
Proof. intros Ht [Hr Hm]. split; [|now rewrite mem_put]. intros r Hv. rewrite get_put_ne; [now apply Hr|]. intros ->. now apply Ht. Qed.
Lemma same_store a a' v v' σ1 σ2 : a = a' -> v = v' -> same_state σ1 σ2 -> same_state (store a v σ1) (store a' v' σ2).
Proof. intros -> -> [Hr Hm]. split; [exact Hr|]. now rewrite !mem_store, Hm. Qed.

Lemma word_at a : u32 (load σ a).
Proof. unfold load. destruct (asm_mem σ !! a) as [v|] eqn:Ha; cbn; [exact (words_mem _ HW a v Ha)|lia]. Qed.

(** Opens the arguments of an instruction. *)
Ltac opened :=
  repeat match goal with
  | Hx : None = Some _ |- _ => discriminate Hx
  | Hx : Some _ = Some _ |- _ => injection Hx; clear Hx; intros; repeat match goal with He : _ = ?x |- _ => is_var x; subst x end
  | Hx : (_ ≫= _) = Some _ |- _ => let a := fresh "val" in let Ha := fresh "Harg" in apply bind_Some in Hx as (a & Ha & Hx); cbn beta iota in Hx
  | Ha : ?o = Some _, Hb : ?o = Some _ |- _ => rewrite Ha in Hb
  | a : _ * _ * _ |- _ => let rd := fresh "rd" in let ra := fresh "ra" in let rb := fresh "rb" in destruct a as [[rd ra] rb]
  | a : _ * _ |- _ => let rd := fresh "rd" in let ra := fresh "ra" in destruct a as [rd ra]
  | u : unit |- _ => destruct u
  | Hx : match ?o with Some _ => _ | None => _ end = Some _ |- _ => let Ha := fresh "Harg" in destruct o eqn:Ha
  | Ha : assert_that _ = Some tt |- _ => apply assert_that_true in Ha
  | Ha : ?o = Some _, Hb : ?o = None |- _ => rewrite Ha in Hb; discriminate Hb
  end;
  repeat match goal with
  | Ha : arg_rri args = Some _ |- _ => apply (ok_rri _ Hargs) in Ha
  | Ha : arg_rrr args = Some _ |- _ => apply (ok_rrr _ Hargs) in Ha
  | Ha : arg_rrr2 args = Some _ |- _ => apply (ok_rrr2 _ Hargs) in Ha
  | Ha : arg_rrl args = Some _ |- _ => apply (ok_rrl _ Hargs) in Ha
  | Ha : arg_rro args = Some _ |- _ => apply (ok_rro _ Hargs) in Ha
  | Ha : arg_ri args = Some _ |- _ => apply (ok_ri _ Hargs) in Ha
  | Ha : arg_rr args = Some _ |- _ => apply (ok_rr _ Hargs) in Ha
  | Ha : arg_rl args = Some _ |- _ => apply (ok_rl _ Hargs) in Ha
  | Ha : arg_r args = Some _ |- _ => apply (ok_r _ Hargs) in Ha
  | Ha : labels ?l = Some ?t |- _ => lazymatch goal with _ : 0 <= t < 2 ^ 32 |- _ => fail | _ => pose proof (Hlabels _ _ Ha) end
  | Hc : _ /\ _ /\ _ |- _ => destruct Hc as (? & ? & ?)
  | Hc : ok_reg _ /\ ok_reg _ |- _ => destruct Hc as (? & ?)
  | Hc : ok_reg _ /\ ok_word _ |- _ => destruct Hc as (? & ?)
  end; unfold ok_reg, ok_word in *.
Ltac known_regs :=
  repeat match goal with
  | Hr : 0 <= ?r < 32 |- _ =>
    lazymatch goal with _ : 0 <= get σ r < 2 ^ 32 |- _ => fail | _ => pose proof (words_regs _ HW r Hr) end
  end.
Tactic Notation "op" reference(g) reference(s) :=
  intros code σr ex Hg Hs Hnext; unfold g in Hg; unfold s in Hs;
  unfold only_if_no_write_to_zero, link_jump, link_jump_reg, jump_if, aligned_address in *; cbn beta iota zeta in Hg, Hs; opened; known_regs.

(** Runs one instruction, whose effect is the lemma [L]. *)
Ltac solve_side := lazymatch goal with |- get _ _ = _ => regs; reflexivity | |- _ => first [side | regs; side | reflexivity | nia] end.
Tactic Notation "exec" constr(L) "as" ident(v) ident(Hv) :=
  eapply blk_put; [reflexivity|literals|eapply L; solve_side|intros v Hv].
Ltac finish := apply blk_nil; split; [reflexivity|].
Ltac kept := let r := fresh "r" in let Hv := fresh "Hv" in let Hne := fresh "Hne" in intros r Hv Hne; unfold visible in Hv; regs; reflexivity.
Ltac mems := repeat first [rewrite mem_put | match goal with Hm : asm_mem ?s = _ |- context [asm_mem ?s] => rewrite Hm end]; reflexivity.
Ltac result := finish; apply same_put; [|kept|mems].

Lemma correct_li : correct (gen_li args) (isa_li labels σ args).
Proof.
  op gen_li isa_li; apply blk_unless_zero; try (intros ->; split; [reflexivity|apply same_refl]); intros Hrd.
  - exec asm_load_label as v Hv. result. exact Hv.
  - exec asm_set_reg as v Hv. result. exact Hv.
Qed.

(** *** Arithmetic and logic *)

Ltac op_alu := apply blk_unless_zero; [intros Hrd|intros ->; split; [reflexivity|apply same_refl]].
Ltac bits := match goal with |- context [?f ?a (?b + 0)] => rewrite (Z.add_0_r b) | |- context [0 + ?b] => rewrite (Z.add_0_l b) end.

Lemma correct_lui : correct (gen_lui args) (isa_lui σ args).
Proof.
  op gen_lui isa_lui. op_alu. exec asm_set_reg as v Hv. result. subst v. unfold word, as_width. now rewrite Z.shiftl_mul_pow2 by lia.
Qed.
Lemma correct_mv : correct (gen_mv args) (alu_one σ args (fun a => a)).
Proof. op gen_mv alu_one. op_alu. exec asm_affine as v Hv. result. lia. Qed.
Lemma correct_add : correct (gen_add args) (alu σ args (fun a b => word (a + b))).
Proof. op gen_add alu. op_alu. exec asm_add_wrap as v Hv. result. now rewrite Hv, Z.add_0_r. Qed.
Lemma correct_addi : correct (gen_addi args) (alu_imm σ args (fun a b => word (a + b))).
Proof. op gen_addi alu_imm. op_alu. exec asm_add_wrap as v Hv. result. now rewrite Hv, Z.add_0_r. Qed.
Lemma word_wrap a : word (a + 2 ^ 32) = word a.
Proof. unfold word. rewrite <- (Z.mul_1_l (2 ^ 32)) at 1. apply Z.mod_add. lia. Qed.
Lemma correct_sub : correct (gen_sub args) (alu σ args (fun a b => word (a - b))).
Proof. op gen_sub alu. op_alu. exec asm_sub_wrap as v Hv. result. now rewrite Hv, word_wrap, Z.add_0_r. Qed.
Lemma correct_neg : correct (gen_neg args) (alu_one σ args (fun a => word (- a))).
Proof. op gen_neg alu_one. op_alu. exec asm_sub_wrap as v Hv. result. now rewrite Hv, word_wrap, Z.add_0_r. Qed.
Lemma correct_not : correct (gen_not args) (alu_one σ args (fun a => 2 ^ 32 - 1 - a)).
Proof. op gen_not alu_one. op_alu. exec asm_sub_wrap as v Hv. result. rewrite Hv, word_small; lia. Qed.

Lemma correct_xor : correct (gen_xor args) (alu σ args Z.lxor).
Proof. op gen_xor alu. op_alu. exec asm_xor as v Hv. result. now rewrite Hv, Z.add_0_r. Qed.
Lemma correct_xori : correct (gen_xori args) (alu_imm σ args Z.lxor).
Proof. op gen_xori alu_imm. op_alu. exec asm_xor as v Hv. result. exact Hv. Qed.
Lemma correct_and : correct (gen_and args) (alu σ args Z.land).
Proof. op gen_and alu. op_alu. exec asm_and as v Hv. result. now rewrite Hv, Z.add_0_r. Qed.
Lemma correct_andi : correct (gen_andi args) (alu_imm σ args Z.land).
Proof. op gen_andi alu_imm. op_alu. exec asm_and as v Hv. result. exact Hv. Qed.
Lemma correct_or : correct (gen_or args) (alu σ args Z.lor).
Proof. op gen_or alu. op_alu. exec asm_or as v Hv. result. now rewrite Hv, Z.add_0_r. Qed.
Lemma correct_ori : correct (gen_ori args) (alu_imm σ args Z.lor).
Proof. op gen_ori alu_imm. op_alu. exec asm_or as v Hv. result. exact Hv. Qed.

Lemma correct_seqz : correct (gen_seqz args) (alu_one σ args (fun a => b2z (a =? 0))).
Proof. op gen_seqz alu_one. op_alu. exec asm_is_equal_zero as v Hv. result. exact Hv. Qed.
Lemma correct_snez : correct (gen_snez args) (alu_one σ args (fun a => b2z (negb (a =? 0)))).
Proof. op gen_snez alu_one. op_alu. exec asm_is_not_equal as v Hv. result. now rewrite Hv, Z.sub_0_r. Qed.
Lemma correct_sltiu : correct (gen_sltiu args) (alu_imm σ args (fun a b => b2z (a <? b))).
Proof. op gen_sltiu alu_imm. op_alu. exec asm_is_diff_greater_than as v Hv. result. rewrite Hv. f_equal. apply Bool.eq_iff_eq_true. rewrite !Z.ltb_lt. lia. Qed.
Lemma correct_sltu : correct (gen_sltu args) (alu σ args (fun a b => b2z (a <? b))).
Proof. op gen_sltu alu. op_alu. exec asm_is_diff_greater_than as v Hv. result. rewrite Hv. f_equal. apply Bool.eq_iff_eq_true. rewrite !Z.ltb_lt. lia. Qed.

(** *** Multiplication and division *)

Lemma blk_put2 q name ins i zs code σ0 w1 v1 w2 v2 Q :
  from_name name = Some i -> mapM (eval_literal labels) ins = Some zs -> asm_exec q i zs σ0 = Some (put w2 v2 (put w1 v1 σ0), Next) ->
  (forall v1' v2', v1' = v1 -> v2' = v2 -> blk (q + 1) 0 code (put w2 v2' (put w1 v1' σ0)) Q) -> blk q 0 (instr name ins :: code) σ0 Q.
Proof. intros Hn Hz Hx HQ. eapply blk_instr; [exact Hn|exact Hz|exact Hx|]. now apply HQ. Qed.
Tactic Notation "exec2" constr(L) "as" ident(v1) ident(v2) ident(Hv1) ident(Hv2) :=
  eapply blk_put2; [reflexivity|literals|eapply L; solve_side|intros v1 v2 Hv1 Hv2].
(** The first register, when the second one is temporary. *)
Ltac result1 := finish; apply same_put_tmp; [unfold visible; side|apply same_put; [|kept|mems]].

Lemma correct_mul : correct (gen_mul args) (alu σ args (fun a b => word (a * b))).
Proof. op gen_mul alu. op_alu. exec2 asm_mul as v w Hv Hw. result1. exact Hv. Qed.
Lemma correct_mulhu : correct (gen_mulhu args) (alu σ args (fun a b => a * b / 2 ^ 32)).
Proof. op gen_mulhu alu. op_alu. exec2 asm_mul as v w Hv Hw. result. exact Hw. Qed.
Lemma correct_divu : correct (gen_divu args) (alu σ args (fun a b => if b =? 0 then 2 ^ 32 - 1 else a / b)).
Proof. op gen_divu alu. op_alu. exec2 asm_divremu as v w Hv Hw. result1. exact Hv. Qed.
Lemma correct_remu : correct (gen_remu args) (alu σ args (fun a b => if b =? 0 then a else a mod b)).
Proof. op gen_remu alu. op_alu. exec2 asm_divremu as v w Hv Hw. result. exact Hw. Qed.

(** A conditional skip of [n] instructions. *)
Lemma blk_skip_if q x y o n code σ0 a b ex ey eo en Q :
  get σ0 x = a -> get σ0 y = b -> eval_literal labels ex = Some x -> eval_literal labels ey = Some y -> eval_literal labels eo = Some o -> eval_literal labels en = Some n ->
  u32 x -> u32 y -> u32 n -> - 2 ^ 33 < a < 2 ^ 33 -> - 2 ^ 33 < b < 2 ^ 33 -> - 2 ^ 33 < o < 2 ^ 33 ->
  blk (q + 1) (if a - b + o =? 0 then Z.to_nat n else 0) code σ0 Q -> blk q 0 (instr "skip_if_equal" [ex; ey; eo; en] :: code) σ0 Q.
Proof.
  intros Ha Hb Ex Ey Eo En Hx Hy Hn Sa Sb So HQ. eapply (blk_instr _ _ _ _ [x; y; o; n]); [reflexivity| |eapply asm_skip_if_equal; eassumption|].
  - repeat (eapply args_cons; [eassumption|]). apply args_nil.
  - destruct (a - b + o =? 0); exact HQ.
Qed.
Ltac skip_if :=
  eapply blk_skip_if; [regs; reflexivity|regs; reflexivity|literal|literal|literal|literal|solve_side..|].

(** Negation of a negative number, by a skipped instruction: the absolute value. *)
Lemma blk_abs q t c a n code σ0 Q :
  get σ0 t = a -> get σ0 c = n -> n = b2z (0 <=? a) -> 32 <= t < 36 -> 32 <= c < 36 -> - 2 ^ 31 <= a < 2 ^ 31 ->
  (forall v σ1, v = Z.abs a -> get σ1 t = v -> (forall r, r <> t -> get σ1 r = get σ0 r) -> asm_mem σ1 = asm_mem σ0 -> blk (q + 2) 0 code σ1 Q) ->
  blk q 0 (instr "skip_if_equal" [num 0; reg c; num 1; num 1] :: instr "affine" [reg t; reg t; neg (num 1); num 0] :: code) σ0 Q.
Proof.
  intros Ha Hn -> Ht Hc Hr HQ. assert (Hb : 0 <= b2z (0 <=? a) <= 1) by (unfold b2z; destruct (0 <=? a); lia).
  eapply (blk_skip_if q 0 c 1 1); [apply get_0|exact Hn|literal|literal|literal|literal|lia..|]. destruct (Z.leb_spec 0 a) as [Hl|Hl]; cbn [b2z].
  - apply blk_skip. replace (q + 1 + 1) with (q + 2) by lia. apply (HQ a); [lia|exact Ha|reflexivity|reflexivity].
  - eapply blk_put; [reflexivity|literals|eapply asm_affine; [exact Ha|lia..]|]. intros v Hv. replace (q + 1 + 1) with (q + 2) by lia.
    apply (HQ v); [lia|now rewrite get_put_eq by lia|intros r Hne; now rewrite get_put_ne|now rewrite mem_put].
Qed.

(** The high word of the product of two numbers that are given by sign and absolute value. *)
Lemma signed_product a b hi lo : - 2 ^ 31 <= a < 2 ^ 31 -> - 2 ^ 32 < b < 2 ^ 32 -> lo = word (Z.abs a * Z.abs b) -> hi = Z.abs a * Z.abs b / 2 ^ 32 ->
  (0 <= a * b -> word (a * b / 2 ^ 32) = hi) /\ (a * b <= 0 -> word (a * b / 2 ^ 32) = word (b2z (lo =? 0) - hi + -1 + 2 ^ 32)).
Proof.
  intros Ha Hb -> ->. assert (Hpr : 0 <= Z.abs a * Z.abs b < 2 ^ 63) by nia. rewrite <- Z.abs_mul in *. split; intros Hsign.
  - rewrite Z.abs_eq in * by exact Hsign. apply word_small. split; [apply Z.div_pos; lia|apply Z.div_lt_upper_bound; lia].
  - replace (a * b) with (- Z.abs (a * b)) at 1 by lia. rewrite negative_high by lia. rewrite product_high by lia. reflexivity.
Qed.

(** The sign of a signed word in a register. *)
Lemma nonneg_flag a : b2z (0 <? a - 0 - -1) = b2z (0 <=? a).
Proof. f_equal. apply Bool.eq_iff_eq_true. rewrite Z.ltb_lt, Z.leb_le. lia. Qed.

Lemma bool_eqb_z (c d : bool) : b2z c - b2z d =? 0 = Bool.eqb c d.
Proof. destruct c, d; reflexivity. Qed.

Lemma high_range a b : u32 a -> u32 b -> u32 (a * b / 2 ^ 32).
Proof. intros Ha Hb. split; [apply Z.div_pos; nia|apply Z.div_lt_upper_bound; nia]. Qed.

Lemma correct_mulhsu : correct (gen_mulhsu args) (alu σ args (fun a b => word (sgn a * b / 2 ^ 32))).
Proof.
  op gen_mulhsu alu. op_alu. pose proof (sgn_range (get σ ra) ltac:(assumption)) as Hs.
  exec asm_to_signed as a Ha. exec asm_is_diff_greater_than as n Hn. rewrite nonneg_flag in Hn.
  eapply (blk_abs _ 32 33 a n); [regs; reflexivity|regs; reflexivity|exact Hn|lia|lia|lia|].
  intros v σ1 Hv Hg Hk Hm. subst n. exec2 asm_mul as lo hi Hlo Hhi.
  assert (u32 lo /\ u32 hi) by (rewrite Hlo, Hhi; split; [apply word_range|apply high_range; lia]).
  destruct (signed_product a (get σ rb) hi lo) as [Hsame Hdiff]; [lia|lia|rewrite <- Hv, Z.abs_eq by lia; assumption..|].
  eapply (blk_skip_if _ 0 33 1 2); [apply get_0|regs; reflexivity|literal..|side|side|side|side|destruct (0 <=? a); cbn; lia|side|].
  destruct (Z.leb_spec 0 a) as [Hpos|Hneg]; cbn [b2z].
  - do 2 apply blk_skip. result. rewrite <- Ha, Hsame by nia. reflexivity.
  - exec asm_is_equal_zero as z Hz. exec asm_sub_wrap as u Hu. result. rewrite <- Ha, Hdiff, Hu, Hz by nia. reflexivity.
Qed.

Lemma same_result rd v σ1 σ2 : rd <> 0 -> get σ1 rd = v -> (forall r, visible r -> r <> rd -> get σ1 r = get σ2 r) -> asm_mem σ1 = asm_mem σ2 ->
  same_state σ1 (put rd v σ2).
Proof.
  intros Hrd Hv Hr Hm. split; [|now rewrite mem_put]. intros r Hvis. destruct (decide (r = rd)) as [->|Hne]; [now rewrite get_put_eq|]. rewrite get_put_ne by exact Hne. now apply Hr.
Qed.
Ltac ends := finish; apply same_result; [assumption|regs|kept|mems].

Lemma correct_mulh : correct (gen_mulh args) (alu σ args (fun a b => word (sgn a * sgn b / 2 ^ 32))).
Proof.
  op gen_mulh alu. op_alu.
  pose proof (sgn_range (get σ ra) ltac:(assumption)) as Hs1. pose proof (sgn_range (get σ rb) ltac:(assumption)) as Hs2.
  exec asm_to_signed as a Ha. exec asm_to_signed as b Hb. exec asm_is_diff_greater_than as m Hm. exec asm_is_diff_greater_than as n Hn. rewrite nonneg_flag in Hm, Hn.
  eapply (blk_abs _ 32 34 a m); [regs; reflexivity|regs; reflexivity|exact Hm|lia|lia|lia|].
  intros v σ1 Hv Hg Hk Hmem. eapply (blk_abs _ 33 35 b n); [regs; reflexivity|regs; reflexivity|exact Hn|lia|lia|lia|].
  intros w σ2 Hw Hg2 Hk2 Hmem2. exec2 asm_mul as lo hi Hlo Hhi.
  assert (u32 lo /\ u32 hi) by (rewrite Hlo, Hhi; split; [apply word_range|apply high_range; lia]).
  destruct (signed_product a b hi lo) as [Hsame Hdiff]; [lia|lia|now rewrite <- Hv, <- Hw..|].
  exec asm_is_not_equal as c Hc. subst m n. rewrite bool_eqb_z in Hc. subst c.
  eapply (blk_skip_if _ 34 0 0 2); [regs; reflexivity|apply get_0|literal..|side|side|side|destruct (Bool.eqb _ _); cbn; lia|side|side|].
  destruct (Z.leb_spec 0 a) as [Hpa|Hna], (Z.leb_spec 0 b) as [Hpb|Hnb]; cbn [b2z Bool.eqb negb].
  1, 4: do 2 apply blk_skip; ends; rewrite <- Ha, <- Hb, Hsame by nia; reflexivity.
  all: exec asm_is_equal_zero as z Hz; exec asm_sub_wrap as u Hu; result; rewrite <- Ha, <- Hb, Hdiff, Hu, Hz by nia; reflexivity.
Qed.

(** *** Comparisons of signed words *)

Lemma signed_word v : u32 v -> - 2 ^ 31 <= sgn v < 2 ^ 31.
Proof. apply sgn_range. Qed.
Ltac signs := repeat match goal with Hw : 0 <= get σ ?r < 2 ^ 32 |- _ => lazymatch goal with _ : - 2 ^ 31 <= sgn (get σ r) < _ |- _ => fail | _ => pose proof (signed_word _ Hw) end end.
Ltac flags := f_equal; apply Bool.eq_iff_eq_true; rewrite ?Z.ltb_lt, ?Z.leb_le; lia.

Lemma correct_slti : correct (gen_slti args) (alu_imm σ args (fun a b => b2z (sgn a <? sgn b))).
Proof.
  op gen_slti alu_imm. signs. op_alu. match goal with Hi : u32 ?i |- context [as_i32 ?i] => rewrite (sgn_as_i32 i Hi); pose proof (sgn_range i Hi) end.
  exec asm_to_signed as a Ha. exec asm_is_diff_greater_than as v Hv. result. rewrite Hv, Ha. flags.
Qed.
Lemma correct_slt : correct (gen_slt args) (alu σ args (fun a b => b2z (sgn a <? sgn b))).
Proof. op gen_slt alu. signs. op_alu. exec asm_to_signed as a Ha. exec asm_to_signed as b Hb. exec asm_is_diff_greater_than as v Hv. result. rewrite Hv, Ha, Hb. flags. Qed.
Lemma correct_sgtz : correct (gen_sgtz args) (alu_one σ args (fun a => b2z (0 <? sgn a))).
Proof. op gen_sgtz alu_one. signs. op_alu. exec asm_to_signed as a Ha. exec asm_is_diff_greater_than as v Hv. result. rewrite Hv, Ha. flags. Qed.

(** *** Shifts *)

Lemma shift_range b : 0 <= shift_amount b < 32.
Proof. apply Z.mod_pos_bound. lia. Qed.
Lemma land_31 b : Z.land b 0x1f = shift_amount b.
Proof. apply (land_ones_mod b 5). lia. Qed.
Lemma div_range a k : u32 a -> 0 <= k -> u32 (a / 2 ^ k).
Proof. intros Ha Hk. pose proof (Z.pow_pos_nonneg 2 k ltac:(lia) Hk). split; [apply Z.div_pos; lia|apply Z.div_lt_upper_bound; nia]. Qed.

Lemma correct_srli : correct (gen_srli args) (shift_imm σ args (fun a k => a / 2 ^ k)).
Proof. op gen_srli shift_imm. b2p. op_alu. exec asm_shr as v Hv. result. exact Hv. Qed.
Lemma correct_sll : correct (gen_sll args) (alu σ args (fun a b => word (a * 2 ^ shift_amount b))).
Proof.
  op gen_sll alu. op_alu. exec asm_and as k Hk. rewrite Z.add_0_l, land_31 in Hk. pose proof (shift_range (get σ rb)). exec asm_shl as v Hv. result. now rewrite Hv, Hk, Z.add_0_r.
Qed.
Lemma correct_srl : correct (gen_srl args) (alu σ args (fun a b => a / 2 ^ shift_amount b)).
Proof.
  op gen_srl alu. op_alu. exec asm_and as k Hk. rewrite Z.add_0_l, land_31 in Hk. pose proof (shift_range (get σ rb)). exec asm_shr as v Hv. result. now rewrite Hv, Hk, Z.add_0_r.
Qed.
Lemma correct_slli : correct (gen_slli args) (shift_imm σ args (fun a k => word (a * 2 ^ k))).
Proof.
  op gen_slli shift_imm. b2p. op_alu. destruct (Z.leb_spec rb 16) as [Hle|Hgt].
  - pose proof (Z.pow_le_mono_r 2 rb 16 ltac:(lia) Hle). pose proof (Z.pow_pos_nonneg 2 rb ltac:(lia) ltac:(lia)).
    replace (Z.shiftl 1 rb) with (2 ^ rb) by (rewrite Z.shiftl_mul_pow2; lia). exec asm_wrap16 as v Hv. result. exact Hv.
  - pose proof (Z.pow_le_mono_r 2 (rb - 16) 16 ltac:(lia) ltac:(lia)). pose proof (Z.pow_pos_nonneg 2 (rb - 16) ltac:(lia) ltac:(lia)).
    replace (Z.shiftl 1 (rb - 16)) with (2 ^ (rb - 16)) by (rewrite Z.shiftl_mul_pow2; lia). change (Z.shiftl 1 16) with (2 ^ 16).
    exec asm_wrap16 as u Hu. assert (u32 u) by (rewrite Hu; apply word_range). exec asm_wrap16 as v Hv. result. rewrite Hv, Hu. unfold word.
    rewrite Z.mul_mod_idemp_l, <- Z.mul_assoc, <- Z.pow_add_r by lia. do 3 f_equal. lia.
Qed.

(** The mask of the sign. *)
Lemma sign_mask a : b2z (0 <? 0 - sgn a - 0) * 4294967295 + 0 = (if sgn a <? 0 then 0xffffffff else 0).
Proof. destruct (Z.ltb_spec 0 (0 - sgn a - 0)), (Z.ltb_spec (sgn a) 0); cbn [b2z]; lia. Qed.
Lemma mask_range a : u32 (if sgn a <? 0 then 0xffffffff else 0).
Proof. destruct (sgn a <? 0); lia. Qed.

Lemma correct_srai : correct (gen_srai args) (shift_imm σ args (fun a k => word (sgn a / 2 ^ k))).
Proof.
  op gen_srai shift_imm. b2p. signs. op_alu. exec asm_to_signed as a Ha. exec asm_is_diff_greater_than as b Hb. exec asm_affine as m Hm.
  rewrite Hb, Ha, sign_mask in Hm. pose proof (mask_range (get σ ra)) as Hmr. rewrite <- Hm in Hmr.
  exec asm_xor as c Hc. pose proof (proj2 (proj2 (bits_width m (get σ ra) Hmr ltac:(assumption)))) as Hcr. rewrite Z.add_0_r in Hc. rewrite <- Hc in Hcr.
  exec asm_shr as d Hd. pose proof (div_range c rb Hcr ltac:(lia)) as Hdr. rewrite Z.add_0_l in Hd. rewrite <- Hd in Hdr.
  exec asm_xor as v Hv. ends. rewrite Hv, Hd, Z.add_0_r, <- sra_word_spec by lia. unfold sra_word. rewrite <- Hm, <- Hc, Z.shiftr_div_pow2 by lia. reflexivity.
Qed.
Lemma correct_sra : correct (gen_sra args) (alu σ args (fun a b => word (sgn a / 2 ^ shift_amount b))).
Proof.
  op gen_sra alu. signs. op_alu. exec asm_to_signed as a Ha. exec asm_is_diff_greater_than as b Hb. exec asm_affine as m Hm.
  rewrite Hb, Ha, sign_mask in Hm. pose proof (mask_range (get σ ra)) as Hmr. rewrite <- Hm in Hmr.
  exec asm_xor as c Hc. pose proof (proj2 (proj2 (bits_width m (get σ ra) Hmr ltac:(assumption)))) as Hcr. rewrite Z.add_0_r in Hc. rewrite <- Hc in Hcr.
  exec asm_and as k Hk. rewrite Z.add_0_l, land_31 in Hk. pose proof (shift_range (get σ rb)) as Hkr. rewrite <- Hk in Hkr.
  exec asm_shr as d Hd. pose proof (div_range c k Hcr ltac:(lia)) as Hdr. rewrite Z.add_0_r in Hd. rewrite <- Hd in Hdr.
  exec asm_xor as v Hv. ends. rewrite Hv, Hd, Z.add_0_r, <- sra_word_spec, <- Hk by lia. unfold sra_word. rewrite <- Hm, <- Hc, Z.shiftr_div_pow2 by lia. reflexivity.
Qed.

(** *** Branches and jumps *)

(** A conditional branch at the end of a block. *)
Lemma blk_branch q name ins i zs σ0 (c : bool) t (Q : AsmState -> Exit -> Prop) :
  from_name name = Some i -> mapM (eval_literal labels) ins = Some zs -> asm_exec q i zs σ0 = Some (σ0, if c then Goto t else Next) ->
  Q σ0 (if c then Jump t else Fall) -> blk q 0 [instr name ins] σ0 Q.
Proof. intros Hn Hz Hx HQ. eapply blk_instr; [exact Hn|exact Hz|exact Hx|]. destruct c; [exact HQ|now apply blk_nil]. Qed.
Tactic Notation "branches" constr(L) :=
  eapply blk_branch; [reflexivity|literals|eapply L; solve_side|].
Ltac taken := split; [|repeat (apply same_put_tmp; [unfold visible; side|]); apply same_refl];
  match goal with |- (if ?c then _ else _) = (if ?d then _ else _) => replace d with c; [reflexivity|] end;
  apply Bool.eq_iff_eq_true; rewrite ?negb_true_iff, ?Z.ltb_lt, ?Z.leb_le, ?Z.eqb_eq, ?Z.eqb_neq; try lia.

Lemma asm_branch_if_diff_nonzero' q σ0 x y l a b : get σ0 x = a -> get σ0 y = b -> u32 x -> u32 y -> - 2 ^ 33 < a < 2 ^ 33 -> - 2 ^ 33 < b < 2 ^ 33 ->
  asm_exec q I_branch_if_diff_nonzero [x; y; l] σ0 = Some (σ0, if negb (a - b =? 0) then Goto l else Next).
Proof. intros Ha Hb Hx Hy Sa Sb. rewrite (asm_branch_if_diff_nonzero q σ0 x y l a b) by assumption. now destruct (a - b =? 0). Qed.

Lemma correct_beq : correct (gen_beq args) (branch2 labels σ args Z.eqb).
Proof. op gen_beq branch2. branches asm_branch_if_diff_equal. taken. Qed.
Lemma correct_beqz : correct (gen_beqz args) (branch1 labels σ args (fun a => a =? 0)).
Proof. op gen_beqz branch1. branches asm_branch_if_diff_equal. taken. Qed.
Lemma correct_bne : correct (gen_bne args) (branch2 labels σ args (fun a b => negb (a =? b))).
Proof. op gen_bne branch2. branches asm_branch_if_diff_nonzero'. taken. Qed.
Lemma correct_bnez : correct (gen_bnez args) (branch1 labels σ args (fun a => negb (a =? 0))).
Proof. op gen_bnez branch1. branches asm_branch_if_diff_nonzero'. taken. Qed.
Lemma correct_bgeu : correct (gen_bgeu args) (branch2 labels σ args (fun a b => b <=? a)).
Proof. op gen_bgeu branch2. branches asm_branch_if_diff_greater_than. taken. Qed.
Lemma correct_bltu : correct (gen_bltu args) (branch2 labels σ args Z.ltb).
Proof. op gen_bltu branch2. branches asm_branch_if_diff_greater_than. taken. Qed.
Lemma correct_blt : correct (gen_blt args) (branch2 labels σ args (fun a b => sgn a <? sgn b)).
Proof. op gen_blt branch2. signs. exec asm_to_signed as a Ha. exec asm_to_signed as b Hb. branches asm_branch_if_diff_greater_than. taken. Qed.
Lemma correct_bge : correct (gen_bge args) (branch2 labels σ args (fun a b => sgn b <=? sgn a)).
Proof. op gen_bge branch2. signs. exec asm_to_signed as a Ha. exec asm_to_signed as b Hb. branches asm_branch_if_diff_greater_than. taken. Qed.
Lemma correct_bgez : correct (gen_bgez args) (branch1 labels σ args (fun a => 0 <=? sgn a)).
Proof. op gen_bgez branch1. signs. exec asm_to_signed as a Ha. branches asm_branch_if_diff_greater_than. taken. Qed.
Lemma correct_bltz : correct (gen_bltz args) (branch1 labels σ args (fun a => sgn a <? 0)).
Proof. op gen_bltz branch1. signs. branches asm_branch_if_diff_greater_than. unfold sgn. taken; destruct (Z.ltb_spec (get σ rd) (2 ^ 31)); lia. Qed.
Lemma correct_blez : correct (gen_blez args) (branch1 labels σ args (fun a => sgn a <=? 0)).
Proof. op gen_blez branch1. signs. exec asm_to_signed as a Ha. branches asm_branch_if_diff_greater_than. taken. Qed.
Lemma correct_bgtz : correct (gen_bgtz args) (branch1 labels σ args (fun a => 0 <? sgn a)).
Proof. op gen_bgtz branch1. signs. exec asm_to_signed as a Ha. branches asm_branch_if_diff_greater_than. taken. Qed.

(** The position after the jump goes to a register, a temporary one if it is not used. *)
Lemma blk_jump name ins zs i σ0 w rd t n :
  from_name name = Some i -> mapM (eval_literal labels) ins = Some zs -> asm_exec p i zs σ0 = Some (put w (p + 1) σ0, Goto t) -> n = p + 1 ->
  w = rd \/ rd = 0 /\ ~ visible w ->
  blk p 0 [instr name ins] σ0 (fun σ' ex' => ex' = Jump t /\ same_state σ' (put rd n σ0)).
Proof.
  intros Hn Hz Hx -> Hw. eapply blk_instr; [exact Hn|exact Hz|exact Hx|]. split; [reflexivity|]. destruct Hw as [->|(-> & Hw)]; [apply same_refl|]. apply same_put_tmp; [exact Hw|apply same_refl].
Qed.
Tactic Notation "jumps" constr(L) :=
  eapply blk_jump; [reflexivity|literals|eapply L; solve_side|cbn [length] in *; lia|first [left; reflexivity|right; split; [reflexivity|unfold visible; side]]].

Lemma correct_j : correct (gen_j args) (label ← arg_l args; link_jump labels next σ 0 label).
Proof. intros code σr ex Hg Hs Hnext. unfold gen_j in Hg. unfold link_jump in Hs. opened. jumps asm_jump. Qed.
Lemma correct_jr : correct (gen_jr args) (rs ← arg_r args; link_jump_reg next σ 0 rs).
Proof. intros code σr ex Hg Hs Hnext. unfold gen_jr in Hg. unfold link_jump_reg in Hs. opened. known_regs. jumps asm_jump_dyn. Qed.
Lemma correct_call : correct (gen_call args) (label ← arg_l args; link_jump labels next σ 1 label).
Proof. intros code σr ex Hg Hs Hnext. unfold gen_call in Hg. unfold link_jump in Hs. opened. jumps asm_jump. Qed.
Lemma correct_ret : correct (gen_ret args) (_ ← arg_empty args; link_jump_reg next σ 0 1).
Proof. intros code σr ex Hg Hs Hnext. unfold gen_ret in Hg. unfold link_jump_reg in Hs. opened. pose proof (words_regs _ HW 1 ltac:(lia)). jumps asm_jump_dyn. Qed.
Lemma correct_jal : correct (gen_jal args) (isa_jal labels next σ args).
Proof.
  op gen_jal isa_jal; [jumps asm_jump|]. unfold is_zero in Hg. destruct (Z.eqb_spec rd 0) as [->|Hz]; opened; jumps asm_jump.
Qed.
Lemma correct_jalr : correct (gen_jalr args) (isa_jalr next σ args).
Proof.
  op gen_jalr isa_jalr; [jumps asm_jump_dyn|]. unfold is_zero in Hg. destruct (Z.eqb_spec rd 0) as [->|Hz]; opened; jumps asm_jump_dyn.
Qed.
Lemma correct_fence : correct gen_fence (Some (σ, Fall)).
Proof. intros code σr ex Hg Hs Hnext. unfold gen_fence in Hg. opened. apply blk_nil. split; [reflexivity|apply same_refl]. Qed.
Lemma correct_ebreak : correct (gen_ebreak args) (_ ← arg_empty args; Some (σ, Fall)).
Proof. intros code σr ex Hg Hs Hnext. unfold gen_ebreak in Hg. opened. apply blk_nil. split; [reflexivity|apply same_refl]. Qed.

(** *** Loads and stores *)

Lemma offset_range a : 0 <= bit_offset a < 32.
Proof. unfold bit_offset. pose proof (Z.mod_pos_bound a 4). lia. Qed.
Lemma base_aligned a : a mod 4 = 0 -> base a = a.
Proof. unfold base. lia. Qed.

Lemma correct_lw : correct (gen_lw args) (load_word σ args).
Proof.
  op gen_lw load_word. b2p. op_alu. exec2 asm_mload as v w Hv Hw. result1. now rewrite Hv, base_aligned by assumption.
Qed.

(** The bytes of a load are shifted to the right place. *)
Lemma blk_load_shifted rs off a last (Q : AsmState -> Exit -> Prop) :
  0 <= rs < 32 -> u32 off -> u32 (get σ rs) -> a = word (get σ rs + off) ->
  (forall q v σ1, v = load σ (base a) / 2 ^ bit_offset a -> u32 v -> get σ1 tmp1 = v -> (forall r, visible r -> get σ1 r = get σ r) -> asm_mem σ1 = asm_mem σ -> blk q 0 [last] σ1 Q) ->
  blk p 0 (load_shifted rs off last) σ Q.
Proof.
  intros Hrs Hoff Hget Ha HQ. unfold load_shifted. exec2 asm_mload as v b Hv Hb. rewrite <- Ha in Hv, Hb. pose proof (word_at (base a)) as Hvr. rewrite <- Hv in Hvr.
  pose proof (offset_range a) as Hk. unfold bit_offset in Hk. rewrite <- Hb in Hk. exec asm_affine as k Hkv. exec asm_shr as s Hs.
  apply (HQ _ s).
  - rewrite Hs, Hv, Hkv, Hb. unfold bit_offset. f_equal. f_equal. lia.
  - rewrite Hs. apply div_range; lia.
  - now regs.
  - intros r Hvis. unfold visible in Hvis. now regs.
  - mems.
Qed.

Ltac shifted_load f := let x := fresh "x" in let Hx := fresh "Hx" in intros q v σ1 Hv Hr Hg Hk Hm; exec f as x Hx; finish; apply same_put; [|intros r Hvis _; now apply Hk|exact Hm]; rewrite Hx, Hv.
Ltac load_op g :=
  b2p; op_alu; eapply blk_load_shifted; [assumption|assumption|assumption|reflexivity|shifted_load g].

Lemma correct_lb : correct (gen_lb args) (load_part σ args 1 (extend 8)).
Proof. op gen_lb load_part. load_op asm_sign_extend_byte. reflexivity. Qed.
Lemma correct_lh : correct (gen_lh args) (load_part σ args 2 (extend 16)).
Proof. op gen_lh load_part. load_op asm_sign_extend_16_bits. reflexivity. Qed.
Lemma correct_lbu : correct (gen_lbu args) (load_part σ args 1 (fun v => v)).
Proof. op gen_lbu load_part. load_op asm_and. now rewrite Z.add_0_l, (land_ones_mod _ 8) by lia. Qed.
Lemma correct_lhu : correct (gen_lhu args) (load_part σ args 2 (fun v => v)).
Proof. op gen_lhu load_part. load_op asm_and. now rewrite Z.add_0_l, (land_ones_mod _ 16) by lia. Qed.

(** A store at the end of a block. *)
Lemma blk_mstore q x y o w a b v ex ey eo ew code σ0 Q :
  eval_literal labels ex = Some x -> eval_literal labels ey = Some y -> eval_literal labels eo = Some o -> eval_literal labels ew = Some w -> get σ0 x = a -> get σ0 y = b -> get σ0 w = v ->
  u32 x -> u32 y -> u32 w -> u32 a -> u32 b -> u32 o -> u32 v -> 0 <= a - b + o -> (a - b + o) mod 4 = 0 ->
  blk (q + 1) 0 code (store (word (a - b + o)) v σ0) Q -> blk q 0 (instr "mstore" [ex; ey; eo; ew] :: code) σ0 Q.
Proof.
  intros Ex Ey Eo Ew Ha Hb Hv Hx Hy Hw Sa Sb So Sv Hpos Hal HQ. eapply (blk_instr _ _ _ _ [x; y; o; w]); [reflexivity| |eapply asm_mstore; eassumption|exact HQ].
  repeat (eapply args_cons; [eassumption|]). apply args_nil.
Qed.
Lemma word_mod_4 a : word a mod 4 = a mod 4.
Proof. unfold word. change (2 ^ 32) with 4294967296. Z.div_mod_to_equations. lia. Qed.

Lemma correct_sw : correct (gen_sw args) (store_word σ args).
Proof.
  op gen_sw store_word. b2p. rewrite word_mod_4 in *. eapply blk_mstore; [literal|literal|literal|literal|regs; reflexivity|regs; reflexivity|reflexivity|lia|lia|lia|lia|lia|lia|lia|lia| |].
  - now rewrite Z.sub_0_r.
  - finish. rewrite Z.sub_0_r. apply same_refl.
Qed.

(** The blocks of the half word and the byte stores insert bits into the word. *)
Lemma blk_store_masked w r2 r1 off a :
  w = 8 \/ w = 16 -> 0 <= r1 < 32 -> 0 <= r2 < 32 -> u32 off -> a = word (get σ r1 + off) -> a mod (w / 8) = 0 ->
  blk p 0 (store_masked (2 ^ w - 1) r2 r1 off) σ
    (fun σ' ex' => ex' = Fall /\ same_state σ' (store (base a) (set_part w a (get σ r2) (load σ (base a))) σ)).
Proof.
  intros Hw Hr1 Hr2 Hoff Ha Hal. known_regs. assert (Hmask : 2 ^ 8 - 1 <= 2 ^ w - 1 <= 2 ^ 16 - 1) by (destruct Hw as [-> | ->]; lia).
  unfold store_masked. exec2 asm_mload as v b Hv Hb. rewrite <- Ha in Hv, Hb. pose proof (word_at (base a)) as Hvr. rewrite <- Hv in Hvr.
  pose proof (offset_range a) as Hkr. unfold bit_offset in Hkr. rewrite <- Hb in Hkr.
  assert (Hkw : b * 8 + w <= 32). { rewrite Hb. destruct Hw as [-> | ->]; [change (8 / 8) with 1 in Hal|change (16 / 8) with 2 in Hal]; Z.div_mod_to_equations; lia. }
  exec asm_set_reg as m Hm. exec asm_affine as k Hk. rewrite Z.add_0_r in Hk. exec asm_shl as m1 Hm1. assert (Hm1r : u32 m1) by (rewrite Hm1; apply word_range).
  exec asm_xor as m2 Hm2. pose proof (proj2 (proj2 (bits_width m1 0xffffffff Hm1r ltac:(lia)))) as Hm2r. rewrite Z.add_0_l in Hm2. rewrite <- Hm2 in Hm2r.
  exec asm_and as v1 Hv1. pose proof (proj1 (bits_width v m2 Hvr Hm2r)) as Hv1r. rewrite Z.add_0_r in Hv1. rewrite <- Hv1 in Hv1r.
  exec asm_and as x Hx. pose proof (proj1 (bits_width (get σ r2) (2 ^ w - 1) ltac:(assumption) ltac:(lia))) as Hxr. rewrite Z.add_0_l in Hx. rewrite <- Hx in Hxr.
  exec asm_shl as x1 Hx1. assert (Hx1r : u32 x1) by (rewrite Hx1; apply word_range).
  exec asm_or as u Hu. pose proof (proj1 (proj2 (bits_width v1 x1 Hv1r Hx1r))) as Hur. rewrite Z.add_0_r in Hu. rewrite <- Hu in Hur.
  assert (Hbase : get σ r1 - b + off >= 0 /\ (get σ r1 - b + off) mod 4 = 0 /\ word (get σ r1 - b + off) = base a).
  { rewrite Hb, Ha. unfold base. rewrite word_mod_4. unfold word. change (2 ^ 32) with 4294967296 in *. Z.div_mod_to_equations. lia. }
  eapply blk_mstore; [literal|literal|literal|literal|regs; reflexivity|regs; reflexivity|regs; reflexivity|solve_side|solve_side|solve_side|lia|lia|lia|lia|lia|lia|].
  finish. apply same_store; [lia| |repeat (apply same_put_tmp; [unfold visible; side|]); apply same_refl].
  rewrite <- Hv, Hu, Hv1, Hm2, Hm1, Hx1, Hx, Hm, Z.add_0_r. unfold word. rewrite <- !Z.shiftl_mul_pow2 by lia.
  fold (as_width 32 (Z.shiftl (2 ^ w - 1) k)) (as_width 32 (Z.shiftl (Z.land (get σ r2) (2 ^ w - 1)) k)).
  transitivity (insert_bits w k v (get σ r2)); [reflexivity|]. rewrite insert_bits_spec by lia. unfold set_part, part, bit_offset. rewrite Hk, Hb, (Z.mul_comm _ 8). reflexivity.
Qed.
Lemma correct_sb : correct (gen_sb args) (store_part σ args 1).
Proof. op gen_sb store_part. b2p. apply (blk_store_masked 8); auto. Qed.
Lemma correct_sh : correct (gen_sh args) (store_part σ args 2).
Proof. op gen_sh store_part. b2p. apply (blk_store_masked 16); auto. Qed.

(** *** Atomic instructions *)

Lemma correct_amoadd : correct (gen_amoadd_w args) (isa_amoadd σ args).
Proof.
  op gen_amoadd_w isa_amoadd. b2p. cbn [app]. exec2 asm_mload as v w Hv Hw. rewrite Z.add_0_r, word_small, base_aligned in Hv by assumption.
  pose proof (word_at (get σ rb)) as Hvr. rewrite <- Hv in Hvr. exec asm_add_wrap as s Hs. rewrite Z.add_0_r in Hs. assert (Hsr : u32 s) by (rewrite Hs; apply word_range).
  eapply blk_mstore; [literal|literal|literal|literal|regs; reflexivity|regs; reflexivity|regs; reflexivity|solve_side..| |]; [rewrite Z.sub_0_r, Z.add_0_r; assumption|].
  rewrite Z.sub_0_r, Z.add_0_r, word_small by assumption.
  rewrite Hv in Hs.
  lazymatch goal with |- blk _ _ _ ?s1 _ => assert (Hsame : same_state s1 (store (get σ rb) (word (load σ (get σ rb) + get σ ra)) σ)) end.
  { apply same_store; [reflexivity|exact Hs|repeat (apply same_put_tmp; [unfold visible; side|]); apply same_refl]. }
  apply blk_unless_zero; [intros Hrd|intros ->; split; [reflexivity|exact Hsame]].
  exec asm_affine as u Hu. finish. apply same_put; [lia| |exact (proj2 Hsame)]. intros r Hvis _. now apply Hsame.
Qed.

Lemma correct_lr : correct (gen_lr_w args) (isa_lr σ args).
Proof.
  op gen_lr_w isa_lr. b2p.
  assert (Hset : forall q σ1, same_state σ1 (put rd (load σ (get σ ra)) σ) ->
    blk q 0 [instr "set_reg" [reg lr_sc_reservation; num 1]] σ1 (fun σ' ex' => ex' = Fall /\ same_state σ' (put lr_sc_reservation 1 (put rd (load σ (get σ ra)) σ)))).
  { intros q σ1 [Hr Hm]. exec asm_set_reg as v Hv. finish. apply same_put; [exact Hv|intros r Hvis _; now apply Hr|exact Hm]. }
  unfold only_if_no_write_to_zero_vec, is_zero. destruct (Z.eqb_spec rd 0) as [->|Hrd]; cbn [app]; [apply Hset, same_refl|].
  exec2 asm_mload as v w Hv Hw. rewrite Z.add_0_r, word_small, base_aligned in Hv by assumption.
  apply Hset. apply same_put_tmp; [unfold visible; side|]. rewrite Hv. apply same_refl.
Qed.

Lemma correct_sc : correct (gen_sc_w args) (isa_sc σ args).
Proof.
  op gen_sc_w isa_sc. b2p. cbn [app]. pose proof (words_reservation _ HW) as Hres. set (c := get σ lr_sc_reservation) in *.
  assert (Hrest : forall q σ1, same_state σ1 (if negb (c =? 0) then store (get σ rb) (get σ ra) σ else σ) ->
    blk q 0 (only_if_no_write_to_zero_vec rd [instr "affine" [reg lr_sc_reservation; reg rd; neg (num 1); num 1]] ++ [instr "set_reg" [reg lr_sc_reservation; num 0]]) σ1
      (fun σ' ex' => ex' = Fall /\ same_state σ' (put lr_sc_reservation 0 (put rd (b2z (negb (negb (c =? 0)))) (if negb (c =? 0) then store (get σ rb) (get σ ra) σ else σ))))).
  { intros q σ1 Hsame. assert (Hc : get σ1 lr_sc_reservation = c) by (rewrite (proj1 Hsame) by (now right); destruct (negb (c =? 0)); reflexivity).
    assert (Hset : forall q σ2 σ3, same_state σ2 σ3 -> blk q 0 [instr "set_reg" [reg lr_sc_reservation; num 0]] σ2 (fun σ' ex' => ex' = Fall /\ same_state σ' (put lr_sc_reservation 0 σ3))).
    { intros q' σ2 σ3 [Hr Hm]. exec asm_set_reg as v Hv. finish. apply same_put; [exact Hv|intros r Hvis _; now apply Hr|exact Hm]. }
    unfold only_if_no_write_to_zero_vec, is_zero. destruct (Z.eqb_spec rd 0) as [->|Hrd]; cbn [app]; [now apply Hset|].
    eapply blk_put; [reflexivity|literals|eapply asm_affine; [exact Hc|solve_side..]|]. intros v Hv. apply Hset. apply same_put; [|intros r Hvis _; now apply Hsame|apply Hsame].
    rewrite Hv. destruct Hres as [-> | ->]; reflexivity. }
  eapply (blk_skip_if p 36 0 0 1 _ _ c 0); [reflexivity|apply get_0|literal..|lia|lia|lia|lia|lia|lia|]. rewrite Z.sub_0_r, Z.add_0_r.
  destruct (Z.eqb_spec c 0) as [Hc|Hc]; cbn [negb] in *.
  - apply blk_skip, Hrest, same_refl.
  - eapply blk_mstore; [literal|literal|literal|literal|reflexivity|apply get_0|reflexivity|lia|lia|lia|lia|lia|lia|lia|lia| |]; [rewrite Z.sub_0_r, Z.add_0_r; assumption|].
    rewrite Z.sub_0_r, Z.add_0_r, word_small by assumption. apply Hrest, same_refl.
Qed.

(** *** All instructions *)

(** Two tables with the same names. *)
Lemma find_same_names {A B} (R : A -> B -> Prop) (l1 : list (string * A)) (l2 : list (string * B)) k : Forall2 (fun a b => fst a = fst b /\ R (snd a) (snd b)) l1 l2 ->
  match List.find (fun a => bool_decide (fst a = k)) l1, List.find (fun b => bool_decide (fst b = k)) l2 with
  | Some (_, x), Some (_, y) => R x y
  | None, None => True
  | _, _ => False
  end.
Proof.
  induction 1 as [|[n x] [m y] l1 l2 [Hn HR] Hl IH]; [exact I|]. cbn in Hn, HR |- *. subst m. case_bool_decide; [exact HR|exact IH].
Qed.

Lemma correct_none gen : correct gen None.
Proof. intros code σr ex Hg Hs. discriminate. Qed.

Create HintDb codegen discriminated.
#[local] Hint Constants Opaque : codegen.
#[local] Hint Resolve correct_none correct_fence correct_li correct_lui correct_mv correct_add correct_addi correct_sub correct_neg correct_not correct_xor correct_xori correct_and correct_andi correct_or correct_ori correct_seqz correct_snez correct_sltiu correct_sltu correct_mul correct_mulhu correct_divu correct_remu correct_mulhsu correct_mulh correct_slti correct_slt correct_sgtz correct_srli correct_sll correct_srl correct_slli correct_srai correct_sra correct_beq correct_beqz correct_bne correct_bnez correct_bgeu correct_bltu correct_blt correct_bge correct_bgez correct_bltz correct_blez correct_bgtz correct_j correct_jr correct_call correct_ret correct_jal correct_jalr correct_ebreak correct_lw correct_lb correct_lh correct_lbu correct_lhu correct_sw correct_sb correct_sh correct_amoadd correct_lr correct_sc : codegen.

Lemma arms_correct : Forall2 (fun a b => fst a = fst b /\ correct (snd a args) (snd b)) arms (isa labels next σ args).
Proof.
  unfold arms, isa. repeat (apply Forall2_cons; split; [split; [reflexivity|cbn [snd]]|]); [..|now apply Forall2_nil].
  all: auto with codegen nocore.
Qed.

(** Up to temporary registers, the generated code does what the reference describes. *)
Lemma instruction_correct op rt : correct (process_instruction op args rt) (isa_step labels next σ args op).
Proof.
  unfold process_instruction, isa_step. pose proof (find_same_names (fun g r => correct (g args) r) _ _ op arms_correct) as Hfind.
  destruct (List.find _ arms) as [[n gen]|], (List.find _ (isa _ _ _ _)) as [[m step]|]; try contradiction; [exact Hfind|].
  destruct (starts_with "amoadd.w" op); [apply correct_amoadd|]. destruct (starts_with "lr.w" op); [apply correct_lr|]. destruct (starts_with "sc.w" op); [apply correct_sc|apply correct_none].
Qed.

End Correct.
End Blocks.

(** ** Every described instruction is translated *)

Section Total.
Variable labels : string -> option Z.
Variable next : Z.
Variable σ : AsmState.
Variable args : InstructionArgs.

Notation covers gen step := (gen = None -> step = None).

Lemma arms_total : Forall2 (fun a b => fst a = fst b /\ covers (snd a args) (snd b)) arms (isa labels next σ args).
Proof.
  unfold arms, isa. repeat (apply Forall2_cons; split; [split; [reflexivity|cbn [snd]]|]); [..|now apply Forall2_nil].
  all: intros Hg; try reflexivity; lazymatch type of Hg with ?g args = _ => unfold g in Hg | _ => discriminate Hg end.
  all: unfold isa_li, isa_lui, isa_jal, isa_jalr, alu, alu_imm, alu_one, shift_imm, branch1, branch2, load_word, load_part, store_word, store_part.
  all: repeat match goal with
    | Hg : context [?f args] |- _ => lazymatch type of (f args) with option _ => destruct (f args) as [a|]; cbn [mbind option_bind] in Hg |- * end
    | a : _ * _ |- _ => destruct a
    end; cbn [mbind option_bind] in *; try discriminate Hg; try reflexivity.
  all: unfold assert_that in *.
  all: repeat match goal with
    | Hg : context [if ?c then _ else _] |- _ => destruct c eqn:?; cbn [mbind option_bind] in Hg |- *; try discriminate Hg
    | |- context [if ?c then _ else _] => destruct c eqn:?; cbn [mbind option_bind]
    end; try reflexivity; b2p; try lia.
Qed.

Lemma instruction_total op rt : covers (process_instruction op args rt) (isa_step labels next σ args op).
Proof.
  unfold process_instruction, isa_step. pose proof (find_same_names (fun g r => covers (g args) r) _ _ op arms_total) as Hfind.
  destruct (List.find _ arms) as [[n gen]|], (List.find _ (isa _ _ _ _)) as [[m step]|]; try contradiction; [exact Hfind|].
  unfold gen_amoadd_w, gen_lr_w, gen_sc_w, isa_amoadd, isa_lr, isa_sc.
  destruct (starts_with "amoadd.w" op); [destruct (arg_rrr2 args) as [[[? ?] ?]|]; [discriminate|reflexivity]|].
  destruct (starts_with "lr.w" op); [destruct (arg_rr args) as [[? ?]|]; [discriminate|reflexivity]|].
  destruct (starts_with "sc.w" op); [destruct (arg_rrr2 args) as [[[? ?] ?]|]; [discriminate|reflexivity]|]. reflexivity.
Qed.

End Total.

(** C2: Generated code computes RISC-V instructions: for every instruction that the reference describes the code
    generator has code, and this code, run on the instructions of the machine from any state of words, terminates and leaves
    registers, memory, reservation and control as the reference does; only the temporary registers may differ. *)
Theorem codegen_correct labels p σ args op rt σr ex : 0 <= p < 2 ^ 31 -> (forall l t, labels l = Some t -> 0 <= t < 2 ^ 32) -> Words σ -> ArgsOk args ->
  isa_step labels (p + Z.of_nat (length (default [] (process_instruction op args rt)))) σ args op = Some (σr, ex) ->
  exists code σ', process_instruction op args rt = Some code /\ run_block labels p 0 code σ = Some (σ', ex) /\ same_state σ' σr.
Proof.
  intros Hp Hl HW Ha Hs. destruct (process_instruction op args rt) as [code|] eqn:Hc; [|now rewrite (instruction_total _ _ _ _ op rt Hc) in Hs].
  destruct (instruction_correct labels p _ σ args Hp Hl HW Ha op rt code σr ex Hc Hs eq_refl) as (σ' & ex' & Hr & -> & Hsame). now exists code, σ'.
Qed.

(** [mulh x5, x6, x7] with a negative and a positive factor: the high word of [-2 * 3]. *)
Definition rrr_args (rd r1 r2 : Register) : InstructionArgs := mkArgs None None None (Some (rd, r1, r2)) None None None None None None None.
Definition mulh_state : AsmState := mkAsm (fun r => if r =? 6 then 2 ^ 32 - 2 else if r =? 7 then 3 else 0) ∅.
Lemma mulh_words : Words mulh_state.
Proof.
  split; [|now left|apply map_Forall_empty]. intros r _. unfold get, mulh_state. cbn [asm_regs]. destruct (r =? 0); [lia|]. destruct (r =? 6); [lia|]. destruct (r =? 7); lia.
Qed.
Lemma mulh_args : ArgsOk (rrr_args 5 6 7).
Proof. split; intros; try discriminate. cbn in *. simplify_eq. unfold ok_reg. lia. Qed.

Lemma codegen_correct_witness : exists code σ',
  process_instruction "mulh" (rrr_args 5 6 7) [] = Some code /\ run_block (fun _ => None) 0 0 code mulh_state = Some (σ', Fall) /\ get σ' 5 = 2 ^ 32 - 1.
Proof.
  destruct (codegen_correct (fun _ => None) 0 mulh_state (rrr_args 5 6 7) "mulh" [] (put 5 (2 ^ 32 - 1) mulh_state) Fall) as (code & σ' & Hc & Hr & Hs & _).
  - lia.
  - discriminate.
  - exact mulh_words.
  - exact mulh_args.
  - reflexivity.
  - exists code, σ'. split; [exact Hc|]. split; [exact Hr|]. rewrite Hs by (left; lia). reflexivity.
Defined.
