(* ===== verification/RiscvSource.v ===== *)
(** * RISC-V programs: a step of the reference, and runs of generated programs in the executor

    The steps of the reference keep the registers and the memory words, and depend on the
    visible state only; programs of the reference are simulated by the executor on the code
    that is generated for them. *)

From stdpp Require Import base list option gmap strings pretty relations.
From Stdlib Require Import ZArith Lia.
From S2P Require Import Prelude Goldilocks Field AffineExpression PanicMonad RiscvElem RiscvNames RiscvTrace RiscvExec RiscvInstr RiscvRun RiscvAsm RiscvCodeGen RiscvIsa RiscvCompile.

Notation u32 z := (0 <= z < 2 ^ 32).

(** ** The visible state *)

#[export] Instance same_state_equivalence : Equivalence same_state.
Proof.
  split.
  - intros σ. now split.
  - intros σ1 σ2 [Hr Hm]. split; [|now symmetry]. intros r Hv. symmetry. now apply Hr.
  - intros σ1 σ2 σ3 [Hr Hm] [Hr' Hm']. split; [|congruence]. intros r Hv. rewrite Hr by exact Hv. now apply Hr'.
Qed.

#[export] Instance put_proper : Proper (eq ==> eq ==> same_state ==> same_state) put.
Proof. intros r _ <- v _ <- σ1 σ2 [Hr Hm]. apply same_put; [reflexivity|intros x Hx _; now apply Hr|exact Hm]. Qed.
#[export] Instance store_proper : Proper (eq ==> eq ==> same_state ==> same_state) store.
Proof. intros a _ <- v _ <- σ1 σ2 Hs. now apply same_store. Qed.
#[export] Instance load_proper : Proper (same_state ==> eq ==> eq) load.
Proof. intros σ1 σ2 [_ Hm] a _ <-. unfold load. now rewrite Hm. Qed.

Lemma same_get σ1 σ2 r : same_state σ1 σ2 -> 0 <= r < 32 -> get σ1 r = get σ2 r.
Proof. intros [Hr _] Hv. apply Hr. now left. Qed.
Lemma same_reservation σ1 σ2 : same_state σ1 σ2 -> get σ1 lr_sc_reservation = get σ2 lr_sc_reservation.
Proof. intros [Hr _]. apply Hr. now right. Qed.

(** ** Words *)

Lemma words_put σ r v : Words σ -> 0 <= r < 32 -> u32 v -> Words (put r v σ).
Proof.
  intros [H1 H2 H3] Hr Hv. split; [| |now rewrite mem_put].
  - intros x Hx. rewrite get_put. destruct ((x =? r) && negb (r =? 0)); [exact Hv|now apply H1].
  - rewrite get_put_ne; [exact H2|]. unfold lr_sc_reservation. lia.
Qed.
Lemma words_reserve σ v : Words σ -> v = 0 \/ v = 1 -> Words (put lr_sc_reservation v σ).
Proof.
  intros [H1 H2 H3] Hv. split; [| |now rewrite mem_put].
  - intros x Hx. rewrite get_put_ne; [now apply H1|unfold lr_sc_reservation; lia].
  - now rewrite get_put_eq by easy.
Qed.
Lemma words_store σ a v : Words σ -> u32 v -> Words (store a v σ).
Proof. intros [H1 H2 H3] Hv. split; [exact H1|exact H2|]. rewrite mem_store. apply map_Forall_insert_2; [exact Hv|exact H3]. Qed.
Lemma words_load σ a : Words σ -> u32 (load σ a).
Proof. intros HW. apply (word_at σ HW). Qed.

(** Two results with the same exit and the same visible state; the second is a state of words. *)
Inductive agree : option (AsmState * Exit) -> option (AsmState * Exit) -> Prop :=
| agree_some σ1 σ2 ex : same_state σ1 σ2 -> Words σ2 -> agree (Some (σ1, ex)) (Some (σ2, ex))
| agree_none : agree None None.

Section Steps.
Variable labels : string -> option Z.
Variable next : Z.
Variable args : InstructionArgs.
Variables σ1 σ2 : AsmState.
Hypothesis Hnext : u32 next.
Hypothesis Hlabels : forall l t, labels l = Some t -> u32 t.
Hypothesis Hargs : ArgsOk args.
Hypothesis Hsame : same_state σ1 σ2.
Hypothesis HW : Words σ2.

Lemma reg_word r : 0 <= r < 32 -> u32 (get σ2 r).
Proof. apply (words_regs _ HW). Qed.

Lemma agree_put r v : 0 <= r < 32 -> u32 v -> forall ex, agree (Some (put r v σ1, ex)) (Some (put r v σ2, ex)).
Proof. intros Hr Hv ex. constructor; [now rewrite Hsame|now apply words_put]. Qed.

(** Opens the arguments, and reads the registers of the first state in the second one. *)
Ltac read := rewrite ?(same_reservation _ _ Hsame), ?(load_proper _ _ Hsame _ _ eq_refl);
  repeat match goal with |- context [get σ1 ?r] => rewrite (same_get σ1 σ2 r Hsame) by (assumption || lia) end.

Lemma agree_alu f : (forall a b, u32 a -> u32 b -> u32 (f a b)) -> agree (alu σ1 args f) (alu σ2 args f).
Proof.
  intros Hf. unfold alu. destruct (arg_rrr args) as [[[rd ra] rb]|] eqn:Ha; [|constructor]. cbn [mbind option_bind]. apply (ok_rrr _ Hargs) in Ha as (H1 & H2 & H3). read.
  apply agree_put; [exact H1|apply Hf; now apply reg_word].
Qed.
Lemma agree_alu_imm f : (forall a b, u32 a -> u32 b -> u32 (f a b)) -> agree (alu_imm σ1 args f) (alu_imm σ2 args f).
Proof.
  intros Hf. unfold alu_imm. destruct (arg_rri args) as [[[rd ra] i]|] eqn:Ha; [|constructor]. cbn [mbind option_bind]. apply (ok_rri _ Hargs) in Ha as (H1 & H2 & H3). read.
  apply agree_put; [exact H1|apply Hf; [now apply reg_word|exact H3]].
Qed.
Lemma agree_alu_one f : (forall a, u32 a -> u32 (f a)) -> agree (alu_one σ1 args f) (alu_one σ2 args f).
Proof.
  intros Hf. unfold alu_one. destruct (arg_rr args) as [[rd ra]|] eqn:Ha; [|constructor]. cbn [mbind option_bind]. apply (ok_rr _ Hargs) in Ha as (H1 & H2). read.
  apply agree_put; [exact H1|apply Hf; now apply reg_word].
Qed.
Lemma agree_shift_imm f : (forall a k, u32 a -> 0 <= k < 32 -> u32 (f a k)) -> agree (shift_imm σ1 args f) (shift_imm σ2 args f).
Proof.
  intros Hf. unfold shift_imm. destruct (arg_rri args) as [[[rd ra] i]|] eqn:Ha; [|constructor]. cbn [mbind option_bind]. apply (ok_rri _ Hargs) in Ha as (H1 & H2 & H3). read.
  unfold assert_that. destruct (Z.ltb_spec i 32) as [Hi|Hi]; [|constructor]. cbn [mbind option_bind]. unfold ok_word in H3.
  apply agree_put; [exact H1|apply Hf; [now apply reg_word|lia]].
Qed.

Lemma agree_jump_if c c' l : c = c' -> agree (jump_if labels σ1 c l) (jump_if labels σ2 c' l).
Proof. intros ->. unfold jump_if. destruct (labels _); [|constructor]. now constructor. Qed.
Lemma agree_branch2 f : agree (branch2 labels σ1 args f) (branch2 labels σ2 args f).
Proof.
  unfold branch2. destruct (arg_rrl args) as [[[ra rb] l]|] eqn:Ha; [|constructor]. cbn [mbind option_bind]. apply (ok_rrl _ Hargs) in Ha as (H1 & H2). apply agree_jump_if. now read.
Qed.
Lemma agree_branch1 f : agree (branch1 labels σ1 args f) (branch1 labels σ2 args f).
Proof.
  unfold branch1. destruct (arg_rl args) as [[ra l]|] eqn:Ha; [|constructor]. cbn [mbind option_bind]. apply (ok_rl _ Hargs) in Ha. apply agree_jump_if. now read.
Qed.
Lemma agree_link rd l : 0 <= rd < 32 -> agree (link_jump labels next σ1 rd l) (link_jump labels next σ2 rd l).
Proof. intros Hr. unfold link_jump. destruct (labels _); [|constructor]. now apply agree_put. Qed.
Lemma agree_link_reg rd rs : 0 <= rd < 32 -> 0 <= rs < 32 -> agree (link_jump_reg next σ1 rd rs) (link_jump_reg next σ2 rd rs).
Proof. intros Hr Hs. unfold link_jump_reg. read. now apply agree_put. Qed.
(** *** Memory *)

Lemma part_range w a v : 0 <= w <= 32 -> 0 <= part w a v < 2 ^ w.
Proof. intros Hw. apply Z.mod_pos_bound. apply Z.pow_pos_nonneg; lia. Qed.

Lemma set_part_range w a x v : w = 8 \/ w = 16 -> a mod (w / 8) = 0 -> u32 v -> u32 (set_part w a x v).
Proof.
  intros Hw Hal Hv. unfold set_part, part. pose proof (offset_range a) as Ho. unfold bit_offset in *.
  assert (Hk : 8 * (a mod 4) + w <= 32).
  { destruct Hw as [-> | ->]; [change (8 / 8) with 1 in Hal|change (16 / 8) with 2 in Hal]; Z.div_mod_to_equations; lia. }
  set (k := 8 * (a mod 4)) in *. rewrite <- insert_bits_spec by (destruct Hw; lia). unfold insert_bits.
  assert (Hx : u32 (Z.lxor (as_width 32 (Z.shiftl (2 ^ w - 1) k)) 0xffffffff)) by (apply bits_width; [apply word_range|lia]).
  apply bits_width; [|apply word_range]. apply (proj1 (bits_width v _ Hv Hx)).
Qed.

Lemma aligned_same size r off : 0 <= r < 32 -> aligned_address σ1 size r off = aligned_address σ2 size r off.
Proof. intros Hr. unfold aligned_address. now read. Qed.

Lemma agree_load_part size f : size = 1 \/ size = 2 -> (forall v, 0 <= v < 2 ^ (8 * size) -> u32 (f v)) -> agree (load_part σ1 args size f) (load_part σ2 args size f).
Proof.
  intros Hs Hf. unfold load_part. destruct (arg_rro args) as [[[rd rs] off]|] eqn:Ha; [|constructor]. cbn [mbind option_bind]. apply (ok_rro _ Hargs) in Ha as (H1 & H2 & H3).
  rewrite aligned_same by exact H2. destruct (aligned_address σ2 size rs off); [|constructor]. cbn [mbind option_bind]. read.
  apply agree_put; [exact H1|]. apply Hf. apply part_range. lia.
Qed.
Lemma agree_load_word : agree (load_word σ1 args) (load_word σ2 args).
Proof.
  unfold load_word. destruct (arg_rro args) as [[[rd rs] off]|] eqn:Ha; [|constructor]. cbn [mbind option_bind]. apply (ok_rro _ Hargs) in Ha as (H1 & H2 & H3).
  rewrite aligned_same by exact H2. destruct (aligned_address σ2 4 rs off); [|constructor]. cbn [mbind option_bind]. read. apply agree_put; [exact H1|now apply words_load].
Qed.
Lemma agree_store a v : u32 v -> agree (Some (store a v σ1, Fall)) (Some (store a v σ2, Fall)).
Proof. intros Hv. constructor; [now rewrite Hsame|now apply words_store]. Qed.
Lemma agree_store_part size : size = 1 \/ size = 2 -> agree (store_part σ1 args size) (store_part σ2 args size).
Proof.
  intros Hs. unfold store_part. destruct (arg_rro args) as [[[r2 r1] off]|] eqn:Ha; [|constructor]. cbn [mbind option_bind]. apply (ok_rro _ Hargs) in Ha as (H1 & H2 & H3).
  rewrite aligned_same by exact H2. destruct (aligned_address σ2 size r1 off) as [a|] eqn:Hal; [|constructor]. cbn [mbind option_bind]. read. apply agree_store.
  apply set_part_range; [destruct Hs; subst; auto| |now apply words_load]. unfold aligned_address in Hal. apply bind_Some in Hal as (u & Hu & [= <-]). destruct u. apply assert_that_true in Hu. b2p.
  now destruct Hs as [-> | ->].
Qed.
Lemma agree_store_word : agree (store_word σ1 args) (store_word σ2 args).
Proof.
  unfold store_word. destruct (arg_rro args) as [[[r2 r1] off]|] eqn:Ha; [|constructor]. cbn [mbind option_bind]. apply (ok_rro _ Hargs) in Ha as (H1 & H2 & H3).
  rewrite aligned_same by exact H2. destruct (aligned_address σ2 4 r1 off); [|constructor]. cbn [mbind option_bind]. read. apply agree_store. now apply reg_word.
Qed.

(** *** The other instructions *)

Lemma agree_li : agree (isa_li labels σ1 args) (isa_li labels σ2 args).
Proof.
  unfold isa_li. destruct (arg_rl args) as [[rd l]|] eqn:Ha.
  - apply (ok_rl _ Hargs) in Ha. destruct (labels (escape_label l)) as [t|] eqn:Hl; [|constructor]. cbn [mbind option_bind]. apply agree_put; [exact Ha|now apply (Hlabels _ _ Hl)].
  - destruct (arg_ri args) as [[rd i]|] eqn:Hi; [|constructor]. apply (ok_ri _ Hargs) in Hi as (H1 & H2). now apply agree_put.
Qed.
Lemma agree_lui : agree (isa_lui σ1 args) (isa_lui σ2 args).
Proof.
  unfold isa_lui. destruct (arg_ri args) as [[rd i]|] eqn:Hi; [|constructor]. apply (ok_ri _ Hargs) in Hi as (H1 & H2). apply agree_put; [exact H1|apply word_range].
Qed.
Lemma agree_jal : agree (isa_jal labels next σ1 args) (isa_jal labels next σ2 args).
Proof.
  unfold isa_jal. destruct (arg_l args) as [l|]; [apply agree_link; lia|]. destruct (arg_rl args) as [[rd l]|] eqn:Ha; [|constructor]. apply (ok_rl _ Hargs) in Ha. now apply agree_link.
Qed.
Lemma agree_jalr : agree (isa_jalr next σ1 args) (isa_jalr next σ2 args).
Proof.
  unfold isa_jalr. destruct (arg_r args) as [r|] eqn:Hr; [apply (ok_r _ Hargs) in Hr; now apply agree_link_reg|].
  destruct (arg_rro args) as [[[rd rs] off]|] eqn:Ha; [|constructor]. cbn [mbind option_bind]. apply (ok_rro _ Hargs) in Ha as (H1 & H2 & H3).
  destruct (assert_that _); [|constructor]. now apply agree_link_reg.
Qed.
Lemma agree_lr : agree (isa_lr σ1 args) (isa_lr σ2 args).
Proof.
  unfold isa_lr. destruct (arg_rr args) as [[rd ra]|] eqn:Ha; [|constructor]. cbn [mbind option_bind]. apply (ok_rr _ Hargs) in Ha as (H1 & H2). read.
  destruct (assert_that _); [|constructor]. cbn [mbind option_bind]. constructor; [now rewrite Hsame|]. apply words_reserve; [|now right]. apply words_put; [exact HW|exact H1|now apply words_load].
Qed.
Lemma agree_sc : agree (isa_sc σ1 args) (isa_sc σ2 args).
Proof.
  unfold isa_sc. destruct (arg_rrr2 args) as [[[rd r2] r1]|] eqn:Ha; [|constructor]. cbn [mbind option_bind]. apply (ok_rrr2 _ Hargs) in Ha as (H1 & H2 & H3). read.
  destruct (assert_that _); [|constructor]. cbn [mbind option_bind]. set (ok := negb (get σ2 lr_sc_reservation =? 0)). pose proof (b2z_range (negb ok)) as Hb.
  constructor; [destruct ok; now rewrite Hsame|]. apply words_reserve; [|now left]. apply words_put; [|exact H1|lia]. destruct ok; [apply words_store; [exact HW|now apply reg_word]|exact HW].
Qed.
Lemma agree_amoadd : agree (isa_amoadd σ1 args) (isa_amoadd σ2 args).
Proof.
  unfold isa_amoadd. destruct (arg_rrr2 args) as [[[rd r2] r1]|] eqn:Ha; [|constructor]. cbn [mbind option_bind]. apply (ok_rrr2 _ Hargs) in Ha as (H1 & H2 & H3). read.
  destruct (assert_that _); [|constructor]. cbn [mbind option_bind]. constructor; [now rewrite Hsame|].
  apply words_put; [apply words_store; [exact HW|apply word_range]|exact H1|now apply words_load].
Qed.

(** *** All instructions *)

Lemma extend_range w v : u32 (extend w v).
Proof. apply word_range. Qed.
Lemma div_word a b : u32 a -> u32 b -> u32 (if b =? 0 then 2 ^ 32 - 1 else a / b).
Proof. intros Ha Hb. destruct (Z.eqb_spec b 0); [lia|]. split; [apply Z.div_pos; lia|apply Z.div_lt_upper_bound; nia]. Qed.
Lemma rem_word a b : u32 a -> u32 b -> u32 (if b =? 0 then a else a mod b).
Proof. intros Ha Hb. destruct (Z.eqb_spec b 0); [lia|]. pose proof (Z.mod_pos_bound a b). lia. Qed.

Ltac in_word :=
  intros;
  first [apply word_range | apply extend_range | apply high_range; assumption | apply div_word; assumption | apply rem_word; assumption
    | apply bits_width; assumption | apply div_range; [assumption|apply shift_range || lia] | match goal with |- context [b2z ?c] => pose proof (b2z_range c); lia end | lia].

Lemma agree_same : agree (Some (σ1, Fall)) (Some (σ2, Fall)).
Proof. now constructor. Qed.
Lemma agree_bind {A} (o : option A) k1 k2 : (forall a, o = Some a -> agree (k1 a) (k2 a)) -> agree (o ≫= k1) (o ≫= k2).
Proof. intros Hk. destruct o; [now apply Hk|constructor]. Qed.

Lemma isa_agrees : Forall2 (fun a b => fst a = fst b /\ agree (snd a) (snd b)) (isa labels next σ1 args) (isa labels next σ2 args).
Proof.
  unfold isa. repeat (apply Forall2_cons; split; [split; [reflexivity|cbn [snd]]|]); [..|now apply Forall2_nil].
  all: lazymatch goal with
    | |- agree (alu _ _ _) _ => apply agree_alu; in_word
    | |- agree (alu_imm _ _ _) _ => apply agree_alu_imm; in_word
    | |- agree (alu_one _ _ _) _ => apply agree_alu_one; in_word
    | |- agree (shift_imm _ _ _) _ => apply agree_shift_imm; in_word
    | |- agree (branch1 _ _ _ _) _ => apply agree_branch1
    | |- agree (branch2 _ _ _ _) _ => apply agree_branch2
    | |- agree (load_part _ _ _ _) _ => apply agree_load_part; [auto|in_word]
    | |- agree (store_part _ _ _) _ => apply agree_store_part; auto
    | |- agree (load_word _ _) _ => apply agree_load_word
    | |- agree (store_word _ _) _ => apply agree_store_word
    | |- agree (isa_li _ _ _) _ => apply agree_li
    | |- agree (isa_lui _ _) _ => apply agree_lui
    | |- agree (isa_jal _ _ _ _) _ => apply agree_jal
    | |- agree (isa_jalr _ _ _) _ => apply agree_jalr
    | |- agree None _ => constructor
    | |- agree (Some _) _ => apply agree_same
    | |- _ => apply agree_bind; intros a Ha
    end.
  all: first [apply agree_same | apply agree_link; lia | apply agree_link_reg; [lia|first [lia|exact (ok_r _ Hargs _ Ha)]]].
Qed.

Lemma step_agrees op : agree (isa_step labels next σ1 args op) (isa_step labels next σ2 args op).
Proof.
  unfold isa_step. pose proof (find_same_names agree _ _ op isa_agrees) as Hfind.
  destruct (List.find _ (isa labels next σ1 args)) as [[n s]|], (List.find _ (isa labels next σ2 args)) as [[m s']|]; try contradiction; [exact Hfind|].
  destruct (starts_with "amoadd.w" op); [apply agree_amoadd|]. destruct (starts_with "lr.w" op); [apply agree_lr|]. destruct (starts_with "sc.w" op); [apply agree_sc|constructor].
Qed.

End Steps.

(** ** The form of the code *)

Definition max_length : Z := 13.
Definition is_instruction (s : FunctionStatement) : bool := match s with SInstruction _ _ => true | _ => false end.
Definition short (code : list FunctionStatement) : Prop := Z.of_nat (length code) <= max_length /\ forallb is_instruction code = true.
Notation shorts gen := (forall code, gen = Some code -> short code).

Lemma only_if_short r l : short l -> short (only_if_no_write_to_zero_vec r l).
Proof. unfold only_if_no_write_to_zero_vec. destruct (is_zero r); [now split|easy]. Qed.

Lemma arms_short args : Forall (fun a => shorts (snd a args)) arms.
Proof.
  unfold arms. repeat (apply Forall_cons; split; [cbn [snd]|]); [..|apply Forall_nil; exact I].
  all: intros code Hc; lazymatch type of Hc with ?g _ = _ => unfold g in Hc | ?g = _ => unfold g in Hc end.
  all: repeat match goal with
    | Hx : (_ ≫= _) = Some _ |- _ => let a := fresh "v" in let Ha := fresh "Ha" in apply bind_Some in Hx as (a & Ha & Hx); cbn beta iota in Hx
    | a : _ * _ |- _ => destruct a
    | Hx : match ?o with Some _ => _ | None => _ end = Some _ |- _ => destruct o
    | Hx : (if ?c then _ else _) = Some _ |- _ => destruct c
    | Hx : Some _ = Some _ |- _ => injection Hx as <-
    end.
  all: unfold push_register, pop_register in *.
  all: repeat match goal with
    | Hx : (_ ≫= _) = Some _ |- _ => let a := fresh "v" in let Ha := fresh "Ha" in apply bind_Some in Hx as (a & Ha & Hx); cbn beta iota in Hx
    | Hx : Some _ = Some _ |- _ => injection Hx as <-
    end.
  all: try apply only_if_short; try (now split).
  destruct (_ <=? 16); now split.
Qed.

Lemma atomic_short args : shorts (gen_amoadd_w args) /\ shorts (gen_lr_w args) /\ shorts (gen_sc_w args).
Proof.
  split; [|split]; intros code Hc; unfold gen_amoadd_w, gen_lr_w, gen_sc_w in Hc; apply bind_Some in Hc as (a & _ & Hc); repeat match goal with a : _ * _ |- _ => destruct a end;
    injection Hc as <-; unfold only_if_no_write_to_zero, only_if_no_write_to_zero_vec; destruct (is_zero _); now split.
Qed.

(** Instructions have at most thirteen statements, all of them instructions, if the system calls have. *)
Lemma instruction_short op args rt code : Forall (fun s => short (sys_statements s)) rt -> process_instruction op args rt = Some code -> short code.
Proof.
  intros Hrt. unfold process_instruction. intros Hp. destruct (List.find (fun a => bool_decide (fst a = op)) arms) as [[n gen]|] eqn:Hf.
  - apply List.find_some in Hf as [Hin _]. pose proof (arms_short args) as Hall. rewrite List.Forall_forall in Hall. exact (Hall _ Hin code Hp).
  - destruct (atomic_short args) as (Ha & Hl & Hs). destruct (starts_with "amoadd.w" op); [now apply Ha|]. destruct (starts_with "lr.w" op); [now apply Hl|]. destruct (starts_with "sc.w" op); [now apply Hs|].
    apply bind_Some in Hp as (s & Hget & [= <-]). unfold get_syscall_impl in Hget. apply List.find_some in Hget as [Hin _]. rewrite List.Forall_forall in Hrt. exact (Hrt s Hin).
Qed.

(** The reference describes no system call. *)
Lemma instruction_length labels next σ args op rt code r : process_instruction op args rt = Some code -> isa_step labels next σ args op = Some r ->
  Z.of_nat (length code) <= max_length.
Proof.
  intros Hp Hs. apply (instruction_short op args [] code); [constructor|]. unfold process_instruction, isa_step in *.
  pose proof (find_same_names (fun _ _ => True) arms (isa labels next σ args) op) as Hn.
  destruct (List.find (fun a => bool_decide (fst a = op)) arms) as [[n gen]|]; [exact Hp|].
  destruct (List.find _ (isa _ _ _ _)) as [[m s]|]; [destruct Hn; unfold arms, isa; repeat constructor|].
  destruct (starts_with "amoadd.w" op); [exact Hp|]. destruct (starts_with "lr.w" op); [exact Hp|]. destruct (starts_with "sc.w" op); [exact Hp|discriminate].
Qed.

(** ** Programs *)

Section Programs.
Context {T W : Type} `{LL : LargeFieldLaws T} `{Display T}.
Variable env : Env T W.
Variable program : PreprocessedMain T.
Hypothesis Hmode : mode (config env) = Fast.
Hypothesis Hlabels : forall l t, labels env l = Some t -> u32 t.

(** A program, the batch and the line at which the code of each instruction starts. *)
Variable rt : Runtime.
Variable src : list (string * InstructionArgs).
Variables pos line : nat -> Z.

Record Compiled : Prop := {
  compiled_args : forall i op args, src !! i = Some (op, args) -> ArgsOk args;
  compiled_code : forall i op args, src !! i = Some (op, args) -> exists code, process_instruction op args rt = Some code /\
    CodeAt env program (pos i) (line i) code /\ pos (S i) = pos i + Z.of_nat (length code) /\ line (S i) = line i + Z.of_nat (length code)
}.

(** A step of the reference: the instruction at an index, and the index where the execution goes on. *)
Inductive source_step : nat * AsmState -> nat * AsmState -> Prop :=
| step_at i j σ σ' op args ex : src !! i = Some (op, args) -> isa_step (labels env) (pos (S i)) σ args op = Some (σ', ex) ->
    (j <= length src)%nat -> pos j = exit_pos (pos (S i)) ex -> (ex = Fall -> j = S i) -> source_step (i, σ) (j, σ').

(** The executor is at a batch and a line in a state of the reference, with rows for [m] statements. *)
Definition Here (p l : Z) (σ : AsmState) (m : Z) (e : Executor T W) : Prop :=
  exists f σ1, Rel env f σ1 e /\ same_state σ1 σ /\ Ready env p l f /\ room env m f.

Lemma words_same σ1 σ : same_state σ1 σ -> Words σ -> Words σ1.
Proof.
  intros [Hr Hm] [Hregs Hres Hmem]. split; [| |now rewrite Hm].
  - intros r Hv. rewrite Hr by now left. now apply Hregs.
  - rewrite Hr by now right. exact Hres.
Qed.

(** A block that does to every state like [σ] what leads to a state like [σ']. *)
Lemma block_here code p l tl σ σ' ex m e : CodeAt env program p l code -> 0 <= m -> Here p l σ (Z.of_nat (length code) + m) e ->
  (forall σ1, same_state σ1 σ -> exists σ2, run_block (labels env) p 0 code σ1 = Some (σ2, ex) /\ same_state σ2 σ') ->
  (forall t, ex = Jump t -> BatchAt env t tl /\ 0 <= tl < 2 ^ 32 - 1) ->
  exists k e', exec_lines env program k l e = Some (Some (exit_line tl (l + Z.of_nat (length code)) ex), e') /\
    Here (exit_pos (p + Z.of_nat (length code)) ex) (exit_line tl (l + Z.of_nat (length code)) ex) σ' m e'.
Proof.
  intros HC Hm (f & σ1 & HR & Hsame & HRd & Hroom) Hrun Hex. destruct (Hrun σ1 Hsame) as (σ2 & Hr & Hs2).
  destruct (block_sim env program Hmode code m tl p l 0 σ1 σ2 ex f e Hr HC) as (k & f' & e' & Hk & HR' & Hroom' & HRd'); try assumption; [now rewrite !Z.add_0_r|].
  change (Z.of_nat 0) with 0 in Hk. rewrite Z.add_0_r in Hk. exists k, e'. split; [exact Hk|]. now exists f', σ2.
Qed.

Definition At (i : nat) (σ : AsmState) (n : nat) : Executor T W -> Prop := Here (pos i) (line i) σ (max_length * Z.of_nat n).

Hypothesis Hcompiled : Compiled.

Lemma batch_at j : (j <= length src)%nat -> src <> [] -> BatchAt env (pos j) (line j) /\ 0 <= line j < 2 ^ 32 - 1.
Proof.
  intros Hj Hne. destruct (decide (j < length src)%nat) as [Hlt|Hge].
  - destruct (lookup_lt_is_Some_2 _ _ Hlt) as [[op args] Hsrc]. destruct (compiled_code Hcompiled _ _ _ Hsrc) as (code & _ & HC & _).
    pose proof (code_at_batch _ _ _ _ _ 0 HC (Nat.le_0_l _)) as Hb. rewrite !Z.add_0_r in Hb. split; [exact Hb|].
    pose proof (code_line _ _ _ _ _ HC). pose proof (code_end_line _ _ _ _ _ HC). lia.
  - destruct j as [|j]; [destruct src; [easy|cbn in Hge; lia]|]. destruct (lookup_lt_is_Some_2 src j) as [[op args] Hsrc]; [lia|].
    destruct (compiled_code Hcompiled _ _ _ Hsrc) as (code & _ & HC & -> & ->). split; [apply (code_end _ _ _ _ _ HC)|].
    pose proof (code_line _ _ _ _ _ HC). pose proof (code_end_line _ _ _ _ _ HC). lia.
Qed.

(** An instruction of the reference is a number of lines of the executor. *)
Lemma instruction_simulated n i op args σ σ' ex tl e : src !! i = Some (op, args) -> isa_step (labels env) (pos (S i)) σ args op = Some (σ', ex) ->
  (forall t, ex = Jump t -> BatchAt env t tl /\ 0 <= tl < 2 ^ 32 - 1) -> Words σ -> At i σ (S n) e ->
  Words σ' /\ exists k e', exec_lines env program k (line i) e = Some (Some (exit_line tl (line (S i)) ex), e') /\
    Here (exit_pos (pos (S i)) ex) (exit_line tl (line (S i)) ex) σ' (max_length * Z.of_nat n) e'.
Proof.
  intros Hsrc Hisa Hex HW HA. destruct (compiled_code Hcompiled _ _ _ Hsrc) as (code & Hcode & HC & Hp & Hl). pose proof (compiled_args Hcompiled _ _ _ Hsrc) as Hargs.
  pose proof (batch_pc _ _ _ (code_end _ _ _ _ _ HC)) as Hpc. pose proof (code_pc _ _ _ _ _ HC) as Hpc0. rewrite <- Hp in Hpc.
  assert (Hagree : forall σ1, same_state σ1 σ -> agree (isa_step (labels env) (pos (S i)) σ1 args op) (Some (σ', ex))).
  { intros σ1 Hsame. rewrite <- Hisa. apply step_agrees; try assumption; lia. }
  split; [pose proof (Hagree σ ltac:(reflexivity)) as Ha; inversion Ha; subst; assumption|].
  pose proof (instruction_length _ _ _ _ _ _ _ _ Hcode Hisa) as Hlen. rewrite Hp, Hl.
  apply (block_here code (pos i) (line i) tl σ σ' ex); [exact HC|unfold max_length; lia| | |exact Hex].
  - destruct HA as (f & σ1 & HR & Hsame & HRd & Hroom). exists f, σ1. split; [exact HR|]. split; [exact Hsame|]. split; [exact HRd|]. unfold room, max_length in *. lia.
  - intros σ1 Hsame. pose proof (Hagree σ1 Hsame) as Ha. inversion Ha as [σr1 σr ex0 Hsr HWr Hr1 Heq|]; subst.
    destruct (instruction_correct (labels env) (pos i) (pos (S i)) σ1 args ltac:(lia) Hlabels (words_same _ _ Hsame HW) Hargs op rt code σr1 ex Hcode (eq_sym Hr1) (eq_sym Hp))
      as (σ2 & ex2 & Hrun & -> & Hs2). exists σ2. split; [exact Hrun|]. now rewrite Hs2.
Qed.

Lemma step_simulated n i j σ σ' e : source_step (i, σ) (j, σ') -> Words σ -> At i σ (S n) e ->
  Words σ' /\ exists k e', exec_lines env program k (line i) e = Some (Some (line j), e') /\ At j σ' n e'.
Proof.
  intros Hstep HW HA. inversion Hstep as [? ? ? ? op args ex Hsrc Hisa Hj Hpos Hfall]; subst. destruct (batch_at j Hj) as [Hb Hbl]; [now intros He; rewrite He in Hsrc|].
  destruct (instruction_simulated n i op args σ σ' ex (line j) e Hsrc Hisa) as (HW' & k & e' & Hk & HH); try assumption; [intros t ->; cbn in Hpos; now rewrite <- Hpos|].
  assert (Hline : exit_line (line j) (line (S i)) ex = line j) by (destruct ex; [now rewrite Hfall|reflexivity]). rewrite Hline, <- Hpos in *.
  split; [exact HW'|]. now exists k, e'.
Qed.

Lemma exec_lines_add a b l l' e e' : exec_lines env program a l e = Some (Some l', e') -> exec_lines env program (a + b) l e = exec_lines env program b l' e'.
Proof.
  revert l e. induction a as [|a IH]; intros l e He; cbn in He; [now injection He as <- <-|]. cbn [Nat.add exec_lines].
  unfold mbind, M_bind in He |- *. destruct (exec_line env program l e) as [[[l1|] e1]|]; [|discriminate|discriminate]. now apply IH.
Qed.

Lemma steps_simulated n : forall m i j σ σ' e, nsteps source_step n (i, σ) (j, σ') -> Words σ -> At i σ (n + m) e ->
  Words σ' /\ exists k e', exec_lines env program k (line i) e = Some (Some (line j), e') /\ At j σ' m e'.
Proof.
  induction n as [|n IH]; intros m i j σ σ' e Hsteps HW HA.
  - inversion Hsteps; subst. split; [exact HW|]. exists O, e. now split.
  - inversion Hsteps as [|? ? [i1 σ1] ? Hs Hrest]; subst. destruct (step_simulated _ _ _ _ _ _ Hs HW HA) as (HW1 & k & e1 & Hk & HA1).
    destruct (IH _ _ _ _ _ _ Hrest HW1 HA1) as (HW' & k' & e' & Hk' & HA'). split; [exact HW'|]. exists (k + k')%nat, e'. split; [|exact HA'].
    now rewrite (exec_lines_add _ _ _ _ _ _ Hk).
Qed.

Lemma here_weaken p l σ m m' e : Here p l σ m e -> m' <= m -> Here p l σ m' e.
Proof. intros (f & σ1 & HR & Hs & HRd & Hroom) Hm. exists f, σ1. split; [exact HR|]. split; [exact Hs|]. split; [exact HRd|]. unfold room in *. lia. Qed.

End Programs.

(** ** Running the reference *)

Section Running.
Variable labels : string -> option Z.
Variable src : list (string * InstructionArgs).
Variable pos : nat -> Z.

(** The first instruction at a position. *)
Definition index_at (t : Z) : option nat := List.find (fun j => pos j =? t) (seq 0 (S (length src))).

(** Runs from an instruction until a jump to the position [ret], for at most [n] instructions. *)
Fixpoint source_call (ret : Z) (n : nat) (i : nat) (σ : AsmState) : option AsmState :=
  match n with
  | O => None
  | S n' =>
    '(op, args) ← src !! i;
    '(σ', ex) ← isa_step labels (pos (S i)) σ args op;
    match ex with
    | Fall => source_call ret n' (S i) σ'
    | Jump t => if t =? ret then Some σ' else j ← index_at t; source_call ret n' j σ'
    end
  end.

End Running.

(** Steps, and a last instruction that returns. *)
Lemma source_call_steps {T W} (env : Env T W) src pos ret n : forall i σ σ', source_call (labels env) src pos ret n i σ = Some σ' ->
  exists m j σ1 op args, (m < n)%nat /\ nsteps (source_step env src pos) m (i, σ) (j, σ1) /\ src !! j = Some (op, args) /\
    isa_step (labels env) (pos (S j)) σ1 args op = Some (σ', Jump ret).
Proof.
  induction n as [|n IH]; intros i σ σ' Hr; [discriminate|]. cbn [source_call] in Hr. apply bind_Some in Hr as ([op args] & Hsrc & Hr). apply bind_Some in Hr as ([σ1 ex] & Hisa & Hr).
  pose proof (lookup_lt_Some _ _ _ Hsrc) as Hlt.
  assert (Hgo : forall j, source_step env src pos (i, σ) (j, σ1) -> source_call (labels env) src pos ret n j σ1 = Some σ' -> exists m j σ1 op args,
    (m < S n)%nat /\ nsteps (source_step env src pos) m (i, σ) (j, σ1) /\ src !! j = Some (op, args) /\ isa_step (labels env) (pos (S j)) σ1 args op = Some (σ', Jump ret)).
  { intros j Hs Hc. destruct (IH _ _ _ Hc) as (m & j' & σ2 & op' & args' & Hm & Hsteps & Hrest). exists (S m), j', σ2, op', args'. split; [lia|]. split; [eapply nsteps_l; [exact Hs|exact Hsteps]|exact Hrest]. }
  destruct ex as [|t].
  - apply (Hgo (S i)); [|exact Hr]. eapply step_at; [exact Hsrc|exact Hisa|lia|reflexivity|reflexivity].
  - destruct (Z.eqb_spec t ret) as [->|Hne].
    + injection Hr as <-. exists O, i, σ, op, args. split; [lia|]. split; [constructor|]. now split.
    + apply bind_Some in Hr as (j & Hj & Hr). apply List.find_some in Hj as [Hin Hpos]. apply in_seq in Hin. apply Z.eqb_eq in Hpos.
      apply (Hgo j); [|exact Hr]. eapply step_at; [exact Hsrc|exact Hisa|lia|exact Hpos|discriminate].
Qed.

(** A call of the reference is a run of the executor to the return. *)
Lemma call_simulated {T W} `{LL : LargeFieldLaws T} `{Display T} (env : Env T W) program rt src pos line n i σ σ' ret tl e :
  mode (config env) = Fast -> (forall l t, labels env l = Some t -> u32 t) -> Compiled env program rt src pos line ->
  source_call (labels env) src pos ret n i σ = Some σ' -> Words σ -> At env pos line i σ n e -> BatchAt env ret tl /\ 0 <= tl < 2 ^ 32 - 1 ->
  exists k e', exec_lines env program k (line i) e = Some (Some tl, e') /\ Here env ret tl σ' 0 e'.
Proof.
  intros Hmode Hl Hc Hcall HW HA Htl. destruct (source_call_steps env src pos ret n i σ σ' Hcall) as (m & j & σ1 & op & args & Hm & Hsteps & Hsrc & Hisa).
  destruct (steps_simulated env program Hmode Hl rt src pos line Hc m 1 i j σ σ1 e Hsteps HW) as (HW1 & k & e1 & Hk & HA1).
  - unfold At in *. eapply here_weaken; [exact HA|]. unfold max_length. lia.
  - destruct (instruction_simulated env program Hmode Hl rt src pos line Hc 0 j op args σ1 σ' (Jump ret) tl e1 Hsrc Hisa) as (_ & k' & e' & Hk' & HH); [intros t [= <-]; exact Htl|exact HW1|exact HA1|].
    exists (k + k')%nat, e'. split; [now rewrite (exec_lines_add _ _ _ _ _ _ _ _ Hk)|exact HH].
Qed.
