(* ===== verification/Batches.v ===== *)
(** * Batches of statements, [analysis/src/vm/batcher.rs] and [ast/src/asm_analysis/mod.rs]

    The statements of a function are cut into batches, one per value of the program counter. A
    batch is a run of labels and debug directives and at most one other statement, its last one. *)

From stdpp Require Import base list option gmap strings.
From Stdlib Require Import ZArith Lia.
From S2P Require Import Prelude RiscvElem RiscvExec RiscvRun.

(** ** The data, [ast/src/asm_analysis/mod.rs] *)

Inductive Incompatible := IncLabel | IncUnimplemented.
(** A set, of which only singletons occur. *)
Definition IncompatibleSet := list Incompatible.

Record BatchMetadata := mkMetadata { size : nat; reason : option IncompatibleSet }.
Record FunctionStatements := mkStatements { inner : list FunctionStatement; batches : option (list BatchMetadata) }.
(** [Batch] and [BatchRef]. *)
Record Batch := mkBatch { batch_statements : list FunctionStatement; batch_reason : option IncompatibleSet }.

Definition new (l : list FunctionStatement) : FunctionStatements := mkStatements l None.
Definition set_batches (b : list BatchMetadata) (fs : FunctionStatements) : FunctionStatements := mkStatements (inner fs) (Some b).

(** Without batches, every statement is one. *)
Definition metadata (fs : FunctionStatements) : list BatchMetadata :=
  match batches fs with Some b => b | None => repeat (mkMetadata 1 None) (length (inner fs)) end.

(** By reference: slices of the vector; [None]: the slice is out of range. *)
Fixpoint iter_from (start : nat) (l : list FunctionStatement) (ms : list BatchMetadata) : option (list Batch) :=
  match ms with
  | [] => Some []
  | m :: ms' =>
    _ ← assert_that (start + size m <=? length l)%nat;
    rest ← iter_from (start + size m) l ms';
    Some (mkBatch (take (size m) (drop start l)) (reason m) :: rest)
  end.
Definition iter_batches (fs : FunctionStatements) : option (list Batch) := iter_from 0 (inner fs) (metadata fs).

(** By value: each batch takes from the iterator, fewer statements at the end of the vector. *)
Fixpoint take_batches (l : list FunctionStatement) (ms : list BatchMetadata) : list Batch :=
  match ms with
  | [] => []
  | m :: ms' => mkBatch (take (size m) l) (reason m) :: take_batches (drop (size m) l) ms'
  end.
Definition into_iter_batches (fs : FunctionStatements) : list Batch := take_batches (inner fs) (metadata fs).

Definition from_iter (bs : list Batch) : FunctionStatements :=
  mkStatements (concat (map batch_statements bs)) (Some (map (fun b => mkMetadata (length (batch_statements b)) (batch_reason b)) bs)).

(** ** The batcher, [analysis/src/vm/batcher.rs] *)

Definition is_label (s : FunctionStatement) : bool := match s with SLabel _ => true | _ => false end.
Definition is_label_or_directive (s : FunctionStatement) : bool := match s with SLabel _ | SDebugDirective _ => true | _ => false end.

Definition is_only_labels_and_directives (b : list FunctionStatement) : bool := forallb is_label_or_directive b.
Definition contains_labels (b : list FunctionStatement) : bool := existsb is_label b.

Definition try_join (b other : list FunctionStatement) : list FunctionStatement + IncompatibleSet :=
  match is_only_labels_and_directives b, contains_labels other with
  | true, _ => inl (b ++ other)
  | false, true => inr [IncLabel]
  | false, false => inr [IncUnimplemented]
  end.
Definition try_absorb (b : list FunctionStatement) (s : FunctionStatement) : list FunctionStatement + IncompatibleSet := try_join b [s].

(** One call of the closure of [batching]: the next batch and the statements that are left. *)
Fixpoint next_batch (b it : list FunctionStatement) : option (BatchMetadata * list FunctionStatement) :=
  match it with
  | s :: it' =>
    match try_absorb b s with
    | inl b' => next_batch b' it'
    | inr reason => Some (mkMetadata (length b) (Some reason), it)
    end
  | [] => match b with [] => None | _ => Some (mkMetadata (length b) None, []) end
  end.

(** The iterator is called until it ends; [None]: the fuel is used up. *)
Fixpoint batching (fuel : nat) (it : list FunctionStatement) : option (list BatchMetadata) :=
  match fuel with
  | O => None
  | S fuel' =>
    match next_batch [] it with
    | None => Some []
    | Some (m, it') => ms ← batching fuel' it'; Some (m :: ms)
    end
  end.

(** The batches of one function. *)
Definition extract_batches (fs : FunctionStatements) : option FunctionStatements :=
  ms ← batching (S (length (inner fs))) (inner fs); Some (set_batches ms fs).

(** ** Properties *)

(** A batch: labels and directives, then at most one statement. *)
Inductive batch_shape : list FunctionStatement -> Prop :=
| shape_open b : is_only_labels_and_directives b = true -> batch_shape b
| shape_closed b s : is_only_labels_and_directives b = true -> is_label_or_directive s = false -> batch_shape (b ++ [s]).

Lemma only_labels_app b s : is_only_labels_and_directives (b ++ [s]) = is_only_labels_and_directives b && is_label_or_directive s.
Proof. unfold is_only_labels_and_directives. rewrite forallb_app. cbn. now rewrite andb_true_r. Qed.

(** A batch that is open goes on to the next other statement. *)
Lemma next_batch_spec it : forall b, is_only_labels_and_directives b = true -> b ++ it <> [] ->
  exists m b' it', next_batch b it = Some (m, it') /\ b ++ it = b' ++ it' /\ size m = length b' /\ batch_shape b' /\ b' <> [] /\
    (it' <> [] -> is_only_labels_and_directives b' = false).
Proof.
  induction it as [|s it IH]; intros b Hb Hne.
  - rewrite app_nil_r in Hne. destruct b as [|s b]; [easy|]. exists (mkMetadata (length (s :: b)) None), (s :: b), []. repeat split; try easy. now constructor.
  - cbn [next_batch]. unfold try_absorb, try_join. rewrite Hb. rewrite (app_assoc b [s] it : b ++ s :: it = _).
    destruct (is_label_or_directive s) eqn:Hs.
    + destruct (IH (b ++ [s])) as (m & b' & it' & Hm & Hrest); [now rewrite only_labels_app, Hb, Hs|now destruct b|]. exists m, b', it'. split; [exact Hm|exact Hrest].
    + assert (Hc : is_only_labels_and_directives (b ++ [s]) = false) by now rewrite only_labels_app, Hb, Hs.
      assert (Hstop : exists m, next_batch (b ++ [s]) it = Some (m, it) /\ size m = length (b ++ [s])).
      { destruct it as [|s' it]; cbn [next_batch].
        - destruct (b ++ [s]) eqn:He; [now destruct b|]. rewrite <- He. now eexists.
        - unfold try_absorb, try_join. rewrite Hc. destruct (contains_labels [s']); now eexists. }
      destruct Hstop as (m & Hm & Hsize). exists m, (b ++ [s]), it. repeat split; try assumption; [now constructor|now destruct b|easy].
Qed.

(** The batches that [batching] finds. *)
Inductive cut : list BatchMetadata -> list (list FunctionStatement) -> list FunctionStatement -> Prop :=
| cut_nil : cut [] [] []
| cut_cons m ms b bs it : size m = length b -> batch_shape b -> b <> [] -> (it <> [] -> is_only_labels_and_directives b = false) ->
    cut ms bs it -> cut (m :: ms) (b :: bs) (b ++ it).

Lemma batching_cut fuel : forall it, (length it < fuel)%nat -> exists ms bs, batching fuel it = Some ms /\ cut ms bs it.
Proof.
  induction fuel as [|fuel IH]; intros it Hf; [lia|]. cbn [batching]. destruct it as [|s it].
  - exists [], []. split; [reflexivity|constructor].
  - destruct (next_batch_spec (s :: it) []) as (m & b & it' & -> & He & Hsize & Hshape & Hne & Hlast); [reflexivity|easy|]. cbn [app] in He. rewrite He in *.
    destruct (IH it') as (ms & bs & -> & Hcut); [|exists (m :: ms), (b :: bs); split; [reflexivity|now constructor]].
    rewrite length_app in Hf. destruct b; [easy|cbn in Hf; lia].
Qed.

Lemma cut_concat ms bs it : cut ms bs it -> concat bs = it.
Proof. induction 1 as [|m ms b bs it Hs Hsh Hne Hl Hc IH]; [reflexivity|]. cbn. now rewrite IH. Qed.

Lemma cut_empty ms bs : cut ms bs [] -> bs = [].
Proof. intros Hc. remember [] as l eqn:Hl. destruct Hc as [|m ms b bs it _ _ Hne _ _]; [reflexivity|]. now apply app_eq_nil in Hl as [-> _]. Qed.

Lemma iter_from_cut ms bs it : cut ms bs it -> forall pre, iter_from (length pre) (pre ++ it) ms = Some (zip_with (fun b m => mkBatch b (reason m)) bs ms).
Proof.
  induction 1 as [|m ms b bs it Hs Hsh Hne Hl Hc IH]; intros pre; [reflexivity|]. cbn [iter_from zip_with]. rewrite Hs.
  rewrite (proj2 (Nat.leb_le _ _)) by (rewrite !length_app; lia). cbn [assert_that mbind option_bind].
  specialize (IH (pre ++ b)). rewrite length_app, <- app_assoc in IH. rewrite IH. cbn. now rewrite drop_app_length, take_app_length.
Qed.

(** C9: The batcher cuts the statements of a function into batches without changing or reordering them: it always
    succeeds, the batches of the result are slices in range, together they are the statements, every one is a run of labels
    and debug directives with at most one other statement at the end, and only the last one may lack that statement. *)
Theorem batcher_partitions fs : exists fs' bs,
  extract_batches fs = Some fs' /\ inner fs' = inner fs /\ iter_batches fs' = Some bs /\
  concat (map batch_statements bs) = inner fs /\
  Forall (fun b => batch_shape (batch_statements b) /\ batch_statements b <> []) bs /\
  (forall i b, bs !! i = Some b -> (S i < length bs)%nat -> is_only_labels_and_directives (batch_statements b) = false).
Proof.
  destruct (batching_cut (S (length (inner fs))) (inner fs) ltac:(lia)) as (ms & bs & Hb & Hcut).
  exists (set_batches ms fs), (zip_with (fun b m => mkBatch b (reason m)) bs ms). split; [unfold extract_batches; now rewrite Hb|].
  split; [reflexivity|]. split; [exact (iter_from_cut ms bs (inner fs) Hcut [])|].
  assert (Hmap : map batch_statements (zip_with (fun b m => mkBatch b (reason m)) bs ms) = bs).
  { clear Hb. induction Hcut as [|m ms b bs it Hs Hsh Hne Hl Hc IH]; [reflexivity|]. cbn. now rewrite IH. }
  rewrite Hmap. split; [exact (cut_concat _ _ _ Hcut)|]. clear Hb. remember (zip_with (fun b m => mkBatch b (reason m)) bs ms) as z eqn:Hz. clear Hz. revert z Hmap.
  induction Hcut as [|m ms b bs it Hs Hsh Hne Hl Hc IH]; intros [|b0 z] Hmap; try discriminate; [now split; [constructor|]|].
  injection Hmap as Hb0 Hmap. destruct (IH z Hmap) as [Hf Hi]. split; [constructor; [now rewrite Hb0|exact Hf]|].
  intros [|i] x Hx Hlt; cbn in Hx, Hlt; [|apply (Hi i x Hx); lia]. injection Hx as <-. rewrite Hb0. apply Hl.
  intros ->. rewrite (cut_empty _ _ Hc) in Hmap. destruct z; [cbn in Hlt; lia|discriminate].
Qed.

(** The sizes of the batches sum up to the number of statements. *)
Definition sizes_fit (fs : FunctionStatements) : Prop := exists ms, batches fs = Some ms /\ sum_list (map size ms) = length (inner fs).

Lemma take_batches_inner ms : forall l, sum_list (map size ms) = length l ->
  concat (map batch_statements (take_batches l ms)) = l /\
  map (fun b => mkMetadata (length (batch_statements b)) (batch_reason b)) (take_batches l ms) = ms.
Proof.
  induction ms as [|[n r] ms IH]; intros l Hl; cbn in Hl |- *; [now destruct l|]. destruct (IH (drop n l)) as [Hc Hm]; [rewrite length_drop; lia|].
  rewrite Hc, Hm, take_drop, length_take, Nat.min_l by lia. now split.
Qed.

(** C10: Batches are a faithful view of the statements of a function: collecting the batches of a function gives the
    function back, if the sizes sum up to its length, and the batches of a collected function are those it was made of;
    on such functions the iteration by reference does not leave the vector and gives the batches of the iteration by value. *)
Theorem batches_roundtrip : (forall fs, sizes_fit fs -> from_iter (into_iter_batches fs) = fs) /\
  (forall bs, into_iter_batches (from_iter bs) = bs) /\
  (forall fs, sizes_fit fs -> iter_batches fs = Some (into_iter_batches fs)).
Proof.
  split; [|split].
  - intros [l b] (ms & Hb & Hsum). cbn in Hb, Hsum. subst b. unfold from_iter, into_iter_batches, metadata. cbn [inner batches].
    now destruct (take_batches_inner ms l Hsum) as [-> ->].
  - intros bs. unfold into_iter_batches, metadata, from_iter. cbn [inner batches]. induction bs as [|[b r] bs IH]; [reflexivity|]. cbn.
    now rewrite take_app_length, drop_app_length, IH.
  - intros [l b] (ms & Hb & Hsum). cbn in Hb, Hsum. subst b. unfold iter_batches, into_iter_batches, metadata. cbn [inner batches].
    assert (Hgen : forall pre l', sum_list (map size ms) = length l' -> iter_from (length pre) (pre ++ l') ms = Some (take_batches l' ms)).
    { clear Hsum. induction ms as [|[n r] ms IH]; intros pre l' Hl; [reflexivity|]. cbn in Hl |- *. rewrite (proj2 (Nat.leb_le _ _)) by (rewrite length_app; lia). cbn [assert_that mbind option_bind].
      specialize (IH (pre ++ take n l') (drop n l')). rewrite <- app_assoc, take_drop, length_app, length_take, Nat.min_l in IH by lia. rewrite IH by (rewrite length_drop; lia). cbn.
      now rewrite drop_app_length. }
    exact (Hgen [] l Hsum).
Qed.

Lemma batches_roundtrip_witness :
  let fs := mkStatements [SLabel "a"; SReturn; SReturn] (Some [mkMetadata 2 (Some [IncUnimplemented]); mkMetadata 1 None]) in
  sizes_fit fs /\ from_iter (into_iter_batches fs) = fs /\ iter_batches fs = Some (into_iter_batches fs).
Proof.
  cbn zeta. assert (Hfit : sizes_fit (mkStatements [SLabel "a"; SReturn; SReturn] (Some [mkMetadata 2 (Some [IncUnimplemented]); mkMetadata 1 None]))) by (eexists; split; reflexivity).
  split; [exact Hfit|]. split; [exact (proj1 batches_roundtrip _ Hfit)|exact (proj2 (proj2 batches_roundtrip) _ Hfit)].
Defined.
