(* ===== verification/RiscvLayout.v ===== *)
(** * From RISC-V statements to the lines of the executor

    The code of a program is cut into batches by the batcher and laid out by
    [preprocess_main_function]: the positions of the instructions, and the labels. *)

From stdpp Require Import base list option gmap strings pretty relations.
From Stdlib Require Import ZArith Lia.
From S2P Require Import Prelude Goldilocks Field AffineExpression PanicMonad RiscvElem RiscvNames RiscvTrace RiscvExec RiscvInstr RiscvRun RiscvAsm RiscvCodeGen RiscvIsa RiscvCompile RiscvSource Batches.

#[local] Opaque escape_label.

(** ** Lines *)

(** The statements that become lines of the executor. *)
Definition is_line (s : FunctionStatement) : bool :=
  match s with SLabel _ | SDebugDirective (DFile _ _ _) => false | _ => true end.
(** No locations in the source. *)
Definition plain (s : FunctionStatement) : bool := match s with SDebugDirective (DFile _ _ _) => true | SDebugDirective _ => false | _ => true end.
Definition lines (l : list FunctionStatement) : list FunctionStatement := List.filter is_line l.
Definition count (l : list FunctionStatement) : Z := Z.of_nat (length (lines l)).

Lemma lines_app a b : lines (a ++ b) = lines a ++ lines b.
Proof. apply List.filter_app. Qed.
Lemma count_app a b : count (a ++ b) = count a + count b.
Proof. unfold count. rewrite lines_app, length_app. lia. Qed.
Lemma lines_instructions l : forallb is_instruction l = true -> lines l = l.
Proof. induction l as [|s l IH]; cbn; [reflexivity|]. intros Hl. apply andb_true_iff in Hl as [Hs Hl]. destruct s; try discriminate. cbn. unfold lines in *. now rewrite IH. Qed.
Lemma plain_open b : forallb plain b = true -> is_only_labels_and_directives b = true -> lines b = [].
Proof.
  induction b as [|s b IH]; cbn; [reflexivity|]. intros Hp Ho. apply andb_true_iff in Hp as [Hs Hp], Ho as [Ho1 Ho].
  destruct s as [| | |[| |]|]; try discriminate; cbn; now apply IH.
Qed.
Lemma plain_batch b : forallb plain b = true -> batch_shape b -> is_only_labels_and_directives b = false -> exists s, lines b = [s].
Proof.
  intros Hp Hsh Ho. destruct Hsh as [b Hb|b s Hb Hs]; [congruence|]. rewrite forallb_app in Hp. apply andb_true_iff in Hp as [Hp _].
  rewrite lines_app, plain_open by assumption. exists s. destruct s; try discriminate; reflexivity.
Qed.

Section Layout.
Context {T : Type}.
Notation Main := (PreprocessedMain T).

(** The labels: the last position of each name. *)
Fixpoint label_at (k : Z) (l : list FunctionStatement) (m : gmap string (Elem T)) : gmap string (Elem T) :=
  match l with
  | [] => m
  | SLabel name :: l' => label_at k l' (<[name := Binary (k + PC_INITIAL_VAL)]> m)
  | s :: l' => label_at (if is_line s then k + 1 else k) l' m
  end.

Lemma label_at_app a b k m : label_at k (a ++ b) m = label_at (k + count a) b (label_at k a m).
Proof.
  revert k m. induction a as [|s a IH]; intros k m; cbn [app label_at]; [f_equal; unfold count, lines; cbn; lia|].
  destruct s as [| | |[| |]|]; cbn [label_at is_line]; rewrite IH; f_equal; unfold count, lines; cbn; lia.
Qed.
Lemma label_at_other k l m name : Forall (fun s => s <> SLabel name) l -> label_at k l m !! name = m !! name.
Proof.
  revert k m. induction l as [|s l IH]; intros k m Hl; [reflexivity|]. apply Forall_cons in Hl as [Hs Hl].
  destruct s; cbn [label_at]; rewrite IH by exact Hl; try reflexivity. apply lookup_insert_ne. now intros ->.
Qed.

(** *** One batch *)

Lemma preprocess_batch_spec k b : forall (p : Main) seen p' seen', forallb plain b = true -> preprocess_batch k (p, seen) b = Some (p', seen') ->
  statements p' = statements p ++ lines b /\ pre_batch_to_line_map p' = pre_batch_to_line_map p /\
  (is_only_labels_and_directives b = true -> pre_label_map p' = label_at k b (pre_label_map p)).
Proof.
  induction b as [|s b IH]; intros p seen p' seen' Hp Hr; cbn in Hr.
  - injection Hr as <- <-. cbn. now rewrite app_nil_r.
  - cbn in Hp. apply andb_true_iff in Hp as [Hs Hp]. apply bind_Some in Hr as ([p1 seen1] & H1 & Hr). destruct (IH _ _ _ _ Hp Hr) as (Hst & Hm & Hl). rewrite Hst, Hm.
    destruct s as [| | |[idx dir file| |]|name]; cbn in Hs, H1; try discriminate.
    1, 2, 3: injection H1 as <- <-; cbn [statements pre_batch_to_line_map]; split; [unfold lines; cbn; now rewrite <- app_assoc|split; [reflexivity|discriminate]].
    + apply bind_Some in H1 as (u & _ & [= <- <-]). cbn [statements pre_batch_to_line_map pre_label_map] in *. split; [reflexivity|]. split; [reflexivity|]. intros Ho. now apply Hl.
    + apply bind_Some in H1 as (u & _ & [= <- <-]). cbn [statements pre_batch_to_line_map pre_label_map] in *. split; [reflexivity|]. split; [reflexivity|]. intros Ho. now apply Hl.
Qed.

(** The last statement of a batch is no label. *)
Lemma preprocess_batch_labels k b (p : Main) p' seen' : forallb plain b = true -> batch_shape b -> preprocess_batch k (p, false) b = Some (p', seen') ->
  pre_label_map p' = label_at k b (pre_label_map p).
Proof.
  intros Hp Hsh Hr. destruct Hsh as [b Hb|b s Hb Hs]; [now apply (preprocess_batch_spec k b p false p' seen')|].
  rewrite forallb_app in Hp. apply andb_true_iff in Hp as [Hpb _].
  assert (Happ : forall a acc, preprocess_batch (T:=T) k acc (a ++ [s]) = acc' ← preprocess_batch k acc a; preprocess_batch k acc' [s]).
  { induction a as [|x a IH]; intros acc; [reflexivity|]. cbn [app preprocess_batch]. destruct (preprocess_statement k acc x); [apply IH|reflexivity]. }
  rewrite Happ in Hr. apply bind_Some in Hr as ([p1 seen1] & H1 & Hr). destruct (preprocess_batch_spec k b p false p1 seen1 Hpb H1) as (_ & _ & Hl).
  rewrite label_at_app, <- (Hl Hb). destruct s; try discriminate; cbn in Hr; injection Hr as <- <-; reflexivity.
Qed.

(** *** All batches *)

Definition upto (k n : Z) : list Z := map Z.of_nat (seq (Z.to_nat k) (Z.to_nat n)).

Lemma preprocess_batches_spec ms bs it : cut ms bs it -> forall k (p p' : Main), forallb plain it = true -> 0 <= k -> Z.of_nat (length (statements p)) = k ->
  preprocess_batches k p bs = Some p' ->
  statements p' = statements p ++ lines it /\ pre_label_map p' = label_at k it (pre_label_map p) /\
  exists tail, pre_batch_to_line_map p' = pre_batch_to_line_map p ++ upto k (count it) ++ tail /\ (tail = [] \/ tail = [k + count it]).
Proof.
  induction 1 as [|m ms b bs it Hsize Hsh Hne Hlast Hc IH]; intros k p p' Hp Hk Hlen Hr.
  - injection Hr as <-. cbn. split; [now rewrite app_nil_r|]. split; [reflexivity|]. exists []. cbn. rewrite app_nil_r. auto.
  - rewrite forallb_app in Hp. apply andb_true_iff in Hp as [Hpb Hpi]. cbn [preprocess_batches] in Hr. apply bind_Some in Hr as ([p1 seen1] & H1 & Hr).
    destruct (preprocess_batch_spec k b _ _ _ _ Hpb H1) as (Hst & Hmap & _). pose proof (preprocess_batch_labels k b _ _ _ Hpb Hsh H1) as Hlab.
    cbn [start_batch statements pre_batch_to_line_map pre_label_map fst] in *. rewrite Hlen in Hmap.
    destruct (is_only_labels_and_directives b) eqn:Ho.
    + assert (it = []) as -> by (destruct it; [reflexivity|discriminate Hlast; easy]). rewrite (cut_empty _ _ Hc) in Hr. injection Hr as <-.
      rewrite !app_nil_r. split; [exact Hst|]. split; [exact Hlab|]. exists [k]. unfold count. rewrite plain_open by assumption. cbn. rewrite Hmap, Z.add_0_r. auto.
    + destruct (plain_batch b Hpb Hsh Ho) as [s Hs].
      destruct (IH (k + 1) p1 p' Hpi ltac:(lia)) as (Hst' & Hlab' & tail & Hmap' & Htail); [rewrite Hst, Hs, length_app; cbn; lia|exact Hr|].
      assert (Hcnt : count b = 1) by (unfold count; now rewrite Hs). rewrite count_app, Hcnt, lines_app, label_at_app, Hcnt.
      split; [now rewrite Hst', Hst, <- app_assoc|]. split; [now rewrite Hlab', Hlab|]. exists tail. split.
      * rewrite Hmap', Hmap, <- !app_assoc. f_equal. rewrite app_assoc. f_equal. unfold upto. pose proof (Zle_0_nat (length (lines it))). fold (count it) in *.
        replace (Z.to_nat (1 + count it)) with (S (Z.to_nat (count it))) by lia. cbn [seq map]. rewrite Z2Nat.id by lia. cbn. do 3 f_equal. lia.
      * destruct Htail as [->| ->]; [now left|right; f_equal; lia].
Qed.

(** The layout of a function without locations. *)
Lemma layout body fs bs (p : Main) : forallb plain body = true -> extract_batches (new body) = Some fs -> iter_batches fs = Some bs ->
  preprocess_main_function (map batch_statements bs) = Some p ->
  statements p = lines body /\ pre_label_map p = label_at 0 body ∅ /\
  forall i, 0 <= i < count body -> pre_batch_to_line_map p !! Z.to_nat (i + 2) = Some i /\ pre_batch_to_line_map p !! Z.to_nat (i + 3) = Some (i + 1).
Proof.
  intros Hp Hx Hi Hpre. destruct (batching_cut (S (length body)) body ltac:(lia)) as (ms & cs & Hms & Hcut). unfold extract_batches in Hx. cbn [new inner] in Hx. rewrite Hms in Hx. injection Hx as <-.
  assert (Hbs : map batch_statements bs = cs).
  { pose proof (iter_from_cut ms cs body Hcut []) as Hit. cbn [length app] in Hit. unfold iter_batches in Hi. cbn in Hi. rewrite Hit in Hi. injection Hi as <-.
    clear - Hcut. induction Hcut as [|m ms b bs it Hs Hsh Hne Hl Hc IH]; [reflexivity|]. cbn. now rewrite IH. }
  rewrite Hbs in Hpre. unfold preprocess_main_function in Hpre. apply bind_Some in Hpre as (p1 & Hp1 & Hpre). apply bind_Some in Hpre as (u & _ & [= <-]).
  destruct (preprocess_batches_spec ms cs body Hcut 0 (mkPreprocessed [] ∅ (repeat 0 (Z.to_nat PC_INITIAL_VAL)) []) p1 Hp ltac:(lia) eq_refl Hp1) as (Hst & Hlab & tail & Hmap & Htail). cbn [start_batch statements pre_label_map pre_batch_to_line_map] in *.
  split; [exact Hst|]. split; [exact Hlab|]. rewrite Hst. cbn [app]. fold (count body). rewrite Hmap. change (repeat 0 (Z.to_nat PC_INITIAL_VAL)) with [0; 0].
  assert (Hup : forall j, 0 <= j < count body -> upto 0 (count body) !! Z.to_nat j = Some j).
  { intros j Hj. unfold upto. change (map Z.of_nat ?l) with (Z.of_nat <$> l). rewrite list_lookup_fmap, lookup_seq_lt by lia. cbn. f_equal. lia. }
  assert (Hlen : length (upto 0 (count body)) = Z.to_nat (count body)) by (unfold upto; now rewrite length_map, length_seq).
  intros i Hi'. rewrite <- !app_assoc, !(lookup_app_r [0; 0]) by (cbn; lia). cbn [length].
  replace (Z.to_nat (i + 2) - 2)%nat with (Z.to_nat i) by lia. replace (Z.to_nat (i + 3) - 2)%nat with (Z.to_nat (i + 1)) by lia.
  split; [rewrite lookup_app_l by lia; now apply Hup|].
  destruct (Z.eq_dec (i + 1) (count body)) as [He|He]; [|rewrite lookup_app_l by lia; apply Hup; lia].
  rewrite lookup_app_r by lia. rewrite Hlen, He, Nat.sub_diag. destruct Htail as [-> | ->]; reflexivity.
Qed.

(** A label stands for the position of the next line. *)
Lemma label_position pre name post : Forall (fun s => s <> SLabel name) post -> label_at 0 (pre ++ SLabel name :: post) ∅ !! name = Some (Binary (count pre + PC_INITIAL_VAL)).
Proof. intros Hpost. rewrite label_at_app. cbn [label_at]. rewrite label_at_other by exact Hpost. apply lookup_insert_eq. Qed.

End Layout.

(** ** The code of a program *)

Fixpoint instructions_of (l : list Statement) : list (string * InstructionArgs) :=
  match l with
  | [] => []
  | StInstruction op args :: l' => (op, args) :: instructions_of l'
  | _ :: l' => instructions_of l'
  end.

(** The lines where the code of the instructions starts, and the line after the code. *)
Fixpoint starts (c : Z) (l : list Statement) (codes : list (list FunctionStatement)) : list Z :=
  match l, codes with
  | s :: l', code :: codes' =>
    match s with StInstruction _ _ => c :: starts (c + count code) l' codes' | _ => starts (c + count code) l' codes' end
  | _, _ => [c]
  end.

Definition no_location (s : Statement) : bool := match s with StDebugLoc _ _ _ => false | _ => true end.

Lemma starts_head rt l : forall codes c, forallb no_location l = true -> mapM (translate_statement rt) l = Some codes -> starts c l codes !! 0%nat = Some c.
Proof.
  induction l as [|s l IH]; intros codes c Hn Ht; cbn in Ht; [now injection Ht as <-|]. cbn in Hn. apply andb_true_iff in Hn as [Hs Hn].
  apply bind_Some in Ht as (code & Hc & Ht). apply bind_Some in Ht as (codes' & Hcs & [= <-]). destruct s as [| name|op args]; [discriminate| |reflexivity].
  cbn in Hc. injection Hc as <-. cbn [starts]. rewrite (IH codes' _ Hn Hcs). f_equal. apply Z.add_0_r.
Qed.

(** Where the code of an instruction is. *)
Lemma starts_spec rt l : Forall (fun s => short (sys_statements s)) rt -> forallb no_location l = true ->
  forall codes c i op args, mapM (translate_statement rt) l = Some codes -> instructions_of l !! i = Some (op, args) ->
  exists a code b, concat codes = a ++ code ++ b /\ process_instruction op args rt = Some code /\ forallb is_instruction code = true /\
    starts c l codes !! i = Some (c + count a) /\ starts c l codes !! S i = Some (c + count a + Z.of_nat (length code)).
Proof.
  intros Hrt. induction l as [|s l IH]; intros Hn codes c i op args Ht Hi; [discriminate|]. cbn in Hn. apply andb_true_iff in Hn as [Hs Hn].
  cbn in Ht. apply bind_Some in Ht as (code & Hc & Ht). apply bind_Some in Ht as (codes' & Hcs & [= <-]). destruct s as [| name|op' args']; [discriminate| |].
  - cbn in Hc. injection Hc as <-. cbn [instructions_of] in Hi. destruct (IH Hn codes' (c + count [SLabel (escape_label name)]) i op args Hcs Hi) as (a & code & b & He & Hrest).
    exists (SLabel (escape_label name) :: a), code, b. cbn [concat app starts]. rewrite He. split; [reflexivity|].
    change (count (SLabel (escape_label name) :: a)) with (count a). change (count [SLabel (escape_label name)]) with 0 in *. now rewrite Z.add_0_r in *.
  - cbn in Hc. destruct (instruction_short op' args' rt code Hrt Hc) as [_ Hcode]. assert (Hcount : count code = Z.of_nat (length code)) by (unfold count; now rewrite lines_instructions).
    cbn [instructions_of] in Hi. destruct i as [|i].
    + injection Hi as <- <-. exists [], code, (concat codes'). cbn [concat app starts lookup list_lookup]. rewrite Z.add_0_r, <- Hcount. repeat split; try assumption. now apply starts_head with (rt := rt).
    + destruct (IH Hn codes' (c + count code) i op args Hcs Hi) as (a & code' & b & He & Hp & Hin & H1 & H2). exists (code ++ a), code', b. cbn [concat starts]. rewrite He, <- app_assoc.
      rewrite count_app, Z.add_assoc. repeat split; assumption.
Qed.

Section Generated.
Context {T W : Type} `{LL : LargeFieldLaws T} `{Display T}.
Variable env : Env T W.
Variable program : PreprocessedMain T.
Variable rt : Runtime.

(** The body of the function: the code of [executable] between other statements, cut into batches and laid out. *)
Variables before after : list FunctionStatement.
Variable executable : list Statement.
Variable codes : list (list FunctionStatement).
Variable fs : FunctionStatements.
Variable bs : list Batch.

Record Built : Prop := {
  built_codes : mapM (translate_statement rt) executable = Some codes;
  built_batches : extract_batches (new (before ++ concat codes ++ after)) = Some fs;
  built_iter : iter_batches fs = Some bs;
  built_program : preprocess_main_function (map batch_statements bs) = Some program;
  built_config : batch_to_line_map (config env) = pre_batch_to_line_map program;
  built_labels : label_map env = pre_label_map program;
  built_syscalls : Forall (fun s => short (sys_statements s)) rt;
  built_plain : forallb plain before = true /\ forallb plain after = true /\ forallb no_location executable = true;
  built_after : 0 < count after;
  built_args : Forall (fun s => match s with StInstruction _ args => ArgsOk args | _ => True end) executable;
  built_size : count (before ++ concat codes ++ after) < 2 ^ 31 - 4
}.

Definition line_of (i : nat) : Z := default 0 (starts (count before) executable codes !! i).
Definition pos_of (i : nat) : Z := line_of i + PC_INITIAL_VAL.

Lemma plain_codes l : forall cs, forallb no_location l = true -> Forall (fun s => short (sys_statements s)) rt -> mapM (translate_statement rt) l = Some cs -> forallb plain (concat cs) = true.
Proof.
  induction l as [|s l IH]; intros cs Hn Hrt Ht; cbn in Ht; [now injection Ht as <-|]. cbn in Hn. apply andb_true_iff in Hn as [Hs Hn].
  apply bind_Some in Ht as (code & Hc & Ht). apply bind_Some in Ht as (cs' & Hcs & [= <-]). cbn [concat]. rewrite forallb_app. apply andb_true_iff. split; [|exact (IH cs' Hn Hrt Hcs)].
  destruct s as [| name|op args]; [discriminate|injection Hc as <-; reflexivity|]. destruct (instruction_short op args rt code Hrt Hc) as [_ Hi].
  apply forallb_forall. intros s Hin. rewrite forallb_forall in Hi. specialize (Hi s Hin). now destruct s.
Qed.

Hypothesis Hbuilt : Built.
Notation body := (before ++ concat codes ++ after).

Lemma body_layout : statements program = lines body /\ pre_label_map program = label_at 0 body ∅ /\
  forall i, 0 <= i < count body -> batch_to_line_map (config env) !! Z.to_nat (i + 2) = Some i /\ batch_to_line_map (config env) !! Z.to_nat (i + 3) = Some (i + 1).
Proof.
  destruct Hbuilt as [Hcodes Hext Hiter Hpre Hcfg Hlab Hrt (Hpb & Hpa & Hnl) Hafter Hargs Hsize]. rewrite Hcfg. apply (layout body fs bs program); try assumption.
  rewrite !forallb_app, Hpb, Hpa, andb_true_r. now apply plain_codes with (l := executable).
Qed.

(** A position of the body that is not its end. *)
Lemma body_batch a b : body = a ++ b -> 0 < count b -> BatchAt env (count a + PC_INITIAL_VAL) (count a) /\ 0 <= count a < 2 ^ 32 - 1.
Proof.
  intros Hb Hpos. destruct body_layout as (_ & _ & Hmap). pose proof (built_size Hbuilt) as Hsize. rewrite Hb, count_app in Hsize. assert (0 <= count a) by (unfold count; lia).
  destruct (Hmap (count a)) as [Hm1 Hm2]; [rewrite Hb, count_app; lia|]. unfold PC_INITIAL_VAL. split; [|lia]. split; [lia|exact Hm1|]. exists (count a + 1). split; [|lia].
  now replace (count a + 2 + 1) with (count a + 3) by lia.
Qed.

(** A run of instructions in the body, not at its end, is a block of code. *)
Lemma code_at a code b : body = a ++ code ++ b -> forallb is_instruction code = true -> 0 < count b -> CodeAt env program (count a + PC_INITIAL_VAL) (count a) code.
Proof.
  intros Hb Hin Hpos. destruct body_layout as (Hst & _ & Hmap). pose proof (built_size Hbuilt) as Hsize. assert (0 <= count a) by (unfold count; lia).
  assert (Hcount : count body = count a + Z.of_nat (length code) + count b) by (rewrite Hb, !count_app; unfold count at 2; rewrite lines_instructions by exact Hin; lia).
  unfold PC_INITIAL_VAL. split; [lia|lia| | | |lia].
  - intros k s Hk. rewrite Hst, Hb, !lines_app, (lines_instructions code) by exact Hin. pose proof (lookup_lt_Some _ _ _ Hk).
    rewrite lookup_app_r, lookup_app_l by (unfold count; lia). rewrite <- Hk. f_equal. unfold count. lia.
  - intros k Hk. destruct (Hmap (count a + Z.of_nat k) ltac:(lia)) as [Hm1 Hm2]. replace (count a + 2 + Z.of_nat k) with (count a + Z.of_nat k + 2) by lia.
    split; [exact Hm1|]. now replace (count a + Z.of_nat k + 2 + 1) with (count a + Z.of_nat k + 3) by lia.
  - destruct (body_batch (a ++ code) b) as [HB _]; [now rewrite <- app_assoc|exact Hpos|]. rewrite count_app in HB. unfold count in HB at 2 4. rewrite lines_instructions in HB by exact Hin.
    unfold PC_INITIAL_VAL in HB. now replace (count a + 2 + Z.of_nat (length code)) with (count a + Z.of_nat (length code) + 2) by lia.
Qed.

Lemma built_compiled : Compiled env program rt (instructions_of executable) pos_of line_of.
Proof.
  split.
  - pose proof (built_args Hbuilt) as Hargs. clear - Hargs. induction executable as [|s l IH]; intros i op args Hi; [discriminate|]. apply Forall_cons in Hargs as [Hs Hl].
    destruct s; cbn [instructions_of] in Hi; [now apply (IH Hl i op)|now apply (IH Hl i op)|]. destruct i as [|i]; [now injection Hi as <- <-|]. now apply (IH Hl i op).
  - intros i op args Hi. destruct (built_plain Hbuilt) as (_ & _ & Hnl). pose proof (built_after Hbuilt) as Hafter.
    destruct (starts_spec rt executable (built_syscalls Hbuilt) Hnl codes (count before) i op args (built_codes Hbuilt) Hi) as (a & code & b & He & Hp & Hin & Hs1 & Hs2).
    exists code. split; [exact Hp|]. unfold pos_of, line_of. rewrite Hs1, Hs2. cbn [default from_option id]. split; [|split; unfold PC_INITIAL_VAL; lia].
    rewrite <- count_app. apply (code_at (before ++ a) code (b ++ after)); [rewrite He; now rewrite <- !app_assoc|exact Hin|]. rewrite count_app. unfold count at 1. lia.
Qed.

End Generated.

(** ** Labels *)

(** Labels are positions. *)
Lemma label_at_range {T} n l : forall k (m : gmap string (Elem T)), 0 <= k -> k + count l <= n -> map_Forall (fun _ v => exists z, v = Binary z /\ 0 <= z <= n + PC_INITIAL_VAL) m ->
  map_Forall (fun _ v => exists z, v = Binary z /\ 0 <= z <= n + PC_INITIAL_VAL) (label_at k l m).
Proof.
  induction l as [|s l IH]; intros k m Hk Hn Hm; [exact Hm|].
  assert (Hc : count (s :: l) = (if is_line s then 1 else 0) + count l) by (unfold count, lines; cbn [List.filter]; destruct (is_line s); cbn [length]; lia).
  rewrite Hc in Hn. assert (0 <= count l) by (unfold count; lia). destruct s as [| | |d|name]; cbn [label_at].
  5: { cbn [is_line] in Hn. apply IH; [exact Hk|lia|]. apply map_Forall_insert_2; [|exact Hm]. exists (k + PC_INITIAL_VAL). unfold PC_INITIAL_VAL. split; [reflexivity|lia]. }
  4: destruct (is_line (SDebugDirective d)).
  all: cbn [is_line] in *; apply IH; [lia|lia|exact Hm].
Qed.

Section Run.
Context {T W : Type} `{LL : LargeFieldLaws T} `{Display T}.
Variable env : Env T W.
Variable program : PreprocessedMain T.
Variable rt : Runtime.
Variables before after : list FunctionStatement.
Variable executable : list Statement.
Variable codes : list (list FunctionStatement).
Variable fs : FunctionStatements.
Variable bs : list Batch.
Hypothesis Hbuilt : Built env program rt before after executable codes fs bs.
Notation body := (before ++ concat codes ++ after).
Notation line_of := (line_of before executable codes).
Notation pos_of := (pos_of before executable codes).
Notation src := (instructions_of executable).

Lemma labels_words l t : labels env l = Some t -> 0 <= t < 2 ^ 32.
Proof.
  destruct (body_layout _ _ _ _ _ _ _ _ _ Hbuilt) as (_ & Hlab & _). unfold labels. intros Hl. apply bind_Some in Hl as (v & Hv & Hz). rewrite (built_labels _ _ _ _ _ _ _ _ _ Hbuilt), Hlab in Hv.
  pose proof (built_size _ _ _ _ _ _ _ _ _ Hbuilt) as Hsize.
  destruct (label_at_range (count body) body 0 ∅ ltac:(lia) ltac:(lia) (map_Forall_empty _) l v Hv) as (z & -> & Hr). cbn in Hz. injection Hz as <-. unfold PC_INITIAL_VAL in Hr. lia.
Qed.

(** Where a label of the program is. *)
Lemma starts_split l1 name l2 : forall cs c, forallb no_location (l1 ++ StLabel name :: l2) = true -> mapM (translate_statement rt) (l1 ++ StLabel name :: l2) = Some cs ->
  exists a b, concat cs = a ++ SLabel (escape_label name) :: b /\ starts c (l1 ++ StLabel name :: l2) cs !! length (instructions_of l1) = Some (c + count a).
Proof.
  induction l1 as [|s l1 IH]; intros cs c Hn Ht.
  - cbn [app] in Hn, Ht. cbn [forallb] in Hn. apply andb_true_iff in Hn as [_ Hn]. cbn [mapM] in Ht. apply bind_Some in Ht as (code & Hc & Ht). apply bind_Some in Ht as (cs' & Hcs & [= <-]).
    cbn in Hc. injection Hc as <-. exists [], (concat cs'). split; [reflexivity|]. cbn [app starts length instructions_of]. rewrite (starts_head rt l2 cs' _ Hn Hcs). reflexivity.
  - cbn [app] in Hn, Ht. cbn [forallb] in Hn. apply andb_true_iff in Hn as [Hs Hn]. cbn [mapM] in Ht. apply bind_Some in Ht as (code & Hc & Ht). apply bind_Some in Ht as (cs' & Hcs & [= <-]).
    destruct (IH cs' (c + count code) Hn Hcs) as (a & b & He & Hst). exists (code ++ a), b. cbn [concat]. rewrite He, <- app_assoc. split; [reflexivity|].
    rewrite count_app, Z.add_assoc. destruct s as [| |op args]; [discriminate|exact Hst|]. cbn [app starts instructions_of length]. exact Hst.
Qed.

(** C8: Translated programs are laid out as they are written: the code of the instructions of a program is translated,
    cut into batches and preprocessed, and then one batch and one line of the executor belong to every generated
    statement, the code of an instruction follows that of the instruction before it, and a label stands for the position
    of the next instruction. *)
Theorem program_layout : Compiled env program rt src pos_of line_of /\
  (forall l1 name l2, executable = l1 ++ StLabel name :: l2 ->
    (forall a b, body = a ++ SLabel (escape_label name) :: b -> SLabel (escape_label name) ∉ b) ->
    labels env (escape_label name) = Some (pos_of (length (instructions_of l1)))).
Proof.
  split; [eapply built_compiled; exact Hbuilt|]. intros l1 name l2 He Huniq.
  pose proof (built_codes _ _ _ _ _ _ _ _ _ Hbuilt) as Hcodes. destruct (built_plain _ _ _ _ _ _ _ _ _ Hbuilt) as (_ & _ & Hnl). rewrite He in Hcodes, Hnl.
  destruct (starts_split l1 name l2 codes (count before) Hnl Hcodes) as (a & b & Hab & Hst).
  assert (Hbody : body = (before ++ a) ++ SLabel (escape_label name) :: (b ++ after)) by (rewrite Hab, <- !app_assoc; reflexivity).
  destruct (body_layout _ _ _ _ _ _ _ _ _ Hbuilt) as (_ & Hlab & _). unfold labels. rewrite (built_labels _ _ _ _ _ _ _ _ _ Hbuilt), Hlab, Hbody.
  rewrite label_position; [|apply Forall_forall; intros s Hs ->; now apply (Huniq (before ++ a) (b ++ after))]. unfold pos_of, line_of. rewrite He, Hst. cbn. now rewrite count_app.
Qed.

(** *** Runs *)

Hypothesis Hmode : mode (config env) = Fast.

(** The executor starts at the first batch, with registers that are zero. *)
Lemma executor_start memory b w : builder_new (config env) memory = Some (inl b) ->
  exists e, (init env;; on_proc (push_row (config env) PC_INITIAL_VAL)) (mkExecutor b 0 w) = Some (tt, e) /\
    Rel env (mkFrame 2 3 1 4 3) (mkAsm (fun _ => 0) memory) e.
Proof.
  intros Hb. destruct (body_layout _ _ _ _ _ _ _ _ _ Hbuilt) as (_ & _ & Hmap). assert (Hc : 0 < count body).
  { pose proof (built_after _ _ _ _ _ _ _ _ _ Hbuilt). rewrite !count_app. unfold count at 1 2. lia. }
  destruct (Hmap 0 ltac:(lia)) as [_ Hm3]. cbn [Z.add] in Hm3.
  unfold builder_new in Hb. apply bind_Some in Hb as (u1 & _ & Hb). apply bind_Some in Hb as (u2 & Hidx & Hb). destruct u2. apply assert_that_true, Nat.ltb_lt in Hidx.
  destruct (_ <=? _); [discriminate|]. apply bind_Some in Hb as ([o b1] & Hn & Hb).
  assert (Hb1 : o = Some tt /\ b1 = set_regs (<[pc_idx (config env) := Binary 3]> (regs (initial_builder (config env) (base.size (reg_map (config env))) memory))) (initial_builder (config env) (base.size (reg_map (config env))) memory)).
  { unfold set_next_pc in Hn. unfold mbind, M_bind, gets, lift in Hn. cbn [curr_pc initial_builder elem_u] in Hn. change (elem_u (Binary PC_INITIAL_VAL)) with (Some 2) in Hn. cbn beta iota in Hn.
    change (2 + 1) with (0 + 3) in Hn. rewrite Hm3 in Hn. cbn [next_statement_line initial_builder] in Hn. change (1 ?= 0 + 1) with Eq in Hn. cbn beta iota in Hn. cbn [checked_add] in Hn.
    cbn in Hn. change (checked_add 32 2 1) with (Some 3) in Hn. cbn in Hn. unfold list_set in Hn. rewrite length_insert, repeat_length, (proj2 (Nat.ltb_lt _ _) Hidx) in Hn. now injection Hn as <- <-. }
  destruct Hb1 as [-> ->]. cbn [fst snd] in Hb. injection Hb as <-. eexists. split.
  - unfold init, push_row, RiscvTrace.set_col_idx. rewrite Hmode. cbn. reflexivity.
  - split; cbn; try reflexivity; [rewrite list_lookup_insert_eq; [reflexivity|rewrite length_insert, repeat_length; exact Hidx]|].
    intros r. unfold reg_value, get. cbn. destruct (r =? 0); reflexivity.
Qed.

(** A return ends the loop. *)
Lemma return_line l σ e f : statements program !! Z.to_nat l = Some SReturn -> Rel env f σ e -> fr_step f + 4 < 2 ^ 32 ->
  exists e', exec_line env program l e = Some (None, e') /\ Rel env (stepped f) σ e'.
Proof.
  intros Hl HR Hs. assert (Ht : tot (exec_line env program l) (fun r e' => r = None /\ Rel env (stepped f) σ e') e).
  { unfold exec_line. apply tot_bind. eapply tot_lift; [exact Hl|]. destruct HR as [R1 R2 R3 R4 R5 R6 R7]. unfold step_plus. apply tot_bind, tot_bind, tot_gets. eapply tot_lift.
    { unfold checked_add. rewrite R4, (proj2 (Z.ltb_lt _ _)) by lia. reflexivity. }
    apply tot_bind, tot_modify, tot_bind. cbn [exec_statement]. apply tot_bind. apply (tot_set_col env Hmode). apply tot_ret, tot_ret. split; [reflexivity|]. split; assumption || reflexivity. }
  destruct Ht as (r & e' & He & -> & HR'). now exists e'.
Qed.

End Run.
