(* ===== verification/RiscvTranslate.v ===== *)
(** * Translated programs in the executor

    The statements of [translate_program_impl], from the first batch to the end of the run: the
    jump to the code for the data, the call of the start function, the program, the return. *)

From stdpp Require Import base list option gmap strings pretty relations.
From Stdlib Require Import ZArith Lia.
From S2P Require Import Prelude Goldilocks Field AffineExpression PanicMonad RiscvElem RiscvNames RiscvTrace RiscvExec RiscvInstr RiscvRun RiscvAsm RiscvCodeGen RiscvIsa RiscvCompile RiscvSource Batches RiscvLayout RiscvModes RiscvDemo.

#[local] Opaque escape_label.

(** ** The form of the translation *)

Definition file_lines (files : list (Z * string * string)) : list FunctionStatement :=
  map (fun f => let '(id, dir, file) := f in SDebugDirective (DFile id dir file)) files.
Definition data_jump (initial : list MemEntry) : list FunctionStatement :=
  match initial with [] => [] | _ => [instr "jump" [label_ref "__data_init"; num 1]] end.
Definition start_call (start_function : string) : list FunctionStatement :=
  [instr "set_reg" [num 0; num 0]; instr "jump" [label_ref (escape_label start_function); num 1]].
Definition prologue (files : list (Z * string * string)) (initial : list MemEntry) (start_function : string) : list FunctionStatement :=
  file_lines files ++ data_jump initial ++ start_call start_function ++ [SReturn].
Definition data_routine (data : list FunctionStatement) : list FunctionStatement := data ++ [instr "jump_dyn" [num 1; reg tmp1]].
Definition epilogue (initial : list MemEntry) (data : list FunctionStatement) (rt : Runtime) : list FunctionStatement :=
  match initial with [] => [] | _ => SLabel "__data_init" :: data_routine data end ++ ecall_handler rt.

Lemma translate_form files initial start executable boot rt m body : translate_program_impl files initial start executable boot rt false = Some (m, body) ->
  exists codes entries, mapM (translate_statement rt) executable = Some codes /\ mapM (initial_mem_entry false) initial = Some entries /\
    body = prologue files initial start ++ concat codes ++ epilogue initial (concat (map snd entries)) rt.
Proof.
  unfold translate_program_impl. intros Ht. apply bind_Some in Ht as (entries & He & Ht). apply bind_Some in Ht as (codes & Hc & [= _ <-]).
  exists codes, entries. split; [exact Hc|]. split; [exact He|]. unfold prologue, epilogue, file_lines. rewrite <- !app_assoc. cbn [app].
  destruct initial as [|e l]; [reflexivity|]. cbn [existsb]. destruct (entry_value e); reflexivity.
Qed.

(** ** The data *)

(** What an entry of the memory is, and the memory that the entries describe. *)
Definition entry_word (labels : string -> option Z) (e : MemEntry) : Z :=
  match entry_value e with Value v => v | LabelReference sym => default 0 (labels (escape_label sym)) | Offset _ _ => 0 end.
Definition described (labels : string -> option Z) (initial : list MemEntry) (m : gmap Z Z) : gmap Z Z :=
  foldl (fun m e => <[entry_addr e := entry_word labels e]> m) m initial.

Record EntryOk (labels : string -> option Z) (e : MemEntry) : Prop := {
  entry_aligned : u32 (entry_addr e) /\ entry_addr e mod 4 = 0;
  entry_value_ok : match entry_value e with Value v => u32 v | LabelReference sym => labels (escape_label sym) <> None | Offset _ _ => True end
}.

Lemma entry_code e ws code : initial_mem_entry false e = Some (ws, code) -> length code = 3%nat /\ forallb is_instruction code = true.
Proof. unfold initial_mem_entry. intros He. destruct (entry_value e); [injection He as _ <-|injection He as _ <-|discriminate]; now split. Qed.

Lemma data_code_form initial : forall entries, mapM (initial_mem_entry false) initial = Some entries ->
  length (concat (map snd entries)) = (3 * length initial)%nat /\ forallb is_instruction (concat (map snd entries)) = true.
Proof.
  induction initial as [|e l IH]; intros entries He; cbn in He; [now injection He as <-|]. apply bind_Some in He as ([ws code] & Hc & He). apply bind_Some in He as (es & Hes & [= <-]).
  destruct (entry_code _ _ _ Hc) as [Hl Hi]. destruct (IH es Hes) as [IHl IHi]. cbn [map concat snd]. rewrite length_app, forallb_app, Hl, Hi, IHl, IHi. split; [cbn; lia|reflexivity].
Qed.

Section Data.
Variable labels : string -> option Z.
Hypothesis Hlabels : forall l t, labels l = Some t -> u32 t.

(** The value in the second temporary register is stored. *)
Lemma store_block p a v rest σ Q : u32 a -> a mod 4 = 0 -> u32 v ->
  (forall σ', same_state σ' (store a v σ) -> blk labels (p + 2) 0 rest σ' Q) ->
  blk labels p 0 (instr "set_reg" [reg tmp1; num a] :: instr "mstore" [reg tmp1; num 0; num 0; reg tmp2] :: rest) (put tmp2 v σ) Q.
Proof.
  intros Ha Hal Hv HQ. eapply blk_put; [reflexivity|repeat (eapply args_cons; [apply lit_num; unfold tmp1; lia|]); apply args_nil|apply asm_set_reg; unfold tmp1; lia|]. intros a' ->.
  eapply (blk_instr _ _ _ _ _ [tmp1; 0; 0; tmp2]); [reflexivity|repeat (eapply args_cons; [apply lit_num; unfold tmp1, tmp2; lia|]); apply args_nil| |].
  - eapply (asm_mstore _ _ tmp1 0 0 tmp2 a 0 v); [now rewrite get_put_eq by easy|reflexivity|now rewrite get_put_ne, get_put_eq by easy|unfold tmp1, tmp2; lia..|]. now rewrite Z.sub_0_r, Z.add_0_r.
  - cbn beta iota. replace (p + 1 + 1) with (p + 2) by lia. apply HQ. apply same_store; [rewrite Z.sub_0_r, Z.add_0_r; now apply word_small|reflexivity|].
    do 2 (apply same_put_tmp; [unfold visible, tmp1, tmp2, lr_sc_reservation; lia|]). apply same_refl.
Qed.

(** The code of an entry stores its word. *)
Lemma entry_block p e ws code rest σ Q : initial_mem_entry false e = Some (ws, code) -> EntryOk labels e ->
  (forall σ', same_state σ' (store (entry_addr e) (entry_word labels e) σ) -> blk labels (p + 3) 0 rest σ' Q) -> blk labels p 0 (code ++ rest) σ Q.
Proof.
  intros He [[Ha Hal] Hv] HQ. unfold initial_mem_entry in He. unfold entry_word in HQ. destruct (entry_value e) as [v|sym|] eqn:Hval; [| |discriminate]; injection He as _ <-; cbn [app].
  - eapply blk_put; [reflexivity|eapply args_cons; [apply lit_num; unfold tmp2; lia|]; eapply args_cons; [now apply lit_num|]; apply args_nil|apply asm_set_reg; unfold tmp2; lia|].
    intros v' ->. apply store_block; try assumption. intros σ' Hs. replace (p + 1 + 2) with (p + 3) by lia. now apply HQ.
  - destruct (labels (escape_label sym)) as [t|] eqn:Ht; [|easy]. pose proof (Hlabels _ _ Ht) as Htr.
    eapply blk_put; [reflexivity|eapply args_cons; [apply lit_num; unfold tmp2; lia|]; eapply args_cons; [apply lit_label; exact Ht|]; apply args_nil|apply asm_load_label; unfold tmp2; lia|].
    intros v' ->. apply store_block; try assumption. intros σ' Hs. replace (p + 1 + 2) with (p + 3) by lia. now apply HQ.
Qed.

(** The code of all entries fills the memory. *)
Lemma entries_block initial : forall entries p σ rest Q, mapM (initial_mem_entry false) initial = Some entries -> Forall (EntryOk labels) initial ->
  (forall σ', same_state σ' (mkAsm (asm_regs σ) (described labels initial (asm_mem σ))) -> blk labels (p + 3 * Z.of_nat (length initial)) 0 rest σ' Q) ->
  blk labels p 0 (concat (map snd entries) ++ rest) σ Q.
Proof.
  induction initial as [|e l IH]; intros entries p σ rest Q He Hok HQ; cbn in He.
  - injection He as <-. cbn [map concat app]. specialize (HQ σ). cbn in HQ. rewrite Z.add_0_r in HQ. apply HQ. destruct σ. apply same_refl.
  - apply bind_Some in He as ([ws code] & Hc & He). apply bind_Some in He as (es & Hes & [= <-]). apply Forall_cons in Hok as [Hok1 Hok]. cbn [map concat snd]. rewrite <- app_assoc.
    eapply entry_block; [exact Hc|exact Hok1|]. intros σ' Hs. eapply IH; [exact Hes|exact Hok|]. intros σ'' Hs'.
    replace (p + 3 + 3 * Z.of_nat (length l)) with (p + 3 * Z.of_nat (length (e :: l))) by (cbn [length]; lia). apply HQ. rewrite Hs'. destruct Hs as [Hr Hm]. split; [exact Hr|].
    cbn [asm_mem]. now rewrite Hm.
Qed.

(** The routine for the data fills the memory and returns. *)
Lemma data_block initial entries p σ ret : mapM (initial_mem_entry false) initial = Some entries -> Forall (EntryOk labels) initial ->
  get σ 1 = ret -> u32 ret -> 0 <= p -> p + 3 * Z.of_nat (length initial) + 1 < 2 ^ 32 ->
  blk labels p 0 (data_routine (concat (map snd entries))) σ
    (fun σ' ex => ex = Jump ret /\ same_state σ' (mkAsm (asm_regs σ) (described labels initial (asm_mem σ)))).
Proof.
  intros He Hok Hret Hr Hp Hend. unfold data_routine. eapply entries_block; [exact He|exact Hok|]. intros σ' Hs. assert (Hret' : get σ' 1 = ret) by (rewrite (same_get _ _ _ Hs) by lia; exact Hret).
  eapply (blk_instr _ _ _ _ _ [1; tmp1]); [reflexivity|repeat (eapply args_cons; [apply lit_num; unfold tmp1; lia|]); apply args_nil|eapply asm_jump_dyn; [exact Hret'|unfold tmp1; lia..]|].
  cbn beta iota. split; [reflexivity|]. apply same_put_tmp; [unfold visible, tmp1, lr_sc_reservation; lia|exact Hs].
Qed.

Lemma described_words initial : Forall (EntryOk labels) initial -> forall m, map_Forall (fun _ v => u32 v) m -> map_Forall (fun _ v => u32 v) (described labels initial m).
Proof.
  induction 1 as [|e l [_ Hv] Hl IH]; intros m Hm; [exact Hm|]. apply IH. apply map_Forall_insert_2; [|exact Hm]. unfold entry_word. destruct (entry_value e) as [v|sym|]; [exact Hv| |lia].
  destruct (labels (escape_label sym)) as [t|] eqn:Ht; [exact (Hlabels _ _ Ht)|cbn; lia].
Qed.

End Data.

(** ** Deployed programs *)

(** The labels of a list of statements. *)
Definition labels_of (l : list FunctionStatement) : list string := omap (fun s => match s with SLabel n => Some n | _ => None end) l.

Section Deployed.
Context {T W : Type} `{LL : LargeFieldLaws T} `{Display T}.
Variable env : Env T W.
Variable program : PreprocessedMain T.
Variable rt : Runtime.
Variable files : list (Z * string * string).
Variable initial : list MemEntry.
Variable start_function : string.
Variable executable : list Statement.
Variable bootloader : list FunctionStatement.
Variable codes : list (list FunctionStatement).
Variable translated : list (Z * Z) * list FunctionStatement.
Variable fs : FunctionStatements.
Variable bs : list Batch.
Notation body := (snd translated).

(** A program that is translated without continuations, cut into batches, preprocessed, and given to the executor. *)
Record Deployed : Prop := {
  dep_translated : translate_program_impl files initial start_function executable bootloader rt false = Some translated;
  dep_codes : mapM (translate_statement rt) executable = Some codes;
  dep_batches : extract_batches (new body) = Some fs;
  dep_iter : iter_batches fs = Some bs;
  dep_program : preprocess_main_function (map batch_statements bs) = Some program;
  dep_config : batch_to_line_map (config env) = pre_batch_to_line_map program;
  dep_labels : label_map env = pre_label_map program;
  dep_syscalls : Forall (fun s => short (sys_statements s)) rt;
  dep_locations : forallb no_location executable = true;
  dep_args : Forall (fun s => match s with StInstruction _ args => ArgsOk args | _ => True end) executable;
  dep_names : NoDup (labels_of body);
  dep_entries : Forall (EntryOk (labels env)) initial;
  dep_size : count body < 2 ^ 31 - 4
}.
Hypothesis Hdep : Deployed.

Notation before := (prologue files initial start_function).

Lemma deployed_form : exists entries, mapM (initial_mem_entry false) initial = Some entries /\ body = before ++ concat codes ++ epilogue initial (concat (map snd entries)) rt.
Proof.
  pose proof (dep_translated Hdep) as Htr. rewrite (surjective_pairing translated) in Htr. destruct (translate_form _ _ _ _ _ _ _ _ Htr) as (codes' & entries & Hc & He & Hb).
  rewrite (dep_codes Hdep) in Hc. injection Hc as <-. now exists entries.
Qed.

Lemma instructions_plain l : forallb is_instruction l = true -> forallb plain l = true.
Proof. intros Hl. apply forallb_forall. intros s Hs. rewrite forallb_forall in Hl. specialize (Hl s Hs). now destruct s. Qed.

Lemma handler_plain : forallb plain (ecall_handler rt) = true /\ 0 < count (ecall_handler rt).
Proof.
  split.
  - unfold ecall_handler. rewrite !forallb_app. apply andb_true_iff. split; [reflexivity|]. apply andb_true_iff. split; [apply forallb_forall; intros s Hs; apply in_map_iff in Hs as (x & <- & _); reflexivity|].
    apply andb_true_iff. split; [reflexivity|]. pose proof (dep_syscalls Hdep) as Hs. clear Hdep. induction rt as [|s l IH]; [reflexivity|]. apply Forall_cons in Hs as [[_ Hs] Hl]. cbn [flat_map app forallb plain andb].
    rewrite !forallb_app, (instructions_plain _ Hs), (IH Hl). reflexivity.
  - unfold ecall_handler. rewrite !count_app. assert (Hpos : forall l, 0 <= count l) by (intros l; unfold count; lia). change (count [SLabel "__invalid_syscall"; instr "fail" []]) with 1.
    repeat match goal with |- context [count ?l] => pose proof (Hpos l); generalize dependent (count l); intros end. lia.
Qed.

Lemma file_lines_lines : lines (file_lines files) = [] /\ forallb plain (file_lines files) = true.
Proof. split; induction files as [|[[id dir] file] l IH]; cbn; auto. Qed.

Lemma deployed_built entries : mapM (initial_mem_entry false) initial = Some entries -> body = before ++ concat codes ++ epilogue initial (concat (map snd entries)) rt ->
  Built env program rt before (epilogue initial (concat (map snd entries)) rt) executable codes fs bs.
Proof.
  intros He Hb. destruct handler_plain as [Hhp Hhc]. destruct (data_code_form initial entries He) as [_ Hdata].
  assert (Hafter : forallb plain (epilogue initial (concat (map snd entries)) rt) = true /\ 0 < count (epilogue initial (concat (map snd entries)) rt)).
  { unfold epilogue. rewrite forallb_app, Hhp, count_app, andb_true_r. split; [|unfold count at 1; lia].
    destruct initial; [reflexivity|]. unfold data_routine. cbn [forallb plain andb]. rewrite forallb_app, (instructions_plain _ Hdata). reflexivity. }
  split; rewrite <- ?Hb; try apply Hdep; try apply Hafter. split; [|split; [apply Hafter|apply Hdep]].
  unfold prologue. rewrite !forallb_app. destruct file_lines_lines as [_ ->]. unfold data_jump. now destruct initial.
Qed.

(** A label of the body stands for the position after what comes before it. *)
Lemma body_label name a b : body = a ++ SLabel name :: b -> labels env name = Some (count a + PC_INITIAL_VAL).
Proof.
  intros Hb. destruct deployed_form as (entries & He & Hform). destruct (body_layout _ _ _ _ _ _ _ _ _ (deployed_built entries He Hform)) as (_ & Hlab & _).
  unfold labels. rewrite (dep_labels Hdep), Hlab, <- Hform, Hb, label_position; [reflexivity|]. apply Forall_forall. intros s Hs ->.
  pose proof (dep_names Hdep) as Hnd. rewrite Hb in Hnd. unfold labels_of in Hnd. rewrite omap_app in Hnd. apply NoDup_app in Hnd as (_ & _ & Hnd). cbn in Hnd. apply NoDup_cons in Hnd as [Hnot _]. apply Hnot.
  apply list_elem_of_omap. exists (SLabel name). now split.
Qed.

(** *** The run *)

Hypothesis Hmode : mode (config env) = Fast.
Notation pos := (pos_of before executable codes).
Notation line := (line_of before executable codes).
Notation src := (instructions_of executable).

(** The position of the return, after the jump to the data and the call of the start function. *)
Definition return_pos : Z := (match initial with [] => 2 | _ => 3 end) + PC_INITIAL_VAL.

Lemma words_labels l t : labels env l = Some t -> 0 <= t < 2 ^ 32.
Proof. destruct deployed_form as (entries & He & Hb). apply (labels_words _ _ _ _ _ _ _ _ _ (deployed_built entries He Hb)). Qed.

(** Jumps to a label, with the position after the jump in register 1. *)
Lemma jump_block p name t σ1 σ : labels env name = Some t -> 0 <= p < 2 ^ 31 -> same_state σ1 σ ->
  exists σ2, run_block (labels env) p 0 [instr "jump" [label_ref name; num 1]] σ1 = Some (σ2, Jump t) /\ same_state σ2 (put 1 (p + 1) σ).
Proof.
  intros Ht Hp Hs. pose proof (words_labels _ _ Ht) as Htr.
  destruct (blk_instr (labels env) p "jump" [label_ref name; num 1] I_jump [t; 1] [] σ1 (put 1 (p + 1) σ1) (Goto t) (fun σ' ex => ex = Jump t /\ σ' = put 1 (p + 1) σ1)) as (σ2 & ex & Hr & -> & ->).
  - reflexivity.
  - eapply args_cons; [apply lit_label; exact Ht|]. eapply args_cons; [apply lit_num; lia|]. apply args_nil.
  - apply asm_jump; lia.
  - now split.
  - exists (put 1 (p + 1) σ1). split; [exact Hr|]. now rewrite Hs.
Qed.

(** From the beginning to the call of the start function: the memory is filled. *)
Lemma data_run k σ e : Here env 2 0 σ (3 * Z.of_nat (length initial) + 2 + k) e -> 0 <= k ->
  exists n e' x, exec_lines env program n 0 e = Some (Some (return_pos - 4), e') /\
    Here env (return_pos - 2) (return_pos - 4) (put 1 x (mkAsm (asm_regs σ) (described (labels env) initial (asm_mem σ)))) k e'.
Proof.
  intros HH Hk. destruct deployed_form as (entries & He & Hb). pose proof (deployed_built entries He Hb) as Hbuilt. destruct file_lines_lines as [Hfl _].
  assert (Hf : count (file_lines files) = 0) by (unfold count; now rewrite Hfl). destruct (data_code_form initial entries He) as [Hlen Hdata].
  unfold return_pos, PC_INITIAL_VAL. pose proof (dep_entries Hdep) as Hok. destruct (decide (initial = [])) as [Hnil|Hne].
  - exists O, e, (get σ 1). rewrite Hnil in *. cbn [Z.add Z.sub Z.opp Z.pos_sub Pos.pred_double exec_lines]. split; [reflexivity|]. eapply here_weaken; [|cbn in HH |- *; apply Z.le_refl].
    destruct HH as (f & σ1 & HR & Hs & HRd & Hroom). exists f, σ1. split; [exact HR|]. split; [|split; [exact HRd|unfold room in *; cbn in *; lia]].
    rewrite Hs. split; [|reflexivity]. intros r Hv. rewrite get_put. destruct (Z.eqb_spec r 1) as [->|]; [reflexivity|]. reflexivity.
  - assert (Hd : data_jump initial = [instr "jump" [label_ref "__data_init"; num 1]]) by (unfold data_jump; now destruct initial).
    assert (Hep : epilogue initial (concat (map snd entries)) rt = SLabel "__data_init" :: data_routine (concat (map snd entries)) ++ ecall_handler rt) by (unfold epilogue; now destruct initial).
    replace (match initial with [] => 2 | _ => 3 end + 2 - 4) with 1 by (now destruct initial). replace (match initial with [] => 2 | _ => 3 end + 2 - 2) with 3 by (now destruct initial).
    set (pre := before ++ concat codes) in *.
    assert (Hbody : body = (pre ++ [SLabel "__data_init"]) ++ data_routine (concat (map snd entries)) ++ ecall_handler rt) by (rewrite Hb, Hep; unfold pre; rewrite <- !app_assoc; reflexivity).
    assert (Hlab : labels env "__data_init" = Some (count pre + PC_INITIAL_VAL)) by (apply (body_label _ pre (data_routine (concat (map snd entries)) ++ ecall_handler rt)); rewrite Hbody, <- app_assoc; reflexivity).
    assert (Hcl : count (pre ++ [SLabel "__data_init"]) = count pre) by (rewrite count_app; apply Z.add_0_r).
    destruct handler_plain as [_ Hhc]. pose proof Hbody as Hb1. rewrite Hb in Hb1. rewrite Hb in Hbody.
    (* the jump *)
    assert (Hb0 : before ++ concat codes ++ epilogue initial (concat (map snd entries)) rt =
      file_lines files ++ data_jump initial ++ (start_call start_function ++ [SReturn] ++ concat codes ++ epilogue initial (concat (map snd entries)) rt)) by (unfold prologue; rewrite <- !app_assoc; reflexivity).
    assert (Hc0 : 0 < count (start_call start_function ++ [SReturn] ++ concat codes ++ epilogue initial (concat (map snd entries)) rt)) by (rewrite count_app; change (count (start_call _)) with 2; unfold count; lia).
    pose proof (code_at _ _ _ _ _ _ _ _ _ Hbuilt (file_lines files) (data_jump initial) _ Hb0 ltac:(rewrite Hd; reflexivity) Hc0) as HC0. rewrite Hf, Hd in HC0.
    pose proof (code_at _ _ _ _ _ _ _ _ _ Hbuilt _ _ _ Hbody ltac:(unfold data_routine; rewrite forallb_app, Hdata; reflexivity) Hhc) as HC1. rewrite Hcl in HC1.
    pose proof (code_at_batch _ _ _ _ _ 0 HC1 (Nat.le_0_l _)) as HB1. rewrite !Z.add_0_r in HB1.
    pose proof (code_line _ _ _ _ _ HC1) as Hl1. pose proof (code_end_line _ _ _ _ _ HC1) as Hl1'. pose proof (batch_pc _ _ _ (code_end _ _ _ _ _ HC1)) as Hpc1.
    assert (Hlr : Z.of_nat (length (data_routine (concat (map snd entries)))) = 3 * Z.of_nat (length initial) + 1) by (unfold data_routine; rewrite length_app, Hlen; cbn [length]; lia).
    destruct (block_here env program Hmode _ _ _ (count pre) σ (put 1 3 σ) (Jump (count pre + PC_INITIAL_VAL)) (3 * Z.of_nat (length initial) + 1 + k) e HC0 ltac:(lia)) as (n1 & e1 & Hn1 & HH1).
    + cbn [length]. eapply here_weaken; [exact HH|lia].
    + intros σ1 Hs. apply (jump_block 2); [exact Hlab|lia|exact Hs].
    + intros t [= <-]. split; [exact HB1|lia].
    + cbn [exit_pos exit_line] in *.
      destruct (block_here env program Hmode _ _ _ 1 (put 1 3 σ) (put 1 3 (mkAsm (asm_regs σ) (described (labels env) initial (asm_mem σ)))) (Jump 3) k e1 HC1 Hk) as (n2 & e2 & Hn2 & HH2).
      * rewrite Hlr. exact HH1.
      * intros σ1 Hs. destruct (data_block (labels env) words_labels initial entries (count pre + PC_INITIAL_VAL) σ1 3 He Hok) as (σ2 & ex & Hr & -> & Hs2).
        -- rewrite (same_get _ _ _ Hs) by lia. now rewrite get_put_eq by easy.
        -- lia.
        -- unfold PC_INITIAL_VAL in *. lia.
        -- unfold PC_INITIAL_VAL in *. lia.
        -- exists σ2. split; [exact Hr|]. rewrite Hs2. destruct Hs as [Hrg Hm]. rewrite mem_put in Hm. split; [|cbn [asm_mem]; rewrite mem_put; cbn [asm_mem]; now rewrite Hm].
           intros r Hv. change (get (mkAsm (asm_regs σ1) ?m) r) with (get σ1 r). rewrite (Hrg r Hv), !get_put. reflexivity.
      * intros t [= <-]. destruct (body_batch _ _ _ _ _ _ _ _ _ Hbuilt (file_lines files ++ data_jump initial) (start_call start_function ++ [SReturn] ++ concat codes ++ epilogue initial (concat (map snd entries)) rt)) as [HB HBl].
        -- rewrite Hb0, <- app_assoc. reflexivity.
        -- exact Hc0.
        -- rewrite count_app, Hf, Hd in HB, HBl. split; [exact HB|lia].
      * exists (n1 + n2)%nat, e2, 3. split; [|exact HH2]. rewrite (exec_lines_add _ _ _ _ _ _ _ _ Hn1). exact Hn2.
Qed.

(** The call of the start function. *)
Lemma start_run l1 l2 k σ e : executable = l1 ++ StLabel start_function :: l2 -> Here env (return_pos - 2) (return_pos - 4) σ (2 + k) e -> 0 <= k ->
  exists n e', exec_lines env program n (return_pos - 4) e = Some (Some (line (length (instructions_of l1))), e') /\
    Here env (pos (length (instructions_of l1))) (line (length (instructions_of l1))) (put 1 return_pos σ) k e'.
Proof.
  intros Hex HH Hk. destruct deployed_form as (entries & He & Hb). pose proof (deployed_built entries He Hb) as Hbuilt.
  destruct (starts_split rt l1 start_function l2 codes (count before)) as (a & b & Hab & Hst); [rewrite <- Hex; apply Hdep|rewrite <- Hex; apply Hdep|]. rewrite <- Hex in Hst.
  assert (Hline : line (length (instructions_of l1)) = count (before ++ a)) by (unfold line_of; rewrite Hst; cbn; now rewrite count_app).
  assert (Hpos : pos (length (instructions_of l1)) = count (before ++ a) + PC_INITIAL_VAL) by (unfold pos_of; now rewrite Hline).
  assert (Hlab : labels env (escape_label start_function) = Some (count (before ++ a) + PC_INITIAL_VAL)).
  { apply (body_label _ _ (b ++ epilogue initial (concat (map snd entries)) rt)). rewrite Hb, Hab, <- !app_assoc. reflexivity. }
  rewrite Hline, Hpos. set (rest := concat codes ++ epilogue initial (concat (map snd entries)) rt).
  assert (Hcode : CodeAt env program (return_pos - 2) (return_pos - 4) (start_call start_function)).
  { destruct file_lines_lines as [Hfl _]. assert (Hc : count (file_lines files ++ data_jump initial) = return_pos - 4).
    { rewrite count_app. unfold count at 1. rewrite Hfl. unfold return_pos, data_jump. now destruct initial. }
    pose proof (code_at _ _ _ _ _ _ _ _ _ Hbuilt (file_lines files ++ data_jump initial) (start_call start_function) (SReturn :: rest)) as HC. rewrite Hc in HC.
    unfold PC_INITIAL_VAL in HC. replace (return_pos - 4 + 2) with (return_pos - 2) in HC by lia. apply HC; [unfold prologue; now rewrite <- !app_assoc|reflexivity|unfold count; cbn [lines List.filter is_line length]; lia]. }
  pose proof (code_pc _ _ _ _ _ Hcode) as Hp0. pose proof (batch_pc _ _ _ (code_end _ _ _ _ _ Hcode)) as Hp1.
  destruct (block_here env program Hmode _ _ _ (count (before ++ a)) σ (put 1 return_pos σ) (Jump (count (before ++ a) + PC_INITIAL_VAL)) k e Hcode Hk HH) as (n & e' & Hn & HH').
  - intros σ1 Hs. destruct (jump_block (return_pos - 2 + 1) (escape_label start_function) _ (put 0 0 σ1) σ Hlab) as (σ2 & Hr & Hs2); [lia|exact Hs|].
    exists σ2. replace (return_pos - 2 + 1 + 1) with return_pos in Hs2 by lia. split; [|exact Hs2].
    destruct (blk_instr (labels env) (return_pos - 2) "set_reg" [num 0; num 0] I_set_reg [0; 0] [instr "jump" [label_ref (escape_label start_function); num 1]] σ1 (put 0 0 σ1) Next
      (fun σ' ex => σ' = σ2 /\ ex = Jump (count (before ++ a) + PC_INITIAL_VAL))) as (σ3 & ex & Hr3 & -> & ->); [reflexivity|reflexivity|apply asm_set_reg; lia| |exact Hr3].
    exists σ2, (Jump (count (before ++ a) + PC_INITIAL_VAL)). split; [exact Hr|now split].
  - intros t [= <-]. destruct (body_batch _ _ _ _ _ _ _ _ _ Hbuilt (before ++ a) (SLabel (escape_label start_function) :: b ++ epilogue initial (concat (map snd entries)) rt)) as [HB HBl].
    + rewrite Hab, <- !app_assoc. reflexivity.
    + pose proof (built_after _ _ _ _ _ _ _ _ _ Hbuilt) as Hafter. change (SLabel (escape_label start_function) :: b ++ ?x) with ([SLabel (escape_label start_function)] ++ b ++ x).
      rewrite !count_app. change (count [SLabel _]) with 0. unfold count at 1. lia.
    + split; [exact HB|lia].
  - exists n, e'. now split.
Qed.

(** The return after the call. *)
Lemma return_at : statements program !! Z.to_nat (return_pos - 2) = Some SReturn /\ BatchAt env return_pos (return_pos - 2) /\ 0 <= return_pos - 2 < 2 ^ 32 - 1.
Proof.
  destruct deployed_form as (entries & He & Hb). pose proof (deployed_built entries He Hb) as Hbuilt. destruct file_lines_lines as [Hfl _].
  set (rest := concat codes ++ epilogue initial (concat (map snd entries)) rt).
  assert (Hbody : before ++ concat codes ++ epilogue initial (concat (map snd entries)) rt = (file_lines files ++ data_jump initial ++ start_call start_function) ++ SReturn :: rest) by (unfold prologue; now rewrite <- !app_assoc).
  assert (Hc : count (file_lines files ++ data_jump initial ++ start_call start_function) = return_pos - 2).
  { rewrite !count_app. unfold count at 1. rewrite Hfl. unfold return_pos, data_jump. now destruct initial. }
  destruct (body_batch _ _ _ _ _ _ _ _ _ Hbuilt _ _ Hbody) as [HB HBl]; [unfold count; cbn [lines List.filter is_line length]; lia|]. rewrite Hc in HB, HBl. unfold PC_INITIAL_VAL in HB.
  replace (return_pos - 2 + 2) with return_pos in HB by lia. split; [|split; [exact HB|lia]].
  destruct (body_layout _ _ _ _ _ _ _ _ _ Hbuilt) as (Hst & _). rewrite Hst, Hbody, lines_app, lookup_app_r by (rewrite <- Hc; unfold count; lia).
  replace (Z.to_nat (return_pos - 2) - _)%nat with O by (rewrite <- Hc; unfold count; lia). reflexivity.
Qed.

(** In fast mode the executor returns. *)
Lemma fast_run_returns n memory b w l1 l2 σ' :
  executable = l1 ++ StLabel start_function :: l2 ->
  builder_new (config env) memory = Some (inl b) -> map_Forall (fun _ v => 0 <= v < 2 ^ 32) memory ->
  source_call (labels env) src pos return_pos n (length (instructions_of l1))
    (mkAsm (fun r => if r =? 1 then return_pos else 0) (described (labels env) initial memory)) = Some σ' ->
  4 * (13 * Z.of_nat n + 3 * Z.of_nat (length initial) + 4) + 8 < 2 ^ 32 ->
  13 * Z.of_nat n + 3 * Z.of_nat (length initial) + 7 <= max_rows (config env) ->
  exists fuel e', run_program env program fuel (mkExecutor b 0 w) = Some (true, e') /\
    (forall r, visible r -> reg_value (reg_last (proc e')) r = Binary (get σ' r)) /\ mem (proc e') = asm_mem σ'.
Proof.
  intros Hex Hnew Hmem Hcall Hsteps Hrows. destruct deployed_form as (entries & He & Hb). pose proof (deployed_built entries He Hb) as Hbuilt.
  destruct (executor_start _ _ _ _ _ _ _ _ _ Hbuilt Hmode memory b w Hnew) as (e0 & He0 & HR0). set (σ0 := mkAsm (fun _ => 0) memory) in *.
  assert (HH0 : Here env 2 0 σ0 (3 * Z.of_nat (length initial) + 2 + (2 + max_length * Z.of_nat n)) e0).
  { exists (mkFrame 2 3 1 4 3), σ0. split; [exact HR0|]. split; [reflexivity|]. split; [split; reflexivity|]. unfold room, max_length. cbn. lia. }
  destruct (data_run _ σ0 e0 HH0 ltac:(unfold max_length; lia)) as (n1 & e1 & x & Hn1 & HH1).
  destruct (start_run l1 l2 _ _ e1 Hex HH1 ltac:(unfold max_length; lia)) as (n2 & e2 & Hn2 & HH2).
  set (σ1 := mkAsm (fun r => if r =? 1 then return_pos else 0) (described (labels env) initial memory)) in *.
  assert (Hret : 0 <= return_pos < 2 ^ 32) by (unfold return_pos, PC_INITIAL_VAL; destruct initial; lia).
  assert (Hs1 : same_state (put 1 return_pos (put 1 x (mkAsm (asm_regs σ0) (described (labels env) initial (asm_mem σ0))))) σ1).
  { split; [|now rewrite !mem_put]. intros r _. rewrite !get_put. unfold get, σ1, σ0. cbn [asm_regs]. destruct (Z.eqb_spec r 1) as [->|]; [reflexivity|]. cbn [andb negb Z.eqb]. reflexivity. }
  assert (HW : Words σ1).
  { split; [intros r _; unfold get, σ1; cbn [asm_regs]; destruct (r =? 0), (r =? 1); lia|now left|]. exact (described_words _ words_labels initial (dep_entries Hdep) memory Hmem). }
  destruct return_at as (Hret_at & Hbatch).
  destruct (call_simulated env program rt src pos line n (length (instructions_of l1)) σ1 σ' return_pos (return_pos - 2) e2 Hmode words_labels) as (n3 & e3 & Hn3 & f & σ2 & HR3 & Hs3 & HRd3 & Hroom3).
  - eapply built_compiled; exact Hbuilt.
  - exact Hcall.
  - exact HW.
  - unfold At. destruct HH2 as (f & σ2 & HR & Hs & HRd & Hroom). exists f, σ2. split; [exact HR|]. split; [now rewrite Hs|]. now split.
  - exact Hbatch.
  - destruct (return_line _ _ Hmode _ σ2 e3 f Hret_at HR3) as (e4 & He4 & HR4); [destruct Hroom3; lia|].
    exists (n1 + (n2 + (n3 + 1)))%nat, e4. split.
    + unfold run_program. rewrite Hmode. cbn [tracing]. unfold mbind, M_bind in He0. destruct (init env (mkExecutor b 0 w)) as [[u e]|] eqn:Hi; [|discriminate].
      assert (Hloop : exec_loop env program (n1 + (n2 + (n3 + 1))) 0 e0 = Some (true, e4)).
      { rewrite (exec_lines_loop env program _ _ _ _ _ _ Hn1), (exec_lines_loop env program _ _ _ _ _ _ Hn2), (exec_lines_loop env program _ _ _ _ _ _ Hn3).
        cbn [exec_loop]. eapply bind_run; [exact He4|reflexivity]. }
      eapply bind_run; [exact Hi|]. eapply bind_run; [exact He0|]. eapply bind_run; [exact Hloop|reflexivity].
    + split; [|rewrite (rel_mem _ _ _ _ HR4); apply Hs3]. intros r Hv. rewrite (rel_regs _ _ _ _ HR4). f_equal. now apply Hs3.
Qed.

End Deployed.

(** The mode does not matter for what is deployed. *)
Lemma deployed_fast {T W} (env : Env T W) program rt files initial start executable bootloader codes translated fs bs :
  Deployed env program rt files initial start executable bootloader codes translated fs bs ->
  Deployed (fast_env env) program rt files initial start executable bootloader codes translated fs bs.
Proof. now intros []; split. Qed.

(** C1: Translated programs run in the executor as the reference does. A RISC-V program is translated, its statements are cut
    into batches and preprocessed, and the executor runs them: if the reference, started at the start function with the
    memory that the data describe and the position of the return in register 1, jumps to this position after at most [n]
    instructions, then the executor in fast mode returns, with the registers and the memory of the reference, whenever it
    has rows and steps for thirteen statements per instruction and three per entry of the data; and every run that returns
    in one of the other modes, which record the trace and the witness, has these registers and this memory, too. *)
Theorem translated_program_returns {T W} `{LL : LargeFieldLaws T} `{Display T} (env : Env T W) program rt files initial start executable bootloader codes translated fs bs
    n memory b w l1 l2 σ' :
  Deployed env program rt files initial start executable bootloader codes translated fs bs ->
  executable = l1 ++ StLabel start :: l2 ->
  builder_new (config env) memory = Some (inl b) -> map_Forall (fun _ v => 0 <= v < 2 ^ 32) memory ->
  source_call (labels env) (instructions_of executable) (pos_of (prologue files initial start) executable codes) (return_pos initial) n (length (instructions_of l1))
    (mkAsm (fun r => if r =? 1 then return_pos initial else 0) (described (labels env) initial memory)) = Some σ' ->
  4 * (13 * Z.of_nat n + 3 * Z.of_nat (length initial) + 4) + 8 < 2 ^ 32 ->
  13 * Z.of_nat n + 3 * Z.of_nat (length initial) + 7 <= max_rows (config env) ->
  let correct (e' : Executor T W) := (forall r, visible r -> reg_value (reg_last (proc e')) r = Binary (get σ' r)) /\ mem (proc e') = asm_mem σ' in
  (exists fuel e', run_program (fast_env env) program fuel (mkExecutor b 0 w) = Some (true, e') /\ correct e') /\
  (forall fuel e', run_program env program fuel (mkExecutor b 0 w) = Some (true, e') -> correct e').
Proof.
  intros Hdep Hex Hnew Hmem Hcall Hsteps Hrows correct.
  destruct (fast_run_returns (fast_env env) program rt files initial start executable bootloader codes translated fs bs (deployed_fast _ _ _ _ _ _ _ _ _ _ _ _ Hdep) eq_refl
    n memory b w l1 l2 σ' Hex Hnew Hmem Hcall Hsteps Hrows) as (fuel & e' & Hrun & Hcorrect).
  split; [now exists fuel, e'|]. intros fuel2 s' Hs. destruct (fast_run env program fuel2 _ (mkExecutor b 0 w) true s' ltac:(now repeat split) Hs) as (t' & Ht & Hres).
  pose proof (run_program_unique _ _ _ _ _ _ _ Hrun Ht) as <-. unfold result in Hres. injection Hres as Hm Hr _ _. unfold correct in *. now rewrite <- Hm, <- Hr.
Qed.


(** ** A program

    The factorial of a number from the data, stored as a byte and loaded again. *)

Import Demo.

Definition ri_args (rd : Register) (i : Z) : InstructionArgs := mkArgs None None None None None (Some (rd, i)) None None None None None.
Definition rri_args (rd r : Register) (i : Z) : InstructionArgs := mkArgs None None (Some (rd, r, i)) None None None None None None None None.
Definition rl_args (r : Register) (l : string) : InstructionArgs := mkArgs None None None None None None None None (Some (r, l)) None None.
Definition rro_args (r1 r2 : Register) (o : Z) : InstructionArgs := mkArgs None None None None None None None None None (Some (r1, r2, o)) None.
Definition empty_args : InstructionArgs := mkArgs None None None None None None None None None None (Some tt).

Definition factorial : list Statement :=
  [StLabel "_start"; StInstruction "li" (ri_args 8 256); StInstruction "lw" (rro_args 5 8 0); StInstruction "li" (ri_args 6 1);
   StLabel ".loop"; StInstruction "mul" (rrr_args 6 6 5); StInstruction "addi" (rri_args 5 5 0xffffffff); StInstruction "bnez" (rl_args 5 ".loop");
   StInstruction "sb" (rro_args 6 8 3); StInstruction "lbu" (rro_args 7 8 3); StInstruction "ret" empty_args]%string.
Definition fact_data : list MemEntry := [mkMemEntry None 256 (Value 6); mkMemEntry (Some "entry"%string) 260 (LabelReference ".loop")].
Definition fact_files : list (Z * string * string) := [(1, ".", "factorial.s")]%string.

Definition fact_codes : list (list FunctionStatement) := default [] (mapM (translate_statement []) factorial).
Definition fact_translated : list (Z * Z) * list FunctionStatement :=
  default ([], []) (translate_program_impl fact_files fact_data "_start" factorial [] [] false).
Definition fact_fs : FunctionStatements := default (new []) (extract_batches (new (snd fact_translated))).
Definition fact_bs : list Batch := default [] (iter_batches fact_fs).
Definition fact_program : PreprocessedMain GL := default (mkPreprocessed [] ∅ [] []) (preprocess_main_function (map batch_statements fact_bs)).
Definition fact_cfg : Config :=
  {| mode := Witness; max_rows := 1000; reg_map := register_map register_names; pc_idx := 0; batch_to_line_map := pre_batch_to_line_map fact_program; all_cols := [] |}.
Definition fact_env : Env GL unit := mkEnv _ _ fact_cfg externals (pre_label_map fact_program) [] fixed_columns links.

Lemma fact_args : Forall (fun s => match s with StInstruction _ args => ArgsOk args | _ => True end) factorial.
Proof.
  repeat (apply List.Forall_cons; [first [exact I|split; cbn; intros; simplify_eq; unfold ok_reg, ok_word; lia]|]). apply List.Forall_nil.
Qed.

Lemma fact_entries : Forall (EntryOk (labels fact_env)) fact_data.
Proof.
  repeat (apply List.Forall_cons; [split; [split; [cbn; lia|reflexivity]|cbn [entry_value]]|]); [lia| |apply List.Forall_nil].
  assert (Hl : is_Some (labels fact_env (escape_label ".loop"))) by (vm_compute; eauto). destruct Hl as [t ->]. discriminate.
Qed.

Lemma fact_deployed : Deployed fact_env fact_program [] fact_files fact_data "_start" factorial [] fact_codes fact_translated fact_fs fact_bs.
Proof.
  split; try (vm_compute; reflexivity); [constructor|exact fact_args| |exact fact_entries].
  apply (proj1 (bool_decide_eq_true _)). vm_compute. reflexivity.
Qed.

#[local] Notation fact_pos := (pos_of (prologue fact_files fact_data "_start") factorial fact_codes).
#[local] Notation fact_call :=
  (source_call (labels fact_env) (instructions_of factorial) fact_pos (return_pos fact_data) 30 (length (instructions_of []))
    (mkAsm (fun r => if r =? 1 then return_pos fact_data else 0) (described (labels fact_env) fact_data ∅))).
Definition fact_expected (σ : AsmState) : bool := (get σ 6 =? 720) && (get σ 7 =? 208) && (load σ 260 =? fact_pos 3).
Lemma fact_result : match fact_call with Some σ => fact_expected σ | None => false end = true.
Proof. vm_compute. reflexivity. Qed.

Definition fact_start : TraceBuilder GL := match builder_new fact_cfg ∅ with Some (inl b) => b | _ => initial_builder fact_cfg 0 ∅ end.

Lemma fact_new : builder_new (config fact_env) ∅ = Some (inl fact_start).
Proof. vm_compute. reflexivity. Qed.
Lemma fact_split : factorial = [] ++ StLabel "_start" :: tail factorial.
Proof. reflexivity. Qed.
Lemma fact_steps : 4 * (13 * Z.of_nat 30 + 3 * Z.of_nat (length fact_data) + 4) + 8 < 2 ^ 32.
Proof. reflexivity. Qed.
Lemma fact_rows : 13 * Z.of_nat 30 + 3 * Z.of_nat (length fact_data) + 7 <= max_rows (config fact_env).
Proof. cbn. lia. Qed.

Lemma translated_program_returns_witness : exists fuel e',
  run_program (fast_env fact_env) fact_program fuel (mkExecutor fact_start 0 tt) = Some (true, e') /\
  reg_value (reg_last (proc e')) 6 = Binary 720 /\ reg_value (reg_last (proc e')) 7 = Binary 208.
Proof.
  pose proof fact_result as Hres. destruct fact_call as [σ'|] eqn:Hcall; [|discriminate]. apply andb_true_iff in Hres as [Hres _]. apply andb_true_iff in Hres as [H6 H7]. apply Z.eqb_eq in H6, H7.
  destruct (translated_program_returns fact_env fact_program [] fact_files fact_data "_start" factorial [] fact_codes fact_translated fact_fs fact_bs
    30 ∅ fact_start tt [] (tail factorial) σ' fact_deployed fact_split fact_new (map_Forall_empty _) Hcall fact_steps fact_rows) as [(fuel & e' & He & Hregs & _) _].
  exists fuel, e'. split; [exact He|]. split; [rewrite <- H6|rewrite <- H7]; apply Hregs; left; lia.
Defined.

Lemma program_layout_witness :
  let after := epilogue fact_data (concat (map snd (default [] (mapM (initial_mem_entry false) fact_data)))) [] in
  let before := prologue fact_files fact_data "_start" in
  Built fact_env fact_program [] before after factorial fact_codes fact_fs fact_bs /\
  Compiled fact_env fact_program [] (instructions_of factorial) (pos_of before factorial fact_codes) (line_of before factorial fact_codes).
Proof.
  cbn zeta. pose proof (deployed_built _ _ _ _ _ _ _ _ _ _ _ _ fact_deployed (default [] (mapM (initial_mem_entry false) fact_data)) eq_refl) as Hb.
  assert (Hbuilt := Hb ltac:(vm_compute; reflexivity)). split; [exact Hbuilt|]. exact (proj1 (program_layout _ _ _ _ _ _ _ _ _ Hbuilt)).
Defined.
