(* ===== verification/RiscvMemory.v ===== *)
(** * The memory submachine, [riscv-executor/src/memory.rs]

    The executor's log of memory operations is sorted by address and step, and padded to the
    degree of the machine; [std/machines/large_field/memory.asm] states the constraints of
    the columns. The registers of the program are a second instance of the same machine. *)

From Stdlib Require Import ZArith Lia Ascii.
From stdpp Require Import base list option gmap strings sorting.
From S2P Require Import Prelude Goldilocks Field AffineExpression RiscvElem.

(** ** Sorting by a key, stable as [sort_by_key] *)

Section SortByKey.
Context {A K : Type} (le : K -> K -> bool) (key : A -> K).

Fixpoint insert_by_key (x : A) (l : list A) : list A :=
  match l with
  | [] => [x]
  | y :: l' => if le (key x) (key y) then x :: l else y :: insert_by_key x l'
  end.

(** An element is inserted before the later ones with the same key. *)
Fixpoint sort_by_key (l : list A) : list A :=
  match l with
  | [] => []
  | x :: l' => insert_by_key x (sort_by_key l')
  end.

End SortByKey.

(** ** Parsing the index of a selector *)

(** [s.find(c)], and the part after the first [c]. *)
Fixpoint after_char (c : Ascii.ascii) (s : string) : option string :=
  match s with
  | EmptyString => None
  | String a s' => if Ascii.eqb a c then Some s' else after_char c s'
  end.

(** The part before the first [c]; [None] without one. *)
Fixpoint before_char (c : Ascii.ascii) (s : string) : option string :=
  match s with
  | EmptyString => None
  | String a s' => if Ascii.eqb a c then Some EmptyString else String a <$> before_char c s'
  end.

Definition digit (a : Ascii.ascii) : option Z :=
  let n := Z.of_nat (Ascii.nat_of_ascii a) in if (48 <=? n) && (n <=? 57) then Some (n - 48) else None.

Fixpoint parse_digits (acc : Z) (s : string) : option Z :=
  match s with
  | EmptyString => Some acc
  | String a s' => d ← digit a; let n := acc * 10 + d in if n <? 256 then parse_digits n s' else None
  end.

(** [str::parse::<u8>]. *)
Definition parse_u8 (s : string) : option Z :=
  let body := match s with String a s' => if Ascii.eqb a "+"%char then s' else s | EmptyString => s end in
  match body with EmptyString => None | _ => parse_digits 0 body end.

(** The index in the name of a selector; a [']'] before the ['['] gives an invalid slice. *)
Definition selector_index (s : string) : option Z :=
  start ← after_char "["%char s;
  _ ← assert_that (negb (match before_char "["%char s with Some p => bool_decide (is_Some (before_char "]"%char p)) | None => false end));
  idx ← before_char "]"%char start;
  parse_u8 idx.

Section Memory.
Context {T : Type} `{LargeField T}.

Record MemOp := mkMemOp { mo_addr : Z; mo_step : Z; mo_value : T; mo_write : T; mo_selector : Z }.

Record MemoryMachine := mkMemoryMachine { mm_namespace : string; mm_ops : list MemOp; mm_witness_cols : list string }.

Definition memory_new (namespace : string) (witness_cols : list string) : MemoryMachine :=
  mkMemoryMachine namespace [] (List.filter (String.prefix (namespace +:+ "::")) witness_cols).

Definition memory_len (m : MemoryMachine) : Z := as_width 32 (Z.of_nat (length (mm_ops m))).

Definition memory_add_operation (selector : option string) (lookup_args : list T) (m : MemoryMachine) : option MemoryMachine :=
  match lookup_args with
  | [op_id; addr; step; value] =>
    s ← selector;
    selector_idx ← selector_index s;
    a ← try_into_u32 addr;
    st ← try_into_u32 step;
    Some (mkMemoryMachine (mm_namespace m) (mm_ops m ++ [mkMemOp a st value op_id selector_idx]) (mm_witness_cols m))
  | _ => None
  end.

(** *** [finish] *)

(** Ordered by address, then step. *)
Definition key_le (x y : Z * Z) : bool := (fst x <? fst y) || ((fst x =? fst y) && (snd x <=? snd y)).
Definition op_key (op : MemOp) : Z * Z := (mo_addr op, mo_step op).

(** The positions of the columns. *)
Definition Addr := 0%nat.
Definition Step := 1%nat.
Definition Change := 2%nat.
Definition Value := 3%nat.
Definition IsWrite := 4%nat.
Definition DiffLower := 5%nat.
Definition DiffUpper := 6%nat.
Definition Selectors := 7%nat.

(** [Change] and the difference minus one, [u32]; [None] is a panic. *)
Definition change_and_diff (op : MemOp) (next : option MemOp) : option (Z * Z) :=
  match next with
  | Some n =>
    _ ← assert_that (mo_addr op <=? mo_addr n);
    if mo_addr op <? mo_addr n then
      d ← checked_sub (mo_addr n) (mo_addr op); Some (1, (d - 1) mod 2 ^ 32)
    else
      d ← checked_sub (mo_step n) (mo_step op); Some (0, (d - 1) mod 2 ^ 32)
  | None => Some (0, 0)
  end.

Definition selector_values (count : nat) (idx : Z) : list T :=
  (fun i => if Z.of_nat i =? idx then from_int 1 else from_int 0) <$> seq 0 count.

(** The values pushed for one operation, in the order of the columns. *)
Definition memory_row (selector_count : nat) (op : MemOp) (next : option MemOp) : option (list T) :=
  cd ← change_and_diff op next;
  let '(change, diff) := cd in
  Some ([from_u32 (mo_addr op); from_u32 (mo_step op); from_int change; mo_value op; mo_write op;
         from_u32 (Z.land diff 0xffff); from_u32 (Z.shiftr diff 16)] ++ selector_values selector_count (mo_selector op)).

Fixpoint memory_rows (selector_count : nat) (ops : list MemOp) : option (list (list T)) :=
  match ops with
  | [] => Some []
  | op :: ops' => r ← memory_row selector_count op (head ops'); rs ← memory_rows selector_count ops'; Some (r :: rs)
  end.

(** One value pushed to every column of the row. *)
Definition push_values (cols : list (list T)) (row : list T) : list (list T) :=
  zip_with (fun c v => c ++ [v]) cols row ++ drop (length row) cols.

(** The loop over the selectors counts in [u8]. *)
Definition memory_finish (degree : Z) (m : MemoryMachine) : option (list (string * list T)) :=
  _ ← assert_that (memory_len m <=? degree);
  let ops := sort_by_key key_le op_key (mm_ops m) in
  _ ← assert_that (Selectors <=? length (mm_witness_cols m))%nat;
  let selector_count := (length (mm_witness_cols m) - Selectors)%nat in
  rows ← memory_rows (selector_count mod 256)%nat ops;
  let cols := foldl push_values (replicate (length (mm_witness_cols m)) []) rows in
  let last_step := match last ops with Some op => mo_step op | None => 0 end in
  let last_addr := match last ops with Some op => mo_addr op | None => 0 end in
  let last_value := match last ops with Some op => mo_value op | None => from_int 0 end in
  if memory_len m <? degree then
    let count := degree - memory_len m in
    _ ← assert_that (last_step + count + 1 <? 2 ^ 32);
    let d := Z.to_nat degree in
    let pad (i : nat) (c : list T) : list T :=
      if (i =? Addr)%nat then resize d (from_u32 last_addr) c
      else if (i =? Value)%nat then resize d last_value c
      else if (i =? Step)%nat then c ++ map (fun k => from_u32 (last_step + 1 + Z.of_nat k)) (seq 0 (Z.to_nat count))
      else if (i =? Change)%nat then <[(d - 1)%nat := from_int 1]> (resize d (from_int 0) c)
      else resize d (from_int 0) c in
    Some (zip (mm_witness_cols m) (imap pad cols))
  else Some (zip (mm_witness_cols m) cols).

End Memory.
Arguments MemOp : clear implicits.
Arguments MemoryMachine : clear implicits.

(** ** Sorting *)

Section Sorting.
Context {A K : Type} (le : K -> K -> bool) (key : A -> K).
Hypothesis le_total : forall x y, le x y = true \/ le y x = true.
Hypothesis le_trans : forall x y z, le x y = true -> le y z = true -> le x z = true.
Definition by_key (x y : A) : Prop := le (key x) (key y) = true.

Lemma insert_by_key_perm x l : insert_by_key le key x l ≡ₚ x :: l.
Proof. induction l as [|y l IH]; cbn; [reflexivity|]. destruct (le (key x) (key y)); [reflexivity|]. rewrite IH. apply Permutation_swap. Qed.

Lemma sort_by_key_perm l : sort_by_key le key l ≡ₚ l.
Proof. induction l as [|x l IH]; cbn; [reflexivity|]. now rewrite insert_by_key_perm, IH. Qed.

Lemma insert_by_key_sorted x l : StronglySorted by_key l -> StronglySorted by_key (insert_by_key le key x l).
Proof.
  induction 1 as [|y l Hl IH Hy]; cbn; [constructor; [constructor|apply List.Forall_nil]|].
  destruct (le (key x) (key y)) eqn:Hxy.
  - constructor; [now constructor|]. apply List.Forall_cons; [exact Hxy|]. eapply List.Forall_impl; [|exact Hy]. intros z Hz. exact (le_trans _ _ _ Hxy Hz).
  - constructor; [exact IH|]. assert (Hyx : by_key y x) by (destruct (le_total (key x) (key y)); [congruence|assumption]).
    rewrite List.Forall_forall. intros z Hz. apply list_elem_of_In in Hz. rewrite insert_by_key_perm in Hz. apply elem_of_cons in Hz as [->|Hz]; [exact Hyx|].
    rewrite List.Forall_forall in Hy. apply Hy. now apply list_elem_of_In.
Qed.

Lemma sort_by_key_sorted l : StronglySorted by_key (sort_by_key le key l).
Proof. induction l as [|x l IH]; cbn; [constructor|]. now apply insert_by_key_sorted. Qed.

End Sorting.

Lemma StronglySorted_lookup {A} (R : A -> A -> Prop) l : StronglySorted R l ->
  forall i j x y, l !! i = Some x -> l !! j = Some y -> (i < j)%nat -> R x y.
Proof.
  induction 1 as [|z l Hl IH Hz]; intros i j x y Hi Hj Hij; [discriminate|]. destruct j as [|j]; [lia|]. cbn in Hj. destruct i as [|i].
  - injection Hi as <-. rewrite List.Forall_forall in Hz. apply Hz. apply list_elem_of_In. now apply list_elem_of_lookup_2 with j.
  - apply (IH i j); auto. lia.
Qed.

Lemma StronglySorted_filter {A} (R : A -> A -> Prop) (P : A -> Prop) `{forall x, Decision (P x)} l : StronglySorted R l -> StronglySorted R (filter P l).
Proof.
  induction 1 as [|x l Hl IH Hx]; [constructor|]. rewrite filter_cons. case_decide; [|exact IH]. constructor; [exact IH|].
  rewrite List.Forall_forall in *. intros y Hy. apply Hx. apply list_elem_of_In in Hy. apply list_elem_of_filter in Hy as [_ Hy]. now apply list_elem_of_In.
Qed.

Lemma StronglySorted_impl {A} (R R' : A -> A -> Prop) l : StronglySorted R l -> (forall x y, x ∈ l -> y ∈ l -> R x y -> R' x y) -> StronglySorted R' l.
Proof.
  induction 1 as [|x l Hl IH Hx]; intros Hi; constructor.
  - apply IH. intros y z Hy Hz. apply Hi; now right.
  - rewrite List.Forall_forall in *. intros y Hy. apply Hi; [now left|right; now apply list_elem_of_In|now apply Hx].
Qed.

(** ** Consistent logs *)

Section Consistent.
Context {T : Type} `{FL : FieldLaws T}.
Notation Op := (MemOp T).

Definition op_writes (op : Op) : bool := to_integer (mo_write op) =? 1.
Definition op_value (op : Op) : Z := to_integer (mo_value op).

(** A log is what a memory does: every read gives the value at the address. *)
Fixpoint replay (m : gmap Z Z) (ops : list Op) : Prop :=
  match ops with
  | [] => True
  | op :: ops' =>
    if op_writes op then replay (<[mo_addr op := op_value op]> m) ops'
    else op_value op = default 0 (m !! mo_addr op) /\ replay m ops'
  end.

(** Operations on the same address happen at increasing steps. *)
Definition chronological : list Op -> Prop := StronglySorted (fun x y => mo_addr x = mo_addr y -> mo_step x < mo_step y).

Definition op_ok (selector_count : nat) (op : Op) : Prop :=
  0 <= mo_addr op < 2 ^ 32 /\ 0 <= mo_step op < 2 ^ 32 /\ (to_integer (mo_write op) = 0 \/ to_integer (mo_write op) = 1) /\
  0 <= mo_selector op < Z.of_nat selector_count.

(** The operations on one address, and the values they see. *)
Definition at_addr (a : Z) : list Op -> list Op := filter (fun op => mo_addr op = a).
Fixpoint chain (v : Z) (ops : list Op) : Prop :=
  match ops with [] => True | op :: ops' => (op_writes op = false -> op_value op = v) /\ chain (op_value op) ops' end.

Lemma replay_chain a ops : forall m, replay m ops -> chain (default 0 (m !! a)) (at_addr a ops).
Proof.
  induction ops as [|op ops IH]; intros m Hr; [exact I|]. cbn in Hr. unfold at_addr. rewrite filter_cons. fold (at_addr a ops). case_decide as Ha.
  - subst a. cbn. destruct (op_writes op).
    + split; [discriminate|]. specialize (IH _ Hr). now rewrite lookup_insert_eq in IH.
    + destruct Hr as [Hv Hr]. split; [auto|]. rewrite Hv. now apply IH.
  - destruct (op_writes op).
    + specialize (IH _ Hr). now rewrite lookup_insert_ne in IH.
    + now apply IH.
Qed.

Lemma chain_app ops1 op ops2 : forall v, chain v (ops1 ++ op :: ops2) -> exists w, (ops1 = [] -> w = v) /\ chain w (op :: ops2) /\
  (forall o, last ops1 = Some o -> w = op_value o).
Proof.
  induction ops1 as [|o ops1 IH]; intros v Hc; cbn in Hc.
  - exists v. split; [auto|]. split; [exact Hc|]. discriminate.
  - destruct Hc as [_ Hc]. destruct (IH _ Hc) as (w & Hw & Hcw & Hl). exists w. split; [discriminate|]. split; [exact Hcw|].
    intros o' Ho'. destruct ops1 as [|o1 ops1]; cbn in *; [injection Ho' as <-; now apply Hw|]. now apply Hl.
Qed.

Lemma key_le_total x y : key_le x y = true \/ key_le y x = true.
Proof. unfold key_le. destruct x, y. cbn. lia. Qed.
Lemma key_le_trans x y z : key_le x y = true -> key_le y z = true -> key_le x z = true.
Proof. unfold key_le. destruct x, y, z. cbn. lia. Qed.

Notation sorted ops := (sort_by_key key_le op_key ops).

Lemma sorted_key (ops : list Op) i j (x y : Op) : sorted ops !! i = Some x -> sorted ops !! j = Some y -> (i < j)%nat -> key_le (op_key x) (op_key y) = true.
Proof. exact (StronglySorted_lookup _ _ (sort_by_key_sorted key_le op_key key_le_total key_le_trans ops) i j x y). Qed.

(** The order of the operations on one address does not change. *)
Lemma sorted_at_addr a ops : chronological ops -> at_addr a (sorted ops) = at_addr a ops.
Proof.
  intros Hc. set (R := fun x y : Op => mo_step x < mo_step y).
  assert (Hchr : StronglySorted R (at_addr a ops)).
  { eapply StronglySorted_impl; [apply StronglySorted_filter, Hc|]. intros x y Hx Hy. apply list_elem_of_filter in Hx as [Hx _]. apply list_elem_of_filter in Hy as [Hy _]. unfold R. intros Hxy. apply Hxy. congruence. }
  assert (Hp : at_addr a (sorted ops) ≡ₚ at_addr a ops) by (apply filter_Permutation, sort_by_key_perm).
  assert (Hnd : forall x y, x ∈ at_addr a ops -> y ∈ at_addr a ops -> mo_step x = mo_step y -> x = y).
  { intros x y [i Hi]%list_elem_of_lookup [j Hj]%list_elem_of_lookup Hxy. destruct (Nat.lt_trichotomy i j) as [Hl|[->|Hl]]; [|congruence|].
    - pose proof (StronglySorted_lookup _ _ Hchr i j x y Hi Hj Hl). unfold R in *. lia.
    - pose proof (StronglySorted_lookup _ _ Hchr j i y x Hj Hi Hl). unfold R in *. lia. }
  apply (StronglySorted_unique_strong (fun x y => mo_step x <= mo_step y)).
  - intros x y Hx Hy Hxy Hyx. rewrite Hp in Hx. apply Hnd; [exact Hx|exact Hy|lia].
  - eapply StronglySorted_impl; [apply StronglySorted_filter, (sort_by_key_sorted key_le (op_key (T:=T))); [apply key_le_total|apply key_le_trans]|].
    intros x y Hx Hy. apply list_elem_of_filter in Hx as [Hx _]. apply list_elem_of_filter in Hy as [Hy _]. unfold by_key, key_le, op_key. cbn. rewrite Hx, Hy. lia.
  - eapply StronglySorted_impl; [exact Hchr|]. unfold R. intros x y _ _. lia.
  - exact Hp.
Qed.

Lemma at_addr_app a l1 l2 : at_addr a (l1 ++ l2) = at_addr a l1 ++ at_addr a l2.
Proof. apply filter_app. Qed.

Lemma at_addr_cons_eq op l : at_addr (mo_addr op) (op :: l) = op :: at_addr (mo_addr op) l.
Proof. unfold at_addr. rewrite filter_cons. case_decide; congruence. Qed.

Lemma at_addr_nil a (l : list Op) : (forall x, x ∈ l -> mo_addr x <> a) -> at_addr a l = [].
Proof.
  intros Hl. induction l as [|x l IH]; [reflexivity|]. unfold at_addr. rewrite filter_cons, decide_False by (apply Hl; now left).
  apply IH. intros y Hy. apply Hl. now right.
Qed.

(** The value an operation sees after the operations before it in the sorted log. *)
Lemma sees (ops l1 l2 : list Op) op : chronological ops -> replay ∅ ops -> sorted ops = l1 ++ op :: l2 -> op_writes op = false ->
  op_value op = match last (at_addr (mo_addr op) l1) with Some o => op_value o | None => 0 end.
Proof.
  intros Hc Hr Hs Hw. pose proof (replay_chain (mo_addr op) ops ∅ Hr) as Hch. rewrite <- sorted_at_addr, Hs, at_addr_app, at_addr_cons_eq, lookup_empty in Hch by exact Hc.
  apply chain_app in Hch as (w & Hnil & [Hv _] & Hl). rewrite (Hv Hw). destruct (last _) as [o|] eqn:Ho; [now apply Hl|]. apply Hnil. now apply last_None.
Qed.

Lemma first_sees (ops : list Op) op : chronological ops -> replay ∅ ops -> sorted ops !! 0%nat = Some op -> op_writes op = false -> op_value op = 0.
Proof.
  intros Hc Hr Hs Hw. destruct (sorted ops) as [|o l] eqn:E; [discriminate|]. injection Hs as ->. now rewrite (sees ops [] l op Hc Hr E Hw).
Qed.

Lemma neighbours (ops : list Op) i op op' : chronological ops -> replay ∅ ops -> sorted ops !! i = Some op -> sorted ops !! S i = Some op' ->
  (mo_addr op < mo_addr op' /\ (op_writes op' = false -> op_value op' = 0)) \/
  (mo_addr op = mo_addr op' /\ mo_step op < mo_step op' /\ (op_writes op' = false -> op_value op' = op_value op)).
Proof.
  intros Hc Hr Hi Hi'. pose proof (sorted_key ops i (S i) op op' Hi Hi' ltac:(lia)) as Hk. unfold key_le, op_key in Hk. cbn in Hk.
  set (l1 := take i (sorted ops)). set (l2 := drop (S (S i)) (sorted ops)).
  assert (Hs : sorted ops = (l1 ++ [op]) ++ op' :: l2).
  { rewrite <- (take_drop_middle (sorted ops) i op Hi) at 1. rewrite <- app_assoc. cbn. do 2 f_equal. symmetry. unfold l2.
    rewrite <- (take_drop_middle (drop (S i) (sorted ops)) 0 op') by (rewrite lookup_drop, Nat.add_0_r; exact Hi'). cbn [take app]. now rewrite drop_drop, Nat.add_1_r. }
  destruct (Z.eq_dec (mo_addr op) (mo_addr op')) as [Ha|Ha].
  - right. split; [exact Ha|]. split.
    + pose proof (sorted_at_addr (mo_addr op') ops Hc) as Hat. rewrite Hs, !at_addr_app, at_addr_cons_eq, <- Ha, at_addr_cons_eq in Hat.
      assert (Hst : StronglySorted (fun x y => mo_addr x = mo_addr y -> mo_step x < mo_step y) (at_addr (mo_addr op) ops)) by (apply StronglySorted_filter, Hc).
      rewrite <- Hat, <- app_assoc in Hst. apply (StronglySorted_lookup _ _ Hst (length (at_addr (mo_addr op) l1)) (S (length (at_addr (mo_addr op) l1)))); try exact Ha; [| |lia].
      * now rewrite lookup_app_r, Nat.sub_diag by lia.
      * rewrite lookup_app_r by lia. replace (_ - _)%nat with 1%nat by lia. reflexivity.
    + intros Hw. rewrite (sees ops _ _ _ Hc Hr Hs Hw), at_addr_app, <- Ha, at_addr_cons_eq. cbn. now rewrite last_snoc.
  - left. split; [lia|]. intros Hw. rewrite (sees ops _ _ _ Hc Hr Hs Hw), at_addr_nil; [reflexivity|].
    intros x [Hx|Hx]%elem_of_app; [|apply list_elem_of_singleton in Hx as ->; exact Ha].
    apply list_elem_of_lookup in Hx as [j Hj]. unfold l1 in Hj. apply lookup_take_Some in Hj as [Hj Hji].
    pose proof (sorted_key ops j i x op Hj Hi Hji) as Hk'. unfold key_le, op_key in Hk'. cbn in Hk'. lia.
Qed.

End Consistent.

(** ** The columns *)

Section Columns.
Context {T : Type} `{LL : LargeFieldLaws T}.
Notation Op := (MemOp T).
Notation sorted ops := (sort_by_key key_le op_key ops).

Definition column (cols : list (string * list T)) (k : nat) : list T := match cols !! k with Some (_, c) => c | None => [] end.
Definition value_at (c : list T) (i : nat) : Z := match c !! i with Some v => to_integer v | None => 0 end.

Lemma memory_row_length n (op : Op) next r : memory_row n op next = Some r -> length r = (Selectors + n)%nat.
Proof.
  unfold memory_row. destruct (change_and_diff op next) as [[c d]|]; [|discriminate]. intros [= <-]. cbn. unfold selector_values. now rewrite length_fmap, length_seq.
Qed.

Lemma memory_rows_lookup n : forall ops rows, memory_rows (T:=T) n ops = Some rows ->
  length rows = length ops /\ forall i op, ops !! i = Some op -> exists r, rows !! i = Some r /\ memory_row n op (ops !! S i) = Some r.
Proof.
  induction ops as [|op ops IH]; intros rows Hr; cbn in Hr.
  - injection Hr as <-. split; [reflexivity|]. intros i op Hi. discriminate.
  - destruct (memory_row n op (head ops)) as [r|] eqn:Hrow; [|discriminate]. destruct (memory_rows n ops) as [rs|]; [|discriminate]. injection Hr as <-.
    destruct (IH rs eq_refl) as [Hl Hrs]. split; [cbn; now rewrite Hl|]. intros [|i] o Ho.
    + injection Ho as <-. exists r. split; [reflexivity|]. now rewrite head_lookup in Hrow.
    + apply Hrs in Ho as (r' & Hr' & Hm). now exists r'.
Qed.

Lemma memory_rows_Some n : forall ops, (forall i op, ops !! i = Some op -> is_Some (memory_row (T:=T) n op (ops !! S i))) -> is_Some (memory_rows n ops).
Proof.
  induction ops as [|op ops IH]; intros Hr; cbn; [now eexists|].
  destruct (Hr 0%nat op eq_refl) as [r Hr0]. change (memory_row n op (ops !! 0%nat) = Some r) in Hr0. rewrite head_lookup, Hr0. cbn. destruct (IH (fun i o Ho => Hr (S i) o Ho)) as [rs ->]. now eexists.
Qed.

(** Rows of one width push one value to each of the first columns. *)
Lemma push_rows_lookup w k : forall rows cols, (w <= length cols)%nat -> Forall (fun r : list T => length r = w) rows -> (k < w)%nat ->
  foldl push_values cols rows !! k = (fun c => c ++ map (fun r => default f_zero (r !! k)) rows) <$> (cols !! k).
Proof.
  induction rows as [|r rows IH]; intros cols Hw Hr Hk; cbn.
  - destruct (cols !! k); cbn; [now rewrite app_nil_r|reflexivity].
  - apply Forall_cons in Hr as [Hr Hrs]. assert (Hlen : length (push_values cols r) = length cols).
    { unfold push_values. rewrite length_app, length_zip_with, length_drop. lia. }
    rewrite IH by (rewrite ?Hlen; assumption). unfold push_values at 1. rewrite lookup_app_l by (rewrite length_zip_with; lia).
    rewrite lookup_zip_with. destruct (lookup_lt_is_Some_2 cols k ltac:(lia)) as [c Hc]. rewrite Hc. destruct (lookup_lt_is_Some_2 r k ltac:(lia)) as [v Hv]. rewrite Hv. cbn. now rewrite <- app_assoc.
Qed.

Lemma push_rows_length : forall rows (cols : list (list T)), Forall (fun r => (length r <= length cols)%nat) rows -> length (foldl push_values cols rows) = length cols.
Proof.
  induction rows as [|r rows IH]; intros cols Hr; cbn; [reflexivity|]. apply Forall_cons in Hr as [Hr Hrs].
  assert (Hlen : length (push_values cols r) = length cols) by (unfold push_values; rewrite length_app, length_zip_with, length_drop; lia).
  rewrite IH; [exact Hlen|]. now rewrite Hlen.
Qed.

Lemma from_int_small z : 0 <= z < 2 -> to_integer (from_int (T:=T) z) = z.
Proof. intros Hz. pose proof (modulus_large (T:=T)). rewrite from_i64_spec by lia. apply Z.mod_small. lia. Qed.

(** The constraints of [memory.asm] between a row and the next one. *)
Notation "a ≡ b" := (eqm modulus a b) (at level 70, no associativity).
Definition sum_selectors (count : nat) (c : nat -> Z) : Z := foldr Z.add 0 (map (fun i => c (Selectors + i)%nat) (seq 0 count)).
Definition memory_constraints (count : nat) (c c' : nat -> Z) (is_last : bool) : Prop :=
  let m_change := c Change in let m_is_write := c IsWrite in let is_mem_op := sum_selectors count c in
  let diff := m_change * (c' Addr - c Addr) + (1 - m_change) * (c' Step - c Step) in
  m_is_write * (1 - m_is_write) ≡ 0 /\ is_mem_op * (1 - is_mem_op) ≡ 0 /\ (1 - is_mem_op) * m_is_write ≡ 0 /\
  (1 - c' IsWrite) * m_change * c' Value ≡ 0 /\
  (1 - m_change) * b2z is_last ≡ 0 /\
  (1 - c' IsWrite) * (1 - m_change) * (c' Value - c Value) ≡ 0 /\
  0 <= c DiffLower < 2 ^ 16 /\ 0 <= c DiffUpper < 2 ^ 16 /\
  m_change * (1 - m_change) ≡ 0 /\
  (c' Addr - c Addr) * (1 - m_change) ≡ 0 /\
  (1 - b2z is_last) * (diff - 1 - c DiffUpper * 2 ^ 16 - c DiffLower) ≡ 0.

Lemma sum_indicator n : forall (start : nat) idx, Z.of_nat start <= idx < Z.of_nat (start + n) ->
  foldr Z.add 0 (map (fun i => if Z.of_nat i =? idx then 1 else 0) (seq start n)) = 1.
Proof.
  assert (Hz : forall m start idx, idx < Z.of_nat start -> foldr Z.add 0 (map (fun i => if Z.of_nat i =? idx then 1 else 0) (seq start m)) = 0).
  { induction m as [|m IH]; intros start idx Hi; cbn [seq map foldr]; [reflexivity|]. rewrite IH by lia. destruct (Z.eqb_spec (Z.of_nat start) idx); lia. }
  induction n as [|n IH]; intros start idx Hi; cbn [seq map foldr]; [lia|]. destruct (Z.eqb_spec (Z.of_nat start) idx).
  - rewrite Hz by lia. lia.
  - rewrite IH by lia. lia.
Qed.

Lemma selector_values_lookup n idx i : (i < n)%nat -> selector_values (T:=T) n idx !! i = Some (if Z.of_nat i =? idx then from_int 1 else from_int 0).
Proof. intros Hi. unfold selector_values. now rewrite list_lookup_fmap, lookup_seq_lt by lia. Qed.

(** The cells of the row of an operation. *)
Lemma row_cells n (op : Op) next r ch diff : op_ok n op -> change_and_diff op next = Some (ch, diff) -> memory_row n op next = Some r ->
  0 <= ch < 2 -> 0 <= diff < 2 ^ 32 ->
  let c k := to_integer (default f_zero (r !! k)) in
  c Addr = mo_addr op /\ c Step = mo_step op /\ c Change = ch /\ c Value = op_value op /\ c IsWrite = to_integer (mo_write op) /\
  c DiffLower = diff mod 2 ^ 16 /\ c DiffUpper = diff / 2 ^ 16 /\ sum_selectors n c = 1.
Proof.
  intros (Ha & Hs & Hwr & Hsel) Hcd Hr Hch Hdiff. unfold memory_row in Hr. rewrite Hcd in Hr. injection Hr as <-. cbn zeta.
  assert (Hd : to_integer (from_u32 (T:=T) (Z.land diff 0xffff)) = diff mod 2 ^ 16 /\ to_integer (from_u32 (T:=T) (Z.shiftr diff 16)) = diff / 2 ^ 16).
  { change 0xffff with (2 ^ 16 - 1). rewrite land_ones_mod, Z.shiftr_div_pow2 by lia. pose proof (Z.mod_pos_bound diff (2 ^ 16)).
    assert (0 <= diff / 2 ^ 16 < 2 ^ 32) by (split; [apply Z.div_pos|apply Z.div_lt_upper_bound]; lia). rewrite !from_u32_spec by (unfold in_width; lia). auto. }
  destruct Hd as [Hd1 Hd2]. cbn -[Z.land Z.shiftr Z.modulo Z.div sum_selectors to_integer Z.pow].
  rewrite (from_u32_spec (mo_addr op)), (from_u32_spec (mo_step op)) by (unfold in_width; lia). rewrite from_int_small by exact Hch. do 5 (split; [reflexivity|]). split; [exact Hd1|]. split; [exact Hd2|].
  unfold sum_selectors. rewrite <- (sum_indicator n 0 (mo_selector op)) by lia. f_equal. apply map_ext_in. intros i [_ Hi]%in_seq.
  transitivity (to_integer (default f_zero (selector_values (T:=T) n (mo_selector op) !! i))); [reflexivity|].
  rewrite selector_values_lookup by lia. cbn. destruct (_ =? _); apply from_int_small; lia.
Qed.

(** The change and the difference between neighbours. *)
Lemma neighbour_diff n (op op' : Op) : op_ok n op -> op_ok n op' ->
  (mo_addr op < mo_addr op' -> change_and_diff op (Some op') = Some (1, mo_addr op' - mo_addr op - 1)) /\
  (mo_addr op = mo_addr op' -> mo_step op < mo_step op' -> change_and_diff op (Some op') = Some (0, mo_step op' - mo_step op - 1)).
Proof.
  intros (Ha & Hs & _) (Ha' & Hs' & _). unfold change_and_diff, checked_sub. split.
  - intros Hlt. rewrite (proj2 (Z.leb_le (mo_addr op) (mo_addr op'))) by lia. cbn. rewrite (proj2 (Z.ltb_lt _ _) Hlt). cbn. rewrite Z.mod_small by lia. reflexivity.
  - intros -> Hlt. rewrite Z.leb_refl, Z.ltb_irrefl. cbn. rewrite (proj2 (Z.leb_le (mo_step op) (mo_step op'))) by lia. cbn. rewrite Z.mod_small by lia. reflexivity.
Qed.

Section Finish.
Variables (m : MemoryMachine T) (n : nat) (degree : Z).
Notation ops := (mm_ops m).
Notation len := (length ops).
Hypothesis Hok : Forall (op_ok n) ops.
Hypothesis Hchr : chronological ops.
Hypothesis Hreplay : replay ∅ ops.
Hypothesis Hcols : length (mm_witness_cols m) = (Selectors + n)%nat.
Hypothesis Hn : (n < 256)%nat.
Hypothesis Hdeg : Z.of_nat len < degree < 2 ^ 32 - 1.
Hypothesis Hsteps : Forall (fun op => mo_step op + degree + 1 < 2 ^ 32) ops.

Lemma sorted_ok i op : sorted ops !! i = Some op -> op ∈ ops /\ op_ok n op.
Proof.
  intros Hi. assert (Hin : op ∈ ops) by (rewrite <- (sort_by_key_perm key_le op_key ops); now apply list_elem_of_lookup_2 with i).
  split; [exact Hin|]. rewrite List.Forall_forall in Hok. apply Hok. now apply list_elem_of_In.
Qed.

Lemma sorted_length : length (sorted ops) = len.
Proof. apply Permutation_length, sort_by_key_perm. Qed.

(** The change of a row, by the next operation. *)
Definition row_diff (op : Op) (next : option Op) : Z * Z :=
  match next with Some op' => if mo_addr op <? mo_addr op' then (1, mo_addr op' - mo_addr op - 1) else (0, mo_step op' - mo_step op - 1) | None => (0, 0) end.

Lemma row_diff_spec i op : sorted ops !! i = Some op ->
  change_and_diff op (sorted ops !! S i) = Some (row_diff op (sorted ops !! S i)) /\
  0 <= fst (row_diff op (sorted ops !! S i)) < 2 /\ 0 <= snd (row_diff op (sorted ops !! S i)) < 2 ^ 32.
Proof.
  intros Hi. destruct (sorted ops !! S i) as [op'|] eqn:Hi'; [|split; [reflexivity|cbn; lia]]. unfold row_diff.
  destruct (sorted_ok i op Hi) as [_ Ho], (sorted_ok (S i) op' Hi') as [_ Ho']. destruct (neighbour_diff n op op' Ho Ho') as [H1' H2'].
  pose proof Ho as (? & ? & _). pose proof Ho' as (? & ? & _).
  destruct (neighbours ops i op op' Hchr Hreplay Hi Hi') as [[Hlt _]|(Heq & Hlt & _)].
  - rewrite (proj2 (Z.ltb_lt _ _) Hlt). split; [now apply H1'|cbn; lia].
  - rewrite Heq, Z.ltb_irrefl. split; [now apply H2'|cbn; lia].
Qed.

Lemma rows_Some : is_Some (memory_rows n (sorted ops)).
Proof. apply memory_rows_Some. intros i op Hi. unfold memory_row. destruct (row_diff_spec i op Hi) as [-> _]. destruct (row_diff _ _). now eexists. Qed.

(** The padding. *)
Definition last_op {A} (f : Op -> A) (d : A) : A := match last (sorted ops) with Some op => f op | None => d end.
Definition pad_value (k i : nat) : Z :=
  if (k =? Addr)%nat then last_op mo_addr 0
  else if (k =? Value)%nat then last_op op_value 0
  else if (k =? Step)%nat then last_op mo_step 0 + 1 + Z.of_nat (i - len)
  else if (k =? Change)%nat then if (i =? Z.to_nat degree - 1)%nat then 1 else 0
  else 0.

Notation d := (Z.to_nat degree).

(** The padding of a column. *)
Definition pad_column (k : nat) (c : list T) : list T :=
  if (k =? Addr)%nat then resize d (from_u32 (last_op mo_addr 0)) c
  else if (k =? Value)%nat then resize d (last_op mo_value (from_int 0)) c
  else if (k =? Step)%nat then c ++ map (fun j => from_u32 (last_op mo_step 0 + 1 + Z.of_nat j)) (seq 0 (Z.to_nat (degree - Z.of_nat len)))
  else if (k =? Change)%nat then <[(d - 1)%nat := from_int 1]> (resize d (from_int 0) c)
  else resize d (from_int 0) c.

Lemma last_op_range : 0 <= last_op mo_addr 0 < 2 ^ 32 /\ 0 <= last_op mo_step 0 /\ last_op mo_step 0 + degree + 1 < 2 ^ 32.
Proof.
  unfold last_op. destruct (last (sorted ops)) as [op|] eqn:Hl; [|lia]. rewrite last_lookup in Hl.
  destruct (sorted_ok _ _ Hl) as [Hin (Ha & Hs & _)]. rewrite List.Forall_forall in Hsteps. specialize (Hsteps op (proj1 (list_elem_of_In _ _) Hin)). lia.
Qed.

Lemma pad_column_length k c : length c = len -> length (pad_column k c) = d.
Proof.
  intros Hc. unfold pad_column. repeat case_match; rewrite ?length_insert, ?length_resize; try reflexivity. rewrite length_app, length_map, length_seq, Hc. lia.
Qed.

Lemma pad_column_old k c i : Z.of_nat len < degree -> length c = len -> (i < len)%nat -> pad_column k c !! i = c !! i.
Proof.
  clear Hok Hchr Hreplay Hcols Hn Hdeg Hsteps n. intros Hdeg Hc Hi. unfold pad_column. repeat case_match; rewrite ?list_lookup_insert_ne by lia; try (apply lookup_resize; lia). apply lookup_app_l. lia.
Qed.

Lemma pad_column_new k c i : length c = len -> (len <= i < d)%nat -> value_at (pad_column k c) i = pad_value k i.
Proof.
  intros Hc Hi. destruct last_op_range as (Ha & Hs & Hsd). unfold value_at, pad_column, pad_value. destruct (k =? Addr)%nat; [|destruct (k =? Value)%nat; [|destruct (k =? Step)%nat; [|destruct (k =? Change)%nat]]].
  - rewrite lookup_resize_new by lia. apply from_u32_spec, Ha.
  - rewrite lookup_resize_new by lia. unfold last_op. destruct (last (sorted ops)); [reflexivity|]. now apply from_int_small.
  - rewrite lookup_app_r, Hc, list_lookup_fmap, lookup_seq_lt by lia. cbn. apply from_u32_spec. unfold in_width. lia.
  - destruct (Nat.eqb_spec i (d - 1)) as [->|Hne].
    + rewrite list_lookup_insert_eq by (rewrite length_resize; lia). now apply from_int_small.
    + rewrite list_lookup_insert_ne, lookup_resize_new by lia. now apply from_int_small.
  - rewrite lookup_resize_new by lia. now apply from_int_small.
Qed.

Lemma finish_cells : exists cols rows, memory_finish degree m = Some cols /\ memory_rows n (sorted ops) = Some rows /\
  forall k, (k < Selectors + n)%nat -> column cols k = pad_column k (map (fun r => default f_zero (r !! k)) rows).
Proof.
  destruct rows_Some as [rows Hrows]. unfold memory_finish. destruct last_op_range as (_ & _ & Hsd). unfold last_op in Hsd.
  assert (Hlen : memory_len m = Z.of_nat len) by (unfold memory_len, as_width; apply Z.mod_small; lia). rewrite Hlen.
  rewrite (proj2 (Z.leb_le (Z.of_nat len) degree)) by lia. rewrite Hcols. rewrite (proj2 (Nat.leb_le Selectors (Selectors + n))) by lia.
  replace (Selectors + n - Selectors)%nat with n by lia. rewrite Nat.mod_small by exact Hn. cbn [assert_that mbind option_bind]. rewrite Hrows. cbn [mbind option_bind].
  rewrite (proj2 (Z.ltb_lt (Z.of_nat len) degree)) by lia. rewrite (proj2 (Z.ltb_lt _ (2 ^ 32))) by lia. cbn [assert_that mbind option_bind].
  eexists _, rows. split; [reflexivity|]. split; [reflexivity|]. intros k Hk.
  destruct (memory_rows_lookup n _ _ Hrows) as [Hrl Hr].
  assert (Hw : Forall (fun r : list T => length r = (Selectors + n)%nat) rows).
  { apply Forall_lookup. intros i r Hi. destruct (lookup_lt_is_Some_2 (sorted ops) i) as [op Hop]; [rewrite <- Hrl; now apply lookup_lt_Some with r|].
    destruct (Hr i op Hop) as (r' & Hr' & Hm). rewrite Hi in Hr'. injection Hr' as <-. now apply memory_row_length in Hm. }
  unfold column. rewrite lookup_zip_with, list_lookup_imap. rewrite (push_rows_lookup (Selectors + n) k rows) by (rewrite ?length_replicate; assumption || lia).
  destruct (lookup_lt_is_Some_2 (mm_witness_cols m) k ltac:(lia)) as [name ->]. rewrite lookup_replicate_2 by exact Hk. reflexivity.
Qed.

(** The cells of a row, with all that the constraints use of them. *)
Definition cells (cols : list (string * list T)) (i k : nat) : Z := value_at (column cols k) i.
Record row_is (c : nat -> Z) (addr step change value write diff selected : Z) : Prop := {
  row_addr : c Addr = addr; row_step : c Step = step; row_change : c Change = change; row_value : c Value = value;
  row_write : c IsWrite = write; row_lower : c DiffLower = diff mod 2 ^ 16; row_upper : c DiffUpper = diff / 2 ^ 16;
  row_sum : sum_selectors n c = selected
}.

Lemma sum_selectors_ext c c' : (forall k, (k < Selectors + n)%nat -> c k = c' k) -> sum_selectors n c = sum_selectors n c'.
Proof. intros Hc. unfold sum_selectors. f_equal. apply map_ext_in. intros i [_ Hi]%in_seq. apply Hc. lia. Qed.

Lemma finish_rows : exists cols, memory_finish degree m = Some cols /\
  (forall k, (k < Selectors + n)%nat -> length (column cols k) = d) /\
  (forall i op, sorted ops !! i = Some op ->
    row_is (cells cols i) (mo_addr op) (mo_step op) (fst (row_diff op (sorted ops !! S i))) (op_value op) (to_integer (mo_write op))
      (snd (row_diff op (sorted ops !! S i))) 1) /\
  (forall i, (len <= i < d)%nat ->
    row_is (cells cols i) (last_op mo_addr 0) (last_op mo_step 0 + 1 + Z.of_nat (i - len)) (if (i =? d - 1)%nat then 1 else 0) (last_op op_value 0) 0 0 0).
Proof.
  destruct finish_cells as (cols & rows & Hf & Hrows & Hcol). destruct (memory_rows_lookup n _ _ Hrows) as [Hrl Hr]. rewrite sorted_length in Hrl.
  assert (Hlm : forall k, length (map (fun r => default f_zero (r !! k)) rows) = len) by (intros k; now rewrite length_map).
  exists cols. split; [exact Hf|]. split; [|split].
  - intros k Hk. rewrite Hcol by exact Hk. now apply pad_column_length.
  - intros i op Hi. destruct (Hr i op Hi) as (r & Hri & Hrow). destruct (row_diff_spec i op Hi) as (Hcd & Hch & Hd). destruct (row_diff op _) as [ch diff].
    destruct (row_cells n op _ r ch diff (proj2 (sorted_ok i op Hi)) Hcd Hrow Hch Hd) as (R1 & R2 & R3 & R4 & R5 & R6 & R7 & R8).
    assert (Hil : (i < len)%nat) by (rewrite <- sorted_length; now apply lookup_lt_Some with op).
    assert (Hc : forall k, (k < Selectors + n)%nat -> cells cols i k = to_integer (default f_zero (r !! k))).
    { intros k Hk. unfold cells, value_at. rewrite Hcol, pad_column_old, list_lookup_fmap, Hri by first [exact Hk|lia|auto]. reflexivity. }
    unfold Selectors in Hc. split; rewrite ?Hc by (unfold Addr, Step, Change, Value, IsWrite, DiffLower, DiffUpper; lia); try assumption.
    rewrite <- R8. apply sum_selectors_ext. exact Hc.
  - intros i Hi. assert (Hc : forall k, (k < Selectors + n)%nat -> cells cols i k = pad_value k i).
    { intros k Hk. unfold cells. rewrite Hcol by exact Hk. now apply pad_column_new. }
    split; rewrite ?Hc by (unfold Selectors, Addr, Step, Change, Value, IsWrite, DiffLower, DiffUpper; lia); try reflexivity.
    rewrite (sum_selectors_ext _ (fun k => pad_value k i) Hc). unfold sum_selectors. induction (seq 0 n) as [|j l IH]; cbn [map foldr]; [reflexivity|]. rewrite IH. reflexivity.
Qed.

Ltac zero := match goal with |- ?a ≡ 0 => replace a with 0 by nia; reflexivity end.

(** Two rows in a row satisfy the constraints. *)
Lemma rows_constraints c c' is_last addr step ch value write diff sel addr' step' ch' value' write' diff' sel' :
  row_is c addr step ch value write diff sel -> row_is c' addr' step' ch' value' write' diff' sel' ->
  (write = 0 \/ write = 1) -> (write' = 0 \/ write' = 1) -> (sel = 1 \/ sel = 0 /\ write = 0) -> 0 <= diff < 2 ^ 32 ->
  (ch = 1 /\ (write' = 0 -> value' = 0) /\ (is_last = false -> diff = addr' - addr - 1) \/
   ch = 0 /\ is_last = false /\ addr' = addr /\ diff = step' - step - 1 /\ (write' = 0 -> value' = value)) ->
  memory_constraints n c c' is_last.
Proof.
  clear Hok Hchr Hreplay Hcols Hn Hdeg Hsteps.
  intros [Ea Es Ec Ev Ew El Eu Esel] [Ea' Es' _ Ev' Ew' _ _ _] Hw Hw' Hsel Hdiff Hch. unfold memory_constraints.
  rewrite Ea, Es, Ec, Ev, Ew, El, Eu, Esel, Ea', Es', Ev', Ew'. clear Ea Es Ec Ev Ew Esel Ea' Es' Ev' Ew'.
  pose proof (Z.mod_pos_bound diff (2 ^ 16) ltac:(lia)) as Hm. assert (Hd : 0 <= diff / 2 ^ 16 < 2 ^ 16) by (split; [apply Z.div_pos|apply Z.div_lt_upper_bound]; lia).
  assert (Hsplit : diff = diff / 2 ^ 16 * 2 ^ 16 + diff mod 2 ^ 16) by (rewrite Z.mul_comm; apply Z.div_mod; lia).
  set (lo := diff mod 2 ^ 16) in *. set (hi := diff / 2 ^ 16) in *. clearbody lo hi. clear El Eu.
  destruct Hch as [(-> & Hv & Hdf)|(-> & -> & -> & Hdf & Hv)].
  - repeat match goal with |- _ /\ _ => split end; try lia.
    1,2,3: destruct Hw as [-> | ->], Hsel as [-> |[-> ?]]; try lia; reflexivity.
    1: destruct Hw' as [-> | ->]; [rewrite Hv by reflexivity|]; reflexivity.
    1,2,3,4: zero.
    destruct is_last; cbn [b2z]; [zero|]. rewrite Hdf in Hsplit by reflexivity. zero.
  - cbn [b2z]. repeat match goal with |- _ /\ _ => split end; try lia.
    1,2,3: destruct Hw as [-> | ->], Hsel as [-> |[-> ?]]; try lia; reflexivity.
    1,2: zero.
    1: destruct Hw' as [-> | ->]; [rewrite Hv by reflexivity|]; zero.
    all: zero.
Qed.

Lemma last_op_sorted {A} (f : Op -> A) dflt op : sorted ops !! (len - 1)%nat = Some op -> last_op f dflt = f op.
Proof. intros Hl. unfold last_op. rewrite last_lookup, sorted_length. replace (Nat.pred len) with (len - 1)%nat by lia. now rewrite Hl. Qed.

Lemma finish_satisfies : exists cols, memory_finish degree m = Some cols /\
  (forall k, (k < Selectors + n)%nat -> length (column cols k) = d) /\
  forall i, (i < d)%nat -> memory_constraints n (cells cols i) (cells cols ((i + 1) mod d)%nat) (i =? d - 1)%nat.
Proof.
  destruct finish_rows as (cols & Hf & Hl & Hop & Hpad). exists cols. split; [exact Hf|]. split; [exact Hl|]. intros i Hi.
  destruct (Nat.lt_ge_cases i len) as [Hil|Hil].
  - destruct (lookup_lt_is_Some_2 (sorted ops) i ltac:(now rewrite sorted_length)) as [op Hiop].
    destruct (sorted_ok i op Hiop) as [_ (_ & _ & Hw & _)]. destruct (row_diff_spec i op Hiop) as (_ & _ & Hdr). pose proof (Hop i op Hiop) as Hrow.
    rewrite Nat.mod_small by lia. rewrite (proj2 (Nat.eqb_neq i (d - 1))) by lia. replace (i + 1)%nat with (S i) by lia.
    destruct (Nat.lt_ge_cases (S i) len) as [HSi|HSi].
    + destruct (lookup_lt_is_Some_2 (sorted ops) (S i) ltac:(now rewrite sorted_length)) as [op' Hiop'].
      destruct (sorted_ok (S i) op' Hiop') as [_ (_ & _ & Hw' & _)]. rewrite Hiop' in Hrow, Hdr.
      refine (rows_constraints _ _ _ _ _ _ _ _ _ _ _ _ _ _ _ _ _ Hrow (Hop (S i) op' Hiop') Hw Hw' (or_introl eq_refl) Hdr _).
      assert (Hwv : to_integer (mo_write op') = 0 -> op_writes op' = false) by (unfold op_writes; intros ->; reflexivity).
      unfold row_diff. destruct (neighbours ops i op op' Hchr Hreplay Hiop Hiop') as [[Hlt Hv]|(Heq & Hlt & Hv)].
      * left. rewrite (proj2 (Z.ltb_lt _ _) Hlt). cbn. auto.
      * right. rewrite Heq, Z.ltb_irrefl. cbn. repeat split; auto.
    + assert (Hlast : forall A (f : Op -> A) dflt, last_op f dflt = f op) by (intros; apply last_op_sorted; replace (len - 1)%nat with i by lia; exact Hiop).
      assert (Hnone : sorted ops !! S i = None) by (apply lookup_ge_None_2; rewrite sorted_length; lia). rewrite Hnone in Hrow, Hdr.
      pose proof (Hpad (S i) ltac:(lia)) as Hnext. rewrite !Hlast in Hnext.
      refine (rows_constraints _ _ _ _ _ _ _ _ _ _ _ _ _ _ _ _ _ Hrow Hnext Hw (or_introl eq_refl) (or_introl eq_refl) Hdr _).
      right. cbn. replace (S i - len)%nat with 0%nat by lia. repeat split; lia.
  - pose proof (Hpad i ltac:(lia)) as Hrow. destruct (Nat.eqb_spec i (d - 1)) as [->|Hne].
    + replace ((d - 1 + 1) mod d)%nat with 0%nat by (replace (d - 1 + 1)%nat with d by lia; now rewrite Nat.Div0.mod_same).
      assert (Hfirst : exists a s ch v w df sl, row_is (cells cols 0) a s ch v w df sl /\ (w = 0 \/ w = 1) /\ (w = 0 -> v = 0)).
      { destruct (Nat.lt_ge_cases 0 len) as [H0len|H0len].
        - destruct (lookup_lt_is_Some_2 (sorted ops) 0 ltac:(rewrite sorted_length; lia)) as [op Hiop]. destruct (sorted_ok 0 op Hiop) as [_ (_ & _ & Hw & _)].
          do 7 eexists. split; [exact (Hop 0%nat op Hiop)|]. split; [exact Hw|]. intros Hz. apply (first_sees ops op Hchr Hreplay Hiop). unfold op_writes. now rewrite Hz.
        - do 7 eexists. split; [exact (Hpad 0%nat ltac:(lia))|]. split; [auto|]. intros _. unfold last_op.
          assert (Hnil : sorted ops = []) by (apply length_zero_iff_nil; rewrite sorted_length; lia). now rewrite Hnil. }
      destruct Hfirst as (a & s & ch & v & w & df & sl & Hnext & Hw & Hv).
      refine (rows_constraints _ _ _ _ _ _ _ _ _ _ _ _ _ _ _ _ _ Hrow Hnext (or_introl eq_refl) Hw (or_intror (conj eq_refl eq_refl)) ltac:(lia) _).
      left. split; [reflexivity|]. split; [exact Hv|]. discriminate.
    + rewrite Nat.mod_small by lia. pose proof (Hpad (i + 1)%nat ltac:(lia)) as Hnext.
      refine (rows_constraints _ _ _ _ _ _ _ _ _ _ _ _ _ _ _ _ _ Hrow Hnext (or_introl eq_refl) (or_introl eq_refl) (or_intror (conj eq_refl eq_refl)) ltac:(lia) _).
      right. repeat split; lia.
Qed.

End Finish.
(** The rows of the operations, whatever the log. *)
Lemma finish_inv (m : MemoryMachine T) n degree cols : memory_finish degree m = Some cols ->
  length (mm_witness_cols m) = (Selectors + n)%nat -> (n < 256)%nat -> Z.of_nat (length (mm_ops m)) < 2 ^ 32 -> (length (mm_ops m) <= Z.to_nat degree)%nat /\
  forall i op, sorted (mm_ops m) !! i = Some op -> exists r, memory_row n op (sorted (mm_ops m) !! S i) = Some r /\
    forall k, (k < Selectors + n)%nat -> cells cols i k = to_integer (default f_zero (r !! k)).
Proof.
  intros Hf Hcols Hn Hl. unfold memory_finish in Hf.
  assert (Hlen : memory_len m = Z.of_nat (length (mm_ops m))) by (unfold memory_len, as_width; apply Z.mod_small; lia). rewrite Hlen, Hcols in Hf.
  destruct (Z.leb_spec (Z.of_nat (length (mm_ops m))) degree) as [Hle|]; [|discriminate]. rewrite (proj2 (Nat.leb_le Selectors (Selectors + n))) in Hf by lia.
  replace (Selectors + n - Selectors)%nat with n in Hf by lia. rewrite Nat.mod_small in Hf by exact Hn. cbn [assert_that mbind option_bind] in Hf.
  destruct (memory_rows n _) as [rows|] eqn:Hrows; [|discriminate]. cbn [mbind option_bind] in Hf. split; [lia|].
  destruct (memory_rows_lookup n _ _ Hrows) as [Hrl Hr]. rewrite sorted_length in Hrl. intros i op Hi. destruct (Hr i op Hi) as (r & Hri & Hrow). exists r. split; [exact Hrow|].
  assert (Hil : (i < length (mm_ops m))%nat) by (rewrite <- Hrl; now apply lookup_lt_Some with r).
  assert (Hw : Forall (fun r : list T => length r = (Selectors + n)%nat) rows).
  { apply Forall_lookup. intros j s Hj. destruct (lookup_lt_is_Some_2 (sorted (mm_ops m)) j) as [o Ho]; [rewrite sorted_length, <- Hrl; now apply lookup_lt_Some with s|].
    destruct (Hr j o Ho) as (r' & Hr' & Hm). rewrite Hj in Hr'. injection Hr' as <-. now apply memory_row_length in Hm. }
  intros k Hk. set (c := map (fun r => default f_zero (r !! k)) rows).
  assert (Hcl : length c = length (mm_ops m)) by (unfold c; now rewrite length_map).
  assert (Hpush : foldl push_values (replicate (Selectors + n) []) rows !! k = Some c).
  { etransitivity; [apply (push_rows_lookup (Selectors + n) k rows); [now rewrite length_replicate|exact Hw|exact Hk]|]. now rewrite lookup_replicate_2 by exact Hk. }
  destruct (lookup_lt_is_Some_2 (mm_witness_cols m) k ltac:(lia)) as [name Hname].
  assert (Hval : value_at c i = to_integer (default f_zero (r !! k))) by (unfold value_at, c; now rewrite list_lookup_fmap, Hri).
  destruct (Z.ltb_spec (Z.of_nat (length (mm_ops m))) degree) as [Hlt|Hge].
  - destruct (_ + _ + 1 <? 2 ^ 32); [|discriminate]. cbn [assert_that mbind option_bind] in Hf. apply Some_inj in Hf. rewrite <- Hf. clear Hf.
    unfold cells, column. rewrite lookup_zip_with, list_lookup_imap, Hname, Hpush. cbn [fmap option_fmap option_map mbind option_bind].
    transitivity (value_at (pad_column m degree k c) i); [reflexivity|]. rewrite <- Hval. unfold value_at. now rewrite pad_column_old by assumption.
  - apply Some_inj in Hf. rewrite <- Hf. clear Hf. unfold cells, column. now rewrite lookup_zip_with, Hname, Hpush.
Qed.

End Columns.

(** ** The machine is correct *)

Section Machine.
Context {T : Type} `{LL : LargeFieldLaws T}.
Notation Op := (MemOp T).
Notation sorted ops := (sort_by_key key_le op_key ops).

(** C7: The memory machine produces a witness. Let the operations of the machine be such that those of one
    address come in the order of their steps, and that each read returns the value last written (zero
    before the first write). Then for every degree strictly above the number of operations and small enough
    for the steps of the padding to stay below [2 ^ 32], [finish] does not panic,
    returns columns of that length, and each pair of cyclically adjacent rows satisfies the constraints of
    [std/machines/large_field/memory.asm]: it sorts by address and step, computes differences and change
    flags, and pads. *)
Theorem memory_machine_satisfies (m : MemoryMachine T) (n : nat) (degree : Z) :
  length (mm_witness_cols m) = (Selectors + n)%nat -> (n < 256)%nat ->
  Forall (op_ok n) (mm_ops m) -> chronological (mm_ops m) -> replay ∅ (mm_ops m) ->
  Z.of_nat (length (mm_ops m)) < degree < 2 ^ 32 - 1 -> Forall (fun op => mo_step op + degree + 1 < 2 ^ 32) (mm_ops m) ->
  exists cols, memory_finish degree m = Some cols /\
    (forall k, (k < Selectors + n)%nat -> length (column cols k) = Z.to_nat degree) /\
    forall i, (i < Z.to_nat degree)%nat ->
      memory_constraints n (cells cols i) (cells cols ((i + 1) mod Z.to_nat degree)%nat) (i =? Z.to_nat degree - 1)%nat.
Proof. intros Hcols Hn Hok Hchr Hreplay Hdeg Hsteps. now apply finish_satisfies. Qed.

Lemma not_eqm_small (a : Z) : - 2 ^ 33 < a < 2 ^ 33 -> a <> 0 -> ~ eqm modulus a 0.
Proof. intros Ha Hn [k Hk]. pose proof (modulus_large (T:=T)). assert (- 1 < k) by nia. assert (k < 1) by nia. assert (k = 0) as -> by lia. lia. Qed.

Lemma row_head n (op : Op) next r : op_ok n op -> memory_row n op next = Some r ->
  to_integer (default f_zero (r !! Addr)) = mo_addr op /\ to_integer (default f_zero (r !! Step)) = mo_step op.
Proof.
  intros (Ha & Hs & _) Hr. unfold memory_row in Hr. destruct (change_and_diff op next) as [[c d]|]; [|discriminate]. injection Hr as <-.
  split; apply from_u32_spec; assumption.
Qed.

(** The converse bound: when the columns that [finish] returns for a non-empty machine do satisfy the
    constraints, then there is at least one row of padding and no two operations agree in address and step.
    So a machine whose number of operations is exactly its degree (a power of two) has an invalid witness,
    and so has every program that accesses a register twice in the same step. *)
Theorem satisfied_machine_is_padded (m : MemoryMachine T) (n : nat) (degree : Z) cols :
  length (mm_witness_cols m) = (Selectors + n)%nat -> (n < 256)%nat -> Forall (op_ok n) (mm_ops m) -> Z.of_nat (length (mm_ops m)) < 2 ^ 32 ->
  memory_finish degree m = Some cols ->
  (forall i, (i < Z.to_nat degree)%nat ->
    memory_constraints n (cells cols i) (cells cols ((i + 1) mod Z.to_nat degree)%nat) (i =? Z.to_nat degree - 1)%nat) ->
  mm_ops m <> [] -> Z.of_nat (length (mm_ops m)) < degree /\ NoDup (op_key <$> mm_ops m).
Proof.
  intros Hcols Hn Hok Hl Hf Hall Hne. destruct (finish_inv m n degree cols Hf Hcols Hn Hl) as [Hle Hrow].
  assert (Hpos : (0 < length (mm_ops m))%nat) by (destruct (mm_ops m); [easy|cbn; lia]).
  assert (Hsok : forall i op, sorted (mm_ops m) !! i = Some op -> op_ok n op) by (intros i op Hi; exact (proj2 (sorted_ok m n Hok i op Hi))).
  split.
  - destruct (Z.lt_ge_cases (Z.of_nat (length (mm_ops m))) degree) as [|Hge]; [assumption|]. exfalso.
    assert (Hd : Z.to_nat degree = length (mm_ops m)) by lia. set (i := (length (mm_ops m) - 1)%nat).
    destruct (lookup_lt_is_Some_2 (sorted (mm_ops m)) i ltac:(rewrite sorted_length; lia)) as [op Hop].
    destruct (Hrow i op Hop) as (r & Hr & Hc). rewrite (lookup_ge_None_2 (sorted (mm_ops m)) (S i)) in Hr by (rewrite sorted_length; lia).
    destruct (row_cells n op None r 0 0 (Hsok i op Hop) eq_refl Hr ltac:(lia) ltac:(lia)) as (_ & _ & Hch & _).
    destruct (Hall i ltac:(lia)) as (_ & _ & _ & _ & Hlast & _). rewrite (proj2 (Nat.eqb_eq i (Z.to_nat degree - 1))) in Hlast by lia.
    rewrite Hc, Hch in Hlast by (unfold Selectors, Change; lia). cbn in Hlast. revert Hlast. apply not_eqm_small; lia.
  - apply (NoDup_Permutation_proper _ (op_key <$> sorted (mm_ops m))); [now rewrite sort_by_key_perm|]. apply NoDup_alt.
    assert (Hadj : forall i op op', sorted (mm_ops m) !! i = Some op -> sorted (mm_ops m) !! S i = Some op' -> op_key op <> op_key op').
    { intros i op op' Hi Hi' Hkey. unfold op_key in Hkey. injection Hkey as Ha Hs. pose proof (lookup_lt_Some _ _ _ Hi') as Hlt. rewrite sorted_length in Hlt.
      assert (Hcd : change_and_diff op (Some op') = Some (0, 2 ^ 32 - 1)).
      { unfold change_and_diff, checked_sub. rewrite Ha, Hs, !Z.leb_refl, Z.ltb_irrefl, Z.sub_diag. reflexivity. }
      destruct (Hrow i op Hi) as (r & Hr & Hc). rewrite Hi' in Hr.
      destruct (row_cells n op _ r 0 (2 ^ 32 - 1) (Hsok i op Hi) Hcd Hr ltac:(lia) ltac:(lia)) as (R1 & R2 & R3 & _ & _ & R6 & R7 & _).
      destruct (Hrow (S i) op' Hi') as (r' & Hr' & Hc').
      destruct (Hall i ltac:(lia)) as (_ & _ & _ & _ & _ & _ & _ & _ & _ & _ & Hdiff). rewrite (proj2 (Nat.eqb_neq i (Z.to_nat degree - 1))), Nat.mod_small in Hdiff by lia.
      replace (i + 1)%nat with (S i) in Hdiff by lia. destruct (row_head n op' _ r' (Hsok (S i) op' Hi') Hr') as [R1' R2'].
      rewrite !Hc, !Hc', R1, R2, R3, R6, R7, R1', R2', Ha, Hs in Hdiff by (unfold Selectors, Addr, Step, Change, DiffLower, DiffUpper; lia).
      revert Hdiff. rewrite !Z.sub_diag. change ((2 ^ 32 - 1) / 2 ^ 16) with 65535. change ((2 ^ 32 - 1) mod 2 ^ 16) with 65535. apply not_eqm_small; cbn [b2z]; lia. }
    assert (Hlt : forall i j k, (op_key <$> sorted (mm_ops m)) !! i = Some k -> (op_key <$> sorted (mm_ops m)) !! j = Some k -> ~ (i < j)%nat).
    { intros i j k Hi Hj Hij. rewrite list_lookup_fmap in Hi, Hj. apply fmap_Some in Hi as (x & Hx & ->), Hj as (y & Hy & Hxy).
      destruct (lookup_lt_is_Some_2 (sorted (mm_ops m)) (S i)) as [z Hz]; [apply lookup_lt_Some in Hy; lia|]. apply (Hadj i x z Hx Hz).
      pose proof (sorted_key _ i (S i) x z Hx Hz ltac:(lia)) as K1. destruct (Nat.eq_dec (S i) j) as [<-|Hne'].
      - rewrite Hy in Hz. now injection Hz as <-.
      - pose proof (sorted_key _ (S i) j z y Hz Hy ltac:(lia)) as K2. rewrite <- Hxy in K2. unfold key_le, op_key in *. cbn in *. f_equal; lia. }
    intros i j k Hi Hj. destruct (Nat.lt_trichotomy i j) as [H'|[H'|H']]; [|exact H'|]; exfalso; [now apply (Hlt i j k)|now apply (Hlt j i k)].
Qed.

End Machine.

(** ** A log of three operations *)

Module Demo.
Notation GL := GoldilocksField.

Definition log : list (MemOp GL) :=
  [mkMemOp 5 1 (from_int 7) (from_int 1) 1; mkMemOp 3 2 (from_int 0) (from_int 0) 0; mkMemOp 5 5 (from_int 7) (from_int 0) 0].
Definition machine : MemoryMachine GL := mkMemoryMachine "main_memory" log (replicate 9 "main_memory::col"%string).

Lemma log_ok : Forall (op_ok 2) log.
Proof.
  unfold log. repeat (apply List.Forall_cons; [|]); [..|apply List.Forall_nil];
    (split; [cbn; lia|split; [cbn; lia|split; [first [left; vm_compute; reflexivity|right; vm_compute; reflexivity]|cbn; lia]]]).
Qed.
Lemma log_chronological : chronological log.
Proof. unfold chronological, log. repeat (apply SSorted_cons; [|]); try apply SSorted_nil; repeat (apply List.Forall_cons; [cbn; lia|]); apply List.Forall_nil. Qed.
Lemma log_replay : replay ∅ log.
Proof. vm_compute. auto. Qed.
Lemma log_steps : Forall (fun op => mo_step op + 8 + 1 < 2 ^ 32) log.
Proof. unfold log. repeat (apply List.Forall_cons; [cbn; lia|]). apply List.Forall_nil. Qed.

Lemma memory_machine_satisfies_witness : exists cols, memory_finish 8 machine = Some cols /\
  (forall k, (k < Selectors + 2)%nat -> length (column cols k) = 8%nat) /\
  forall i, (i < 8)%nat -> memory_constraints 2 (cells cols i) (cells cols ((i + 1) mod 8)%nat) (i =? 7)%nat.
Proof.
  exact (memory_machine_satisfies machine 2 8 eq_refl ltac:(lia) log_ok log_chronological log_replay ltac:(cbn; lia) log_steps).
Defined.

Lemma satisfied_machine_is_padded_witness : Z.of_nat (length log) < 8 /\ NoDup (op_key <$> log).
Proof.
  destruct (finish_satisfies machine 2 8 log_ok log_chronological log_replay eq_refl ltac:(lia) ltac:(cbn; lia) log_steps) as (cols & Hf & _ & Hall).
  exact (satisfied_machine_is_padded machine 2 8 cols eq_refl ltac:(lia) log_ok ltac:(cbn; lia) Hf Hall ltac:(discriminate)).
Defined.

(** The log fills a machine of four rows less one, but not one of three rows. *)
Example full_machine : is_Some (memory_finish 3 machine).
Proof. vm_compute. now eexists. Qed.

End Demo.
