(* ===== verification/DoubleSorted.v ===== *)
(** * The memory machine of witness generation, [executor/src/witgen/machines/double_sorted_witness_machine_32.rs]

    Its construction, the calls of other machines ([process_plookup_internal]) with the paged
    data they read and write, and the columns it returns. The calls refine a map of memory. *)

From Stdlib Require Import ZArith Lia Ascii.
From stdpp Require Import base list option gmap strings sorting.
From S2P Require Import Prelude Field RangeConstraints SymbolicExpr Effect ExpressionEvaluator PanicMonad RiscvElem RiscvMemory.

Definition ALLOWED_WITNESSES : list string :=
  ["m_value"; "m_addr"; "m_step"; "m_change"; "m_is_write"; "m_is_bootloader_write"; "m_diff_upper"; "m_diff_lower"].
Definition DIFF_COLUMNS : list string := ["m_diff_upper"; "m_diff_lower"].
Definition BOOTLOADER_WRITE_COLUMN : string := "m_is_bootloader_write".
Definition OPERATION_ID_WRITE : Z := 1.
Definition OPERATION_ID_BOOTLOADER_WRITE : Z := 2.

(** The parts before and after the first ["::"]. *)
Fixpoint split_once (s : string) : option (string * string) :=
  match s with
  | EmptyString => None
  | String a s' =>
    match s' with
    | String b s'' =>
      if Ascii.eqb a ":"%char && Ascii.eqb b ":"%char then Some (EmptyString, s'')
      else '(x, y) ← split_once s'; Some (String a x, y)
    | EmptyString => None
    end
  end.

(** A name without ["::"] panics. *)
Definition split_column_name (name : string) : option (string * string) :=
  '(namespace, rest) ← split_once name;
  Some (namespace, match split_once rest with Some (col, _) => col | None => rest end).

(** ** [DegreeRange], [ast/src/analyzed/mod.rs] *)

Record DegreeRange := mkDegreeRange { range_min : Z; range_max : Z }.

Definition degree_fit (r : DegreeRange) (new_degree : Z) : option Z :=
  _ ← assert_that (new_degree <=? range_max r); Some (Z.max (range_min r) new_degree).

(** [usize::next_power_of_two]; [None] is the overflow. *)
Definition usize_next_power_of_two (n : Z) : option Z := let p := 2 ^ Z.log2_up n in if p <? 2 ^ 64 then Some p else None.

Definition compute_size_and_log (used_rows : Z) (r : DegreeRange) : option Z := size ← usize_next_power_of_two used_rows; degree_fit r size.

Section DoubleSorted.
Context {T : Type} `{LargeField T}.

(** ** Paged data *)

Definition PAGE_SIZE_LOG2 : Z := 8.
Definition PAGE_SIZE : Z := Z.shiftl 1 PAGE_SIZE_LOG2.
Definition PAGE_MASK : Z := PAGE_SIZE - 1.

Record PagedData := mkPagedData { pages : gmap Z (list T); first_page : list T }.

Definition page_offset (addr : T) : option (Z * nat) :=
  a ← try_into_u64 addr; Some (Z.shiftr a PAGE_SIZE_LOG2, Z.to_nat (Z.land a PAGE_MASK)).

Definition fresh_page : list T := replicate (Z.to_nat PAGE_SIZE) (from_int 0).
Definition default_data : PagedData := mkPagedData ∅ fresh_page.

Definition data_write (addr value : T) (d : PagedData) : option PagedData :=
  '(page, offset) ← page_offset addr;
  if page =? 0 then
    _ ← assert_that (offset <? length (first_page d))%nat;
    Some (mkPagedData (pages d) (<[offset := value]> (first_page d)))
  else
    let p := default fresh_page (pages d !! page) in
    _ ← assert_that (offset <? length p)%nat;
    Some (mkPagedData (<[page := <[offset := value]> p]> (pages d)) (first_page d)).

Definition data_read (addr : T) (d : PagedData) : option T :=
  '(page, offset) ← page_offset addr;
  if page =? 0 then first_page d !! offset
  else match pages d !! page with Some p => p !! offset | None => Some f_zero end.

(** ** The machine *)

Record Operation := mkOperation { is_normal_write : bool; is_bootloader_write : bool; value : T; selector_id : PolyID }.

(** The trace is a [BTreeMap] by address and step: sorted, with distinct keys. *)
Definition Access : Type := (T * T) * Operation.

Definition access_key (x : T * T) : Z * Z := (to_integer (fst x), to_integer (snd x)).
Definition key_eqb (x y : Z * Z) : bool := (fst x =? fst y) && (snd x =? snd y).

(** [BTreeMap::insert]: the new map, and whether the key was absent. *)
Fixpoint trace_insert (key : T * T) (op : Operation) (l : list Access) : list Access * bool :=
  match l with
  | [] => ([(key, op)], true)
  | (k, o) :: l' =>
    if key_eqb (access_key key) (access_key k) then ((key, op) :: l', false)
    else if key_le (access_key key) (access_key k) then ((key, op) :: l, true)
    else let '(l'', fresh) := trace_insert key op l' in ((k, o) :: l'', fresh)
  end.

(** What a machine is built with; the selectors are a [BTreeMap]: sorted by the identity. *)
Record DsConfig := mkDsConfig {
  degree_range : DegreeRange;
  namespace : string;
  diff_columns_base : option Z;
  has_bootloader_write_column : bool;
  selector_ids : list (Z * PolyID);
  column_name : PolyID -> string
}.

(** What changes; the keys of the maps are the integers of the addresses. *)
Record DsState := mkDsState {
  ds_degree : Z;
  ds_trace : list Access;
  ds_data : PagedData;
  ds_initialized : gmap Z bool;
  ds_latest_step : gmap Z T
}.

Definition set_ds_trace t (s : DsState) := mkDsState (ds_degree s) t (ds_data s) (ds_initialized s) (ds_latest_step s).
Definition set_ds_data d (s : DsState) := mkDsState (ds_degree s) (ds_trace s) d (ds_initialized s) (ds_latest_step s).
Definition set_ds_initialized i (s : DsState) := mkDsState (ds_degree s) (ds_trace s) (ds_data s) i (ds_latest_step s).
Definition set_ds_latest_step l (s : DsState) := mkDsState (ds_degree s) (ds_trace s) (ds_data s) (ds_initialized s) l.

Definition ds_init (cfg : DsConfig) : DsState := mkDsState (range_max (degree_range cfg)) [] default_data ∅ ∅.

Definition namespaced (cfg : DsConfig) (name : string) : string := namespace cfg +:+ "::" +:+ name.

(** *** Construction *)

(** What the constructor reads of [MachineParts] and [FixedData]: the connections by identity
    are whether each is a permutation, and its selector; [parts_range] finds a column by name
    and gives its global range constraint. *)
Record Parts := mkParts {
  parts_degree_range : DegreeRange;
  parts_witnesses : list PolyID;
  parts_connections : list (Z * (bool * AlgebraicExpression T));
  parts_column_name : PolyID -> string;
  parts_range : string -> option (RangeConstraint T)
}.

Definition in_strings (l : list string) (c : string) : bool := bool_decide (c ∈ l).

(** The outer [None] is a panic, the inner one that the machine is of another kind. *)
Definition try_new (parts : Parts) : option (option DsConfig) :=
  names ← mapM (fun r => split_column_name (parts_column_name parts r)) (parts_witnesses parts);
  let namespaces := remove_dups (fst <$> names) in
  let columns := snd <$> names in
  if (1 <? length namespaces)%nat then Some None
  else if bool_decide (parts_connections parts = []) then Some None
  else if negb (forallb (fun i => fst (snd i)) (parts_connections parts)) then Some None
  else
    match mapM (fun i => p ← try_to_simple_poly (snd (snd i)); Some (fst i, ref_poly_id p)) (parts_connections parts) with
    | None => Some None
    | Some ids =>
      ns ← head namespaces;
      selector_names ← mapM (fun s => snd <$> split_column_name (parts_column_name parts s)) (snd <$> ids);
      if negb (forallb (in_strings (ALLOWED_WITNESSES ++ selector_names)) columns) then Some None
      else
        let has_diff_columns := forallb (in_strings columns) DIFF_COLUMNS in
        let has_bootloader := in_strings columns BOOTLOADER_WRITE_COLUMN in
        let machine base := mkDsConfig (parts_degree_range parts) ns base has_bootloader ids (parts_column_name parts) in
        if has_diff_columns then
          match parts_range parts (ns +:+ "::" +:+ "m_diff_upper"), parts_range parts (ns +:+ "::" +:+ "m_diff_lower") with
          | Some upper, Some lower =>
            let '(min, max) := rc_range upper in
            if rc_eqb upper lower && f_eqb min f_zero then
              m ← try_into_u64 max; base ← checked_add 64 m 1; Some (Some (machine (Some base)))
            else Some None
          | _, _ => Some None
          end
        else Some (Some (machine None))
    end.

(** *** Calls *)

Inductive LookupCell := Input (v : T) | Output (v : T).
Inductive PlookupResult := POk (processed : bool) | ConstraintUnsatisfiable | RowsExhausted.

Definition known_cell (c : LookupCell) : option T := match c with Input v => Some v | Output _ => None end.

Notation MS := (M DsState).

(** Recording an access, and the checks after it. *)
Definition finish_access (addr step : T) (op : Operation) (cells : list LookupCell) : MS (PlookupResult * list LookupCell) :=
  tr ← gets ds_trace;
  let '(tr', added_memory_access) := trace_insert (addr, step) op tr in
  modify (set_ds_trace tr');;
  steps ← gets ds_latest_step;
  let latest_step := default f_zero (steps !! to_integer addr) in
  assertM (negb (f_ltb step latest_step));;
  modify (set_ds_latest_step (<[to_integer addr := step]> (<[to_integer addr := latest_step]> steps)));;
  assertM added_memory_access;;
  deg ← gets ds_degree;
  mret (if deg <? Z.of_nat (length tr') then RowsExhausted else POk true, cells).

(** [initialized] of an address, in a machine with bootloader writes. *)
Definition check_initialized (cfg : DsConfig) (addr : T) (is_boot : bool) : MS unit :=
  whenM (has_bootloader_write_column cfg)
    (init ← gets ds_initialized;
     assertM (default false (init !! to_integer addr) || is_boot);;
     modify (set_ds_initialized (<[to_integer addr := true]> init))).

Definition process_plookup_internal (cfg : DsConfig) (identity_id : Z) (values : list LookupCell) : MS (PlookupResult * list LookupCell) :=
  c0 ← lift (values !! 0%nat);
  match known_cell c0 with None => mret (POk false, values) | Some operation_id =>
  c1 ← lift (values !! 1%nat);
  match known_cell c1 with None => mret (POk false, values) | Some addr =>
  c2 ← lift (values !! 2%nat);
  match known_cell c2 with None => mret (POk false, values) | Some step =>
  value_ptr ← lift (values !! 3%nat);
  selector ← lift (snd <$> List.find (fun p => fst p =? identity_id) (selector_ids cfg));
  let is_normal := f_eqb operation_id (from_u64 OPERATION_ID_WRITE) in
  let is_boot := f_eqb operation_id (from_u64 OPERATION_ID_BOOTLOADER_WRITE) in
  let is_write := is_boot || is_normal in
  check_initialized cfg addr is_boot;;
  if is_write then
    match value_ptr with
    | Output _ => mret (POk false, values)
    | Input v =>
      d ← gets ds_data; d' ← lift (data_write addr v d); modify (set_ds_data d');;
      finish_access addr step (mkOperation is_normal is_boot v selector) values
    end
  else
    d ← gets ds_data; v ← lift (data_read addr d);
    match value_ptr with
    | Input x =>
      if f_eqb x v then finish_access addr step (mkOperation is_normal is_boot v selector) values
      else mret (ConstraintUnsatisfiable, values)
    | Output _ => finish_access addr step (mkOperation is_normal is_boot v selector) (<[3%nat := Output v]> values)
    end
  end end end.

(** [can_process_call_fully]: whether the known arguments are enough. *)
Definition can_process_call_fully (cfg : DsConfig) (identity_id : Z) (known_arguments : list bool)
    (range_constraints : list (RangeConstraint T)) : option (option (list (RangeConstraint T))) :=
  _ ← assert_that (existsb (fun p => fst p =? identity_id) (selector_ids cfg));
  _ ← assert_that (length known_arguments =? 4)%nat;
  _ ← assert_that (length range_constraints =? 4)%nat;
  k0 ← known_arguments !! 0%nat; k1 ← known_arguments !! 1%nat; k2 ← known_arguments !! 2%nat; k3 ← known_arguments !! 3%nat;
  if negb k0 || negb k1 || negb k2 then Some None
  else if (k3 : bool) then Some (Some (replicate 4 rc_unconstrained))
  else
    r0 ← range_constraints !! 0%nat;
    Some (if negb (rc_allows_value r0 (from_u64 OPERATION_ID_BOOTLOADER_WRITE)) && negb (rc_allows_value r0 (from_u64 OPERATION_ID_WRITE))
          then Some (replicate 4 rc_unconstrained) else None).

(** *** The columns *)

Record Columns := mkColumns {
  w_addr : list T; w_step : list T; w_value : list T; w_normal : list bool; w_boot : list bool;
  w_diff : list Z; w_selectors : list (PolyID * list T)
}.

Definition set_selector (selector : option PolyID) (s : list (PolyID * list T)) : list (PolyID * list T) :=
  (fun p => (fst p, snd p ++ [if bool_decide (Some (fst p) = selector) then f_one else f_zero])) <$> s.

(** One entry of the trace; the jump of addresses is only logged_access. *)
Definition push_access (cfg : DsConfig) (c : Columns) (e : Access) : option Columns :=
  let '((a, s), o) := e in
  diff ← match last (w_addr c) with
         | None => Some (w_diff c)
         | Some prev_address =>
           _ ← assert_that (f_leb prev_address a);
           _ ← match diff_columns_base cfg with None => try_into_u64 (f_sub a prev_address) | Some _ => Some 0 end;
           current_diff ← (if negb (f_eqb a prev_address) then Some (f_sub a prev_address)
                           else prev_step ← last (w_step c); Some (f_sub s prev_step));
           _ ← assert_that (f_ltb f_zero current_diff);
           d ← try_into_u64 current_diff;
           Some (w_diff c ++ [d - 1])
         end;
  Some (mkColumns (w_addr c ++ [a]) (w_step c ++ [s]) (w_value c ++ [value o]) (w_normal c ++ [is_normal_write o])
          (w_boot c ++ [is_bootloader_write o]) diff (set_selector (Some (selector_id o)) (w_selectors c))).

Fixpoint push_trace (cfg : DsConfig) (c : Columns) (tr : list Access) : option Columns :=
  match tr with [] => Some c | e :: tr' => c' ← push_access cfg c e; push_trace cfg c' tr' end.

Definition push_padding (c : Columns) : option Columns :=
  a ← last (w_addr c); s ← last (w_step c); v ← last (w_value c);
  Some (mkColumns (w_addr c ++ [a]) (w_step c ++ [f_add s f_one]) (w_value c ++ [v]) (w_normal c ++ [false]) (w_boot c ++ [false])
          (w_diff c ++ [0]) (set_selector None (w_selectors c))).

Fixpoint push_paddings (n : nat) (c : Columns) : option Columns :=
  match n with O => Some c | S n' => c' ← push_padding c; push_paddings n' c' end.

Definition first_row (c : Columns) : Columns :=
  match w_addr c with
  | [] => mkColumns [f_neg f_one] (w_step c ++ [from_int 0]) (w_value c ++ [from_int 0]) (w_normal c ++ [false]) (w_boot c ++ [false])
            (w_diff c) (set_selector None (w_selectors c))
  | _ => c
  end.

(** [m_change]: whether the address of the next row differs. *)
Fixpoint changes (addrs : list T) : list T :=
  match addrs with
  | a :: ((a' :: _) as l) => (if f_eqb a a' then from_int 0 else from_int 1) :: changes l
  | _ => []
  end.

Definition bool_column (l : list bool) : list T := (fun b : bool => if b then f_one else f_zero) <$> l.

(** The result is a [HashMap]: a later column of the same name replaces an earlier one. *)
Definition take_witness_col_values (cfg : DsConfig) : MS (gmap string (list T)) :=
  tr ← gets ds_trace;
  modify (set_ds_trace []);;
  let selectors := (fun p => (p, [])) <$> remove_dups (snd <$> selector_ids cfg) in
  c0 ← lift (push_trace cfg (mkColumns [] [] [] [] [] [] selectors) tr);
  let c1 := first_row c0 in
  deg ← lift (compute_size_and_log (Z.of_nat (length (w_addr c1))) (degree_range cfg));
  modify (fun s => mkDsState deg (ds_trace s) (ds_data s) (ds_initialized s) (ds_latest_step s));;
  c ← lift (push_paddings (Z.to_nat deg - length (w_addr c1)) c1);
  assertM (Z.of_nat (length (w_diff c)) =? deg - 1);;
  let diff := w_diff c ++ [0] in
  first ← lift (head (w_addr c)); last_addr ← lift (last (w_addr c));
  let last_row_change_value :=
    if has_bootloader_write_column cfg then (if f_eqb first last_addr then f_zero else f_one) else from_int 1 in
  let change := changes (w_addr c) ++ [last_row_change_value] in
  assertM (length change =? length (w_addr c))%nat;;
  diff_columns ← lift
    match diff_columns_base cfg with
    | Some base =>
      _ ← assert_that (negb (base =? 0));
      Some [(namespaced cfg "m_diff_upper", (fun d => from_u64 (d / base)) <$> diff);
            (namespaced cfg "m_diff_lower", (fun d => from_u64 (d mod base)) <$> diff)]
    | None => Some []
    end;
  let bootloader_columns := if has_bootloader_write_column cfg then [(namespaced cfg BOOTLOADER_WRITE_COLUMN, bool_column (w_boot c))] else [] in
  let selector_columns := (fun p => (column_name cfg (fst p), snd p)) <$> w_selectors c in
  mret (list_to_map (rev ([(namespaced cfg "m_value", w_value c); (namespaced cfg "m_addr", w_addr c); (namespaced cfg "m_step", w_step c);
         (namespaced cfg "m_change", change); (namespaced cfg "m_is_write", bool_column (w_normal c))]
        ++ diff_columns ++ bootloader_columns ++ selector_columns))).

End DoubleSorted.

(** ** The data refine a map *)

Section Data.
Context {T : Type} `{LL : LargeFieldLaws T}.

Definition fits (a : T) : Prop := to_integer a < 2 ^ 64.
Definition page_ok (p : list T) : Prop := length p = Z.to_nat PAGE_SIZE.
Definition data_wf (d : PagedData) : Prop := page_ok (first_page d) /\ map_Forall (fun _ => page_ok) (pages d).

(** What the data hold: zero where nothing was written. *)
Definition data_is (d : PagedData) (m : gmap Z T) : Prop :=
  data_wf d /\ forall a, fits a -> data_read a d = Some (default f_zero (m !! to_integer a)).

Lemma page_offset_fits (a : T) : fits a -> page_offset a = Some (to_integer a / 256, Z.to_nat (to_integer a mod 256)).
Proof.
  intros Ha. unfold page_offset, try_into_u64. rewrite (proj2 (Z.ltb_lt _ _) Ha). cbn [mbind option_bind].
  change PAGE_MASK with (Z.ones 8). rewrite Z.land_ones, Z.shiftr_div_pow2 by (unfold PAGE_SIZE_LOG2; lia). reflexivity.
Qed.

Lemma page_offset_lt (a : T) : (Z.to_nat (to_integer a mod 256) < Z.to_nat PAGE_SIZE)%nat.
Proof. pose proof (Z.mod_pos_bound (to_integer a) 256). change PAGE_SIZE with 256. lia. Qed.

Lemma page_offset_inj (a b : T) : to_integer a / 256 = to_integer b / 256 -> Z.to_nat (to_integer a mod 256) = Z.to_nat (to_integer b mod 256) ->
  to_integer a = to_integer b.
Proof.
  intros Hd Hm. pose proof (Z.mod_pos_bound (to_integer a) 256 ltac:(lia)). pose proof (Z.mod_pos_bound (to_integer b) 256 ltac:(lia)).
  rewrite (Z.div_mod (to_integer a) 256), (Z.div_mod (to_integer b) 256), Hd by lia. lia.
Qed.

Lemma fresh_page_ok : page_ok (fresh_page (T:=T)).
Proof. unfold page_ok, fresh_page. now rewrite length_replicate. Qed.

Lemma fresh_page_lookup (a : T) : fresh_page (T:=T) !! Z.to_nat (to_integer a mod 256) = Some f_zero.
Proof. unfold fresh_page. apply lookup_replicate_2. apply page_offset_lt. Qed.

Lemma data_is_empty : data_is default_data (∅ : gmap Z T).
Proof.
  split; [split; [exact fresh_page_ok|apply map_Forall_empty]|]. intros a Ha. unfold data_read. rewrite (page_offset_fits a Ha). cbn [mbind option_bind].
  rewrite lookup_empty. unfold default_data. cbn [first_page pages]. destruct (_ =? 0); [apply fresh_page_lookup|]. now rewrite lookup_empty.
Qed.

Lemma data_write_is (a v : T) (d : PagedData) m : data_is d m -> fits a -> exists d', data_write a v d = Some d' /\ data_is d' (<[to_integer a := v]> m).
Proof.
  intros [[Hf Hp] Hr] Ha. unfold data_write. rewrite (page_offset_fits a Ha). cbn [mbind option_bind]. pose proof (page_offset_lt a) as Hlt.
  set (o := Z.to_nat (to_integer a mod 256)) in *. set (p := default fresh_page (pages d !! (to_integer a / 256))).
  assert (Hpo : page_ok p) by (unfold p; destruct (pages d !! _) as [q|] eqn:Hq; [exact (Hp _ _ Hq)|exact fresh_page_ok]).
  destruct (Z.eqb_spec (to_integer a / 256) 0) as [Hz|Hz].
  - rewrite Hf, (proj2 (Nat.ltb_lt _ _) Hlt). cbn [assert_that mbind option_bind]. eexists. split; [reflexivity|]. split; [split; [unfold page_ok; cbn [first_page]; now rewrite length_insert|exact Hp]|].
    intros b Hb. specialize (Hr b Hb). revert Hr. unfold data_read. rewrite (page_offset_fits b Hb). cbn [mbind option_bind first_page pages].
    destruct (Z.eqb_spec (to_integer b / 256) 0) as [Hzb|Hzb].
    + destruct (Nat.eq_dec o (Z.to_nat (to_integer b mod 256))) as [Ho|Ho].
      * intros _. rewrite <- Ho, list_lookup_insert_eq by (rewrite Hf; exact Hlt). rewrite (page_offset_inj a b ltac:(congruence) Ho), lookup_insert_eq. reflexivity.
      * rewrite list_lookup_insert_ne by exact Ho. intros ->. rewrite lookup_insert_ne; [reflexivity|]. intros He. apply Ho. unfold o. now rewrite He.
    + intros ->. rewrite lookup_insert_ne; [reflexivity|]. intros He. now rewrite <- He in Hzb.
  - fold p. rewrite Hpo, (proj2 (Nat.ltb_lt _ _) Hlt). cbn [assert_that mbind option_bind]. eexists. split; [reflexivity|].
    split; [split; [exact Hf|cbn [pages]; apply map_Forall_insert_2; [unfold page_ok; now rewrite length_insert|exact Hp]]|].
    intros b Hb. specialize (Hr b Hb). revert Hr. unfold data_read. rewrite (page_offset_fits b Hb). cbn [mbind option_bind first_page pages].
    destruct (Z.eqb_spec (to_integer b / 256) 0) as [Hzb|Hzb].
    { intros ->. rewrite lookup_insert_ne; [reflexivity|]. intros He. now rewrite He in Hz. }
    destruct (Z.eq_dec (to_integer a / 256) (to_integer b / 256)) as [Hd|Hd].
    + rewrite <- Hd, lookup_insert_eq. destruct (Nat.eq_dec o (Z.to_nat (to_integer b mod 256))) as [Ho|Ho].
      * intros _. rewrite <- Ho, list_lookup_insert_eq by (rewrite Hpo; exact Hlt). rewrite (page_offset_inj a b ltac:(congruence) Ho), lookup_insert_eq. reflexivity.
      * rewrite list_lookup_insert_ne by exact Ho. rewrite (lookup_insert_ne m); [|intros He; apply Ho; unfold o; now rewrite He].
        intros <-. unfold p. destruct (pages d !! _) as [q|]; [reflexivity|]. exact (fresh_page_lookup b).
    + rewrite lookup_insert_ne by exact Hd. intros ->. rewrite lookup_insert_ne; [reflexivity|]. intros He. apply Hd. now rewrite He.
Qed.

End Data.

(** ** The trace is the sorted log *)

Section Log.
Context {T : Type} `{LL : LargeFieldLaws T}.
Notation Acc := (Access (T:=T)).
Notation Op := (MemOp T).

Definition akey (e : Acc) : Z * Z := access_key (fst e).
Notation sorted log := (sort_by_key key_le akey log).

(** The operation of the memory an access is. *)
Definition writes (o : Operation (T:=T)) : bool := is_bootloader_write o || is_normal_write o.
Definition access_op (e : Acc) : Op :=
  mkMemOp (to_integer (fst (fst e))) (to_integer (snd (fst e))) (value (snd e)) (if writes (snd e) then f_one else f_zero) (poly_id (selector_id (snd e))).

Lemma access_op_writes e : op_writes (access_op e) = writes (snd e).
Proof. unfold op_writes, access_op. cbn [mo_write]. destruct (writes _); unfold f_one, f_zero; rewrite from_int_small by lia; reflexivity. Qed.

Lemma key_eqb_true x y : key_eqb x y = true <-> x = y.
Proof. unfold key_eqb. destruct x, y. cbn. split; [intros; f_equal; lia|intros [= -> ->]; lia]. Qed.

Lemma key_le_antisym x y : key_le x y = true -> key_le y x = true -> x = y.
Proof. unfold key_le. destruct x, y. cbn. intros. f_equal; lia. Qed.

Lemma trace_insert_fresh key op (l : list Acc) : (forall e, e ∈ l -> akey e <> access_key key) ->
  trace_insert key op l = (insert_by_key key_le akey (key, op) l, true).
Proof.
  induction l as [|[k o] l IH]; intros Hl; [reflexivity|]. cbn [trace_insert insert_by_key]. change (akey (key, op)) with (access_key key). change (akey (k, o)) with (access_key k).
  destruct (key_eqb (access_key key) (access_key k)) eqn:He; [exfalso; apply key_eqb_true in He; apply (Hl (k, o)); [now left|symmetry; exact He]|].
  destruct (key_le _ _); [reflexivity|]. rewrite IH; [reflexivity|]. intros e Hin. apply Hl. now right.
Qed.

Lemma trace_insert_present key op (l : list Acc) e : StronglySorted (by_key key_le akey) l -> e ∈ l -> akey e = access_key key ->
  snd (trace_insert key op l) = false.
Proof.
  induction 1 as [|[k o] l Hs IH Hk]; intros Hin He; [now apply elem_of_nil in Hin|]. cbn [trace_insert].
  destruct (key_eqb (access_key key) (access_key k)) eqn:Heq; [reflexivity|].
  apply elem_of_cons in Hin as [->|Hin]; [exfalso; apply Bool.not_true_iff_false in Heq; apply Heq, key_eqb_true; symmetry; exact He|].
  destruct (key_le (access_key key) (access_key k)) eqn:Hle.
  - exfalso. apply Bool.not_true_iff_false in Heq. apply Heq, key_eqb_true, key_le_antisym; [exact Hle|]. rewrite List.Forall_forall in Hk.
    specialize (Hk e (proj1 (list_elem_of_In _ _) Hin)). unfold by_key in Hk. now rewrite He in Hk.
  - specialize (IH Hin He). destruct (trace_insert key op l). exact IH.
Qed.

Lemma sorted_log_sorted (log : list Acc) : StronglySorted (by_key key_le akey) (sorted log).
Proof. apply sort_by_key_sorted; [apply key_le_total|apply key_le_trans]. Qed.

Lemma sorted_log_elem e (log : list Acc) : e ∈ sorted log <-> e ∈ log.
Proof. now rewrite sort_by_key_perm. Qed.

Lemma sorted_unique (l1 l2 : list Acc) : StronglySorted (by_key key_le akey) l1 -> StronglySorted (by_key key_le akey) l2 ->
  NoDup (akey <$> l1) -> l1 ≡ₚ l2 -> l1 = l2.
Proof.
  intros H1 H2 Hnd Hp. apply (StronglySorted_unique_strong (by_key key_le akey)); [|exact H1|exact H2|exact Hp].
  intros x y Hx Hy Hxy Hyx. assert (Hk : akey x = akey y) by now apply key_le_antisym.
  apply list_elem_of_lookup in Hx as [i Hi]. rewrite <- Hp in Hy. apply list_elem_of_lookup in Hy as [j Hj].
  rewrite (NoDup_lookup _ i j (akey x) Hnd) in Hi; [congruence|now rewrite list_lookup_fmap, Hi|now rewrite list_lookup_fmap, Hj, Hk].
Qed.

Lemma sorted_snoc (log : list Acc) e : NoDup (akey <$> (log ++ [e])) -> sorted (log ++ [e]) = insert_by_key key_le akey e (sorted log).
Proof.
  intros Hnd. apply sorted_unique; [apply sorted_log_sorted| | |].
  - apply insert_by_key_sorted; [apply key_le_total|apply key_le_trans|apply sorted_log_sorted].
  - now rewrite sort_by_key_perm.
  - rewrite insert_by_key_perm, !sort_by_key_perm. rewrite Permutation_app_comm. reflexivity.
Qed.

(** The sorted log of the operations. *)
Lemma sorted_access_op (log : list Acc) : access_op <$> sorted log = sort_by_key key_le op_key (access_op <$> log).
Proof.
  induction log as [|e log IH]; [reflexivity|]. cbn [sort_by_key fmap list_fmap]. rewrite <- IH. generalize (sorted log). clear. intros l.
  induction l as [|y l IH]; [reflexivity|]. cbn [insert_by_key fmap list_fmap]. change (op_key (access_op e)) with (akey e). change (op_key (access_op y)) with (akey y).
  destruct (key_le _ _); cbn [fmap list_fmap]; [reflexivity|]. f_equal. exact IH.
Qed.

Lemma chronological_snoc (ops : list Op) op : chronological ops -> (forall x, x ∈ ops -> mo_addr x = mo_addr op -> mo_step x < mo_step op) -> chronological (ops ++ [op]).
Proof.
  unfold chronological. induction 1 as [|x ops Hs IH Hx]; intros Hop; cbn; [constructor; constructor|]. constructor.
  - apply IH. intros y Hy. apply Hop. now right.
  - apply Forall_app. split; [exact Hx|]. apply List.Forall_cons; [|apply List.Forall_nil]. apply Hop. now left.
Qed.

(** The memory after a log. *)
Fixpoint memory_after (m : gmap Z Z) (ops : list Op) : gmap Z Z :=
  match ops with [] => m | op :: ops' => memory_after (if op_writes op then <[mo_addr op := op_value op]> m else m) ops' end.

Lemma replay_snoc (ops : list Op) op : forall m, replay m ops -> (op_writes op = false -> op_value op = default 0 (memory_after m ops !! mo_addr op)) ->
  replay m (ops ++ [op]).
Proof.
  induction ops as [|o ops IH]; intros m Hr Hv; cbn in *; [destruct (op_writes op); auto|].
  destruct (op_writes o); [now apply IH|]. destruct Hr as [Ho Hr]. split; [exact Ho|]. now apply IH.
Qed.

Lemma memory_after_snoc (ops : list Op) op : forall m,
  memory_after m (ops ++ [op]) = if op_writes op then <[mo_addr op := op_value op]> (memory_after m ops) else memory_after m ops.
Proof. induction ops as [|o ops IH]; intros m; cbn; [reflexivity|apply IH]. Qed.

Lemma chronological_nodup (log : list Acc) : chronological (access_op <$> log) -> NoDup (akey <$> log).
Proof.
  unfold chronological. induction log as [|e log IH]; cbn; intros Hs; [constructor|]. apply StronglySorted_inv in Hs as [Hs He]. constructor; [|now apply IH].
  intros Hin. apply list_elem_of_fmap in Hin as (x & Hx & Hin). rewrite List.Forall_forall in He.
  assert (Hlt : mo_addr (access_op e) = mo_addr (access_op x) -> mo_step (access_op e) < mo_step (access_op x)).
  { apply He. apply in_map. now apply list_elem_of_In. }
  unfold akey, access_key in Hx. injection Hx as Ha Hst. cbn in Hlt. specialize (Hlt Ha). lia.
Qed.

End Log.

(** ** Recording an access *)

Section Calls.
Context {T : Type} `{LL : LargeFieldLaws T}.
Notation Acc := (Access (T:=T)).
Notation sorted log := (sort_by_key key_le akey log).
Variable cfg : DsConfig.

Definition addr_of (e : Acc) : Z := to_integer (fst (fst e)).
Definition step_of (e : Acc) : Z := to_integer (snd (fst e)).
Definition at_address (a : Z) (log : list Acc) : list Acc := filter (fun e => addr_of e = a) log.

(** The accesses to an address come before the step. *)
Definition later (log : list Acc) (addr step : T) : Prop := forall e, e ∈ log -> addr_of e = to_integer addr -> step_of e < to_integer step.

Record TraceInv (log : list Acc) (st : DsState) : Prop := {
  inv_degree : ds_degree st = range_max (degree_range cfg);
  inv_trace : ds_trace st = sorted log;
  inv_chron : chronological (access_op <$> log);
  inv_latest : forall a, ds_latest_step st !! a = (fun e => snd (fst e)) <$> last (at_address a log)
}.

Lemma at_address_snoc_eq log (e : Acc) : at_address (addr_of e) (log ++ [e]) = at_address (addr_of e) log ++ [e].
Proof. unfold at_address. rewrite filter_app. f_equal. now rewrite filter_cons_True. Qed.

Lemma at_address_snoc_ne log (e : Acc) a : addr_of e <> a -> at_address a (log ++ [e]) = at_address a log.
Proof. intros Ha. unfold at_address. rewrite filter_app, filter_cons_False by exact Ha. apply app_nil_r. Qed.

Lemma chronological_lookup log i j (x y : Acc) : chronological (access_op <$> log) -> log !! i = Some x -> log !! j = Some y -> (i < j)%nat ->
  addr_of x = addr_of y -> step_of x < step_of y.
Proof.
  intros Hc Hi Hj. apply (StronglySorted_lookup _ _ Hc i j (access_op x) (access_op y)); rewrite list_lookup_fmap; [now rewrite Hi|now rewrite Hj].
Qed.

(** The last access to an address has the greatest step. *)
Lemma last_is_latest log (e l : Acc) : chronological (access_op <$> log) -> e ∈ log -> last (at_address (addr_of e) log) = Some l -> step_of e <= step_of l.
Proof.
  intros Hc. induction log as [|x log IH] using rev_ind; intros Hin Hl; [now apply elem_of_nil in Hin|].
  assert (Hlast : (log ++ [x]) !! length log = Some x) by (rewrite lookup_app_r, Nat.sub_diag by lia; reflexivity).
  destruct (Z.eq_dec (addr_of x) (addr_of e)) as [Ha|Ha].
  - rewrite <- Ha, at_address_snoc_eq, last_snoc in Hl. injection Hl as <-. apply elem_of_app in Hin as [Hin|Hin].
    + apply list_elem_of_lookup in Hin as [i Hi]. pose proof (lookup_lt_Some _ _ _ Hi). enough (step_of e < step_of x) by lia.
      apply (chronological_lookup (log ++ [x]) i (length log)); [exact Hc|now rewrite lookup_app_l|exact Hlast|lia|now symmetry].
    + apply list_elem_of_singleton in Hin as ->. lia.
  - rewrite at_address_snoc_ne in Hl by exact Ha. apply elem_of_app in Hin as [Hin|Hin]; [|apply list_elem_of_singleton in Hin; now subst].
    apply IH; [|exact Hin|exact Hl]. unfold chronological in *. rewrite fmap_app in Hc. now apply StronglySorted_app_1_l in Hc.
Qed.

Lemma trace_init : TraceInv [] (ds_init cfg).
Proof. split; [reflexivity|reflexivity|constructor|]. intros a. apply lookup_empty. Qed.

Lemma later_chronological log (e : Acc) : chronological (access_op <$> log) -> later log (fst (fst e)) (snd (fst e)) -> chronological (access_op <$> (log ++ [e])).
Proof.
  intros Hc Hl. rewrite fmap_app. apply chronological_snoc; [exact Hc|]. intros x Hx Ha. apply list_elem_of_fmap in Hx as (y & -> & Hy). now apply Hl.
Qed.

Lemma later_step log addr step st : TraceInv log st -> later log addr step -> f_ltb step (default f_zero (ds_latest_step st !! to_integer addr)) = false.
Proof.
  intros [_ _ _ Hlat] Hl. apply Z.ltb_ge. rewrite Hlat. destruct (last (at_address _ log)) as [e|] eqn:He.
  - cbn. apply last_Some_elem_of in He. apply list_elem_of_filter in He as [Ha Hin]. specialize (Hl e Hin Ha). unfold step_of in Hl. lia.
  - cbn. unfold f_zero. rewrite from_int_small by lia. apply to_integer_range.
Qed.

Lemma finish_access_run log addr step op cells st : TraceInv log st -> later log addr step ->
  exists st', finish_access addr step op cells st = Some ((if range_max (degree_range cfg) <? Z.of_nat (S (length log)) then RowsExhausted else POk true, cells), st') /\
    TraceInv (log ++ [((addr, step), op)]) st' /\ ds_data st' = ds_data st /\ ds_initialized st' = ds_initialized st.
Proof.
  intros Hinv Hl. pose proof Hinv as [Hd Ht Hc Hlat]. set (e := ((addr, step), op)).
  assert (Hfresh : forall x, x ∈ sorted log -> akey x <> access_key (addr, step)).
  { intros x Hx Hk. rewrite sorted_log_elem in Hx. unfold akey, access_key in Hk. injection Hk as Ha Hs. specialize (Hl x Hx Ha). unfold step_of in Hl. cbn in *. lia. }
  assert (Hc' : chronological (access_op <$> (log ++ [e]))) by now apply later_chronological.
  assert (Hins : trace_insert (addr, step) op (ds_trace st) = (sorted (log ++ [e]), true)).
  { rewrite Ht, trace_insert_fresh by exact Hfresh. fold e. now rewrite <- sorted_snoc by now apply chronological_nodup. }
  eexists. split.
  - unfold finish_access. eapply bind_run; [reflexivity|]. rewrite Hins.
    eapply bind_run; [reflexivity|]. eapply bind_run; [reflexivity|].
    eapply bind_run. { apply lift_some, assert_that_true. cbn [set_ds_trace ds_latest_step]. now rewrite (later_step log). }
    eapply bind_run; [reflexivity|]. eapply bind_run; [reflexivity|]. eapply bind_run; [reflexivity|]. cbn [set_ds_latest_step set_ds_trace ds_degree].
    rewrite Hd, (Permutation_length (sort_by_key_perm key_le akey (log ++ [e]))), length_app, Nat.add_1_r. reflexivity.
  - split; [|split; reflexivity]. split; [exact Hd|reflexivity|exact Hc'|]. intros a. cbn [set_ds_latest_step set_ds_trace ds_latest_step].
    destruct (Z.eq_dec (to_integer addr) a) as [<-|Hne].
    + rewrite lookup_insert_eq. change (to_integer addr) with (addr_of e). now rewrite at_address_snoc_eq, last_snoc.
    + rewrite !lookup_insert_ne by exact Hne. now rewrite at_address_snoc_ne.
Qed.

(** An access that is recorded comes after all others to its address. *)
Lemma finish_access_later log addr step op cells st r : TraceInv log st -> finish_access addr step op cells st = Some r -> later log addr step.
Proof.
  intros [Hd Ht Hc Hlat] Hr e Hin Ha. unfold finish_access, gets, modify, assertM in Hr. unfold mbind, M_bind in Hr.
  pose proof (fun Hk => trace_insert_present (addr, step) op (sorted log) e (sorted_log_sorted log) (proj2 (sorted_log_elem e log) Hin) Hk) as Hpres.
  rewrite Ht in Hr. destruct (trace_insert (addr, step) op (sorted log)) as [tr' fresh]. cbn [snd] in Hpres. cbn [set_ds_trace ds_latest_step] in Hr.
  destruct (f_ltb step _) eqn:Hlt in Hr; [discriminate|]. destruct fresh; [|discriminate]. clear Hr.
  apply Z.ltb_ge in Hlt. rewrite Hlat in Hlt. destruct (last (at_address (to_integer addr) log)) as [l|] eqn:Hlast.
  - cbn in Hlt. rewrite <- Ha in Hlast. pose proof (last_is_latest log e l Hc Hin Hlast) as Hle. unfold step_of in *.
    destruct (Z.eq_dec (to_integer (snd (fst e))) (to_integer step)) as [Hs|Hs]; [|lia]. exfalso.
    assert (Hk : akey e = access_key (addr, step)) by (unfold akey, access_key; cbn; f_equal; assumption). now specialize (Hpres Hk).
  - exfalso. apply last_None in Hlast. assert (Hin' : e ∈ at_address (to_integer addr) log) by (apply list_elem_of_filter; split; assumption). rewrite Hlast in Hin'. now apply elem_of_nil in Hin'.
Qed.

(** ** Calls and the memory *)

(** The specification: a map from addresses to values, zero where nothing was written. *)
Inductive CallOutcome := Accepted | Rejected | Incomplete.

Definition is_write_id (operation_id : T) : bool :=
  f_eqb operation_id (from_u64 OPERATION_ID_BOOTLOADER_WRITE) || f_eqb operation_id (from_u64 OPERATION_ID_WRITE).

Definition memory_call (m : gmap Z T) (values : list LookupCell) : CallOutcome * list LookupCell * gmap Z T :=
  match values with
  | Input operation_id :: Input addr :: Input step :: value_ptr :: rest =>
    if is_write_id operation_id then
      match value_ptr with
      | Input v => (Accepted, values, <[to_integer addr := v]> m)
      | Output _ => (Incomplete, values, m)
      end
    else
      let v := default f_zero (m !! to_integer addr) in
      match value_ptr with
      | Input x => (if f_eqb x v then Accepted else Rejected, values, m)
      | Output _ => (Accepted, Input operation_id :: Input addr :: Input step :: Output v :: rest, m)
      end
  | _ => (Incomplete, values, m)
  end.

Definition outcome (r : PlookupResult) : CallOutcome :=
  match r with POk true | RowsExhausted => Accepted | POk false => Incomplete | ConstraintUnsatisfiable => Rejected end.

Record CallInv (log : list Acc) (m : gmap Z T) (st : DsState) : Prop := {
  inv_trace_of : TraceInv log st;
  inv_data : data_is (ds_data st) m;
  inv_memory : memory_after ∅ (access_op <$> log) = to_integer <$> m;
  inv_replay : replay ∅ (access_op <$> log);
  inv_selectors : Forall (fun e => selector_id (snd e) ∈ snd <$> selector_ids cfg) log
}.

Lemma call_init : CallInv [] ∅ (ds_init cfg).
Proof. split; [exact trace_init|exact data_is_empty| |exact I|apply List.Forall_nil]. cbn. now rewrite fmap_empty. Qed.

Definition find_selector (identity_id : Z) : option PolyID := snd <$> List.find (fun p => fst p =? identity_id) (selector_ids cfg).

Lemma find_selector_in identity_id sel : find_selector identity_id = Some sel -> sel ∈ snd <$> selector_ids cfg.
Proof.
  unfold find_selector. intros Hf. apply fmap_Some in Hf as (p & Hp & ->). apply List.find_some in Hp as [Hp _]. apply list_elem_of_fmap. exists p. split; [reflexivity|]. now apply list_elem_of_In.
Qed.

(** The state after the check of a machine with bootloader writes. *)
Definition initialize (addr : T) (st : DsState (T:=T)) : DsState :=
  if has_bootloader_write_column cfg then set_ds_initialized (<[to_integer addr := true]> (ds_initialized st)) st else st.
Definition may_access (addr : T) (boot : bool) (st : DsState (T:=T)) : bool :=
  negb (has_bootloader_write_column cfg) || (default false (ds_initialized st !! to_integer addr) || boot).

Lemma check_initialized_run addr boot st : check_initialized cfg addr boot st = if may_access addr boot st then Some (tt, initialize addr st) else None.
Proof.
  unfold check_initialized, may_access, initialize, whenM. destruct (has_bootloader_write_column cfg); [|reflexivity]. cbn [negb orb].
  unfold gets, modify, assertM, mbind, M_bind. destruct (_ || _); reflexivity.
Qed.

Lemma initialize_trace log addr st : TraceInv log st -> TraceInv log (initialize addr st).
Proof. intros [? ? ? ?]. unfold initialize. destruct (has_bootloader_write_column cfg); now split. Qed.

Lemma initialize_data addr (st : DsState (T:=T)) : ds_data (initialize addr st) = ds_data st.
Proof. unfold initialize. now destruct (has_bootloader_write_column cfg). Qed.

Lemma data_fits (a : T) d m : data_is d m -> (forall v, data_write a v d = None) \/ fits a.
Proof.
  intros _. destruct (Z.lt_ge_cases (to_integer a) (2 ^ 64)) as [Ha|Ha]; [now right|left]. intros v. unfold data_write, page_offset, try_into_u64.
  rewrite (proj2 (Z.ltb_ge _ _) Ha). reflexivity.
Qed.

Lemma data_read_fits (a : T) d v : data_read a d = Some v -> fits a.
Proof.
  unfold data_read, page_offset, try_into_u64, fits. destruct (Z.ltb_spec (to_integer a) (2 ^ 64)); [auto|discriminate].
Qed.

(** A recorded access keeps the invariant. *)
Lemma record_write log m st addr step op cells r cells' st' d' : CallInv log m st -> writes op = true ->
  selector_id op ∈ snd <$> selector_ids cfg -> data_write addr (value op) (ds_data st) = Some d' ->
  finish_access addr step op cells (set_ds_data d' (initialize addr st)) = Some ((r, cells'), st') ->
  outcome r = Accepted /\ cells' = cells /\ CallInv (log ++ [((addr, step), op)]) (<[to_integer addr := value op]> m) st'.
Proof.
  intros [Ht Hd Hm Hr Hs] Hw Hsel Hdw Hf.
  assert (Hfit : fits addr) by (destruct (data_fits addr _ _ Hd) as [Hn|]; [now rewrite Hn in Hdw|assumption]).
  destruct (data_write_is addr (value op) _ _ Hd Hfit) as (d & Hd1 & Hd2). rewrite Hdw in Hd1. injection Hd1 as <-.
  assert (Ht' : TraceInv log (set_ds_data d' (initialize addr st))) by (destruct (initialize_trace log addr st Ht) as [? ? ? ?]; now split).
  destruct (finish_access_run log addr step op cells _ Ht' (finish_access_later _ _ _ _ _ _ _ Ht' Hf)) as (st1 & Hrun & Ht1 & Hdat & _).
  rewrite Hrun in Hf. injection Hf as <- <- <-. split; [now case_match|]. split; [reflexivity|]. split.
  - exact Ht1.
  - rewrite Hdat. exact Hd2.
  - rewrite fmap_app. cbn [fmap list_fmap]. rewrite memory_after_snoc, access_op_writes. cbn [snd]. rewrite Hw, Hm, fmap_insert. reflexivity.
  - rewrite fmap_app. apply replay_snoc; [exact Hr|]. rewrite access_op_writes. cbn [snd]. rewrite Hw. discriminate.
  - apply Forall_app. split; [exact Hs|]. apply List.Forall_cons; [exact Hsel|apply List.Forall_nil].
Qed.

Lemma record_read log m st addr step op cells r cells' st' : CallInv log m st -> writes op = false ->
  selector_id op ∈ snd <$> selector_ids cfg -> data_read addr (ds_data st) = Some (value op) ->
  finish_access addr step op cells (initialize addr st) = Some ((r, cells'), st') ->
  outcome r = Accepted /\ cells' = cells /\ CallInv (log ++ [((addr, step), op)]) m st'.
Proof.
  intros [Ht Hd Hm Hr Hs] Hw Hsel Hdr Hf. pose proof (initialize_trace log addr st Ht) as Ht'.
  pose proof (proj2 Hd addr (data_read_fits _ _ _ Hdr)) as Hv. rewrite Hdr in Hv. injection Hv as Hv.
  destruct (finish_access_run log addr step op cells _ Ht' (finish_access_later _ _ _ _ _ _ _ Ht' Hf)) as (st1 & Hrun & Ht1 & Hdat & _).
  rewrite Hrun in Hf. injection Hf as <- <- <-. split; [now case_match|]. split; [reflexivity|]. split.
  - exact Ht1.
  - rewrite Hdat, initialize_data. exact Hd.
  - rewrite fmap_app. cbn [fmap list_fmap]. rewrite memory_after_snoc, access_op_writes. cbn [snd]. now rewrite Hw.
  - rewrite fmap_app. apply replay_snoc; [exact Hr|]. intros _. unfold op_value. cbn [access_op mo_value mo_addr fst snd]. rewrite Hm, lookup_fmap, Hv.
    destruct (m !! to_integer addr); [reflexivity|]. cbn. unfold f_zero. now rewrite from_int_small by lia.
  - apply Forall_app. split; [exact Hs|]. apply List.Forall_cons; [exact Hsel|apply List.Forall_nil].
Qed.

Definition op_of (operation_id v : T) (sel : PolyID) : Operation :=
  mkOperation (f_eqb operation_id (from_u64 OPERATION_ID_WRITE)) (f_eqb operation_id (from_u64 OPERATION_ID_BOOTLOADER_WRITE)) v sel.
Definition is_boot_id (operation_id : T) : bool := f_eqb operation_id (from_u64 OPERATION_ID_BOOTLOADER_WRITE).

(** A call whose first three arguments are known, after the check of the initialization. *)
Definition known_call (values : list LookupCell) (operation_id addr step : T) (value_ptr : LookupCell) (sel : PolyID) : M DsState (PlookupResult * list LookupCell) :=
  if is_write_id operation_id then
    match value_ptr with
    | Output _ => mret (POk false, values)
    | Input v => d ← gets ds_data; d' ← lift (data_write addr v d); modify (set_ds_data d');; finish_access addr step (op_of operation_id v sel) values
    end
  else
    d ← gets ds_data; v ← lift (data_read addr d);
    match value_ptr with
    | Input x => if f_eqb x v then finish_access addr step (op_of operation_id v sel) values else mret (ConstraintUnsatisfiable, values)
    | Output _ => finish_access addr step (op_of operation_id v sel) (<[3%nat := Output v]> values)
    end.

Lemma process_known identity_id operation_id addr step value_ptr rest st :
  let values := Input operation_id :: Input addr :: Input step :: value_ptr :: rest in
  process_plookup_internal cfg identity_id values st =
  match find_selector identity_id with
  | None => None
  | Some sel => if may_access addr (is_boot_id operation_id) st then known_call values operation_id addr step value_ptr sel (initialize addr st) else None
  end.
Proof.
  cbn zeta. unfold process_plookup_internal. unfold mbind at 1, M_bind at 1. cbn [lift lookup list_lookup known_cell].
  unfold mbind at 1, M_bind at 1. cbn [lift lookup list_lookup known_cell]. unfold mbind at 1, M_bind at 1. cbn [lift lookup list_lookup known_cell].
  unfold mbind at 1, M_bind at 1. cbn [lift lookup list_lookup known_cell]. unfold mbind at 1, M_bind at 1. unfold find_selector. destruct (snd <$> _) as [sel|]; [|reflexivity]. cbn [lift].
  unfold mbind at 1, M_bind at 1. fold (is_boot_id operation_id). rewrite check_initialized_run. destruct (may_access _ _ _); reflexivity.
Qed.

(** An accepted call adds the access of its arguments to the log, no other call does. *)
Definition extends (out : CallOutcome) (values : list LookupCell) (log log' : list Acc) : Prop :=
  match out with
  | Accepted => exists operation_id addr step v sel,
      take 3 values = [Input operation_id; Input addr; Input step] /\ log' = log ++ [((addr, step), op_of operation_id v sel)]
  | _ => log' = log
  end.

(** The access that an answered call leaves in the log: its address and step, its operation and, as the
    value, the fourth cell of the answer; the selector is the caller's. *)
Definition logged_access (call : Z * list (LookupCell (T:=T))) (answer : PlookupResult * list (LookupCell (T:=T))) : option Acc :=
  match outcome (fst answer), snd answer with
  | Accepted, Input operation_id :: Input addr :: Input step :: (Input v | Output v) :: _ =>
    sel ← find_selector (fst call); Some ((addr, step), op_of operation_id v sel)
  | _, _ => None
  end.

(** The log of a sequence of calls. *)
Definition log_of (calls : list (Z * list (LookupCell (T:=T)))) (answers : list (PlookupResult * list (LookupCell (T:=T)))) : list Acc :=
  omap (uncurry logged_access) (zip calls answers).

(** Every call that returns does what the map of memory does. *)
Lemma process_refines log m st identity_id values r cells st' : CallInv log m st ->
  process_plookup_internal cfg identity_id values st = Some ((r, cells), st') ->
  let '(out, cells', m') := memory_call m values in
  outcome r = out /\ cells = cells' /\ exists log', CallInv log' m' st' /\ extends out values log log' /\ log' = log ++ option_list (logged_access (identity_id, values) (r, cells)).
Proof.
  intros Hinv Hp. assert (Hinit : forall a, CallInv log m (initialize a st)).
  { intros a. pose proof Hinv as [Ht Hd Hm Hr Hs]. split; [now apply initialize_trace|now rewrite initialize_data|exact Hm|exact Hr|exact Hs]. }
  destruct values as [|[operation_id|o] l]; [discriminate| |injection Hp as <- <- <-; repeat split; exists log; split; [exact Hinv|split; [reflexivity|symmetry; apply app_nil_r]]].
  destruct l as [|[addr|o] l]; [discriminate| |injection Hp as <- <- <-; repeat split; exists log; split; [exact Hinv|split; [reflexivity|symmetry; apply app_nil_r]]].
  destruct l as [|[step|o] l]; [discriminate| |injection Hp as <- <- <-; repeat split; exists log; split; [exact Hinv|split; [reflexivity|symmetry; apply app_nil_r]]].
  destruct l as [|value_ptr rest]; [discriminate|]. rewrite process_known in Hp.
  destruct (find_selector identity_id) as [sel|] eqn:Hfind; [|discriminate]. pose proof (find_selector_in _ _ Hfind) as Hsel. destruct (may_access _ _ _); [|discriminate].
  cbn [memory_call]. unfold known_call in Hp. destruct (is_write_id operation_id) eqn:Hw.
  - destruct value_ptr as [v|o]; [|injection Hp as <- <- <-; repeat split; exists log; split; [exact (Hinit addr)|split; [reflexivity|symmetry; apply app_nil_r]]].
    unfold gets, modify, mbind, M_bind, lift in Hp. rewrite initialize_data in Hp. destruct (data_write addr v (ds_data st)) as [d'|] eqn:Hdw; [|discriminate].
    destruct (record_write log m st addr step (op_of operation_id v sel) _ _ _ _ d' Hinv Hw Hsel Hdw Hp) as (Ho & -> & Hinv'). repeat split; [exact Ho|]. eexists. split; [exact Hinv'|]. split; [repeat eexists|]. unfold logged_access. cbn [fst snd]. rewrite Ho, Hfind. reflexivity.
  - unfold gets, mbind, M_bind, lift in Hp. rewrite initialize_data in Hp. destruct (data_read addr (ds_data st)) as [v|] eqn:Hdr; [|discriminate].
    pose proof (proj2 (inv_data _ _ _ Hinv) addr (data_read_fits _ _ _ Hdr)) as Hv. rewrite Hdr in Hv. injection Hv as <-.
    destruct value_ptr as [x|o].
    + destruct (f_eqb x v) eqn:Hxv; [apply f_eqb_eq in Hxv as ->|injection Hp as <- <- <-; repeat split; exists log; split; [apply Hinit|split; [reflexivity|symmetry; apply app_nil_r]]].
      destruct (record_read log m st addr step (op_of operation_id v sel) _ _ _ _ Hinv Hw Hsel Hdr Hp) as (Ho & -> & Hinv'). repeat split; [exact Ho|]. eexists. split; [exact Hinv'|]. split; [repeat eexists|]. unfold logged_access. cbn [fst snd]. rewrite Ho, Hfind. reflexivity.
    + destruct (record_read log m st addr step (op_of operation_id v sel) _ _ _ _ Hinv Hw Hsel Hdr Hp) as (Ho & -> & Hinv'). repeat split; [exact Ho|]. eexists. split; [exact Hinv'|]. split; [repeat eexists|]. unfold logged_access. cbn [fst snd]. rewrite Ho, Hfind. reflexivity.
Qed.

(** A sequence of calls, and what a memory answers to it. *)
Definition run_calls (calls : list (Z * list LookupCell)) : M DsState (list (PlookupResult * list LookupCell)) :=
  map_collect (fun c => process_plookup_internal cfg (fst c) (snd c)) calls.

Fixpoint memory_calls (m : gmap Z T) (calls : list (Z * list LookupCell)) : list (CallOutcome * list LookupCell) :=
  match calls with
  | [] => []
  | c :: calls' => let '(out, cells, m') := memory_call m (snd c) in (out, cells) :: memory_calls m' calls'
  end.

(** The accesses of the log are those of calls. *)
Definition from_call (calls : list (Z * list LookupCell)) (e : Acc) : Prop :=
  exists c operation_id v sel, c ∈ calls /\ take 3 (snd c) = [Input operation_id; Input (fst (fst e)); Input (snd (fst e))] /\ snd e = op_of operation_id v sel.

Lemma from_call_mono calls calls' e : (forall c, c ∈ calls -> c ∈ calls') -> from_call calls e -> from_call calls' e.
Proof. intros Hsub (c & o & v & sel & Hin & Ht & Ho). exists c, o, v, sel. auto. Qed.

Lemma extends_from out identity_id values log log' : extends out values log log' ->
  exists ext, log' = log ++ ext /\ Forall (from_call [(identity_id, values)]) ext /\ (length ext <= 1)%nat.
Proof.
  destruct out; cbn; [|intros ->; exists []; rewrite app_nil_r; repeat split; [apply List.Forall_nil|cbn; lia]..].
  intros (o & a & s & v & sel & Ht & ->). eexists. split; [reflexivity|]. split; [|cbn; lia].
  apply List.Forall_cons; [|apply List.Forall_nil]. exists (identity_id, values), o, v, sel. split; [now left|]. now split.
Qed.

Lemma run_calls_refine calls : forall log m st rs st', CallInv log m st -> run_calls calls st = Some (rs, st') ->
  (fun r => (outcome (fst r), snd r)) <$> rs = memory_calls m calls /\
  exists ext m', CallInv (log ++ ext) m' st' /\ Forall (from_call calls) ext /\ (length ext <= length calls)%nat /\ ext = log_of calls rs.
Proof.
  induction calls as [|[identity_id values] calls IH]; intros log m st rs st' Hinv Hrun; cbn in Hrun.
  - injection Hrun as <- <-. split; [reflexivity|]. exists [], m. rewrite app_nil_r. repeat split; try apply Hinv; [apply List.Forall_nil|cbn; lia].
  - unfold mbind, M_bind in Hrun. cbn in Hrun. destruct (process_plookup_internal cfg identity_id values st) as [[[r cells] st1]|] eqn:Hp; [|discriminate].
    pose proof (process_refines log m st identity_id values r cells st1 Hinv Hp) as Href. cbn [memory_calls snd]. destruct (memory_call m values) as [[out cells'] m1].
    destruct Href as (<- & <- & log1 & Hinv1 & Hext & Hlog). fold (run_calls calls) in Hrun. destruct (run_calls calls st1) as [[rs' st2]|] eqn:Hr; [|discriminate].
    injection Hrun as <- <-. apply (extends_from _ identity_id) in Hext as (e1 & -> & He1 & Hl1). apply app_inv_head in Hlog.
    destruct (IH (log ++ e1) m1 st1 rs' st2 Hinv1 Hr) as (Hrs & e2 & m2 & Hinv2 & He2 & Hl2 & Hlog2). split; [cbn; f_equal; exact Hrs|].
    exists (e1 ++ e2), m2. rewrite app_assoc. split; [exact Hinv2|]. split; [|split; [rewrite length_app; cbn; lia|]]; cycle 1.
    { subst e1 e2. unfold log_of. cbn [zip zip_with omap list_omap uncurry]. now destruct (logged_access _ _). }
    apply Forall_app. split; (eapply List.Forall_impl; [|eassumption]); intros e; apply from_call_mono; intros c Hc.
    + apply list_elem_of_singleton in Hc as ->. now left.
    + now right.
Qed.

(** C19: The machine refines a memory: whatever the calls, as long as none panics, every call answers what a map
    from addresses to values would: a read returns the value last written to its address (zero if there is none) or
    is rejected when the caller already knows another value, a write with a known value is accepted, and a call
    with an unknown argument that it needs is left incomplete. The trace is then the log of the accepted calls,
    each with the value of its answer and its caller's selector, sorted by address and step. *)
Theorem calls_refine_memory (calls : list (Z * list LookupCell)) rs st :
  run_calls calls (ds_init cfg) = Some (rs, st) ->
  (fun r => (outcome (fst r), snd r)) <$> rs = memory_calls ∅ calls /\
  ds_trace st = sort_by_key key_le akey (log_of calls rs).
Proof.
  intros Hrun. destruct (run_calls_refine calls [] ∅ (ds_init cfg) rs st call_init Hrun) as (Hrs & log & m & Hinv & _ & _ & ->).
  split; [exact Hrs|]. apply Hinv.
Qed.

(** *** Bootloader writes *)

Lemma finish_access_initialized addr step op cells (st : DsState (T:=T)) r cells' st' : finish_access addr step op cells st = Some ((r, cells'), st') ->
  ds_initialized st' = ds_initialized st /\ outcome r = Accepted.
Proof.
  unfold finish_access, gets, modify, assertM, mbind, M_bind. destruct (trace_insert _ _ _) as [tr fresh]. cbn [set_ds_trace ds_latest_step].
  destruct (negb _); [|discriminate]. destruct fresh; [|discriminate]. intros [= <- _ <-]. split; [reflexivity|now case_match].
Qed.

Lemma process_initialized identity_id values (st : DsState (T:=T)) r cells st' : process_plookup_internal cfg identity_id values st = Some ((r, cells), st') ->
  r <> POk false -> exists operation_id addr step value_ptr rest, values = Input operation_id :: Input addr :: Input step :: value_ptr :: rest /\
    may_access addr (is_boot_id operation_id) st = true /\ ds_initialized st' = ds_initialized (initialize addr st) /\
    (outcome r = Accepted \/ is_write_id operation_id = false).
Proof.
  intros Hp Hr. destruct values as [|[operation_id|o] l]; [discriminate| |injection Hp as <- <- <-; now destruct Hr].
  destruct l as [|[addr|o] l]; [discriminate| |injection Hp as <- <- <-; now destruct Hr].
  destruct l as [|[step|o] l]; [discriminate| |injection Hp as <- <- <-; now destruct Hr].
  destruct l as [|value_ptr rest]; [discriminate|]. rewrite process_known in Hp. exists operation_id, addr, step, value_ptr, rest. split; [reflexivity|].
  destruct (find_selector identity_id) as [sel|]; [|discriminate]. destruct (may_access _ _ _) eqn:Hma; [|discriminate]. split; [reflexivity|]. unfold known_call in Hp.
  destruct (is_write_id operation_id); unfold gets, modify, mbind, M_bind, lift in Hp.
  - destruct value_ptr as [v|o]; [|injection Hp as <- <- <-; now destruct Hr]. destruct (data_write _ _ _); [|discriminate].
    apply finish_access_initialized in Hp as [-> Ho]. split; [reflexivity|now left].
  - destruct (data_read _ _); [|discriminate]. destruct value_ptr as [x|o]; [destruct (f_eqb _ _)|].
    + apply finish_access_initialized in Hp as [-> Ho]. split; [reflexivity|now left].
    + injection Hp as <- <- <-. split; [reflexivity|now right].
    + apply finish_access_initialized in Hp as [-> Ho]. split; [reflexivity|now left].
Qed.

(** The first access to each address is a bootloader write. *)
Definition boot_first (log : list Acc) : Prop := forall a e, head (at_address a log) = Some e -> is_bootloader_write (snd e) = true.
Record BootInv (log : list Acc) (st : DsState (T:=T)) : Prop := {
  inv_boot_first : boot_first log;
  inv_initialized : forall a, ds_initialized st !! a = Some true -> at_address a log <> []
}.

Lemma initialize_lookup addr (st : DsState (T:=T)) a : has_bootloader_write_column cfg = true ->
  ds_initialized (initialize addr st) !! a = Some true -> a = to_integer addr \/ ds_initialized st !! a = Some true.
Proof. unfold initialize. intros ->. cbn. rewrite lookup_insert_Some. intros [[<- _]|[_ Ha]]; auto. Qed.

Lemma may_access_boot addr boot (st : DsState (T:=T)) log : has_bootloader_write_column cfg = true -> may_access addr boot st = true -> BootInv log st ->
  boot = true \/ at_address (to_integer addr) log <> [].
Proof.
  unfold may_access. intros -> Hma [_ Hi]. cbn in Hma. destruct boot; [now left|right]. apply Hi. rewrite orb_false_r in Hma.
  destruct (ds_initialized st !! _) as [b|]; [now destruct b|discriminate].
Qed.

Lemma process_boot identity_id values log log' (st : DsState (T:=T)) r cells st' : has_bootloader_write_column cfg = true ->
  process_plookup_internal cfg identity_id values st = Some ((r, cells), st') -> r <> POk false -> extends (outcome r) values log log' ->
  BootInv log st -> BootInv log' st'.
Proof.
  intros Hb Hp Hr Hext Hinv. destruct (process_initialized _ _ _ _ _ _ Hp Hr) as (o & addr & step & vp & rest & -> & Hma & Hi & Hw).
  pose proof (may_access_boot addr _ st log Hb Hma Hinv) as Hboot. pose proof Hinv as [Hbf Hii].
  assert (Hinit : forall a, ds_initialized st' !! a = Some true -> a = to_integer addr \/ at_address a log <> []).
  { intros a. rewrite Hi. intros [->|Ha]%(initialize_lookup addr st a Hb); [now left|right; now apply Hii]. }
  destruct (outcome r) eqn:Hout; cbn in Hext.
  - destruct Hext as (o' & a' & s' & v & sel & [= <- <- <-] & ->). set (e := ((addr, step), op_of o v sel)). assert (Hae : addr_of e = to_integer addr) by reflexivity. split.
    + intros a x. destruct (Z.eq_dec (addr_of e) a) as [<-|Hne]; [|rewrite at_address_snoc_ne by exact Hne; apply Hbf].
      rewrite at_address_snoc_eq. destruct (at_address (addr_of e) log) as [|y l] eqn:Hl; cbn.
      * intros [= <-]. destruct Hboot as [Hboot|Hboot]; [exact Hboot|]. now destruct Hboot.
      * intros [= <-]. apply (Hbf (addr_of e)). now rewrite Hl.
    + intros a Ha. destruct (Z.eq_dec (addr_of e) a) as [<-|Hne]; [rewrite at_address_snoc_eq; now destruct (at_address _ _)|].
      rewrite at_address_snoc_ne by exact Hne. destruct (Hinit a Ha) as [->|]; [now destruct Hne|assumption].
  - subst log'. split; [exact Hbf|]. intros a Ha. destruct (Hinit a Ha) as [->|]; [|assumption]. destruct Hboot as [Hboot|]; [|assumption].
    destruct Hw as [|Hw]; [discriminate|]. unfold is_write_id in Hw. unfold is_boot_id in Hboot. now rewrite Hboot in Hw.
  - exfalso. now destruct r as [[]| |].
Qed.

Lemma run_calls_boot calls : has_bootloader_write_column cfg = true -> forall log m st rs st', CallInv log m st -> BootInv log st -> run_calls calls st = Some (rs, st') ->
  Forall (fun r => fst r <> POk false) rs -> exists log' m', CallInv log' m' st' /\ boot_first log'.
Proof.
  intros Hb. induction calls as [|[identity_id values] calls IH]; intros log m st rs st' Hinv Hboot Hrun Hrs; cbn in Hrun.
  - injection Hrun as <- <-. exists log, m. split; [exact Hinv|apply Hboot].
  - unfold mbind, M_bind in Hrun. cbn in Hrun. destruct (process_plookup_internal cfg identity_id values st) as [[[r cells] st1]|] eqn:Hp; [|discriminate].
    fold (run_calls calls) in Hrun. destruct (run_calls calls st1) as [[rs' st2]|] eqn:Hr; [|discriminate]. injection Hrun as <- <-.
    apply Forall_cons in Hrs as [Hnf Hrs].
    pose proof (process_refines log m st identity_id values r cells st1 Hinv Hp) as Href. destruct (memory_call m values) as [[out cells'] m1].
    destruct Href as (<- & _ & log1 & Hinv1 & Hext & _). exact (IH log1 m1 st1 rs' st2 Hinv1 (process_boot _ _ _ _ _ _ _ _ Hb Hp Hnf Hext Hboot) Hr Hrs).
Qed.

(** *** Calls that do not panic *)

Record FullCall := mkFullCall { fc_identity : Z; fc_op : T; fc_addr : T; fc_step : T; fc_value : LookupCell (T:=T) }.
Definition to_call (c : FullCall) : Z * list LookupCell := (fc_identity c, [Input (fc_op c); Input (fc_addr c); Input (fc_step c); fc_value c]).

Definition full_ok (c : FullCall) : Prop :=
  is_Some (find_selector (fc_identity c)) /\ fits (fc_addr c) /\ (is_write_id (fc_op c) = true -> is_Some (known_cell (fc_value c))).
Definition same_addr (c c' : FullCall) : Prop := to_integer (fc_addr c) = to_integer (fc_addr c').
Definition calls_ordered : list FullCall -> Prop := StronglySorted (fun c c' => same_addr c c' -> to_integer (fc_step c) < to_integer (fc_step c')).

(** With bootloader writes, one comes first at every address. *)
Fixpoint calls_booted (done calls : list FullCall) : Prop :=
  match calls with
  | [] => True
  | c :: calls' => (is_boot_id (fc_op c) = true \/ exists c', c' ∈ done /\ same_addr c' c) /\ calls_booted (c :: done) calls'
  end.

Lemma finish_access_total log addr step op cells st : TraceInv log st -> later log addr step ->
  exists r st', finish_access addr step op cells st = Some (r, st') /\ fst r <> POk false /\
    (Z.of_nat (length log) < range_max (degree_range cfg) -> fst r <> RowsExhausted).
Proof.
  intros Ht Hl. destruct (finish_access_run log addr step op cells st Ht Hl) as (st' & Hrun & _). do 2 eexists. split; [exact Hrun|].
  cbn [fst]. split; [now case_match|]. intros Hlen. rewrite (proj2 (Z.ltb_ge _ _)) by lia. discriminate.
Qed.

Lemma full_call_returns log m st c : CallInv log m st -> full_ok c -> later log (fc_addr c) (fc_step c) -> may_access (fc_addr c) (is_boot_id (fc_op c)) st = true ->
  exists r st', process_plookup_internal cfg (fst (to_call c)) (snd (to_call c)) st = Some (r, st') /\ fst r <> POk false /\
    (Z.of_nat (length log) < range_max (degree_range cfg) -> fst r <> RowsExhausted).
Proof.
  intros [Ht Hd _ _ _] ([sel Hsel] & Hfit & Hv) Hl Hma. unfold to_call. cbn [fst snd]. rewrite process_known, Hsel, Hma. unfold known_call.
  pose proof (initialize_trace log (fc_addr c) st Ht) as Ht'. destruct (is_write_id (fc_op c)).
  - destruct (Hv eq_refl) as [v Hk]. destruct (fc_value c) as [w|]; [|discriminate]. destruct (data_write_is (fc_addr c) w _ m Hd Hfit) as (d' & Hdw & _).
    assert (Ht2 : TraceInv log (set_ds_data d' (initialize (fc_addr c) st))) by (destruct Ht'; now split).
    destruct (finish_access_total log (fc_addr c) (fc_step c) (op_of (fc_op c) w sel) [Input (fc_op c); Input (fc_addr c); Input (fc_step c); Input w] _ Ht2 Hl) as (r & st' & Hrun & Hr).
    exists r, st'. split; [|exact Hr]. eapply bind_run; [reflexivity|]. rewrite initialize_data. eapply lift_run; [exact Hdw|]. eapply bind_run; [reflexivity|]. exact Hrun.
  - pose proof (proj2 Hd (fc_addr c) Hfit) as Hdr. set (v := default f_zero _) in Hdr.
    assert (Hread : forall cells, exists r st', finish_access (fc_addr c) (fc_step c) (op_of (fc_op c) v sel) cells (initialize (fc_addr c) st) = Some (r, st') /\ fst r <> POk false /\
      (Z.of_nat (length log) < range_max (degree_range cfg) -> fst r <> RowsExhausted)) by (intros cells; now apply finish_access_total).
    destruct (fc_value c) as [w|w].
    + destruct (f_eqb w v) eqn:Hwv.
      * destruct (Hread [Input (fc_op c); Input (fc_addr c); Input (fc_step c); Input w]) as (r & st' & Hrun & Hr). exists r, st'. split; [|exact Hr].
        eapply bind_run; [reflexivity|]. rewrite initialize_data. eapply lift_run; [exact Hdr|]. rewrite Hwv. exact Hrun.
      * eexists _, _. split; [|split]; [|..]. { eapply bind_run; [reflexivity|]. rewrite initialize_data. eapply lift_run; [exact Hdr|]. rewrite Hwv. reflexivity. }
        all: discriminate.
    + edestruct Hread as (r & st' & Hrun & Hr). exists r, st'. split; [|exact Hr]. eapply bind_run; [reflexivity|]. rewrite initialize_data. eapply lift_run; [exact Hdr|]. exact Hrun.
Qed.

Lemma run_calls_return calls : forall done log m st, CallInv log m st -> Forall full_ok calls ->
  (forall e, e ∈ log -> exists c, c ∈ done /\ addr_of e = to_integer (fc_addr c) /\ step_of e = to_integer (fc_step c)) ->
  (forall c c', c ∈ done -> c' ∈ calls -> same_addr c c' -> to_integer (fc_step c) < to_integer (fc_step c')) -> calls_ordered calls ->
  (has_bootloader_write_column cfg = true -> (forall c, c ∈ done -> ds_initialized st !! to_integer (fc_addr c) = Some true) /\ calls_booted done calls) ->
  exists rs st', run_calls (to_call <$> calls) st = Some (rs, st') /\ Forall (fun r => fst r <> POk false) rs /\
    (Z.of_nat (length log + length calls) <= range_max (degree_range cfg) -> Forall (fun r => fst r <> RowsExhausted) rs).
Proof.
  induction calls as [|c calls IH]; intros done log m st Hinv Hok Hlog Hord Hsort Hboot.
  - exists [], st. split; [reflexivity|]. split; [apply List.Forall_nil|]. intros _. apply List.Forall_nil.
  - apply Forall_cons in Hok as [Hc Hok]. apply StronglySorted_inv in Hsort as [Hsort Hnext].
    assert (Hl : later log (fc_addr c) (fc_step c)).
    { intros e He Ha. destruct (Hlog e He) as (c' & Hc' & Ha' & ->). apply Hord; [exact Hc'|now left|]. unfold same_addr. congruence. }
    assert (Hma : may_access (fc_addr c) (is_boot_id (fc_op c)) st = true).
    { unfold may_access. destruct (has_bootloader_write_column cfg); [|reflexivity]. destruct (Hboot eq_refl) as [Hi [[->|(c' & Hc' & Hs)] _]]; [cbn; now rewrite orb_true_r|].
      unfold same_addr in Hs. cbn. now rewrite <- Hs, (Hi c' Hc'). }
    destruct (full_call_returns log m st c Hinv Hc Hl Hma) as ([r cells] & st1 & Hp & Hnf & Hre).
    pose proof (process_refines log m st _ _ r cells st1 Hinv Hp) as Href. destruct (memory_call m _) as [[out cells'] m1]. destruct Href as (Hout & _ & log1 & Hinv1 & Hext & _).
    assert (Hlog1 : (forall e, e ∈ log1 -> exists c', c' ∈ c :: done /\ addr_of e = to_integer (fc_addr c') /\ step_of e = to_integer (fc_step c')) /\ (length log1 <= S (length log))%nat).
    { assert (Hmono : forall e, e ∈ log -> exists c', c' ∈ c :: done /\ addr_of e = to_integer (fc_addr c') /\ step_of e = to_integer (fc_step c')).
      { intros e He. destruct (Hlog e He) as (c' & Hc' & Hes). exists c'. split; [now right|exact Hes]. }
      destruct out; cbn in Hext; [|subst log1; split; [exact Hmono|lia]..].
      destruct Hext as (o & a & s & v & sel & [= <- <- <-] & ->). rewrite length_app. split; [|cbn; lia]. intros e [He|He]%elem_of_app; [now apply Hmono|].
      apply list_elem_of_singleton in He as ->. exists c. split; [now left|]. now split. }
    destruct Hlog1 as [Hlog1 Hlen1].
    destruct (IH (c :: done) log1 m1 st1 Hinv1 Hok Hlog1) as (rs & st2 & Hrun & Hrs & Hrows); [|exact Hsort| |].
    + intros x y Hx Hy Hxy. apply elem_of_cons in Hx as [->|Hx]; [|apply Hord; [exact Hx|now right|exact Hxy]].
      rewrite List.Forall_forall in Hnext. apply Hnext; [now apply list_elem_of_In|exact Hxy].
    + intros Hb. destruct (Hboot Hb) as [Hi [_ Hbt]]. split; [|exact Hbt]. intros x Hx. destruct (process_initialized _ _ _ _ _ _ Hp Hnf) as (o & a & s & vp & rest & Heq & _ & -> & _).
      injection Heq as <- <- <- <- <-. unfold initialize. rewrite Hb. cbn. destruct (Z.eq_dec (to_integer (fc_addr c)) (to_integer (fc_addr x))) as [->|Hne]; [now rewrite lookup_insert_eq|].
      rewrite lookup_insert_ne by exact Hne. apply elem_of_cons in Hx as [->|Hx]; [now destruct Hne|now apply Hi].
    + exists ((r, cells) :: rs), st2. split; [cbn [fmap list_fmap run_calls map_collect]; eapply bind_run; [exact Hp|]; eapply bind_run; [exact Hrun|]; reflexivity|]. split; [now apply Forall_cons|].
      cbn [length]. intros Hle. apply Forall_cons. split; [apply Hre; lia|]. apply Hrows. lia.
Qed.

(** C22: The machine answers every sequence of calls whose arguments are known (the value only where it is written), whose
    steps increase at each address, and which, in a machine with bootloader writes, starts with one at each address:
    no call panics or is left incomplete, and as long as there are not more calls than rows at the largest degree,
    none runs out of rows. *)
Theorem calls_return (calls : list FullCall) :
  Forall full_ok calls -> calls_ordered calls -> (has_bootloader_write_column cfg = true -> calls_booted [] calls) ->
  exists rs st, run_calls (to_call <$> calls) (ds_init cfg) = Some (rs, st) /\ Forall (fun r => fst r <> POk false) rs /\
    (Z.of_nat (length calls) <= range_max (degree_range cfg) -> Forall (fun r => fst r <> RowsExhausted) rs).
Proof.
  intros Hok Hord Hb. apply (run_calls_return calls [] [] ∅ (ds_init cfg) call_init Hok); [|..|exact Hord|].
  - intros e He. now apply elem_of_nil in He.
  - intros c c' Hc. now apply elem_of_nil in Hc.
  - intros Hcol. split; [|now apply Hb]. intros c Hc. now apply elem_of_nil in Hc.
Qed.

(** *** The announcement of what can be processed *)

Definition is_input (c : LookupCell (T:=T)) : bool := match c with Input _ => true | Output _ => false end.

(** What [can_process_call_fully] announces holds: a call whose known arguments are those announced, and whose
    operation is one the announced range allows, is never left incomplete. *)
Theorem can_process_sound identity_id known_arguments range_constraints ranges values st r cells st' :
  can_process_call_fully cfg identity_id known_arguments range_constraints = Some (Some ranges) ->
  known_arguments = is_input <$> values ->
  (forall operation_id rc, values !! 0%nat = Some (Input operation_id) -> range_constraints !! 0%nat = Some rc -> rc_allows_value rc operation_id = true) ->
  process_plookup_internal cfg identity_id values st = Some ((r, cells), st') -> r <> POk false.
Proof.
  intros Hcan -> Hrc Hp. unfold can_process_call_fully in Hcan.
  destruct (assert_that (existsb _ _)); [|discriminate]. cbn [mbind option_bind] in Hcan. destruct values as [|c0 [|c1 [|c2 [|c3 [|c4 values]]]]]; try discriminate.
  cbn -[rc_allows_value from_u64] in Hcan. destruct (assert_that _); [|discriminate]. cbn -[rc_allows_value from_u64] in Hcan. destruct c0 as [o|]; [|discriminate]. destruct c1 as [a|]; [|discriminate]. destruct c2 as [s|]; [|discriminate].
  rewrite process_known in Hp. destruct (find_selector identity_id) as [sel|]; [|discriminate]. destruct (may_access _ _ _); [|discriminate]. unfold known_call in Hp.
  destruct (is_write_id o) eqn:Hw; unfold gets, modify, mbind, M_bind, lift in Hp.
  - destruct c3 as [v|v].
    + destruct (data_write _ _ _); [|discriminate]. apply finish_access_initialized in Hp as [_ Ho]. now intros ->.
    + exfalso. cbn -[rc_allows_value from_u64] in Hcan. destruct (range_constraints !! 0%nat) as [rc|]; [|discriminate]. specialize (Hrc o rc eq_refl eq_refl). cbn [mbind option_bind] in Hcan. apply Some_inj in Hcan.
      apply orb_true_iff in Hw as [He|He]; apply f_eqb_eq in He as ->; rewrite Hrc in Hcan; cbn in Hcan; [discriminate|]. destruct (negb _) in Hcan; discriminate.
  - destruct (data_read _ _) as [v|]; [|discriminate]. destruct c3 as [x|x]; [destruct (f_eqb _ _)|].
    + apply finish_access_initialized in Hp as [_ Ho]. now intros ->.
    + now injection Hp as <- <- <-.
    + apply finish_access_initialized in Hp as [_ Ho]. now intros ->.
Qed.

End Calls.

(** ** A machine with two callers *)

Module DsDemo.
Notation GL := GoldilocksField.

Definition sel (i : Z) : PolyID := mkPolyID i Committed.
Definition col_name (p : PolyID) : string := match poly_id p with 7 => "main_memory::selectors[0]" | _ => "main_memory::selectors[1]" end.
Definition cfg : DsConfig := mkDsConfig (mkDegreeRange 8 32) "main_memory" (Some (2 ^ 16)) false [(1, sel 7); (2, sel 8)] col_name.

Definition call (identity op addr step : Z) (v : LookupCell (T:=GL)) : FullCall (T:=GL) := mkFullCall identity (from_int op) (from_int addr) (from_int step) v.
Definition calls : list (FullCall (T:=GL)) :=
  [call 1 1 5 1 (Input (from_int 7)); call 2 0 300 2 (Output (from_int 0)); call 1 0 5 3 (Output (from_int 0)); call 2 0 5 9 (Input (from_int 8))].

Definition answers (calls : list (FullCall (T:=GL))) : option (list (PlookupResult * list Z)) :=
  match run_calls cfg (map to_call calls) (ds_init cfg) with
  | Some (rs, _) => Some (map (fun r => (fst r, map (fun c => match c with Input v | Output v => to_integer v end) (snd r))) rs)
  | None => None
  end.

Example calls_answer : answers calls =
  Some [(POk true, [1; 5; 1; 7]); (POk true, [0; 300; 2; 0]); (POk true, [0; 5; 3; 7]); (ConstraintUnsatisfiable, [0; 5; 9; 8])].
Proof. vm_compute. reflexivity. Qed.

Lemma calls_full : Forall (full_ok cfg) calls.
Proof.
  unfold calls. repeat (apply List.Forall_cons; [|]); [..|apply List.Forall_nil]; (split; [vm_compute; now eexists|split; [vm_compute; reflexivity|]]);
    first [intros _; vm_compute; now eexists|vm_compute; discriminate].
Qed.
Lemma calls_order : calls_ordered calls.
Proof. unfold calls_ordered, calls. repeat (apply SSorted_cons; [|]); try apply SSorted_nil; repeat (apply List.Forall_cons; [intros _; vm_compute; reflexivity|]); apply List.Forall_nil. Qed.

Lemma calls_return_witness : exists rs st, run_calls cfg (to_call <$> calls) (ds_init cfg) = Some (rs, st) /\ Forall (fun r => fst r <> POk false) rs /\
  (4 <= 32 -> Forall (fun r => fst r <> RowsExhausted) rs).
Proof. exact (calls_return cfg calls calls_full calls_order ltac:(discriminate)). Defined.

Lemma calls_refine_memory_witness : exists rs st, run_calls cfg (to_call <$> calls) (ds_init cfg) = Some (rs, st) /\
  (fun r : PlookupResult * list LookupCell => (outcome (fst r), snd r)) <$> rs = memory_calls ∅ (to_call <$> calls) /\
  ds_trace st = sort_by_key key_le akey (log_of cfg (to_call <$> calls) rs).
Proof.
  destruct calls_return_witness as (rs & st & Hrun & _). exists rs, st. split; [exact Hrun|]. exact (calls_refine_memory cfg (to_call <$> calls) rs st Hrun).
Defined.

Definition values : list (LookupCell (T:=GL)) := [Input (from_int 0); Input (from_int 5); Input (from_int 1); Output (from_int 0)].
Definition ranges : list (RangeConstraint GL) := [rc_from_value (from_int 0); rc_unconstrained; rc_unconstrained; rc_unconstrained].

Lemma can_process_sound_witness : exists r cells st', process_plookup_internal cfg 1 values (ds_init cfg) = Some ((r, cells), st') /\ r <> POk false.
Proof.
  destruct (process_plookup_internal cfg 1 values (ds_init cfg)) as [[[r cells] st']|] eqn:Hp; [|exfalso; vm_compute in Hp; discriminate].
  exists r, cells, st'. split; [reflexivity|].
  refine (can_process_sound cfg 1 [true; true; true; false] ranges (replicate 4 rc_unconstrained) values (ds_init cfg) r cells st' _ eq_refl _ Hp); [vm_compute; reflexivity|].
  intros o rc [= <-] [= <-]. vm_compute. reflexivity.
Defined.

End DsDemo.
