(* ===== verification/DoubleSortedColumns.v ===== *)
(** * The columns of the memory machine of witness generation

    [take_witness_col_values] of [double_sorted_witness_machine_32.rs]: its columns are those of the
    rows of the sorted trace with the padding, and satisfy the constraints of the two machines of
    [std/machines/large_field] that it generates witnesses for. *)

From Stdlib Require Import ZArith Lia.
From stdpp Require Import base list option gmap strings sorting.
From S2P Require Import Prelude Field RangeConstraints SymbolicExpr Effect ExpressionEvaluator PanicMonad RiscvElem RiscvMemory DoubleSorted.

(** ** Rows *)

Section Rows.
Context {T : Type} `{LL : LargeFieldLaws T}.
Notation Acc := (Access (T:=T)).

Record Row := mkRow { r_addr : T; r_step : T; r_value : T; r_write : bool; r_boot : bool; r_sel : option PolyID }.

Definition row_of (e : Acc) : Row :=
  mkRow (fst (fst e)) (snd (fst e)) (value (snd e)) (is_normal_write (snd e)) (is_bootloader_write (snd e)) (Some (selector_id (snd e))).
Definition pad_of (r : Row) : Row := mkRow (r_addr r) (f_add (r_step r) f_one) (r_value r) false false None.
Definition empty_row : Row := mkRow (f_neg f_one) (from_int 0) (from_int 0) false false None.

Fixpoint pads (n : nat) (r : Row) : list Row := match n with O => [] | S n' => pad_of r :: pads n' (pad_of r) end.

Definition base_rows (tr : list Acc) : list Row := match tr with [] => [empty_row] | _ => row_of <$> tr end.
Definition final_rows (tr : list Acc) (d : nat) : list Row :=
  base_rows tr ++ pads (d - length (base_rows tr)) (default empty_row (last (base_rows tr))).

(** The difference of two rows, minus one. *)
Definition key_diff (r r' : Row) : Z :=
  if negb (f_eqb (r_addr r') (r_addr r)) then to_integer (f_sub (r_addr r') (r_addr r)) - 1 else to_integer (f_sub (r_step r') (r_step r)) - 1.
Fixpoint diffs (rows : list Row) : list Z :=
  match rows with r :: ((r' :: _) as l) => key_diff r r' :: diffs l | _ => [] end.

Definition indicator (rows : list Row) (id : PolyID) : list T := (fun r => if bool_decide (Some id = r_sel r) then f_one else f_zero) <$> rows.
Definition columns_of (ids : list PolyID) (rows : list Row) : Columns :=
  mkColumns (r_addr <$> rows) (r_step <$> rows) (r_value <$> rows) (r_write <$> rows) (r_boot <$> rows) (diffs rows) ((fun id => (id, indicator rows id)) <$> ids).

Definition row_lt (r r' : Row) : Prop :=
  to_integer (r_addr r) < to_integer (r_addr r') \/ (to_integer (r_addr r) = to_integer (r_addr r') /\ to_integer (r_step r) < to_integer (r_step r')).
Definition row_small (r : Row) : Prop := to_integer (r_addr r) < 2 ^ 32 /\ to_integer (r_step r) < 2 ^ 32.

Lemma diffs_snoc rows r r' : last rows = Some r -> diffs (rows ++ [r']) = diffs rows ++ [key_diff r r'].
Proof.
  induction rows as [|x rows IH]; [discriminate|]. destruct rows as [|y rows]; [intros [= ->]; reflexivity|].
  intros Hl. change (last (y :: rows) = Some r) in Hl. change (diffs ((x :: y :: rows) ++ [r'])) with (key_diff x y :: diffs ((y :: rows) ++ [r'])).
  rewrite (IH Hl). reflexivity.
Qed.

Lemma length_diffs rows : length (diffs rows) = (length rows - 1)%nat.
Proof. induction rows as [|x [|y rows] IH]; [reflexivity|reflexivity|]. change (diffs (x :: y :: rows)) with (key_diff x y :: diffs (y :: rows)). cbn [length] in *. rewrite IH. lia. Qed.

Lemma diffs_lookup rows : forall i r r', rows !! i = Some r -> rows !! S i = Some r' -> diffs rows !! i = Some (key_diff r r').
Proof.
  induction rows as [|x [|y rows] IH]; intros i r r' Hi Hi'; [discriminate|discriminate|]. change (diffs (x :: y :: rows)) with (key_diff x y :: diffs (y :: rows)).
  destruct i as [|i]; [injection Hi as ->; injection Hi' as ->; reflexivity|]. exact (IH i r r' Hi Hi').
Qed.

Lemma changes_lookup (l : list T) : forall i a a', l !! i = Some a -> l !! S i = Some a' -> changes l !! i = Some (if f_eqb a a' then from_int 0 else from_int 1).
Proof.
  induction l as [|x [|y l] IH]; intros i a a' Hi Hi'; [discriminate|discriminate|].
  change (changes (x :: y :: l)) with ((if f_eqb x y then from_int (T:=T) 0 else from_int 1) :: changes (y :: l)).
  destruct i as [|i]; [injection Hi as ->; injection Hi' as ->; reflexivity|]. exact (IH i a a' Hi Hi').
Qed.

Lemma length_changes (l : list T) : length (changes l) = (length l - 1)%nat.
Proof.
  induction l as [|x [|y l] IH]; [reflexivity|reflexivity|].
  change (changes (x :: y :: l)) with ((if f_eqb x y then from_int (T:=T) 0 else from_int 1) :: changes (y :: l)). cbn [length] in *. rewrite IH. lia.
Qed.

Lemma set_selector_rows ids rows r : set_selector (r_sel r) ((fun id => (id, indicator rows id)) <$> ids) = (fun id => (id, indicator (rows ++ [r]) id)) <$> ids.
Proof.
  unfold set_selector. rewrite <- list_fmap_compose. apply list_fmap_ext. intros _ id _. cbn. unfold indicator. now rewrite fmap_app.
Qed.

Lemma columns_of_snoc ids rows r diff : diff = diffs (rows ++ [r]) ->
  mkColumns (w_addr (columns_of ids rows) ++ [r_addr r]) (w_step (columns_of ids rows) ++ [r_step r]) (w_value (columns_of ids rows) ++ [r_value r])
    (w_normal (columns_of ids rows) ++ [r_write r]) (w_boot (columns_of ids rows) ++ [r_boot r]) diff (set_selector (r_sel r) (w_selectors (columns_of ids rows))) =
  columns_of ids (rows ++ [r]).
Proof. intros ->. unfold columns_of. cbn [w_addr w_step w_value w_normal w_boot w_selectors]. rewrite !fmap_app, set_selector_rows. reflexivity. Qed.

(** *** Differences *)

Lemma f_sub_small (x y : T) : to_integer y <= to_integer x -> to_integer (f_sub x y) = to_integer x - to_integer y.
Proof. intros Hxy. rewrite f_sub_spec. apply Z.mod_small. pose proof (to_integer_range x). pose proof (to_integer_range y). lia. Qed.

Lemma f_eqb_neq (x y : T) : to_integer x <> to_integer y -> f_eqb x y = false.
Proof. apply Z.eqb_neq. Qed.
Lemma f_eqb_refl (x y : T) : to_integer x = to_integer y -> f_eqb x y = true.
Proof. apply Z.eqb_eq. Qed.

Lemma key_diff_addr r r' : to_integer (r_addr r) < to_integer (r_addr r') -> key_diff r r' = to_integer (r_addr r') - to_integer (r_addr r) - 1.
Proof. intros Hlt. unfold key_diff. rewrite f_eqb_neq by lia. cbn [negb]. now rewrite f_sub_small by lia. Qed.
Lemma key_diff_step r r' : to_integer (r_addr r) = to_integer (r_addr r') -> to_integer (r_step r) < to_integer (r_step r') ->
  key_diff r r' = to_integer (r_step r') - to_integer (r_step r) - 1.
Proof. intros Ha Hlt. unfold key_diff. rewrite f_eqb_refl by lia. cbn [negb]. now rewrite f_sub_small by lia. Qed.

Lemma to_integer_one : to_integer (T:=T) f_one = 1.
Proof. unfold f_one. apply from_int_small. lia. Qed.
Lemma to_integer_zero : to_integer (T:=T) f_zero = 0.
Proof. unfold f_zero. apply from_int_small. lia. Qed.

Lemma key_diff_pad r : key_diff r (pad_of r) = 0.
Proof.
  unfold key_diff, pad_of. cbn [r_addr r_step]. rewrite f_eqb_refl by reflexivity. cbn [negb]. rewrite f_sub_spec, f_add_spec, to_integer_one.
  rewrite Zminus_mod_idemp_l. replace (to_integer (r_step r) + 1 - to_integer (r_step r)) with 1 by lia. pose proof (modulus_large (T:=T)). rewrite Z.mod_small by lia. reflexivity.
Qed.

End Rows.
Arguments Row : clear implicits.

(** ** The columns of the rows *)

Section Push.
Context {T : Type} `{LL : LargeFieldLaws T}.
Notation Acc := (Access (T:=T)).
Variable cfg : DsConfig.

Lemma try_into_u64_small (x : T) : to_integer x < 2 ^ 64 -> try_into_u64 x = Some (to_integer x).
Proof. intros Hx. unfold try_into_u64. now rewrite (proj2 (Z.ltb_lt _ _) Hx). Qed.

Lemma push_access_rows ids rows (e : Acc) : (forall r, last rows = Some r -> row_lt r (row_of e)) -> row_small (row_of e) ->
  push_access cfg (columns_of ids rows) e = Some (columns_of ids (rows ++ [row_of e])).
Proof.
  intros Hlt [Ha Hs]. destruct e as [[a s] o]. unfold push_access. cbn [row_of r_addr r_step fst snd] in *.
  assert (Hlast : last (w_addr (columns_of ids rows)) = r_addr <$> last rows) by (cbn [columns_of w_addr]; apply fmap_last).
  assert (Hlasts : last (w_step (columns_of ids rows)) = r_step <$> last rows) by (cbn [columns_of w_step]; apply fmap_last). rewrite Hlast, Hlasts.
  destruct (last rows) as [r|] eqn:Hr; cbn [fmap option_fmap option_map].
  2:{ apply last_None in Hr as ->. eapply bind_eq; [reflexivity|]. apply f_equal. exact (columns_of_snoc ids [] (row_of ((a, s), o)) [] eq_refl). }
  specialize (Hlt r eq_refl). unfold row_lt in Hlt. cbn [row_of r_addr r_step fst snd] in Hlt.
  eapply bind_eq; [|apply f_equal; exact (columns_of_snoc ids rows (row_of ((a, s), o)) _ (eq_sym (diffs_snoc rows r _ Hr)))].
  eapply bind_eq. { apply assert_that_true. apply Z.leb_le. lia. }
  assert (Hjump : exists z, match diff_columns_base cfg with None => try_into_u64 (f_sub a (r_addr r)) | Some _ => Some 0 end = Some z).
  { destruct (diff_columns_base cfg); [now eexists|]. rewrite try_into_u64_small; [now eexists|]. rewrite f_sub_small by lia. pose proof (to_integer_range (r_addr r)). lia. }
  destruct Hjump as [z ->]. cbn [mbind option_bind]. unfold key_diff. cbn [row_of r_addr r_step fst snd].
  pose proof (to_integer_range (r_addr r)). pose proof (to_integer_range (r_step r)).
  destruct Hlt as [Hlt|[Heq Hlt]].
  - rewrite f_eqb_neq by lia. cbn [negb mbind option_bind]. assert (Hsub : to_integer (f_sub a (r_addr r)) = to_integer a - to_integer (r_addr r)) by (apply f_sub_small; lia).
    eapply bind_eq. { apply assert_that_true. apply Z.ltb_lt. rewrite to_integer_zero. lia. } rewrite try_into_u64_small by lia. reflexivity.
  - rewrite f_eqb_refl by lia. cbn [negb mbind option_bind]. assert (Hsub : to_integer (f_sub s (r_step r)) = to_integer s - to_integer (r_step r)) by (apply f_sub_small; lia).
    eapply bind_eq. { apply assert_that_true. apply Z.ltb_lt. rewrite to_integer_zero. lia. } rewrite try_into_u64_small by lia. reflexivity.
Qed.

Lemma push_trace_rows ids (tr : list Acc) : forall rows, (forall r e, last rows = Some r -> head tr = Some e -> row_lt r (row_of e)) ->
  (forall i e e', tr !! i = Some e -> tr !! S i = Some e' -> row_lt (row_of e) (row_of e')) -> Forall (fun e => row_small (row_of e)) tr ->
  push_trace cfg (columns_of ids rows) tr = Some (columns_of ids (rows ++ (row_of <$> tr))).
Proof.
  induction tr as [|e tr IH]; intros rows Hh Hadj Hsm; cbn [push_trace fmap list_fmap]; [now rewrite app_nil_r|].
  apply Forall_cons in Hsm as [He Hsm]. rewrite push_access_rows; [|intros r Hr; now apply Hh|exact He]. cbn [mbind option_bind].
  rewrite IH; [now rewrite <- app_assoc| |intros i; apply (Hadj (S i))|exact Hsm].
  intros r e' Hr He'. rewrite last_snoc in Hr. injection Hr as <-. rewrite head_lookup in He'. now apply (Hadj 0%nat).
Qed.

Lemma push_paddings_rows ids n : forall rows r, last rows = Some r -> push_paddings n (columns_of ids rows) = Some (columns_of ids (rows ++ pads n r)).
Proof.
  induction n as [|n IH]; intros rows r Hr; cbn [push_paddings pads]; [now rewrite app_nil_r|].
  assert (Hp : push_padding (columns_of ids rows) = Some (columns_of ids (rows ++ [pad_of r]))).
  { unfold push_padding. cbn [columns_of w_addr w_step w_value]. rewrite !fmap_last, Hr. cbn [fmap option_fmap option_map mbind option_bind]. apply f_equal.
    etransitivity; [|apply (columns_of_snoc ids rows (pad_of r)); reflexivity]. cbn [columns_of w_addr w_step w_value w_normal w_boot w_diff w_selectors pad_of r_addr r_step r_value r_write r_boot r_sel].
    now rewrite (diffs_snoc rows r), key_diff_pad. }
  rewrite Hp. cbn [mbind option_bind]. rewrite (IH _ (pad_of r)); [now rewrite <- app_assoc|]. apply last_snoc.
Qed.

Lemma first_row_rows ids (tr : list Acc) : first_row (columns_of ids (row_of <$> tr)) = columns_of ids (base_rows tr).
Proof.
  destruct tr as [|e tr]; [|reflexivity]. unfold first_row. cbn [columns_of w_addr fmap list_fmap base_rows].
  change [f_neg (f_one (T:=T))] with ([] ++ [r_addr (empty_row (T:=T))]). exact (columns_of_snoc ids [] empty_row [] eq_refl).
Qed.

Lemma length_pads n : forall r : Row T, length (pads n r) = n.
Proof. induction n as [|n IH]; intros r; cbn; [reflexivity|now rewrite IH]. Qed.

Lemma base_rows_last (tr : list Acc) : exists r, last (base_rows tr) = Some r /\ default empty_row (last (base_rows tr)) = r.
Proof.
  destruct (last (base_rows tr)) as [r|] eqn:Hl; [now exists r|]. apply last_None in Hl. destruct tr; discriminate.
Qed.

Lemma length_final_rows (tr : list Acc) d : (length (base_rows tr) <= d)%nat -> length (final_rows tr d) = d.
Proof. intros Hd. unfold final_rows. rewrite length_app, length_pads. lia. Qed.

Lemma base_rows_length (tr : list Acc) : length (base_rows tr) = Nat.max 1 (length tr).
Proof. destruct tr; cbn [base_rows]; rewrite ?length_fmap; cbn [length]; lia. Qed.

Lemma head_fmap {A B} (f : A -> B) l : head (f <$> l) = f <$> head l.
Proof. now destruct l. Qed.

(** Columns with distinct names are found by their names. *)
Lemma named_column (l : list (string * list T)) name c : NoDup (fst <$> l) -> (name, c) ∈ l -> (list_to_map (rev l) : gmap string (list T)) !! name = Some c.
Proof.
  intros Hnd Hin. apply elem_of_list_to_map_1; [|].
  - apply (NoDup_Permutation_proper _ (fst <$> l)); [apply fmap_Permutation; symmetry; apply Permutation_rev|exact Hnd].
  - rewrite <- Permutation_rev. exact Hin.
Qed.

(** The names of all columns. *)
Definition selector_polys : list PolyID := remove_dups (snd <$> selector_ids cfg).
Definition column_names : list string :=
  [namespaced cfg "m_value"; namespaced cfg "m_addr"; namespaced cfg "m_step"; namespaced cfg "m_change"; namespaced cfg "m_is_write"] ++
  [namespaced cfg "m_diff_upper"; namespaced cfg "m_diff_lower"] ++
  (if has_bootloader_write_column cfg then [namespaced cfg BOOTLOADER_WRITE_COLUMN] else []) ++ (column_name cfg <$> selector_polys).

Definition last_change (rows : list (Row T)) : T :=
  if has_bootloader_write_column cfg
  then (if f_eqb (default f_zero (head (r_addr <$> rows))) (default f_zero (last (r_addr <$> rows))) then f_zero else f_one) else from_int 1.

(** The columns by name. *)
Record ColumnsAre (base : Z) (rows : list (Row T)) (cols : gmap string (list T)) : Prop := {
  col_addr : cols !! namespaced cfg "m_addr" = Some (r_addr <$> rows);
  col_step : cols !! namespaced cfg "m_step" = Some (r_step <$> rows);
  col_value : cols !! namespaced cfg "m_value" = Some (r_value <$> rows);
  col_change : cols !! namespaced cfg "m_change" = Some (changes (r_addr <$> rows) ++ [last_change rows]);
  col_write : cols !! namespaced cfg "m_is_write" = Some (bool_column (r_write <$> rows));
  col_upper : cols !! namespaced cfg "m_diff_upper" = Some ((fun d => from_u64 (d / base)) <$> (diffs rows ++ [0]));
  col_lower : cols !! namespaced cfg "m_diff_lower" = Some ((fun d => from_u64 (d mod base)) <$> (diffs rows ++ [0]));
  col_boot : has_bootloader_write_column cfg = true -> cols !! namespaced cfg BOOTLOADER_WRITE_COLUMN = Some (bool_column (r_boot <$> rows));
  col_selector : forall id, id ∈ selector_polys -> cols !! column_name cfg id = Some (indicator rows id)
}.

Lemma take_columns (st : DsState) base d :
  (forall i e e', ds_trace st !! i = Some e -> ds_trace st !! S i = Some e' -> row_lt (row_of e) (row_of e')) -> Forall (fun e => row_small (row_of e)) (ds_trace st) ->
  NoDup column_names -> diff_columns_base cfg = Some base -> 0 < base ->
  compute_size_and_log (Z.of_nat (Nat.max 1 (length (ds_trace st)))) (degree_range cfg) = Some d -> Z.of_nat (Nat.max 1 (length (ds_trace st))) <= d ->
  exists cols st', take_witness_col_values cfg st = Some (cols, st') /\ ColumnsAre base (final_rows (ds_trace st) (Z.to_nat d)) cols.
Proof.
  intros Hadj Hsm Hnd Hbase Hpos Hsize Hd. set (tr := ds_trace st) in *. set (rows := final_rows tr (Z.to_nat d)).
  assert (Hbl : (length (base_rows tr) <= Z.to_nat d)%nat) by (rewrite base_rows_length; lia).
  assert (Hrl : length rows = Z.to_nat d) by now apply length_final_rows.
  destruct (base_rows_last tr) as (rl & Hl1 & Hl2).
  assert (Hne : exists r0 r1, head rows = Some r0 /\ last rows = Some r1).
  { rewrite head_lookup, last_lookup. destruct (lookup_lt_is_Some_2 rows 0%nat) as [r0 H0r]; [lia|]. destruct (lookup_lt_is_Some_2 rows (Nat.pred (length rows))) as [r1 H1r]; [lia|]. eauto. }
  destruct Hne as (r0 & r1 & Hr0 & Hr1). set (c := columns_of selector_polys rows).
  eexists _, _. split.
  - unfold take_witness_col_values. eapply bind_run; [reflexivity|]. eapply bind_run; [reflexivity|]. fold tr. eapply lift_run.
    { change (mkColumns [] [] [] [] [] [] _) with (columns_of (T:=T) selector_polys []). apply push_trace_rows; [discriminate|exact Hadj|exact Hsm]. }
    cbn [app]. rewrite first_row_rows. eapply lift_run. { cbn [columns_of w_addr]. rewrite length_fmap, base_rows_length. exact Hsize. }
    eapply bind_run; [reflexivity|]. eapply lift_run.
    { cbn [columns_of w_addr]. rewrite length_fmap. rewrite (push_paddings_rows _ _ _ rl Hl1). rewrite <- Hl2. reflexivity. }
    change (columns_of selector_polys _) with c. eapply bind_run.
    { apply lift_some, assert_that_true. unfold c. cbn [columns_of w_diff]. rewrite length_diffs, Hrl. apply Z.eqb_eq. lia. }
    eapply lift_run. { unfold c. cbn [columns_of w_addr]. rewrite head_fmap, Hr0. reflexivity. }
    eapply lift_run. { unfold c. cbn [columns_of w_addr]. rewrite fmap_last, Hr1. reflexivity. }
    eapply bind_run.
    { apply lift_some, assert_that_true. unfold c. cbn [columns_of w_addr]. rewrite length_app, length_changes, length_fmap, Hrl. apply Nat.eqb_eq. cbn. lia. }
    eapply lift_run. { rewrite Hbase. rewrite (proj2 (Z.eqb_neq base 0)) by lia. reflexivity. } reflexivity.
  - match goal with |- ColumnsAre _ _ (list_to_map (rev ?x)) => set (l := x) end. assert (Hnames : fst <$> l = column_names).
    { assert (Hsel : fst <$> ((fun p => (column_name cfg (fst p), snd p)) <$> w_selectors c) = column_name cfg <$> selector_polys).
      { unfold c. cbn [columns_of w_selectors]. rewrite <- !list_fmap_compose. reflexivity. }
      unfold l, column_names. rewrite <- Hsel. destruct (has_bootloader_write_column cfg); rewrite !fmap_app; reflexivity. }
    assert (Hcol : forall name col, (name, col) ∈ l -> (list_to_map (rev l) : gmap string (list T)) !! name = Some col) by (intros; apply named_column; [now rewrite Hnames|assumption]).
    assert (Hch : last_change rows = if has_bootloader_write_column cfg then (if f_eqb (r_addr r0) (r_addr r1) then f_zero else f_one) else from_int 1).
    { unfold last_change. now rewrite head_fmap, Hr0, fmap_last, Hr1. }
    assert (Hat : forall (k : nat) name col, l !! k = Some (name, col) -> (list_to_map (rev l) : gmap string (list T)) !! name = Some col) by (intros k name col Hk; apply Hcol; eapply list_elem_of_lookup_2; exact Hk).
    unfold l, c in Hcol, Hat. cbn [columns_of w_addr w_step w_value w_normal w_boot w_diff w_selectors] in Hcol, Hat. rewrite <- Hch in Hcol, Hat. subst l c.
    cbn [columns_of w_addr w_step w_value w_normal w_boot w_diff w_selectors]. rewrite <- Hch. split.
    + now apply (Hat 1%nat).
    + now apply (Hat 2%nat).
    + now apply (Hat 0%nat).
    + now apply (Hat 3%nat).
    + now apply (Hat 4%nat).
    + now apply (Hat 5%nat).
    + now apply (Hat 6%nat).
    + intros Hb. apply (Hat 7%nat). now rewrite Hb.
    + intros id Hid. apply Hcol. do 7 (apply elem_of_cons; right). apply elem_of_app; right. apply list_elem_of_fmap. exists (id, indicator rows id). split; [reflexivity|].
      apply list_elem_of_fmap. now exists id.
Qed.

End Push.

(** ** Neighbouring rows *)

Section Adjacent.
Context {T : Type} `{LL : LargeFieldLaws T}.
Notation Acc := (Access (T:=T)).
Notation sorted log := (sort_by_key key_le akey log).

Definition row_writes (r : Row T) : bool := r_boot r || r_write r.

(** Neighbours are ordered, and a read sees the value of the row before it, or zero at a new address. *)
Definition adjacent (r r' : Row T) : Prop :=
  (to_integer (r_addr r) < to_integer (r_addr r') /\ (row_writes r' = false -> to_integer (r_value r') = 0)) \/
  (to_integer (r_addr r) = to_integer (r_addr r') /\ 0 < to_integer (r_step r') - to_integer (r_step r) <= 2 ^ 32 /\
   (row_writes r' = false -> to_integer (r_value r') = to_integer (r_value r))).

Lemma trace_adjacent log i (e e' : Acc) : chronological (access_op <$> log) -> replay ∅ (access_op <$> log) -> Forall (fun e => row_small (row_of e)) log ->
  sorted log !! i = Some e -> sorted log !! S i = Some e' -> adjacent (row_of e) (row_of e').
Proof.
  intros Hc Hr Hsm Hi Hi'. assert (Hs : forall j x, sorted log !! j = Some x -> sort_by_key key_le op_key (access_op <$> log) !! j = Some (access_op x)).
  { intros j x Hj. rewrite <- sorted_access_op, list_lookup_fmap, Hj. reflexivity. }
  assert (Hw : row_writes (row_of e') = false -> op_writes (access_op e') = false) by (rewrite access_op_writes; auto).
  assert (Hsmall : row_small (row_of e')).
  { rewrite List.Forall_forall in Hsm. apply Hsm. apply list_elem_of_In, sorted_log_elem. eapply list_elem_of_lookup_2. exact Hi'. }
  destruct Hsmall as [_ Hst]. pose proof (to_integer_range (r_step (row_of e))).
  destruct (neighbours (access_op <$> log) i (access_op e) (access_op e') Hc Hr (Hs i e Hi) (Hs (S i) e' Hi')) as [[Hlt Hv]|(Heq & Hlt & Hv)].
  - left. split; [exact Hlt|]. intros Hn. exact (Hv (Hw Hn)).
  - right. split; [exact Heq|]. cbn [access_op mo_step mo_addr row_of r_step r_addr fst snd] in *. split; [lia|]. intros Hn. exact (Hv (Hw Hn)).
Qed.

Lemma adjacent_lt r r' : adjacent r r' -> row_lt r r'.
Proof. unfold adjacent, row_lt. lia. Qed.

Lemma pads_lookup n : forall (r : Row T) k, (k < n)%nat -> to_integer (r_step r) + Z.of_nat n < modulus (T:=T) ->
  exists p, pads n r !! k = Some p /\ r_addr p = r_addr r /\ r_value p = r_value r /\ to_integer (r_step p) = to_integer (r_step r) + Z.of_nat k + 1 /\
    r_write p = false /\ r_boot p = false /\ r_sel p = None.
Proof.
  induction n as [|n IH]; intros r k Hk Hb; [lia|]. cbn [pads].
  assert (Hstep : to_integer (r_step (pad_of r)) = to_integer (r_step r) + 1).
  { cbn [pad_of r_step]. rewrite f_add_spec, to_integer_one. apply Z.mod_small. pose proof (to_integer_range (r_step r)). lia. }
  destruct k as [|k].
  - exists (pad_of r). repeat split. rewrite Hstep. lia.
  - destruct (IH (pad_of r) k ltac:(lia) ltac:(rewrite Hstep; lia)) as (p & Hp & H1 & H2 & H3 & H4). exists p. split; [exact Hp|]. split; [exact H1|]. split; [exact H2|]. split; [rewrite H3, Hstep; lia|exact H4].
Qed.

Lemma adjacent_diff r r' : adjacent r r' -> 0 <= key_diff r r' /\ (row_small r' -> key_diff r r' < 2 ^ 32) /\
  (to_integer (r_addr r) = to_integer (r_addr r') -> key_diff r r' = to_integer (r_step r') - to_integer (r_step r) - 1 /\ key_diff r r' < 2 ^ 32) /\
  (to_integer (r_addr r) <> to_integer (r_addr r') -> key_diff r r' = to_integer (r_addr r') - to_integer (r_addr r) - 1).
Proof.
  intros Ha. pose proof (to_integer_range (r_addr r)). pose proof (to_integer_range (r_step r)). destruct Ha as [[Hlt _]|(Heq & Hlt & _)].
  - rewrite key_diff_addr by exact Hlt. unfold row_small. repeat split; lia.
  - rewrite key_diff_step by lia. repeat split; lia.
Qed.

Section Final.
Variables (tr : list Acc) (d : nat).
Hypothesis Hadj : forall i e e', tr !! i = Some e -> tr !! S i = Some e' -> adjacent (row_of e) (row_of e').
Hypothesis Hsm : Forall (fun e => row_small (row_of e)) tr.
Hypothesis Hlen : (length (base_rows tr) <= d)%nat.
Hypothesis Hd : Z.of_nat d <= 2 ^ 32.

Definition last_base : Row T := default empty_row (last (base_rows tr)).

Lemma last_base_lookup : base_rows tr !! (length (base_rows tr) - 1)%nat = Some last_base.
Proof.
  destruct (base_rows_last tr) as (r & Hl & Hr). unfold last_base. rewrite Hr. rewrite last_lookup in Hl. replace (length _ - 1)%nat with (Nat.pred (length (base_rows tr))) by lia. exact Hl.
Qed.

Lemma last_base_step : to_integer (r_step last_base) < 2 ^ 32.
Proof.
  pose proof last_base_lookup as Hl. unfold base_rows in Hl. destruct tr as [|e l] eqn:Htr.
  - cbn in Hl. injection Hl as <-. cbn [empty_row r_step]. rewrite from_int_small by lia. lia.
  - rewrite list_lookup_fmap in Hl. apply fmap_Some in Hl as (x & Hx & ->). rewrite List.Forall_forall in Hsm. apply Hsm. apply list_elem_of_In. eapply list_elem_of_lookup_2. exact Hx.
Qed.

Lemma final_old i r : base_rows tr !! i = Some r -> final_rows tr d !! i = Some r.
Proof. intros Hi. unfold final_rows. rewrite lookup_app_l; [exact Hi|]. now apply lookup_lt_Some in Hi. Qed.

Lemma final_pad i : (length (base_rows tr) <= i < d)%nat -> exists p, final_rows tr d !! i = Some p /\ r_addr p = r_addr last_base /\ r_value p = r_value last_base /\
  to_integer (r_step p) = to_integer (r_step last_base) + Z.of_nat (i - length (base_rows tr)) + 1 /\ r_write p = false /\ r_boot p = false /\ r_sel p = None.
Proof.
  intros Hi. unfold final_rows. rewrite lookup_app_r by lia. pose proof last_base_step. pose proof (modulus_large (T:=T)). apply pads_lookup; [lia|]. fold last_base. lia.
Qed.

Lemma final_adjacent i r r' : final_rows tr d !! i = Some r -> final_rows tr d !! S i = Some r' -> adjacent r r'.
Proof.
  intros Hi Hi'. pose proof (lookup_lt_Some _ _ _ Hi') as Hlt. rewrite length_final_rows in Hlt by exact Hlen.
  assert (Hpos : (0 < length (base_rows tr))%nat) by (rewrite base_rows_length; lia).
  destruct (Nat.lt_ge_cases (S i) (length (base_rows tr))) as [Hb|Hb].
  - destruct (lookup_lt_is_Some_2 (base_rows tr) i ltac:(lia)) as [x Hx]. destruct (lookup_lt_is_Some_2 (base_rows tr) (S i) ltac:(lia)) as [y Hy].
    rewrite (final_old i x Hx) in Hi. rewrite (final_old (S i) y Hy) in Hi'. injection Hi as <-. injection Hi' as <-.
    destruct tr as [|e l]; [cbn in Hb; lia|]. unfold base_rows in Hx, Hy. rewrite list_lookup_fmap in Hx, Hy. apply fmap_Some in Hx as (e1 & He1 & ->), Hy as (e2 & He2 & ->). exact (Hadj i e1 e2 He1 He2).
  - destruct (final_pad (S i) ltac:(lia)) as (p & Hp & Pa & Pv & Ps & Pw & Pb & _). rewrite Hp in Hi'. injection Hi' as <-. right.
    destruct (Nat.lt_ge_cases i (length (base_rows tr))) as [Hib|Hib].
    + pose proof last_base_lookup as Hl. replace (length (base_rows tr) - 1)%nat with i in Hl by lia. rewrite (final_old i _ Hl) in Hi. injection Hi as <-.
      rewrite Pa, Ps, Pv. split; [reflexivity|]. split; [lia|reflexivity].
    + destruct (final_pad i ltac:(lia)) as (q & Hq & Qa & Qv & Qs & _). rewrite Hq in Hi. injection Hi as <-. rewrite Pa, Ps, Pv, Qa, Qs, Qv. split; [reflexivity|]. split; [lia|reflexivity].
Qed.

(** A row at a new address is small. *)
Lemma final_diff i r r' : final_rows tr d !! i = Some r -> final_rows tr d !! S i = Some r' -> 0 <= key_diff r r' < 2 ^ 32.
Proof.
  intros Hi Hi'. pose proof (final_adjacent i r r' Hi Hi') as Ha. destruct (adjacent_diff r r' Ha) as (H1 & H2 & H3 & _). split; [exact H1|].
  destruct (Z.eq_dec (to_integer (r_addr r)) (to_integer (r_addr r'))) as [He|He]; [now apply H3|]. apply H2.
  pose proof (lookup_lt_Some _ _ _ Hi') as Hlt. rewrite length_final_rows in Hlt by exact Hlen.
  destruct (Nat.lt_ge_cases (S i) (length (base_rows tr))) as [Hb|Hb].
  - destruct (lookup_lt_is_Some_2 (base_rows tr) (S i) Hb) as [y Hy]. rewrite (final_old (S i) y Hy) in Hi'. injection Hi' as <-.
    destruct tr as [|e l]; [cbn in Hb; lia|]. unfold base_rows in Hy. rewrite list_lookup_fmap in Hy. apply fmap_Some in Hy as (e2 & He2 & ->).
    rewrite List.Forall_forall in Hsm. apply Hsm. apply list_elem_of_In. eapply list_elem_of_lookup_2. exact He2.
  - exfalso. apply He. destruct (final_pad (S i) ltac:(lia)) as (p & Hp & Pa & _). rewrite Hp in Hi'. injection Hi' as <-. rewrite Pa.
    destruct (Nat.lt_ge_cases i (length (base_rows tr))) as [Hib|Hib].
    + pose proof last_base_lookup as Hl. replace (length (base_rows tr) - 1)%nat with i in Hl by lia. rewrite (final_old i _ Hl) in Hi. now injection Hi as <-.
    + destruct (final_pad i ltac:(lia)) as (q & Hq & Qa & _). rewrite Hq in Hi. injection Hi as <-. now rewrite Qa.
Qed.

End Final.

End Adjacent.

(** ** The constraints *)

Section Satisfy.
Context {T : Type} `{LL : LargeFieldLaws T}.
Notation Acc := (Access (T:=T)).
Notation sorted log := (sort_by_key key_le akey log).
Notation "a ≡ b" := (eqm (modulus (T:=T)) a b) (at level 70, no associativity).
Variable cfg : DsConfig.
Notation polys := (selector_polys cfg).

(** The columns by the positions of [memory_constraints]. *)
Definition ds_column (cols : gmap string (list T)) (k : nat) : list T :=
  default [] match k with
             | 0 => cols !! namespaced cfg "m_addr" | 1 => cols !! namespaced cfg "m_step" | 2 => cols !! namespaced cfg "m_change"
             | 3 => cols !! namespaced cfg "m_value" | 4 => cols !! namespaced cfg "m_is_write"
             | 5 => cols !! namespaced cfg "m_diff_lower" | 6 => cols !! namespaced cfg "m_diff_upper"
             | S (S (S (S (S (S (S j)))))) => id ← polys !! j; cols !! column_name cfg id
             end%nat.
Definition ds_cells (cols : gmap string (list T)) (i k : nat) : Z := value_at (ds_column cols k) i.
Definition boot_cell (cols : gmap string (list T)) (i : nat) : Z := value_at (default [] (cols !! namespaced cfg BOOTLOADER_WRITE_COLUMN)) i.

Lemma value_at_fmap {A} (f : A -> T) (l : list A) i x : l !! i = Some x -> value_at (f <$> l) i = to_integer (f x).
Proof. intros Hi. unfold value_at. now rewrite list_lookup_fmap, Hi. Qed.

Lemma bool_column_value l i b : l !! i = Some b -> value_at (bool_column (T:=T) l) i = b2z b.
Proof. intros Hi. unfold bool_column. rewrite (value_at_fmap _ l i b Hi). destruct b; [apply to_integer_one|apply to_integer_zero]. Qed.

Lemma sum_none (l : list PolyID) : foldr Z.add 0 (map (fun id => if bool_decide (Some id = None (A:=PolyID)) then 1 else 0) l) = 0.
Proof. induction l as [|x l IH]; [reflexivity|]. cbn [map foldr]. now rewrite IH. Qed.

Lemma sum_absent (l : list PolyID) id : id ∉ l -> foldr Z.add 0 (map (fun x => if bool_decide (Some x = Some id) then 1 else 0) l) = 0.
Proof.
  induction l as [|x l IH]; intros Hin; [reflexivity|]. apply not_elem_of_cons in Hin as [Hne Hin]. cbn [map foldr]. rewrite IH by exact Hin.
  rewrite bool_decide_false; [reflexivity|]. intros [= ->]. now destruct Hne.
Qed.

Lemma sum_present (l : list PolyID) id : NoDup l -> id ∈ l -> foldr Z.add 0 (map (fun x => if bool_decide (Some x = Some id) then 1 else 0) l) = 1.
Proof.
  induction 1 as [|x l Hx Hnd IH]; intros Hin; [now apply elem_of_nil in Hin|]. cbn [map foldr]. apply elem_of_cons in Hin as [->|Hin].
  - rewrite bool_decide_true, sum_absent by (reflexivity || exact Hx). reflexivity.
  - rewrite bool_decide_false, IH by (assumption || (intros [= ->]; contradiction)). reflexivity.
Qed.

Lemma map_seq_lookup {A B} (f : A -> B) (g : nat -> B) (l : list A) : (forall j x, l !! j = Some x -> g j = f x) -> map g (seq 0 (length l)) = map f l.
Proof.
  revert g. induction l as [|x l IH]; intros g Hg; [reflexivity|]. cbn [length seq map]. rewrite (Hg 0%nat x eq_refl), <- seq_shift, map_map. f_equal. apply IH. intros j y Hj. now apply (Hg (S j)).
Qed.

(** The sum of the selectors of a row. *)
Definition selected (r : Row T) : Z := match r_sel r with Some _ => 1 | None => 0 end.

(** The cell of a selector. *)
Lemma selector_cell rows cols i r j id : ColumnsAre cfg (2 ^ 16) rows cols -> rows !! i = Some r -> polys !! j = Some id ->
  ds_cells cols i (Selectors + j) = if bool_decide (Some id = r_sel r) then 1 else 0.
Proof.
  intros Hcols Hi Hj. change (ds_cells cols i (Selectors + j)%nat) with (value_at (default [] (id ← polys !! j; cols !! column_name cfg id)) i).
  rewrite Hj. cbn [mbind option_bind]. rewrite (col_selector _ _ _ _ Hcols id) by (eapply list_elem_of_lookup_2; exact Hj).
  etransitivity; [exact (value_at_fmap _ rows i r Hi)|]. cbv beta. destruct (bool_decide _); [apply to_integer_one|apply to_integer_zero].
Qed.

Lemma sum_cells rows cols i r : ColumnsAre cfg (2 ^ 16) rows cols -> rows !! i = Some r -> (forall id, r_sel r = Some id -> id ∈ polys) ->
  sum_selectors (length polys) (ds_cells cols i) = selected r.
Proof.
  intros Hcols Hi Hin. unfold sum_selectors. rewrite (map_seq_lookup (fun id => if bool_decide (Some id = r_sel r) then 1 else 0)).
  - unfold selected. destruct (r_sel r) as [id|]; [|apply sum_none]. apply sum_present; [apply NoDup_remove_dups|now apply Hin].
  - intros j id Hj. now apply (selector_cell rows).
Qed.

Lemma cells_of_row rows cols i r ch df : ColumnsAre cfg (2 ^ 16) rows cols -> rows !! i = Some r -> (forall id, r_sel r = Some id -> id ∈ polys) ->
  (changes (r_addr <$> rows) ++ [last_change cfg rows]) !! i = Some ch -> (diffs rows ++ [0]) !! i = Some df -> 0 <= df < 2 ^ 32 ->
  row_is (length polys) (ds_cells cols i) (to_integer (r_addr r)) (to_integer (r_step r)) (to_integer ch) (to_integer (r_value r)) (b2z (r_write r)) df (selected r).
Proof.
  intros Hcols Hi Hsel Hch Hdf Hrange. pose proof (modulus_large (T:=T)).
  assert (Hd : forall z, 0 <= z < 2 ^ 32 -> to_integer (from_u64 (T:=T) z) = z) by (intros z Hz; rewrite from_u64_spec by (unfold in_width; lia); apply Z.mod_small; lia).
  assert (0 <= df / 2 ^ 16 < 2 ^ 32) by (split; [apply Z.div_pos|apply Z.div_lt_upper_bound]; lia). pose proof (Z.mod_pos_bound df (2 ^ 16) ltac:(lia)).
  split; unfold ds_cells; cbv [ds_column Addr Step Change Value IsWrite DiffLower DiffUpper].
  - rewrite (col_addr _ _ _ _ Hcols). exact (value_at_fmap r_addr rows i r Hi).
  - rewrite (col_step _ _ _ _ Hcols). exact (value_at_fmap r_step rows i r Hi).
  - rewrite (col_change _ _ _ _ Hcols). unfold value_at. cbn [from_option id]. now rewrite Hch.
  - rewrite (col_value _ _ _ _ Hcols). exact (value_at_fmap r_value rows i r Hi).
  - rewrite (col_write _ _ _ _ Hcols). apply (bool_column_value (r_write <$> rows)). rewrite list_lookup_fmap, Hi. reflexivity.
  - rewrite (col_lower _ _ _ _ Hcols). etransitivity; [exact (value_at_fmap _ _ i df Hdf)|]. apply Hd. lia.
  - rewrite (col_upper _ _ _ _ Hcols). etransitivity; [exact (value_at_fmap _ _ i df Hdf)|]. now apply Hd.
  - exact (sum_cells rows cols i r Hcols Hi Hsel).
Qed.

(** What the constraints need of the rows and their columns. *)
Record FinalFacts (rows : list (Row T)) (cols : gmap string (list T)) (d : nat) : Prop := {
  ff_length : length rows = d;
  ff_pos : (0 < d)%nat;
  ff_cols : ColumnsAre cfg (2 ^ 16) rows cols;
  ff_adjacent : forall i r r', rows !! i = Some r -> rows !! S i = Some r' -> adjacent r r';
  ff_diff : forall i r r', rows !! i = Some r -> rows !! S i = Some r' -> 0 <= key_diff r r' < 2 ^ 32;
  ff_selected : forall r, r ∈ rows -> match r_sel r with Some id => id ∈ polys | None => r_write r = false /\ r_boot r = false end;
  ff_first : forall r, rows !! 0%nat = Some r -> row_writes r = false -> to_integer (r_value r) = 0
}.

Section Cyclic.
Variables (rows : list (Row T)) (cols : gmap string (list T)) (d : nat).
Hypothesis Hff : FinalFacts rows cols d.

(** The cells of a row: the change and the difference are those to the next row. *)
Lemma cells_at i : (i < d)%nat -> exists r ch df, rows !! i = Some r /\
  row_is (length polys) (ds_cells cols i) (to_integer (r_addr r)) (to_integer (r_step r)) (to_integer ch) (to_integer (r_value r)) (b2z (r_write r)) df (selected r) /\
  0 <= df < 2 ^ 32 /\
  (forall r', rows !! S i = Some r' -> ch = (if f_eqb (r_addr r) (r_addr r') then from_int 0 else from_int 1) /\ df = key_diff r r') /\
  (S i = d -> ch = last_change cfg rows /\ df = 0).
Proof.
  destruct Hff as [Hl Hp Hc Ha Hd Hs _]. intros Hi. destruct (lookup_lt_is_Some_2 rows i ltac:(lia)) as [r Hr].
  assert (Hsel : forall id, r_sel r = Some id -> id ∈ polys).
  { intros id Hid. specialize (Hs r ltac:(eapply list_elem_of_lookup_2; exact Hr)). now rewrite Hid in Hs. }
  destruct (Nat.eq_dec (S i) d) as [He|Hne].
  - exists r, (last_change cfg rows), 0. split; [exact Hr|]. split; [|split; [lia|split; [|auto]]].
    + apply (cells_of_row rows cols i r _ _ Hc Hr Hsel); [| |lia].
      * rewrite lookup_app_r by (rewrite length_changes, length_fmap; lia). rewrite length_changes, length_fmap, Hl. now replace (i - (d - 1))%nat with 0%nat by lia.
      * rewrite lookup_app_r by (rewrite length_diffs; lia). rewrite length_diffs, Hl. now replace (i - (d - 1))%nat with 0%nat by lia.
    + intros r' Hr'. apply lookup_lt_Some in Hr'. lia.
  - destruct (lookup_lt_is_Some_2 rows (S i) ltac:(lia)) as [r' Hr']. exists r, (if f_eqb (r_addr r) (r_addr r') then from_int 0 else from_int 1), (key_diff r r').
    split; [exact Hr|]. pose proof (Hd i r r' Hr Hr') as Hrange. split; [|split; [exact Hrange|split; [|lia]]].
    + apply (cells_of_row rows cols i r _ _ Hc Hr Hsel); [| |exact Hrange].
      * rewrite lookup_app_l by (rewrite length_changes, length_fmap; lia). apply changes_lookup; rewrite list_lookup_fmap; [now rewrite Hr|now rewrite Hr'].
      * rewrite lookup_app_l by (rewrite length_diffs; lia). now apply diffs_lookup.
    + intros r2 Hr2. rewrite Hr' in Hr2. injection Hr2 as <-. auto.
Qed.

Lemma selected_cases r : r ∈ rows -> selected r = 1 \/ selected r = 0 /\ b2z (r_write r) = 0.
Proof. intros Hr. pose proof (ff_selected _ _ _ Hff r Hr) as Hs. unfold selected. destruct (r_sel r); [now left|right]. destruct Hs as [-> _]. now split. Qed.

Lemma b2z_cases b : b2z b = 0 \/ b2z b = 1.
Proof. destruct b; [now right|now left]. Qed.

Lemma b2z_false b : b2z b = 0 -> b = false.
Proof. now destruct b. Qed.

(** The plain machine: no bootloader writes, and [m_change] is one in the last row. *)
Lemma plain_satisfied : has_bootloader_write_column cfg = false -> Forall (fun r => r_boot r = false) rows ->
  forall i, (i < d)%nat -> memory_constraints (T:=T) (length polys) (ds_cells cols i) (ds_cells cols ((i + 1) mod d)%nat) (i =? d - 1)%nat.
Proof.
  intros Hnb Hboot i Hi. pose proof Hff as [Hl Hp Hc Ha Hd Hs Hfirst].
  assert (Hw : forall r, r ∈ rows -> b2z (r_write r) = 0 -> row_writes r = false).
  { intros r Hr Hw. unfold row_writes. rewrite List.Forall_forall in Hboot. rewrite (Hboot r (proj1 (list_elem_of_In _ _) Hr)). now apply b2z_false. }
  destruct (cells_at i Hi) as (r & ch & df & Hr & Hrow & Hdf & Hnext & Hlast). assert (Hin : r ∈ rows) by (eapply list_elem_of_lookup_2; exact Hr).
  destruct (Nat.eq_dec (S i) d) as [He|Hne].
  - replace ((i + 1) mod d)%nat with 0%nat by (replace (i + 1)%nat with d by lia; now rewrite Nat.Div0.mod_same). rewrite (proj2 (Nat.eqb_eq i (d - 1))) by lia.
    destruct (cells_at 0 Hp) as (r0 & ch0 & df0 & Hr0 & Hrow0 & _). assert (Hin0 : r0 ∈ rows) by (eapply list_elem_of_lookup_2; exact Hr0).
    eapply rows_constraints; [exact Hrow|exact Hrow0|apply b2z_cases|apply b2z_cases|exact (selected_cases r Hin)|exact Hdf|].
    left. destruct (Hlast He) as [-> _]. unfold last_change. rewrite Hnb, from_int_small by lia. split; [reflexivity|]. split; [|discriminate]. intros Hw0. apply (Hfirst r0 Hr0). now apply Hw.
  - rewrite Nat.mod_small by lia. rewrite (proj2 (Nat.eqb_neq i (d - 1))) by lia. replace (i + 1)%nat with (S i) by lia.
    destruct (cells_at (S i) ltac:(lia)) as (r' & ch' & df' & Hr' & Hrow' & _). assert (Hin' : r' ∈ rows) by (eapply list_elem_of_lookup_2; exact Hr').
    eapply rows_constraints; [exact Hrow|exact Hrow'|apply b2z_cases|apply b2z_cases|exact (selected_cases r Hin)|exact Hdf|].
    destruct (Hnext r' Hr') as [-> ->]. pose proof (Ha i r r' Hr Hr') as Hadj. destruct (adjacent_diff r r' Hadj) as (_ & _ & Hstep & Haddr). destruct Hadj as [[Hlt Hv]|(Heq & Hst & Hv)].
    + left. rewrite f_eqb_neq by lia. rewrite from_int_small by lia. split; [reflexivity|]. split; [intros Hw'; now apply Hv, Hw|]. intros _. rewrite Haddr by lia. reflexivity.
    + right. rewrite f_eqb_refl by lia. rewrite from_int_small by lia. split; [reflexivity|]. split; [reflexivity|]. split; [now symmetry|]. split; [now apply Hstep|]. intros Hw'. now apply Hv, Hw.
Qed.

End Cyclic.

(** *** The machine with bootloader writes *)

(** The constraints of [memory_with_bootloader_write.asm] between a row and the next one. *)
Definition bootloader_constraints (count : nat) (c c' : nat -> Z) (b b' : Z) (is_last : bool) : Prop :=
  let m_change := c Change in let m_is_write := c IsWrite in let is_mem_op := sum_selectors count c in
  let diff := m_change * (c' Addr - c Addr) + (1 - m_change) * (c' Step - c Step) in
  m_is_write * (1 - m_is_write) ≡ 0 /\ b * (1 - b) ≡ 0 /\ is_mem_op * (1 - is_mem_op) ≡ 0 /\
  (1 - is_mem_op) * m_is_write ≡ 0 /\ (1 - is_mem_op) * b ≡ 0 /\
  m_change * (1 - b') ≡ 0 /\
  b2z is_last * ((1 - m_change) * (c Addr + 1)) ≡ 0 /\
  (1 - c' IsWrite - b') * (1 - m_change) * (c' Value - c Value) ≡ 0 /\
  0 <= c DiffLower < 2 ^ 16 /\ 0 <= c DiffUpper < 2 ^ 16 /\
  m_change * (1 - m_change) ≡ 0 /\
  (c' Addr - c Addr) * (1 - m_change) ≡ 0 /\
  (1 - b2z is_last) * (diff - 1 - c DiffUpper * 2 ^ 16 - c DiffLower) ≡ 0.

Ltac zero := match goal with |- ?a ≡ 0 => replace a with 0 by nia; reflexivity end.

Lemma bootloader_rows n c c' b b' is_last addr step ch value write diff sel addr' step' ch' value' write' diff' sel' :
  row_is n c addr step ch value write diff sel -> row_is n c' addr' step' ch' value' write' diff' sel' ->
  (write = 0 \/ write = 1) -> (write' = 0 \/ write' = 1) -> (b = 0 \/ b = 1) -> (b' = 0 \/ b' = 1) -> write' * b' = 0 ->
  (sel = 1 \/ sel = 0 /\ write = 0 /\ b = 0) -> 0 <= diff < 2 ^ 32 ->
  (ch = 1 /\ b' = 1 /\ (is_last = false -> diff = addr' - addr - 1) \/
   ch = 0 /\ addr' = addr /\ (write' = 0 -> b' = 0 -> value' = value) /\ (if is_last then addr = modulus (T:=T) - 1 else diff = step' - step - 1)) ->
  bootloader_constraints n c c' b b' is_last.
Proof.
  intros [Ea Es Ec Ev Ew El Eu Esel] [Ea' Es' _ Ev' Ew' _ _ _] Hw Hw' Hb Hb' Hwb Hsel Hdiff Hch. unfold bootloader_constraints.
  rewrite Ea, Es, Ec, Ev, Ew, El, Eu, Esel, Ea', Es', Ev', Ew'. clear Ea Es Ec Ev Ew Esel Ea' Es' Ev' Ew'.
  pose proof (Z.mod_pos_bound diff (2 ^ 16) ltac:(lia)) as Hm. assert (Hd : 0 <= diff / 2 ^ 16 < 2 ^ 16) by (split; [apply Z.div_pos|apply Z.div_lt_upper_bound]; lia).
  assert (Hsplit : diff = diff / 2 ^ 16 * 2 ^ 16 + diff mod 2 ^ 16) by (rewrite Z.mul_comm; apply Z.div_mod; lia).
  set (lo := diff mod 2 ^ 16) in *. set (hi := diff / 2 ^ 16) in *. clearbody lo hi. clear El Eu.
  assert (H1 : write * (1 - write) ≡ 0) by (destruct Hw as [-> | ->]; reflexivity). assert (H2 : b * (1 - b) ≡ 0) by (destruct Hb as [-> | ->]; reflexivity).
  assert (H3 : sel * (1 - sel) ≡ 0 /\ (1 - sel) * write ≡ 0 /\ (1 - sel) * b ≡ 0).
  { destruct Hsel as [->|(-> & -> & ->)]; repeat split; zero. }
  destruct H3 as (H3 & H4 & H5). do 5 (split; [assumption|]). destruct Hch as [(-> & -> & Hdf)|(-> & -> & Hv & Hl)].
  - repeat match goal with |- _ /\ _ => split end; try lia; try zero. destruct is_last; cbn [b2z]; [zero|]. rewrite Hdf in Hsplit by reflexivity. zero.
  - repeat match goal with |- _ /\ _ => split end; try lia; try zero.
    + destruct is_last; cbn [b2z]; [|zero]. rewrite Hl. exists 1. ring.
    + destruct is_last; cbn [b2z]; [zero|]. rewrite Hl in Hsplit. zero.
Qed.

Section Bootloader.
Variables (rows : list (Row T)) (cols : gmap string (list T)) (d : nat).
Hypothesis Hff : FinalFacts rows cols d.
Hypothesis Hhas : has_bootloader_write_column cfg = true.
Hypothesis Hone : forall r, r ∈ rows -> r_write r && r_boot r = false.
Hypothesis Hnew : forall i r r', rows !! i = Some r -> rows !! S i = Some r' -> to_integer (r_addr r) <> to_integer (r_addr r') -> r_boot r' = true.

Lemma boot_cell_at i r : rows !! i = Some r -> boot_cell cols i = b2z (r_boot r).
Proof.
  intros Hi. unfold boot_cell. rewrite (col_boot _ _ _ _ (ff_cols _ _ _ Hff) Hhas). apply (bool_column_value (r_boot <$> rows)). rewrite list_lookup_fmap, Hi. reflexivity.
Qed.

Lemma boot_selected r : r ∈ rows -> selected r = 1 \/ selected r = 0 /\ b2z (r_write r) = 0 /\ b2z (r_boot r) = 0.
Proof. intros Hr. pose proof (ff_selected _ _ _ Hff r Hr) as Hs. unfold selected. destruct (r_sel r); [now left|right]. destruct Hs as [-> ->]. repeat split. Qed.

Lemma write_times_boot r : r ∈ rows -> b2z (r_write r) * b2z (r_boot r) = 0.
Proof. intros Hr. specialize (Hone r Hr). destruct (r_write r), (r_boot r); now try discriminate. Qed.

Definition boot_ok (i : nat) : Prop :=
  bootloader_constraints (length polys) (ds_cells cols i) (ds_cells cols ((i + 1) mod d)%nat) (boot_cell cols i) (boot_cell cols ((i + 1) mod d)%nat) (i =? d - 1)%nat.

Lemma boot_inner i : (S i < d)%nat -> boot_ok i.
Proof.
  intros Hi. pose proof Hff as [Hl Hp Hc Ha Hd Hs Hfirst]. unfold boot_ok.
  rewrite Nat.mod_small by lia. rewrite (proj2 (Nat.eqb_neq i (d - 1))) by lia. replace (i + 1)%nat with (S i) by lia.
  destruct (cells_at rows cols d Hff i ltac:(lia)) as (r & ch & df & Hr & Hrow & Hdf & Hnext & Hlast). assert (Hin : r ∈ rows) by (eapply list_elem_of_lookup_2; exact Hr).
  destruct (cells_at rows cols d Hff (S i) ltac:(lia)) as (r' & ch' & df' & Hr' & Hrow' & _). assert (Hin' : r' ∈ rows) by (eapply list_elem_of_lookup_2; exact Hr').
  rewrite (boot_cell_at i r Hr), (boot_cell_at (S i) r' Hr').
  eapply bootloader_rows; [exact Hrow|exact Hrow'|apply b2z_cases|apply b2z_cases|apply b2z_cases|apply b2z_cases|now apply write_times_boot|exact (boot_selected r Hin)|exact Hdf|].
  destruct (Hnext r' Hr') as [-> ->]. pose proof (Ha i r r' Hr Hr') as Hadj. destruct (adjacent_diff r r' Hadj) as (_ & _ & Hstep & Haddr). destruct Hadj as [[Hlt Hv]|(Heq & Hst & Hv)].
  - left. rewrite f_eqb_neq by lia. rewrite from_int_small by lia. rewrite (Hnew i r r' Hr Hr') by lia. split; [reflexivity|]. split; [reflexivity|]. intros _. rewrite Haddr by lia. reflexivity.
  - right. rewrite f_eqb_refl by lia. rewrite from_int_small by lia. split; [reflexivity|]. split; [now symmetry|]. split; [|now apply Hstep].
    intros Hw' Hb'. apply Hv. unfold row_writes. now rewrite (b2z_false _ Hw'), (b2z_false _ Hb').
Qed.

(** In the last row, [m_change] is one exactly if the first and the last address differ. *)
Lemma boot_last r0 rl : rows !! 0%nat = Some r0 -> rows !! (d - 1)%nat = Some rl ->
  (to_integer (r_addr r0) <> to_integer (r_addr rl) -> r_boot r0 = true -> boot_ok (d - 1)) /\
  (to_integer (r_addr r0) = to_integer (r_addr rl) -> to_integer (r_addr rl) = modulus (T:=T) - 1 -> to_integer (r_value rl) = to_integer (r_value r0) -> boot_ok (d - 1)) /\
  (to_integer (r_addr r0) = to_integer (r_addr rl) -> to_integer (r_addr rl) < 2 ^ 32 -> ~ boot_ok (d - 1)).
Proof.
  intros Hr0 Hrl. pose proof Hff as [Hl Hp Hc Ha Hd Hs Hfirst]. unfold boot_ok. replace ((d - 1 + 1) mod d)%nat with 0%nat by (replace (d - 1 + 1)%nat with d by lia; now rewrite Nat.Div0.mod_same).
  rewrite Nat.eqb_refl. destruct (cells_at rows cols d Hff (d - 1) ltac:(lia)) as (r & ch & df & Hr & Hrow & Hdf & _ & Hlast). rewrite Hrl in Hr. injection Hr as <-.
  destruct (cells_at rows cols d Hff 0 Hp) as (r & ch0 & df0 & Hr & Hrow0 & _). rewrite Hr0 in Hr. injection Hr as <-. destruct (Hlast ltac:(lia)) as [-> ->].
  assert (Hin : rl ∈ rows) by (eapply list_elem_of_lookup_2; exact Hrl). assert (Hin0 : r0 ∈ rows) by (eapply list_elem_of_lookup_2; exact Hr0).
  assert (Hch : last_change cfg rows = if f_eqb (r_addr r0) (r_addr rl) then f_zero else f_one).
  { unfold last_change. rewrite Hhas, head_fmap, fmap_last, head_lookup, last_lookup, Hr0, Hl. replace (Nat.pred d) with (d - 1)%nat by lia. now rewrite Hrl. }
  rewrite Hch in *. rewrite (boot_cell_at _ rl Hrl), (boot_cell_at 0 r0 Hr0).
  assert (Hgo : forall P, P -> (P -> bootloader_constraints (length polys) (ds_cells cols (d - 1)) (ds_cells cols 0) (b2z (r_boot rl)) (b2z (r_boot r0)) true) ->
    bootloader_constraints (length polys) (ds_cells cols (d - 1)) (ds_cells cols 0) (b2z (r_boot rl)) (b2z (r_boot r0)) true) by auto. clear Hgo.
  split; [|split].
  - intros Hne Hb. rewrite f_eqb_neq in Hrow by exact Hne. rewrite to_integer_one in Hrow.
    eapply bootloader_rows; [exact Hrow|exact Hrow0|apply b2z_cases|apply b2z_cases|apply b2z_cases|apply b2z_cases|now apply write_times_boot|exact (boot_selected rl Hin)|exact Hdf|].
    left. rewrite Hb. split; [reflexivity|]. split; [reflexivity|discriminate].
  - intros He Hm Hv. rewrite f_eqb_refl in Hrow by exact He. rewrite to_integer_zero in Hrow.
    eapply bootloader_rows; [exact Hrow|exact Hrow0|apply b2z_cases|apply b2z_cases|apply b2z_cases|apply b2z_cases|now apply write_times_boot|exact (boot_selected rl Hin)|exact Hdf|].
    right. split; [reflexivity|]. split; [exact He|]. split; [intros _ _; now symmetry|exact Hm].
  - intros He Hlt (_ & _ & _ & _ & _ & _ & Hbad & _). rewrite f_eqb_refl in Hrow by exact He. rewrite to_integer_zero in Hrow.
    rewrite (row_change _ _ _ _ _ _ _ _ _ Hrow), (row_addr _ _ _ _ _ _ _ _ _ Hrow) in Hbad. cbn [b2z] in Hbad. pose proof (to_integer_range (r_addr rl)).
    revert Hbad. apply (not_eqm_small (T:=T)); lia.
Qed.

End Bootloader.

(** *** From the calls to the columns *)

Lemma size_fits n : 1 <= n <= range_max (degree_range cfg) -> range_min (degree_range cfg) <= range_max (degree_range cfg) ->
  (exists k, 0 <= k <= 32 /\ range_max (degree_range cfg) = 2 ^ k) ->
  exists d, compute_size_and_log n (degree_range cfg) = Some d /\ n <= d <= range_max (degree_range cfg) /\ range_min (degree_range cfg) <= d.
Proof.
  intros Hn Hmin (k & Hk & Hmax). assert (Hlog : Z.log2_up n <= k) by (rewrite Hmax in Hn; transitivity (Z.log2_up (2 ^ k)); [now apply Z.log2_up_le_mono|now rewrite Z.log2_up_pow2]).
  assert (Hp : 2 ^ Z.log2_up n <= 2 ^ k) by (apply Z.pow_le_mono_r; lia). assert (Hk32 : 2 ^ k <= 2 ^ 32) by (apply Z.pow_le_mono_r; lia).
  assert (Hup : n <= 2 ^ Z.log2_up n).
  { destruct (Z.eq_dec n 1) as [->|Hne]; [cbn; lia|]. apply Z.log2_up_spec. lia. }
  exists (Z.max (range_min (degree_range cfg)) (2 ^ Z.log2_up n)). unfold compute_size_and_log, usize_next_power_of_two, degree_fit.
  rewrite (proj2 (Z.ltb_lt (2 ^ Z.log2_up n) (2 ^ 64))) by lia. cbn [mbind option_bind]. rewrite (proj2 (Z.leb_le _ _)) by lia. cbn [assert_that mbind option_bind]. split; [reflexivity|lia].
Qed.

Lemma columns_length rows cols k : ColumnsAre cfg (2 ^ 16) rows cols -> (0 < length rows)%nat -> (k < Selectors + length polys)%nat -> length (ds_column cols k) = length rows.
Proof.
  intros Hc Hpos Hk. assert (Hd : length (diffs rows ++ [0]) = length rows) by (rewrite length_app, length_diffs; cbn [length]; lia).
  do 7 (destruct k as [|k]; [cbv [ds_column];
    rewrite ?(col_addr _ _ _ _ Hc), ?(col_step _ _ _ _ Hc), ?(col_change _ _ _ _ Hc), ?(col_value _ _ _ _ Hc), ?(col_write _ _ _ _ Hc), ?(col_lower _ _ _ _ Hc), ?(col_upper _ _ _ _ Hc);
    cbn [from_option id]; unfold bool_column; rewrite ?length_app, ?length_changes, ?length_fmap, ?Hd; cbn [length]; lia|]).
  destruct (lookup_lt_is_Some_2 polys k ltac:(unfold Selectors in Hk; lia)) as [id Hid]. cbv [ds_column]. rewrite Hid. cbn [mbind option_bind].
  rewrite (col_selector _ _ _ _ Hc id) by (eapply list_elem_of_lookup_2; exact Hid). cbn. unfold indicator. now rewrite length_fmap.
Qed.

(** The conditions on a machine: distinct names of the columns, digits of 16 bits, a power of two as its largest degree. *)
Record ConfigOk : Prop := {
  ok_names : NoDup (column_names cfg);
  ok_base : diff_columns_base cfg = Some (2 ^ 16);
  ok_min : range_min (degree_range cfg) <= range_max (degree_range cfg);
  ok_max : exists k, 0 <= k <= 32 /\ range_max (degree_range cfg) = 2 ^ k
}.

(** Addresses and steps of 32 bits. *)
Definition small_call (c : Z * list LookupCell) : Prop :=
  forall operation_id addr step : T, take 3 (snd c) = [Input operation_id; Input addr; Input step] -> to_integer addr < 2 ^ 32 /\ to_integer step < 2 ^ 32.
Definition plain_call (c : Z * list LookupCell) : Prop :=
  forall operation_id addr step : T, take 3 (snd c) = [Input operation_id; Input addr; Input step] -> is_boot_id operation_id = false.

Lemma ids_differ o : f_eqb o (from_u64 OPERATION_ID_WRITE) && f_eqb o (from_u64 (T:=T) OPERATION_ID_BOOTLOADER_WRITE) = false.
Proof.
  pose proof (modulus_large (T:=T)). unfold f_eqb, OPERATION_ID_WRITE, OPERATION_ID_BOOTLOADER_WRITE. rewrite !from_u64_spec by (unfold in_width; lia). rewrite !Z.mod_small by lia. lia.
Qed.

(** What a log of the calls is like. *)
Record LogOk (log : list Acc) : Prop := {
  lo_small : Forall (fun e => row_small (row_of e)) log;
  lo_one : Forall (fun e => is_normal_write (snd e) && is_bootloader_write (snd e) = false) log
}.

Lemma log_of_calls calls log : Forall small_call calls -> Forall (from_call calls) log -> LogOk log.
Proof.
  intros Hsm Hfrom. split; (eapply List.Forall_impl; [|exact Hfrom]); intros e (c & o & v & sel & Hin & Ht & He).
  - rewrite List.Forall_forall in Hsm. exact (Hsm c (proj1 (list_elem_of_In _ _) Hin) o _ _ Ht).
  - rewrite He. apply ids_differ.
Qed.

Lemma final_facts log m st : ConfigOk -> CallInv cfg log m st -> LogOk log -> Z.of_nat (Nat.max 1 (length log)) <= range_max (degree_range cfg) ->
  exists cols st' d, take_witness_col_values cfg st = Some (cols, st') /\ FinalFacts (final_rows (sorted log) d) cols d /\
    range_min (degree_range cfg) <= Z.of_nat d <= range_max (degree_range cfg) /\ (length (base_rows (sorted log)) <= d)%nat.
Proof.
  intros [Hnames Hbase Hmin Hmax] [[Hd Ht Hc Hlat] _ _ Hr Hsel] [Hsm _] Hlen.
  destruct (size_fits (Z.of_nat (Nat.max 1 (length log))) ltac:(lia) Hmin Hmax) as (d & Hsize & Hdn & Hdm).
  assert (Hl : length (sorted log) = length log) by apply Permutation_length, sort_by_key_perm.
  assert (Hsms : Forall (fun e => row_small (row_of e)) (sorted log)) by (now rewrite sort_by_key_perm).
  assert (Hadj : forall i e e', sorted log !! i = Some e -> sorted log !! S i = Some e' -> adjacent (row_of e) (row_of e')) by (intros i e e'; now apply trace_adjacent).
  assert (Hd32 : d <= 2 ^ 32) by (destruct Hmax as (k & Hk & Hmax); rewrite Hmax in Hdn; assert (2 ^ k <= 2 ^ 32) by (apply Z.pow_le_mono_r; lia); lia).
  destruct (take_columns cfg st (2 ^ 16) d) as (cols & st' & Htake & Hcols); try (rewrite Ht, ?Hl; assumption || lia); try assumption; [|lia|].
  { rewrite Ht. intros i e e' Hi Hi'. now apply adjacent_lt, (Hadj i). }
  rewrite Ht in Hcols. exists cols, st', (Z.to_nat d). split; [exact Htake|]. assert (Hbl : (length (base_rows (sorted log)) <= Z.to_nat d)%nat) by (rewrite base_rows_length, Hl; lia).
  split; [|split; [rewrite Z2Nat.id by lia; lia|exact Hbl]]. split; [now apply length_final_rows|lia|exact Hcols| | | |].
  - apply final_adjacent; try assumption. lia.
  - apply final_diff; try assumption. lia.
  - intros r Hin. apply list_elem_of_lookup in Hin as [i Hi]. pose proof (lookup_lt_Some _ _ _ Hi) as Hlt. rewrite length_final_rows in Hlt by exact Hbl.
    destruct (Nat.lt_ge_cases i (length (base_rows (sorted log)))) as [Hb|Hb].
    + destruct (lookup_lt_is_Some_2 (base_rows (sorted log)) i Hb) as [x Hx]. rewrite (final_old _ _ i x Hx) in Hi. injection Hi as <-. unfold base_rows in Hx.
      destruct (sorted log) as [|e l] eqn:Hs.
      * destruct i; [|discriminate]. injection Hx as <-. cbn. auto.
      * rewrite list_lookup_fmap in Hx. apply fmap_Some in Hx as (y & Hy & ->). cbn [row_of r_sel]. apply elem_of_remove_dups.
        assert (Hylog : y ∈ log) by (apply sorted_log_elem; rewrite Hs; eapply list_elem_of_lookup_2; exact Hy).
        rewrite List.Forall_forall in Hsel. apply Hsel. now apply list_elem_of_In.
    + destruct (final_pad (sorted log) (Z.to_nat d) Hadj Hsms Hbl ltac:(lia) i ltac:(lia)) as (p & Hp & _ & _ & _ & Pw & Pb & Ps). rewrite Hp in Hi. injection Hi as <-. now rewrite Ps.
  - intros r Hr0 Hw. destruct (lookup_lt_is_Some_2 (base_rows (sorted log)) 0%nat) as [x Hx]; [rewrite base_rows_length; lia|]. rewrite (final_old _ _ 0%nat x Hx) in Hr0. injection Hr0 as <-.
    unfold base_rows in Hx. destruct (sorted log) as [|e l] eqn:Hs.
    + injection Hx as <-. cbn. rewrite from_int_small by lia. reflexivity.
    + injection Hx as <-. apply (first_sees (access_op <$> log) (access_op e) Hc Hr); [|now rewrite access_op_writes].
      rewrite <- sorted_access_op, list_lookup_fmap, Hs. reflexivity.
Qed.

(** A row is one of the trace, the row of an empty trace, or padding, which no call selects. *)
Lemma final_row_cases log d i r : Forall (fun e => row_small (row_of e)) log -> (length (base_rows (sorted log)) <= d)%nat -> Z.of_nat d <= 2 ^ 32 ->
  final_rows (sorted log) d !! i = Some r ->
  (exists e, sorted log !! i = Some e /\ e ∈ log /\ r = row_of e) \/ (sorted log = [] /\ i = 0%nat /\ r = empty_row) \/ (r_write r = false /\ r_boot r = false /\ r_sel r = None).
Proof.
  intros Hsm Hbl Hd Hi. assert (Hsms : Forall (fun e => row_small (row_of e)) (sorted log)) by (now rewrite sort_by_key_perm).
  pose proof (lookup_lt_Some _ _ _ Hi) as Hlt. rewrite length_final_rows in Hlt by exact Hbl.
  destruct (Nat.lt_ge_cases i (length (base_rows (sorted log)))) as [Hb|Hb].
  - destruct (lookup_lt_is_Some_2 (base_rows (sorted log)) i Hb) as [x Hx]. rewrite (final_old _ _ i x Hx) in Hi. injection Hi as <-. unfold base_rows in Hx.
    destruct (sorted log) as [|e l] eqn:Hs.
    + right. left. destruct i; [|discriminate]. now injection Hx as <-.
    + left. rewrite list_lookup_fmap in Hx. apply fmap_Some in Hx as (y & Hy & ->). exists y. split; [exact Hy|]. split; [|reflexivity].
      apply sorted_log_elem. rewrite Hs. eapply list_elem_of_lookup_2. exact Hy.
  - right. right. unfold final_rows in Hi. rewrite lookup_app_r in Hi by exact Hb. revert Hi. generalize (default empty_row (last (base_rows (sorted log)))) as q.
    generalize (i - length (base_rows (sorted log)))%nat as k. generalize (d - length (base_rows (sorted log)))%nat as n. clear. induction n as [|n IH]; intros k q Hk; [discriminate|].
    destruct k as [|k]; [injection Hk as <-; now repeat split|]. exact (IH k (pad_of q) Hk).
Qed.

Lemma final_last (tr : list Acc) d : (length (base_rows tr) <= d)%nat -> exists rl, final_rows tr d !! (d - 1)%nat = Some rl /\ r_addr rl = r_addr (last_base tr) /\ r_value rl = r_value (last_base tr).
Proof.
  intros Hd. pose proof (last_base_lookup tr d Hd) as Hl. assert (Hpos : (0 < length (base_rows tr))%nat) by (rewrite base_rows_length; lia).
  destruct (Nat.eq_dec (length (base_rows tr)) d) as [He|Hne].
  - rewrite He in Hl. exists (last_base tr). split; [exact (final_old tr d _ _ Hl)|now split].
  - unfold final_rows. fold (last_base tr). rewrite lookup_app_r by lia. replace (d - 1 - length (base_rows tr))%nat with (d - length (base_rows tr) - 1)%nat by lia.
    assert (Hn : (0 < d - length (base_rows tr))%nat) by lia. revert Hn. generalize (d - length (base_rows tr))%nat as n. generalize (last_base tr) as q. clear. intros q n. revert q.
    induction n as [|n IH]; intros q Hn; [lia|]. destruct n as [|n]; [exists (pad_of q); now repeat split|].
    destruct (IH (pad_of q) ltac:(lia)) as (rl & Hrl & Ha & Hv). exists rl. cbn [pads]. replace (S (S n) - 1)%nat with (S (S n - 1))%nat by lia. split; [exact Hrl|now split].
Qed.

(** The first access to an address in the sorted trace is the first one in time. *)
Lemma boot_at log k (e : Acc) : chronological (access_op <$> log) -> boot_first log -> sorted log !! k = Some e ->
  (forall j x, (j < k)%nat -> sorted log !! j = Some x -> addr_of x < addr_of e) -> is_bootloader_write (snd e) = true.
Proof.
  intros Hc Hbf Hk Hbefore. assert (He : e ∈ at_address (addr_of e) log).
  { apply list_elem_of_filter. split; [reflexivity|]. apply sorted_log_elem. eapply list_elem_of_lookup_2. exact Hk. }
  destruct (at_address (addr_of e) log) as [|f l] eqn:Hat; [now apply elem_of_nil in He|]. pose proof (Hbf (addr_of e) f ltac:(now rewrite Hat)) as Hf.
  assert (Hfat : f ∈ at_address (addr_of e) log) by (rewrite Hat; now left). apply list_elem_of_filter in Hfat as [Hfa Hfin].
  apply elem_of_cons in He as [->|He]; [exact Hf|]. exfalso.
  assert (Hst : step_of f < step_of e).
  { apply list_elem_of_lookup in He as [p Hp].
    assert (Hss : StronglySorted (fun x y => addr_of x = addr_of y -> step_of x < step_of y) log).
    { clear -Hc LL. unfold chronological in Hc. induction log as [|x log IH]; [constructor|]. cbn in Hc. apply StronglySorted_inv in Hc as [Hc Hx]. constructor; [now apply IH|].
      rewrite List.Forall_forall in *. intros y Hy. apply (Hx (access_op y)). now apply in_map. }
    apply (StronglySorted_filter _ (fun x => addr_of x = addr_of e)) in Hss. change (StronglySorted (fun x y => addr_of x = addr_of y -> step_of x < step_of y) (at_address (addr_of e) log)) in Hss.
    rewrite Hat in Hss. apply (StronglySorted_lookup _ _ Hss 0 (S p) f e eq_refl Hp ltac:(lia)). exact Hfa. }
  rewrite <- sorted_log_elem in Hfin. apply list_elem_of_lookup in Hfin as [j Hj].
  destruct (Nat.lt_trichotomy j k) as [Hl|[->|Hl]].
  - specialize (Hbefore j f Hl Hj). lia.
  - rewrite Hk in Hj. injection Hj as <-. lia.
  - pose proof (StronglySorted_lookup _ _ (sorted_log_sorted log) k j e f Hk Hj Hl) as Hle. unfold by_key, key_le, akey, access_key in Hle. unfold addr_of, step_of in *. cbn in Hle. lia.
Qed.

Lemma sorted_addr_le log i j (x y : Acc) : sorted log !! i = Some x -> sorted log !! j = Some y -> (i <= j)%nat -> addr_of x <= addr_of y.
Proof.
  intros Hi Hj Hij. destruct (Nat.eq_dec i j) as [->|Hne]; [rewrite Hi in Hj; injection Hj as <-; lia|].
  pose proof (StronglySorted_lookup _ _ (sorted_log_sorted log) i j x y Hi Hj ltac:(lia)) as Hle. unfold by_key, key_le, akey, access_key in Hle. unfold addr_of. cbn in Hle. lia.
Qed.

Lemma max_pos : ConfigOk -> 1 <= range_max (degree_range cfg).
Proof. intros [_ _ _ (k & Hk & ->)]. enough (0 < 2 ^ k) by lia. apply Z.pow_pos_nonneg; lia. Qed.

(** Row [i] holds an access: its cells are those of the access, and exactly the selector of its caller is one. *)
Definition row_holds (cols : gmap string (list T)) (i : nat) (e : Acc) : Prop :=
  ds_cells cols i Addr = addr_of e /\ ds_cells cols i Step = step_of e /\ ds_cells cols i Value = to_integer (value (snd e)) /\
  ds_cells cols i IsWrite = b2z (is_normal_write (snd e)) /\ selector_id (snd e) ∈ polys /\
  forall k id, polys !! k = Some id -> ds_cells cols i (Selectors + k) = if bool_decide (id = selector_id (snd e)) then 1 else 0.

(** The rows hold the accesses of the log in sorted order, the others are not selected. *)
Lemma rows_hold_log log cols d : LogOk log -> FinalFacts (final_rows (sorted log) d) cols d ->
  (length (base_rows (sorted log)) <= d)%nat -> Z.of_nat d <= 2 ^ 32 ->
  (forall i e, sorted log !! i = Some e -> (i < d)%nat /\ row_holds cols i e) /\
  (forall i k, (length log <= i < d)%nat -> (k < length polys)%nat -> ds_cells cols i (Selectors + k) = 0).
Proof.
  intros [Hsm _] Hff Hbl Hd. assert (Hls : length (sorted log) = length log) by apply Permutation_length, sort_by_key_perm. split.
  - intros i e Hi. pose proof (lookup_lt_Some _ _ _ Hi). rewrite base_rows_length in Hbl. assert (Hid : (i < d)%nat) by lia. split; [exact Hid|].
    assert (Hr : final_rows (sorted log) d !! i = Some (row_of e)).
    { apply final_old. unfold base_rows. destruct (sorted log); [discriminate|]. now rewrite list_lookup_fmap, Hi. }
    destruct (cells_at _ _ _ Hff i Hid) as (r & ch & df & Hr' & Hrow & _). rewrite Hr in Hr'. injection Hr' as <-.
    destruct Hrow as [Ha Hs _ Hv Hw _ _ _]. do 4 (split; [assumption|]). split; [exact (ff_selected _ _ _ Hff _ (list_elem_of_lookup_2 _ _ _ Hr))|].
    intros k id Hk. rewrite (selector_cell _ _ _ _ _ _ (ff_cols _ _ _ Hff) Hr Hk). cbn [row_of r_sel]. erewrite bool_decide_ext; [reflexivity|]. split; [now intros [= ->]|now intros ->].
  - intros i k Hi Hk. destruct (lookup_lt_is_Some_2 (final_rows (sorted log) d) i ltac:(rewrite (ff_length _ _ _ Hff); lia)) as [r Hr].
    destruct (lookup_lt_is_Some_2 polys k Hk) as [id Hid]. rewrite (selector_cell _ _ _ _ _ _ (ff_cols _ _ _ Hff) Hr Hid).
    assert (Hn : r_sel r = None) by (destruct (final_row_cases log d i r Hsm Hbl Hd Hr) as [(e & He & _)|[(_ & _ & ->)|(_ & _ & Hn)]]; [apply lookup_lt_Some in He; lia|reflexivity|exact Hn]).
    now rewrite Hn.
Qed.

(** C20: The columns of the machine without bootloader writes. Let the calls use 32-bit addresses and steps and no bootloader
    writes, and not be more than the rows at the largest degree. If none panics, [take_witness_col_values] does not
    either, it returns columns of one length, a degree in the range of the machine, and each pair of cyclically
    adjacent rows satisfies the constraints of [std/machines/large_field/memory.asm]. The accepted calls are found in
    these columns, each in its own row: row [i] holds the address, the step, the value and the write flag of the [i]-th
    of them in the order of addresses and steps, with one in the column of its caller's selector and zero in those of
    the others, and in the remaining rows all selectors are zero. *)
Theorem witness_columns_satisfy (calls : list (Z * list LookupCell)) rs st :
  ConfigOk -> has_bootloader_write_column cfg = false -> Forall small_call calls -> Forall plain_call calls ->
  Z.of_nat (length calls) <= range_max (degree_range cfg) -> run_calls cfg calls (ds_init cfg) = Some (rs, st) ->
  exists cols st' d, take_witness_col_values cfg st = Some (cols, st') /\
    range_min (degree_range cfg) <= Z.of_nat d <= range_max (degree_range cfg) /\
    (forall k, (k < Selectors + length polys)%nat -> length (ds_column cols k) = d) /\
    (forall i, (i < d)%nat -> memory_constraints (T:=T) (length polys) (ds_cells cols i) (ds_cells cols ((i + 1) mod d)%nat) (i =? d - 1)%nat) /\
    (forall i e, sort_by_key key_le akey (log_of cfg calls rs) !! i = Some e -> (i < d)%nat /\ row_holds cols i e) /\
    (forall i k, (length (log_of cfg calls rs) <= i < d)%nat -> (k < length polys)%nat -> ds_cells cols i (Selectors + k) = 0).
Proof.
  intros Hcfg Hnb Hsm Hplain Hlen Hrun. pose proof (max_pos Hcfg) as Hpos.
  destruct (run_calls_refine cfg calls [] ∅ (ds_init cfg) rs st (call_init cfg) Hrun) as (_ & log & m & Hinv & Hfrom & Hll & Hlog). cbn [app] in Hinv.
  destruct (final_facts log m st Hcfg Hinv (log_of_calls calls log Hsm Hfrom) ltac:(lia)) as (cols & st' & d & Htake & Hff & Hd & Hbl).
  exists cols, st', d. split; [exact Htake|]. split; [exact Hd|]. pose proof (ff_length _ _ _ Hff) as Hlr. pose proof (ff_pos _ _ _ Hff) as Hdp. split.
  - intros k Hk. rewrite <- Hlr. apply columns_length; [apply Hff|lia|exact Hk].
  - assert (Hd32 : Z.of_nat d <= 2 ^ 32) by (destruct Hcfg as [_ _ _ (k & Hk & Hmax)]; rewrite Hmax in Hd; assert (2 ^ k <= 2 ^ 32) by (apply Z.pow_le_mono_r; lia); lia).
    pose proof (log_of_calls calls log Hsm Hfrom) as Hlo. rewrite <- Hlog. split; [|exact (rows_hold_log log cols d Hlo Hff Hbl Hd32)].
    apply (plain_satisfied _ _ _ Hff Hnb). apply Forall_lookup. intros i r Hi.
    destruct (final_row_cases log d i r (lo_small _ Hlo) Hbl Hd32 Hi) as [(e & _ & He & ->)|[(_ & _ & ->)|(_ & Hb & _)]]; [|reflexivity|exact Hb].
    rewrite List.Forall_forall in Hfrom. destruct (Hfrom e (proj1 (list_elem_of_In _ _) He)) as (c & o & v & sel & Hin & Ht & Hop). cbn [row_of r_boot]. rewrite Hop.
    rewrite List.Forall_forall in Hplain. exact (Hplain c (proj1 (list_elem_of_In _ _) Hin) o _ _ Ht).
Qed.

(** A row at a new address is a bootloader write. *)
Lemma new_address_boots log d : chronological (access_op <$> log) -> boot_first log -> Forall (fun e => row_small (row_of e)) log ->
  (length (base_rows (sorted log)) <= d)%nat -> Z.of_nat d <= 2 ^ 32 ->
  (forall i r r', final_rows (sorted log) d !! i = Some r -> final_rows (sorted log) d !! S i = Some r' -> adjacent r r') ->
  forall i r r', final_rows (sorted log) d !! i = Some r -> final_rows (sorted log) d !! S i = Some r' -> to_integer (r_addr r) <> to_integer (r_addr r') -> r_boot r' = true.
Proof.
  intros Hc Hbf Hsm Hbl Hd Hadj i r r' Hi Hi' Hne. pose proof (Hadj i r r' Hi Hi') as Ha.
  destruct (Nat.lt_ge_cases (S i) (length (base_rows (sorted log)))) as [Hb|Hb].
  - destruct (lookup_lt_is_Some_2 (base_rows (sorted log)) i ltac:(lia)) as [x Hx]. destruct (lookup_lt_is_Some_2 (base_rows (sorted log)) (S i) Hb) as [y Hy].
    rewrite (final_old _ _ i x Hx) in Hi. rewrite (final_old _ _ (S i) y Hy) in Hi'. injection Hi as <-. injection Hi' as <-.
    unfold base_rows in Hx, Hy. destruct (sorted log) as [|e0 l] eqn:Hs; [discriminate|]. rewrite <- Hs in *. rewrite list_lookup_fmap in Hx, Hy.
    apply fmap_Some in Hx as (e & He & ->), Hy as (e' & He' & ->). cbn [row_of r_boot]. apply (boot_at log (S i) e' Hc Hbf He').
    intros j z Hj Hz. pose proof (sorted_addr_le log j i z e Hz He ltac:(lia)). destruct Ha as [[Hlt _]|[Heq _]]; [|contradiction]. cbn [row_of r_addr] in Hlt. unfold addr_of in *. lia.
  - exfalso. pose proof (last_base_lookup (sorted log) d Hbl) as Hl. unfold final_rows in Hi, Hi'. fold (last_base (sorted log)) in Hi, Hi'. rewrite lookup_app_r in Hi' by lia.
    assert (Hpads : forall n k q p, pads n q !! k = Some p -> r_addr p = r_addr q).
    { clear. induction n as [|n IH]; intros k q p Hk; [discriminate|]. destruct k; [now injection Hk as <-|]. exact (IH k (pad_of q) p Hk). }
    apply Hne. rewrite (Hpads _ _ _ _ Hi'). destruct (Nat.lt_ge_cases i (length (base_rows (sorted log)))) as [Hib|Hib].
    + rewrite lookup_app_l in Hi by exact Hib. replace (length (base_rows (sorted log)) - 1)%nat with i in Hl by lia. rewrite Hl in Hi. now injection Hi as <-.
    + rewrite lookup_app_r in Hi by exact Hib. now rewrite (Hpads _ _ _ _ Hi).
Qed.

Lemma all_rows (rows : list (Row T)) cols d : FinalFacts rows cols d -> has_bootloader_write_column cfg = true -> (forall r, r ∈ rows -> r_write r && r_boot r = false) ->
  (forall i r r', rows !! i = Some r -> rows !! S i = Some r' -> to_integer (r_addr r) <> to_integer (r_addr r') -> r_boot r' = true) ->
  (forall i, (i < d)%nat -> boot_ok cols d i) <-> boot_ok cols d (d - 1).
Proof.
  intros Hff Hhas Hone Hnew. pose proof (ff_pos _ _ _ Hff). split; [intros Hall; apply Hall; lia|]. intros Hlast i Hi.
  destruct (Nat.eq_dec (S i) d) as [He|Hne]; [now replace i with (d - 1)%nat by lia|]. apply (boot_inner rows cols d Hff Hhas Hone Hnew). lia.
Qed.


End Satisfy.

(** ** Two machines *)

Module DsColumnsDemo.
Notation GL := GoldilocksField.
Import DsDemo.

Ltac no_dup := apply (bool_decide_eq_true_1 _); vm_compute; reflexivity.
Ltac each_call := repeat (apply List.Forall_cons; [intros o a s [= <- <- <-]|]); [..|apply List.Forall_nil].

Lemma config_ok : ConfigOk cfg.
Proof. split; [no_dup|reflexivity|cbn; lia|]. exists 5. split; [lia|reflexivity]. Qed.

Lemma calls_small : Forall small_call (to_call <$> calls).
Proof. unfold calls. cbn [fmap list_fmap]. each_call; vm_compute; split; reflexivity. Qed.
Lemma calls_plain : Forall plain_call (to_call <$> calls).
Proof. unfold calls. cbn [fmap list_fmap]. each_call; vm_compute; reflexivity. Qed.

Lemma witness_columns_satisfy_witness : exists rs st, run_calls cfg (to_call <$> calls) (ds_init cfg) = Some (rs, st) /\
  exists cols st' d, take_witness_col_values cfg st = Some (cols, st') /\ 8 <= Z.of_nat d <= 32 /\
    (forall k, (k < Selectors + 2)%nat -> length (ds_column cfg cols k) = d) /\
    (forall i, (i < d)%nat -> memory_constraints (T:=GL) 2 (ds_cells cfg cols i) (ds_cells cfg cols ((i + 1) mod d)%nat) (i =? d - 1)%nat) /\
    (forall i e, sort_by_key key_le akey (log_of cfg (to_call <$> calls) rs) !! i = Some e -> (i < d)%nat /\ row_holds cfg cols i e) /\
    (forall i k, (length (log_of cfg (to_call <$> calls) rs) <= i < d)%nat -> (k < 2)%nat -> ds_cells cfg cols i (Selectors + k) = 0).
Proof.
  destruct calls_return_witness as (rs & st & Hrun & _). exists rs, st. split; [exact Hrun|].
  exact (witness_columns_satisfy cfg (to_call <$> calls) rs st config_ok eq_refl calls_small calls_plain ltac:(cbn; lia) Hrun).
Defined.

(** The same machine with bootloader writes: two addresses are written by the bootloader before they are used. *)
Definition boot_cfg : DsConfig := mkDsConfig (mkDegreeRange 4 32) "main_memory" (Some (2 ^ 16)) true [(1, sel 7); (2, sel 8)] col_name.
Definition boot_calls : list (FullCall (T:=GL)) :=
  [call 2 2 5 0 (Input (from_int 7)); call 2 2 9 0 (Input (from_int 1)); call 1 1 5 2 (Input (from_int 8)); call 1 0 5 3 (Output (from_int 0))].

Lemma boot_config_ok : ConfigOk boot_cfg.
Proof. split; [no_dup|reflexivity|cbn; lia|]. exists 5. split; [lia|reflexivity]. Qed.
Lemma boot_calls_small : Forall small_call (to_call <$> boot_calls).
Proof. unfold boot_calls. cbn [fmap list_fmap]. each_call; vm_compute; split; reflexivity. Qed.
Lemma boot_calls_full : Forall (full_ok boot_cfg) boot_calls.
Proof.
  unfold boot_calls. repeat (apply List.Forall_cons; [|]); [..|apply List.Forall_nil]; (split; [vm_compute; now eexists|split; [vm_compute; reflexivity|]]);
    first [intros _; vm_compute; now eexists|vm_compute; discriminate].
Qed.
Lemma boot_calls_order : calls_ordered boot_calls.
Proof.
  unfold calls_ordered, boot_calls. repeat (apply SSorted_cons; [|]); try apply SSorted_nil;
    repeat (apply List.Forall_cons; [first [intros _; vm_compute; reflexivity|vm_compute; discriminate]|]); apply List.Forall_nil.
Qed.
Lemma boot_calls_booted : calls_booted [] boot_calls.
Proof.
  unfold boot_calls. cbn [calls_booted]. split; [left; vm_compute; reflexivity|]. split; [left; vm_compute; reflexivity|].
  split; [right; exists (call 2 2 5 0 (Input (from_int 7))); split; [right; left|reflexivity]|].
  split; [right; exists (call 2 2 5 0 (Input (from_int 7))); split; [right; right; left|reflexivity]|]. exact I.
Qed.


(** A bootloader write whose value is not known is left incomplete, and yet marks its address as initialized: a
    read that comes first is then answered, and its row starts the address without a bootloader write. *)
Definition early : list (FullCall (T:=GL)) :=
  [call 1 2 5 0 (Input (from_int 7)); call 1 2 9 0 (Output (from_int 1)); call 1 0 9 3 (Output (from_int 0))].

Example incomplete_write_initializes :
  match run_calls boot_cfg (map to_call early) (ds_init boot_cfg) with
  | Some (rs, st) => map fst rs = [POk true; POk false; POk true] /\
      match take_witness_col_values boot_cfg st with
      | Some (cols, _) => map (boot_cell boot_cfg cols) [0; 1]%nat = [1; 0] /\ map (fun i => ds_cells boot_cfg cols i Addr) [0; 1]%nat = [5; 9]
      | None => False
      end
  | None => False
  end.
Proof. vm_compute. repeat split. Qed.

(** Without the incomplete call the same read panics. *)
Example uninitialized_read_panics : run_calls boot_cfg (map to_call [call 1 0 9 3 (Output (from_int 0))]) (ds_init boot_cfg) = None.
Proof. vm_compute. reflexivity. Qed.

End DsColumnsDemo.
