(* ===== verification/RiscvLogs.v ===== *)
(** * The logs of memory and register operations

    In witness mode every access to the memory and to the registers is sent to a memory
    machine. The logs are what a memory does: each read gives the value of the last write,
    and the final memory and registers are the result of the writes. *)

From stdpp Require Import base list option gmap strings sorting.
From Stdlib Require Import ZArith Lia.
From S2P Require Import Prelude Goldilocks Field AffineExpression PanicMonad RiscvElem RiscvNames RiscvTrace.
From S2P Require Import RiscvArith RiscvPoseidon RiscvPil RiscvExec RiscvRun RiscvDemo RiscvModes RiscvRows RiscvMemory.

Section Logs.
Context {T W : Type} `{LL : LargeFieldLaws T} `{Display T}.
Notation E := (Executor T W).

(** ** Logs *)

Record MemEntry := { me_write : bool; me_addr : Z; me_step : Z; me_value : Z }.
Record RegEntry := { re_write : bool; re_reg : Z; re_step : Z; re_value : Elem T }.

(** What the executor sends for an entry. *)
Definition encode_mem (x : MemEntry) : list T := [from_int (b2z (me_write x)); from_u32 (me_addr x); from_u32 (me_step x); from_u32 (me_value x)].
Definition encode_reg (x : RegEntry) : list T := [from_int (b2z (re_write x)); from_u32 (re_reg x); from_u32 (re_step x); into_fe (re_value x)].

(** A log leads from one memory to another; register zero keeps its value. *)
Fixpoint mem_log (m : gmap Z Z) (l : list MemEntry) (m' : gmap Z Z) : Prop :=
  match l with
  | [] => m' = m
  | x :: l' => if me_write x then mem_log (<[me_addr x := me_value x]> m) l' m'
               else me_value x = default 0 (m !! me_addr x) /\ mem_log m l' m'
  end.

Definition write_reg (r : Z) (v : Elem T) (m : gmap Z (Elem T)) : gmap Z (Elem T) := if r =? 0 then m else <[r := v]> m.

Fixpoint reg_log (m : gmap Z (Elem T)) (l : list RegEntry) (m' : gmap Z (Elem T)) : Prop :=
  match l with
  | [] => m' = m
  | x :: l' => if re_write x then reg_log (write_reg (re_reg x) (re_value x) m) l' m'
               else re_value x = reg_value m (re_reg x) /\ reg_log m l' m'
  end.

Lemma mem_log_snoc l x : forall m m', mem_log m l m' ->
  (me_write x = false -> me_value x = default 0 (m' !! me_addr x)) ->
  mem_log m (l ++ [x]) (if me_write x then <[me_addr x := me_value x]> m' else m').
Proof.
  induction l as [|y l IH]; intros m m' Hl Hx; cbn in *.
  - subst m'. destruct (me_write x); [reflexivity|auto].
  - destruct (me_write y); [now apply IH|]. destruct Hl as [Hy Hl]. split; [exact Hy|now apply IH].
Qed.

Lemma reg_log_snoc l x : forall m m', reg_log m l m' ->
  (re_write x = false -> re_value x = reg_value m' (re_reg x)) ->
  reg_log m (l ++ [x]) (if re_write x then write_reg (re_reg x) (re_value x) m' else m').
Proof.
  induction l as [|y l IH]; intros m m' Hl Hx; cbn in *.
  - subst m'. destruct (re_write x); [reflexivity|auto].
  - destruct (re_write y); [now apply IH|]. destruct Hl as [Hy Hl]. split; [exact Hy|now apply IH].
Qed.

(** ** The invariant *)

Variables (mem0 : gmap Z Z) (regs0 : gmap Z (Elem T)).

Definition sent (b : TraceBuilder T) (m : MachineInstance) : list (list T) := map lookup_args (ops_of m (submachine_ops b)).

Definition logged (b : TraceBuilder T) : Prop :=
  length (submachine_ops b) = machine_count /\
  exists ml rl, sent b M_memory = map encode_mem ml /\ mem_log mem0 ml (mem b) /\ sent b M_regs = map encode_reg rl /\ reg_log regs0 rl (reg_last b).

(** The invariant depends on three fields. *)
Lemma logged_ext b b' : submachine_ops b' = submachine_ops b -> mem b' = mem b -> reg_last b' = reg_last b -> logged b -> logged b'.
Proof. unfold logged, sent. now intros -> -> ->. Qed.

(** Programs that keep the invariant. *)
Definition invb {A} (m : M (TraceBuilder T) A) : Prop := forall b, logged b -> wp m (fun _ b' => logged b') b.
Definition inv {A} (m : M E A) : Prop := forall e, logged (proc e) -> wp m (fun _ e' => logged (proc e')) e.

Lemma invb_bind {A C} (m : M (TraceBuilder T) A) (k : A -> M _ C) : invb m -> (forall a, invb (k a)) -> invb (m ≫= k).
Proof. intros Hm Hk b Hb. apply wp_bind. eapply wp_conseq; [now apply Hm|]. cbn. intros a b' Hb'. now apply Hk. Qed.
Lemma invb_lift {A} (o : option A) : invb (lift o).
Proof. intros b Hb. now apply wp_lift. Qed.
Lemma invb_gets {A} (f : TraceBuilder T -> A) : invb (gets f).
Proof. intros b Hb. now apply wp_gets. Qed.
Lemma invb_ret {A} (a : A) : invb (mret a).
Proof. intros b Hb. now apply wp_ret. Qed.
Lemma invb_panic {A} : invb (panic (A:=A)).
Proof. intros b Hb. apply wp_panic. Qed.
Lemma invb_modify (f : TraceBuilder T -> TraceBuilder T) :
  (forall b, submachine_ops (f b) = submachine_ops b /\ mem (f b) = mem b /\ reg_last (f b) = reg_last b) -> invb (modify f).
Proof. intros Hf b Hb. apply wp_modify. destruct (Hf b) as (? & ? & ?). now apply (logged_ext b). Qed.
Lemma invb_when c m : invb m -> invb (whenM c m).
Proof. destruct c; [auto|intros _; apply invb_ret]. Qed.

Lemma inv_bind {A C} (m : M E A) (k : A -> M E C) : inv m -> (forall a, inv (k a)) -> inv (m ≫= k).
Proof. intros Hm Hk b Hb. apply wp_bind. eapply wp_conseq; [now apply Hm|]. cbn. intros a b' Hb'. now apply Hk. Qed.
Lemma inv_lift {A} (o : option A) : inv (lift o).
Proof. intros b Hb. now apply wp_lift. Qed.
Lemma inv_gets {A} (f : E -> A) : inv (gets f).
Proof. intros b Hb. now apply wp_gets. Qed.
Lemma inv_ret {A} (a : A) : inv (mret a).
Proof. intros b Hb. now apply wp_ret. Qed.
Lemma inv_panic {A} : inv (panic (A:=A)).
Proof. intros b Hb. apply wp_panic. Qed.
Lemma inv_modify (f : E -> E) : (forall e, proc (f e) = proc e) -> inv (modify f).
Proof. intros Hf e He. apply wp_modify. now rewrite Hf. Qed.
Lemma inv_on_proc {A} (m : M (TraceBuilder T) A) : invb m -> inv (on_proc m).
Proof. intros Hm e He. apply wp_on_part. eapply wp_conseq; [now apply Hm|]. auto. Qed.
Lemma inv_for_each {A} (f : A -> M E unit) l : (forall x, inv (f x)) -> inv (for_each f l).
Proof. intros Hf e He. apply wp_for_each; [exact He|]. intros x s _ Hs. now apply Hf. Qed.
Lemma inv_map_collect {A C} (f : A -> M E C) l : (forall x, inv (f x)) -> inv (map_collect f l).
Proof. intros Hf e He. apply wp_map_collect; [exact He|]. intros x s _ Hs. now apply Hf. Qed.

(** ** The primitives *)

Variable env : Env T W.
Hypothesis Hw : mode (config env) = Witness.

Lemma sent_add b m op m' : length (submachine_ops b) = machine_count ->
  sent (set_submachine_ops (add_op m op (submachine_ops b)) b) m' = sent b m' ++ (if machine_eqb m m' then [lookup_args op] else []).
Proof.
  intros Hl. unfold sent. cbn [submachine_ops set_submachine_ops]. rewrite ops_of_add_op by exact Hl. destruct (machine_eqb m m'); [now rewrite map_app|now rewrite app_nil_r].
Qed.

(** Operations of the other machines. *)
Lemma logged_other m op (e : E) : m <> M_memory -> m <> M_regs -> logged (proc e) -> logged (proc (upd_ops m op e)).
Proof.
  intros Hm Hr (Hl & ml & rl & Hs1 & Hl1 & Hs2 & Hl2). split; [exact (eq_trans (add_op_length _ _ _) Hl)|]. exists ml, rl. cbn [upd_ops proc put_proc].
  rewrite !sent_add by exact Hl. destruct (machine_eqb_spec m M_memory); [easy|]. destruct (machine_eqb_spec m M_regs); [easy|]. rewrite !app_nil_r. auto.
Qed.

Lemma logged_mem id x f (e : E) kd : logged (proc e) -> (me_write x = false -> me_value x = default 0 (mem (proc e) !! me_addr x)) ->
  f (mem (proc e)) = (if me_write x then <[me_addr x := me_value x]> (mem (proc e)) else mem (proc e)) ->
  logged (proc (upd_mem kd (me_addr x) f (upd_ops M_memory (mkOp id (encode_mem x) []) e))).
Proof.
  intros (Hl & ml & rl & Hs1 & Hl1 & Hs2 & Hl2) Hx Hf. apply (logged_ext (set_memory (f (mem (proc e))) (proc (upd_ops M_memory (mkOp id (encode_mem x) []) e)))); [reflexivity..|].
  split; [exact (eq_trans (add_op_length _ _ _) Hl)|]. exists (ml ++ [x]), rl. cbn [upd_ops proc put_proc mem set_memory reg_last set_submachine_ops].
  unfold sent in *. cbn [submachine_ops set_memory set_submachine_ops]. rewrite !ops_of_add_op by exact Hl. cbn [machine_eqb machine_idx Nat.eqb].
  rewrite !map_app, Hs1, Hf. split; [reflexivity|]. split; [now apply mem_log_snoc|]. auto.
Qed.

Lemma logged_reg id x (e : E) : logged (proc e) -> (re_write x = false -> re_value x = reg_value (reg_last (proc e)) (re_reg x)) ->
  logged (proc ((if re_write x then upd_reg (re_reg x) (re_value x) else fun e => e) (upd_ops M_regs (mkOp id (encode_reg x) []) e))).
Proof.
  intros (Hl & ml & rl & Hs1 & Hl1 & Hs2 & Hl2) Hx.
  apply (logged_ext (set_reg_last (if re_write x then write_reg (re_reg x) (re_value x) (reg_last (proc e)) else reg_last (proc e))
    (proc (upd_ops M_regs (mkOp id (encode_reg x) []) e)))).
  1,2,3: unfold upd_reg, write_reg; destruct (re_write x), (re_reg x =? 0); reflexivity.
  split; [exact (eq_trans (add_op_length _ _ _) Hl)|]. exists ml, (rl ++ [x]). cbn [upd_ops proc put_proc mem set_reg_last reg_last set_submachine_ops].
  unfold sent in *. cbn [submachine_ops set_reg_last set_submachine_ops]. rewrite !ops_of_add_op by exact Hl. cbn [machine_eqb machine_idx Nat.eqb].
  rewrite !map_app, Hs2. split; [exact Hs1|]. split; [exact Hl1|]. split; [reflexivity|]. now apply reg_log_snoc.
Qed.

Lemma inv_set_mem a v st id : inv (set_mem env a v st id).
Proof. intros e He. apply (wp_set_mem env Hw). exact (logged_mem id {| me_write := true; me_addr := a; me_step := st; me_value := v |} (fun m => <[a := v]> m) e Write He ltac:(discriminate) eq_refl). Qed.
Lemma inv_get_mem a st id : inv (get_mem env a st id).
Proof.
  intros e He. apply (wp_get_mem env Hw). intros val Hv.
  exact (logged_mem id {| me_write := false; me_addr := a; me_step := st; me_value := val |} (fun m => m) e Read He (fun _ => Hv) eq_refl).
Qed.
Lemma inv_reg_read k r id : inv (reg_read env k r id).
Proof.
  intros e He. apply (wp_reg_read env Hw). intros val Hs.
  exact (logged_reg id {| re_write := false; re_reg := r; re_step := step e + k; re_value := val |} e He (fun _ => eq_refl)).
Qed.
Lemma inv_reg_write k r v id : inv (reg_write env k r v id).
Proof.
  intros e He. apply (wp_reg_write env Hw). intros Hs.
  exact (logged_reg id {| re_write := true; re_reg := r; re_step := step e + k; re_value := v |} e He ltac:(discriminate)).
Qed.
Lemma inv_submachine_op m id args ext : m <> M_memory -> m <> M_regs -> inv (submachine_op env m id args ext).
Proof. intros Hm Hr e He. apply (wp_submachine_op env Hw). now apply logged_other. Qed.

Ltac invb := repeat first [apply invb_bind; [|intros ?] | apply invb_when | apply invb_lift | apply invb_gets | apply invb_modify; intros ?; split; [|split]; reflexivity
  | apply invb_ret | apply invb_panic].

Lemma inv_set_col c v : inv (set_col env c v).
Proof. apply inv_on_proc. unfold RiscvTrace.set_col. invb. Qed.
Lemma inv_set_cols l : inv (set_cols env l).
Proof. apply inv_on_proc. unfold RiscvTrace.set_cols. induction l as [|cv l IH]; cbn; [apply invb_ret|]. apply invb_bind; [unfold RiscvTrace.set_col; invb|intros _; exact IH]. Qed.
Lemma inv_set_pc v : inv (set_pc env v).
Proof. apply inv_on_proc. unfold RiscvTrace.set_pc, set_reg_idx. invb. Qed.
Lemma inv_set_reg n v : inv (on_proc (W:=W) (set_reg (config env) n v)).
Proof. apply inv_on_proc. unfold set_reg, set_reg_idx. invb. Qed.
Lemma inv_get_reg n : inv (on_proc (W:=W) (get_reg (config env) n)).
Proof. apply inv_on_proc. unfold get_reg, get_reg_idx, get_pc. invb. case_match; invb. Qed.
Lemma inv_get_pc : inv (on_proc (W:=W) get_pc).
Proof. apply inv_on_proc. unfold get_pc. invb. Qed.
Lemma inv_get_next_pc : inv (on_proc (W:=W) (get_next_pc (config env))).
Proof. apply inv_on_proc. unfold get_next_pc. invb. Qed.
Lemma inv_get_reg_mem r : inv (on_proc (W:=W) (get_reg_mem r)).
Proof. apply inv_on_proc. unfold get_reg_mem. invb. Qed.
Lemma inv_backup : inv (on_proc (W:=W) backup_reg_mem).
Proof. apply inv_on_proc. unfold backup_reg_mem. invb. Qed.
Lemma inv_push_row pc : inv (on_proc (W:=W) (push_row (config env) pc)).
Proof. apply inv_on_proc. unfold push_row. invb. Qed.
Lemma inv_set_col_idx c i v : inv (on_proc (W:=W) (set_col_idx (config env) c i v)).
Proof. apply inv_on_proc. unfold set_col_idx. invb. Qed.
Lemma inv_advance : inv (on_proc (W:=W) (advance (config env))).
Proof.
  apply inv_on_proc. unfold advance, next_row, set_next_pc, get_next_pc, has_enough_rows, RiscvTrace.set_col, push_row. invb. all: repeat (case_match; invb).
Qed.
Lemma inv_pure {A} (m : M E A) : pure m -> inv m.
Proof. intros Hm e He a e' Ha. now rewrite (Hm e a e' Ha). Qed.

(** ** The instructions *)

Lemma inv_instr_link_id i m k : inv (instr_link_id env i m k).
Proof. unfold instr_link_id. destruct (witnessing _); [apply inv_bind; [apply inv_lift|intros]|]; apply inv_ret. Qed.
Lemma inv_link_id f t k : inv (link_id env f t k).
Proof. unfold link_id. destruct (witnessing _); [apply inv_bind; [apply inv_lift|intros]|]; apply inv_ret. Qed.
Lemma inv_link_read i k o r : inv (link_read env i k o r).
Proof. apply inv_bind; [apply inv_instr_link_id|intros; apply inv_reg_read]. Qed.
Lemma inv_link_write i k o r v : inv (link_write env i k o r v).
Proof. apply inv_bind; [apply inv_instr_link_id|intros; apply inv_reg_write]. Qed.
Lemma inv_get_known_fixed c r : inv (get_known_fixed env c r).
Proof. apply inv_pure, pure_get_known_fixed. Qed.

(** One step of a program that keeps the invariant. *)
Ltac istep :=
  lazymatch goal with
  | |- inv (mbind _ _) => apply inv_bind; [|intros ?]
  | |- inv (lift _) => apply inv_lift
  | |- inv (assertM _) => apply inv_lift
  | |- inv (gets _) => apply inv_gets
  | |- inv (mret _) => apply inv_ret
  | |- inv panic => apply inv_panic
  | |- inv (modify _) => apply inv_modify; intros ?; reflexivity
  | |- inv (set_col _ _ _) => apply inv_set_col
  | |- inv (set_cols _ _) => apply inv_set_cols
  | |- inv (set_mem _ _ _ _ _) => apply inv_set_mem
  | |- inv (get_mem _ _ _ _) => apply inv_get_mem
  | |- inv (reg_read _ _ _ _) => apply inv_reg_read
  | |- inv (link_read _ _ _ _ _) => apply inv_link_read
  | |- inv (link_write _ _ _ _ _ _) => apply inv_link_write
  | |- inv (submachine_op _ _ _ _ _) => apply inv_submachine_op; discriminate
  | |- inv (instr_link_id _ _ _ _) => apply inv_instr_link_id
  | |- inv (link_id _ _ _ _) => apply inv_link_id
  | |- inv (set_pc _ _) => apply inv_set_pc
  | |- inv (get_known_fixed _ _ _) => apply inv_get_known_fixed
  | |- inv (on_proc get_pc) => apply inv_get_pc
  | |- inv (on_proc (get_next_pc _)) => apply inv_get_next_pc
  | |- inv (on_proc (get_reg_mem _)) => apply inv_get_reg_mem
  | |- inv (on_proc (get_reg _ _)) => apply inv_get_reg
  | |- inv (on_proc (set_reg _ _ _)) => apply inv_set_reg
  | |- inv (on_proc backup_reg_mem) => apply inv_backup
  | |- inv (on_proc (push_row _ _)) => apply inv_push_row
  | |- inv (on_proc (set_col_idx _ _ _ _)) => apply inv_set_col_idx
  | |- inv (on_proc (advance _)) => apply inv_advance
  | |- inv (for_each _ _) => apply inv_for_each; intros ?
  | |- inv (map_collect _ _) => apply inv_map_collect; intros ?
  | |- inv (whenM ?b _) => destruct b; cbn [whenM]
  | |- inv (if ?b then _ else _) => destruct b
  | |- inv (let '_ := ?x in _) => destruct x
  | |- inv (match ?x with _ => _ end) => destruct x
  end.
Ltac invs := repeat first [istep | progress unfold arg, arg_u, arg_bin, step_plus, pc_plus_one, skip_target, ptr_plus, aligned_ptr, read_words, read_fes,
  poseidon_read, poseidon_write, write_words, write_fes, set_is_zero_cols, get_fixed_here, bootloader_input].

Lemma inv_exec_body i args : inv (exec_body env i args).
Proof.
  destruct i; cbn [exec_body];
  unfold exec_set_reg, exec_get_reg, exec_affine, exec_mstore, exec_mload, exec_load_bootloader_input, exec_assert_bootloader_input, exec_load_label, exec_jump,
    exec_jump_dyn, exec_jump_to_bootloader_input, exec_branch_if_diff_nonzero, exec_branch_if_diff_equal, exec_skip_if_equal,
    exec_branch_if_diff_greater_than, exec_is_diff_greater_than, exec_is_equal_zero, exec_is_not_equal, exec_add_wrap, exec_wrap16,
    exec_sub_wrap_with_offset, exec_sign_extend_byte, exec_sign_extend_16_bits, exec_to_signed, exec_fail, exec_divremu, exec_mul, exec_binary,
    exec_shift, exec_invert_gl, exec_split_gl, exec_poseidon_gl, exec_poseidon2_gl, exec_affine_256, exec_mod_256, exec_ec_add, exec_ec_double,
    exec_commit_public, exec_keccakf; invs.
Qed.

Lemma inv_run_instruction name args : inv (run_instruction env name args).
Proof. unfold run_instruction, set_const_cols. invs. apply inv_exec_body. Qed.

Lemma inv_eval_args args : Forall (fun e => inv (eval_expression env e)) args -> inv (map_collect (fun a => o ← eval_expression env a; lift o) args).
Proof.
  intros Ha e He. apply wp_map_collect; [exact He|]. intros a s Hin Hs. rewrite List.Forall_forall in Ha.
  apply inv_bind; [apply Ha; now apply list_elem_of_In|intros; apply inv_lift|exact Hs].
Qed.

Lemma inv_eval_expression e : inv (eval_expression env e) /\
  match e with EFunctionCall (EReference _) args => Forall (fun e => inv (eval_expression env e)) args | _ => True end.
Proof.
  induction e as [path|n|l op r [IHl _] [IHr _]|op e [IHe _]|f args _ IHargs|e [_ IHe]|] using expression_induction; cbn [eval_expression]; (split; [|try exact I]).
  - invs.
  - invs.
  - istep; [exact IHl|]. istep; [invs|]. istep; [exact IHr|]. invs.
  - istep; [exact IHe|]. invs.
  - assert (Hargs : Forall (fun e => inv (eval_expression env e)) args) by (eapply List.Forall_impl; [|exact IHargs]; intros a [Ha _]; exact Ha).
    destruct f; try apply inv_panic. istep.
    + destruct args as [|a args]; [apply inv_panic|]. now apply List.Forall_inv in Hargs.
    + istep; [invs|]. istep; [now apply inv_eval_args|apply inv_run_instruction].
  - destruct f; try exact I. eapply List.Forall_impl; [|exact IHargs]; intros a [Ha _]; exact Ha.
  - destruct e; try apply inv_panic. destruct e; try apply inv_panic. istep; [now apply inv_eval_args|]. unfold free_input, query. invs.
  - apply inv_panic.
Qed.

Lemma inv_exec_instruction name args : inv (exec_instruction env name args).
Proof.
  unfold exec_instruction. istep; [|apply inv_run_instruction]. apply inv_eval_args. apply List.Forall_forall. intros e _. apply inv_eval_expression.
Qed.

Variable program : PreprocessedMain T.

Lemma invb_set_next_pc : invb (set_next_pc (config env)).
Proof. unfold set_next_pc. repeat first [apply invb_bind; [|intros ?] | apply invb_lift | apply invb_gets | apply invb_modify; intros ?; split; [|split]; reflexivity | apply invb_ret | apply invb_panic | case_match]. Qed.

Lemma inv_exec_statement stm : inv (exec_statement env program stm).
Proof.
  destruct stm as [lhs rhs|name ins| |d|name]; cbn [exec_statement].
  - do 3 (istep; [invs|]). istep; [apply inv_eval_expression|]. destruct lhs as [|[dest [x|]] [|]]; try apply inv_panic. unfold assignment_cols. invs.
  - istep; [invs|]. istep; invs; first [apply inv_exec_instruction|apply inv_eval_expression].
  - invs.
  - invs.
  - apply inv_panic.
Qed.

Lemma inv_exec_line pc : inv (exec_line env program pc).
Proof. unfold exec_line. invs. apply inv_exec_statement. Qed.

Lemma inv_exec_loop fuel : forall pc, inv (exec_loop env program fuel pc).
Proof. induction fuel as [|fuel IH]; intros pc; cbn [exec_loop]; [invs|]. istep; [apply inv_exec_line|]. destruct a; [apply IH|invs]. Qed.

Lemma inv_run_program fuel : inv (run_program env program fuel).
Proof.
  unfold run_program, init. invs; try apply inv_exec_loop; try (apply inv_pure, pure_get_fixed).
  unfold end_trace, end_row, advance_to_end, sink_id. invs. all: apply inv_pure, pure_get_fixed.
Qed.

End Logs.

(** ** The logs of a run *)

Section Run.
Context {T W : Type} `{LL : LargeFieldLaws T} `{Display T}.

(** C4: Memory and registers are logged faithfully. In a run in witness mode from an initial memory, whatever
    the program, the operations sent to the machine of the memory are the encoding of a log of reads and
    writes which, replayed on the initial memory, returns at each read the value the log claims and ends in
    the final memory; and the operations sent to the machine of the registers likewise replay the registers,
    from all zero to their final values. *)
Theorem logs_are_consistent (env : Env T W) (program : PreprocessedMain T) (memory : gmap Z Z) (w : W) fuel b done e :
  mode (config env) = Witness -> builder_new (config env) memory = Some (inl b) ->
  run_program env program fuel (mkExecutor b 0 w) = Some (done, e) ->
  exists ml rl, sent (proc e) M_memory = map encode_mem ml /\ mem_log memory ml (mem (proc e)) /\
                sent (proc e) M_regs = map encode_reg rl /\ reg_log ∅ rl (reg_last (proc e)).
Proof.
  intros Hw Hb Hrun. assert (Hl : logged memory ∅ b).
  { unfold builder_new in Hb. set (n := size (reg_map (config env))) in Hb. destruct (Z.of_nat n <? 2 ^ 16); [|discriminate].
    destruct (pc_idx (config env) <? n)%nat; [|discriminate]. cbn [assert_that mbind option_bind] in Hb.
    destruct (max_rows (config env) <=? trace_len (initial_builder (T:=T) (config env) n memory)); [discriminate|].
    destruct (set_next_pc (config env) (initial_builder (config env) n memory)) as [[[[]|] b']|] eqn:Hs; cbn [mbind option_bind fst snd] in Hb; try discriminate. injection Hb as <-.
    refine (invb_set_next_pc memory ∅ env (initial_builder (config env) _ memory) _ (Some tt) b' Hs).
    split; [reflexivity|]. exists [], []. repeat (split; [reflexivity|]). reflexivity. }
  destruct (inv_run_program memory ∅ env Hw program fuel (mkExecutor b 0 w) Hl done e Hrun) as (_ & ml & rl & Hm). exists ml, rl. exact Hm.
Qed.
End Run.

Lemma logs_are_consistent_witness : exists b done e ml rl,
  builder_new (config (Demo.env Witness)) ∅ = Some (inl b) /\ run_program (Demo.env Witness) Demo.program 20 (mkExecutor b 0 tt) = Some (done, e) /\
  sent (proc e) M_memory = map encode_mem ml /\ mem_log ∅ ml (mem (proc e)) /\
  sent (proc e) M_regs = map encode_reg rl /\ reg_log ∅ rl (reg_last (proc e)).
Proof.
  assert (Hs : match builder_new (T:=GoldilocksField) (config (Demo.env Witness)) ∅ with
               | Some (inl b) => match run_program (Demo.env Witness) Demo.program 20 (mkExecutor b 0 tt) with Some _ => true | None => false end
               | _ => false end = true) by (vm_compute; reflexivity).
  destruct (builder_new (config (Demo.env Witness)) ∅) as [[b|b]|] eqn:Hb; try discriminate Hs.
  destruct (run_program (Demo.env Witness) Demo.program 20 (mkExecutor b 0 tt)) as [[done e]|] eqn:Hrun; [|discriminate Hs].
  destruct (logs_are_consistent (Demo.env Witness) Demo.program ∅ tt 20 b done e eq_refl Hb Hrun) as (ml & rl & Hm).
  exists b, done, e, ml, rl. split; [reflexivity|]. split; [exact Hrun|]. exact Hm.
Defined.

(** ** From the log to the columns of the memory machine

    The end of [finish]: the selectors of the links, and the operations applied to the
    machine. *)

Section Columns.
Context {T : Type} `{LL : LargeFieldLaws T}.

(** The selector of the permutation with an id. *)
Definition id_selectors (links : list (Identity T)) : list (option string) :=
  foldl (fun acc l =>
    let i := Z.to_nat (ident_id l) in
    let acc := if (length acc <=? i)%nat then resize (S i) None acc else acc in
    <[i := extract_selector l]> acc) [] links.

Fixpoint apply_operations (id_sel : list (option string)) (ops : list (SubmachineOp T)) (m : MemoryMachine T) : option (MemoryMachine T) :=
  match ops with
  | [] => Some m
  | op :: ops' =>
    sel ← id_sel !! Z.to_nat (identity_id op);
    m' ← memory_add_operation sel (lookup_args op) m;
    apply_operations id_sel ops' m'
  end.

(** [len.next_power_of_two()] of [u32], and the degree of a machine with operations. *)
Definition next_power_of_two (n : Z) : option Z := let p := 2 ^ Z.log2_up n in if p <? 2 ^ 32 then Some p else None.
Definition machine_degree (len min_degree : Z) : option Z := p ← next_power_of_two len; Some (Z.max p min_degree).

(** The operation of the machine for an entry of the log. *)
Definition to_mem_op (x : MemEntry) (selector : Z) : MemOp T :=
  mkMemOp (me_addr x) (me_step x) (from_u32 (me_value x)) (from_int (b2z (me_write x))) selector.

Definition entry_ok (x : MemEntry) : Prop := in_width 32 (me_addr x) /\ in_width 32 (me_step x) /\ in_width 32 (me_value x).

Lemma try_into_u32_from_u32 a : in_width 32 a -> try_into_u32 (from_u32 (T:=T) a) = Some a.
Proof. intros Ha. unfold try_into_u32. rewrite from_u32_spec by exact Ha. now rewrite (proj2 (Z.ltb_lt a (2 ^ 32)) (proj2 Ha)). Qed.

Lemma add_entry m sel x s : entry_ok x -> sel ≫= selector_index = Some s ->
  memory_add_operation sel (encode_mem x) m = Some (mkMemoryMachine (mm_namespace m) (mm_ops m ++ [to_mem_op x s]) (mm_witness_cols m)).
Proof.
  intros (Ha & Hs & _) Hsel. destruct sel as [sel|]; [|discriminate]. cbn in Hsel. unfold memory_add_operation, encode_mem. cbn [mbind option_bind].
  rewrite Hsel. cbn [mbind option_bind]. now rewrite !try_into_u32_from_u32 by assumption.
Qed.

(** The selectors of the operations, as the machine parses them. *)
Definition op_selector (id_sel : list (option string)) (op : SubmachineOp T) (s : Z) : Prop :=
  exists sel, id_sel !! Z.to_nat (identity_id op) = Some sel /\ sel ≫= selector_index = Some s.

Lemma apply_operations_log id_sel : forall ops ml sels m, map lookup_args ops = map encode_mem ml -> Forall entry_ok ml ->
  Forall2 (op_selector id_sel) ops sels ->
  apply_operations id_sel ops m = Some (mkMemoryMachine (mm_namespace m) (mm_ops m ++ zip_with to_mem_op ml sels) (mm_witness_cols m)).
Proof.
  intros ops. induction ops as [|op ops IH]; intros [|x ml] sels m Hl Hok Hsel; try discriminate.
  - apply Forall2_nil_inv_l in Hsel as ->. cbn. rewrite app_nil_r. now destruct m.
  - apply Forall2_cons_inv_l in Hsel as (s & sels' & (sel & Hid & Hsel) & Hsels & ->). injection Hl as Hl1 Hl2. apply Forall_cons in Hok as [Hx Hok].
    cbn [apply_operations]. rewrite Hid. cbn [mbind option_bind]. rewrite Hl1, (add_entry m sel x s Hx Hsel). cbn [mbind option_bind].
    rewrite (IH ml sels' _ Hl2 Hok Hsels). cbn. now rewrite <- app_assoc.
Qed.

Lemma replay_log : forall ml sels m m', mem_log m ml m' -> Forall entry_ok ml -> length sels = length ml -> replay m (zip_with to_mem_op ml sels).
Proof.
  induction ml as [|x ml IH]; intros [|s sels] m m' Hl Hok Hlen; try discriminate; [exact I..|]. apply Forall_cons in Hok as [(_ & _ & Hv) Hok].
  cbn in Hl. cbn [zip_with replay]. unfold op_writes, op_value. cbn [to_mem_op mo_write mo_value mo_addr]. rewrite from_int_small by (destruct (me_write x); cbn; lia).
  rewrite from_u32_spec by exact Hv. injection Hlen as Hlen. destruct (me_write x); cbn.
  - now apply (IH sels _ m').
  - destruct Hl as [Hv' Hl]. split; [exact Hv'|]. now apply (IH sels _ m').
Qed.

Lemma zip_ops_ok n : forall ml sels, Forall entry_ok ml -> Forall (fun s => 0 <= s < Z.of_nat n) sels -> Forall (op_ok n) (zip_with to_mem_op ml sels).
Proof.
  induction ml as [|x ml IH]; intros [|s sels] Hok Hs; cbn [zip_with]; try apply List.Forall_nil. apply Forall_cons in Hok as [(Ha & Hst & Hv) Hok]. apply Forall_cons in Hs as [Hs Hss].
  apply List.Forall_cons; [|now apply IH]. split; [exact Ha|]. split; [exact Hst|]. split; [|exact Hs]. cbn. rewrite from_int_small by (destruct (me_write x); cbn; lia). destruct (me_write x); auto.
Qed.

(** C33: From the executor to the memory machine. Operations whose arguments encode a log of a run, sent under
    identities whose links have a selector, are all accepted by [add_operation], and the columns finished
    from them satisfy the constraints of the memory machine, when the log starts from the empty memory, its
    steps increase strictly at each address, and the degree is strictly above the length of the log and
    small enough for the steps of the padding to stay below [2 ^ 32]. *)
Theorem memory_columns_of_log id_sel ops ml sels n m degree final :
  map lookup_args ops = map encode_mem ml -> Forall entry_ok ml -> mem_log ∅ ml final ->
  Forall2 (op_selector id_sel) ops sels -> Forall (fun s => 0 <= s < Z.of_nat n) sels ->
  StronglySorted (fun x y => me_addr x = me_addr y -> me_step x < me_step y) ml ->
  Forall (fun x => me_step x + degree + 1 < 2 ^ 32) ml -> Z.of_nat (length ml) < degree < 2 ^ 32 - 1 ->
  mm_ops m = [] -> length (mm_witness_cols m) = (Selectors + n)%nat -> (n < 256)%nat ->
  exists m' cols, apply_operations id_sel ops m = Some m' /\ memory_finish degree m' = Some cols /\
    forall i, (i < Z.to_nat degree)%nat ->
      memory_constraints n (cells cols i) (cells cols ((i + 1) mod Z.to_nat degree)%nat) (i =? Z.to_nat degree - 1)%nat.
Proof.
  intros Hl Hok Hlog Hsel Hsn Hchr Hsteps Hdeg Hm Hcols Hn. eexists. rewrite (apply_operations_log id_sel ops ml sels m Hl Hok Hsel), Hm. cbn [app].
  assert (Hlen : length sels = length ml).
  { apply Forall2_length in Hsel. rewrite <- Hsel, <- (length_map lookup_args), Hl. apply length_map. }
  set (m' := mkMemoryMachine _ _ _). assert (Hlz : length (mm_ops m') = length ml) by (cbn; rewrite length_zip_with; lia).
  destruct (finish_satisfies m' n degree) as (cols & Hf & _ & Hall).
  - now apply zip_ops_ok.
  - cbn. unfold chronological. clear - Hchr. revert sels. induction Hchr as [|x ml Hml IH Hx]; intros [|s sels]; cbn; try constructor; [apply IH|].
    rewrite List.Forall_forall in *. intros y Hy. apply list_elem_of_In, elem_of_lookup_zip_with in Hy as (i & x' & s' & -> & Hx' & _). cbn. apply Hx. apply list_elem_of_In. now apply list_elem_of_lookup_2 with i.
  - now apply (replay_log ml sels ∅ final).
  - exact Hcols.
  - exact Hn.
  - now rewrite Hlz.
  - cbn. rewrite List.Forall_forall in *. intros y Hy. apply list_elem_of_In, elem_of_lookup_zip_with in Hy as (i & x' & s' & -> & Hx' & _). cbn. apply Hsteps. apply list_elem_of_In. now apply list_elem_of_lookup_2 with i.
  - exists cols. auto.
Qed.

End Columns.

Module LogDemo.
Definition entries : list MemEntry :=
  [{| me_write := true; me_addr := 8; me_step := 7; me_value := 3 |}; {| me_write := false; me_addr := 4; me_step := 9; me_value := 0 |};
   {| me_write := false; me_addr := 8; me_step := 13; me_value := 3 |}].
Definition operations : list (SubmachineOp GoldilocksField) := map (fun x => mkOp 0 (encode_mem x) []) entries.
Definition selectors : list (option string) :=
  id_selectors [PermutationIdentity 0 (Demo.selected "main::instr_mload") (Demo.selected "main_memory::selectors[1]")].
Definition machine : MemoryMachine GoldilocksField := mkMemoryMachine "main_memory" [] (replicate 9 "main_memory::column"%string).

Lemma memory_columns_of_log_witness : exists m' cols, apply_operations selectors operations machine = Some m' /\ memory_finish 4 m' = Some cols /\
  forall i, (i < 4)%nat -> memory_constraints 2 (cells cols i) (cells cols ((i + 1) mod 4)%nat) (i =? 3)%nat.
Proof.
  assert (Hok : Forall entry_ok entries) by (unfold entries; repeat (apply List.Forall_cons; [unfold entry_ok, in_width; cbn; lia|]); apply List.Forall_nil).
  assert (Hsel : forall op, op ∈ operations -> op_selector selectors op 1).
  { intros op Hop. unfold operations, entries in Hop. cbn [map] in Hop. exists (Some "main_memory::selectors[1]"%string).
    split; [|vm_compute; reflexivity]. rewrite !elem_of_cons, elem_of_nil in Hop. destruct Hop as [->|[->|[->|[]]]]; vm_compute; reflexivity. }
  refine (memory_columns_of_log selectors operations entries [1; 1; 1] 2 machine 4 {[8 := 3]} eq_refl Hok _ _ _ _ _ _ eq_refl eq_refl ltac:(lia)).
  - vm_compute. auto.
  - apply Forall2_cons; split; [apply Hsel; set_solver|]. apply Forall2_cons; split; [apply Hsel; set_solver|]. apply Forall2_cons; split; [apply Hsel; set_solver|]. apply Forall2_nil_2.
  - repeat (apply List.Forall_cons; [lia|]). apply List.Forall_nil.
  - unfold entries. repeat (apply SSorted_cons; [|]); try apply SSorted_nil; repeat (apply List.Forall_cons; [cbn; lia|]); apply List.Forall_nil.
  - unfold entries. repeat (apply List.Forall_cons; [cbn; lia|]). apply List.Forall_nil.
  - cbn. lia.
Defined.
End LogDemo.
