(* ===== verification/RiscvSubmachines.v ===== *)
(** * The block submachines of the RISC-V executor, [riscv-executor/src/submachines.rs]

    A submachine collects operations, one block of rows each, in a trace that is a flat
    vector of rows, and is padded with copies of its first block at the end. The kinds of
    machines differ in their columns and in the rows of a block. *)

From Stdlib Require Import ZArith Lia Ascii.
From stdpp Require Import base list option gmap strings pretty.
From S2P Require Import Prelude Goldilocks Field PanicMonad RiscvElem RiscvNames RiscvTrace RiscvPoseidon RiscvExec RiscvLogs.

(** The part of a name after the last ["::"]. *)
Fixpoint after_last_colons (s : string) : option string :=
  match s with
  | EmptyString => None
  | String a s' =>
    match after_last_colons s' with
    | Some r => Some r
    | None => strip_prefix "::" s
    end
  end.

Definition only_column_name (name : string) : string := default name (after_last_colons name).

Record SubmachineTrace (T : Type) := mkTrace {
  tr_namespace : string;
  tr_cols : list string;
  tr_values : list T;
  tr_selectors : gmap string (list T);
  last_row_overrides : gmap nat T
}.
Arguments mkTrace {T}.
Arguments tr_namespace {T}.
Arguments tr_cols {T}.
Arguments tr_values {T}.
Arguments tr_selectors {T}.
Arguments last_row_overrides {T}.

Section SubmachineTrace.
Context {T : Type} `{LargeField T}.
Notation Tr := (SubmachineTrace T).

Definition set_values v (t : Tr) : Tr := mkTrace (tr_namespace t) (tr_cols t) v (tr_selectors t) (last_row_overrides t).
Definition set_selectors s (t : Tr) : Tr := mkTrace (tr_namespace t) (tr_cols t) (tr_values t) s (last_row_overrides t).
Definition set_overrides o (t : Tr) : Tr := mkTrace (tr_namespace t) (tr_cols t) (tr_values t) (tr_selectors t) o.

Definition trace_new (namespace : string) (cols selectors : list string) : Tr :=
  mkTrace namespace cols [] (list_to_map ((fun n => (n, [])) <$> selectors)) ∅.

(** [self.len()], in [u32]. *)
Definition len : M Tr Z := fun t =>
  let n := as_width 32 (Z.of_nat (length (tr_cols t))) in
  if n =? 0 then None else Some (as_width 32 (Z.of_nat (length (tr_values t))) / n, t).

(** The row [i] rows above the last one; an underflow panics. *)
Definition row_from_end (i : Z) : M Tr Z := n ← len; lift (checked_sub n (i + 1)).

(** [self.values[row * self.cols.len() + col] = value]. *)
Definition set_value (row : Z) (col : nat) (value : T) : M Tr unit :=
  cols ← gets tr_cols; vs ← gets tr_values;
  vs' ← lift (list_set (Z.to_nat row * length cols + col)%nat value vs);
  modify (set_values vs').

Definition set_current_block (size : Z) (col : nat) (value : T) : M Tr unit :=
  for_each (fun i => row ← row_from_end (Z.of_nat i); set_value row col value) (seq 0 (Z.to_nat size)).

Definition set_current_row (col : nat) (value : T) : M Tr unit :=
  row ← row_from_end 0; set_value row col value.

(** A selector in row [idx]. *)
Definition set_selector (sel : string) (idx : Z) (value : T) : M Tr unit :=
  sels ← gets tr_selectors;
  c ← lift (sels !! sel);
  c' ← lift (list_set (Z.to_nat idx) value c);
  modify (set_selectors (<[sel := c']> sels)).

Definition set_current_block_selector (size : Z) (sel : string) (value : T) : M Tr unit :=
  for_each (fun i => idx ← row_from_end (Z.of_nat i); set_selector sel idx value) (seq 0 (Z.to_nat size)).

Definition set_current_row_selector (sel : string) (value : T) : M Tr unit :=
  sels ← gets tr_selectors;
  c ← lift (sels !! sel);
  c' ← lift (match c with [] => None | _ => list_set (length c - 1) value c end);
  modify (set_selectors (<[sel := c']> sels)).

Definition set_final_row (col : nat) (value : T) : M Tr unit :=
  o ← gets last_row_overrides; modify (set_overrides (<[col := value]> o)).

Definition final_row_override : M Tr unit :=
  o ← gets last_row_overrides; for_each (fun cv => set_current_row (fst cv) (snd cv)) (map_to_list o).

Definition push_row : M Tr unit :=
  sels ← gets tr_selectors; modify (set_selectors ((fun v => v ++ [from_int 0]) <$> sels));;
  vs ← gets tr_values; cols ← gets tr_cols; modify (set_values (vs ++ replicate (length cols) (from_int 0))).

(** [start[from..to]], within the part of the values before [start_len]. *)
Definition slice (from to start_len : nat) (vs : list T) : option (list T) :=
  if ((from <=? to) && (to <=? start_len))%nat then Some (take (to - from) (drop from vs)) else None.

(** The loop of [push_dummy_block], which stops at the degree. *)
Fixpoint push_dummy_rows (machine_max_degree : Z) (range : list nat) : M Tr unit :=
  match range with
  | [] => mret tt
  | i :: range' =>
    n ← len;
    if n =? machine_max_degree then mret tt
    else
      push_row;;
      last_row ← row_from_end 0;
      cols ← gets tr_cols; vs ← gets tr_values;
      let start := (Z.to_nat last_row * length cols)%nat in
      src ← lift (slice (length cols * i) (length cols * (i + 1)) start vs);
      assertM (Nat.eqb (length vs - start) (length src));;
      modify (set_values (take start vs ++ src));;
      push_dummy_rows machine_max_degree range'
  end.

Definition push_dummy_block (machine_max_degree size : Z) : M Tr unit :=
  push_dummy_rows machine_max_degree (seq 0 (Z.to_nat size));;
  final_row_override.

Definition take_cols : M Tr (list (string * list T)) :=
  rows ← len; cols ← gets tr_cols; vs ← gets tr_values; sels ← gets tr_selectors;
  out ← lift (mapM (fun ic => v ← mapM (fun row => vs !! (row * length cols + fst ic)%nat) (seq 0 (Z.to_nat rows)); Some (snd ic, v))
                   (combine (seq 0 (length cols)) cols));
  modify (fun t => mkTrace (tr_namespace t) [] [] ∅ (last_row_overrides t));;
  mret (out ++ map_to_list sels).

End SubmachineTrace.

(** ** Machines *)

(** What a kind of machine defines. *)
Record SubmachineKind (T : Type) := mkKind {
  SELECTORS : string;
  BLOCK_SIZE : Z;
  kind_cols : list string;
  add_operation : option string -> list T -> list T -> M (SubmachineTrace T) unit;
  dummy_block_fix : Z -> M (SubmachineTrace T) unit
}.
Arguments mkKind {T}.
Arguments SELECTORS {T}.
Arguments BLOCK_SIZE {T}.
Arguments kind_cols {T}.
Arguments add_operation {T}.
Arguments dummy_block_fix {T}.

Section SubmachineImpl.
Context {T : Type} `{LargeField T}.
Variable kind : SubmachineKind T.

Record SubmachineImpl := mkImpl { impl_trace : SubmachineTrace T; finished : bool }.

Definition impl_new (namespace : string) (witness_cols : list string) : option SubmachineImpl :=
  cs ← mapM (strip_prefix (namespace +:+ "::")) (List.filter (String.prefix namespace) witness_cols);
  let sels := List.filter (String.prefix (SELECTORS kind +:+ "[")) cs in
  Some (mkImpl (trace_new namespace (kind_cols kind) sels) false).

Definition on_trace {A} (m : M (SubmachineTrace T) A) : M SubmachineImpl A :=
  on_part impl_trace (fun t i => mkImpl t (finished i)) m.

Definition impl_len : M SubmachineImpl Z := on_trace len.

Definition impl_add_operation (selector : option string) (args ext : list T) : M SubmachineImpl unit :=
  on_trace (add_operation kind selector args ext).

(** The loop of [finish]; every round adds at least one row. *)
Fixpoint pad_loop (fuel : nat) (degree : Z) : M (SubmachineTrace T) unit :=
  prev_len ← len;
  if prev_len <? degree then
    match fuel with
    | O => panic
    | S fuel' =>
      push_dummy_block degree (BLOCK_SIZE kind);;
      n ← len;
      dummy_size ← lift (checked_sub n prev_len);
      dummy_block_fix kind dummy_size;;
      pad_loop fuel' degree
    end
  else mret tt.

Definition impl_finish (degree : Z) : M SubmachineImpl (list (string * list T)) :=
  n ← impl_len; assertM (n <=? degree);;
  f ← gets finished; assertM (negb f);;
  modify (fun i => mkImpl (impl_trace i) true);;
  on_trace (final_row_override;; pad_loop (Z.to_nat degree) degree);;
  t ← gets impl_trace;
  cols ← on_trace take_cols;
  mret ((fun kv => (tr_namespace t +:+ "::" +:+ fst kv, snd kv)) <$> cols).

Definition apply_operation (id_sel : list (option string)) (op : SubmachineOp T) : M SubmachineImpl unit :=
  sel ← lift (id_sel !! Z.to_nat (identity_id op)); impl_add_operation sel (lookup_args op) (extra op).

(** What [TraceBuilder::finish] does for one submachine: apply its operations, extend it to its
    degree; [publics] tells the publics machine, whose cells are filled even without operations. *)
Definition submachine_columns (publics : bool) (id_sel : list (option string)) (min_degree : Z) (ops : list (SubmachineOp T)) :
    M SubmachineImpl (list (string * list T)) :=
  for_each (apply_operation id_sel) ops;;
  n ← impl_len;
  if 0 <? n then d ← lift (machine_degree n min_degree); impl_finish d
  else if publics then
    for_each (fun i => impl_add_operation None [from_int (Z.of_nat i); from_int 0; from_int 0; from_int 0] []) (seq 0 8);;
    impl_finish 8
  else impl_finish 0.

End SubmachineImpl.

(** ** The columns of the machines *)

Module BinaryCols.
Definition A_byte := 0%nat.
Definition B_byte := 1%nat.
Definition C_byte := 2%nat.
Definition A := 3%nat.
Definition B := 4%nat.
Definition C := 5%nat.
Definition operation_id := 6%nat.
Definition operation_id_next := 7%nat.
Definition all : list string := ["A_byte"; "B_byte"; "C_byte"; "A"; "B"; "C"; "operation_id"; "operation_id_next"]%string.
End BinaryCols.

Module ShiftCols.
Definition A_byte := 0%nat.
Definition B_next := 1%nat.
Definition C_part := 2%nat.
Definition A := 3%nat.
Definition B := 4%nat.
Definition C := 5%nat.
Definition operation_id := 6%nat.
Definition operation_id_next := 7%nat.
Definition all : list string := ["A_byte"; "B_next"; "C_part"; "A"; "B"; "C"; "operation_id"; "operation_id_next"]%string.
End ShiftCols.

Module SplitGlCols.
Definition output_low := 0%nat.
Definition output_high := 1%nat.
Definition in_acc := 2%nat.
Definition bytes := 3%nat.
Definition lt := 4%nat.
Definition gt := 5%nat.
Definition was_lt := 6%nat.
Definition all : list string := ["output_low"; "output_high"; "in_acc"; "bytes"; "lt"; "gt"; "was_lt"]%string.
End SplitGlCols.

Module PublicsCols.
Definition value := 0%nat.
Definition all : list string := ["value"]%string.
End PublicsCols.

(** A column of an array: [name[i]]. *)
Definition array_col (name : string) (i : nat) : string := (name +:+ "[" +:+ pretty i +:+ "]")%string.

(** The indices of the first elements of the arrays of columns. *)
Module PoseidonGlCols.
Definition time_step := 0%nat.
Definition do_mload := 1%nat.
Definition word_low := 2%nat.
Definition word_high := 3%nat.
Definition input_addr := 4%nat.
Definition output_addr := 5%nat.
Definition input_0 := 6%nat.
Definition output_0 := 18%nat.
Definition state_0 := 22%nat.
Definition x3_0 := 34%nat.
Definition x7_0 := 46%nat.
Definition all : list string :=
  ["time_step"; "do_mload"; "word_low"; "word_high"; "input_addr"; "output_addr"]%string ++
  (array_col "input" <$> seq 0 12) ++ (array_col "output" <$> seq 0 4) ++ (array_col "state" <$> seq 0 12) ++
  (array_col "x3" <$> seq 0 12) ++ (array_col "x7" <$> seq 0 12).
End PoseidonGlCols.

Section Kinds.
Context {T : Type} `{LargeField T}.
Notation Tr := (SubmachineTrace T).

(** [set_current_row] for several columns. *)
Definition set_row_values (cvs : list (nat * T)) : M Tr unit := for_each (fun cv => set_current_row (fst cv) (snd cv)) cvs.

(** The values that belong to the last row of the previous block; before the first block they
    are kept for the last row of the table. *)
Definition set_previous_row (cvs : list (nat * T)) : M Tr unit :=
  n ← len;
  if 0 <? n then set_row_values cvs else for_each (fun cv => set_final_row (fst cv) (snd cv)) cvs.

(** The column name of the selector, and the arguments of the lookup. *)
Definition selector_column (selector : option string) : M Tr string := s ← lift selector; mret (only_column_name s).

Definition four_args (args : list T) : M Tr (T * T * T * T) :=
  lift (match args with [a; b; c; d] => Some (a, b, c, d) | _ => None end).

Definition u8_fe (b : Z) : T := from_u32 b.

Definition binary_add_operation (selector : option string) (lookup_args ext : list T) : M Tr unit :=
  assertM (match ext with [] => true | _ => false end);;
  sel ← selector_column selector;
  '(op_id, a, b, c) ← four_args lookup_args;
  av ← lift (try_into_u32 a); bv ← lift (try_into_u32 b); cv ← lift (try_into_u32 c);
  let '(a1, a2, a3, a4, _) := decompose_lower32 av in
  let '(b1, b2, b3, b4, _) := decompose_lower32 bv in
  let '(c1, c2, c3, c4, _) := decompose_lower32 cv in
  set_previous_row [(BinaryCols.A_byte, u8_fe a1); (BinaryCols.B_byte, u8_fe b1); (BinaryCols.C_byte, u8_fe c1);
                    (BinaryCols.operation_id_next, op_id)];;
  push_row;;
  set_row_values [(BinaryCols.operation_id, op_id); (BinaryCols.operation_id_next, op_id);
    (BinaryCols.A_byte, u8_fe a2); (BinaryCols.B_byte, u8_fe b2); (BinaryCols.C_byte, u8_fe c2);
    (BinaryCols.A, from_u32 (Z.land av 0xff)); (BinaryCols.B, from_u32 (Z.land bv 0xff)); (BinaryCols.C, from_u32 (Z.land cv 0xff))];;
  push_row;;
  set_row_values [(BinaryCols.operation_id, op_id); (BinaryCols.operation_id_next, op_id);
    (BinaryCols.A_byte, u8_fe a3); (BinaryCols.B_byte, u8_fe b3); (BinaryCols.C_byte, u8_fe c3);
    (BinaryCols.A, from_u32 (Z.land av 0xffff)); (BinaryCols.B, from_u32 (Z.land bv 0xffff)); (BinaryCols.C, from_u32 (Z.land cv 0xffff))];;
  push_row;;
  set_row_values [(BinaryCols.operation_id, op_id); (BinaryCols.operation_id_next, op_id);
    (BinaryCols.A_byte, u8_fe a4); (BinaryCols.B_byte, u8_fe b4); (BinaryCols.C_byte, u8_fe c4);
    (BinaryCols.A, from_u32 (Z.land av 0xffffff)); (BinaryCols.B, from_u32 (Z.land bv 0xffffff)); (BinaryCols.C, from_u32 (Z.land cv 0xffffff))];;
  push_row;;
  set_row_values [(BinaryCols.operation_id, op_id); (BinaryCols.A, a); (BinaryCols.B, b); (BinaryCols.C, c)];;
  set_current_row_selector sel (from_int 1).

Definition BinaryMachine : SubmachineKind T := mkKind "sel" 4 BinaryCols.all binary_add_operation (fun _ => mret tt).

(** ** The shift machine *)

(** [(x << shl) >> shr] of [u32]; shifting by 32 or more panics. *)
Definition shifted (x shl shr : Z) : option Z := y ← checked_shl 32 x shl; checked_shr 32 y shr.

(** The amounts of the left and the right shift. *)
Definition shift_amounts (op_id b : T) : option (Z * Z) :=
  if f_is_zero op_id then v ← try_into_u32 b; Some (v, 0)
  else if f_is_one op_id then v ← try_into_u32 b; Some (0, v)
  else None.

Definition shift_row (op_id b : T) (byte c_part a_row c : Z) : M Tr unit :=
  push_row;;
  set_row_values [(ShiftCols.operation_id, op_id); (ShiftCols.operation_id_next, op_id); (ShiftCols.A_byte, u8_fe byte);
    (ShiftCols.C_part, from_u32 c_part); (ShiftCols.A, from_u32 a_row); (ShiftCols.B, b); (ShiftCols.B_next, b); (ShiftCols.C, from_u32 c)].

Definition shift_add_operation (selector : option string) (lookup_args ext : list T) : M Tr unit :=
  assertM (match ext with [] => true | _ => false end);;
  sel ← selector_column selector;
  '(op_id, a, b, c) ← four_args lookup_args;
  '(shl, shr) ← lift (shift_amounts op_id b);
  av ← lift (try_into_u32 a);
  let '(b1, b2, b3, b4, _) := decompose_lower32 av in
  p1 ← lift (shifted b1 shl shr);
  set_previous_row [(ShiftCols.A_byte, u8_fe b1); (ShiftCols.C_part, from_u32 p1); (ShiftCols.operation_id_next, op_id); (ShiftCols.B_next, b)];;
  p2 ← lift (f ← checked_shl 32 b2 8; shifted f shl shr);
  c2 ← lift (shifted (Z.land av 0xff) shl shr);
  shift_row op_id b b2 p2 (Z.land av 0xff) c2;;
  p3 ← lift (f ← checked_shl 32 b3 16; shifted f shl shr);
  c3 ← lift (shifted (Z.land av 0xffff) shl shr);
  shift_row op_id b b3 p3 (Z.land av 0xffff) c3;;
  p4 ← lift (f ← checked_shl 32 b4 24; shifted f shl shr);
  c4 ← lift (shifted (Z.land av 0xffffff) shl shr);
  shift_row op_id b b4 p4 (Z.land av 0xffffff) c4;;
  push_row;;
  set_row_values [(ShiftCols.operation_id, op_id); (ShiftCols.A, a); (ShiftCols.B, b); (ShiftCols.C, c)];;
  set_current_row_selector sel (from_int 1).

Definition ShiftMachine : SubmachineKind T := mkKind "sel" 4 ShiftCols.all shift_add_operation (fun _ => mret tt).

(** ** The split machine *)

Definition BYTES_MAX : list Z := [0; 0; 0; 0; 0xff; 0xff; 0xff; 0xff].

Definition hi_and_lo (hi lo : Z) : T := from_u64 (Z.lor (Z.shiftl hi 32) lo).

(** [was_lt] from the most significant byte down: [was + lt - was * lt]; an underflow panics. *)
Fixpoint was_lt_of (lt : list Z) : option (list Z) :=
  match lt with
  | [] => Some []
  | [l] => Some [l]
  | l :: lt' =>
    w ← was_lt_of lt';
    n ← head w; s ← checked_add 32 n l; p ← checked_mul 32 n l; v ← checked_sub s p; Some (v :: w)
  end.

(** The byte that a row holds for the next one, with its comparison. *)
Definition byte_values (b lt gt was_lt : list Z) (i : nat) : option (list (nat * T)) :=
  bi ← b !! i; l ← lt !! i; g ← gt !! i; w ← was_lt !! i;
  Some [(SplitGlCols.bytes, from_u32 bi); (SplitGlCols.lt, from_u32 l); (SplitGlCols.gt, from_u32 g); (SplitGlCols.was_lt, from_u32 w)].

Definition split_row (low high in_acc : T) (rest : list (nat * T)) : M Tr unit :=
  push_row;;
  set_row_values ([(SplitGlCols.output_low, low); (SplitGlCols.output_high, high); (SplitGlCols.in_acc, in_acc)] ++ rest).

Definition split_add_operation (selector : option string) (lookup_args ext : list T) : M Tr unit :=
  assertM (match ext with [] => true | _ => false end);;
  sel ← selector_column selector;
  '(_, output_lo, output_hi, _) ← four_args lookup_args;
  lo ← lift (try_into_u32 output_lo); hi ← lift (try_into_u32 output_hi);
  let '(b0, b1, b2, b3, _) := decompose_lower32 lo in
  let '(b4, b5, b6, b7, _) := decompose_lower32 hi in
  let b := [b0; b1; b2; b3; b4; b5; b6; b7] in
  let lt := zip_with (fun b m => b2z (b <? m)) b BYTES_MAX in
  let gt := zip_with (fun b m => b2z (m <? b)) b BYTES_MAX in
  was_lt ← lift (was_lt_of lt);
  v0 ← lift (byte_values b lt gt was_lt 0); set_previous_row v0;;
  v1 ← lift (byte_values b lt gt was_lt 1); split_row (from_u64 (Z.land lo 0xff)) (from_int 0) (from_u64 (Z.land lo 0xff)) v1;;
  v2 ← lift (byte_values b lt gt was_lt 2); split_row (from_u64 (Z.land lo 0xffff)) (from_int 0) (from_u64 (Z.land lo 0xffff)) v2;;
  v3 ← lift (byte_values b lt gt was_lt 3); split_row (from_u64 (Z.land lo 0xffffff)) (from_int 0) (from_u64 (Z.land lo 0xffffff)) v3;;
  v4 ← lift (byte_values b lt gt was_lt 4); split_row (from_u64 lo) (from_int 0) (from_u64 lo) v4;;
  v5 ← lift (byte_values b lt gt was_lt 5); split_row (from_u64 lo) (from_u64 (Z.land hi 0xff)) (hi_and_lo (Z.land hi 0xff) lo) v5;;
  v6 ← lift (byte_values b lt gt was_lt 6); split_row (from_u64 lo) (from_u64 (Z.land hi 0xffff)) (hi_and_lo (Z.land hi 0xffff) lo) v6;;
  v7 ← lift (byte_values b lt gt was_lt 7); split_row (from_u64 lo) (from_u64 (Z.land hi 0xffffff)) (hi_and_lo (Z.land hi 0xffffff) lo) v7;;
  push_row;;
  set_current_row_selector sel (from_int 1);;
  set_row_values [(SplitGlCols.output_low, from_u64 lo); (SplitGlCols.output_high, from_u64 hi); (SplitGlCols.in_acc, hi_and_lo hi lo)].

Definition SplitGlMachine : SubmachineKind T := mkKind "sel" 8 SplitGlCols.all split_add_operation (fun _ => mret tt).

(** ** The publics machine *)

(** [while addr >= trace.len() { trace.push_row() }], at most eight rows. *)
Fixpoint push_rows_to (fuel : nat) (addr : Z) : M Tr unit :=
  n ← len;
  if n <=? addr then match fuel with O => panic | S fuel' => push_row;; push_rows_to fuel' addr end else mret tt.

Definition publics_add_operation (selector : option string) (lookup_args ext : list T) : M Tr unit :=
  assertM (match selector with None => true | Some _ => false end);;
  assertM (match ext with [] => true | _ => false end);;
  '(addr, value, _, _) ← four_args lookup_args;
  a ← lift (try_into_u32 addr);
  assertM (a <? 8);;
  push_rows_to 8 a;;
  set_value a 0 value.

Definition PublicsMachine : SubmachineKind T := mkKind "" 1 PublicsCols.all publics_add_operation (fun _ => mret tt).

(** ** The Poseidon machine *)

(** The words of a memory access in row [row], as [do_mload], [word_low] and [word_high]. *)
Definition memory_values (do_mload : Z) (v : T) : option (list (nat * T)) :=
  v ← try_into_u64 v;
  Some [(PoseidonGlCols.do_mload, from_int do_mload); (PoseidonGlCols.word_low, from_u32 (Z.land v 0xffffffff));
        (PoseidonGlCols.word_high, from_u32 (as_width 32 (Z.shiftr v 32)))].

Definition access_values (input output : list T) (row : nat) : option (list (nat * T)) :=
  if (row <? 12)%nat then v ← input !! row; memory_values 1 v
  else if (row <? 12 + 4)%nat then v ← output !! (row - 12)%nat; memory_values 0 v
  else Some [(PoseidonGlCols.do_mload, from_int 0); (PoseidonGlCols.word_low, from_int 0); (PoseidonGlCols.word_high, from_int 0)].

(** The S-box of an element, written to its columns. *)
Definition write_s_box (i : nat) (a : T) : M Tr T :=
  let x3 := f_pow a 3 in
  let x7 := f_mul (f_pow x3 2) a in
  set_row_values [((PoseidonGlCols.x3_0 + i)%nat, x3); ((PoseidonGlCols.x7_0 + i)%nat, x7)];;
  mret x7.

Definition poseidon_row (input output : list T) (row : nat) (state : list T) : M Tr (list T) :=
  push_row;;
  for_each (fun i => s ← lift (state !! i); set_current_row (PoseidonGlCols.state_0 + i) s) (seq 0 12);;
  vs ← lift (access_values input output row); set_row_values vs;;
  boxed ← map_collect (fun i =>
    s ← lift (state !! i); c ← lift (round_constant i row);
    let a := f_add s c in
    x7 ← write_s_box i a;
    mret (if (i =? 0)%nat || is_full row then x7 else a)) (seq 0 12);
  lift (mds boxed).

Fixpoint poseidon_block_rows (input output : list T) (rows : list nat) (state : list T) : M Tr (list T) :=
  match rows with
  | [] => mret state
  | row :: rows' => st ← poseidon_row input output row state; poseidon_block_rows input output rows' st
  end.

Definition set_block_array (size : Z) (first count : nat) (vs : list T) : M Tr unit :=
  for_each (fun i => v ← lift (vs !! i); set_current_block size (first + i) v) (seq 0 count).

Definition poseidon_add_operation (selector : option string) (lookup_args ext : list T) : M Tr unit :=
  sel ← selector_column selector;
  '(input_addr, output_addr, time_step, _) ← four_args lookup_args;
  assertM (12 + 4 <=? length ext)%nat;;
  let input := take 12 ext in
  let output := take 4 (drop 12 ext) in
  state ← poseidon_block_rows input output (seq 0 30) input;
  push_row;;
  for_each (fun i => s ← lift (state !! i); write_s_box i s;; set_current_row (PoseidonGlCols.state_0 + i) s) (seq 0 12);;
  set_current_block 31 PoseidonGlCols.time_step time_step;;
  set_current_block 31 PoseidonGlCols.input_addr input_addr;;
  set_current_block 31 PoseidonGlCols.output_addr output_addr;;
  set_current_block_selector 31 sel (from_int 1);;
  set_block_array 31 PoseidonGlCols.input_0 12 input;;
  set_block_array 31 PoseidonGlCols.output_0 4 state.

Definition PoseidonGlMachine : SubmachineKind T :=
  mkKind "sel" 31 PoseidonGlCols.all poseidon_add_operation (fun rows => set_current_block rows PoseidonGlCols.do_mload (from_int 0)).

End Kinds.

(** ** The publics machine *)

Section PublicsPadding.

Definition publics_impl : SubmachineImpl (T:=GoldilocksField) := mkImpl (trace_new "main_publics" PublicsCols.all []) false.

(** When only the public 0 is committed, the padding gives its value to the other seven, while
    a program that commits none gets zeros: a dummy block is a copy of the first block, and a
    block of this machine is one cell. *)
Lemma publics_padding_repeats (v : GoldilocksField) :
  fst <$> submachine_columns PublicsMachine true [None] 8 [mkOp 0 [from_int 0; v; from_int 0; from_int 0] []] publics_impl = Some [("main_publics::value"%string, replicate 8 v)] /\
  fst <$> submachine_columns PublicsMachine true [None] 8 [] publics_impl = Some [("main_publics::value"%string, replicate 8 (from_int 0))].
Proof. split; vm_compute; reflexivity. Qed.

End PublicsPadding.
