(* ===== verification/RiscvBlocks.v ===== *)
(** * Traces of blocks: the theory of [riscv-executor/src/submachines.rs]

    The flat vector of a submachine is a list of rows. Adding operations one after the
    other and finishing gives a table of blocks in which the last row of each block also
    carries values of the next one, cyclically, and the padding repeats the first block. *)

From Stdlib Require Import ZArith Lia Ascii.
From stdpp Require Import base list option gmap strings.
From S2P Require Import Prelude Goldilocks Field PanicMonad RiscvElem RiscvNames RiscvTrace RiscvExec RiscvMemory RiscvLogs RiscvSubmachines.

(** ** Cells of a row *)

Section Cells.
Context {A : Type}.

Definition set_cells (cvs : list (nat * A)) (r : list A) : list A := foldl (fun r cv => <[fst cv := snd cv]> r) r cvs.

Lemma set_cells_length cvs : forall r, length (set_cells cvs r) = length r.
Proof. unfold set_cells. induction cvs as [|cv cvs IH]; intros r; cbn; [reflexivity|]. rewrite IH. apply length_insert. Qed.

Lemma set_cells_lookup cvs c : NoDup (fst <$> cvs) -> forall r,
  set_cells cvs r !! c = match list_to_map (M:=gmap nat A) cvs !! c with Some v => if (c <? length r)%nat then Some v else None | None => r !! c end.
Proof.
  induction cvs as [|[k v] cvs IH]; intros Hnd r; [reflexivity|]. apply NoDup_cons in Hnd as [Hk Hnd].
  change (set_cells ((k, v) :: cvs) r) with (set_cells cvs (<[k := v]> r)). rewrite IH by exact Hnd. rewrite length_insert, list_to_map_cons.
  destruct (decide (k = c)) as [->|Hne].
  - rewrite lookup_insert_eq. rewrite (not_elem_of_list_to_map_1 cvs c) by exact Hk.
    destruct (Nat.ltb_spec c (length r)); [now apply list_lookup_insert_eq|]. apply lookup_ge_None_2. rewrite length_insert. lia.
  - rewrite (lookup_insert_ne (list_to_map cvs)) by exact Hne. now rewrite list_lookup_insert_ne by exact Hne.
Qed.

(** The order of updates of distinct cells does not matter. *)
Lemma set_cells_perm cvs cvs' r : NoDup (fst <$> cvs) -> cvs ≡ₚ cvs' -> set_cells cvs r = set_cells cvs' r.
Proof.
  intros Hnd Hp. apply list_eq. intros c. rewrite !set_cells_lookup by (try rewrite <- Hp; exact Hnd).
  now rewrite (list_to_map_proper (M:=gmap nat) cvs cvs' Hnd Hp).
Qed.

(** Updates of the same cells replace each other. *)
Lemma set_cells_absorb cvs cvs' r : NoDup (fst <$> cvs) -> fst <$> cvs = fst <$> cvs' -> set_cells cvs (set_cells cvs' r) = set_cells cvs r.
Proof.
  intros Hnd Hk. apply list_eq. intros c. rewrite !set_cells_lookup by congruence. rewrite set_cells_length.
  destruct (list_to_map (M:=gmap nat A) cvs !! c) eqn:Hc; [reflexivity|]. rewrite (not_elem_of_list_to_map_1 (M:=gmap nat) cvs' c); [reflexivity|].
  rewrite <- Hk. now apply (not_elem_of_list_to_map (M:=gmap nat)).
Qed.

(** Updates of the last row. *)
Definition patch_last (cvs : list (nat * A)) (rows : list (list A)) : list (list A) := alter (set_cells cvs) (pred (length rows)) rows.

Lemma patch_last_snoc cvs rows r : patch_last cvs (rows ++ [r]) = rows ++ [set_cells cvs r].
Proof.
  unfold patch_last. rewrite length_app. cbn [length]. rewrite Nat.add_1_r. cbn [pred]. rewrite <- (Nat.add_0_r (length rows)) at 1.
  now rewrite alter_app_r.
Qed.

Lemma patch_last_app cvs rows rows' : rows' <> [] -> patch_last cvs (rows ++ rows') = rows ++ patch_last cvs rows'.
Proof. destruct rows' as [|r rows' _] using rev_ind; [easy|]. intros _. now rewrite app_assoc, !patch_last_snoc, <- app_assoc. Qed.

Lemma patch_last_length cvs rows : length (patch_last cvs rows) = length rows.
Proof. apply length_alter. Qed.

Lemma patch_last_lookup cvs rows i :
  patch_last cvs rows !! i = (if (S i =? length rows)%nat then set_cells cvs else id) <$> rows !! i.
Proof.
  unfold patch_last. destruct (Nat.eqb_spec (S i) (length rows)) as [He|He].
  - rewrite <- He. cbn [pred]. apply list_lookup_alter_eq.
  - destruct (decide (i < length rows)%nat) as [Hi|Hi].
    + rewrite list_lookup_alter_ne by lia. now rewrite option_fmap_id.
    + rewrite !lookup_ge_None_2 by (rewrite ?length_alter; lia). reflexivity.
Qed.

Lemma patch_last_absorb cvs cvs' rows : NoDup (fst <$> cvs) -> fst <$> cvs = fst <$> cvs' ->
  patch_last cvs (patch_last cvs' rows) = patch_last cvs rows.
Proof.
  intros Hnd Hk. destruct rows as [|r rows _] using rev_ind; [reflexivity|]. now rewrite !patch_last_snoc, set_cells_absorb.
Qed.

Lemma patch_last_nil rows : patch_last [] rows = rows.
Proof. destruct rows as [|r rows _] using rev_ind; [reflexivity|]. now rewrite patch_last_snoc. Qed.

Definition wide (n : nat) (rows : list (list A)) : Prop := Forall (fun r => length r = n) rows.

Lemma wide_patch n cvs rows : wide n rows -> wide n (patch_last cvs rows).
Proof.
  intros Hw. destruct rows as [|r rows _] using rev_ind; [exact Hw|]. rewrite patch_last_snoc. apply Forall_app in Hw as [H1 H2].
  apply Forall_app. split; [exact H1|]. apply Forall_singleton. rewrite set_cells_length. apply Forall_cons in H2. apply H2.
Qed.

Lemma concat_length n rows : wide n rows -> length (concat rows) = (n * length rows)%nat.
Proof. induction 1 as [|r rows Hr _ IH]; cbn; [lia|]. rewrite length_app. lia. Qed.

(** Cell [(i, c)] is at [i * n + c]. *)
Lemma concat_insert n rows i r c v : wide n rows -> rows !! i = Some r -> (c < n)%nat ->
  <[(i * n + c)%nat := v]> (concat rows) = concat (<[i := <[c := v]> r]> rows).
Proof.
  intros Hw. revert i. induction Hw as [|r0 rows Hr Hw IH]; intros i Hi Hc; [discriminate|]. destruct i as [|i]; cbn.
  - injection Hi as ->. rewrite insert_app_l by lia. reflexivity.
  - rewrite insert_app_r_alt by lia. f_equal. etransitivity; [|exact (IH i Hi Hc)]. f_equal. lia.
Qed.

Lemma concat_lookup n rows i c : wide n rows -> (c < n)%nat -> concat rows !! (i * n + c)%nat = r ← rows !! i; r !! c.
Proof.
  intros Hw Hc. revert i. induction Hw as [|r0 rows Hr Hw IH]; intros i; [now rewrite lookup_nil|]. destruct i as [|i]; cbn.
  - now rewrite lookup_app_l by lia.
  - rewrite lookup_app_r by lia. rewrite <- IH. f_equal. lia.
Qed.

Lemma concat_slice n rows i r : wide n rows -> rows !! i = Some r -> take n (drop (n * i) (concat rows)) = r.
Proof.
  intros Hw. revert i. induction Hw as [|r0 rows Hr Hw IH]; intros i Hi; [discriminate|]. destruct i as [|i]; cbn.
  - injection Hi as ->. rewrite Nat.mul_0_r, drop_0, take_app_le, take_ge by lia. reflexivity.
  - rewrite <- (IH i Hi). rewrite drop_app_ge by lia. do 2 f_equal. lia.
Qed.

Lemma take_rows n rows k : wide n rows -> (k <= length rows)%nat -> take (n * k) (concat rows) = concat (take k rows).
Proof.
  intros Hw. revert k. induction Hw as [|r0 rows Hr Hw IH]; intros k Hk; [cbn; now rewrite !take_nil|]. destruct k as [|k]; cbn.
  - now rewrite Nat.mul_0_r.
  - cbn in Hk. rewrite take_app_ge by lia. f_equal. rewrite <- IH by lia. f_equal. lia.
Qed.

End Cells.

(** ** The operations of a trace, on rows *)

Section Rows.
Context {T : Type} `{LL : LargeFieldLaws T}.
Variables (ns : string) (cols : list string) (names : gset string).
Notation n := (length cols).
Hypothesis cols_size : (0 < n < 256)%nat.

Definition sel_map (F : string -> list T) : gmap string (list T) := map_imap (fun s _ => Some (F s)) (gset_to_gmap tt names).

Lemma sel_map_lookup F s : sel_map F !! s = if decide (s ∈ names) then Some (F s) else None.
Proof.
  unfold sel_map. rewrite map_lookup_imap, lookup_gset_to_gmap. case_decide as Hs.
  - now rewrite option_guard_True.
  - now rewrite option_guard_False.
Qed.

Lemma sel_map_ext F G : (forall s, F s = G s) -> sel_map F = sel_map G.
Proof. intros He. apply map_eq. intros s. now rewrite !sel_map_lookup, He. Qed.

Lemma sel_map_fmap (f : list T -> list T) F : f <$> sel_map F = sel_map (fun s => f (F s)).
Proof. apply map_eq. intros s. rewrite lookup_fmap, !sel_map_lookup. now case_decide. Qed.

Lemma sel_map_insert F s c : s ∈ names -> <[s := c]> (sel_map F) = sel_map (fun s' => if decide (s' = s) then c else F s').
Proof.
  intros Hs. apply map_eq. intros s'. rewrite sel_map_lookup. destruct (decide (s' = s)) as [->|Hne].
  - rewrite lookup_insert_eq. now case_decide.
  - rewrite lookup_insert_ne by congruence. apply sel_map_lookup.
Qed.

(** A trace given by its rows and selector columns. *)
Definition st (rows : list (list T)) (F : string -> list T) (o : gmap nat T) : SubmachineTrace T :=
  mkTrace ns cols (concat rows) (sel_map F) o.

(** The rows are rows, and their cells can be counted in 32 bits. *)
Definition fits (rows : list (list T)) : Prop := wide n rows /\ Z.of_nat (n * length rows) < 2 ^ 32.

Lemma fits_app rows rows' : fits (rows ++ rows') -> fits rows.
Proof. clear cols_size. intros [Hw Hl]. apply Forall_app in Hw as [Hw _]. split; [exact Hw|]. rewrite length_app in Hl. lia. Qed.

Lemma fits_same rows rows' : wide n rows' -> length rows' = length rows -> fits rows -> fits rows'.
Proof. intros Hw He [_ Hl]. split; [exact Hw|]. now rewrite He. Qed.

Lemma fits_patch rows cvs : fits rows -> fits (patch_last cvs rows).
Proof. intros Hf. apply (fits_same rows); [apply wide_patch, Hf|apply patch_last_length|exact Hf]. Qed.

Lemma len_st rows F o : fits rows -> len (st rows F o) = Some (Z.of_nat (length rows), st rows F o).
Proof.
  intros [Hw Hl]. unfold len. cbn [tr_cols tr_values st]. rewrite (concat_length n rows Hw).
  unfold as_width. rewrite (Z.mod_small (Z.of_nat n)) by lia. rewrite (Z.mod_small _ (2 ^ 32)) by lia.
  destruct (Z.eqb_spec (Z.of_nat n) 0) as [|_]; [lia|]. do 2 f_equal. rewrite Nat2Z.inj_mul, Z.mul_comm. apply Z.div_mul. lia.
Qed.

Lemma row_from_end_st rows F o i : fits rows -> (i < length rows)%nat ->
  row_from_end (Z.of_nat i) (st rows F o) = Some (Z.of_nat (length rows - i - 1), st rows F o).
Proof.
  intros Hf Hi. unfold row_from_end. eapply bind_run; [apply len_st, Hf|]. unfold lift, checked_sub.
  replace (Z.of_nat i + 1 <=? Z.of_nat (length rows)) with true by (symmetry; apply Z.leb_le; lia). do 2 f_equal. lia.
Qed.

Lemma list_set_Some {A} i (x y : A) l : l !! i = Some y -> list_set i x l = Some (<[i := x]> l).
Proof. intros Hi. unfold list_set. apply lookup_lt_Some in Hi. now destruct (Nat.ltb_spec i (length l)); [|lia]. Qed.

Lemma set_value_st rows F o (i : nat) c v r : wide n rows -> rows !! i = Some r -> (c < n)%nat ->
  set_value (Z.of_nat i) c v (st rows F o) = Some (tt, st (<[i := <[c := v]> r]> rows) F o).
Proof.
  intros Hw Hi Hc. unfold set_value. do 2 (eapply bind_run; [reflexivity|]). cbn [tr_cols tr_values st]. rewrite Nat2Z.id.
  assert (Hr : length r = n) by (eapply Forall_lookup_1 in Hi; [|exact Hw]; exact Hi).
  destruct (lookup_lt_is_Some_2 r c ltac:(lia)) as [x Hx].
  eapply lift_run; [eapply (list_set_Some _ v x); rewrite (concat_lookup n) by assumption; now rewrite Hi|].
  unfold modify. do 2 f_equal. unfold set_values, st. cbn. now rewrite (concat_insert n rows i r c v).
Qed.

Lemma set_current_row_st rows r F o c v : fits (rows ++ [r]) -> (c < n)%nat ->
  set_current_row c v (st (rows ++ [r]) F o) = Some (tt, st (rows ++ [<[c := v]> r]) F o).
Proof.
  intros Hf Hc. unfold set_current_row. eapply bind_run; [apply (row_from_end_st _ F o 0 Hf); rewrite length_app; cbn; lia|].
  rewrite length_app. cbn [length]. replace (length rows + 1 - 0 - 1)%nat with (length rows) by lia.
  rewrite (set_value_st _ F o (length rows) c v r); [|apply Hf|now apply list_lookup_middle|exact Hc].
  do 3 f_equal. now rewrite insert_app_r_alt, Nat.sub_diag by lia.
Qed.

Lemma set_row_values_st rows F o cvs : Forall (fun cv => (fst cv < n)%nat) cvs -> forall r, fits (rows ++ [r]) ->
  set_row_values cvs (st (rows ++ [r]) F o) = Some (tt, st (rows ++ [set_cells cvs r]) F o).
Proof.
  induction cvs as [|[c v] cvs IH]; intros Hc r Hf; [reflexivity|]. apply Forall_cons in Hc as [Hc Hcs]. cbn [fst] in Hc.
  unfold set_row_values. cbn [for_each fst snd]. eapply bind_run; [apply set_current_row_st; assumption|].
  apply (IH Hcs). apply (fits_same (rows ++ [r])); [|rewrite !length_app; reflexivity|exact Hf].
  destruct Hf as [Hw _]. apply Forall_app in Hw as [Hw Hr]. apply Forall_cons in Hr as [Hr _]. apply Forall_app. split; [exact Hw|].
  apply Forall_singleton. now rewrite length_insert.
Qed.

(** The last row of rows that are not empty. *)
Lemma set_row_values_patch rows F o cvs : Forall (fun cv => (fst cv < n)%nat) cvs -> fits rows -> rows <> [] ->
  set_row_values cvs (st rows F o) = Some (tt, st (patch_last cvs rows) F o).
Proof.
  intros Hc Hf Hn. destruct rows as [|r rows _] using rev_ind; [easy|]. rewrite patch_last_snoc. now apply set_row_values_st.
Qed.

Lemma push_row_st rows F o : push_row (st rows F o) = Some (tt, st (rows ++ [replicate n (from_int 0)]) (fun s => F s ++ [from_int 0]) o).
Proof.
  unfold push_row, gets, modify, mbind, M_bind, st, set_values, set_selectors. cbn. rewrite sel_map_fmap, concat_app. cbn. now rewrite app_nil_r.
Qed.

Lemma set_final_rows_st cvs : forall rows F o,
  for_each (fun cv => set_final_row (fst cv) (snd cv)) cvs (st rows F o) = Some (tt, st rows F (foldl (fun m cv => <[fst cv := snd cv]> m) o cvs)).
Proof. induction cvs as [|cv cvs IH]; intros rows F o; [reflexivity|]. cbn [for_each]. eapply bind_run; [reflexivity|]. apply IH. Qed.

(** The overrides recorded by the first operation are a map of its values. *)
Lemma foldl_insert cvs : NoDup (fst <$> cvs) -> forall o : gmap nat T,
  foldl (fun m cv => <[fst cv := snd cv]> m) o cvs = list_to_map cvs ∪ o.
Proof.
  induction cvs as [|[k v] cvs IH]; intros Hnd o; cbn; [now rewrite (left_id_L ∅ (∪))|]. apply NoDup_cons in Hnd as [Hk Hnd].
  rewrite IH by exact Hnd. rewrite <- insert_union_r by (now apply not_elem_of_list_to_map_1). now rewrite insert_union_l.
Qed.

Definition overrides (cvs : list (nat * T)) : gmap nat T := list_to_map cvs.

Lemma set_previous_row_first cvs F : NoDup (fst <$> cvs) ->
  set_previous_row cvs (st [] F ∅) = Some (tt, st [] F (overrides cvs)).
Proof.
  intros Hnd. unfold set_previous_row. eapply bind_run; [apply len_st; split; [apply List.Forall_nil|cbn; lia]|]. cbn [length].
  etransitivity; [apply set_final_rows_st|]. rewrite foldl_insert by exact Hnd. now rewrite (right_id_L ∅ (∪)).
Qed.

Lemma set_previous_row_next cvs rows F o : Forall (fun cv => (fst cv < n)%nat) cvs -> fits rows -> rows <> [] ->
  set_previous_row cvs (st rows F o) = Some (tt, st (patch_last cvs rows) F o).
Proof.
  intros Hc Hf Hn. unfold set_previous_row. eapply bind_run; [apply len_st, Hf|].
  destruct (Z.ltb_spec 0 (Z.of_nat (length rows))); [now apply set_row_values_patch|]. destruct rows; [easy|cbn in *; lia].
Qed.

Lemma final_row_override_st rows F cvs : NoDup (fst <$> cvs) -> Forall (fun cv => (fst cv < n)%nat) cvs -> fits rows -> rows <> [] ->
  final_row_override (st rows F (overrides cvs)) = Some (tt, st (patch_last cvs rows) F (overrides cvs)).
Proof.
  intros Hnd Hc Hf Hn. unfold final_row_override. eapply bind_run; [reflexivity|]. cbn [last_row_overrides st].
  assert (Hp : map_to_list (overrides cvs) ≡ₚ cvs) by now apply map_to_list_to_map.
  etransitivity; [apply (set_row_values_patch rows F (overrides cvs) (map_to_list (overrides cvs)))|].
  - now rewrite Hp.
  - exact Hf.
  - exact Hn.
  - destruct rows as [|r rows _] using rev_ind; [easy|]. rewrite !patch_last_snoc. do 5 f_equal. symmetry. apply set_cells_perm; [exact Hnd|now symmetry].
Qed.

Lemma set_current_row_selector_st rows F o sel v l x : sel ∈ names -> F sel = l ++ [x] ->
  set_current_row_selector sel v (st rows F o) = Some (tt, st rows (fun s => if decide (s = sel) then l ++ [v] else F s) o).
Proof.
  intros Hs Hl. unfold set_current_row_selector. eapply bind_run; [reflexivity|]. cbn [tr_selectors st].
  eapply lift_run; [rewrite sel_map_lookup; case_decide; [reflexivity|easy]|]. rewrite Hl.
  eapply lift_run.
  - transitivity (list_set (length (l ++ [x]) - 1) v (l ++ [x])); [now destruct l|].
    apply (list_set_Some _ v x). rewrite length_app. cbn. rewrite Nat.add_sub. now apply list_lookup_middle.
  - unfold modify. do 2 f_equal. unfold set_selectors, st. cbn. rewrite length_app. cbn. rewrite Nat.add_sub, sel_map_insert by exact Hs.
    now rewrite insert_app_r_alt, Nat.sub_diag by lia.
Qed.

(** *** Blocks *)

Lemma st_ext rows F G o : (forall s, F s = G s) -> st rows F o = st rows G o.
Proof. intros He. unfold st. now rewrite (sel_map_ext F G He). Qed.

Record Block := mkBlock { b_prev : list (nat * T); b_rows : list (list T); b_sel : string }.

Variables (B : nat) (keys : list nat) (mark : list T).
Hypothesis B_pos : (0 < B)%nat.
Hypothesis keys_ok : NoDup keys /\ Forall (fun c => (c < n)%nat) keys.

Record block_ok (b : Block) : Prop := {
  block_keys : fst <$> b_prev b = keys;
  block_wide : wide n (b_rows b);
  block_size : length (b_rows b) = B;
  block_sel : b_sel b ∈ names
}.

(** The operation adds the rows of the block, and gives its values to the row before it. *)
Definition adds (m : M (SubmachineTrace T) unit) (b : Block) : Prop := forall rows F o,
  fits (rows ++ b_rows b) -> (rows = [] -> o = ∅) ->
  m (st rows F o) =
  Some (tt, st (patch_last (b_prev b) rows ++ b_rows b) (fun s => F s ++ if decide (s = b_sel b) then mark else replicate B (from_int 0))
            (match rows with [] => overrides (b_prev b) | _ => o end)).

Definition table (bs : list Block) : list (list T) := foldl (fun rows b => patch_last (b_prev b) rows ++ b_rows b) [] bs.
Definition marks_of (bs : list Block) (s : string) : list T :=
  concat ((fun b => if decide (s = b_sel b) then mark else replicate B (from_int 0)) <$> bs).
Definition first_overrides (bs : list Block) : gmap nat T := match bs with [] => ∅ | b :: _ => overrides (b_prev b) end.

Lemma table_snoc bs b : table (bs ++ [b]) = patch_last (b_prev b) (table bs) ++ b_rows b.
Proof. unfold table. now rewrite foldl_app. Qed.

Lemma table_size bs : Forall block_ok bs -> length (table bs) = (B * length bs)%nat /\ wide n (table bs).
Proof.
  induction bs as [|b bs IH] using rev_ind; intros Hok; [split; [cbn; lia|apply List.Forall_nil]|].
  apply Forall_app in Hok as [Hok Hb]. apply Forall_cons in Hb as [Hb _]. destruct (IH Hok) as [Hl Hw]. rewrite table_snoc. split.
  - rewrite !length_app, patch_last_length, Hl, (block_size b Hb). cbn. lia.
  - apply Forall_app. split; [now apply wide_patch|apply Hb].
Qed.

Lemma table_fits bs : Forall block_ok bs -> Z.of_nat (n * (B * length bs)) < 2 ^ 32 -> fits (table bs).
Proof. intros Hok Hl. destruct (table_size bs Hok) as [Hs Hw]. split; [exact Hw|]. now rewrite Hs. Qed.

Lemma run_blocks ms bs : Forall2 adds ms bs -> forall bs0, Forall block_ok (bs0 ++ bs) -> Z.of_nat (n * (B * length (bs0 ++ bs))) < 2 ^ 32 ->
  for_each (fun m => m) ms (st (table bs0) (marks_of bs0) (first_overrides bs0)) =
  Some (tt, st (table (bs0 ++ bs)) (marks_of (bs0 ++ bs)) (first_overrides (bs0 ++ bs))).
Proof.
  induction 1 as [|m b ms bs Hm _ IH]; intros bs0 Hok Hl; [now rewrite app_nil_r|]. cbn [for_each].
  replace (bs0 ++ b :: bs) with ((bs0 ++ [b]) ++ bs) in * by now rewrite <- app_assoc.
  assert (Hok1 : Forall block_ok (bs0 ++ [b])) by (now apply Forall_app in Hok).
  assert (Hl1 : Z.of_nat (n * (B * length (bs0 ++ [b]))) < 2 ^ 32) by (rewrite length_app in Hl; nia).
  assert (Hf : fits (table bs0 ++ b_rows b)).
  { pose proof (table_fits (bs0 ++ [b]) Hok1 Hl1) as Hf. rewrite table_snoc in Hf. apply Forall_app in Hok1 as [Hok0 _].
    destruct Hf as [Hw Hs]. apply Forall_app in Hw as [_ Hw]. split.
    - apply Forall_app. split; [apply table_size, Hok0|exact Hw].
    - rewrite length_app, patch_last_length in Hs. now rewrite length_app. }
  eapply bind_run; [apply Hm; [exact Hf|]|].
  - intros Ht. destruct bs0; [reflexivity|]. apply Forall_app in Hok1 as [Hok0 _]. destruct (table_size _ Hok0) as [Hs _]. rewrite Ht in Hs. cbn in Hs. lia.
  - rewrite <- table_snoc. rewrite <- (IH (bs0 ++ [b]) Hok Hl). f_equal. transitivity (st (table (bs0 ++ [b])) (marks_of (bs0 ++ [b]))
      (match table bs0 with [] => overrides (b_prev b) | _ => first_overrides bs0 end)).
    + apply st_ext. intros s. unfold marks_of. rewrite fmap_app, concat_app. cbn. now rewrite app_nil_r.
    + f_equal. destruct bs0 as [|b0 bs0]; [reflexivity|]. apply Forall_app in Hok1 as [Hok0 _]. destruct (table_size _ Hok0) as [Hs _].
      destruct (table (b0 :: bs0)); [cbn in Hs; lia|reflexivity].
Qed.

(** Row [i] of block [j]: the last one carries values of the next block. *)
Lemma table_lookup bs j i b : Forall block_ok bs -> bs !! j = Some b -> (i < B)%nat ->
  table bs !! (B * j + i)%nat = (match bs !! S j with Some b' => if (S i =? B)%nat then set_cells (b_prev b') else id | None => id end) <$> b_rows b !! i.
Proof.
  induction bs as [|x bs IH] using rev_ind; intros Hok Hj Hi; [discriminate|]. apply Forall_app in Hok as [Hok Hx]. apply Forall_cons in Hx as [Hx _].
  destruct (table_size bs Hok) as [Hs _]. rewrite table_snoc. pose proof (lookup_lt_Some _ _ _ Hj) as Hlt. rewrite length_app in Hlt. cbn in Hlt.
  destruct (decide (j < length bs)%nat) as [Hjl|Hjl].
  - rewrite lookup_app_l in Hj by exact Hjl. rewrite lookup_app_l by (rewrite patch_last_length; nia).
    rewrite patch_last_lookup, Hs, (IH Hok Hj Hi), <- option_fmap_compose. apply option_fmap_ext. intros r. cbv [compose].
    destruct (decide (S j < length bs)%nat) as [Hjn|Hjn].
    + rewrite lookup_app_l by exact Hjn. destruct (Nat.eqb_spec (S (B * j + i)) (B * length bs)); [nia|reflexivity].
    + assert (j = length bs - 1)%nat as -> by lia. rewrite lookup_app_r by lia. replace (S (length bs - 1) - length bs)%nat with 0%nat by lia.
      rewrite (lookup_ge_None_2 bs (S (length bs - 1))) by lia. change ([x] !! 0%nat) with (Some x). cbv iota. assert (Hd : (B * (length bs - 1) + B = B * length bs)%nat) by (rewrite <- Nat.mul_succ_r; f_equal; lia).
      set (p := (B * (length bs - 1))%nat) in *. set (q := (B * length bs)%nat) in *. clearbody p q.
      destruct (Nat.eqb_spec (S i) B), (Nat.eqb_spec (S (p + i)) q); try reflexivity; lia.
  - assert (j = length bs) as -> by lia. rewrite list_lookup_middle in Hj by reflexivity. injection Hj as <-.
    rewrite lookup_app_r by (rewrite patch_last_length; lia). rewrite patch_last_length, Hs.
    rewrite (lookup_ge_None_2 (bs ++ [x])) by (rewrite length_app; cbn; lia). rewrite option_fmap_id. f_equal. lia.
Qed.

(** *** Padding *)

Lemma take_S_lookup {A} (l : list A) k x : l !! k = Some x -> take (S k) l = take k l ++ [x].
Proof. apply take_S_r. Qed.

Lemma push_dummy_rows_st R F o (deg : nat) k : forall s,
  wide n R -> (s + k <= length R)%nat -> (length R + s <= deg)%nat -> Z.of_nat (n * deg) < 2 ^ 32 ->
  push_dummy_rows (Z.of_nat deg) (seq s k) (st (R ++ take s R) (fun x => F x ++ replicate s (from_int 0)) o) =
  Some (tt, st (R ++ take (s + Nat.min k (deg - length R - s)) R)
               (fun x => F x ++ replicate (s + Nat.min k (deg - length R - s)) (from_int 0)) o).
Proof.
  induction k as [|k IH]; intros s Hw Hs Hd Hdeg; cbn [seq push_dummy_rows]; [now rewrite Nat.add_0_r|].
  assert (Hls : length (R ++ take s R) = (length R + s)%nat) by (rewrite length_app, length_take; lia).
  assert (Hws : wide n (R ++ take s R)) by (apply Forall_app; split; [exact Hw|now apply Forall_take]).
  eapply bind_run; [apply len_st; split; [exact Hws|rewrite Hls; nia]|]. rewrite Hls.
  destruct (Z.eqb_spec (Z.of_nat (length R + s)) (Z.of_nat deg)) as [He|He].
  { replace (Nat.min (S k) (deg - length R - s)) with 0%nat by lia. now rewrite Nat.add_0_r. }
  destruct (lookup_lt_is_Some_2 R s ltac:(lia)) as [r Hr]. assert (Hrn : length r = n) by (eapply Forall_lookup_1 in Hr; [|exact Hw]; exact Hr).
  assert (Hz : fits ((R ++ take s R) ++ [replicate n (from_int (T:=T) 0)])).
  { split; [apply Forall_app; split; [exact Hws|apply Forall_singleton, length_replicate]|]. rewrite length_app, Hls. cbn. nia. }
  eapply bind_run; [apply push_row_st|]. eapply bind_run; [apply (row_from_end_st _ _ o 0 Hz); rewrite length_app; cbn; lia|].
  rewrite length_app, Hls. cbn [length]. replace (length R + s + 1 - 0 - 1)%nat with (length R + s)%nat by lia.
  do 2 (eapply bind_run; [reflexivity|]). cbn [tr_cols tr_values st]. rewrite Nat2Z.id. cbv zeta.
  assert (Hc : length (concat (R ++ take s R)) = (n * (length R + s))%nat) by (rewrite (concat_length n) by exact Hws; now rewrite Hls).
  assert (Hcz : concat ((R ++ take s R) ++ [replicate n (from_int (T:=T) 0)]) = concat (R ++ take s R) ++ replicate n (from_int 0))
    by (rewrite concat_app; cbn; now rewrite app_nil_r).
  apply (lift_run _ _ _ r).
  { unfold slice. replace (n * s <=? n * (s + 1))%nat with true by (symmetry; apply Nat.leb_le; nia).
    replace (n * (s + 1) <=? (length R + s) * n)%nat with true by (symmetry; apply Nat.leb_le; nia). cbn [andb]. f_equal.
    replace (n * (s + 1) - n * s)%nat with n by nia. apply (concat_slice n _ s r); [apply Hz|].
    rewrite <- app_assoc, lookup_app_l by lia. exact Hr. }
  eapply bind_run.
  { unfold assertM, lift. rewrite Hcz, length_app, Hc, length_replicate, Hrn.
    replace (n * (length R + s) + n - (length R + s) * n =? n)%nat with true by (symmetry; apply Nat.eqb_eq; nia). reflexivity. }
  eapply bind_run; [reflexivity|].
  transitivity (push_dummy_rows (Z.of_nat deg) (seq (S s) k) (st (R ++ take (S s) R) (fun x => F x ++ replicate (S s) (from_int 0)) o)).
  - f_equal. transitivity (st (R ++ take (S s) R) (fun x => (F x ++ replicate s (from_int 0)) ++ [from_int 0]) o).
    + unfold set_values, st. cbn. f_equal. rewrite Hcz, take_app_le, take_ge by lia. rewrite (take_S_lookup R s r Hr), app_assoc, !concat_app. cbn. now rewrite app_nil_r.
    + apply st_ext. intros x. rewrite <- app_assoc. f_equal. symmetry. apply replicate_S_end.
  - rewrite IH by (assumption || lia). replace (S s + Nat.min k (deg - length R - S s))%nat with (s + Nat.min (S k) (deg - length R - s))%nat by lia. reflexivity.
Qed.

Lemma push_dummy_block_st R F cvs (deg : nat) : NoDup (fst <$> cvs) -> Forall (fun cv => (fst cv < n)%nat) cvs ->
  wide n R -> (B <= length R)%nat -> (length R < deg)%nat -> Z.of_nat (n * deg) < 2 ^ 32 ->
  push_dummy_block (Z.of_nat deg) (Z.of_nat B) (st R F (overrides cvs)) =
  Some (tt, st (R ++ patch_last cvs (take (Nat.min B (deg - length R)) R)) (fun x => F x ++ replicate (Nat.min B (deg - length R)) (from_int 0)) (overrides cvs)).
Proof.
  intros Hnd Hc Hw HB Hl Hdeg. unfold push_dummy_block. rewrite Nat2Z.id. set (m := Nat.min B (deg - length R)).
  assert (Hm : (0 < m <= length R)%nat) by lia. assert (Ht : take m R <> []) by (destruct R, m; cbn in *; [lia..|easy]).
  eapply bind_run.
  - transitivity (push_dummy_rows (Z.of_nat deg) (seq 0 B) (st (R ++ take 0 R) (fun x => F x ++ replicate 0 (from_int 0)) (overrides cvs))).
    + f_equal. rewrite take_0, app_nil_r. apply st_ext. intros x. cbn. now rewrite app_nil_r.
    + rewrite push_dummy_rows_st by (assumption || lia). now rewrite Nat.sub_0_r.
  - cbn [Nat.add]. rewrite final_row_override_st; [now rewrite patch_last_app| | | |].
    + exact Hnd.
    + exact Hc.
    + split; [apply Forall_app; split; [exact Hw|now apply Forall_take]|]. rewrite length_app, length_take. nia.
    + now destruct R.
Qed.

(** The loop of [finish] repeats the first block, as [push_dummy_block] and the fix of the
    kind change it, up to the degree. *)
Section Padding.
Variables (kind : SubmachineKind T) (g : list T -> list T) (cvs : list (nat * T)) (deg : nat).
Hypothesis kind_size : BLOCK_SIZE kind = Z.of_nat B.
Hypothesis g_wide : forall r, length r = n -> length (g r) = n.
Hypothesis kind_fix : forall R rows F, fits (R ++ rows) -> (length rows <= B)%nat ->
  dummy_block_fix kind (Z.of_nat (length rows)) (st (R ++ rows) F (overrides cvs)) = Some (tt, st (R ++ (g <$> rows)) F (overrides cvs)).
Hypothesis cvs_ok : NoDup (fst <$> cvs) /\ Forall (fun cv => (fst cv < n)%nat) cvs.
Hypothesis deg_fits : Z.of_nat (n * deg) < 2 ^ 32.

Definition dummy_rows (R : list (list T)) : list (list T) := g <$> patch_last cvs (take B R).

Lemma wide_map R : wide n R -> wide n (g <$> R).
Proof. intros Hw. apply Forall_fmap. eapply Forall_impl; [exact Hw|]. intros r. apply g_wide. Qed.

Lemma pad_loop_st fuel : forall R F, wide n R -> (B <= length R <= deg)%nat -> (deg - length R <= fuel)%nat ->
  cvs = [] \/ Nat.divide B (deg - length R) ->
  pad_loop kind fuel (Z.of_nat deg) (st R F (overrides cvs)) =
  Some (tt, st (R ++ take (deg - length R) (concat (replicate fuel (dummy_rows R)))) (fun x => F x ++ replicate (deg - length R) (from_int 0)) (overrides cvs)).
Proof.
  induction fuel as [|fuel IH]; intros R F Hw HR Hfuel Hdiv.
  - replace (deg - length R)%nat with 0%nat by lia. cbn [pad_loop]. eapply bind_run; [apply len_st; split; [exact Hw|nia]|].
    destruct (Z.ltb_spec (Z.of_nat (length R)) (Z.of_nat deg)); [lia|]. rewrite take_0, app_nil_r. unfold mret, M_ret. do 2 f_equal. apply st_ext. intros x. cbn. now rewrite app_nil_r.
  - cbn [pad_loop]. eapply bind_run; [apply len_st; split; [exact Hw|nia]|]. destruct (Z.ltb_spec (Z.of_nat (length R)) (Z.of_nat deg)) as [Hlt|Hge].
    2: { replace (deg - length R)%nat with 0%nat by lia. rewrite take_0, app_nil_r. unfold mret, M_ret. do 2 f_equal. apply st_ext. intros x. cbn. now rewrite app_nil_r. }
    destruct cvs_ok as [Hnd Hc]. set (m := Nat.min B (deg - length R)). rewrite kind_size.
    eapply bind_run; [apply push_dummy_block_st; (assumption || lia)|]. fold m.
    set (D := patch_last cvs (take m R)). assert (HD : length D = m) by (unfold D; rewrite patch_last_length, length_take; lia).
    assert (HwD : wide n D) by (apply wide_patch, Forall_take, Hw).
    assert (Hf : fits (R ++ D)) by (split; [now apply Forall_app|rewrite length_app, HD; nia]).
    eapply bind_run; [apply len_st, Hf|]. rewrite length_app, HD.
    apply (lift_run _ _ _ (Z.of_nat m)).
    { unfold checked_sub. destruct (Z.leb_spec (Z.of_nat (length R)) (Z.of_nat (length R + m))); [f_equal; lia|lia]. }
    assert (Hfix := fun F' => kind_fix R D F' Hf ltac:(lia)). rewrite HD in Hfix. eapply bind_run; [apply Hfix|].
    assert (HlR : length (R ++ (g <$> D)) = (length R + m)%nat) by (rewrite length_app, length_fmap, HD; reflexivity).
    destruct (decide (m = B)) as [Hm|Hm].
    + assert (HDR : dummy_rows (R ++ (g <$> D)) = dummy_rows R) by (unfold dummy_rows; now rewrite take_app_le by lia).
      rewrite IH; [|apply Forall_app; split; [exact Hw|now apply wide_map]|lia|lia|].
      * rewrite HDR, HlR. do 2 f_equal. transitivity (st (R ++ take (deg - length R) (concat (replicate (S fuel) (dummy_rows R))))
          (fun x => (F x ++ replicate m (from_int 0)) ++ replicate (deg - (length R + m)) (from_int 0)) (overrides cvs)).
        -- assert (Hrep : take (deg - length R) (concat (replicate (S fuel) (dummy_rows R))) =
             (g <$> D) ++ take (deg - (length R + m)) (concat (replicate fuel (dummy_rows R)))).
           { cbn [replicate concat]. assert (HDd : dummy_rows R = g <$> D) by (unfold dummy_rows, D; now rewrite Hm). rewrite HDd.
             rewrite take_app_ge by (rewrite length_fmap; lia). f_equal. rewrite length_fmap, HD. f_equal. lia. }
           now rewrite Hrep, <- app_assoc.
        -- apply st_ext. intros x. rewrite <- app_assoc, <- replicate_add. do 2 f_equal. lia.
      * destruct Hdiv as [|[q Hq]]; [now left|right]. exists (q - 1)%nat. rewrite HlR, Hm. destruct q; nia.
    + assert (Hmd : m = (deg - length R)%nat) by lia. assert (Hcv : cvs = []).
      { destruct Hdiv as [|[q Hq]]; [assumption|]. destruct q; nia. }
      rewrite IH; [|apply Forall_app; split; [exact Hw|now apply wide_map]|lia|lia|now left]. rewrite HlR, Hmd.
      replace (deg - (length R + (deg - length R)))%nat with 0%nat by lia. rewrite take_0, app_nil_r. do 2 f_equal.
      transitivity (st (R ++ (g <$> D)) (fun x => F x ++ replicate (deg - length R) (from_int 0)) (overrides cvs)).
      * apply st_ext. intros x. cbn. now rewrite app_nil_r.
      * f_equal. f_equal. cbn [replicate concat]. unfold dummy_rows. rewrite take_app_le by (rewrite length_fmap, patch_last_length, length_take; lia).
        unfold D. rewrite Hcv, !patch_last_nil, <- fmap_take, take_take, Hmd. f_equal. f_equal. lia.
Qed.

End Padding.

(** *** The finished table *)

Section Finish.
Variables (kind : SubmachineKind T) (g : list T -> list T) (b1 : Block) (bs : list Block) (deg : nat).
Hypothesis kind_size : BLOCK_SIZE kind = Z.of_nat B.
Hypothesis g_wide : forall r, length r = n -> length (g r) = n.
Hypothesis kind_fix : forall R rows F, fits (R ++ rows) -> (length rows <= B)%nat ->
  dummy_block_fix kind (Z.of_nat (length rows)) (st (R ++ rows) F (overrides (b_prev b1))) = Some (tt, st (R ++ (g <$> rows)) F (overrides (b_prev b1))).
Hypothesis g_patch : forall r, g (set_cells (b_prev b1) r) = set_cells (b_prev b1) (g r).
Hypothesis blocks_ok : Forall block_ok (b1 :: bs).
Hypothesis deg_fits : Z.of_nat (n * deg) < 2 ^ 32.
Hypothesis deg_ge : (B * length (b1 :: bs) <= deg)%nat.
Hypothesis deg_blocks : keys = [] \/ Nat.divide B deg.

Definition dummy : Block := mkBlock (b_prev b1) (g <$> b_rows b1) (b_sel b1).

(** The blocks of the operations and enough copies of the first one, one more than needed. *)
Definition all_blocks : list Block := (b1 :: bs) ++ replicate (S deg) dummy.
Definition full_table : list (list T) := take deg (table all_blocks).
Definition full_marks (s : string) : list T := marks_of (b1 :: bs) s ++ replicate (deg - B * length (b1 :: bs)) (from_int 0).

Lemma b1_ok : block_ok b1.
Proof. now apply Forall_cons in blocks_ok. Qed.

Lemma dummy_ok : block_ok dummy.
Proof.
  destruct b1_ok as [H1 H2 H3 H4]. split; cbn; [exact H1|now apply wide_map|now rewrite length_fmap|exact H4].
Qed.

Lemma all_blocks_ok : Forall block_ok all_blocks.
Proof. apply Forall_app. split; [exact blocks_ok|]. apply Forall_replicate, dummy_ok. Qed.

Lemma prev_ok : NoDup (fst <$> b_prev b1) /\ Forall (fun cv => (fst cv < n)%nat) (b_prev b1).
Proof.
  destruct keys_ok as [Hn Hf]. rewrite <- (block_keys b1 b1_ok) in Hn, Hf. split; [exact Hn|]. now apply Forall_fmap in Hf.
Qed.

Lemma patch_last_fmap rows : g <$> patch_last (b_prev b1) rows = patch_last (b_prev b1) (g <$> rows).
Proof.
  apply list_eq. intros i. rewrite list_lookup_fmap, !patch_last_lookup, list_lookup_fmap, length_fmap.
  destruct (rows !! i); [|reflexivity]. cbn [fmap option_fmap option_map]. f_equal. destruct (S i =? length rows)%nat; [apply g_patch|reflexivity].
Qed.

Lemma first_block : patch_last (b_prev b1) (take B (patch_last (b_prev b1) (table (b1 :: bs)))) = patch_last (b_prev b1) (b_rows b1).
Proof.
  destruct (table_size _ blocks_ok) as [Hs _]. cbn [length] in Hs. pose proof (block_size b1 b1_ok) as HB.
  assert (Hl : length (take B (patch_last (b_prev b1) (table (b1 :: bs)))) = B) by (rewrite length_take, patch_last_length, Hs; nia).
  apply list_eq. intros i. rewrite !patch_last_lookup, Hl, HB. destruct (decide (i < B)%nat) as [Hi|Hi].
  2: { rewrite !lookup_ge_None_2 by lia. reflexivity. }
  rewrite lookup_take_lt by exact Hi. rewrite patch_last_lookup. pose proof (table_lookup (b1 :: bs) 0 i b1 blocks_ok eq_refl Hi) as Ht.
  rewrite Nat.mul_0_r, Nat.add_0_l in Ht. rewrite Ht. destruct (lookup_lt_is_Some_2 (b_rows b1) i ltac:(lia)) as [r ->]. cbn [fmap option_fmap option_map]. f_equal.
  destruct prev_ok as [Hnd _]. destruct (Nat.eqb_spec (S i) B) as [HiB|HiB].
  - assert (Habs : forall r', set_cells (b_prev b1) ((if (S i =? length (table (b1 :: bs)))%nat then set_cells (b_prev b1) else id) r') = set_cells (b_prev b1) r').
    { intros r'. destruct (_ =? _)%nat; [now apply set_cells_absorb|reflexivity]. }
    rewrite Habs. destruct ((b1 :: bs) !! 1%nat) as [b2|] eqn:Hb2; [|reflexivity]. apply set_cells_absorb; [exact Hnd|].
    rewrite (block_keys b1 b1_ok). symmetry. apply block_keys. eapply Forall_lookup_1; [exact blocks_ok|exact Hb2].
  - replace (S i =? length (table (b1 :: bs)))%nat with false by (symmetry; apply Nat.eqb_neq; rewrite Hs; nia).
    now destruct ((b1 :: bs) !! 1%nat).
Qed.

Lemma table_replicate k : patch_last (b_prev b1) (table ((b1 :: bs) ++ replicate k dummy)) =
  patch_last (b_prev b1) (table (b1 :: bs)) ++ concat (replicate k (patch_last (b_prev b1) (g <$> b_rows b1))).
Proof.
  induction k as [|k IH]; [cbn [replicate concat]; now rewrite !app_nil_r|].
  rewrite !replicate_S_end, app_assoc, table_snoc, concat_app. cbn [b_prev dummy b_rows concat]. rewrite app_nil_r, app_assoc, <- IH.
  apply patch_last_app. pose proof (block_size dummy dummy_ok) as HB. cbn in HB. intros Hn. rewrite Hn in HB. cbn in HB. lia.
Qed.

Lemma padded_table k : (deg - B * length (b1 :: bs) <= B * k)%nat ->
  patch_last (b_prev b1) (table (b1 :: bs)) ++ take (deg - B * length (b1 :: bs)) (concat (replicate k (dummy_rows g (b_prev b1) (patch_last (b_prev b1) (table (b1 :: bs)))))) =
  take deg (table ((b1 :: bs) ++ replicate (S k) dummy)).
Proof.
  intros Hk. destruct (table_size _ blocks_ok) as [Hs _]. unfold dummy_rows. rewrite first_block, patch_last_fmap.
  rewrite replicate_S_end, app_assoc, table_snoc. cbn [b_prev dummy b_rows]. rewrite table_replicate.
  set (D := patch_last (b_prev b1) (g <$> b_rows b1)). assert (HD : length D = B) by (unfold D; rewrite patch_last_length; apply (block_size dummy dummy_ok)).
  assert (Hcl : forall j, length (concat (replicate j D)) = (B * j)%nat) by (induction j as [|j IHj]; cbn; [lia|]; rewrite length_app, IHj; lia).
  rewrite <- app_assoc, take_app_ge by (rewrite patch_last_length; lia). rewrite patch_last_length, Hs. f_equal. rewrite take_app_le by (rewrite Hcl; lia). reflexivity.
Qed.

Lemma full_marks_st : (final_row_override;; pad_loop kind deg (Z.of_nat deg)) (st (table (b1 :: bs)) (marks_of (b1 :: bs)) (overrides (b_prev b1))) =
  Some (tt, st full_table full_marks (overrides (b_prev b1))).
Proof.
  destruct (table_size _ blocks_ok) as [Hs Hw]. destruct prev_ok as [Hnd Hc].
  assert (Hf : fits (table (b1 :: bs))) by (split; [exact Hw|rewrite Hs; nia]). assert (Hne : table (b1 :: bs) <> []) by (intros Hn; rewrite Hn in Hs; cbn in Hs; nia).
  eapply bind_run; [now apply final_row_override_st|].
  rewrite (pad_loop_st kind g (b_prev b1) deg kind_size g_wide kind_fix (conj Hnd Hc) deg_fits deg).
  - rewrite patch_last_length, Hs. unfold full_table, full_marks, all_blocks. rewrite <- padded_table by (cbn [length] in *; nia). reflexivity.
  - now apply wide_patch.
  - rewrite patch_last_length, Hs. cbn [length] in *. nia.
  - rewrite patch_last_length. lia.
  - rewrite patch_last_length, Hs. destruct deg_blocks as [Hk|Hd].
    + left. pose proof (block_keys b1 b1_ok) as Hb. rewrite Hk in Hb. now apply fmap_nil_inv in Hb.
    + right. apply Nat.divide_sub_r; [exact Hd|apply Nat.divide_factor_l].
Qed.

Lemma full_table_fits : fits full_table /\ length full_table = deg.
Proof.
  destruct (table_size _ all_blocks_ok) as [Hs Hw]. assert (Hl : length full_table = deg).
  { unfold full_table. rewrite length_take, Hs. unfold all_blocks. rewrite length_app, length_replicate. nia. }
  split; [|exact Hl]. split; [now apply Forall_take|now rewrite Hl].
Qed.

(** Row [i] of block [j] of the finished table. *)
Lemma full_table_lookup j i b b' : (B * j + i < deg)%nat -> (i < B)%nat -> all_blocks !! j = Some b -> all_blocks !! S j = Some b' ->
  full_table !! (B * j + i)%nat = (if (S i =? B)%nat then set_cells (b_prev b') else id) <$> b_rows b !! i.
Proof.
  intros Hd Hi Hj Hj'. unfold full_table. rewrite lookup_take_lt by exact Hd. rewrite (table_lookup _ j i b all_blocks_ok Hj Hi). now rewrite Hj'.
Qed.

End Finish.

(** *** The finished columns *)

Definition column_of (rows : list (list T)) (c : nat) : list T := (fun r => default (from_int 0) (r !! c)) <$> rows.

Lemma mapM_total {A C} (f : A -> option C) (g : A -> C) l : (forall x, x ∈ l -> f x = Some (g x)) -> mapM f l = Some (g <$> l).
Proof.
  induction l as [|x l IH]; intros Hf; [reflexivity|]. cbn. rewrite (Hf x) by set_solver. cbn. rewrite IH by (intros y Hy; apply Hf; set_solver). reflexivity.
Qed.

Definition finished_columns (rows : list (list T)) (F : string -> list T) : list (string * list T) :=
  ((fun ic => (snd ic, column_of rows (fst ic))) <$> combine (seq 0 n) cols) ++ map_to_list (sel_map F).

Lemma take_cols_st rows F o : fits rows -> take_cols (st rows F o) = Some (finished_columns rows F, mkTrace ns [] [] ∅ o).
Proof.
  intros Hf. unfold take_cols. eapply bind_run; [now apply len_st|]. do 3 (eapply bind_run; [reflexivity|]). cbn [tr_cols tr_values tr_selectors st].
  eapply lift_run; [|reflexivity]. apply (mapM_total _ (fun ic => (snd ic, column_of rows (fst ic)))). intros [c name] Hic.
  assert (Hc : (c < n)%nat). { apply list_elem_of_In, in_combine_l, in_seq in Hic. lia. }
  cbn [fst snd]. eapply bind_eq; [|reflexivity]. rewrite Nat2Z.id. rewrite (mapM_total _ (fun i => default (from_int 0) (r ← rows !! i; r !! c))).
  - f_equal. apply list_eq. intros i. unfold column_of. rewrite !list_lookup_fmap. destruct (decide (i < length rows)%nat) as [Hi|Hi].
    + rewrite lookup_seq_lt by exact Hi. cbn. destruct (lookup_lt_is_Some_2 rows i Hi) as [r ->]. reflexivity.
    + rewrite !lookup_ge_None_2 by (rewrite ?length_seq; lia). reflexivity.
  - intros i Hi. apply list_elem_of_In, in_seq in Hi. rewrite (concat_lookup n rows i c (proj1 Hf) Hc).
    destruct (lookup_lt_is_Some_2 rows i ltac:(lia)) as [r Hr]. rewrite Hr. cbn.
    assert (Hrn : length r = n) by (eapply Forall_lookup_1 in Hr; [|exact (proj1 Hf)]; exact Hr).
    now destruct (lookup_lt_is_Some_2 r c ltac:(lia)) as [v ->].
Qed.

Definition named (cs : list (string * list T)) : list (string * list T) := (fun kv => (ns +:+ "::" +:+ fst kv, snd kv)) <$> cs.

(** A column by its index, a selector by its name. *)
Lemma column_named rows F c : (c < n)%nat -> column (named (finished_columns rows F)) c = column_of rows c.
Proof.
  clear cols_size B_pos keys_ok. intros Hc. unfold column, named, finished_columns. destruct (lookup_lt_is_Some_2 cols c Hc) as [name Hn].
  rewrite list_lookup_fmap, lookup_app_l by (rewrite length_fmap, length_combine, length_seq; lia).
  rewrite list_lookup_fmap. assert (Hz : combine (seq 0 n) cols !! c = Some (c, name)).
  { apply (lookup_zip_with_Some pair). exists c, name. rewrite lookup_seq_lt by exact Hc. auto. }
  now rewrite Hz.
Qed.

Lemma selector_named rows F s : s ∈ names -> (ns +:+ "::" +:+ s, F s) ∈ named (finished_columns rows F).
Proof.
  intros Hs. unfold named, finished_columns. apply list_elem_of_fmap. exists (s, F s). split; [reflexivity|].
  apply elem_of_app. right. apply elem_of_map_to_list. rewrite sel_map_lookup. now case_decide.
Qed.

Section Run.
Variables (kind : SubmachineKind T) (g : list T -> list T).
Hypothesis kind_size : BLOCK_SIZE kind = Z.of_nat B.
Hypothesis g_wide : forall r, length r = n -> length (g r) = n.
Hypothesis kind_fix : forall p R rows F, fst <$> p = keys -> fits (R ++ rows) -> (length rows <= B)%nat ->
  dummy_block_fix kind (Z.of_nat (length rows)) (st (R ++ rows) F (overrides p)) = Some (tt, st (R ++ (g <$> rows)) F (overrides p)).
Hypothesis g_patch : forall p r, fst <$> p = keys -> g (set_cells p r) = set_cells p (g r).

Definition new_impl : SubmachineImpl := mkImpl (st [] (fun _ => []) ∅) false.

Definition op_adds (id_sel : list (option string)) (op : SubmachineOp T) (b : Block) : Prop :=
  exists sel, id_sel !! Z.to_nat (identity_id op) = Some sel /\ adds (add_operation kind sel (lookup_args op) (extra op)) b.

Lemma on_trace_run {A} (m : M (SubmachineTrace T) A) t a t' f : m t = Some (a, t') -> on_trace m (mkImpl t f) = Some (a, mkImpl t' f).
Proof. intros Hm. unfold on_trace, on_part. cbn. now rewrite Hm. Qed.

Lemma run_operations id_sel ops bs : Forall2 (op_adds id_sel) ops bs -> Forall block_ok bs -> Z.of_nat (n * (B * length bs)) < 2 ^ 32 ->
  for_each (apply_operation kind id_sel) ops new_impl =
  Some (tt, mkImpl (st (table bs) (marks_of bs) (first_overrides bs)) false).
Proof.
  intros Hops Hok Hl.
  assert (Hm : exists ms, Forall2 adds ms bs /\ forall t, for_each (apply_operation kind id_sel) ops (mkImpl t false) = on_trace (for_each (fun m => m) ms) (mkImpl t false)).
  { clear Hok Hl. induction Hops as [|op b ops bs (sel & Hsel & Hop) _ (ms & Hms & Hrun)]; [exists []; split; [constructor|reflexivity]|].
    exists (add_operation kind sel (lookup_args op) (extra op) :: ms). split; [now constructor|]. intros t. cbn [for_each].
    assert (Hone : apply_operation kind id_sel op (mkImpl t false) = on_trace (add_operation kind sel (lookup_args op) (extra op)) (mkImpl t false))
      by (unfold apply_operation; rewrite Hsel; reflexivity).
    unfold mbind, M_bind. rewrite Hone. unfold on_trace, on_part. cbn.
    destruct (add_operation kind sel (lookup_args op) (extra op) t) as [[[] t']|]; [|reflexivity]. rewrite Hrun. reflexivity. }
  destruct Hm as (ms & Hms & Hrun). unfold new_impl. rewrite Hrun. apply on_trace_run. exact (run_blocks ms bs Hms [] Hok Hl).
Qed.

(** The columns of a machine with operations. *)
Theorem block_columns publics id_sel min_degree ops b1 bs (deg : nat) : Forall2 (op_adds id_sel) ops (b1 :: bs) -> Forall block_ok (b1 :: bs) ->
  machine_degree (Z.of_nat (B * length (b1 :: bs))) min_degree = Some (Z.of_nat deg) -> Z.of_nat (n * deg) < 2 ^ 32 ->
  keys = [] \/ Nat.divide B deg -> (B * length (b1 :: bs) <= deg)%nat ->
  exists i', submachine_columns kind publics id_sel min_degree ops new_impl =
    Some (named (finished_columns (full_table g b1 bs deg) (full_marks b1 bs deg)), i').
Proof.
  intros Hops Hok Hdeg Hfits Hdiv Hge. destruct (table_size _ Hok) as [Hs Hw]. 
  assert (Hb1 : block_ok b1) by (now apply Forall_cons in Hok). assert (Hk1 := block_keys b1 Hb1).
  assert (Hf : fits (table (b1 :: bs))) by (split; [exact Hw|rewrite Hs; nia]).
  eexists. unfold submachine_columns. eapply bind_run; [apply run_operations; [exact Hops|exact Hok|nia]|].
  eapply bind_run; [apply on_trace_run, len_st, Hf|]. rewrite Hs. cbn [length] in *. destruct (Z.ltb_spec 0 (Z.of_nat (B * S (length bs)))); [|nia].
  eapply lift_run; [exact Hdeg|]. unfold impl_finish. eapply bind_run; [apply on_trace_run, len_st, Hf|]. rewrite Hs.
  eapply bind_run; [unfold assertM, lift; rewrite (proj2 (Z.leb_le _ _)) by (cbn [length]; lia); reflexivity|].
  do 2 (eapply bind_run; [reflexivity|]). eapply bind_run; [reflexivity|]. cbn [impl_trace]. rewrite Nat2Z.id.
  eapply bind_run; [apply on_trace_run; apply (full_marks_st kind g b1 bs deg)|].
  - exact kind_size.
  - exact g_wide.
  - intros R rows F. now apply kind_fix.
  - intros r. now apply g_patch.
  - exact Hok.
  - exact Hfits.
  - exact Hge.
  - exact Hdiv.
  - eapply bind_run; [reflexivity|]. cbn [impl_trace].
    eapply bind_run; [apply on_trace_run, take_cols_st; apply (full_table_fits g b1 bs deg); assumption|]. reflexivity.
Qed.

End Run.

End Rows.

(** ** Neighbouring rows of tables that repeat whole blocks *)

Section Neighbours.
Context {T : Type} `{LL : LargeFieldLaws T}.
Variables (cols : list string) (names : gset string) (B : nat) (keys : list nat) (mark : list T).
Notation n := (length cols).
Hypothesis cols_size : (0 < n < 256)%nat.
Hypothesis B_pos : (1 < B)%nat.
Hypothesis keys_ok : NoDup keys /\ Forall (fun c => (c < n)%nat) keys.
Variables (b1 : Block (T:=T)) (bs : list (Block (T:=T))) (deg : nat).
Hypothesis blocks_ok : Forall (block_ok cols names B keys) (b1 :: bs).
Hypothesis deg_ge : (B * length (b1 :: bs) <= deg)%nat.
Hypothesis deg_div : Nat.divide B deg.

Notation full := (full_table (fun r => r) b1 bs deg).

Lemma dummy_id : dummy (fun r => r) b1 = b1.
Proof. destruct b1 as [p r s]. unfold dummy. cbn. now rewrite list_fmap_id. Qed.

Lemma all_blocks_id : all_blocks (fun r => r) b1 bs deg = (b1 :: bs) ++ replicate (S deg) b1.
Proof. unfold all_blocks. now rewrite dummy_id. Qed.

Lemma block_at j : (j <= length (b1 :: bs) + deg)%nat -> exists b, all_blocks (fun r => r) b1 bs deg !! j = Some b /\ b ∈ b1 :: bs.
Proof.
  intros Hj. rewrite all_blocks_id. destruct (decide (j < length (b1 :: bs))%nat) as [Hl|Hl].
  - rewrite lookup_app_l by exact Hl. destruct (lookup_lt_is_Some_2 _ _ Hl) as [b Hb]. exists b. split; [exact Hb|]. now apply list_elem_of_lookup_2 with j.
  - rewrite lookup_app_r, lookup_replicate_2 by lia. exists b1. split; [reflexivity|set_solver].
Qed.

Lemma blocks_ok_all : Forall (block_ok cols names B keys) (all_blocks (fun r => r) b1 bs deg).
Proof. apply all_blocks_ok; auto. Qed.

Lemma row_at j i b b' : (B * j + i < deg)%nat -> (i < B)%nat -> all_blocks (fun r => r) b1 bs deg !! j = Some b ->
  all_blocks (fun r => r) b1 bs deg !! S j = Some b' ->
  full !! (B * j + i)%nat = (if (S i =? B)%nat then set_cells (b_prev b') else id) <$> b_rows b !! i.
Proof. eapply (full_table_lookup cols names cols_size B keys); eauto; lia. Qed.

(** The row and the next one, cyclically, are rows of a block, or the last row of one and
    the first of the next; the last row carries the values of the next block. *)
Lemma neighbour_rows i : (i < deg)%nat -> exists b b', b ∈ b1 :: bs /\ b' ∈ b1 :: bs /\
  full !! i = (if (S (i mod B) =? B)%nat then set_cells (b_prev b') else id) <$> b_rows b !! (i mod B)%nat /\
  full !! ((i + 1) mod deg)%nat = if (S (i mod B) =? B)%nat then b_rows b' !! 0%nat
     else (if (S (S (i mod B)) =? B)%nat then set_cells (b_prev b') else id) <$> b_rows b !! S (i mod B).
Proof.
  intros Hi. pose proof (Nat.div_mod i B ltac:(lia)) as Hdm. pose proof (Nat.mod_upper_bound i B ltac:(lia)) as Hr.
  set (j := (i / B)%nat) in *. set (r := (i mod B)%nat) in *. destruct deg_div as [N HN]. assert (HjN : (j < N)%nat) by nia.
  assert (HNd : (N <= deg)%nat) by nia.
  destruct (block_at j ltac:(lia)) as (b & Hb & Hin). destruct (block_at (S j) ltac:(lia)) as (b' & Hb' & Hin').
  exists b, b'. split; [exact Hin|]. split; [exact Hin'|]. split; [rewrite Hdm; apply row_at; (assumption || lia)|].
  destruct (Nat.eqb_spec (S r) B) as [Hl|Hl].
  - destruct (decide (i + 1 < deg)%nat) as [Hlt|Hge].
    + rewrite Nat.mod_small by exact Hlt. replace (i + 1)%nat with (B * S j + 0)%nat by lia. destruct (block_at (S (S j)) ltac:(cbn [length]; lia)) as (b'' & Hb'' & _).
      rewrite (row_at (S j) 0 b' b'') by (assumption || lia). destruct (Nat.eqb_spec 1 B); [lia|]. apply option_fmap_id.
    + replace (i + 1)%nat with deg by lia. rewrite Nat.Div0.mod_same.
      assert (HSj : S j = N) by nia. rewrite all_blocks_id in Hb'. assert (b' = b1) as ->.
      { destruct (decide (N < length (b1 :: bs))%nat) as [HNl|HNl]; [cbn [length] in *; nia|].
        rewrite lookup_app_r, HSj, lookup_replicate_2 in Hb' by lia. now injection Hb'. }
      destruct (block_at 1 ltac:(lia)) as (b'' & Hb'' & _). pose proof (row_at 0 0 b1 b'' ltac:(lia) ltac:(lia) eq_refl Hb'') as H00.
      rewrite Nat.mul_0_r in H00. cbn [Nat.add] in H00. rewrite H00. destruct (Nat.eqb_spec 1 B); [lia|]. apply option_fmap_id.
  - assert (Hn1 : (B * j + S r < deg)%nat) by nia. rewrite Nat.mod_small by lia. replace (i + 1)%nat with (B * j + S r)%nat by lia. apply row_at; (assumption || lia).
Qed.

(** The last row of the block of an operation, and its selectors. *)
Lemma own_row j b : (b1 :: bs) !! j = Some b -> exists b', full !! (B * j + (B - 1))%nat = set_cells (b_prev b') <$> b_rows b !! (B - 1)%nat /\ b' ∈ b1 :: bs.
Proof.
  intros Hj. pose proof (lookup_lt_Some _ _ _ Hj) as Hl. destruct (block_at (S j) ltac:(lia)) as (b' & Hb' & Hin). exists b'. split; [|exact Hin].
  assert (Hb : all_blocks (fun r => r) b1 bs deg !! j = Some b) by (rewrite all_blocks_id, lookup_app_l by exact Hl; exact Hj).
  rewrite (row_at j (B - 1) b b') by (assumption || nia). destruct (Nat.eqb_spec (S (B - 1)) B); [reflexivity|lia].
Qed.

Lemma marks_lookup bs' s j i b : length mark = B -> bs' !! j = Some b -> (i < B)%nat ->
  marks_of B mark bs' s !! (B * j + i)%nat = (if decide (s = b_sel b) then mark else replicate B (from_int 0)) !! i.
Proof.
  intros Hm. revert j. induction bs' as [|x bs' IH]; intros j Hj Hi; [discriminate|]. unfold marks_of. cbn [fmap list_fmap concat].
  assert (Hx : length (if decide (s = b_sel x) then mark else replicate B (from_int 0)) = B) by (destruct (decide (s = b_sel x)); [exact Hm|apply length_replicate]).
  destruct j as [|j].
  - injection Hj as ->. rewrite Nat.mul_0_r. cbn [Nat.add]. now rewrite lookup_app_l by lia.
  - rewrite lookup_app_r by nia. rewrite Hx. replace (B * S j + i - B)%nat with (B * j + i)%nat by lia. now apply IH.
Qed.

Lemma full_marks_lookup s j i b : length mark = B -> (b1 :: bs) !! j = Some b -> (i < B)%nat ->
  full_marks B mark b1 bs deg s !! (B * j + i)%nat = (if decide (s = b_sel b) then mark else replicate B (from_int 0)) !! i.
Proof.
  intros Hm Hj Hi. unfold full_marks. rewrite lookup_app_l; [now apply marks_lookup|]. pose proof (lookup_lt_Some _ _ _ Hj) as Hl.
  assert (Hlen : forall bs', length (marks_of B mark bs' s) = (B * length bs')%nat).
  { induction bs' as [|x bs' IH]; cbn; [lia|]. rewrite length_app. unfold marks_of in IH. rewrite IH.
    destruct (decide (s = b_sel x)); rewrite ?Hm, ?length_replicate; lia. }
  rewrite Hlen. nia.
Qed.

End Neighbours.
