(* ===== verification/RiscvMachines.v ===== *)
(** * The binary, shift and split machines are correct

    The columns that [riscv-executor/src/submachines.rs] builds, against the constraints of
    [std/machines/large_field/binary.asm], [shift.asm] and [std/machines/split/split_gl.asm]. *)

From Stdlib Require Import ZArith Lia Ascii.
From stdpp Require Import base list option gmap strings.
From S2P Require Import Prelude Primes Goldilocks Field PanicMonad RiscvElem RiscvNames RiscvTrace RiscvExec RiscvInstr RiscvMemory RiscvLogs RiscvSubmachines RiscvBlocks.

Section Steps.
Context {T : Type} `{LL : LargeFieldLaws T}.
Variables (ns : string) (cols : list string) (names : gset string).
Notation n := (length cols).
Hypothesis cols_size : (0 < n < 256)%nat.
Notation st := (st ns cols names).
Notation zeros := (replicate n (from_int (T:=T) 0)).

Lemma zero_row_fits rows r : fits cols (rows ++ [r]) -> fits cols (rows ++ [zeros]).
Proof.
  intros [Hw Hl]. apply Forall_app in Hw as [Hw _]. split; [|rewrite length_app in *; exact Hl]. apply Forall_app. split; [exact Hw|].
  apply Forall_singleton, length_replicate.
Qed.

(** A new row with some of its cells. *)
Lemma push_set_last_st rows F o cvs : Forall (fun cv => (fst cv < n)%nat) cvs -> fits cols (rows ++ [set_cells cvs zeros]) ->
  (push_row;; set_row_values cvs) (st rows F o) = Some (tt, st (rows ++ [set_cells cvs zeros]) (fun s => F s ++ [from_int 0]) o).
Proof.
  intros Hc Hf. eapply bind_run; [apply push_row_st|].
  apply set_row_values_st; [exact cols_size|exact Hc|]. now apply zero_row_fits in Hf.
Qed.

Lemma push_set_st rows F o cvs {A} (k : unit -> M (SubmachineTrace T) A) : Forall (fun cv => (fst cv < n)%nat) cvs ->
  fits cols (rows ++ [set_cells cvs zeros]) ->
  (push_row;; set_row_values cvs ≫= k) (st rows F o) = k tt (st (rows ++ [set_cells cvs zeros]) (fun s => F s ++ [from_int 0]) o).
Proof.
  intros Hc Hf. eapply bind_run; [apply push_row_st|]. eapply bind_run; [|reflexivity].
  apply set_row_values_st; [exact cols_size|exact Hc|]. now apply zero_row_fits in Hf.
Qed.

Lemma fits_patched cvs (rows rows' : list (list T)) : fits cols (rows ++ rows') -> fits cols (patch_last cvs rows ++ rows').
Proof.
  intros [Hw Hl]. apply Forall_app in Hw as [H1 H2]. split; [apply Forall_app; split; [now apply wide_patch|exact H2]|].
  rewrite length_app in *. now rewrite patch_last_length.
Qed.

Lemma fits_prefix (rows l1 l2 : list (list T)) : fits cols (rows ++ l1 ++ l2) -> fits cols (rows ++ l1).
Proof. intros Hf. rewrite app_assoc in Hf. now apply fits_app in Hf. Qed.

Lemma st_eq (rows rows' : list (list T)) F G o : rows = rows' -> (forall s, F s = G s) -> Some (tt, st rows F o) = Some (tt, st rows' G o).
Proof. intros -> HF. do 2 f_equal. now apply st_ext. Qed.

Lemma set_previous_row_st (cvs : list (nat * T)) rows F (o : gmap nat T) : NoDup (fst <$> cvs) -> Forall (fun cv => (fst cv < n)%nat) cvs -> fits cols rows -> (rows = [] -> o = ∅) ->
  set_previous_row cvs (st rows F o) = Some (tt, st (patch_last cvs rows) F (match rows with [] => overrides cvs | _ :: _ => o end)).
Proof.
  intros Hnd Hc Hf Ho. destruct rows as [|r rows].
  - rewrite (Ho eq_refl). now apply set_previous_row_first.
  - now apply set_previous_row_next.
Qed.

End Steps.

(** Indices of columns are small and distinct by computation. *)
Ltac cols_lt := repeat (apply List.Forall_cons; [apply Nat.ltb_lt; vm_compute; reflexivity|]); apply List.Forall_nil.
(** Prefixes of a block that fits fit; the rows pushed one after the other are the block. *)
Ltac block_fits Hf := rewrite <- ?app_assoc; cbn [app]; eapply fits_prefix; exact Hf.
Ltac block_done :=
  apply st_eq; [rewrite <- ?app_assoc; reflexivity|];
  intros ?s; cbn [b_sel]; case_decide; [subst; now rewrite <- ?app_assoc|now rewrite <- ?app_assoc].
Ltac cols_nodup := apply (bool_decide_unpack (NoDup _)); vm_compute; exact I.

Section Binary.
Context {T : Type} `{LL : LargeFieldLaws T}.

Definition byte_of (v : Z) (i : Z) : Z := Z.land (Z.shiftr v (8 * i)) 0xff.
Definition latch_mark (B : nat) : list T := replicate (B - 1) (from_int 0) ++ [from_int 1].
Definition new_row (n : nat) (cvs : list (nat * T)) : list T := set_cells cvs (replicate n (from_int 0)).

(** *** The binary machine *)

Definition binary_row (op_id : T) (av bv cv i m : Z) : list T :=
  new_row 8 [(BinaryCols.operation_id, op_id); (BinaryCols.operation_id_next, op_id);
    (BinaryCols.A_byte, from_u32 (byte_of av i)); (BinaryCols.B_byte, from_u32 (byte_of bv i)); (BinaryCols.C_byte, from_u32 (byte_of cv i));
    (BinaryCols.A, from_u32 (Z.land av m)); (BinaryCols.B, from_u32 (Z.land bv m)); (BinaryCols.C, from_u32 (Z.land cv m))].

Definition binary_block (sel : string) (op_id a b c : T) : Block :=
  let av := to_integer a in let bv := to_integer b in let cv := to_integer c in
  mkBlock [(BinaryCols.A_byte, from_u32 (Z.land av 0xff)); (BinaryCols.B_byte, from_u32 (Z.land bv 0xff)); (BinaryCols.C_byte, from_u32 (Z.land cv 0xff));
           (BinaryCols.operation_id_next, op_id)]
    [binary_row op_id av bv cv 1 0xff; binary_row op_id av bv cv 2 0xffff; binary_row op_id av bv cv 3 0xffffff;
     new_row 8 [(BinaryCols.operation_id, op_id); (BinaryCols.A, a); (BinaryCols.B, b); (BinaryCols.C, c)]]
    (only_column_name sel).

Lemma try_into_u32_small (x : T) : to_integer x < 2 ^ 32 -> try_into_u32 x = Some (to_integer x).
Proof. intros Hx. unfold try_into_u32. now destruct (Z.ltb_spec (to_integer x) (2 ^ 32)); [|lia]. Qed.

Variables (ns : string) (names : gset string).

Lemma binary_adds sel op_id a b c : only_column_name sel ∈ names ->
  to_integer a < 2 ^ 32 -> to_integer b < 2 ^ 32 -> to_integer c < 2 ^ 32 ->
  adds ns BinaryCols.all names 4 (latch_mark 4) (binary_add_operation (Some sel) [op_id; a; b; c] []) (binary_block sel op_id a b c).
Proof.
  intros Hs Ha Hb Hc rows F o Hf Ho. unfold binary_add_operation. eapply bind_run; [reflexivity|]. eapply bind_run; [reflexivity|].
  eapply bind_run; [reflexivity|]. cbn beta iota. do 3 (eapply lift_run; [now apply try_into_u32_small|]).
  unfold decompose_lower32. cbv beta iota zeta. assert (Hcols : (0 < length BinaryCols.all < 256)%nat) by (cbn; lia).
  assert (Hfr : fits BinaryCols.all rows) by now apply fits_app in Hf.
  eapply bind_run; [apply (set_previous_row_st ns BinaryCols.all names); [exact Hcols|cols_nodup|cols_lt|exact Hfr|exact Ho]|].
  assert (Hfp : fits BinaryCols.all (patch_last (b_prev (binary_block sel op_id a b c)) rows ++ b_rows (binary_block sel op_id a b c))) by (apply fits_patched; exact Hf).
  do 3 (etransitivity; [eapply (push_set_st ns BinaryCols.all names); [exact Hcols|cols_lt|block_fits Hfp]|]; cbv beta).
  etransitivity; [eapply (push_set_st ns BinaryCols.all names); [exact Hcols|cols_lt|block_fits Hfp]|].
  etransitivity; [eapply set_current_row_selector_st; [exact Hcols|exact Hs|reflexivity]|]. unfold binary_block. block_done.
Qed.
(** *** The shift machine *)

(** [((x << shl) >> shr)] in 32 bits, by the operation: 0 shifts left, 1 right. *)
Definition shift_by (op b x : Z) : Z := if op =? 0 then Z.shiftl x b mod 2 ^ 32 else Z.shiftr (x mod 2 ^ 32) b.

Definition shift_value_row (op_id b : T) (op bv av i m : Z) : list T :=
  new_row 8 [(ShiftCols.operation_id, op_id); (ShiftCols.operation_id_next, op_id); (ShiftCols.A_byte, from_u32 (byte_of av i));
    (ShiftCols.C_part, from_u32 (shift_by op bv (Z.shiftl (byte_of av i) (8 * i)))); (ShiftCols.A, from_u32 (Z.land av m)); (ShiftCols.B, b);
    (ShiftCols.B_next, b); (ShiftCols.C, from_u32 (shift_by op bv (Z.land av m)))].

Definition shift_block (sel : string) (op_id a b c : T) : Block :=
  let op := to_integer op_id in let av := to_integer a in let bv := to_integer b in
  mkBlock [(ShiftCols.A_byte, from_u32 (Z.land av 0xff)); (ShiftCols.C_part, from_u32 (shift_by op bv (Z.land av 0xff)));
           (ShiftCols.operation_id_next, op_id); (ShiftCols.B_next, b)]
    [shift_value_row op_id b op bv av 1 0xff; shift_value_row op_id b op bv av 2 0xffff; shift_value_row op_id b op bv av 3 0xffffff;
     new_row 8 [(ShiftCols.operation_id, op_id); (ShiftCols.A, a); (ShiftCols.B, b); (ShiftCols.C, c)]]
    (only_column_name sel).

Lemma byte_range x : 0 <= Z.land x 0xff < 256.
Proof. rewrite decompose_byte. apply Z.mod_pos_bound. lia. Qed.

Lemma shifted_by op_id b x : to_integer op_id = 0 \/ to_integer op_id = 1 -> to_integer b < 32 -> 0 <= x < 2 ^ 32 ->
  exists shl shr, shift_amounts op_id b = Some (shl, shr) /\ shifted x shl shr = Some (shift_by (to_integer op_id) (to_integer b) x).
Proof.
  intros Hop Hb Hx. unfold shift_amounts, f_is_zero, f_is_one, shift_by. rewrite try_into_u32_small by lia. range b.
  destruct Hop as [-> | ->]; cbn [Z.eqb mbind option_bind Pos.eqb]; eexists _, _; (split; [reflexivity|]); unfold shifted, checked_shl, checked_shr.
  - destruct (Z.ltb_spec (to_integer b) 32); [|lia]. cbn [mbind option_bind]. change (0 <? 32) with true. cbv iota. now rewrite Z.shiftr_0_r.
  - change (0 <? 32) with true. cbn [mbind option_bind]. rewrite Z.shiftl_0_r. now destruct (Z.ltb_spec (to_integer b) 32); [|lia].
Qed.

Lemma checked_byte_shl x k : 0 <= k < 32 -> checked_shl 32 (Z.land x 0xff) k = Some (Z.shiftl (Z.land x 0xff) k mod 2 ^ 32).
Proof. intros Hk. unfold checked_shl. now destruct (Z.ltb_spec k 32); [|lia]. Qed.

Lemma byte_shl_small x k : 0 <= k <= 24 -> Z.shiftl (Z.land x 0xff) k mod 2 ^ 32 = Z.shiftl (Z.land x 0xff) k.
Proof.
  intros Hk. pose proof (byte_range x) as Hx. rewrite Z.shiftl_mul_pow2 by lia. apply Z.mod_small.
  assert (2 ^ k <= 2 ^ 24) by (apply Z.pow_le_mono_r; lia). change (2 ^ 32) with (256 * 2 ^ 24). nia.
Qed.

Lemma byte_shl_range x k : 0 <= k <= 24 -> 0 <= Z.shiftl (Z.land x 0xff) k < 2 ^ 32.
Proof. intros Hk. rewrite <- (byte_shl_small x k Hk). apply Z.mod_pos_bound. lia. Qed.

Lemma low_bits_range x m : 0 <= m < 2 ^ 32 -> 0 <= x -> 0 <= Z.land x m < 2 ^ 32.
Proof. intros Hm Hx. apply (land_width 32); [exact Hx|exact Hm]. Qed.

Lemma shift_adds sel op_id a b c : only_column_name sel ∈ names ->
  to_integer op_id = 0 \/ to_integer op_id = 1 -> to_integer a < 2 ^ 32 -> to_integer b < 32 ->
  adds ns ShiftCols.all names 4 (latch_mark 4) (shift_add_operation (Some sel) [op_id; a; b; c] []) (shift_block sel op_id a b c).
Proof.
  intros Hs Hop Ha Hb rows F o Hf Ho. range a. destruct (shifted_by op_id b 0 Hop Hb ltac:(lia)) as (shl & shr & Hamounts & _).
  assert (Hsh : forall x, 0 <= x < 2 ^ 32 -> shifted x shl shr = Some (shift_by (to_integer op_id) (to_integer b) x)).
  { intros x Hx. destruct (shifted_by op_id b x Hop Hb Hx) as (l & r & Hlr & Hx'). rewrite Hamounts in Hlr. injection Hlr as <- <-. exact Hx'. }
  unfold shift_add_operation. eapply bind_run; [reflexivity|]. eapply bind_run; [reflexivity|]. eapply bind_run; [reflexivity|].
  cbn beta iota. eapply lift_run; [exact Hamounts|]. cbn beta iota. eapply lift_run; [now apply try_into_u32_small|].
  unfold decompose_lower32. cbv beta iota zeta. eapply lift_run; [apply Hsh; pose proof (byte_range (to_integer a)); lia|].
  assert (Hcols : (0 < length ShiftCols.all < 256)%nat) by (cbn; lia). assert (Hfr : fits ShiftCols.all rows) by now apply fits_app in Hf.
  eapply bind_run; [apply (set_previous_row_st ns ShiftCols.all names); [exact Hcols|cols_nodup|cols_lt|exact Hfr|exact Ho]|].
  assert (Hfp : fits ShiftCols.all (patch_last (b_prev (shift_block sel op_id a b c)) rows ++ b_rows (shift_block sel op_id a b c))) by (apply fits_patched; exact Hf).
  do 3 (eapply lift_run; [rewrite checked_byte_shl by lia; cbn [mbind option_bind]; rewrite byte_shl_small by lia; apply Hsh, byte_shl_range; lia|];
    eapply lift_run; [apply Hsh, low_bits_range; lia|];
    eapply bind_run; [eapply (push_set_last_st ns ShiftCols.all names); [exact Hcols|cols_lt|block_fits Hfp]|]).
  etransitivity; [eapply (push_set_st ns ShiftCols.all names); [exact Hcols|cols_lt|block_fits Hfp]|].
  etransitivity; [eapply set_current_row_selector_st; [exact Hcols|exact Hs|reflexivity]|]. unfold shift_block. block_done.
Qed.

(** *** The split machine *)

Definition split_bytes (lo hi : Z) : list Z := (byte_of lo <$> [0; 1; 2; 3]) ++ (byte_of hi <$> [0; 1; 2; 3]).
Definition byte_lt (b : list Z) : list Z := zip_with (fun b m => b2z (b <? m)) b BYTES_MAX.
Definition byte_gt (b : list Z) : list Z := zip_with (fun b m => b2z (m <? b)) b BYTES_MAX.

(** Is this byte or one above it smaller than the maximum's? *)
Fixpoint any_lt (lt : list Z) : list Z :=
  match lt with
  | [] => []
  | [l] => [l]
  | l :: lt' => let w := any_lt lt' in Z.max l (default 0 (head w)) :: w
  end.

Definition split_values (lo hi : Z) (i : nat) : list (nat * T) :=
  let b := split_bytes lo hi in
  [(SplitGlCols.bytes, from_u32 (nth i b 0)); (SplitGlCols.lt, from_u32 (nth i (byte_lt b) 0)); (SplitGlCols.gt, from_u32 (nth i (byte_gt b) 0));
   (SplitGlCols.was_lt, from_u32 (nth i (any_lt (byte_lt b)) 0))].

Definition split_value_row (lo hi : Z) (low high in_acc : T) (i : nat) : list T :=
  new_row 7 ([(SplitGlCols.output_low, low); (SplitGlCols.output_high, high); (SplitGlCols.in_acc, in_acc)] ++ split_values lo hi i).

Definition split_block (sel : string) (output_lo output_hi : T) : Block :=
  let lo := to_integer output_lo in let hi := to_integer output_hi in
  let low m := from_u64 (Z.land lo m) in let high m := from_u64 (Z.land hi m) in let zero := from_int 0 in
  mkBlock (split_values lo hi 0)
    [split_value_row lo hi (low 0xff) zero (low 0xff) 1; split_value_row lo hi (low 0xffff) zero (low 0xffff) 2;
     split_value_row lo hi (low 0xffffff) zero (low 0xffffff) 3; split_value_row lo hi (from_u64 lo) zero (from_u64 lo) 4;
     split_value_row lo hi (from_u64 lo) (high 0xff) (hi_and_lo (Z.land hi 0xff) lo) 5;
     split_value_row lo hi (from_u64 lo) (high 0xffff) (hi_and_lo (Z.land hi 0xffff) lo) 6;
     split_value_row lo hi (from_u64 lo) (high 0xffffff) (hi_and_lo (Z.land hi 0xffffff) lo) 7;
     new_row 7 [(SplitGlCols.output_low, from_u64 lo); (SplitGlCols.output_high, from_u64 hi); (SplitGlCols.in_acc, hi_and_lo hi lo)]]
    (only_column_name sel).

Definition bits (l : list Z) : Prop := Forall (fun x => x = 0 \/ x = 1) l.

Lemma any_lt_bits lt : bits lt -> bits (any_lt lt).
Proof.
  induction 1 as [|l lt Hl Hlt IH]; [apply List.Forall_nil|]. destruct lt as [|l' lt]; [now apply Forall_singleton|].
  change (any_lt (l :: l' :: lt)) with (Z.max l (default 0 (head (any_lt (l' :: lt)))) :: any_lt (l' :: lt)). apply List.Forall_cons; [|exact IH].
  destruct (any_lt (l' :: lt)) as [|w ws]; cbn; [lia|]. apply Forall_cons in IH as [IH _]. lia.
Qed.

Lemma was_lt_of_bits lt : bits lt -> was_lt_of lt = Some (any_lt lt).
Proof.
  induction 1 as [|l lt Hl Hlt IH]; [reflexivity|]. destruct lt as [|l' lt]; [reflexivity|].
  change (was_lt_of (l :: l' :: lt)) with (w ← was_lt_of (l' :: lt); n ← head w; s ← checked_add 32 n l; p ← checked_mul 32 n l; v ← checked_sub s p; Some (v :: w)).
  change (any_lt (l :: l' :: lt)) with (Z.max l (default 0 (head (any_lt (l' :: lt)))) :: any_lt (l' :: lt)).
  rewrite IH. cbn [mbind option_bind]. pose proof (any_lt_bits (l' :: lt) Hlt) as Hb.
  assert (Hne : any_lt (l' :: lt) <> []) by (destruct lt; easy). destruct (any_lt (l' :: lt)) as [|w ws]; [easy|]. cbn [head mbind option_bind default].
  apply Forall_cons in Hb as [Hw _]. destruct Hw as [-> | ->], Hl as [-> | ->]; reflexivity.
Qed.

Lemma byte_lt_bits b : bits (byte_lt b).
Proof.
  unfold bits, byte_lt. apply List.Forall_forall. intros x Hx. apply list_elem_of_In, elem_of_lookup_zip_with in Hx as (i & y & m & -> & _ & _).
  destruct (y <? m); cbn; auto.
Qed.

Lemma split_adds sel x lo hi z : only_column_name sel ∈ names -> to_integer lo < 2 ^ 32 -> to_integer hi < 2 ^ 32 ->
  adds ns SplitGlCols.all names 8 (latch_mark 8) (split_add_operation (Some sel) [x; lo; hi; z] []) (split_block sel lo hi).
Proof.
  intros Hs Hlo Hhi rows F o Hf Ho. unfold split_add_operation. do 3 (eapply bind_run; [reflexivity|]).
  cbn beta iota. do 2 (eapply lift_run; [now apply try_into_u32_small|]).
  unfold decompose_lower32. cbv beta iota zeta.
  change [Z.land (to_integer lo) 255; _; _; _; Z.land (to_integer hi) 255; _; _; _] with (split_bytes (to_integer lo) (to_integer hi)).
  change (zip_with _ _ BYTES_MAX) with (byte_lt (split_bytes (to_integer lo) (to_integer hi))) at 1.
  eapply lift_run; [apply was_lt_of_bits, byte_lt_bits|].
  assert (Hcols : (0 < length SplitGlCols.all < 256)%nat) by (cbn; lia). assert (Hfr : fits SplitGlCols.all rows) by now apply fits_app in Hf.
  eapply lift_run; [reflexivity|].
  eapply bind_run; [apply (set_previous_row_st ns SplitGlCols.all names Hcols (split_values (to_integer lo) (to_integer hi) 0)); [cols_nodup|cols_lt|exact Hfr|exact Ho]|].
  assert (Hfp : fits SplitGlCols.all (patch_last (b_prev (split_block sel lo hi)) rows ++ b_rows (split_block sel lo hi))) by (apply fits_patched; exact Hf).
  do 7 (eapply lift_run; [reflexivity|];
    eapply bind_run; [eapply (push_set_last_st ns SplitGlCols.all names); [exact Hcols|cols_lt|block_fits Hfp]|]).
  eapply bind_run; [apply push_row_st|].
  eapply bind_run; [eapply set_current_row_selector_st; [exact Hcols|exact Hs|reflexivity]|].
  etransitivity; [apply (set_row_values_st ns SplitGlCols.all names); [exact Hcols|cols_lt|]|].
  { eapply (zero_row_fits SplitGlCols.all). block_fits Hfp. }
  unfold split_block. block_done.
Qed.

End Binary.

(** ** Machines of equal blocks *)

Section Machine.
Context {T : Type} `{LL : LargeFieldLaws T}.
Variables (kind : SubmachineKind T) (ns : string) (names : gset string) (B : nat) (keys : list nat).
Notation cols := (kind_cols kind).
Notation n := (length cols).
Hypothesis kind_size : BLOCK_SIZE kind = Z.of_nat B.
Hypothesis kind_fix : forall rows, dummy_block_fix kind rows = mret tt.
Hypothesis cols_size : (0 < n < 256)%nat.
Hypothesis B_pos : (1 < B)%nat.
Hypothesis keys_ok : NoDup keys /\ Forall (fun c => (c < n)%nat) keys.

(** The block that a valid operation adds. *)
Variables (ok : SubmachineOp T -> Prop) (block_of : string -> SubmachineOp T -> Block (T:=T)).
Hypothesis op_block : forall sel op, ok op -> only_column_name sel ∈ names ->
  block_ok cols names B keys (block_of sel op) /\ b_sel (block_of sel op) = only_column_name sel /\
  adds ns cols names B (latch_mark B) (add_operation kind (Some sel) (lookup_args op) (extra op)) (block_of sel op).

Definition row_cell (r : list T) (c : nat) : Z := to_integer (default (from_int 0) (r !! c)).

(** Rows [r] and [r + 1] of a block, the last one with the values of the next block. *)
Definition block_row (b b' : Block (T:=T)) (r : nat) : option (list T) := (if (S r =? B)%nat then set_cells (b_prev b') else id) <$> b_rows b !! r.

Variable constraint : nat -> (nat -> Z) -> (nat -> Z) -> Prop.
Hypothesis constraint_ext : forall r c d c' d', (forall k, (k < n)%nat -> c k = c' k) -> (forall k, (k < n)%nat -> d k = d' k) -> constraint r c' d' -> constraint r c d.
Hypothesis block_constraints : forall sel op sel' op' r row next, ok op -> ok op' -> (r < B)%nat ->
  block_row (block_of sel op) (block_of sel' op') r = Some row ->
  (if (S r =? B)%nat then b_rows (block_of sel' op') !! 0%nat else block_row (block_of sel op) (block_of sel' op') (S r)) = Some next ->
  constraint r (row_cell row) (row_cell next).

(** The selector of an operation is a column of the machine. *)
Definition selects (id_sel : list (option string)) (op : SubmachineOp T) (sel : string) : Prop :=
  id_sel !! Z.to_nat (identity_id op) = Some (Some sel) /\ only_column_name sel ∈ names.

Lemma cells_named rows F i k r : rows !! i = Some r -> (k < n)%nat -> cells (named ns (finished_columns cols names rows F)) i k = row_cell r k.
Proof.
  intros Hi Hk. unfold cells. rewrite column_named by exact Hk. unfold value_at, column_of. rewrite list_lookup_fmap, Hi. reflexivity.
Qed.

Lemma machine_degree_ge len min d : 0 < len -> machine_degree len min = Some d -> len <= d.
Proof.
  intros Hl. unfold machine_degree, next_power_of_two. destruct (_ <? _); [|discriminate]. cbn. intros [= <-].
  assert (len <= 2 ^ Z.log2_up len); [|lia]. destruct (Z.eq_dec len 1) as [->|]; [cbn; lia|]. apply Z.log2_up_spec. lia.
Qed.

Lemma machine_columns publics id_sel min_degree ops sels (deg : nat) : ops <> [] -> Forall ok ops -> Forall2 (selects id_sel) ops sels ->
  machine_degree (Z.of_nat (B * length ops)) min_degree = Some (Z.of_nat deg) -> Nat.divide B deg -> Z.of_nat (n * deg) < 2 ^ 32 ->
  exists out i', submachine_columns kind publics id_sel min_degree ops (new_impl ns cols names) = Some (out, i') /\
    (forall i, (i < deg)%nat -> constraint (i mod B) (cells out i) (cells out ((i + 1) mod deg)%nat)) /\
    (forall j op sel, ops !! j = Some op -> sels !! j = Some sel ->
      exists F row, (ns +:+ "::" +:+ only_column_name sel, F)%string ∈ out /\ F !! (B * j + (B - 1))%nat = Some (from_int 1) /\
        b_rows (block_of sel op) !! (B - 1)%nat = Some row /\
        forall k, (k < n)%nat -> k ∉ keys -> cells out (B * j + (B - 1))%nat k = row_cell row k).
Proof.
  intros Hne Hok Hsel Hdeg Hdiv Hfit. set (bs := zip_with block_of sels ops).
  assert (Hlen : length bs = length ops) by (unfold bs; rewrite length_zip_with; apply Forall2_length in Hsel; lia).
  assert (Hbs : forall j op sel, ops !! j = Some op -> sels !! j = Some sel -> bs !! j = Some (block_of sel op)).
  { intros j op sel Hop Hs. unfold bs. apply lookup_zip_with_Some. eauto. }
  assert (Hselj : forall j op sel, ops !! j = Some op -> sels !! j = Some sel -> selects id_sel op sel) by (intros; eapply Forall2_lookup_lr; eassumption).
  assert (Hin : forall b, b ∈ bs -> exists sel op, b = block_of sel op /\ ok op /\ only_column_name sel ∈ names).
  { intros b Hb. apply elem_of_lookup_zip_with in Hb as (i & sel & op & -> & Hs & Hop). exists sel, op. split; [reflexivity|].
    split; [eapply Forall_lookup_1; eassumption|]. now apply (Hselj i op sel). }
  assert (Hbok : Forall (block_ok cols names B keys) bs).
  { apply List.Forall_forall. intros b Hb. apply list_elem_of_In, Hin in Hb as (sel & op & -> & Hop & Hs). now apply op_block. }
  destruct bs as [|b1 bs'] eqn:Hb1; [destruct ops; [easy|discriminate]|]. rewrite <- Hlen in Hdeg.
  assert (Hge : (B * length (b1 :: bs') <= deg)%nat) by (apply machine_degree_ge in Hdeg; cbn [length] in *; nia).
  assert (Hrun : exists i', submachine_columns kind publics id_sel min_degree ops (new_impl ns cols names) =
    Some (named ns (finished_columns cols names (full_table (fun r => r) b1 bs' deg) (full_marks B (latch_mark B) b1 bs' deg)), i')).
  { apply (block_columns ns cols names cols_size B keys (latch_mark B) ltac:(lia) keys_ok kind (fun r => r) kind_size); try assumption.
    - auto.
    - intros p R rows F _ _ _. rewrite kind_fix, list_fmap_id. reflexivity.
    - reflexivity.
    - rewrite <- Hb1. unfold bs. apply Forall2_same_length_lookup_2; [fold bs; rewrite Hb1; now symmetry|]. intros j op b Hop Hb.
    apply lookup_zip_with_Some in Hb as (sel & op' & -> & Hs & Hop'). assert (op' = op) as -> by congruence.
    destruct (Hselj j op sel Hop Hs) as [Hid Hname]. exists (Some sel). split; [exact Hid|].
    apply op_block; [|exact Hname]. eapply Forall_lookup_1; eassumption.
    - now right. }
  destruct Hrun as [i' Hrun]. eexists _, i'. split; [exact Hrun|]. split.
    + intros i Hi. destruct (neighbour_rows cols names B keys cols_size B_pos keys_ok b1 bs' deg Hbok Hge Hdiv i Hi) as (b & b' & Hb & Hb' & Hri & Hrn).
      destruct (full_table_fits cols names cols_size B keys ltac:(lia) keys_ok (fun r => r) b1 bs' deg) as [_ Hft]; auto.
      destruct (lookup_lt_is_Some_2 (full_table (fun r => r) b1 bs' deg) i ltac:(lia)) as [row Hrow].
      destruct (lookup_lt_is_Some_2 (full_table (fun r => r) b1 bs' deg) ((i + 1) mod deg)%nat) as [next Hnext]; [rewrite Hft; apply Nat.mod_upper_bound; lia|].
      apply Hin in Hb as (sel & op & -> & Hop & _). apply Hin in Hb' as (sel' & op' & -> & Hop' & _).
      rewrite Hrow in Hri. rewrite Hnext in Hrn.
      apply (constraint_ext _ _ _ (row_cell row) (row_cell next)); [intros k Hk; now apply cells_named..|].
      apply (block_constraints sel op sel' op'); auto. apply Nat.mod_upper_bound. lia.
    + intros j op sel Hop Hs. assert (Hb : (b1 :: bs') !! j = Some (block_of sel op)) by (now apply Hbs).
      assert (Hokop : ok op) by (eapply Forall_lookup_1; eassumption). destruct (Hselj j op sel Hop Hs) as [_ Hname].
      destruct (op_block sel op Hokop Hname) as (Hbo & Hbs' & _).
      destruct (own_row cols names B keys cols_size B_pos keys_ok b1 bs' deg Hbok Hge Hdiv j _ Hb) as (b' & Hrow & Hb').
      assert (Hrl : is_Some (b_rows (block_of sel op) !! (B - 1)%nat)) by (apply lookup_lt_is_Some_2; rewrite (block_size _ _ _ _ _ Hbo); lia).
      destruct Hrl as [row Hr]. exists (full_marks B (latch_mark B) b1 bs' deg (only_column_name sel)), row. split; [now apply selector_named|].
      assert (Hmark : length (latch_mark (T:=T) B) = B) by (unfold latch_mark; rewrite length_app, length_replicate; cbn; lia).
      split; [|split; [exact Hr|]].
      * rewrite (full_marks_lookup cols B (latch_mark B) cols_size B_pos b1 bs' deg Hge _ j (B - 1) (block_of sel op) Hmark Hb) by lia. rewrite Hbs', decide_True by reflexivity.
        unfold latch_mark. rewrite lookup_app_r by (rewrite length_replicate; lia). now rewrite length_replicate, Nat.sub_diag.
      * intros k Hk Hnk. rewrite Hr in Hrow. cbn in Hrow. rewrite (cells_named _ _ _ _ _ Hrow Hk). unfold row_cell. do 2 f_equal.
        apply Hin in Hb' as (sel' & op' & -> & Hop' & Hs'). destruct (op_block sel' op' Hop' Hs') as (Hbo' & _).
        rewrite set_cells_lookup by (rewrite (block_keys _ _ _ _ _ Hbo'); apply keys_ok).
        rewrite (not_elem_of_list_to_map_1 (M:=gmap nat)); [reflexivity|]. now rewrite (block_keys _ _ _ _ _ Hbo').
Qed.

End Machine.

(** ** The constraints *)

Section Constraints.
Context {T : Type} `{LL : LargeFieldLaws T}.
Notation "x ≡p y" := (eqm (modulus (T:=T)) x y) (at level 70).

(** [ByteBinary] of [std/machines/binary.asm]. *)
Definition binary_fun (op a b : Z) : Z := if op =? 0 then Z.land a b else if op =? 1 then Z.lor a b else Z.lxor a b.

(** [machine Binary]; row [r] of a block, [c] its cells and [c'] those of the next row. *)
Definition binary_constraints (r : nat) (c c' : nat -> Z) : Prop :=
  let latch := b2z (Nat.eqb r 3) in
  let factor := 2 ^ (Z.of_nat ((r + 1) mod 4) * 8) in
  (c' BinaryCols.operation_id - c BinaryCols.operation_id) * (1 - latch) ≡p 0 /\
  c' BinaryCols.A ≡p c BinaryCols.A * (1 - latch) + c BinaryCols.A_byte * factor /\
  c' BinaryCols.B ≡p c BinaryCols.B * (1 - latch) + c BinaryCols.B_byte * factor /\
  c' BinaryCols.C ≡p c BinaryCols.C * (1 - latch) + c BinaryCols.C_byte * factor /\
  c' BinaryCols.operation_id = c BinaryCols.operation_id_next /\
  0 <= c BinaryCols.operation_id_next <= 2 /\ in_width 8 (c BinaryCols.A_byte) /\ in_width 8 (c BinaryCols.B_byte) /\
  c BinaryCols.C_byte = binary_fun (c BinaryCols.operation_id_next) (c BinaryCols.A_byte) (c BinaryCols.B_byte).

(** An operation the executor sends: two words and the result. *)
Definition binary_ok (op : SubmachineOp T) : Prop :=
  match lookup_args op with
  | [i; a; b; c] =>
    extra op = [] /\ to_integer i <= 2 /\ to_integer a < 2 ^ 32 /\ to_integer b < 2 ^ 32 /\
    to_integer c = binary_fun (to_integer i) (to_integer a) (to_integer b)
  | _ => False
  end.

Definition block_of_args (f : T -> T -> T -> T -> Block (T:=T)) (op : SubmachineOp T) : Block (T:=T) :=
  match lookup_args op with [i; a; b; c] => f i a b c | _ => mkBlock [] [] "" end.

(** *** Bytes of words *)

Lemma byte_of_div v i : 0 <= i -> byte_of v i = v / 2 ^ (8 * i) mod 256.
Proof. intros Hi. unfold byte_of. rewrite decompose_byte, Z.shiftr_div_pow2 by lia. reflexivity. Qed.

Lemma byte_of_range v i : 0 <= byte_of v i < 256.
Proof. apply byte_range. Qed.

(** One byte more of a word. *)
Lemma low_bytes_step v i : 0 <= i -> v mod 2 ^ (8 * (i + 1)) = v mod 2 ^ (8 * i) + byte_of v i * 2 ^ (8 * i).
Proof.
  intros Hi. rewrite byte_of_div by exact Hi. replace (8 * (i + 1)) with (8 * i + 8) by lia. rewrite Z.pow_add_r by lia. change (2 ^ 8) with 256.
  rewrite Z.rem_mul_r by (try apply Z.pow_nonzero; lia). lia.
Qed.

Lemma low_bytes v (i m : Z) : m = 2 ^ (8 * i) - 1 -> 0 <= i -> Z.land v m = v mod 2 ^ (8 * i).
Proof. intros -> Hi. apply land_ones_mod. lia. Qed.

Lemma byte_of_word v : 0 <= v < 2 ^ 32 -> v = Z.land v 0xffffff + byte_of v 3 * 2 ^ 24.
Proof.
  intros Hv. rewrite (low_bytes v 3) by (reflexivity || lia). change (2 ^ 24) with (2 ^ (8 * 3)). rewrite <- low_bytes_step by lia.
  symmetry. apply Z.mod_small. exact Hv.
Qed.

Lemma low_two v : Z.land v 0xffff = Z.land v 0xff + byte_of v 1 * 2 ^ 8.
Proof. rewrite (low_bytes v 2), (low_bytes v 1) by (reflexivity || lia). apply (low_bytes_step v 1). lia. Qed.

Lemma low_three v : Z.land v 0xffffff = Z.land v 0xffff + byte_of v 2 * 2 ^ 16.
Proof. rewrite (low_bytes v 3), (low_bytes v 2) by (reflexivity || lia). apply (low_bytes_step v 2). lia. Qed.

Lemma binary_fun_bytes op a b i : 0 <= i -> byte_of (binary_fun op a b) i = binary_fun op (byte_of a i) (byte_of b i).
Proof.
  intros Hi. unfold binary_fun, byte_of. destruct (op =? 0); [|destruct (op =? 1)]; apply Z.bits_inj'; intros k Hk;
    rewrite ?Z.land_spec, ?Z.lor_spec, ?Z.lxor_spec, ?Z.land_spec, ?Z.shiftr_spec, ?Z.land_spec, ?Z.lor_spec, ?Z.lxor_spec by lia;
    destruct (Z.testbit 255 k); rewrite ?Bool.andb_true_r, ?Bool.andb_false_r; reflexivity.
Qed.

Lemma binary_fun_width op a b : in_width 32 a -> in_width 32 b -> in_width 32 (binary_fun op a b).
Proof. intros Ha Hb. unfold binary_fun. destruct (op =? 0); [|destruct (op =? 1)]; apply (bits_width a b Ha Hb). Qed.

(** *** The binary machine *)

Definition binary_block_of (sel : string) : SubmachineOp T -> Block := block_of_args (binary_block sel).

Lemma ext_eq (c c' : nat -> Z) (n : nat) : (forall k, (k < n)%nat -> c k = c' k) -> forall k, (k <? n)%nat = true -> c k = c' k.
Proof. intros He k Hk. apply He. now apply Nat.ltb_lt. Qed.

Lemma binary_constraints_ext r c d c' d' : (forall k, (k < 8)%nat -> c k = c' k) -> (forall k, (k < 8)%nat -> d k = d' k) ->
  binary_constraints r c' d' -> binary_constraints r c d.
Proof. intros Hc Hd. unfold binary_constraints. rewrite !(ext_eq _ _ _ Hc) by reflexivity. rewrite !(ext_eq _ _ _ Hd) by reflexivity. auto. Qed.

Lemma cell_u32 v : in_width 32 v -> to_integer (from_u32 (T:=T) v) = v.
Proof. apply from_u32_spec. Qed.

Lemma byte_width v i : in_width 32 (byte_of v i).
Proof. pose proof (byte_of_range v i). unfold in_width. lia. Qed.

Lemma low_width v m : 0 <= v -> in_width 32 m -> in_width 32 (Z.land v m).
Proof. intros Hv Hm. now apply land_width. Qed.

Lemma binary_block_constraints sel op sel' op' r row next : binary_ok op -> binary_ok op' -> (r < 4)%nat ->
  block_row 4 (binary_block_of sel op) (binary_block_of sel' op') r = Some row ->
  (if (S r =? 4)%nat then b_rows (binary_block_of sel' op') !! 0%nat else block_row 4 (binary_block_of sel op) (binary_block_of sel' op') (S r)) = Some next ->
  binary_constraints r (row_cell row) (row_cell next).
Proof.
  unfold binary_ok, binary_block_of, block_of_args. destruct (lookup_args op) as [|i [|a [|b [|c [|? ?]]]]]; try easy.
  destruct (lookup_args op') as [|i' [|a' [|b' [|c' [|? ?]]]]]; try easy.
  intros (_ & Hi & Ha & Hb & Hc) (_ & Hi' & Ha' & Hb' & Hc') Hr Hrow Hnext. range a. range b. range c. range i. range a'. range b'. range c'. range i'.
  assert (Hcw : in_width 32 (to_integer c)) by (rewrite Hc; apply binary_fun_width; unfold in_width; lia).
  assert (Hcw' : in_width 32 (to_integer c')) by (rewrite Hc'; apply binary_fun_width; unfold in_width; lia).
  destruct r as [|[|[|[|r]]]]; [..|lia]; cbn in Hrow, Hnext; injection Hrow as <-; injection Hnext as <-;
    unfold binary_constraints, row_cell; cbn -[Z.land byte_of Z.pow eqm].
  all: rewrite ?cell_u32 by (apply byte_width || (apply low_width; [lia|unfold in_width; lia])).
  all: split; [eqm_lia|].
  - rewrite !low_two. do 3 (split; [eqm_lia|]). do 4 (split; [apply byte_of_range || lia|]). rewrite Hc. now apply binary_fun_bytes.
  - rewrite !low_three. do 3 (split; [eqm_lia|]). do 4 (split; [apply byte_of_range || lia|]). rewrite Hc. now apply binary_fun_bytes.
  - do 3 (split; [eapply eqm_of_eq; etransitivity; [apply byte_of_word; unfold in_width in *; lia|cbn -[Z.land byte_of]; lia]|]).
    do 4 (split; [apply byte_of_range || lia|]). rewrite Hc. now apply binary_fun_bytes.
  - do 3 (split; [eqm_lia|]). do 4 (split; [apply (byte_of_range _ 0) || lia|]). rewrite Hc'. now apply (binary_fun_bytes _ _ _ 0).
Qed.

(** *** The shift machine *)

(** [ByteShift] of [std/machines/large_field/shift.asm]. *)
Definition byte_shift (op a b row : Z) : Z :=
  Z.land (if op =? 0 then Z.shiftl a (b + row * 8) else Z.shiftr (Z.shiftl a (row * 8)) b) 0xffffffff.

(** [machine Shift]. *)
Definition shift_constraints (r : nat) (c c' : nat -> Z) : Prop :=
  let latch := b2z (Nat.eqb r 3) in
  let factor_row := Z.of_nat ((r + 1) mod 4) in
  (c' ShiftCols.operation_id - c ShiftCols.operation_id) * (1 - latch) ≡p 0 /\
  c' ShiftCols.A ≡p c ShiftCols.A * (1 - latch) + c ShiftCols.A_byte * 2 ^ (factor_row * 8) /\
  (c' ShiftCols.B - c ShiftCols.B) * (1 - latch) ≡p 0 /\
  c' ShiftCols.C ≡p c ShiftCols.C * (1 - latch) + c ShiftCols.C_part /\
  c' ShiftCols.operation_id = c ShiftCols.operation_id_next /\ c' ShiftCols.B = c ShiftCols.B_next /\
  0 <= c ShiftCols.operation_id_next <= 1 /\ in_width 8 (c ShiftCols.A_byte) /\ in_width 5 (c ShiftCols.B_next) /\
  c ShiftCols.C_part = byte_shift (c ShiftCols.operation_id_next) (c ShiftCols.A_byte) (c ShiftCols.B_next) factor_row.

Definition shift_ok (op : SubmachineOp T) : Prop :=
  match lookup_args op with
  | [i; a; b; c] =>
    extra op = [] /\ (to_integer i = 0 \/ to_integer i = 1) /\ to_integer a < 2 ^ 32 /\ to_integer b < 32 /\
    to_integer c = shift_by (to_integer i) (to_integer b) (to_integer a)
  | _ => False
  end.

Lemma shift_by_lor op b x y : shift_by op b (Z.lor x y) = Z.lor (shift_by op b x) (shift_by op b y).
Proof.
  unfold shift_by. rewrite <- !(Z.land_ones _ 32) by lia.
  destruct (op =? 0); rewrite ?Z.shiftl_lor, !Z.land_lor_distr_l, ?Z.shiftr_lor; reflexivity.
Qed.

Lemma shift_by_land op b x y : 0 <= b -> Z.land x y = 0 -> Z.land (shift_by op b x) (shift_by op b y) = 0.
Proof.
  intros Hb Hxy.
  unfold shift_by. rewrite <- !(Z.land_ones _ 32) by lia. apply Z.bits_inj'. intros k Hk. rewrite Z.bits_0.
  assert (Hbit : forall j, Z.testbit x j && Z.testbit y j = false) by (intros j; rewrite <- Z.land_spec, Hxy; apply Z.bits_0).
  destruct (op =? 0).
  - rewrite !Z.land_spec, !Z.shiftl_spec by lia. specialize (Hbit (k - b)). destruct (Z.testbit x (k - b)), (Z.testbit y (k - b)), (Z.testbit (Z.ones 32) k); try easy; reflexivity.
  - rewrite !Z.land_spec, !Z.shiftr_spec, !Z.land_spec by lia. specialize (Hbit (k + b)). destruct (Z.testbit x (k + b)), (Z.testbit y (k + b)), (Z.testbit (Z.ones 32) (k + b)); try easy; reflexivity.
Qed.

(** Shifting distributes over a sum of disjoint parts. *)
Lemma shift_by_add op b x y m : 0 <= b -> 0 <= m -> 0 <= x < 2 ^ m -> shift_by op b (x + Z.shiftl y m) = shift_by op b x + shift_by op b (Z.shiftl y m).
Proof.
  intros Hb Hm Hx. assert (Hd : Z.land x (Z.shiftl y m) = 0).
  { apply Z.bits_inj'. intros k Hk. rewrite Z.land_spec, Z.shiftl_spec, Z.bits_0 by exact Hk. destruct (Z.lt_ge_cases k m) as [Hkm|Hkm].
    - rewrite (Z.testbit_neg_r y) by lia. apply Bool.andb_false_r.
    - destruct (Z.eq_dec x 0) as [->|]; [now rewrite Z.bits_0|]. rewrite (Z.bits_above_log2 x); [reflexivity|lia|]. apply Z.log2_lt_pow2; [lia|].
      eapply Z.lt_le_trans; [apply Hx|]. apply Z.pow_le_mono_r; lia. }
  rewrite (add_disjoint x _ Hd), shift_by_lor. symmetry. apply add_disjoint. now apply shift_by_land.
Qed.

Lemma shiftr_below x b : 0 <= b -> 0 <= x < 2 ^ 32 -> 0 <= Z.shiftr x b < 2 ^ 32.
Proof.
  intros Hb Hx. rewrite Z.shiftr_div_pow2 by exact Hb. pose proof (Z.pow_pos_nonneg 2 b ltac:(lia) Hb) as Hp. split; [apply Z.div_pos; lia|].
  eapply Z.le_lt_trans; [|apply Hx]. apply Z.div_le_upper_bound; [exact Hp|]. generalize dependent (2 ^ b). intros p Hp. nia.
Qed.

Lemma shift_by_width op b x : 0 <= b -> in_width 32 (shift_by op b x).
Proof.
  intros Hb. unfold shift_by, in_width. destruct (op =? 0); [apply Z.mod_pos_bound; lia|]. apply shiftr_below; [exact Hb|]. apply Z.mod_pos_bound. lia.
Qed.

Lemma byte_shift_by op a b i : op = 0 \/ op = 1 -> 0 <= b -> 0 <= i <= 3 ->
  shift_by op b (Z.shiftl (byte_of a i) (8 * i)) = byte_shift op (byte_of a i) b i.
Proof.
  intros Hop Hb Hi. unfold shift_by, byte_shift. change 0xffffffff with (2 ^ 32 - 1). rewrite land_ones_mod by lia. destruct Hop as [-> | ->]; cbn [Z.eqb Pos.eqb].
  - rewrite Z.shiftl_shiftl by lia. do 2 f_equal. lia.
  - replace (i * 8) with (8 * i) by lia. assert (Hs : Z.shiftl (byte_of a i) (8 * i) mod 2 ^ 32 = Z.shiftl (byte_of a i) (8 * i)) by (apply byte_shl_small; lia).
    rewrite Hs. symmetry. apply Z.mod_small. pose proof (byte_shl_range (Z.shiftr a (8 * i)) (8 * i) ltac:(lia)) as Hr. fold (byte_of a i) in Hr.
    apply shiftr_below; lia.
Qed.

Definition shift_block_of (sel : string) : SubmachineOp T -> Block := block_of_args (shift_block sel).

Lemma shift_constraints_ext r c d c' d' : (forall k, (k < 8)%nat -> c k = c' k) -> (forall k, (k < 8)%nat -> d k = d' k) ->
  shift_constraints r c' d' -> shift_constraints r c d.
Proof. intros Hc Hd. unfold shift_constraints. rewrite !(ext_eq _ _ _ Hc) by reflexivity. rewrite !(ext_eq _ _ _ Hd) by reflexivity. auto. Qed.

Lemma shift_low op b a i lo hi : 0 <= b -> 0 <= i -> hi = lo + byte_of a i * 2 ^ (8 * i) -> 0 <= lo < 2 ^ (8 * i) ->
  shift_by op b hi = shift_by op b lo + shift_by op b (Z.shiftl (byte_of a i) (8 * i)).
Proof. intros Hb Hi -> Hlo. rewrite <- Z.shiftl_mul_pow2 by lia. apply shift_by_add; lia. Qed.

Lemma shift_block_constraints sel op sel' op' r row next : shift_ok op -> shift_ok op' -> (r < 4)%nat ->
  block_row 4 (shift_block_of sel op) (shift_block_of sel' op') r = Some row ->
  (if (S r =? 4)%nat then b_rows (shift_block_of sel' op') !! 0%nat else block_row 4 (shift_block_of sel op) (shift_block_of sel' op') (S r)) = Some next ->
  shift_constraints r (row_cell row) (row_cell next).
Proof.
  unfold shift_ok, shift_block_of, block_of_args. destruct (lookup_args op) as [|i [|a [|b [|c [|? ?]]]]]; try easy.
  destruct (lookup_args op') as [|i' [|a' [|b' [|c' [|? ?]]]]]; try easy.
  intros (_ & Hi & Ha & Hb & Hc) (_ & Hi' & Ha' & Hb' & Hc') Hr Hrow Hnext. range a. range b. range a'. range b'.
  destruct r as [|[|[|[|r]]]]; [..|lia]; cbn in Hrow, Hnext; injection Hrow as <-; injection Hnext as <-;
    unfold shift_constraints, row_cell; cbn -[Z.land byte_of Z.pow eqm shift_by byte_shift].
  all: rewrite ?cell_u32 by (apply byte_width || (apply shift_by_width; lia) || (apply low_width; [lia|unfold in_width; lia])).
  all: split; [eqm_lia|].
  - assert (Hlo := byte_range (to_integer a)). rewrite low_two. do 2 (split; [eqm_lia|]).
    split; [apply eqm_of_eq; rewrite Z.mul_1_r; apply (shift_low _ _ (to_integer a) 1); lia|].
    do 5 (split; [apply byte_of_range || (unfold in_width in *; lia)|]). apply (byte_shift_by _ _ _ 1); lia.
  - assert (Hlo := Z.mod_pos_bound (to_integer a) (2 ^ (8 * 2)) ltac:(lia)). rewrite <- (low_bytes _ 2 0xffff) in Hlo by (reflexivity || lia).
    rewrite low_three. do 2 (split; [eqm_lia|]). split; [apply eqm_of_eq; rewrite Z.mul_1_r; apply (shift_low _ _ (to_integer a) 2); lia|].
    do 5 (split; [apply byte_of_range || (unfold in_width in *; lia)|]). apply (byte_shift_by _ _ _ 2); lia.
  - assert (Hlo := Z.mod_pos_bound (to_integer a) (2 ^ (8 * 3)) ltac:(lia)). rewrite <- (low_bytes _ 3 0xffffff) in Hlo by (reflexivity || lia).
    split; [apply eqm_of_eq; etransitivity; [apply byte_of_word; lia|cbn -[Z.land byte_of]; lia]|]. split; [eqm_lia|].
    split; [apply eqm_of_eq; rewrite Hc, Z.mul_1_r; apply (shift_low _ _ (to_integer a) 3); try lia; apply byte_of_word; lia|].
    do 5 (split; [apply byte_of_range || (unfold in_width in *; lia)|]). apply (byte_shift_by _ _ _ 3); lia.
  - do 3 (split; [eqm_lia|]). do 5 (split; [apply (byte_of_range _ 0) || (unfold in_width in *; lia)|]).
    apply (byte_shift_by _ (to_integer a') _ 0); lia.
Qed.

(** *** The split machine *)

(** [machine SplitGL], with [ByteCompare]. *)
Definition split_constraints (r : nat) (c c' : nat -> Z) : Prop :=
  let reset := b2z (Nat.eqb r 7) in
  let reset' := b2z (Nat.eqb ((r + 1) mod 8) 7) in
  let factor_low := nth r [0x100; 0x10000; 0x1000000; 0; 0; 0; 0; 1] 0 in
  let factor_high := nth r [0; 0; 0; 1; 0x100; 0x10000; 0x1000000; 0] 0 in
  let bytes_max := nth r [0; 0; 0; 0xff; 0xff; 0xff; 0xff; 0] 0 in
  c' SplitGlCols.in_acc ≡p (1 - reset) * c SplitGlCols.in_acc + c SplitGlCols.bytes * 2 ^ (Z.of_nat ((r + 1) mod 8) * 8) /\
  c' SplitGlCols.output_low ≡p (1 - reset) * c SplitGlCols.output_low + c SplitGlCols.bytes * factor_low /\
  c' SplitGlCols.output_high ≡p (1 - reset) * c SplitGlCols.output_high + c SplitGlCols.bytes * factor_high /\
  in_width 8 (c SplitGlCols.bytes) /\ c SplitGlCols.lt = b2z (c SplitGlCols.bytes <? bytes_max) /\ c SplitGlCols.gt = b2z (bytes_max <? c SplitGlCols.bytes) /\
  c SplitGlCols.was_lt ≡p reset' * c SplitGlCols.lt +
    (1 - reset') * (c' SplitGlCols.was_lt + c SplitGlCols.lt - c' SplitGlCols.was_lt * c SplitGlCols.lt) /\
  c SplitGlCols.gt * (1 - c SplitGlCols.was_lt) ≡p 0.

(** The two words of a canonical element of Goldilocks. *)
Definition split_ok (op : SubmachineOp T) : Prop :=
  match lookup_args op with
  | [x; lo; hi; z] =>
    extra op = [] /\ to_integer lo < 2 ^ 32 /\ to_integer hi < 2 ^ 32 /\ to_integer hi * 2 ^ 32 + to_integer lo < ORDER /\
    to_integer x ≡p to_integer hi * 2 ^ 32 + to_integer lo
  | _ => False
  end.

Definition split_block_of (sel : string) : SubmachineOp T -> Block := block_of_args (fun _ lo hi _ => split_block sel lo hi).

Lemma split_constraints_ext r c d c' d' : (forall k, (k < 7)%nat -> c k = c' k) -> (forall k, (k < 7)%nat -> d k = d' k) ->
  split_constraints r c' d' -> split_constraints r c d.
Proof. intros Hc Hd. unfold split_constraints. rewrite !(ext_eq _ _ _ Hc) by reflexivity. rewrite !(ext_eq _ _ _ Hd) by reflexivity. auto. Qed.

(** *** Comparison from the most significant byte down *)

Lemma any_lt_cons l l' lt : any_lt (l :: l' :: lt) = Z.max l (nth 0 (any_lt (l' :: lt)) 0) :: any_lt (l' :: lt).
Proof. change (any_lt (l :: l' :: lt)) with (Z.max l (default 0 (head (any_lt (l' :: lt)))) :: any_lt (l' :: lt)). now destruct (any_lt (l' :: lt)). Qed.

Lemma bits_nth l i : bits l -> nth i l 0 = 0 \/ nth i l 0 = 1.
Proof. intros Hb. revert i. induction Hb as [|x l Hx _ IH]; intros [|i]; cbn; auto. Qed.

Lemma any_lt_step lt i : bits lt -> (S i < length lt)%nat ->
  nth i (any_lt lt) 0 = nth (S i) (any_lt lt) 0 + nth i lt 0 - nth (S i) (any_lt lt) 0 * nth i lt 0.
Proof.
  intros Hb. revert i. induction Hb as [|l lt Hl Hlt IH]; intros i Hi; [cbn in Hi; lia|]. destruct lt as [|l' lt]; [cbn in Hi; lia|].
  rewrite any_lt_cons. destruct i as [|i].
  - cbn [nth]. pose proof (bits_nth (any_lt (l' :: lt)) 0 (any_lt_bits _ Hlt)) as Hw. destruct Hl as [-> | ->], Hw as [-> | ->]; reflexivity.
  - apply IH. cbn in *. lia.
Qed.

Lemma any_lt_ge lt i j : bits lt -> (i <= j < length lt)%nat -> nth j lt 0 = 1 -> nth i (any_lt lt) 0 = 1.
Proof.
  intros Hb Hij Hj. assert (Hg : forall d i, (i + d = j)%nat -> nth i (any_lt lt) 0 = 1); [|apply (Hg (j - i)%nat); lia].
  clear i Hij. intros d. induction d as [|d IH]; intros i Hd.
  - replace i with j by lia. destruct (decide (S j < length lt)%nat) as [Hl|Hl].
    + rewrite any_lt_step by assumption. rewrite Hj. lia.
    + assert (Hlen : (j < length lt)%nat). { destruct (decide (j < length lt)%nat) as [|Hn]; [assumption|]. rewrite nth_overflow in Hj by lia. lia. }
      clear Hd i. revert j Hj Hl Hlen. induction Hb as [|l lt Hx Hlt IH]; intros j Hj Hl Hlen; [cbn in Hlen; lia|]. destruct lt as [|l' lt].
      * cbn in *. destruct j; [exact Hj|lia].
      * rewrite any_lt_cons. destruct j as [|j]; [cbn in Hl; lia|]. apply IH; cbn in *; (exact Hj || lia).
  - assert (Hl : (S i < length lt)%nat). { destruct (decide (j < length lt)%nat) as [|Hn]; [lia|]. rewrite nth_overflow in Hj by lia. lia. }
    rewrite any_lt_step by assumption. rewrite (IH (S i)) by lia. destruct (bits_nth lt i Hb) as [-> | ->]; lia.
Qed.

Section Bytes.
Variables lo hi : Z.
Hypothesis (lo_word : 0 <= lo < 2 ^ 32) (hi_word : 0 <= hi < 2 ^ 32).
Notation b := (split_bytes lo hi).

Lemma split_byte_range k : 0 <= nth k b 0 < 256.
Proof. do 8 (destruct k as [|k]; [apply byte_of_range|]). destruct k; cbn; lia. Qed.

Lemma split_lt k : (k < 8)%nat -> nth k (byte_lt b) 0 = b2z (nth k b 0 <? nth k BYTES_MAX 0).
Proof. intros Hk. do 8 (destruct k as [|k]; [reflexivity|]). lia. Qed.

Lemma split_gt k : (k < 8)%nat -> nth k (byte_gt b) 0 = b2z (nth k BYTES_MAX 0 <? nth k b 0).
Proof. intros Hk. do 8 (destruct k as [|k]; [reflexivity|]). lia. Qed.

Lemma bytes_of_word v : 0 <= v < 2 ^ 32 -> v = byte_of v 0 + byte_of v 1 * 2 ^ 8 + byte_of v 2 * 2 ^ 16 + byte_of v 3 * 2 ^ 24.
Proof. intros Hv. rewrite (byte_of_word v) at 1 by exact Hv. rewrite low_three, low_two. change (byte_of v 0) with (Z.land v 0xff). lia. Qed.

(** A byte above the maximum's comes with a smaller one above it. *)
Lemma gt_covered k : hi * 2 ^ 32 + lo < ORDER -> (k < 8)%nat -> nth k (byte_gt b) 0 * (1 - nth k (any_lt (byte_lt b)) 0) = 0.
Proof.
  intros Hc Hk. assert (Hcov : nth k (byte_gt b) 0 = 1 -> nth k (any_lt (byte_lt b)) 0 = 1).
  2: { destruct (bits_nth (byte_gt b) k) as [-> | Hg]; [unfold bits, byte_gt; apply List.Forall_forall; intros x Hx; apply list_elem_of_In, elem_of_lookup_zip_with in Hx as (i & y & m & -> & _ & _); destruct (m <? y); cbn; auto|lia|].
       rewrite (Hcov Hg). lia. }
  rewrite split_gt by exact Hk. intros Hg. destruct (decide (4 <= k)%nat) as [H4|H4].
  { pose proof (split_byte_range k) as Hr. assert (Hm : nth k BYTES_MAX 0 = 255) by (do 4 (destruct k as [|k]; [lia|]); do 4 (destruct k as [|k]; [reflexivity|]); lia).
    rewrite Hm in Hg. destruct (Z.ltb_spec 255 (nth k b 0)); cbn in Hg; lia. }
  assert (Hlo : 0 < lo). { destruct (Z.eq_dec lo 0) as [->|]; [|lia]. do 4 (destruct k as [|k]; [vm_compute in Hg; discriminate|]). lia. }
  assert (Hhi : hi < 2 ^ 32 - 1) by (unfold ORDER, goldilocks_order in Hc; lia).
  assert (Hj : exists j, (4 <= j < 8)%nat /\ nth j b 0 < 255).
  { destruct (Z.lt_ge_cases (nth 4 b 0) 255); [exists 4%nat; split; [lia|assumption]|]. destruct (Z.lt_ge_cases (nth 5 b 0) 255); [exists 5%nat; split; [lia|assumption]|].
    destruct (Z.lt_ge_cases (nth 6 b 0) 255); [exists 6%nat; split; [lia|assumption]|]. destruct (Z.lt_ge_cases (nth 7 b 0) 255); [exists 7%nat; split; [lia|assumption]|].
    exfalso. pose proof (bytes_of_word hi hi_word) as Hw. change (byte_of hi 0) with (nth 4 b 0) in Hw. change (byte_of hi 1) with (nth 5 b 0) in Hw.
    change (byte_of hi 2) with (nth 6 b 0) in Hw. change (byte_of hi 3) with (nth 7 b 0) in Hw. lia. }
  destruct Hj as (j & Hj & Hlt). apply (any_lt_ge _ k j); [apply byte_lt_bits|cbn; lia|]. rewrite split_lt by lia.
  assert (Hm : nth j BYTES_MAX 0 = 255) by (do 4 (destruct j as [|j]; [lia|]); do 4 (destruct j as [|j]; [reflexivity|]); lia).
  rewrite Hm. now destruct (Z.ltb_spec (nth j b 0) 255); [|lia].
Qed.

End Bytes.

Lemma cell_u64 v : in_width 64 v -> to_integer (from_u64 (T:=T) v) ≡p v.
Proof. intros Hv. rewrite from_u64_spec by exact Hv. apply eqm_mod. Qed.

Lemma hi_and_lo_value h l : 0 <= h < 2 ^ 32 -> 0 <= l < 2 ^ 32 -> to_integer (hi_and_lo (T:=T) h l) ≡p h * 2 ^ 32 + l.
Proof.
  intros Hh Hl. assert (Hd : Z.lor (Z.shiftl h 32) l = h * 2 ^ 32 + l).
  { rewrite <- add_disjoint; [now rewrite Z.shiftl_mul_pow2 by lia|]. rewrite Z.land_comm. apply Z.bits_inj'. intros k Hk. rewrite Z.land_spec, Z.shiftl_spec, Z.bits_0 by exact Hk.
    destruct (Z.lt_ge_cases k 32) as [Hk32|Hk32]; [rewrite (Z.testbit_neg_r h) by lia; apply Bool.andb_false_r|].
    destruct (Z.eq_dec l 0) as [->|]; [now rewrite Z.bits_0|]. rewrite (Z.bits_above_log2 l); [reflexivity|lia|]. apply Z.log2_lt_pow2; [lia|].
    eapply Z.lt_le_trans; [apply Hl|]. apply Z.pow_le_mono_r; lia. }
  unfold hi_and_lo. rewrite Hd. apply cell_u64. unfold in_width. lia.
Qed.

Lemma bit_width z : z = 0 \/ z = 1 -> in_width 32 z.
Proof. unfold in_width. lia. Qed.

Lemma cell_zero : to_integer (from_int (T:=T) 0) = 0.
Proof. apply f_zero_int. Qed.

(** The accumulated outputs in row [r] of a block. *)
Definition low_part (lo : Z) (r : nat) : Z := nth r [Z.land lo 0xff; Z.land lo 0xffff; Z.land lo 0xffffff] lo.
Definition high_part (hi : Z) (r : nat) : Z := nth r [0; 0; 0; 0; Z.land hi 0xff; Z.land hi 0xffff; Z.land hi 0xffffff] hi.

(** A row shows its outputs and byte [k] of the words [lo] and [hi]. *)
Record shows (c : nat -> Z) (low high : Z) (lo hi : Z) (k : nat) : Prop := {
  shows_low : c SplitGlCols.output_low ≡p low;
  shows_high : c SplitGlCols.output_high ≡p high;
  shows_acc : c SplitGlCols.in_acc ≡p high * 2 ^ 32 + low;
  shows_byte : c SplitGlCols.bytes = nth k (split_bytes lo hi) 0;
  shows_lt : c SplitGlCols.lt = nth k (byte_lt (split_bytes lo hi)) 0;
  shows_gt : c SplitGlCols.gt = nth k (byte_gt (split_bytes lo hi)) 0;
  shows_was : c SplitGlCols.was_lt = nth k (any_lt (byte_lt (split_bytes lo hi))) 0
}.

Lemma byte_cells lo hi k : to_integer (from_u32 (T:=T) (nth k (split_bytes lo hi) 0)) = nth k (split_bytes lo hi) 0 /\
  to_integer (from_u32 (T:=T) (nth k (byte_lt (split_bytes lo hi)) 0)) = nth k (byte_lt (split_bytes lo hi)) 0 /\
  to_integer (from_u32 (T:=T) (nth k (byte_gt (split_bytes lo hi)) 0)) = nth k (byte_gt (split_bytes lo hi)) 0 /\
  to_integer (from_u32 (T:=T) (nth k (any_lt (byte_lt (split_bytes lo hi))) 0)) = nth k (any_lt (byte_lt (split_bytes lo hi))) 0.
Proof.
  assert (Hg : bits (byte_gt (split_bytes lo hi))).
  { unfold bits, byte_gt. apply List.Forall_forall. intros x Hx. apply list_elem_of_In, elem_of_lookup_zip_with in Hx as (i & y & m & -> & _ & _). destruct (m <? y); cbn; auto. }
  pose proof (split_byte_range lo hi k). repeat split; apply cell_u32; try solve [apply bit_width, bits_nth; auto using byte_lt_bits, any_lt_bits]. unfold in_width. lia.
Qed.

Lemma value_row_shows lo hi (low high : Z) (lowT highT acc : T) k : to_integer lowT ≡p low -> to_integer highT ≡p high -> to_integer acc ≡p high * 2 ^ 32 + low ->
  shows (row_cell (split_value_row lo hi lowT highT acc k)) low high lo hi k.
Proof. intros Hl Hh Ha. destruct (byte_cells lo hi k) as (H1 & H2 & H3 & H4). split; assumption. Qed.

Lemma last_row_shows lo hi (low high : Z) (lowT highT acc : T) : to_integer lowT ≡p low -> to_integer highT ≡p high -> to_integer acc ≡p high * 2 ^ 32 + low ->
  shows (row_cell (set_cells (split_values lo hi 0) (new_row 7 [(SplitGlCols.output_low, lowT); (SplitGlCols.output_high, highT); (SplitGlCols.in_acc, acc)]))) low high lo hi 0.
Proof. intros Hl Hh Ha. destruct (byte_cells lo hi 0) as (H1 & H2 & H3 & H4). split; assumption. Qed.

(** The accumulation of one byte. *)
Lemma shows_constraints r c c' low high low' high' lo hi k lo' hi' k' : 0 <= lo < 2 ^ 32 -> 0 <= hi < 2 ^ 32 -> hi * 2 ^ 32 + lo < ORDER ->
  shows c low high lo hi k -> shows c' low' high' lo' hi' k' -> (r < 8)%nat -> k = ((r + 1) mod 8)%nat ->
  (k <> 7%nat -> lo' = lo /\ hi' = hi /\ k' = S k) ->
  low' = (1 - b2z (Nat.eqb r 7)) * low + nth k (split_bytes lo hi) 0 * nth r [0x100; 0x10000; 0x1000000; 0; 0; 0; 0; 1] 0 ->
  high' = (1 - b2z (Nat.eqb r 7)) * high + nth k (split_bytes lo hi) 0 * nth r [0; 0; 0; 1; 0x100; 0x10000; 0x1000000; 0] 0 ->
  split_constraints r c c'.
Proof.
  intros Hlo Hhi Hcan [S1 S2 S3 S4 S5 S6 S7] [S1' S2' S3' _ _ _ S7'] Hr Hk Hnext Hlow Hhigh. unfold split_constraints. rewrite <- Hk.
  assert (Hk8 : (k < 8)%nat) by (subst k; apply Nat.mod_upper_bound; lia).
  assert (Hmax : nth r [0; 0; 0; 0xff; 0xff; 0xff; 0xff; 0] 0 = nth k BYTES_MAX 0) by (subst k; clear - Hr; do 8 (destruct r as [|r]; [reflexivity|]); lia).
  assert (Hf : 2 ^ (Z.of_nat k * 8) = nth r [0; 0; 0; 1; 0x100; 0x10000; 0x1000000; 0] 0 * 2 ^ 32 + nth r [0x100; 0x10000; 0x1000000; 0; 0; 0; 0; 1] 0)
    by (subst k; clear - Hr; do 8 (destruct r as [|r]; [reflexivity|]); lia).
  split; [rewrite S3', S3, S4, Hf, Hlow, Hhigh; eqm_lia|]. split; [rewrite S1', S1, S4, Hlow; eqm_lia|]. split; [rewrite S2', S2, S4, Hhigh; eqm_lia|].
  rewrite Hmax, S4, S5, S6, S7, S7'. split; [apply split_byte_range|]. split; [now apply split_lt|]. split; [now apply split_gt|]. split.
  - apply eqm_of_eq. destruct (Nat.eqb_spec k 7) as [->|Hk7]; cbn [b2z].
    + rewrite Z.mul_1_l, Z.sub_diag, Z.mul_0_l, Z.add_0_r. reflexivity.
    + destruct (Hnext Hk7) as (-> & -> & ->). rewrite (any_lt_step (byte_lt (split_bytes lo hi)) k); [lia|apply byte_lt_bits|]. unfold byte_lt. rewrite length_zip_with. cbn. lia.
  - apply eqm_of_eq. now apply gt_covered.
Qed.

Lemma low_cell v m : 0 <= v < 2 ^ 32 -> in_width 32 m -> to_integer (from_u64 (T:=T) (Z.land v m)) ≡p Z.land v m.
Proof. intros Hv Hm. apply cell_u64. pose proof (low_width v m (proj1 Hv) Hm). unfold in_width in *. lia. Qed.

Lemma split_row_shows sel sel' (x y x2 y2 : T) r row : to_integer x < 2 ^ 32 -> to_integer y < 2 ^ 32 -> (r < 8)%nat ->
  block_row 8 (split_block sel x y) (split_block sel' x2 y2) r = Some row ->
  shows (row_cell row) (low_part (to_integer x) r) (high_part (to_integer y) r)
    (if (r =? 7)%nat then to_integer x2 else to_integer x) (if (r =? 7)%nat then to_integer y2 else to_integer y) ((r + 1) mod 8).
Proof.
  intros Hx Hy Hr Hrow. range x. range y.
  assert (Hlow : forall m, in_width 32 m -> to_integer (from_u64 (T:=T) (Z.land (to_integer x) m)) ≡p Z.land (to_integer x) m) by (intros; apply low_cell; [lia|assumption]).
  assert (Hhigh : forall m, in_width 32 m -> to_integer (from_u64 (T:=T) (Z.land (to_integer y) m)) ≡p Z.land (to_integer y) m) by (intros; apply low_cell; [lia|assumption]).
  assert (Hw : forall m, in_width 32 m -> 0 <= Z.land (to_integer y) m < 2 ^ 32) by (intros m Hm; apply low_width; [lia|exact Hm]).
  assert (Hv : to_integer (from_u64 (T:=T) (to_integer x)) ≡p to_integer x) by (apply cell_u64; unfold in_width; lia).
  assert (Hv' : to_integer (from_u64 (T:=T) (to_integer y)) ≡p to_integer y) by (apply cell_u64; unfold in_width; lia).
  assert (Hz : to_integer (from_int (T:=T) 0) ≡p 0) by (apply eqm_of_eq, cell_zero).
  unfold in_width in *. do 7 (destruct r as [|r]; [apply Some_inj in Hrow; subst row; apply value_row_shows; unfold low_part, high_part; cbn [nth];
    first [assumption|apply Hlow; lia|apply Hhigh; lia
      |rewrite Z.mul_0_l, Z.add_0_l; (assumption || (apply Hlow; lia))
      |apply hi_and_lo_value; [apply Hw|]; lia]|]).
  destruct r as [|r]; [|lia]. apply Some_inj in Hrow. subst row. apply last_row_shows; [exact Hv|exact Hv'|].
  apply (hi_and_lo_value (to_integer y) (to_integer x)); lia.
Qed.

Lemma low_part_step lo hi r : 0 <= lo < 2 ^ 32 -> (r < 7)%nat ->
  low_part lo (S r) = low_part lo r + nth (S r) (split_bytes lo hi) 0 * nth r [0x100; 0x10000; 0x1000000; 0; 0; 0; 0; 1] 0.
Proof.
  intros Hlo Hr. unfold low_part. destruct r as [|[|[|r]]]; cbn -[Z.land byte_of].
  - rewrite low_two. reflexivity.
  - rewrite low_three. reflexivity.
  - now apply byte_of_word.
  - do 4 (destruct r as [|r]; [cbn -[Z.land byte_of]; lia|]). lia.
Qed.

Lemma high_part_step lo hi r : 0 <= hi < 2 ^ 32 -> (r < 7)%nat ->
  high_part hi (S r) = high_part hi r + nth (S r) (split_bytes lo hi) 0 * nth r [0; 0; 0; 1; 0x100; 0x10000; 0x1000000; 0] 0.
Proof.
  intros Hhi Hr. unfold high_part. do 3 (destruct r as [|r]; [cbn -[Z.land byte_of]; lia|]). destruct r as [|[|[|[|r]]]]; cbn -[Z.land byte_of]; [..|lia].
  - change (byte_of hi 0) with (Z.land hi 255). lia.
  - rewrite low_two. reflexivity.
  - rewrite low_three. reflexivity.
  - now apply byte_of_word.
Qed.

Lemma split_block_constraints sel op sel' op' r row next : split_ok op -> split_ok op' -> (r < 8)%nat ->
  block_row 8 (split_block_of sel op) (split_block_of sel' op') r = Some row ->
  (if (S r =? 8)%nat then b_rows (split_block_of sel' op') !! 0%nat else block_row 8 (split_block_of sel op) (split_block_of sel' op') (S r)) = Some next ->
  split_constraints r (row_cell row) (row_cell next).
Proof.
  unfold split_ok, split_block_of, block_of_args. destruct (lookup_args op) as [|x [|l [|h [|z [|? ?]]]]]; try easy.
  destruct (lookup_args op') as [|x' [|l' [|h' [|z' [|? ?]]]]]; try easy.
  intros (_ & Hl & Hh & Hc & _) (_ & Hl' & Hh' & Hc' & _) Hr Hrow Hnext. range l. range h. range l'. range h'.
  apply split_row_shows in Hrow; [|assumption..]. destruct (Nat.eqb_spec r 7) as [->|Hr7].
  - change (S 7 =? 8)%nat with true in Hnext. cbv iota in Hnext.
    assert (Hn : block_row 8 (split_block sel' l' h') (split_block sel' l' h') 0 = Some next) by exact Hnext.
    apply split_row_shows in Hn; [|assumption || lia..].
    eapply shows_constraints; [..|exact Hrow|exact Hn|lia|reflexivity| | |]; [lia|lia|exact Hc'|split; [reflexivity|split; reflexivity]|..];
      unfold low_part, high_part; cbn -[Z.land byte_of]; change (byte_of (to_integer l') 0) with (Z.land (to_integer l') 255); lia.
  - destruct (Nat.eqb_spec (S r) 8) as [E|_]; [lia|]. apply split_row_shows in Hnext; [|assumption || lia..].
    assert (Hk : ((r + 1) mod 8 = S r)%nat) by (rewrite Nat.mod_small; lia).
    eapply shows_constraints; [..|exact Hrow|exact Hnext|lia|reflexivity| | |]; [lia|lia|exact Hc|..]; rewrite ?Hk.
    + intros Hr6. destruct (Nat.eqb_spec (S r) 7); [lia|]. rewrite Nat.mod_small by lia. split; [reflexivity|split; [reflexivity|lia]].
    + destruct (Nat.eqb_spec r 7); [lia|]. cbn [b2z]. rewrite (low_part_step _ (to_integer h)) by lia. lia.
    + destruct (Nat.eqb_spec r 7); [lia|]. cbn [b2z]. rewrite (high_part_step (to_integer l)) by lia. lia.
Qed.

End Constraints.

(** ** The three machines *)

Inductive block_machine := MBinary | MShift | MSplit.

Section ThreeMachines.
Context {T : Type} `{LL : LargeFieldLaws T}.

Definition kind_of (m : block_machine) : SubmachineKind T := match m with MBinary => BinaryMachine | MShift => ShiftMachine | MSplit => SplitGlMachine end.
Definition block_rows (m : block_machine) : nat := match m with MSplit => 8 | _ => 4 end.
Definition block_keys_of (m : block_machine) : list nat := match m with MBinary => [0; 1; 2; 7] | MShift => [0; 2; 7; 1] | MSplit => [3; 4; 5; 6] end%nat.

(** The operations of the machine, its constraints and the blocks they hold in. *)
Definition machine_ok (m : block_machine) : SubmachineOp T -> Prop := match m with MBinary => binary_ok | MShift => shift_ok | MSplit => split_ok end.
Definition machine_constraints (m : block_machine) : nat -> (nat -> Z) -> (nat -> Z) -> Prop :=
  match m with MBinary => binary_constraints | MShift => shift_constraints | MSplit => split_constraints (T:=T) end.
Definition machine_block (m : block_machine) : string -> SubmachineOp T -> Block (T:=T) :=
  match m with MBinary => binary_block_of | MShift => shift_block_of | MSplit => split_block_of end.

(** The columns of the operation of the machine, and the arguments that must be found there. *)
Definition link_cols (m : block_machine) : list nat :=
  match m with
  | MBinary => [BinaryCols.operation_id; BinaryCols.A; BinaryCols.B; BinaryCols.C]
  | MShift => [ShiftCols.operation_id; ShiftCols.A; ShiftCols.B; ShiftCols.C]
  | MSplit => [SplitGlCols.in_acc; SplitGlCols.output_low; SplitGlCols.output_high]
  end.
Definition link_args (m : block_machine) (op : SubmachineOp T) : list T :=
  match m with MSplit => take 3 (lookup_args op) | _ => lookup_args op end.

Lemma cols_of_machine m : (0 < length (kind_cols (kind_of m)) < 256)%nat.
Proof. destruct m; cbn; lia. Qed.

Lemma keys_of_machine m : NoDup (block_keys_of m) /\ Forall (fun c => (c < length (kind_cols (kind_of m)))%nat) (block_keys_of m).
Proof. destruct m; (split; [cols_nodup|cols_lt]). Qed.

Lemma size_of_machine m : (1 < block_rows m)%nat /\ BLOCK_SIZE (kind_of m) = Z.of_nat (block_rows m).
Proof. destruct m; (split; [cbn; lia|reflexivity]). Qed.

Lemma set_cells_wide (cvs : list (nat * T)) n : length (new_row n cvs) = n.
Proof. unfold new_row. now rewrite set_cells_length, length_replicate. Qed.

Lemma op_of_machine m ns names sel op : machine_ok m op -> only_column_name sel ∈ names ->
  block_ok (kind_cols (kind_of m)) names (block_rows m) (block_keys_of m) (machine_block m sel op) /\
  b_sel (machine_block m sel op) = only_column_name sel /\
  adds ns (kind_cols (kind_of m)) names (block_rows m) (latch_mark (block_rows m))
    (add_operation (kind_of m) (Some sel) (lookup_args op) (extra op)) (machine_block m sel op).
Proof.
  intros Hok Hs. destruct m; cbn [machine_ok] in Hok.
  - unfold binary_ok in Hok. cbn [machine_block]. unfold binary_block_of, block_of_args.
    destruct (lookup_args op) as [|i [|a [|b [|c [|? ?]]]]]; try easy. destruct Hok as (-> & _ & Ha & Hb & Hc).
    assert (Hcw : to_integer c < 2 ^ 32) by (rewrite Hc; range a; range b; apply (binary_fun_width (to_integer i)); unfold in_width; lia).
    split; [|split; [reflexivity|now apply binary_adds]].
    split; [reflexivity| |reflexivity|exact Hs]. repeat (apply List.Forall_cons; [apply set_cells_wide|]). apply List.Forall_nil.
  - unfold shift_ok in Hok. cbn [machine_block]. unfold shift_block_of, block_of_args.
    destruct (lookup_args op) as [|i [|a [|b [|c [|? ?]]]]]; try easy. destruct Hok as (-> & Hi & Ha & Hb & _).
    split; [|split; [reflexivity|now apply shift_adds]].
    split; [reflexivity| |reflexivity|exact Hs]. repeat (apply List.Forall_cons; [apply set_cells_wide|]). apply List.Forall_nil.
  - unfold split_ok in Hok. cbn [machine_block]. unfold split_block_of, block_of_args.
    destruct (lookup_args op) as [|x [|l [|h [|z [|? ?]]]]]; try easy. destruct Hok as (-> & Hl & Hh & _).
    split; [|split; [reflexivity|now apply split_adds]].
    split; [reflexivity| |reflexivity|exact Hs]. repeat (apply List.Forall_cons; [apply set_cells_wide|]). apply List.Forall_nil.
Qed.

Lemma constraints_of_machine_ext m r c d c' d' : (forall k, (k < length (kind_cols (kind_of m)))%nat -> c k = c' k) ->
  (forall k, (k < length (kind_cols (kind_of m)))%nat -> d k = d' k) -> machine_constraints m r c' d' -> machine_constraints m r c d.
Proof. destruct m; [apply binary_constraints_ext|apply shift_constraints_ext|apply split_constraints_ext]. Qed.

Lemma constraints_of_machine m sel op sel' op' r row next : machine_ok m op -> machine_ok m op' -> (r < block_rows m)%nat ->
  block_row (block_rows m) (machine_block m sel op) (machine_block m sel' op') r = Some row ->
  (if (S r =? block_rows m)%nat then b_rows (machine_block m sel' op') !! 0%nat else block_row (block_rows m) (machine_block m sel op) (machine_block m sel' op') (S r)) = Some next ->
  machine_constraints m r (row_cell row) (row_cell next).
Proof. destruct m; [apply binary_block_constraints|apply shift_block_constraints|apply split_block_constraints]. Qed.

Lemma link_row m sel op row : machine_ok m op -> b_rows (machine_block m sel op) !! (block_rows m - 1)%nat = Some row ->
  row_cell row <$> link_cols m = to_integer <$> link_args m op /\ Forall (fun k => (k < length (kind_cols (kind_of m)))%nat /\ k ∉ block_keys_of m) (link_cols m).
Proof.
  intros Hok Hrow. split.
  2: { apply (bool_decide_unpack _). destruct m; vm_compute; exact I. }
  destruct m; cbn [machine_ok] in Hok.
  - unfold binary_ok in Hok. revert Hrow. cbn [machine_block]. unfold binary_block_of, block_of_args, link_args.
    destruct (lookup_args op) as [|i [|a [|b [|c [|? ?]]]]]; try easy. intros Hrow. apply Some_inj in Hrow. now subst row.
  - unfold shift_ok in Hok. revert Hrow. cbn [machine_block]. unfold shift_block_of, block_of_args, link_args.
    destruct (lookup_args op) as [|i [|a [|b [|c [|? ?]]]]]; try easy. intros Hrow. apply Some_inj in Hrow. now subst row.
  - unfold split_ok in Hok. revert Hrow. cbn [machine_block]. unfold split_block_of, block_of_args, link_args.
    destruct (lookup_args op) as [|x [|l [|h [|z [|? ?]]]]]; try easy. intros Hrow. apply Some_inj in Hrow. subst row.
    destruct Hok as (_ & Hl & Hh & Hc & Hx). range l. range h. unfold in_width in *.
    assert (E : forall v : T, to_integer v < 2 ^ 32 -> from_u64 (to_integer v) = v).
    { intros v Hv. range v. apply f_eqm_eq. rewrite from_u64_spec by (unfold in_width; lia). apply eqm_mod. }
    assert (Ea : hi_and_lo (T:=T) (to_integer h) (to_integer l) = x).
    { apply f_eqm_eq. etransitivity; [apply hi_and_lo_value; lia|]. now symmetry. }
    rewrite Ea, !E by assumption. reflexivity.
Qed.

Lemma new_selectors_lookup (sels : list string) s :
  (list_to_map ((fun n => (n, [])) <$> sels) : gmap string (list T)) !! s = if decide (s ∈ list_to_set (C:=gset string) sels) then Some [] else None.
Proof.
  induction sels as [|x sels IH]; [reflexivity|]. cbn [fmap list_fmap list_to_map foldr fst snd list_to_set].
  destruct (decide (s = x)) as [->|Hn].
  - rewrite lookup_insert_eq. rewrite decide_True by set_solver. reflexivity.
  - rewrite lookup_insert_ne by congruence. cbn in IH. rewrite IH. repeat case_decide; set_solver.
Qed.


End ThreeMachines.

Definition gl (z : Z) : GoldilocksField := from_int z.

Definition split_run : list (SubmachineOp GoldilocksField) :=
  [mkOp 0 [gl 0x123456789; gl 0x23456789; gl 1; gl 0] []; mkOp 0 [gl (-1); gl 0; gl 0xffffffff; gl 0] []].

