(* ===== verification/MerkleTree.v ===== *)
(** * The Merkle tree of memory pages, [riscv/src/continuations/memory_merkle_tree.rs]

    The tree and its operations, its invariant (every node is the hash of the pages below it),
    and what [update], [update_page] and [get] do in terms of the memory. *)

From Stdlib Require Import ZArith NArith Lia.
From stdpp Require Import base list option gmap sorting.
From S2P Require Import Prelude Field RiscvElem RiscvPoseidon PanicMonad.

Section Merkle.
Context {T : Type} `{LargeField T}.
Variables N_LEVELS WORDS_PER_PAGE : nat.

(** [hashes] holds the nodes that differ from the default, by level (0 is the root) and index. *)
Record MerkleTree := mkTree {
  hashes : gmap (nat * N) (list T);
  data : gmap N (list T);
  default_hashes : list (list T);
  zero_page : list T
}.

Definition set_hashes h (t : MerkleTree) : MerkleTree := mkTree h (data t) (default_hashes t) (zero_page t).
Definition set_data d (t : MerkleTree) : MerkleTree := mkTree (hashes t) d (default_hashes t) (zero_page t).

Definition hash_cap0 (data1 data2 : list T) : option (list T) := poseidon_gl (data1 ++ data2 ++ replicate 4 f_zero).

(** [dedup] of [Vec]: only neighbours are compared. *)
Fixpoint dedup (l : list N) : list N :=
  match l with
  | x :: ((y :: _) as l') => if (x =? y)%N then dedup l' else x :: dedup l'
  | _ => l
  end.

Definition level_up (ordered_indices : list N) : list N := dedup ((fun i => N.shiftr i 1) <$> ordered_indices).

Fixpoint hash_chunks (hash page : list T) : option (list T) :=
  match page with
  | a :: b :: c :: d :: page' => h ← hash_cap0 hash [a; b; c; d]; hash_chunks h page'
  | _ => Some hash
  end.

Definition hash_page (page : list T) : option (list T) := hash_chunks (replicate 4 f_zero) page.

Definition zeroed : list T := replicate WORDS_PER_PAGE f_zero.

(** The first [n] of the successive default hashes, leaves first. *)
Fixpoint default_successors (n : nat) (hash : list T) : option (list (list T)) :=
  match n with
  | O => Some []
  | S O => Some [hash]
  | S n' => h ← hash_cap0 hash hash; rest ← default_successors n' h; Some (hash :: rest)
  end.

Definition default_hashes_per_level : option (list (list T)) :=
  _ ← assert_that (N_LEVELS <=? 64)%nat;
  h ← hash_page zeroed;
  result ← default_successors N_LEVELS h;
  Some (rev result).

Definition new : option MerkleTree := d ← default_hashes_per_level; Some (mkTree ∅ ∅ d zeroed).

(** A [BTreeMap] from pages to their updates, as the list of its entries in order. *)
Fixpoint entry_push (page : N) (u : nat * Z) (m : list (N * list (nat * Z))) : list (N * list (nat * Z)) :=
  match m with
  | [] => [(page, [u])]
  | (p, us) :: m' =>
    if (page <? p)%N then (page, [u]) :: m
    else if (page =? p)%N then (p, us ++ [u]) :: m'
    else (p, us) :: entry_push page u m'
  end.

Definition organize_update (m : list (N * list (nat * Z))) (update : N * Z) : option (list (N * list (nat * Z))) :=
  let '(addr, value) := update in
  _ ← assert_that (addr mod 4 =? 0)%N;
  let word_index := (addr / 4)%N in
  let page_index := (word_index / N.of_nat WORDS_PER_PAGE)%N in
  let index_within_page := N.to_nat (word_index - page_index * N.of_nat WORDS_PER_PAGE) in
  Some (entry_push page_index (index_within_page, value) m).

Fixpoint organize_updates (m : list (N * list (nat * Z))) (updates : list (N * Z)) : option (list (N * list (nat * Z))) :=
  match updates with
  | [] => Some m
  | u :: updates' => m' ← organize_update m u; organize_updates m' updates'
  end.

Definition organize_updates_by_page (updates : list (N * Z)) : option (list (N * list (nat * Z))) := organize_updates [] updates.

(** [page[index] = value], which panics out of range. *)
Fixpoint write_page (updates : list (nat * Z)) (page : list T) : option (list T) :=
  match updates with
  | [] => Some page
  | (index, value) :: updates' => _ ← page !! index; write_page updates' (<[index := from_u32 value]> page)
  end.

Definition update_page_impl (page_index : N) (updates : list (nat * Z)) : M MerkleTree unit :=
  d ← gets data;
  page ← lift (write_page updates (default zeroed (d !! page_index)));
  modify (set_data (<[page_index := page]> d)).

Definition get_hash (level : nat) (index : N) (t : MerkleTree) : option (list T) :=
  _ ← assert_that (level <? N_LEVELS)%nat;
  _ ← assert_that (index <? 2 ^ N.of_nat level)%N;
  match hashes t !! (level, index) with Some h => Some h | None => default_hashes t !! level end.

Definition gets_hash (level : nat) (index : N) : M MerkleTree (list T) := t ← gets id; lift (get_hash level index t).

Definition update_leaf_hash (page_index : N) : M MerkleTree unit :=
  d ← gets data;
  page ← lift (d !! page_index);
  h ← lift (hash_page page);
  modify (fun t => set_hashes (<[((N_LEVELS - 1)%nat, page_index) := h]> (hashes t)) t).

Definition update_inner_hash (level : nat) (index : N) : M MerkleTree unit :=
  left ← gets_hash (level + 1) (index * 2);
  right ← gets_hash (level + 1) (index * 2 + 1);
  h ← lift (hash_cap0 left right);
  modify (fun t => set_hashes (<[(level, index) := h]> (hashes t)) t).

(** The loop over the levels, from the one above the leaves to the root. *)
Fixpoint update_levels (levels : list nat) (updated_indices : list N) : M MerkleTree unit :=
  match levels with
  | [] => mret tt
  | level :: levels' =>
    let updated_indices := level_up updated_indices in
    for_each (update_inner_hash level) updated_indices;;
    update_levels levels' updated_indices
  end.

Definition update_leaf (page : N * list (nat * Z)) : M MerkleTree unit := update_page_impl (fst page) (snd page);; update_leaf_hash (fst page).

Definition update (updates : list (N * Z)) : M MerkleTree unit :=
  pages ← lift (organize_updates_by_page updates);
  for_each update_leaf pages;;
  update_levels (rev (seq 0 (N_LEVELS - 1))) (fst <$> pages).

(** The nodes from a page to the root. *)
Definition iter_path (page_index : N) : list (nat * N) :=
  (fun level => (level, N.shiftr page_index (N.of_nat (N_LEVELS - level - 1)))) <$> rev (seq 0 N_LEVELS).

Definition update_hashes (page_index : N) : M MerkleTree unit :=
  update_leaf_hash page_index;;
  for_each (fun node => update_inner_hash (fst node) (snd node)) (tail (iter_path page_index)).

Definition update_page (page_index : N) (updates : list (nat * Z)) : M MerkleTree unit :=
  update_page_impl page_index updates;; update_hashes page_index.

Definition root_hash (t : MerkleTree) : option (list T) := get_hash 0 0 t.

(** The page, its hash and the hashes of the siblings on its path. *)
Definition get (page_index : N) (t : MerkleTree) : option (list T * list T * list (list T)) :=
  proof ← mapM (fun node => get_hash (fst node) (N.lxor (snd node) 1) t) (take (N_LEVELS - 1) (iter_path page_index));
  _ ← assert_that (Nat.eqb (length proof) (N_LEVELS - 1));
  page_hash ← get_hash (N_LEVELS - 1) page_index t;
  Some (default (zero_page t) (data t !! page_index), page_hash, proof).

End Merkle.

(** ** The hash returns *)

Section PoseidonTotal.
Context {T : Type} `{LargeField T}.

Lemma round_constant_total i round : (i < 12)%nat -> (round < 30)%nat -> is_Some (round_constant (T:=T) i round).
Proof.
  intros Hi Hr. unfold round_constant. destruct (lookup_lt_is_Some_2 ROUND_CONSTANTS i Hi) as [r Hrow]. rewrite Hrow. cbn [mbind option_bind].
  assert (Hl : length r = 30%nat).
  { assert (Hf : Forall (fun r => length r = 30%nat) ROUND_CONSTANTS) by (apply (bool_decide_unpack _); vm_compute; exact I). exact (Forall_lookup_1 _ _ _ _ Hf Hrow). }
  destruct (lookup_lt_is_Some_2 r round) as [c Hc]; [lia|]. rewrite Hc. cbn. eauto.
Qed.

Lemma add_constants_total round state : (round < 30)%nat -> forall i, (i + length state <= 12)%nat ->
  exists s, add_constants round i state = Some s /\ length s = length state.
Proof.
  intros Hr. induction state as [|x state IH]; intros i Hi; [now exists []|]. cbn [add_constants length] in *.
  destruct (round_constant_total i round) as [c Hc]; [lia|exact Hr|]. rewrite Hc. cbn [mbind option_bind].
  destruct (IH (S i)) as (s & Hs & Hl); [lia|]. rewrite Hs. cbn. eexists. split; [reflexivity|]. cbn. lia.
Qed.

Lemma s_boxes_length round (state : list T) : length (s_boxes round state) = length state.
Proof. destruct state as [|x state]; [reflexivity|]. cbn. destruct (is_full round); [now rewrite length_map|reflexivity]. Qed.

Lemma dot_total row : forall tmp (input : list T), (length input <= length row)%nat -> is_Some (dot tmp row input).
Proof. induction row as [|m row IH]; intros tmp [|x input] Hl; cbn in *; try (eexists; reflexivity); [lia|]. apply IH. lia. Qed.

Lemma mds_total (input : list T) : length input = 12%nat -> exists s, mds input = Some s /\ length s = 12%nat.
Proof.
  intros Hl. destruct (proj2 (mapM_is_Some (fun i => row ← MDS_MATRIX !! i; dot f_zero row input) (seq 0 12))) as [s Hs].
  - apply Forall_forall. intros i Hi. apply elem_of_seq in Hi. destruct (lookup_lt_is_Some_2 MDS_MATRIX i) as [row Hrow]; [cbn; lia|]. unfold compose. rewrite Hrow. cbn [mbind option_bind].
    assert (Hf : Forall (fun r => length r = 12%nat) MDS_MATRIX) by (apply (bool_decide_unpack _); vm_compute; exact I).
    apply dot_total. rewrite (Forall_lookup_1 _ _ _ _ Hf Hrow). lia.
  - exists s. split; [exact Hs|]. apply length_mapM in Hs. rewrite <- Hs. reflexivity.
Qed.

Lemma poseidon_gl_total (inputs : list T) : length inputs = 12%nat -> exists out, poseidon_gl inputs = Some out /\ length out = 4%nat.
Proof.
  intros Hl. unfold poseidon_gl. rewrite Hl. cbn [Nat.eqb assert_that mbind option_bind].
  assert (Hrounds : forall rounds state, Forall (fun r => (r < 30)%nat) rounds -> length state = 12%nat -> exists s, poseidon_rounds (T:=T) rounds state = Some s /\ length s = 12%nat).
  { induction rounds as [|r rounds IH]; intros state Hr Hs; [now exists state|]. apply Forall_cons in Hr as [Hr Hrs]. cbn [poseidon_rounds]. unfold poseidon_round.
    destruct (add_constants_total r state Hr 0) as (s1 & -> & Hl1); [lia|]. cbn [mbind option_bind].
    destruct (mds_total (s_boxes r s1)) as (s2 & -> & Hl2); [rewrite s_boxes_length; lia|]. now apply IH. }
  destruct (Hrounds (seq 0 30) inputs) as (s & -> & Hs); [apply Forall_forall; intros r Hr; apply elem_of_seq in Hr; lia|exact Hl|].
  cbn [mbind option_bind]. eexists. split; [reflexivity|]. rewrite length_take. lia.
Qed.

End PoseidonTotal.

(** ** The hash of a tree of pages *)

Section Tree.
Context {T : Type} `{LargeField T}.

Definition node (a b : list T) : list T := default [] (hash_cap0 a b).
Definition leaf (page : list T) : list T := default [] (hash_page page).

(** The node [idx] whose leaves are [k] levels below. *)
Fixpoint tree_hash (pages : N -> list T) (k : nat) (idx : N) : list T :=
  match k with
  | O => leaf (pages idx)
  | S k' => node (tree_hash pages k' (2 * idx)) (tree_hash pages k' (2 * idx + 1))
  end.

Lemma hash_cap0_node a b : length a = 4%nat -> length b = 4%nat -> hash_cap0 a b = Some (node a b) /\ length (node a b) = 4%nat.
Proof.
  intros Ha Hb. unfold node, hash_cap0. destruct (poseidon_gl_total (a ++ b ++ replicate 4 f_zero)) as (out & Hout & Hl).
  { rewrite !length_app, length_replicate. lia. }
  now rewrite Hout.
Qed.

Lemma hash_chunks_total page : forall hash, length hash = 4%nat -> exists h, hash_chunks hash page = Some h /\ length h = 4%nat.
Proof.
  assert (Hg : forall n page, (length page <= n)%nat -> forall hash, length hash = 4%nat -> exists h, hash_chunks hash page = Some h /\ length h = 4%nat); [|now apply (Hg (length page))].
  clear page. induction n as [|n IH]; intros page Hn hash Hh; [destruct page; [now exists hash|cbn in Hn; lia]|].
  destruct page as [|a [|b [|c [|d page]]]]; try (now exists hash). cbn [hash_chunks].
  destruct (hash_cap0_node hash [a; b; c; d]) as [-> Hl]; [exact Hh|reflexivity|]. cbn [mbind option_bind]. apply IH; [cbn in Hn; lia|exact Hl].
Qed.

Lemma hash_page_leaf page : hash_page page = Some (leaf page) /\ length (leaf page) = 4%nat.
Proof. unfold leaf, hash_page. destruct (hash_chunks_total page (replicate 4 f_zero)) as (h & -> & Hl); [reflexivity|]. now split. Qed.

Lemma tree_hash_length pages k : forall idx, length (tree_hash pages k idx) = 4%nat.
Proof. induction k as [|k IH]; intros idx; cbn [tree_hash]; [apply hash_page_leaf|]. now apply hash_cap0_node. Qed.

Lemma tree_hash_node pages k idx : hash_cap0 (tree_hash pages k (2 * idx)) (tree_hash pages k (2 * idx + 1)) = Some (tree_hash pages (S k) idx).
Proof. apply hash_cap0_node; apply tree_hash_length. Qed.

(** The hash of a node depends on the pages below it only. *)
Lemma tree_hash_agree f g k : forall idx, (forall j, N.shiftr j (N.of_nat k) = idx -> f j = g j) -> tree_hash f k idx = tree_hash g k idx.
Proof.
  induction k as [|k IH]; intros idx Hfg; cbn [tree_hash].
  - rewrite (Hfg idx); [reflexivity|]. apply N.shiftr_0_r.
  - f_equal; apply IH; intros j Hj; apply Hfg; rewrite Nat2N.inj_succ, <- N.add_1_r, <- N.shiftr_shiftr, Hj, N.shiftr_div_pow2; change (2 ^ 1)%N with 2%N.
    + rewrite N.mul_comm. apply N.div_mul. lia.
    + rewrite N.mul_comm, N.div_add_l by lia. rewrite N.div_small by lia. lia.
Qed.

Lemma tree_hash_const page k idx idx' : tree_hash (fun _ => page) k idx = tree_hash (fun _ => page) k idx'.
Proof. revert idx idx'. induction k as [|k IH]; intros idx idx'; [reflexivity|]. cbn [tree_hash]. f_equal; apply IH. Qed.

End Tree.

Section Correct.
Context {T : Type} `{LargeField T}.
Variables N_LEVELS WORDS_PER_PAGE : nat.
Hypothesis levels_ok : (0 < N_LEVELS <= 64)%nat.
Hypothesis words_ok : (0 < WORDS_PER_PAGE)%nat.
Notation zeroed := (zeroed (T:=T) WORDS_PER_PAGE).
Notation hash_at := (get_hash (T:=T) N_LEVELS).

(** How far the leaves are below a level. *)
Definition below (level : nat) : nat := (N_LEVELS - 1 - level)%nat.

Definition zero_hash (k : nat) : list T := tree_hash (fun _ => zeroed) k 0.
Definition page_of (t : MerkleTree (T:=T)) (i : N) : list T := default zeroed (data t !! i).

Record shape (t : MerkleTree) : Prop := {
  shape_defaults : forall level, (level < N_LEVELS)%nat -> default_hashes t !! level = Some (zero_hash (below level));
  shape_zero : zero_page t = zeroed;
  shape_data : forall i p, data t !! i = Some p -> length p = WORDS_PER_PAGE /\ (i < 2 ^ N.of_nat (N_LEVELS - 1))%N
}.

Definition hash_ok (t : MerkleTree) (level : nat) (idx : N) : Prop := hash_at level idx t = Some (tree_hash (page_of t) (below level) idx).

(** The invariant: every node of the tree is the hash of the pages below it. *)
Record tree_ok (t : MerkleTree) : Prop := {
  ok_shape : shape t;
  ok_hashes : forall level idx, (level < N_LEVELS)%nat -> (idx < 2 ^ N.of_nat level)%N -> hash_ok t level idx
}.

Lemma page_of_length t i : shape t -> length (page_of t i) = WORDS_PER_PAGE.
Proof. intros Hs. unfold page_of. destruct (data t !! i) as [p|] eqn:Hp; [now apply (shape_data t Hs i)|]. apply length_replicate. Qed.

Lemma default_successors_run n : forall j, default_successors n (zero_hash j) = Some (zero_hash <$> seq j n).
Proof.
  induction n as [|n IH]; intros j; [reflexivity|]. destruct n as [|n]; [reflexivity|].
  change (default_successors (S (S n)) (zero_hash j)) with (h ← hash_cap0 (zero_hash j) (zero_hash j); rest ← default_successors (S n) h; Some (zero_hash j :: rest)).
  assert (Hh : hash_cap0 (zero_hash j) (zero_hash j) = Some (zero_hash (S j))).
  { unfold zero_hash. rewrite <- tree_hash_node. f_equal; apply tree_hash_const. }
  rewrite Hh. cbn [mbind option_bind]. rewrite IH. reflexivity.
Qed.

Lemma new_ok : exists t, new N_LEVELS WORDS_PER_PAGE = Some t /\ tree_ok t /\ forall i, page_of t i = zeroed.
Proof.
  unfold new, default_hashes_per_level. destruct (Nat.leb_spec N_LEVELS 64); [|lia]. cbn [assert_that mbind option_bind].
  destruct (hash_page_leaf zeroed) as [-> _]. cbn [mbind option_bind]. change (leaf zeroed) with (zero_hash 0). rewrite default_successors_run. cbn [mbind option_bind].
  eexists. split; [reflexivity|].
  assert (Hd : forall level, (level < N_LEVELS)%nat -> rev (zero_hash <$> seq 0 N_LEVELS) !! level = Some (zero_hash (below level))).
  { intros level Hl. rewrite List.rev_alt. change (rev_append ?l []) with (reverse l). rewrite reverse_lookup by (rewrite length_fmap, length_seq; exact Hl). rewrite length_fmap, length_seq.
    rewrite list_lookup_fmap, lookup_seq_lt by lia. cbn [fmap option_fmap option_map]. do 2 f_equal. unfold below. lia. }
  split; [|reflexivity]. split.
  - split; [exact Hd|reflexivity|]. cbn. intros i p. now rewrite lookup_empty.
  - intros level idx Hl Hi. unfold hash_ok, get_hash. destruct (Nat.ltb_spec level N_LEVELS); [|lia]. destruct (N.ltb_spec idx (2 ^ N.of_nat level)); [|lia].
    cbn [assert_that mbind option_bind hashes default_hashes data]. rewrite lookup_empty, (Hd level Hl). f_equal. unfold zero_hash. rewrite (tree_hash_const _ _ 0 idx).
    apply tree_hash_agree. reflexivity.
Qed.

(** *** Updating hashes *)

Lemma hash_at_run t level idx : shape t -> (level < N_LEVELS)%nat -> (idx < 2 ^ N.of_nat level)%N ->
  hash_at level idx t = Some (default (zero_hash (below level)) (hashes t !! (level, idx))).
Proof.
  intros Hs Hl Hi. unfold get_hash. destruct (Nat.ltb_spec level N_LEVELS); [|lia]. destruct (N.ltb_spec idx (2 ^ N.of_nat level)); [|lia].
  cbn [assert_that mbind option_bind]. destruct (hashes t !! (level, idx)); [reflexivity|]. now apply shape_defaults.
Qed.

(** Writing the right hash keeps all that is right, and makes that node right. *)
Lemma write_hash_ok t level idx : shape t ->
  let t' := set_hashes (<[(level, idx) := tree_hash (page_of t) (below level) idx]> (hashes t)) t in
  shape t' /\ forall l i, (l < N_LEVELS)%nat -> (i < 2 ^ N.of_nat l)%N -> hash_ok t l i \/ (l, i) = (level, idx) -> hash_ok t' l i.
Proof.
  intros Hs t'. assert (Hs' : shape t') by (destruct Hs; now split). split; [exact Hs'|].
  intros l i Hl Hi Hok. unfold hash_ok in *. rewrite hash_at_run in * by assumption. cbn [hashes t' set_hashes]. destruct (decide ((l, i) = (level, idx))) as [E|Hn].
  - injection E as -> ->. now rewrite lookup_insert_eq.
  - rewrite lookup_insert_ne by congruence. destruct Hok as [Hok|]; [exact Hok|contradiction].
Qed.

Definition same_data (t t' : MerkleTree (T:=T)) : Prop := data t' = data t.

Lemma page_of_same t t' : same_data t t' -> page_of t' = page_of t.
Proof. unfold same_data, page_of. now intros ->. Qed.

Lemma update_inner_hash_run t level idx : shape t -> (S level < N_LEVELS)%nat -> (idx < 2 ^ N.of_nat level)%N ->
  (forall i, (i < 2 ^ N.of_nat (S level))%N -> hash_ok t (S level) i) ->
  update_inner_hash N_LEVELS level idx t = Some (tt, set_hashes (<[(level, idx) := tree_hash (page_of t) (below level) idx]> (hashes t)) t).
Proof.
  intros Hs Hl Hi Hok. unfold update_inner_hash, gets_hash. rewrite Nat.add_1_r.
  assert (Hlt : (idx * 2 + 1 < 2 ^ N.of_nat (S level))%N) by (rewrite Nat2N.inj_succ, N.pow_succ_r'; lia).
  eapply bind_run; [eapply bind_run; [reflexivity|apply lift_some, Hok; lia]|].
  eapply bind_run; [eapply bind_run; [reflexivity|apply lift_some, Hok; exact Hlt]|].
  replace (below level) with (S (below (S level))) by (unfold below; lia). rewrite (N.mul_comm idx). eapply bind_run; [apply lift_some, tree_hash_node|]. reflexivity.
Qed.

Lemma update_level_run level idxs : (S level < N_LEVELS)%nat -> Forall (fun i => (i < 2 ^ N.of_nat level)%N) idxs -> forall t, shape t ->
  (forall i, (i < 2 ^ N.of_nat (S level))%N -> hash_ok t (S level) i) ->
  exists t', for_each (update_inner_hash N_LEVELS level) idxs t = Some (tt, t') /\ shape t' /\ same_data t t' /\
    forall l i, (l < N_LEVELS)%nat -> (i < 2 ^ N.of_nat l)%N -> hash_ok t l i \/ (l = level /\ i ∈ idxs) -> hash_ok t' l i.
Proof.
  intros Hl Hidx. induction Hidx as [|idx idxs Hi Hidx IH]; intros t Hs Hok.
  - exists t. split; [reflexivity|]. do 2 (split; [assumption || reflexivity|]). intros l i _ _ [H1|[_ H1]]; [exact H1|]. now apply elem_of_nil in H1.
  - destruct (write_hash_ok t level idx Hs) as [Hs1 Hok1]. set (t1 := set_hashes _ t) in *.
    destruct (IH t1 Hs1) as (t' & Hrun & Hs' & Hd & Hok').
    { intros i Hlt. apply Hok1; [lia|exact Hlt|]. left. now apply Hok. }
    exists t'. split; [cbn [for_each]; eapply bind_run; [now apply update_inner_hash_run|exact Hrun]|]. split; [exact Hs'|]. split; [exact Hd|].
    intros l i Hll Hii Hc. apply Hok'; [assumption..|]. destruct Hc as [Hc|[-> Hc]]; [left; apply Hok1; auto|].
    apply elem_of_cons in Hc as [->|Hc]; [left; apply Hok1; auto|right; auto].
Qed.

Lemma dedup_elem (l : list N) x : x ∈ dedup l <-> x ∈ l.
Proof.
  induction l as [|y l IH]; [reflexivity|]. cbn [dedup]. destruct l as [|z l]; [reflexivity|].
  destruct (N.eqb_spec y z) as [->|Hn]; rewrite ?elem_of_cons, IH, ?elem_of_cons; tauto.
Qed.

Lemma level_up_elem (l : list N) x : x ∈ level_up l <-> exists y, y ∈ l /\ x = N.shiftr y 1.
Proof. unfold level_up. rewrite dedup_elem, list_elem_of_fmap. firstorder. Qed.

(** All the levels: what is stale is above the indices at level [L]. *)
Lemma update_levels_run L : forall idxs t, (L < N_LEVELS)%nat -> shape t -> Forall (fun i => (i < 2 ^ N.of_nat L)%N) idxs ->
  (forall l i, (l < N_LEVELS)%nat -> (i < 2 ^ N.of_nat l)%N -> hash_ok t l i \/ (exists p, (l < L)%nat /\ p ∈ idxs /\ i = N.shiftr p (N.of_nat (L - l)))) ->
  exists t', update_levels N_LEVELS (rev (seq 0 L)) idxs t = Some (tt, t') /\ tree_ok t' /\ same_data t t'.
Proof.
  induction L as [|L IH]; intros idxs t HL Hs Hidx Hok.
  - exists t. split; [reflexivity|]. split; [|reflexivity]. split; [exact Hs|]. intros l i Hl Hi. destruct (Hok l i Hl Hi) as [H1|(p & H1 & _)]; [exact H1|lia].
  - rewrite seq_S, rev_app_distr. cbn [rev app Nat.add update_levels].
    assert (Hup : Forall (fun i => (i < 2 ^ N.of_nat L)%N) (level_up idxs)).
    { apply Forall_forall. intros i Hi. apply level_up_elem in Hi as (y & Hy & ->). rewrite Forall_forall in Hidx. specialize (Hidx y Hy). cbv beta in Hidx.
      rewrite Nat2N.inj_succ, N.pow_succ_r' in Hidx. rewrite N.shiftr_div_pow2. change (2 ^ 1)%N with 2%N. apply N.Div0.div_lt_upper_bound. lia. }
    destruct (update_level_run L (level_up idxs) ltac:(lia) Hup t Hs) as (t1 & Hrun & Hs1 & Hd1 & Hok1).
    { intros i Hi. destruct (Hok (S L) i) as [H1|(p & H1 & _)]; [lia|exact Hi|exact H1|lia]. }
    destruct (IH (level_up idxs) t1) as (t' & Hrun' & Hok' & Hd'); [lia|exact Hs1|exact Hup| |].
    { intros l i Hl Hi. destruct (Hok l i Hl Hi) as [H1|(p & Hlt & Hp & ->)]; [left; apply Hok1; auto|].
      destruct (decide (l = L)) as [->|Hn].
      - left. apply Hok1; [assumption..|]. right. split; [reflexivity|]. apply level_up_elem. exists p. split; [exact Hp|]. f_equal. lia.
      - right. exists (N.shiftr p 1). split; [lia|]. split; [apply level_up_elem; eauto|]. rewrite N.shiftr_shiftr. f_equal. lia. }
    exists t'. split; [eapply bind_run; [exact Hrun|exact Hrun']|]. split; [exact Hok'|]. unfold same_data in *. congruence.
Qed.

(** *** Updating pages *)

(** The updates of a page, applied in order. *)
Definition page_after (page : list T) (us : list (nat * Z)) : list T := foldl (fun p u => <[fst u := from_u32 (snd u)]> p) page us.

Lemma write_page_run us : forall page : list T, Forall (fun u => (fst u < length page)%nat) us -> write_page us page = Some (page_after page us).
Proof.
  induction us as [|[i v] us IH]; intros page Hu; [reflexivity|]. apply Forall_cons in Hu as [Hi Hu]. cbn [write_page fst] in *.
  destruct (lookup_lt_is_Some_2 page i Hi) as [x ->]. cbn [mbind option_bind]. apply IH. eapply Forall_impl; [exact Hu|]. intros u Hlt. now rewrite length_insert.
Qed.

Lemma page_after_length us : forall page : list T, length (page_after page us) = length page.
Proof. induction us as [|u us IH]; intros page; [reflexivity|]. change (page_after page (u :: us)) with (page_after (<[fst u := from_u32 (snd u)]> page) us). now rewrite IH, length_insert. Qed.

Definition in_page (u : nat * Z) : Prop := (fst u < WORDS_PER_PAGE)%nat.

(** A page and its leaf are updated; the nodes above the page are stale. *)
Lemma update_leaf_run t p us : shape t -> (p < 2 ^ N.of_nat (N_LEVELS - 1))%N -> Forall in_page us ->
  exists t', update_leaf N_LEVELS WORDS_PER_PAGE (p, us) t = Some (tt, t') /\ shape t' /\
    (forall i, page_of t' i = if decide (i = p) then page_after (page_of t p) us else page_of t i) /\
    forall l i, (l < N_LEVELS)%nat -> (i < 2 ^ N.of_nat l)%N -> (hash_ok t l i /\ i <> N.shiftr p (N.of_nat (below l))) \/ (l, i) = ((N_LEVELS - 1)%nat, p) -> hash_ok t' l i.
Proof.
  intros Hs Hp Hus. pose proof (page_of_length t p Hs) as Hlen. set (page := page_after (page_of t p) us).
  set (t1 := set_data (<[p := page]> (data t)) t).
  assert (Hs1 : shape t1).
  { destruct Hs as [H1 H2 H3]. split; [exact H1|exact H2|]. intros i q. cbn [data t1 set_data]. destruct (decide (p = i)) as [<-|Hn].
    - rewrite lookup_insert_eq. intros [= <-]. unfold page. rewrite page_after_length. now split.
    - rewrite lookup_insert_ne by exact Hn. apply H3. }
  assert (Hpages : forall i, page_of t1 i = if decide (i = p) then page else page_of t i).
  { intros i. unfold page_of at 1. cbn [data t1 set_data]. case_decide as E; [subst; now rewrite lookup_insert_eq|]. now rewrite lookup_insert_ne by congruence. }
  destruct (write_hash_ok t1 (N_LEVELS - 1) p Hs1) as [Hs2 Hok2]. set (t2 := set_hashes _ t1) in *.
  exists t2. split.
  - unfold update_leaf, update_page_impl, update_leaf_hash. cbn [fst snd]. eapply bind_run.
    + eapply bind_run; [reflexivity|]. eapply lift_run; [apply write_page_run; eapply Forall_impl; [exact Hus|]; unfold in_page; intros u Hu; unfold page_of in Hlen; lia|reflexivity].
    + eapply bind_run; [reflexivity|]. eapply lift_run; [apply lookup_insert_eq|]. eapply lift_run; [apply hash_page_leaf|]. unfold modify, t2, t1. do 3 f_equal.
      replace (below (N_LEVELS - 1)) with 0%nat by (unfold below; lia). cbn [tree_hash]. rewrite Hpages, decide_True by reflexivity. reflexivity.
  - split; [exact Hs2|]. split; [exact Hpages|]. intros l i Hl Hi [[Hok Hn]|E]; apply Hok2; auto. left. unfold hash_ok in *. rewrite hash_at_run in * by assumption.
    injection Hok as Hok. cbn [hashes t1 set_data]. rewrite Hok. f_equal. apply tree_hash_agree. intros j Hj. rewrite Hpages, decide_False; [reflexivity|]. congruence.
Qed.

Lemma below_leaf : below (N_LEVELS - 1) = 0%nat.
Proof. unfold below. lia. Qed.

(** Several pages, each once. *)
Lemma update_leaves_run pages : Forall (fun p => (fst p < 2 ^ N.of_nat (N_LEVELS - 1))%N /\ Forall in_page (snd p)) pages -> NoDup (fst <$> pages) -> forall t, shape t ->
  exists t', for_each (update_leaf N_LEVELS WORDS_PER_PAGE) pages t = Some (tt, t') /\ shape t' /\
    (forall i, page_of t' i = page_after (page_of t i) (default [] (list_to_map (M:=gmap N (list (nat * Z))) pages !! i))) /\
    forall l i, (l < N_LEVELS)%nat -> (i < 2 ^ N.of_nat l)%N -> hash_ok t l i ->
      hash_ok t' l i \/ (exists p, (l < N_LEVELS - 1)%nat /\ p ∈ fst <$> pages /\ i = N.shiftr p (N.of_nat (below l))).
Proof.
  intros Hp. induction Hp as [|[p us] pages [Hlt Hus] Hp IH]; intros Hnd t Hs.
  - exists t. split; [reflexivity|]. split; [exact Hs|]. split; [intros i; cbn; now rewrite lookup_empty|]. auto.
  - apply NoDup_cons in Hnd as [Hnp Hnd]. cbn [fst snd] in *. destruct (update_leaf_run t p us Hs Hlt Hus) as (t1 & Hrun & Hs1 & Hpg1 & Hok1).
    destruct (IH Hnd t1 Hs1) as (t' & Hrun' & Hs' & Hpg' & Hok'). exists t'. split; [cbn [for_each]; eapply bind_run; eassumption|]. split; [exact Hs'|]. split.
    + intros i. rewrite Hpg', Hpg1. cbn [list_to_map foldr fst snd]. case_decide as E.
      * subst i. rewrite lookup_insert_eq. rewrite not_elem_of_list_to_map_1 by exact Hnp. reflexivity.
      * rewrite lookup_insert_ne by congruence. reflexivity.
    + intros l i Hl Hi Hok. destruct (decide (i = N.shiftr p (N.of_nat (below l)))) as [Ei|Ei]; [destruct (decide (l = N_LEVELS - 1)%nat) as [->|El]|].
      * rewrite below_leaf in Ei. cbn [N.of_nat] in Ei. rewrite N.shiftr_0_r in Ei. subst i.
        destruct (Hok' (N_LEVELS - 1)%nat p Hl Hi) as [H1|(q & H1 & _)]; [apply Hok1; auto|now left|lia].
      * right. exists p. split; [lia|]. split; [now left|exact Ei].
      * destruct (Hok' l i Hl Hi) as [H1|(q & H1 & Hq & E)]; [apply Hok1; auto|now left|]. right. exists q. split; [exact H1|]. split; [now right|exact E].
Qed.

(** *** Organising the updates *)

Definition entries (m : list (N * list (nat * Z))) : gmap N (list (nat * Z)) := list_to_map m.

Lemma entry_push_keys p u m x : x ∈ fst <$> entry_push p u m <-> x = p \/ x ∈ fst <$> m.
Proof.
  induction m as [|[q us] m IH]; cbn [entry_push].
  - cbn. rewrite list_elem_of_singleton, elem_of_nil. tauto.
  - destruct (N.ltb_spec p q); [cbn [fmap list_fmap fst]; rewrite !elem_of_cons; tauto|]. destruct (N.eqb_spec p q) as [->|]; cbn [fmap list_fmap fst] in *; rewrite ?elem_of_cons in *; [tauto|].
    rewrite IH. tauto.
Qed.

Lemma sorted_fresh (q : N) (ks : list N) p : StronglySorted N.lt (q :: ks) -> (p < q)%N -> p ∉ q :: ks.
Proof.
  intros Hs Hp Hin. apply StronglySorted_inv in Hs as [_ Hf]. apply elem_of_cons in Hin as [->|Hin]; [lia|]. rewrite Forall_forall in Hf. specialize (Hf p Hin). cbn in Hf. lia.
Qed.

Lemma sorted_nodup (ks : list N) : StronglySorted N.lt ks -> NoDup ks.
Proof.
  induction 1 as [|k ks Hs IH Hf]; [apply NoDup_nil_2|]. apply NoDup_cons. split; [|exact IH]. intros Hin. rewrite Forall_forall in Hf. specialize (Hf k Hin). cbn in Hf. lia.
Qed.

Lemma entry_push_spec p u m : StronglySorted N.lt (fst <$> m) ->
  StronglySorted N.lt (fst <$> entry_push p u m) /\ entries (entry_push p u m) = <[p := default [] (entries m !! p) ++ [u]]> (entries m).
Proof.
  induction m as [|[q us] m IH]; intros Hs; cbn [entry_push].
  - split; [apply SSorted_cons; [apply SSorted_nil|apply List.Forall_nil]|]. unfold entries. cbn. now rewrite lookup_empty.
  - cbn [fmap list_fmap fst] in Hs. destruct (N.ltb_spec p q) as [Hlt|Hge].
    + split; [cbn [fmap list_fmap fst]; apply SSorted_cons; [exact Hs|]|].
      * apply StronglySorted_inv in Hs as [_ Hf]. apply List.Forall_cons; [exact Hlt|]. eapply Forall_impl; [exact Hf|]. cbn. lia.
      * assert (Hnone : entries ((q, us) :: m) !! p = None) by (apply not_elem_of_list_to_map_1; exact (sorted_fresh q (fst <$> m) p Hs Hlt)).
        rewrite Hnone. reflexivity.
    + destruct (N.eqb_spec p q) as [->|Hn].
      * split; [exact Hs|]. unfold entries. cbn [list_to_map foldr fst snd]. rewrite lookup_insert_eq. cbn. now rewrite insert_insert_eq.
      * pose proof Hs as Hs0. apply StronglySorted_inv in Hs as [Hs Hf]. destruct (IH Hs) as [Hs' He]. cbn [fmap list_fmap fst]. split.
        { apply SSorted_cons; [exact Hs'|]. apply Forall_forall. intros x Hx. apply entry_push_keys in Hx as [->|Hx]; [lia|]. rewrite Forall_forall in Hf. now apply Hf. }
        unfold entries in *. cbn [list_to_map foldr fst snd]. change (foldr _ _ ?l) with (list_to_map (M:=gmap N (list (nat * Z))) l). rewrite He.
        rewrite lookup_insert_ne by congruence. now rewrite insert_insert_ne by congruence.
Qed.

Notation words := (N.of_nat WORDS_PER_PAGE).

(** The place of a word: its page and its index within it. *)
Definition place (w : N) : N * nat := ((w / words)%N, N.to_nat (w mod words)).

Lemma place_inj w w' : place w = place w' -> w = w'.
Proof. unfold place. intros [= H1 H2]. rewrite (N.div_mod w words), (N.div_mod w' words) by lia. rewrite H1. f_equal. lia. Qed.

(** The memory, word by word, and a write of the word at an address. *)
Definition memory (t : MerkleTree) (w : N) : T := nth (snd (place w)) (page_of t (fst (place w))) f_zero.
Definition write_word (m : N -> T) (u : N * Z) (w : N) : T := if (w =? fst u / 4)%N then from_u32 (snd u) else m w.

Definition aligned_in_range (u : N * Z) : Prop := (fst u mod 4 = 0)%N /\ (fst (place (fst u / 4)) < 2 ^ N.of_nat (N_LEVELS - 1))%N.

Lemma organize_update_run m u : aligned_in_range u ->
  organize_update WORDS_PER_PAGE m u = Some (entry_push (fst (place (fst u / 4))) (snd (place (fst u / 4)), snd u) m).
Proof.
  destruct u as [addr v]. unfold aligned_in_range, organize_update. cbn [fst snd]. intros [Ha _]. rewrite Ha. cbn [N.eqb assert_that mbind option_bind]. unfold place. cbn [fst snd].
  do 3 f_equal. rewrite N.Div0.mod_eq. do 2 f_equal. lia.
Qed.

Lemma place_in_page w : (snd (place w) < WORDS_PER_PAGE)%nat.
Proof. unfold place. cbn [snd]. pose proof (N.mod_upper_bound w words ltac:(lia)). lia. Qed.

Definition word_of (pages : N -> list T) (w : N) : T := nth (snd (place w)) (pages (fst (place w))) f_zero.
Definition pages_after (pages : N -> list T) (m : list (N * list (nat * Z))) (i : N) : list T := page_after (pages i) (default [] (entries m !! i)).

Record organized (m : list (N * list (nat * Z))) : Prop := {
  organized_sorted : StronglySorted N.lt (fst <$> m);
  organized_range : Forall (fun p => (fst p < 2 ^ N.of_nat (N_LEVELS - 1))%N /\ Forall in_page (snd p)) m
}.

Lemma entry_push_organized p u m : organized m -> (p < 2 ^ N.of_nat (N_LEVELS - 1))%N -> in_page u -> organized (entry_push p u m).
Proof.
  intros [Hs Hr] Hp Hu. split; [now apply entry_push_spec|]. clear Hs. induction Hr as [|[q us] m [Hq Hus] Hr IH]; cbn [entry_push fst snd] in *.
  - apply Forall_singleton. split; [exact Hp|]. cbn [snd]. now apply Forall_singleton.
  - assert (Hone : Forall in_page [u]) by (now apply Forall_singleton). destruct (N.ltb_spec p q); [|destruct (N.eqb_spec p q) as [->|]].
    + apply List.Forall_cons; [now split|]. apply List.Forall_cons; [now split|exact Hr].
    + apply List.Forall_cons; [|exact Hr]. split; [exact Hq|]. cbn [snd]. now apply Forall_app.
    + apply List.Forall_cons; [now split|exact IH].
Qed.

Lemma page_after_snoc (page : list T) us u : page_after page (us ++ [u]) = <[fst u := from_u32 (snd u)]> (page_after page us).
Proof. unfold page_after. now rewrite foldl_app. Qed.

Lemma word_of_push pages m u w : (forall i, length (pages i) = WORDS_PER_PAGE) -> organized m ->
  word_of (pages_after pages (entry_push (fst (place (fst u / 4))) (snd (place (fst u / 4)), snd u) m)) w = write_word (word_of (pages_after pages m)) u w.
Proof.
  intros Hlen [Hs _]. unfold word_of, pages_after, write_word. set (w0 := (fst u / 4)%N). rewrite (proj2 (entry_push_spec (fst (place w0)) (snd (place w0), snd u) m Hs)).
  destruct (N.eqb_spec w w0) as [->|Hn].
  - rewrite lookup_insert_eq. cbn [default from_option id]. rewrite page_after_snoc. cbn [fst snd]. apply nth_lookup_Some, list_lookup_insert_eq.
    rewrite page_after_length, Hlen. apply place_in_page.
  - destruct (decide (fst (place w0) = fst (place w))) as [E|E].
    + rewrite E, lookup_insert_eq. cbn [default from_option id]. rewrite page_after_snoc. cbn [fst snd]. rewrite !nth_lookup, list_lookup_insert_ne; [reflexivity|].
      intros Es. apply Hn, place_inj. destruct (place w), (place w0). cbn in *. congruence.
    + rewrite lookup_insert_ne by exact E. reflexivity.
Qed.

Lemma foldl_write_ext updates : forall m m' : N -> T, (forall w, m w = m' w) -> forall w, foldl write_word m updates w = foldl write_word m' updates w.
Proof. induction updates as [|u updates IH]; intros m m' Hm w; [apply Hm|]. cbn [foldl]. apply IH. intros x. unfold write_word. now rewrite Hm. Qed.

Lemma organize_run pages updates : (forall i, length (pages i) = WORDS_PER_PAGE) -> Forall aligned_in_range updates -> forall m, organized m ->
  exists m', organize_updates WORDS_PER_PAGE m updates = Some m' /\ organized m' /\
    forall w, word_of (pages_after pages m') w = foldl write_word (word_of (pages_after pages m)) updates w.
Proof.
  intros Hlen Hu. induction Hu as [|u updates Hu Hus IH]; intros m Hm; [now exists m|]. cbn [organize_updates]. rewrite organize_update_run by exact Hu. cbn [mbind option_bind].
  destruct (IH (entry_push (fst (place (fst u / 4))) (snd (place (fst u / 4)), snd u) m)) as (m' & Hrun & Hm' & Hw).
  - apply entry_push_organized; [exact Hm|apply Hu|apply place_in_page].
  - exists m'. split; [exact Hrun|]. split; [exact Hm'|]. intros w. rewrite Hw. cbn [foldl]. apply foldl_write_ext. intros x. now apply word_of_push.
Qed.

Lemma root_hash_ok t : tree_ok t -> root_hash N_LEVELS t = Some (tree_hash (page_of t) (N_LEVELS - 1) 0).
Proof.
  intros Hok. pose proof (ok_hashes t Hok 0%nat 0%N ltac:(lia) ltac:(cbn; lia)) as Hr. unfold hash_ok, below in Hr. rewrite Nat.sub_0_r in Hr. exact Hr.
Qed.

(** C17: [update] writes the words, in order, and leaves every hash of the tree right. *)
Theorem update_correct t updates : tree_ok t -> Forall aligned_in_range updates ->
  exists t', update N_LEVELS WORDS_PER_PAGE updates t = Some (tt, t') /\ tree_ok t' /\
    (forall w, memory t' w = foldl write_word (memory t) updates w) /\
    root_hash N_LEVELS t' = Some (tree_hash (page_of t') (N_LEVELS - 1) 0).
Proof.
  intros Hok Hu. destruct (organize_run (page_of t) updates (fun i => page_of_length t i (ok_shape t Hok)) Hu []) as (pages & Horg & [Hsort Hrange] & Hw).
  { split; [apply SSorted_nil|apply List.Forall_nil]. }
  destruct (update_leaves_run pages Hrange (sorted_nodup _ Hsort) t (ok_shape t Hok)) as (t1 & Hrun1 & Hs1 & Hpg1 & Hok1).
  destruct (update_levels_run (N_LEVELS - 1) (fst <$> pages) t1) as (t' & Hrun & Hok' & Hd); [lia|exact Hs1| | |].
  - apply Forall_fmap. eapply Forall_impl; [exact Hrange|]. intros p Hp. apply Hp.
  - intros l i Hl Hi. destruct (Hok1 l i Hl Hi (ok_hashes t Hok l i Hl Hi)) as [H1|H1]; [now left|now right].
  - exists t'. split; [|split; [exact Hok'|split]].
    + unfold update, organize_updates_by_page. eapply lift_run; [exact Horg|]. eapply bind_run; [exact Hrun1|exact Hrun].
    + intros w. unfold memory. rewrite (page_of_same _ _ Hd), Hpg1. etransitivity; [exact (Hw w)|]. now apply foldl_write_ext.
    + now apply root_hash_ok.
Qed.

(** *** Proofs of pages *)

(** Climbing from a node to the root with the siblings of its path. *)
Fixpoint climb (idx : N) (h : list T) (proof : list (list T)) : list T :=
  match proof with
  | [] => h
  | s :: proof' => climb (N.shiftr idx 1) (if N.even idx then node h s else node s h) proof'
  end.

Definition siblings (pages : N -> list T) (p : N) : list (list T) :=
  (fun k => tree_hash pages k (N.lxor (N.shiftr p (N.of_nat k)) 1)) <$> seq 0 (N_LEVELS - 1).

Definition with_page (pages : N -> list T) (p : N) (x : list T) (i : N) : list T := if decide (i = p) then x else pages i.

Lemma lxor_one idx : (N.lxor idx 1 = if N.even idx then idx + 1 else idx - 1)%N.
Proof. destruct (N.Even_or_Odd idx) as [[j ->]|[j ->]]; [rewrite N.even_mul|rewrite N.even_add, N.even_mul]; cbn [N.even orb]; destruct j as [|[]]; reflexivity. Qed.

Lemma lxor_parent idx : (let q := N.shiftr idx 1 in if N.even idx then idx = 2 * q /\ N.lxor idx 1 = 2 * q + 1 else idx = 2 * q + 1 /\ N.lxor idx 1 = 2 * q)%N.
Proof.
  cbv zeta. rewrite lxor_one, N.shiftr_div_pow2. change (2 ^ 1)%N with 2%N. destruct (N.Even_or_Odd idx) as [[j ->]|[j ->]].
  - rewrite N.even_mul. cbn [N.even orb]. rewrite (N.mul_comm 2 j), N.div_mul by lia. lia.
  - rewrite N.even_add, N.even_mul. cbn [N.even orb]. rewrite (N.mul_comm 2 j), N.div_add_l by lia. change (1 / 2)%N with 0%N. cbn [Bool.eqb]. cbv iota. lia.
Qed.

(** The root over a page with other contents, from the siblings of the page. *)
Lemma climb_siblings pages p x n : forall k,
  climb (N.shiftr p (N.of_nat k)) (tree_hash (with_page pages p x) k (N.shiftr p (N.of_nat k)))
    ((fun k => tree_hash pages k (N.lxor (N.shiftr p (N.of_nat k)) 1)) <$> seq k n) =
  tree_hash (with_page pages p x) (k + n) (N.shiftr p (N.of_nat (k + n))).
Proof.
  induction n as [|n IH]; intros k; [now rewrite Nat.add_0_r|]. cbn [seq fmap list_fmap climb]. replace (k + S n)%nat with (S k + n)%nat by lia. rewrite <- IH.
  rewrite N.shiftr_shiftr. replace (N.of_nat k + 1)%N with (N.of_nat (S k)) by lia. f_equal. cbn [tree_hash].
  set (idx := N.shiftr p (N.of_nat k)). assert (Hsib : tree_hash pages k (N.lxor idx 1) = tree_hash (with_page pages p x) k (N.lxor idx 1)).
  { apply tree_hash_agree. intros j Hj. unfold with_page. rewrite decide_False; [reflexivity|]. intros ->. fold idx in Hj. rewrite lxor_one in Hj.
    destruct (N.even idx) eqn:He; [lia|]. destruct (N.eq_dec idx 0%N) as [E|]; [rewrite E in He; discriminate|lia]. }
  rewrite Hsib. pose proof (lxor_parent idx) as Hp. cbv zeta in Hp. replace (N.shiftr idx 1) with (N.shiftr p (N.of_nat (S k))) in Hp.
  2: { unfold idx. rewrite N.shiftr_shiftr. f_equal. lia. }
  destruct (N.even idx); destruct Hp as [H1 H2]; rewrite H2; rewrite H1 at 1; reflexivity.
Qed.

Lemma climb_root pages p x : (p < 2 ^ N.of_nat (N_LEVELS - 1))%N ->
  climb p (leaf x) (siblings pages p) = tree_hash (with_page pages p x) (N_LEVELS - 1) 0.
Proof.
  intros Hp. pose proof (climb_siblings pages p x (N_LEVELS - 1) 0) as Hc. cbn [N.of_nat Nat.add tree_hash] in Hc. rewrite N.shiftr_0_r in Hc.
  unfold with_page at 1 in Hc. rewrite decide_True in Hc by reflexivity. unfold siblings. rewrite Hc. f_equal. rewrite N.shiftr_div_pow2. now apply N.div_small.
Qed.

Lemma with_same_page pages p k idx : tree_hash (with_page pages p (pages p)) k idx = tree_hash pages k idx.
Proof. apply tree_hash_agree. intros j _. unfold with_page. case_decide; congruence. Qed.

(** The siblings of a page do not depend on it. *)
Lemma siblings_with_page pages p x : siblings (with_page pages p x) p = siblings pages p.
Proof.
  unfold siblings. apply list_fmap_ext. intros _ k _. apply tree_hash_agree. intros j Hj. unfold with_page. rewrite decide_False; [reflexivity|]. intros ->.
  rewrite lxor_one in Hj. destruct (N.even (N.shiftr p (N.of_nat k))) eqn:He; [lia|]. destruct (N.eq_dec (N.shiftr p (N.of_nat k)) 0%N) as [E|]; [rewrite E in He; discriminate|lia].
Qed.

Lemma siblings_ext pages pages' p : (forall i, pages i = pages' i) -> siblings pages p = siblings pages' p.
Proof. intros He. unfold siblings. apply list_fmap_ext. intros _ k _. apply tree_hash_agree. auto. Qed.

Lemma iter_path_up p : iter_path N_LEVELS p = (fun k => ((N_LEVELS - 1 - k)%nat, N.shiftr p (N.of_nat k))) <$> seq 0 N_LEVELS.
Proof.
  unfold iter_path. apply list_eq. intros k. rewrite !list_lookup_fmap. rewrite List.rev_alt. change (rev_append (seq 0 N_LEVELS) []) with (reverse (seq 0 N_LEVELS)).
  destruct (decide (k < N_LEVELS)%nat) as [Hk|Hk].
  - rewrite reverse_lookup by (rewrite length_seq; exact Hk). rewrite length_seq, !lookup_seq_lt by lia. cbn [fmap option_fmap option_map]. do 2 f_equal; [lia|]. f_equal. lia.
  - rewrite !lookup_ge_None_2; [reflexivity|rewrite length_seq; lia|rewrite length_reverse, length_seq; lia].
Qed.

Lemma shiftr_range p k : (p < 2 ^ N.of_nat (N_LEVELS - 1))%N -> (k < N_LEVELS)%nat -> (N.shiftr p (N.of_nat k) < 2 ^ N.of_nat (N_LEVELS - 1 - k))%N.
Proof.
  intros Hp Hk. rewrite N.shiftr_div_pow2. apply N.Div0.div_lt_upper_bound. rewrite <- N.pow_add_r. replace (N.of_nat k + N.of_nat (N_LEVELS - 1 - k))%N with (N.of_nat (N_LEVELS - 1)) by lia. exact Hp.
Qed.

Lemma lxor_range idx n : (idx < 2 ^ N.of_nat (S n))%N -> (N.lxor idx 1 < 2 ^ N.of_nat (S n))%N.
Proof.
  rewrite lxor_one, Nat2N.inj_succ, N.pow_succ_r'. intros Hi. destruct (N.even idx) eqn:He; [|lia]. apply N.even_spec in He as [j ->]. lia.
Qed.

Lemma siblings_length pages p : length (siblings pages p) = (N_LEVELS - 1)%nat.
Proof. unfold siblings. now rewrite length_fmap, length_seq. Qed.

Lemma get_run t p : tree_ok t -> (p < 2 ^ N.of_nat (N_LEVELS - 1))%N ->
  get N_LEVELS p t = Some (page_of t p, leaf (page_of t p), siblings (page_of t) p).
Proof.
  intros Hok Hp. unfold get. rewrite iter_path_up.
  assert (Hm : mapM (fun nd => hash_at (fst nd) (N.lxor (snd nd) 1) t) (take (N_LEVELS - 1) ((fun k => ((N_LEVELS - 1 - k)%nat, N.shiftr p (N.of_nat k))) <$> seq 0 N_LEVELS)) = Some (siblings (page_of t) p)).
  { rewrite <- fmap_take. replace (take (N_LEVELS - 1) (seq 0 N_LEVELS)) with (seq 0 (N_LEVELS - 1)) by (symmetry; rewrite take_seq; f_equal; lia).
    unfold siblings. apply mapM_Some. apply Forall2_fmap. apply Forall_Forall2_diag, Forall_forall. intros k Hk. apply elem_of_seq in Hk. cbn [fst snd].
    rewrite (ok_hashes t Hok); [|lia|].
    - do 2 f_equal. unfold below. lia.
    - pose proof (shiftr_range p k Hp ltac:(lia)) as Hr. replace (N_LEVELS - 1 - k)%nat with (S (N_LEVELS - 2 - k)) in * by lia. now apply lxor_range. }
  rewrite Hm. cbn [mbind option_bind]. rewrite siblings_length, Nat.eqb_refl. cbn [assert_that mbind option_bind].
  rewrite (ok_hashes t Hok) by (exact Hp || lia). cbn [mbind option_bind]. rewrite below_leaf. cbn [tree_hash]. unfold page_of. now rewrite (shape_zero t (ok_shape t Hok)).
Qed.

(** The path of one page is what [update] goes through for it. *)
Lemma path_levels p L : (L < N_LEVELS)%nat -> forall t,
  for_each (fun nd => update_inner_hash N_LEVELS (fst nd) (snd nd)) ((fun level => (level, N.shiftr p (N.of_nat (N_LEVELS - level - 1)))) <$> rev (seq 0 L)) t =
  update_levels N_LEVELS (rev (seq 0 L)) [N.shiftr p (N.of_nat (N_LEVELS - L - 1))] t.
Proof.
  induction L as [|L IH]; intros HL t; [reflexivity|]. rewrite seq_S, rev_app_distr. cbn [rev app Nat.add fmap list_fmap for_each update_levels fst snd].
  unfold level_up. cbn [fmap list_fmap dedup for_each]. rewrite N.shiftr_shiftr. replace (N.of_nat (N_LEVELS - S L - 1) + 1)%N with (N.of_nat (N_LEVELS - L - 1)) by lia.
  unfold mbind, M_bind. destruct (update_inner_hash N_LEVELS L (N.shiftr p (N.of_nat (N_LEVELS - L - 1))) t) as [[[] t1]|]; [|reflexivity]. cbn. apply IH. lia.
Qed.

Lemma update_page_run t p us : tree_ok t -> (p < 2 ^ N.of_nat (N_LEVELS - 1))%N -> Forall in_page us ->
  exists t', update_page N_LEVELS WORDS_PER_PAGE p us t = Some (tt, t') /\ tree_ok t' /\ forall i, page_of t' i = with_page (page_of t) p (page_after (page_of t p) us) i.
Proof.
  intros Hok Hp Hus. destruct (update_leaf_run t p us (ok_shape t Hok) Hp Hus) as (t1 & Hrun1 & Hs1 & Hpg1 & Hok1).
  destruct (update_levels_run (N_LEVELS - 1) [p] t1) as (t' & Hrun & Hok' & Hd); [lia|exact Hs1|now apply Forall_singleton| |].
  - intros l i Hl Hi. destruct (decide (i = N.shiftr p (N.of_nat (below l)))) as [Ei|Ei].
    + destruct (decide (l = N_LEVELS - 1)%nat) as [->|Hn].
      * left. apply Hok1; [assumption..|]. right. rewrite below_leaf in Ei. cbn [N.of_nat] in Ei. rewrite N.shiftr_0_r in Ei. now subst.
      * right. exists p. split; [lia|]. split; [now left|exact Ei].
    + left. apply Hok1; [assumption..|]. left. split; [now apply (ok_hashes t Hok)|exact Ei].
  - exists t'. split; [|split; [exact Hok'|]].
    + unfold update_page, update_hashes. unfold update_leaf in Hrun1. cbn [fst snd] in Hrun1. revert Hrun1. unfold mbind at 1 2, M_bind at 1 2.
      destruct (update_page_impl WORDS_PER_PAGE p us t) as [[[] t0]|]; [|discriminate]. intros Hrun1. eapply bind_run; [exact Hrun1|].
      unfold iter_path. replace (seq 0 N_LEVELS) with (seq 0 (S (N_LEVELS - 1))) by (f_equal; lia). rewrite seq_S, rev_app_distr. cbn [rev app Nat.add fmap list_fmap tail].
      rewrite path_levels by lia. replace (N_LEVELS - (N_LEVELS - 1) - 1)%nat with 0%nat by lia. cbn [N.of_nat]. now rewrite N.shiftr_0_r.
    + intros i. rewrite (page_of_same _ _ Hd). apply Hpg1.
Qed.

(** C18: The proof that [get] returns leads from the page to the root, and [update_page] writes the
    page, keeps the other pages and their proofs' shape: the same siblings lead from the new
    page to the new root. *)
Theorem page_proofs t p us : tree_ok t -> (p < 2 ^ N.of_nat (N_LEVELS - 1))%N -> Forall in_page us ->
  exists proof, get N_LEVELS p t = Some (page_of t p, leaf (page_of t p), proof) /\ length proof = (N_LEVELS - 1)%nat /\
    root_hash N_LEVELS t = Some (climb p (leaf (page_of t p)) proof) /\
    exists t', let page' := page_after (page_of t p) us in
      update_page N_LEVELS WORDS_PER_PAGE p us t = Some (tt, t') /\ tree_ok t' /\
      (forall i, page_of t' i = if decide (i = p) then page' else page_of t i) /\
      get N_LEVELS p t' = Some (page', leaf page', proof) /\ root_hash N_LEVELS t' = Some (climb p (leaf page') proof).
Proof.
  intros Hok Hp Hus. exists (siblings (page_of t) p). split; [now apply get_run|]. split; [apply siblings_length|]. split.
  { rewrite root_hash_ok, climb_root, with_same_page by assumption. reflexivity. }
  destruct (update_page_run t p us Hok Hp Hus) as (t' & Hrun & Hok' & Hpg). exists t'. cbv zeta. split; [exact Hrun|]. split; [exact Hok'|]. split; [exact Hpg|].
  assert (Hpp : page_of t' p = page_after (page_of t p) us) by (rewrite Hpg; unfold with_page; now rewrite decide_True).
  split.
  - rewrite get_run by assumption. rewrite Hpp. rewrite (siblings_ext _ _ p Hpg), siblings_with_page. reflexivity.
  - rewrite root_hash_ok, climb_root by assumption. f_equal. apply tree_hash_agree. auto.
Qed.

(** Addresses that are not a word's are rejected. *)
Lemma update_unaligned t updates u : u ∈ updates -> (fst u mod 4 <> 0)%N -> update N_LEVELS WORDS_PER_PAGE updates t = None.
Proof.
  intros Hu Ha. unfold update, organize_updates_by_page. enough (Hn : forall m, organize_updates WORDS_PER_PAGE m updates = None) by now rewrite Hn.
  induction updates as [|v updates IH]; intros m; [now apply elem_of_nil in Hu|]. cbn [organize_updates]. apply elem_of_cons in Hu as [->|Hu].
  - destruct v as [addr x]. unfold organize_update. cbn [fst] in Ha. destruct (N.eqb_spec (addr mod 4) 0); [contradiction|reflexivity].
  - destruct (organize_update WORDS_PER_PAGE m v); [now apply IH|reflexivity].
Qed.

(** *** Every node once *)

Lemma dedup_sorted (l : list N) : StronglySorted N.le l -> StronglySorted N.lt (dedup l).
Proof.
  induction 1 as [|x l Hs IH Hf]; [apply SSorted_nil|]. cbn [dedup]. destruct l as [|y l]; [apply SSorted_cons; [apply SSorted_nil|apply List.Forall_nil]|].
  destruct (N.eqb_spec x y) as [->|Hn]; [exact IH|]. apply SSorted_cons; [exact IH|]. apply Forall_forall. intros z Hz. rewrite dedup_elem in Hz.
  apply Forall_cons in Hf as [Hxy _]. apply StronglySorted_inv in Hs as [_ Hf]. apply elem_of_cons in Hz as [->|Hz]; [lia|].
  rewrite Forall_forall in Hf. specialize (Hf z Hz). cbn in Hf. lia.
Qed.

Lemma level_up_sorted (l : list N) : StronglySorted N.lt l -> StronglySorted N.lt (level_up l).
Proof.
  intros Hs. apply dedup_sorted. induction Hs as [|x l Hs IH Hf]; [apply SSorted_nil|]. cbn [fmap list_fmap]. apply SSorted_cons; [exact IH|].
  apply Forall_fmap. eapply Forall_impl; [exact Hf|]. cbn. intros y Hy. rewrite !N.shiftr_div_pow2. apply N.Div0.div_le_mono. lia.
Qed.

(** [update] computes the hash of every node at most once: its indices are distinct, and they
    are the parents of the nodes of the level below. *)
Theorem levels_hashed_once updates pages : organize_updates_by_page WORDS_PER_PAGE updates = Some pages -> Forall aligned_in_range updates ->
  forall n, let idxs := Nat.iter n level_up (fst <$> pages) in
    StronglySorted N.lt idxs /\ forall i, i ∈ idxs <-> exists u, u ∈ updates /\ i = N.shiftr (fst (place (fst u / 4))) (N.of_nat n).
Proof.
  intros Horg Hu. destruct (organize_run (fun _ => zeroed) updates (fun _ => length_replicate _ _) Hu []) as (pages' & Horg' & [Hsort _] & _).
  { split; [apply SSorted_nil|apply List.Forall_nil]. }
  unfold organize_updates_by_page in Horg. rewrite Horg in Horg'. injection Horg' as <-.
  assert (Hkeys : forall m m', organize_updates WORDS_PER_PAGE m updates = Some m' -> forall i, i ∈ fst <$> m' <-> i ∈ fst <$> m \/ exists u, u ∈ updates /\ i = fst (place (fst u / 4))).
  { clear Horg Hsort pages. induction Hu as [|u updates Hu Hus IH]; intros m m'; cbn [organize_updates].
    - intros [= <-] i. split; [auto|]. intros [Hi|(u & Hin & _)]; [exact Hi|now apply elem_of_nil in Hin].
    - rewrite organize_update_run by exact Hu. cbn [mbind option_bind]. intros Hm i. rewrite (IH _ _ Hm), entry_push_keys. setoid_rewrite elem_of_cons. naive_solver. }
  induction n as [|n [IHs IH]]; cbv zeta in *.
  - split; [exact Hsort|]. intros i. cbn [Nat.iter nat_rect]. rewrite (Hkeys [] pages Horg). setoid_rewrite N.shiftr_0_r. setoid_rewrite elem_of_nil. naive_solver.
  - split; [now apply level_up_sorted|]. intros i. cbn [Nat.iter nat_rect]. rewrite level_up_elem. setoid_rewrite IH. split.
    + intros (y & (u & Hin & ->) & ->). exists u. split; [exact Hin|]. rewrite N.shiftr_shiftr. f_equal. lia.
    + intros (u & Hin & ->). exists (N.shiftr (fst (place (fst u / 4))) (N.of_nat n)). split; [now exists u|]. rewrite N.shiftr_shiftr. f_equal. lia.
Qed.

End Correct.

(** ** On a tree of four pages of eight words *)

Module MerkleDemo.

Notation GF := GoldilocksField.

Lemma demo_tree : exists t : MerkleTree (T:=GF), new 3 8 = Some t /\ tree_ok 3 8 t.
Proof. destruct (new_ok (T:=GF) 3 8) as (t & Hnew & Hok & _); [lia|lia|]. exists t. split; [exact Hnew|exact Hok]. Qed.

Definition demo_updates : list (N * Z) := [(4%N, 7); (36%N, 9); (4%N, 8)].

Lemma demo_aligned : Forall (aligned_in_range 3 8) demo_updates.
Proof. repeat (apply List.Forall_cons; [split; reflexivity|]). apply List.Forall_nil. Qed.

Lemma update_correct_witness : exists t t' : MerkleTree (T:=GF), new 3 8 = Some t /\ update 3 8 demo_updates t = Some (tt, t') /\
  memory 8 t' 1 = from_u32 8 /\ memory 8 t' 9 = from_u32 9.
Proof.
  destruct demo_tree as (t & Hnew & Hok). destruct (update_correct 3 8 ltac:(lia) ltac:(lia) t demo_updates Hok demo_aligned) as (t' & Hrun & _ & Hm & _).
  exists t, t'. split; [exact Hnew|]. split; [exact Hrun|]. rewrite !Hm. split; reflexivity.
Defined.

Lemma page_proofs_witness : exists (t t' : MerkleTree (T:=GF)) proof, update_page 3 8 2 [(3%nat, 5)] t = Some (tt, t') /\
  root_hash 3 t' = Some (climb 2 (leaf (page_after (page_of 8 t 2) [(3%nat, 5)])) proof).
Proof.
  destruct demo_tree as (t & _ & Hok).
  destruct (page_proofs 3 8 ltac:(lia) ltac:(lia) t 2 [(3%nat, 5)] Hok) as (proof & _ & _ & _ & t' & Hrun & _ & _ & _ & Hroot).
  - reflexivity.
  - repeat (apply List.Forall_cons; [unfold in_page; cbn; lia|]). apply List.Forall_nil.
  - exists t, t', proof. split; [exact Hrun|exact Hroot].
Defined.

Lemma levels_hashed_once_witness : exists pages, organize_updates_by_page 8 demo_updates = Some pages /\ StronglySorted N.lt (Nat.iter 1 level_up (fst <$> pages)).
Proof.
  eexists. split; [reflexivity|]. exact (proj1 (levels_hashed_once (T:=GF) 3 8 ltac:(lia) ltac:(lia) demo_updates _ eq_refl demo_aligned 1)).
Defined.

End MerkleDemo.
