(* ===== verification/ProverData.v ===== *)
(** * The data of the prover in the initial memory

    How [load_initial_memory] of [riscv/src/continuations.rs] lays the data out in its region,
    and how the [ProverDataReader] of [riscv-runtime/src/io.rs] reads it back in the guest. *)

From Stdlib Require Import ZArith Lia.
From stdpp Require Import base list option gmap.
From S2P Require Import Prelude Goldilocks Field RiscvElem PanicMonad.

Definition PAGE_SIZE_BYTES : Z := 2048.

Definition is_power_of_two (n : Z) : bool := (0 <? n) && (Z.land n (n - 1) =? 0).

(** ** Writing *)

(** The memory, and [word_addr_iter], the range of the words that are left. *)
Record Fill := mkFill { fill_memory : gmap Z Z; next_index : Z; end_index : Z }.

Definition next_addr : M Fill (option Z) := fun s =>
  if next_index s <? end_index s then Some (Some (next_index s * 4), mkFill (fill_memory s) (next_index s + 1) (end_index s)) else Some (None, s).

Definition unwrap_addr : M Fill Z := a ← next_addr; lift a.

Definition insert_word (addr value : Z) : M Fill unit := modify (fun s => mkFill (<[addr := value]> (fill_memory s)) (next_index s) (end_index s)).

(** Full words, and a last one padded with zeros. *)
Fixpoint fill_bytes (remaining : list Z) : M Fill unit :=
  match remaining with
  | a :: b :: c :: d :: rest => addr ← unwrap_addr; insert_word addr (from_le_bytes [a; b; c; d]);; fill_bytes rest
  | [] => mret tt
  | _ => addr ← unwrap_addr; insert_word addr (from_le_bytes (remaining ++ replicate (4 - length remaining) 0))
  end.

Definition fill_chunk (chunk : list Z) : M Fill unit :=
  addr ← unwrap_addr; insert_word addr (as_width 32 (Z.of_nat (length chunk)));; fill_bytes chunk.

(** The salt of the first page: random words. *)
Fixpoint fill_salt (start : Z) (i : Z) (salt : list Z) (m : gmap Z Z) : gmap Z Z :=
  match salt with
  | [] => m
  | v :: salt' => fill_salt start (i + 1) salt' (<[start + i * 4 := v]> m)
  end.

Definition fill_prover_data (prover_data_start prover_data_end : Z) (salt : list Z) (prover_data : list (list Z)) (initial_memory : gmap Z Z) : option (gmap Z Z) :=
  prover_data_size ← checked_sub prover_data_end prover_data_start;
  _ ← assert_that (is_power_of_two prover_data_size);
  _ ← assert_that (PAGE_SIZE_BYTES <? prover_data_size);
  _ ← assert_that (prover_data_start mod prover_data_size =? 0);
  '(_, s) ← (total_word_count_addr ← unwrap_addr;
             for_each fill_chunk prover_data;;
             past ← next_addr;
             let word_past_end := default prover_data_end past in
             let total_word_count := (word_past_end - prover_data_start) / 4 - 1 in
             insert_word total_word_count_addr total_word_count)
            (mkFill (fill_salt prover_data_start 0 salt initial_memory) ((prover_data_start + PAGE_SIZE_BYTES) / 4) (prover_data_end / 4));
  Some (fill_memory s).

(** ** Reading *)

(** The words of the region after its first page; memory that is not set is zero. *)
Definition section_words (prover_data_start prover_data_end : Z) (m : gmap Z Z) : list Z :=
  (fun i => default 0 (m !! (prover_data_start + PAGE_SIZE_BYTES + 4 * Z.of_nat i))) <$> seq 0 (Z.to_nat ((prover_data_end - (prover_data_start + PAGE_SIZE_BYTES)) / 4)).

(** [ProverDataReader::new]: the words that the first one counts. *)
Definition reader_new (prover_data_section : list Z) : option (list Z) :=
  match prover_data_section with
  | [] => None
  | total_words :: remaining_data => _ ← assert_that (Z.to_nat total_words <=? length remaining_data)%nat; Some (take (Z.to_nat total_words) remaining_data)
  end.

(** [next], after the test for emptiness: the bytes of the item and the words that remain. *)
Definition reader_next (len_bytes : Z) (remaining : list Z) : option (list Z * list Z) :=
  n ← checked_add 32 len_bytes 3;
  let len_words := Z.to_nat (n / 4) in
  _ ← assert_that (len_words <=? length remaining)%nat;
  let data := take len_words remaining in
  Some (take (Z.to_nat len_bytes) (concat (le_bytes 4 <$> data)), drop len_words remaining).

(** All the items of the iterator; every one takes at least one word. *)
Fixpoint reader_items (fuel : nat) (remaining_data : list Z) : option (list (list Z)) :=
  match remaining_data, fuel with
  | [], _ => Some []
  | _ :: _, O => None
  | len_bytes :: remaining, S fuel' => '(item, rest) ← reader_next len_bytes remaining; items ← reader_items fuel' rest; Some (item :: items)
  end.

Definition prover_data_items (prover_data_start prover_data_end : Z) (m : gmap Z Z) : option (list (list Z)) :=
  remaining ← reader_new (section_words prover_data_start prover_data_end m); reader_items (length remaining) remaining.

(** ** What is written *)

Section Written.

(** The words of a chunk: its length and its packed bytes. *)
Fixpoint pack (bytes : list Z) : list Z :=
  match bytes with
  | a :: b :: c :: d :: rest => from_le_bytes [a; b; c; d] :: pack rest
  | [] => []
  | _ => [from_le_bytes (bytes ++ replicate (4 - length bytes) 0)]
  end.

Definition chunk_words (chunk : list Z) : list Z := Z.of_nat (length chunk) :: pack chunk.
Definition stream (prover_data : list (list Z)) : list Z := concat (chunk_words <$> prover_data).

(** Consecutive words from the index [i] on. *)
Fixpoint put_words (i : Z) (ws : list Z) (m : gmap Z Z) : gmap Z Z :=
  match ws with
  | [] => m
  | w :: ws' => put_words (i + 1) ws' (<[i * 4 := w]> m)
  end.

Lemma put_words_lookup ws : forall i m j, put_words i ws m !! (j * 4) = if (i <=? j) && (j <? i + Z.of_nat (length ws)) then ws !! Z.to_nat (j - i) else m !! (j * 4).
Proof.
  induction ws as [|w ws IH]; intros i m j; cbn [put_words length].
  - destruct (Z.leb_spec i j), (Z.ltb_spec j (i + Z.of_nat 0)); cbn [andb]; try reflexivity; exfalso; lia.
  - rewrite IH. destruct (Z.leb_spec (i + 1) j), (Z.leb_spec i j), (Z.ltb_spec j (i + 1 + Z.of_nat (length ws))), (Z.ltb_spec j (i + Z.of_nat (S (length ws)))); cbn [andb]; try (exfalso; lia).
    + replace (Z.to_nat (j - i)) with (S (Z.to_nat (j - (i + 1)))) by lia. reflexivity.
    + rewrite lookup_insert_ne by lia. reflexivity.
    + replace j with i by lia. rewrite lookup_insert_eq, Z.sub_diag. reflexivity.
    + rewrite lookup_insert_ne by lia. reflexivity.
Qed.

Lemma put_words_app ws ws' : forall i m, put_words i (ws ++ ws') m = put_words (i + Z.of_nat (length ws)) ws' (put_words i ws m).
Proof.
  induction ws as [|w ws IH]; intros i m; cbn [app put_words length]; [now rewrite Z.add_0_r|]. rewrite IH. f_equal. lia.
Qed.

(** Writing words: it panics when the region is full. *)
Definition fills (p : M Fill unit) (ws : list Z) : Prop := forall m i e, i <= e ->
  p (mkFill m i e) = if i + Z.of_nat (length ws) <=? e then Some (tt, mkFill (put_words i ws m) (i + Z.of_nat (length ws)) e) else None.

Lemma fills_nil : fills (mret tt) [].
Proof. intros m i e Hi. cbn. rewrite Z.add_0_r. destruct (Z.leb_spec i e); [reflexivity|lia]. Qed.

Lemma fills_cons w p ws : fills p ws -> fills (addr ← unwrap_addr; insert_word addr w;; p) (w :: ws).
Proof.
  intros Hp m i e Hi. unfold unwrap_addr, next_addr, insert_word. unfold mbind, M_bind. cbn [next_index end_index fill_memory]. cbn [length put_words].
  destruct (Z.ltb_spec i e) as [Hlt|Hge].
  - cbn. unfold modify. cbn [next_index end_index fill_memory]. rewrite Hp by lia. replace (i + 1 + Z.of_nat (length ws)) with (i + Z.of_nat (S (length ws))) by lia. reflexivity.
  - cbn. destruct (Z.leb_spec (i + Z.of_nat (S (length ws))) e); [lia|reflexivity].
Qed.

Lemma fills_app p q ws ws' : fills p ws -> fills q ws' -> fills (p;; q) (ws ++ ws').
Proof.
  intros Hp Hq m i e Hi. unfold mbind, M_bind. rewrite Hp by exact Hi. rewrite length_app, put_words_app.
  destruct (Z.leb_spec (i + Z.of_nat (length ws)) e) as [Hl|Hl].
  - rewrite Hq by exact Hl. replace (i + Z.of_nat (length ws) + Z.of_nat (length ws')) with (i + Z.of_nat (length ws + length ws')) by lia. reflexivity.
  - destruct (Z.leb_spec (i + Z.of_nat (length ws + length ws')) e); [lia|reflexivity].
Qed.

Lemma fills_last w : fills (addr ← unwrap_addr; insert_word addr w) [w].
Proof.
  intros m i e Hi. rewrite <- (fills_cons w (mret tt) [] fills_nil m i e Hi). unfold mbind, M_bind. destruct (unwrap_addr _) as [[a s]|]; reflexivity.
Qed.

Lemma by_fours (P : list Z -> Prop) : P [] -> (forall a, P [a]) -> (forall a b, P [a; b]) -> (forall a b c, P [a; b; c]) ->
  (forall a b c d l, P l -> P (a :: b :: c :: d :: l)) -> forall l, P l.
Proof.
  intros H0 H1 H2 H3 H4 l. assert (Hn : forall n l, (length l <= n)%nat -> P l); [|now apply (Hn (length l))].
  clear l. induction n as [|n IH]; intros [|a [|b [|c [|d l]]]] Hl; cbn in Hl; auto; try lia. apply H4, IH. lia.
Qed.

Lemma fill_bytes_words bytes : fills (fill_bytes bytes) (pack bytes).
Proof.
  induction bytes as [|a|a b|a b c|a b c d bytes IH] using by_fours; cbn [fill_bytes pack]; [apply fills_nil|apply fills_last..|]. now apply fills_cons.
Qed.

Lemma fill_chunks_words chunks : Forall (fun c => Z.of_nat (length c) < 2 ^ 32) chunks -> fills (for_each fill_chunk chunks) (stream chunks).
Proof.
  induction 1 as [|c chunks Hc Hcs IH]; [apply fills_nil|]. unfold stream. cbn [fmap list_fmap concat for_each]. apply fills_app; [|exact IH].
  unfold fill_chunk, chunk_words, as_width. rewrite Z.mod_small by lia. apply fills_cons, fill_bytes_words.
Qed.

Lemma fill_salt_lookup start salt : forall i m a, ~ (start + i * 4 <= a < start + (i + Z.of_nat (length salt)) * 4) -> fill_salt start i salt m !! a = m !! a.
Proof.
  induction salt as [|v salt IH]; intros i m a Ha; [reflexivity|]. cbn [fill_salt length] in *. rewrite IH by lia. apply lookup_insert_ne. lia.
Qed.

(** ** What is read *)

Definition bytes (l : list Z) : Prop := Forall (in_width 8) l.

Lemma pack_length l : length (pack l) = ((length l + 3) / 4)%nat.
Proof.
  induction l as [|a|a b|a b c|a b c d l IH] using by_fours; try reflexivity. cbn [pack length]. rewrite IH.
  replace (S (S (S (S (length l)))) + 3)%nat with (length l + 3 + 1 * 4)%nat by lia. rewrite Nat.div_add by lia. lia.
Qed.

Lemma le_bytes_of l : bytes l -> le_bytes (length l) (from_le_bytes l) = l.
Proof.
  induction 1 as [|b l Hb Hl IH]; [reflexivity|]. cbn [length le_bytes from_le_bytes]. unfold in_width in Hb.
  replace ((b + 256 * from_le_bytes l) mod 256) with b by (rewrite (Z.mul_comm 256), Z.mod_add by lia; symmetry; apply Z.mod_small; lia).
  replace ((b + 256 * from_le_bytes l) / 256) with (from_le_bytes l) by (rewrite (Z.mul_comm 256), Z.div_add by lia; rewrite Z.div_small by lia; lia). now rewrite IH.
Qed.

Lemma unpack l : bytes l -> take (length l) (concat (le_bytes 4 <$> pack l)) = l.
Proof.
  assert (Hz : in_width 8 0) by (unfold in_width; lia).
  assert (Hlast : forall l k, bytes l -> (length l + k)%nat = 4%nat -> take (length l) (le_bytes 4 (from_le_bytes (l ++ replicate k 0))) = l).
  { intros l0 k Hl Hk. rewrite <- Hk, <- (length_replicate k 0) at 1. rewrite <- length_app, le_bytes_of, take_app_length by (apply Forall_app; split; [exact Hl|now apply Forall_replicate]). reflexivity. }
  induction l as [|a|a b|a b c|a b c d l IH] using by_fours; intros Hl; [reflexivity|..]; cbn [pack fmap list_fmap concat app length Nat.sub].
  1-3: rewrite app_nil_r; apply (Hlast _ _ Hl); reflexivity.
  change (a :: b :: c :: d :: l) with ([a; b; c; d] ++ l) in Hl. apply Forall_app in Hl as [Hh Hl]. pose proof (le_bytes_of [a; b; c; d] Hh) as He. cbn [length] in He. rewrite He. cbn [app take]. now rewrite IH.
Qed.

Lemma reader_next_chunk c rest : bytes c -> Z.of_nat (length c) + 3 < 2 ^ 32 ->
  reader_next (Z.of_nat (length c)) (pack c ++ rest) = Some (c, rest).
Proof.
  intros Hc Hl. unfold reader_next, checked_add. destruct (Z.ltb_spec (Z.of_nat (length c) + 3) (2 ^ 32)); [|lia]. cbn [mbind option_bind].
  assert (Hn : Z.to_nat ((Z.of_nat (length c) + 3) / 4) = length (pack c)) by (rewrite pack_length; rewrite <- (Nat2Z.id ((length c + 3) / 4)); f_equal; rewrite Nat2Z.inj_div; f_equal; lia).
  rewrite Hn, length_app. destruct (Nat.leb_spec (length (pack c)) (length (pack c) + length rest)); [|lia]. cbn [assert_that mbind option_bind].
  rewrite take_app_length, drop_app_length, Nat2Z.id, unpack by exact Hc. reflexivity.
Qed.

Definition chunk_ok (c : list Z) : Prop := bytes c /\ Z.of_nat (length c) + 3 < 2 ^ 32.

Lemma reader_items_stream chunks k : Forall chunk_ok chunks -> forall fuel, (length (stream chunks ++ replicate k 0%Z) <= fuel)%nat ->
  reader_items fuel (stream chunks ++ replicate k 0%Z) = Some (chunks ++ replicate k []).
Proof.
  intros Hc. induction Hc as [|c chunks [Hb Hl] Hc IH]; intros fuel Hf.
  - cbn [stream fmap list_fmap concat app] in *. revert fuel Hf. induction k as [|k IHk]; intros [|fuel] Hf; cbn in Hf; try lia; try reflexivity.
    cbn [replicate reader_items app]. change (reader_next 0 (replicate k 0)) with (reader_next (Z.of_nat (length (A:=Z) [])) (pack [] ++ replicate k 0)).
    rewrite (reader_next_chunk [] (replicate k 0)) by (try apply List.Forall_nil; cbn; lia). cbn [mbind option_bind]. rewrite IHk by lia. reflexivity.
  - unfold stream, chunk_words in *. cbn [fmap list_fmap concat app] in *. rewrite <- app_assoc in *. cbn [length] in Hf. destruct fuel as [|fuel]; [lia|]. cbn [reader_items].
    rewrite reader_next_chunk by assumption. cbn [mbind option_bind]. rewrite IH by (rewrite length_app in Hf; lia). reflexivity.
Qed.

(** The capacity of the region, in words, after the salt. *)
Definition capacity (start end_ : Z) : Z := (end_ - start - PAGE_SIZE_BYTES) / 4.

(** The region is as [load_initial_memory] requires it, and nothing else is in it. *)
Record region_ok (start end_ : Z) (m : gmap Z Z) : Prop := {
  region_bounds : 0 <= start /\ end_ < 2 ^ 32;
  region_size : exists k, end_ - start = 2 ^ k /\ PAGE_SIZE_BYTES < end_ - start;
  region_aligned : start mod (end_ - start) = 0;
  region_empty : forall a, start <= a < end_ -> m !! a = None
}.

Lemma land_pred_pow k : 0 <= k -> Z.land (2 ^ k) (2 ^ k - 1) = 0.
Proof. intros Hk. rewrite land_ones_mod by exact Hk. apply Z.mod_same. apply Z.pow_nonzero; lia. Qed.

Lemma region_shape start end_ m : region_ok start end_ m -> exists n q, end_ = start + 4 * (512 + n) /\ start = 4 * q /\ 0 < n /\ 0 <= q.
Proof.
  intros [Hb (k & Hk & Hp) Ha _]. unfold PAGE_SIZE_BYTES in Hp. assert (Hk12 : 11 < k). { destruct (Z.lt_ge_cases 11 k); [assumption|]. assert (2 ^ k <= 2 ^ 11); [|lia]. destruct (Z.lt_ge_cases k 0); [rewrite Z.pow_neg_r by lia; lia|]. apply Z.pow_le_mono_r; lia. }
  assert (Hsz : 2 ^ k = 4 * 2 ^ (k - 2)) by (change 4 with (2 ^ 2); rewrite <- Z.pow_add_r by lia; f_equal; lia).
  apply Z.mod_divide in Ha; [|lia]. destruct Ha as [q Hq]. exists (2 ^ (k - 2) - 512), (q * 2 ^ (k - 2)). rewrite Hk, Hsz in *. repeat split; nia.
Qed.

Lemma bind_step {S A B} (m : M S A) (k : A -> M S B) s a s' : m s = Some (a, s') -> (m ≫= k) s = k a s'.
Proof. intros Hm. unfold mbind, M_bind. now rewrite Hm. Qed.

Lemma bind_none {S A B} (m : M S A) (k : A -> M S B) s : m s = None -> (m ≫= k) s = None.
Proof. intros Hm. unfold mbind, M_bind. now rewrite Hm. Qed.

Lemma is_power_of_two_pow k : 0 <= k -> is_power_of_two (2 ^ k) = true.
Proof. intros Hk. unfold is_power_of_two. rewrite land_pred_pow by exact Hk. pose proof (Z.pow_pos_nonneg 2 k ltac:(lia) Hk). now destruct (Z.ltb_spec 0 (2 ^ k)); [|lia]. Qed.

Lemma fill_run start end_ q n salt chunks m0 : region_ok start end_ m0 -> end_ = start + 4 * (512 + n) -> start = 4 * q -> 0 < n -> 0 <= q ->
  Forall chunk_ok chunks -> let L := Z.of_nat (length (stream chunks)) in
  fill_prover_data start end_ salt chunks m0 =
  if 1 + L <=? n then Some (<[(q + 512) * 4 := 512 + L]> (put_words (q + 513) (stream chunks) (fill_salt start 0 salt m0))) else None.
Proof.
  intros [Hb (k & Hk & Hp) Ha _] He Hs Hn Hq Hc L. unfold fill_prover_data, checked_sub. destruct (Z.leb_spec start end_); [|lia]. destruct (Z.ltb_spec end_ start); [lia|].
  cbn [mbind option_bind]. assert (Hk0 : 0 <= k) by (destruct (Z.lt_ge_cases k 0); [rewrite Z.pow_neg_r in Hk by lia; lia|assumption]).
  rewrite Hk at 1. rewrite is_power_of_two_pow by exact Hk0. cbn [assert_that mbind option_bind].
  destruct (Z.ltb_spec PAGE_SIZE_BYTES (end_ - start)); [|lia]. cbn [assert_that mbind option_bind]. rewrite Ha. cbn [Z.eqb assert_that mbind option_bind].
  assert (E1 : (start + PAGE_SIZE_BYTES) / 4 = q + 512) by (unfold PAGE_SIZE_BYTES; rewrite Hs; replace (4 * q + 2048) with ((q + 512) * 4) by lia; apply Z.div_mul; lia).
  assert (E2 : end_ / 4 = q + 512 + n) by (rewrite He, Hs; replace (4 * q + 4 * (512 + n)) with ((q + 512 + n) * 4) by lia; apply Z.div_mul; lia).
  rewrite E1, E2. set (m1 := fill_salt start 0 salt m0).
  assert (Hw : (total_word_count_addr ← unwrap_addr; for_each fill_chunk chunks;; past ← next_addr;
    insert_word total_word_count_addr ((default end_ past - start) / 4 - 1)) (mkFill m1 (q + 512) (q + 512 + n)) =
    if 1 + L <=? n then Some (tt, mkFill (<[(q + 512) * 4 := 512 + L]> (put_words (q + 513) (stream chunks) m1)) (if 1 + L <? n then q + 514 + L else q + 513 + L) (q + 512 + n)) else None).
  { assert (Hu : unwrap_addr (mkFill m1 (q + 512) (q + 512 + n)) = Some ((q + 512) * 4, mkFill m1 (q + 513) (q + 512 + n))).
    { unfold unwrap_addr, next_addr, mbind, M_bind. cbn [next_index end_index fill_memory]. destruct (Z.ltb_spec (q + 512) (q + 512 + n)); [|lia]. cbn [lift]. do 3 f_equal. lia. }
    rewrite (bind_step _ _ _ _ _ Hu). cbv beta.
    pose proof (fill_chunks_words chunks ltac:(eapply Forall_impl; [exact Hc|]; intros c [_ Hl]; lia) m1 (q + 513) (q + 512 + n) ltac:(lia)) as Hf. fold L in Hf.
    destruct (Z.leb_spec (q + 513 + L) (q + 512 + n)), (Z.leb_spec (1 + L) n); try lia; [rewrite (bind_step _ _ _ _ _ Hf)|exact (bind_none _ _ _ Hf)].
    unfold mbind, M_bind, next_addr, insert_word, modify. cbn [next_index end_index fill_memory]. destruct (Z.ltb_spec (q + 513 + L) (q + 512 + n)), (Z.ltb_spec (1 + L) n); try lia.
    - cbn [default from_option id fill_memory next_index end_index]. replace (((q + 513 + L) * 4 - start) / 4 - 1) with (512 + L); [do 3 f_equal; lia|].
      rewrite Hs. replace ((q + 513 + L) * 4 - 4 * q) with ((513 + L) * 4) by lia. rewrite Z.div_mul by lia. lia.
    - cbn [default from_option id fill_memory next_index end_index]. replace ((end_ - start) / 4 - 1) with (512 + L); [reflexivity|].
      replace (end_ - start) with ((513 + L) * 4) by lia. rewrite Z.div_mul by lia. lia. }
  cbv zeta. unfold mbind at 1, option_bind at 1. cbv zeta in Hw. etransitivity; [exact (f_equal (fun r => match r with Some a => let '(_, s) := a in Some (fill_memory s) | None => None end) Hw)|].
  destruct (1 + L <=? n); reflexivity.
Qed.

(** The first [n] words from the index [i] on. *)
Definition words_at (m : gmap Z Z) (i : Z) (n : nat) : list Z := (fun j => default 0 (m !! ((i + Z.of_nat j) * 4))) <$> seq 0 n.

Lemma words_at_app m i n k : words_at m i (n + k) = words_at m i n ++ words_at m (i + Z.of_nat n) k.
Proof.
  unfold words_at. rewrite seq_app, fmap_app. f_equal. cbn [Nat.add]. rewrite <- (Nat.add_0_r n) at 1. rewrite <- fmap_add_seq, <- list_fmap_compose.
  apply list_fmap_ext. intros _ j _. cbn. do 3 f_equal. lia.
Qed.

Lemma words_at_put ws i m : words_at (put_words i ws m) i (length ws) = ws.
Proof.
  apply list_eq. intros j. unfold words_at. rewrite list_lookup_fmap. destruct (decide (j < length ws)%nat) as [Hj|Hj].
  - rewrite lookup_seq_lt by exact Hj. cbn [fmap option_fmap option_map Nat.add]. rewrite put_words_lookup.
    destruct (Z.leb_spec i (i + Z.of_nat j)), (Z.ltb_spec (i + Z.of_nat j) (i + Z.of_nat (length ws))); cbn [andb]; try (exfalso; lia).
    replace (Z.to_nat (i + Z.of_nat j - i)) with j by lia. destruct (lookup_lt_is_Some_2 ws j Hj) as [w ->]. reflexivity.
  - rewrite !lookup_ge_None_2; [reflexivity|lia|rewrite length_seq; lia].
Qed.

Lemma words_at_zero m i n : (forall j, (j < n)%nat -> m !! ((i + Z.of_nat j) * 4) = None) -> words_at m i n = replicate n 0.
Proof.
  intros Hm. unfold words_at. apply list_eq. intros j. rewrite list_lookup_fmap. destruct (decide (j < n)%nat) as [Hj|Hj].
  - rewrite lookup_seq_lt, lookup_replicate_2 by exact Hj. cbn. now rewrite Hm.
  - rewrite !lookup_ge_None_2; [reflexivity|rewrite length_replicate; lia|rewrite length_seq; lia].
Qed.

Lemma words_at_ext m m' i n : (forall j, (j < n)%nat -> m !! ((i + Z.of_nat j) * 4) = m' !! ((i + Z.of_nat j) * 4)) -> words_at m i n = words_at m' i n.
Proof. intros He. unfold words_at. apply list_fmap_ext. intros j x Hx. apply lookup_seq in Hx as [-> Hj]. cbn. now rewrite He. Qed.

Lemma fill_section start end_ q n salt chunks m0 : region_ok start end_ m0 -> end_ = start + 4 * (512 + Z.of_nat n) -> start = 4 * q -> (0 < n)%nat -> 0 <= q ->
  length salt = 512%nat -> let L := length (stream chunks) in (1 + L <= n)%nat ->
  section_words start end_ (<[(q + 512) * 4 := 512 + Z.of_nat L]> (put_words (q + 513) (stream chunks) (fill_salt start 0 salt m0))) =
  (512 + Z.of_nat L) :: stream chunks ++ replicate (n - 1 - L) 0.
Proof.
  intros Hr He Hs Hn Hq Hsalt L HL. set (m := put_words (q + 513) (stream chunks) (fill_salt start 0 salt m0)).
  assert (Hsec : forall m', section_words start end_ m' = words_at m' (q + 512) n).
  { intros m'. unfold section_words, words_at, PAGE_SIZE_BYTES. replace ((end_ - (start + 2048)) / 4) with (Z.of_nat n) by (rewrite He; replace (start + 4 * (512 + Z.of_nat n) - (start + 2048)) with (Z.of_nat n * 4) by lia; symmetry; apply Z.div_mul; lia).
    rewrite Nat2Z.id. apply list_fmap_ext. intros _ j _. do 2 f_equal. lia. }
  rewrite Hsec. replace n with (1 + (L + (n - 1 - L)))%nat at 1 by lia. rewrite words_at_app. cbn [words_at].
  replace (words_at _ (q + 512) 1) with [512 + Z.of_nat L].
  2: { unfold words_at. cbn [seq fmap list_fmap Z.of_nat]. rewrite Z.add_0_r, lookup_insert_eq. reflexivity. }
  cbn [app]. f_equal. replace (q + 512 + Z.of_nat 1) with (q + 513) by lia.
  rewrite (words_at_ext _ m) by (intros j Hj; apply lookup_insert_ne; lia). rewrite words_at_app. f_equal; [apply words_at_put|].
  apply words_at_zero. intros j Hj. unfold m. rewrite put_words_lookup. fold L.
  destruct (Z.leb_spec (q + 513) (q + 513 + Z.of_nat L + Z.of_nat j)), (Z.ltb_spec (q + 513 + Z.of_nat L + Z.of_nat j) (q + 513 + Z.of_nat L)); cbn [andb]; try (exfalso; lia).
  rewrite fill_salt_lookup by (rewrite Hsalt; lia). apply (region_empty start end_ m0 Hr). lia.
Qed.

(** C16: [load_initial_memory] and the reader of the guest: when the data fits in the region it is
    written, else the writer panics. But the writer counts the 512 words of the salt page too:
    the reader returns the chunks and then 512 empty slices that nobody wrote, and it panics
    when fewer than 512 words of the region are left. *)
Theorem prover_data_overcounted start end_ salt chunks m0 : region_ok start end_ m0 -> length salt = 512%nat -> Forall chunk_ok chunks ->
  let used := 1 + Z.of_nat (length (stream chunks)) in
  if used <=? capacity start end_
  then exists m, fill_prover_data start end_ salt chunks m0 = Some m /\
    prover_data_items start end_ m = if used + 512 <=? capacity start end_ then Some (chunks ++ replicate 512 []) else None
  else fill_prover_data start end_ salt chunks m0 = None.
Proof.
  intros Hr Hsalt Hc used. destruct (region_shape start end_ m0 Hr) as (n & q & He & Hs & Hn & Hq).
  assert (Hcap : capacity start end_ = n). { unfold capacity, PAGE_SIZE_BYTES. rewrite He. replace (start + 4 * (512 + n) - start - 2048) with (n * 4) by lia. apply Z.div_mul. lia. }
  rewrite Hcap. rewrite (fill_run start end_ q n salt chunks m0 Hr He Hs Hn Hq Hc). fold used. destruct (Z.leb_spec used n) as [Hu|Hu]; [|reflexivity].
  eexists. split; [reflexivity|]. unfold prover_data_items.
  rewrite (fill_section start end_ q (Z.to_nat n) salt chunks m0 Hr) by (assumption || (unfold used in Hu; lia)).
  set (L := length (stream chunks)) in *. unfold reader_new. rewrite length_app, length_replicate. fold L.
  replace (Z.to_nat (512 + Z.of_nat L)) with (L + 512)%nat by lia.
  destruct (Z.leb_spec (used + 512) n) as [H1|H1], (Nat.leb_spec (L + 512) (L + (Z.to_nat n - 1 - L))); unfold used in *; try lia; cbn [assert_that mbind option_bind]; [|reflexivity].
  rewrite take_app_ge by (fold L; lia). fold L. replace (L + 512 - L)%nat with 512%nat by lia. rewrite take_replicate, Nat.min_l by lia. now apply reader_items_stream.
Qed.

End Written.

Lemma prover_data_overcounted_witness : exists m, fill_prover_data 8192 16384 (replicate 512 7) [[1; 2; 3; 4; 5]; [9]] ∅ = Some m /\
  prover_data_items 8192 16384 m = Some ([[1; 2; 3; 4; 5]; [9]] ++ replicate 512 []).
Proof.
  apply (prover_data_overcounted 8192 16384 (replicate 512 7) [[1; 2; 3; 4; 5]; [9]] ∅).
  - split; [lia|exists 13; split; [reflexivity|unfold PAGE_SIZE_BYTES; lia]|reflexivity|]. intros a _. apply lookup_empty.
  - apply length_replicate.
  - repeat (apply List.Forall_cons; [split; [unfold bytes; repeat (apply List.Forall_cons; [unfold in_width; lia|]); apply List.Forall_nil|cbn; lia]|]). apply List.Forall_nil.
Defined.
