(* ===== verification/Continuations.v ===== *)
(** * Bootloader inputs of continuations

    [riscv/src/continuations/bootloader.rs] and the parts of [riscv/src/continuations.rs] that
    choose the pages of a chunk and build its inputs; the check that the bootloader makes on
    them is the specification. *)

From Stdlib Require Import ZArith NArith Lia.
From stdpp Require Import base list option gmap strings sorting.
From S2P Require Import Prelude Goldilocks Field RiscvElem RiscvPoseidon PanicMonad MerkleTree.

(** ** Constants *)

Definition MEMORY_SIZE_LOG : nat := 32.
Definition PAGE_SIZE_BYTES_LOG : nat := 11.
Definition BYTES_PER_WORD : nat := 4.
Definition WORDS_PER_PAGE : nat := 512.
Definition N_LEAVES_LOG : nat := 21.
Definition MERKLE_TREE_DEPTH : nat := 22.
Definition WORDS_PER_HASH : nat := 8.
Definition BOOTLOADER_INPUTS_PER_PAGE : nat := WORDS_PER_PAGE + 1 + WORDS_PER_HASH + (MERKLE_TREE_DEPTH - 1) * WORDS_PER_HASH.

Definition REGISTER_MEMORY_NAMES : list string :=
  ["main::x1"; "main::x2"; "main::x3"; "main::x4"; "main::x5"; "main::x6"; "main::x7"; "main::x8"; "main::x9"; "main::x10"; "main::x11"; "main::x12";
   "main::x13"; "main::x14"; "main::x15"; "main::x16"; "main::x17"; "main::x18"; "main::x19"; "main::x20"; "main::x21"; "main::x22"; "main::x23"; "main::x24";
   "main::x25"; "main::x26"; "main::x27"; "main::x28"; "main::x29"; "main::x30"; "main::x31"; "main::tmp1"; "main::tmp2"; "main::tmp3"; "main::tmp4";
   "main::lr_sc_reservation"]%string.
Definition REGISTER_NAMES : list string := ["main::query_arg_1"; "main::query_arg_2"; "main::pc"]%string.

Definition N_REGISTERS : nat := length REGISTER_MEMORY_NAMES + length REGISTER_NAMES.
Definition MEMORY_HASH_START_INDEX : nat := 2 * N_REGISTERS.
Definition NUM_PAGES_INDEX : nat := MEMORY_HASH_START_INDEX + WORDS_PER_HASH * 2.
Definition PAGE_INPUTS_OFFSET : nat := NUM_PAGES_INDEX + 1.
Definition PC_INDEX : nat := length REGISTER_MEMORY_NAMES + length REGISTER_NAMES - 1.
Definition DEFAULT_PC : Z := 3.

(** ** The size of the bootloader *)

Definition cost_ith_bit_zero : Z := 17 + 3.
Definition cost_ith_bit_one : Z := 32 + 3.

Definition page_bits_cost (page : N) : Z :=
  foldl (fun cost i => cost + 2 * (if (N.land page (N.shiftl 1 (N.of_nat i)) =? 0)%N then cost_ith_bit_zero else cost_ith_bit_one)) 0 (seq 0 N_LEAVES_LOG).

Definition bootloader_size (accessed_pages : list N) : Z :=
  let constant_overhead := 1 + 2 + 8 + 1 + 1 + 8 + Z.of_nat (length REGISTER_MEMORY_NAMES) + Z.of_nat (length REGISTER_NAMES) * 2 + 1 in
  let cost_per_page_fixed := 3 + 24 + 1 + Z.of_nat WORDS_PER_PAGE * 4 + Z.of_nat WORDS_PER_PAGE / 4 + 1 + 1 + 16 + 1 + 1 + 16 + 1 + 1 + 8 + 1 + 1 in
  foldl (fun cost page => cost + page_bits_cost page) (constant_overhead + Z.of_nat (length accessed_pages) * cost_per_page_fixed) accessed_pages.

Definition shutdown_routine_upper_bound (num_pages : Z) : Z :=
  let constant_overhead := 6 + (Z.of_nat (length REGISTER_MEMORY_NAMES) + Z.of_nat (length REGISTER_NAMES)) - 1 in
  let cost_per_page := 14 + Z.of_nat WORDS_PER_PAGE + Z.of_nat WORDS_PER_PAGE / 4 + Z.of_nat WORDS_PER_HASH + 2 in
  constant_overhead + num_pages * cost_per_page.

(** ** The pages of a chunk *)

(** A sorted set, [BTreeSet]. *)
Fixpoint set_insert (x : N) (s : list N) : list N :=
  match s with
  | [] => [x]
  | y :: s' => if (x <? y)%N then x :: s else if (x =? y)%N then s else y :: set_insert x s'
  end.

Record Access := mkAccess { acc_row : nat; acc_address : N }.
Definition page_of_address (a : N) : N := N.shiftr a (N.of_nat PAGE_SIZE_BYTES_LOG).

Section Chunk.
(** [slice::binary_search_by_key] on the rows: some match, or where to insert. *)
Variable binary_search_row : list Access -> nat -> nat.
Variable memory_accesses : list Access.

(** The loop that walks back to the first access of the row. *)
Fixpoint walk_back (start_idx : nat) (chunk_start_row : nat) : nat :=
  match start_idx with
  | O => O
  | S i => match memory_accesses !! i with
           | Some a => if Nat.eqb (acc_row a) chunk_start_row then walk_back i chunk_start_row else S i
           | None => S i
           end
  end.

Definition find_chunk_first_memory_access (chunk_start_row : nat) : nat := walk_back (binary_search_row memory_accesses chunk_start_row) chunk_start_row.

(** The loop over the accesses of the chunk. *)
Fixpoint all_pages_loaded (bootloader_pages : list N) (end_row : nat) (accesses : list Access) : bool :=
  match accesses with
  | [] => true
  | access :: accesses' =>
    if (end_row <=? acc_row access)%nat then true
    else if bool_decide (page_of_address (acc_address access) ∈ bootloader_pages) then all_pages_loaded bootloader_pages end_row accesses'
    else false
  end.

Definition has_all_needed_pages (bootloader_pages : list N) (chunk_start_row chunk_exec_len : nat) : bool :=
  all_pages_loaded bootloader_pages (chunk_start_row + chunk_exec_len) (drop (find_chunk_first_memory_access chunk_start_row) memory_accesses).

(** The loop of the dry run that collects the pages: the pages and the rows of the bootloader,
    or nothing when the pages do not fit in the chunk. *)
Fixpoint collect_pages (proven_trace len : nat) (bootloader_rows : nat) (accessed_pages : list N) (accesses : list Access) : option (list N * nat) :=
  match accesses with
  | [] => Some (accessed_pages, bootloader_rows)
  | access :: accesses' =>
    if (proven_trace + len - bootloader_rows <=? acc_row access)%nat then Some (accessed_pages, bootloader_rows)
    else
      let page := page_of_address (acc_address access) in
      if bool_decide (page ∈ accessed_pages) then collect_pages proven_trace len bootloader_rows accessed_pages accesses'
      else
        let accessed_pages := set_insert page accessed_pages in
        let bootloader_rows := Z.to_nat (bootloader_size accessed_pages) in
        if (len <=? bootloader_rows)%nat then None
        else if has_all_needed_pages accessed_pages proven_trace (len - bootloader_rows) then Some (accessed_pages, bootloader_rows)
        else collect_pages proven_trace len bootloader_rows accessed_pages accesses'
  end.

Definition chunk_pages (proven_trace len : nat) : option (list N * nat) :=
  collect_pages proven_trace len 0 [] (drop (find_chunk_first_memory_access proven_trace) memory_accesses).

End Chunk.

(** ** The inputs *)

Section Inputs.
Context {T : Type} `{LargeField T}.
Notation Tree := (MerkleTree (T:=T)).

Definition split_fe (v : T) : option (list T) :=
  n ← try_into_u64 v; Some [from_u32 (as_width 32 (Z.land n 0xffffffff)); from_u32 (as_width 32 (Z.shiftr n 32))].

Definition split_hash (h : list T) : option (list T) := ws ← mapM split_fe h; Some (concat ws).

Record InputPage := mkInputPage { in_page_idx : N; in_data : list T; in_hash : list T; in_proof : list (list T) }.

(** The part of [into_input] for one page. *)
Definition page_inputs (p : InputPage) : option (list T) :=
  h ← split_hash (in_hash p);
  proof ← mapM split_hash (in_proof p);
  Some (from_u32 (Z.of_N (in_page_idx p)) :: in_data p ++ h ++ concat proof).

Definition into_input (register_values : list T) (merkle_tree_root_hash : list T) (pages : list InputPage) : option (list T) :=
  root ← split_hash merkle_tree_root_hash;
  ps ← mapM page_inputs pages;
  Some (register_values ++ register_values ++ root ++ root ++ from_int (Z.of_nat (length pages)) :: concat ps).

Definition input_page (merkle_tree : Tree) (page_index : N) : option InputPage :=
  '(page, page_hash, proof) ← get MERKLE_TREE_DEPTH page_index merkle_tree; Some (mkInputPage page_index page page_hash proof).

Definition create_input (register_values : list T) (merkle_tree : Tree) (accessed_pages : list N) : option (list T) :=
  root ← root_hash MERKLE_TREE_DEPTH merkle_tree;
  pages ← mapM (input_page merkle_tree) accessed_pages;
  into_input register_values root pages.

Definition default_register_values : list T := <[PC_INDEX := from_u64 DEFAULT_PC]> (replicate N_REGISTERS (from_int 0)).

Definition default_input (accessed_pages : list N) : option (list T) :=
  merkle_tree ← new MERKLE_TREE_DEPTH WORDS_PER_PAGE; create_input default_register_values merkle_tree accessed_pages.

(** ** The inputs after the chunk is executed *)

(** [inputs[start..start + n].copy_from_slice(vs)]. *)
Definition copy_into (start n : nat) (vs inputs : list T) : option (list T) :=
  _ ← assert_that (start + n <=? length inputs)%nat;
  _ ← assert_that (Nat.eqb (length vs) n);
  Some (take start inputs ++ vs ++ drop (start + n) inputs).

Definition page_start (i : nat) : nat := PAGE_INPUTS_OFFSET + BOOTLOADER_INPUTS_PER_PAGE * i.
Definition updated_page_hash_index (i : nat) : nat := page_start i + 1 + WORDS_PER_PAGE.
Definition proof_start_index (i : nat) : nat := page_start i + 1 + WORDS_PER_PAGE + 8.

(** The siblings of a proof, from position [at_] on. *)
Fixpoint copy_proof (at_ : nat) (proof : list (list T)) (inputs : list T) : option (list T) :=
  match proof with
  | [] => Some inputs
  | sibling :: proof' => ws ← split_hash sibling; inputs' ← copy_into at_ 8 ws inputs; copy_proof (at_ + 8) proof' inputs'
  end.

Definition same_fes (xs ys : list T) : bool := Nat.eqb (length xs) (length ys) && forallb (fun xy => f_eqb (fst xy) (snd xy)) (zip xs ys).

Fixpoint assert_proof (at_ : nat) (proof : list (list T)) (inputs : list T) : option unit :=
  match proof with
  | [] => Some tt
  | sibling :: proof' =>
    _ ← assert_that (at_ + 8 <=? length inputs)%nat;
    ws ← split_hash sibling;
    _ ← assert_that (same_fes (take 8 (drop at_ inputs)) ws);
    assert_proof (at_ + 8) proof' inputs
  end.

(** [BTreeMap::remove]: the updates of a page, none if it is missing, and the other pages. *)
Definition take_updates (page_index : N) (m : list (N * list (nat * Z))) : list (nat * Z) * list (N * list (nat * Z)) :=
  (default [] (snd <$> List.find (fun p => (fst p =? page_index)%N) m), List.filter (fun p => negb (fst p =? page_index)%N) m).

(** The loop over the accessed pages: the proof of the page in the tree with the pages before
    it updated, the update of the page, and the hash of the page after it. *)
Fixpoint update_inputs (i : nat) (accessed_pages : list N) (memory_updates_by_page : list (N * list (nat * Z))) (merkle_tree : Tree) (inputs : list T) :
    option (Tree * list T) :=
  match accessed_pages with
  | [] => Some (merkle_tree, inputs)
  | page_index :: accessed_pages' =>
    '(_, _, proof) ← get MERKLE_TREE_DEPTH page_index merkle_tree;
    inputs ← copy_proof (proof_start_index i) proof inputs;
    let '(updates, memory_updates_by_page) := take_updates page_index memory_updates_by_page in
    '(_, merkle_tree) ← update_page MERKLE_TREE_DEPTH WORDS_PER_PAGE page_index updates merkle_tree;
    '(_, page_hash, proof) ← get MERKLE_TREE_DEPTH page_index merkle_tree;
    _ ← assert_proof (proof_start_index i) proof inputs;
    h ← split_hash page_hash;
    inputs ← copy_into (updated_page_hash_index i) 8 h inputs;
    update_inputs (S i) accessed_pages' memory_updates_by_page merkle_tree inputs
  end.

(** The inputs of a chunk and the tree after it, from what its execution leaves in memory and
    in the registers. *)
Definition chunk_inputs (register_values : list T) (merkle_tree : Tree) (accessed_pages : list N) (chunk_memory : list (N * Z)) (final_values : list T) :
    option (Tree * list T) :=
  inputs ← create_input register_values merkle_tree accessed_pages;
  updates ← organize_updates_by_page WORDS_PER_PAGE chunk_memory;
  '(merkle_tree, inputs) ← update_inputs 0 accessed_pages updates merkle_tree inputs;
  inputs ← copy_into N_REGISTERS N_REGISTERS final_values inputs;
  root ← root_hash MERKLE_TREE_DEPTH merkle_tree;
  ws ← split_hash root;
  inputs ← copy_into (MEMORY_HASH_START_INDEX + 8) 8 ws inputs;
  Some (merkle_tree, inputs).

(** ** What the bootloader checks *)

(** Two words as an element, eight words as a hash. *)
Definition join_fe (lo hi : T) : T := f_add lo (f_mul hi (from_u64 (2 ^ 32))).

Fixpoint join_words (ws : list T) : list T :=
  match ws with
  | lo :: hi :: ws' => join_fe lo hi :: join_words ws'
  | _ => []
  end.

Definition read_hash (inputs : list T) (at_ : nat) : list T := join_words (take 8 (drop at_ inputs)).

(** One page after the other: the root recomputed from the words of the page must be the
    current root; the one from the claimed hash becomes the current root. *)
Fixpoint bootloader_pages (n i : nat) (inputs root : list T) : option (list (N * list T) * list T) :=
  match n with
  | O => Some ([], root)
  | S n' =>
    page ← inputs !! page_start i;
    let page := Z.to_N (Z.land (to_integer page) (2 ^ Z.of_nat N_LEAVES_LOG - 1)) in
    _ ← assert_that (negb (page =? 0)%N);
    let data := take WORDS_PER_PAGE (drop (page_start i + 1) inputs) in
    let proof := (fun j => read_hash inputs (proof_start_index i + 8 * j)) <$> seq 0 N_LEAVES_LOG in
    _ ← assert_that (same_fes (climb page (leaf data) proof) root);
    '(pages, root) ← bootloader_pages n' (S i) inputs (climb page (read_hash inputs (updated_page_hash_index i)) proof);
    Some ((page, data) :: pages, root)
  end.

(** The pages and the registers with which the chunk starts, if the bootloader does not fail. *)
Definition bootloader_run (inputs : list T) : option (list (N * list T) * list T) :=
  num_pages ← inputs !! NUM_PAGES_INDEX;
  '(pages, root) ← bootloader_pages (Z.to_nat (to_integer num_pages)) 0 inputs (read_hash inputs MEMORY_HASH_START_INDEX);
  _ ← assert_that (same_fes root (read_hash inputs (MEMORY_HASH_START_INDEX + 8)));
  Some (pages, take N_REGISTERS inputs).

End Inputs.

(** ** Hashes as words *)

Section Words.
Context {T : Type} `{LL : LargeFieldLaws T}.
Hypothesis fits_64 : modulus (T:=T) <= 2 ^ 64.

Lemma split_fe_join v : exists lo hi, split_fe v = Some [lo; hi] /\ join_fe lo hi = v.
Proof.
  unfold split_fe, try_into_u64. range v. destruct (Z.ltb_spec (to_integer v) (2 ^ 64)); [|lia]. cbn [mbind option_bind]. do 2 eexists. split; [reflexivity|].
  unfold as_width. change 0xffffffff with (2 ^ 32 - 1). rewrite land_ones_mod by lia. rewrite Z.shiftr_div_pow2 by lia. rewrite Z.mod_mod by lia.
  assert (Hq : 0 <= to_integer v / 2 ^ 32) by (apply Z.div_pos; lia). pose proof (Z.mod_pos_bound (to_integer v) (2 ^ 32) ltac:(lia)) as Hm.
  assert (Hq' : to_integer v / 2 ^ 32 < 2 ^ 32) by (apply Z.div_lt_upper_bound; lia). rewrite (Z.mod_small (to_integer v / 2 ^ 32)) by lia.
  unfold join_fe. apply f_eqm_eq. rewrite f_add_eqm, f_mul_eqm, !from_u32_spec, from_u64_spec by (unfold in_width; lia). rewrite (eqm_mod modulus (2 ^ 32)).
  apply eqm_of_eq. pose proof (Z.div_mod (to_integer v) (2 ^ 32) ltac:(lia)). lia.
Qed.

Definition words_of (h : list T) : list T := default [] (split_hash h).

Lemma split_hash_words h : split_hash h = Some (words_of h) /\ length (words_of h) = (2 * length h)%nat /\ join_words (words_of h) = h.
Proof.
  unfold words_of, split_hash. induction h as [|v h (Hs & Hl & Hj)]; [now split|]. cbn [mapM]. destruct (split_fe_join v) as (lo & hi & -> & Hv). cbn [mbind option_bind] in *.
  destruct (mapM split_fe h) as [ws|]; [|discriminate]. cbn [mbind option_bind default from_option id concat app length join_words mret option_ret] in *. split; [reflexivity|]. split; [lia|]. now rewrite Hv, Hj.
Qed.

Lemma words_length h : length h = 4%nat -> length (words_of h) = 8%nat.
Proof. intros Hh. destruct (split_hash_words h) as (_ & -> & _). lia. Qed.

Lemma mapM_split proof : mapM split_hash proof = Some (words_of <$> proof).
Proof. induction proof as [|h proof IH]; [reflexivity|]. cbn [mapM]. rewrite (proj1 (split_hash_words h)). cbn [mbind option_bind]. rewrite IH. reflexivity. Qed.

Lemma same_fes_eq (xs ys : list T) : same_fes xs ys = true <-> xs = ys.
Proof.
  unfold same_fes. split.
  - intros Hs. apply andb_prop in Hs as [Hl Hs]. apply Nat.eqb_eq in Hl. revert ys Hl Hs. induction xs as [|x xs IH]; intros [|y ys] Hl Hs; cbn in *; try easy.
    apply andb_prop in Hs as [Hx Hs]. apply f_eqb_eq in Hx as ->. f_equal. apply IH; [lia|exact Hs].
  - intros <-. rewrite Nat.eqb_refl. cbn [andb]. induction xs as [|x xs IH]; [reflexivity|]. cbn. rewrite IH, andb_true_r. now apply f_eqb_eq.
Qed.

(** *** Parts of a list at their positions *)

Lemma copy_into_part (a old b vs : list T) n k : length old = n -> length vs = n -> k = length a -> copy_into k n vs (a ++ old ++ b) = Some (a ++ vs ++ b).
Proof.
  intros Ho Hv ->. unfold copy_into. rewrite !length_app. destruct (Nat.leb_spec (length a + n) (length a + (length old + length b))); [|lia]. rewrite Hv, Nat.eqb_refl.
  cbn [assert_that mbind option_bind]. rewrite take_app_length, (drop_app_ge a) by lia. replace (length a + n - length a)%nat with (length old) by lia. now rewrite drop_app_length.
Qed.

Lemma part_at (a x b : list T) n k : length x = n -> k = length a -> take n (drop k (a ++ x ++ b)) = x.
Proof. intros <- ->. now rewrite drop_app_length, take_app_length. Qed.

Definition words8 (l : list (list T)) : Prop := Forall (fun ws => length ws = 8%nat) l.

Lemma words8_length l : words8 l -> length (concat l) = (8 * length l)%nat.
Proof. induction 1 as [|ws l Hw Hl IH]; [reflexivity|]. cbn [concat length]. rewrite length_app, Hw, IH. lia. Qed.

Definition hashes4 (l : list (list T)) : Prop := Forall (fun h => length h = 4%nat) l.

Lemma words8_of l : hashes4 l -> words8 (words_of <$> l).
Proof. intros Hl. apply Forall_fmap. eapply Forall_impl; [exact Hl|]. intros h Hh. now apply words_length. Qed.

Lemma copy_proof_part proof : hashes4 proof -> forall a olds b k, words8 olds -> length olds = length proof -> k = length a ->
  copy_proof k proof (a ++ concat olds ++ b) = Some (a ++ concat (words_of <$> proof) ++ b).
Proof.
  induction 1 as [|h proof Hh Hp IH]; intros a olds b k Ho Hl Hk; destruct olds as [|old olds]; try discriminate; [reflexivity|]. apply Forall_cons in Ho as [Hold Ho].
  cbn [copy_proof concat fmap list_fmap]. rewrite (proj1 (split_hash_words h)). cbn [mbind option_bind]. rewrite <- !app_assoc, (copy_into_part a old) by (assumption || now apply words_length).
  cbn [mbind option_bind]. rewrite app_assoc, (IH (a ++ words_of h) olds b) by (try assumption; try (rewrite length_app, words_length by exact Hh; lia); cbn in Hl; lia).
  now rewrite <- app_assoc.
Qed.

Lemma assert_proof_part proof : hashes4 proof -> forall a b k, k = length a -> assert_proof k proof (a ++ concat (words_of <$> proof) ++ b) = Some tt.
Proof.
  induction 1 as [|h proof Hh Hp IH]; intros a b k Hk; [reflexivity|]. pose proof (words_length h Hh) as Hw. cbn [assert_proof concat fmap list_fmap]. rewrite <- app_assoc.
  rewrite !length_app. destruct (Nat.leb_spec (k + 8) (length a + (length (words_of h) + (length (concat (words_of <$> proof)) + length b)))); [|lia]. cbn [assert_that mbind option_bind].
  rewrite (proj1 (split_hash_words h)). cbn [mbind option_bind]. rewrite part_at by assumption. rewrite (proj2 (same_fes_eq _ _) eq_refl). cbn [assert_that mbind option_bind].
  rewrite app_assoc. apply IH. rewrite length_app. lia.
Qed.

Lemma read_hash_part (a b : list T) h k : length h = 4%nat -> k = length a -> read_hash (a ++ words_of h ++ b) k = h.
Proof. intros Hh Hk. unfold read_hash. rewrite part_at by (assumption || now apply words_length). apply split_hash_words. Qed.

Lemma read_proof_part proof : hashes4 proof -> forall a b k, k = length a -> (fun j => read_hash (a ++ concat (words_of <$> proof) ++ b) (k + 8 * j)) <$> seq 0 (length proof) = proof.
Proof.
  induction 1 as [|h proof Hh Hp IH]; intros a b k Hk; [reflexivity|]. pose proof (words_length h Hh) as Hw. cbn [length seq fmap list_fmap concat]. f_equal.
  - rewrite Nat.mul_0_r, Nat.add_0_r, <- app_assoc. now apply read_hash_part.
  - rewrite <- fmap_S_seq, <- list_fmap_compose. rewrite <- (IH (a ++ words_of h) b (k + 8)%nat) at 2 by (rewrite length_app; lia).
    apply list_fmap_ext. intros _ j _. cbn [compose]. rewrite <- !app_assoc. f_equal. lia.
Qed.

End Words.

(** ** The layout of the inputs *)

Lemma depth_ok : (0 < MERKLE_TREE_DEPTH <= 64)%nat.
Proof. unfold MERKLE_TREE_DEPTH. lia. Qed.

Lemma words_pos : (0 < WORDS_PER_PAGE)%nat.
Proof. unfold WORDS_PER_PAGE. lia. Qed.

Lemma depth_leaves : (MERKLE_TREE_DEPTH - 1)%nat = N_LEAVES_LOG.
Proof. reflexivity. Qed.

#[local] Opaque WORDS_PER_PAGE MERKLE_TREE_DEPTH N_LEAVES_LOG N_REGISTERS.

Section Layout.
Context {T : Type} `{LL : LargeFieldLaws T}.
Hypothesis fits_64 : modulus (T:=T) <= 2 ^ 64.
Notation Tree := (MerkleTree (T:=T)).

(** The part of a page, and what the parts of a page are. *)
Definition block (e : InputPage (T:=T)) : list T :=
  from_u32 (Z.of_N (in_page_idx e)) :: in_data e ++ words_of (in_hash e) ++ concat (words_of <$> in_proof e).

Record entry_ok (e : InputPage (T:=T)) : Prop := {
  entry_data : length (in_data e) = WORDS_PER_PAGE;
  entry_hash : length (in_hash e) = 4%nat;
  entry_proof : hashes4 (in_proof e) /\ length (in_proof e) = N_LEAVES_LOG
}.

Lemma block_length e : entry_ok e -> length (block e) = BOOTLOADER_INPUTS_PER_PAGE.
Proof.
  intros [Hd Hh [Hp Hl]]. unfold block, BOOTLOADER_INPUTS_PER_PAGE. rewrite depth_leaves. cbn [length]. rewrite !length_app, Hd, (words_length fits_64) by exact Hh.
  rewrite words8_length by (now apply words8_of). rewrite length_fmap, Hl. unfold WORDS_PER_HASH. lia.
Qed.

Lemma blocks_length es : Forall entry_ok es -> length (concat (block <$> es)) = (BOOTLOADER_INPUTS_PER_PAGE * length es)%nat.
Proof. induction 1 as [|e es He Hes IH]; [cbn; lia|]. cbn [fmap list_fmap concat length]. rewrite length_app, block_length, IH by exact He. lia. Qed.

Lemma page_inputs_block e : page_inputs e = Some (block e).
Proof. unfold page_inputs. rewrite (proj1 (split_hash_words fits_64 _)). cbn [mbind option_bind]. rewrite mapM_split by exact fits_64. reflexivity. Qed.

Definition head_part (regs1 regs2 root0 root1 : list T) (n : nat) : list T :=
  regs1 ++ regs2 ++ words_of root0 ++ words_of root1 ++ [from_int (Z.of_nat n)].

Definition layout (regs1 regs2 root0 root1 : list T) (es : list InputPage) : list T := head_part regs1 regs2 root0 root1 (length es) ++ concat (block <$> es).

Lemma head_part_length regs1 regs2 root0 root1 n : length regs1 = N_REGISTERS -> length regs2 = N_REGISTERS -> length root0 = 4%nat -> length root1 = 4%nat ->
  length (head_part regs1 regs2 root0 root1 n) = PAGE_INPUTS_OFFSET.
Proof.
  intros H1 H2 H3 H4. unfold head_part, PAGE_INPUTS_OFFSET, NUM_PAGES_INDEX, MEMORY_HASH_START_INDEX. rewrite !length_app, H1, H2, !(words_length fits_64) by assumption. unfold WORDS_PER_HASH. cbn [length]. lia.
Qed.

Lemma into_input_layout regs root es : into_input regs root es = Some (layout regs regs root root es).
Proof.
  unfold into_input. rewrite (proj1 (split_hash_words fits_64 _)). cbn [mbind option_bind]. replace (mapM page_inputs es) with (Some (block <$> es)).
  2: { symmetry. induction es as [|e es IH]; [reflexivity|]. cbn [mapM]. rewrite page_inputs_block. cbn [mbind option_bind]. rewrite IH. reflexivity. }
  cbn [mbind option_bind]. unfold layout, head_part. rewrite <- !app_assoc. reflexivity.
Qed.

Lemma climb_length pages p x : (p < 2 ^ N.of_nat (MERKLE_TREE_DEPTH - 1))%N -> length (climb p (leaf x) (siblings MERKLE_TREE_DEPTH pages p)) = 4%nat.
Proof. intros Hp. rewrite (climb_root MERKLE_TREE_DEPTH WORDS_PER_PAGE depth_ok words_pos pages p x Hp). apply tree_hash_length. Qed.

Lemma siblings_hashes (pages : N -> list T) p : hashes4 (siblings MERKLE_TREE_DEPTH pages p) /\ length (siblings MERKLE_TREE_DEPTH pages p) = N_LEAVES_LOG.
Proof.
  split; [|rewrite siblings_length; apply depth_leaves]. unfold siblings. apply Forall_fmap, Forall_forall. intros k _. cbn [compose]. apply tree_hash_length.
Qed.

(** *** The updates of the pages *)

Definition root_of (t : Tree) : list T := tree_hash (page_of WORDS_PER_PAGE t) N_LEAVES_LOG 0.
Definition in_tree (p : N) : Prop := (p < 2 ^ N.of_nat N_LEAVES_LOG)%N.
Definition updates_ok (m : list (N * list (nat * Z))) : Prop := Forall (fun p => Forall (in_page WORDS_PER_PAGE) (snd p)) m.

Lemma take_updates_entries p m : updates_ok m -> fst (take_updates p m) = default [] (entries m !! p) /\ Forall (in_page WORDS_PER_PAGE) (fst (take_updates p m)) /\
  updates_ok (snd (take_updates p m)) /\ forall q, q <> p -> entries (snd (take_updates p m)) !! q = entries m !! q.
Proof.
  unfold take_updates. cbn [fst snd]. induction 1 as [|[q us] m Hu Hm (IH1 & IH2 & IH3 & IH4)].
  - cbn. repeat split; try apply List.Forall_nil. 
  - cbn [List.find List.filter fst snd] in *. unfold entries in *. cbn [list_to_map foldr fst snd] in *. destruct (N.eqb_spec q p) as [->|Hn]; cbn [negb fmap option_fmap option_map default from_option id snd].
    + rewrite lookup_insert_eq. split; [reflexivity|]. split; [exact Hu|]. split; [exact IH3|]. intros q Hq. rewrite lookup_insert_ne by congruence. now apply IH4.
    + rewrite lookup_insert_ne by exact Hn. split; [exact IH1|]. split; [exact IH2|]. split; [apply List.Forall_cons; [exact Hu|exact IH3]|]. intros q' Hq.
      cbn [list_to_map foldr fst snd]. destruct (decide (q' = q)) as [->|Hq']; [now rewrite !lookup_insert_eq|]. rewrite !lookup_insert_ne by congruence. now apply IH4.
Qed.

(** The roots through the pages: from the contents before, to the hashes claimed after. *)
Fixpoint chain (root : list T) (es : list (InputPage (T:=T))) (root' : list T) : Prop :=
  match es with
  | [] => root' = root
  | e :: es' => climb (in_page_idx e) (leaf (in_data e)) (in_proof e) = root /\ chain (climb (in_page_idx e) (in_hash e) (in_proof e)) es' root'
  end.

Definition pages_updated (ps : list N) (m : list (N * list (nat * Z))) (pages : N -> list T) (p : N) : list T :=
  if bool_decide (p ∈ ps) then page_after (pages p) (default [] (entries m !! p)) else pages p.

Lemma block_parts e : block e = ([from_u32 (Z.of_N (in_page_idx e))] ++ in_data e) ++ words_of (in_hash e) ++ concat (words_of <$> in_proof e).
Proof. unfold block. now rewrite <- app_assoc. Qed.

(** Writing the proof and the hash of the page number [i]. *)
Lemma write_entry pre e rest i proof h : length pre = page_start i -> entry_ok e -> hashes4 proof -> length proof = N_LEAVES_LOG -> length h = 4%nat ->
  exists mid, copy_proof (proof_start_index i) proof (pre ++ block e ++ rest) = Some mid /\ assert_proof (proof_start_index i) proof mid = Some tt /\
    copy_into (updated_page_hash_index i) 8 (words_of h) mid = Some (pre ++ block (mkInputPage (in_page_idx e) (in_data e) h proof) ++ rest).
Proof.
  intros Hpre [Hd Hh [Hp Hl]] Hproof Hlen H4. set (a := pre ++ [from_u32 (Z.of_N (in_page_idx e))] ++ in_data e).
  assert (Ha : length a = updated_page_hash_index i) by (unfold a, updated_page_hash_index; rewrite !length_app, Hpre, Hd; cbn [length]; lia).
  assert (Hah : length (a ++ words_of (in_hash e)) = proof_start_index i) by (rewrite length_app, Ha, (words_length fits_64) by exact Hh; unfold proof_start_index, updated_page_hash_index; lia).
  exists ((a ++ words_of (in_hash e)) ++ concat (words_of <$> proof) ++ rest). split; [|split].
  - rewrite block_parts. replace (pre ++ ((_ ++ in_data e) ++ words_of (in_hash e) ++ concat (words_of <$> in_proof e)) ++ rest) with ((a ++ words_of (in_hash e)) ++ concat (words_of <$> in_proof e) ++ rest) by (unfold a; now rewrite <- !app_assoc).
    apply (copy_proof_part fits_64); [exact Hproof|now apply words8_of|rewrite length_fmap; lia|now symmetry].
  - apply (assert_proof_part fits_64); [exact Hproof|now symmetry].
  - rewrite <- app_assoc. rewrite copy_into_part by (try (now apply (words_length fits_64)); now symmetry).
    rewrite block_parts. cbn [in_page_idx in_data in_hash in_proof]. unfold a. now rewrite <- !app_assoc.
Qed.

Lemma update_inputs_run ps : forall i es pre rest t m, NoDup ps -> Forall in_tree ps -> tree_ok MERKLE_TREE_DEPTH WORDS_PER_PAGE t -> updates_ok m ->
  Forall2 (fun p e => in_page_idx e = p /\ in_data e = page_of WORDS_PER_PAGE t p /\ entry_ok e) ps es -> length pre = page_start i ->
  exists t' es', update_inputs i ps m t (pre ++ concat (block <$> es) ++ rest) = Some (t', pre ++ concat (block <$> es') ++ rest) /\
    tree_ok MERKLE_TREE_DEPTH WORDS_PER_PAGE t' /\ (forall p, page_of WORDS_PER_PAGE t' p = pages_updated ps m (page_of WORDS_PER_PAGE t) p) /\
    Forall2 (fun e e' => in_page_idx e' = in_page_idx e /\ in_data e' = in_data e /\ entry_ok e') es es' /\ chain (root_of t) es' (root_of t').
Proof.
  induction ps as [|p ps IH]; intros i es pre rest t m Hnd Hin Hok Hm Hes Hpre.
  - apply Forall2_nil_inv_l in Hes as ->. exists t, []. split; [reflexivity|]. split; [exact Hok|]. split; [reflexivity|]. split; [apply List.Forall2_nil|reflexivity].
  - apply Forall2_cons_inv_l in Hes as (e & es0 & (Hidx & Hdata & Hentry) & Hes & ->). apply NoDup_cons in Hnd as [Hnp Hnd]. apply Forall_cons in Hin as [Hp Hin].
    unfold in_tree in Hp. rewrite <- depth_leaves in Hp. destruct (take_updates_entries p m Hm) as (Ht1 & Ht2 & Ht3 & Ht4). destruct (take_updates p m) as [us m1] eqn:Htake. cbn [fst snd] in *.
    destruct (update_page_run MERKLE_TREE_DEPTH WORDS_PER_PAGE depth_ok words_pos t p us Hok Hp Ht2) as (t1 & Hrun & Hok1 & Hpg1).
    set (proof := siblings MERKLE_TREE_DEPTH (page_of WORDS_PER_PAGE t) p).
    assert (Hget : get MERKLE_TREE_DEPTH p t = Some (page_of WORDS_PER_PAGE t p, leaf (page_of WORDS_PER_PAGE t p), proof)) by exact (get_run _ _ depth_ok words_pos t p Hok Hp).
    assert (Hget1 : get MERKLE_TREE_DEPTH p t1 = Some (page_of WORDS_PER_PAGE t1 p, leaf (page_of WORDS_PER_PAGE t1 p), proof)).
    { rewrite (get_run _ _ depth_ok words_pos t1 p Hok1 Hp). rewrite (siblings_ext _ _ _ p Hpg1), (siblings_with_page _ _ depth_ok words_pos). reflexivity. }
    destruct (siblings_hashes (page_of WORDS_PER_PAGE t) p) as [Hp4 Hpl]. fold proof in Hp4, Hpl.
    set (h := leaf (page_of WORDS_PER_PAGE t1 p)) in *. assert (Hh : length h = 4%nat) by apply hash_page_leaf.
    destruct (write_entry pre e (concat (block <$> es0) ++ rest) i proof h Hpre Hentry Hp4 Hpl Hh) as (mid & Hcp & Hap & Hci).
    set (e' := mkInputPage (in_page_idx e) (in_data e) h proof) in *.
    assert (He' : entry_ok e') by (split; [apply Hentry|exact Hh|now split]).
    destruct (IH (S i) es0 (pre ++ block e') rest t1 m1 Hnd Hin Hok1 Ht3) as (t' & es' & Hrest & Hok' & Hpg' & Hes' & Hchain).
    { apply Forall2_same_length_lookup. split; [now apply Forall2_length in Hes|]. intros j q e1 Hq He1. destruct (Forall2_lookup_lr _ _ _ _ _ _ Hes Hq He1) as (H1 & H2 & H3).
      split; [exact H1|]. split; [|exact H3]. rewrite Hpg1. unfold with_page. rewrite decide_False; [exact H2|]. intros ->. apply Hnp. eapply list_elem_of_lookup_2. exact Hq. }
    { rewrite length_app, block_length by exact He'. unfold page_start in *. lia. }
    exists t', (e' :: es'). split; [|split; [exact Hok'|split; [|split]]].
    + cbn [update_inputs fmap list_fmap concat]. rewrite Hget. cbn [mbind option_bind]. rewrite <- app_assoc, Hcp. cbn [mbind option_bind]. rewrite Htake, Hrun. cbn [mbind option_bind].
      rewrite Hget1. cbn [mbind option_bind]. rewrite Hap. cbn [mbind option_bind]. rewrite (proj1 (split_hash_words fits_64 h)). cbn [mbind option_bind]. rewrite Hci. cbn [mbind option_bind].
      rewrite app_assoc, Hrest. now rewrite <- !app_assoc.
    + intros q. rewrite Hpg'. unfold pages_updated. rewrite !Hpg1. unfold with_page. destruct (decide (q = p)) as [->|Hq].
      * rewrite bool_decide_eq_false_2 by exact Hnp. rewrite bool_decide_eq_true_2 by now left. now rewrite Ht1.
      * rewrite (Ht4 q Hq). erewrite bool_decide_ext; [reflexivity|]. rewrite elem_of_cons. tauto.
    + apply List.Forall2_cons; [split; [reflexivity|now split]|exact Hes'].
    + cbn [chain in_page_idx in_data in_hash in_proof e']. rewrite Hidx, Hdata. unfold proof, root_of in *. rewrite <- depth_leaves in *. split.
      * rewrite (climb_root _ _ depth_ok words_pos _ _ _ Hp), with_same_page. reflexivity.
      * replace (climb p h _) with (tree_hash (page_of WORDS_PER_PAGE t1) (MERKLE_TREE_DEPTH - 1) 0); [exact Hchain|].
        unfold h. rewrite (climb_root _ _ depth_ok words_pos _ _ _ Hp). apply tree_hash_agree. intros j _. rewrite !Hpg1. unfold with_page. rewrite (decide_True (P := p = p)) by reflexivity. now case_decide.
Qed.

(** *** The bootloader accepts *)

Lemma page_index_read p : in_tree p -> Z.to_N (Z.land (to_integer (from_u32 (T:=T) (Z.of_N p))) (2 ^ Z.of_nat N_LEAVES_LOG - 1)) = p.
Proof.
  intros Hp. unfold in_tree in Hp. assert (Hp' : 0 <= Z.of_N p < 2 ^ Z.of_nat N_LEAVES_LOG).
  { split; [lia|]. apply N2Z.inj_lt in Hp. rewrite N2Z.inj_pow, nat_N_Z in Hp. exact Hp. }
  rewrite from_u32_spec.
  - rewrite land_ones_mod by lia. rewrite Z.mod_small by exact Hp'. lia.
  - assert (2 ^ Z.of_nat N_LEAVES_LOG <= 2 ^ 32) by (apply Z.pow_le_mono_r; [lia|]; vm_compute; discriminate). unfold in_width. lia.
Qed.

Lemma bootloader_pages_run es : Forall entry_ok es -> Forall (fun e => in_tree (in_page_idx e) /\ in_page_idx e <> 0%N) es ->
  forall i root root' pre rest, chain root es root' -> length pre = page_start i ->
  bootloader_pages (length es) i (pre ++ concat (block <$> es) ++ rest) root = Some ((fun e => (in_page_idx e, in_data e)) <$> es, root').
Proof.
  intros Hok. induction Hok as [|e es He Hok IH]; intros Hin i root root' pre rest Hchain Hpre; [cbn in *; now subst|].
  apply Forall_cons in Hin as [[Hp Hp0] Hin]. destruct Hchain as [Hroot Hchain]. pose proof He as [Hd Hh [Hpf Hl]].
  cbn [length bootloader_pages]. set (inputs := pre ++ _ ++ rest).
  set (tail_ := concat (block <$> es) ++ rest).
  assert (E : inputs = (pre ++ [from_u32 (Z.of_N (in_page_idx e))]) ++ in_data e ++ words_of (in_hash e) ++ concat (words_of <$> in_proof e) ++ tail_).
  { unfold inputs, tail_. cbn [fmap list_fmap concat]. rewrite block_parts, <- !app_assoc. reflexivity. }
  assert (Hr0 : inputs !! page_start i = Some (from_u32 (Z.of_N (in_page_idx e)))).
  { rewrite E, <- app_assoc, <- Hpre. now apply list_lookup_middle. }
  assert (Hr1 : take WORDS_PER_PAGE (drop (page_start i + 1) inputs) = in_data e).
  { rewrite E. apply part_at; [exact Hd|]. rewrite length_app, Hpre. cbn. lia. }
  assert (Hr2 : read_hash inputs (updated_page_hash_index i) = in_hash e).
  { rewrite E, (app_assoc _ (in_data e)). apply (read_hash_part fits_64); [exact Hh|]. unfold updated_page_hash_index. rewrite !length_app, Hpre, Hd. cbn. lia. }
  assert (Hr3 : (fun j => read_hash inputs (proof_start_index i + 8 * j)) <$> seq 0 N_LEAVES_LOG = in_proof e).
  { rewrite E, (app_assoc _ (in_data e)), (app_assoc _ (words_of (in_hash e))). rewrite <- Hl. apply (read_proof_part fits_64); [exact Hpf|].
    unfold proof_start_index. rewrite !length_app, Hpre, Hd, (words_length fits_64) by exact Hh. cbn. lia. }
  eapply bind_eq; [exact Hr0|]. cbv zeta. rewrite page_index_read by exact Hp. eapply bind_eq; [apply assert_that_true; now destruct (N.eqb_spec (in_page_idx e) 0)|].
  rewrite Hr1, Hr2, Hr3. eapply bind_eq; [now apply assert_that_true, same_fes_eq|]. eapply bind_eq.
  - unfold inputs. cbn [fmap list_fmap concat]. rewrite <- app_assoc, app_assoc. apply (IH Hin (S i) _ root' (pre ++ block e) rest Hchain).
    rewrite length_app, block_length by exact He. unfold page_start in *. lia.
  - reflexivity.
Qed.

Lemma pages_count ps : NoDup ps -> Forall in_tree ps -> (length ps <= N.to_nat (2 ^ N.of_nat N_LEAVES_LOG))%nat.
Proof.
  intros Hnd Hin. rewrite <- (length_fmap N.to_nat ps), <- (length_seq (N.to_nat (2 ^ N.of_nat N_LEAVES_LOG)) 0). apply submseteq_length, NoDup_submseteq.
  - apply (NoDup_fmap_2_strong N.to_nat); [intros x y _ _; apply N2Nat.inj|exact Hnd].
  - intros x Hx. apply list_elem_of_fmap in Hx as (p & -> & Hp). rewrite Forall_forall in Hin. specialize (Hin p Hp). unfold in_tree in Hin. apply elem_of_seq. split; [lia|]. cbn [Nat.add]. clear - Hin. lia.
Qed.

Lemma bootloader_run_layout regs1 regs2 root0 root1 es : length regs1 = N_REGISTERS -> length regs2 = N_REGISTERS -> length root0 = 4%nat -> length root1 = 4%nat ->
  Forall entry_ok es -> Forall (fun e => in_tree (in_page_idx e) /\ in_page_idx e <> 0%N) es -> NoDup (in_page_idx <$> es) -> chain root0 es root1 ->
  bootloader_run (layout regs1 regs2 root0 root1 es) = Some ((fun e => (in_page_idx e, in_data e)) <$> es, regs1).
Proof.
  intros H1 H2 H3 H4 Hok Hin Hnd Hchain. unfold bootloader_run. set (n := from_int (T:=T) (Z.of_nat (length es))).
  assert (E : layout regs1 regs2 root0 root1 es = (regs1 ++ regs2 ++ words_of root0 ++ words_of root1) ++ n :: concat (block <$> es)).
  { unfold layout, head_part. rewrite <- !app_assoc. reflexivity. }
  assert (Hnum : layout regs1 regs2 root0 root1 es !! NUM_PAGES_INDEX = Some n).
  { rewrite E. replace NUM_PAGES_INDEX with (length (regs1 ++ regs2 ++ words_of root0 ++ words_of root1)); [now apply list_lookup_middle|].
    rewrite !length_app, H1, H2, !(words_length fits_64) by assumption. unfold NUM_PAGES_INDEX, MEMORY_HASH_START_INDEX, WORDS_PER_HASH. lia. }
  assert (Hroot0 : read_hash (layout regs1 regs2 root0 root1 es) MEMORY_HASH_START_INDEX = root0).
  { rewrite E, <- app_assoc, app_assoc, <- app_assoc, (app_assoc regs1). rewrite <- !app_assoc, (app_assoc regs1). apply (read_hash_part fits_64); [exact H3|]. rewrite length_app, H1, H2. unfold MEMORY_HASH_START_INDEX. lia. }
  assert (Hroot1 : read_hash (layout regs1 regs2 root0 root1 es) (MEMORY_HASH_START_INDEX + 8) = root1).
  { rewrite E, <- !app_assoc, (app_assoc regs1), (app_assoc (regs1 ++ regs2)). apply (read_hash_part fits_64); [exact H4|]. rewrite !length_app, H1, H2, (words_length fits_64) by exact H3. unfold MEMORY_HASH_START_INDEX. lia. }
  assert (Hregs : take N_REGISTERS (layout regs1 regs2 root0 root1 es) = regs1) by (rewrite E, <- !app_assoc, <- H1; apply take_app_length).
  eapply bind_eq; [exact Hnum|]. rewrite Hroot0, Hroot1, Hregs.
  assert (Hlen : Z.to_nat (to_integer n) = length es).
  { unfold n. pose proof (pages_count _ Hnd ltac:(apply Forall_fmap; eapply Forall_impl; [exact Hin|]; intros e He; apply He)) as Hc. rewrite length_fmap in Hc.
    assert (Hb : Z.of_nat (length es) <= 2 ^ 21). { apply Nat2Z.inj_le in Hc. rewrite N_nat_Z in Hc. etransitivity; [exact Hc|]. vm_compute. discriminate. }
    pose proof (modulus_large (T:=T)). rewrite from_i64_spec by lia. rewrite Z.mod_small by lia. apply Nat2Z.id. }
  rewrite Hlen. eapply bind_eq.
  - unfold layout. rewrite <- (app_nil_r (concat (block <$> es))).
    apply (bootloader_pages_run es Hok Hin 0 root0 root1); [exact Hchain|]. rewrite head_part_length by assumption. unfold page_start. lia.
  - eapply bind_eq; [now apply assert_that_true, same_fes_eq|reflexivity].
Qed.

(** The pages of a tree as the bootloader is given them. *)
Definition entry_of (t : Tree) (p : N) : InputPage :=
  mkInputPage p (page_of WORDS_PER_PAGE t p) (leaf (page_of WORDS_PER_PAGE t p)) (siblings MERKLE_TREE_DEPTH (page_of WORDS_PER_PAGE t) p).

Lemma entry_of_ok t p : tree_ok MERKLE_TREE_DEPTH WORDS_PER_PAGE t -> entry_ok (entry_of t p).
Proof.
  intros Hok. split; cbn [entry_of in_data in_hash in_proof]; [apply (page_of_length _ _ _ _ (ok_shape _ _ _ Hok))|apply hash_page_leaf|apply siblings_hashes].
Qed.

Lemma input_page_entry t p : tree_ok MERKLE_TREE_DEPTH WORDS_PER_PAGE t -> in_tree p -> input_page t p = Some (entry_of t p).
Proof. intros Hok Hp. unfold in_tree in Hp. rewrite <- depth_leaves in Hp. unfold input_page. now rewrite (get_run _ _ depth_ok words_pos t p Hok Hp). Qed.

Lemma create_input_layout regs t ps : tree_ok MERKLE_TREE_DEPTH WORDS_PER_PAGE t -> Forall in_tree ps ->
  create_input regs t ps = Some (layout regs regs (root_of t) (root_of t) (entry_of t <$> ps)).
Proof.
  intros Hok Hin. unfold create_input. rewrite (root_hash_ok _ _ depth_ok words_pos t Hok), depth_leaves. cbn [mbind option_bind]. change (tree_hash _ N_LEAVES_LOG 0) with (root_of t).
  replace (mapM (input_page t) ps) with (Some (entry_of t <$> ps)); [apply into_input_layout|]. symmetry.
  induction Hin as [|p ps Hp Hin IH]; [reflexivity|]. cbn [mapM]. rewrite input_page_entry by assumption. cbn [mbind option_bind]. rewrite IH. reflexivity.
Qed.

(** The number of pages of a chunk. *)
Definition chunk_memory_ok (u : N * Z) : Prop := (fst u mod 4 = 0)%N /\ (fst u < 2 ^ N.of_nat MEMORY_SIZE_LOG)%N.

Lemma chunk_memory_in_range u : chunk_memory_ok u -> aligned_in_range MERKLE_TREE_DEPTH WORDS_PER_PAGE u.
Proof.
  intros [Ha Hu]. split; [exact Ha|]. unfold place. cbn [fst]. rewrite depth_leaves. apply N.Div0.div_lt_upper_bound, N.Div0.div_lt_upper_bound.
  eapply N.lt_le_trans; [exact Hu|]. vm_compute. discriminate.
Qed.

Lemma updated_entries t ps es' : Forall2 (fun e e' => in_page_idx e' = in_page_idx e /\ in_data e' = in_data e /\ entry_ok e') (entry_of t <$> ps) es' ->
  Forall entry_ok es' /\ in_page_idx <$> es' = ps /\ (fun e => (in_page_idx e, in_data e)) <$> es' = (fun p => (p, page_of WORDS_PER_PAGE t p)) <$> ps.
Proof.
  revert es'. induction ps as [|p ps IH]; intros es' Hes.
  - apply Forall2_nil_inv_l in Hes as ->. split; [apply List.Forall_nil|now split].
  - cbn [fmap list_fmap] in Hes. apply Forall2_cons_inv_l in Hes as (e & es1 & (H1 & H2 & H3) & Hes & ->). destruct (IH es1 Hes) as (I1 & I2 & I3). cbn [fmap list_fmap]. rewrite H1, H2.
    split; [now apply List.Forall_cons|]. split; f_equal; assumption.
Qed.

(** The final registers and the final root, written into the inputs. *)
Lemma finish_inputs regs final root root' es n : length regs = N_REGISTERS -> length final = N_REGISTERS -> length root = 4%nat -> length root' = 4%nat -> length es = n ->
  exists mid, copy_into N_REGISTERS N_REGISTERS final (head_part regs regs root root n ++ concat (block <$> es)) = Some mid /\
    copy_into (MEMORY_HASH_START_INDEX + 8) 8 (words_of root') mid = Some (layout regs final root root' es).
Proof.
  intros Hregs Hfinal Hr Hr' <-. eexists. unfold layout, head_part. rewrite <- !app_assoc. split; [apply (copy_into_part regs regs); (assumption || now symmetry)|].
  rewrite (app_assoc regs), (app_assoc (regs ++ final)). rewrite copy_into_part; [|now apply (words_length fits_64)|now apply (words_length fits_64)|].
  - now rewrite <- !app_assoc.
  - rewrite !length_app, Hregs, Hfinal, (words_length fits_64) by exact Hr. unfold MEMORY_HASH_START_INDEX. lia.
Qed.

Lemma layout_parts regs final root root' es : length regs = N_REGISTERS -> length final = N_REGISTERS -> length root = 4%nat -> length root' = 4%nat ->
  let inputs := layout regs final root root' es in
  read_hash inputs MEMORY_HASH_START_INDEX = root /\ read_hash inputs (MEMORY_HASH_START_INDEX + 8) = root' /\ take N_REGISTERS (drop N_REGISTERS inputs) = final.
Proof.
  intros Hregs Hfinal Hr Hr'. cbv zeta. unfold layout, head_part. rewrite <- !app_assoc. split; [|split].
  - rewrite (app_assoc regs). apply (read_hash_part fits_64); [exact Hr|]. rewrite length_app, Hregs, Hfinal. unfold MEMORY_HASH_START_INDEX. lia.
  - rewrite (app_assoc regs), (app_assoc (regs ++ final)). apply (read_hash_part fits_64); [exact Hr'|]. rewrite !length_app, Hregs, Hfinal, (words_length fits_64) by exact Hr. unfold MEMORY_HASH_START_INDEX. lia.
  - apply part_at; [exact Hfinal|now symmetry].
Qed.

Lemma root_of_length t : length (root_of t) = 4%nat.
Proof. apply tree_hash_length. Qed.

Lemma root_of_hash t : tree_ok MERKLE_TREE_DEPTH WORDS_PER_PAGE t -> root_hash MERKLE_TREE_DEPTH t = Some (root_of t).
Proof. intros Hok. rewrite (root_hash_ok _ _ depth_ok words_pos t Hok), depth_leaves. reflexivity. Qed.


Lemma chunk_updates t ps mem : tree_ok MERKLE_TREE_DEPTH WORDS_PER_PAGE t -> Forall chunk_memory_ok mem ->
  exists m, organize_updates_by_page WORDS_PER_PAGE mem = Some m /\ updates_ok m /\
    forall t', (forall p, page_of WORDS_PER_PAGE t' p = pages_updated ps m (page_of WORDS_PER_PAGE t) p) -> forall w,
      memory WORDS_PER_PAGE t' w = if bool_decide (fst (place WORDS_PER_PAGE w) ∈ ps) then foldl write_word (memory WORDS_PER_PAGE t) mem w else memory WORDS_PER_PAGE t w.
Proof.
  intros Hok Hmem.
  assert (Hal : Forall (aligned_in_range MERKLE_TREE_DEPTH WORDS_PER_PAGE) mem) by (eapply Forall_impl; [exact Hmem|]; apply chunk_memory_in_range).
  assert (H0' : organized MERKLE_TREE_DEPTH WORDS_PER_PAGE []) by (split; [apply SSorted_nil|apply List.Forall_nil]).
  destruct (organize_run MERKLE_TREE_DEPTH WORDS_PER_PAGE depth_ok words_pos (page_of WORDS_PER_PAGE t) mem (fun i => page_of_length _ _ t i (ok_shape _ _ t Hok)) Hal [] H0') as (m & Horg & [_ Hrange] & Hword).
  exists m. split; [exact Horg|]. split; [eapply Forall_impl; [exact Hrange|]; intros p Hp; apply Hp|].
  intros t' Hpages w. unfold memory. rewrite Hpages. unfold pages_updated. case_bool_decide; [|reflexivity]. specialize (Hword w). unfold word_of, pages_after in Hword. rewrite Hword.
  apply foldl_write_ext. intros x. reflexivity.
Qed.

(** C14: The inputs built for a chunk are accepted by the bootloader: every page hashes into the root
    that is current when it is checked, every claimed hash leads to the next one, and the last
    one is the root of the memory after the chunk. The pages paged in are those of the memory
    before it. *)
Theorem chunk_inputs_accepted regs final t ps mem : tree_ok MERKLE_TREE_DEPTH WORDS_PER_PAGE t -> length regs = N_REGISTERS -> length final = N_REGISTERS ->
  NoDup ps -> Forall (fun p => in_tree p /\ p <> 0%N) ps -> Forall chunk_memory_ok mem ->
  exists t' inputs, chunk_inputs regs t ps mem final = Some (t', inputs) /\ tree_ok MERKLE_TREE_DEPTH WORDS_PER_PAGE t' /\
    bootloader_run inputs = Some ((fun p => (p, page_of WORDS_PER_PAGE t p)) <$> ps, regs) /\
    root_hash MERKLE_TREE_DEPTH t = Some (read_hash inputs MEMORY_HASH_START_INDEX) /\
    root_hash MERKLE_TREE_DEPTH t' = Some (read_hash inputs (MEMORY_HASH_START_INDEX + 8)) /\
    take N_REGISTERS (drop N_REGISTERS inputs) = final /\
    forall w, memory WORDS_PER_PAGE t' w = if bool_decide (fst (place WORDS_PER_PAGE w) ∈ ps) then foldl write_word (memory WORDS_PER_PAGE t) mem w else memory WORDS_PER_PAGE t w.
Proof.
  intros Hok Hregs Hfinal Hnd Hps Hmem. assert (Hin : Forall in_tree ps) by (eapply Forall_impl; [exact Hps|]; intros p Hp; apply Hp).
  destruct (chunk_updates t ps mem Hok Hmem) as (m & Horg & Hm & Hword).
  pose proof (root_of_length t) as Hr0. set (es := entry_of t <$> ps).
  assert (Hes0 : Forall2 (fun p e => in_page_idx e = p /\ in_data e = page_of WORDS_PER_PAGE t p /\ entry_ok e) ps es).
  { unfold es. apply Forall2_fmap_r. apply Forall_Forall2_diag, Forall_forall. intros p _. split; [reflexivity|]. split; [reflexivity|]. now apply entry_of_ok. }
  destruct (update_inputs_run ps 0 es (head_part regs regs (root_of t) (root_of t) (length es)) [] t m Hnd Hin Hok Hm Hes0) as (t' & es' & Hup & Hok' & Hpages & Hes & Hchain).
  { rewrite head_part_length by assumption. unfold page_start. lia. }
  rewrite !app_nil_r in Hup. pose proof (root_of_length t') as Hr1. destruct (updated_entries t ps es' Hes) as (Hentries & Hidx & Hdata).
  assert (Hlen : length es' = length es) by (symmetry; eapply Forall2_length; exact Hes).
  destruct (finish_inputs regs final (root_of t) (root_of t') es' (length es) Hregs Hfinal Hr0 Hr1 Hlen) as (mid & Hc1 & Hc2).
  destruct (layout_parts regs final (root_of t) (root_of t') es' Hregs Hfinal Hr0 Hr1) as (Hp1 & Hp2 & Hp3).
  exists t', (layout regs final (root_of t) (root_of t') es'). rewrite Hp1, Hp2, Hp3, !root_of_hash by assumption.
  split.
  { unfold chunk_inputs. eapply bind_eq; [now apply create_input_layout|]. eapply bind_eq; [exact Horg|]. eapply bind_eq; [exact Hup|]. cbv beta iota. eapply bind_eq; [exact Hc1|].
    eapply bind_eq; [now apply root_of_hash|]. eapply bind_eq; [now apply split_hash_words|]. eapply bind_eq; [exact Hc2|]. reflexivity. }
  split; [exact Hok'|]. split; [|repeat split; now apply Hword].
  rewrite bootloader_run_layout; [now rewrite Hdata|assumption..| |now rewrite Hidx|exact Hchain].
  apply (Forall_fmap in_page_idx (fun p => in_tree p /\ p <> 0%N)). now rewrite Hidx.
Qed.

End Layout.

Definition demo_registers : list GoldilocksField := replicate N_REGISTERS (from_int 0).

Lemma demo_fits : modulus (T:=GoldilocksField) <= 2 ^ 64.
Proof. vm_compute. discriminate. Qed.

Lemma chunk_inputs_accepted_witness : exists (t t' : MerkleTree (T:=GoldilocksField)) inputs,
  chunk_inputs demo_registers t [5%N; 7%N] [(14336%N, 42)] demo_registers = Some (t', inputs) /\
  bootloader_run inputs = Some ((fun p => (p, page_of WORDS_PER_PAGE t p)) <$> [5%N; 7%N], demo_registers).
Proof.
  destruct (new_ok (T:=GoldilocksField) MERKLE_TREE_DEPTH WORDS_PER_PAGE depth_ok words_pos) as (t & _ & Hok & _).
  assert (Hl : length demo_registers = N_REGISTERS) by apply length_replicate.
  assert (Hnd : NoDup [5%N; 7%N]) by (apply (bool_decide_unpack (NoDup _)); vm_compute; exact I).
  assert (Hin : Forall (fun p => in_tree p /\ p <> 0%N) [5%N; 7%N]) by (repeat (apply List.Forall_cons; [split; [vm_compute; reflexivity|discriminate]|]); apply List.Forall_nil).
  assert (Hm : Forall chunk_memory_ok [(14336%N, 42)]) by (repeat (apply List.Forall_cons; [split; vm_compute; reflexivity|]); apply List.Forall_nil).
  destruct (chunk_inputs_accepted demo_fits demo_registers demo_registers t [5%N; 7%N] [(14336%N, 42)] Hok Hl Hl Hnd Hin Hm) as (t' & inputs & Hrun & _ & Hboot & _).
  exists t, t', inputs. split; [exact Hrun|exact Hboot].
Defined.

(** ** The pages of a chunk are enough *)

Section Pages.
Variable binary_search_row : list Access -> nat -> nat.
Variable memory_accesses : list Access.
Definition rows_sorted : Prop := forall i j a b, (i <= j)%nat -> memory_accesses !! i = Some a -> memory_accesses !! j = Some b -> (acc_row a <= acc_row b)%nat.
Hypothesis sorted : rows_sorted.

(** What the documentation of [binary_search_by_key] says: before the index the rows are not
    larger, from it on they are not smaller. *)
Hypothesis search_spec : forall row, let i := binary_search_row memory_accesses row in
  (forall j a, (j < i)%nat -> memory_accesses !! j = Some a -> (acc_row a <= row)%nat) /\
  (forall j a, (i <= j)%nat -> memory_accesses !! j = Some a -> (row <= acc_row a)%nat) /\ (i <= length memory_accesses)%nat.

Notation first := (find_chunk_first_memory_access binary_search_row memory_accesses).

Lemma first_access row j a : memory_accesses !! j = Some a -> (first row <= j)%nat <-> (row <= acc_row a)%nat.
Proof.
  unfold find_chunk_first_memory_access. destruct (search_spec row) as (Hlo & Hhi & Hlen). revert j a. generalize dependent (binary_search_row memory_accesses row). intros i. induction i as [|i IH]; intros Hlo Hhi Hlen j a Ha; cbn [walk_back].
  - split; [intros _; apply (Hhi j a); [lia|exact Ha]|lia].
  - destruct (lookup_lt_is_Some_2 memory_accesses i ltac:(lia)) as [b Hb]. rewrite Hb. destruct (Nat.eqb_spec (acc_row b) row) as [E|Hn].
    + apply IH; try (intros k c Hk Hc; apply (Hlo k c); [lia|exact Hc]); try lia; try exact Ha. intros k c Hk Hc. destruct (decide (k = i)) as [->|]; [assert (c = b) as -> by congruence; lia|]. apply (Hhi k c); [lia|exact Hc].
    + split; [intros Hj; now apply (Hhi j a)|]. intros Hr. destruct (decide (S i <= j)%nat) as [|Hlt]; [assumption|]. exfalso.
      pose proof (Hlo i b ltac:(lia) Hb). pose proof (sorted j i a b ltac:(lia) Ha Hb). lia.
Qed.

Lemma all_pages_loaded_spec pages end_row : forall n, all_pages_loaded pages end_row (drop n memory_accesses) = true <->
  forall j a, (n <= j)%nat -> memory_accesses !! j = Some a -> (acc_row a < end_row)%nat -> page_of_address (acc_address a) ∈ pages.
Proof.
  intros n. remember (length memory_accesses - n)%nat as k eqn:Hk. revert n Hk. induction k as [|k IH]; intros n Hk.
  - rewrite drop_ge by lia. split; [|reflexivity]. intros _ j a Hj Ha. apply lookup_lt_Some in Ha. lia.
  - destruct (lookup_lt_is_Some_2 memory_accesses n ltac:(lia)) as [x Hx]. rewrite (drop_S _ x) by exact Hx. cbn [all_pages_loaded]. destruct (Nat.leb_spec end_row (acc_row x)) as [He|He].
    + split; [|reflexivity]. intros _ j a Hj Ha Hr. pose proof (sorted n j x a Hj Hx Ha). lia.
    + case_bool_decide as Hp.
      * rewrite (IH (S n)) by lia. split; intros Hall j a Hj Ha Hr; [destruct (decide (j = n)) as [->|]; [assert (a = x) as -> by congruence; exact Hp|]|]; apply (Hall j a); try assumption; lia.
      * split; [discriminate|]. intros Hall. exfalso. apply Hp. now apply (Hall n x).
Qed.

(** [has_all_needed_pages] decides what it says: every access of the rows has its page. *)
Lemma has_all_needed_pages_spec pages start len : has_all_needed_pages binary_search_row memory_accesses pages start len = true <->
  forall a, a ∈ memory_accesses -> (start <= acc_row a < start + len)%nat -> page_of_address (acc_address a) ∈ pages.
Proof.
  unfold has_all_needed_pages. rewrite all_pages_loaded_spec. split.
  - intros Hall a Ha Hr. apply list_elem_of_lookup in Ha as [j Hj]. apply (Hall j a); [apply (first_access start j a Hj); lia|exact Hj|lia].
  - intros Hall j a Hj Ha Hr. apply (Hall a); [eapply list_elem_of_lookup_2; exact Ha|]. apply (first_access start j a Ha) in Hj. lia.
Qed.

Lemma set_insert_elem x s y : y ∈ set_insert x s <-> y = x \/ y ∈ s.
Proof.
  induction s as [|z s IH]; cbn [set_insert]; [rewrite list_elem_of_singleton, elem_of_nil; tauto|].
  destruct (x <? z)%N; [rewrite !elem_of_cons; tauto|]. destruct (N.eqb_spec x z) as [->|]; rewrite !elem_of_cons, ?IH; tauto.
Qed.

Lemma set_insert_sorted x s : StronglySorted N.lt s -> StronglySorted N.lt (set_insert x s).
Proof.
  induction 1 as [|z s Hs IH Hf]; cbn [set_insert]; [apply SSorted_cons; [apply SSorted_nil|apply List.Forall_nil]|].
  destruct (N.ltb_spec x z) as [Hlt|Hge]; [|destruct (N.eqb_spec x z) as [->|Hn]].
  - apply SSorted_cons; [now apply SSorted_cons|]. apply List.Forall_cons; [exact Hlt|]. eapply Forall_impl; [exact Hf|]. cbn. lia.
  - now apply SSorted_cons.
  - apply SSorted_cons; [exact IH|]. apply Forall_forall. intros y Hy. apply set_insert_elem in Hy as [->|Hy]; [lia|]. rewrite Forall_forall in Hf. now apply Hf.
Qed.

(** The pages so far are pages of accesses of the chunk, and the size is theirs. *)
Record collected (proven len : nat) (rows : nat) (pages : list N) : Prop := {
  collected_sorted : StronglySorted N.lt pages;
  collected_rows : pages = [] /\ rows = 0%nat \/ rows = Z.to_nat (bootloader_size pages) /\ (rows < len)%nat;
  collected_needed : forall p, p ∈ pages -> exists a, a ∈ memory_accesses /\ (proven <= acc_row a < proven + len)%nat /\ page_of_address (acc_address a) = p
}.

Lemma collect_pages_ok proven len : forall n rows pages pages' rows', (first proven <= n)%nat ->
  collected proven len rows pages ->
  (forall j a, (first proven <= j < n)%nat -> memory_accesses !! j = Some a -> page_of_address (acc_address a) ∈ pages) ->
  collect_pages binary_search_row memory_accesses proven len rows pages (drop n memory_accesses) = Some (pages', rows') ->
  collected proven len rows' pages' /\ forall a, a ∈ memory_accesses -> (proven <= acc_row a < proven + len - rows')%nat -> page_of_address (acc_address a) ∈ pages'.
Proof.
  intros n. remember (length memory_accesses - n)%nat as k eqn:Hk. revert n Hk. induction k as [|k IH]; intros n Hk rows pages pages' rows' Hn Hc Hdone.
  - rewrite drop_ge by lia. intros [= <- <-]. split; [exact Hc|]. intros a Ha Hr. apply list_elem_of_lookup in Ha as [j Hj]. apply (Hdone j a); [|exact Hj]. split; [apply (first_access proven j a Hj); lia|]. apply lookup_lt_Some in Hj. lia.
  - destruct (lookup_lt_is_Some_2 memory_accesses n ltac:(lia)) as [x Hx]. rewrite (drop_S _ x) by exact Hx. cbn [collect_pages]. destruct (Nat.leb_spec (proven + len - rows) (acc_row x)) as [He|He].
    + intros [= <- <-]. split; [exact Hc|]. intros a Ha Hr. apply list_elem_of_lookup in Ha as [j Hj]. apply (Hdone j a); [|exact Hj]. split; [apply (first_access proven j a Hj); lia|].
      destruct (decide (n <= j)%nat) as [Hnj|]; [|lia]. pose proof (sorted n j x a Hnj Hx Hj). lia.
    + assert (Hx' : (proven <= acc_row x < proven + len)%nat) by (split; [now apply (first_access proven n x Hx)|lia]).
      case_bool_decide as Hp.
      { apply (IH (S n)); try lia; [exact Hc|]. intros j a Hj Ha. destruct (decide (j = n)) as [->|]; [assert (a = x) as -> by congruence; exact Hp|]. apply (Hdone j a); [lia|exact Ha]. }
      set (pages1 := set_insert (page_of_address (acc_address x)) pages). destruct (Nat.leb_spec len (Z.to_nat (bootloader_size pages1))) as [|Hl]; [discriminate|].
      assert (Hc1 : collected proven len (Z.to_nat (bootloader_size pages1)) pages1).
      { destruct Hc as [Hs _ Hneed]. split; [now apply set_insert_sorted|right; now split|]. intros p Hpp. apply set_insert_elem in Hpp as [->|Hpp]; [|now apply Hneed].
        exists x. split; [eapply list_elem_of_lookup_2; exact Hx|]. now split. }
      destruct (has_all_needed_pages binary_search_row memory_accesses pages1 proven (len - Z.to_nat (bootloader_size pages1))) eqn:Hall.
      * intros E. apply Some_inj in E. injection E as <- <-. split; [exact Hc1|]. intros a Ha Hr. apply (proj1 (has_all_needed_pages_spec _ _ _) Hall a Ha). lia.
      * apply (IH (S n)); try lia; [exact Hc1|]. intros j a Hj Ha. apply set_insert_elem. destruct (decide (j = n)) as [->|]; [left; congruence|right]. apply (Hdone j a); [lia|exact Ha].
Qed.

(** C15: The pages chosen for a chunk are enough for the rows that are left after the bootloader:
    every access in them is to a page that the bootloader loads, and no page is loaded that the
    chunk does not access. *)
Theorem chunk_pages_cover proven len pages rows : chunk_pages binary_search_row memory_accesses proven len = Some (pages, rows) ->
  (forall a, a ∈ memory_accesses -> (proven <= acc_row a < proven + len - rows)%nat -> page_of_address (acc_address a) ∈ pages) /\
  (pages = [] /\ rows = 0%nat \/ rows = Z.to_nat (bootloader_size pages) /\ (rows < len)%nat) /\ StronglySorted N.lt pages /\
  (forall p, p ∈ pages -> exists a, a ∈ memory_accesses /\ (proven <= acc_row a < proven + len)%nat /\ page_of_address (acc_address a) = p).
Proof.
  intros Hp. apply collect_pages_ok in Hp as ([Hs Hr Hneed] & Hcover); [now repeat split|reflexivity| |intros j a Hj; lia].
  split; [apply SSorted_nil|now left|]. intros p Hin. now apply elem_of_nil in Hin.
Qed.

End Pages.

(** A search as documented, and the pages of a small log. *)
Fixpoint partition_point (l : list Access) (row : nat) : nat :=
  match l with
  | [] => O
  | a :: l' => if (acc_row a <? row)%nat then S (partition_point l' row) else O
  end.

Lemma partition_point_spec l row : rows_sorted l -> let i := partition_point l row in
  (forall j a, (j < i)%nat -> l !! j = Some a -> (acc_row a <= row)%nat) /\ (forall j a, (i <= j)%nat -> l !! j = Some a -> (row <= acc_row a)%nat) /\ (i <= length l)%nat.
Proof.
  cbv zeta. induction l as [|x l IH]; intros Hs; cbn [partition_point].
  - split; [intros j a Hj; lia|]. split; [intros j a _ Ha; discriminate|cbn; lia].
  - destruct (Nat.ltb_spec (acc_row x) row) as [Hx|Hx].
    + destruct IH as (IH1 & IH2 & IH3); [intros i j a b Hij Ha Hb; apply (Hs (S i) (S j) a b); [lia|exact Ha|exact Hb]|].
      split; [|split; [|cbn; lia]]; intros [|j] a Hj Ha; try lia; [injection Ha as <-; lia|apply (IH1 j a); [lia|exact Ha]|apply (IH2 j a); [lia|exact Ha]].
    + split; [intros j a Hj; lia|]. split; [|cbn; lia]. intros j a _ Ha. pose proof (Hs 0%nat j x a ltac:(lia) eq_refl Ha). lia.
Qed.

Definition demo_accesses : list Access := [mkAccess 2 0x1004; mkAccess 5 0x1008; mkAccess 9 0x2800; mkAccess 20000 0x8000].

Lemma demo_sorted : rows_sorted demo_accesses.
Proof.
  intros i j a b Hij Ha Hb. unfold demo_accesses in *.
  do 4 (destruct i as [|i]; [injection Ha as <-; do 4 (destruct j as [|j]; [injection Hb as <-; cbn; lia|]); discriminate|]). discriminate.
Qed.

Lemma chunk_pages_cover_witness : exists pages rows, chunk_pages partition_point demo_accesses 3 16384 = Some (pages, rows) /\
  page_of_address 0x2800 ∈ pages.
Proof.
  destruct (chunk_pages partition_point demo_accesses 3 16384) as [[pages rows]|] eqn:Hp; [|exfalso; vm_compute in Hp; discriminate].
  exists pages, rows. split; [reflexivity|].
  destruct (chunk_pages_cover partition_point demo_accesses demo_sorted (fun row => partition_point_spec demo_accesses row demo_sorted) 3 16384 pages rows Hp) as (Hc & _).
  apply (Hc (mkAccess 9 0x2800)); [right; right; now left|]. cbn [acc_row]. vm_compute in Hp. injection Hp as _ <-. split; [lia|apply Nat.ltb_lt; vm_compute; reflexivity].
Defined.
