(* ===== verification/Types.v ===== *)
(** * Types of PIL, [ast/src/parsed/types.rs]

    The types, their children, type variables and their replacement, type schemes, and what the
    type checker needs of symbol paths ([ast/src/parsed/asm.rs]). *)

From Stdlib Require Import ZArith Lia.
From stdpp Require Import base list option gmap strings pretty.
From S2P Require Import Prelude.

(** ** Symbol paths *)

Inductive Part := Super | Named (name : string).
#[export] Instance part_eq_dec : EqDecision Part.
Proof. solve_decision. Defined.

Record SymbolPath := mkSymbolPath { parts : list Part }.
#[export] Instance symbol_path_eq_dec : EqDecision SymbolPath.
Proof. solve_decision. Defined.

Definition from_identifier (name : string) : SymbolPath := mkSymbolPath [Named name].
Definition try_to_identifier (p : SymbolPath) : option string := match parts p with [Named name] => Some name | _ => None end.
Definition try_last_part (p : SymbolPath) : option string := match last (parts p) with Some (Named n) => Some n | _ => None end.
Definition path_is_std (p : SymbolPath) : bool := match head (parts p) with Some (Named n) => bool_decide (n = "std"%string) | _ => false end.

Definition part_to_string (p : Part) : string := match p with Super => "super" | Named n => n end.
Fixpoint join_parts (l : list Part) : string :=
  match l with
  | [] => ""
  | [p] => part_to_string p
  | p :: l' => part_to_string p +:+ "::" +:+ join_parts l'
  end.
Definition path_to_string (p : SymbolPath) : string := join_parts (parts p).

(** ** Types

    [E] is the type of the lengths of arrays: expressions after parsing, [u64] in the analyzer. *)
Inductive Ty {E : Type} : Type :=
| TBottom | TBool | TInt | TFe | TString | TCol | TInter | TExpr
| TArray (base : Ty) (length : option E)
| TTuple (items : list Ty)
| TFunction (params : list Ty) (value : Ty)
| TTypeVar (name : string)
| TNamedType (n : SymbolPath) (args : option (list Ty)).
Arguments Ty : clear implicits.


Section Types.
Context {E : Type}.
Notation T := (Ty E).

Definition is_elementary (t : T) : bool :=
  match t with
  | TBottom | TBool | TInt | TFe | TString | TCol | TInter | TExpr => true
  | TArray _ _ | TTuple _ | TFunction _ _ | TTypeVar _ | TNamedType _ _ => false
  end.

Definition needs_parentheses (t : T) : bool := match t with TFunction _ _ => true | _ => false end.

(** The direct sub-types. *)
Definition children (t : T) : list T :=
  match t with
  | TArray base _ => [base]
  | TTuple items => items
  | TFunction params value => params ++ [value]
  | TNamedType _ (Some args) => args
  | _ => []
  end.

(** [children_mut().for_each(f)] *)
Definition map_children (f : T -> T) (t : T) : T :=
  match t with
  | TArray base len => TArray (f base) len
  | TTuple items => TTuple (map f items)
  | TFunction params value => TFunction (map f params) (f value)
  | TNamedType n (Some args) => TNamedType n (Some (map f args))
  | _ => t
  end.

Fixpoint map_to_type_vars (type_vars : gset string) (t : T) : T :=
  match t with
  | TNamedType n None =>
    match try_to_identifier n with
    | Some identifier => if bool_decide (identifier ∈ type_vars) then TTypeVar identifier else t
    | None => t
    end
  | TNamedType n (Some []) => TNamedType n None
  | _ => map_children (map_to_type_vars type_vars) t
  end.

Fixpoint contained_named_types (t : T) : list SymbolPath :=
  match t with
  | TArray base _ => contained_named_types base
  | TTuple items => flat_map contained_named_types items
  | TFunction params value => flat_map contained_named_types params ++ contained_named_types value
  | TNamedType n (Some args) => n :: flat_map contained_named_types args
  | TNamedType n None => [n]
  | _ => []
  end.

Fixpoint contained_type_vars_with_repetitions (t : T) : list string :=
  match t with
  | TTypeVar n => [n]
  | TArray base _ => contained_type_vars_with_repetitions base
  | TTuple items => flat_map contained_type_vars_with_repetitions items
  | TFunction params value => flat_map contained_type_vars_with_repetitions params ++ contained_type_vars_with_repetitions value
  | TNamedType _ (Some args) => flat_map contained_type_vars_with_repetitions args
  | _ => []
  end.

Definition is_concrete_type (t : T) : bool := match contained_type_vars_with_repetitions t with [] => true | _ => false end.
Definition contains_type_var (t : T) (name : string) : bool := bool_decide (name ∈ contained_type_vars_with_repetitions t).

Fixpoint substitute_type_vars (substitutions : gmap string T) (t : T) : T :=
  match t with
  | TTypeVar n => default t (substitutions !! n)
  | _ => map_children (substitute_type_vars substitutions) t
  end.

(** ** Induction over the children *)

Fixpoint ty_size (t : T) : nat :=
  match t with
  | TArray base _ => S (ty_size base)
  | TTuple items => S (list_sum (map ty_size items))
  | TFunction params value => S (list_sum (map ty_size params) + ty_size value)
  | TNamedType _ (Some args) => S (list_sum (map ty_size args))
  | _ => 1
  end.

Lemma ty_size_children (t : T) : (ty_size t = S (list_sum (map ty_size (children t))))%nat.
Proof.
  destruct t as [| | | | | | | |b l|items|ps v|name|n [args|]]; try reflexivity.
  - cbn. lia.
  - cbn [ty_size children]. rewrite List.map_app, list_sum_app. cbn. lia.
Qed.

Lemma list_sum_elem (l : list nat) n : n ∈ l -> (n <= list_sum l)%nat.
Proof.
  induction l as [|m l IH]; intros Hn; [now apply elem_of_nil in Hn|]. change (list_sum (m :: l)) with (m + list_sum l)%nat.
  apply elem_of_cons in Hn as [->|Hn]; [lia|]. apply IH in Hn. lia.
Qed.

Lemma child_smaller (c t : T) : c ∈ children t -> (ty_size c < ty_size t)%nat.
Proof.
  intros Hc. assert (Hle : (ty_size c <= list_sum (map ty_size (children t)))%nat).
  { apply list_sum_elem. change (map ty_size (children t)) with (ty_size <$> children t). apply list_elem_of_fmap. now exists c. }
  rewrite (ty_size_children t). lia.
Qed.

Lemma ty_children_ind (P : T -> Prop) : (forall t, (forall c, c ∈ children t -> P c) -> P t) -> forall t, P t.
Proof.
  intros Hstep t. remember (ty_size t) as n eqn:Hn. revert t Hn. induction (lt_wf n) as [n _ IH]. intros t ->. apply Hstep. intros c Hc. apply (IH (ty_size c)); [now apply child_smaller|reflexivity].
Qed.

End Types.

(** ** Decidable equality *)

Fixpoint ty_eqb {E} `{EqDecision E} (x y : Ty E) : bool :=
  let fix list_eqb (l l' : list (Ty E)) : bool :=
    match l, l' with
    | [], [] => true
    | a :: l, b :: l' => ty_eqb a b && list_eqb l l'
    | _, _ => false
    end in
  match x, y with
  | TBottom, TBottom | TBool, TBool | TInt, TInt | TFe, TFe | TString, TString | TCol, TCol | TInter, TInter | TExpr, TExpr => true
  | TArray b l, TArray b' l' => ty_eqb b b' && bool_decide (l = l')
  | TTuple i, TTuple i' => list_eqb i i'
  | TFunction p v, TFunction p' v' => list_eqb p p' && ty_eqb v v'
  | TTypeVar n, TTypeVar n' => bool_decide (n = n')
  | TNamedType n None, TNamedType n' None => bool_decide (n = n')
  | TNamedType n (Some a), TNamedType n' (Some a') => bool_decide (n = n') && list_eqb a a'
  | _, _ => false
  end.

Lemma ty_eqb_spec {E} `{EqDecision E} (x : Ty E) : forall y, ty_eqb x y = true <-> x = y.
Proof.
  induction x as [x IH] using ty_children_ind. intros y.
  assert (Hl : forall l, (forall c, c ∈ l -> c ∈ children x) -> forall l',
    (fix list_eqb (l l' : list (Ty E)) : bool := match l, l' with [], [] => true | a :: l, b :: l' => ty_eqb a b && list_eqb l l' | _, _ => false end) l l' = true <-> l = l').
  { induction l as [|a l IHl]; intros Hin [|b l']; try (split; [discriminate|discriminate]); [now split|].
    rewrite andb_true_iff, (IH a) by (apply Hin; now left). rewrite IHl by (intros c Hc; apply Hin; now right). split; [intros [-> ->]; reflexivity|intros [= -> ->]; now split]. }
  destruct x as [| | | | | | | |b l|items|ps v|name|n [args|]], y as [| | | | | | | |b' l'|items'|ps' v'|name'|n' [args'|]]; cbn [ty_eqb];
    try (split; [discriminate|discriminate]); try (split; reflexivity).
  - rewrite andb_true_iff, (IH b) by (cbn; now left). rewrite bool_decide_eq_true. split; [intros [-> ->]; reflexivity|intros [= -> ->]; now split].
  - rewrite Hl by auto. split; [now intros ->|now intros [= ->]].
  - rewrite andb_true_iff, (IH v) by (cbn; set_solver). rewrite Hl by (cbn; set_solver). split; [intros [-> ->]; reflexivity|intros [= -> ->]; now split].
  - rewrite bool_decide_eq_true. split; [now intros ->|now intros [= ->]].
  - rewrite andb_true_iff, bool_decide_eq_true, Hl by auto. split; [intros [-> ->]; reflexivity|intros [= -> ->]; now split].
  - rewrite bool_decide_eq_true. split; [now intros ->|now intros [= ->]].
Qed.

#[export] Instance ty_eq_dec {E} `{EqDecision E} : EqDecision (Ty E).
Proof. intros x y. destruct (ty_eqb x y) eqn:He; [left; now apply ty_eqb_spec|right; intros Hxy; apply ty_eqb_spec in Hxy; congruence]. Defined.

(** ** Type schemes *)

(** The variables of a scheme with the traits they must have. *)
Definition TypeBounds : Type := list (string * gset string).
Definition bound_vars (b : TypeBounds) : list string := fst <$> b.

Record TypeScheme (E : Type) := mkTypeScheme { scheme_vars : TypeBounds; scheme_ty : Ty E }.
Arguments mkTypeScheme {E}.
Arguments scheme_vars {E}.
Arguments scheme_ty {E}.

Section Schemes.
Context {E : Type}.

(** The new names: [T], or [T1], [T2], ...; [None] is the panic on a variable that occurs twice. *)
Definition simplified_names (vars : list string) : list string :=
  match vars with
  | [_] => ["T"%string]
  | _ => (fun i : nat => "T" +:+ pretty (N.of_nat (i + 1))) <$> seq 0 (length vars)
  end.

Definition simplify_type_vars (s : TypeScheme E) : option (TypeScheme E) :=
  match scheme_vars s with
  | [] => Some s
  | vars =>
    let name_substitutions : gmap string string := list_to_map (rev (zip (bound_vars vars) (simplified_names (bound_vars vars)))) in
    _ ← assert_that (Nat.eqb (size name_substitutions) (length vars));
    bounds ← mapM (fun vb => n ← name_substitutions !! fst vb; Some (n, snd vb)) vars;
    Some (mkTypeScheme bounds (substitute_type_vars (TTypeVar <$> name_substitutions) (scheme_ty s)))
  end.

End Schemes.
