(* ===== verification/Unifier.v ===== *)
(** * The unifier of the type checker, [pil-analyzer/src/type_unifier.rs]

    Substitutions of type variables with trait bounds, and the unification of two types: what an
    accepted unification means, that it finds the most general solution, and that it terminates. *)

From Stdlib Require Import ZArith Lia.
From stdpp Require Import base list option gmap sets strings pretty.
From S2P Require Import Prelude PanicMonad Types.

(** The types of the analyzer: the lengths of arrays are [u64]. *)
Notation Ty64 := (Ty Z).

(** [elementary_type_bounds], [type_builtins.rs]; [None] is [unreachable!]. *)
Definition elementary_type_bounds (ty : Ty64) : option (list string) :=
  match ty with
  | TBottom => Some []
  | TBool => Some ["ToString"]
  | TInt => Some ["ToString"; "FromLiteral"; "Add"; "Sub"; "Neg"; "Mul"; "Mod"; "Pow"; "Ord"; "Eq"]
  | TFe => Some ["ToString"; "FromLiteral"; "Add"; "Sub"; "Neg"; "Mul"; "Pow"; "Neg"; "Eq"]
  | TString => Some ["ToString"; "Add"; "Eq"]
  | TExpr => Some ["ToString"; "FromLiteral"; "Add"; "Sub"; "Neg"; "Mul"; "Pow"; "Neg"; "Eq"]
  | TCol | TInter => Some []
  | TArray TExpr _ => Some ["Add"; "ToSelectedExprs"]
  | TArray _ _ => Some ["Add"]
  | TTuple _ => Some []
  | TFunction _ _ => Some []
  | TTypeVar _ | TNamedType _ _ => None
  end%string.

Record Unifier := mkUnifier {
  bounds_of : gmap string (gset string);
  substitutions : gmap string Ty64;
  last_type_var : N
}.

Definition unifier_default : Unifier := mkUnifier ∅ ∅ 0.
Definition set_bounds b (u : Unifier) : Unifier := mkUnifier b (substitutions u) (last_type_var u).
Definition set_substitutions s (u : Unifier) : Unifier := mkUnifier (bounds_of u) s (last_type_var u).
Definition set_last_type_var n (u : Unifier) : Unifier := mkUnifier (bounds_of u) (substitutions u) n.

(** The messages of the errors. *)
Inductive UnifyError :=
| NotSatisfied (ty : Ty64) (bound : string)
| NumberOfParameters (f1 f2 : Ty64)
| ArrayLengths (a1 a2 : Ty64)
| NumberOfItems (t1 t2 : Ty64)
| CannotUnify (ty1 ty2 : Ty64)
| DependOnEachOther (ty : Ty64) (var : string).

Inductive UnifyResult := UOk | UErr (e : UnifyError).

Notation MU := (M Unifier).

(** [?] *)
Definition and_then (r : MU UnifyResult) (k : MU UnifyResult) : MU UnifyResult :=
  x ← r; match x with UOk => k | UErr e => mret (UErr e) end.

(** [try_for_each] *)
Section TryForEach.
Context {A : Type} (f : A -> MU UnifyResult).
Fixpoint try_for_each (l : list A) : MU UnifyResult :=
  match l with [] => mret UOk | x :: l' => and_then (f x) (try_for_each l') end.
End TryForEach.

Definition type_var_bounds (type_var : string) (u : Unifier) : gset string := default ∅ (bounds_of u !! type_var).

Definition add_type_var_bound (type_var bound : string) : MU unit :=
  modify (fun u => set_bounds (<[type_var := {[bound]} ∪ type_var_bounds type_var u]> (bounds_of u)) u).

(** The children in order, when each can fail. *)
Definition map_children_opt (f : Ty64 -> option Ty64) (t : Ty64) : option Ty64 :=
  match t with
  | TArray base len => b ← f base; Some (TArray b len)
  | TTuple items => l ← mapM f items; Some (TTuple l)
  | TFunction params value => l ← mapM f params; v ← f value; Some (TFunction l v)
  | TNamedType n (Some args) => l ← mapM f args; Some (TNamedType n (Some l))
  | _ => Some t
  end.

(** The recursion follows the substitutions, so it is bounded by fuel; [None] is the overflow of the stack. *)
Fixpoint substitute (fuel : nat) (s : gmap string Ty64) (ty : Ty64) : option Ty64 :=
  match fuel with
  | O => None
  | S fuel =>
    match ty with
    | TTypeVar n =>
      match s !! n with
      | Some sub => substitute fuel s sub
      | None => Some ty
      end
    | _ => map_children_opt (substitute fuel s) ty
    end
  end.

Fixpoint ensure_bound (fuel : nat) (ty : Ty64) (bound : string) : MU UnifyResult :=
  match fuel with
  | O => panic
  | S fuel =>
    s ← gets substitutions;
    ty ← lift (substitute fuel s ty);
    let elementary := bounds ← lift (elementary_type_bounds ty); mret (if bool_decide (bound ∈ bounds) then UOk else UErr (NotSatisfied ty bound)) in
    match ty with
    | TTypeVar n => add_type_var_bound n bound;; mret UOk
    | TArray _ _ | TTuple _ =>
      if bool_decide (bound = "ToString"%string) then try_for_each (fun c => ensure_bound fuel c "ToString") (children ty) else elementary
    | TNamedType n _ =>
      if bool_decide (bound = "ToSelectedExprs"%string) && bool_decide (path_to_string n = "std::prelude::SelectedExprs"%string) then mret UOk
      else mret (UErr (NotSatisfied ty bound))
    | _ => elementary
    end
  end.

(** The bounds of a variable are visited in the order of a hash set; here, in the order of [elements]. *)
Definition add_substitution (fuel : nat) (type_var : string) (ty : Ty64) : MU UnifyResult :=
  s ← gets substitutions;
  ty ← lift (substitute fuel s ty);
  if contains_type_var ty type_var then mret (UErr (DependOnEachOther ty type_var))
  else
    bounds ← gets (type_var_bounds type_var);
    and_then (try_for_each (fun bound => ensure_bound fuel ty bound) (elements bounds))
      (modify (fun u => set_substitutions (<[type_var := ty]> (substitutions u)) u);; mret UOk).

Fixpoint unify_types (fuel : nat) (inner expected : Ty64) : MU UnifyResult :=
  match fuel with
  | O => panic
  | S fuel =>
    s ← gets substitutions;
    inner ← lift (substitute fuel s inner);
    expected ← lift (substitute fuel s expected);
    if ty_eqb inner expected then mret UOk
    else
      let unify_all l1 l2 := try_for_each (fun p => unify_types fuel (fst p) (snd p)) (zip l1 l2) in
      match inner, expected with
      | TBottom, _ | _, TBottom => mret UOk
      | TTypeVar name, ty | ty, TTypeVar name => add_substitution fuel name ty
      | TFunction params1 value1, TFunction params2 value2 =>
        if negb (length params1 =? length params2)%nat then mret (UErr (NumberOfParameters inner expected))
        else and_then (unify_all params1 params2) (unify_types fuel value1 value2)
      | TArray base1 length1, TArray base2 length2 =>
        if negb (bool_decide (length1 = length2)) then mret (UErr (ArrayLengths inner expected))
        else unify_types fuel base1 base2
      | TTuple items1, TTuple items2 =>
        if negb (length items1 =? length items2)%nat then mret (UErr (NumberOfItems inner expected))
        else unify_all items1 items2
      | TNamedType n1 (Some args1), TNamedType n2 (Some args2) =>
        if bool_decide (n1 = n2) then
          assertM (negb (length args1 =? 0)%nat && negb (length args2 =? 0)%nat);; unify_all args1 args2
        else mret (UErr (CannotUnify inner expected))
      | _, _ => mret (UErr (CannotUnify inner expected))
      end
  end.

Definition new_type_var_name : MU string :=
  modify (fun u => set_last_type_var (last_type_var u + 1) u);; n ← gets last_type_var; mret ("T" +:+ pretty n).

Definition new_type_var : MU Ty64 := name ← new_type_var_name; mret (TTypeVar name).

(** A failing bound panics ([unwrap]). *)
Definition instantiate_scheme (fuel : nat) (scheme : TypeScheme Z) : MU (Ty64 * list Ty64) :=
  vars ← map_collect (fun vb : string * gset string =>
    new_var ← new_type_var;
    for_each (fun b => r ← ensure_bound fuel new_var b; assertM (match r with UOk => true | UErr _ => false end)) (elements (snd vb));;
    mret new_var) (scheme_vars scheme);
  let subs : gmap string Ty64 := list_to_map (rev (zip (bound_vars (scheme_vars scheme)) vars)) in
  mret (substitute_type_vars subs (scheme_ty scheme), vars).

(** ** Checks on small types *)

Definition run_unify (l : list (Ty64 * Ty64)) : option (UnifyResult * Unifier) :=
  try_for_each (fun p => unify_types 50 (fst p) (snd p)) l unifier_default.

Definition var (n : string) : Ty64 := TTypeVar n.
Definition binds (r : option (UnifyResult * Unifier)) (n : string) : option Ty64 := '(_, u) ← r; substitute 50 (substitutions u) (var n).

Example unify_function : binds (run_unify [(TFunction [var "A"; TInt] (var "B"), TFunction [TArray (var "C") None; var "C"] (TTuple [var "A"]))]) "B" =
  Some (TTuple [TArray TInt None]).
Proof. vm_compute. reflexivity. Qed.

Example unify_occurs : fst <$> run_unify [(var "A", TTuple [var "B"]); (var "B", TArray (var "A") None)] =
  Some (UErr (DependOnEachOther (TArray (TTuple [var "B"]) None) "B")).
Proof. vm_compute. reflexivity. Qed.

(** ** Nodes and their children *)

Definition same_node (t t' : Ty64) : Prop :=
  match t, t' with
  | TBottom, TBottom | TBool, TBool | TInt, TInt | TFe, TFe | TString, TString | TCol, TCol | TInter, TInter | TExpr, TExpr => True
  | TArray _ l, TArray _ l' => l = l'
  | TTuple i, TTuple i' => length i = length i'
  | TFunction p _, TFunction p' _ => length p = length p'
  | TTypeVar n, TTypeVar n' => n = n'
  | TNamedType n None, TNamedType n' None => n = n'
  | TNamedType n (Some a), TNamedType n' (Some a') => n = n' /\ length a = length a'
  | _, _ => False
  end.

Ltac destruct_ty t := destruct t as [| | | | | | | |?base ?len|?items|?params ?value|?name|?path [?args|]].

Lemma same_node_eq t t' : same_node t t' -> children t = children t' -> t = t'.
Proof.
  intros Hs Hc. destruct_ty t; destruct_ty t'; cbn in Hs, Hc; try (destruct Hs); try reflexivity; try congruence.
  apply app_inj_2 in Hc as [-> Hv]; [|reflexivity]. now injection Hv as ->.
Qed.

Lemma same_node_refl t : same_node t t.
Proof. destruct_ty t; cbn; auto. Qed.

Lemma same_node_map f t : same_node t (map_children f t).
Proof. destruct_ty t; cbn; rewrite ?List.length_map; auto. Qed.

Lemma children_map (f : Ty64 -> Ty64) (t : Ty64) : children (map_children f t) = f <$> children t.
Proof. destruct_ty t; try reflexivity. cbn [children map_children]. now rewrite fmap_app. Qed.

Lemma map_children_ext (f g : Ty64 -> Ty64) (t : Ty64) : (forall c, c ∈ children t -> f c = g c) -> map_children f t = map_children g t.
Proof.
  intros Hfg. apply same_node_eq.
  - pose proof (same_node_map f t) as Hf. pose proof (same_node_map g t) as Hg. destruct_ty t; cbn in *; rewrite ?List.length_map; auto.
  - rewrite !children_map. apply list_fmap_ext. intros i c Hc. apply Hfg. eapply list_elem_of_lookup_2. exact Hc.
Qed.

Lemma map_children_opt_spec f t t' : map_children_opt f t = Some t' -> same_node t t' /\ Forall2 (fun c c' => f c = Some c') (children t) (children t').
Proof.
  intros Hm. destruct_ty t; cbn in Hm; try (injection Hm as <-; split; [exact I || reflexivity|constructor]).
  - apply bind_Some in Hm as (b & Hb & [= <-]). split; [reflexivity|]. constructor; [exact Hb|constructor].
  - apply bind_Some in Hm as (l & Hl & [= <-]). apply mapM_Some in Hl. split; [cbn; now rewrite (Forall2_length _ _ _ Hl)|exact Hl].
  - apply bind_Some in Hm as (l & Hl & Hm). apply bind_Some in Hm as (v & Hv & [= <-]). apply mapM_Some in Hl. split; [cbn; now rewrite (Forall2_length _ _ _ Hl)|].
    cbn. apply Forall2_app; [exact Hl|]. constructor; [exact Hv|constructor].
  - apply bind_Some in Hm as (l & Hl & [= <-]). apply mapM_Some in Hl. split; [cbn; now rewrite (Forall2_length _ _ _ Hl)|exact Hl].
Qed.

Lemma map_children_opt_some f t l : Forall2 (fun c c' => f c = Some c') (children t) l -> exists t', map_children_opt f t = Some t' /\ children t' = l.
Proof.
  intros Hl. destruct_ty t; cbn in Hl |- *; try (inversion Hl; subst; eexists; split; reflexivity).
  - inversion Hl as [|? b ? l' Hb Hn]; subst. inversion Hn; subst. rewrite Hb. eexists. split; reflexivity.
  - apply mapM_Some in Hl. rewrite Hl. eexists. split; reflexivity.
  - apply Forall2_app_inv_l in Hl as (l1 & l2 & Hl1 & Hl2 & ->). inversion Hl2 as [|? v ? l' Hv Hn]; subst. inversion Hn; subst. apply mapM_Some in Hl1. rewrite Hl1. cbn. rewrite Hv. eexists. split; reflexivity.
  - apply mapM_Some in Hl. rewrite Hl. eexists. split; reflexivity.
Qed.

(** *** Variables *)

Notation vars := contained_type_vars_with_repetitions.

Lemma elem_vars x (t : Ty64) : x ∈ vars t <-> t = TTypeVar x \/ exists c, c ∈ children t /\ x ∈ vars c.
Proof.
  assert (Hf : forall l : list Ty64, x ∈ flat_map vars l <-> exists c, c ∈ l /\ x ∈ vars c).
  { intros l. rewrite list_elem_of_In, in_flat_map. split; intros (c & Hc & Hx); exists c; (split; [now apply list_elem_of_In|now apply list_elem_of_In]). }
  destruct_ty t; cbn [vars children]; rewrite ?elem_of_app, ?Hf; try (split; [intros Hx; now apply elem_of_nil in Hx|intros [Hx|(c & Hc & _)]; [discriminate|now apply elem_of_nil in Hc]]).
  - split; [intros Hx; right; exists base; split; [now left|exact Hx]|intros [Hx|(c & Hc & Hx)]; [discriminate|]]. apply list_elem_of_singleton in Hc as ->. exact Hx.
  - split; [intros Hx; right; exact Hx|intros [Hx|Hx]; [discriminate|exact Hx]].
  - split.
    + intros [(c & Hc & Hx)|Hx]; right; [exists c; split; [apply elem_of_app; now left|exact Hx]|exists value; split; [apply elem_of_app; right; now left|exact Hx]].
    + intros [Hx|(c & Hc & Hx)]; [discriminate|]. apply elem_of_app in Hc as [Hc|Hc]; [left; now exists c|right]. apply list_elem_of_singleton in Hc as ->. exact Hx.
  - rewrite list_elem_of_singleton. split; [intros ->; now left|intros [[= ->]|(c & Hc & _)]; [reflexivity|now apply elem_of_nil in Hc]].
  - split; [intros Hx; right; exact Hx|intros [Hx|Hx]; [discriminate|exact Hx]].
Qed.

Lemma vars_child x c (t : Ty64) : c ∈ children t -> x ∈ vars c -> x ∈ vars t.
Proof. intros Hc Hx. apply elem_vars. right. now exists c. Qed.

(** ** Assignments *)

(** An assignment of types to variables, applied to a type. *)
Fixpoint apply (σ : string -> Ty64) (t : Ty64) : Ty64 :=
  match t with TTypeVar n => σ n | _ => map_children (apply σ) t end.

Definition is_var (t : Ty64) : bool := match t with TTypeVar _ => true | _ => false end.

Lemma apply_node σ t : is_var t = false -> apply σ t = map_children (apply σ) t.
Proof. destruct_ty t; try reflexivity. discriminate. Qed.

Lemma apply_same σ t t' : same_node t t' -> is_var t = false -> Forall2 (fun c c' => apply σ c = apply σ c') (children t) (children t') -> apply σ t = apply σ t'.
Proof.
  intros Hs Hv Hc. assert (Hv' : is_var t' = false) by (destruct_ty t; destruct_ty t'; cbn in *; congruence || easy). rewrite !apply_node by assumption. apply same_node_eq.
  - pose proof (same_node_map (apply σ) t). pose proof (same_node_map (apply σ) t'). destruct_ty t; destruct_ty t'; cbn in *; rewrite ?List.length_map; try easy; intuition congruence.
  - rewrite !children_map. induction Hc as [|c c' l l' Hcc _ IH]; [reflexivity|]. cbn. now rewrite Hcc, IH.
Qed.

(** An assignment agrees with the substitutions. *)
Definition agrees (σ : string -> Ty64) (s : gmap string Ty64) : Prop := forall x t, s !! x = Some t -> σ x = apply σ t.

Lemma substitute_step f s t : is_var t = false -> substitute (S f) s t = map_children_opt (substitute f s) t.
Proof. destruct_ty t; try reflexivity. discriminate. Qed.

Lemma substitute_agrees σ s f : forall t t', agrees σ s -> substitute f s t = Some t' -> apply σ t' = apply σ t.
Proof.
  induction f as [|f IH]; intros t t' Hag Hs; [discriminate|]. destruct (is_var t) eqn:Hv.
  - destruct_ty t; try discriminate. cbn in Hs. destruct (s !! name) as [sub|] eqn:Hn; [|now injection Hs as <-].
    rewrite (IH _ _ Hag Hs). symmetry. exact (Hag _ _ Hn).
  - rewrite substitute_step in Hs by exact Hv. apply map_children_opt_spec in Hs as [Hn Hc]. symmetry. apply apply_same; [exact Hn|exact Hv|].
    eapply Forall2_impl; [exact Hc|]. intros c c' Hcc. symmetry. now apply IH.
Qed.

(** A type without substituted variables. *)
Definition resolved (s : gmap string Ty64) (t : Ty64) : Prop := forall x, x ∈ vars t -> s !! x = None.

Lemma resolved_child s c t : resolved s t -> c ∈ children t -> resolved s c.
Proof. intros Hr Hc x Hx. apply Hr. now apply (vars_child x c). Qed.

Lemma Forall2_elem_r {A B} (P : A -> B -> Prop) l l' y : Forall2 P l l' -> y ∈ l' -> exists x, x ∈ l /\ P x y.
Proof.
  induction 1 as [|x y' l l' Hxy _ IH]; intros Hy; [now apply elem_of_nil in Hy|]. apply elem_of_cons in Hy as [->|Hy].
  - exists x. split; [now left|exact Hxy].
  - destruct (IH Hy) as (z & Hz & Hzy). exists z. split; [now right|exact Hzy].
Qed.

Lemma substitute_resolved s f : forall t t', substitute f s t = Some t' -> resolved s t'.
Proof.
  induction f as [|f IH]; intros t t' Hs; [discriminate|]. destruct (is_var t) eqn:Hv.
  - destruct_ty t; try discriminate. cbn in Hs. destruct (s !! name) as [sub|] eqn:Hn; [now apply (IH sub)|].
    injection Hs as <-. intros x Hx. apply list_elem_of_singleton in Hx as ->. exact Hn.
  - rewrite substitute_step in Hs by exact Hv. apply map_children_opt_spec in Hs as [Hn Hc]. intros x Hx. apply elem_vars in Hx as [->|(c & Hcin & Hx)].
    + destruct_ty t; cbn in Hn, Hv; easy.
    + destruct (Forall2_elem_r _ _ _ c Hc Hcin) as (c0 & _ & Hs). exact (IH _ _ Hs x Hx).
Qed.

Lemma substitute_id s t : resolved s t -> forall f, (ty_size t <= f)%nat -> substitute f s t = Some t.
Proof.
  induction t as [t IH] using ty_children_ind. intros Hr f Hf. destruct f as [|f]; [pose proof (ty_size_children t); lia|]. destruct (is_var t) eqn:Hv.
  - destruct_ty t; try discriminate. cbn. rewrite (Hr name) by (now left). reflexivity.
  - rewrite substitute_step by exact Hv. destruct (map_children_opt_some (substitute f s) t (children t)) as (t' & Ht' & Hc).
    + apply Forall2_same_length_lookup. split; [reflexivity|]. intros i x y Hx Hy. rewrite Hx in Hy. injection Hy as <-.
      assert (Hin : x ∈ children t) by (eapply list_elem_of_lookup_2; exact Hx). apply IH; [exact Hin|now apply (resolved_child s x t)|]. pose proof (child_smaller x t Hin). lia.
    + rewrite Ht'. f_equal. symmetry. apply same_node_eq; [|now symmetry]. exact (proj1 (map_children_opt_spec _ _ _ Ht')).
Qed.

(** ** What bounds and unification mean *)

Section Meaning.
(** The traits that a variable is assumed to have. *)
Variable holds : string -> string -> Prop.

(** A type has a trait. *)
Inductive sat : Ty64 -> string -> Prop :=
| sat_variable x b : holds x b -> sat (TTypeVar x) b
| sat_elementary t b l : elementary_type_bounds t = Some l -> b ∈ l -> sat t b
| sat_array base len : sat base "ToString" -> sat (TArray base len) "ToString"
| sat_tuple items : (forall c, c ∈ items -> sat c "ToString") -> sat (TTuple items) "ToString"
| sat_selected n args : path_to_string n = "std::prelude::SelectedExprs"%string -> sat (TNamedType n args) "ToSelectedExprs".

(** Types that are equal up to the type [!]. *)
Inductive compatible : Ty64 -> Ty64 -> Prop :=
| compatible_bottom_l t : compatible TBottom t
| compatible_bottom_r t : compatible t TBottom
| compatible_node t t' : same_node t t' -> Forall2 compatible (children t) (children t') -> compatible t t'.

Lemma compatible_refl t : compatible t t.
Proof.
  induction t as [t IH] using ty_children_ind. apply compatible_node; [apply same_node_refl|]. apply Forall2_same_length_lookup. split; [reflexivity|].
  intros i x y Hx Hy. rewrite Hx in Hy. injection Hy as <-. apply IH. eapply list_elem_of_lookup_2. exact Hx.
Qed.

(** An assignment solves a state: it agrees with the substitutions, and the variables without one have their bounds.
    [P] selects the variables. *)
Record solves_on (P : string -> Prop) (σ : string -> Ty64) (u : Unifier) : Prop := {
  solves_agrees : agrees σ (substitutions u);
  solves_bounds : forall x b, P x -> substitutions u !! x = None -> b ∈ type_var_bounds x u -> sat (σ x) b
}.
Definition solves : (string -> Ty64) -> Unifier -> Prop := solves_on (fun _ => True).

Lemma and_then_ok (r k : MU UnifyResult) u u' : and_then r k u = Some (UOk, u') -> exists u1, r u = Some (UOk, u1) /\ k u1 = Some (UOk, u').
Proof. unfold and_then, mbind, M_bind. destruct (r u) as [[[|e] u1]|]; [|discriminate|discriminate]. intros Hk. now exists u1. Qed.

Lemma and_then_cases (r k : MU UnifyResult) u res u' : and_then r k u = Some (res, u') ->
  (exists u1, r u = Some (UOk, u1) /\ k u1 = Some (res, u')) \/ (exists e, res = UErr e /\ r u = Some (UErr e, u')).
Proof.
  unfold and_then, mbind, M_bind. destruct (r u) as [[[|e] u1]|]; [|intros [= <- <-]; right; now exists e|discriminate]. intros Hk. left. now exists u1.
Qed.

(** *** Bounds *)

(** Adding bounds leaves the substitutions. *)
Definition more_bounds (u u' : Unifier) : Prop :=
  substitutions u' = substitutions u /\ last_type_var u' = last_type_var u /\ forall x, type_var_bounds x u ⊆ type_var_bounds x u'.

Lemma more_bounds_refl u : more_bounds u u.
Proof. now repeat split. Qed.
Lemma more_bounds_trans u1 u2 u3 : more_bounds u1 u2 -> more_bounds u2 u3 -> more_bounds u1 u3.
Proof. intros (H1 & H2 & H3) (H4 & H5 & H6). repeat split; try congruence. intros x. etransitivity; [apply H3|apply H6]. Qed.

Lemma more_bounds_solves P σ u u' : more_bounds u u' -> solves_on P σ u' -> solves_on P σ u.
Proof. intros (Hs & _ & Hb) [Ha Hsat]. split; [now rewrite <- Hs|]. intros x b HP Hx Hin. apply Hsat; [exact HP|now rewrite Hs|]. now apply Hb. Qed.

Definition bound_added (x b : string) (u : Unifier) : Unifier := set_bounds (<[x := {[b]} ∪ type_var_bounds x u]> (bounds_of u)) u.

Lemma add_bound_lookup x b u y : type_var_bounds y (bound_added x b u) = if decide (x = y) then {[b]} ∪ type_var_bounds x u else type_var_bounds y u.
Proof.
  unfold type_var_bounds at 1. cbn [bound_added set_bounds bounds_of]. destruct (decide (x = y)) as [<-|Hne]; [now rewrite lookup_insert_eq|]. now rewrite lookup_insert_ne.
Qed.

Lemma bound_added_more x b u : more_bounds u (bound_added x b u).
Proof using. clear holds. repeat split; try reflexivity. intros y. rewrite add_bound_lookup. destruct (decide (x = y)) as [<-|]; set_solver. Qed.

Lemma elementary_apply σ t l b : elementary_type_bounds t = Some l -> b ∈ l -> sat (apply σ t) b.
Proof.
  intros Hl Hb. destruct_ty t; try discriminate; try (eapply sat_elementary; [exact Hl|exact Hb]).
  - assert (Hadd : b = "Add"%string \/ base = TExpr /\ b = "ToSelectedExprs"%string).
    { destruct_ty base; cbn in Hl; injection Hl as <-; repeat (apply elem_of_cons in Hb as [->|Hb]; [auto|]); now apply elem_of_nil in Hb. }
    destruct Hadd as [->|[-> ->]]; [|eapply sat_elementary; [reflexivity|right; left]].
    assert (Hel : exists l', elementary_type_bounds (apply σ (TArray base len)) = Some l' /\ "Add"%string ∈ l').
    { cbn [apply map_children elementary_type_bounds]. destruct (apply σ base); eexists; (split; [reflexivity|left]). }
    destruct Hel as (l' & Hl' & Hin). eapply sat_elementary; [exact Hl'|exact Hin].
Qed.

Lemma substitute_same s f : forall t t', resolved s t -> substitute f s t = Some t' -> t' = t.
Proof.
  induction f as [|f IH]; intros t t' Hr Hs; [discriminate|]. destruct (is_var t) eqn:Hv.
  - destruct_ty t; try discriminate. cbn in Hs. rewrite (Hr name) in Hs by (now left). now injection Hs as <-.
  - rewrite substitute_step in Hs by exact Hv. apply map_children_opt_spec in Hs as [Hn Hc]. symmetry. apply same_node_eq; [exact Hn|].
    assert (Hrc : forall c, c ∈ children t -> resolved s c) by (intros c; now apply resolved_child).
    revert Hrc Hc. generalize (children t) as l, (children t') as l'. intros l l' Hrc Hc. induction Hc as [|c c' l l' Hcc _ IHl]; [reflexivity|].
    rewrite (IH c c' (Hrc c ltac:(now left)) Hcc). f_equal. apply IHl. intros d Hd. apply Hrc. now right.
Qed.

(** The variables of the type, after the substitutions. *)
Definition covers (P : string -> Prop) (s : gmap string Ty64) (ty : Ty64) : Prop := forall f t, substitute f s ty = Some t -> forall x, x ∈ vars t -> P x.

Lemma covers_resolved P s t c : resolved s t -> (forall x, x ∈ vars t -> P x) -> c ∈ children t -> covers P s c.
Proof.
  intros Hr Ht Hc f c' Hs x Hx. pose proof (resolved_child s c t Hr Hc) as Hrc. rewrite (substitute_same _ _ _ _ Hrc Hs) in Hx. apply Ht. now apply (vars_child x c).
Qed.

(** A bound that is ensured holds in every solution. *)
Definition ensures (f : nat) : Prop := forall ty b u r u', ensure_bound f ty b u = Some (r, u') ->
  more_bounds u u' /\ (r = UOk -> forall P σ, covers P (substitutions u) ty -> solves_on P σ u' -> sat (apply σ ty) b).

Lemma ensure_all_sound f : ensures f ->
  forall {A} (g : A -> Ty64 * string) l u r u', try_for_each (fun x => ensure_bound f (fst (g x)) (snd (g x))) l u = Some (r, u') ->
  more_bounds u u' /\ (r = UOk -> forall P σ, (forall x, x ∈ l -> covers P (substitutions u) (fst (g x))) -> solves_on P σ u' -> forall x, x ∈ l -> sat (apply σ (fst (g x))) (snd (g x))).
Proof.
  intros IH A g l. induction l as [|x l IHl]; intros u r u' Hr.
  - injection Hr as <- <-. split; [apply more_bounds_refl|]. intros _ P σ _ _ x Hx. now apply elem_of_nil in Hx.
  - cbn [try_for_each] in Hr. apply and_then_cases in Hr as [(u1 & H1 & H2)|(e & -> & H1)].
    + destruct (IH _ _ _ _ _ H1) as [Hm1 Hs1]. destruct (IHl _ _ _ H2) as [Hm2 Hs2]. split; [now apply (more_bounds_trans u u1)|]. intros -> P σ Hc Hσ y Hy.
      apply elem_of_cons in Hy as [->|Hy].
      * apply (Hs1 eq_refl P σ); [apply Hc; now left|]. now apply (more_bounds_solves P σ u1 u').
      * apply (Hs2 eq_refl P σ); [|exact Hσ|exact Hy]. intros z Hz. rewrite (proj1 Hm1). apply Hc. now right.
    + destruct (IH _ _ _ _ _ H1) as [Hm1 _]. split; [exact Hm1|discriminate].
Qed.

Lemma ensure_bound_sound f : ensures f.
Proof.
  induction f as [|f IH]; intros ty b u r u' Hr; [discriminate|]. cbn [ensure_bound] in Hr. unfold gets, lift in Hr. unfold mbind at 1, M_bind at 1 in Hr. unfold mbind at 1, M_bind at 1 in Hr.
  destruct (substitute f (substitutions u) ty) as [t|] eqn:Ht; [|discriminate]. pose proof (substitute_resolved _ _ _ _ Ht) as Hres.
  assert (Happ : forall P u' σ, more_bounds u u' -> solves_on P σ u' -> apply σ t = apply σ ty).
  { intros P u2 σ Hm Hσ. apply (substitute_agrees σ (substitutions u) f); [|exact Ht]. apply (more_bounds_solves P σ u u2 Hm Hσ). }
  assert (Helem : (bounds ← lift (elementary_type_bounds t); mret (if bool_decide (b ∈ bounds) then UOk else UErr (NotSatisfied t b)) : MU UnifyResult) u = Some (r, u') ->
    more_bounds u u' /\ (r = UOk -> forall P σ, covers P (substitutions u) ty -> solves_on P σ u' -> sat (apply σ ty) b)).
  { intros He. unfold lift, mbind, M_bind in He. destruct (elementary_type_bounds t) as [l|] eqn:Hl; [|discriminate]. injection He as <- <-. split; [apply more_bounds_refl|].
    destruct (bool_decide (b ∈ l)) eqn:Hb; [|discriminate]. apply bool_decide_eq_true in Hb. intros _ P σ _ Hσ. rewrite <- (Happ P u σ (more_bounds_refl u) Hσ). now apply (elementary_apply σ t l). }
  assert (Hnamed : forall n args, (t = TNamedType n args) ->
    (if bool_decide (b = "ToSelectedExprs"%string) && bool_decide (path_to_string n = "std::prelude::SelectedExprs"%string) then mret UOk else mret (UErr (NotSatisfied t b)) : MU UnifyResult) u = Some (r, u') ->
    more_bounds u u' /\ (r = UOk -> forall P σ, covers P (substitutions u) ty -> solves_on P σ u' -> sat (apply σ ty) b)).
  { intros n args Hn Hc. destruct (bool_decide (b = _) && _) eqn:Hb; injection Hc as <- <-; (split; [apply more_bounds_refl|]); [|discriminate].
    apply andb_true_iff in Hb as [Hb Hp]. apply bool_decide_eq_true in Hb, Hp. subst b. intros _ P σ _ Hσ. rewrite <- (Happ P u σ (more_bounds_refl u) Hσ), Hn. destruct args; apply sat_selected; exact Hp. }
  assert (Hall : try_for_each (fun c => ensure_bound f c "ToString") (children t) u = Some (r, u') ->
    more_bounds u u' /\ (r = UOk -> forall P σ, covers P (substitutions u) ty -> solves_on P σ u' -> apply σ ty = apply σ t /\ forall c, c ∈ children t -> sat (apply σ c) "ToString")).
  { intros Hc. destruct (ensure_all_sound f IH (fun c => (c, "ToString"%string)) _ _ _ _ Hc) as [Hm Hs]. split; [exact Hm|]. intros -> P σ HP Hσ.
    split; [symmetry; exact (Happ P u' σ Hm Hσ)|]. apply (Hs eq_refl P σ); [|exact Hσ]. intros c Hcin. apply (covers_resolved P _ t c Hres); [|exact Hcin]. exact (HP f t Ht). }
  destruct_ty t; try exact (Helem Hr); try exact (Hnamed _ _ eq_refl Hr).
  - destruct (bool_decide (b = "ToString"%string)) eqn:Hb; [apply bool_decide_eq_true in Hb|exact (Helem Hr)]. subst b. destruct (Hall Hr) as [Hm Hs]. split; [exact Hm|].
    intros -> P σ HP Hσ. destruct (Hs eq_refl P σ HP Hσ) as [-> Hc]. cbn. apply sat_array. apply Hc. now left.
  - destruct (bool_decide (b = "ToString"%string)) eqn:Hb; [apply bool_decide_eq_true in Hb|exact (Helem Hr)]. subst b. destruct (Hall Hr) as [Hm Hs]. split; [exact Hm|].
    intros -> P σ HP Hσ. destruct (Hs eq_refl P σ HP Hσ) as [-> Hc]. cbn. apply sat_tuple. intros c Hcin. apply (list_elem_of_fmap (apply σ)) in Hcin as (c0 & -> & Hc0). now apply Hc.
  - assert (Hu : u' = bound_added name b u /\ r = UOk) by (now injection Hr). destruct Hu as [-> ->]. pose proof (bound_added_more name b u) as Hm. split; [exact Hm|].
    intros _ P σ HP Hσ. rewrite <- (Happ P _ σ Hm Hσ). cbn [apply]. apply (solves_bounds P σ _ Hσ); [apply (HP f _ Ht); now left| |rewrite add_bound_lookup, decide_True by reflexivity; set_solver].
    apply Hres. now left.
Qed.


(** Bounds are only added to the variables of the type. *)
Lemma ensure_bound_untouched f : forall ty b u r u' x, ensure_bound f ty b u = Some (r, u') ->
  (forall f' t, substitute f' (substitutions u) ty = Some t -> x ∉ vars t) -> type_var_bounds x u' = type_var_bounds x u.
Proof.
  induction f as [|f IH]; intros ty b u r u' x Hr Hx; [discriminate|]. cbn [ensure_bound] in Hr. unfold gets, lift in Hr. unfold mbind at 1, M_bind at 1 in Hr. unfold mbind at 1, M_bind at 1 in Hr.
  destruct (substitute f (substitutions u) ty) as [t|] eqn:Ht; [|discriminate].
  assert (Hall : forall l u r, (forall c, c ∈ l -> resolved (substitutions u) c /\ x ∉ vars c) -> try_for_each (fun c => ensure_bound f c "ToString") l u = Some (r, u') -> type_var_bounds x u' = type_var_bounds x u).
  { clear -IH holds. induction l as [|c l IHl]; intros u r Hc Hr; [now injection Hr as <- <-|]. cbn [try_for_each] in Hr.
    assert (Hone : forall res u1, ensure_bound f c "ToString" u = Some (res, u1) -> type_var_bounds x u1 = type_var_bounds x u).
    { intros res u1 H1. apply (IH _ _ _ _ _ _ H1). intros f' t Ht. destruct (Hc c ltac:(now left)) as [Hres Hxc]. now rewrite (substitute_same _ _ _ _ Hres Ht). }
    apply and_then_cases in Hr as [(u1 & H1 & H2)|(e & -> & H1)]; [|now apply Hone in H1]. destruct (ensure_bound_sound f _ _ _ _ _ H1) as [(Hs & _ & _) _].
    rewrite (IHl u1 r); [now apply Hone in H1| |exact H2]. intros d Hd. rewrite Hs. apply Hc. now right. }
  assert (Hch : forall c, c ∈ children t -> resolved (substitutions u) c /\ x ∉ vars c).
  { intros c Hc. split; [exact (resolved_child _ c t (substitute_resolved _ _ _ _ Ht) Hc)|]. intros Hxc. apply (Hx f t Ht). now apply (vars_child x c). }
  destruct_ty t; unfold lift, mbind, M_bind in Hr; cbn in Hr; try (now injection Hr as <- <-).
  - destruct (bool_decide (b = "ToString"%string)); [exact (Hall _ _ _ Hch Hr)|]. now destruct_ty base; injection Hr as <- <-.
  - destruct (bool_decide (b = "ToString"%string)); [exact (Hall _ _ _ Hch Hr)|]. now injection Hr as <- <-.
  - assert (Hu : u' = bound_added name b u) by (now injection Hr). subst u'. rewrite add_bound_lookup, decide_False; [reflexivity|].
    intros ->. apply (Hx f _ Ht). now left.
  - destruct (_ && _); now injection Hr as <- <-.
  - destruct (_ && _); now injection Hr as <- <-.
Qed.

(** ** Soundness *)

(** The substituted variables that occur in a substitution have a smaller rank. *)
Definition acyclic (s : gmap string Ty64) : Prop :=
  exists rank : string -> nat, forall x t y, s !! x = Some t -> y ∈ vars t -> is_Some (s !! y) -> (rank y < rank x)%nat.

Lemma acyclic_empty : acyclic ∅.
Proof. exists (fun _ => 0%nat). intros x t y Hx. rewrite lookup_empty in Hx. discriminate. Qed.

Lemma acyclic_insert s x t : acyclic s -> resolved s t -> x ∉ vars t -> acyclic (<[x := t]> s).
Proof.
  intros [rank Hr] Ht Hx. exists (fun y => if decide (y = x) then 0%nat else S (rank y)). intros y t' z Hy Hz Hsome.
  apply lookup_insert_Some in Hy as [[<- <-]|[Hne Hy]].
  - exfalso. destruct Hsome as [w [[-> _]|[_ Hw]]%lookup_insert_Some]; [contradiction|]. rewrite (Ht z Hz) in Hw. discriminate.
  - rewrite (decide_False (P := y = x)) by congruence. destruct (decide (z = x)) as [->|Hzx]; [lia|]. destruct Hsome as [w [[<- _]|[_ Hw]]%lookup_insert_Some]; [contradiction|].
    specialize (Hr y t' z Hy Hz (ex_intro _ w Hw)). lia.
Qed.

(** A property of all nodes of a type. *)
Inductive everywhere (Q : Ty64 -> Prop) : Ty64 -> Prop := everywhere_intro t : Q t -> (forall c, c ∈ children t -> everywhere Q c) -> everywhere Q t.

Lemma everywhere_child Q t c : everywhere Q t -> c ∈ children t -> everywhere Q c.
Proof. intros [? _ Hc]. apply Hc. Qed.

Lemma everywhere_here Q t : everywhere Q t -> Q t.
Proof. now intros [? Hn _]. Qed.

Lemma substitute_everywhere Q : (forall t t', same_node t t' -> Q t -> Q t') -> forall s f, (forall x t, s !! x = Some t -> everywhere Q t) ->
  forall t t', everywhere Q t -> substitute f s t = Some t' -> everywhere Q t'.
Proof.
  intros HQ s f Hs. induction f as [|f IH]; intros t t' Hq Ht; [discriminate|]. destruct (is_var t) eqn:Hv.
  - destruct_ty t; try discriminate. cbn in Ht. destruct (s !! name) as [sub|] eqn:Hn; [apply (IH sub); [exact (Hs _ _ Hn)|exact Ht]|now injection Ht as <-].
  - rewrite substitute_step in Ht by exact Hv. apply map_children_opt_spec in Ht as [Hn Hc]. destruct Hq as [t Hnode Hch]. constructor; [exact (HQ t t' Hn Hnode)|].
    intros c Hcin. destruct (Forall2_elem_r _ _ _ c Hc Hcin) as (c0 & Hc0 & Hsub). exact (IH c0 c (Hch c0 Hc0) Hsub).
Qed.

Section Sound.
(** The number of arguments of each named type. *)
Variable arity : SymbolPath -> nat.

Definition wf_node (t : Ty64) : Prop := match t with TNamedType n (Some args) => length args = arity n /\ (0 < length args)%nat | _ => True end.
Definition well_formed : Ty64 -> Prop := everywhere wf_node.
Definition wf_substitutions (s : gmap string Ty64) : Prop := acyclic s /\ forall x t, s !! x = Some t -> well_formed t.

Lemma wf_same_node t t' : same_node t t' -> wf_node t -> wf_node t'.
Proof. destruct_ty t; destruct_ty t'; cbn; try easy. intros [-> <-]. auto. Qed.

Lemma substitute_wf s f : wf_substitutions s -> forall t t', well_formed t -> substitute f s t = Some t' -> well_formed t'.
Proof. intros [_ Hs]. exact (substitute_everywhere wf_node wf_same_node s f Hs). Qed.

Lemma add_substitution_spec f x ty u r u' : add_substitution f x ty u = Some (r, u') -> substitutions u !! x = None -> well_formed ty -> wf_substitutions (substitutions u) ->
  wf_substitutions (substitutions u') /\ (r = UOk -> forall σ, solves σ u' -> solves σ u /\ σ x = apply σ ty).
Proof.
  intros Hr Hx Hwf Hs. unfold add_substitution, gets, lift in Hr. unfold mbind at 1, M_bind at 1 in Hr. unfold mbind at 1, M_bind at 1 in Hr.
  destruct (substitute f (substitutions u) ty) as [t|] eqn:Ht; [|discriminate]. destruct (contains_type_var t x) eqn:Hocc; [injection Hr as <- <-; split; [exact Hs|discriminate]|].
  apply bool_decide_eq_false in Hocc. unfold mbind at 1, M_bind at 1 in Hr.
  pose proof (ensure_all_sound f (ensure_bound_sound f) (fun b => (t, b)) (elements (type_var_bounds x u)) u) as Hall. cbn [fst snd] in Hall.
  apply and_then_cases in Hr as [(u1 & H1 & H2)|(e & -> & H1)]; [|destruct (Hall _ _ H1) as [(Hss & _) _]; split; [now rewrite Hss|discriminate]].
  destruct (Hall _ _ H1) as [Hm Hsat]. pose proof Hm as (Hss & _ & Hbs). injection H2 as <- <-. cbn [set_substitutions substitutions]. rewrite Hss. split.
  { split; [apply acyclic_insert; [exact (proj1 Hs)|exact (substitute_resolved _ _ _ _ Ht)|exact Hocc]|].
    intros y t' [[<- <-]|[_ Hy]]%lookup_insert_Some; [exact (substitute_wf _ _ Hs _ _ Hwf Ht)|exact (proj2 Hs _ _ Hy)]. }
  intros _ σ [Ha Hb]. change (agrees σ (<[x := t]> (substitutions u))) in Ha. change (forall z b, True -> <[x := t]> (substitutions u) !! z = None -> b ∈ type_var_bounds z u1 -> sat (σ z) b) in Hb.
  assert (Hagree : agrees σ (substitutions u)) by (intros y t' Hy; apply Ha; rewrite lookup_insert_ne; [exact Hy|congruence]).
  assert (Htx : σ x = apply σ ty) by (rewrite <- (substitute_agrees σ _ _ _ _ Hagree Ht); apply Ha; apply lookup_insert_eq). split; [|exact Htx].
  assert (Hx1 : type_var_bounds x u1 = type_var_bounds x u).
  { clear -H1 Ht Hocc holds. pose proof (substitute_resolved _ _ _ _ Ht) as Hres. revert H1. generalize (elements (type_var_bounds x u)) as l. intros l. revert u Ht Hres. induction l as [|b l IH]; intros u Ht Hres H1; [now injection H1 as <-|].
    cbn [try_for_each] in H1. apply and_then_ok in H1 as (u2 & H2 & H3). pose proof (proj1 (proj1 (ensure_bound_sound f _ _ _ _ _ H2))) as Hs2.
    rewrite (IH u2); [|now rewrite Hs2|now rewrite Hs2|exact H3]. apply (ensure_bound_untouched f _ _ _ _ _ x H2). intros f' t' Ht'. now rewrite (substitute_same _ _ _ _ Hres Ht'). }
  assert (Hon : solves_on (fun y => y <> x) σ u1).
  { split; [now rewrite Hss|]. intros y b Hne Hy Hin. rewrite Hss in Hy. apply Hb; [exact I|rewrite lookup_insert_ne by congruence; exact Hy|exact Hin]. }
  split; [exact Hagree|]. intros y b _ Hy Hin. destruct (decide (y = x)) as [->|Hne].
  - rewrite Htx, <- (substitute_agrees σ _ _ _ _ Hagree Ht). apply (Hsat eq_refl (fun y => y <> x) σ); [|exact Hon|now apply elem_of_elements].
    intros b' _ f' t' Ht' y Hy'. rewrite (substitute_same _ _ _ _ (substitute_resolved _ _ _ _ Ht) Ht') in Hy'. now intros ->.
  - apply (solves_bounds _ _ _ Hon); [exact Hne|now rewrite Hss|now apply Hbs].
Qed.

Lemma and_then_ret (r : MU UnifyResult) u : and_then r (mret UOk) u = r u.
Proof. unfold and_then, mbind, M_bind. now destruct (r u) as [[[|e] u1]|]. Qed.

Lemma and_then_ext (r k k' : MU UnifyResult) u : (forall u1, k u1 = k' u1) -> and_then r k u = and_then r k' u.
Proof. intros Hk. unfold and_then, mbind, M_bind. destruct (r u) as [[[|e] u1]|]; [apply Hk|reflexivity|reflexivity]. Qed.

Lemma and_then_assoc (r k l : MU UnifyResult) u : and_then (and_then r k) l u = and_then r (and_then k l) u.
Proof. unfold and_then, mbind, M_bind. destruct (r u) as [[[|e] u1]|]; reflexivity. Qed.

Lemma try_for_each_app {A} (f : A -> MU UnifyResult) l1 l2 u : try_for_each f (l1 ++ l2) u = and_then (try_for_each f l1) (try_for_each f l2) u.
Proof.
  revert u. induction l1 as [|x l1 IH]; intros u; [reflexivity|]. cbn [app try_for_each]. rewrite and_then_assoc. apply and_then_ext. exact IH.
Qed.

(** What an accepted unification of two types means. *)
Definition unifies (f : nat) : Prop := forall a b u r u', unify_types f a b u = Some (r, u') -> well_formed a -> well_formed b -> wf_substitutions (substitutions u) ->
  wf_substitutions (substitutions u') /\ (r = UOk -> forall σ, solves σ u' -> solves σ u /\ compatible (apply σ a) (apply σ b)).

Lemma unify_all_sound f : unifies f -> forall l u r u', try_for_each (fun p => unify_types f (fst p) (snd p)) l u = Some (r, u') ->
  Forall (fun p => well_formed (fst p) /\ well_formed (snd p)) l -> wf_substitutions (substitutions u) ->
  wf_substitutions (substitutions u') /\ (r = UOk -> forall σ, solves σ u' -> solves σ u /\ Forall (fun p => compatible (apply σ (fst p)) (apply σ (snd p))) l).
Proof.
  intros IH l. induction l as [|[a b] l IHl]; intros u r u' Hr Hwf Hs.
  - injection Hr as <- <-. split; [exact Hs|]. intros _ σ Hσ. split; [exact Hσ|constructor].
  - apply Forall_cons in Hwf as [[Ha Hb] Hwf]. cbn [try_for_each fst snd] in *. apply and_then_cases in Hr as [(u1 & H1 & H2)|(e & -> & H1)].
    + destruct (IH _ _ _ _ _ H1 Ha Hb Hs) as [Hs1 Hok1]. destruct (IHl _ _ _ H2 Hwf Hs1) as [Hs2 Hok2]. split; [exact Hs2|]. intros -> σ Hσ.
      destruct (Hok2 eq_refl σ Hσ) as [Hσ1 Hl]. destruct (Hok1 eq_refl σ Hσ1) as [Hσ0 Hab]. split; [exact Hσ0|]. apply Forall_cons. now split.
    + split; [exact (proj1 (IH _ _ _ _ _ H1 Ha Hb Hs))|discriminate].
Qed.

Lemma compatible_apply σ t t' : same_node t t' -> is_var t = false -> Forall (fun p => compatible (apply σ (fst p)) (apply σ (snd p))) (zip (children t) (children t')) ->
  compatible (apply σ t) (apply σ t').
Proof.
  intros Hs Hv Hc. assert (Hv' : is_var t' = false) by (destruct_ty t; destruct_ty t'; cbn in *; congruence || easy).
  assert (Hl : length (children t) = length (children t')) by (destruct_ty t; destruct_ty t'; cbn in *; rewrite ?length_app; cbn; try easy; lia).
  rewrite !apply_node by assumption. apply compatible_node.
  - pose proof (same_node_map (apply σ) t). pose proof (same_node_map (apply σ) t'). destruct_ty t; destruct_ty t'; cbn in *; rewrite ?List.length_map; try easy; intuition congruence.
  - rewrite !children_map. revert Hl Hc. generalize (children t) as l, (children t') as l'. induction l as [|x l IH]; intros [|y l'] Hl Hc; try discriminate; [constructor|].
    apply Forall_cons in Hc as [Hxy Hc]. constructor; [exact Hxy|]. apply IH; [now injection Hl|exact Hc].
Qed.

Lemma zip_wf (l l' : list Ty64) : (forall c, c ∈ l -> well_formed c) -> (forall c, c ∈ l' -> well_formed c) -> Forall (fun p => well_formed (fst p) /\ well_formed (snd p)) (zip l l').
Proof.
  revert l'. induction l as [|x l IH]; intros [|y l'] Hl Hl'; try constructor; [split; [apply Hl; now left|apply Hl'; now left]|].
  apply IH; intros c Hc; [apply Hl; now right|apply Hl'; now right].
Qed.

(** The types after the substitutions, which the equality comparison has told apart. *)
Definition unify_nodes (f : nat) (inner expected : Ty64) : MU UnifyResult :=
  let unify_all l1 l2 := try_for_each (fun p => unify_types f (fst p) (snd p)) (zip l1 l2) in
  match inner, expected with
  | TBottom, _ | _, TBottom => mret UOk
  | TTypeVar name, ty | ty, TTypeVar name => add_substitution f name ty
  | TFunction params1 value1, TFunction params2 value2 =>
    if negb (length params1 =? length params2)%nat then mret (UErr (NumberOfParameters inner expected))
    else and_then (unify_all params1 params2) (unify_types f value1 value2)
  | TArray base1 length1, TArray base2 length2 =>
    if negb (bool_decide (length1 = length2)) then mret (UErr (ArrayLengths inner expected))
    else unify_types f base1 base2
  | TTuple items1, TTuple items2 =>
    if negb (length items1 =? length items2)%nat then mret (UErr (NumberOfItems inner expected))
    else unify_all items1 items2
  | TNamedType n1 (Some args1), TNamedType n2 (Some args2) =>
    if bool_decide (n1 = n2) then
      assertM (negb (length args1 =? 0)%nat && negb (length args2 =? 0)%nat);; unify_all args1 args2
    else mret (UErr (CannotUnify inner expected))
  | _, _ => mret (UErr (CannotUnify inner expected))
  end.

Lemma unify_step f a b u : unify_types (S f) a b u =
  match substitute f (substitutions u) a, substitute f (substitutions u) b with
  | Some a', Some b' => if ty_eqb a' b' then Some (UOk, u) else unify_nodes f a' b' u
  | _, _ => None
  end.
Proof.
  cbn [unify_types]. unfold gets, lift. unfold mbind at 1, M_bind at 1. unfold mbind at 1, M_bind at 1. destruct (substitute f (substitutions u) a) as [a'|]; [|reflexivity].
  unfold mbind at 1, M_bind at 1. destruct (substitute f (substitutions u) b) as [b'|]; [|reflexivity]. destruct (ty_eqb a' b'); reflexivity.
Qed.

Ltac two_nodes a b := destruct_ty a; destruct_ty b.

Lemma unify_types_sound f : unifies f.
Proof.
  induction f as [|f IH]; intros a b u r u' Hr Ha Hb Hs; [discriminate|]. rewrite unify_step in Hr.
  destruct (substitute f (substitutions u) a) as [a'|] eqn:Ha'; [|discriminate]. destruct (substitute f (substitutions u) b) as [b'|] eqn:Hb'; [|discriminate].
  assert (Hgo : (wf_substitutions (substitutions u') /\ (r = UOk -> forall σ, solves σ u' -> solves σ u /\ compatible (apply σ a') (apply σ b'))) ->
    wf_substitutions (substitutions u') /\ (r = UOk -> forall σ, solves σ u' -> solves σ u /\ compatible (apply σ a) (apply σ b))).
  { intros [Hw Hok]. split; [exact Hw|]. intros Hrok σ Hσ. destruct (Hok Hrok σ Hσ) as [Hσu Hc]. split; [exact Hσu|].
    now rewrite <- (substitute_agrees σ _ _ _ _ (solves_agrees _ _ _ Hσu) Ha'), <- (substitute_agrees σ _ _ _ _ (solves_agrees _ _ _ Hσu) Hb'). }
  apply Hgo. clear Hgo. destruct (ty_eqb a' b') eqn:Heq.
  { apply ty_eqb_spec in Heq as ->. injection Hr as <- <-. split; [exact Hs|]. intros _ σ Hσ. split; [exact Hσ|apply compatible_refl]. }
  pose proof (substitute_wf _ f Hs _ _ Ha Ha') as Hwa. pose proof (substitute_wf _ f Hs _ _ Hb Hb') as Hwb.
  pose proof (substitute_resolved _ _ _ _ Ha') as Hra. pose proof (substitute_resolved _ _ _ _ Hb') as Hrb. clear Ha Hb Ha' Hb' a b.
  assert (Hbot : r = UOk -> u' = u -> a' = TBottom \/ b' = TBottom -> wf_substitutions (substitutions u') /\ (r = UOk -> forall σ, solves σ u' -> solves σ u /\ compatible (apply σ a') (apply σ b'))).
  { intros _ -> Hor. split; [exact Hs|]. intros _ σ Hσ. split; [exact Hσ|]. destruct Hor as [-> | ->]; constructor. }
  assert (Herr : forall e, r = UErr e -> u' = u -> wf_substitutions (substitutions u') /\ (r = UOk -> forall σ, solves σ u' -> solves σ u /\ compatible (apply σ a') (apply σ b'))).
  { intros e -> ->. split; [exact Hs|discriminate]. }
  assert (Hvar : forall x, a' = TTypeVar x -> add_substitution f x b' u = Some (r, u') -> wf_substitutions (substitutions u') /\ (r = UOk -> forall σ, solves σ u' -> solves σ u /\ compatible (apply σ a') (apply σ b'))).
  { intros x -> Hadd. destruct (add_substitution_spec f x b' u r u' Hadd (Hra x ltac:(now left)) Hwb Hs) as [Hw Hok]. split; [exact Hw|]. intros Hrok σ Hσ.
    destruct (Hok Hrok σ Hσ) as [Hσu Hx]. split; [exact Hσu|]. cbn [apply]. rewrite Hx. apply compatible_refl. }
  assert (Hvar' : forall x, b' = TTypeVar x -> add_substitution f x a' u = Some (r, u') -> wf_substitutions (substitutions u') /\ (r = UOk -> forall σ, solves σ u' -> solves σ u /\ compatible (apply σ a') (apply σ b'))).
  { intros x -> Hadd. destruct (add_substitution_spec f x a' u r u' Hadd (Hrb x ltac:(now left)) Hwa Hs) as [Hw Hok]. split; [exact Hw|]. intros Hrok σ Hσ.
    destruct (Hok Hrok σ Hσ) as [Hσu Hx]. split; [exact Hσu|]. cbn [apply]. rewrite Hx. apply compatible_refl. }
  assert (Hzip : forall l l', (forall c, c ∈ l -> c ∈ children a') -> (forall c, c ∈ l' -> c ∈ children b') -> Forall (fun p => well_formed (fst p) /\ well_formed (snd p)) (zip l l')).
  { intros l l' Hl Hl'. apply zip_wf; intros c Hc; [now apply (everywhere_child _ a'), Hl|now apply (everywhere_child _ b'), Hl']. }
  assert (Hall : same_node a' b' -> is_var a' = false -> try_for_each (fun p => unify_types f (fst p) (snd p)) (zip (children a') (children b')) u = Some (r, u') ->
    wf_substitutions (substitutions u') /\ (r = UOk -> forall σ, solves σ u' -> solves σ u /\ compatible (apply σ a') (apply σ b'))).
  { intros Hn Hv Hl. destruct (unify_all_sound f IH _ _ _ _ Hl (Hzip _ _ (fun _ H => H) (fun _ H => H)) Hs) as [Hw Hok]. split; [exact Hw|]. intros Hrok σ Hσ.
    destruct (Hok Hrok σ Hσ) as [Hσu Hc]. split; [exact Hσu|]. now apply compatible_apply. }
  two_nodes a' b'; cbn [unify_nodes] in Hr;
    first [ now apply (Hvar _ eq_refl) | now apply (Hvar' _ eq_refl)
          | injection Hr as <- <-; first [now apply Hbot; auto | now apply (Herr _ eq_refl)] | idtac ].
  - destruct (bool_decide (len = len0)) eqn:Hl; cbn [negb] in Hr; [apply bool_decide_eq_true in Hl|injection Hr as <- <-; now apply (Herr _ eq_refl)].
    apply Hall; [exact Hl|reflexivity|]. cbn [children zip zip_with try_for_each fst snd]. now rewrite and_then_ret.
  - destruct (length items =? length items0)%nat eqn:Hl; cbn [negb] in Hr; [apply Nat.eqb_eq in Hl|injection Hr as <- <-; now apply (Herr _ eq_refl)].
    apply Hall; [exact Hl|reflexivity|exact Hr].
  - destruct (length params =? length params0)%nat eqn:Hl; cbn [negb] in Hr; [apply Nat.eqb_eq in Hl|injection Hr as <- <-; now apply (Herr _ eq_refl)].
    apply Hall; [exact Hl|reflexivity|]. cbn [children]. rewrite zip_with_app by exact Hl. rewrite try_for_each_app. cbn [zip zip_with try_for_each fst snd].
    rewrite <- Hr. apply and_then_ext. intros u1. apply and_then_ret.
  - destruct (bool_decide (path = path0)) eqn:Hp; [apply bool_decide_eq_true in Hp|injection Hr as <- <-; now apply (Herr _ eq_refl)]. subst path0.
    assert (Hl : length args = length args0) by (pose proof (proj1 (everywhere_here _ _ Hwa)); pose proof (proj1 (everywhere_here _ _ Hwb)); congruence).
    unfold assertM, lift in Hr. unfold mbind at 1, M_bind at 1 in Hr. destruct (assert_that _); [|discriminate]. apply Hall; [now split|reflexivity|exact Hr].
Qed.

End Sound.

(** ** Completeness *)

Lemma vars_size σ x t : x ∈ vars t -> (ty_size (σ x) <= ty_size (apply σ t))%nat.
Proof.
  induction t as [t IH] using ty_children_ind. intros Hx. destruct (is_var t) eqn:Hv.
  - destruct_ty t; try discriminate. apply list_elem_of_singleton in Hx as ->. reflexivity.
  - apply elem_vars in Hx as [->|(c & Hc & Hx)]; [discriminate|]. specialize (IH c Hc Hx). rewrite apply_node by exact Hv.
    assert (Hin : apply σ c ∈ children (map_children (apply σ) t)) by (rewrite children_map; apply list_elem_of_fmap; now exists c). apply child_smaller in Hin. lia.
Qed.

Lemma vars_size_lt σ x t : x ∈ vars t -> t <> TTypeVar x -> (ty_size (σ x) < ty_size (apply σ t))%nat.
Proof.
  intros Hx Hne. pose proof Hx as Hx'. apply elem_vars in Hx as [->|(c & Hc & Hx)]; [now destruct Hne|]. pose proof (vars_size σ x c Hx).
  assert (Hv : is_var t = false) by (destruct_ty t; try reflexivity; now apply elem_of_nil in Hc). rewrite apply_node by exact Hv.
  assert (Hin : apply σ c ∈ children (map_children (apply σ) t)) by (rewrite children_map; apply list_elem_of_fmap; now exists c). apply child_smaller in Hin. lia.
Qed.

(** The one bound that is refused although it may hold: of an array whose elements are not known yet. *)
Definition undetermined (e : UnifyError) : Prop := exists x len, e = NotSatisfied (TArray (TTypeVar x) len) "ToSelectedExprs".

Lemma sat_inv_array base len b : sat (TArray base len) b -> (b = "ToString"%string /\ sat base "ToString") \/ b = "Add"%string \/ (b = "ToSelectedExprs"%string /\ base = TExpr).
Proof.
  intros Hs. inversion Hs as [|t b' l Hl Hb| | |]; subst; [|now left]. right.
  destruct_ty base; cbn in Hl; injection Hl as <-; repeat (apply elem_of_cons in Hb as [->|Hb]; [auto|]); now apply elem_of_nil in Hb.
Qed.

(** Whatever solves a state and the bound of a type also solves the state with the bound. *)
Lemma ensure_bound_complete f σ : forall ty b u r u', ensure_bound f ty b u = Some (r, u') -> solves σ u -> sat (apply σ ty) b ->
  (r = UOk -> solves σ u') /\ (forall e, r = UErr e -> undetermined e).
Proof.
  induction f as [|f IH]; intros ty b u r u' Hr Hσ Hsat; [discriminate|]. cbn [ensure_bound] in Hr. unfold gets, lift in Hr. unfold mbind at 1, M_bind at 1 in Hr. unfold mbind at 1, M_bind at 1 in Hr.
  destruct (substitute f (substitutions u) ty) as [t|] eqn:Ht; [|discriminate]. rewrite <- (substitute_agrees σ _ _ _ _ (solves_agrees _ _ _ Hσ) Ht) in Hsat.
  assert (Hall : forall l u, (forall c, c ∈ l -> sat (apply σ c) "ToString") -> solves σ u -> try_for_each (fun c => ensure_bound f c "ToString") l u = Some (r, u') ->
    (r = UOk -> solves σ u') /\ (forall e, r = UErr e -> undetermined e)).
  { clear -IH holds. induction l as [|c l IHl]; intros u Hc Hσ Hr; [injection Hr as <- <-; now split|]. cbn [try_for_each] in Hr.
    apply and_then_cases in Hr as [(u1 & H1 & H2)|(e & -> & H1)]; destruct (IH _ _ _ _ _ H1 Hσ (Hc c ltac:(now left))) as [Hok Herr].
    - apply (IHl u1); [intros d Hd; apply Hc; now right|now apply Hok|exact H2].
    - split; [discriminate|exact Herr]. }
  assert (Helem : forall l, elementary_type_bounds t = Some l -> b ∈ l -> (bounds ← lift (elementary_type_bounds t); mret (if bool_decide (b ∈ bounds) then UOk else UErr (NotSatisfied t b)) : MU UnifyResult) u = Some (r, u') ->
    (r = UOk -> solves σ u') /\ (forall e, r = UErr e -> undetermined e)).
  { intros l Hl Hb He. unfold lift, mbind, M_bind in He. rewrite Hl, bool_decide_true in He by exact Hb. injection He as <- <-. now split. }
  assert (Hleaf : forall l, apply σ t = t -> elementary_type_bounds t = Some l -> (forall base len, t <> TArray base len) -> (forall items, t <> TTuple items) -> b ∈ l).
  { intros l Happ Hl Hna Hnt. rewrite Happ in Hsat. inversion Hsat as [x' b' Hx'|t' b' l' Hl' Hb'| | |]; subst; [discriminate|congruence|now destruct (Hna base len)|now destruct (Hnt items)|discriminate]. }
  assert (Hpath : forall n args args', apply σ t = TNamedType n args' -> (if bool_decide (b = "ToSelectedExprs"%string) && bool_decide (path_to_string n = "std::prelude::SelectedExprs"%string) then mret UOk else mret (UErr (NotSatisfied (TNamedType n args) b)) : MU UnifyResult) u = Some (r, u') ->
    (r = UOk -> solves σ u') /\ (forall e, r = UErr e -> undetermined e)).
  { intros n args args' Happ Hc. rewrite Happ in Hsat. inversion Hsat as [|t' b' l' Hl' Hb'| | |]; subst; [discriminate|]. rewrite !bool_decide_true in Hc by (reflexivity || assumption). injection Hc as <- <-. now split. }
  destruct_ty t; try (eapply Helem; [reflexivity|eapply Hleaf; [reflexivity|reflexivity|discriminate|discriminate]|exact Hr]).
  - cbn [apply map_children] in Hsat. apply sat_inv_array in Hsat as [[-> Hb]|[->|[-> Hb]]].
    + rewrite bool_decide_true in Hr by reflexivity. apply (Hall [base] u); [|exact Hσ|exact Hr]. intros c Hc. apply list_elem_of_singleton in Hc as ->. exact Hb.
    + rewrite bool_decide_false in Hr by discriminate. assert (Hl : exists l, elementary_type_bounds (TArray base len) = Some l /\ "Add"%string ∈ l) by (cbn; destruct base; eexists; (split; [reflexivity|left])).
      destruct Hl as (l & Hl & Hin). exact (Helem l Hl Hin Hr).
    + rewrite bool_decide_false in Hr by discriminate. destruct_ty base; try discriminate Hb.
      * apply (Helem _ eq_refl); [right; left|exact Hr].
      * unfold lift, mbind, M_bind in Hr. cbn [elementary_type_bounds] in Hr. rewrite bool_decide_false in Hr by (intros Hin; repeat (apply elem_of_cons in Hin as [Hin|Hin]; [discriminate|]); now apply elem_of_nil in Hin).
        injection Hr as <- <-. split; [discriminate|]. intros e [= <-]. now exists name, len.
  - cbn [apply map_children] in Hsat. inversion Hsat as [|t' b' l' Hl' Hb'| |items' Hi|]; subst; [injection Hl' as <-; now apply elem_of_nil in Hb'|].
    rewrite bool_decide_true in Hr by reflexivity. apply (Hall items u); [|exact Hσ|exact Hr]. intros c Hc. apply Hi. apply (list_elem_of_fmap_2 (apply σ)). exact Hc.
  - exfalso. cbn [apply map_children] in Hsat. inversion Hsat as [|t' b' l' Hl' Hb'| | |]; subst. injection Hl' as <-. now apply elem_of_nil in Hb'.
  - assert (Hu : u' = bound_added name b u /\ r = UOk) by (now injection Hr). destruct Hu as [-> ->]. split; [|discriminate]. intros _. split; [exact (solves_agrees _ _ _ Hσ)|].
    intros y b' _ Hy Hin. rewrite add_bound_lookup in Hin. destruct (decide (name = y)) as [<-|Hne]; [|now apply (solves_bounds _ _ _ Hσ)].
    apply elem_of_union in Hin as [Hin|Hin]; [apply elem_of_singleton in Hin as ->; exact Hsat|now apply (solves_bounds _ _ _ Hσ)].
  - eapply Hpath; [reflexivity|exact Hr].
  - eapply Hpath; [reflexivity|exact Hr].
Qed.

Definition no_bottom : Ty64 -> Prop := everywhere (fun t => t <> TBottom).
Definition no_bottom_substitutions (s : gmap string Ty64) : Prop := forall x t, s !! x = Some t -> no_bottom t.

Lemma substitute_no_bottom s f : no_bottom_substitutions s -> forall t t', no_bottom t -> substitute f s t = Some t' -> no_bottom t'.
Proof. apply (substitute_everywhere (fun t => t <> TBottom)). intros t t' Hn Ht ->. destruct_ty t; now cbn in Hn. Qed.

(** A solution of the state in which the types are equal. *)
Definition completes (f : nat) (σ : string -> Ty64) : Prop := forall a b u r u', unify_types f a b u = Some (r, u') ->
  no_bottom a -> no_bottom b -> no_bottom_substitutions (substitutions u) -> solves σ u -> apply σ a = apply σ b ->
  (r = UOk -> solves σ u' /\ no_bottom_substitutions (substitutions u')) /\ (forall e, r = UErr e -> undetermined e).

Lemma unify_all_complete f σ : completes f σ -> forall l u r u', try_for_each (fun p => unify_types f (fst p) (snd p)) l u = Some (r, u') ->
  Forall (fun p => no_bottom (fst p) /\ no_bottom (snd p) /\ apply σ (fst p) = apply σ (snd p)) l -> no_bottom_substitutions (substitutions u) -> solves σ u ->
  (r = UOk -> solves σ u' /\ no_bottom_substitutions (substitutions u')) /\ (forall e, r = UErr e -> undetermined e).
Proof.
  intros IH l. induction l as [|[a b] l IHl]; intros u r u' Hr Hl Hs Hσ; [injection Hr as <- <-; now split|].
  apply Forall_cons in Hl as [(Ha & Hb & Hab) Hl]. cbn [try_for_each fst snd] in *. apply and_then_cases in Hr as [(u1 & H1 & H2)|(e & -> & H1)]; destruct (IH _ _ _ _ _ H1 Ha Hb Hs Hσ Hab) as [Hok Herr].
  - destruct (Hok eq_refl) as [Hσ1 Hs1]. now apply (IHl u1).
  - split; [discriminate|exact Herr].
Qed.

Lemma add_substitution_complete f σ x ty u r u' : add_substitution f x ty u = Some (r, u') -> substitutions u !! x = None -> no_bottom ty -> no_bottom_substitutions (substitutions u) ->
  resolved (substitutions u) ty -> ty <> TTypeVar x -> solves σ u -> σ x = apply σ ty ->
  (r = UOk -> solves σ u' /\ no_bottom_substitutions (substitutions u')) /\ (forall e, r = UErr e -> undetermined e).
Proof.
  intros Hr Hx Hty Hs Hres Hne Hσ Happ. unfold add_substitution, gets, lift in Hr. unfold mbind at 1, M_bind at 1 in Hr. unfold mbind at 1, M_bind at 1 in Hr.
  destruct (substitute f (substitutions u) ty) as [t|] eqn:Ht; [|discriminate]. rewrite (substitute_same _ _ _ _ Hres Ht) in *. clear Ht t.
  destruct (contains_type_var ty x) eqn:Hocc.
  { exfalso. apply bool_decide_eq_true in Hocc. pose proof (vars_size_lt σ x ty Hocc Hne). rewrite Happ in *. lia. }
  unfold mbind at 1, M_bind at 1 in Hr.
  assert (Hall : forall l u1 r u2, (forall b, b ∈ l -> sat (apply σ ty) b) -> solves σ u1 -> substitutions u1 = substitutions u -> try_for_each (fun b => ensure_bound f ty b) l u1 = Some (r, u2) ->
    (r = UOk -> solves σ u2 /\ substitutions u2 = substitutions u) /\ (forall e, r = UErr e -> undetermined e)).
  { clear -holds. induction l as [|b l IHl]; intros u1 r u2 Hb Hσ Hu Hr; [injection Hr as <- <-; now split|]. cbn [try_for_each] in Hr.
    apply and_then_cases in Hr as [(u3 & H1 & H2)|(e & -> & H1)]; destruct (ensure_bound_complete f σ _ _ _ _ _ H1 Hσ (Hb b ltac:(now left))) as [Hok Herr]; [|now split].
    destruct (ensure_bound_sound f _ _ _ _ _ H1) as [(Hs3 & _) _]. apply (IHl u3); [intros d Hd; apply Hb; now right|now apply Hok|congruence|exact H2]. }
  assert (Hall_b : forall b, b ∈ elements (type_var_bounds x u) -> sat (apply σ ty) b).
  { intros b Hb. rewrite <- Happ. apply (solves_bounds _ _ _ Hσ x b I Hx). now apply elem_of_elements. }
  apply and_then_cases in Hr as [(u1 & H1 & H2)|(e & -> & H1)].
  - destruct (Hall _ _ _ _ Hall_b Hσ eq_refl H1) as [Hok _]. destruct (Hok eq_refl) as [[Ha1 Hb1] Hs1]. injection H2 as <- <-. split; [|discriminate]. intros _.
    change (solves σ (set_substitutions (<[x := ty]> (substitutions u1)) u1) /\ no_bottom_substitutions (<[x := ty]> (substitutions u1))). split.
    + split.
      * change (agrees σ (<[x := ty]> (substitutions u1))). intros y t [[<- <-]|[_ Hy]]%lookup_insert_Some; [exact Happ|exact (Ha1 _ _ Hy)].
      * intros y b _ Hy Hin. cbn [set_substitutions substitutions] in Hy. apply lookup_insert_None in Hy as [Hy _]. exact (Hb1 y b I Hy Hin).
    + intros y t [[<- <-]|[_ Hy]]%lookup_insert_Some; [exact Hty|]. rewrite Hs1 in Hy. exact (Hs _ _ Hy).
  - destruct (Hall _ _ _ _ Hall_b Hσ eq_refl H1) as [_ Herr]. split; [discriminate|exact Herr].
Qed.

Lemma zip_complete σ (l l' : list Ty64) : (forall c, c ∈ l -> no_bottom c) -> (forall c, c ∈ l' -> no_bottom c) -> apply σ <$> l = apply σ <$> l' ->
  Forall (fun p => no_bottom (fst p) /\ no_bottom (snd p) /\ apply σ (fst p) = apply σ (snd p)) (zip l l').
Proof.
  revert l'. induction l as [|x l IH]; intros [|y l'] Hl Hl' He; try discriminate; constructor.
  - injection He as Hxy _. split; [apply Hl; now left|]. split; [apply Hl'; now left|exact Hxy].
  - apply IH; [intros c Hc; apply Hl; now right|intros c Hc; apply Hl'; now right|now injection He].
Qed.

Lemma unify_types_complete f σ : completes f σ.
Proof.
  induction f as [|f IH]; intros a b u r u' Hr Ha Hb Hs Hσ Hab; [discriminate|]. rewrite unify_step in Hr.
  destruct (substitute f (substitutions u) a) as [a'|] eqn:Ha'; [|discriminate]. destruct (substitute f (substitutions u) b) as [b'|] eqn:Hb'; [|discriminate].
  rewrite <- (substitute_agrees σ _ _ _ _ (solves_agrees _ _ _ Hσ) Ha'), <- (substitute_agrees σ _ _ _ _ (solves_agrees _ _ _ Hσ) Hb') in Hab.
  destruct (ty_eqb a' b') eqn:Heq; [injection Hr as <- <-; now split|].
  assert (Hneq : a' <> b') by (intros He; apply ty_eqb_spec in He; congruence).
  pose proof (substitute_no_bottom _ f Hs _ _ Ha Ha') as Hna. pose proof (substitute_no_bottom _ f Hs _ _ Hb Hb') as Hnb.
  pose proof (substitute_resolved _ _ _ _ Ha') as Hra. pose proof (substitute_resolved _ _ _ _ Hb') as Hrb. clear Ha Hb Ha' Hb' Heq a b.
  assert (Hvar : forall x, a' = TTypeVar x -> add_substitution f x b' u = Some (r, u') -> (r = UOk -> solves σ u' /\ no_bottom_substitutions (substitutions u')) /\ (forall e, r = UErr e -> undetermined e)).
  { intros x -> Hadd. apply (add_substitution_complete f σ x b' u r u' Hadd (Hra x ltac:(now left)) Hnb Hs Hrb); [congruence|exact Hσ|exact Hab]. }
  assert (Hvar' : forall x, b' = TTypeVar x -> add_substitution f x a' u = Some (r, u') -> (r = UOk -> solves σ u' /\ no_bottom_substitutions (substitutions u')) /\ (forall e, r = UErr e -> undetermined e)).
  { intros x -> Hadd. apply (add_substitution_complete f σ x a' u r u' Hadd (Hrb x ltac:(now left)) Hna Hs Hra); [congruence|exact Hσ|now symmetry]. }
  assert (Hall : is_var a' = false -> is_var b' = false -> try_for_each (fun p => unify_types f (fst p) (snd p)) (zip (children a') (children b')) u = Some (r, u') ->
    (r = UOk -> solves σ u' /\ no_bottom_substitutions (substitutions u')) /\ (forall e, r = UErr e -> undetermined e)).
  { intros Hv Hv' Hl. apply (unify_all_complete f σ IH _ _ _ _ Hl); [|exact Hs|exact Hσ]. apply zip_complete; [intros c; now apply (everywhere_child _ a')|intros c; now apply (everywhere_child _ b')|].
    rewrite !apply_node in Hab by assumption. rewrite <- !children_map. now rewrite Hab. }
  assert (Hna' := everywhere_here _ _ Hna). assert (Hnb' := everywhere_here _ _ Hnb). cbn beta in Hna', Hnb'.
  destruct_ty a'; destruct_ty b'; cbn [unify_nodes] in Hr;
    first [ now apply (Hvar _ eq_refl) | now apply (Hvar' _ eq_refl) | now destruct Hna' | now destruct Hnb' | discriminate Hab | now destruct Hneq | idtac ];
    cbn [apply map_children] in Hab.
  - assert (Hl : len = len0) by congruence. rewrite bool_decide_true in Hr by exact Hl. cbn [negb] in Hr. apply Hall; [reflexivity|reflexivity|]. cbn [children zip zip_with try_for_each fst snd]. now rewrite and_then_ret.
  - injection Hab as Hi. assert (Hl : length items = length items0) by (apply (f_equal length) in Hi; now rewrite !List.length_map in Hi).
    rewrite (proj2 (Nat.eqb_eq _ _) Hl) in Hr. apply Hall; [reflexivity|reflexivity|exact Hr].
  - injection Hab as Hi Hv. assert (Hl : length params = length params0) by (apply (f_equal length) in Hi; now rewrite !List.length_map in Hi).
    rewrite (proj2 (Nat.eqb_eq _ _) Hl) in Hr. cbn [negb] in Hr. apply Hall; [reflexivity|reflexivity|]. cbn [children]. rewrite zip_with_app by exact Hl. rewrite try_for_each_app. cbn [zip zip_with try_for_each fst snd].
    rewrite <- Hr. apply and_then_ext. intros u1. apply and_then_ret.
  - injection Hab as -> Hi. rewrite bool_decide_true in Hr by reflexivity. unfold assertM, lift in Hr. unfold mbind at 1, M_bind at 1 in Hr. destruct (assert_that _); [|discriminate].
    apply Hall; [reflexivity|reflexivity|exact Hr].
Qed.

End Meaning.

(** ** Termination *)

(** From some amount of fuel on. *)
Definition eventually (P : nat -> Prop) : Prop := exists f0, forall f, (f0 <= f)%nat -> P f.

Lemma eventually_and P Q : eventually P -> eventually Q -> eventually (fun f => P f /\ Q f).
Proof. intros [f1 H1] [f2 H2]. exists (Nat.max f1 f2). intros f Hf. split; [apply H1|apply H2]; lia. Qed.

Lemma eventually_mono (P Q : nat -> Prop) : (forall f, P f -> Q f) -> eventually P -> eventually Q.
Proof. intros HPQ [f0 H0]. exists f0. intros f Hf. now apply HPQ, H0. Qed.

Lemma eventually_succ (P Q : nat -> Prop) : (forall f, P f -> Q (S f)) -> eventually P -> eventually Q.
Proof. intros HPQ [f0 H0]. exists (S f0). intros [|f] Hf; [lia|]. apply HPQ, H0. lia. Qed.

Lemma eventually_always (P : nat -> Prop) : (forall f, P f) -> eventually P.
Proof. intros HP. now exists 0%nat. Qed.

Definition resolves (s : gmap string Ty64) (t t' : Ty64) : Prop := eventually (fun f => substitute f s t = Some t').

Lemma same_node_unique t t1 t2 : same_node t t1 -> same_node t t2 -> children t1 = children t2 -> t1 = t2.
Proof.
  intros H1 H2. apply same_node_eq. destruct_ty t; destruct_ty t1; cbn in H1; try easy; destruct_ty t2; cbn in H2 |- *; try easy; intuition congruence.
Qed.

Lemma resolves_children s l : (forall c, c ∈ l -> exists c', resolves s c c') -> exists l', eventually (fun f => Forall2 (fun c c' => substitute f s c = Some c') l l').
Proof.
  induction l as [|c l IH]; intros Hc; [exists []; apply eventually_always; constructor|].
  destruct (Hc c ltac:(now left)) as [c' Hc']. destruct IH as [l' Hl']; [intros d Hd; apply Hc; now right|]. exists (c' :: l').
  eapply eventually_mono; [|exact (eventually_and _ _ Hc' Hl')]. intros f [H1 H2]. now constructor.
Qed.

Lemma resolves_node s t : is_var t = false -> (forall c, c ∈ children t -> exists c', resolves s c c') -> exists t', resolves s t t'.
Proof.
  intros Hv Hc. destruct (resolves_children s _ Hc) as [l' [f0 Hl']]. destruct (map_children_opt_some (substitute f0 s) t l' (Hl' f0 ltac:(lia))) as (t' & Ht' & Hch).
  exists t'. apply (eventually_succ (fun f => Forall2 (fun c c' => substitute f s c = Some c') (children t) l')); [|exists f0; exact Hl']. intros f Hf. rewrite substitute_step by exact Hv.
  destruct (map_children_opt_some (substitute f s) t l' Hf) as (t2 & Ht2 & Hch2). rewrite Ht2. f_equal. apply (same_node_unique t); [exact (proj1 (map_children_opt_spec _ _ _ Ht2))|exact (proj1 (map_children_opt_spec _ _ _ Ht'))|congruence].
Qed.

(** [substitute] terminates. *)
Lemma substitute_terminates s t : acyclic s -> exists t', resolves s t t'.
Proof.
  intros [rank Hrank]. enough (Hn : forall n t, (forall y, y ∈ vars t -> is_Some (s !! y) -> (rank y < n)%nat) -> exists t', resolves s t t').
  { apply (Hn (S (list_sum (rank <$> vars t)))). intros y Hy _. apply Nat.lt_succ_r, list_sum_elem. apply list_elem_of_fmap. now exists y. }
  clear t. induction n as [|n IHn]; intros t; induction t as [t IHt] using ty_children_ind; intros Ht; destruct (is_var t) eqn:Hv;
    try (apply (resolves_node s t Hv); intros c Hc; apply (IHt c Hc); intros y Hy; apply Ht; now apply (vars_child y c)); destruct_ty t; try discriminate.
  - assert (Hnone : s !! name = None) by (destruct (s !! name) eqn:Hs; [specialize (Ht name ltac:(now left) (ex_intro _ _ Hs)); lia|reflexivity]).
    exists (TTypeVar name). exists 1%nat. intros [|f] Hf; [lia|]. cbn. now rewrite Hnone.
  - destruct (s !! name) as [sub|] eqn:Hs.
    + destruct (IHn sub) as [t' Ht'].
      { intros y Hy Hsome. pose proof (Hrank _ _ _ Hs Hy Hsome). specialize (Ht name ltac:(now left) (ex_intro _ _ Hs)). lia. }
      exists t'. eapply eventually_succ; [|exact Ht']. intros f Hf. cbn. now rewrite Hs.
    + exists (TTypeVar name). exists 1%nat. intros [|f] Hf; [lia|]. cbn. now rewrite Hs.
Qed.

Lemma resolves_resolved s t t' : resolves s t t' -> resolved s t'.
Proof. intros [f Hf]. exact (substitute_resolved _ _ _ _ (Hf f ltac:(lia))). Qed.

Lemma resolved_resolves s t : resolved s t -> resolves s t t.
Proof. intros Hr. exists (ty_size t). intros f Hf. now apply substitute_id. Qed.

(** *** Sequences *)

Definition ends (m : nat -> MU UnifyResult) (u : Unifier) (r : UnifyResult) (u' : Unifier) : Prop := eventually (fun f => m f u = Some (r, u')).

Lemma ends_and_then m k u r u1 : ends m u UOk u1 -> forall u', ends k u1 r u' -> ends (fun f => and_then (m f) (k f)) u r u'.
Proof. intros Hm u' Hk. eapply eventually_mono; [|exact (eventually_and _ _ Hm Hk)]. intros f [H1 H2]. unfold and_then, mbind, M_bind. now rewrite H1. Qed.

Lemma ends_and_then_err m k u e u1 : ends m u (UErr e) u1 -> ends (fun f => and_then (m f) (k f)) u (UErr e) u1.
Proof. apply eventually_mono. intros f H1. unfold and_then, mbind, M_bind. now rewrite H1. Qed.

(** A loop ends if each of its rounds does, from all states that satisfy an invariant. *)
Lemma ends_try_for_each {A} (m : nat -> A -> MU UnifyResult) (Q : Unifier -> Prop) l : (forall x u, x ∈ l -> Q u -> exists r u', ends (fun f => m f x) u r u' /\ Q u') ->
  forall u, Q u -> exists r u', ends (fun f => try_for_each (m f) l) u r u' /\ Q u'.
Proof.
  induction l as [|x l IH]; intros Hx u HQ; [exists UOk, u; split; [now apply eventually_always|exact HQ]|]. destruct (Hx x u ltac:(now left) HQ) as ([|e] & u1 & Hr & HQ1).
  - destruct (IH (fun y u Hy => Hx y u ltac:(now right)) u1 HQ1) as (r & u' & Hrest & HQ'). exists r, u'. split; [|exact HQ']. now apply (ends_and_then (fun f => m f x) (fun f => try_for_each (m f) l) u r u1).
  - exists (UErr e), u1. split; [|exact HQ1]. now apply (ends_and_then_err (fun f => m f x) (fun f => try_for_each (m f) l)).
Qed.

(** *** The operations end *)

Definition ensure_node (f : nat) (t : Ty64) (b : string) : MU UnifyResult :=
  let elementary := bounds ← lift (elementary_type_bounds t); mret (if bool_decide (b ∈ bounds) then UOk else UErr (NotSatisfied t b)) in
  match t with
  | TTypeVar n => add_type_var_bound n b;; mret UOk
  | TArray _ _ | TTuple _ =>
    if bool_decide (b = "ToString"%string) then try_for_each (fun c => ensure_bound f c "ToString") (children t) else elementary
  | TNamedType n _ =>
    if bool_decide (b = "ToSelectedExprs"%string) && bool_decide (path_to_string n = "std::prelude::SelectedExprs"%string) then mret UOk
    else mret (UErr (NotSatisfied t b))
  | _ => elementary
  end.

Lemma ensure_step f ty b u : ensure_bound (S f) ty b u = match substitute f (substitutions u) ty with Some t => ensure_node f t b u | None => None end.
Proof. cbn [ensure_bound]. unfold gets, lift. unfold mbind at 1, M_bind at 1. unfold mbind at 1, M_bind at 1. now destruct (substitute f (substitutions u) ty). Qed.

Lemma elementary_some t b : is_var t = false -> (forall n args, t <> TNamedType n args) -> forall u, exists r u',
  (bounds ← lift (elementary_type_bounds t); mret (if bool_decide (b ∈ bounds) then UOk else UErr (NotSatisfied t b)) : MU UnifyResult) u = Some (r, u').
Proof.
  intros Hv Hn u. assert (Hl : exists l, elementary_type_bounds t = Some l).
  { destruct_ty t; try discriminate; try (now eexists); [|now destruct (Hn path (Some args))|now destruct (Hn path None)]. cbn. destruct base; now eexists. }
  destruct Hl as [l Hl]. exists (if bool_decide (b ∈ l) then UOk else UErr (NotSatisfied t b)), u. unfold lift, mbind, M_bind. now rewrite Hl.
Qed.

Lemma ends_ensure f0 ty b u r u' : ensure_bound f0 ty b u = Some (r, u') -> substitutions u' = substitutions u.
Proof. intros Hr. exact (proj1 (proj1 (ensure_bound_sound (fun _ _ => True) f0 _ _ _ _ _ Hr))). Qed.

Lemma ensure_bound_ends ty b u : acyclic (substitutions u) -> exists r u', ends (fun f => ensure_bound f ty b) u r u' /\ substitutions u' = substitutions u.
Proof.
  intros Hac. enough (Hn : forall n ty b u t, acyclic (substitutions u) -> resolves (substitutions u) ty t -> (ty_size t < n)%nat -> exists r u', ends (fun f => ensure_bound f ty b) u r u').
  { destruct (substitute_terminates _ ty Hac) as [t Ht]. destruct (Hn (S (ty_size t)) ty b u t Hac Ht ltac:(lia)) as (r & u' & Hr). exists r, u'. split; [exact Hr|].
    destruct Hr as [f0 Hf]. exact (ends_ensure f0 ty b u r u' (Hf f0 ltac:(lia))). }
  clear ty b u Hac. induction n as [|n IH]; intros ty b u t Hac Ht Hsize; [lia|].
  enough (Hnode : exists r u', ends (fun f => ensure_node f t b) u r u').
  { destruct Hnode as (r & u' & Hr). exists r, u'. eapply eventually_succ; [|exact (eventually_and _ _ Ht Hr)]. intros f [H1 H2]. now rewrite ensure_step, H1. }
  assert (Hall : exists r u', ends (fun f => try_for_each (fun c => ensure_bound f c "ToString") (children t)) u r u' /\ substitutions u' = substitutions u).
  { apply (ends_try_for_each (fun f c => ensure_bound f c "ToString") (fun u1 => substitutions u1 = substitutions u)); [|reflexivity]. intros c u1 Hc Hu1.
    pose proof (resolved_child _ c t (resolves_resolved _ _ _ Ht) Hc) as Hres. destruct (IH c "ToString"%string u1 c) as (r & u' & Hr).
    - now rewrite Hu1.
    - rewrite Hu1. now apply resolved_resolves.
    - pose proof (child_smaller c t Hc). lia.
    - exists r, u'. split; [exact Hr|]. destruct Hr as [f0 Hf]. rewrite <- Hu1. exact (ends_ensure f0 _ _ _ _ _ (Hf f0 ltac:(lia))). }
  assert (Hstop : forall m : MU UnifyResult, (exists r u', m u = Some (r, u')) -> exists r u', ends (fun _ => m) u r u') by (intros m (r & u' & Hr); exists r, u'; now apply eventually_always).
  unfold ensure_node. destruct_ty t; try (apply Hstop, elementary_some; [reflexivity|discriminate]).
  - destruct (bool_decide _); [destruct Hall as (r & u' & Hr & _); now exists r, u'|apply Hstop, elementary_some; [reflexivity|discriminate]].
  - destruct (bool_decide _); [destruct Hall as (r & u' & Hr & _); now exists r, u'|apply Hstop, elementary_some; [reflexivity|discriminate]].
  - apply Hstop. now do 2 eexists.
  - apply Hstop. destruct (_ && _); now do 2 eexists.
  - apply Hstop. destruct (_ && _); now do 2 eexists.
Qed.

(** Either nothing is substituted or one more variable, by a type that does not contain it. *)
Lemma add_substitution_ends x ty u : acyclic (substitutions u) -> exists r u', ends (fun f => add_substitution f x ty) u r u' /\
  (substitutions u' = substitutions u \/ (exists t, resolves (substitutions u) ty t /\ substitutions u' = <[x := t]> (substitutions u) /\ x ∉ vars t)).
Proof.
  intros Hac. destruct (substitute_terminates _ ty Hac) as [t Ht].
  enough (Hgo : exists r u', ends (fun f => if contains_type_var t x then mret (UErr (DependOnEachOther t x)) else
      and_then (try_for_each (fun bound => ensure_bound f t bound) (elements (type_var_bounds x u))) (modify (fun u => set_substitutions (<[x := t]> (substitutions u)) u);; mret UOk)) u r u' /\
    (substitutions u' = substitutions u \/ (substitutions u' = <[x := t]> (substitutions u) /\ x ∉ vars t))).
  { destruct Hgo as (r & u' & Hr & Hs). exists r, u'. split; [|destruct Hs as [Hs|[Hs Hx]]; [now left|right; exists t; auto]].
    eapply eventually_mono; [|exact (eventually_and _ _ Ht Hr)]. intros f [H1 H2]. unfold add_substitution, gets, lift. unfold mbind at 1, M_bind at 1. unfold mbind at 1, M_bind at 1. rewrite H1.
    destruct (contains_type_var t x); exact H2. }
  destruct (contains_type_var t x) eqn:Hocc; [do 2 eexists; split; [now apply eventually_always|now left]|]. apply bool_decide_eq_false in Hocc.
  destruct (ends_try_for_each (fun f b => ensure_bound f t b) (fun u1 => substitutions u1 = substitutions u) (elements (type_var_bounds x u))) with (u := u) as ([|e] & u1 & Hr & Hu1).
  - intros b u1 _ Hu1. destruct (ensure_bound_ends t b u1) as (r & u' & Hr & Hs); [now rewrite Hu1|]. exists r, u'. split; [exact Hr|congruence].
  - reflexivity.
  - exists UOk, (set_substitutions (<[x := t]> (substitutions u1)) u1). split.
    + apply (ends_and_then (fun f => try_for_each (fun b => ensure_bound f t b) _) (fun _ => _) u UOk u1 Hr). now apply eventually_always.
    + right. split; [cbn; now rewrite Hu1|exact Hocc].
  - exists (UErr e), u1. split; [now apply (ends_and_then_err (fun f => try_for_each (fun b => ensure_bound f t b) _) (fun _ => _))|now left].
Qed.

Section UnifyEnds.
Variable arity : SymbolPath -> nat.
(** The variables that can occur. *)
Variable V : gset string.

Definition node_in (t : Ty64) : Prop := wf_node arity t /\ (forall x, t = TTypeVar x -> x ∈ V).
Notation inside := (everywhere node_in).

Record Good (u : Unifier) : Prop := {
  good_acyclic : acyclic (substitutions u);
  good_inside : forall x t, substitutions u !! x = Some t -> inside t
}.

(** The variables without a substitution. *)
Definition unsolved (u : Unifier) : nat := size (V ∖ dom (substitutions u)).

Lemma node_in_same t t' : same_node t t' -> node_in t -> node_in t'.
Proof.
  intros Hs [Hw Hx]. split; [now apply (wf_same_node arity t)|]. intros x ->. destruct_ty t; cbn in Hs; try easy. subst name. now apply Hx.
Qed.

Lemma resolves_inside u t t' : Good u -> inside t -> resolves (substitutions u) t t' -> inside t'.
Proof. intros [_ Hi] Ht [f Hf]. exact (substitute_everywhere node_in node_in_same _ f Hi t t' Ht (Hf f ltac:(lia))). Qed.

Lemma unsolved_insert u u' x t : x ∈ V -> substitutions u !! x = None -> substitutions u' = <[x := t]> (substitutions u) -> (unsolved u' < unsolved u)%nat.
Proof.
  intros Hx Hn Hs. unfold unsolved. rewrite Hs, dom_insert_L. apply subset_size. split; [set_solver|]. intros Hsub. apply not_elem_of_dom in Hn. set_solver.
Qed.

Definition progress (u u' : Unifier) : Prop := Good u' /\ (substitutions u' = substitutions u \/ (unsolved u' < unsolved u)%nat).
Definition unify_ends_for (a b : Ty64) (u : Unifier) : Prop := exists r u', ends (fun f => unify_types f a b) u r u' /\ progress u u'.

Lemma progress_refl u : Good u -> progress u u.
Proof. intros Hg. split; [exact Hg|now left]. Qed.

Lemma add_substitution_progress x ty u : Good u -> inside ty -> x ∈ V -> substitutions u !! x = None -> exists r u', ends (fun f => add_substitution f x ty) u r u' /\ progress u u'.
Proof.
  intros Hg Hty HxV Hx. destruct (add_substitution_ends x ty u (good_acyclic u Hg)) as (r & u' & Hr & Hs). exists r, u'. split; [exact Hr|].
  destruct Hs as [Hs|(t & Ht & Hs & Hxt)]; split.
  - split; rewrite Hs; apply Hg.
  - now left.
  - split; rewrite Hs; [apply acyclic_insert; [apply Hg|exact (resolves_resolved _ _ _ Ht)|exact Hxt]|].
    intros y t' [[<- <-]|[_ Hy]]%lookup_insert_Some; [exact (resolves_inside u ty t Hg Hty Ht)|exact (good_inside u Hg y t' Hy)].
  - right. now apply (unsolved_insert u u' x t).
Qed.

Lemma unify_nodes_step f a b a' b' u : substitute f (substitutions u) a = Some a' -> substitute f (substitutions u) b = Some b' -> a' <> b' ->
  unify_types (S f) a b u = unify_nodes f a' b' u.
Proof. intros Ha Hb Hne. rewrite unify_step, Ha, Hb. destruct (ty_eqb a' b') eqn:He; [apply ty_eqb_spec in He; contradiction|reflexivity]. Qed.

(** The children of two nodes are unified if every smaller problem is. *)
Lemma unify_children_ends u m l : Good u ->
  (forall a b u1, Good u1 -> inside a -> inside b -> (unsolved u1 < unsolved u)%nat -> unify_ends_for a b u1) ->
  (forall a b u1, Good u1 -> inside a -> inside b -> resolved (substitutions u1) a -> resolved (substitutions u1) b -> unsolved u1 = unsolved u -> (ty_size a + ty_size b < m)%nat -> unify_ends_for a b u1) ->
  (forall p, p ∈ l -> inside (fst p) /\ inside (snd p) /\ resolved (substitutions u) (fst p) /\ resolved (substitutions u) (snd p) /\ (ty_size (fst p) + ty_size (snd p) < m)%nat) ->
  exists r u', ends (fun f => try_for_each (fun p => unify_types f (fst p) (snd p)) l) u r u' /\ progress u u'.
Proof.
  intros Hg Hless Hsame Hl. apply (ends_try_for_each (fun f p => unify_types f (fst p) (snd p)) (progress u)); [|now apply progress_refl].
  intros p u1 Hp [Hg1 Hs1]. destruct (Hl p Hp) as (Ha & Hb & Hra & Hrb & Hm).
  assert (Hone : unify_ends_for (fst p) (snd p) u1).
  { destruct Hs1 as [Hs1|Hs1]; [|now apply Hless]. apply Hsame; try assumption; try (now rewrite Hs1). unfold unsolved. now rewrite Hs1. }
  destruct Hone as (r & u2 & Hr & Hg2 & Hs2). exists r, u2. split; [exact Hr|]. split; [exact Hg2|].
  assert (Heq : forall v w, substitutions v = substitutions w -> unsolved v = unsolved w) by (intros v w Hvw; unfold unsolved; now rewrite Hvw).
  destruct Hs1 as [Hs1|Hs1], Hs2 as [Hs2|Hs2]; [left; congruence|right; pose proof (Heq _ _ Hs1); lia|right; pose proof (Heq _ _ Hs2); lia|right; lia].
Qed.

Lemma zip_elem {A B} (l : list A) (l' : list B) p : p ∈ zip l l' -> fst p ∈ l /\ snd p ∈ l'.
Proof.
  revert l'. induction l as [|x l IH]; intros [|y l'] Hp; try (now apply elem_of_nil in Hp). apply elem_of_cons in Hp as [->|Hp]; [split; now left|].
  destruct (IH l' Hp). split; now right.
Qed.

Lemma unify_nodes_ends u a b : Good u -> inside a -> inside b -> resolved (substitutions u) a -> resolved (substitutions u) b -> a <> b ->
  (forall l, (forall p, p ∈ l -> fst p ∈ children a /\ snd p ∈ children b) -> exists r u', ends (fun f => try_for_each (fun p => unify_types f (fst p) (snd p)) l) u r u' /\ progress u u') ->
  exists r u', ends (fun f => unify_nodes f a b) u r u' /\ progress u u'.
Proof.
  intros Hg Ha Hb Hra Hrb Hne Hl.
  assert (Hstop : forall r : UnifyResult, exists r' u', ends (fun _ => mret r) u r' u' /\ progress u u') by (intros r; exists r, u; split; [now apply eventually_always|now apply progress_refl]).
  assert (Hvar : forall x, a = TTypeVar x -> exists r u', ends (fun f => add_substitution f x b) u r u' /\ progress u u').
  { intros x ->. apply (add_substitution_progress x b u Hg Hb); [exact (proj2 (everywhere_here _ _ Ha) x eq_refl)|apply Hra; now left]. }
  assert (Hvar' : forall x, b = TTypeVar x -> exists r u', ends (fun f => add_substitution f x a) u r u' /\ progress u u').
  { intros x ->. apply (add_substitution_progress x a u Hg Ha); [exact (proj2 (everywhere_here _ _ Hb) x eq_refl)|apply Hrb; now left]. }
  assert (Hwa := proj1 (everywhere_here _ _ Ha)). assert (Hwb := proj1 (everywhere_here _ _ Hb)).
  assert (Hzip : exists r u', ends (fun f => try_for_each (fun p => unify_types f (fst p) (snd p)) (zip (children a) (children b))) u r u' /\ progress u u') by (apply Hl; intros p; apply zip_elem).
  destruct_ty a; destruct_ty b; cbn [unify_nodes]; first [ now apply Hvar | now apply Hvar' | apply Hstop | idtac ].
  - destruct (negb _); [apply Hstop|]. destruct Hzip as (r & u' & Hr & Hp). exists r, u'. split; [|exact Hp]. eapply eventually_mono; [|exact Hr]. intros f Hf.
    cbn [children zip zip_with try_for_each fst snd] in Hf. now rewrite and_then_ret in Hf.
  - destruct (negb _); [apply Hstop|]. exact Hzip.
  - destruct (negb _) eqn:Hlen; [apply Hstop|]. apply negb_false_iff, Nat.eqb_eq in Hlen. destruct Hzip as (r & u' & Hr & Hp). exists r, u'. split; [|exact Hp].
    eapply eventually_mono; [|exact Hr]. intros f Hf. cbn [children] in Hf. rewrite zip_with_app, try_for_each_app in Hf by exact Hlen. rewrite <- Hf. apply and_then_ext. intros u1. symmetry. apply and_then_ret.
  - destruct (bool_decide _); [|apply Hstop]. cbn in Hwa, Hwb. rewrite !(proj2 (Nat.eqb_neq _ 0)) by lia. cbn [negb andb].
    destruct Hzip as (r & u' & Hr & Hp). exists r, u'. split; [|exact Hp]. exact Hr.
Qed.

Lemma unify_all_end : forall n u a b, unsolved u = n -> Good u -> inside a -> inside b -> unify_ends_for a b u.
Proof.
  induction n as [n IHn] using lt_wf_ind. assert (Hm : forall m u a b a' b', unsolved u = n -> Good u -> inside a -> inside b -> resolves (substitutions u) a a' -> resolves (substitutions u) b b' ->
    (ty_size a' + ty_size b')%nat = m -> unify_ends_for a b u).
  { induction m as [m IHm] using lt_wf_ind. intros u a b a' b' Hn Hg Ha Hb Hra Hrb Hsize. pose proof (resolves_inside u a a' Hg Ha Hra) as Ha'. pose proof (resolves_inside u b b' Hg Hb Hrb) as Hb'.
    destruct (ty_eqb a' b') eqn:Heq.
    { exists UOk, u. split; [|now apply progress_refl]. eapply eventually_succ; [|exact (eventually_and _ _ Hra Hrb)]. intros f [H1 H2]. now rewrite unify_step, H1, H2, Heq. }
    assert (Hne : a' <> b') by (intros He; apply ty_eqb_spec in He; congruence). pose proof (resolves_resolved _ _ _ Hra) as Hresa. pose proof (resolves_resolved _ _ _ Hrb) as Hresb.
    destruct (unify_nodes_ends u a' b' Hg Ha' Hb' Hresa Hresb Hne) as (r & u' & Hr & Hp).
    - intros l Hl. apply (unify_children_ends u m l Hg).
      + intros c d u1 Hg1 Hc Hd Hlt. apply (IHn (unsolved u1)); [lia|reflexivity|exact Hg1|exact Hc|exact Hd].
      + intros c d u1 Hg1 Hc Hd Hrc Hrd Heq1 Hlt. apply (IHm (ty_size c + ty_size d)%nat Hlt u1 c d c d); [congruence|exact Hg1|exact Hc|exact Hd|now apply resolved_resolves|now apply resolved_resolves|reflexivity].
      + intros p Hp. destruct (Hl p Hp) as [Hpa Hpb]. pose proof (child_smaller _ _ Hpa). pose proof (child_smaller _ _ Hpb).
        split; [exact (everywhere_child _ _ _ Ha' Hpa)|]. split; [exact (everywhere_child _ _ _ Hb' Hpb)|]. split; [exact (resolved_child _ _ _ Hresa Hpa)|]. split; [exact (resolved_child _ _ _ Hresb Hpb)|lia].
    - exists r, u'. split; [|exact Hp]. eapply eventually_succ; [|exact (eventually_and _ _ (eventually_and _ _ Hra Hrb) Hr)]. intros f [[H1 H2] H3]. now rewrite (unify_nodes_step f a b a' b' u H1 H2 Hne). }
  intros u a b Hn Hg Ha Hb. destruct (substitute_terminates _ a (good_acyclic u Hg)) as [a' Hra]. destruct (substitute_terminates _ b (good_acyclic u Hg)) as [b' Hrb].
  now apply (Hm (ty_size a' + ty_size b')%nat u a b a' b').
Qed.

End UnifyEnds.

(** ** Solving a list of constraints *)

(** What the type checker asks of the unifier. *)
Inductive TypeConstraint := CEqual (inner expected : Ty64) | CBound (ty : Ty64) (bound : string).

Definition solve_constraint (fuel : nat) (c : TypeConstraint) : MU UnifyResult :=
  match c with
  | CEqual inner expected => unify_types fuel inner expected
  | CBound ty bound => ensure_bound fuel ty bound
  end.

Definition solve_constraints (fuel : nat) (l : list TypeConstraint) : MU UnifyResult := try_for_each (solve_constraint fuel) l.

(** A constraint is satisfied by an assignment. *)
Definition satisfied (holds : string -> string -> Prop) (σ : string -> Ty64) (c : TypeConstraint) : Prop :=
  match c with
  | CEqual a b => compatible (apply σ a) (apply σ b)
  | CBound ty b => sat holds (apply σ ty) b
  end.

Definition wf_constraint (arity : SymbolPath -> nat) (c : TypeConstraint) : Prop :=
  match c with CEqual a b => well_formed arity a /\ well_formed arity b | CBound _ _ => True end.

Lemma solve_constraint_sound holds arity f c u r u' : solve_constraint f c u = Some (r, u') -> wf_constraint arity c -> wf_substitutions arity (substitutions u) ->
  wf_substitutions arity (substitutions u') /\ (r = UOk -> forall σ, solves holds σ u' -> solves holds σ u /\ satisfied holds σ c).
Proof.
  destruct c as [a b|ty b]; cbn [solve_constraint wf_constraint satisfied]; intros Hr Hwf Hs.
  - destruct Hwf. now apply (unify_types_sound holds arity f).
  - destruct (ensure_bound_sound holds f _ _ _ _ _ Hr) as [Hm Hok]. split; [now rewrite (proj1 Hm)|]. intros Hrok σ Hσ. split; [now apply (more_bounds_solves holds _ σ u u')|].
    apply (Hok Hrok (fun _ => True)); [|exact Hσ]. now intros f' t _ x _.
Qed.

Lemma solve_constraints_sound holds arity f l : forall u r u', solve_constraints f l u = Some (r, u') -> Forall (wf_constraint arity) l -> wf_substitutions arity (substitutions u) ->
  wf_substitutions arity (substitutions u') /\ (r = UOk -> forall σ, solves holds σ u' -> solves holds σ u /\ Forall (satisfied holds σ) l).
Proof.
  induction l as [|c l IH]; intros u r u' Hr Hwf Hs; [injection Hr as <- <-; split; [exact Hs|]; intros _ σ Hσ; split; [exact Hσ|constructor]|].
  apply Forall_cons in Hwf as [Hc Hwf]. unfold solve_constraints in Hr. cbn [try_for_each] in Hr. apply and_then_cases in Hr as [(u1 & H1 & H2)|(e & -> & H1)];
    destruct (solve_constraint_sound holds arity f c _ _ _ H1 Hc Hs) as [Hs1 Hok1]; [|split; [exact Hs1|discriminate]].
  destruct (IH _ _ _ H2 Hwf Hs1) as [Hs2 Hok2]. split; [exact Hs2|]. intros -> σ Hσ. destruct (Hok2 eq_refl σ Hσ) as [Hσ1 Hl]. destruct (Hok1 eq_refl σ Hσ1) as [Hσ0 Hcs].
  split; [exact Hσ0|]. now apply Forall_cons.
Qed.

(** The assignment of the substitutions themselves. *)
Lemma canonical s : acyclic s -> exists σ, agrees σ s /\ (forall x, s !! x = None -> σ x = TTypeVar x) /\ forall t t', resolves s t t' -> apply σ t = t'.
Proof.
  intros Hac. assert (Hdom : exists f0, forall x, x ∈ dom s -> exists t', forall f, (f0 <= f)%nat -> substitute f s (TTypeVar x) = Some t').
  { enough (Hl : forall l : list string, exists f0, forall x, x ∈ l -> exists t', forall f, (f0 <= f)%nat -> substitute f s (TTypeVar x) = Some t').
    { destruct (Hl (elements (dom s))) as [f0 Hf0]. exists f0. intros x Hx. apply Hf0. now apply elem_of_elements. }
    induction l as [|x l [f1 IH]]; [exists 0%nat; intros x Hx; now apply elem_of_nil in Hx|]. destruct (substitute_terminates s (TTypeVar x) Hac) as [t [f2 Ht]].
    exists (Nat.max f1 f2). intros y Hy. apply elem_of_cons in Hy as [->|Hy]; [exists t; intros f Hf; apply Ht; lia|]. destruct (IH y Hy) as [t' Ht']. exists t'. intros f Hf. apply Ht'. lia. }
  destruct Hdom as [f0 Hdom]. set (σ := fun x => default (TTypeVar x) (substitute f0 s (TTypeVar x))).
  assert (Hvar : forall x t', resolves s (TTypeVar x) t' -> σ x = t').
  { intros x t' [f1 Ht']. unfold σ. destruct (decide (x ∈ dom s)) as [Hx|Hx].
    - destruct (Hdom x Hx) as [t Ht]. rewrite (Ht f0 ltac:(lia)). cbn. pose proof (Ht (Nat.max f0 f1) ltac:(lia)) as E. rewrite (Ht' (Nat.max f0 f1) ltac:(lia)) in E. now injection E.
    - apply not_elem_of_dom in Hx. assert (Hs : forall f, substitute (S f) s (TTypeVar x) = Some (TTypeVar x)) by (intros f; cbn; now rewrite Hx).
      pose proof (Ht' (S f1) ltac:(lia)) as E. rewrite Hs in E. injection E as <-. destruct f0; [reflexivity|]. now rewrite Hs. }
  assert (Happ : forall t t', resolves s t t' -> apply σ t = t').
  { induction t as [t IH] using ty_children_ind. intros t' Ht'. destruct (is_var t) eqn:Hv; [destruct_ty t; try discriminate; now apply Hvar|].
    destruct Ht' as [f1 Ht']. pose proof (Ht' (S f1) ltac:(lia)) as Hs. rewrite substitute_step in Hs by exact Hv. apply map_children_opt_spec in Hs as [Hn _].
    rewrite apply_node by exact Hv. apply (same_node_unique t); [apply same_node_map|exact Hn|]. rewrite children_map. apply list_eq. intros i. rewrite list_lookup_fmap.
    assert (Hc : forall f, (f1 <= f)%nat -> Forall2 (fun c c' => substitute f s c = Some c') (children t) (children t')).
    { intros f Hf. pose proof (Ht' (S f) ltac:(lia)) as Hs. rewrite substitute_step in Hs by exact Hv. now apply map_children_opt_spec in Hs. }
    destruct (children t !! i) as [c|] eqn:Hi.
    - destruct (Forall2_lookup_l _ _ _ _ _ (Hc f1 ltac:(lia)) Hi) as (c' & Hi' & _). rewrite Hi'. cbn. f_equal. apply (IH c); [eapply list_elem_of_lookup_2; exact Hi|].
      exists f1. intros f Hf. destruct (Forall2_lookup_l _ _ _ _ _ (Hc f Hf) Hi) as (c2 & Hi2 & Hc2). rewrite Hi' in Hi2. injection Hi2 as <-. exact Hc2.
    - cbn. symmetry. apply lookup_ge_None. rewrite <- (Forall2_length _ _ _ (Hc f1 ltac:(lia))). now apply lookup_ge_None. }
  exists σ. split; [|split; [|exact Happ]].
  - intros x t Hx. destruct (substitute_terminates s t Hac) as [t' Ht']. rewrite (Happ t t' Ht'). apply Hvar. eapply eventually_succ; [|exact Ht']. intros f Hf. cbn. now rewrite Hx.
  - intros x Hx. apply Hvar. exists 1%nat. intros [|f] Hf; [lia|]. cbn. now rewrite Hx.
Qed.

(** The traits recorded for the variables that are left. *)
Definition assumed (u : Unifier) (x b : string) : Prop := b ∈ type_var_bounds x u.

(** C11: Soundness of the type checker's unifier. When a list of constraints is accepted, then [substitute] is defined
    on all types, and maps the two sides of every equation to types that are equal (up to the type [!], which
    is compatible with everything), and the type of every bound to one that has the trait, given
    the bounds recorded for the variables that are left. *)
Theorem unifier_sound arity f l u : Forall (wf_constraint arity) l -> solve_constraints f l unifier_default = Some (UOk, u) ->
  (forall t, exists t', resolves (substitutions u) t t') /\
  Forall (fun c => match c with
    | CEqual a b => forall a' b', resolves (substitutions u) a a' -> resolves (substitutions u) b b' -> compatible a' b'
    | CBound ty b => forall t', resolves (substitutions u) ty t' -> sat (assumed u) t' b
    end) l.
Proof.
  intros Hwf Hr. destruct (solve_constraints_sound (assumed u) arity f l _ _ _ Hr Hwf) as [[Hac _] Hok]; [split; [exact acyclic_empty|intros x t Hx; cbn in Hx; rewrite lookup_empty in Hx; discriminate]|].
  split; [intros t; now apply substitute_terminates|]. destruct (canonical _ Hac) as (σ & Hag & Hfree & Happ).
  assert (Hσ : solves (assumed u) σ u) by (split; [exact Hag|]; intros x b _ Hx Hb; rewrite (Hfree x Hx); now apply sat_variable).
  destruct (Hok eq_refl σ Hσ) as [_ Hall]. eapply List.Forall_impl; [|exact Hall]. intros [a b|ty b] Hc; cbn [satisfied] in Hc.
  - intros a' b' Ha Hb. now rewrite <- (Happ a a' Ha), <- (Happ b b' Hb).
  - intros t' Ht. now rewrite <- (Happ ty t' Ht).
Qed.

(** C12: It finds the most general solution: if some assignment of types makes both sides of every equation equal
    and gives every type its traits, then an accepted run leaves substitutions and bounds that this assignment
    satisfies, and a run is only refused for the bound [ToSelectedExprs] on an array whose elements are not known yet. *)
Theorem unifier_complete holds σ f l r u :
  Forall (fun c => match c with
    | CEqual a b => no_bottom a /\ no_bottom b /\ apply σ a = apply σ b
    | CBound ty b => sat holds (apply σ ty) b
    end) l ->
  solve_constraints f l unifier_default = Some (r, u) ->
  (r = UOk -> solves holds σ u) /\ (forall e, r = UErr e -> undetermined e).
Proof.
  intros Hl. assert (Hnb0 : no_bottom_substitutions (substitutions unifier_default)) by (intros x t Hx; cbn in Hx; rewrite lookup_empty in Hx; discriminate).
  assert (Hσ0 : solves holds σ unifier_default) by (split; [intros x t Hx; cbn in Hx; rewrite lookup_empty in Hx; discriminate|intros x b _ _ Hb; unfold type_var_bounds in Hb; cbn in Hb; rewrite lookup_empty in Hb; set_solver]).
  revert Hnb0 Hσ0. generalize unifier_default as u0. induction l as [|c l IH]; intros u0 Hnb Hσ Hr; [injection Hr as <- <-; now split|].
  apply Forall_cons in Hl as [Hc Hl]. unfold solve_constraints in Hr. cbn [try_for_each] in Hr.
  assert (Hone : forall r1 u1, solve_constraint f c u0 = Some (r1, u1) -> (r1 = UOk -> solves holds σ u1 /\ no_bottom_substitutions (substitutions u1)) /\ (forall e, r1 = UErr e -> undetermined e)).
  { intros r1 u1 H1. destruct c as [a b|ty b]; cbn [solve_constraint] in H1.
    - destruct Hc as (Ha & Hb & Hab). exact (unify_types_complete holds f σ a b u0 r1 u1 H1 Ha Hb Hnb Hσ Hab).
    - destruct (ensure_bound_complete holds f σ ty b u0 r1 u1 H1 Hσ Hc) as [Hok Herr]. split; [|exact Herr]. intros Hr1. split; [now apply Hok|].
      now rewrite (proj1 (proj1 (ensure_bound_sound holds f _ _ _ _ _ H1))). }
  apply and_then_cases in Hr as [(u1 & H1 & H2)|(e & -> & H1)]; destruct (Hone _ _ H1) as [Hok Herr].
  - destruct (Hok eq_refl) as [Hσ1 Hnb1]. exact (IH Hl u1 Hnb1 Hσ1 H2).
  - split; [discriminate|exact Herr].
Qed.

Definition constraint_vars (c : TypeConstraint) : gset string :=
  match c with CEqual a b => list_to_set (vars a) ∪ list_to_set (vars b) | CBound _ _ => ∅ end.

Lemma everywhere_inside arity V t : well_formed arity t -> (forall x, x ∈ vars t -> x ∈ V) -> everywhere (node_in arity V) t.
Proof.
  induction t as [t IH] using ty_children_ind. intros Hwf Hx. constructor.
  - split; [exact (everywhere_here _ _ Hwf)|]. intros x ->. apply Hx. now left.
  - intros c Hc. apply (IH c Hc); [exact (everywhere_child _ _ _ Hwf Hc)|]. intros x Hxc. apply Hx. now apply (vars_child x c).
Qed.

(** C13: The unifier terminates: from some depth of the recursion on, the result does not change any more. *)
Theorem unifier_terminates arity (l : list TypeConstraint) : Forall (wf_constraint arity) l ->
  exists r u, eventually (fun f => solve_constraints f l unifier_default = Some (r, u)).
Proof.
  intros Hwf. set (V := ⋃ (constraint_vars <$> l) : gset string).
  destruct (ends_try_for_each solve_constraint (Good arity V) l) with (u := unifier_default) as (r & u & Hr & _).
  - intros c u Hc Hg. rewrite List.Forall_forall in Hwf. specialize (Hwf c (proj1 (list_elem_of_In _ _) Hc)). destruct c as [a b|ty b]; cbn [solve_constraint].
    + destruct Hwf as [Ha Hb]. assert (Hsub : constraint_vars (CEqual a b) ⊆ V) by (unfold V; intros x Hx; apply elem_of_union_list; exists (constraint_vars (CEqual a b)); split; [apply list_elem_of_fmap; now exists (CEqual a b)|exact Hx]).
      cbn [constraint_vars] in Hsub. destruct (unify_all_end arity V (unsolved V u) u a b eq_refl Hg) as (r & u' & Hr & Hg' & _).
      * apply everywhere_inside; [exact Ha|]. intros x Hx. apply Hsub. apply elem_of_union_l, elem_of_list_to_set. exact Hx.
      * apply everywhere_inside; [exact Hb|]. intros x Hx. apply Hsub. apply elem_of_union_r, elem_of_list_to_set. exact Hx.
      * now exists r, u'.
    + destruct (ensure_bound_ends ty b u (good_acyclic _ _ _ Hg)) as (r & u' & Hr & Hs). exists r, u'. split; [exact Hr|]. destruct Hg as [Hg1 Hg2]. split; now rewrite Hs.
  - split; [exact acyclic_empty|intros x t Hx; cbn in Hx; rewrite lookup_empty in Hx; discriminate].
  - exists r, u. exact Hr.
Qed.

(** ** Instantiation of schemes *)

Definition fresh_name (n : N) : string := "T" +:+ pretty n.

Lemma fresh_name_inj m n : fresh_name m = fresh_name n -> m = n.
Proof. unfold fresh_name. intros He. apply (inj (String.append "T")) in He. now apply (inj pretty) in He. Qed.

(** The names that come next are not in use. *)
Definition names_fresh (u : Unifier) : Prop := forall n, (last_type_var u < n)%N -> substitutions u !! fresh_name n = None.

Lemma ensure_variable f n b u : substitutions u !! n = None -> ensure_bound (S (S f)) (TTypeVar n) b u = Some (UOk, bound_added n b u).
Proof. intros Hn. rewrite ensure_step. cbn [substitute]. rewrite Hn. reflexivity. Qed.

Lemma ensure_variable_all f n l : forall u, substitutions u !! n = None ->
  exists u', for_each (fun b => r ← ensure_bound (S (S f)) (TTypeVar n) b; assertM (match r with UOk => true | UErr _ => false end)) l u = Some (tt, u') /\
    more_bounds u u' /\ forall b, b ∈ l -> b ∈ type_var_bounds n u'.
Proof.
  induction l as [|b l IH]; intros u Hn; [exists u; repeat split; try reflexivity; intros b Hb; now apply elem_of_nil in Hb|].
  pose proof (bound_added_more n b u) as Hm. destruct (IH (bound_added n b u)) as (u' & Hu' & Hm' & Hb'); [now rewrite (proj1 Hm)|].
  exists u'. split; [|split; [now apply (more_bounds_trans u (bound_added n b u))|]].
  - cbn [for_each]. eapply bind_run; [|exact Hu']. eapply bind_run; [exact (ensure_variable f n b u Hn)|]. reflexivity.
  - intros c Hc. apply elem_of_cons in Hc as [->|Hc]; [|now apply Hb']. apply (proj2 (proj2 Hm')). rewrite add_bound_lookup, decide_True by reflexivity. set_solver.
Qed.

(** The instantiation of a scheme never panics: it replaces the quantified variables by new ones, numbered from the
    last one used, which get the bounds of the variables they replace; nothing else changes. *)
Theorem instantiate_scheme_fresh f (scheme : TypeScheme Z) u : names_fresh u ->
  exists u', let names := (fun i => TTypeVar (fresh_name (last_type_var u + 1 + N.of_nat i))) <$> seq 0 (length (scheme_vars scheme)) in
    instantiate_scheme (S (S f)) scheme u =
      Some ((substitute_type_vars (list_to_map (rev (zip (bound_vars (scheme_vars scheme)) names))) (scheme_ty scheme), names), u') /\
    substitutions u' = substitutions u /\ names_fresh u' /\ (forall x, type_var_bounds x u ⊆ type_var_bounds x u') /\
    forall i vb b, scheme_vars scheme !! i = Some vb -> b ∈ snd vb -> b ∈ type_var_bounds (fresh_name (last_type_var u + 1 + N.of_nat i)) u'.
Proof.
  intros Hfresh. unfold instantiate_scheme.
  enough (Hmap : forall l u, names_fresh u -> exists u', map_collect (fun vb : string * gset string =>
      new_var ← new_type_var; for_each (fun b => r ← ensure_bound (S (S f)) new_var b; assertM (match r with UOk => true | UErr _ => false end)) (elements (snd vb));; mret new_var) l u =
      Some ((fun i => TTypeVar (fresh_name (last_type_var u + 1 + N.of_nat i))) <$> seq 0 (length l), u') /\
    substitutions u' = substitutions u /\ names_fresh u' /\ (forall x, type_var_bounds x u ⊆ type_var_bounds x u') /\
    forall i vb b, l !! i = Some vb -> b ∈ snd vb -> b ∈ type_var_bounds (fresh_name (last_type_var u + 1 + N.of_nat i)) u').
  { destruct (Hmap (scheme_vars scheme) u Hfresh) as (u' & Hrun & Hrest). exists u'. cbn zeta. split; [|exact Hrest]. eapply bind_run; [exact Hrun|]. reflexivity. }
  clear u Hfresh. induction l as [|vb l IH]; intros u Hfresh; [exists u; repeat split; try reflexivity; [exact Hfresh|intros i vb b Hi; discriminate]|].
  set (n := (last_type_var u + 1)%N). set (u1 := set_last_type_var n u).
  assert (Hn : substitutions u1 !! fresh_name n = None) by (apply Hfresh; unfold n; lia).
  destruct (ensure_variable_all f (fresh_name n) (elements (snd vb)) u1 Hn) as (u2 & Hrun2 & (Hs2 & Hl2 & Hb2) & Hin2).
  assert (Hfresh2 : names_fresh u2) by (intros m Hmm; rewrite Hs2; apply Hfresh; rewrite Hl2 in Hmm; change (last_type_var u1) with n in Hmm; unfold n in Hmm; lia).
  assert (Hlist : TTypeVar (fresh_name n) :: ((fun i => TTypeVar (E:=Z) (fresh_name (n + 1 + N.of_nat i))) <$> seq 0 (length l)) =
    (fun i => TTypeVar (fresh_name (last_type_var u + 1 + N.of_nat i))) <$> seq 0 (S (length l))).
  { cbn [seq fmap list_fmap]. f_equal; [f_equal; f_equal; unfold n; lia|]. rewrite <- seq_shift. change (map S (seq 0 (length l))) with (S <$> seq 0 (length l)). rewrite <- list_fmap_compose.
    apply list_fmap_ext. intros i k _. cbn. f_equal. f_equal. unfold n. lia. }
  destruct (IH u2 Hfresh2) as (u' & Hrun & Hs & Hf & Hb & Hin). exists u'. rewrite Hl2 in Hrun, Hin. change (last_type_var u1) with n in Hrun, Hin. split; [|split; [now rewrite Hs, Hs2|split; [exact Hf|split]]].
  - cbn [map_collect]. eapply bind_run. { eapply bind_run; [reflexivity|]. eapply bind_run; [exact Hrun2|]. reflexivity. }
    eapply bind_run; [exact Hrun|]. cbn [length]. unfold mret, M_ret. f_equal. f_equal. exact Hlist.
  - intros x. etransitivity; [|apply Hb]. exact (Hb2 x).
  - intros [|i] w b Hi Hbw; cbn in Hi.
    + injection Hi as <-. apply Hb. fold n. replace (n + N.of_nat 0)%N with n by lia. apply Hin2. now apply elem_of_elements.
    + fold n. replace (n + N.of_nat (S i))%N with (n + 1 + N.of_nat i)%N by lia. exact (Hin i w b Hi Hbw).
Qed.

(** ** The properties at concrete constraints *)

Module UnifierDemo.

(** [A -> ([C], C)] against [(A, int) -> B], and a bound on [C]. *)
Definition constraints : list TypeConstraint :=
  [CEqual (TFunction [var "A"; TInt] (var "B")) (TFunction [TArray (var "C") None; var "C"] (TTuple [var "A"])); CBound (var "C") "Add"]%string.
Definition no_parameters (p : SymbolPath) : nat := O.
Definition solution (x : string) : Ty64 :=
  if (x =? "A")%string then TArray TInt None else if (x =? "B")%string then TTuple [TArray TInt None] else if (x =? "C")%string then TInt else var x.

Definition final (l : list TypeConstraint) : Unifier := from_option snd unifier_default (solve_constraints 20 l unifier_default).

Lemma final_run l r : fst <$> solve_constraints 20 l unifier_default = Some r -> solve_constraints 20 l unifier_default = Some (r, final l).
Proof. unfold final. destruct (solve_constraints 20 l unifier_default) as [[r' u]|]; [|discriminate]. intros [= ->]. reflexivity. Qed.

Lemma solved : solve_constraints 20 constraints unifier_default = Some (UOk, final constraints).
Proof. apply final_run. vm_compute. reflexivity. Qed.

Example solved_B : substitute 20 (substitutions (final constraints)) (var "B") = Some (TTuple [TArray TInt None]).
Proof. vm_compute. reflexivity. Qed.

Ltac every_node := apply everywhere_intro; [first [exact I|discriminate]|
  let Hin := fresh in intros ? Hin; cbn in Hin; repeat (apply elem_of_cons in Hin as [->|Hin]); first [now apply elem_of_nil in Hin|every_node]].

Lemma constraints_wf : Forall (wf_constraint no_parameters) constraints.
Proof. constructor; [split; every_node|]. constructor; [exact I|constructor]. Qed.

Lemma unifier_sound_witness : exists t', resolves (substitutions (final constraints)) (var "B") t'.
Proof. exact (proj1 (unifier_sound no_parameters 20 constraints _ constraints_wf solved) (var "B")). Defined.

Lemma unifier_terminates_witness : exists r u, eventually (fun f => solve_constraints f constraints unifier_default = Some (r, u)).
Proof. exact (unifier_terminates no_parameters constraints constraints_wf). Defined.

Lemma constraints_solution : Forall (fun c => match c with
    | CEqual a b => no_bottom a /\ no_bottom b /\ apply solution a = apply solution b
    | CBound ty b => sat (fun _ _ => False) (apply solution ty) b
    end) constraints.
Proof.
  constructor; [|constructor; [|constructor]].
  - split; [every_node|]. split; [every_node|]. vm_compute. reflexivity.
  - eapply sat_elementary; [reflexivity|]. set_solver.
Qed.

Lemma unifier_complete_witness : solves (fun _ _ => False) solution (final constraints).
Proof. exact (proj1 (unifier_complete (fun _ _ => False) solution 20 constraints UOk _ constraints_solution solved) eq_refl). Defined.

(** [<A: Add> A -> A[]]. *)
Definition scheme : TypeScheme Z := mkTypeScheme [("A", {["Add"]})]%string (TFunction [var "A"] (TArray (var "A") None)).

Lemma instantiate_scheme_fresh_witness : exists u', instantiate_scheme 10 scheme unifier_default =
    Some ((TFunction [var "T1"] (TArray (var "T1") None), [var "T1"]), u') /\ "Add"%string ∈ type_var_bounds "T1" u'.
Proof.
  destruct (instantiate_scheme_fresh 8 scheme unifier_default) as (u' & Hrun & _ & _ & _ & Hb); [intros n _; reflexivity|].
  exists u'. split; [etransitivity; [exact Hrun|]; vm_compute; reflexivity|].
  exact (Hb O ("A", {["Add"]})%string "Add"%string eq_refl ltac:(set_solver)).
Defined.

(** The order of the constraints decides whether a bound on an array with an undetermined element is accepted. *)
Definition selected : list TypeConstraint := [CBound (TArray (var "A") None) "ToSelectedExprs"; CEqual (var "A") TExpr]%string.

Example undetermined_refused : fst <$> solve_constraints 20 selected unifier_default = Some (UErr (NotSatisfied (TArray (var "A") None) "ToSelectedExprs")).
Proof. vm_compute. reflexivity. Qed.

Example determined_accepted : fst <$> solve_constraints 20 (rev selected) unifier_default = Some UOk.
Proof. vm_compute. reflexivity. Qed.

End UnifierDemo.
